(* ===== verification/_CoqProject ===== *)
-Q . S2P
Prelude.v
Ids.v
Bytes.v
Bits.v
Bitset.v
BitPack.v
BitPackProps.v
Adjacency.v
AdjacencyFacts.v
AdjacencyProps.v
Delta.v
RunLength.v
Selector.v
RowVersions.v
RowVersionFacts.v
RowVersionProps.v
RowCollapse.v
RowCommit.v
Mvcc.v
MvccFacts.v
ReadPins.v
History.v
TxTypes.v
TxManager.v
TxClaims.v
TxSystem.v
TxEpochs.v
TxReaders.v
TxIsolation.v
TxProperties.v
PageAlloc.v
RunJoin.v
NodeAdjacency.v
NodeAdjacencyProps.v
AdjacencyChunk.v
AdjacencyChunkFacts.v
WalFrame.v
WalReader.v
WalScanFacts.v
WalWriter.v
WalLog.v
WalWriterFacts.v
WalProps.v
Hlc.v
SecondChance.v
Date.v
DateProps.v
Wide.v
Decimal.v
DecimalFacts.v
DecimalDiv.v
DecimalSums.v
DecimalProps.v
Values.v
ValueCodec.v
ValueCodecFacts.v
ValueRoundTrip.v
ValueProps.v
Chunks.v
FileHeaders.v
Directory.v
ImageFile.v
ImageWriter.v
FileManager.v
WriterInv.v
WriterOps.v
ManagerFacts.v
StorageFile.v
StorageRefines.v
StorageProps.v
Streams.v
StreamProps.v
Changes.v
ChangeFacts.v
LogRecord.v
LogRecordProps.v
CatalogRecord.v
CatalogProps.v
Replay.v
ReplayProps.v
