(* ===== verification/Prelude.v ===== *)
(** * Grafeo: verification of the transactional core, the log and the codecs

    Grafeo (the Rust workspace under src/crates) is an embedded graph
    database. Sessions run queries in transactions; a transaction manager
    gives each a snapshot epoch, refuses conflicting claims and publishes
    commits in the order of their epochs; the stores keep versions that a
    reader sees by its epoch; a history keeps the times of commits for reads
    in the past; the columns and the adjacency lists keep integers packed;
    the write-ahead log keeps what was committed across a crash, and the
    storage file hands out the pages a checkpoint writes. This library models
    those parts and proves what they promise each other.

    ** Parts, files and sources

    Under grafeo-common/src, grafeo-core/src, grafeo-engine/src and
    grafeo-storage/src.

    Identifiers, versions and rows:

    - Ids.v: types/id.rs and types/read_view.rs, the epochs, the transaction
      ids and the read views; an id is the [Z] of its [u64].
    - Mvcc.v, MvccFacts.v: mvcc.rs. A [VersionChain] is the list of its
      versions, newest first; [VersionInfo] is the record of the source; an
      operation with [&mut self] returns the new chain beside its result.
    - Bits.v, Bitset.v: the bit tricks on [u64] words (the loop
      over set bits) and graph/rowgroup/bitset.rs.
    - RowVersions.v with RowVersionFacts.v, RowVersionProps.v, RowCollapse.v
      and RowCommit.v: graph/rowgroup/versions.rs and the stamps of
      graph/rowgroup/mod.rs. A [Versions] is the list of its vectors of 2048
      rows, flat (a bitset) or stamped (constant or per-row creates, few or
      per-row deletes), as in the source.

    Transactions:

    - ReadPins.v, History.v: the pinned read epochs of transaction/manager.rs
      and transaction/history.rs; a clock reading is an argument [now].
    - TxTypes.v, TxManager.v: transaction/manager.rs, its types and every
      method that changes transactions, claims, epochs, the counter, the
      flags, the read pins or the history. Hash tables are [gmap]s and
      [gset]s; the change sets of the stores are the class [Engine], of which
      nothing is assumed.
    - TxSystem.v: the manager with what its callers hold (the commit lock, the
      handles of written commits, the read pins, the idle gate), as a step
      relation: one step is one operation of one caller, waits are guards,
      and [reachable] is any interleaving from a new manager.
    - TxClaims.v, TxEpochs.v, TxReaders.v, TxIsolation.v: the
      invariants of that system, by induction on its steps: claims, epochs and
      publishing, readers and horizons, conflicts.
    - TxProperties.v: the theorems about the manager, and a concrete run at
      which each holds.

    Codecs and adjacency:

    - Bytes.v: little-endian words.
    - BitPack.v, BitPackProps.v: codec/bitpack.rs.
    - Delta.v: codec/delta.rs. RunLength.v: codec/runlength.rs.
    - Selector.v: the integers of codec/selector.rs, and concrete inputs for
      the codecs and the chunked adjacency.
    - Adjacency.v, AdjacencyFacts.v, AdjacencyProps.v: index/adjacency.rs, the
      chunked adjacency of the in-memory store.
    - RunJoin.v: the joins over sorted runs of graph/rowgroup/adjacency.rs
      (the galloping search, the merge and the seek of an intersection).
    - NodeAdjacency.v, NodeAdjacencyProps.v: the rest of
      graph/rowgroup/adjacency.rs, the lists of a row group as a frozen part
      by type and a sorted tail.
    - AdjacencyChunk.v, AdjacencyChunkFacts.v: graph/rowgroup/
      adjacency_chunk.rs, the body it packs its columns in
      (codec/column_chunk.rs) and the parts of graph/rowgroup/section.rs that
      write the lists of a direction in chunks and load them back.

    Storage:

    - PageAlloc.v: file/v3/alloc.rs. The free runs are the [gmap] from starts
      to lengths that stands for the [BTreeMap], read in the order of starts.
    - WalFrame.v, WalReader.v, WalWriter.v: wal/frame.rs with the cipher
      calls of wal/cipher.rs, wal/reader.rs and wal/writer.rs. Checksum and
      cipher are the class [WalEnv] with their laws; the directory is the list
      of its segments, a segment its bytes; the faults of the disk (a short
      write, a failed cut, sync or rotation) are arguments of the operations.
    - WalScanFacts.v, WalLog.v, WalWriterFacts.v: what a scan of a log finds,
      the layout of a log and cutting it at a clean end, and the invariant of
      the writer. WalProps.v: a crash at any byte, the
      theorems and a concrete log.
    - Chunks.v: the section types, chunk kinds and chunk identities of
      storage/section.rs and storage/chunk.rs.
    - FileHeaders.v, Directory.v, ImageFile.v, ImageWriter.v: file/v3/
      header.rs, directory.rs, reader.rs with cipher.rs, and writer.rs.
      Checksum, cipher and random nonces are the class [FileEnv] with their
      laws. A file is the list of its bytes; a [Disk] has the bytes reads see,
      those the last sync made durable, the changes since and the faults to
      come. The writer is a state monad over the writer and the disk; a
      section is a [Script] of the calls it makes of its sink.
    - FileManager.v: file/manager.rs, creating, opening and checkpoints.
    - WriterInv.v, WriterOps.v, ManagerFacts.v: the invariant of the writer
      through its operations, and the image it leaves.
    - StorageFile.v, StorageRefines.v, StorageProps.v: a file in use as a step
      relation (checkpoints with faults, reads, restarts, power losses), its
      specification, the simulation between them, and the theorems with
      concrete files.
    - Streams.v, StreamProps.v: the streams of storage/chunk.rs, cut into
      chunks by a [ChunkStreamWriter] over any sink and joined again by a
      [ChunkStreamReader] over any source ([SectionSource]).

    From a change to the log and back:

    - Changes.v, ChangeFacts.v: change.rs. A [ChangeSet] has the graphs, the
      entries and the rows kept for bulk ranges of the source; its operations
      are events on a log of operations by entry.
    - LogRecord.v, LogRecordProps.v: storage/log_record.rs and the framing of
      storage/catalog_record.rs. A payload is a list of parts, written one by
      one into the room its frame has. Of bincode the numbers and floats
      are the class [Bincode] with their round trip; the records of the
      catalog and their payloads are the class [CatalogCodec], of which
      nothing is assumed (that a catalog record reads back is a condition on
      that record).
    - CatalogRecord.v, CatalogProps.v: the records of
      storage/catalog_record.rs, what is written of them and reading them
      under the limit on what bincode charges; they are the instance [catalog]
      of [CatalogCodec], and meet its condition ([catalog_keeps]).
    - Replay.v, ReplayProps.v: database/wal_log.rs, the group of a commit, and
      database/replay.rs, the replay of the log into the stores and the
      catalog (the class [Targets], without laws), with [next_payload] of
      wal/reader.rs.

    Common types:

    - Hlc.v: types/hlc.rs; the compare-and-swap loops are a step relation in
      which any thread may move the clock between a load and a swap.
    - SecondChance.v: cache/second_chance.rs.
    - Date.v, DateProps.v: types/date.rs, and of types/duration.rs the
      durations that move a date.
    - Wide.v: the integers of 64-bit limbs of types/decimal.rs; a
      [Wide<LIMBS>] is the list of its limbs, lowest first, and [Wide.eval] the
      number it stands for.
    - Decimal.v (modules [Decimal], [DecimalType], [DecimalSum]) with
      DecimalFacts.v, DecimalDiv.v, DecimalSums.v and DecimalProps.v: the rest of types/decimal.rs, in builds
      with and without overflow checks.
    - Values.v: the values of types/value.rs and the terms of types/rdf.rs;
      floats are their bits, strings their UTF-8 bytes.
    - ValueCodec.v with ValueCodecFacts.v, ValueRoundTrip.v and
      ValueProps.v: storage/value_codec.rs, the encoder with
      its depth and length checks and the decoder with its errors and their
      offsets.
    Names follow the source: a Rust method [Type::method] is [Type.method]
    (or [method] where one file has one type), fields and constructors keep
    their names up to clashes.

    ** How the code is translated

    Rust's [Result] is [result] below. An operation that can panic returns an
    [option] whose [None] is the panic; where the build profile decides
    between a panic and a wrap-around, a boolean [debug] argument does. A
    [u64] is a [Z] and wrap-around is written out ([wrap64]); [usize] is 64
    bits. Atomics are fields where the methods run under locks (the manager)
    and shared cells of a step relation where they do not (the clock). A
    method that waits is a function on the states where its wait is over, and
    the condition it waits for is a predicate of its own ([publish_turn],
    [written_commits_published]).

    Loops are structural where they can be. The others have fuel, and a lemma
    shows that it is enough or that the source has the same bound: the loop
    over the set bits of a word has 64, one per bit ([bits_of_spec]); the loop
    of [Versions.commit_created] has one unit per row up to the end of its
    range, of which each round takes at least one;
    [RunLengthEncoding.collect] bounds the calls of an iterator and reports
    whether it ended, which [collect_spec] shows it does; the gallop and the
    joins have the lengths of their runs; a scan of the log has its segments
    plus their bytes ([left_le_fuel], [scan_groups_spec]); the eviction loop
    of the cache counts to twice its queue, as the source does; a decimal has
    ten digits at most (of a day count); a digit of a long division is taken
    out in at most nine subtractions ([take_out_spec]), a 128-bit number has 38
    digits to count at most, the decoder of values counts its depth down, and
    the chain of a directory has fewer blocks than the file has bytes
    ([follow_chain_ends]); a reader of log records takes six bytes a round and
    an element of a list one ([read_frames_app], [get_elements_ok],
    [cget_elements_ok]), a group
    returns as many payloads as it has frames, and a replay has the fuel of a
    scan ([replay_scan]).

    ** What the theorems show

    - Isolation (TxProperties.v): of two conflicting commits the second
      fails; the claims of open transactions never meet; a garbage collection
      of finished transactions changes no outcome; savepoints restore claims
      (TxClaims.v).
    - Visibility: a snapshot holds whole commits, commits publish in order and
      one always can, a commit that did not complete stays hidden and poisons
      the manager for good, a commit taken back leaves no trace, a hold sees
      no commit in progress.
    - Readers: no horizon passes an open snapshot or a pinned read; a read at
      a time finds the newest commit at or before it; retention keeps its
      window readable; a history image restores its reads.
    - Versions: rollback restores a chain, pending versions are invisible,
      collecting a chain or collapsing row vectors changes no read at or after
      the horizon; row versions refine a map from rows to versions, the word
      scans agree with it, the in-place collapse equals the rebuild, a commit
      stamps exactly its rows.
    - Recovery: a scan ends and returns whole groups only; after a crash at
      any byte the log still gives every group whose write had finished, and
      at most the one that was being written, unless the torn bytes happen to
      be a valid frame themselves (the case is named in the statement); a log
      cut at its clean end scans clean again.
    - Pages: whatever is taken and given back, every page of the file is free
      or in use and never both; an allocation is the lowest run that fits;
      the runs found in use at opening are accepted exactly when they are
      disjoint and inside the file.
    - Storage file: through failing checkpoints, restarts and power losses the
      file always opens and serves one whole checkpoint, the last that
      succeeded or a failed one it came up at; an image reads back what its
      sections wrote, and its streams read back whole; opening ends on any
      bytes and accepts only images whose
      chunks lie apart inside the file; headers read back and the later of two
      is active.
    - Commits in the log: the records of a change set are its accepted
      operations in order, savepoints restore it, and a commit's group holds
      them with its schema statements in their places; records of every kind
      read back, a record cut short is reported at its place, and one of a
      later release is skipped or refused as it asks; a catalog reads back, no
      record of it reaches the limit of its reader, and what is decoded nests
      its types no deeper than the caps; and, all together, after
      any writes with any faults and a crash at any byte, a replay applies
      exactly the records of the groups that were reported as written and are
      still there, in order, each at its epoch.
    - Codecs: packing, deltas, runs, their byte formats and the codec that is
      selected are lossless on every input in range; what the decoder accepts
      can be read without a panic; the failures are exactly those stated.
    - Adjacency: any history of operations keeps a chunked adjacency in step
      with a bag of edges per node, and the adjacency of a row group in step
      with a list of edges; reads by type are filters; the lists a
      checkpoint cuts into chunks and pieces are loaded back to their rows; an intersection of runs is the join.
    - Clock, cache, dates: the stamps of one clock increase however its
      threads interleave, until its field is full; the cache holds a bounded
      part of the map that was written; dates count the days of the Gregorian
      calendar, and print and parse back.
    - Decimals: products, quotients and sums are the nearest decimals to the
      exact results by the stated rounding, never panic and fail exactly when
      they do not fit; a sum does not depend on the order of its rows; the
      order is that of the values; decimals print and parse back.
    - Values: encoding succeeds exactly when depth and lengths fit, writes as
      many bytes as [encoded_len] says, and reads back exactly; what the
      decoder accepts is well formed and encodes again to what was read, but
      for the case of a language tag.
    - Where the code does not do what it means to, a theorem states what it
      does: deleting after an update in a chain, a frozen edge to node 0, a
      range of a frozen list whose bounds are the wrong way round, an edge
      deleted twice, a corrupt run count, the delta encoding of the
      single value 0, packing at a width past 64, the queue of the cache after
      removals, a clock at the end of its range, a number of 39 digits, an
      average between two rows, the case of a language tag, a restart before
      the header of a checkpoint is durable.

    ** What is not modelled

    The stores around the row versions (columns, labels, spill), query
    languages, planner and operators, vector and text indexes, RDF, sessions,
    bindings and the command line. Of the log: the headers of segments and the check of
    their keys, unfinished segments, the durability modes with their timers,
    and removing old segments. Of the storage file: paths, locks, the rename
    that ends its creation, copies, and the sidecar log. Of the modelled files: memory statistics,
    formatting other than of dates and
    decimals, decimals as floats, the parser of RDF terms, serde adapters, floating-point ratios (in Selector.v they
    are parameters), the pool of spare change sets, the write-freeze lock and
    thread wake-ups.

    ** What would come next

    The column chunks, bit vectors and dictionaries of codec/, on the byte and
    bit lemmas here, and the columns of row groups on the row versions: with
    them [Targets] gets an implementation and the replay theorem speaks of the
    rows a session reads. Then the segment headers of the log, zone maps and
    hash indexes. *)
From stdpp Require Export prelude gmap list sorting strings.

Open Scope Z_scope.

(** ** Results

    Rust's [Result]: the value of a fallible operation or its error. *)

Inductive result (E A : Type) : Type :=
  | Ok (a : A)
  | Err (e : E).
Arguments Ok {E A} a.
Arguments Err {E A} e.

#[export] Instance result_ret E : MRet (result E) := λ A, Ok.
#[export] Instance result_bind E : MBind (result E) :=
  λ A B f m, match m with Ok a => f a | Err e => Err e end.
#[export] Instance result_fmap E : FMap (result E) :=
  λ A B f m, match m with Ok a => Ok (f a) | Err e => Err e end.

Definition is_ok {E A} (r : result E A) : bool :=
  match r with Ok _ => true | Err _ => false end.

Definition ok_or {E A} (o : option A) (e : E) : result E A :=
  match o with Some a => Ok a | None => Err e end.

(** ** Machine integers

    A [u64] is a [Z] between 0 and [u64_max]; arithmetic that wraps in the
    source (the atomics' [fetch_add] and [fetch_sub], [wrapping_add], shifts)
    writes the wrap out. *)

Definition u64_max : Z := 2 ^ 64 - 1.
Definition u32_max : Z := 2 ^ 32 - 1.
Definition wrap64 (x : Z) : Z := x mod 2 ^ 64.
Definition is_u64 (x : Z) : Prop := 0 ≤ x < 2 ^ 64.
Definition is_u64b (x : Z) : bool := (0 <=? x) && (x <? 2 ^ 64).

Definition checked_add64 (a b : Z) : option Z :=
  if a + b <=? u64_max then Some (a + b) else None.
Definition checked_mul64 (a b : Z) : option Z :=
  if a * b <=? u64_max then Some (a * b) else None.
Definition saturating_sub (a b : Z) : Z := Z.max 0 (a - b).
Definition div_ceil (a b : Z) : Z := (a + b - 1) / b.

(** A 64-bit value as the signed integer its bits spell, and back. *)
Definition to_i64 (x : Z) : Z :=
  let w := wrap64 x in if w <? 2 ^ 63 then w else w - 2 ^ 64.
Definition is_i64 (x : Z) : Prop := - 2 ^ 63 ≤ x < 2 ^ 63.

Lemma wrap64_small x : is_u64 x → wrap64 x = x.
Proof. apply Z.mod_small. Qed.

Lemma wrap64_u64 x : is_u64 (wrap64 x).
Proof. unfold is_u64, wrap64. apply Z.mod_pos_bound. lia. Qed.

Lemma is_u64b_spec x : is_u64b x = true ↔ is_u64 x.
Proof. unfold is_u64b, is_u64. rewrite andb_true_iff, Z.leb_le, Z.ltb_lt. lia. Qed.

(** ** Slices kept in order

    [partition_point] and [binary_search_by_key] of the standard library,
    on slices that are partitioned (sorted by the key), where their results
    do not depend on the probes of the search. *)

Fixpoint partition_point {A} (p : A → bool) (l : list A) : nat :=
  match l with
  | [] => 0
  | x :: l' => if p x then S (partition_point p l') else 0
  end.

Inductive search_result : Set :=
  | Found (index : nat)
  | InsertAt (index : nat).

Definition binary_search_by_key {A} (key : A → Z) (k : Z) (l : list A) : search_result :=
  let i := partition_point (λ x, key x <? k) l in
  match l !! i with
  | Some x => if key x =? k then Found i else InsertAt i
  | None => InsertAt i
  end.

(** [Vec::insert] at an index at most the length. *)
Definition vec_insert {A} (i : nat) (x : A) (l : list A) : list A :=
  take i l ++ x :: drop i l.

(** [Vec::remove] at an index below the length. *)
Definition vec_remove {A} (i : nat) (l : list A) : list A :=
  take i l ++ drop (S i) l.

Section partition_point.
Context {A : Type} (p : A → bool).

Lemma partition_point_le (l : list A) : (partition_point p l ≤ length l)%nat.
Proof. induction l as [|x l IH]; simpl; [done|]. destruct (p x); lia. Qed.

Lemma partition_point_before (l : list A) i x :
  l !! i = Some x → (i < partition_point p l)%nat → p x = true.
Proof.
  revert i. induction l as [|y l IH]; intros i Hi Hlt; [done|]. simpl in Hlt.
  destruct (p y) eqn:Hy; [|lia]. destruct i as [|i]; simpl in Hi; [by simplify_eq|].
  apply (IH i); [done|lia].
Qed.

(** On a slice where the elements that satisfy [p] come first. *)
Lemma partition_point_sorted (R : A → A → Prop) (l : list A) i x :
  StronglySorted R l → (∀ a b, R a b → p b = true → p a = true) →
  l !! i = Some x → (i < partition_point p l)%nat ↔ p x = true.
Proof.
  intros Hs HR. revert i. induction Hs as [|y l Hs IH Hy]; intros i Hi; [done|]. simpl.
  destruct i as [|i]; simpl in Hi.
  - simplify_eq. destruct (p x); split; (done || lia).
  - specialize (IH i Hi). destruct (p y) eqn:Hpy.
    + rewrite <- IH. lia.
    + split; [lia|]. intros Hx. rewrite (HR y x) in Hpy; [done| |done].
      by apply (proj1 (Forall_lookup _ _) Hy i).
Qed.

Lemma partition_point_at (l : list A) x : l !! partition_point p l = Some x → p x = false.
Proof. induction l as [|y l IH]; simpl; [done|]. destruct (p y) eqn:Hy; simpl; [done|]. by intros [= <-]. Qed.

Lemma partition_point_unique (l : list A) i :
  (i ≤ length l)%nat → (∀ j x, l !! j = Some x → (j < i)%nat → p x = true) →
  (∀ x, l !! i = Some x → p x = false) → partition_point p l = i.
Proof.
  revert i. induction l as [|y l IH]; intros i Hi Hb Ha; simpl in *; [lia|].
  destruct i as [|i].
  - by rewrite (Ha y eq_refl).
  - rewrite (Hb O y eq_refl) by lia. f_equal. apply IH; [lia| |done].
    intros j x Hj Hlt. apply (Hb (S j) x Hj). lia.
Qed.

End partition_point.

Lemma StronglySorted_snoc {A} (R : A → A → Prop) (l : list A) x :
  StronglySorted R l → Forall (λ y, R y x) l → StronglySorted R (l ++ [x]).
Proof.
  induction 1 as [|y l Hs IH Hy]; intros Hx; simpl.
  - repeat constructor.
  - inversion_clear Hx. constructor; [by apply IH|]. apply Forall_app. by repeat constructor.
Qed.

Lemma StronglySorted_drop {A} (R : A → A → Prop) n (l : list A) :
  StronglySorted R l → StronglySorted R (drop n l).
Proof.
  revert n. induction l as [|x l IH]; intros [|n] Hs; simpl; try done.
  inversion_clear Hs. by apply IH.
Qed.

Lemma StronglySorted_lookup {A} (R : A → A → Prop) (l : list A) i j x y :
  StronglySorted R l → (i < j)%nat → l !! i = Some x → l !! j = Some y → R x y.
Proof.
  intros Hs. revert i j. induction Hs as [|z l Hs IH Hz]; intros i j Hij Hx Hy; [done|].
  destruct j as [|j]; [lia|]. simpl in Hy. destruct i as [|i]; simpl in Hx.
  - simplify_eq. by apply (proj1 (Forall_lookup _ _) Hz j).
  - apply (IH i j); (done || lia).
Qed.

Lemma StronglySorted_last {A} (R : A → A → Prop) (l : list A) x y :
  StronglySorted R l → last l = Some x → y ∈ l → y = x ∨ R y x.
Proof.
  intros Hs [l' ->]%last_Some Hy. apply elem_of_app in Hy as [Hy|Hy%list_elem_of_singleton]; [|by left].
  right. apply list_elem_of_lookup in Hy as [i Hi].
  apply (StronglySorted_lookup R _ i (length l') y x) in Hs; [done| | |].
  - by apply lookup_lt_Some in Hi.
  - by apply lookup_app_l_Some.
  - by rewrite lookup_app_r, Nat.sub_diag.
Qed.

(** ** Filters and searches of lists *)

Lemma find_split {A} (p : A → bool) (l : list A) x :
  find p l = Some x →
  ∃ l1 l2, l = l1 ++ x :: l2 ∧ p x = true ∧ Forall (λ y, p y = false) l1.
Proof.
  induction l as [|y l IH]; simpl; [done|]. destruct (p y) eqn:Hy; intros ?; simplify_eq.
  - by exists [], l.
  - destruct IH as (l1 & l2 & -> & Hx & Hl1); [done|]. exists (y :: l1), l2. split_and!; auto.
Qed.

Lemma find_filter_and {A} (P : A → Prop) `{!∀ x, Decision (P x)} (q : A → bool) (l : list A) :
  find q (filter P l) = find (λ x, bool_decide (P x) && q x) l.
Proof.
  induction l as [|x l IH]; [done|]. rewrite filter_cons. simpl.
  destruct (decide (P x)).
  - rewrite bool_decide_true by done. simpl. by rewrite IH.
  - by rewrite bool_decide_false by done.
Qed.

Lemma list_filter_id {A} (P : A → Prop) `{!∀ x, Decision (P x)} (l : list A) :
  Forall P l → filter P l = l.
Proof. induction 1; [done|]. rewrite filter_cons_True by done. by f_equal. Qed.

Lemma list_filter_none {A} (P : A → Prop) `{!∀ x, Decision (P x)} (l : list A) :
  Forall (λ x, ¬ P x) l → filter P l = [].
Proof. induction 1; [done|]. by rewrite filter_cons_False. Qed.

Lemma list_filter_iff_Forall {A} (P Q : A → Prop) `{!∀ x, Decision (P x), !∀ x, Decision (Q x)}
    (l : list A) :
  Forall (λ x, P x ↔ Q x) l → filter P l = filter Q l.
Proof.
  induction 1 as [|x l Hx _ IH]; [done|]. rewrite !filter_cons, IH.
  destruct (decide (P x)), (decide (Q x)); tauto.
Qed.

Lemma StronglySorted_filter {A} (R : A → A → Prop) (P : A → Prop) `{!∀ x, Decision (P x)}
    (l : list A) :
  StronglySorted R l → StronglySorted R (filter P l).
Proof.
  induction 1 as [|x l _ IH Hx]; [constructor|]. rewrite filter_cons. case_decide; [|done].
  constructor; [done|]. apply Forall_forall. intros y [_ Hy]%list_elem_of_filter.
  exact (proj1 (Forall_forall _ _) Hx y Hy).
Qed.

Lemma Forall_filter_impl {A} (P Q : A → Prop) `{!∀ x, Decision (P x)} (l : list A) :
  Forall Q (filter P l) ↔ Forall (λ x, P x → Q x) l.
Proof. rewrite !Forall_forall. setoid_rewrite list_elem_of_filter. naive_solver. Qed.

Lemma find_ext_bool {A} (p q : A → bool) (l : list A) :
  Forall (λ x, p x = q x) l → find p l = find q l.
Proof. induction 1 as [|x l Hx _ IH]; simpl; [done|]. by rewrite Hx, IH. Qed.

Lemma find_elem {A} (p : A → bool) (l : list A) x : find p l = Some x → x ∈ l ∧ p x = true.
Proof.
  intros (l1 & l2 & -> & Hx & _)%find_split. split; [|done]. rewrite elem_of_app.
  right. left.
Qed.

(** ** Automation *)

Create HintDb grafeo.

(** Destructs the scrutinee of the first [match] or [if] of the goal. *)
Ltac case_goal := case_match; simplify_eq/=.

(** Turns boolean comparisons of the context into propositions. *)
Ltac bool_to_prop :=
  repeat match goal with
  | H : _ && _ = true |- _ => apply andb_true_iff in H as [? ?]
  | H : _ && _ = false |- _ => apply andb_false_iff in H
  | H : _ || _ = false |- _ => apply orb_false_iff in H as [? ?]
  | H : _ || _ = true |- _ => apply orb_true_iff in H
  | H : negb _ = true |- _ => apply negb_true_iff in H
  | H : negb _ = false |- _ => apply negb_false_iff in H
  | H : (_ <? _) = true |- _ => apply Z.ltb_lt in H
  | H : (_ <? _) = false |- _ => apply Z.ltb_ge in H
  | H : (_ <=? _) = true |- _ => apply Z.leb_le in H
  | H : (_ <=? _) = false |- _ => apply Z.leb_gt in H
  | H : (_ =? _) = true |- _ => apply Z.eqb_eq in H
  | H : (_ =? _) = false |- _ => apply Z.eqb_neq in H
  | H : bool_decide _ = true |- _ => apply bool_decide_eq_true in H
  | H : bool_decide _ = false |- _ => apply bool_decide_eq_false in H
  end.
