(* ===== verification/Ids.v ===== *)
(** * Epochs, transaction ids and read views

    The identifier types of grafeo-common/src/types/id.rs and the read view
    of grafeo-common/src/types/read_view.rs. An [EpochId] and a
    [TransactionId] are newtypes of [u64]; here both are the [Z] they wrap. *)
From S2P Require Import Prelude.
Open Scope Z_scope.

Module EpochId.

Definition INITIAL : Z := 0.
Definition PENDING : Z := u64_max.
Definition LATEST : Z := 2 ^ 63 - 1.

(** An epoch is visible at a viewing epoch that is not before it. *)
Definition is_visible_at (epoch viewing_epoch : Z) : bool := epoch <=? viewing_epoch.

End EpochId.

Module TransactionId.

Definition INVALID : Z := u64_max.
Definition SYSTEM : Z := 1.
Definition is_valid (id : Z) : bool := negb (id =? u64_max).

End TransactionId.

(** Who reads: a transaction at its snapshot, or a committed reader. *)
Record ReadView := { view_epoch : Z; view_transaction : option Z }.

Module ReadView.

Definition transaction (id snapshot : Z) : ReadView :=
  {| view_epoch := snapshot; view_transaction := Some id |}.
Definition committed (epoch : Z) : ReadView :=
  {| view_epoch := epoch; view_transaction := None |}.
Definition latest : ReadView := committed EpochId.LATEST.

End ReadView.
