(* ===== verification/Bytes.v ===== *)
(** * Little-endian bytes

    [to_le_bytes] and [from_le_bytes] of the unsigned integers; a byte is a
    [Z] between 0 and 255. *)
From S2P Require Import Prelude.
Open Scope Z_scope.

Fixpoint to_le (n : nat) (x : Z) : list Z :=
  match n with
  | O => []
  | S n' => x mod 256 :: to_le n' (x / 256)
  end.

Fixpoint from_le (bytes : list Z) : Z :=
  match bytes with
  | [] => 0
  | b :: bytes' => b + 256 * from_le bytes'
  end.

(** [bytes.get(start..start + len)]: [None] when it runs past the end. *)
Definition slice {A} (start len : nat) (l : list A) : option (list A) :=
  if (start + len <=? length l)%nat then Some (take len (drop start l)) else None.

Definition is_byte (b : Z) : Prop := 0 ≤ b < 256.

Lemma to_le_length n x : length (to_le n x) = n.
Proof. revert x. induction n as [|n IH]; intros x; [done|]. simpl. by rewrite IH. Qed.

Lemma to_le_bytes n x : Forall is_byte (to_le n x).
Proof.
  revert x. induction n as [|n IH]; intros x; constructor; [|apply IH]. apply Z.mod_pos_bound. lia.
Qed.

Lemma from_to_le n x : 0 ≤ x < 256 ^ Z.of_nat n → from_le (to_le n x) = x.
Proof.
  revert x. induction n as [|n IH]; intros x Hx; [simpl in *; lia|]. cbn [to_le from_le].
  rewrite Nat2Z.inj_succ, Z.pow_succ_r in Hx by lia. rewrite IH.
  - pose proof (Z.div_mod x 256). lia.
  - split; [apply Z.div_pos; lia|apply Z.div_lt_upper_bound; lia].
Qed.

Lemma from_le_bound bytes : Forall is_byte bytes → 0 ≤ from_le bytes < 256 ^ Z.of_nat (length bytes).
Proof.
  induction 1 as [|b bytes Hb _ IH]; [simpl; lia|]. cbn [from_le length].
  rewrite Nat2Z.inj_succ, Z.pow_succ_r by lia. unfold is_byte in Hb. lia.
Qed.

Lemma to_from_le bytes : Forall is_byte bytes → to_le (length bytes) (from_le bytes) = bytes.
Proof.
  induction 1 as [|b bytes Hb Hbs IH]; [done|]. cbn [length from_le to_le]. unfold is_byte in Hb.
  rewrite (Z.mul_comm 256). rewrite Z.mod_add, Z.mod_small by lia. f_equal.
  rewrite Z.div_add, Z.div_small by lia. by rewrite Z.add_0_l.
Qed.

Lemma from_to_le64 x : is_u64 x → from_le (to_le 8 x) = x.
Proof. intros Hx. apply from_to_le. exact Hx. Qed.

Lemma slice_app {A} (l1 l2 l3 : list A) start len :
  length l1 = start → length l2 = len → slice start len (l1 ++ l2 ++ l3) = Some l2.
Proof.
  intros <- <-. unfold slice. rewrite !length_app, (proj2 (Nat.leb_le _ _)) by lia.
  rewrite drop_app_length. by rewrite take_app_length.
Qed.

(** The words of a sequence of little-endian words. *)
Definition words_to_bytes (words : list Z) : list Z := flat_map (to_le 8) words.

Lemma words_to_bytes_length words : length (words_to_bytes words) = (length words * 8)%nat.
Proof.
  induction words as [|w words IH]; [done|]. simpl. rewrite IH. lia.
Qed.

Lemma words_to_bytes_slice words i w :
  words !! i = Some w → slice (i * 8) 8 (words_to_bytes words) = Some (to_le 8 w).
Proof.
  intros Hi. apply list_elem_of_split_length in Hi as (l1 & l2 & -> & ->). unfold words_to_bytes.
  rewrite flat_map_app. cbn [flat_map]. apply slice_app; [apply words_to_bytes_length|apply to_le_length].
Qed.

(** The first [n] little-endian words of a byte sequence. *)
Fixpoint read_words (n : nat) (bytes : list Z) : list Z :=
  match n with
  | O => []
  | S n' => from_le (take 8 bytes) :: read_words n' (drop 8 bytes)
  end.

Lemma read_words_app words rest :
  Forall is_u64 words → read_words (length words) (words_to_bytes words ++ rest) = words.
Proof.
  induction 1 as [|w words Hw _ IH]; [done|]. cbn [length read_words words_to_bytes flat_map].
  rewrite <- app_assoc, take_app_length', drop_app_length' by (by rewrite to_le_length).
  f_equal; [by apply from_to_le64|exact IH].
Qed.

Lemma words_to_bytes_bytes words : Forall is_byte (words_to_bytes words).
Proof. induction words as [|w words IH]; [constructor|]. apply Forall_app. split; [apply to_le_bytes|exact IH]. Qed.
