(* ===== verification/Bits.v ===== *)
(** * Words of bits

    The bit operations on [u64] words that the bitsets and the row versions
    use: a word is a [Z] with 0 <= w < 2^64, bit [i] of it is row [i] of 64.
    The loop that visits the set bits of a word (take the trailing zeros,
    clear the lowest set bit) is shown to visit them all, ascending, each
    once. *)
From S2P Require Import Prelude.
Open Scope Z_scope.

(** [!x] of a [u64]. *)
Definition not64 (x : Z) : Z := Z.lxor u64_max x.

(** [1 << bit] for [bit < 64]. *)
Definition bit64 (i : nat) : Z := Z.shiftl 1 (Z.of_nat i).

Definition test (w : Z) (i : nat) : bool := Z.testbit w (Z.of_nat i).

(** [u64::trailing_zeros]: 64 for 0. *)
Definition trailing_zeros (w : Z) : nat :=
  match List.find (test w) (seq 0 64) with Some i => i | None => 64%nat end.

(** The loop [while bits != 0 { bit = bits.trailing_zeros(); bits &= bits - 1; .. }]:
    the bits it visits, in order. A word has at most 64 of them. *)
Fixpoint bit_loop (fuel : nat) (bits : Z) : list nat :=
  match fuel with
  | O => []
  | S fuel' =>
      if bits =? 0 then []
      else trailing_zeros bits :: bit_loop fuel' (Z.land bits (bits - 1))
  end.
Definition bits_of (w : Z) : list nat := bit_loop 64 w.

(** [u64::count_ones]. *)
Definition count_ones (w : Z) : nat := length (List.filter (test w) (seq 0 64)).

(** ** Single bits *)

Lemma test_bit64 i j : test (bit64 i) j = bool_decide (i = j).
Proof.
  unfold test, bit64. rewrite Z.shiftl_1_l. rewrite Z.pow2_bits_eqb by lia.
  destruct (Z.eqb_spec (Z.of_nat i) (Z.of_nat j)); case_bool_decide; (done || lia).
Qed.

Lemma test_land a b i : test (Z.land a b) i = test a i && test b i.
Proof. apply Z.land_spec. Qed.

Lemma test_lor a b i : test (Z.lor a b) i = test a i || test b i.
Proof. apply Z.lor_spec. Qed.

Lemma test_0 i : test 0 i = false.
Proof. apply Z.testbit_0_l. Qed.

Lemma u64_max_ones : u64_max = Z.ones 64.
Proof. done. Qed.

Lemma test_max i : test u64_max i = bool_decide (i < 64)%nat.
Proof.
  unfold test. rewrite u64_max_ones, Z.testbit_ones_nonneg by lia.
  destruct (Z.ltb_spec (Z.of_nat i) 64); case_bool_decide; (done || lia).
Qed.

Lemma test_not64 w i : (i < 64)%nat → test (not64 w) i = negb (test w i).
Proof.
  intros Hi. unfold not64. transitivity (xorb (test u64_max i) (test w i)); [apply Z.lxor_spec|].
  rewrite test_max, bool_decide_eq_true_2 by done. by destruct (test w i).
Qed.

Lemma test_high w i : is_u64 w → (64 ≤ i)%nat → test w i = false.
Proof.
  intros [H0 H1] Hi. unfold test. destruct (Z.eq_dec w 0) as [->|Hne]; [apply Z.testbit_0_l|].
  apply Z.bits_above_log2; [done|]. apply Z.log2_lt_pow2; [lia|].
  eapply Z.lt_le_trans; [exact H1|]. apply Z.pow_le_mono_r; lia.
Qed.

Lemma word_ext a b : is_u64 a → is_u64 b → (∀ i, (i < 64)%nat → test a i = test b i) → a = b.
Proof.
  intros Ha Hb Heq. apply Z.bits_inj'. intros n Hn. specialize (Heq (Z.to_nat n)).
  pose proof (test_high a (Z.to_nat n) Ha) as Hta. pose proof (test_high b (Z.to_nat n) Hb) as Htb.
  unfold test in *. rewrite Z2Nat.id in * by done.
  destruct (decide (Z.to_nat n < 64)%nat) as [Hlt|Hge]; [auto|]. by rewrite Hta, Htb by lia.
Qed.

Lemma is_u64_bits w : 0 ≤ w → (∀ i, (64 ≤ i)%nat → test w i = false) → is_u64 w.
Proof.
  intros H0 Hb. split; [done|]. destruct (Z.lt_ge_cases w (2 ^ 64)) as [|Hge]; [done|].
  assert (0 < w) as Hpos by lia.
  pose proof (Z.bit_log2 w Hpos) as Ht. assert (64 ≤ Z.log2 w) by (apply Z.log2_le_pow2; lia).
  specialize (Hb (Z.to_nat (Z.log2 w))). unfold test in Hb. rewrite Z2Nat.id in Hb by lia.
  rewrite Hb in Ht by lia. done.
Qed.

Lemma land_u64 a b : is_u64 a → 0 ≤ b → is_u64 (Z.land a b).
Proof.
  intros Ha Hb. apply is_u64_bits; [apply Z.land_nonneg; left; apply Ha|].
  intros i Hi. by rewrite test_land, (test_high a i Ha Hi).
Qed.

Lemma land_u64_r a b : is_u64 b → 0 ≤ a → is_u64 (Z.land a b).
Proof. intros. rewrite Z.land_comm. by apply land_u64. Qed.

Lemma lor_u64 a b : is_u64 a → is_u64 b → is_u64 (Z.lor a b).
Proof.
  intros Ha Hb. apply is_u64_bits; [apply Z.lor_nonneg; split; [apply Ha|apply Hb]|].
  intros i Hi. by rewrite test_lor, (test_high a i Ha Hi), (test_high b i Hb Hi).
Qed.

Lemma bit64_u64 i : (i < 64)%nat → is_u64 (bit64 i).
Proof.
  intros Hi. unfold bit64. rewrite Z.shiftl_1_l. split; [apply Z.pow_nonneg; lia|].
  apply Z.pow_lt_mono_r; lia.
Qed.

Lemma not64_nonneg w : is_u64 w → 0 ≤ not64 w.
Proof. intros [? _]. unfold not64. apply Z.lxor_nonneg. unfold u64_max. lia. Qed.

Lemma is_u64_0 : is_u64 0.
Proof. split; lia. Qed.

Lemma zero_bits w : is_u64 w → w = 0 ↔ ∀ i, (i < 64)%nat → test w i = false.
Proof.
  intros Hw. split; [intros -> i _; apply test_0|]. intros Hb. apply word_ext; [done|apply is_u64_0|].
  intros i Hi. by rewrite test_0, Hb.
Qed.

(** [word & (1 << bit) != 0]. *)
Lemma land_bit64 w i : is_u64 w → (i < 64)%nat → negb (Z.land w (bit64 i) =? 0) = test w i.
Proof.
  intros Hw Hi. pose proof (land_u64 w (bit64 i) Hw (proj1 (bit64_u64 i Hi))) as Hl.
  destruct (Z.eqb_spec (Z.land w (bit64 i)) 0) as [Hz|Hnz]; simpl.
  - symmetry. apply (proj1 (zero_bits _ Hl) Hz i) in Hi. rewrite test_land, test_bit64 in Hi.
    rewrite bool_decide_eq_true_2 in Hi by done. by rewrite andb_true_r in Hi.
  - destruct (test w i) eqn:Ht; [done|]. destruct Hnz. apply zero_bits; [done|]. intros j Hj.
    rewrite test_land, test_bit64. case_bool_decide; [subst; by rewrite Ht|apply andb_false_r].
Qed.

(** ** The lowest set bit *)

Lemma trailing_zeros_spec w :
  is_u64 w → w ≠ 0 →
  (trailing_zeros w < 64)%nat ∧ test w (trailing_zeros w) = true ∧
  ∀ j, (j < trailing_zeros w)%nat → test w j = false.
Proof.
  intros Hw Hne. unfold trailing_zeros. destruct (List.find (test w) (seq 0 64)) as [i|] eqn:Hf.
  - pose proof (List.find_some _ _ Hf) as [Hin%in_seq Ht]. split; [lia|]. split; [done|].
    intros j Hj. destruct (test w j) eqn:Hwj; [|done].
    assert (∀ n l, List.find (test w) (seq n l) = Some i → (n ≤ j < n + l)%nat → (i ≤ j)%nat) as Hfirst.
    { clear Hf. intros n l. revert n. induction l as [|l IH]; intros n Hf Hr; [lia|]. simpl in Hf.
      destruct (test w n) eqn:Hn; [simplify_eq; lia|]. apply (IH (S n) Hf).
      destruct (decide (n = j)) as [->|]; [congruence|lia]. }
    specialize (Hfirst 0%nat 64%nat Hf). lia.
  - destruct Hne. apply zero_bits; [done|]. intros i Hi. apply (List.find_none _ _ Hf). apply in_seq. lia.
Qed.

(** [bits & (bits - 1)] clears the lowest set bit and no other. *)
Lemma clear_lowest w i :
  is_u64 w → w ≠ 0 →
  test (Z.land w (w - 1)) i = test w i && negb (bool_decide (i = trailing_zeros w)).
Proof.
  intros Hw Hne. destruct (trailing_zeros_spec w Hw Hne) as (Hk & Hset & Hlow).
  set (k := trailing_zeros w) in *. rewrite test_land. unfold test in *.
  set (K := Z.of_nat k) in *. set (I := Z.of_nat i).
  assert (w = 2 ^ K * (2 * (w / 2 ^ (K + 1)) + 1)) as Hdec.
  { assert (w mod 2 ^ K = 0) as Hmod.
    { apply Z.bits_inj'. intros n Hn. rewrite Z.testbit_0_l. destruct (Z.lt_ge_cases n K).
      - rewrite Z.mod_pow2_bits_low by lia. specialize (Hlow (Z.to_nat n)). rewrite Z2Nat.id in Hlow by lia.
        apply Hlow. lia.
      - apply Z.mod_pow2_bits_high. lia. }
    rewrite (Z.div_mod w (2 ^ K)) at 1 by lia. rewrite Hmod, Z.add_0_r. f_equal.
    rewrite Z.pow_add_r, <- Z.div_div by lia. rewrite (Z.div_mod (w / 2 ^ K) 2) at 1 by lia. f_equal.
    rewrite <- Z.bit0_mod, Z.div_pow2_bits, Z.add_0_l by lia. by rewrite Hset. }
  set (q := w / 2 ^ (K + 1)) in *. destruct (Z.lt_ge_cases I K) as [HI|HI].
  - pose proof (Hlow i) as Hl. fold I in Hl. rewrite Hl by lia. done.
  - assert ((w - 1) / 2 ^ K = 2 * q) as Hm1.
    { rewrite Hdec. symmetry. apply (Z.div_unique_pos _ _ _ (2 ^ K - 1)); [|lia].
      assert (0 < 2 ^ K) by (apply Z.pow_pos_nonneg; lia). lia. }
    assert (w / 2 ^ K = 2 * q + 1) as Hm0.
    { rewrite Hdec at 1. symmetry. apply (Z.div_unique_pos _ _ _ 0); [|lia].
      assert (0 < 2 ^ K) by (apply Z.pow_pos_nonneg; lia). lia. }
    replace I with ((I - K) + K) by lia. rewrite <- !Z.div_pow2_bits, Hm1, Hm0 by lia.
    destruct (Z.eq_dec I K) as [Heq|Hne'].
    + rewrite (bool_decide_eq_true_2 (i = k)) by lia. rewrite Heq, Z.sub_diag, Z.testbit_even_0. simpl. by rewrite !andb_false_r.
    + rewrite (bool_decide_eq_false_2 (i = k)) by lia. simpl. rewrite andb_true_r.
      replace (I - K) with (Z.succ (I - K - 1)) by lia.
      rewrite Z.testbit_odd_succ, Z.testbit_even_succ by lia. by destruct (Z.testbit q _).
Qed.

(** ** The loop visits the set bits, ascending *)

Lemma set_bits_cons w :
  is_u64 w → w ≠ 0 →
  List.filter (test w) (seq 0 64) =
    trailing_zeros w :: List.filter (test (Z.land w (w - 1))) (seq 0 64).
Proof.
  intros Hw Hne. destruct (trailing_zeros_spec w Hw Hne) as (Hk & Hset & Hlow).
  pose proof (clear_lowest w) as Hclear. set (k := trailing_zeros w) in *.
  assert (seq 0 64 = seq 0 k ++ k :: seq (S k) (63 - k)) as ->.
  { replace 64%nat with (k + S (63 - k))%nat at 1 by lia. rewrite seq_app. done. }
  rewrite !List.filter_app. simpl. rewrite Hset.
  assert (∀ v, (∀ j, (j < k)%nat → test v j = false) → List.filter (test v) (seq 0 k) = []) as Hnil.
  { intros v Hv. assert (∀ n l, (n + l ≤ k)%nat → List.filter (test v) (seq n l) = []) as Hgen; [|apply Hgen; lia].
    intros n l. revert n. induction l as [|l IH]; intros n Hl; [done|]. simpl. rewrite Hv by lia. apply IH. lia. }
  rewrite (Hnil w Hlow), (Hnil (Z.land w (w - 1))).
  2: { intros j Hj. rewrite Hclear by done. by rewrite Hlow. }
  simpl. rewrite Hclear, Hset, bool_decide_eq_true_2 by done. simpl. f_equal.
  assert (∀ n l, (k < n)%nat → List.filter (test w) (seq n l) = List.filter (test (Z.land w (w - 1))) (seq n l)) as Hrest; [|apply Hrest; lia].
  intros n l. revert n. induction l as [|l IH]; intros n Hn; [done|]. simpl.
  rewrite Hclear, (bool_decide_eq_false_2 (n = k)), andb_true_r, IH by (done || lia). done.
Qed.

Lemma bits_of_spec w : is_u64 w → bits_of w = List.filter (test w) (seq 0 64).
Proof.
  assert (∀ fuel v, is_u64 v → (length (List.filter (test v) (seq 0 64)) ≤ fuel)%nat →
    bit_loop fuel v = List.filter (test v) (seq 0 64)) as Hloop.
  { induction fuel as [|fuel IH]; intros v Hv Hlen.
    - cbn [bit_loop]. destruct (List.filter (test v) (seq 0 64)); [done|]. cbn [length] in Hlen. lia.
    - cbn [bit_loop]. destruct (Z.eqb_spec v 0) as [->|Hne].
      + reflexivity.
      + rewrite (set_bits_cons v Hv Hne) in Hlen |- *. cbn [length] in Hlen. f_equal. apply IH; [|lia].
        apply land_u64; [done|]. destruct Hv. lia. }
  intros Hw. apply Hloop; [done|]. etransitivity; [apply List.filter_length_le|]. by rewrite length_seq.
Qed.

Lemma bits_of_elem w i : is_u64 w → i ∈ bits_of w ↔ (i < 64)%nat ∧ test w i = true.
Proof.
  intros Hw. rewrite bits_of_spec by done. rewrite list_elem_of_In, List.filter_In, in_seq. intuition lia.
Qed.

#[export] Hint Resolve is_u64_0 land_u64 lor_u64 bit64_u64 : grafeo.
