(* ===== verification/Bitset.v ===== *)
(** * Bitsets

    grafeo-core/src/graph/rowgroup/bitset.rs: a growable set of rows, one bit
    per row, 64 rows a word. A [Bitset] is the vector of its words; its
    meaning is the predicate [get]. *)
From S2P Require Import Prelude Bits.
Open Scope Z_scope.

(** [Vec::resize] to a longer length. *)
Definition resize {A} (n : nat) (x : A) (l : list A) : list A := l ++ replicate (n - length l) x.

Module Bitset.

Definition get (row : nat) (b : list Z) : bool :=
  match b !! (row / 64)%nat with
  | Some word => negb (Z.land word (bit64 (row mod 64)) =? 0)
  | None => false
  end.

Definition set (row : nat) (b : list Z) : list Z :=
  let word := (row / 64)%nat in
  let b' := if (length b <=? word)%nat then resize (S word) 0 b else b in
  alter (λ w, Z.lor w (bit64 (row mod 64))) word b'.

Definition clear (row : nat) (b : list Z) : list Z :=
  alter (λ w, Z.land w (not64 (bit64 (row mod 64)))) (row / 64)%nat b.

Definition set_word (index : nat) (bits : Z) (b : list Z) : list Z :=
  if bits =? 0 then b
  else
    let b' := if (length b <=? index)%nat then resize (S index) 0 b else b in
    alter (λ w, Z.lor w bits) index b'.

Definition put (row : nat) (value : bool) (b : list Z) : list Z :=
  if value then set row b else clear row b.

(** The loop of [trim], from the last word on: the words are reversed. *)
Fixpoint trim_back (back : list Z) : list Z :=
  match back with
  | w :: back' => if w =? 0 then trim_back back' else back
  | [] => []
  end.
Definition trim (b : list Z) : list Z := rev (trim_back (rev b)).

Definition is_empty (b : list Z) : bool := forallb (λ word, word =? 0) b.

Definition word (index : nat) (b : list Z) : Z :=
  match b !! index with Some w => w | None => 0 end.

(** [count_in]: the words from [first] to [last], masked at both ends. *)
Definition count_in (start end_ : nat) (b : list Z) : nat :=
  if (end_ <=? start)%nat then 0
  else
    let first := (start / 64)%nat in
    let last := ((end_ - 1) / 64)%nat in
    fold_left (λ count '(index, word),
      let bits := if (index =? first)%nat
                  then Z.land word (wrap64 (Z.shiftl u64_max (Z.of_nat (start mod 64)))) else word in
      let bits := if (index =? last)%nat
                  then Z.land bits (Z.shiftr u64_max (63 - Z.of_nat ((end_ - 1) mod 64))) else bits in
      (count + count_ones bits)%nat)
      (drop first (take (S last) (zip (seq 0 (length b)) b))) 0%nat.

Definition rows (b : list Z) : list nat :=
  flat_map (λ '(index, word), map (λ bit, (index * 64 + bit)%nat) (bits_of word))
    (zip (seq 0 (length b)) b).

(** ** Meaning *)

Definition wf (b : list Z) : Prop := Forall is_u64 b.

Lemma row_mod row : (row mod 64 < 64)%nat.
Proof. apply Nat.mod_upper_bound. lia. Qed.

Lemma wf_lookup b i w : wf b → b !! i = Some w → is_u64 w.
Proof. intros Hwf Hi. by eapply Forall_lookup_1. Qed.

Lemma get_word row b : wf b → get row b = test (word (row / 64) b) (row mod 64).
Proof.
  intros Hwf. unfold get, word. destruct (b !! (row / 64)%nat) as [w|] eqn:Hw; [|by rewrite test_0].
  apply land_bit64; [by eapply wf_lookup|apply row_mod].
Qed.

Lemma word_u64 i b : wf b → is_u64 (word i b).
Proof.
  intros Hwf. unfold word. destruct (b !! i) eqn:Hi; [by eapply wf_lookup|apply is_u64_0].
Qed.

Lemma test_word i j b : wf b → (j < 64)%nat → test (word i b) j = get (i * 64 + j) b.
Proof.
  intros Hwf Hj. rewrite get_word by done. f_equal.
  - f_equal. rewrite Nat.div_add_l by lia. rewrite Nat.div_small by done. lia.
  - rewrite Nat.add_comm, Nat.Div0.mod_add. by rewrite Nat.mod_small.
Qed.

Lemma word_grow i n b : word i (if (length b <=? n)%nat then resize (S n) 0 b else b) = word i b.
Proof.
  destruct (Nat.leb_spec (length b) n); [|done]. unfold word, resize.
  destruct (decide (i < length b)%nat).
  - by rewrite lookup_app_l.
  - rewrite lookup_app_r, (lookup_ge_None_2 b) by lia.
    destruct (replicate _ 0 !! _) eqn:Hr; [|done]. by apply lookup_replicate in Hr as [-> _].
Qed.

Lemma grow_length n (b : list Z) :
  (n < length (if (length b <=? n)%nat then resize (S n) 0%Z b else b))%nat.
Proof.
  destruct (Nat.leb_spec (length b) n); [|done]. unfold resize. rewrite length_app, length_replicate. lia.
Qed.

Lemma grow_wf n b : wf b → wf (if (length b <=? n)%nat then resize (S n) 0 b else b).
Proof.
  intros Hwf. destruct (_ <=? _)%nat; [|done]. apply Forall_app. split; [done|].
  apply Forall_replicate, is_u64_0.
Qed.

Lemma word_alter f i n b : (n < length b)%nat → word i (alter f n b) = if (i =? n)%nat then f (word i b) else word i b.
Proof.
  intros Hn. unfold word. destruct (Nat.eqb_spec i n) as [->|Hne].
  - rewrite list_lookup_alter_eq. destruct (lookup_lt_is_Some_2 b n Hn) as [w ->]. done.
  - by rewrite list_lookup_alter_ne by done.
Qed.

Lemma alter_wf f n b : (∀ w, is_u64 w → is_u64 (f w)) → wf b → wf (alter f n b).
Proof. intros Hf Hwf. by apply Forall_alter; [|intros; apply Hf]. Qed.

Lemma row_eq r r' : (r / 64 = r' / 64)%nat → (r mod 64 = r' mod 64)%nat → r = r'.
Proof. intros Hd Hm. rewrite (Nat.div_mod_eq r 64), (Nat.div_mod_eq r' 64). lia. Qed.

(** ** What the operations do to [get] *)

Lemma set_wf row b : wf b → wf (set row b).
Proof.
  intros Hwf. unfold set. apply alter_wf; [|by apply grow_wf].
  intros w Hw. apply lor_u64; [done|]. apply bit64_u64, row_mod.
Qed.

Lemma get_set row r b : wf b → get r (set row b) = bool_decide (r = row) || get r b.
Proof.
  intros Hwf. rewrite !get_word by (done || by apply set_wf). unfold set.
  rewrite word_alter by apply grow_length. rewrite word_grow.
  destruct (Nat.eqb_spec (r / 64) (row / 64)) as [Hd|Hd].
  - rewrite test_lor, test_bit64, orb_comm. f_equal. apply bool_decide_ext.
    split; [intros Hm; by apply row_eq|by intros ->].
  - rewrite bool_decide_eq_false_2; [done|]. by intros ->.
Qed.

Lemma clear_word_u64 row w : is_u64 w → is_u64 (Z.land w (not64 (bit64 (row mod 64)))).
Proof. intros Hw. apply land_u64; [done|]. apply not64_nonneg, bit64_u64, row_mod. Qed.

Lemma clear_wf row b : wf b → wf (clear row b).
Proof. intros Hwf. apply alter_wf; [|done]. apply clear_word_u64. Qed.

Lemma word_clear i row b : wf b →
  word i (clear row b) =
    if (i =? row / 64)%nat then Z.land (word i b) (not64 (bit64 (row mod 64))) else word i b.
Proof.
  intros Hwf. unfold clear, word. destruct (Nat.eqb_spec i (row / 64)) as [->|Hne].
  - rewrite list_lookup_alter_eq. by destruct (b !! (row / 64)%nat).
  - by rewrite list_lookup_alter_ne.
Qed.

Lemma get_clear row r b : wf b → get r (clear row b) = negb (bool_decide (r = row)) && get r b.
Proof.
  intros Hwf. rewrite !get_word by (done || by apply clear_wf). rewrite word_clear by done.
  destruct (Nat.eqb_spec (r / 64) (row / 64)) as [Hd|Hd].
  - rewrite test_land, test_not64, test_bit64, andb_comm by apply row_mod. f_equal. f_equal. apply bool_decide_ext.
    split; [intros Hm; by apply row_eq|by intros ->].
  - rewrite bool_decide_eq_false_2; [done|]. by intros ->.
Qed.

Lemma set_word_wf index bits b : is_u64 bits → wf b → wf (set_word index bits b).
Proof.
  intros Hb Hwf. unfold set_word. destruct (bits =? 0); [done|].
  apply alter_wf; [|by apply grow_wf]. intros w Hw. by apply lor_u64.
Qed.

Lemma word_set_word i index bits b :
  word i (set_word index bits b) = if (i =? index)%nat then Z.lor (word i b) bits else word i b.
Proof.
  unfold set_word. destruct (Z.eqb_spec bits 0) as [->|Hne].
  - rewrite Z.lor_0_r. by destruct (i =? index)%nat.
  - rewrite word_alter by apply grow_length. by rewrite word_grow.
Qed.

(** Two bitsets with the same rows and no word past the last row are equal. *)
Definition trimmed (b : list Z) : Prop := last b ≠ Some 0.

Lemma trim_back_spec l : ∃ n, l = replicate n 0 ++ trim_back l.
Proof.
  induction l as [|w l [n IH]]; simpl; [by exists 0%nat|].
  destruct (Z.eqb_spec w 0) as [->|]; [|by exists 0%nat]. exists (S n). simpl. by rewrite <- IH.
Qed.

Lemma rev_replicate {A} n (x : A) : rev (replicate n x) = replicate n x.
Proof.
  induction n as [|n IH]; [done|]. simpl. rewrite IH. clear IH. induction n as [|n IH]; [done|]. simpl. by rewrite IH.
Qed.

Lemma trim_spec b : ∃ n, b = trim b ++ replicate n 0.
Proof.
  destruct (trim_back_spec (rev b)) as [n Hn]. exists n. unfold trim.
  rewrite <- (rev_replicate n 0), <- rev_app_distr, <- Hn. by rewrite rev_involutive.
Qed.

Lemma trim_trimmed b : trimmed (trim b).
Proof.
  unfold trimmed, trim. assert (∀ l, last (rev (trim_back l)) ≠ Some 0) as Hl; [|apply Hl].
  induction l as [|w l IH]; simpl; [done|]. destruct (Z.eqb_spec w 0) as [->|Hne]; [done|].
  simpl. rewrite last_snoc. congruence.
Qed.

Lemma word_app_zeros i b n : word i (b ++ replicate n 0) = word i b.
Proof.
  unfold word. destruct (decide (i < length b)%nat).
  - by rewrite lookup_app_l.
  - rewrite lookup_app_r, (lookup_ge_None_2 b) by lia.
    destruct (replicate _ 0 !! _) eqn:Hr; [|done]. by apply lookup_replicate in Hr as [-> _].
Qed.

Lemma word_trim i b : word i (trim b) = word i b.
Proof. destruct (trim_spec b) as [n Hn]. rewrite Hn at 2. by rewrite word_app_zeros. Qed.

Lemma trim_wf b : wf b → wf (trim b).
Proof. intros Hwf. destruct (trim_spec b) as [n Hn]. rewrite Hn in Hwf. by apply Forall_app in Hwf as [? _]. Qed.

Lemma trimmed_ext a b : trimmed a → trimmed b → (∀ i, word i a = word i b) → a = b.
Proof.
  assert (∀ x y, trimmed x → (∀ i, word i x = word i y) → (length x ≤ length y)%nat) as Hlen.
  { intros x y Hx Heq. destruct (last x) as [w|] eqn:Hl; [|by apply last_None in Hl as ->; simpl; lia].
    destruct (decide (length x ≤ length y)%nat); [done|]. rewrite last_lookup in Hl.
    specialize (Heq (pred (length x))). unfold word in Heq. rewrite Hl in Heq.
    rewrite lookup_ge_None_2 in Heq by lia. subst w. unfold trimmed in Hx. rewrite last_lookup in Hx. done. }
  intros Ha Hb Heq. pose proof (Hlen a b Ha Heq). pose proof (Hlen b a Hb (λ i, eq_sym (Heq i))).
  apply list_eq_same_length with (length a); [lia|done|]. intros i x y Hi Hx Hy.
  specialize (Heq i). unfold word in Heq. rewrite Hx, Hy in Heq. congruence.
Qed.

Lemma is_empty_spec b : wf b → is_empty b = true ↔ ∀ row, get row b = false.
Proof.
  intros Hwf. unfold is_empty. rewrite forallb_forall. split.
  - intros Hall row. rewrite get_word by done. unfold word. destruct (b !! (row / 64)%nat) as [w|] eqn:Hw; [|apply test_0].
    apply list_elem_of_lookup_2, list_elem_of_In, Hall in Hw. bool_to_prop. subst. apply test_0.
  - intros Hall w Hw%list_elem_of_In. apply list_elem_of_lookup in Hw as [i Hi]. apply Z.eqb_eq.
    apply zero_bits; [by eapply wf_lookup|]. intros j Hj. specialize (Hall (i * 64 + j)%nat).
    rewrite <- test_word in Hall by done. unfold word in Hall. by rewrite Hi in Hall.
Qed.

(** ** The rows, ascending *)

Lemma filter_seq_shift (f : nat → bool) a k :
  List.filter f (seq a k) = map (λ i, (a + i)%nat) (List.filter (λ i, f (a + i)%nat) (seq 0 k)).
Proof.
  assert (∀ n, List.filter f (seq (a + n) k) =
    map (λ i, (a + i)%nat) (List.filter (λ i, f (a + i)%nat) (seq n k))) as Hn.
  { induction k as [|k IH]; intros n; [done|]. simpl. specialize (IH (S n)).
    rewrite Nat.add_succ_r in IH. rewrite IH. by destruct (f (a + n)%nat). }
  rewrite <- (Hn 0%nat). by rewrite Nat.add_0_r.
Qed.

Lemma filter_ext_seq (f g : nat → bool) a k :
  (∀ i, (a ≤ i < a + k)%nat → f i = g i) → List.filter f (seq a k) = List.filter g (seq a k).
Proof. intros Heq. apply filter_ext_in. intros i Hi%in_seq. by apply Heq. Qed.

Lemma rows_from n b :
  wf b →
  flat_map (λ '(index, word), map (λ bit, (index * 64 + bit)%nat) (bits_of word)) (zip (seq n (length b)) b) =
  List.filter (λ r, test (word (r / 64 - n) b) (r mod 64)) (seq (n * 64) (length b * 64)).
Proof.
  intros Hwf. revert n. induction Hwf as [|w b Hw Hwf IH]; intros n; [done|].
  cbn [length zip seq zip_with flat_map]. rewrite (Nat.mul_succ_l (length b)), (Nat.add_comm _ 64), seq_app, List.filter_app.
  f_equal.
  - rewrite bits_of_spec, (filter_seq_shift _ (n * 64)) by done. f_equal. apply filter_ext_seq. intros i Hi.
    rewrite Nat.div_add_l, (Nat.div_small i 64) by lia. rewrite (Nat.add_comm (n * 64) i), Nat.Div0.mod_add, Nat.mod_small by lia.
    by replace (n + 0 - n)%nat with 0%nat by lia.
  - rewrite IH. replace (n * 64 + 64)%nat with (S n * 64)%nat by lia. apply filter_ext_seq. intros i Hi.
    assert (S n ≤ i / 64)%nat by (apply Nat.div_le_lower_bound; lia).
    by replace (i / 64 - n)%nat with (S (i / 64 - S n)) by lia.
Qed.

(** The rows that are set, in ascending order. *)
Lemma rows_spec b : wf b → rows b = List.filter (λ r, get r b) (seq 0 (length b * 64)).
Proof.
  intros Hwf. unfold rows. rewrite rows_from by done. apply filter_ext_seq. intros i _.
  by rewrite get_word, Nat.sub_0_r by done.
Qed.

Lemma get_bound row b : wf b → get row b = true → (row < length b * 64)%nat.
Proof.
  intros Hwf Hg. unfold get in Hg. destruct (b !! (row / 64)%nat) eqn:Hl; [|done].
  apply lookup_lt_Some in Hl. pose proof (Nat.div_mod_eq row 64). pose proof (row_mod row). lia.
Qed.

Lemma rows_elem row b : wf b → row ∈ rows b ↔ get row b = true.
Proof.
  intros Hwf. rewrite rows_spec by done. rewrite list_elem_of_In, List.filter_In, in_seq.
  split; [by intros []|]. intros Hg. split; [|done]. apply get_bound in Hg; [lia|done].
Qed.

End Bitset.
