(* ===== verification/BitPack.v ===== *)
(** * Bit-packed integers

    grafeo-core/src/codec/bitpack.rs: integers stored with as many bits as the
    largest needs, as many to a word as fit, and the delta encoding on top of
    it. Counts and indexes are [nat]s; a width is the [nat] of its [u8]. An
    operation that can panic (a division by a width past 64) returns [None]
    there; the theorems are in BitPackProps.v. *)
From S2P Require Import Prelude Bytes Bits Bitset.
Open Scope Z_scope.

Inductive WordStore : Type :=
  | Inline (words : list Z)
  | Mapped (bytes : list Z).

Inductive io_error : Set :=
  | DoesNotFit (position : nat) (value : Z)
  | CountExceedsU32
  | TooShort
  | WidthExceeds64
  | Truncated.

Module WordStore.

Definition byte_len (d : WordStore) : nat :=
  match d with Inline v => (length v * 8)%nat | Mapped b => length b end.

Definition word_count (d : WordStore) : nat :=
  match d with Inline v => length v | Mapped b => (length b / 8)%nat end.

Definition as_slice (d : WordStore) : option (list Z) :=
  match d with Inline v => Some v | Mapped _ => None end.

Definition word_at (idx : nat) (d : WordStore) : option Z :=
  match d with
  | Inline v => v !! idx
  | Mapped b =>
      start ← checked_mul64 (Z.of_nat idx) 8;
      _ ← checked_add64 start 8;
      chunk ← slice (Z.to_nat start) 8 b;
      Some (from_le chunk)
  end.

Definition to_bytes (d : WordStore) : list Z :=
  match d with Inline v => words_to_bytes v | Mapped b => b end.

End WordStore.

Record BitPackedInts := mkPacked {
  data : WordStore;
  bits_per_value : nat;
  count : nat
}.

Module BitPackedInts.

Definition from_raw_parts (words : list Z) (bits n : nat) : BitPackedInts := mkPacked (Inline words) bits n.
Definition from_bytes_storage (bytes : list Z) (bits n : nat) : BitPackedInts := mkPacked (Mapped bytes) bits n.

(** [64 - leading_zeros] of a nonzero value is its bit length. *)
Definition bits_needed (value : Z) : nat :=
  if value =? 0 then 1%nat else Z.to_nat (Z.log2 value + 1).

(** The loop of [packed]: each value is put in its place. *)
Definition put_value (bits : nat) (words : list Z) (i : nat) (value : Z) : list Z :=
  let values_per_word := (64 / bits)%nat in
  let bit_offset := ((i mod values_per_word) * bits)%nat in
  alter (λ w, Z.lor w (wrap64 (Z.shiftl value (Z.of_nat bit_offset)))) (i / values_per_word)%nat words.

Definition put_values (bits : nat) (values : list Z) (words : list Z) : list Z :=
  fold_left (λ words '(i, value), put_value bits words i value) (zip (seq 0 (length values)) values) words.

(** [None]: [64 / bits] is 0 and the division by it panics. *)
Definition packed (values : list Z) (bits : nat) : option BitPackedInts :=
  match values with
  | [] => Some (mkPacked (Inline []) bits 0)
  | _ =>
      if (bits =? 0)%nat then Some (mkPacked (Inline []) 0 (length values))
      else
        let values_per_word := (64 / bits)%nat in
        if (values_per_word =? 0)%nat then None
        else
          let num_words := Z.to_nat (div_ceil (Z.of_nat (length values)) (Z.of_nat values_per_word)) in
          Some (mkPacked (Inline (put_values bits values (replicate num_words 0))) bits (length values))
  end.

Definition max_value (values : list Z) : Z := fold_right Z.max 0 values.

Definition pack (values : list Z) : option BitPackedInts :=
  match values with
  | [] => Some (mkPacked (Inline []) 0 0)
  | _ => packed values (bits_needed (max_value values))
  end.

Definition fits (bits : nat) (value : Z) : bool :=
  if (bits =? 0)%nat then value =? 0
  else if (64 <=? bits)%nat then true
  else Z.shiftr value (Z.of_nat bits) =? 0.

(** The first value that does not fit, with its position. *)
Fixpoint first_unfit (bits position : nat) (values : list Z) : option (nat * Z) :=
  match values with
  | [] => None
  | v :: values' => if negb (fits bits v) then Some (position, v) else first_unfit bits (S position) values'
  end.

Definition pack_with_bits (values : list Z) (bits : nat) : option (result io_error BitPackedInts) :=
  match first_unfit bits 0 values with
  | Some (position, value) => Some (Err (DoesNotFit position value))
  | None => Ok <$> packed values bits
  end.

Definition mask (bits : nat) : Z :=
  if (64 <=? bits)%nat then u64_max else Z.shiftl 1 (Z.of_nat bits) - 1.

(** The value at index [i], given its word. *)
Definition value_in (bits i : nat) (word : Z) : Z :=
  let bit_offset := ((i mod (64 / bits)) * bits)%nat in
  Z.land (Z.shiftr word (Z.of_nat bit_offset)) (mask bits).

(** [None]: the width exceeds 64, [64 / bits] is 0 and the division by it
    panics. Likewise in [get] and [scan_eq]. *)
Definition unpack (p : BitPackedInts) : option (list Z) :=
  if (count p =? 0)%nat then Some []
  else if (bits_per_value p =? 0)%nat then Some (replicate (count p) 0)
  else
    let bits := bits_per_value p in
    let values_per_word := (64 / bits)%nat in
    if (values_per_word =? 0)%nat then None
    else Some (map (λ i, let word := match WordStore.word_at (i / values_per_word) (data p) with Some w => w | None => 0 end in
                         value_in bits i word) (seq 0 (count p))).

Definition get (index : nat) (p : BitPackedInts) : option (option Z) :=
  if (count p <=? index)%nat then Some None
  else if (bits_per_value p =? 0)%nat then Some (Some 0)
  else
    let bits := bits_per_value p in
    let values_per_word := (64 / bits)%nat in
    if (values_per_word =? 0)%nat then None
    else Some (word ← WordStore.word_at (index / values_per_word) (data p);
               Some (value_in bits index word)).

(** The loop of [scan_eq]: it stops at the first missing word. *)
Fixpoint scan_loop (bits : nat) (target : Z) (d : WordStore) (rows : list nat) : list nat :=
  match rows with
  | [] => []
  | i :: rows' =>
      match WordStore.word_at (i / (64 / bits)) d with
      | None => []
      | Some word =>
          if value_in bits i word =? target then i :: scan_loop bits target d rows'
          else scan_loop bits target d rows'
      end
  end.

Definition scan_eq (target : Z) (p : BitPackedInts) : option (list nat) :=
  if (count p =? 0)%nat then Some []
  else if (bits_per_value p =? 0)%nat then Some (if target =? 0 then seq 0 (count p) else [])
  else
    let bits := bits_per_value p in
    if negb (mask bits =? u64_max) && negb (Z.land target (not64 (mask bits)) =? 0) then Some []
    else if (64 / bits =? 0)%nat then None
    else Some (scan_loop bits target (data p) (seq 0 (count p))).

Definition to_bytes (p : BitPackedInts) : result io_error (list Z) :=
  if Z.of_nat (count p) <=? u32_max then
    Ok (Z.of_nat (bits_per_value p) :: to_le 4 (Z.of_nat (count p)) ++ WordStore.to_bytes (data p))
  else Err CountExceedsU32.

Definition from_bytes (bytes : list Z) : result io_error BitPackedInts :=
  if (length bytes <? 5)%nat then Err TooShort
  else
    let bits := Z.to_nat (hd 0 bytes) in
    if (64 <? bits)%nat then Err WidthExceeds64
    else
      let n := Z.to_nat (from_le (take 4 (drop 1 bytes))) in
      let num_words := if (bits =? 0)%nat || (n =? 0)%nat then 0%nat
                       else let values_per_word := (64 / bits)%nat in
                            ((n + values_per_word - 1) / values_per_word)%nat in
      let needed := (5 + num_words * 8)%nat in
      if (length bytes <? needed)%nat then Err Truncated
      else Ok (mkPacked (Mapped (take (needed - 5) (drop 5 bytes))) bits n).

End BitPackedInts.

(** ** Delta and bit packing *)

Record DeltaBitPacked := mkDelta { base : Z; deltas : BitPackedInts }.

(** [values.windows(2).map(|w| w[1].saturating_sub(w[0]))]. *)
Fixpoint windows_sub (values : list Z) : list Z :=
  match values with
  | [] => []
  | a :: rest => match rest with [] => [] | b :: _ => saturating_sub b a :: windows_sub rest end
  end.

(** The running sums from [current] on. *)
Fixpoint running_sum (current : Z) (ds : list Z) : list Z :=
  match ds with
  | [] => []
  | d :: ds' => wrap64 (current + d) :: running_sum (wrap64 (current + d)) ds'
  end.

Module DeltaBitPacked.

Definition encode (values : list Z) : option DeltaBitPacked :=
  match values with
  | [] => mkDelta 0 <$> BitPackedInts.pack []
  | v :: _ => mkDelta v <$> BitPackedInts.pack (windows_sub values)
  end.

Definition is_empty (e : DeltaBitPacked) : bool := (count (deltas e) =? 0)%nat && (base e =? 0).

Definition decode (e : DeltaBitPacked) : option (list Z) :=
  if is_empty e then Some []
  else delta_values ← BitPackedInts.unpack (deltas e); Some (base e :: running_sum (base e) delta_values).

Definition len (e : DeltaBitPacked) : nat := if is_empty e then 0%nat else S (count (deltas e)).

Definition to_bytes (e : DeltaBitPacked) : result io_error (list Z) :=
  delta_bytes ← BitPackedInts.to_bytes (deltas e); Ok (to_le 8 (base e) ++ delta_bytes).

Definition from_bytes (bytes : list Z) : result io_error DeltaBitPacked :=
  if (length bytes <? 8)%nat then Err TooShort
  else ds ← BitPackedInts.from_bytes (drop 8 bytes); Ok (mkDelta (from_le (take 8 bytes)) ds).

End DeltaBitPacked.
