(* ===== verification/BitPackProps.v ===== *)
(** * Bit packing: facts

    Where each bit of a packed value lies, and what follows for packing and
    reading back (all values, one value, the rows equal to a target) and the
    byte format. *)
From S2P Require Import Prelude Bytes Bits Bitset BitPack.
Open Scope Z_scope.

#[local] Arguments Nat.div : simpl never.
#[local] Arguments Nat.modulo : simpl never.
#[local] Arguments Nat.mul : simpl never.

(** ** Fields of a word *)

Lemma test_shiftr w off b : test (Z.shiftr w (Z.of_nat off)) b = test w (b + off).
Proof. unfold test. rewrite Z.shiftr_spec by lia. f_equal. lia. Qed.

Lemma test_wrap_shiftl v off n :
  (n < 64)%nat → test (wrap64 (Z.shiftl v (Z.of_nat off))) n = bool_decide (off ≤ n)%nat && test v (n - off).
Proof.
  intros Hn. unfold test, wrap64. rewrite Z.mod_pow2_bits_low by lia.
  case_bool_decide; simpl.
  - rewrite Z.shiftl_spec by lia. f_equal. lia.
  - apply Z.shiftl_spec_low. lia.
Qed.

Lemma mask_u64 bits : is_u64 (BitPackedInts.mask bits).
Proof.
  unfold BitPackedInts.mask. destruct (Nat.leb_spec 64 bits); [unfold u64_max, is_u64; lia|].
  rewrite Z.shiftl_1_l. assert (0 < 2 ^ Z.of_nat bits < 2 ^ 64); [|unfold is_u64; lia].
  split; [apply Z.pow_pos_nonneg; lia|apply Z.pow_lt_mono_r; lia].
Qed.

Lemma test_mask bits b : (b < 64)%nat → test (BitPackedInts.mask bits) b = bool_decide (b < bits)%nat.
Proof.
  intros Hb. unfold BitPackedInts.mask. destruct (Nat.leb_spec 64 bits).
  - rewrite test_max, !bool_decide_eq_true_2 by lia. done.
  - rewrite Z.shiftl_1_l.
    replace (2 ^ Z.of_nat bits - 1) with (Z.ones (Z.of_nat bits)) by (rewrite Z.ones_equiv; lia).
    unfold test. rewrite Z.testbit_ones_nonneg by lia.
    destruct (Z.ltb_spec (Z.of_nat b) (Z.of_nat bits)); case_bool_decide; (done || lia).
Qed.

(** A value that has no bit past its width. *)
Definition within (bits : nat) (v : Z) : Prop := is_u64 v ∧ ∀ b, (bits ≤ b)%nat → test v b = false.

Lemma fits_within bits v : is_u64 v → BitPackedInts.fits bits v = true ↔ within bits v.
Proof.
  intros Hv. unfold BitPackedInts.fits, within. destruct (Nat.eqb_spec bits 0) as [->|Hne].
  - rewrite Z.eqb_eq. rewrite (zero_bits v Hv). split; [|intros [_ Hb]; auto with lia].
    intros Hb. split; [done|]. intros b _. destruct (decide (b < 64)%nat); [by apply Hb|apply test_high; [done|lia]].
  - destruct (Nat.leb_spec 64 bits).
    + split; [|done]. intros _. split; [done|]. intros b Hb. apply test_high; [done|lia].
    + rewrite Z.eqb_eq. split.
      * intros Hz. split; [done|]. intros b Hb. pose proof (test_shiftr v bits (b - bits)) as Ht.
        rewrite Hz, test_0 in Ht. rewrite Ht. f_equal. lia.
      * intros [_ Hb]. apply Z.bits_inj'. intros n Hn. rewrite Z.testbit_0_l, Z.shiftr_spec by done.
        specialize (Hb (Z.to_nat n + bits)%nat). unfold test in Hb. rewrite <- Hb by lia. f_equal. lia.
Qed.

Lemma within_mono bits bits' v : (bits ≤ bits')%nat → within bits v → within bits' v.
Proof. intros Hle [Hv Hb]. split; [done|]. intros b ?. apply Hb. lia. Qed.

(** ** The bits of the packed words *)

Section width.
Context (bits : nat) (Hbits : (0 < bits ≤ 64)%nat).
Abbreviation vpw := (64 / bits)%nat.

Lemma vpw_pos : (0 < vpw)%nat.
Proof. apply Nat.div_str_pos. lia. Qed.

Lemma vpw_fits k : (k < vpw)%nat → (k * bits + bits ≤ 64)%nat.
Proof. intros Hk. pose proof (Nat.Div0.mul_div_le 64 bits). nia. Qed.

Lemma slot_inj w k i : (k < vpw)%nat → (w * vpw + k = i)%nat ↔ w = (i / vpw)%nat ∧ k = (i mod vpw)%nat.
Proof.
  intros Hk. pose proof vpw_pos. split.
  - intros <-. rewrite Nat.div_add_l, Nat.div_small by lia. split; [lia|].
    rewrite Nat.add_comm, Nat.Div0.mod_add. by rewrite Nat.mod_small.
  - intros [-> ->]. rewrite (Nat.div_mod_eq i vpw) at 3. lia.
Qed.

Lemma put_value_wf words i v : Bitset.wf words → Bitset.wf (BitPackedInts.put_value bits words i v).
Proof. intros Hwf. apply Bitset.alter_wf; [|done]. intros w Hw. apply lor_u64; [done|apply wrap64_u64]. Qed.

Lemma put_value_bits words i v w k b :
  within bits v → (i / vpw < length words)%nat → (k < vpw)%nat → (b < bits)%nat →
  test (Bitset.word w (BitPackedInts.put_value bits words i v)) (k * bits + b) =
    test (Bitset.word w words) (k * bits + b) || (bool_decide (w * vpw + k = i)%nat && test v b).
Proof.
  intros [_ Hv] Hi Hk Hb. pose proof (vpw_fits k Hk). unfold BitPackedInts.put_value.
  rewrite Bitset.word_alter by done. rewrite (bool_decide_ext _ _ (slot_inj w k i Hk)).
  destruct (Nat.eqb_spec w (i / vpw)) as [->|Hne]; [|rewrite bool_decide_eq_false_2 by tauto; by rewrite orb_false_r].
  rewrite test_lor. f_equal. rewrite test_wrap_shiftl by lia.
  set (k' := (i mod vpw)%nat). destruct (decide (k = k')) as [->|Hne].
  - rewrite !bool_decide_eq_true_2 by lia. simpl. f_equal. lia.
  - rewrite (bool_decide_eq_false_2 (_ ∧ _)) by tauto. simpl.
    destruct (decide (k' < k)%nat); [|rewrite bool_decide_eq_false_2; [done|nia]].
    rewrite Hv; [apply andb_false_r|]. nia.
Qed.

Abbreviation put := (λ words '(i, value), BitPackedInts.put_value bits words i value).

Lemma fold_put_bits values s words w k b :
  Forall (within bits) values →
  (∀ i, (s ≤ i < s + length values)%nat → (i / vpw < length words)%nat) →
  (k < vpw)%nat → (b < bits)%nat →
  test (Bitset.word w (fold_left put (zip (seq s (length values)) values) words)) (k * bits + b) =
    test (Bitset.word w words) (k * bits + b) ||
    (bool_decide (s ≤ w * vpw + k)%nat &&
     match values !! (w * vpw + k - s)%nat with Some v => test v b | None => false end).
Proof.
  intros Hvs Hin Hk Hb. revert s words Hin. induction Hvs as [|v values Hv Hvs IH]; intros s words Hin.
  { simpl. by rewrite andb_false_r, orb_false_r. }
  cbn [length seq zip zip_with fold_left]. cbn [length] in Hin. rewrite IH.
  2: { intros i Hi. unfold BitPackedInts.put_value. rewrite length_alter. apply Hin. lia. }
  rewrite put_value_bits by (done || apply Hin; lia).
  set (j := (w * vpw + k)%nat). rewrite <- orb_assoc. f_equal.
  destruct (decide (j = s)) as [->|Hne].
  - rewrite bool_decide_eq_true_2, bool_decide_eq_false_2, bool_decide_eq_true_2 by lia.
    rewrite Nat.sub_diag. simpl. by rewrite orb_false_r.
  - rewrite (bool_decide_eq_false_2 (j = s)) by done. simpl. destruct (decide (s < j)%nat).
    + rewrite !bool_decide_eq_true_2 by lia. replace (j - s)%nat with (S (j - S s)) by lia. done.
    + by rewrite !bool_decide_eq_false_2 by lia.
Qed.

Lemma fold_put_wf l words : Bitset.wf words → Bitset.wf (fold_left put l words).
Proof. revert words. induction l as [|[i v] l IH]; intros words Hwf; [done|]. simpl. by apply IH, put_value_wf. Qed.

Lemma fold_put_length l words : length (fold_left put l words) = length words.
Proof.
  revert words. induction l as [|[i v] l IH]; intros words; [done|]. simpl. rewrite IH. apply length_alter.
Qed.

(** The number of words that hold [n] values. *)
Definition words_for (n : nat) : nat := ((n + vpw - 1) / vpw)%nat.

Lemma words_for_div_ceil n : Z.to_nat (div_ceil (Z.of_nat n) (Z.of_nat vpw)) = words_for n.
Proof.
  pose proof vpw_pos. unfold div_ceil, words_for.
  replace (Z.of_nat n + Z.of_nat vpw - 1) with (Z.of_nat (n + vpw - 1)) by lia.
  by rewrite <- Nat2Z.inj_div, Nat2Z.id.
Qed.

Lemma words_for_spec n i : (i < n)%nat → (i / vpw < words_for n)%nat.
Proof.
  intros Hi. pose proof vpw_pos. unfold words_for.
  apply Nat.lt_le_trans with (S (i / vpw))%nat; [lia|]. apply Nat.div_le_lower_bound; [lia|].
  pose proof (Nat.Div0.mul_div_le i vpw). lia.
Qed.

Definition packed_words (values : list Z) : list Z :=
  BitPackedInts.put_values bits values (replicate (words_for (length values)) 0).

Lemma packed_words_wf values : Bitset.wf (packed_words values).
Proof. apply fold_put_wf, Forall_replicate, is_u64_0. Qed.

Lemma packed_words_length values : length (packed_words values) = words_for (length values).
Proof. unfold packed_words, BitPackedInts.put_values. by rewrite fold_put_length, length_replicate. Qed.

Lemma word_zeros w n : Bitset.word w (replicate n 0) = 0.
Proof. unfold Bitset.word. destruct (_ !! _) eqn:H; [|done]. by apply lookup_replicate in H as [-> _]. Qed.

(** The value read at [i] is the value packed there. *)
Lemma value_in_packed values i v :
  Forall (within bits) values → values !! i = Some v →
  BitPackedInts.value_in bits i (Bitset.word (i / vpw) (packed_words values)) = v.
Proof.
  intros Hvs Hi. pose proof vpw_pos. pose proof (Nat.mod_upper_bound i vpw ltac:(lia)) as Hk.
  pose proof (Forall_lookup_1 _ _ _ _ Hvs Hi) as [Hv Hhigh]. pose proof (vpw_fits _ Hk).
  pose proof (Bitset.word_u64 (i / vpw) _ (packed_words_wf values)) as Hw.
  unfold BitPackedInts.value_in. apply word_ext; [|done|].
  { apply land_u64_r; [apply mask_u64|]. apply Z.shiftr_nonneg, Hw. }
  intros b Hb. rewrite test_land, test_shiftr, test_mask by done. case_bool_decide; [|by rewrite andb_false_r, Hhigh by lia].
  rewrite andb_true_r, Nat.add_comm. unfold packed_words, BitPackedInts.put_values.
  rewrite fold_put_bits; try done.
  2: { intros j Hj. rewrite length_replicate. apply words_for_spec. lia. }
  rewrite word_zeros, test_0, bool_decide_eq_true_2, Nat.sub_0_r by lia. simpl.
  rewrite (proj2 (slot_inj (i / vpw) (i mod vpw) i Hk)) by done. by rewrite Hi.
Qed.

End width.

(** ** Values held by a packing

    [holds p values]: [p] has the words of [values], whatever its storage. *)
Definition holds (p : BitPackedInts) (values : list Z) : Prop :=
  count p = length values ∧
  ((bits_per_value p = 0%nat ∧ Forall (λ v, v = 0) values) ∨
   ((0 < bits_per_value p ≤ 64)%nat ∧ Forall (within (bits_per_value p)) values ∧
    ∀ i, (i < words_for (bits_per_value p) (length values))%nat →
         WordStore.word_at i (data p) = Some (Bitset.word i (packed_words (bits_per_value p) values)))).

(** The rows at which [values] is [target], ascending. *)
Definition rows_equal_to (target : Z) (values : list Z) : list nat :=
  List.filter (λ i, bool_decide (values !! i = Some target)) (seq 0 (length values)).

Lemma holds_word p values i v :
  holds p values → bits_per_value p ≠ 0%nat → values !! i = Some v →
  ∃ w, WordStore.word_at (i / (64 / bits_per_value p)) (data p) = Some w ∧
       BitPackedInts.value_in (bits_per_value p) i w = v.
Proof.
  intros [_ [[? _]|(Hb & Hvs & Hw)]] Hne Hi; [done|]. eexists. split.
  - apply Hw. apply words_for_spec; [done|]. by eapply lookup_lt_Some.
  - by apply value_in_packed.
Qed.

Lemma holds_vpw p values : holds p values → bits_per_value p ≠ 0%nat → (64 / bits_per_value p)%nat ≠ 0%nat.
Proof. intros [_ [[? _]|(Hb & _)]] ?; [done|]. pose proof (vpw_pos _ Hb). lia. Qed.

Lemma holds_get p values i : holds p values → BitPackedInts.get i p = Some (values !! i).
Proof.
  intros Hp. pose proof Hp as [Hc Hd]. unfold BitPackedInts.get. rewrite Hc. destruct (Nat.leb_spec (length values) i).
  { by rewrite lookup_ge_None_2. }
  destruct (lookup_lt_is_Some_2 values i) as [v Hi]; [done|]. rewrite Hi.
  destruct (Nat.eqb_spec (bits_per_value p) 0) as [Hz|Hnz].
  - destruct Hd as [[_ Hall]|[? _]]; [|lia]. by rewrite (Forall_lookup_1 _ _ _ _ Hall Hi).
  - rewrite (proj2 (Nat.eqb_neq _ _)) by by eapply holds_vpw.
    destruct (holds_word p values i v Hp Hnz Hi) as (w & -> & <-). done.
Qed.

Lemma holds_unpack p values : holds p values → BitPackedInts.unpack p = Some values.
Proof.
  intros Hp. pose proof Hp as [Hc Hd]. unfold BitPackedInts.unpack. rewrite Hc.
  destruct (Nat.eqb_spec (length values) 0) as [H0|_]; [by apply nil_length_inv in H0 as ->|].
  destruct (Nat.eqb_spec (bits_per_value p) 0) as [Hz|Hnz].
  - destruct Hd as [[_ Hall]|[? _]]; [|lia]. f_equal. apply replicate_as_Forall. split; [done|].
    eapply Forall_impl; [exact Hall|]. by intros ? ->.
  - rewrite (proj2 (Nat.eqb_neq _ _)) by by eapply holds_vpw. f_equal.
    apply list_eq_same_length with (length values); [done|by rewrite length_map, length_seq|].
    intros i x y Hi Hx Hy. rewrite list_lookup_fmap, lookup_seq_lt in Hx by done. simpl in Hx.
    destruct (holds_word p values i y Hp Hnz Hy) as (w & Hw & Hv). rewrite Hw, Hv in Hx. congruence.
Qed.

Lemma holds_scan_loop p values target rows :
  holds p values → bits_per_value p ≠ 0%nat → Forall (λ i, (i < length values)%nat) rows →
  BitPackedInts.scan_loop (bits_per_value p) target (data p) rows =
    List.filter (λ i, bool_decide (values !! i = Some target)) rows.
Proof.
  intros Hp Hnz. induction 1 as [|i rows Hi _ IH]; [done|]. simpl.
  destruct (lookup_lt_is_Some_2 values i Hi) as [v Hv].
  destruct (holds_word p values i v Hp Hnz Hv) as (w & -> & ->). rewrite IH, Hv.
  destruct (Z.eqb_spec v target) as [->|Hne]; [by rewrite bool_decide_eq_true_2|].
  rewrite bool_decide_eq_false_2; [done|]. congruence.
Qed.

Lemma filter_none {A} (f : A → bool) l : (∀ x, x ∈ l → f x = false) → List.filter f l = [].
Proof.
  induction l as [|x l IH]; intros Hf; [done|]. simpl. rewrite Hf by set_solver. apply IH. set_solver.
Qed.

(** A target outside the width is no value. *)
Lemma outside_width bits values target :
  Forall (within bits) values → is_u64 target → Z.land target (not64 (BitPackedInts.mask bits)) ≠ 0 →
  rows_equal_to target values = [].
Proof.
  intros Hvs Hu Ht. apply filter_none. intros i _. apply bool_decide_eq_false. intros Hi. destruct Ht.
  destruct (Forall_lookup_1 _ _ _ _ Hvs Hi) as [_ Hhigh].
  apply zero_bits; [apply land_u64; [done|apply not64_nonneg, mask_u64]|].
  intros b Hb. rewrite test_land, test_not64, test_mask by done.
  case_bool_decide; [apply andb_false_r|]. by rewrite Hhigh by lia.
Qed.

Lemma holds_scan_eq p values target :
  holds p values → is_u64 target → BitPackedInts.scan_eq target p = Some (rows_equal_to target values).
Proof.
  intros Hp Ht. pose proof Hp as [Hc Hd]. unfold BitPackedInts.scan_eq. rewrite Hc.
  destruct (Nat.eqb_spec (length values) 0) as [H0|_]; [by apply nil_length_inv in H0 as ->|].
  destruct (Nat.eqb_spec (bits_per_value p) 0) as [Hz|Hnz].
  - destruct Hd as [[_ Hall]|[? _]]; [|lia]. f_equal. unfold rows_equal_to.
    destruct (Z.eqb_spec target 0) as [->|Hne]; symmetry.
    + apply forallb_filter_id, forallb_forall. intros i [_ Hi]%in_seq.
      destruct (lookup_lt_is_Some_2 values i) as [v Hv]; [lia|]. apply bool_decide_eq_true.
      rewrite Hv. by rewrite (Forall_lookup_1 _ _ _ _ Hall Hv).
    + apply filter_none. intros i _. apply bool_decide_eq_false. intros Hv. destruct Hne.
      exact (Forall_lookup_1 _ _ _ _ Hall Hv).
  - destruct Hd as [[? _]|(Hb & Hvs & _)]; [done|].
    destruct (_ && _) eqn:Hout.
    + f_equal. symmetry. bool_to_prop. by apply (outside_width (bits_per_value p)).
    + rewrite (proj2 (Nat.eqb_neq _ _)) by by eapply holds_vpw. f_equal. apply holds_scan_loop; [done..|].
      apply Forall_forall. intros i Hi%elem_of_seq. lia.
Qed.

(** ** Packing *)

Lemma inline_holds bits values :
  (0 < bits ≤ 64)%nat → Forall (within bits) values →
  holds (mkPacked (Inline (packed_words bits values)) bits (length values)) values.
Proof.
  intros Hb Hvs. split; [done|]. right. simpl. split; [done|]. split; [done|]. intros i Hi.
  unfold Bitset.word. destruct (packed_words bits values !! i) eqn:Hl; [done|].
  apply lookup_ge_None_1 in Hl. rewrite packed_words_length in Hl. lia.
Qed.

Lemma packed_holds bits values :
  (bits ≤ 64)%nat → Forall (within bits) values → ∃ p, BitPackedInts.packed values bits = Some p ∧ holds p values ∧
    (values = [] → data p = Inline []) ∧
    (values ≠ [] → p = mkPacked (Inline (if (bits =? 0)%nat then [] else packed_words bits values)) bits (length values)).
Proof.
  intros Hb Hvs. destruct values as [|v values].
  { eexists. split; [reflexivity|]. split; [|done]. split; [done|]. simpl.
    destruct (decide (bits = 0%nat)); [by left|]. right. split; [lia|]. split; [done|]. unfold words_for. simpl.
    intros i Hi. rewrite Nat.div_small in Hi by (pose proof (vpw_pos bits ltac:(lia)); lia). lia. }
  unfold BitPackedInts.packed. destruct (Nat.eqb_spec bits 0) as [->|Hnz].
  - eexists. split; [reflexivity|]. split; [|done]. split; [done|]. left. split; [done|].
    eapply Forall_impl; [exact Hvs|]. intros x [Hx Hh]. apply zero_bits; [done|]. auto with lia.
  - rewrite (proj2 (Nat.eqb_neq _ _)) by (pose proof (vpw_pos bits ltac:(lia)); lia).
    rewrite words_for_div_ceil by lia. eexists. split; [reflexivity|].
    split; [apply inline_holds; [lia|done]|done].
Qed.

Lemma max_value_ge values v : v ∈ values → v ≤ BitPackedInts.max_value values.
Proof. induction 1; simpl; lia. Qed.

Lemma max_value_u64 values : Forall is_u64 values → is_u64 (BitPackedInts.max_value values).
Proof. induction 1 as [|v values Hv _ IH]; simpl; unfold is_u64 in *; lia. Qed.

Lemma bits_needed_bound v : is_u64 v → (0 < BitPackedInts.bits_needed v ≤ 64)%nat.
Proof.
  intros Hv. unfold BitPackedInts.bits_needed. destruct (Z.eqb_spec v 0); [lia|].
  assert (0 ≤ Z.log2 v < 64); [|lia]. split; [apply Z.log2_nonneg|]. apply Z.log2_lt_pow2; unfold is_u64 in Hv; lia.
Qed.

Lemma bits_needed_within v m : is_u64 v → v ≤ m → within (BitPackedInts.bits_needed m) v.
Proof.
  intros Hv Hm. split; [done|]. intros b Hb. unfold test. unfold BitPackedInts.bits_needed in Hb.
  destruct (Z.eqb_spec v 0) as [->|Hne]; [apply Z.testbit_0_l|]. unfold is_u64 in Hv.
  destruct (Z.eqb_spec m 0); [lia|]. apply Z.bits_above_log2; [lia|].
  assert (Z.log2 v ≤ Z.log2 m) by (apply Z.log2_le_mono; lia). pose proof (Z.log2_nonneg m). lia.
Qed.

Lemma pack_holds values :
  Forall is_u64 values → ∃ p, BitPackedInts.pack values = Some p ∧ holds p values ∧
    p = mkPacked (Inline (if (bits_per_value p =? 0)%nat then [] else packed_words (bits_per_value p) values))
          (bits_per_value p) (length values).
Proof.
  intros Hvs. destruct values as [|v values].
  { eexists. split; [reflexivity|]. split; [|done]. split; [done|]. by left. }
  set (m := BitPackedInts.max_value (v :: values)).
  pose proof (bits_needed_bound m (max_value_u64 _ Hvs)).
  destruct (packed_holds (BitPackedInts.bits_needed m) (v :: values)) as (p & Hp & Hh & _ & Heq); [lia| |].
  - apply Forall_forall. intros x Hx. apply bits_needed_within; [by eapply Forall_forall|by apply max_value_ge].
  - exists p. split; [done|]. split; [done|]. rewrite Heq by done. done.
Qed.

(** ** The byte format *)

Lemma words_for_0 bits : (0 < bits ≤ 64)%nat → words_for bits 0 = 0%nat.
Proof. intros Hb. unfold words_for. pose proof (vpw_pos bits Hb). apply Nat.div_small. lia. Qed.

Lemma words_for_le bits n : (0 < bits ≤ 64)%nat → (words_for bits n ≤ n)%nat.
Proof.
  intros Hb. destruct n as [|n]; [by rewrite words_for_0|]. unfold words_for. pose proof (vpw_pos bits Hb).
  apply Nat.Div0.div_le_upper_bound. nia.
Qed.

Lemma mapped_word words i w :
  Forall is_u64 words → words !! i = Some w → Z.of_nat i ≤ u32_max →
  WordStore.word_at i (Mapped (words_to_bytes words)) = Some w.
Proof.
  intros Hws Hi Hsmall. unfold u32_max in Hsmall. simpl. unfold checked_mul64, checked_add64.
  rewrite (proj2 (Z.leb_le _ _)) by (unfold u64_max; lia). simpl.
  rewrite (proj2 (Z.leb_le _ _)) by (unfold u64_max; lia). simpl.
  replace (Z.to_nat (Z.of_nat i * 8)) with (i * 8)%nat by lia. rewrite (words_to_bytes_slice _ _ _ Hi). simpl.
  f_equal. apply from_to_le64. by eapply Forall_lookup_1.
Qed.

(** The words of a packing, as [packed] stores them. *)
Definition stored_words (bits : nat) (values : list Z) : list Z :=
  if (bits =? 0)%nat then [] else packed_words bits values.

Lemma mapped_holds bits values :
  Z.of_nat (length values) ≤ u32_max →
  holds (mkPacked (Inline (stored_words bits values)) bits (length values)) values →
  holds (mkPacked (Mapped (words_to_bytes (stored_words bits values))) bits (length values)) values.
Proof.
  unfold stored_words. intros Hlen [Hc [Hz|(Hb & Hvs & Hw)]]; (split; [done|]); [by left|]. simpl in *. right.
  split; [done|]. split; [done|]. intros i Hi. specialize (Hw i Hi). rewrite (proj2 (Nat.eqb_neq bits 0)) in Hw |- * by lia.
  pose proof (words_for_le bits (length values) Hb). apply mapped_word; [apply packed_words_wf|exact Hw|lia].
Qed.

Lemma from_bytes_format bits values :
  (bits ≤ 64)%nat → Z.of_nat (length values) ≤ u32_max →
  BitPackedInts.from_bytes
    (Z.of_nat bits :: to_le 4 (Z.of_nat (length values)) ++ words_to_bytes (stored_words bits values)) =
  Ok (mkPacked (Mapped (words_to_bytes (stored_words bits values))) bits (length values)).
Proof.
  intros Hb Hlen. unfold BitPackedInts.from_bytes. set (ws := words_to_bytes (stored_words bits values)).
  assert (length ws = (if (bits =? 0)%nat || (length values =? 0)%nat then 0 else words_for bits (length values)) * 8)%nat as Hws.
  { unfold ws, stored_words. rewrite words_to_bytes_length. f_equal. destruct (Nat.eqb_spec bits 0); [done|]. simpl.
    rewrite packed_words_length. destruct (Nat.eqb_spec (length values) 0) as [->|]; [|done]. apply words_for_0. lia. }
  cbn [length hd]. rewrite length_app, to_le_length, (proj2 (Nat.ltb_ge _ _)) by lia. rewrite Nat2Z.id.
  rewrite (proj2 (Nat.ltb_ge _ _)) by lia. cbn [skipn]. rewrite !drop_0.
  rewrite take_app_length' by (by rewrite to_le_length). rewrite from_to_le, Nat2Z.id by (unfold u32_max in Hlen; simpl; lia).
  unfold words_for in Hws. cbv zeta. set (k := if (bits =? 0)%nat || _ then _ else _) in *.
  rewrite (proj2 (Nat.ltb_ge _ _)) by lia. do 3 f_equal.
  replace (5 + k * 8 - 5)%nat with (length ws) by lia.
  rewrite drop_app_length' by (by rewrite to_le_length). by apply take_ge.
Qed.

Lemma to_bytes_format bits (values words : list Z) :
  Z.of_nat (length values) ≤ u32_max →
  BitPackedInts.to_bytes (mkPacked (Inline words) bits (length values)) =
    Ok (Z.of_nat bits :: to_le 4 (Z.of_nat (length values)) ++ words_to_bytes words).
Proof. intros Hlen. unfold BitPackedInts.to_bytes. simpl. by rewrite (proj2 (Z.leb_le _ _)). Qed.

Lemma holds_bits p values : holds p values → (bits_per_value p ≤ 64)%nat.
Proof. intros [_ [[-> _]|[? _]]]; lia. Qed.

(** What a packing promises to its readers: all values, each value and the
    rows of a value are those of [values]. *)
Record reads_as (p : BitPackedInts) (values : list Z) : Prop := {
  reads_unpack : BitPackedInts.unpack p = Some values;
  reads_get : ∀ i, BitPackedInts.get i p = Some (values !! i);
  reads_scan : ∀ target, is_u64 target → BitPackedInts.scan_eq target p = Some (rows_equal_to target values)
}.

Lemma holds_reads p values : holds p values → reads_as p values.
Proof.
  intros Hp. split; [by apply holds_unpack|intros; by apply holds_get|intros; by apply holds_scan_eq].
Qed.

Lemma pack_bytes values :
  Forall is_u64 values → Z.of_nat (length values) ≤ u32_max →
  ∃ p bytes q, BitPackedInts.pack values = Some p ∧ BitPackedInts.to_bytes p = Ok bytes ∧
    BitPackedInts.from_bytes bytes = Ok q ∧ holds p values ∧ holds q values.
Proof.
  intros Hvs Hlen. destruct (pack_holds values Hvs) as (p & Hp & Hh & Heq).
  pose proof (holds_bits p values Hh) as Hb. exists p. rewrite Heq, to_bytes_format by done.
  do 2 eexists. split; [by rewrite <- Heq|]. split; [done|].
  split; [by apply (from_bytes_format (bits_per_value p) values)|]. split; [by rewrite <- Heq|].
  apply mapped_holds; [done|]. unfold stored_words. by rewrite <- Heq.
Qed.

(** ** Counting the rows of a range

    [Bitset::count_in] counts the bits of whole words with the first and the
    last word masked; here it is shown to count the rows of the range. *)
Open Scope Z_scope.

#[local] Arguments Nat.div : simpl never.
#[local] Arguments Nat.modulo : simpl never.
#[local] Arguments Nat.mul : simpl never.

Section range.
Context (start end_ : nat) (Hrange : (start < end_)%nat).
Abbreviation first := (start / 64)%nat.
Abbreviation last_ := ((end_ - 1) / 64)%nat.

(** The word at [index] as the loop counts it. *)
Definition masked (index : nat) (word : Z) : Z :=
  let bits := if (index =? first)%nat
              then Z.land word (wrap64 (Z.shiftl u64_max (Z.of_nat (start mod 64)))) else word in
  if (index =? last_)%nat then Z.land bits (Z.shiftr u64_max (63 - Z.of_nat ((end_ - 1) mod 64))) else bits.

Definition in_rows (r : nat) : bool := (start <=? r)%nat && (r <? end_)%nat.

Lemma test_masked index w j :
  (first ≤ index ≤ last_)%nat → (j < 64)%nat → test (masked index w) j = test w j && in_rows (index * 64 + j).
Proof.
  intros Hi Hj. pose proof (Nat.div_mod_eq start 64). pose proof (Nat.div_mod_eq (end_ - 1) 64).
  pose proof (Bitset.row_mod start). pose proof (Bitset.row_mod (end_ - 1)).
  assert (∀ v, test (Z.land v (wrap64 (Z.shiftl u64_max (Z.of_nat (start mod 64))))) j = test v j && (start mod 64 <=? j)%nat) as Hlo.
  { intros v. rewrite test_land, test_wrap_shiftl, test_max by done. f_equal. rewrite (bool_decide_eq_true_2 (_ < 64)%nat) by lia.
    rewrite andb_true_r. destruct (Nat.leb_spec (start mod 64) j); case_bool_decide; (done || lia). }
  assert (∀ v, test (Z.land v (Z.shiftr u64_max (63 - Z.of_nat ((end_ - 1) mod 64)))) j = test v j && (j <=? (end_ - 1) mod 64)%nat) as Hhi.
  { intros v. rewrite test_land. f_equal. replace (63 - Z.of_nat ((end_ - 1) mod 64)) with (Z.of_nat (63 - (end_ - 1) mod 64)) by lia.
    rewrite test_shiftr, test_max. destruct (Nat.leb_spec j ((end_ - 1) mod 64)); case_bool_decide; (done || lia). }
  unfold masked, in_rows. destruct (Nat.eqb_spec index first), (Nat.eqb_spec index last_); rewrite ?Hhi, ?Hlo, <- ?andb_assoc;
    destruct (test w j); simpl; try done;
    repeat match goal with |- context [(?a <=? ?b)%nat] => destruct (Nat.leb_spec a b) | |- context [(?a <? ?b)%nat] => destruct (Nat.ltb_spec a b) end;
    simpl; (done || lia).
Qed.

Lemma count_fold b n acc :
  (first ≤ n)%nat → (n + length b ≤ S last_)%nat →
  fold_left (λ count '(index, word), count + count_ones (masked index word))%nat (zip (seq n (length b)) b) acc =
  (acc + length (List.filter (λ r, test (Bitset.word (r / 64 - n) b) (r mod 64) && in_rows r) (seq (n * 64) (length b * 64))))%nat.
Proof.
  revert n acc. induction b as [|w b IH]; intros n acc Hn Hlen; [simpl; lia|].
  cbn [length] in Hlen. cbn [length zip seq zip_with fold_left]. rewrite IH by lia.
  rewrite (Nat.mul_succ_l (length b)), (Nat.add_comm _ 64), seq_app, List.filter_app, length_app, Nat.add_assoc. f_equal.
  - f_equal. unfold count_ones. rewrite (Bitset.filter_seq_shift _ (n * 64)), length_map. f_equal. apply Bitset.filter_ext_seq.
    intros j Hj. rewrite test_masked by lia. rewrite Nat.div_add_l, (Nat.div_small j 64) by lia.
    rewrite (Nat.add_comm (n * 64) j), Nat.Div0.mod_add, Nat.mod_small by lia.
    rewrite (Nat.add_comm j). by replace (n + 0 - n)%nat with 0%nat by lia.
  - f_equal. replace (n * 64 + 64)%nat with (S n * 64)%nat by lia. apply Bitset.filter_ext_seq. intros i Hi.
    assert (S n ≤ i / 64)%nat by (apply Nat.div_le_lower_bound; lia).
    by replace (i / 64 - n)%nat with (S (i / 64 - S n)) by lia.
Qed.

End range.

(** Keeping to a range of a longer run of numbers. *)
Lemma filter_range (f : nat → bool) start end_ a k :
  (a ≤ start ≤ end_)%nat → (∀ r, (a + k ≤ r < end_)%nat → f r = false) →
  List.filter (λ r, f r && in_rows start end_ r) (seq a k) = List.filter f (seq start (end_ - start)).
Proof.
  intros Ha Hf.
  assert (∀ s n, (∀ r, (s ≤ r < s + n)%nat → f r && in_rows start end_ r = false) →
    List.filter (λ r, f r && in_rows start end_ r) (seq s n) = []) as Hnone.
  { intros s n Hn. apply filter_none. intros r Hr%elem_of_seq. by apply Hn. }
  assert (List.filter (λ r, f r && in_rows start end_ r) (seq a k) =
          List.filter (λ r, f r && in_rows start end_ r) (seq a (Nat.max k (end_ - a)))) as Hgrow.
  { replace (Nat.max k (end_ - a)) with (k + (Nat.max k (end_ - a) - k))%nat by lia. rewrite seq_app, List.filter_app.
    rewrite (Hnone (a + k)%nat), app_nil_r; [done|]. intros r Hr. by rewrite Hf by lia. }
  rewrite Hgrow. set (m := Nat.max k (end_ - a)).
  replace m with ((start - a) + ((end_ - start) + (a + m - end_)))%nat by lia. rewrite !seq_app, !List.filter_app.
  assert (∀ r, in_rows start end_ r = true ↔ (start ≤ r < end_)%nat) as Hin.
  { intros r. unfold in_rows. rewrite andb_true_iff, Nat.leb_le, Nat.ltb_lt. lia. }
  rewrite (Hnone a), (Hnone (a + (start - a) + (end_ - start))%nat), app_nil_r; simpl.
  - replace (a + (start - a))%nat with start by lia. apply Bitset.filter_ext_seq. intros r Hr.
    rewrite (proj2 (Hin r)) by lia. apply andb_true_r.
  - intros r Hr. apply andb_false_iff. right. apply not_true_iff_false. rewrite Hin. lia.
  - intros r Hr. apply andb_false_iff. right. apply not_true_iff_false. rewrite Hin. lia.
Qed.

Lemma drop_take_zip_seq {A} (b : list A) n i j :
  drop i (take j (zip (seq n (length b)) b)) = zip (seq (n + i) (length (drop i (take j b)))) (drop i (take j b)).
Proof.
  revert n i j. induction b as [|x b IH]; intros n i j; [by destruct i, j|].
  cbn [length seq zip zip_with]. destruct j as [|j]; [by destruct i|]. rewrite !firstn_cons.
  destruct i as [|i].
  - rewrite !drop_0, Nat.add_0_r. cbn [length seq zip zip_with]. f_equal.
    pose proof (IH (S n) 0%nat j) as H0. rewrite !drop_0, Nat.add_0_r in H0. exact H0.
  - rewrite !skipn_cons, IH. by replace (S n + i)%nat with (n + S i)%nat by lia.
Qed.

Lemma count_in_spec start end_ b :
  Bitset.wf b → Bitset.count_in start end_ b = length (List.filter (λ r, Bitset.get r b) (seq start (end_ - start))).
Proof.
  intros Hwf. unfold Bitset.count_in. destruct (Nat.leb_spec end_ start) as [Hle|Hlt].
  { by replace (end_ - start)%nat with 0%nat by lia. }
  set (first := (start / 64)%nat). set (last_ := ((end_ - 1) / 64)%nat).
  assert (first ≤ last_)%nat by (apply Nat.Div0.div_le_mono; lia).
  rewrite drop_take_zip_seq, Nat.add_0_l. set (b' := drop first (take (S last_) b)).
  assert (length b' = (Nat.min (S last_) (length b) - first)%nat) as Hlen by (unfold b'; rewrite length_drop, length_take; done).
  etransitivity; [apply (count_fold start end_ Hlt b' first 0)|]; [done|lia|].
  rewrite Nat.add_0_l. f_equal.
  transitivity (List.filter (λ r, Bitset.get r b && in_rows start end_ r) (seq (first * 64) (length b' * 64))).
  - apply Bitset.filter_ext_seq. intros r Hr. f_equal. rewrite Bitset.get_word by done. f_equal.
    assert (r / 64 < first + length b')%nat by (apply Nat.Div0.div_lt_upper_bound; lia).
    assert (first ≤ r / 64)%nat by (apply Nat.div_le_lower_bound; lia).
    unfold Bitset.word, b'. rewrite lookup_drop, lookup_take_lt by lia.
    by replace (first + (r / 64 - first))%nat with (r / 64)%nat by lia.
  - pose proof (Nat.Div0.mul_div_le start 64).
    apply filter_range; [lia|]. intros r Hr. apply not_true_iff_false. intros Hg.
    apply Bitset.get_bound in Hg; [|done]. pose proof (Nat.div_mod_eq (end_ - 1) 64). pose proof (Bitset.row_mod (end_ - 1)).
    unfold last_ in *. lia.
Qed.

(** ** Bit packing: properties

    The claims about grafeo-core/src/codec/bitpack.rs, from the facts of
    BitPackFacts.v. *)
Open Scope Z_scope.

(** ** A given width *)

Lemma first_unfit_None bits position values :
  BitPackedInts.first_unfit bits position values = None ↔ Forall (λ v, BitPackedInts.fits bits v = true) values.
Proof.
  revert position. induction values as [|v values IH]; intros position; simpl; [done|].
  rewrite Forall_cons, <- (IH (S position)). destruct (BitPackedInts.fits bits v); simpl; intuition congruence.
Qed.

Lemma first_unfit_Some bits position values i v :
  BitPackedInts.first_unfit bits position values = Some (i, v) →
  ∃ k, i = (position + k)%nat ∧ values !! k = Some v ∧ BitPackedInts.fits bits v = false ∧
       ∀ j w, (j < k)%nat → values !! j = Some w → BitPackedInts.fits bits w = true.
Proof.
  revert position. induction values as [|x values IH]; intros position; simpl; [done|].
  destruct (BitPackedInts.fits bits x) eqn:Hx; simpl.
  - intros (k & -> & Hk & Hv & Hbefore)%IH. exists (S k). split; [lia|]. split; [done|]. split; [done|].
    intros [|j] w Hj Hw; simpl in Hw; [by simplify_eq|]. apply (Hbefore j); [lia|done].
  - intros [= <- <-]. exists 0%nat. split; [lia|]. split; [done|]. split; [done|]. lia.
Qed.

Lemma fits_bound bits v : is_u64 v → BitPackedInts.fits bits v = true ↔ v < 2 ^ Z.of_nat bits.
Proof.
  intros [H0 H1]. unfold BitPackedInts.fits. destruct (Nat.eqb_spec bits 0) as [->|Hne].
  { rewrite Z.eqb_eq. simpl. lia. }
  destruct (Nat.leb_spec 64 bits) as [Hb|Hb].
  - assert (2 ^ 64 ≤ 2 ^ Z.of_nat bits) by (apply Z.pow_le_mono_r; lia). split; [lia|done].
  - rewrite Z.eqb_eq, Z.shiftr_div_pow2 by lia. rewrite Z.div_small_iff by lia. lia.
Qed.

Lemma packed_Some values bits p :
  BitPackedInts.packed values bits = Some p →
  bits_per_value p = bits ∧ count p = length values ∧ (values = [] ∨ bits ≤ 64)%nat.
Proof.
  unfold BitPackedInts.packed. destruct values as [|v values]; [intros [= <-]; auto|].
  destruct (Nat.eqb_spec bits 0) as [->|Hne]; [intros [= <-]; split_and!; auto with lia|].
  destruct (Nat.eqb_spec (64 / bits) 0) as [|Hv]; [done|]. intros [= <-]. split_and!; [done..|]. right.
  destruct (decide (bits ≤ 64)%nat); [done|]. rewrite Nat.div_small in Hv by lia. done.
Qed.

Lemma reads_nil p : count p = 0%nat → reads_as p [].
Proof.
  intros Hc. split; [by unfold BitPackedInts.unpack; rewrite Hc|..].
  - intros i. unfold BitPackedInts.get. by rewrite Hc.
  - intros t _. unfold BitPackedInts.scan_eq. by rewrite Hc.
Qed.

(** ** Any bytes *)

(** The values a packing decodes to, when every word is there. *)
Lemma full_words_read p :
  (bits_per_value p ≤ 64)%nat →
  (∀ i, (i < count p)%nat → bits_per_value p ≠ 0%nat → is_Some (WordStore.word_at (i / (64 / bits_per_value p)) (data p))) →
  (∀ i w, WordStore.word_at i (data p) = Some w → 0 ≤ w) →
  ∃ values, BitPackedInts.unpack p = Some values ∧ length values = count p ∧ Forall is_u64 values ∧
            ∀ i, BitPackedInts.get i p = Some (values !! i).
Proof.
  intros Hb Hw Hpos. unfold BitPackedInts.unpack, BitPackedInts.get. destruct (Nat.eqb_spec (count p) 0) as [->|Hc].
  { exists []. by split_and!. }
  destruct (Nat.eqb_spec (bits_per_value p) 0) as [Hz|Hnz].
  { eexists. split; [reflexivity|]. rewrite length_replicate. split; [done|]. split; [apply Forall_replicate, is_u64_0|].
    intros i. destruct (Nat.leb_spec (count p) i); [by rewrite lookup_ge_None_2 by (rewrite length_replicate; lia)|].
    by rewrite lookup_replicate_2. }
  pose proof (vpw_pos (bits_per_value p) ltac:(lia)). rewrite (proj2 (Nat.eqb_neq (64 / bits_per_value p) 0)) by lia.
  eexists. split; [reflexivity|]. rewrite length_map, length_seq. split; [done|]. split.
  - apply Forall_map, Forall_forall. intros i Hi%elem_of_seq. destruct (Hw i) as [w Hi']; [lia|done|].
    cbv beta zeta. rewrite Hi'. apply land_u64_r; [apply mask_u64|]. apply Z.shiftr_nonneg. by eapply Hpos.
  - intros i. destruct (Nat.leb_spec (count p) i) as [Hi|Hi].
    + by rewrite lookup_ge_None_2 by (rewrite length_map, length_seq; lia).
    + rewrite list_lookup_fmap, lookup_seq_lt by done. simpl. by destruct (Hw i Hi Hnz) as [w ->].
Qed.

Lemma mapped_word_Some b i :
  (i * 8 + 8 ≤ length b)%nat → Z.of_nat (length b) ≤ u64_max → is_Some (WordStore.word_at i (Mapped b)).
Proof.
  intros Hi Hlen. simpl. unfold checked_mul64, checked_add64, slice.
  rewrite (proj2 (Z.leb_le _ _)) by lia. simpl. rewrite (proj2 (Z.leb_le _ _)) by lia. simpl.
  rewrite (proj2 (Nat.leb_le _ _)) by lia. by eexists.
Qed.

Lemma mapped_word_nonneg b i w : Forall is_byte b → WordStore.word_at i (Mapped b) = Some w → 0 ≤ w.
Proof.
  intros Hb Hw. simpl in Hw. apply bind_Some in Hw as (start & _ & Hw). apply bind_Some in Hw as (? & _ & Hw).
  apply bind_Some in Hw as (chunk & Hc & [= <-]). unfold slice in Hc. case_match; [|done]. injection Hc as <-.
  apply from_le_bound. by apply Forall_take, Forall_drop.
Qed.

Lemma from_bytes_Ok bytes p :
  BitPackedInts.from_bytes bytes = Ok p →
  (bits_per_value p ≤ 64)%nat ∧ ∃ b n, data p = Mapped b ∧ b = take n (drop 5 bytes) ∧
  (bits_per_value p ≠ 0%nat → count p ≠ 0%nat → length b = words_for (bits_per_value p) (count p) * 8)%nat.
Proof.
  unfold BitPackedInts.from_bytes. destruct (Nat.ltb_spec (length bytes) 5) as [|Hlen]; [done|].
  destruct (Nat.ltb_spec 64 (Z.to_nat (hd 0 bytes))) as [|Hb]; [done|]. cbv zeta.
  set (n := Z.to_nat (from_le _)). set (bits := Z.to_nat (hd 0 bytes)) in *.
  set (k := if (bits =? 0)%nat || _ then _ else _). destruct (Nat.ltb_spec (length bytes) (5 + k * 8)); [done|].
  intros [= <-]. simpl. split; [done|]. do 2 eexists. split; [done|]. split; [done|]. intros Hnz Hn.
  rewrite length_take, length_drop. unfold k, words_for in *.
  rewrite (proj2 (Nat.eqb_neq bits 0)), (proj2 (Nat.eqb_neq n 0)) in * by done. simpl in *. lia.
Qed.

(** ** Sorted values *)

Lemma windows_sub_u64 values : Forall is_u64 values → Forall is_u64 (windows_sub values).
Proof.
  induction 1 as [|a values Ha Hvs IH]; [constructor|]. cbn [windows_sub]. destruct Hvs as [|b values Hb Hvs]; [constructor|].
  constructor; [|exact IH]. unfold saturating_sub, is_u64 in *. lia.
Qed.

Lemma windows_sub_length a values : length (windows_sub (a :: values)) = length values.
Proof.
  revert a. induction values as [|b values IH]; intros a; [done|]. cbn [windows_sub length]. f_equal. apply IH.
Qed.

Lemma running_sum_windows a values :
  Forall is_u64 (a :: values) → StronglySorted Z.le (a :: values) → running_sum a (windows_sub (a :: values)) = values.
Proof.
  revert a. induction values as [|b values IH]; intros a Hu Hs; [done|].
  cbn [windows_sub running_sum]. inversion_clear Hs as [|? ? Hs' Hle]. inversion_clear Hu as [|? ? Ha Hu'].
  apply Forall_cons in Hle as [Hab _]. pose proof (Forall_inv Hu') as Hb.
  replace (wrap64 (a + saturating_sub b a)) with b; [by rewrite IH|].
  symmetry. unfold saturating_sub. rewrite Z.max_r by lia. replace (a + (b - a)) with b by lia. by apply wrap64_small.
Qed.

Lemma delta_encode_decode values :
  Forall is_u64 values → StronglySorted Z.le values →
  ∃ e, DeltaBitPacked.encode values = Some e ∧ base e = hd 0 values ∧
       DeltaBitPacked.decode e = Some (if bool_decide (values = [0]) then [] else values) ∧
       DeltaBitPacked.len e = (if bool_decide (values = [0]) then 0%nat else length values).
Proof.
  intros Hvs Hs. destruct (pack_holds (windows_sub values) (windows_sub_u64 values Hvs)) as (p & Hp & Hh & _).
  pose proof (holds_unpack p _ Hh) as Hun. destruct Hh as [Hc _].
  destruct values as [|a values]; [by eexists|]. exists (mkDelta a p).
  split; [unfold DeltaBitPacked.encode; by rewrite Hp|]. split; [done|].
  unfold DeltaBitPacked.decode, DeltaBitPacked.len, DeltaBitPacked.is_empty.
  rewrite windows_sub_length in Hc. cbn [base deltas]. rewrite Hc, Hun.
  destruct values as [|b values]; cbn [length Nat.eqb andb].
  - destruct (Z.eqb_spec a 0) as [->|Hne]; [done|]. rewrite bool_decide_eq_false_2 by congruence. done.
  - rewrite bool_decide_eq_false_2 by done. split; [|done]. cbn [mbind option_bind]. by rewrite running_sum_windows.
Qed.

(** ** The claims *)

(** Bit packing is lossless. Packing any [u64]s never panics, and
    unpacking, reading one index and scanning for a value answer as the list
    of values does, indexes past the end included. *)
Theorem pack_reads_back values :
  Forall is_u64 values → ∃ p, BitPackedInts.pack values = Some p ∧ reads_as p values.
Proof.
  intros Hvs. destruct (pack_holds values Hvs) as (p & Hp & Hh & _). exists p. split; [done|]. by apply holds_reads.
Qed.

(** The byte format round trips. A packing of at most [u32::MAX] values
    serializes, its bytes are accepted, and what is read from them (in its
    memory-mapped form) answers as the list of values. *)
Theorem packed_bytes_read_back values :
  Forall is_u64 values → Z.of_nat (length values) ≤ u32_max →
  ∃ p bytes q, BitPackedInts.pack values = Some p ∧ BitPackedInts.to_bytes p = Ok bytes ∧
    BitPackedInts.from_bytes bytes = Ok q ∧ reads_as q values.
Proof.
  intros Hvs Hlen. destruct (pack_bytes values Hvs Hlen) as (p & bytes & q & ? & ? & ? & _ & Hq).
  exists p, bytes, q. do 3 (split; [done|]). by apply holds_reads.
Qed.

(** Packing at a given width. It succeeds with that width and reads back
    as the values, or it fails naming the first value of at least 2^width and
    its position, or it panics, and it panics only for a width past 64 and at
    least one value, where it never succeeds. *)
Theorem pack_with_bits_outcome values bits :
  Forall is_u64 values →
  match BitPackedInts.pack_with_bits values bits with
  | Some (Ok p) => reads_as p values ∧ bits_per_value p = bits ∧ (values = [] ∨ (bits ≤ 64)%nat)
  | Some (Err e) =>
      ∃ i v, e = DoesNotFit i v ∧ values !! i = Some v ∧ 2 ^ Z.of_nat bits ≤ v ∧
             ∀ j w, (j < i)%nat → values !! j = Some w → w < 2 ^ Z.of_nat bits
  | None => (64 < bits)%nat ∧ values ≠ []
  end.
Proof.
  intros Hvs. unfold BitPackedInts.pack_with_bits. destruct (BitPackedInts.first_unfit bits 0 values) as [[i v]|] eqn:Hf.
  - apply first_unfit_Some in Hf as (k & -> & Hk & Hv & Hbefore). exists k, v. split; [done|]. split; [done|]. split.
    + pose proof (fits_bound bits v (Forall_lookup_1 _ _ _ _ Hvs Hk)) as Hiff. rewrite Hv in Hiff.
      apply Z.nlt_ge. intros Hlt. by apply Hiff in Hlt.
    + intros j w Hj Hw. apply fits_bound; [exact (Forall_lookup_1 _ _ _ _ Hvs Hw)|]. by apply (Hbefore j).
  - apply first_unfit_None in Hf. destruct (BitPackedInts.packed values bits) as [p|] eqn:Hp; simpl.
    + pose proof (packed_Some values bits p Hp) as (Hb & Hc & Hor).
      split; [|done]. destruct Hor as [->|Hle]; [by apply reads_nil|].
      destruct (packed_holds bits values Hle) as (p' & Hp' & Hh & _).
      { rewrite Forall_forall in Hvs, Hf |- *. intros v Hv. apply fits_within; auto. }
      rewrite Hp in Hp'. injection Hp' as <-. by apply holds_reads.
    + unfold BitPackedInts.packed in Hp. destruct values as [|v values]; [done|]. split; [|done].
      destruct (Nat.eqb_spec bits 0); [done|]. destruct (Nat.eqb_spec (64 / bits) 0) as [Hz|]; [|done].
      apply Nat.div_small_iff in Hz; [done|done].
Qed.

(** Accepted bytes are readable. Whatever bytes [from_bytes] accepts,
    unpacking and reading an index never panic, every index below the count
    has a value, and the two agree. *)
Theorem accepted_bytes_are_readable bytes p :
  Z.of_nat (length bytes) ≤ u64_max → Forall is_byte bytes → BitPackedInts.from_bytes bytes = Ok p →
  ∃ values, BitPackedInts.unpack p = Some values ∧ length values = count p ∧ Forall is_u64 values ∧
            ∀ i, BitPackedInts.get i p = Some (values !! i).
Proof.
  intros Hlen Hbytes (Hb & b & n & Hd & Hbn & Hw)%from_bytes_Ok.
  apply full_words_read; [done|..].
  - intros i Hi Hnz. rewrite Hd. apply mapped_word_Some.
    + rewrite Hw by lia. pose proof (words_for_spec (bits_per_value p) ltac:(lia) (count p) i Hi). lia.
    + rewrite Hbn, length_take, length_drop. lia.
  - intros i w. rewrite Hd. apply mapped_word_nonneg. subst b. by apply Forall_take, Forall_drop.
Qed.

(** Delta and bit packing of sorted values is lossless, except for the
    single value 0: its encoding decodes to no value at all, and so has length
    0. *)
Theorem delta_reads_back values :
  Forall is_u64 values → StronglySorted Z.le values →
  ∃ e, DeltaBitPacked.encode values = Some e ∧
       DeltaBitPacked.decode e = Some (if bool_decide (values = [0]) then [] else values) ∧
       DeltaBitPacked.len e = (if bool_decide (values = [0]) then 0%nat else length values).
Proof. intros Hvs Hs. destruct (delta_encode_decode values Hvs Hs) as (e & ? & _ & ? & ?). by exists e. Qed.
