(* ===== verification/Adjacency.v ===== *)
(** * Chunked adjacency

    grafeo-core/src/index/adjacency.rs: the edges of a node in hot chunks
    (plain), cold chunks (compressed, with a skip index over them) and a delta
    buffer, with the deleted edges in a set. Node and edge ids are [Z]s of
    [u64]; counters are [Z]s that wrap as their atomics do. An operation that
    can panic (an index or a slice out of range, a width past 64 in the
    packing) returns [None] there.

    [sort_by_key] is stable and [sort_unstable_by_key] leaves equal keys in
    any order; both are modelled by the insertion sort below, and what is
    proved of the second does not depend on the order of equal keys. *)
From S2P Require Import Prelude Bits Bitset BitPack BitPackProps.
Open Scope Z_scope.

Definition DEFAULT_CHUNK_CAPACITY : nat := 64.
Definition DELTA_COMPACTION_THRESHOLD : nat := 64.
Definition COLD_COMPRESSION_THRESHOLD : nat := 4.

Abbreviation entry := (Z * Z)%type.

Fixpoint insert_by_key {A} (key : A → Z) (x : A) (l : list A) : list A :=
  match l with
  | [] => [x]
  | y :: l' => if key x <=? key y then x :: l else y :: insert_by_key key x l'
  end.
Definition sort_by_key {A} (key : A → Z) (l : list A) : list A := foldr (insert_by_key key) [] l.

Record AdjacencyChunk := mkChunk { destinations : list Z; edge_ids : list Z; capacity : nat }.

Record CompressedAdjacencyChunk := mkCold {
  cold_destinations : DeltaBitPacked;
  cold_edge_ids : BitPackedInts;
  cold_count : nat;
  max_destination : Z
}.

Module AdjacencyChunk.

Definition new (capacity : nat) : AdjacencyChunk := mkChunk [] [] capacity.
Definition len (c : AdjacencyChunk) : nat := length (destinations c).
Definition is_full (c : AdjacencyChunk) : bool := (capacity c <=? length (destinations c))%nat.

(** [None] is the [false] of a full chunk, which is left as it is. *)
Definition push (dst edge_id : Z) (c : AdjacencyChunk) : option AdjacencyChunk :=
  if is_full c then None
  else Some (mkChunk (destinations c ++ [dst]) (edge_ids c ++ [edge_id]) (capacity c)).

Definition iter (c : AdjacencyChunk) : list entry := zip (destinations c) (edge_ids c).

Definition compress (c : AdjacencyChunk) : option CompressedAdjacencyChunk :=
  let entries := sort_by_key fst (zip (destinations c) (edge_ids c)) in
  let sorted_dsts := map fst entries in
  let sorted_edges := map snd entries in
  let max_destination := match last sorted_dsts with Some d => d | None => 0 end in
  dsts ← DeltaBitPacked.encode sorted_dsts;
  edges ← BitPackedInts.pack sorted_edges;
  Some (mkCold dsts edges (length entries) max_destination).

End AdjacencyChunk.

(** [&l[start..end]]: [None] is the panic of a range out of order or of bounds. *)
Definition slice_range {A} (start end_ : nat) (l : list A) : option (list A) :=
  if (start <=? end_)%nat && (end_ <=? length l)%nat then Some (take (end_ - start) (drop start l)) else None.

Module CompressedAdjacencyChunk.

Definition iter (c : CompressedAdjacencyChunk) : option (list entry) :=
  dsts ← DeltaBitPacked.decode (cold_destinations c);
  edges ← BitPackedInts.unpack (cold_edge_ids c);
  Some (zip dsts edges).

Definition min_destination (c : CompressedAdjacencyChunk) : Z := base (cold_destinations c).

Definition destinations_in_range (min max : Z) (c : CompressedAdjacencyChunk) : option (list entry) :=
  if (max_destination c <? min) || (max <? base (cold_destinations c)) then Some []
  else
    dsts ← DeltaBitPacked.decode (cold_destinations c);
    edges ← BitPackedInts.unpack (cold_edge_ids c);
    let start := partition_point (λ d, d <? min) dsts in
    let end_ := partition_point (λ d, d <=? max) dsts in
    ds ← slice_range start end_ dsts;
    es ← slice_range start end_ edges;
    Some (zip ds es).

End CompressedAdjacencyChunk.

Record SkipIndexEntry := mkSkip { skip_min : Z; skip_max : Z; chunk_index : nat }.

Record AdjacencyList := mkList {
  hot_chunks : list AdjacencyChunk;
  cold_chunks : list CompressedAdjacencyChunk;
  delta_inserts : list entry;
  deleted : gset Z;
  skip_index : list SkipIndexEntry
}.

Module AdjacencyList.

Definition new : AdjacencyList := mkList [] [] [] ∅ [].

(** The compression of a chunk that has entries, with its skip entry; the
    skip index is not yet sorted. *)
Definition to_cold (c : AdjacencyChunk) (l : AdjacencyList) : option AdjacencyList :=
  if (AdjacencyChunk.len c =? 0)%nat then Some l
  else
    compressed ← AdjacencyChunk.compress c;
    let skip := mkSkip (CompressedAdjacencyChunk.min_destination compressed) (max_destination compressed)
                       (length (cold_chunks l)) in
    Some (mkList (hot_chunks l) (cold_chunks l ++ [compressed]) (delta_inserts l) (deleted l) (skip_index l ++ [skip])).

Definition sort_skip_index (l : AdjacencyList) : AdjacencyList :=
  mkList (hot_chunks l) (cold_chunks l) (delta_inserts l) (deleted l) (sort_by_key skip_min (skip_index l)).

(** The loop of [maybe_compress_to_cold], on the hot chunks still there. *)
Fixpoint compress_loop (hot : list AdjacencyChunk) (l : AdjacencyList) : option AdjacencyList :=
  match hot with
  | [] => Some (mkList [] (cold_chunks l) (delta_inserts l) (deleted l) (skip_index l))
  | oldest :: hot' =>
      if (length hot <=? COLD_COMPRESSION_THRESHOLD)%nat
      then Some (mkList hot (cold_chunks l) (delta_inserts l) (deleted l) (skip_index l))
      else l' ← to_cold oldest l; compress_loop hot' l'
  end.

Definition maybe_compress_to_cold (l : AdjacencyList) : option AdjacencyList :=
  sort_skip_index <$> compress_loop (hot_chunks l) l.

(** The loop of [compact]: the chunks pushed and the current one. *)
Fixpoint fill_chunks (chunk_capacity : nat) (hot : list AdjacencyChunk) (current : AdjacencyChunk) (entries : list entry)
    : list AdjacencyChunk * AdjacencyChunk :=
  match entries with
  | [] => (hot, current)
  | (dst, edge_id) :: entries' =>
      match AdjacencyChunk.push dst edge_id current with
      | Some current' => fill_chunks chunk_capacity hot current' entries'
      | None =>
          let fresh := AdjacencyChunk.new chunk_capacity in
          let current' := match AdjacencyChunk.push dst edge_id fresh with Some c => c | None => fresh end in
          fill_chunks chunk_capacity (hot ++ [current]) current' entries'
      end
  end.

Definition compact (chunk_capacity : nat) (l : AdjacencyList) : option AdjacencyList :=
  match delta_inserts l with
  | [] => Some l
  | _ =>
      let '(hot, current) :=
        match last (hot_chunks l) with
        | Some c => if AdjacencyChunk.is_full c then (hot_chunks l, AdjacencyChunk.new chunk_capacity)
                    else (removelast (hot_chunks l), c)
        | None => (hot_chunks l, AdjacencyChunk.new chunk_capacity)
        end in
      let '(hot', current') := fill_chunks chunk_capacity hot current (delta_inserts l) in
      let hot'' := if (0 <? AdjacencyChunk.len current')%nat then hot' ++ [current'] else hot' in
      maybe_compress_to_cold (mkList hot'' (cold_chunks l) [] (deleted l) (skip_index l))
  end.

Definition add_edge (dst edge_id : Z) (chunk_capacity : nat) (l : AdjacencyList) : option AdjacencyList :=
  match last (hot_chunks l) ≫= AdjacencyChunk.push dst edge_id with
  | Some c => Some (mkList (removelast (hot_chunks l) ++ [c]) (cold_chunks l) (delta_inserts l) (deleted l) (skip_index l))
  | None =>
      let l' := mkList (hot_chunks l) (cold_chunks l) (delta_inserts l ++ [(dst, edge_id)]) (deleted l) (skip_index l) in
      if (DELTA_COMPACTION_THRESHOLD <=? length (delta_inserts l'))%nat then compact chunk_capacity l' else Some l'
  end.

Definition mark_deleted (edge_id : Z) (l : AdjacencyList) : AdjacencyList :=
  mkList (hot_chunks l) (cold_chunks l) (delta_inserts l) ({[edge_id]} ∪ deleted l) (skip_index l).

Definition unmark_deleted (edge_id : Z) (l : AdjacencyList) : AdjacencyList :=
  mkList (hot_chunks l) (cold_chunks l) (delta_inserts l) (deleted l ∖ {[edge_id]}) (skip_index l).

Fixpoint freeze_loop (hot : list AdjacencyChunk) (l : AdjacencyList) : option AdjacencyList :=
  match hot with
  | [] => Some l
  | c :: hot' => l' ← to_cold c l; freeze_loop hot' l'
  end.

Definition freeze_all (l : AdjacencyList) : option AdjacencyList :=
  sort_skip_index <$> freeze_loop (hot_chunks l) (mkList [] (cold_chunks l) (delta_inserts l) (deleted l) (skip_index l)).

Definition live (l : AdjacencyList) (e : entry) : bool := negb (bool_decide (e.2 ∈ deleted l)).

Definition iter (l : AdjacencyList) : option (list entry) :=
  cold ← mapM CompressedAdjacencyChunk.iter (cold_chunks l);
  Some (List.filter (live l) (concat cold ++ flat_map AdjacencyChunk.iter (hot_chunks l) ++ delta_inserts l)).

(** From the position found back to the first of the equal destinations. *)
Fixpoint walk_back (dst : Z) (dsts : list Z) (i : nat) : nat :=
  match i with
  | O => O
  | S i' => if bool_decide (dsts !! i' = Some dst) then walk_back dst dsts i' else i
  end.

(** The loop over the equal destinations, at the positions [js]. *)
Fixpoint any_live (l : AdjacencyList) (dst : Z) (dsts edges : list Z) (js : list nat) : option bool :=
  match js with
  | [] => Some false
  | j :: js' =>
      if negb (bool_decide (dsts !! j = Some dst)) then Some false
      else e ← edges !! j;
           if negb (bool_decide (e ∈ deleted l)) then Some true else any_live l dst dsts edges js'
  end.

Fixpoint contains_cold (dst : Z) (l : AdjacencyList) (skips : list SkipIndexEntry) : option bool :=
  match skips with
  | [] => Some false
  | s :: skips' =>
      if (dst <? skip_min s) || (skip_max s <? dst) then contains_cold dst l skips'
      else
        chunk ← cold_chunks l !! chunk_index s;
        dsts ← DeltaBitPacked.decode (cold_destinations chunk);
        edges ← BitPackedInts.unpack (cold_edge_ids chunk);
        match binary_search_by_key id dst dsts with
        | Found pos =>
            let i := walk_back dst dsts pos in
            found ← any_live l dst dsts edges (seq i (length dsts - i));
            if (found : bool) then Some true else contains_cold dst l skips'
        | InsertAt _ => contains_cold dst l skips'
        end
  end.

Definition contains (dst : Z) (l : AdjacencyList) : option bool :=
  cold ← contains_cold dst l (skip_index l);
  Some ((cold : bool)
        || existsb (λ e, (e.1 =? dst) && live l e) (flat_map AdjacencyChunk.iter (hot_chunks l))
        || existsb (λ e, (e.1 =? dst) && live l e) (delta_inserts l)).

Fixpoint range_cold (min max : Z) (l : AdjacencyList) (skips : list SkipIndexEntry) : option (list entry) :=
  match skips with
  | [] => Some []
  | s :: skips' =>
      if (skip_max s <? min) || (max <? skip_min s) then range_cold min max l skips'
      else
        chunk ← cold_chunks l !! chunk_index s;
        es ← CompressedAdjacencyChunk.destinations_in_range min max chunk;
        rest ← range_cold min max l skips';
        Some (List.filter (live l) es ++ rest)
  end.

Definition in_range (min max : Z) (e : entry) : bool := (min <=? e.1) && (e.1 <=? max).

Definition destinations_in_range (min max : Z) (l : AdjacencyList) : option (list entry) :=
  cold ← range_cold min max l (skip_index l);
  let near e := in_range min max e && live l e in
  Some (cold ++ List.filter near (flat_map AdjacencyChunk.iter (hot_chunks l)) ++ List.filter near (delta_inserts l)).

Definition neighbors (l : AdjacencyList) : option (list Z) := map fst <$> iter l.
Definition degree (l : AdjacencyList) : option nat := length <$> iter l.

Definition hot_count (l : AdjacencyList) : nat :=
  (foldr (λ c n, AdjacencyChunk.len c + n) 0 (hot_chunks l) + length (delta_inserts l))%nat.
Definition cold_entries_count (l : AdjacencyList) : nat := foldr (λ c n, cold_count c + n)%nat 0%nat (cold_chunks l).

End AdjacencyList.

Record ChunkedAdjacency := mkAdj {
  lists : gmap Z AdjacencyList;
  chunk_capacity : nat;
  edge_count : Z;
  deleted_count : Z
}.

Module ChunkedAdjacency.

Definition with_chunk_capacity (capacity : nat) : ChunkedAdjacency := mkAdj ∅ capacity 0 0.
Definition new : ChunkedAdjacency := with_chunk_capacity DEFAULT_CHUNK_CAPACITY.

(** The list of [src], or a new one. *)
Definition list_or_new (src : Z) (a : gmap Z AdjacencyList) : AdjacencyList :=
  match a !! src with Some l => l | None => AdjacencyList.new end.

Definition insert_edge (cap : nat) (src dst edge_id : Z) (ls : gmap Z AdjacencyList) : option (gmap Z AdjacencyList) :=
  l ← AdjacencyList.add_edge dst edge_id cap (list_or_new src ls); Some (<[src := l]> ls).

Definition add_edge (src dst edge_id : Z) (a : ChunkedAdjacency) : option ChunkedAdjacency :=
  ls ← insert_edge (chunk_capacity a) src dst edge_id (lists a);
  Some (mkAdj ls (chunk_capacity a) (wrap64 (edge_count a + 1)) (deleted_count a)).

Fixpoint insert_edges (cap : nat) (edges : list (Z * Z * Z)) (ls : gmap Z AdjacencyList) : option (gmap Z AdjacencyList) :=
  match edges with
  | [] => Some ls
  | (src, dst, edge_id) :: edges' => ls' ← insert_edge cap src dst edge_id ls; insert_edges cap edges' ls'
  end.

Definition batch_add_edges (edges : list (Z * Z * Z)) (a : ChunkedAdjacency) : option ChunkedAdjacency :=
  match edges with
  | [] => Some a
  | _ =>
      ls ← insert_edges (chunk_capacity a) edges (lists a);
      Some (mkAdj ls (chunk_capacity a) (wrap64 (edge_count a + Z.of_nat (length edges))) (deleted_count a))
  end.

Definition mark_deleted (src edge_id : Z) (a : ChunkedAdjacency) : ChunkedAdjacency :=
  match lists a !! src with
  | Some l => mkAdj (<[src := AdjacencyList.mark_deleted edge_id l]> (lists a)) (chunk_capacity a)
                    (edge_count a) (wrap64 (deleted_count a + 1))
  | None => a
  end.

(** The loop of [batch_mark_deleted]: the lists and the edges counted. *)
Fixpoint mark_edges (edges : list (Z * Z)) (ls : gmap Z AdjacencyList) (count : Z) : gmap Z AdjacencyList * Z :=
  match edges with
  | [] => (ls, count)
  | (src, edge_id) :: edges' =>
      match ls !! src with
      | Some l => mark_edges edges' (<[src := AdjacencyList.mark_deleted edge_id l]> ls) (count + 1)
      | None => mark_edges edges' ls count
      end
  end.

Definition batch_mark_deleted (edges : list (Z * Z)) (a : ChunkedAdjacency) : ChunkedAdjacency :=
  let '(ls, count) := mark_edges edges (lists a) 0 in
  mkAdj ls (chunk_capacity a) (edge_count a)
        (if 0 <? count then wrap64 (deleted_count a + count) else deleted_count a).

Definition unmark_deleted (src edge_id : Z) (a : ChunkedAdjacency) : ChunkedAdjacency :=
  match lists a !! src with
  | Some l =>
      if bool_decide (edge_id ∈ deleted l) then
        mkAdj (<[src := AdjacencyList.unmark_deleted edge_id l]> (lists a)) (chunk_capacity a)
              (edge_count a) (wrap64 (deleted_count a - 1))
      else a
  | None => a
  end.

(** [for list in lists.values_mut() { f(list) }] of a fallible [f]. *)
Definition for_all_lists (f : AdjacencyList → option AdjacencyList) (a : ChunkedAdjacency) : option ChunkedAdjacency :=
  ls ← map_fold (λ src l acc, acc' ← acc; l' ← f l; Some (<[src := l']> (acc' : gmap Z AdjacencyList))) (Some ∅) (lists a);
  Some (mkAdj ls (chunk_capacity a) (edge_count a) (deleted_count a)).

Definition compact (a : ChunkedAdjacency) : option ChunkedAdjacency :=
  for_all_lists (AdjacencyList.compact (chunk_capacity a)) a.

Definition compact_if_needed (a : ChunkedAdjacency) : option ChunkedAdjacency :=
  for_all_lists (λ l, if (DELTA_COMPACTION_THRESHOLD <=? length (delta_inserts l))%nat
                      then AdjacencyList.compact (chunk_capacity a) l else Some l) a.

Definition freeze_all (a : ChunkedAdjacency) : option ChunkedAdjacency := for_all_lists AdjacencyList.freeze_all a.

Definition clear (a : ChunkedAdjacency) : ChunkedAdjacency := mkAdj ∅ (chunk_capacity a) 0 0.

Definition edges_from (src : Z) (a : ChunkedAdjacency) : option (list entry) :=
  match lists a !! src with Some l => AdjacencyList.iter l | None => Some [] end.

Definition neighbors (src : Z) (a : ChunkedAdjacency) : option (list Z) :=
  match lists a !! src with Some l => AdjacencyList.neighbors l | None => Some [] end.

Definition out_degree (src : Z) (a : ChunkedAdjacency) : option nat :=
  match lists a !! src with Some l => AdjacencyList.degree l | None => Some 0%nat end.

Definition contains_edge (src dst : Z) (a : ChunkedAdjacency) : option bool :=
  match lists a !! src with Some l => AdjacencyList.contains dst l | None => Some false end.

Definition edges_in_range (src min_dst max_dst : Z) (a : ChunkedAdjacency) : option (list entry) :=
  match lists a !! src with Some l => AdjacencyList.destinations_in_range min_dst max_dst l | None => Some [] end.

Definition total_edge_count (a : ChunkedAdjacency) : Z := edge_count a.

(** [edge_count - deleted_count] of [usize]s: with overflow checks it panics
    below zero, without them it wraps. *)
Definition active_edge_count (debug : bool) (a : ChunkedAdjacency) : option Z :=
  if debug && (edge_count a <? deleted_count a) then None else Some (wrap64 (edge_count a - deleted_count a)).

Definition node_count (a : ChunkedAdjacency) : nat := size (lists a).

End ChunkedAdjacency.
