(* ===== verification/AdjacencyFacts.v ===== *)
(** * Chunked adjacency: the invariant and what keeps it

    A list of edges is in order when its hot chunks are filled in turn, its
    cold chunks decode to sorted entries and its skip index covers them. Every
    operation keeps the list in order and changes the bag of its edges as it
    should. *)
From S2P Require Import Prelude Bits Bitset BitPack BitPackProps Adjacency.
Open Scope Z_scope.

(** ** Sorting *)

Section sorting.
Context {A : Type} (key : A → Z).

Lemma insert_by_key_perm x (l : list A) : insert_by_key key x l ≡ₚ x :: l.
Proof.
  induction l as [|y l IH]; simpl; [done|]. destruct (_ <=? _); [done|]. rewrite IH. apply perm_swap.
Qed.

Lemma sort_by_key_perm (l : list A) : sort_by_key key l ≡ₚ l.
Proof. induction l as [|x l IH]; simpl; [done|]. rewrite insert_by_key_perm. by f_equiv. Qed.

Lemma sort_by_key_sorted (l : list A) : StronglySorted Z.le (map key (sort_by_key key l)).
Proof.
  induction l as [|x l IH]; simpl; [constructor|]. revert IH. generalize (sort_by_key key l). clear l. intros l.
  induction l as [|y l IHl]; intros Hs; simpl; [repeat constructor|].
  inversion_clear Hs as [|? ? Hs' Hy]. destruct (Z.leb_spec (key x) (key y)); simpl.
  - constructor; [by constructor|]. constructor; [done|]. eapply Forall_impl; [exact Hy|]. simpl. lia.
  - constructor; [by apply IHl|]. change (map key (insert_by_key key x l)) with (key <$> insert_by_key key x l).
    rewrite insert_by_key_perm. simpl. constructor; [lia|done].
Qed.

End sorting.

(** ** Cold chunks *)

Definition entry_u64 (e : entry) : Prop := is_u64 e.1 ∧ is_u64 e.2.

(** A cold chunk that decodes to [es]. *)
Record cold_holds (c : CompressedAdjacencyChunk) (es : list entry) : Prop := {
  ch_sorted : StronglySorted Z.le (map fst es);
  ch_dsts : DeltaBitPacked.decode (cold_destinations c) = Some (map fst es);
  ch_edges : BitPackedInts.unpack (cold_edge_ids c) = Some (map snd es);
  ch_count : cold_count c = length es;
  ch_bounds : ∀ e, e ∈ es → base (cold_destinations c) ≤ e.1 ≤ max_destination c
}.

(** A hot chunk of capacity [cap]: as many destinations as edges, of [u64]s. *)
Record chunk_ok (cap : nat) (c : AdjacencyChunk) : Prop := {
  co_parallel : length (destinations c) = length (edge_ids c);
  co_capacity : capacity c = cap;
  co_len : (length (destinations c) ≤ cap)%nat;
  co_u64 : Forall entry_u64 (AdjacencyChunk.iter c)
}.

(** The chunks whose compression keeps their entries. *)
Definition compressible (c : AdjacencyChunk) : Prop := destinations c ≠ [0].

Lemma zip_split {A B} (l : list (A * B)) : zip (map fst l) (map snd l) = l.
Proof. induction l as [|[a b] l IH]; simpl; [done|]. by rewrite IH. Qed.

Lemma sorted_first_last es :
  StronglySorted Z.le es → ∀ d, d ∈ es → hd 0 es ≤ d ≤ match last es with Some m => m | None => 0 end.
Proof.
  intros Hs d Hd. split.
  - destruct Hs as [|x es Hs Hx]; [by apply not_elem_of_nil in Hd|]. simpl.
    apply elem_of_cons in Hd as [->|Hd]; [done|]. by eapply Forall_forall in Hx.
  - destruct (last es) as [m|] eqn:Hl; [|apply last_None in Hl as ->; by apply not_elem_of_nil in Hd].
    by destruct (StronglySorted_last _ _ _ _ Hs Hl Hd) as [->|?].
Qed.

Lemma compress_holds cap c :
  chunk_ok cap c → compressible c →
  ∃ c' es, AdjacencyChunk.compress c = Some c' ∧ cold_holds c' es ∧ es ≡ₚ AdjacencyChunk.iter c.
Proof.
  intros Hok Hc. unfold AdjacencyChunk.compress. change (zip (destinations c) (edge_ids c)) with (AdjacencyChunk.iter c).
  set (es := sort_by_key fst (AdjacencyChunk.iter c)).
  assert (es ≡ₚ AdjacencyChunk.iter c) as Hperm by apply sort_by_key_perm.
  assert (Forall entry_u64 es) as Hu by (rewrite Hperm; apply Hok).
  pose proof (sort_by_key_sorted fst (AdjacencyChunk.iter c)) as Hs. fold es in Hs.
  destruct (delta_encode_decode (map fst es)) as (e & -> & Hb & Hd & _).
  { apply Forall_map. eapply Forall_impl; [exact Hu|]. by intros ? []. }
  { done. }
  destruct (pack_holds (map snd es)) as (p & -> & Hh & _).
  { apply Forall_map. eapply Forall_impl; [exact Hu|]. by intros ? []. }
  cbn [mbind option_bind]. eexists _, es. split; [reflexivity|]. split; [|done].
  split; simpl; [done| |by apply holds_unpack|done|].
  - rewrite Hd, bool_decide_eq_false_2; [done|]. intros Hz. apply Hc.
    assert (map fst (AdjacencyChunk.iter c) ≡ₚ [0]) as Hp by (rewrite <- Hz; by apply Permutation_map).
    apply Permutation_sym, Permutation_length_1_inv in Hp. rewrite <- Hp. symmetry. 
    apply fst_zip. rewrite (co_parallel _ _ Hok). done.
  - intros x Hx. rewrite Hb. apply sorted_first_last; [done|]. by apply list_elem_of_In, in_map, list_elem_of_In.
Qed.

(** ** The list *)

(** The skip entry of the cold chunk at an index. *)
Definition skip_of (i : nat) (c : CompressedAdjacencyChunk) : SkipIndexEntry :=
  mkSkip (CompressedAdjacencyChunk.min_destination c) (max_destination c) i.

Definition cold_ok (l : AdjacencyList) (ess : list (list entry)) : Prop :=
  Forall2 cold_holds (cold_chunks l) ess ∧ skip_index l ≡ₚ imap skip_of (cold_chunks l).

(** The hot chunks are filled in turn: all but the last are full. *)
Definition hot_ok (cap : nat) (hot : list AdjacencyChunk) : Prop :=
  Forall (chunk_ok cap) hot ∧ ∀ c hot', suffix (c :: hot') hot → hot' ≠ [] → length (destinations c) = cap.

Definition hot_entries (hot : list AdjacencyChunk) : list entry := flat_map AdjacencyChunk.iter hot.

Definition list_ok (cap : nat) (l : AdjacencyList) (bag : list entry) : Prop :=
  hot_ok cap (hot_chunks l) ∧ Forall entry_u64 (delta_inserts l) ∧
  ∃ ess, cold_ok l ess ∧ concat ess ++ hot_entries (hot_chunks l) ++ delta_inserts l ≡ₚ bag.

(** What an operation leaves alone. *)
Definition same_rest (l l' : AdjacencyList) : Prop := delta_inserts l' = delta_inserts l ∧ deleted l' = deleted l.

Lemma hot_entries_app h h' : hot_entries (h ++ h') = hot_entries h ++ hot_entries h'.
Proof. apply flat_map_app. Qed.

Lemma chunk_iter_length cap c : chunk_ok cap c → length (AdjacencyChunk.iter c) = length (destinations c).
Proof. intros Hc. unfold AdjacencyChunk.iter. rewrite length_zip_with. pose proof (co_parallel _ _ Hc). lia. Qed.

Lemma empty_chunk_iter c : AdjacencyChunk.len c = 0%nat → AdjacencyChunk.iter c = [].
Proof. unfold AdjacencyChunk.len, AdjacencyChunk.iter. by intros ->%nil_length_inv. Qed.

Lemma to_cold_ok cap c l ess :
  chunk_ok cap c → compressible c → cold_ok l ess →
  ∃ l' ess', AdjacencyList.to_cold c l = Some l' ∧ cold_ok l' ess' ∧ hot_chunks l' = hot_chunks l ∧ same_rest l l' ∧
    concat ess' ≡ₚ concat ess ++ AdjacencyChunk.iter c.
Proof.
  intros Hok Hcomp [Hcold Hskip]. unfold AdjacencyList.to_cold.
  destruct (Nat.eqb_spec (AdjacencyChunk.len c) 0) as [Hz|Hz].
  { exists l, ess. rewrite (empty_chunk_iter c Hz), app_nil_r. by repeat split. }
  destruct (compress_holds cap c Hok Hcomp) as (c' & es & -> & Hh & Hp). cbn [mbind option_bind].
  eexists _, (ess ++ [es]). split; [reflexivity|]. split.
  - split; simpl; [by apply Forall2_app; [|constructor]|]. rewrite imap_app. simpl. rewrite Hskip, Nat.add_0_r. done.
  - split; [done|]. split; [done|]. rewrite concat_app. simpl. rewrite app_nil_r. by rewrite Hp.
Qed.

Lemma hot_ok_tail cap c hot : hot_ok cap (c :: hot) → chunk_ok cap c ∧ hot_ok cap hot.
Proof.
  intros [Hall Hfull]. inversion_clear Hall. split; [done|]. split; [done|].
  intros c' hot' Hs. apply Hfull. by apply suffix_cons_r.
Qed.

Lemma hot_ok_nil cap : hot_ok cap [].
Proof. split; [constructor|]. intros c hot' Hs. by apply suffix_nil_inv in Hs. Qed.

Lemma full_compressible cap c : (2 ≤ cap)%nat → length (destinations c) = cap → compressible c.
Proof. intros H2 Hlen Heq. rewrite Heq in Hlen. simpl in Hlen. lia. Qed.

Lemma compress_loop_ok cap hot l ess :
  (2 ≤ cap)%nat → hot_ok cap hot → cold_ok l ess →
  ∃ l' ess', AdjacencyList.compress_loop hot l = Some l' ∧ cold_ok l' ess' ∧ hot_ok cap (hot_chunks l') ∧ same_rest l l' ∧
    concat ess' ++ hot_entries (hot_chunks l') ≡ₚ concat ess ++ hot_entries hot.
Proof.
  intros H2. revert l ess. induction hot as [|c hot IH]; intros l ess Hhot Hcold.
  { eexists _, ess. split; [reflexivity|]. split; [exact Hcold|]. split; [apply hot_ok_nil|]. done. }
  cbn [AdjacencyList.compress_loop]. destruct (Nat.leb_spec (length (c :: hot)) COLD_COMPRESSION_THRESHOLD) as [|Hlen].
  { eexists _, ess. split; [reflexivity|]. split; [exact Hcold|]. split; [exact Hhot|]. done. }
  assert (length (destinations c) = cap) as Hfull.
  { destruct Hhot as [_ Hf]. apply (Hf c hot); [done|]. intros ->. unfold COLD_COMPRESSION_THRESHOLD in Hlen. simpl in Hlen. lia. }
  apply hot_ok_tail in Hhot as [Hc Hhot].
  destruct (to_cold_ok cap c l ess Hc (full_compressible cap c H2 Hfull) Hcold) as (l1 & ess1 & -> & Hcold1 & _ & [Hd1 Hx1] & Hp1).
  destruct (IH l1 ess1 Hhot Hcold1) as (l2 & ess2 & Hl2 & Hcold2 & Hhot2 & [Hd2 Hx2] & Hp2).
  exists l2, ess2. split; [done|]. split; [done|]. split; [done|]. split; [split; congruence|].
  rewrite Hp2, Hp1. simpl. by rewrite <- app_assoc.
Qed.

Lemma sort_skip_ok l ess : cold_ok l ess → cold_ok (AdjacencyList.sort_skip_index l) ess.
Proof. intros [Hc Hs]. split; [done|]. simpl. by rewrite sort_by_key_perm. Qed.

Lemma freeze_loop_ok cap hot l ess :
  Forall (chunk_ok cap) hot → Forall compressible hot → cold_ok l ess →
  ∃ l' ess', AdjacencyList.freeze_loop hot l = Some l' ∧ cold_ok l' ess' ∧ hot_chunks l' = hot_chunks l ∧ same_rest l l' ∧
    concat ess' ≡ₚ concat ess ++ hot_entries hot.
Proof.
  intros Hhot. revert l ess. induction Hhot as [|c hot Hc _ IH]; intros l ess Hcomp Hcold.
  { exists l, ess. rewrite app_nil_r. split; [done|]. split; [exact Hcold|]. done. }
  apply Forall_cons in Hcomp as [Hcc Hcomp]. cbn [AdjacencyList.freeze_loop].
  destruct (to_cold_ok cap c l ess Hc Hcc Hcold) as (l1 & ess1 & -> & Hcold1 & Hh1 & [Hd1 Hx1] & Hp1).
  destruct (IH l1 ess1 Hcomp Hcold1) as (l2 & ess2 & Hl2 & Hcold2 & Hh2 & [Hd2 Hx2] & Hp2).
  exists l2, ess2. split; [done|]. split; [done|]. split; [congruence|]. split; [split; congruence|].
  rewrite Hp2, Hp1. simpl. by rewrite <- app_assoc.
Qed.

Lemma freeze_all_ok cap l bag :
  list_ok cap l bag → Forall compressible (hot_chunks l) →
  ∃ l', AdjacencyList.freeze_all l = Some l' ∧ list_ok cap l' bag ∧ deleted l' = deleted l.
Proof.
  intros ([Hhot _] & Hd & ess & Hcold & Hp) Hcomp. unfold AdjacencyList.freeze_all.
  set (l0 := mkList [] (cold_chunks l) (delta_inserts l) (deleted l) (skip_index l)).
  destruct (freeze_loop_ok cap (hot_chunks l) l0 ess Hhot Hcomp Hcold) as (l' & ess' & -> & Hcold' & Hh & [Hd' Hx'] & Hp').
  eexists. split; [reflexivity|]. split; [|exact Hx']. split; [|split].
  - simpl. rewrite Hh. apply hot_ok_nil.
  - simpl. by rewrite Hd'.
  - exists ess'. split; [by apply sort_skip_ok|]. simpl. rewrite Hh, Hd', Hp'. simpl. by rewrite <- app_assoc.
Qed.

(** ** Filling chunks *)

Definition full (cap : nat) (c : AdjacencyChunk) : Prop := chunk_ok cap c ∧ length (destinations c) = cap.

Lemma hot_ok_snoc cap init c : hot_ok cap (init ++ [c]) ↔ Forall (full cap) init ∧ chunk_ok cap c.
Proof.
  split.
  - intros [Hall Hfull]. apply Forall_app in Hall as [Hinit Hc]. split; [|by inversion Hc].
    apply Forall_forall. intros x Hx. apply list_elem_of_split in Hx as (l1 & l2 & ->). split.
    + by rewrite Forall_app, Forall_cons in Hinit; destruct Hinit as (_ & ? & _).
    + apply (Hfull x (l2 ++ [c])); [exists l1; by rewrite <- app_assoc|by destruct l2].
  - intros [Hinit Hc]. split.
    + apply Forall_app. split; [|by constructor]. eapply Forall_impl; [exact Hinit|]. by intros ? [].
    + intros x hot' [l1 Heq] Hne. destruct (exists_last Hne) as (l2 & y & ->).
      rewrite app_comm_cons, app_assoc in Heq. apply app_inj_tail in Heq as [-> _].
      apply Forall_app in Hinit as [_ Hx]. inversion_clear Hx as [|? ? [_ Hx'] _]. exact Hx'.
Qed.

Lemma hot_ok_all_full cap hot : Forall (full cap) hot → hot_ok cap hot.
Proof.
  destruct hot as [|c hot] using rev_ind; [intros _; apply hot_ok_nil|]. intros [H1 H2]%Forall_app.
  apply hot_ok_snoc. split; [done|]. by inversion_clear H2 as [|? ? [? _] _].
Qed.

Lemma new_chunk_ok cap : chunk_ok cap (AdjacencyChunk.new cap).
Proof. split; simpl; (done || lia || constructor). Qed.

Lemma zip_snoc {A B} (l : list A) (k : list B) a b : length l = length k → zip (l ++ [a]) (k ++ [b]) = zip l k ++ [(a, b)].
Proof. intros Hl. by rewrite zip_with_app. Qed.

Lemma push_ok cap c dst eid :
  chunk_ok cap c → (length (destinations c) < cap)%nat → entry_u64 (dst, eid) →
  ∃ c', AdjacencyChunk.push dst eid c = Some c' ∧ chunk_ok cap c' ∧
        AdjacencyChunk.iter c' = AdjacencyChunk.iter c ++ [(dst, eid)] ∧ AdjacencyChunk.len c' = S (AdjacencyChunk.len c).
Proof.
  intros [Hp Hc Hl Hu] Hroom He. unfold AdjacencyChunk.push, AdjacencyChunk.is_full.
  rewrite Hc, (proj2 (Nat.leb_gt _ _)) by done. eexists. split; [reflexivity|].
  assert (zip (destinations c ++ [dst]) (edge_ids c ++ [eid]) = AdjacencyChunk.iter c ++ [(dst, eid)]) as Hz
    by by apply zip_snoc.
  split; [|split; [exact Hz|unfold AdjacencyChunk.len; simpl; rewrite length_app; simpl; lia]].
  split; simpl; rewrite ?length_app; simpl; [lia|done|lia|]. unfold AdjacencyChunk.iter. simpl. rewrite Hz.
  apply Forall_app. split; [exact Hu|by constructor].
Qed.

Lemma push_full cap c dst eid :
  chunk_ok cap c → AdjacencyChunk.push dst eid c = None ↔ length (destinations c) = cap.
Proof.
  intros [_ Hc Hl _]. unfold AdjacencyChunk.push, AdjacencyChunk.is_full. rewrite Hc.
  destruct (Nat.leb_spec cap (length (destinations c))); split; (done || lia).
Qed.

Lemma fill_chunks_ok cap hot cur es :
  (0 < cap)%nat → Forall (full cap) hot → chunk_ok cap cur → Forall entry_u64 es →
  let '(hot', cur') := AdjacencyList.fill_chunks cap hot cur es in
  Forall (full cap) hot' ∧ chunk_ok cap cur' ∧
  hot_entries hot' ++ AdjacencyChunk.iter cur' = hot_entries hot ++ AdjacencyChunk.iter cur ++ es.
Proof.
  intros Hcap Hhot Hcur Hes. revert hot cur Hhot Hcur. induction Hes as [|[d e] es He Hes IH]; intros hot cur Hhot Hcur.
  { simpl. by rewrite app_nil_r. }
  cbn [AdjacencyList.fill_chunks]. destruct (AdjacencyChunk.push d e cur) as [c'|] eqn:Hpush.
  - assert (length (destinations cur) < cap)%nat as Hroom.
    { destruct (decide (length (destinations cur) = cap)) as [Hf|]; [|pose proof (co_len _ _ Hcur); lia].
      apply (push_full cap cur d e Hcur) in Hf. congruence. }
    destruct (push_ok cap cur d e Hcur Hroom He) as (c1 & Hc1 & Hok & Hit & _). rewrite Hpush in Hc1. injection Hc1 as <-.
    specialize (IH hot c' Hhot Hok). destruct (AdjacencyList.fill_chunks _ _ _ _) as [h2 c2].
    destruct IH as (? & ? & ->). split; [done|]. split; [done|]. rewrite Hit. by rewrite <- !app_assoc.
  - apply (push_full cap) in Hpush; [|done]. pose proof (new_chunk_ok cap) as Hnew.
    destruct (push_ok cap (AdjacencyChunk.new cap) d e Hnew Hcap He) as (c1 & -> & Hok & Hit & _).
    specialize (IH (hot ++ [cur]) c1). destruct (AdjacencyList.fill_chunks _ _ _ _) as [h2 c2].
    destruct IH as (? & ? & ->); [by apply Forall_app; split; [|constructor]|done|]. split; [done|]. split; [done|].
    rewrite Hit, hot_entries_app. simpl. rewrite app_nil_r, <- !app_assoc. done.
Qed.

(** The chunk that [compact] goes on filling. *)
Lemma split_last_ok cap hot :
  hot_ok cap hot →
  let '(hot', cur) := match last hot with
    | Some c => if AdjacencyChunk.is_full c then (hot, AdjacencyChunk.new cap) else (removelast hot, c)
    | None => (hot, AdjacencyChunk.new cap)
    end in
  Forall (full cap) hot' ∧ chunk_ok cap cur ∧ hot_entries hot' ++ AdjacencyChunk.iter cur = hot_entries hot.
Proof.
  intros Hhot. pose proof (new_chunk_ok cap) as Hnew. destruct hot as [|c hot _] using rev_ind.
  { simpl. split; [constructor|]. by split. }
  apply hot_ok_snoc in Hhot as [Hinit Hc]. rewrite last_snoc. destruct (AdjacencyChunk.is_full c) eqn:Hf.
  - split; [|split; [done|by rewrite app_nil_r]]. apply Forall_app. split; [done|]. constructor; [|constructor]. split; [done|].
    unfold AdjacencyChunk.is_full in Hf. apply Nat.leb_le in Hf. rewrite (co_capacity _ _ Hc) in Hf.
    pose proof (co_len _ _ Hc). lia.
  - rewrite removelast_last. split; [done|]. split; [done|]. rewrite hot_entries_app. simpl. by rewrite app_nil_r.
Qed.

Lemma compact_ok cap l bag :
  (2 ≤ cap)%nat → list_ok cap l bag →
  ∃ l', AdjacencyList.compact cap l = Some l' ∧ list_ok cap l' bag ∧ deleted l' = deleted l.
Proof.
  intros H2 (Hhot & Hd & ess & Hcold & Hp). unfold AdjacencyList.compact.
  destruct (delta_inserts l) as [|e0 es0] eqn:Hdi.
  { exists l. split; [done|]. split; [|done]. split; [done|]. rewrite Hdi. split; [done|]. by exists ess. }
  pose proof (split_last_ok cap (hot_chunks l) Hhot) as Hsplit.
  destruct (match last (hot_chunks l) with Some _ => _ | None => _ end) as [hot cur].
  destruct Hsplit as (Hf & Hcur & Heq).
  pose proof (fill_chunks_ok cap hot cur (e0 :: es0) ltac:(lia) Hf Hcur Hd) as Hfill.
  destruct (AdjacencyList.fill_chunks cap hot cur (e0 :: es0)) as [hot' cur']. destruct Hfill as (Hf' & Hcur' & Heq').
  set (hot'' := if (0 <? AdjacencyChunk.len cur')%nat then hot' ++ [cur'] else hot').
  assert (hot_ok cap hot'' ∧ hot_entries hot'' = hot_entries hot' ++ AdjacencyChunk.iter cur') as [Hhot'' Hent].
  { unfold hot''. destruct (Nat.ltb_spec 0 (AdjacencyChunk.len cur')).
    - split; [by apply hot_ok_snoc|]. rewrite hot_entries_app. simpl. by rewrite app_nil_r.
    - split; [by apply hot_ok_all_full|]. rewrite (empty_chunk_iter cur') by lia. by rewrite app_nil_r. }
  unfold AdjacencyList.maybe_compress_to_cold. set (l0 := mkList hot'' _ _ _ _).
  destruct (compress_loop_ok cap hot'' l0 ess H2 Hhot'' Hcold) as (l' & ess' & Hl' & Hcold' & Hhot' & [Hd' Hx'] & Hp').
  change (hot_chunks l0) with hot''. rewrite Hl'. eexists. split; [reflexivity|]. split; [|exact Hx']. split; [exact Hhot'|]. simpl. rewrite Hd'. simpl.
  split; [constructor|]. exists ess'. split; [by apply sort_skip_ok|]. rewrite app_nil_r, Hp', Hent, Heq', (app_assoc (hot_entries hot)), Heq.
  by rewrite <- Hp.
Qed.

Lemma add_edge_ok cap l bag dst eid :
  (2 ≤ cap)%nat → list_ok cap l bag → entry_u64 (dst, eid) →
  ∃ l', AdjacencyList.add_edge dst eid cap l = Some l' ∧ list_ok cap l' (bag ++ [(dst, eid)]) ∧ deleted l' = deleted l.
Proof.
  intros H2 Hok He. pose proof Hok as (Hhot & Hd & ess & Hcold & Hp). unfold AdjacencyList.add_edge.
  set (l0 := mkList (hot_chunks l) (cold_chunks l) (delta_inserts l ++ [(dst, eid)]) (deleted l) (skip_index l)).
  assert (list_ok cap l0 (bag ++ [(dst, eid)])) as Hok0.
  { split; [done|]. split; [by apply Forall_app; split; [|constructor]|]. exists ess. split; [done|]. simpl.
    rewrite <- Hp. by rewrite <- !app_assoc. }
  destruct (last (hot_chunks l) ≫= AdjacencyChunk.push dst eid) as [c'|] eqn:Hpush.
  - apply bind_Some in Hpush as (c & Hlast & Hpush). apply last_Some in Hlast as [init Hinit].
    rewrite Hinit, removelast_last. rewrite Hinit in Hhot. apply hot_ok_snoc in Hhot as [Hfull Hc].
    assert (length (destinations c) < cap)%nat as Hroom.
    { destruct (decide (length (destinations c) = cap)) as [Hf|]; [|pose proof (co_len _ _ Hc); lia].
      apply (push_full cap c dst eid Hc) in Hf. congruence. }
    destruct (push_ok cap c dst eid Hc Hroom He) as (c1 & Hc1 & Hok1 & Hit & _). rewrite Hpush in Hc1. injection Hc1 as <-.
    eexists. split; [reflexivity|]. split; [|done]. split; [by apply hot_ok_snoc|]. split; [done|]. exists ess. split; [done|].
    simpl. rewrite <- Hp, Hinit, !hot_entries_app. simpl. rewrite !app_nil_r, Hit, <- !app_assoc. do 3 f_equiv.
    apply Permutation_app_comm.
  - cbv zeta. fold l0. destruct (_ <=? _)%nat; [|by exists l0].
    destruct (compact_ok cap l0 _ H2 Hok0) as (l' & ? & ? & Hx). by exists l'.
Qed.

Lemma new_ok cap : list_ok cap AdjacencyList.new [].
Proof. split; [apply hot_ok_nil|]. split; [constructor|]. exists []. split; [|done]. split; [constructor|done]. Qed.

Lemma set_deleted_ok cap l bag D :
  list_ok cap l bag → list_ok cap (mkList (hot_chunks l) (cold_chunks l) (delta_inserts l) D (skip_index l)) bag.
Proof. done. Qed.

(** ** Reading *)

Definition live_in (D : gset Z) (e : entry) : bool := negb (bool_decide (e.2 ∈ D)).

Lemma filter_perm {A} (f : A → bool) l l' : l ≡ₚ l' → List.filter f l ≡ₚ List.filter f l'.
Proof.
  induction 1; simpl; [done|..].
  - destruct (f x); [by f_equiv|done].
  - destruct (f x), (f y); (done || apply perm_swap).
  - by etransitivity.
Qed.

Lemma cold_iter_holds c es : cold_holds c es → CompressedAdjacencyChunk.iter c = Some es.
Proof.
  intros [_ Hd He _ _]. unfold CompressedAdjacencyChunk.iter. rewrite Hd, He. cbn [mbind option_bind]. by rewrite zip_split.
Qed.

Lemma iter_ok cap l bag :
  list_ok cap l bag → ∃ es, AdjacencyList.iter l = Some es ∧ es ≡ₚ List.filter (live_in (deleted l)) bag.
Proof.
  intros (_ & _ & ess & [Hcold _] & Hp). unfold AdjacencyList.iter.
  assert (mapM CompressedAdjacencyChunk.iter (cold_chunks l) = Some ess) as ->.
  { apply mapM_Some_2. eapply Forall2_impl; [exact Hcold|]. intros. by apply cold_iter_holds. }
  eexists. split; [reflexivity|]. apply filter_perm, Hp.
Qed.

Lemma walk_back_first dst dsts i :
  (∀ j, (j < i)%nat → dsts !! j ≠ Some dst) → AdjacencyList.walk_back dst dsts i = i.
Proof.
  destruct i as [|i]; intros Hb; [done|]. simpl. rewrite bool_decide_eq_false_2; [done|]. apply Hb. lia.
Qed.

(** From the first entry with the destination on. *)
Lemma any_live_spec l dst es k n :
  (k + n = length es)%nat → StronglySorted Z.le (map fst es) → (∀ e, e ∈ drop k es → dst ≤ e.1) →
  AdjacencyList.any_live l dst (map fst es) (map snd es) (seq k n) =
    Some (existsb (λ e, (e.1 =? dst) && AdjacencyList.live l e) (drop k es)).
Proof.
  revert k. induction n as [|n IH]; intros k Hk Hs Hhi.
  { rewrite drop_ge by lia. done. }
  cbn [seq AdjacencyList.any_live]. destruct (lookup_lt_is_Some_2 es k) as [[d e] Hke]; [lia|].
  rewrite !list_lookup_fmap, Hke. cbn [fmap option_fmap option_map fst snd mbind option_bind].
  rewrite (drop_S es (d, e) k Hke) in Hhi |- *. cbn [existsb].
  pose proof (Hhi (d, e) ltac:(set_solver)) as Hge. simpl in Hge. 
  destruct (Z.eqb_spec d dst) as [->|Hne].
  - rewrite bool_decide_eq_true_2 by done. cbn [negb fst andb]. unfold AdjacencyList.live at 1. cbn [snd]. rewrite Z.eqb_refl. cbn [andb].
    destruct (negb (bool_decide (e ∈ deleted l))); [done|]. cbn [orb]. apply IH; [lia|done|]. set_solver.
  - rewrite bool_decide_eq_false_2 by congruence. cbn [negb fst]. f_equal. symmetry. cbn [orb andb].
    rewrite (proj2 (Z.eqb_neq d dst) Hne). simpl.
    apply not_true_iff_false. intros ((d' & e') & Hin%list_elem_of_In & Hx)%existsb_exists. bool_to_prop. simpl in *. subst d'.
    apply list_elem_of_lookup in Hin as [j Hj]. rewrite lookup_drop in Hj.
    assert (d ≤ dst); [|lia]. apply (StronglySorted_lookup _ _ k (S k + j) d dst Hs); [lia|..]; rewrite list_lookup_fmap.
    + by rewrite Hke.
    + by rewrite Hj.
Qed.

Lemma partition_point_map {A B} (f : A → B) p (l : list A) : partition_point p (map f l) = partition_point (λ x, p (f x)) l.
Proof. induction l as [|x l IH]; simpl; [done|]. by rewrite IH. Qed.

(** The entries of a sorted chunk below, and from, a bound. *)
Lemma partition_dst (p : Z → bool) (es : list entry) i e :
  (∀ a b, a ≤ b → p b = true → p a = true) → StronglySorted Z.le (map fst es) → es !! i = Some e →
  (i < partition_point p (map fst es))%nat ↔ p e.1 = true.
Proof.
  intros Hp Hs Hi. apply (partition_point_sorted p Z.le); [done|done|]. by rewrite list_lookup_fmap, Hi.
Qed.

Definition hits (dst : Z) (D : gset Z) (e : entry) : bool := (e.1 =? dst) && live_in D e.

Lemma existsb_perm {A} (f : A → bool) l l' : l ≡ₚ l' → existsb f l = existsb f l'.
Proof.
  intros Hp. apply eq_true_iff_eq. rewrite !existsb_exists.
  split; intros (x & Hx & ?); exists x; (split; [|done]); [by rewrite <- Hp|by rewrite Hp].
Qed.

Lemma cold_search l dst c es :
  cold_holds c es →
  match binary_search_by_key id dst (map fst es) with
  | Found pos => AdjacencyList.any_live l dst (map fst es) (map snd es)
                   (seq (AdjacencyList.walk_back dst (map fst es) pos) (length (map fst es) - AdjacencyList.walk_back dst (map fst es) pos))
                 = Some (existsb (hits dst (deleted l)) es)
  | InsertAt _ => existsb (hits dst (deleted l)) es = false
  end.
Proof.
  intros [Hs _ _ _ _]. unfold binary_search_by_key.
  set (i := partition_point _ _).
  assert (∀ j e, es !! j = Some e → (j < i)%nat ↔ e.1 < dst) as Hi.
  { intros j e Hj. unfold i. rewrite (partition_dst (λ x, id x <? dst) es j e); [|intros a b; rewrite !Z.ltb_lt; simpl; lia|done|done].
    apply Z.ltb_lt. }
  assert (map fst es !! i ≠ Some dst → existsb (hits dst (deleted l)) es = false) as Hnone.
  { intros Hne. apply not_true_iff_false.
    intros (e & He%list_elem_of_In & Hh)%existsb_exists. unfold hits in Hh. bool_to_prop.
    apply list_elem_of_lookup in He as [j Hj]. assert (¬ (j < i)%nat) as Hji by (rewrite (Hi j e Hj); lia).
    destruct (lookup_lt_is_Some_2 es i) as [e' Hi']; [apply lookup_lt_Some in Hj; lia|].
    assert (dst ≤ e'.1) by (pose proof (Hi i e' Hi'); lia). apply Hne. rewrite list_lookup_fmap, Hi'. simpl. f_equal.
    destruct (decide (j = i)) as [->|]; [congruence|].
    assert (e'.1 ≤ e.1); [|lia]. apply (StronglySorted_lookup _ _ i j _ _ Hs); [lia|..]; rewrite list_lookup_fmap; [by rewrite Hi'|by rewrite Hj]. }
  destruct (decide (map fst es !! i = Some dst)) as [Hat|Hne].
  - rewrite Hat. cbn [id]. rewrite Z.eqb_refl. rewrite walk_back_first.
    2: { intros j Hj Heq. rewrite list_lookup_fmap in Heq. destruct (es !! j) as [e|] eqn:Hje; [|done]. simpl in Heq.
         apply (Hi j e Hje) in Hj. injection Heq. lia. }
    assert (i < length es)%nat by (apply lookup_lt_Some in Hat; by rewrite length_map in Hat).
    rewrite length_map, any_live_spec; [|lia|done|].
    + f_equal. rewrite <- (take_drop i es) at 2. rewrite existsb_app. symmetry.
      replace (existsb (hits dst (deleted l)) (take i es)) with false; [done|]. symmetry. apply not_true_iff_false.
      intros (e & He%list_elem_of_In & Hh)%existsb_exists. unfold hits in Hh. bool_to_prop.
      apply list_elem_of_lookup in He as [j Hj]. apply lookup_take_Some in Hj as [Hj Hlt]. apply (Hi j e Hj) in Hlt. lia.
    + intros e He. apply list_elem_of_lookup in He as [j Hj]. rewrite lookup_drop in Hj. pose proof (Hi _ _ Hj). lia.
  - destruct (map fst es !! i) as [d|] eqn:Hd; [|by apply Hnone].
    destruct (Z.eqb_spec (id d) dst) as [Heq|]; [|by apply Hnone]. cbn in Heq. congruence.
Qed.

(** ** The cold chunks through the skip index *)

(** A skip entry, with the entries of its chunk. *)
Definition skip_holds (l : AdjacencyList) (s : SkipIndexEntry) (es : list entry) : Prop :=
  ∃ c, cold_chunks l !! chunk_index s = Some c ∧ cold_holds c es ∧
       skip_min s = base (cold_destinations c) ∧ skip_max s = max_destination c.

Lemma Forall2_perm_l {A B} (R : A → B → Prop) l l' k :
  l ≡ₚ l' → Forall2 R l k → ∃ k', k ≡ₚ k' ∧ Forall2 R l' k'.
Proof.
  intros Hp. revert k. induction Hp as [|x l l' _ IH|x y l|l1 l2 l3 _ IH1 _ IH2]; intros k Hk.
  - exists k. done.
  - inversion_clear Hk as [|? b ? k0 Hb Hk0]. destruct (IH k0 Hk0) as (k' & ? & ?). exists (b :: k'). split; [by f_equiv|by constructor].
  - inversion_clear Hk as [|? b ? k0 Hb Hk0]. inversion_clear Hk0 as [|? b' ? k1 Hb' Hk1].
    exists (b' :: b :: k1). split; [apply perm_swap|by repeat constructor].
  - destruct (IH1 k Hk) as (k' & ? & Hk'). destruct (IH2 k' Hk') as (k'' & ? & ?). exists k''. split; [by etransitivity|done].
Qed.

Lemma skips_hold l ess : cold_ok l ess → ∃ ess', ess ≡ₚ ess' ∧ Forall2 (skip_holds l) (skip_index l) ess'.
Proof.
  intros [Hcold Hskip]. apply (Forall2_perm_l _ (imap skip_of (cold_chunks l))); [done|].
  apply Forall2_lookup. intros i. rewrite list_lookup_imap. rewrite Forall2_lookup in Hcold. specialize (Hcold i).
  destruct (cold_chunks l !! i) as [c|] eqn:Hc; inversion Hcold as [? es Hh Hes|]; simpl; constructor.
  exists c. by split_and!.
Qed.

Lemma contains_cold_spec dst l skips ess :
  Forall2 (skip_holds l) skips ess →
  AdjacencyList.contains_cold dst l skips = Some (existsb (hits dst (deleted l)) (concat ess)).
Proof.
  induction 1 as [|s es skips ess (c & Hc & Hh & Hmin & Hmax) _ IH]; [done|].
  cbn [AdjacencyList.contains_cold concat]. rewrite existsb_app, IH.
  destruct (_ || _) eqn:Hout.
  - replace (existsb (hits dst (deleted l)) es) with false; [done|]. symmetry. apply not_true_iff_false.
    intros (e & He%list_elem_of_In & Hx)%existsb_exists. pose proof (ch_bounds _ _ Hh e He). unfold hits in Hx.
    bool_to_prop. destruct Hout; bool_to_prop; lia.
  - rewrite Hc. cbn [mbind option_bind]. rewrite (ch_dsts _ _ Hh), (ch_edges _ _ Hh). cbn [mbind option_bind].
    pose proof (cold_search l dst c es Hh) as Hsearch.
    destruct (binary_search_by_key id dst (map fst es)).
    + rewrite Hsearch. cbn [mbind option_bind]. by destruct (existsb (hits dst (deleted l)) es).
    + rewrite Hsearch. done.
Qed.

Lemma contains_ok cap l bag dst :
  list_ok cap l bag → AdjacencyList.contains dst l = Some (existsb (hits dst (deleted l)) bag).
Proof.
  intros (_ & _ & ess & Hcold & Hp). destruct (skips_hold l ess Hcold) as (ess' & Hp' & Hskips).
  unfold AdjacencyList.contains. rewrite (contains_cold_spec dst l _ _ Hskips). cbn [mbind option_bind]. f_equal.
  assert (concat ess ≡ₚ concat ess') as Hcc by by rewrite Hp'. rewrite <- (existsb_perm _ _ _ Hp), !existsb_app.
  rewrite (existsb_perm _ _ _ Hcc), <- orb_assoc. done.
Qed.

Lemma filter_slice {A} (f : A → bool) (l : list A) s e :
  (s ≤ e)%nat → (∀ i x, l !! i = Some x → f x = true ↔ (s ≤ i < e)%nat) →
  List.filter f l = take (e - s) (drop s l).
Proof.
  revert s e. induction l as [|x l IH]; intros s e Hse Hf.
  { by rewrite drop_nil, take_nil. }
  pose proof (Hf 0%nat x eq_refl) as H0. cbn [List.filter].
  assert (∀ s' e', (s' ≤ e')%nat → (∀ i, (s ≤ S i < e)%nat ↔ (s' ≤ i < e')%nat) → List.filter f l = take (e' - s') (drop s' l)) as Hrec.
  { intros s' e' Hse' Hiff. apply IH; [done|]. intros i y Hy. rewrite <- Hiff. by apply (Hf (S i)). }
  destruct s as [|s].
  - destruct e as [|e].
    + destruct (f x) eqn:Hfx; [pose proof (proj1 H0 eq_refl); lia|]. rewrite (Hrec 0 0)%nat; [done|done|lia].
    + rewrite (proj2 H0) by lia. simpl. f_equal. rewrite (Hrec 0 e)%nat; [by rewrite Nat.sub_0_r|lia|lia].
  - destruct (f x) eqn:Hfx; [pose proof (proj1 H0 eq_refl); lia|]. simpl.
    replace (e - S s)%nat with (Nat.pred e - s)%nat by lia. apply Hrec; lia.
Qed.

Lemma zip_slice (es : list entry) n k :
  zip (take n (drop k (map fst es))) (take n (drop k (map snd es))) = take n (drop k es).
Proof. rewrite !skipn_map, !firstn_map. apply zip_split. Qed.

Lemma cold_range_spec c es min max :
  cold_holds c es → min ≤ max →
  CompressedAdjacencyChunk.destinations_in_range min max c = Some (List.filter (AdjacencyList.in_range min max) es).
Proof.
  intros Hh Hle. unfold CompressedAdjacencyChunk.destinations_in_range. destruct (_ || _) eqn:Hout.
  - f_equal. symmetry. apply filter_none. intros e He. pose proof (ch_bounds _ _ Hh e He).
    apply not_true_iff_false. unfold AdjacencyList.in_range. intros Hx. bool_to_prop. destruct Hout; bool_to_prop; lia.
  - rewrite (ch_dsts _ _ Hh), (ch_edges _ _ Hh). cbn [mbind option_bind].
    set (s := partition_point _ _). set (e := partition_point (λ d, d <=? max) _). pose proof (ch_sorted _ _ Hh) as Hs.
    assert (∀ i x, es !! i = Some x → (i < s)%nat ↔ x.1 < min) as Hspec.
    { intros i x Hi. unfold s. rewrite (partition_dst (λ d, d <? min) es i x); [apply Z.ltb_lt|intros a b; rewrite !Z.ltb_lt; lia|done|done]. }
    assert (∀ i x, es !! i = Some x → (i < e)%nat ↔ x.1 ≤ max) as Hepec.
    { intros i x Hi. unfold e. rewrite (partition_dst (λ d, d <=? max) es i x); [apply Z.leb_le|intros a b; rewrite !Z.leb_le; lia|done|done]. }
    assert (e ≤ length es ∧ s ≤ length es)%nat as [Hel Hsl].
    { unfold e, s. pose proof (partition_point_le (λ d, d <=? max) (map fst es)). pose proof (partition_point_le (λ d, d <? min) (map fst es)).
      rewrite length_map in *. lia. }
    assert (s ≤ e)%nat as Hse.
    { destruct (decide (s ≤ e)%nat) as [|Hn]; [done|]. destruct (lookup_lt_is_Some_2 es e) as [x Hx]; [lia|].
      pose proof (Hspec e x Hx). pose proof (Hepec e x Hx). lia. }
    unfold slice_range. rewrite !length_map, (proj2 (Nat.leb_le s e)), (proj2 (Nat.leb_le e (length es))) by done.
    cbn [andb mbind option_bind]. rewrite zip_slice. f_equal. symmetry. apply filter_slice; [done|].
    intros i x Hi. unfold AdjacencyList.in_range. rewrite andb_true_iff, !Z.leb_le. pose proof (Hspec i x Hi). pose proof (Hepec i x Hi). lia.
Qed.

Definition near (min max : Z) (D : gset Z) (e : entry) : bool := AdjacencyList.in_range min max e && live_in D e.

Lemma filter_and {A} (f g : A → bool) l : List.filter g (List.filter f l) = List.filter (λ x, f x && g x) l.
Proof. induction l as [|x l IH]; simpl; [done|]. destruct (f x); simpl; [|done]. by rewrite IH. Qed.

Lemma range_cold_spec min max l skips ess :
  min ≤ max → Forall2 (skip_holds l) skips ess →
  AdjacencyList.range_cold min max l skips = Some (List.filter (near min max (deleted l)) (concat ess)).
Proof.
  intros Hle. induction 1 as [|s es skips ess (c & Hc & Hh & Hmin & Hmax) _ IH]; [done|].
  cbn [AdjacencyList.range_cold concat]. rewrite List.filter_app, IH. destruct (_ || _) eqn:Hout.
  - rewrite (filter_none (near min max (deleted l)) es); [done|]. intros e He. pose proof (ch_bounds _ _ Hh e He). apply not_true_iff_false.
    unfold near, AdjacencyList.in_range. intros Hx. bool_to_prop. destruct Hout; bool_to_prop; lia.
  - rewrite Hc. cbn [mbind option_bind]. rewrite (cold_range_spec c es min max Hh Hle). cbn [mbind option_bind].
    by rewrite filter_and.
Qed.

Lemma destinations_in_range_ok cap l bag min max :
  list_ok cap l bag → min ≤ max →
  ∃ es, AdjacencyList.destinations_in_range min max l = Some es ∧ es ≡ₚ List.filter (near min max (deleted l)) bag.
Proof.
  intros (_ & _ & ess & Hcold & Hp) Hle. destruct (skips_hold l ess Hcold) as (ess' & Hp' & Hskips).
  unfold AdjacencyList.destinations_in_range. rewrite (range_cold_spec min max l _ _ Hle Hskips). cbn [mbind option_bind].
  eexists. split; [reflexivity|].
  assert (concat ess ≡ₚ concat ess') as Hcc by by rewrite Hp'. rewrite <- (filter_perm _ _ _ Hp), !List.filter_app.
  apply Permutation_app; [by apply filter_perm|]. done.
Qed.
