(* ===== verification/AdjacencyProps.v ===== *)
(** * Chunked adjacency: refinement of a bag of edges

    A [ChunkedAdjacency] promises to be, for each source node, a bag of
    (destination, edge) entries and a set of deleted edges. [apply_op] runs an
    operation on the implementation, [spec_op] on that specification; every
    history of operations keeps the two in step. *)
From S2P Require Import Prelude Bits Bitset BitPack BitPackProps Adjacency AdjacencyFacts.
Open Scope Z_scope.

Inductive Op : Type :=
  | AddEdge (src dst edge_id : Z)
  | BatchAddEdges (edges : list (Z * Z * Z))
  | MarkDeleted (src edge_id : Z)
  | BatchMarkDeleted (edges : list (Z * Z))
  | UnmarkDeleted (src edge_id : Z)
  | Compact
  | CompactIfNeeded
  | FreezeAll
  | Clear.

Definition apply_op (op : Op) (a : ChunkedAdjacency) : option ChunkedAdjacency :=
  match op with
  | AddEdge src dst e => ChunkedAdjacency.add_edge src dst e a
  | BatchAddEdges es => ChunkedAdjacency.batch_add_edges es a
  | MarkDeleted src e => Some (ChunkedAdjacency.mark_deleted src e a)
  | BatchMarkDeleted es => Some (ChunkedAdjacency.batch_mark_deleted es a)
  | UnmarkDeleted src e => Some (ChunkedAdjacency.unmark_deleted src e a)
  | Compact => ChunkedAdjacency.compact a
  | CompactIfNeeded => ChunkedAdjacency.compact_if_needed a
  | FreezeAll => ChunkedAdjacency.freeze_all a
  | Clear => Some (ChunkedAdjacency.clear a)
  end.

Fixpoint run_ops (ops : list Op) (a : ChunkedAdjacency) : option ChunkedAdjacency :=
  match ops with
  | [] => Some a
  | op :: ops' => a' ← apply_op op a; run_ops ops' a'
  end.

(** ** The specification *)

Record Node := mkNode { edges : list entry; gone : gset Z }.

Definition node_of (src : Z) (m : gmap Z Node) : Node :=
  match m !! src with Some n => n | None => mkNode [] ∅ end.

Definition spec_add (src dst e : Z) (m : gmap Z Node) : gmap Z Node :=
  <[src := mkNode (edges (node_of src m) ++ [(dst, e)]) (gone (node_of src m))]> m.

Definition spec_mark (src e : Z) (m : gmap Z Node) : gmap Z Node :=
  match m !! src with Some n => <[src := mkNode (edges n) ({[e]} ∪ gone n)]> m | None => m end.

Definition spec_unmark (src e : Z) (m : gmap Z Node) : gmap Z Node :=
  match m !! src with Some n => <[src := mkNode (edges n) (gone n ∖ {[e]})]> m | None => m end.

Definition spec_op (op : Op) (m : gmap Z Node) : gmap Z Node :=
  match op with
  | AddEdge src dst e => spec_add src dst e m
  | BatchAddEdges es => fold_left (λ m '(src, dst, e), spec_add src dst e m) es m
  | MarkDeleted src e => spec_mark src e m
  | BatchMarkDeleted es => fold_left (λ m '(src, e), spec_mark src e m) es m
  | UnmarkDeleted src e => spec_unmark src e m
  | Compact | CompactIfNeeded | FreezeAll => m
  | Clear => ∅
  end.

Definition spec_run (ops : list Op) : gmap Z Node := fold_left (λ m op, spec_op op m) ops ∅.

(** The live edges of a node. *)
Definition live_edges (n : Node) : list entry := List.filter (live_in (gone n)) (edges n).


(** ** The simulation *)
















(** ** The edges of the specification *)






Lemma for_all_lists_singleton f src l l' cap ec dc :
  f l = Some l' → ChunkedAdjacency.for_all_lists f (mkAdj {[src := l]} cap ec dc) = Some (mkAdj {[src := l']} cap ec dc).
Proof.
  intros Hf. unfold ChunkedAdjacency.for_all_lists. cbn [lists]. rewrite map_fold_singleton. cbn [mbind option_bind].
  by rewrite Hf.
Qed.

Lemma mark_singleton src e l cap ec dc :
  ChunkedAdjacency.mark_deleted src e (mkAdj {[src := l]} cap ec dc) =
    mkAdj {[src := AdjacencyList.mark_deleted e l]} cap ec (wrap64 (dc + 1)).
Proof.
  unfold ChunkedAdjacency.mark_deleted. cbn [lists chunk_capacity edge_count deleted_count].
  rewrite lookup_singleton_eq. f_equal. apply insert_singleton_eq.
Qed.

(** ** The claims *)


(** A frozen edge to node 0 is lost. One edge to node 0, compacted into a
    chunk of its own and frozen, is no longer among the edges of its node,
    though it is still counted. *)
Theorem frozen_edge_to_node_zero_is_lost src eid :
  is_u64 eid →
  let ops := [AddEdge src 0 eid; Compact; FreezeAll] in
  live_edges (node_of src (spec_run ops)) = [(0, eid)] ∧
  ∃ a, run_ops ops ChunkedAdjacency.new = Some a ∧
    ChunkedAdjacency.edges_from src a = Some [] ∧ ChunkedAdjacency.contains_edge src 0 a = Some false ∧
    ChunkedAdjacency.total_edge_count a = 1.
Proof.
  intros Hu ops. split.
  { unfold spec_run, node_of. cbn [ops fold_left spec_op]. unfold spec_add. by rewrite lookup_insert_eq. }
  destruct (pack_holds [eid]) as (p & Hp & Hh & _); [by constructor|]. pose proof (holds_unpack _ _ Hh) as Hun.
  set (cold := mkCold (mkDelta 0 (mkPacked (Inline []) 0 0)) p 1 0).
  set (l := mkList [] [cold] [] ∅ [mkSkip 0 0 0]).
  exists (mkAdj {[src := l]} DEFAULT_CHUNK_CAPACITY 1 0). split_and!.
  - set (l1 := mkList [] [] [(0, eid)] ∅ []). set (l2 := mkList [mkChunk [0] [eid] 64] [] [] ∅ []).
    assert (ChunkedAdjacency.add_edge src 0 eid ChunkedAdjacency.new = Some (mkAdj {[src := l1]} DEFAULT_CHUNK_CAPACITY 1 0)) as Ha by done.
    assert (AdjacencyList.compact DEFAULT_CHUNK_CAPACITY l1 = Some l2) as Hc by done.
    assert (AdjacencyList.freeze_all l2 = Some l) as Hf.
    { unfold AdjacencyList.freeze_all, AdjacencyList.to_cold, AdjacencyChunk.compress, l2. cbn -[BitPackedInts.pack]. by rewrite Hp. }
    cbn [run_ops ops apply_op]. rewrite Ha. cbn [mbind option_bind]. 
    unfold ChunkedAdjacency.compact, ChunkedAdjacency.freeze_all. rewrite (for_all_lists_singleton _ _ _ _ _ _ _ Hc).
    cbn [mbind option_bind]. by rewrite (for_all_lists_singleton _ _ _ _ _ _ _ Hf).
  - unfold ChunkedAdjacency.edges_from. simpl. rewrite lookup_singleton_eq. unfold AdjacencyList.iter, CompressedAdjacencyChunk.iter.
    simpl. by rewrite Hun.
  - unfold ChunkedAdjacency.contains_edge. simpl. rewrite lookup_singleton_eq. unfold AdjacencyList.contains. simpl. by rewrite Hun.
  - done.
Qed.

(** Deleting an edge twice counts twice. One edge deleted twice leaves
    fewer edges than deletions, and [active_edge_count] panics with overflow
    checks and wraps to [u64::MAX] without. *)
Theorem deleting_twice_breaks_active_count src dst eid :
  let ops := [AddEdge src dst eid; MarkDeleted src eid; MarkDeleted src eid] in
  ∃ a, run_ops ops ChunkedAdjacency.new = Some a ∧
    ChunkedAdjacency.active_edge_count true a = None ∧ ChunkedAdjacency.active_edge_count false a = Some u64_max.
Proof.
  intros ops. set (l1 := mkList [] [] [(dst, eid)] ∅ []).
  assert (ChunkedAdjacency.add_edge src dst eid ChunkedAdjacency.new = Some (mkAdj {[src := l1]} DEFAULT_CHUNK_CAPACITY 1 0)) as Ha by done.
  cbn [run_ops ops apply_op]. rewrite Ha. cbn [mbind option_bind]. rewrite !mark_singleton.
  eexists. split; [reflexivity|]. done.
Qed.
