(* ===== verification/Delta.v ===== *)
(** * Delta encoding

    grafeo-core/src/codec/delta.rs: the first value and the differences of
    consecutive values; signed values through the zig-zag map. [debug] is
    whether the build checks overflow and debug assertions (the dev profile
    does, the release profile does not): with it an overflow panics ([None]),
    without it the arithmetic wraps. *)
From S2P Require Import Prelude Bytes Bits BitPack BitPackProps.
Open Scope Z_scope.

(** [((value << 1) ^ (value >> 63)) as u64]. *)
Definition zigzag_encode (value : Z) : Z :=
  wrap64 (Z.lxor (to_i64 (Z.shiftl value 1)) (Z.shiftr value 63)).

(** [((value >> 1) as i64) ^ (-((value & 1) as i64))]. *)
Definition zigzag_decode (value : Z) : Z :=
  Z.lxor (to_i64 (Z.shiftr value 1)) (- Z.land value 1).

(** [x] as the result of an [i64] operation. *)
Definition i64_result (debug : bool) (x : Z) : option Z :=
  if debug && negb ((- 2 ^ 63 <=? x) && (x <? 2 ^ 63)) then None else Some (to_i64 x).

Record DeltaEncoding := mkDeltaEncoding { base : Z; deltas : list Z; count : nat }.

Inductive delta_error : Set := DeltaTooShort | DeltaTruncated.

Module DeltaEncoding.

(** [values.windows(2).all(|w| w[0] <= w[1])]. *)
Fixpoint ascending (values : list Z) : bool :=
  match values with
  | [] => true
  | a :: rest => match rest with [] => true | b :: _ => (a <=? b) && ascending rest end
  end.

Definition encode (debug : bool) (values : list Z) : option DeltaEncoding :=
  match values with
  | [] => Some (mkDeltaEncoding 0 [] 0)
  | v :: _ =>
      if debug && negb (ascending values) then None
      else Some (mkDeltaEncoding v (windows_sub values) (length values))
  end.

(** [values.windows(2).map(|w| zigzag_encode(w[1] - w[0]))]. *)
Fixpoint zigzag_windows (debug : bool) (values : list Z) : option (list Z) :=
  match values with
  | [] => Some []
  | a :: rest =>
      match rest with
      | [] => Some []
      | b :: _ => d ← i64_result debug (b - a); ds ← zigzag_windows debug rest; Some (zigzag_encode d :: ds)
      end
  end.

Definition encode_signed (debug : bool) (values : list Z) : option DeltaEncoding :=
  match values with
  | [] => Some (mkDeltaEncoding 0 [] 0)
  | v :: _ => ds ← zigzag_windows debug values; Some (mkDeltaEncoding (zigzag_encode v) ds (length values))
  end.

Definition decode (e : DeltaEncoding) : list Z :=
  if (count e =? 0)%nat then [] else base e :: running_sum (base e) (deltas e).

Fixpoint signed_sum (debug : bool) (current : Z) (ds : list Z) : option (list Z) :=
  match ds with
  | [] => Some []
  | d :: ds' =>
      current' ← i64_result debug (current + zigzag_decode d);
      rest ← signed_sum debug current' ds'; Some (current' :: rest)
  end.

Definition decode_signed (debug : bool) (e : DeltaEncoding) : option (list Z) :=
  if (count e =? 0)%nat then Some []
  else let first := zigzag_decode (base e) in
       rest ← signed_sum debug first (deltas e); Some (first :: rest).

Definition max_delta (e : DeltaEncoding) : Z := BitPackedInts.max_value (deltas e).

Definition bits_for_max_delta (e : DeltaEncoding) : nat :=
  if max_delta e =? 0 then 1%nat else Z.to_nat (Z.log2 (max_delta e) + 1).

(** The count is cut to its low 32 bits. *)
Definition to_bytes (e : DeltaEncoding) : list Z :=
  to_le 8 (base e) ++ to_le 4 (Z.of_nat (count e) mod 2 ^ 32) ++ words_to_bytes (deltas e).

Definition from_bytes (bytes : list Z) : result delta_error DeltaEncoding :=
  if (length bytes <? 12)%nat then Err DeltaTooShort
  else
    let n := Z.to_nat (from_le (take 4 (drop 8 bytes))) in
    let expected_len := (12 + (n - 1) * 8)%nat in
    if (length bytes <? expected_len)%nat then Err DeltaTruncated
    else Ok (mkDeltaEncoding (from_le (take 8 bytes)) (read_words (n - 1) (drop 12 bytes)) n).

End DeltaEncoding.

(** ** The zig-zag map *)

Lemma wrap_to_i64 x : wrap64 (to_i64 x) = wrap64 x.
Proof.
  unfold to_i64, wrap64. destruct (_ <? _); [apply Z.mod_mod; lia|].
  replace (x mod 2 ^ 64 - 2 ^ 64) with (x mod 2 ^ 64 + (-1) * 2 ^ 64) by lia. rewrite Z.mod_add by lia. apply Z.mod_mod. lia.
Qed.

Lemma to_i64_small x : is_i64 x → to_i64 x = x.
Proof.
  unfold is_i64, to_i64, wrap64. intros Hx. destruct (Z.lt_ge_cases x 0).
  - replace (x mod 2 ^ 64) with (x + 2 ^ 64).
    + rewrite (proj2 (Z.ltb_ge _ _)) by lia. lia.
    + apply (Z.mod_unique_pos _ _ (-1)); lia.
  - rewrite Z.mod_small by lia. by rewrite (proj2 (Z.ltb_lt _ _)) by lia.
Qed.

Lemma to_i64_i64 x : is_i64 (to_i64 x).
Proof.
  unfold to_i64, is_i64. pose proof (wrap64_u64 x) as [? ?]. destruct (Z.ltb_spec (wrap64 x) (2 ^ 63)); lia.
Qed.

Lemma to_i64_wrap x y : wrap64 x = wrap64 y → to_i64 x = to_i64 y.
Proof. unfold to_i64. by intros ->. Qed.

Lemma shiftr_63 v : is_i64 v → Z.shiftr v 63 = if 0 <=? v then 0 else -1.
Proof.
  intros [? ?]. rewrite Z.shiftr_div_pow2 by lia. destruct (Z.leb_spec 0 v); symmetry.
  - apply (Z.div_unique_pos _ _ _ v); lia.
  - apply (Z.div_unique_pos _ _ _ (v + 2 ^ 63)); lia.
Qed.

Lemma lxor_m1 x : Z.lxor x (-1) = - x - 1.
Proof. rewrite Z.lxor_m1_r. unfold Z.lnot. lia. Qed.

Lemma zigzag_encode_spec v : is_i64 v → zigzag_encode v = if 0 <=? v then 2 * v else - 2 * v - 1.
Proof.
  intros Hv. unfold zigzag_encode. rewrite (shiftr_63 v Hv), Z.shiftl_mul_pow2 by lia. change (2 ^ 1) with 2.
  destruct Hv as [Hv1 Hv2]. destruct (Z.leb_spec 0 v).
  - rewrite Z.lxor_0_r, wrap_to_i64, wrap64_small by (unfold is_u64; lia). lia.
  - rewrite lxor_m1. transitivity (wrap64 (- 2 * v - 1)); [|apply wrap64_small; unfold is_u64; lia].
    assert (to_i64 (v * 2) = v * 2 ∨ to_i64 (v * 2) = v * 2 + 2 ^ 64) as [->| ->].
    { unfold to_i64. assert (wrap64 (v * 2) = v * 2 + 2 ^ 64) as ->; [apply eq_sym, (Z.mod_unique_pos _ _ (-1)); lia|].
      destruct (_ <? _); [by right|left; lia]. }
    + f_equal. lia.
    + unfold wrap64. replace (- (v * 2 + 2 ^ 64) - 1) with (- 2 * v - 1 + (-1) * 2 ^ 64) by lia. apply Z.mod_add. lia.
Qed.

Lemma zigzag_decode_spec u : is_u64 u → zigzag_decode u = if Z.even u then u / 2 else - (u / 2) - 1.
Proof.
  intros [Hu1 Hu2]. unfold zigzag_decode. rewrite Z.shiftr_div_pow2 by lia. change (2 ^ 1) with 2.
  assert (0 ≤ u / 2 < 2 ^ 63) by (split; [apply Z.div_pos; lia|apply Z.div_lt_upper_bound; lia]).
  rewrite to_i64_small by (unfold is_i64; lia).
  change 1 with (Z.ones 1) at 1. rewrite Z.land_ones by lia. change (2 ^ 1) with 2. rewrite Zmod_even.
  destruct (Z.even u); [apply Z.lxor_0_r|apply lxor_m1].
Qed.

Lemma zigzag_encode_u64 v : is_u64 (zigzag_encode v).
Proof. apply wrap64_u64. Qed.

Lemma zigzag_decode_encode v : is_i64 v → zigzag_decode (zigzag_encode v) = v.
Proof.
  intros Hv. rewrite zigzag_decode_spec by apply zigzag_encode_u64. rewrite zigzag_encode_spec by done.
  destruct (Z.leb_spec 0 v).
  - rewrite Z.even_mul. simpl. rewrite Z.mul_comm, Z.div_mul by lia. done.
  - replace (- 2 * v - 1) with (1 + 2 * (- v - 1)) by lia. rewrite Z.even_add_mul_2. simpl.
    replace (1 + 2 * (- v - 1)) with (1 + (- v - 1) * 2) by lia. rewrite Z.div_add by lia. change (1 / 2) with 0. lia.
Qed.

Lemma zigzag_encode_decode u : is_u64 u → is_i64 (zigzag_decode u) ∧ zigzag_encode (zigzag_decode u) = u.
Proof.
  intros Hu. assert (is_i64 (zigzag_decode u)) as Hd.
  { rewrite zigzag_decode_spec by done. destruct Hu as [Hu1 Hu2].
    assert (0 ≤ u / 2 < 2 ^ 63) by (split; [apply Z.div_pos; lia|apply Z.div_lt_upper_bound; lia]).
    unfold is_i64. destruct (Z.even u); lia. }
  split; [done|]. rewrite zigzag_encode_spec by done. rewrite zigzag_decode_spec by done. destruct Hu as [Hu1 Hu2].
  pose proof (Z.div_pos u 2 Hu1 ltac:(lia)). pose proof (Z.div_mod u 2 ltac:(lia)) as Hdm. rewrite Zmod_even in Hdm.
  destruct (Z.even u); [rewrite (proj2 (Z.leb_le _ _)) by lia|rewrite (proj2 (Z.leb_gt _ _)) by lia]; lia.
Qed.

(** ** Sequences *)

Lemma ascending_spec values : DeltaEncoding.ascending values = true ↔ StronglySorted Z.le values.
Proof.
  split.
  - intros Ha. apply Sorted_StronglySorted; [intros a b c; lia|].
    induction values as [|a values IH]; [constructor|]. cbn [DeltaEncoding.ascending] in Ha.
    destruct values as [|b values]; [by repeat constructor|]. bool_to_prop. constructor; [by apply IH|]. by constructor.
  - induction 1 as [|a values Hs IH Ha]; [done|]. cbn [DeltaEncoding.ascending]. destruct values as [|b values]; [done|].
    apply andb_true_iff. split; [|done]. apply Z.leb_le. by inversion Ha.
Qed.

Lemma i64_result_wraps x : i64_result false x = Some (to_i64 x).
Proof. done. Qed.

Lemma i64_result_small debug x : is_i64 x → i64_result debug x = Some x.
Proof.
  intros Hx. unfold i64_result. rewrite (proj2 (Z.leb_le _ _)), (proj2 (Z.ltb_lt _ _)) by apply Hx.
  rewrite andb_false_r. by rewrite to_i64_small.
Qed.

(** The differences of consecutive values all fit [i64]. *)
Fixpoint steps_fit (values : list Z) : Prop :=
  match values with
  | [] => True
  | a :: rest => match rest with [] => True | b :: _ => is_i64 (b - a) ∧ steps_fit rest end
  end.

Lemma i64_step debug a b :
  is_i64 b → (debug = true → is_i64 (b - a)) →
  ∃ d, i64_result debug (b - a) = Some d ∧ is_i64 d ∧ i64_result debug (a + d) = Some b.
Proof.
  intros Hb Hd. destruct debug.
  - specialize (Hd eq_refl). exists (b - a). split; [by apply i64_result_small|]. split; [done|].
    rewrite i64_result_small; [f_equal; lia|]. replace (a + (b - a)) with b by lia. done.
  - exists (to_i64 (b - a)). split; [done|]. split; [apply to_i64_i64|]. rewrite i64_result_wraps. f_equal.
    rewrite <- (to_i64_small b) at 2 by done. apply to_i64_wrap.
    unfold wrap64 at 1. rewrite Zplus_mod. fold (wrap64 (to_i64 (b - a))). rewrite wrap_to_i64. unfold wrap64.
    rewrite <- Zplus_mod. f_equal. lia.
Qed.

Lemma signed_windows_sum debug a values :
  Forall is_i64 (a :: values) → (debug = true → steps_fit (a :: values)) →
  ∃ ds, DeltaEncoding.zigzag_windows debug (a :: values) = Some ds ∧ length ds = length values ∧
        DeltaEncoding.signed_sum debug a ds = Some values.
Proof.
  revert a. induction values as [|b values IH]; intros a Hall Hfit; [by exists []|].
  inversion_clear Hall as [|? ? Ha Hrest]. pose proof (Forall_inv Hrest) as Hb.
  destruct (IH b Hrest) as (ds & Hds & Hlen & Hsum); [intros Hd; by apply Hfit|].
  destruct (i64_step debug a b Hb) as (d & Hd1 & Hdi & Hd2); [intros Hd; by apply Hfit|].
  cbn [DeltaEncoding.zigzag_windows] in Hds |- *. rewrite Hd1. simpl. rewrite Hds. simpl.
  eexists. split; [reflexivity|]. split; [by simpl; rewrite Hlen|].
  cbn [DeltaEncoding.signed_sum]. rewrite zigzag_decode_encode, Hd2 by done. simpl. by rewrite Hsum.
Qed.

(** ** The claims *)

(** The zig-zag map is a bijection between [i64] and [u64], both ways,
    and maps a value of magnitude n to at most 2n. *)
Theorem zigzag_bijection :
  (∀ v, is_i64 v → is_u64 (zigzag_encode v) ∧ zigzag_decode (zigzag_encode v) = v) ∧
  (∀ u, is_u64 u → is_i64 (zigzag_decode u) ∧ zigzag_encode (zigzag_decode u) = u) ∧
  (∀ v, is_i64 v → zigzag_encode v ≤ 2 * Z.abs v).
Proof.
  split_and!.
  - intros v Hv. split; [apply zigzag_encode_u64|by apply zigzag_decode_encode].
  - apply zigzag_encode_decode.
  - intros v Hv. rewrite zigzag_encode_spec by done. destruct (Z.leb_spec 0 v); lia.
Qed.

(** Signed deltas are lossless. With wrapping arithmetic every sequence
    of [i64]s reads back, whatever its differences; with overflow checks every
    sequence whose consecutive differences fit [i64] does. *)
Theorem signed_deltas_read_back debug values :
  Forall is_i64 values → (debug = true → steps_fit values) →
  ∃ e, DeltaEncoding.encode_signed debug values = Some e ∧ count e = length values ∧
       DeltaEncoding.decode_signed debug e = Some values.
Proof.
  intros Hall Hfit. destruct values as [|a values]; [by eexists|].
  destruct (signed_windows_sum debug a values Hall Hfit) as (ds & Hds & Hlen & Hsum).
  unfold DeltaEncoding.encode_signed. rewrite Hds. simpl. eexists. split; [reflexivity|]. split; [done|].
  unfold DeltaEncoding.decode_signed. simpl. rewrite zigzag_decode_encode by by inversion Hall. by rewrite Hsum.
Qed.

(** Deltas of sorted values are lossless, also through bytes: encoding
    passes the debug assertion, decoding gives the values, and the bytes of at
    most [u32::MAX] values give the same encoding back. *)
Theorem deltas_bytes_read_back debug values :
  Forall is_u64 values → StronglySorted Z.le values → Z.of_nat (length values) ≤ u32_max →
  ∃ e, DeltaEncoding.encode debug values = Some e ∧ DeltaEncoding.decode e = values ∧
       DeltaEncoding.from_bytes (DeltaEncoding.to_bytes e) = Ok e.
Proof.
  intros Hu Hs Hlen. assert (∃ e, DeltaEncoding.encode debug values = Some e ∧ DeltaEncoding.decode e = values ∧
    is_u64 (base e) ∧ Forall is_u64 (deltas e) ∧ count e = length values ∧ length (deltas e) = (length values - 1)%nat)
    as (e & He & Hd & Hb & Hds & Hc & Hl).
  { destruct values as [|a values].
    { eexists. split; [reflexivity|]. split_and!; (done || constructor || lia). }
    unfold DeltaEncoding.encode. rewrite (proj2 (ascending_spec _) Hs), andb_false_r.
    eexists. split; [reflexivity|]. split; [|split; [|split; [|split]]].
    - unfold DeltaEncoding.decode. simpl. f_equal. by apply running_sum_windows.
    - by apply Forall_inv in Hu.
    - by apply windows_sub_u64.
    - done.
    - pose proof (windows_sub_length a values). simpl in *. lia. }
  exists e. split; [done|]. split; [done|]. destruct e as [b ds n]. simpl in *. subst n. unfold u32_max in Hlen.
  unfold DeltaEncoding.from_bytes, DeltaEncoding.to_bytes. cbn [base deltas count].
  rewrite Z.mod_small by lia. set (n := length values) in *.
  rewrite !length_app, !to_le_length, words_to_bytes_length, (proj2 (Nat.ltb_ge _ _)) by lia.
  rewrite drop_app_length', (take_app_length' _ _ 4) by (by rewrite to_le_length).
  rewrite from_to_le, Nat2Z.id by (simpl; lia). rewrite Hl. rewrite (proj2 (Nat.ltb_ge _ _)) by lia.
  rewrite (take_app_length' _ _ 8) by (by rewrite to_le_length). rewrite from_to_le64 by done.
  rewrite app_assoc, drop_app_length' by (by rewrite length_app, !to_le_length).
  pose proof (read_words_app ds [] Hds) as Hr. rewrite app_nil_r, Hl in Hr. by rewrite Hr.
Qed.
