(* ===== verification/RunLength.v ===== *)
(** * Run-length encoding

    grafeo-core/src/codec/runlength.rs: each run of equal values once, with its
    length. [debug] is whether the build checks overflow (see Delta.v). A
    length is the [Z] of its [u64]; [usize] is 64 bits. A vector of more than
    [isize::MAX] bytes panics; below that memory is taken to suffice. *)
From S2P Require Import Prelude Bytes Delta.
Open Scope Z_scope.

Record Run := mkRun { value : Z; run_length : Z }.

Record RunLengthEncoding := mkRunLength { runs : list Run; total_count : Z }.

Inductive rle_error : Set := UnexpectedEof.

(** [x] as the result of a [usize] addition. *)
Definition usize_result (debug : bool) (x : Z) : option Z :=
  if debug && negb (x <=? u64_max) then None else Some (wrap64 x).

Module RunLengthEncoding.

(** The loop of [encode] with its locals, the last run pushed at its end. *)
Fixpoint encode_loop (current_value current_length : Z) (values : list Z) (runs : list Run) : list Run :=
  match values with
  | [] => runs ++ [mkRun current_value current_length]
  | v :: values' =>
      if v =? current_value then encode_loop current_value (current_length + 1) values' runs
      else encode_loop v 1 values' (runs ++ [mkRun current_value current_length])
  end.

Definition encode (values : list Z) : RunLengthEncoding :=
  match values with
  | [] => mkRunLength [] 0
  | v :: values' => mkRunLength (encode_loop v 1 values' []) (Z.of_nat (length values))
  end.

(** [.sum()] of the lengths. *)
Fixpoint sum_lengths (debug : bool) (acc : Z) (rs : list Run) : option Z :=
  match rs with
  | [] => Some acc
  | r :: rs' => acc' ← usize_result debug (acc + run_length r); sum_lengths debug acc' rs'
  end.

Definition from_runs (debug : bool) (rs : list Run) : option RunLengthEncoding :=
  mkRunLength rs <$> sum_lengths debug 0 rs.

Definition decode (e : RunLengthEncoding) : list Z :=
  flat_map (λ r, replicate (Z.to_nat (run_length r)) (value r)) (runs e).

Definition run_count (e : RunLengthEncoding) : nat := length (runs e).
Definition is_empty (e : RunLengthEncoding) : bool := total_count e =? 0.
Definition encoded_size (e : RunLengthEncoding) : nat := (length (runs e) * 16)%nat.

Definition to_bytes (e : RunLengthEncoding) : list Z :=
  to_le 8 (Z.of_nat (length (runs e))) ++ flat_map (λ r, to_le 8 (value r) ++ to_le 8 (run_length r)) (runs e).

(** [cursor.read_exact] of 8 bytes, as a word, and the rest. *)
Definition read_u64 (bytes : list Z) : result rle_error (Z * list Z) :=
  if (length bytes <? 8)%nat then Err UnexpectedEof else Ok (from_le (take 8 bytes), drop 8 bytes).

Fixpoint read_runs (n : nat) (bytes : list Z) : result rle_error (list Run) :=
  match n with
  | O => Ok []
  | S n' =>
      '(v, bytes) ← read_u64 bytes;
      '(l, bytes) ← read_u64 bytes;
      rs ← read_runs n' bytes; Ok (mkRun v l :: rs)
  end.

(** [Vec::with_capacity] of runs of 16 bytes panics past [isize::MAX] bytes. *)
Definition capacity_ok (run_count : Z) : bool := run_count * 16 <=? 2 ^ 63 - 1.

(** [None]: a panic (the capacity, or with overflow checks the sum). *)
Definition from_bytes (debug : bool) (bytes : list Z) : option (result rle_error RunLengthEncoding) :=
  match read_u64 bytes with
  | Err e => Some (Err e)
  | Ok (n, rest) =>
      if negb (capacity_ok n) then None
      else match read_runs (Z.to_nat n) rest with
           | Err e => Some (Err e)
           | Ok rs => Ok <$> from_runs debug rs
           end
  end.

(** The loop of [get]. *)
Fixpoint get_loop (debug : bool) (index offset : Z) (rs : list Run) : option (option Z) :=
  match rs with
  | [] => Some None
  | r :: rs' =>
      run_end ← usize_result debug (offset + run_length r);
      if index <? run_end then Some (Some (value r)) else get_loop debug index run_end rs'
  end.

Definition get (debug : bool) (index : Z) (e : RunLengthEncoding) : option (option Z) :=
  if total_count e <=? index then Some None else get_loop debug index 0 (runs e).

(** The iterator: the runs from [run_index] on and the values given of the
    first of them. *)
Record RunLengthIterator := mkIter { it_runs : list Run; within_run : Z }.

Definition iter (e : RunLengthEncoding) : RunLengthIterator := mkIter (runs e) 0.

Fixpoint next_loop (rs : list Run) (within : Z) : option Z * RunLengthIterator :=
  match rs with
  | [] => (None, mkIter [] within)
  | r :: rs' =>
      if within <? run_length r then (Some (value r), mkIter rs (within + 1)) else next_loop rs' 0
  end.
Definition next (it : RunLengthIterator) : option Z * RunLengthIterator := next_loop (it_runs it) (within_run it).

(** The first [fuel] values an iterator gives, and whether it then ended. *)
Fixpoint collect (fuel : nat) (it : RunLengthIterator) : list Z * bool :=
  match next it with
  | (None, _) => ([], true)
  | (Some v, it') =>
      match fuel with
      | O => ([], false)
      | S fuel' => let '(vs, ended) := collect fuel' it' in (v :: vs, ended)
      end
  end.

End RunLengthEncoding.

Module SignedRunLengthEncoding.

Definition encode (values : list Z) : RunLengthEncoding := RunLengthEncoding.encode (map zigzag_encode values).
Definition decode (e : RunLengthEncoding) : list Z := map zigzag_decode (RunLengthEncoding.decode e).

End SignedRunLengthEncoding.

Module RunLengthAnalyzer.

(** The loop that counts the runs. *)
Fixpoint count_runs (previous : Z) (values : list Z) (run_count : nat) : nat :=
  match values with
  | [] => run_count
  | v :: values' => count_runs v values' (if v =? previous then run_count else S run_count)
  end.

Definition run_count (values : list Z) : nat :=
  match values with [] => 0%nat | v :: values' => count_runs v values' 1 end.

End RunLengthAnalyzer.

(** ** What runs expand to *)

Definition expand (rs : list Run) : list Z := flat_map (λ r, replicate (Z.to_nat (run_length r)) (value r)) rs.

(** Every run has a value, and consecutive runs have different ones. *)
Definition canonical (rs : list Run) : Prop :=
  Forall (λ r, 0 < run_length r) rs ∧
  ∀ i a b, rs !! i = Some a → rs !! S i = Some b → value a ≠ value b.

Lemma expand_app rs rs' : expand (rs ++ rs') = expand rs ++ expand rs'.
Proof. apply flat_map_app. Qed.

Lemma encode_loop_spec v n values rs :
  0 < n →
  expand (RunLengthEncoding.encode_loop v n values rs) = expand rs ++ replicate (Z.to_nat n) v ++ values ∧
  length (RunLengthEncoding.encode_loop v n values rs) = RunLengthAnalyzer.count_runs v values (S (length rs)).
Proof.
  revert v n rs. induction values as [|x values IH]; intros v n rs Hn; cbn [RunLengthEncoding.encode_loop RunLengthAnalyzer.count_runs].
  - rewrite expand_app, length_app. simpl. rewrite app_nil_r. split; [done|lia].
  - destruct (Z.eqb_spec x v) as [->|Hne].
    + destruct (IH v (n + 1) rs) as [-> ->]; [lia|]. split; [|done]. f_equal.
      replace (Z.to_nat (n + 1)) with (Z.to_nat n + 1)%nat by lia. rewrite replicate_add, <- app_assoc. done.
    + destruct (IH x 1 (rs ++ [mkRun v n])) as [-> ->]; [lia|]. rewrite expand_app, length_app. simpl.
      rewrite app_nil_r, <- app_assoc. split; [done|]. f_equal. lia.
Qed.

Lemma canonical_snoc rs r :
  canonical rs → 0 < run_length r → (∀ a, last rs = Some a → value a ≠ value r) → canonical (rs ++ [r]).
Proof.
  intros [Hp Hd] Hr Hl. split; [apply Forall_app; auto|]. intros i a b Ha Hb.
  assert (S i < length rs ∨ S i = length rs)%nat as [Hlt|Heq].
  { apply lookup_lt_Some in Hb. rewrite length_app in Hb. simpl in Hb. lia. }
  - rewrite lookup_app_l in Ha, Hb by lia. by apply (Hd i).
  - rewrite lookup_app_l in Ha by lia. rewrite lookup_app_r, Heq, Nat.sub_diag in Hb by lia.
    injection Hb as <-. apply Hl. rewrite last_lookup, <- Heq. done.
Qed.

Lemma encode_loop_canonical v n values rs :
  0 < n → canonical rs → (∀ a, last rs = Some a → value a ≠ v) →
  canonical (RunLengthEncoding.encode_loop v n values rs).
Proof.
  revert v n rs. induction values as [|x values IH]; intros v n rs Hn Hc Hl; cbn [RunLengthEncoding.encode_loop].
  - by apply canonical_snoc.
  - destruct (Z.eqb_spec x v) as [->|Hne]; apply IH; try (done || lia).
    + by apply canonical_snoc.
    + intros a. rewrite last_snoc. by intros [= <-].
Qed.

Lemma encode_expand values : expand (runs (RunLengthEncoding.encode values)) = values.
Proof. destruct values as [|v values]; [done|]. exact (proj1 (encode_loop_spec v 1 values [] eq_refl)). Qed.

Lemma encode_canonical values : canonical (runs (RunLengthEncoding.encode values)).
Proof.
  assert (canonical []) as Hnil by (split; [constructor|done]).
  destruct values as [|v values]; [done|]. by apply encode_loop_canonical.
Qed.

Lemma encode_total values : total_count (RunLengthEncoding.encode values) = Z.of_nat (length values).
Proof. by destruct values. Qed.

Lemma usize_small debug x : 0 ≤ x ≤ u64_max → usize_result debug x = Some x.
Proof.
  intros Hx. unfold usize_result. rewrite (proj2 (Z.leb_le _ _)) by lia. rewrite andb_false_r. f_equal.
  apply wrap64_small. unfold is_u64, u64_max in *. lia.
Qed.

Lemma expand_cons_length r rs :
  0 ≤ run_length r → Z.of_nat (length (expand (r :: rs))) = run_length r + Z.of_nat (length (expand rs)).
Proof. intros Hr. simpl. rewrite length_app, length_replicate. lia. Qed.

Lemma sum_lengths_spec debug acc rs :
  Forall (λ r, 0 < run_length r) rs → 0 ≤ acc → acc + Z.of_nat (length (expand rs)) ≤ u64_max →
  RunLengthEncoding.sum_lengths debug acc rs = Some (acc + Z.of_nat (length (expand rs))).
Proof.
  intros Hrs. revert acc. induction Hrs as [|r rs Hr Hrs IH]; intros acc Ha Hs; [simpl; f_equal; lia|].
  rewrite expand_cons_length in * by lia. cbn [RunLengthEncoding.sum_lengths].
  rewrite usize_small by lia. simpl. rewrite IH by lia. f_equal. lia.
Qed.

Lemma get_loop_spec debug index offset rs :
  Forall (λ r, 0 < run_length r) rs → 0 ≤ offset ≤ index → offset + Z.of_nat (length (expand rs)) ≤ u64_max →
  RunLengthEncoding.get_loop debug index offset rs = Some (expand rs !! Z.to_nat (index - offset)).
Proof.
  intros Hrs. revert offset. induction Hrs as [|r rs Hr Hrs IH]; intros offset Ho Hs; [done|].
  rewrite expand_cons_length in Hs by lia. cbn [RunLengthEncoding.get_loop].
  rewrite usize_small by lia. simpl. destruct (Z.ltb_spec index (offset + run_length r)).
  - rewrite lookup_app_l, lookup_replicate_2 by (rewrite ?length_replicate; lia). done.
  - rewrite IH by lia. rewrite lookup_app_r, length_replicate by (rewrite length_replicate; lia). do 2 f_equal. lia.
Qed.

(** ** The iterator *)

(** What an iterator has still to give. *)
Definition remaining (it : RunLengthEncoding.RunLengthIterator) : list Z :=
  drop (Z.to_nat (RunLengthEncoding.within_run it)) (expand (RunLengthEncoding.it_runs it)).

Definition iter_ok (it : RunLengthEncoding.RunLengthIterator) : Prop :=
  0 ≤ RunLengthEncoding.within_run it ∧
  match RunLengthEncoding.it_runs it with
  | r :: _ => RunLengthEncoding.within_run it ≤ run_length r
  | [] => True
  end ∧ Forall (λ r, 0 < run_length r) (RunLengthEncoding.it_runs it).

Lemma next_spec it :
  iter_ok it →
  match remaining it with
  | [] => fst (RunLengthEncoding.next it) = None
  | v :: rest => ∃ it', RunLengthEncoding.next it = (Some v, it') ∧ remaining it' = rest ∧ iter_ok it'
  end.
Proof.
  destruct it as [rs w]. unfold remaining, RunLengthEncoding.next, iter_ok. simpl. intros (Hw & Hhd & Hpos).
  revert w Hw Hhd. induction Hpos as [|r rs Hr Hpos IH]; intros w Hw Hhd.
  { simpl. by rewrite drop_nil. }
  cbn [RunLengthEncoding.next_loop expand flat_map]. fold (expand rs). destruct (Z.ltb_spec w (run_length r)).
  - rewrite drop_app_le, drop_replicate by (rewrite length_replicate; lia).
    replace (Z.to_nat (run_length r) - Z.to_nat w)%nat with (S (Z.to_nat (run_length r - w - 1))) by lia. cbn [replicate app].
    eexists. split; [reflexivity|]. simpl. split; [|split; [lia|]; split; [lia|by constructor]].
    rewrite drop_app_le, drop_replicate by (rewrite length_replicate; lia). do 2 f_equal. lia.
  - rewrite drop_app_ge by (rewrite length_replicate; lia). rewrite length_replicate.
    replace (Z.to_nat w - Z.to_nat (run_length r))%nat with (Z.to_nat 0) by lia. apply IH; [lia|].
    destruct rs; [done|]. inversion Hpos. lia.
Qed.

Lemma collect_spec it fuel :
  iter_ok it → (length (remaining it) ≤ fuel)%nat → RunLengthEncoding.collect fuel it = (remaining it, true).
Proof.
  revert it. induction fuel as [|fuel IH]; intros it Hok Hlen; pose proof (next_spec it Hok) as Hn;
    destruct (remaining it) as [|v rest] eqn:Hr; cbn [RunLengthEncoding.collect].
  1,3: destruct (RunLengthEncoding.next it) as [o it']; simpl in Hn; by subst o.
  - simpl in Hlen. lia.
  - destruct Hn as (it' & -> & Hr' & Hok'). rewrite IH; [by rewrite Hr'|done|]. rewrite Hr'. simpl in Hlen. lia.
Qed.

(** ** The byte format *)

Lemma read_u64_app x rest : is_u64 x → RunLengthEncoding.read_u64 (to_le 8 x ++ rest) = Ok (x, rest).
Proof.
  intros Hx. unfold RunLengthEncoding.read_u64. rewrite length_app, to_le_length, (proj2 (Nat.ltb_ge _ _)) by lia.
  rewrite take_app_length', drop_app_length' by (by rewrite to_le_length). by rewrite from_to_le64.
Qed.

Definition run_u64 (r : Run) : Prop := is_u64 (value r) ∧ is_u64 (run_length r).

Lemma read_runs_app rs rest :
  Forall run_u64 rs →
  RunLengthEncoding.read_runs (length rs) (flat_map (λ r, to_le 8 (value r) ++ to_le 8 (run_length r)) rs ++ rest) = Ok rs.
Proof.
  induction 1 as [|[v l] rs [Hv Hl] _ IH]; [done|]. cbn [length RunLengthEncoding.read_runs flat_map value run_length].
  rewrite <- !app_assoc, read_u64_app by done. cbn [mbind result_bind]. rewrite read_u64_app by done.
  cbn [mbind result_bind]. by rewrite IH.
Qed.

Lemma expand_elem r rs : r ∈ rs → 0 < run_length r → value r ∈ expand rs.
Proof.
  intros Hr Hp. unfold expand. apply list_elem_of_In, in_flat_map. exists r. split; [by apply list_elem_of_In|].
  apply list_elem_of_In, elem_of_replicate. split; [done|lia].
Qed.

Lemma expand_length_ge r rs : r ∈ rs → run_length r ≤ Z.of_nat (length (expand rs)).
Proof.
  induction 1 as [rs|r rs x _ IH]; simpl; rewrite length_app, length_replicate; lia.
Qed.

Lemma encode_run_u64 values :
  Forall is_u64 values → Z.of_nat (length values) ≤ u64_max → Forall run_u64 (runs (RunLengthEncoding.encode values)).
Proof.
  intros Hu Hlen. destruct (encode_canonical values) as [Hpos _]. pose proof (encode_expand values) as He.
  apply Forall_forall. intros r Hr. rewrite Forall_forall in Hpos. rewrite Forall_forall in Hu. specialize (Hpos r Hr). split.
  - apply Hu. rewrite <- He. by apply expand_elem.
  - pose proof (expand_length_ge r _ Hr) as Hle. rewrite He in Hle. unfold is_u64, u64_max in *. lia.
Qed.

Lemma run_bytes debug values :
  Forall is_u64 values → Z.of_nat (length values) ≤ u64_max →
  RunLengthEncoding.capacity_ok (Z.of_nat (RunLengthAnalyzer.run_count values)) = true →
  RunLengthEncoding.from_bytes debug (RunLengthEncoding.to_bytes (RunLengthEncoding.encode values)) =
    Some (Ok (RunLengthEncoding.encode values)).
Proof.
  intros Hu Hlen Hcap. pose proof (encode_run_u64 values Hu Hlen) as Hru. pose proof (encode_expand values) as He.
  pose proof (proj1 (encode_canonical values)) as Hpos. pose proof (encode_total values) as Ht.
  assert (length (runs (RunLengthEncoding.encode values)) = RunLengthAnalyzer.run_count values) as Hn.
  { destruct values as [|v values]; [done|]. exact (proj2 (encode_loop_spec v 1 values [] eq_refl)). }
  unfold RunLengthEncoding.from_bytes, RunLengthEncoding.to_bytes.
  assert (is_u64 (Z.of_nat (length (runs (RunLengthEncoding.encode values))))).
  { unfold RunLengthEncoding.capacity_ok in Hcap. bool_to_prop. rewrite Hn. unfold is_u64. lia. }
  rewrite read_u64_app by done. rewrite Hn, Hcap, Nat2Z.id. cbn [negb].
  pose proof (read_runs_app (runs (RunLengthEncoding.encode values)) [] Hru) as Hr. rewrite app_nil_r, Hn in Hr. rewrite Hr.
  unfold RunLengthEncoding.from_runs. rewrite sum_lengths_spec by (done || rewrite He; lia). simpl.
  rewrite He. destruct (RunLengthEncoding.encode values). simpl in *. by subst.
Qed.

(** ** The claims *)

(** Run-length encoding is lossless and minimal. Decoding, random access
    (with and without overflow checks) and the iterator give the values, the
    iterator ends, no run is empty and consecutive runs differ, and the
    analyzer's estimate counts exactly the runs. *)
Theorem runs_read_back values :
  Z.of_nat (length values) ≤ u64_max →
  let e := RunLengthEncoding.encode values in
  RunLengthEncoding.decode e = values ∧
  (∀ debug i, 0 ≤ i → RunLengthEncoding.get debug i e = Some (values !! Z.to_nat i)) ∧
  RunLengthEncoding.collect (length values) (RunLengthEncoding.iter e) = (values, true) ∧
  RunLengthEncoding.run_count e = RunLengthAnalyzer.run_count values ∧
  canonical (runs e).
Proof.
  intros Hlen e. pose proof (encode_expand values) as He. pose proof (encode_canonical values) as Hc.
  split; [exact He|]. split; [|split; [|split; [|exact Hc]]].
  - intros debug i Hi. unfold RunLengthEncoding.get. unfold e. rewrite encode_total.
    destruct (Z.leb_spec (Z.of_nat (length values)) i); [by rewrite lookup_ge_None_2 by lia|].
    rewrite get_loop_spec; [by rewrite He, Z.sub_0_r|apply Hc|lia|by rewrite He].
  - assert (remaining (RunLengthEncoding.iter e) = values) as Hr by (unfold remaining; simpl; by rewrite drop_0).
    rewrite <- Hr at 2. apply collect_spec; [|by rewrite Hr]. split; [done|]. split; [|apply Hc]. simpl.
    destruct Hc as [Hpos _]. unfold e in *. destruct (runs _); [done|]. inversion Hpos. lia.
  - unfold RunLengthEncoding.run_count, e. destruct values as [|v values]; [done|].
    exact (proj2 (encode_loop_spec v 1 values [] eq_refl)).
Qed.

(** The byte format of runs round trips, the recomputed total count
    included, as long as the runs fit a vector. *)
Theorem run_bytes_read_back debug values :
  Forall is_u64 values → Z.of_nat (length values) ≤ u64_max →
  RunLengthEncoding.capacity_ok (Z.of_nat (RunLengthAnalyzer.run_count values)) = true →
  RunLengthEncoding.from_bytes debug (RunLengthEncoding.to_bytes (RunLengthEncoding.encode values)) =
    Some (Ok (RunLengthEncoding.encode values)).
Proof. apply run_bytes. Qed.

(** A corrupt run count panics. Bytes whose run count, times the 16 bytes
    of a run, exceeds [isize::MAX] make [from_bytes] panic in the allocation,
    where too short a slice should be an error. *)
Theorem corrupt_run_count_panics debug n rest :
  is_u64 n → 2 ^ 63 ≤ n * 16 → RunLengthEncoding.from_bytes debug (to_le 8 n ++ rest) = None.
Proof.
  intros Hn Hbig. unfold RunLengthEncoding.from_bytes. rewrite read_u64_app by done.
  unfold RunLengthEncoding.capacity_ok. by rewrite (proj2 (Z.leb_gt _ _)) by lia.
Qed.
