(* ===== verification/Selector.v ===== *)
(** * Codec selection

    grafeo-core/src/codec/selector.rs: the codec is chosen from the values and
    the integers are compressed with it. The choice compares estimated ratios
    of [f64]s; the section below takes the division of two integers as [f64]s
    and the comparison as parameters without laws, so that what is proved does
    not depend on rounding. *)
From S2P Require Import Prelude Bytes Bits Bitset BitPack BitPackProps Adjacency AdjacencyFacts AdjacencyProps Delta RunLength.
Open Scope Z_scope.

Inductive CompressionCodec : Set :=
  | NoCodec
  | DeltaCodec
  | BitPackedCodec (bits : nat)
  | DeltaBitPackedCodec (bits : nat)
  | DictionaryCodec
  | BitVectorCodec
  | RunLengthCodec.

Inductive CompressionMetadata : Set :=
  | NoMetadata
  | DeltaMetadata (base : Z)
  | BitPackedMetadata (count : nat)
  | DeltaBitPackedMetadata (base : Z) (count : nat)
  | DictionaryMetadata (dict_id : Z)
  | RunLengthMetadata (run_count : nat).

Record CompressedData := mkCompressed {
  codec : CompressionCodec;
  uncompressed_size : nat;
  payload : list Z;
  metadata : CompressionMetadata
}.

Inductive codec_error : Set :=
  | PackError (e : io_error)
  | RunError (e : rle_error)
  | InvalidCodec.

Definition map_err {E E' A} (f : E → E') (r : result E A) : result E' A :=
  match r with Ok a => Ok a | Err e => Err (f e) end.

Section selector.
(** [ratio a b] is [a as f64 / b as f64] and [gt] is [>] of [f64]s. *)
Context {F : Type} (ratio : Z → Z → F) (gt : F → F → bool).

(** [RunLengthAnalyzer::estimate_ratio] and [average_run_length]; the runs
    are counted as in [RunLengthAnalyzer.run_count]. *)
Definition estimate_ratio (values : list Z) : F :=
  match values with
  | [] => ratio 1 1
  | _ =>
      let encoded := Z.of_nat (RunLengthAnalyzer.run_count values) * 16 in
      if encoded =? 0 then ratio 1 1 else ratio (Z.of_nat (length values) * 8) encoded
  end.

Definition average_run_length (values : list Z) : F :=
  match values with
  | [] => ratio 0 1
  | _ => ratio (Z.of_nat (length values)) (Z.of_nat (RunLengthAnalyzer.run_count values))
  end.

Definition select_for_integers (values : list Z) : CompressionCodec :=
  if (length values <? 8)%nat then NoCodec
  else
    let rle_ratio := estimate_ratio values in
    let avg_run_length := average_run_length values in
    if gt avg_run_length (ratio 2 1) && gt rle_ratio (ratio 3 2) then RunLengthCodec
    else if DeltaEncoding.ascending values then
      let bits_needed := BitPackedInts.bits_needed (BitPackedInts.max_value (windows_sub values)) in
      let delta_ratio := ratio 64 (Z.of_nat bits_needed) in
      if gt rle_ratio delta_ratio && gt rle_ratio (ratio 1 1) then RunLengthCodec
      else DeltaBitPackedCodec bits_needed
    else
      let bits_needed := BitPackedInts.bits_needed (BitPackedInts.max_value values) in
      let bitpack_ratio := if (0 <? bits_needed)%nat then ratio 64 (Z.of_nat bits_needed) else ratio 1 1 in
      if gt rle_ratio bitpack_ratio && gt rle_ratio (ratio 1 1) then RunLengthCodec
      else if (bits_needed <? 32)%nat then BitPackedCodec bits_needed
      else NoCodec.

(** [None]: a panic ([unreachable!], or one of a codec). *)
Definition compress_integers (values : list Z) : option (result codec_error CompressedData) :=
  let c := select_for_integers values in
  let size := (length values * 8)%nat in
  match c with
  | NoCodec => Some (Ok (mkCompressed c size (words_to_bytes values) NoMetadata))
  | DeltaBitPackedCodec bits =>
      encoded ← DeltaBitPacked.encode values;
      Some (match DeltaBitPacked.to_bytes encoded with
            | Ok bytes => Ok (mkCompressed c size bytes
                                (DeltaBitPackedMetadata (to_i64 (BitPack.base encoded)) (length values)))
            | Err e => Err (PackError e)
            end)
  | BitPackedCodec bits =>
      packed ← BitPackedInts.pack values;
      Some (match BitPackedInts.to_bytes packed with
            | Ok bytes => Ok (mkCompressed c size bytes (BitPackedMetadata (length values)))
            | Err e => Err (PackError e)
            end)
  | RunLengthCodec =>
      let encoded := RunLengthEncoding.encode values in
      Some (Ok (mkCompressed c size (RunLengthEncoding.to_bytes encoded)
                  (RunLengthMetadata (RunLengthEncoding.run_count encoded))))
  | _ => None
  end.

Definition compress_signed_integers (values : list Z) : option (result codec_error CompressedData) :=
  compress_integers (map zigzag_encode values).

End selector.

Definition decompress_integers (debug : bool) (data : CompressedData) : option (result codec_error (list Z)) :=
  match codec data with
  | NoCodec => Some (Ok (read_words (length (payload data) / 8) (payload data)))
  | DeltaBitPackedCodec _ =>
      match DeltaBitPacked.from_bytes (payload data) with
      | Ok encoded => Ok <$> DeltaBitPacked.decode encoded
      | Err e => Some (Err (PackError e))
      end
  | BitPackedCodec _ =>
      match BitPackedInts.from_bytes (payload data) with
      | Ok packed => Ok <$> BitPackedInts.unpack packed
      | Err e => Some (Err (PackError e))
      end
  | RunLengthCodec =>
      match RunLengthEncoding.from_bytes debug (payload data) with
      | Some (Ok encoded) => Some (Ok (RunLengthEncoding.decode encoded))
      | Some (Err e) => Some (Err (RunError e))
      | None => None
      end
  | _ => Some (Err InvalidCodec)
  end.

(** ** Facts *)

Lemma delta_bytes values :
  Forall is_u64 values → StronglySorted Z.le values → (2 ≤ length values)%nat → Z.of_nat (length values) ≤ u32_max →
  ∃ e bytes q, DeltaBitPacked.encode values = Some e ∧ DeltaBitPacked.to_bytes e = Ok bytes ∧
    DeltaBitPacked.from_bytes bytes = Ok q ∧ DeltaBitPacked.decode q = Some values.
Proof.
  intros Hu Hs H2 Hlen. destruct values as [|a values]; [simpl in H2; lia|]. simpl in H2, Hlen.
  pose proof (windows_sub_length a values) as Hwl.
  destruct (pack_bytes (windows_sub (a :: values)) (windows_sub_u64 _ Hu)) as (p & bytes & q & Hp & Hb & Hq & _ & Hh); [lia|].
  exists (mkDelta a p), (to_le 8 a ++ bytes), (mkDelta a q). split; [unfold DeltaBitPacked.encode; by rewrite Hp|].
  split; [unfold DeltaBitPacked.to_bytes; simpl; by rewrite Hb|]. split.
  - unfold DeltaBitPacked.from_bytes. rewrite length_app, to_le_length, (proj2 (Nat.ltb_ge _ _)) by lia.
    rewrite drop_app_length', Hq by (by rewrite to_le_length). cbn [mbind result_bind].
    rewrite take_app_length' by (by rewrite to_le_length). rewrite from_to_le64; [done|]. by apply Forall_inv in Hu.
  - unfold DeltaBitPacked.decode, DeltaBitPacked.is_empty. cbn [BitPack.deltas BitPack.base]. pose proof (holds_unpack _ _ Hh) as ->.
    destruct Hh as [-> _]. rewrite Hwl, (proj2 (Nat.eqb_neq _ _)) by lia. cbn [andb mbind option_bind].
    by rewrite running_sum_windows.
Qed.

Lemma run_count_le values : (RunLengthAnalyzer.run_count values ≤ length values)%nat.
Proof.
  destruct values as [|v values]; [done|]. simpl.
  assert (∀ p vs n, (RunLengthAnalyzer.count_runs p vs n ≤ n + length vs)%nat) as Hle; [|specialize (Hle v values 1%nat); lia].
  intros p vs. revert p. induction vs as [|x vs IH]; intros p n; simpl; [lia|].
  specialize (IH x (if x =? p then n else S n)). destruct (x =? p); lia.
Qed.

(** The codec chosen is one the compressor has, and packs deltas only of
    sorted values. *)
Lemma select_cases {F} (ratio : Z → Z → F) gt values :
  match select_for_integers ratio gt values with
  | NoCodec | BitPackedCodec _ | RunLengthCodec => True
  | DeltaBitPackedCodec _ => StronglySorted Z.le values ∧ (8 ≤ length values)%nat
  | _ => False
  end.
Proof.
  unfold select_for_integers. destruct (Nat.ltb_spec (length values) 8); [done|]. destruct (_ && _); [done|].
  destruct (DeltaEncoding.ascending values) eqn:Ha.
  - apply ascending_spec in Ha. by destruct (_ && _).
  - destruct (_ && _); [done|]. by destruct (_ <? _)%nat.
Qed.

(** ** The claim *)

(** Compressing with the selected codec is lossless. For at most
    [u32::MAX] values and whatever the estimated ratios compare to,
    compression succeeds with one of its codecs and decompression gives the
    values back. *)
Theorem compression_is_lossless {F} (ratio : Z → Z → F) gt debug values :
  Forall is_u64 values → Z.of_nat (length values) ≤ u32_max →
  ∃ c, compress_integers ratio gt values = Some (Ok c) ∧ decompress_integers debug c = Some (Ok values).
Proof.
  intros Hu Hlen. unfold compress_integers, decompress_integers. pose proof (select_cases ratio gt values) as Hsel.
  destruct (select_for_integers ratio gt values) as [| |b|b| | |]; try done.
  - eexists. split; [reflexivity|]. cbn [codec payload]. do 2 f_equal.
    rewrite words_to_bytes_length, Nat.div_mul by lia. pose proof (read_words_app values [] Hu) as Hr. by rewrite app_nil_r in Hr.
  - destruct (pack_bytes values Hu Hlen) as (p & bytes & q & -> & Hb & Hq & _ & Hh). cbn [mbind option_bind]. rewrite Hb.
    eexists. split; [reflexivity|]. cbn [codec payload]. by rewrite Hq, (holds_unpack _ _ Hh).
  - destruct Hsel as [Hs H8]. destruct (delta_bytes values Hu Hs) as (e & bytes & q & -> & Hb & Hq & Hd); [lia|done|].
    cbn [mbind option_bind]. rewrite Hb. eexists. split; [reflexivity|]. cbn [codec payload]. by rewrite Hq, Hd.
  - eexists. split; [reflexivity|]. cbn [codec payload]. rewrite run_bytes; [|done|unfold u32_max, u64_max in *; lia|].
    + do 2 f_equal. apply encode_expand.
    + unfold RunLengthEncoding.capacity_ok. apply Z.leb_le. pose proof (run_count_le values). unfold u32_max in *. lia.
Qed.

(** ** Codecs and adjacency: the properties at concrete inputs *)
Open Scope Z_scope.

Ltac all_u64 := repeat constructor; vm_compute; intuition congruence.
Ltac all_sorted := repeat (apply SSorted_cons || apply SSorted_nil || constructor); lia.

Lemma pack_reads_back_witness :
  ∃ p, BitPackedInts.pack [5; 2; 300; u64_max] = Some p ∧ BitPackedInts.get 2 p = Some (Some 300).
Proof.
  destruct (pack_reads_back [5; 2; 300; u64_max]) as (p & Hp & [_ Hget _]); [all_u64|].
  exists p. split; [exact Hp|exact (Hget 2%nat)].
Defined.

Lemma packed_bytes_read_back_witness :
  ∃ p bytes q, BitPackedInts.pack [5; 2; 300] = Some p ∧ BitPackedInts.to_bytes p = Ok bytes ∧
    BitPackedInts.from_bytes bytes = Ok q ∧ BitPackedInts.scan_eq 2 q = Some [1%nat].
Proof.
  destruct (packed_bytes_read_back [5; 2; 300]) as (p & bytes & q & Hp & Hb & Hq & [_ _ Hscan]); [all_u64|vm_compute; congruence|].
  exists p, bytes, q. split; [exact Hp|]. split; [exact Hb|]. split; [exact Hq|].
  exact (Hscan 2 ltac:(vm_compute; intuition congruence)).
Defined.

Lemma pack_with_bits_outcome_witness :
  ∃ i v, BitPackedInts.pack_with_bits [3; 9; 2] 3 = Some (Err (DoesNotFit i v)) ∧ [3; 9; 2] !! i = Some v ∧ 2 ^ 3 ≤ v.
Proof.
  pose proof (pack_with_bits_outcome [3; 9; 2] 3 ltac:(all_u64)) as H.
  exists 1%nat, 9. split; [reflexivity|]. change (BitPackedInts.pack_with_bits [3; 9; 2] 3) with (Some (@Err io_error BitPackedInts (DoesNotFit 1 9))) in H.
  destruct H as (i & v & Heq & Hi & Hle & _). injection Heq as <- <-. split; [exact Hi|exact Hle].
Defined.

Lemma accepted_bytes_are_readable_witness :
  ∃ p values, BitPackedInts.from_bytes [4; 2; 0; 0; 0; 165; 0; 0; 0; 0; 0; 0; 0] = Ok p ∧
    BitPackedInts.unpack p = Some values ∧ length values = 2%nat.
Proof.
  destruct (accepted_bytes_are_readable [4; 2; 0; 0; 0; 165; 0; 0; 0; 0; 0; 0; 0]
    (mkPacked (Mapped [165; 0; 0; 0; 0; 0; 0; 0]) 4 2)) as (values & Hv & Hlen & _).
  - vm_compute. congruence.
  - all_u64.
  - reflexivity.
  - eexists _, values. split; [reflexivity|]. split; [exact Hv|exact Hlen].
Defined.

Lemma delta_reads_back_witness :
  ∃ e, DeltaBitPacked.encode [10; 10; 15; 1000] = Some e ∧ DeltaBitPacked.decode e = Some [10; 10; 15; 1000].
Proof.
  destruct (delta_reads_back [10; 10; 15; 1000]) as (e & He & Hd & _); [all_u64|all_sorted|].
  exists e. split; [exact He|exact Hd].
Defined.

Lemma zigzag_bijection_witness : zigzag_decode (zigzag_encode (-3)) = -3 ∧ zigzag_encode (-3) = 5.
Proof.
  split; [|reflexivity]. exact (proj2 (proj1 zigzag_bijection (-3) ltac:(vm_compute; intuition congruence))).
Defined.

Lemma signed_deltas_read_back_witness :
  ∃ e, DeltaEncoding.encode_signed true [5; -7; 0] = Some e ∧ DeltaEncoding.decode_signed true e = Some [5; -7; 0].
Proof.
  destruct (signed_deltas_read_back true [5; -7; 0]) as (e & He & _ & Hd); [all_u64|intros _; vm_compute; intuition congruence|].
  exists e. split; [exact He|exact Hd].
Defined.

Lemma deltas_bytes_read_back_witness :
  ∃ e, DeltaEncoding.encode true [1; 4; 4; 90] = Some e ∧ DeltaEncoding.decode e = [1; 4; 4; 90] ∧
       DeltaEncoding.from_bytes (DeltaEncoding.to_bytes e) = Ok e.
Proof. apply (deltas_bytes_read_back true [1; 4; 4; 90]); [all_u64|all_sorted|vm_compute; congruence]. Defined.

Lemma runs_read_back_witness :
  RunLengthEncoding.get true 3 (RunLengthEncoding.encode [7; 7; 7; 2; 2]) = Some (Some 2).
Proof.
  destruct (runs_read_back [7; 7; 7; 2; 2]) as (_ & Hget & _); [vm_compute; congruence|].
  exact (Hget true 3 ltac:(lia)).
Defined.

Lemma run_bytes_read_back_witness :
  RunLengthEncoding.from_bytes true (RunLengthEncoding.to_bytes (RunLengthEncoding.encode [7; 7; 7; 2; 2])) =
    Some (Ok (RunLengthEncoding.encode [7; 7; 7; 2; 2])).
Proof. apply (run_bytes_read_back true [7; 7; 7; 2; 2]); [all_u64|vm_compute; congruence|reflexivity]. Defined.

Lemma corrupt_run_count_panics_witness :
  RunLengthEncoding.from_bytes false [255; 255; 255; 255; 255; 255; 255; 255] = None.
Proof. exact (corrupt_run_count_panics false u64_max [] ltac:(vm_compute; intuition congruence) ltac:(vm_compute; congruence)). Defined.

(** Ratios as fractions, compared by cross multiplication. *)
Lemma compression_is_lossless_witness :
  ∃ c, compress_integers (λ a b, (a, b)) (λ x y, y.1 * x.2 <? x.1 * y.2) [1; 2; 4; 8; 16; 32; 64; 128] = Some (Ok c) ∧
       codec c = DeltaBitPackedCodec 7 ∧ decompress_integers true c = Some (Ok [1; 2; 4; 8; 16; 32; 64; 128]).
Proof.
  destruct (compression_is_lossless (λ a b, (a, b)) (λ x y, y.1 * x.2 <? x.1 * y.2) true [1; 2; 4; 8; 16; 32; 64; 128])
    as (c & Hc & Hd); [all_u64|vm_compute; congruence|].
  exists c. split; [exact Hc|]. split; [|exact Hd]. vm_compute in Hc. injection Hc as <-. reflexivity.
Defined.



(** A range with its bounds the wrong way round. Three edges read from 4 to 2
    give none while they are in a chunk, and panic once they are frozen. *)
Example reversed_range_panics :
  let ops := [BatchAddEdges [(1, 1, 101); (1, 3, 103); (1, 5, 105)]; Compact] in
  (a ← run_ops ops (ChunkedAdjacency.with_chunk_capacity 4); ChunkedAdjacency.edges_in_range 1 4 2 a) = Some [] ∧
  ∃ a, run_ops (ops ++ [FreezeAll]) (ChunkedAdjacency.with_chunk_capacity 4) = Some a ∧
    ChunkedAdjacency.out_degree 1 a = Some 3%nat ∧ ChunkedAdjacency.edges_in_range 1 4 2 a = None.
Proof.
  intros ops. split; [vm_compute; reflexivity|]. eexists. split; [vm_compute; reflexivity|]. split; vm_compute; reflexivity.
Qed.

Lemma frozen_edge_to_node_zero_is_lost_witness :
  ∃ a, run_ops [AddEdge 1 0 5; Compact; FreezeAll] ChunkedAdjacency.new = Some a ∧ ChunkedAdjacency.edges_from 1 a = Some [].
Proof.
  destruct (frozen_edge_to_node_zero_is_lost 1 5) as (_ & a & Ha & He & _); [vm_compute; intuition congruence|].
  exists a. split; [exact Ha|exact He].
Defined.
