(* ===== verification/RowVersions.v ===== *)
(** * The versions of a row group's rows

    grafeo-core/src/graph/rowgroup/versions.rs, with the readers and row
    versions of rowgroup/mod.rs. The rows of a group come in vectors of 2,048;
    a vector is flat (a bit per row) while every reader sees its rows alike,
    and stamped otherwise. Fixed arrays and boxed slices are lists of their
    length; an index into one is below it whenever the row is below 2,048,
    which every caller ensures, so a lookup's default value is never read
    where the source would panic. *)
From S2P Require Import Prelude Bits Bitset.
Open Scope Z_scope.

(** ** Stamps and readers *)

Definition ABSENT : Z := u64_max.
Definition PENDING : Z := Z.shiftl 1 63.

(** [stamp & PENDING != 0]. *)
Definition is_pending (stamp : Z) : bool := negb (Z.land stamp PENDING =? 0).

Inductive Read : Set :=
  | ReadTransaction (id snapshot : Z)
  | ReadAt (epoch : Z).

Definition sees (r : Read) (stamp : Z) : bool :=
  if stamp =? ABSENT then false
  else if is_pending stamp then
    match r with
    | ReadTransaction id _ => id =? Z.land stamp (not64 PENDING)
    | ReadAt _ => false
    end
  else match r with
       | ReadTransaction _ snapshot => stamp <=? snapshot
       | ReadAt epoch => stamp <=? epoch
       end.

Record RowVersion := mkVersion { created : Z; deleted : Z }.

Definition NONE : RowVersion := mkVersion ABSENT ABSENT.
Definition ALWAYS : RowVersion := mkVersion 0 ABSENT.

Definition row_visible (r : Read) (v : RowVersion) : bool :=
  sees r (created v) && negb (sees r (deleted v)).

Definition VECTOR_ROWS : nat := 2048.
Definition WORDS : nat := VECTOR_ROWS / 64.
Definition FEW_DELETES : nat := 32.

Definition stamp_array : list Z := replicate VECTOR_ROWS ABSENT.

(** The stamp of a row in an array. *)
Definition stamp_at (row : nat) (l : list Z) : Z :=
  match l !! row with Some s => s | None => ABSENT end.

(** ** Deletes *)

Inductive DeleteStamps : Type :=
  | Few (few : list (nat * Z))
  | PerRowStamps (stamps : list Z).

Record Deletes := mkDeletes { delete_rows : list Z; delete_stamps : DeleteStamps }.

Module Deletes.

Definition new : Deletes := mkDeletes (replicate WORDS 0) (Few []).

Definition search (row : nat) (few : list (nat * Z)) : search_result :=
  binary_search_by_key (λ p, Z.of_nat p.1) (Z.of_nat row) few.

Definition get (row : nat) (d : Deletes) : Z :=
  if Z.land (Bitset.word (row / 64) (delete_rows d)) (bit64 (row mod 64)) =? 0 then ABSENT
  else match delete_stamps d with
       | Few few =>
           match search row few with
           | Found place => match few !! place with Some p => p.2 | None => ABSENT end
           | InsertAt _ => ABSENT
           end
       | PerRowStamps stamps => stamp_at row stamps
       end.

(** The match of [set] on the search and the stamp. *)
Definition set_few (row : nat) (stamp : Z) (few : list (nat * Z)) : DeleteStamps :=
  match search row few with
  | Found place =>
      if stamp =? ABSENT then Few (vec_remove place few)
      else Few (alter (λ p, (p.1, stamp)) place few)
  | InsertAt place =>
      if stamp =? ABSENT then Few few
      else if (length few <? FEW_DELETES)%nat then Few (vec_insert place (row, stamp) few)
      else PerRowStamps
             (<[row := stamp]> (fold_left (λ stamps p, <[p.1 := p.2]> stamps) few stamp_array))
  end.

Definition set (row : nat) (stamp : Z) (d : Deletes) : Deletes :=
  mkDeletes
    (alter (λ w, if stamp =? ABSENT then Z.land w (not64 (bit64 (row mod 64)))
                 else Z.lor w (bit64 (row mod 64))) (row / 64)%nat (delete_rows d))
    (match delete_stamps d with
     | PerRowStamps stamps => PerRowStamps (<[row := stamp]> stamps)
     | Few few => set_few row stamp few
     end).

(** The rows of [exists] with a delete stamp, ascending, each with it. *)
Definition of_exists (exists_ : list Z) (d : Deletes) : list (nat * Z) :=
  map (λ row, (row, get row d))
    (flat_map (λ '(index, word),
       map (λ bit, (index * 64 + bit)%nat) (bits_of (Z.land word (Bitset.word index exists_))))
       (zip (seq 0 (length (delete_rows d))) (delete_rows d))).

End Deletes.

(** ** Inserts *)

Record PerRowInserts := mkInserts { insert_stamps : list Z; written : list Z }.

Inductive Inserts : Type :=
  | Constant (stamp : Z)
  | PerRow (inserts : PerRowInserts).

Module PerRowInserts.

Definition of_constant (exists_ : list Z) (constant : Z) : PerRowInserts :=
  mkInserts (fold_left (λ stamps row, <[row := constant]> stamps) (Bitset.rows exists_) stamp_array)
    (map (λ at_, Bitset.word at_ exists_) (seq 0 WORDS)).

Definition set (row : nat) (stamp : Z) (i : PerRowInserts) : PerRowInserts :=
  mkInserts (<[row := stamp]> (insert_stamps i))
    (alter (λ w, Z.lor w (bit64 (row mod 64))) (row / 64)%nat (written i)).

End PerRowInserts.

(** ** A stamped vector *)

Record Stamped := mkStamped {
  exists_rows : list Z;
  inserts : Inserts;
  deletes : option Deletes
}.

Module Stamped.

Definition from_flat (exists_ : list Z) : Stamped := mkStamped exists_ (Constant (created ALWAYS)) None.

Definition creator (row : nat) (s : Stamped) : Z :=
  match inserts s with
  | Constant stamp => stamp
  | PerRow i => stamp_at row (insert_stamps i)
  end.

Definition deleter (row : nat) (s : Stamped) : Z :=
  match deletes s with Some d => Deletes.get row d | None => ABSENT end.

Definition get (row : nat) (s : Stamped) : RowVersion :=
  if negb (Bitset.get row (exists_rows s)) then NONE
  else mkVersion (creator row s) (deleter row s).

(** The one version every row that exists has, when the rows share it. *)
Definition uniform (s : Stamped) : option RowVersion :=
  match inserts s, deletes s with
  | Constant c, None => Some (mkVersion c ABSENT)
  | _, _ => None
  end.

Definition others_created_by (row : nat) (stamp : Z) (s : Stamped) : bool :=
  match inserts s with
  | Constant constant =>
      (constant =? stamp) || forallb (λ other, (other =? row)%nat) (Bitset.rows (exists_rows s))
  | PerRow _ => false
  end.

Definition set_created (row : nat) (stamp : Z) (s : Stamped) : Stamped :=
  let i := match inserts s with
           | PerRow i => PerRow (PerRowInserts.set row stamp i)
           | Constant constant =>
               if others_created_by row stamp s then Constant stamp
               else PerRow (PerRowInserts.set row stamp (PerRowInserts.of_constant (exists_rows s) constant))
           end in
  mkStamped (Bitset.set row (exists_rows s)) i (deletes s).

Definition set_deleted (row : nat) (stamp : Z) (s : Stamped) : Stamped :=
  mkStamped (exists_rows s) (inserts s)
    (match deletes s with
     | Some d => Some (Deletes.set row stamp d)
     | None => if stamp =? ABSENT then None else Some (Deletes.set row stamp Deletes.new)
     end).

Definition remove (row : nat) (s : Stamped) : Stamped :=
  mkStamped (Bitset.clear row (exists_rows s))
    (match inserts s with
     | PerRow i => PerRow (mkInserts (<[row := ABSENT]> (insert_stamps i)) (written i))
     | Constant c => Constant c
     end)
    (Deletes.set row ABSENT <$> deletes s).

(** Commits [from]'s creates among the rows [start..end_] at [to]; the rows
    [from] created. *)
Definition commit_created (start end_ : nat) (from to : Z) (s : Stamped) : Stamped * list nat :=
  match inserts s with
  | Constant constant =>
      if (constant =? from) || (constant =? to) then
        (mkStamped (exists_rows s) (Constant to) (deletes s),
         List.filter (λ row, (start <=? row)%nat && (row <? end_)%nat) (Bitset.rows (exists_rows s)))
      else (s, [])
  | PerRow i =>
      let '(i', committed) :=
        fold_left (λ '(i, committed) row,
          if stamp_at row (insert_stamps i) =? from
          then (PerRowInserts.set row to i, committed ++ [row]) else (i, committed))
          (seq start (end_ - start)) (i, []) in
      (mkStamped (exists_rows s) (PerRow i') (deletes s), committed)
  end.

Definition settled (horizon stamp : Z) : bool := negb (is_pending stamp) && (stamp <=? horizon).

Definition deletes_settled (horizon : Z) (s : Stamped) : bool :=
  match deletes s with
  | None => true
  | Some d => forallb (λ p, (p.2 =? ABSENT) || settled horizon p.2) (Deletes.of_exists (exists_rows s) d)
  end.

Definition settled_by_written (horizon : Z) (s : Stamped) : bool :=
  match inserts s with
  | Constant stamp => Bitset.is_empty (exists_rows s) || settled horizon stamp
  | PerRow i =>
      forallb (λ '(at_, w),
        forallb (λ bit, settled horizon (stamp_at (at_ * 64 + bit) (insert_stamps i)))
          (bits_of (Z.land w (Bitset.word at_ (exists_rows s)))))
        (zip (seq 0 (length (written i))) (written i))
  end && deletes_settled horizon s.

Definition settled_by (horizon : Z) (s : Stamped) : bool :=
  match inserts s with
  | Constant stamp => Bitset.is_empty (exists_rows s) || settled horizon stamp
  | PerRow i => forallb (λ row, settled horizon (stamp_at row (insert_stamps i))) (Bitset.rows (exists_rows s))
  end && deletes_settled horizon s.

End Stamped.

(** ** The vectors of a group *)

Inductive Vector : Type :=
  | Flat (exists_ : list Z)
  | StampedVector (s : Stamped).

Module Versions.

Definition get (row : nat) (v : list Vector) : RowVersion :=
  match v !! (row / VECTOR_ROWS)%nat with
  | None => NONE
  | Some (Flat e) => if Bitset.get (row mod VECTOR_ROWS) e then ALWAYS else NONE
  | Some (StampedVector s) => Stamped.get (row mod VECTOR_ROWS) s
  end.

(** [resize_with(index + 1, Vector::default)] when the vector is missing. *)
Definition grow_to (index : nat) (v : list Vector) : list Vector :=
  if (length v <=? index)%nat then resize (S index) (Flat []) v else v.

Definition stamped_of (x : Vector) : Stamped :=
  match x with Flat e => Stamped.from_flat e | StampedVector s => s end.

(** [stamped_mut(index)] and the change [f] made through it. *)
Definition stamped_mut (index : nat) (f : Stamped → Stamped) (v : list Vector) : list Vector :=
  alter (λ x, StampedVector (f (stamped_of x))) index (grow_to index v).

Definition visible (row : nat) (r : Read) (v : list Vector) : bool :=
  match v !! (row / VECTOR_ROWS)%nat with
  | None => false
  | Some (Flat e) => Bitset.get (row mod VECTOR_ROWS) e
  | Some (StampedVector s) => row_visible r (Stamped.get (row mod VECTOR_ROWS) s)
  end.

Definition row_exists (row : nat) (v : list Vector) : bool :=
  match v !! (row / VECTOR_ROWS)%nat with
  | None => false
  | Some (Flat e) => Bitset.get (row mod VECTOR_ROWS) e
  | Some (StampedVector s) => Bitset.get (row mod VECTOR_ROWS) (exists_rows s)
  end.

Definition row_deleted (row : nat) (v : list Vector) : Z :=
  match v !! (row / VECTOR_ROWS)%nat with
  | Some (StampedVector s) => Stamped.deleter (row mod VECTOR_ROWS) s
  | Some (Flat _) | None => ABSENT
  end.

(** Of the rows of word [index] that [asked] names, those [r] sees. *)
Definition visible_word (index : nat) (asked : Z) (r : Read) (v : list Vector) : Z :=
  if asked =? 0 then 0
  else match v !! (index / WORDS)%nat with
  | None => 0
  | Some (Flat e) => Z.land asked (Bitset.word (index mod WORDS) e)
  | Some (StampedVector s) =>
      let e := Z.land asked (Bitset.word (index mod WORDS) (exists_rows s)) in
      match Stamped.uniform s with
      | Some version => if row_visible r version then e else 0
      | None =>
          let offset := ((index mod WORDS) * 64)%nat in
          fold_left (λ seen bit,
            if row_visible r (Stamped.get (offset + bit) s) then Z.lor seen (bit64 bit) else seen)
            (bits_of e) 0
      end
  end.

(** The rows the loop of a scan calls its function with. *)
Definition for_each_visible (rows : list Z) (r : Read) (v : list Vector) : list nat :=
  flat_map (λ '(index, asked),
    map (λ bit, (index * 64 + bit)%nat) (bits_of (visible_word index asked r v)))
    (zip (seq 0 (length rows)) rows).

Definition for_each_visible_row (r : Read) (v : list Vector) : list nat :=
  flat_map (λ index, map (λ bit, (index * 64 + bit)%nat) (bits_of (visible_word index u64_max r v)))
    (seq 0 (length v * WORDS)).

Definition count_visible (r : Read) (v : list Vector) : nat :=
  sum_list (map (λ index, count_ones (visible_word index u64_max r v)) (seq 0 (length v * WORDS))).

Definition set_created (row : nat) (stamp : Z) (v : list Vector) : list Vector :=
  stamped_mut (row / VECTOR_ROWS) (Stamped.set_created (row mod VECTOR_ROWS) stamp) v.

Definition set_deleted (row : nat) (stamp : Z) (v : list Vector) : list Vector :=
  stamped_mut (row / VECTOR_ROWS) (Stamped.set_deleted (row mod VECTOR_ROWS) stamp) v.

(** Adds a committed row to the runs. *)
Definition push_run (row : nat) (runs : list (nat * nat)) : list (nat * nat) :=
  match last runs with
  | Some run => if (run.2 =? row)%nat then alter (λ q, (q.1, S q.2)) (length runs - 1)%nat runs
                else runs ++ [(row, S row)]
  | None => runs ++ [(row, S row)]
  end.

(** The loop of [commit_created], a vector a turn. *)
Fixpoint commit_loop (fuel start end_ : nat) (from to : Z) (v : list Vector) (runs : list (nat * nat))
  : list Vector * list (nat * nat) :=
  match fuel with
  | O => (v, runs)
  | S fuel' =>
      if (start <? end_)%nat then
        let index := (start / VECTOR_ROWS)%nat in
        let base := (index * VECTOR_ROWS)%nat in
        let stop := Nat.min end_ (base + VECTOR_ROWS) in
        match v !! index with
        | Some (StampedVector s) =>
            let '(s', rows) := Stamped.commit_created (start - base) (stop - base) from to s in
            commit_loop fuel' stop end_ from to (<[index := StampedVector s']> v)
              (fold_left (λ runs row, push_run (base + row) runs) rows runs)
        | _ => commit_loop fuel' stop end_ from to v runs
        end
      else (v, runs)
  end.

(** Each turn moves [start] on, so [end_] turns are enough. *)
Definition commit_created (start end_ : nat) (from to : Z) (v : list Vector) : list Vector * list (nat * nat) :=
  commit_loop (S end_) start end_ from to v [].

Definition set_always (row : nat) (v : list Vector) : list Vector :=
  let offset := (row mod VECTOR_ROWS)%nat in
  alter (λ x, match x with
              | Flat e => Flat (Bitset.set offset e)
              | StampedVector s =>
                  StampedVector (Stamped.set_deleted offset ABSENT (Stamped.set_created offset (created ALWAYS) s))
              end) (row / VECTOR_ROWS)%nat (grow_to (row / VECTOR_ROWS) v).

Definition remove (row : nat) (v : list Vector) : list Vector :=
  let offset := (row mod VECTOR_ROWS)%nat in
  alter (λ x, match x with
              | Flat e => Flat (Bitset.clear offset e)
              | StampedVector s => StampedVector (Stamped.remove offset s)
              end) (row / VECTOR_ROWS)%nat v.

(** The rows that exist, each with its version. *)
Definition rows (v : list Vector) : list (nat * RowVersion) :=
  flat_map (λ '(index, x),
    let base := (index * VECTOR_ROWS)%nat in
    map (λ p : nat * RowVersion, ((base + p.1)%nat, p.2))
      (match x with
       | Flat e => map (λ row, (row, ALWAYS)) (Bitset.rows e)
       | StampedVector s => map (λ row, (row, Stamped.get row s)) (Bitset.rows (exists_rows s))
       end)) (zip (seq 0 (length v)) v).

(** A word of [collapse_into]: what stays of it and the rows that are gone. *)
Definition collapse_word (base at_ : nat) (w : Z) (d : Deletes) (gone : list nat) : Z * list nat :=
  fold_left (λ '(kept, gone) bit,
    if negb (Deletes.get (at_ * 64 + bit) d =? ABSENT)
    then (Z.land kept (not64 (bit64 bit)), gone ++ [(base + at_ * 64 + bit)%nat])
    else (kept, gone))
    (bits_of (Z.land w (Bitset.word at_ (delete_rows d)))) (w, gone).

Definition collapse_into (index : nat) (horizon : Z) (v : list Vector) (gone : list nat)
  : list Vector * list nat :=
  match v !! index with
  | Some (StampedVector s) =>
      if negb (Stamped.settled_by horizon s) then (v, gone)
      else
        let base := (index * VECTOR_ROWS)%nat in
        let '(e, gone') :=
          fold_left (λ '(e, gone) '(at_, w),
            let '(kept, gone') :=
              match deletes s with
              | Some d => collapse_word base at_ w d gone
              | None => (w, gone)
              end in
            (Bitset.set_word at_ kept e, gone'))
            (zip (seq 0 (length (exists_rows s))) (exists_rows s)) ([], gone) in
        (<[index := Flat e]> v, gone')
  | _ => (v, gone)
  end.

Definition collapse (horizon : Z) (v : list Vector) : list Vector * list nat :=
  fold_left (λ '(v, gone) index, collapse_into index horizon v gone) (seq 0 (length v)) (v, []).

Definition collapse_vector (index : nat) (horizon : Z) (v : list Vector) : list Vector * list nat :=
  match v !! index with
  | Some (StampedVector s) =>
      if negb (Stamped.settled_by_written horizon s) then (v, [])
      else
        let base := (index * VECTOR_ROWS)%nat in
        let '(e, gone) :=
          match deletes s with
          | Some d =>
              fold_left (λ '(e, gone) '(at_, w),
                fold_left (λ '(e, gone) bit,
                  if negb (Deletes.get (at_ * 64 + bit) d =? ABSENT)
                  then (Bitset.clear (at_ * 64 + bit) e, gone ++ [(base + at_ * 64 + bit)%nat])
                  else (e, gone))
                  (bits_of (Z.land w (Bitset.word at_ e))) (e, gone))
                (zip (seq 0 (length (delete_rows d))) (delete_rows d)) (exists_rows s, [])
          | None => (exists_rows s, [])
          end in
        (<[index := Flat (Bitset.trim e)]> v, gone)
  | _ => (v, [])
  end.

Definition is_stamped (index : nat) (v : list Vector) : bool :=
  match v !! index with Some (StampedVector _) => true | _ => false end.

Definition is_empty (v : list Vector) : bool :=
  forallb (λ x, match x with Flat e => Bitset.is_empty e | StampedVector _ => false end) v.

(** The vectors that hold stamps, with their first row. *)
Definition stamped_vectors (v : list Vector) : list (nat * Stamped) :=
  omap (λ '(index, x), match x with
                       | StampedVector s => Some ((index * VECTOR_ROWS)%nat, s)
                       | Flat _ => None
                       end) (zip (seq 0 (length v)) v).

Definition stamped_rows (v : list Vector) : list nat :=
  flat_map (λ '(base, s), map (λ row, (base + row)%nat) (Bitset.rows (exists_rows s))) (stamped_vectors v).

Definition deleted_by (horizon : Z) (v : list Vector) : list nat :=
  flat_map (λ '(base, s),
    match deletes s with
    | None => []
    | Some d =>
        map (λ p : nat * Z, (base + p.1)%nat)
          (List.filter (λ p, negb (p.2 =? ABSENT) && negb (is_pending p.2) && (p.2 <=? horizon))
             (Deletes.of_exists (exists_rows s) d))
    end) (stamped_vectors v).

End Versions.
