(* ===== verification/RowVersionFacts.v ===== *)
(** * The stamps of a vector

    Each form a vector keeps its stamps in (a short list or an array of
    delete stamps behind a bit per row, one constant create stamp or an array
    of them, a flat bitset) means a function from rows to stamps, and every
    operation is shown to be the update of that function. *)
From S2P Require Import Prelude Bits Bitset RowVersions.
Open Scope Z_scope.

#[local] Opaque VECTOR_ROWS.
#[local] Arguments Nat.div : simpl never.
#[local] Arguments Nat.modulo : simpl never.

Lemma VECTOR_ROWS_words : (VECTOR_ROWS = WORDS * 64)%nat.
Proof. reflexivity. Qed.

Lemma row_word row : (row < VECTOR_ROWS)%nat → (row / 64 < WORDS)%nat.
Proof. rewrite VECTOR_ROWS_words. intros. apply Nat.Div0.div_lt_upper_bound. lia. Qed.

Lemma stamp_at_insert r row st l :
  (row < length l)%nat → stamp_at r (<[row := st]> l) = if (r =? row)%nat then st else stamp_at r l.
Proof.
  intros Hlt. unfold stamp_at. destruct (Nat.eqb_spec r row) as [->|Hne].
  - by rewrite list_lookup_insert_eq.
  - by rewrite list_lookup_insert_ne.
Qed.

Lemma stamp_at_array r : stamp_at r stamp_array = ABSENT.
Proof. unfold stamp_at, stamp_array. case_match eqn:Hr; [|done]. by apply lookup_replicate in Hr as [-> _]. Qed.

Lemma stamp_array_length : length stamp_array = VECTOR_ROWS.
Proof. apply length_replicate. Qed.

(** ** The short list *)

(** The stamp of a row in the short list. *)
Definition few_get (row : nat) (few : list (nat * Z)) : Z :=
  match Deletes.search row few with
  | Found place => match few !! place with Some p => p.2 | None => ABSENT end
  | InsertAt _ => ABSENT
  end.

Definition few_remove (row : nat) (few : list (nat * Z)) : list (nat * Z) :=
  match Deletes.search row few with Found place => vec_remove place few | InsertAt _ => few end.

Definition few_put (row : nat) (st : Z) (few : list (nat * Z)) : list (nat * Z) :=
  match Deletes.search row few with
  | Found place => alter (λ p, (p.1, st)) place few
  | InsertAt place => vec_insert place (row, st) few
  end.

Definition few_ok (few : list (nat * Z)) : Prop :=
  StronglySorted (λ p q, (p.1 < q.1)%nat) few ∧
  Forall (λ p, (p.1 < VECTOR_ROWS)%nat ∧ p.2 ≠ ABSENT) few.

Lemma few_ok_cons p l :
  few_ok (p :: l) ↔ (p.1 < VECTOR_ROWS)%nat ∧ p.2 ≠ ABSENT ∧ Forall (λ q, (p.1 < q.1)%nat) l ∧ few_ok l.
Proof.
  unfold few_ok. split.
  - intros [Hs Hp]. inversion_clear Hs. inversion_clear Hp. naive_solver.
  - intros (? & ? & ? & ? & ?). split; by constructor.
Qed.

Lemma search_cons row a s l :
  Deletes.search row ((a, s) :: l) =
    if (a <? row)%nat then match Deletes.search row l with
                           | Found i => Found (S i)
                           | InsertAt i => InsertAt (S i)
                           end
    else if (a =? row)%nat then Found 0 else InsertAt 0.
Proof.
  unfold Deletes.search, binary_search_by_key. simpl.
  destruct (Z.ltb_spec (Z.of_nat a) (Z.of_nat row)), (Nat.ltb_spec a row); try lia; simpl.
  - destruct (l !! _) as [x|]; [by destruct (_ =? _)|done].
  - destruct (Z.eqb_spec (Z.of_nat a) (Z.of_nat row)), (Nat.eqb_spec a row); (done || lia).
Qed.

Lemma few_get_cons row a s l :
  few_get row ((a, s) :: l) =
    if (a <? row)%nat then few_get row l else if (a =? row)%nat then s else ABSENT.
Proof.
  unfold few_get. rewrite search_cons. destruct (a <? row)%nat; [by destruct (Deletes.search row l)|].
  by destruct (a =? row)%nat.
Qed.

Lemma few_remove_cons row a s l :
  few_remove row ((a, s) :: l) =
    if (a <? row)%nat then (a, s) :: few_remove row l else if (a =? row)%nat then l else (a, s) :: l.
Proof.
  unfold few_remove. rewrite search_cons. destruct (a <? row)%nat; [by destruct (Deletes.search row l)|].
  by destruct (a =? row)%nat.
Qed.

Lemma few_put_cons row st a s l :
  few_put row st ((a, s) :: l) =
    if (a <? row)%nat then (a, s) :: few_put row st l
    else if (a =? row)%nat then (a, st) :: l else (row, st) :: (a, s) :: l.
Proof.
  unfold few_put. rewrite search_cons. destruct (a <? row)%nat; [by destruct (Deletes.search row l)|].
  by destruct (a =? row)%nat.
Qed.

Lemma few_get_above row l : Forall (λ q, (row < q.1)%nat) l → few_get row l = ABSENT.
Proof.
  destruct 1 as [|[a s] l Ha _]; [done|]. simpl in Ha. rewrite few_get_cons.
  destruct (Nat.ltb_spec a row); [lia|]. by destruct (Nat.eqb_spec a row); [lia|].
Qed.

Lemma few_get_remove r row l :
  few_ok l → few_get r (few_remove row l) = if (r =? row)%nat then ABSENT else few_get r l.
Proof.
  induction l as [|[a s] l IH]; intros Hok; [by destruct (r =? row)%nat|].
  apply few_ok_cons in Hok as (_ & _ & Hlt & Hok). simpl in *. rewrite few_remove_cons.
  destruct (Nat.ltb_spec a row).
  - rewrite !few_get_cons, IH by done. destruct (Nat.ltb_spec a r); [done|].
    destruct (Nat.eqb_spec a r), (Nat.eqb_spec r row); (done || lia).
  - destruct (Nat.eqb_spec a row) as [->|Hne].
    + rewrite few_get_cons. destruct (Nat.ltb_spec row r), (Nat.eqb_spec r row); try (done || lia).
      * subst. by apply few_get_above.
      * destruct (Nat.eqb_spec row r); [lia|]. apply few_get_above. eapply Forall_impl; [exact Hlt|]. simpl. lia.
    + rewrite few_get_cons. destruct (Nat.eqb_spec r row) as [->|]; [|done].
      destruct (Nat.ltb_spec a row); [lia|]. by destruct (Nat.eqb_spec a row).
Qed.

Lemma few_get_put r row st l :
  few_ok l → few_get r (few_put row st l) = if (r =? row)%nat then st else few_get r l.
Proof.
  induction l as [|[a s] l IH]; intros Hok.
  - change (few_put row st []) with [(row, st)]. rewrite few_get_cons.
    destruct (Nat.ltb_spec row r), (Nat.eqb_spec row r), (Nat.eqb_spec r row); (done || lia).
  - apply few_ok_cons in Hok as (_ & _ & Hlt & Hok). simpl in *. rewrite few_put_cons.
    destruct (Nat.ltb_spec a row); [|destruct (Nat.eqb_spec a row) as [->|Hne]]; rewrite !few_get_cons.
    + rewrite IH by done. destruct (Nat.ltb_spec a r), (Nat.eqb_spec a r), (Nat.eqb_spec r row); (done || lia).
    + destruct (Nat.ltb_spec row r), (Nat.eqb_spec row r), (Nat.eqb_spec r row); (done || lia).
    + destruct (Nat.ltb_spec row r), (Nat.eqb_spec row r), (Nat.eqb_spec r row); try (done || lia).
      destruct (Nat.ltb_spec a r), (Nat.eqb_spec a r); (done || lia).
Qed.

Lemma few_remove_elem p row l : p ∈ few_remove row l → p ∈ l.
Proof.
  induction l as [|[a s] l IH]; [done|]. rewrite few_remove_cons.
  destruct (a <? row)%nat; [|destruct (a =? row)%nat; [by right|done]].
  intros [->|Hp]%elem_of_cons; [left|right; auto].
Qed.

Lemma few_put_elem p row st l : p ∈ few_put row st l → p = (row, st) ∨ p ∈ l.
Proof.
  induction l as [|[a s] l IH]; [intros ?%list_elem_of_singleton; by left|]. rewrite few_put_cons.
  destruct (a <? row)%nat; [|destruct (Nat.eqb_spec a row) as [->|]].
  - intros [->|Hp]%elem_of_cons; [right; left|]. destruct (IH Hp); [by left|right; by right].
  - intros [->|Hp]%elem_of_cons; [by left|right; by right].
  - intros [->|Hp]%elem_of_cons; [by left|by right].
Qed.

Lemma few_remove_ok row l : few_ok l → few_ok (few_remove row l).
Proof.
  induction l as [|[a s] l IH]; intros Hok; [done|]. pose proof Hok as (? & ? & Hlt & Hl)%few_ok_cons.
  rewrite few_remove_cons. destruct (a <? row)%nat; [|by destruct (a =? row)%nat].
  apply few_ok_cons. split_and!; [done|done| |by apply IH].
  apply Forall_forall. intros p Hp%few_remove_elem. by apply (proj1 (Forall_forall _ _) Hlt).
Qed.

Lemma few_put_ok row st l :
  (row < VECTOR_ROWS)%nat → st ≠ ABSENT → few_ok l → few_ok (few_put row st l).
Proof.
  intros Hrow Hst. induction l as [|[a s] l IH]; intros Hok.
  - apply few_ok_cons. split_and!; [done|done|constructor|done].
  - pose proof Hok as (? & ? & Hlt & Hl)%few_ok_cons. simpl in *. rewrite few_put_cons.
    destruct (Nat.ltb_spec a row); [|destruct (Nat.eqb_spec a row) as [->|]].
    + apply few_ok_cons. split_and!; [done|done| |by apply IH]. apply Forall_forall.
      intros p [->|Hp]%few_put_elem; [done|]. by apply (proj1 (Forall_forall _ _) Hlt).
    + apply few_ok_cons. by split_and!.
    + apply few_ok_cons. split_and!; [done|done| |done]. constructor; simpl; [lia|].
      eapply Forall_impl; [exact Hlt|]. simpl. lia.
Qed.

(** The list as an array. *)
Lemma few_array r l stamps :
  few_ok l → length stamps = VECTOR_ROWS →
  let a := fold_left (λ stamps p, <[p.1 := p.2]> stamps) l stamps in
  length a = VECTOR_ROWS ∧
  stamp_at r a = if decide (few_get r l = ABSENT) then stamp_at r stamps else few_get r l.
Proof.
  revert stamps. induction l as [|[a s] l IH]; intros stamps Hok Hlen; simpl; [done|].
  apply few_ok_cons in Hok as (Ha & Hs & Hlt & Hok). simpl in *.
  destruct (IH (<[a := s]> stamps) Hok) as [Hl Hr]; [by rewrite length_insert|]. split; [done|].
  rewrite Hr, stamp_at_insert by lia. rewrite few_get_cons.
  destruct (Nat.ltb_spec a r), (Nat.eqb_spec r a), (Nat.eqb_spec a r); try (done || lia).
  - subst. rewrite few_get_above by done. by destruct (decide (ABSENT = ABSENT)); destruct (decide (s = ABSENT)).
  - rewrite few_get_above; [done|]. eapply Forall_impl; [exact Hlt|]. simpl. lia.
Qed.

(** ** Deletes *)

(** The stamp of a row, its bit aside. *)
Definition raw_delete (row : nat) (d : Deletes) : Z :=
  match delete_stamps d with Few few => few_get row few | PerRowStamps l => stamp_at row l end.

Definition deletes_ok (d : Deletes) : Prop :=
  length (delete_rows d) = WORDS ∧ Bitset.wf (delete_rows d) ∧
  match delete_stamps d with
  | Few few => few_ok few ∧ (length few ≤ FEW_DELETES)%nat
  | PerRowStamps l => length l = VECTOR_ROWS
  end ∧
  ∀ row, (row < VECTOR_ROWS)%nat → Bitset.get row (delete_rows d) = negb (raw_delete row d =? ABSENT).

Lemma bitset_get_word row b :
  Bitset.get row b = negb (Z.land (Bitset.word (row / 64) b) (bit64 (row mod 64)) =? 0).
Proof. unfold Bitset.get, Bitset.word. by destruct (b !! (row / 64)%nat). Qed.

Lemma deletes_get row d : deletes_ok d → (row < VECTOR_ROWS)%nat → Deletes.get row d = raw_delete row d.
Proof.
  intros (_ & _ & _ & Hb) Hrow. specialize (Hb row Hrow). rewrite bitset_get_word in Hb. unfold Deletes.get.
  destruct (Z.land _ _ =? 0) eqn:Hz; simpl in Hb.
  - symmetry. apply Z.eqb_eq. by destruct (raw_delete row d =? ABSENT).
  - unfold raw_delete, few_get. by destruct (delete_stamps d).
Qed.

Lemma deletes_new_ok : deletes_ok Deletes.new.
Proof.
  split; [apply length_replicate|]. split; [apply Forall_replicate, is_u64_0|]. split; [split; [split; constructor|simpl; lia]|].
  intros row _. unfold raw_delete; simpl. unfold Bitset.get.
  destruct (replicate WORDS 0 !! _) as [w|] eqn:Hw; [|done]. by apply lookup_replicate in Hw as [-> _].
Qed.

Lemma deletes_new_get row : (row < VECTOR_ROWS)%nat → Deletes.get row Deletes.new = ABSENT.
Proof. intros Hrow. rewrite deletes_get by (done || apply deletes_new_ok). done. Qed.

Lemma few_put_length row st l : (length (few_put row st l) ≤ S (length l))%nat.
Proof.
  induction l as [|[a s] l IH]; [done|]. rewrite few_put_cons. repeat case_match; simpl; lia.
Qed.

Lemma few_remove_length row l : (length (few_remove row l) ≤ length l)%nat.
Proof.
  induction l as [|[a s] l IH]; [done|]. rewrite few_remove_cons. repeat case_match; simpl; lia.
Qed.

(** The new stamps, by what the search and the stamp say. *)
Lemma set_few_cases row st few :
  (st = ABSENT ∧ Deletes.set_few row st few = Few (few_remove row few)) ∨
  (st ≠ ABSENT ∧ Deletes.set_few row st few = Few (few_put row st few) ∧
     (length (few_put row st few) ≤ FEW_DELETES ∨ length (few_put row st few) = length few)%nat) ∨
  (st ≠ ABSENT ∧ Deletes.set_few row st few = PerRowStamps
     (<[row := st]> (fold_left (λ stamps p, <[p.1 := p.2]> stamps) few stamp_array))).
Proof.
  pose proof (few_put_length row st few) as Hl. unfold Deletes.set_few, few_remove, few_put in *.
  destruct (Deletes.search row few) as [place|place]; destruct (Z.eqb_spec st ABSENT) as [->|Hne]; auto.
  - right; left. split_and!; [done|done|]. right. apply length_alter.
  - destruct (Nat.ltb_spec (length few) FEW_DELETES); [|auto]. right; left. split_and!; [done|done|]. left. lia.
Qed.

Lemma raw_set r row st d :
  (r < VECTOR_ROWS)%nat → (row < VECTOR_ROWS)%nat → deletes_ok d →
  raw_delete r (Deletes.set row st d) = if (r =? row)%nat then st else raw_delete r d.
Proof.
  intros Hr Hrow (_ & _ & Hst & _). unfold raw_delete, Deletes.set; simpl.
  destruct (delete_stamps d) as [few|l]; [|apply stamp_at_insert; lia]. destruct Hst as [Hok Hlen].
  destruct (set_few_cases row st few) as [[-> ->]|[(_ & -> & _)|[Hst ->]]].
  - by apply few_get_remove.
  - by apply few_get_put.
  - destruct (few_array r few stamp_array Hok stamp_array_length) as [Hl Ha].
    rewrite stamp_at_insert by lia. destruct (r =? row)%nat; [done|]. rewrite Ha, stamp_at_array.
    by destruct (decide (few_get r few = ABSENT)).
Qed.

Lemma delete_rows_set row st d :
  (row < VECTOR_ROWS)%nat → deletes_ok d →
  delete_rows (Deletes.set row st d) = Bitset.put row (negb (st =? ABSENT)) (delete_rows d).
Proof.
  intros Hrow (Hlen & _). unfold Bitset.put, Bitset.set, Bitset.clear, Deletes.set; simpl.
  pose proof (row_word row Hrow). destruct (st =? ABSENT); simpl; [done|].
  destruct (Nat.leb_spec (length (delete_rows d)) (row / 64)); [lia|done].
Qed.

Lemma deletes_set_ok row st d :
  (row < VECTOR_ROWS)%nat → deletes_ok d → deletes_ok (Deletes.set row st d).
Proof.
  intros Hrow Hok. pose proof Hok as (Hlen & Hwf & Hst & Hb). split; [|split; [|split]].
  - simpl. by rewrite length_alter.
  - rewrite delete_rows_set by done. unfold Bitset.put. destruct (negb (st =? ABSENT)); [by apply Bitset.set_wf|by apply Bitset.clear_wf].
  - simpl. destruct (delete_stamps d) as [few|l]; [|by rewrite length_insert]. destruct Hst as [Hf Hl].
    destruct (set_few_cases row st few) as [[-> ->]|[(Hne & -> & Hl')|[Hne ->]]].
    + split; [by apply few_remove_ok|]. pose proof (few_remove_length row few). lia.
    + split; [by apply few_put_ok|]. lia.
    + rewrite length_insert. by destruct (few_array 0 few stamp_array Hf stamp_array_length).
  - intros r Hr. rewrite raw_set, delete_rows_set by done. unfold Bitset.put.
    destruct (Z.eqb_spec st ABSENT) as [->|Hne]; simpl.
    + rewrite Bitset.get_clear by done. rewrite Hb by done.
      destruct (Nat.eqb_spec r row); case_bool_decide; try done.
    + rewrite Bitset.get_set by done. rewrite Hb by done.
      destruct (Nat.eqb_spec r row); case_bool_decide; try done. by rewrite (proj2 (Z.eqb_neq st ABSENT)).
Qed.

(** Who deleted a row, after a delete stamp was set. *)
Lemma deletes_get_set r row st d :
  (r < VECTOR_ROWS)%nat → (row < VECTOR_ROWS)%nat → deletes_ok d →
  Deletes.get r (Deletes.set row st d) = if (r =? row)%nat then st else Deletes.get r d.
Proof. intros. rewrite !deletes_get by (done || by apply deletes_set_ok). by apply raw_set. Qed.

(** The rows [of_exists] lists: those that exist and have a delete stamp,
    ascending. *)
Lemma of_exists_spec e d :
  Bitset.wf e → deletes_ok d →
  Deletes.of_exists e d =
    map (λ row, (row, Deletes.get row d))
      (List.filter (λ row, Bitset.get row e && negb (Deletes.get row d =? ABSENT)) (seq 0 VECTOR_ROWS)).
Proof.
  intros He Hok. pose proof Hok as (Hlen & Hwf & _ & Hb). unfold Deletes.of_exists. f_equal.
  set (both := map (λ i, Z.land (Bitset.word i (delete_rows d)) (Bitset.word i e)) (seq 0 WORDS)).
  assert (Bitset.wf both) as Hboth.
  { apply Forall_forall. intros w (i & -> & _)%list_elem_of_fmap. apply land_u64; [by apply Bitset.word_u64|].
    apply Bitset.word_u64, He. }
  assert (∀ i, (i < WORDS)%nat → Bitset.word i both = Z.land (Bitset.word i (delete_rows d)) (Bitset.word i e)) as Hw.
  { intros i Hi. unfold both, Bitset.word at 1. rewrite list_lookup_fmap, lookup_seq_lt by done. done. }
  transitivity (Bitset.rows both).
  - unfold Bitset.rows, both. rewrite length_map, length_seq, Hlen.
    assert (∀ n k, (n + k ≤ WORDS)%nat → flat_map
       (λ '(index, word), map (λ bit, (index * 64 + bit)%nat) (bits_of (Z.land word (Bitset.word index e))))
       (zip (seq n k) (take k (drop n (delete_rows d)))) =
      flat_map (λ '(index, word), map (λ bit, (index * 64 + bit)%nat) (bits_of word))
       (zip (seq n k) (map (λ i, Z.land (Bitset.word i (delete_rows d)) (Bitset.word i e)) (seq n k)))) as Hgen.
    { intros n k. revert n. induction k as [|k IH]; intros n Hk; [done|].
      destruct (lookup_lt_is_Some_2 (delete_rows d) n) as [w Hl]; [lia|].
      rewrite (drop_S _ w n Hl). cbn [seq map take zip zip_with flat_map]. rewrite IH by lia.
      assert (Bitset.word n (delete_rows d) = w) as -> by (unfold Bitset.word; by rewrite Hl). done. }
    specialize (Hgen 0%nat WORDS). rewrite drop_0, take_ge in Hgen by lia. apply Hgen. lia.
  - rewrite Bitset.rows_spec by done. unfold both at 2. rewrite length_map, length_seq, VECTOR_ROWS_words.
    apply Bitset.filter_ext_seq. intros r Hr. rewrite <- VECTOR_ROWS_words in Hr.
    rewrite Bitset.get_word by done. pose proof (row_word r ltac:(lia)). rewrite Hw by done.
    rewrite test_land, <- !Bitset.get_word by done. rewrite Hb, deletes_get by (done || lia). apply andb_comm.
Qed.

(** ** A stamped vector *)

Definition inserts_ok (e : list Z) (i : Inserts) : Prop :=
  match i with
  | Constant _ => True
  | PerRow i =>
      length (insert_stamps i) = VECTOR_ROWS ∧ length (written i) = WORDS ∧ Bitset.wf (written i) ∧
      (∀ row, Bitset.get row e = true → Bitset.get row (written i) = true) ∧
      ∀ row, (row < VECTOR_ROWS)%nat → Bitset.get row e = false → stamp_at row (insert_stamps i) = ABSENT
  end.

Definition stamped_ok (s : Stamped) : Prop :=
  Bitset.wf (exists_rows s) ∧ (length (exists_rows s) ≤ WORDS)%nat ∧
  inserts_ok (exists_rows s) (inserts s) ∧
  match deletes s with
  | None => True
  | Some d => deletes_ok d ∧
      ∀ row, (row < VECTOR_ROWS)%nat → Deletes.get row d ≠ ABSENT → Bitset.get row (exists_rows s) = true
  end.

Lemma exists_bound row e :
  Bitset.wf e → (length e ≤ WORDS)%nat → Bitset.get row e = true → (row < VECTOR_ROWS)%nat.
Proof. intros Hwf Hlen Hg%Bitset.get_bound; [|done]. rewrite VECTOR_ROWS_words. nia. Qed.

Lemma bitset_set_length row e :
  (row < VECTOR_ROWS)%nat → (length e ≤ WORDS)%nat → (length (Bitset.set row e) ≤ WORDS)%nat.
Proof.
  intros Hrow Hlen. unfold Bitset.set. rewrite length_alter. pose proof (row_word row Hrow).
  destruct (Nat.leb_spec (length e) (row / 64)); [|done]. unfold resize. rewrite length_app, length_replicate. lia.
Qed.

(** A bitset as long as a vector does not grow. *)
Lemma set_alter row b :
  (row < VECTOR_ROWS)%nat → length b = WORDS →
  alter (λ w, Z.lor w (bit64 (row mod 64))) (row / 64)%nat b = Bitset.set row b.
Proof.
  intros Hrow Hlen. unfold Bitset.set. pose proof (row_word row Hrow).
  destruct (Nat.leb_spec (length b) (row / 64)); [lia|done].
Qed.

Lemma fold_insert_constant c (rows : list nat) l r :
  (∀ row, row ∈ rows → (row < length l)%nat) →
  let l' := fold_left (λ stamps row, <[row := c]> stamps) rows l in
  length l' = length l ∧ stamp_at r l' = if decide (r ∈ rows) then c else stamp_at r l.
Proof.
  revert l. induction rows as [|x rows IH]; intros l Hlt; simpl.
  - split; [done|]. by destruct (decide (r ∈ [])) as [?%elem_of_nil|].
  - destruct (IH (<[x := c]> l)) as [Hl Hs].
    { intros row Hrow. rewrite length_insert. apply Hlt. by right. }
    rewrite length_insert in Hl. split; [done|]. rewrite Hs, stamp_at_insert by (apply Hlt; left).
    destruct (decide (r ∈ rows)), (decide (r ∈ x :: rows)) as [Hin|Hni]; try done.
    + destruct Hni. by right.
    + apply elem_of_cons in Hin as [->|]; [by rewrite Nat.eqb_refl|done].
    + destruct (Nat.eqb_spec r x) as [->|]; [|done]. destruct Hni. left.
Qed.

Lemma of_constant_spec e c r :
  Bitset.wf e → (length e ≤ WORDS)%nat →
  let i := PerRowInserts.of_constant e c in
  inserts_ok e (PerRow i) ∧ (Bitset.get r e = true → stamp_at r (insert_stamps i) = c).
Proof.
  intros Hwf Hlen i.
  assert (∀ row, row ∈ Bitset.rows e → (row < length stamp_array)%nat) as Hlt.
  { intros row Hrow%Bitset.rows_elem; [|done]. rewrite stamp_array_length. by eapply exists_bound. }
  destruct (fold_insert_constant c (Bitset.rows e) stamp_array r Hlt) as [Hl Hs]. split.
  - split; [by simpl; rewrite Hl, stamp_array_length|]. simpl. rewrite length_map, length_seq. split; [done|]. split; [|split].
    + apply Forall_forall. intros w (at_ & -> & _)%list_elem_of_fmap. by apply Bitset.word_u64.
    + intros row Hrow. pose proof (exists_bound _ _ Hwf Hlen Hrow) as Hb%row_word.
      rewrite Bitset.get_word in Hrow by done. rewrite Bitset.get_word.
      * unfold Bitset.word at 1. rewrite list_lookup_fmap, lookup_seq_lt by done. done.
      * apply Forall_forall. intros w (at_ & -> & _)%list_elem_of_fmap. by apply Bitset.word_u64.
    + intros row _ Hrow. destruct (fold_insert_constant c (Bitset.rows e) stamp_array row Hlt) as [_ ->].
      rewrite decide_False; [apply stamp_at_array|]. rewrite Bitset.rows_elem by done. congruence.
  - intros Hr. simpl. rewrite Hs. by rewrite decide_True by by apply Bitset.rows_elem.
Qed.

Lemma inserts_set_ok e row st i :
  Bitset.wf e → (row < VECTOR_ROWS)%nat → inserts_ok e (PerRow i) →
  inserts_ok (Bitset.set row e) (PerRow (PerRowInserts.set row st i)).
Proof.
  intros Hwf Hrow (Hl & Hw & Hww & Hsub & Habs). simpl. rewrite length_insert, length_alter.
  rewrite set_alter by done. split; [done|]. split; [done|]. split; [by apply Bitset.set_wf|]. split.
  - intros r. rewrite !Bitset.get_set by done. case_bool_decide; [done|]. simpl. apply Hsub.
  - intros r Hr. rewrite Bitset.get_set, stamp_at_insert by (done || lia). case_bool_decide; [done|]. simpl.
    rewrite (proj2 (Nat.eqb_neq r row)) by done. auto.
Qed.

Lemma others_created_by_spec row st s :
  Bitset.wf (exists_rows s) → Stamped.others_created_by row st s = true →
  ∃ c, inserts s = Constant c ∧ (c = st ∨ ∀ r, Bitset.get r (exists_rows s) = true → r = row).
Proof.
  intros Hwf. unfold Stamped.others_created_by. destruct (inserts s) as [c|]; [|done].
  intros [->%Z.eqb_eq|Hall]%orb_true_iff; [eauto|]. exists c. split; [done|]. right. intros r Hr%Bitset.rows_elem; [|done].
  rewrite forallb_forall in Hall. apply list_elem_of_In in Hr. by apply Hall, Nat.eqb_eq in Hr.
Qed.

Lemma stamped_set_created_ok row st s :
  (row < VECTOR_ROWS)%nat → stamped_ok s → stamped_ok (Stamped.set_created row st s).
Proof.
  intros Hrow (Hwf & Hlen & Hi & Hd). split; [by apply Bitset.set_wf|]. split; [by apply bitset_set_length|].
  split.
  - simpl. destruct (inserts s) as [c|i] eqn:Hins; [|by apply inserts_set_ok].
    destruct (Stamped.others_created_by row st s); [done|]. apply inserts_set_ok; [done|done|].
    by apply (of_constant_spec _ _ 0%nat).
  - simpl. destruct (deletes s) as [d|]; [|done]. destruct Hd as [Hok Hsub]. split; [done|].
    intros r Hr Hdr. rewrite Bitset.get_set by done. rewrite Hsub by done. apply orb_true_r.
Qed.

Lemma deleter_not_exists row s :
  stamped_ok s → (row < VECTOR_ROWS)%nat → Bitset.get row (exists_rows s) = false → Stamped.deleter row s = ABSENT.
Proof.
  intros (_ & _ & _ & Hd) Hrow Hg. unfold Stamped.deleter. destruct (deletes s) as [d|]; [|done].
  destruct Hd as [_ Hsub]. destruct (Z.eq_dec (Deletes.get row d) ABSENT) as [|Hne]; [done|].
  by rewrite Hsub in Hg.
Qed.

Lemma stamped_get_set_created r row st s :
  (r < VECTOR_ROWS)%nat → (row < VECTOR_ROWS)%nat → stamped_ok s →
  Stamped.get r (Stamped.set_created row st s) =
    if (r =? row)%nat then mkVersion st (deleted (Stamped.get row s)) else Stamped.get r s.
Proof.
  intros Hr Hrow Hok. pose proof Hok as (Hwf & Hlen & Hi & _).
  assert (Stamped.deleter r (Stamped.set_created row st s) = Stamped.deleter r s) as Hdel by done.
  unfold Stamped.get at 1. rewrite Hdel. simpl. rewrite Bitset.get_set by done.
  destruct (Nat.eqb_spec r row) as [->|Hne].
  - rewrite bool_decide_eq_true_2 by done. simpl. f_equal.
    + unfold Stamped.creator; simpl. destruct (inserts s) as [c|i] eqn:Hins.
      * destruct (Stamped.others_created_by row st s); [done|]. simpl.
        destruct (of_constant_spec (exists_rows s) c 0%nat Hwf Hlen) as [(Hl & _) _].
        simpl in Hl. by rewrite stamp_at_insert, Nat.eqb_refl by lia.
      * simpl. destruct Hi as (Hl & _). by rewrite stamp_at_insert, Nat.eqb_refl by lia.
    + unfold Stamped.get. destruct (Bitset.get row (exists_rows s)) eqn:Hg; [done|]. simpl.
      by apply deleter_not_exists.
  - rewrite bool_decide_eq_false_2 by done. simpl. unfold Stamped.get.
    destruct (Bitset.get r (exists_rows s)) eqn:Hg; [|done]. simpl. f_equal.
    unfold Stamped.creator; simpl. destruct (inserts s) as [c|i] eqn:Hins.
    + destruct (Stamped.others_created_by row st s) eqn:Hoth.
      * apply others_created_by_spec in Hoth as (c' & Hc & [->|Hall]); [|destruct Hne; by apply Hall|done].
        rewrite Hins in Hc. by simplify_eq.
      * simpl. destruct (of_constant_spec (exists_rows s) c r Hwf Hlen) as [(Hl & _) Hs].
        simpl in Hl, Hs. rewrite stamp_at_insert by lia. rewrite (proj2 (Nat.eqb_neq r row)) by done. auto.
    + simpl. destruct Hi as (Hl & _). rewrite stamp_at_insert by lia. by rewrite (proj2 (Nat.eqb_neq r row)).
Qed.

Lemma stamped_set_deleted_ok row st s :
  (row < VECTOR_ROWS)%nat → (st ≠ ABSENT → Bitset.get row (exists_rows s) = true) →
  stamped_ok s → stamped_ok (Stamped.set_deleted row st s).
Proof.
  intros Hrow Hex (Hwf & Hlen & Hi & Hd). split; [done|]. split; [done|]. split; [done|]. simpl.
  assert (∀ d, deletes_ok d →
    (∀ r, (r < VECTOR_ROWS)%nat → Deletes.get r d ≠ ABSENT → Bitset.get r (exists_rows s) = true) →
    deletes_ok (Deletes.set row st d) ∧ ∀ r, (r < VECTOR_ROWS)%nat → Deletes.get r (Deletes.set row st d) ≠ ABSENT →
      Bitset.get r (exists_rows s) = true) as Hset.
  { intros d Hok Hsub. split; [by apply deletes_set_ok|]. intros r Hr. rewrite deletes_get_set by done.
    destruct (Nat.eqb_spec r row) as [->|]; auto. }
  destruct (deletes s) as [d|]; [by apply Hset; apply Hd|].
  destruct (Z.eqb_spec st ABSENT); [done|]. apply Hset; [apply deletes_new_ok|].
  intros r Hr. by rewrite deletes_new_get.
Qed.

Lemma stamped_get_set_deleted r row st s :
  (r < VECTOR_ROWS)%nat → (row < VECTOR_ROWS)%nat → Bitset.get row (exists_rows s) = true → stamped_ok s →
  Stamped.get r (Stamped.set_deleted row st s) =
    if (r =? row)%nat then mkVersion (created (Stamped.get row s)) st else Stamped.get r s.
Proof.
  intros Hr Hrow Hex (Hwf & Hlen & Hi & Hd).
  assert (Stamped.deleter r (Stamped.set_deleted row st s) = if (r =? row)%nat then st else Stamped.deleter r s) as Hdel.
  { unfold Stamped.deleter; simpl. destruct (deletes s) as [d|]; [by apply deletes_get_set; [..|apply Hd]|].
    destruct (Z.eqb_spec st ABSENT) as [->|]; [by destruct (r =? row)%nat|].
    rewrite deletes_get_set, deletes_new_get by (done || apply deletes_new_ok). done. }
  unfold Stamped.get at 1. rewrite Hdel. simpl.
  assert (Stamped.creator r (Stamped.set_deleted row st s) = Stamped.creator r s) as -> by done.
  destruct (Nat.eqb_spec r row) as [->|Hne]; unfold Stamped.get; [by rewrite Hex|done].
Qed.

Lemma stamped_remove_ok row s :
  (row < VECTOR_ROWS)%nat → stamped_ok s → stamped_ok (Stamped.remove row s).
Proof.
  intros Hrow (Hwf & Hlen & Hi & Hd). split; [by apply Bitset.clear_wf|].
  split; [simpl; unfold Bitset.clear; by rewrite length_alter|]. split.
  - simpl. destruct (inserts s) as [c|i]; [done|]. destruct Hi as (Hl & Hw & Hww & Hsub & Habs). simpl.
    rewrite length_insert. split_and!; try done.
    + intros r. rewrite Bitset.get_clear by done. intros [_ ?]%andb_true_iff. auto.
    + intros r Hr. rewrite Bitset.get_clear, stamp_at_insert by (done || lia).
      destruct (Nat.eqb_spec r row); [done|]. rewrite bool_decide_eq_false_2 by done. simpl. auto.
  - simpl. destruct (deletes s) as [d|]; [|done]. destruct Hd as [Hok Hsub]. simpl. split; [by apply deletes_set_ok|].
    intros r Hr. rewrite deletes_get_set by done. rewrite Bitset.get_clear by done.
    destruct (Nat.eqb_spec r row); [done|]. intros Hdr. rewrite bool_decide_eq_false_2 by done. simpl. auto.
Qed.

Lemma stamped_get_remove r row s :
  (r < VECTOR_ROWS)%nat → (row < VECTOR_ROWS)%nat → stamped_ok s →
  Stamped.get r (Stamped.remove row s) = if (r =? row)%nat then NONE else Stamped.get r s.
Proof.
  intros Hr Hrow (Hwf & Hlen & Hi & Hd). unfold Stamped.get; simpl. rewrite Bitset.get_clear by done.
  destruct (Nat.eqb_spec r row) as [->|Hne]; [by rewrite bool_decide_eq_true_2|].
  rewrite bool_decide_eq_false_2 by done. simpl. destruct (Bitset.get r (exists_rows s)); [|done]. simpl. f_equal.
  - unfold Stamped.creator; simpl. destruct (inserts s) as [c|i]; [done|]. destruct Hi as (Hl & _). simpl.
    rewrite stamp_at_insert by lia. by rewrite (proj2 (Nat.eqb_neq r row)).
  - unfold Stamped.deleter; simpl. destruct (deletes s) as [d|]; [|done]. simpl. destruct Hd as [Hok _].
    rewrite deletes_get_set by done. by rewrite (proj2 (Nat.eqb_neq r row)).
Qed.
