(* ===== verification/RowVersionProps.v ===== *)
(** * The versions of a row group implement a map of row versions

    The vectors of a group mean a function from rows to [RowVersion]s. Every
    write is the update of that function at its row, the word-at-a-time
    scans see exactly the rows the row-at-a-time check sees, and a collapse
    changes no read at or after its horizon; the incremental collapse of one
    vector equals the rebuild. *)
From S2P Require Import Prelude Bits Bitset RowVersions RowVersionFacts.
Open Scope Z_scope.

#[local] Opaque VECTOR_ROWS.
#[local] Arguments Nat.div : simpl never.
#[local] Arguments Nat.modulo : simpl never.

(** ** The abstract function *)

Definition vector_ok (x : Vector) : Prop :=
  match x with
  | Flat e => Bitset.wf e ∧ (length e ≤ WORDS)%nat
  | StampedVector s => stamped_ok s
  end.

Definition versions_ok (v : list Vector) : Prop := Forall vector_ok v.

(** The version of a row of one vector. *)
Definition vector_get (row : nat) (x : Vector) : RowVersion :=
  match x with
  | Flat e => if Bitset.get row e then ALWAYS else NONE
  | StampedVector s => Stamped.get row s
  end.

Lemma get_vector row v :
  Versions.get row v =
    match v !! (row / VECTOR_ROWS)%nat with Some x => vector_get (row mod VECTOR_ROWS) x | None => NONE end.
Proof. unfold Versions.get. destruct (v !! _) as [[]|]; done. Qed.

Lemma vector_rows_pos : (0 < VECTOR_ROWS)%nat.
Proof. rewrite VECTOR_ROWS_words. unfold WORDS. apply Nat.ltb_lt. reflexivity. Qed.

Lemma vector_mod row : (row mod VECTOR_ROWS < VECTOR_ROWS)%nat.
Proof. pose proof vector_rows_pos. apply Nat.mod_upper_bound. lia. Qed.

Lemma vector_row_eq r r' :
  (r / VECTOR_ROWS = r' / VECTOR_ROWS)%nat → (r mod VECTOR_ROWS =? r' mod VECTOR_ROWS)%nat = (r =? r')%nat.
Proof.
  intros Hd. pose proof (Nat.div_mod_eq r VECTOR_ROWS). pose proof (Nat.div_mod_eq r' VECTOR_ROWS).
  destruct (Nat.eqb_spec (r mod VECTOR_ROWS) (r' mod VECTOR_ROWS)), (Nat.eqb_spec r r'); (done || subst; congruence || nia).
Qed.

Lemma grow_to_lookup index v i :
  Versions.grow_to index v !! i = v !! i ∨
  (v !! i = None ∧ Versions.grow_to index v !! i = Some (Flat [])).
Proof.
  unfold Versions.grow_to. destruct (Nat.leb_spec (length v) index); [|by left]. unfold resize.
  destruct (decide (i < length v)%nat); [left; by rewrite lookup_app_l|].
  rewrite lookup_app_r, (lookup_ge_None_2 v) by lia.
  destruct (replicate _ _ !! _) as [x|] eqn:Hr; [|by left]. right. by apply lookup_replicate in Hr as [-> _].
Qed.

Lemma grow_to_get index v row : Versions.get row (Versions.grow_to index v) = Versions.get row v.
Proof.
  rewrite !get_vector. destruct (grow_to_lookup index v (row / VECTOR_ROWS)) as [->|[-> ->]]; done.
Qed.

Lemma grow_to_ok index v : versions_ok v → versions_ok (Versions.grow_to index v).
Proof.
  intros Hok. unfold Versions.grow_to. destruct (_ <=? _)%nat; [|done]. apply Forall_app. split; [done|].
  apply Forall_replicate. split; [constructor|simpl; lia].
Qed.

Lemma grow_to_length index v : (index < length (Versions.grow_to index v))%nat.
Proof.
  unfold Versions.grow_to. destruct (Nat.leb_spec (length v) index); [|done].
  unfold resize. rewrite length_app, length_replicate. lia.
Qed.

(** A change of one vector, by what it does to a vector's rows. *)
Lemma alter_get (f : Vector → Vector) (P : Vector → Prop) (upd : RowVersion → RowVersion) row r v :
  (∀ x, P x → vector_ok x → vector_ok (f x) ∧ ∀ off, (off < VECTOR_ROWS)%nat →
     vector_get off (f x) = if (off =? row mod VECTOR_ROWS)%nat then upd (vector_get off x) else vector_get off x) →
  (∃ x, v !! (row / VECTOR_ROWS)%nat = Some x ∧ P x) → versions_ok v →
  versions_ok (alter f (row / VECTOR_ROWS)%nat v) ∧
  Versions.get r (alter f (row / VECTOR_ROWS)%nat v) = if (r =? row)%nat then upd (Versions.get r v) else Versions.get r v.
Proof.
  intros Hf (x & Hx & HP) Hok. pose proof (Forall_lookup_1 _ _ _ _ Hok Hx) as Hxok.
  destruct (Hf x HP Hxok) as [Hfx Hget]. split.
  - apply Forall_alter; [done|]. intros y Hy Hyok. rewrite Hx in Hy. by simplify_eq.
  - rewrite !get_vector. destruct (decide (r / VECTOR_ROWS = row / VECTOR_ROWS)%nat) as [Heq|Hne].
    + rewrite Heq, list_lookup_alter_eq, Hx. simpl. rewrite Hget by apply vector_mod. by rewrite vector_row_eq.
    + rewrite list_lookup_alter_ne by done. by rewrite (proj2 (Nat.eqb_neq r row)) by (intros ->; done).
Qed.

Lemma from_flat_ok e : Bitset.wf e → (length e ≤ WORDS)%nat → stamped_ok (Stamped.from_flat e).
Proof. intros. split; [done|]. split; [done|]. done. Qed.

Lemma stamped_of_ok x : vector_ok x → stamped_ok (Versions.stamped_of x).
Proof. destruct x as [e|s]; [intros []; by apply from_flat_ok|done]. Qed.

Lemma stamped_of_get off x : Stamped.get off (Versions.stamped_of x) = vector_get off x.
Proof. destruct x as [e|s]; [|done]. unfold Stamped.get; simpl. by destruct (Bitset.get off e). Qed.

Lemma stamped_of_exists off x :
  Bitset.get off (exists_rows (Versions.stamped_of x)) =
    match x with Flat e => Bitset.get off e | StampedVector s => Bitset.get off (exists_rows s) end.
Proof. by destruct x. Qed.

Lemma grow_to_some index v : ∃ x, Versions.grow_to index v !! index = Some x.
Proof. apply lookup_lt_is_Some_2, grow_to_length. Qed.

Lemma set_created_get row st r v :
  versions_ok v →
  versions_ok (Versions.set_created row st v) ∧
  Versions.get r (Versions.set_created row st v) =
    if (r =? row)%nat then mkVersion st (deleted (Versions.get r v)) else Versions.get r v.
Proof.
  intros Hok. unfold Versions.set_created, Versions.stamped_mut.
  rewrite <- (grow_to_get (row / VECTOR_ROWS) v r).
  apply (alter_get _ (λ _, True) (λ x, mkVersion st (deleted x))); [|by destruct (grow_to_some (row / VECTOR_ROWS) v); eauto|by apply grow_to_ok].
  intros x _ Hx. pose proof (vector_mod row). pose proof (stamped_of_ok x Hx). split; [by apply stamped_set_created_ok|].
  intros off Hoff. simpl. rewrite stamped_get_set_created, !stamped_of_get by done.
  by destruct (Nat.eqb_spec off (row mod VECTOR_ROWS)) as [->|].
Qed.

Lemma row_exists_vector row v :
  Versions.row_exists row v = true →
  ∃ x, v !! (row / VECTOR_ROWS)%nat = Some x ∧
    Bitset.get (row mod VECTOR_ROWS) (exists_rows (Versions.stamped_of x)) = true.
Proof. unfold Versions.row_exists. destruct (v !! _) as [[e|s]|]; [eauto|eauto|done]. Qed.

Lemma set_deleted_get row st r v :
  versions_ok v → Versions.row_exists row v = true →
  versions_ok (Versions.set_deleted row st v) ∧
  Versions.get r (Versions.set_deleted row st v) =
    if (r =? row)%nat then mkVersion (created (Versions.get r v)) st else Versions.get r v.
Proof.
  intros Hok (x & Hx & Hex)%row_exists_vector. unfold Versions.set_deleted, Versions.stamped_mut.
  assert (Versions.grow_to (row / VECTOR_ROWS) v = v) as ->.
  { unfold Versions.grow_to. apply lookup_lt_Some in Hx. by destruct (Nat.leb_spec (length v) (row / VECTOR_ROWS)); [lia|]. }
  apply (alter_get _ (λ x, Bitset.get (row mod VECTOR_ROWS) (exists_rows (Versions.stamped_of x)) = true)
    (λ x, mkVersion (created x) st)); [|eauto|done].
  intros y Hy Hyok. pose proof (vector_mod row). pose proof (stamped_of_ok y Hyok).
  split; [by apply stamped_set_deleted_ok|]. intros off Hoff. simpl.
  rewrite stamped_get_set_deleted, !stamped_of_get by done.
  by destruct (Nat.eqb_spec off (row mod VECTOR_ROWS)) as [->|].
Qed.

Lemma remove_get row r v :
  versions_ok v →
  versions_ok (Versions.remove row v) ∧
  Versions.get r (Versions.remove row v) = if (r =? row)%nat then NONE else Versions.get r v.
Proof.
  intros Hok. unfold Versions.remove. destruct (v !! (row / VECTOR_ROWS)%nat) as [x|] eqn:Hx.
  - apply (alter_get _ (λ _, True) (λ _, NONE)); [|eauto|done].
    intros y _ Hy. pose proof (vector_mod row). destruct y as [e|s].
    + destruct Hy as [Hwf Hlen]. split; [split; [by apply Bitset.clear_wf|unfold Bitset.clear; by rewrite length_alter]|].
      intros off Hoff. simpl. rewrite Bitset.get_clear by done.
      destruct (Nat.eqb_spec off (row mod VECTOR_ROWS)); case_bool_decide; try done.
    + split; [by apply stamped_remove_ok|]. intros off Hoff. by apply stamped_get_remove.
  - assert (∀ f : Vector → Vector, alter f (row / VECTOR_ROWS)%nat v = v) as ->.
    { intros f. apply list_eq. intros i. destruct (decide (i = row / VECTOR_ROWS)%nat) as [->|].
      - by rewrite list_lookup_alter_eq, Hx.
      - by rewrite list_lookup_alter_ne. }
    split; [done|]. destruct (Nat.eqb_spec r row) as [->|]; [|done]. by rewrite get_vector, Hx.
Qed.

Lemma set_always_get row r v :
  versions_ok v →
  versions_ok (Versions.set_always row v) ∧
  Versions.get r (Versions.set_always row v) = if (r =? row)%nat then ALWAYS else Versions.get r v.
Proof.
  intros Hok. unfold Versions.set_always. rewrite <- (grow_to_get (row / VECTOR_ROWS) v r).
  apply (alter_get _ (λ _, True) (λ _, ALWAYS)); [|by destruct (grow_to_some (row / VECTOR_ROWS) v); eauto|by apply grow_to_ok].
  intros y _ Hy. pose proof (vector_mod row) as Hm. destruct y as [e|s].
  - destruct Hy as [Hwf Hlen]. split; [split; [by apply Bitset.set_wf|by apply bitset_set_length]|].
    intros off Hoff. simpl. rewrite Bitset.get_set by done.
    destruct (Nat.eqb_spec off (row mod VECTOR_ROWS)); case_bool_decide; done.
  - pose proof (stamped_set_created_ok _ (created ALWAYS) s Hm Hy) as Hs.
    assert (Bitset.get (row mod VECTOR_ROWS) (exists_rows (Stamped.set_created (row mod VECTOR_ROWS) (created ALWAYS) s)) = true) as Hex.
    { simpl. rewrite Bitset.get_set by apply Hy. by rewrite bool_decide_eq_true_2. }
    split; [by apply stamped_set_deleted_ok|]. intros off Hoff. cbn [vector_get].
    rewrite stamped_get_set_deleted, !stamped_get_set_created by done. rewrite Nat.eqb_refl.
    by destruct (off =? row mod VECTOR_ROWS)%nat.
Qed.

(** ** Who sees a row *)

(** The epoch a reader reads at. *)
Definition read_epoch (r : Read) : Z := match r with ReadTransaction _ s => s | ReadAt e => e end.

Lemma pending_absent : is_pending ABSENT = true.
Proof. reflexivity. Qed.

Lemma sees_absent r : sees r ABSENT = false.
Proof. by unfold sees; rewrite Z.eqb_refl. Qed.

Lemma sees_committed r stamp :
  is_pending stamp = false → sees r stamp = (stamp <=? read_epoch r).
Proof.
  intros Hp. unfold sees. destruct (Z.eqb_spec stamp ABSENT) as [->|]; [by rewrite pending_absent in Hp|].
  rewrite Hp. by destruct r.
Qed.

Lemma always_visible r : 0 ≤ read_epoch r → row_visible r ALWAYS = true.
Proof.
  intros Hr. unfold row_visible, ALWAYS; cbn [created deleted]. rewrite sees_absent, sees_committed by done. by rewrite (proj2 (Z.leb_le _ _)).
Qed.

Lemma none_visible r : row_visible r NONE = false.
Proof. unfold row_visible, NONE; cbn [created deleted]. by rewrite sees_absent. Qed.

(** The check of one lookup is the check of the row's version. *)
Lemma visible_get row r v :
  0 ≤ read_epoch r → Versions.visible row r v = row_visible r (Versions.get row v).
Proof.
  intros Hr. unfold Versions.visible, Versions.get. destruct (v !! _) as [[e|s]|]; [|done|by rewrite none_visible].
  destruct (Bitset.get _ e); [by rewrite always_visible|by rewrite none_visible].
Qed.

(** ** A word of rows at a time *)

Lemma word_row index j :
  (j < 64)%nat →
  ((index * 64 + j) / VECTOR_ROWS = index / WORDS)%nat ∧
  ((index * 64 + j) mod VECTOR_ROWS = (index mod WORDS) * 64 + j)%nat.
Proof.
  intros Hj. rewrite VECTOR_ROWS_words. rewrite (Nat.mul_comm WORDS 64).
  pose proof (Nat.div_mod_eq index WORDS) as Hi. assert (index mod WORDS < WORDS)%nat.
  { apply Nat.mod_upper_bound. unfold WORDS. done. }
  split.
  - symmetry. apply (Nat.div_unique _ _ _ ((index mod WORDS) * 64 + j)); [|rewrite Hi at 1]; nia.
  - symmetry. apply (Nat.mod_unique _ _ (index / WORDS)); [|rewrite Hi at 1]; nia.
Qed.

Lemma fold_seen (P : nat → bool) l acc j :
  Forall (λ b, (b < 64)%nat) l →
  test (fold_left (λ seen bit, if P bit then Z.lor seen (bit64 bit) else seen) l acc) j =
    test acc j || (bool_decide (j ∈ l) && P j).
Proof.
  intros Hl. revert acc. induction Hl as [|b l Hb _ IH]; intros acc; simpl.
  - by destruct (test acc j).
  - rewrite IH. destruct (P b) eqn:HP.
    + rewrite test_lor, test_bit64. destruct (decide (j = b)) as [->|Hne].
      * rewrite (bool_decide_eq_true_2 (b = b)), (bool_decide_eq_true_2 (b ∈ b :: l)), HP by (done || left).
        by destruct (test acc b), (bool_decide (b ∈ l)).
      * rewrite (bool_decide_eq_false_2 (b = j)), orb_false_r by done. f_equal. f_equal.
        apply bool_decide_ext. rewrite elem_of_cons. naive_solver.
    + destruct (decide (j = b)) as [->|Hne]; [by rewrite HP, !andb_false_r|]. f_equal. f_equal.
      apply bool_decide_ext. rewrite elem_of_cons. naive_solver.
Qed.

Lemma fold_seen_u64 (P : nat → bool) l acc :
  Forall (λ b, (b < 64)%nat) l → is_u64 acc →
  is_u64 (fold_left (λ seen bit, if P bit then Z.lor seen (bit64 bit) else seen) l acc).
Proof.
  intros Hl. revert acc. induction Hl as [|b l Hb _ IH]; intros acc Ha; [done|]. simpl. apply IH.
  destruct (P b); [|done]. apply lor_u64; [done|by apply bit64_u64].
Qed.

Lemma bits_of_small w : is_u64 w → Forall (λ b, (b < 64)%nat) (bits_of w).
Proof. intros Hw. apply Forall_forall. intros b Hb%bits_of_elem; [|done]. apply Hb. Qed.

(** A shared version is every row's version. *)
Lemma uniform_get off s version :
  Stamped.uniform s = Some version →
  Stamped.get off s = if Bitset.get off (exists_rows s) then version else NONE.
Proof.
  unfold Stamped.uniform, Stamped.get, Stamped.creator, Stamped.deleter.
  destruct (inserts s); [|done]. destruct (deletes s); [done|]. intros [= <-]. by destruct (Bitset.get off _).
Qed.

(** [visible_word] as a set of rows. *)
Lemma visible_word_test index asked r v j :
  versions_ok v → is_u64 asked → (j < 64)%nat →
  is_u64 (Versions.visible_word index asked r v) ∧
  test (Versions.visible_word index asked r v) j = test asked j && Versions.visible (index * 64 + j) r v.
Proof.
  intros Hok Ha Hj. unfold Versions.visible_word, Versions.visible.
  destruct (word_row index j Hj) as [-> ->].
  destruct (Z.eqb_spec asked 0) as [->|Hne]; [rewrite test_0; split; [apply is_u64_0|done]|].
  destruct (v !! (index / WORDS)%nat) as [x|] eqn:Hx.
  2: { rewrite test_0, andb_false_r. split; [apply is_u64_0|done]. }
  pose proof (Forall_lookup_1 _ _ _ _ Hok Hx) as Hxok. destruct x as [e|s]; simpl in Hxok.
  - destruct Hxok as [Hwf _]. pose proof (Bitset.word_u64 (index mod WORDS) e Hwf) as Hw.
    split; [by apply land_u64; [|destruct Hw]|]. by rewrite test_land, Bitset.test_word.
  - destruct Hxok as (Hwf & _). pose proof (Bitset.word_u64 (index mod WORDS) (exists_rows s) Hwf) as Hw.
    assert (is_u64 (Z.land asked (Bitset.word (index mod WORDS) (exists_rows s)))) as Hl by (apply land_u64; [done|apply Hw]).
    destruct (Stamped.uniform s) as [version|] eqn:Hu.
    + rewrite (uniform_get _ _ _ Hu). destruct (row_visible r version) eqn:Hv.
      * split; [done|]. rewrite test_land, Bitset.test_word by done.
        destruct (Bitset.get _ (exists_rows s)); [by rewrite Hv|by rewrite none_visible].
      * split; [apply is_u64_0|]. rewrite test_0. destruct (Bitset.get _ (exists_rows s)); [by rewrite Hv, andb_false_r|].
        by rewrite none_visible, andb_false_r.
    + split; [apply fold_seen_u64; [by apply bits_of_small|apply is_u64_0]|].
      rewrite (fold_seen (λ bit, row_visible r (Stamped.get (index mod WORDS * 64 + bit) s))) by by apply bits_of_small.
      rewrite test_0. simpl.
      destruct (bool_decide (j ∈ bits_of _)) eqn:Hin.
      * apply bool_decide_eq_true, bits_of_elem in Hin as [_ Ht]; [|done]. rewrite test_land in Ht.
        apply andb_true_iff in Ht as [-> _]. done.
      * apply bool_decide_eq_false in Hin. rewrite bits_of_elem in Hin by done. rewrite test_land, Bitset.test_word in Hin by done.
        simpl. destruct (test asked j); [|done]. simpl. simpl in Hin.
        unfold Stamped.get. destruct (Bitset.get _ (exists_rows s)) eqn:Hg; [|by rewrite none_visible].
        destruct Hin. done.
Qed.

Lemma test_all j : (j < 64)%nat → test u64_max j = true.
Proof. intros Hj. by rewrite test_max, bool_decide_eq_true_2. Qed.

Lemma is_u64_max : is_u64 u64_max.
Proof. unfold is_u64, u64_max. lia. Qed.

Lemma filter_flat_words (f : nat → bool) n :
  flat_map (λ index, map (λ bit, (index * 64 + bit)%nat)
    (List.filter (λ bit, f (index * 64 + bit)%nat) (seq 0 64))) (seq 0 n) =
  List.filter f (seq 0 (n * 64)).
Proof.
  assert (∀ a, flat_map (λ index, map (λ bit, (index * 64 + bit)%nat)
      (List.filter (λ bit, f (index * 64 + bit)%nat) (seq 0 64))) (seq a n) =
    List.filter f (seq (a * 64) (n * 64))) as Hgen; [|apply (Hgen 0%nat)].
  induction n as [|n IH]; intros a; [done|].
  cbn [seq flat_map]. rewrite IH, (Nat.mul_succ_l n), (Nat.add_comm _ 64), seq_app, List.filter_app.
  f_equal; [|by replace (a * 64 + 64)%nat with (S a * 64)%nat by lia].
  symmetry. apply Bitset.filter_seq_shift.
Qed.

(** The scan of every row. *)
Lemma for_each_visible_row_spec r v :
  versions_ok v →
  Versions.for_each_visible_row r v =
    List.filter (λ row, Versions.visible row r v) (seq 0 (length v * VECTOR_ROWS)).
Proof.
  intros Hok. unfold Versions.for_each_visible_row. rewrite VECTOR_ROWS_words, Nat.mul_assoc.
  rewrite <- filter_flat_words. apply flat_map_ext. intros index. f_equal.
  pose proof (λ j Hj, visible_word_test index u64_max r v j Hok is_u64_max Hj) as Hw.
  rewrite bits_of_spec by (apply (Hw 0%nat); lia). apply Bitset.filter_ext_seq. intros j Hj.
  destruct (Hw j) as [_ ->]; [lia|]. by rewrite test_all by lia.
Qed.

Lemma for_each_visible_spec b r v :
  versions_ok v → Bitset.wf b →
  Versions.for_each_visible b r v =
    List.filter (λ row, Bitset.get row b && Versions.visible row r v) (seq 0 (length b * 64)).
Proof.
  intros Hok Hb. unfold Versions.for_each_visible. rewrite <- filter_flat_words.
  assert (zip (seq 0 (length b)) b = map (λ i, (i, Bitset.word i b)) (seq 0 (length b))) as ->.
  { assert (∀ n l, zip (seq n (length l)) l = map (λ i, (i, Bitset.word (i - n) l)) (seq n (length l))) as Hgen.
    { intros n l. revert n. induction l as [|w l IH]; intros n; [done|]. cbn [length seq zip zip_with map].
      rewrite Nat.sub_diag. f_equal. setoid_rewrite IH. apply map_ext_in. intros i Hi%in_seq.
      by replace (i - n)%nat with (S (i - S n)) by lia. }
    rewrite Hgen. apply map_ext. intros i. by rewrite Nat.sub_0_r. }
  rewrite flat_map_concat_map, map_map, <- flat_map_concat_map. apply flat_map_ext. intros index. f_equal.
  pose proof (λ j Hj, visible_word_test index (Bitset.word index b) r v j Hok (Bitset.word_u64 _ _ Hb) Hj) as Hw.
  rewrite bits_of_spec by (apply (Hw 0%nat); lia). apply Bitset.filter_ext_seq. intros j Hj.
  destruct (Hw j) as [_ ->]; [lia|]. by rewrite Bitset.test_word by (done || lia).
Qed.

Lemma count_visible_spec r v :
  versions_ok v → Versions.count_visible r v = length (Versions.for_each_visible_row r v).
Proof.
  intros Hok. unfold Versions.count_visible, Versions.for_each_visible_row.
  induction (seq 0 (length v * WORDS)) as [|i l IH]; [done|]. simpl. rewrite length_app, length_map, <- IH.
  f_equal. unfold count_ones. rewrite bits_of_spec; [done|].
  apply (visible_word_test i u64_max r v 0%nat Hok is_u64_max). lia.
Qed.
