(* ===== verification/RowCollapse.v ===== *)
(** * Collapsing stamped vectors

    The incremental check and collapse of one vector equal the reference that
    reads and rebuilds every row, and a collapse at a horizon changes what no
    reader at the horizon or later sees. *)
From S2P Require Import Prelude Bits Bitset RowVersions RowVersionFacts RowVersionProps.
Open Scope Z_scope.

#[local] Opaque VECTOR_ROWS.
#[local] Arguments Nat.div : simpl never.
#[local] Arguments Nat.modulo : simpl never.

Lemma zip_seq_word l : zip (seq 0 (length l)) l = map (λ i, (i, Bitset.word i l)) (seq 0 (length l)).
Proof.
  assert (∀ n, zip (seq n (length l)) l = map (λ i, (i, Bitset.word (i - n) l)) (seq n (length l))) as Hgen.
  { induction l as [|w l IH]; intros n; [done|]. cbn [length seq zip zip_with map].
    rewrite Nat.sub_diag. f_equal. setoid_rewrite IH. apply map_ext_in. intros i Hi%in_seq.
    by replace (i - n)%nat with (S (i - S n)) by lia. }
  rewrite Hgen. apply map_ext. intros i. by rewrite Nat.sub_0_r.
Qed.

Lemma fold_left_map {A B C} (f : A → B → A) (g : C → B) l a :
  fold_left f (map g l) a = fold_left (λ a c, f a (g c)) l a.
Proof. revert a. induction l as [|c l IH]; intros a; [done|]. simpl. apply IH. Qed.

Lemma fold_left_ext' {A B} (f g : A → B → A) l a :
  (∀ a x, f a x = g a x) → fold_left f l a = fold_left g l a.
Proof. intros Heq. revert a. induction l as [|x l IH]; intros a; [done|]. simpl. by rewrite Heq, IH. Qed.

Lemma forallb_ext_in' {A} (f g : A → bool) l : (∀ x, x ∈ l → f x = g x) → forallb f l = forallb g l.
Proof.
  induction l as [|x l IH]; intros Heq; [done|]. simpl. rewrite Heq by left. rewrite IH; [done|].
  intros y Hy. apply Heq. by right.
Qed.

Lemma forallb_map {A B} (f : B → bool) (g : A → B) l : forallb f (map g l) = forallb (λ x, f (g x)) l.
Proof. induction l as [|x l IH]; [done|]. simpl. by rewrite IH. Qed.

Lemma forallb_flat_map {A B} (f : B → bool) (g : A → list B) l :
  forallb f (flat_map g l) = forallb (λ x, forallb f (g x)) l.
Proof. induction l as [|x l IH]; [done|]. simpl. by rewrite forallb_app, IH. Qed.

(** ** Whether a vector is settled *)

(** The rows a create stamped and that exist are the rows that exist. *)
Lemma written_rows e i :
  Bitset.wf e → (length e ≤ WORDS)%nat → inserts_ok e (PerRow i) →
  flat_map (λ at_, map (λ bit, (at_ * 64 + bit)%nat)
    (bits_of (Z.land (Bitset.word at_ (written i)) (Bitset.word at_ e)))) (seq 0 WORDS) =
  List.filter (λ row, Bitset.get row e) (seq 0 VECTOR_ROWS).
Proof.
  intros Hwf Hlen (_ & Hwl & Hww & Hsub & _). rewrite VECTOR_ROWS_words, <- filter_flat_words.
  apply flat_map_ext. intros at_. f_equal.
  rewrite bits_of_spec by (apply land_u64; [by apply Bitset.word_u64|apply Bitset.word_u64, Hwf]).
  apply Bitset.filter_ext_seq. intros j Hj. rewrite test_land, !Bitset.test_word by (done || lia).
  specialize (Hsub (at_ * 64 + j)%nat). destruct (Bitset.get _ e); [by rewrite Hsub|apply andb_false_r].
Qed.

Lemma rows_vector e : Bitset.wf e → (length e ≤ WORDS)%nat →
  Bitset.rows e = List.filter (λ row, Bitset.get row e) (seq 0 VECTOR_ROWS).
Proof.
  intros Hwf Hlen. rewrite Bitset.rows_spec, VECTOR_ROWS_words by done.
  replace (WORDS * 64)%nat with (length e * 64 + (WORDS - length e) * 64)%nat by nia.
  rewrite seq_app, List.filter_app. rewrite <- (app_nil_r (List.filter _ _)) at 1. f_equal. symmetry.
  assert (∀ a k, (length e * 64 ≤ a)%nat → List.filter (λ row, Bitset.get row e) (seq a k) = []) as Hn; [|apply Hn; lia].
  intros a k. revert a. induction k as [|k IH]; intros a Ha; [done|]. simpl.
  destruct (Bitset.get a e) eqn:Hg; [apply Bitset.get_bound in Hg; [lia|done]|]. apply IH. lia.
Qed.

Lemma settled_written_eq horizon s :
  stamped_ok s → Stamped.settled_by_written horizon s = Stamped.settled_by horizon s.
Proof.
  intros (Hwf & Hlen & Hi & _). unfold Stamped.settled_by_written, Stamped.settled_by. f_equal.
  destruct (inserts s) as [c|i]; [done|]. rewrite rows_vector, <- (written_rows _ i) by done.
  rewrite forallb_flat_map. destruct Hi as (_ & Hwl & _). rewrite zip_seq_word, forallb_map, Hwl.
  apply forallb_ext_in'. intros at_ _. by rewrite forallb_map.
Qed.

(** ** What a collapse keeps *)

Section collapse.
Context (s : Stamped) (base : nat).
Hypothesis Hok : stamped_ok s.

(** The rows of a word that are gone, and what stays of it. *)
Definition dead (at_ : nat) : list nat :=
  match deletes s with
  | None => []
  | Some d =>
      List.filter (λ bit, negb (Deletes.get (at_ * 64 + bit) d =? ABSENT))
        (bits_of (Z.land (Bitset.word at_ (exists_rows s)) (Bitset.word at_ (delete_rows d))))
  end.

Definition clear_bits (w : Z) (bits : list nat) : Z :=
  fold_left (λ kept bit, Z.land kept (not64 (bit64 bit))) bits w.

Definition gone_of (at_ : nat) : list nat := map (λ bit, (base + at_ * 64 + bit)%nat) (dead at_).

Lemma fold_dead {A} (f : A → nat → A) d (bits : list nat) at_ a g :
  fold_left (λ '(x, gone) bit,
    if negb (Deletes.get (at_ * 64 + bit) d =? ABSENT)
    then (f x bit, gone ++ [(base + at_ * 64 + bit)%nat]) else (x, gone)) bits (a, g) =
  (let dead := List.filter (λ bit, negb (Deletes.get (at_ * 64 + bit) d =? ABSENT)) bits in
   (fold_left f dead a, g ++ map (λ bit, (base + at_ * 64 + bit)%nat) dead)).
Proof.
  revert a g. induction bits as [|b bits IH]; intros a g; simpl; [by rewrite app_nil_r|].
  destruct (negb _); rewrite IH; simpl; [|done]. by rewrite <- app_assoc.
Qed.

Lemma collapse_word_eq at_ g :
  match deletes s with
  | Some d => Versions.collapse_word base at_ (Bitset.word at_ (exists_rows s)) d g
  | None => (Bitset.word at_ (exists_rows s), g)
  end = (clear_bits (Bitset.word at_ (exists_rows s)) (dead at_), g ++ gone_of at_).
Proof.
  unfold gone_of, dead. destruct (deletes s) as [d|]; [|by rewrite app_nil_r].
  apply (fold_dead (λ kept bit, Z.land kept (not64 (bit64 bit)))).
Qed.

(** Clearing rows of a word in the bitset clears the bits of the word. *)
Lemma word_clears at_ bits e i :
  Bitset.wf e → Forall (λ b, (b < 64)%nat) bits →
  let e' := fold_left (λ e bit, Bitset.clear (at_ * 64 + bit) e) bits e in
  Bitset.wf e' ∧ length e' = length e ∧
  Bitset.word i e' = if (i =? at_)%nat then clear_bits (Bitset.word i e) bits else Bitset.word i e.
Proof.
  intros Hwf Hb. revert e Hwf. induction Hb as [|b bits Hb _ IH]; intros e Hwf; simpl.
  - split; [done|]. split; [done|]. by destruct (i =? at_)%nat.
  - destruct (IH (Bitset.clear (at_ * 64 + b) e) (Bitset.clear_wf _ _ Hwf)) as (Hw & Hl & Hi).
    split; [done|]. split; [rewrite Hl; unfold Bitset.clear; apply length_alter|]. rewrite Hi, Bitset.word_clear by done.
    rewrite Nat.div_add_l, (Nat.div_small b 64), Nat.add_0_r by lia.
    rewrite (Nat.add_comm (at_ * 64) b), Nat.Div0.mod_add, (Nat.mod_small b 64) by lia.
    by destruct (i =? at_)%nat.
Qed.

Lemma both_u64 d at_ :
  deletes s = Some d →
  is_u64 (Z.land (Bitset.word at_ (exists_rows s)) (Bitset.word at_ (delete_rows d))).
Proof.
  intros Hd. pose proof Hok as (Hwf & _ & _ & Hdel). rewrite Hd in Hdel. pose proof (proj1 Hdel) as (_ & Hdw & _).
  apply land_u64; [exact (Bitset.word_u64 _ _ Hwf)|]. exact (proj1 (Bitset.word_u64 at_ _ Hdw)).
Qed.

Lemma dead_elem b at_ :
  b ∈ dead at_ ↔ ∃ d, deletes s = Some d ∧
    b ∈ bits_of (Z.land (Bitset.word at_ (exists_rows s)) (Bitset.word at_ (delete_rows d))) ∧
    negb (Deletes.get (at_ * 64 + b) d =? ABSENT) = true.
Proof.
  unfold dead. destruct (deletes s) as [d|].
  - rewrite list_elem_of_In, List.filter_In, <- list_elem_of_In. split; [eauto|]. by intros (d' & [= <-] & ?).
  - rewrite elem_of_nil. split; [done|]. by intros (d & ? & _).
Qed.

Lemma dead_small at_ : Forall (λ b, (b < 64)%nat) (dead at_).
Proof.
  apply Forall_forall. intros b (d & Hd & Hb & _)%dead_elem.
  pose proof (proj1 (bits_of_elem _ b (both_u64 d at_ Hd)) Hb) as [Hx _]. exact Hx.
Qed.

(** The words past the bitset keep nothing and lose nothing. *)
Lemma word_past at_ : (length (exists_rows s) ≤ at_)%nat → Bitset.word at_ (exists_rows s) = 0.
Proof. intros Ha. unfold Bitset.word. by rewrite lookup_ge_None_2. Qed.

Lemma dead_past at_ : (length (exists_rows s) ≤ at_)%nat → dead at_ = [].
Proof.
  intros Ha. unfold dead. rewrite word_past by done. destruct (deletes s) as [d|]; [|done].
  rewrite Z.land_0_l. change (bits_of 0) with (@nil nat). done.
Qed.

Definition kept (at_ : nat) : Z := clear_bits (Bitset.word at_ (exists_rows s)) (dead at_).

Lemma kept_past at_ : (length (exists_rows s) ≤ at_)%nat → kept at_ = 0.
Proof. intros Ha. unfold kept. by rewrite dead_past, word_past by done. Qed.

Lemma clear_bits_u64 w bits : is_u64 w → Forall (λ b, (b < 64)%nat) bits → is_u64 (clear_bits w bits).
Proof.
  intros Hw Hb. revert w Hw. induction Hb as [|b bits Hb _ IH]; intros w Hw; [done|]. apply IH.
  apply land_u64; [done|]. apply not64_nonneg, bit64_u64, Hb.
Qed.

Lemma clear_bits_test w bits j :
  (j < 64)%nat → test (clear_bits w bits) j = test w j && negb (bool_decide (j ∈ bits)).
Proof.
  intros Hj. revert w. induction bits as [|b bits IH]; intros w; simpl.
  - by destruct (test w j).
  - rewrite IH, test_land, test_not64, test_bit64 by done. rewrite <- andb_assoc, <- negb_orb. f_equal. f_equal.
    rewrite <- bool_decide_or. apply bool_decide_ext. rewrite elem_of_cons. naive_solver.
Qed.

(** The words of the rebuild, after [n] words. *)
Lemma rebuild_fold n g :
  let '(e, gone) := fold_left (λ '(e, gone) at_,
      (Bitset.set_word at_ (kept at_) e, gone ++ gone_of at_)) (seq 0 n) ([], g) in
  Bitset.wf e ∧ Bitset.trimmed e ∧ (length e ≤ n)%nat ∧
  (∀ i, Bitset.word i e = if (i <? n)%nat then kept i else 0) ∧
  gone = g ++ flat_map gone_of (seq 0 n).
Proof.
  induction n as [|n IH].
  - simpl. split; [constructor|]. split; [done|]. split; [done|]. split; [|by rewrite app_nil_r].
    intros i. done.
  - rewrite seq_S, fold_left_app. destruct (fold_left _ (seq 0 n) ([], g)) as [e gone].
    destruct IH as (Hwf & Htr & Hlen & Hw & ->). simpl.
    assert (is_u64 (kept n)) as Hk.
    { apply clear_bits_u64; [apply Bitset.word_u64, Hok|apply dead_small]. }
    split; [by apply Bitset.set_word_wf|]. split; [|split; [|split]].
    + unfold Bitset.set_word. destruct (Z.eqb_spec (kept n) 0) as [|Hne]; [done|].
      destruct (Nat.leb_spec (length e) n); [|lia]. unfold Bitset.trimmed, resize.
      rewrite last_lookup, length_alter, length_app, length_replicate.
      replace (pred (length e + (S n - length e)))%nat with n by lia.
      rewrite list_lookup_alter_eq, lookup_app_r by lia. rewrite lookup_replicate_2 by lia.
      cbn [fmap option_fmap option_map]. rewrite Z.lor_0_l. by intros [= ?].
    + unfold Bitset.set_word. destruct (kept n =? 0); [lia|]. destruct (Nat.leb_spec (length e) n); [|lia].
      rewrite length_alter. unfold resize. rewrite length_app, length_replicate. lia.
    + intros i. rewrite Bitset.word_set_word, Hw.
      destruct (Nat.eqb_spec i n), (Nat.ltb_spec i n), (Nat.ltb_spec i (S n)); subst; try (exfalso; lia); unfold kept; rewrite ?Z.lor_0_l; reflexivity.
    + rewrite flat_map_app. simpl. by rewrite app_nil_r, <- app_assoc.
Qed.

(** The words of the incremental collapse, after [n] words. *)
Lemma clear_fold n g :
  let '(e, gone) := fold_left (λ '(e, gone) at_,
      (fold_left (λ e bit, Bitset.clear (at_ * 64 + bit) e) (dead at_) e, gone ++ gone_of at_))
      (seq 0 n) (exists_rows s, g) in
  Bitset.wf e ∧ length e = length (exists_rows s) ∧
  (∀ i, Bitset.word i e = if (i <? n)%nat then kept i else Bitset.word i (exists_rows s)) ∧
  gone = g ++ flat_map gone_of (seq 0 n).
Proof.
  induction n as [|n IH].
  - simpl. split; [apply Hok|]. split; [done|]. split; [|by rewrite app_nil_r]. done.
  - rewrite seq_S, fold_left_app. destruct (fold_left _ (seq 0 n) (exists_rows s, g)) as [e gone].
    destruct IH as (Hwf & Hlen & Hw & ->). simpl.
    pose proof (λ i, word_clears n (dead n) e i Hwf (dead_small n)) as Hc.
    destruct (Hc 0%nat) as (Hwf' & Hlen' & _). split; [done|]. split; [congruence|]. split.
    + intros i. destruct (Hc i) as (_ & _ & ->). rewrite Hw.
      destruct (Nat.eqb_spec i n), (Nat.ltb_spec i n), (Nat.ltb_spec i (S n)); subst; try (exfalso; lia); unfold kept; rewrite ?Z.lor_0_l; reflexivity.
    + rewrite flat_map_app. simpl. by rewrite app_nil_r, <- app_assoc.
Qed.

End collapse.

(** ** One vector *)

(** The rebuild of [collapse_into]. *)
Lemma collapse_into_eq index horizon v s gone :
  versions_ok v → v !! index = Some (StampedVector s) → Stamped.settled_by horizon s = true →
  ∃ e, Versions.collapse_into index horizon v gone =
      (<[index := Flat e]> v,
       gone ++ flat_map (gone_of s (index * VECTOR_ROWS)) (seq 0 (length (exists_rows s)))) ∧
    Bitset.wf e ∧ Bitset.trimmed e ∧ (length e ≤ length (exists_rows s))%nat ∧
    ∀ i, Bitset.word i e = kept s i.
Proof.
  intros Hv Hi Hset. pose proof (Forall_lookup_1 _ _ _ _ Hv Hi) as Hok. simpl in Hok.
  unfold Versions.collapse_into. rewrite Hi, Hset. cbn [negb]. rewrite zip_seq_word, fold_left_map.
  pose proof (rebuild_fold s (index * VECTOR_ROWS) Hok (length (exists_rows s)) gone) as Hr.
  rewrite (fold_left_ext' _ (λ '(e, gone) at_,
    (Bitset.set_word at_ (kept s at_) e, gone ++ gone_of s (index * VECTOR_ROWS) at_))).
  2: { intros [e g] at_. pose proof (collapse_word_eq s (index * VECTOR_ROWS) at_ g) as Hw.
       cbn zeta beta iota. rewrite Hw. done. }
  destruct (fold_left _ (seq 0 (length (exists_rows s))) ([], gone)) as [e g].
  destruct Hr as (Hwf & Htr & Hlen & Hw & ->). exists e. split; [done|]. split_and!; try done.
  intros i. rewrite Hw. destruct (Nat.ltb_spec i (length (exists_rows s))); [done|]. by rewrite kept_past.
Qed.

(** The words of the delete bits run over the whole vector; the words past
    the bitset add nothing. *)
Lemma flat_map_past s base n :
  (length (exists_rows s) ≤ n)%nat →
  flat_map (gone_of s base) (seq 0 n) = flat_map (gone_of s base) (seq 0 (length (exists_rows s))).
Proof.
  intros Hle. replace n with (length (exists_rows s) + (n - length (exists_rows s)))%nat by lia.
  rewrite seq_app, flat_map_app. rewrite <- (app_nil_r (flat_map _ (seq 0 (length (exists_rows s))))) at 2. f_equal.
  assert (∀ a k, (length (exists_rows s) ≤ a)%nat → flat_map (gone_of s base) (seq a k) = []) as Hn; [|by apply Hn].
  intros a k. revert a. induction k as [|k IH]; intros a Ha; [done|]. cbn [seq flat_map].
  rewrite IH by lia. unfold gone_of. by rewrite dead_past.
Qed.

(** The clears of [collapse_vector]. *)
Lemma collapse_vector_eq index horizon v s :
  versions_ok v → v !! index = Some (StampedVector s) → Stamped.settled_by_written horizon s = true →
  ∃ e, Versions.collapse_vector index horizon v =
      (<[index := Flat (Bitset.trim e)]> v,
       flat_map (gone_of s (index * VECTOR_ROWS)) (seq 0 (length (exists_rows s)))) ∧
    ∀ i, Bitset.word i e = kept s i.
Proof.
  intros Hv Hi Hset. pose proof (Forall_lookup_1 _ _ _ _ Hv Hi) as Hok. simpl in Hok.
  unfold Versions.collapse_vector. rewrite Hi, Hset. cbn [negb].
  destruct (deletes s) as [d|] eqn:Hd.
  - pose proof Hok as (Hwf0 & Hlen0 & _ & Hdel). rewrite Hd in Hdel. destruct Hdel as [(Hdl & _) _].
    rewrite zip_seq_word, fold_left_map, Hdl.
    pose proof (λ n, clear_fold s (index * VECTOR_ROWS) Hok n []) as Hc.
    assert (∀ f n, (n ≤ WORDS)%nat →
      (∀ e g at_, f (e, g) at_ =
        (let dead := List.filter (λ bit, negb (Deletes.get (at_ * 64 + bit) d =? ABSENT))
           (bits_of (Z.land (Bitset.word at_ (delete_rows d)) (Bitset.word at_ e))) in
         (fold_left (λ e bit, Bitset.clear (at_ * 64 + bit) e) dead e,
          g ++ map (λ bit, (index * VECTOR_ROWS + at_ * 64 + bit)%nat) dead))) →
      fold_left f (seq 0 n) (exists_rows s, []) =
      fold_left (λ '(e, gone) at_,
        (fold_left (λ e bit, Bitset.clear (at_ * 64 + bit) e) (dead s at_) e, gone ++ gone_of s (index * VECTOR_ROWS) at_))
        (seq 0 n) (exists_rows s, [])) as Heq.
    { intros f n Hn Hf. induction n as [|n IH]; [done|]. rewrite !seq_S, !fold_left_app, IH by lia.
      specialize (Hc n). destruct (fold_left _ (seq 0 n) (exists_rows s, [])) as [e g].
      destruct Hc as (_ & _ & Hw & _). cbn [fold_left]. rewrite Hf. cbn zeta.
      rewrite Nat.add_0_l, Hw. destruct (Nat.ltb_spec n n); [lia|]. rewrite Z.land_comm.
      unfold gone_of, dead. by rewrite Hd. }
    rewrite Heq; [|done|intros e g at_; apply (fold_dead (index * VECTOR_ROWS) (λ e bit, Bitset.clear (at_ * 64 + bit) e))].
    specialize (Hc WORDS). destruct (fold_left _ (seq 0 WORDS) (exists_rows s, [])) as [e g].
    destruct Hc as (_ & _ & Hw & ->). exists e. split; [by rewrite flat_map_past|].
    intros i. rewrite Hw. destruct (Nat.ltb_spec i WORDS); [done|]. by rewrite kept_past, word_past by lia.
  - exists (exists_rows s). split.
    + f_equal. induction (seq 0 (length (exists_rows s))) as [|i l IH]; [done|]. cbn [flat_map].
      unfold gone_of at 1, dead. by rewrite Hd, <- IH.
    + intros i. unfold kept, dead. by rewrite Hd.
Qed.

(** ** What readers see *)

Lemma settled_spec horizon stamp :
  Stamped.settled horizon stamp = true ↔ is_pending stamp = false ∧ stamp ≤ horizon.
Proof. unfold Stamped.settled. rewrite andb_true_iff, negb_true_iff, Z.leb_le. done. Qed.

Lemma settled_sees horizon stamp r :
  Stamped.settled horizon stamp = true → horizon ≤ read_epoch r → sees r stamp = true.
Proof. intros [Hp Hle]%settled_spec Hr. rewrite sees_committed by done. apply Z.leb_le. lia. Qed.

Lemma settled_by_spec horizon s row :
  stamped_ok s → Stamped.settled_by horizon s = true → (row < VECTOR_ROWS)%nat →
  Bitset.get row (exists_rows s) = true →
  Stamped.settled horizon (Stamped.creator row s) = true ∧
  (Stamped.deleter row s = ABSENT ∨ Stamped.settled horizon (Stamped.deleter row s) = true).
Proof.
  intros (Hwf & Hlen & Hi & Hdel) [Hc Hd]%andb_true_iff Hrow Hex. split.
  - unfold Stamped.creator. destruct (inserts s) as [c|i].
    + apply orb_true_iff in Hc as [He|]; [|done]. by rewrite (proj1 (Bitset.is_empty_spec _ Hwf) He row) in Hex.
    + rewrite forallb_forall in Hc. apply Hc, list_elem_of_In. by apply Bitset.rows_elem.
  - unfold Stamped.deleter. unfold Stamped.deletes_settled in Hd. destruct (deletes s) as [d|]; [|by left].
    destruct Hdel as [Hok _]. rewrite forallb_forall in Hd.
    destruct (Z.eq_dec (Deletes.get row d) ABSENT) as [|Hne]; [by left|]. right.
    specialize (Hd (row, Deletes.get row d)). rewrite of_exists_spec in Hd by done.
    apply orb_true_iff in Hd as [?%Z.eqb_eq|]; [done|done|]. apply in_map_iff. exists row. split; [done|].
    apply List.filter_In. split; [apply in_seq; lia|]. by rewrite Hex, (proj2 (Z.eqb_neq _ _) Hne).
Qed.

(** The rows that stay are those that exist and nobody deleted. *)
Lemma kept_test s off :
  stamped_ok s → (off < VECTOR_ROWS)%nat →
  test (kept s (off / 64)) (off mod 64) = Bitset.get off (exists_rows s) && (Stamped.deleter off s =? ABSENT).
Proof.
  intros Hok Hoff. pose proof Hok as (Hwf & _ & _ & Hdel). unfold kept.
  rewrite clear_bits_test by apply Bitset.row_mod. rewrite <- Bitset.get_word by done.
  destruct (Bitset.get off (exists_rows s)) eqn:Hex; [|done]. simpl.
  assert ((off / 64 * 64 + off mod 64)%nat = off) as Hrow by (pose proof (Nat.div_mod_eq off 64); lia).
  unfold Stamped.deleter. destruct (deletes s) as [d|] eqn:Hd.
  - destruct Hdel as [Hdok _]. pose proof Hdok as (_ & Hdwf & _ & Hbits).
    destruct (Z.eqb_spec (Deletes.get off d) ABSENT) as [Ha|Hne].
    + rewrite bool_decide_eq_false_2; [done|]. intros (d' & Hd' & _ & Hn)%dead_elem. rewrite Hd in Hd'. simplify_eq.
      rewrite Hrow, Ha in Hn. done.
    + rewrite bool_decide_eq_true_2; [done|]. apply dead_elem. exists d. split; [done|]. split.
      * apply bits_of_elem; [by apply both_u64|]. split; [apply Bitset.row_mod|].
        rewrite test_land, <- !Bitset.get_word by done. rewrite Hex, Hbits by done. rewrite <- deletes_get by done.
        by rewrite (proj2 (Z.eqb_neq _ _) Hne).
      * rewrite Hrow. by rewrite (proj2 (Z.eqb_neq _ _) Hne).
  - rewrite bool_decide_eq_false_2; [done|]. intros (d' & Hd' & _)%dead_elem. congruence.
Qed.

Lemma collapse_into_visible index horizon v gone row r :
  versions_ok v → horizon ≤ read_epoch r →
  let v' := (Versions.collapse_into index horizon v gone).1 in
  versions_ok v' ∧ length v' = length v ∧ Versions.visible row r v' = Versions.visible row r v.
Proof.
  intros Hv Hr. destruct (v !! index) as [[e|s]|] eqn:Hi;
    [unfold Versions.collapse_into; by rewrite Hi| |unfold Versions.collapse_into; by rewrite Hi].
  pose proof (Forall_lookup_1 _ _ _ _ Hv Hi) as Hok. simpl in Hok.
  destruct (Stamped.settled_by horizon s) eqn:Hset; [|unfold Versions.collapse_into; by rewrite Hi, Hset].
  destruct (collapse_into_eq index horizon v s gone Hv Hi Hset) as (e & -> & Hwf & _ & Hlen & Hw). cbn [fst].
  split; [|split].
  - apply Forall_insert; [done|]. split; [done|]. destruct Hok as (_ & ? & _). lia.
  - apply length_insert.
  - unfold Versions.visible. destruct (decide (row / VECTOR_ROWS = index)%nat) as [Heq|Hne].
    + rewrite Heq, list_lookup_insert_eq, Hi by (by eapply lookup_lt_Some).
      pose proof (vector_mod row) as Hm. set (off := (row mod VECTOR_ROWS)%nat) in *.
      rewrite Bitset.get_word, Hw, kept_test by done. unfold Stamped.get.
      destruct (Bitset.get off (exists_rows s)) eqn:Hex; [|by rewrite none_visible]. simpl.
      destruct (settled_by_spec horizon s off Hok Hset Hm Hex) as [Hc Hd]. unfold row_visible. cbn [created deleted].
      rewrite (settled_sees _ _ r Hc Hr). destruct (Z.eqb_spec (Stamped.deleter off s) ABSENT) as [->|Hna].
      * by rewrite sees_absent.
      * destruct Hd as [?|Hd]; [done|]. by rewrite (settled_sees _ _ r Hd Hr).
    + by rewrite list_lookup_insert_ne.
Qed.

Lemma collapse_fold_visible horizon row r (l : list nat) v gone :
  versions_ok v → horizon ≤ read_epoch r →
  let v' := (fold_left (λ '(v, gone) index, Versions.collapse_into index horizon v gone) l (v, gone)).1 in
  versions_ok v' ∧ Versions.visible row r v' = Versions.visible row r v.
Proof.
  intros Hv Hr. revert v gone Hv. induction l as [|index l IH]; intros v gone Hv; [done|]. cbn [fold_left].
  pose proof (collapse_into_visible index horizon v gone row r Hv Hr) as (Hv' & _ & Hvis).
  destruct (Versions.collapse_into index horizon v gone) as [v' gone']. cbn [fst] in *.
  destruct (IH v' gone' Hv') as [? ->]. done.
Qed.

(** ** The guarantees *)

(** C12: Row versions refine a map from rows to versions. After [set_created],
    [set_deleted], [set_always] or [remove] the version of every row is the
    old one, but for the row written, whose version is the one the operation
    is asked to store. *)
Theorem versions_refine_map row stamp r v :
  versions_ok v →
  (versions_ok (Versions.set_created row stamp v) ∧
   Versions.get r (Versions.set_created row stamp v) =
     if (r =? row)%nat then mkVersion stamp (deleted (Versions.get r v)) else Versions.get r v) ∧
  (Versions.row_exists row v = true →
   versions_ok (Versions.set_deleted row stamp v) ∧
   Versions.get r (Versions.set_deleted row stamp v) =
     if (r =? row)%nat then mkVersion (created (Versions.get r v)) stamp else Versions.get r v) ∧
  (versions_ok (Versions.remove row v) ∧
   Versions.get r (Versions.remove row v) = if (r =? row)%nat then NONE else Versions.get r v) ∧
  (versions_ok (Versions.set_always row v) ∧
   Versions.get r (Versions.set_always row v) = if (r =? row)%nat then ALWAYS else Versions.get r v).
Proof.
  intros Hv. split; [by apply set_created_get|]. split; [by apply set_deleted_get|].
  split; [by apply remove_get|by apply set_always_get].
Qed.

(** C13: The word scans agree with the rows. [for_each_visible_row],
    [for_each_visible] over a set of rows and [count_visible] give exactly the
    rows whose version the reader sees, ascending, each once. *)
Theorem scans_see_visible_rows r v :
  versions_ok v → 0 ≤ read_epoch r →
  Versions.for_each_visible_row r v =
    List.filter (λ row, row_visible r (Versions.get row v)) (seq 0 (length v * VECTOR_ROWS)) ∧
  Versions.count_visible r v = length (Versions.for_each_visible_row r v) ∧
  ∀ b, Bitset.wf b →
    Versions.for_each_visible b r v =
      List.filter (λ row, Bitset.get row b && row_visible r (Versions.get row v)) (seq 0 (length b * 64)).
Proof.
  intros Hv Hr. split; [|split; [by apply count_visible_spec|]].
  - rewrite for_each_visible_row_spec by done. apply filter_ext. intros row. by apply visible_get.
  - intros b Hb. rewrite for_each_visible_spec by done. apply filter_ext. intros row. by rewrite visible_get.
Qed.

(** The in-place collapse of one vector. [collapse_vector], which works
    on the stamps where they are, gives the same versions and the same removed
    rows as the step of the full collapse, which builds the vector anew. *)
Theorem collapse_vector_equals_rebuild index horizon v :
  versions_ok v → Versions.collapse_vector index horizon v = Versions.collapse_into index horizon v [].
Proof.
  intros Hv. destruct (v !! index) as [[e|s]|] eqn:Hi.
  - unfold Versions.collapse_vector, Versions.collapse_into. by rewrite Hi.
  - pose proof (Forall_lookup_1 _ _ _ _ Hv Hi) as Hok. simpl in Hok.
    pose proof (settled_written_eq horizon s Hok) as Hse.
    destruct (Stamped.settled_by horizon s) eqn:Hset.
    + destruct (collapse_into_eq index horizon v s [] Hv Hi Hset) as (e & -> & _ & Htr & _ & Hw).
      destruct (collapse_vector_eq index horizon v s Hv Hi) as (e' & -> & Hw'); [by rewrite Hse|].
      rewrite app_nil_l. do 3 f_equal. apply Bitset.trimmed_ext; [apply Bitset.trim_trimmed|done|].
      intros i. by rewrite Bitset.word_trim, Hw, Hw'.
    + unfold Versions.collapse_vector, Versions.collapse_into. by rewrite Hi, Hse, Hset.
  - unfold Versions.collapse_vector, Versions.collapse_into. by rewrite Hi.
Qed.

(** Collapsing keeps reads. No reader at the horizon or later sees a
    different set of rows after a collapse at the horizon. *)
Theorem collapse_keeps_reads horizon row r v :
  versions_ok v → horizon ≤ read_epoch r →
  versions_ok (Versions.collapse horizon v).1 ∧
  Versions.visible row r (Versions.collapse horizon v).1 = Versions.visible row r v.
Proof. intros Hv Hr. by apply collapse_fold_visible. Qed.
