(* ===== verification/RowCommit.v ===== *)
(** * Committing the rows a transaction created

    [commit_created] gives the creates of a transaction among a range of rows
    their commit epoch, and reports which rows those are, as runs. A vector
    all of whose rows the transaction created takes the epoch whole. *)
From S2P Require Import Prelude Bits Bitset RowVersions RowVersionFacts RowVersionProps RowCollapse.
Open Scope Z_scope.

#[local] Opaque VECTOR_ROWS.
#[local] Arguments Nat.div : simpl never.
#[local] Arguments Nat.modulo : simpl never.

(** ** Runs of rows *)

Definition in_runs (row : nat) (runs : list (nat * nat)) : Prop :=
  ∃ run, run ∈ runs ∧ (run.1 ≤ row < run.2)%nat.

Definition runs_ok (runs : list (nat * nat)) : Prop := Forall (λ run, (run.1 < run.2)%nat) runs.

Lemma push_run_spec row runs r :
  runs_ok runs → runs_ok (Versions.push_run row runs) ∧
  (in_runs r (Versions.push_run row runs) ↔ r = row ∨ in_runs r runs).
Proof.
  intros Hok. unfold Versions.push_run.
  assert (runs_ok (runs ++ [(row, S row)]) ∧ (in_runs r (runs ++ [(row, S row)]) ↔ r = row ∨ in_runs r runs)) as Happ.
  { split; [apply Forall_app; split; [done|by apply Forall_singleton; simpl; lia]|]. unfold in_runs. split.
    - intros (run & [Hin|Hin%list_elem_of_singleton]%elem_of_app & Hr); [right; eauto|]. subst. simpl in Hr. left. lia.
    - intros [->|(run & Hin & Hr)].
      + exists (row, S row). split; [|simpl; lia]. apply elem_of_app. right. left.
      + exists run. split; [|done]. apply elem_of_app. by left. }
  destruct (last runs) as [[a b]|] eqn:Hl; [|done]. simpl. destruct (Nat.eqb_spec b row) as [->|]; [|done].
  apply last_Some in Hl as [l ->]. apply Forall_app in Hok as [Hl Hlast]. apply Forall_inv in Hlast. simpl in Hlast.
  rewrite length_app. simpl. replace (length l + 1 - 1)%nat with (length l + 0)%nat by lia.
  rewrite alter_app_r. simpl. split; [apply Forall_app; split; [done|by apply Forall_singleton; simpl; lia]|].
  unfold in_runs. split.
  - intros (run & [Hin|Hin%list_elem_of_singleton]%elem_of_app & Hr).
    + right. exists run. split; [|done]. apply elem_of_app. by left.
    + subst. simpl in Hr. destruct (decide (r = row)); [by left|]. right. exists (a, row). split; [|simpl; lia].
      apply elem_of_app. right. left.
  - intros [->|(run & [Hin|Hin%list_elem_of_singleton]%elem_of_app & Hr)].
    + exists (a, S row). split; [|simpl; lia]. apply elem_of_app. right. left.
    + exists run. split; [|done]. apply elem_of_app. by left.
    + subst. simpl in Hr. exists (a, S row). split; [|simpl; lia]. apply elem_of_app. right. left.
Qed.

Lemma push_runs_spec base rows runs r :
  runs_ok runs →
  let runs' := fold_left (λ runs row, Versions.push_run (base + row) runs) rows runs in
  runs_ok runs' ∧ (in_runs r runs' ↔ (∃ row, row ∈ rows ∧ r = (base + row)%nat) ∨ in_runs r runs).
Proof.
  revert runs. induction rows as [|row rows IH]; intros runs Hok; cbn [fold_left].
  - split; [done|]. split; [by right|]. intros [(row & Hin & _)|?]; [by apply not_elem_of_nil in Hin|done].
  - destruct (push_run_spec (base + row) runs r Hok) as [Hok' Hin].
    destruct (IH _ Hok') as [Hok'' ->]. split; [done|]. rewrite Hin. setoid_rewrite elem_of_cons. naive_solver.
Qed.

(** ** One vector *)

Section vector.
Context (from to : Z).
Hypothesis Hfrom : from ≠ ABSENT.

(** What a commit may do to a row's version, and what it must. *)
Definition may_commit (old new : RowVersion) : Prop :=
  new = old ∨ (created old = from ∧ new = mkVersion to (deleted old)).

Lemma may_commit_refl x : may_commit x x.
Proof. by left. Qed.

Lemma may_commit_to x y : created x = to → may_commit x y → created y = to.
Proof. intros Hx [->|[_ ->]]; done. Qed.

(** The loop over the rows of a vector with a stamp per row. *)
Lemma commit_fold e i0 rows i l :
  Bitset.wf e → inserts_ok e (PerRow i) → (∀ row, row ∈ rows → (row < VECTOR_ROWS)%nat) →
  (∀ r, r ∈ l → stamp_at r (insert_stamps i) = to) →
  (∀ r, (r < VECTOR_ROWS)%nat → stamp_at r (insert_stamps i) = stamp_at r (insert_stamps i0) ∨
     stamp_at r (insert_stamps i0) = from ∧ stamp_at r (insert_stamps i) = to ∧ r ∈ l) →
  let '(i', l') := fold_left (λ '(i, committed) row,
      if stamp_at row (insert_stamps i) =? from
      then (PerRowInserts.set row to i, committed ++ [row]) else (i, committed)) rows (i, l) in
  inserts_ok e (PerRow i') ∧ l ⊆ l' ∧
  (∀ r, r ∈ l' → (r ∈ l ∨ r ∈ rows ∧ Bitset.get r e = true) ∧ stamp_at r (insert_stamps i') = to) ∧
  (∀ r, (r < VECTOR_ROWS)%nat → stamp_at r (insert_stamps i') = stamp_at r (insert_stamps i0) ∨
     stamp_at r (insert_stamps i0) = from ∧ stamp_at r (insert_stamps i') = to ∧ r ∈ l') ∧
  (∀ r, r ∈ rows → stamp_at r (insert_stamps i0) = from → r ∈ l').
Proof.
  intros Hwf. revert i l. induction rows as [|row rows IH]; intros i l Hi Hrows Hl Hpast; cbn [fold_left].
  - split; [done|]. split; [done|]. split; [intros r Hr; split; [by left|auto]|]. split; [done|]. intros r Hr. by apply not_elem_of_nil in Hr.
  - assert (row < VECTOR_ROWS)%nat as Hrow by (apply Hrows; left).
    assert (∀ r, r ∈ rows → (r < VECTOR_ROWS)%nat) as Hrows' by (intros r Hr; apply Hrows; by right).
    destruct (Z.eqb_spec (stamp_at row (insert_stamps i)) from) as [Hs|Hs].
    + pose proof Hi as (Hlen & _ & _ & _ & Habs).
      assert (Bitset.get row e = true) as Hex.
      { destruct (Bitset.get row e) eqn:Hg; [done|]. rewrite (Habs row Hrow Hg) in Hs. congruence. }
      assert (inserts_ok e (PerRow (PerRowInserts.set row to i))) as Hi'.
      { pose proof (inserts_set_ok e row to i Hwf Hrow Hi) as (? & ? & ? & Hsub & Hab). split_and!; try done.
        - intros r Hr. apply Hsub. rewrite Bitset.get_set by done. by rewrite Hr, orb_true_r.
        - intros r Hr Hg. apply Hab; [done|]. rewrite Bitset.get_set by done. rewrite Hg.
          rewrite bool_decide_eq_false_2; [done|]. congruence. }
      assert (∀ r, stamp_at r (insert_stamps (PerRowInserts.set row to i)) =
        if (r =? row)%nat then to else stamp_at r (insert_stamps i)) as Hst.
      { intros r. apply stamp_at_insert. lia. }
      specialize (IH (PerRowInserts.set row to i) (l ++ [row]) Hi' Hrows').
      destruct (fold_left _ rows _) as [i' l']. destruct IH as (HA & HL & HB & HC & HD).
      * intros r [Hr|Hr%list_elem_of_singleton]%elem_of_app; rewrite Hst; [|subst; by rewrite Nat.eqb_refl].
        destruct (r =? row)%nat; [done|auto].
      * intros r Hr. rewrite Hst. destruct (Nat.eqb_spec r row) as [->|Hne].
        -- destruct (Hpast row Hr) as [Heq|(Ho & _ & _)].
           ++ right. split_and!; [congruence|done|]. apply elem_of_app. right. left.
           ++ right. split_and!; [done|done|]. apply elem_of_app. right. left.
        -- destruct (Hpast r Hr) as [|(? & ? & ?)]; [by left|]. right. split_and!; try done. apply elem_of_app. by left.
      * split; [done|]. split; [intros r Hr; apply HL, elem_of_app; by left|]. split; [|split; [done|]].
        -- intros r Hr. destruct (HB r Hr) as [[[?|Hx%list_elem_of_singleton]%elem_of_app|[? ?]] ?]; subst; split; try done; auto.
           ++ right. split; [left|done].
           ++ right. split; [by right|done].
        -- intros r [->|Hr]%elem_of_cons Hfr; [|by apply HD].
           apply HL, elem_of_app. right. left.
    + specialize (IH i l Hi Hrows' Hl Hpast). destruct (fold_left _ rows _) as [i' l'].
      destruct IH as (HA & HL & HB & HC & HD). split; [done|]. split; [done|]. split; [|split; [done|]].
      * intros r Hr. destruct (HB r Hr) as [[?|[? ?]] ?]; split; try done; auto. right. split; [by right|done].
      * intros r [->|Hr]%elem_of_cons Hfr; [|by apply HD].
        destruct (Hpast row Hrow) as [Hx|(_ & _ & Hin)]; [congruence|by apply HL].
Qed.

Lemma stamped_commit_spec start end_ s :
  (end_ ≤ VECTOR_ROWS)%nat → stamped_ok s →
  let '(s', rows) := Stamped.commit_created start end_ from to s in
  stamped_ok s' ∧
  (∀ r, (r < VECTOR_ROWS)%nat → may_commit (Stamped.get r s) (Stamped.get r s')) ∧
  (∀ r, r ∈ rows → (start ≤ r < end_)%nat ∧ created (Stamped.get r s') = to) ∧
  (∀ r, (start ≤ r < end_)%nat → created (Stamped.get r s) = from →
     r ∈ rows ∧ Stamped.get r s' = mkVersion to (deleted (Stamped.get r s))).
Proof.
  intros Hend Hok. pose proof Hok as (Hwf & Hlen & Hi & Hd). unfold Stamped.commit_created.
  destruct (inserts s) as [c|i] eqn:Hins.
  - assert (∀ r x, Stamped.get r (mkStamped (exists_rows s) (Constant x) (deletes s)) =
      if Bitset.get r (exists_rows s) then mkVersion x (Stamped.deleter r s) else NONE) as Hget.
    { intros r x. unfold Stamped.get; simpl. by destruct (Bitset.get r (exists_rows s)). }
    assert (∀ r, Stamped.get r s = if Bitset.get r (exists_rows s) then mkVersion c (Stamped.deleter r s) else NONE) as Hold.
    { intros r. unfold Stamped.get, Stamped.creator. rewrite Hins. by destruct (Bitset.get r (exists_rows s)). }
    destruct ((c =? from) || (c =? to)) eqn:Hc.
    + split; [by split_and!|]. split; [|split].
      * intros r _. rewrite Hget, Hold. destruct (Bitset.get r (exists_rows s)); [|by left].
        apply orb_true_iff in Hc as [->%Z.eqb_eq| ->%Z.eqb_eq]; [by right|by left].
      * intros r Hr. rewrite list_elem_of_In, List.filter_In in Hr. destruct Hr as [Hr Hb].
        apply list_elem_of_In, Bitset.rows_elem in Hr; [|done]. rewrite Hget, Hr. split; [|done].
        apply andb_true_iff in Hb as [?%Nat.leb_le ?%Nat.ltb_lt]. lia.
      * intros r Hr Hfr. rewrite Hold in Hfr |- *. rewrite Hget.
        destruct (Bitset.get r (exists_rows s)) eqn:Hg; [|by simpl in Hfr]. split; [|done].
        apply list_elem_of_In, List.filter_In. split; [by apply list_elem_of_In, Bitset.rows_elem|].
        apply andb_true_iff. split; [apply Nat.leb_le|apply Nat.ltb_lt]; lia.
    + split; [done|]. split; [intros; apply may_commit_refl|]. split; [intros r Hr; by apply not_elem_of_nil in Hr|].
      intros r _ Hfr. rewrite Hold in Hfr. destruct (Bitset.get r (exists_rows s)); [|by simpl in Hfr].
      simpl in Hfr. apply orb_false_iff in Hc as [?%Z.eqb_neq _]. congruence.
  - pose proof (commit_fold (exists_rows s) i (seq start (end_ - start)) i [] Hwf Hi) as Hf.
    destruct (fold_left _ (seq start (end_ - start)) (i, [])) as [i' rows].
    destruct Hf as (HA & _ & HB & HC & HD).
    { intros row Hrow%elem_of_seq. lia. }
    { intros r Hr. by apply not_elem_of_nil in Hr. }
    { intros r _. by left. }
    assert (∀ r x, Stamped.get r (mkStamped (exists_rows s) (PerRow x) (deletes s)) =
      if Bitset.get r (exists_rows s) then mkVersion (stamp_at r (insert_stamps x)) (Stamped.deleter r s) else NONE) as Hget.
    { intros r x. unfold Stamped.get; simpl. by destruct (Bitset.get r (exists_rows s)). }
    assert (∀ r, Stamped.get r s = if Bitset.get r (exists_rows s) then mkVersion (stamp_at r (insert_stamps i)) (Stamped.deleter r s) else NONE) as Hold.
    { intros r. unfold Stamped.get, Stamped.creator. rewrite Hins. by destruct (Bitset.get r (exists_rows s)). }
    split; [by split_and!|]. split; [|split].
    + intros r Hr. rewrite Hget, Hold. destruct (Bitset.get r (exists_rows s)); [|by left].
      destruct (HC r Hr) as [->|(Hx & -> & _)]; [by left|by right].
    + intros r Hr. destruct (HB r Hr) as [[Hn|[Hr'%elem_of_seq Hex]] Ht]; [by apply not_elem_of_nil in Hn|].
      split; [lia|]. by rewrite Hget, Hex.
    + intros r Hr Hfr. rewrite Hold in Hfr |- *. rewrite Hget.
      destruct (Bitset.get r (exists_rows s)); [|by simpl in Hfr]. simpl in Hfr.
      assert (r ∈ rows) as Hin by (apply HD; [apply elem_of_seq; lia|done]).
      split; [done|]. destruct (HB r Hin) as [_ ->]. done.
Qed.

End vector.

(** ** The loop over the vectors *)

Lemma start_bounds start :
  (start / VECTOR_ROWS * VECTOR_ROWS ≤ start < start / VECTOR_ROWS * VECTOR_ROWS + VECTOR_ROWS)%nat.
Proof.
  pose proof (Nat.div_mod_eq start VECTOR_ROWS). pose proof (vector_mod start). lia.
Qed.

(** The rows of one vector. *)
Lemma row_of_vector r index :
  (r / VECTOR_ROWS = index)%nat ↔ (index * VECTOR_ROWS ≤ r < index * VECTOR_ROWS + VECTOR_ROWS)%nat.
Proof.
  pose proof vector_rows_pos. split.
  - intros <-. apply start_bounds.
  - intros Hr. symmetry. apply (Nat.div_unique _ _ _ (r - index * VECTOR_ROWS)); lia.
Qed.

Lemma may_commit_trans from to x y z : may_commit from to x y → may_commit from to y z → may_commit from to x z.
Proof.
  intros [->|[Hx ->]] [->|[Hy ->]]; [by left|by right|by right|]. right. done.
Qed.

(** One turn of the loop: the vector of [start]. *)
Lemma commit_turn from to start stop v s s' rows runs :
  let index := (start / VECTOR_ROWS)%nat in
  let base := (index * VECTOR_ROWS)%nat in
  from ≠ ABSENT → (start < stop ≤ base + VECTOR_ROWS)%nat → versions_ok v → runs_ok runs →
  v !! index = Some (StampedVector s) →
  Stamped.commit_created (start - base) (stop - base) from to s = (s', rows) →
  let v' := <[index := StampedVector s']> v in
  let runs' := fold_left (λ runs row, Versions.push_run (base + row) runs) rows runs in
  versions_ok v' ∧ runs_ok runs' ∧
  (∀ r, may_commit from to (Versions.get r v) (Versions.get r v')) ∧
  (∀ r, (stop ≤ r)%nat → (base + VECTOR_ROWS ≤ r)%nat → Versions.get r v' = Versions.get r v) ∧
  (∀ r, in_runs r runs → in_runs r runs') ∧
  (∀ r, in_runs r runs' → in_runs r runs ∨ (start ≤ r < stop)%nat ∧ created (Versions.get r v') = to) ∧
  (∀ r, (start ≤ r < stop)%nat → created (Versions.get r v) = from → in_runs r runs').
Proof.
  intros index base Hfrom Hstop Hv Hruns Hi Hc v' runs'. pose proof (start_bounds start) as Hb.
  fold index in Hb. fold base in Hb.
  pose proof (Forall_lookup_1 _ _ _ _ Hv Hi) as Hok. simpl in Hok.
  pose proof (stamped_commit_spec from to Hfrom (start - base) (stop - base) s ltac:(lia) Hok) as Hs.
  rewrite Hc in Hs. destruct Hs as (Hok' & Hmay & Hrows & Hmust).
  pose proof (λ r, push_runs_spec base rows runs r Hruns) as Hpush.
  assert (∀ r, (r / VECTOR_ROWS = index)%nat → Versions.get r v' = Stamped.get (r - base) s' ∧
    Versions.get r v = Stamped.get (r - base) s ∧ (r - base < VECTOR_ROWS)%nat) as Hin.
  { intros r Hr. rewrite !get_vector, Hr. unfold v'. rewrite list_lookup_insert_eq, Hi by (by eapply lookup_lt_Some).
    pose proof (Nat.div_mod_eq r VECTOR_ROWS) as Hdm. rewrite Hr in Hdm. pose proof (vector_mod r).
    replace (r - base)%nat with (r mod VECTOR_ROWS)%nat by (unfold base; lia). done. }
  assert (∀ r, (r / VECTOR_ROWS ≠ index)%nat → Versions.get r v' = Versions.get r v) as Hout.
  { intros r Hr. rewrite !get_vector. unfold v'. by rewrite list_lookup_insert_ne. }
  split_and!.
  - by apply Forall_insert.
  - by destruct (Hpush 0%nat).
  - intros r. destruct (decide (r / VECTOR_ROWS = index)%nat) as [Hr|Hr].
    + destruct (Hin r Hr) as (-> & -> & Hlt). by apply Hmay.
    + rewrite Hout by done. apply may_commit_refl.
  - intros r _ Hr. apply Hout. rewrite row_of_vector. fold base. lia.
  - intros r Hr. apply Hpush. by right.
  - intros r Hr. apply Hpush in Hr as [(row & Hrow & ->)|?]; [|by left]. right. destruct (Hrows row Hrow) as [Hrng Ht].
    split; [lia|]. destruct (Hin (base + row)%nat) as (-> & _ & _).
    { apply row_of_vector. fold base. lia. }
    by replace (base + row - base)%nat with row by lia.
  - intros r Hr Hfr. apply Hpush. left. exists (r - base)%nat. split; [|lia].
    destruct (Hin r) as (_ & Hg & _); [apply row_of_vector; fold base; lia|].
    apply Hmust; [lia|]. by rewrite <- Hg.
Qed.

(** A vector that holds no stamps has no row of an open transaction. *)
Lemma unstamped_created from r v :
  from ≠ ABSENT → from ≠ 0 →
  match v !! (r / VECTOR_ROWS)%nat with Some (StampedVector _) => False | _ => True end →
  created (Versions.get r v) ≠ from.
Proof.
  intros Ha H0. rewrite get_vector. destruct (v !! _) as [[e|s]|]; [|done|]; intros _.
  - simpl. destruct (Bitset.get _ e); simpl; congruence.
  - simpl. congruence.
Qed.

Lemma commit_loop_spec from to fuel start end_ v runs :
  from ≠ ABSENT → from ≠ 0 → (end_ - start < fuel)%nat → versions_ok v → runs_ok runs →
  let '(v', runs') := Versions.commit_loop fuel start end_ from to v runs in
  versions_ok v' ∧
  (∀ r, may_commit from to (Versions.get r v) (Versions.get r v')) ∧
  (∀ r, in_runs r runs → in_runs r runs') ∧
  (∀ r, in_runs r runs' → in_runs r runs ∨ (start ≤ r < end_)%nat ∧ created (Versions.get r v') = to) ∧
  (∀ r, (start ≤ r < end_)%nat → created (Versions.get r v) = from → in_runs r runs').
Proof.
  intros Hfrom Hzero. revert start v runs. induction fuel as [|fuel IH]; intros start v runs Hfuel Hv Hruns; [lia|].
  cbn [Versions.commit_loop]. destruct (Nat.ltb_spec start end_) as [Hlt|Hge].
  2: { split_and!; try done; [intros; apply may_commit_refl|by left|intros; lia]. }
  set (index := (start / VECTOR_ROWS)%nat). set (base := (index * VECTOR_ROWS)%nat).
  set (stop := Nat.min end_ (base + VECTOR_ROWS)). pose proof (start_bounds start) as Hb. fold index base in Hb.
  assert ((start < stop ≤ base + VECTOR_ROWS)%nat ∧ (stop ≤ end_)%nat) as [Hstop Hse] by lia.
  assert (match v !! index with Some (StampedVector _) => False | _ => True end →
    let '(v', runs') := Versions.commit_loop fuel stop end_ from to v runs in
    versions_ok v' ∧ (∀ r, may_commit from to (Versions.get r v) (Versions.get r v')) ∧
    (∀ r, in_runs r runs → in_runs r runs') ∧
    (∀ r, in_runs r runs' → in_runs r runs ∨ (start ≤ r < end_)%nat ∧ created (Versions.get r v') = to) ∧
    (∀ r, (start ≤ r < end_)%nat → created (Versions.get r v) = from → in_runs r runs')) as Hskip.
  { intros Hno. specialize (IH stop v runs ltac:(lia) Hv Hruns).
    destruct (Versions.commit_loop fuel stop end_ from to v runs) as [v' runs'].
    destruct IH as (HA & HB & HC & HD & HE). split_and!; try done.
    - intros r [?|[? ?]]%HD; [by left|]. right. split; [lia|done].
    - intros r Hr Hfr. destruct (decide (stop ≤ r)%nat) as [|Hlt']; [apply HE; [lia|done]|].
      destruct (unstamped_created from r v Hfrom Hzero); [|done].
      assert ((r / VECTOR_ROWS)%nat = index) as -> by (apply row_of_vector; fold base; lia). done. }
  destruct (v !! index) as [[e|s]|] eqn:Hi; [by apply Hskip| |by apply Hskip].
  destruct (Stamped.commit_created (start - base) (stop - base) from to s) as [s' rows] eqn:Hc.
  destruct (commit_turn from to start stop v s s' rows runs Hfrom Hstop Hv Hruns Hi Hc)
    as (Hv1 & Hr1 & Hmay & Hlater & Hmono & Hsound & Hcompl). fold index base in Hv1, Hr1, Hmay, Hlater, Hmono, Hsound, Hcompl.
  specialize (IH stop _ _ ltac:(lia) Hv1 Hr1).
  destruct (Versions.commit_loop fuel stop end_ from to _ _) as [v' runs'].
  destruct IH as (HA & HB & HC & HD & HE). split_and!.
  - done.
  - intros r. eapply may_commit_trans; [apply Hmay|apply HB].
  - intros r Hr. by apply HC, Hmono.
  - intros r [Hr|[Hr Ht]]%HD; [|right; split; [lia|done]]. destruct (Hsound r Hr) as [?|[? Ht]]; [by left|].
    right. split; [lia|]. eapply may_commit_to; [exact Ht|apply HB].
  - intros r Hr Hfr. destruct (decide (stop ≤ r)%nat) as [Hle|Hlt'].
    + apply HE; [lia|]. rewrite Hlater; [done|done|]. unfold stop in *. lia.
    + apply HC, Hcompl; [lia|done].
Qed.

(** Stamping a commit. [commit_created] moves the creation stamp of every
    row of the range that carries the pending stamp to the commit epoch and
    lists it in a run; the runs list only rows of the range that end with that
    epoch; a row is changed only if it carried the pending stamp, in its
    creation stamp only. *)
Theorem commit_created_stamps_rows from to start end_ v :
  versions_ok v → from ≠ ABSENT → from ≠ 0 →
  let '(v', runs) := Versions.commit_created start end_ from to v in
  versions_ok v' ∧
  (∀ row, (start ≤ row < end_)%nat → created (Versions.get row v) = from →
     Versions.get row v' = mkVersion to (deleted (Versions.get row v)) ∧ in_runs row runs) ∧
  (∀ row, in_runs row runs → (start ≤ row < end_)%nat ∧ created (Versions.get row v') = to) ∧
  (∀ row, Versions.get row v' = Versions.get row v ∨
     created (Versions.get row v) = from ∧ Versions.get row v' = mkVersion to (deleted (Versions.get row v))).
Proof.
  intros Hv Hfrom Hzero. unfold Versions.commit_created.
  pose proof (commit_loop_spec from to (S end_) start end_ v [] Hfrom Hzero ltac:(lia) Hv ltac:(constructor)) as Hl.
  destruct (Versions.commit_loop (S end_) start end_ from to v []) as [v' runs]. destruct Hl as (HA & HB & _ & HD & HE).
  assert (∀ r, ¬ in_runs r []) as Hnone by (intros r (run & Hin & _); by apply not_elem_of_nil in Hin).
  split; [done|]. split; [|split].
  - intros row Hr Hfr. pose proof (HE row Hr Hfr) as Hin. split; [|done].
    destruct (HD row Hin) as [?|[_ Ht]]; [by destruct (Hnone row)|].
    destruct (HB row) as [Heq|[_ ->]]; [|done]. rewrite Heq in Ht |- *. rewrite <- Ht. by destruct (Versions.get row v).
  - intros row [?|?]%HD; [by destruct (Hnone row)|done].
  - apply HB.
Qed.

(** ** The theorems on a group of rows *)

Lemma empty_ok : versions_ok [].
Proof. constructor. Qed.

(** Transaction 7 creates rows 5 and 6 beside the loaded row 2100, and deletes
    the loaded row. *)
Definition tx7 : Z := Z.lor PENDING 7.
Definition group : list Vector :=
  Versions.set_deleted 2100 tx7 (Versions.set_created 6 tx7 (Versions.set_created 5 tx7 (Versions.set_always 2100 []))).

Lemma group_ok : versions_ok group.
Proof.
  pose proof (set_always_get 2100 0 [] empty_ok) as [H1 _].
  pose proof (set_created_get 5 tx7 0 _ H1) as [H2 _]. pose proof (set_created_get 6 tx7 0 _ H2) as [H3 _].
  refine (proj1 (set_deleted_get 2100 tx7 0 _ H3 _)). vm_compute. reflexivity.
Qed.

Lemma versions_refine_map_witness :
  Versions.get 9 (Versions.set_created 9 4 group) = mkVersion 4 (deleted (Versions.get 9 group)).
Proof. destruct (versions_refine_map 9 4 9 group group_ok) as [[_ Hg] _]. exact Hg. Defined.

Lemma scans_see_visible_rows_witness :
  Versions.count_visible (ReadAt 3) group = length (Versions.for_each_visible_row (ReadAt 3) group).
Proof.
  destruct (scans_see_visible_rows (ReadAt 3) group group_ok) as (_ & Hc & _); [simpl; lia|exact Hc].
Defined.

Lemma collapse_vector_equals_rebuild_witness :
  Versions.collapse_vector 0 20 (Versions.commit_created 0 10 tx7 12 group).1 =
  Versions.collapse_into 0 20 (Versions.commit_created 0 10 tx7 12 group).1 [].
Proof.
  apply collapse_vector_equals_rebuild.
  pose proof (commit_created_stamps_rows tx7 12 0 10 group group_ok ltac:(discriminate) ltac:(discriminate)) as Hc.
  destruct (Versions.commit_created 0 10 tx7 12 group) as [v' runs]. apply Hc.
Defined.

Lemma collapse_keeps_reads_witness :
  Versions.visible 2100 (ReadTransaction 7 3) (Versions.collapse 3 group).1 =
  Versions.visible 2100 (ReadTransaction 7 3) group.
Proof. destruct (collapse_keeps_reads 3 2100 (ReadTransaction 7 3) group group_ok) as [_ Hv]; [simpl; lia|exact Hv]. Defined.

Lemma commit_created_stamps_rows_witness :
  let '(v', runs) := Versions.commit_created 0 10 tx7 12 group in
  Versions.get 5 v' = mkVersion 12 (deleted (Versions.get 5 group)) ∧ in_runs 5 runs.
Proof.
  pose proof (commit_created_stamps_rows tx7 12 0 10 group group_ok ltac:(discriminate) ltac:(discriminate)) as Hc.
  destruct (Versions.commit_created 0 10 tx7 12 group) as [v' runs]. destruct Hc as (_ & Hc & _).
  apply Hc; [lia|vm_compute; reflexivity].
Defined.
