(* ===== verification/Mvcc.v ===== *)
(** * Version chains

    grafeo-common/src/mvcc.rs: the versions of one entity, newest first, with
    the epochs and transactions that created and deleted each of them. A
    [VersionChain] is the list of its deque, front first; an operation on
    [&mut self] returns the chain it leaves. *)
From S2P Require Import Prelude Ids.
Open Scope Z_scope.

Record VersionInfo := {
  created_epoch : Z;
  deleted_epoch : option Z;
  created_by : Z;
  deleted_by : option Z
}.

Module VersionInfo.

Definition new (epoch tx : Z) : VersionInfo :=
  {| created_epoch := epoch; deleted_epoch := None; created_by := tx; deleted_by := None |}.

Definition mark_deleted (epoch tx : Z) (v : VersionInfo) : VersionInfo :=
  {| created_epoch := created_epoch v; deleted_epoch := Some epoch;
     created_by := created_by v; deleted_by := Some tx |}.

(** Takes the deletion back when [tx] made it; whether it did. *)
Definition unmark_deleted_by (tx : Z) (v : VersionInfo) : VersionInfo * bool :=
  if bool_decide (deleted_by v = Some tx) then
    ({| created_epoch := created_epoch v; deleted_epoch := None;
        created_by := created_by v; deleted_by := None |}, true)
  else (v, false).

Definition is_visible_at (epoch : Z) (v : VersionInfo) : bool :=
  if negb (EpochId.is_visible_at (created_epoch v) epoch) then false
  else match deleted_epoch v with
       | Some deleted => epoch <? deleted
       | None => true
       end.

Definition is_visible_to (viewing_epoch viewing_tx : Z) (v : VersionInfo) : bool :=
  if bool_decide (deleted_by v = Some viewing_tx) then false
  else if created_by v =? viewing_tx then
    match deleted_epoch v with None => true | Some _ => false end
  else is_visible_at viewing_epoch v.

End VersionInfo.

Section chain.
Context {T : Type}.

Record Version := { info : VersionInfo; data : T }.

Definition with_info (f : VersionInfo → VersionInfo) (v : Version) : Version :=
  {| info := f (info v); data := data v |}.

Definition version_new (d : T) (epoch tx : Z) : Version :=
  {| info := VersionInfo.new epoch tx; data := d |}.

(** ** The operations of a chain *)

Definition with_initial (d : T) (epoch tx : Z) : list Version := [version_new d epoch tx].

Definition add_version (d : T) (epoch tx : Z) (c : list Version) : list Version :=
  version_new d epoch tx :: c.

Fixpoint find_version (p : VersionInfo → bool) (c : list Version) : option T :=
  match c with
  | [] => None
  | v :: c' => if p (info v) then Some (data v) else find_version p c'
  end.

Definition visible_at (epoch : Z) (c : list Version) : option T :=
  find_version (VersionInfo.is_visible_at epoch) c.

Definition visible_to (epoch tx : Z) (c : list Version) : option T :=
  find_version (VersionInfo.is_visible_to epoch tx) c.

(** Marks the newest version that is not deleted; whether there is one. *)
Fixpoint mark_deleted (epoch tx : Z) (c : list Version) : list Version * bool :=
  match c with
  | [] => ([], false)
  | v :: c' =>
      match deleted_epoch (info v) with
      | None => (with_info (VersionInfo.mark_deleted epoch tx) v :: c', true)
      | Some _ => let '(c'', marked) := mark_deleted epoch tx c' in (v :: c'', marked)
      end
  end.

Fixpoint unmark_deleted_by (tx : Z) (c : list Version) : list Version * bool :=
  match c with
  | [] => ([], false)
  | v :: c' =>
      let '(i, here) := VersionInfo.unmark_deleted_by tx (info v) in
      let '(c'', rest) := unmark_deleted_by tx c' in
      ({| info := i; data := data v |} :: c'', here || rest)
  end.

Definition modified_by (tx : Z) (c : list Version) : bool :=
  existsb (λ v, created_by (info v) =? tx) c.

Definition chain_deleted_by (tx : Z) (c : list Version) : bool :=
  existsb (λ v, bool_decide (deleted_by (info v) = Some tx)) c.

Definition remove_versions_by (tx : Z) (c : list Version) : list Version :=
  List.filter (λ v, negb (created_by (info v) =? tx)) c.

Definition finalize_info (tx commit_epoch : Z) (i : VersionInfo) : VersionInfo :=
  if (created_by i =? tx) && (created_epoch i =? EpochId.PENDING) then
    {| created_epoch := commit_epoch; deleted_epoch := deleted_epoch i;
       created_by := created_by i; deleted_by := deleted_by i |}
  else i.

Definition finalize_epochs (tx commit_epoch : Z) (c : list Version) : list Version :=
  map (with_info (finalize_info tx commit_epoch)) c.

Definition has_conflict (start_epoch our_tx : Z) (c : list Version) : bool :=
  existsb (λ v, negb (created_by (info v) =? our_tx) && (start_epoch <? created_epoch (info v))) c.

(** The scan of [gc]: how many versions to keep, from index [i] on, given the
    count kept so far and whether an old version was seen. *)
Fixpoint gc_keep (min_epoch : Z) (i keep : nat) (found : bool) (c : list Version) : nat :=
  match c with
  | [] => keep
  | v :: c' =>
      if min_epoch <=? created_epoch (info v) then gc_keep min_epoch (S i) (S i) found c'
      else if negb found then gc_keep min_epoch (S i) (S i) true c'
      else gc_keep min_epoch (S i) keep found c'
  end.

Definition gc (min_epoch : Z) (c : list Version) : list Version * nat :=
  let kept := take (gc_keep min_epoch 0 0 false c) c in
  (kept, (length c - length kept)%nat).

Definition latest (c : list Version) : option T := data <$> head c.

Fixpoint position (p : VersionInfo → bool) (c : list Version) : option nat :=
  match c with
  | [] => None
  | v :: c' => if p (info v) then Some 0%nat else S <$> position p c'
  end.

(** [get_mut]: the chain after it and the index of the version whose data the
    returned reference points into. *)
Definition get_mut (epoch tx modify_epoch : Z) (c : list Version) : option (list Version * nat) :=
  match position (VersionInfo.is_visible_to epoch tx) c with
  | None => None
  | Some i =>
      match c !! i with
      | None => None
      | Some visible =>
          if created_by (info visible) =? tx then Some (c, i)
          else Some (add_version (data visible) modify_epoch tx c, 0%nat)
      end
  end.

(** A write through the reference [get_mut] returned. *)
Definition set_data (i : nat) (d : T) (c : list Version) : list Version :=
  alter (λ v, {| info := info v; data := d |}) i c.

End chain.
Arguments Version : clear implicits.
