(* ===== verification/MvccFacts.v ===== *)
(** * What a version chain promises

    Rollback restores the chain a transaction found, uncommitted versions are
    invisible to every reader, a commit changes no snapshot before its epoch,
    and garbage collection changes no read at or after its horizon, on chains
    where a deletion reaches the older versions too; the chain operations do
    not keep that last condition, as the last theorem shows. *)
From S2P Require Import Prelude Ids Mvcc.
Open Scope Z_scope.

(** The rollback of a transaction: its deletions are taken back and its
    versions removed. *)
Definition rollback {T} (tx : Z) (c : list (Version T)) : list (Version T) :=
  remove_versions_by tx (unmark_deleted_by tx c).1.

(** What an open transaction [tx] does to a chain, stamping what it creates
    and deletes with [w]. *)
Inductive tx_op {T} (tx w : Z) (c : list (Version T)) : list (Version T) → Prop :=
  | op_add d : tx_op tx w c (add_version d w tx c)
  | op_delete : tx_op tx w c (mark_deleted w tx c).1
  | op_modify e c' i d : get_mut e tx w c = Some (c', i) → tx_op tx w c (set_data i d c').

(** A version that is not deleted names no deleter. *)
Definition version_ok {T} (v : Version T) : Prop :=
  deleted_epoch (info v) = None → deleted_by (info v) = None.

(** [tx] wrote nothing on the chain yet. *)
Definition untouched {T} (tx : Z) (c : list (Version T)) : Prop :=
  Forall (λ v, created_by (info v) ≠ tx ∧ deleted_by (info v) ≠ Some tx) c.

(** The versions [tx] created are stamped [w]. *)
Definition own_at {T} (tx w : Z) (c : list (Version T)) : Prop :=
  Forall (λ v, created_by (info v) = tx → created_epoch (info v) = w) c.

(** Create epochs do not increase towards the back: newest first. *)
Definition newest_first {T} (c : list (Version T)) : Prop :=
  StronglySorted (λ v w, created_epoch (info w) ≤ created_epoch (info v)) c.

(** A deletion reaches the versions behind it: none of them outlives it. *)
Definition deletes_reach_back {T} (c : list (Version T)) : Prop :=
  StronglySorted (λ v w, ∀ d, deleted_epoch (info v) = Some d →
    ∃ d', deleted_epoch (info w) = Some d' ∧ d' ≤ d) c.

Section rollback.
Context {T : Type}.
Implicit Types (c : list (Version T)) (v : Version T).

Definition unmark tx (v : Version T) : Version T :=
  with_info (λ i, (VersionInfo.unmark_deleted_by tx i).1) v.

Lemma unmark_deleted_by_map tx c : (unmark_deleted_by tx c).1 = map (unmark tx) c.
Proof.
  induction c as [|v c IH]; [done|]; simpl.
  destruct (VersionInfo.unmark_deleted_by tx (info v)) as [i b] eqn:Ei.
  destruct (unmark_deleted_by tx c) as [c' b'] eqn:Ec; simpl in *.
  rewrite <- IH. unfold unmark, with_info. by rewrite Ei.
Qed.

Lemma unmark_created tx v : created_by (info (unmark tx v)) = created_by (info v).
Proof. unfold unmark, with_info, VersionInfo.unmark_deleted_by; simpl. by case_goal. Qed.

Lemma rollback_cons tx v c :
  rollback tx (v :: c) =
    if created_by (info v) =? tx then rollback tx c else unmark tx v :: rollback tx c.
Proof.
  unfold rollback, remove_versions_by. rewrite !unmark_deleted_by_map.
  cbn [map List.filter]. rewrite unmark_created. by destruct (_ =? _).
Qed.

Lemma rollback_untouched tx c : untouched tx c → rollback tx c = c.
Proof.
  induction 1 as [|v c [Hc Hd] _ IH]; [done|].
  rewrite rollback_cons, IH, (proj2 (Z.eqb_neq _ _) Hc). f_equal.
  unfold unmark, with_info, VersionInfo.unmark_deleted_by.
  rewrite bool_decide_eq_false_2 by done. by destruct v.
Qed.

Lemma rollback_mark_deleted tx w c :
  Forall version_ok c → rollback tx (mark_deleted w tx c).1 = rollback tx c.
Proof.
  induction 1 as [|v c Hv _ IH]; [done|]; simpl.
  destruct (deleted_epoch (info v)) eqn:Hd.
  - destruct (mark_deleted w tx c) as [c' b] eqn:Hm; simpl in *.
    by rewrite !rollback_cons, IH.
  - cbn [fst]. rewrite !rollback_cons. cbn [with_info info VersionInfo.mark_deleted created_by].
    destruct (created_by (info v) =? tx); [done|]. f_equal. specialize (Hv Hd).
    unfold unmark, with_info, VersionInfo.unmark_deleted_by; simpl.
    rewrite bool_decide_eq_true_2 by done.
    rewrite bool_decide_eq_false_2 by (rewrite Hv; done).
    destruct v as [[] ?]; simpl in *; by subst.
Qed.

Lemma set_data_0 d v c : set_data 0 d (v :: c) = {| info := info v; data := d |} :: c.
Proof. done. Qed.

Lemma set_data_S i d v c : set_data (S i) d (v :: c) = v :: set_data i d c.
Proof. done. Qed.

Lemma rollback_set_data tx i v d c :
  c !! i = Some v → created_by (info v) = tx → rollback tx (set_data i d c) = rollback tx c.
Proof.
  revert i. induction c as [|v' c IH]; intros [|i] Hi Htx; try done; simpl in Hi.
  - simplify_eq. rewrite set_data_0, !rollback_cons. simpl. by rewrite Z.eqb_refl.
  - by rewrite set_data_S, !rollback_cons, IH.
Qed.

Lemma get_mut_own tx e w c c' i :
  get_mut e tx w c = Some (c', i) →
  (c' = c ∨ ∃ d, c' = add_version d w tx c) ∧
  ∃ v, c' !! i = Some v ∧ created_by (info v) = tx.
Proof.
  unfold get_mut. intros Hg. repeat case_goal; bool_to_prop; split; eauto.
Qed.

Lemma mark_deleted_ok tx w c : Forall version_ok c → Forall version_ok (mark_deleted w tx c).1.
Proof.
  induction 1 as [|v c Hv Hc IH]; [constructor|]; simpl.
  destruct (deleted_epoch (info v)) eqn:Hd.
  - destruct (mark_deleted w tx c); simpl in *. by constructor.
  - constructor; [done|done].
Qed.

Lemma set_data_Forall (P : VersionInfo → Prop) i d c :
  Forall (λ v, P (info v)) c → Forall (λ v, P (info v)) (set_data i d c).
Proof.
  revert i. induction c as [|v c IH]; intros [|i]; try done;
  inversion_clear 1; rewrite ?set_data_0, ?set_data_S; constructor; auto.
Qed.

Lemma tx_op_rollback tx w c c' :
  tx_op tx w c c' → Forall version_ok c →
  Forall version_ok c' ∧ rollback tx c' = rollback tx c.
Proof.
  intros Hop Hok. destruct Hop as [d| |e c' i d Hg].
  - split; [by constructor|]. unfold add_version. rewrite rollback_cons. simpl.
    by rewrite Z.eqb_refl.
  - split; [by apply mark_deleted_ok | by apply rollback_mark_deleted].
  - destruct (get_mut_own _ _ _ _ _ _ Hg) as [Hc' (v & Hi & Hv)].
    rewrite (rollback_set_data _ _ v) by done. split.
    + apply (set_data_Forall (λ i, deleted_epoch i = None → deleted_by i = None)).
      destruct Hc' as [->|[d' ->]]; [done|by constructor].
    + destruct Hc' as [->|[d' ->]]; [done|].
      unfold add_version. rewrite rollback_cons. simpl. by rewrite Z.eqb_refl.
Qed.

End rollback.

(** C8: Rollback. Whatever an open transaction does to a version chain (adding
    versions, deleting, writing through [get_mut]), taking back its deletions
    and removing its versions gives exactly the chain it found. *)
Theorem rollback_restores {T} (tx w : Z) (c c' : list (Version T)) :
  untouched tx c → Forall version_ok c → rtc (tx_op tx w) c c' → rollback tx c' = c.
Proof.
  intros Hu Hok Hrtc. trans (rollback tx c); [|by apply rollback_untouched]. clear Hu.
  induction Hrtc as [c|c c1 c' Hop _ IH]; [done|].
  destruct (tx_op_rollback _ _ _ _ Hop Hok) as [Hok1 <-]. by apply IH.
Qed.

(** ** Readers do not see an open transaction *)

Section snapshots.
Context {T : Type}.
Implicit Types (c : list (Version T)) (v : Version T).

Lemma visible_at_mark_deleted e tx w c :
  e < w → visible_at e (mark_deleted w tx c).1 = visible_at e c.
Proof.
  intros He. unfold visible_at. induction c as [|v c IH]; [done|]; simpl.
  destruct (deleted_epoch (info v)) eqn:Hd.
  - destruct (mark_deleted w tx c); simpl in *. by rewrite IH.
  - simpl. unfold VersionInfo.is_visible_at; simpl. rewrite Hd.
    rewrite (proj2 (Z.ltb_lt e w)) by done. done.
Qed.

Lemma visible_at_invisible e v c :
  VersionInfo.is_visible_at e (info v) = false → visible_at e (v :: c) = visible_at e c.
Proof. unfold visible_at; simpl. by intros ->. Qed.

Lemma is_visible_at_before e i : e < created_epoch i → VersionInfo.is_visible_at e i = false.
Proof.
  intros He. unfold VersionInfo.is_visible_at, EpochId.is_visible_at.
  by rewrite (proj2 (Z.leb_gt _ _)).
Qed.

Lemma visible_at_set_data e i v d c :
  c !! i = Some v → e < created_epoch (info v) → visible_at e (set_data i d c) = visible_at e c.
Proof.
  unfold visible_at. revert i. induction c as [|v' c IH]; intros [|i] Hi He; try done; simpl in Hi.
  - simplify_eq. rewrite set_data_0. simpl. by rewrite is_visible_at_before.
  - rewrite set_data_S. simpl. by rewrite IH.
Qed.

Lemma mark_deleted_own tx w c : own_at tx w c → own_at tx w (mark_deleted w tx c).1.
Proof.
  induction 1 as [|v c Hv Hc IH]; [constructor|]; simpl.
  destruct (deleted_epoch (info v)); [|by constructor].
  destruct (mark_deleted w tx c); simpl in *. by constructor.
Qed.

Lemma tx_op_invisible tx w c c' e :
  e < w → own_at tx w c → tx_op tx w c c' →
  own_at tx w c' ∧ visible_at e c' = visible_at e c.
Proof.
  intros He Hown [d| |e' c1 i d Hg].
  - split; [by constructor|]. unfold add_version. apply visible_at_invisible.
    by apply is_visible_at_before.
  - split; [by apply mark_deleted_own | by apply visible_at_mark_deleted].
  - destruct (get_mut_own _ _ _ _ _ _ Hg) as [Hc1 (v & Hi & Hv)].
    assert (own_at tx w c1 ∧ visible_at e c1 = visible_at e c) as [Ho Heq].
    { destruct Hc1 as [->|[d' ->]]; [done|]. split; [by constructor|].
      unfold add_version. apply visible_at_invisible. by apply is_visible_at_before. }
    split.
    + by apply (set_data_Forall (λ i, created_by i = tx → created_epoch i = w)).
    + rewrite <- Heq. apply (visible_at_set_data _ _ v); [done|].
      by rewrite (proj1 (Forall_lookup _ _) Ho i v Hi Hv).
Qed.

Lemma tx_ops_invisible tx w c c' e :
  e < w → own_at tx w c → rtc (tx_op tx w) c c' →
  own_at tx w c' ∧ visible_at e c' = visible_at e c.
Proof.
  intros He Hown Hrtc. induction Hrtc as [c|c c1 c' Hop _ IH]; [done|].
  destruct (tx_op_invisible _ _ _ _ e He Hown Hop) as [Ho1 Heq].
  destruct (IH Ho1) as [Ho2 Heq2]. split; [done | congruence].
Qed.

Lemma visible_at_finalize e tx ce c :
  e < ce → e < EpochId.PENDING → visible_at e (finalize_epochs tx ce c) = visible_at e c.
Proof.
  intros He Hp. unfold visible_at, finalize_epochs. induction c as [|v c IH]; [done|]; simpl.
  unfold finalize_info at 1. destruct ((created_by (info v) =? tx) && _) eqn:Hf; [|by rewrite IH].
  bool_to_prop. rewrite !is_visible_at_before; simpl; [done|lia|lia].
Qed.

Lemma untouched_own tx w c : untouched tx c → own_at tx w c.
Proof. intros Hu. eapply Forall_impl; [exact Hu|]. simpl. intros v [? _] ?. done. Qed.

End snapshots.

(** C9: Atomic visibility of a chain. What an open transaction does with
    pending stamps changes no read at any epoch, and once its versions are
    stamped with the commit epoch, no read before that epoch changes either.
    *)
Theorem snapshots_before_commit_unchanged {T} (tx commit_epoch e : Z) (c c' : list (Version T)) :
  untouched tx c → rtc (tx_op tx EpochId.PENDING) c c' → e < EpochId.PENDING →
  visible_at e c' = visible_at e c ∧
  (e < commit_epoch → visible_at e (finalize_epochs tx commit_epoch c') = visible_at e c).
Proof.
  intros Hu Hrtc Hp.
  destruct (tx_ops_invisible tx EpochId.PENDING c c' e Hp (untouched_own _ _ _ Hu) Hrtc) as [_ Heq].
  split; [done|]. intros He. by rewrite visible_at_finalize.
Qed.

(** ** Garbage collection *)

Section gc.
Context {T : Type}.
Implicit Types (c : list (Version T)) (v : Version T).

Lemma gc_keep_old m c i keep :
  Forall (λ v, created_epoch (info v) < m) c → gc_keep m i keep true c = keep.
Proof.
  intros Hall. revert i. induction Hall as [|v c Hv _ IH]; intros i; [done|]; simpl.
  by rewrite (proj2 (Z.leb_gt _ _) Hv), IH.
Qed.

(** On a chain that is newest first, what [gc] keeps is the versions created
    at or after the horizon and one older version. *)
Lemma gc_keep_shift m c i keep found :
  newest_first c →
  gc_keep m i keep found c =
    match c with
    | [] => keep
    | v :: c' => if m <=? created_epoch (info v) then gc_keep m (S i) (S i) found c'
                 else if found then keep else S i
    end.
Proof.
  intros Hs. destruct c as [|v c]; [done|]; simpl.
  destruct (m <=? _) eqn:Hm; [done|]. bool_to_prop.
  assert (Forall (λ w, created_epoch (info w) < m) c) as Hold.
  { inversion_clear Hs as [|? ? ? Hf]. eapply Forall_impl; [exact Hf|]. simpl. lia. }
  by destruct found; simpl; rewrite gc_keep_old.
Qed.

Lemma gc_take_visible m e c i keep :
  newest_first c → deletes_reach_back c → m ≤ e →
  i = keep →
  visible_at e (take (gc_keep m i keep false c - i) c) = visible_at e c.
Proof.
  intros Hs Hd Hme ->. revert keep. induction c as [|v c IH]; intros k; [by rewrite take_nil|].
  rewrite gc_keep_shift by done.
  inversion_clear Hs as [|? ? Hs' _]. inversion_clear Hd as [|? ? Hd' Hdv].
  assert (∀ b (n : nat), visible_at e (v :: b) = visible_at e (v :: c) ↔
    (if VersionInfo.is_visible_at e (info v) then True else visible_at e b = visible_at e c)) as Hcons.
  { intros b _. unfold visible_at; simpl. by destruct (VersionInfo.is_visible_at e (info v)). }
  destruct (m <=? created_epoch (info v)) eqn:Hm; bool_to_prop.
  - assert (∀ j l (w : list (Version T)), (j ≤ gc_keep m j j l w)%nat) as Hge.
    { clear. intros j l w.
      enough (∀ i k, (k ≤ i → k ≤ gc_keep m i k l w)%nat) by auto.
      revert l. induction w as [|v w IH]; intros l i k Hk; simpl; [done|].
      repeat case_goal; try (etrans; [|apply IH]; lia). }
    specialize (Hge (S k) false c).
    replace (gc_keep m (S k) (S k) false c - k)%nat
      with (S (gc_keep m (S k) (S k) false c - S k)) by lia.
    simpl. apply Hcons; [exact 0%nat|]. case_goal; [done|]. by apply IH.
  - replace (S k - k)%nat with 1%nat by lia. simpl. rewrite take_0.
    apply Hcons; [exact 0%nat|]. destruct (VersionInfo.is_visible_at e (info v)) eqn:Hv; [done|].
    unfold VersionInfo.is_visible_at, EpochId.is_visible_at in Hv.
    rewrite (proj2 (Z.leb_le _ e)) in Hv by lia. simpl in Hv.
    destruct (deleted_epoch (info v)) as [d|] eqn:Hdel; [|done]. bool_to_prop.
    symmetry. clear IH Hcons Hs' Hd'. unfold visible_at.
    induction Hdv as [|w c Hw _ IH]; [done|]; simpl. rewrite IH.
    destruct (Hw d eq_refl) as (d' & Hd' & ?).
    assert (VersionInfo.is_visible_at e (info w) = false) as ->; [|done].
    unfold VersionInfo.is_visible_at. rewrite Hd'. case_goal; [done|]. apply Z.ltb_ge. lia.
Qed.

End gc.

(** C34: Garbage collection of a chain. On a chain that is newest first and
    where a deletion reaches back, collecting at a horizon changes no read at
    the horizon or later. *)
Theorem gc_preserves_reads {T} (min_epoch e : Z) (c : list (Version T)) :
  newest_first c → deletes_reach_back c → min_epoch ≤ e →
  visible_at e (gc min_epoch c).1 = visible_at e c.
Proof.
  intros Hs Hd He. unfold gc. simpl.
  rewrite <- (gc_take_visible min_epoch e c 0 0 Hs Hd He eq_refl).
  by rewrite Nat.sub_0_r.
Qed.

(** Deleting after an update. [mark_deleted] marks only the newest
    version, so after create, update and delete a read past the deletion finds
    the version before the update, and a collection at the deletion changes
    that read to nothing. *)
Theorem delete_after_update_shows_old_version {T} (d1 d2 : T) (e1 e2 e3 e tx1 tx2 tx3 : Z) :
  e1 ≤ e2 → e2 ≤ e3 → e3 ≤ e → e2 < e3 →
  let c := (mark_deleted e3 tx3 (add_version d2 e2 tx2 (with_initial d1 e1 tx1))).1 in
  visible_at e c = Some d1 ∧ visible_at e (gc e3 c).1 = None.
Proof.
  intros H1 H2 H3 H4 c. subst c. unfold gc, visible_at; simpl.
  unfold VersionInfo.is_visible_at, EpochId.is_visible_at; simpl.
  rewrite !(proj2 (Z.leb_le _ e)), (proj2 (Z.ltb_ge e e3)) by lia.
  rewrite !(proj2 (Z.leb_gt e3 _)) by lia. simpl.
  rewrite (proj2 (Z.leb_le e2 e)), (proj2 (Z.ltb_ge e e3)) by lia. done.
Qed.

(** ** The theorems on a chain *)

(** Entity data 10, updated to 20 at epoch 3. *)
Definition chain : list (Version Z) := add_version 20 3 2 (with_initial 10 1 1).

(** Transaction 5 writes 30, deletes it and writes 40. *)
Definition chain_open : list (Version Z) :=
  add_version 40 EpochId.PENDING 5
    (mark_deleted EpochId.PENDING 5 (add_version 30 EpochId.PENDING 5 chain)).1.

Lemma chain_open_ops : rtc (tx_op 5 EpochId.PENDING) chain chain_open.
Proof.
  eapply rtc_l; [apply op_add|]. eapply rtc_l; [apply op_delete|]. eapply rtc_l; [apply op_add|]. apply rtc_refl.
Qed.

Lemma chain_untouched : untouched 5 chain.
Proof. repeat constructor; simpl; discriminate. Qed.

Lemma rollback_restores_witness : rollback 5 chain_open = chain.
Proof.
  apply (rollback_restores 5 EpochId.PENDING); [apply chain_untouched| |apply chain_open_ops].
  repeat constructor.
Defined.

Lemma snapshots_before_commit_unchanged_witness :
  visible_at 3 (finalize_epochs 5 4 chain_open) = Some 20.
Proof.
  apply (snapshots_before_commit_unchanged 5 4 3 chain chain_open);
    [apply chain_untouched|apply chain_open_ops|reflexivity|reflexivity].
Defined.

Lemma gc_preserves_reads_witness : visible_at 4 (gc 3 (add_version 50 5 9 chain)).1 = Some 20.
Proof.
  apply (gc_preserves_reads 3 4 (add_version 50 5 9 chain)).
  - repeat constructor; simpl; lia.
  - repeat constructor; simpl; intros d; discriminate.
  - lia.
Defined.

Lemma delete_after_update_shows_old_version_witness :
  visible_at 5 (mark_deleted 4 3 chain).1 = Some 10 ∧ visible_at 5 (gc 4 (mark_deleted 4 3 chain).1).1 = None.
Proof. apply (delete_after_update_shows_old_version 10 20 1 3 4 5 1 2 3); lia. Defined.
