(* ===== verification/ReadPins.v ===== *)
(** * Read pins

    [ReadPins] of grafeo-engine/src/transaction/manager.rs: the epochs the
    readers that hold the read horizon back read at, ascending, each once with
    how many readers it has. The deque is a list, front first. Its meaning is
    the count of readers per epoch ([readers_at]); every operation is shown to
    be the one on the counts, on deques that are well formed. *)
From S2P Require Import Prelude.
Open Scope Z_scope.

Module ReadPins.

(** Counts a reader at the published epoch and returns that epoch. *)
Definition hold_published (published : Z) (epochs : list (Z * Z)) : Z * list (Z * Z) :=
  match last epochs with
  | Some (newest, readers) =>
      if newest =? published
      then (published, <[(length epochs - 1)%nat := (newest, readers + 1)]> epochs)
      else (published, epochs ++ [(published, 1)])
  | None => (published, epochs ++ [(published, 1)])
  end.

(** Counts a reader at [epoch], in its place among the readers. *)
Definition hold_at (epoch : Z) (epochs : list (Z * Z)) : list (Z * Z) :=
  match binary_search_by_key fst epoch epochs with
  | Found index => alter (λ p, (p.1, p.2 + 1)) index epochs
  | InsertAt index => vec_insert index (epoch, 1) epochs
  end.

(** Releases one reader at [epoch]. *)
Definition release (epoch : Z) (epochs : list (Z * Z)) : list (Z * Z) :=
  match binary_search_by_key fst epoch epochs with
  | Found index =>
      match epochs !! index with
      | Some (at_, readers) =>
          if readers - 1 =? 0 then vec_remove index epochs
          else <[index := (at_, readers - 1)]> epochs
      | None => epochs
      end
  | InsertAt _ => epochs
  end.

(** The oldest epoch a reader reads at. *)
Definition oldest (epochs : list (Z * Z)) : option Z := fst <$> head epochs.

(** ** Meaning *)

(** How many readers read at [e]. *)
Fixpoint readers_at (e : Z) (epochs : list (Z * Z)) : Z :=
  match epochs with
  | [] => 0
  | (at_, n) :: l => (if at_ =? e then n else 0) + readers_at e l
  end.

Definition wf (epochs : list (Z * Z)) : Prop :=
  StronglySorted (λ p q, p.1 < q.1) epochs ∧ Forall (λ p, 0 < p.2) epochs.

Lemma wf_nil : wf [].
Proof. split; constructor. Qed.

Lemma wf_cons p l : wf (p :: l) ↔ 0 < p.2 ∧ Forall (λ q, p.1 < q.1) l ∧ wf l.
Proof.
  unfold wf. split.
  - intros [Hs Hp]. inversion_clear Hs. inversion_clear Hp. done.
  - intros (? & ? & ? & ?). split; by constructor.
Qed.

(** The search loops, one element at a time. *)
Lemma hold_at_cons e at_ n l :
  hold_at e ((at_, n) :: l) =
    if at_ <? e then (at_, n) :: hold_at e l
    else if at_ =? e then (at_, n + 1) :: l else (e, 1) :: (at_, n) :: l.
Proof.
  unfold hold_at, binary_search_by_key. simpl. destruct (at_ <? e) eqn:Hlt; simpl.
  - destruct (l !! _) as [x|]; [by destruct (x.1 =? e)|done].
  - by destruct (at_ =? e).
Qed.

Lemma release_cons e at_ n l :
  release e ((at_, n) :: l) =
    if at_ <? e then (at_, n) :: release e l
    else if at_ =? e then (if n - 1 =? 0 then l else (at_, n - 1) :: l)
    else (at_, n) :: l.
Proof.
  unfold release, binary_search_by_key. simpl. destruct (at_ <? e) eqn:Hlt; simpl.
  - destruct (l !! _) as [[a m]|] eqn:Hl; [|done]. simpl.
    destruct (a =? e); [|done]. 
    set (i := partition_point _ l) in *. change (((at_, n) :: l) !! S i) with (l !! i).
    rewrite Hl. by destruct (m - 1 =? 0).
  - destruct (at_ =? e); [|done]. simpl. by destruct (n - 1 =? 0).
Qed.

Lemma hold_at_keys e l q : q ∈ (hold_at e l).*1 → q = e ∨ q ∈ l.*1.
Proof.
  induction l as [|[a n] l IH]; [set_solver|].
  rewrite hold_at_cons. repeat case_goal; set_solver.
Qed.

Lemma release_keys e l q : q ∈ (release e l).*1 → q ∈ l.*1.
Proof.
  induction l as [|[a n] l IH]; [set_solver|].
  rewrite release_cons. repeat case_goal; set_solver.
Qed.

Lemma keys_Forall (P : Z → Prop) (l : list (Z * Z)) : Forall (λ p, P p.1) l ↔ ∀ e, e ∈ l.*1 → P e.
Proof.
  rewrite Forall_forall. split.
  - intros H e (p & -> & Hp)%list_elem_of_fmap. by apply H.
  - intros H p Hp. apply H. apply list_elem_of_fmap. eauto.
Qed.

Lemma readers_at_nonneg e l : wf l → 0 ≤ readers_at e l.
Proof.
  induction l as [|[a n] l IH]; [done|]. rewrite wf_cons. intros (? & _ & Hl). simpl in *.
  specialize (IH Hl). case_goal; lia.
Qed.

Lemma readers_at_above e l : Forall (λ p, e < p.1) l → readers_at e l = 0.
Proof.
  induction 1 as [|[a n] l Ha _ IH]; [done|]. simpl in *. rewrite IH.
  by rewrite (proj2 (Z.eqb_neq a e)) by lia.
Qed.

Lemma readers_at_key e l : wf l → 0 < readers_at e l ↔ e ∈ l.*1.
Proof.
  induction l as [|[a n] l IH]; [intros _; simpl; rewrite elem_of_nil; lia|].
  rewrite wf_cons. simpl. intros (Hn & Ha & Hl). specialize (IH Hl).
  pose proof (readers_at_nonneg e l Hl). destruct (Z.eqb_spec a e) as [->|Hne].
  - rewrite elem_of_cons. intuition lia.
  - rewrite Z.add_0_l, IH, elem_of_cons. naive_solver.
Qed.

Lemma hold_at_readers e x l : wf l →
  readers_at x (hold_at e l) = readers_at x l + (if x =? e then 1 else 0).
Proof.
  induction l as [|[a n] l IH]; intros Hwf.
  - simpl. rewrite (Z.eqb_sym x e). lia.
  - rewrite hold_at_cons. apply wf_cons in Hwf as (Hn & Ha & Hl).
    destruct (a <? e) eqn:?; simpl.
    + rewrite IH by done. lia.
    + destruct (Z.eqb_spec a e) as [->|Hne]; simpl.
      * rewrite (Z.eqb_sym x e). destruct (e =? x); lia.
      * rewrite (Z.eqb_sym x e). destruct (e =? x); lia.
Qed.

Lemma hold_at_wf e l : wf l → wf (hold_at e l).
Proof.
  induction l as [|[a n] l IH]; intros Hwf.
  - apply wf_cons. simpl. repeat constructor.
  - rewrite hold_at_cons. pose proof Hwf as (Hn & Ha & Hl)%wf_cons. simpl in *.
    destruct (a <? e) eqn:?; bool_to_prop.
    + apply wf_cons. split; [done|]. split; [|by apply IH].
      apply (keys_Forall (λ q, a < q)). intros q [->|Hq]%hold_at_keys; [done|].
      by apply (proj1 (keys_Forall (λ q, a < q) l)).
    + destruct (Z.eqb_spec a e) as [->|Hne].
      * apply wf_cons. simpl. split; [lia|done].
      * apply wf_cons. split; [done|]. split; [|done]. constructor; simpl; [lia|].
        eapply Forall_impl; [exact Ha|]. simpl. lia.
Qed.

Lemma release_readers e x l : wf l → 0 < readers_at e l →
  readers_at x (release e l) = readers_at x l - (if x =? e then 1 else 0).
Proof.
  induction l as [|[a n] l IH]; intros Hwf Hpos; [simpl in Hpos; lia|].
  rewrite release_cons. apply wf_cons in Hwf as (Hn & Ha & Hl). simpl in *.
  destruct (a <? e) eqn:?; bool_to_prop.
  - rewrite (proj2 (Z.eqb_neq a e)) in Hpos by lia. simpl. rewrite IH by (done || lia). lia.
  - destruct (Z.eqb_spec a e) as [->|Hne].
    + destruct (Z.eqb_spec (n - 1) 0); simpl; rewrite (Z.eqb_sym x e); destruct (e =? x); lia.
    + rewrite readers_at_above in Hpos; [lia|].
      eapply Forall_impl; [exact Ha|]. simpl. lia.
Qed.

Lemma release_wf e l : wf l → wf (release e l).
Proof.
  induction l as [|[a n] l IH]; intros Hwf; [done|].
  rewrite release_cons. pose proof Hwf as (Hn & Ha & Hl)%wf_cons. simpl in *.
  destruct (a <? e); [|destruct (a =? e); [|done]].
  - apply wf_cons. split; [done|]. split; [|by apply IH].
    apply (keys_Forall (λ q, a < q)). intros q Hq%release_keys.
    by apply (proj1 (keys_Forall (λ q, a < q) l)).
  - destruct (Z.eqb_spec (n - 1) 0); [done|]. apply wf_cons. simpl. split; [lia|done].
Qed.

Lemma hold_at_app p l l' :
  Forall (λ q, q.1 < p) l → hold_at p (l ++ l') = l ++ hold_at p l'.
Proof.
  induction 1 as [|[a n] l Ha _ IH]; [done|]. simpl in *.
  by rewrite hold_at_cons, (proj2 (Z.ltb_lt a p)), IH.
Qed.

Lemma wf_snoc l p : wf (l ++ [p]) → Forall (λ q, q.1 < p.1) l ∧ wf l.
Proof.
  induction l as [|q l IH]; simpl; [split; [done|apply wf_nil]|].
  rewrite wf_cons. intros (Hq & Hf & Hl). rewrite Forall_app, Forall_singleton in Hf.
  destruct Hf as [Hf Hp]. destruct (IH Hl) as [? ?].
  split; [by constructor|]. by apply wf_cons.
Qed.

(** A reader at an epoch no reader is past is counted at the back, where the
    ordered insertion puts it too. *)
Lemma hold_published_hold_at p l :
  wf l → Forall (λ q, q.1 ≤ p) l → hold_published p l = (p, hold_at p l).
Proof.
  intros Hwf Hle. unfold hold_published. destruct (last l) as [[a n]|] eqn:Hlast.
  - apply last_Some in Hlast as [l' ->]. destruct (wf_snoc _ _ Hwf) as [Hlt _].
    rewrite Forall_app, Forall_singleton in Hle. destruct Hle as [_ Ha]. simpl in *.
    rewrite hold_at_app, hold_at_cons by (eapply Forall_impl; [exact Hlt|]; simpl; lia).
    rewrite length_app. simpl. replace (length l' + 1 - 1)%nat with (length l' + 0)%nat by lia.
    rewrite insert_app_r. simpl. destruct (Z.eqb_spec a p) as [->|Hne].
    + by rewrite Z.ltb_irrefl.
    + rewrite (proj2 (Z.ltb_lt a p)) by lia. by rewrite <- app_assoc.
  - by apply last_None in Hlast as ->.
Qed.

(** The front is the oldest reader. *)
Lemma oldest_Some l e : wf l → oldest l = Some e →
  0 < readers_at e l ∧ ∀ x, 0 < readers_at x l → e ≤ x.
Proof.
  destruct l as [|[a n] l]; [done|]. intros Hwf Ho. unfold oldest in Ho. simpl in Ho. simplify_eq.
  pose proof Hwf as (Hn & Ha & Hl)%wf_cons. simpl in *.
  pose proof (readers_at_nonneg e l Hl). split; [rewrite Z.eqb_refl; lia|].
  intros x Hx. destruct (Z.eqb_spec e x) as [->|Hne]; [done|].
  rewrite Z.add_0_l in Hx. apply readers_at_key in Hx; [|done].
  apply Z.lt_le_incl. by apply (proj1 (keys_Forall (λ q, e < q) l)).
Qed.

Lemma oldest_None l e : wf l → oldest l = None → readers_at e l = 0.
Proof. by destruct l as [|[]]. Qed.

End ReadPins.
