(* ===== verification/History.v ===== *)
(** * The history of commits

    grafeo-engine/src/transaction/history.rs: how long the database keeps
    history, when each commit happened (the time index) and the floor, the
    oldest epoch a read may ask for. Every call that reads the clock takes the
    clock's value as its [now] argument. *)
From S2P Require Import Prelude.
Open Scope Z_scope.

(** [HistoryRetention] of grafeo-engine/src/config.rs; a duration in
    milliseconds ([as_millis] of it, a [u128]). *)
Inductive HistoryRetention : Set :=
  | Off
  | Duration (millis : Z)
  | Forever.

#[export] Instance HistoryRetention_eq_dec : EqDecision HistoryRetention.
Proof. solve_decision. Defined.

(** Why a read in the past is refused. *)
Inductive history_error : Set :=
  | HistoryIsOff
  | TimeNotRetained (oldest millis : Z)
  | BeforeFloor (floor epoch : Z).

Record HistoryImage := { image_floor : Z; image_times : list (Z * Z) }.

Record History := mkHistory {
  on : bool;
  retention : HistoryRetention;
  times : list (Z * Z);
  last_time : Z;
  floor : Z
}.

Module History.

Definition new : History := mkHistory false Off [] 0 0.

Definition is_on (h : History) : bool := on h.

Definition open (r : HistoryRetention) (h : History) : History :=
  mkHistory (negb (bool_decide (r = Off))) r (times h) (last_time h) (floor h).

(** The time the next commit takes: now, or the last time when the clock
    went back. *)
Definition next_time (now : Z) (h : History) : Z * History :=
  (Z.max (last_time h) now,
   mkHistory (on h) (retention h) (times h) (Z.max (last_time h) now) (floor h)).

Definition commit_time (now : Z) (h : History) : option Z * History :=
  if is_on h then let '(t, h') := next_time now h in (Some t, h') else (None, h).

(** Whether no recorded epoch is at or after [epoch]. *)
Definition newer_than_all (epoch : Z) (l : list (Z * Z)) : bool :=
  match last l with None => true | Some (newest, _) => newest <? epoch end.

Definition record (epoch millis : Z) (h : History) : History :=
  if negb (is_on h) then h
  else
    let m := match last (times h) with None => millis | Some (_, l) => Z.max millis l end in
    mkHistory (on h) (retention h)
      (if newer_than_all epoch (times h) then times h ++ [(epoch, m)] else times h)
      (Z.max (last_time h) m) (floor h).

Definition anchor (now published : Z) (h : History) : History :=
  if negb (is_on h) then h
  else if newer_than_all published (times h) then
    let '(t, h') := next_time now h in record published t h'
  else h.

Definition set_retention (now : Z) (r : HistoryRetention) (published : Z) (h : History) : History :=
  let was_on := negb (bool_decide (retention h = Off)) in
  let now_on := negb (bool_decide (r = Off)) in
  if now_on && negb was_on then
    let '(t, h') := next_time now h in
    mkHistory now_on r
      (if newer_than_all published (times h') then times h' ++ [(published, t)] else times h')
      (last_time h') (floor h')
  else if negb now_on then mkHistory now_on r [] (last_time h) (floor h)
  else mkHistory now_on r (times h) (last_time h) (floor h).

(** The start of the retention window; [None] while history is off. *)
Definition retention_horizon (now : Z) (h : History) : option Z :=
  if negb (is_on h) then None
  else match retention h with
       | Off => None
       | Forever => Some (floor h)
       | Duration millis =>
           let window := if millis <=? u64_max then millis else u64_max in
           let start := saturating_sub now window in
           let at_ := partition_point (λ p, p.2 <=? start) (times h) in
           let epoch := match at_ with
                        | O => floor h
                        | S index => match times h !! index with
                                     | Some p => p.1
                                     | None => floor h
                                     end
                        end in
           Some (Z.max epoch (floor h))
       end.

(** Moves the floor to [horizon] when it is later, and drops the commit times
    no read needs any more. *)
Definition collected_at (horizon : Z) (h : History) : History :=
  let keep_from := (partition_point (λ p, (p.1 <=? horizon)%Z) (times h) - 1)%nat in
  mkHistory (on h) (retention h)
    (if is_on h && (floor h <? horizon) then drop keep_from (times h) else times h)
    (last_time h) (Z.max (floor h) horizon).

(** The epoch a read at [millis] (an [i64]) reads at. *)
Definition epoch_at (millis : Z) (h : History) : result history_error Z :=
  if negb (is_on h) then Err HistoryIsOff
  else
    let m := Z.max 0 millis in
    match partition_point (λ p, p.2 <=? m) (times h) with
    | O => Err (TimeNotRetained (match head (times h) with Some p => p.2 | None => 0 end) millis)
    | S index =>
        match times h !! index with
        | None => Err HistoryIsOff
        | Some (epoch, _) =>
            if epoch <? floor h then Err (BeforeFloor (floor h) epoch) else Ok epoch
        end
    end.

Definition image (h : History) : option HistoryImage :=
  if negb (is_on h) then None
  else Some {| image_floor := floor h; image_times := times h |}.

Definition restore (i : HistoryImage) (h : History) : History :=
  let fl := Z.max (floor h) (image_floor i) in
  if negb (is_on h) then mkHistory (on h) (retention h) (times h) (last_time h) fl
  else mkHistory (on h) (retention h) (image_times i)
         (match last (image_times i) with
          | Some (_, l) => Z.max (last_time h) l
          | None => last_time h
          end) fl.

(** ** The time index is in order *)

(** Epochs ascend, times do not go back, and no time is after the last. *)
Definition times_ok (l : list (Z * Z)) : Prop := StronglySorted (λ p q, p.1 < q.1 ∧ p.2 ≤ q.2) l.

Definition wf (h : History) : Prop :=
  times_ok (times h) ∧ Forall (λ p, p.2 ≤ last_time h) (times h).

Lemma newer_than_all_spec epoch l :
  times_ok l → newer_than_all epoch l = true → Forall (λ p, p.1 < epoch) l.
Proof.
  unfold newer_than_all. intros Hs Hn. apply Forall_forall. intros p Hp.
  destruct (last l) as [[e t]|] eqn:Hl.
  - bool_to_prop. destruct (StronglySorted_last _ _ _ _ Hs Hl Hp) as [->|[? _]]; simpl in *; lia.
  - apply last_None in Hl as ->. by apply not_elem_of_nil in Hp.
Qed.

Lemma times_le_last l e t p : times_ok l → last l = Some (e, t) → p ∈ l → p.2 ≤ t.
Proof.
  intros Hs Hl Hp. destruct (StronglySorted_last _ _ _ _ Hs Hl Hp) as [->|[_ ?]]; simpl in *; lia.
Qed.

Lemma times_ok_push epoch m l :
  times_ok l → newer_than_all epoch l = true → Forall (λ p, p.2 ≤ m) l → times_ok (l ++ [(epoch, m)]).
Proof.
  intros Hs Hn Hm. apply StronglySorted_snoc; [done|].
  pose proof (newer_than_all_spec _ _ Hs Hn) as He.
  apply Forall_forall. intros p Hp. simpl. rewrite Forall_forall in He, Hm.
  split; [by apply He | by apply Hm].
Qed.

Lemma record_wf epoch millis h : wf h → wf (record epoch millis h).
Proof.
  intros [Hs Hl]. unfold record. case_goal; [done|].
  set (m := match last (times h) with None => millis | Some (_, l) => Z.max millis l end).
  assert (Forall (λ p, p.2 ≤ m) (times h)) as Hm.
  { apply Forall_forall. intros p Hp. subst m. destruct (last (times h)) as [[e t]|] eqn:Ht.
    - pose proof (times_le_last _ _ _ _ Hs Ht Hp). lia.
    - apply last_None in Ht. rewrite Ht in Hp. by apply not_elem_of_nil in Hp. }
  assert (Forall (λ p, p.2 ≤ Z.max (last_time h) m) (times h)) as Hmax.
  { eapply Forall_impl; [exact Hl|]. simpl. lia. }
  split; simpl; case_goal; try done.
  - by apply times_ok_push.
  - apply Forall_app. split; [done|]. apply Forall_singleton. simpl. lia.
Qed.

Lemma next_time_wf now h : wf h → wf (next_time now h).2.
Proof.
  intros [Hs Hl]. split; simpl; [done|]. eapply Forall_impl; [exact Hl|]. simpl. lia.
Qed.

Lemma commit_time_wf now h : wf h → wf (commit_time now h).2.
Proof.
  intros Hw. unfold commit_time. case_goal; [|done]. by apply (next_time_wf now).
Qed.

Lemma set_retention_wf now r published h : wf h → wf (set_retention now r published h).
Proof.
  intros [Hs Hl]. unfold set_retention.
  assert (Forall (λ p, p.2 ≤ Z.max (last_time h) now) (times h)) as Hmax.
  { eapply Forall_impl; [exact Hl|]. simpl. lia. }
  repeat case_goal; split; simpl; try done; try constructor.
  - by apply times_ok_push.
  - apply Forall_app. split; [done|]. apply Forall_singleton. simpl. lia.
Qed.

Lemma anchor_wf now published h : wf h → wf (anchor now published h).
Proof.
  intros Hw. unfold anchor. repeat case_goal; try done. by apply record_wf, (next_time_wf now).
Qed.

Lemma collected_at_wf horizon h : wf h → wf (collected_at horizon h).
Proof.
  intros [Hs Hl]. unfold collected_at. split; simpl; case_goal; try done.
  - by apply StronglySorted_drop.
  - by apply Forall_drop.
Qed.

(** ** Reading at a time *)

(** The entry a read at [m] finds: the newest one not after it. *)
Definition at_time (m : Z) (l : list (Z * Z)) (e : Z) : Prop :=
  ∃ t, (e, t) ∈ l ∧ t ≤ m ∧ ∀ p, p ∈ l → p.2 ≤ m → p.1 ≤ e.

Lemma at_time_lookup m l e :
  times_ok l →
  at_time m l e ↔ ∃ index t, partition_point (λ p, p.2 <=? m) l = S index ∧ l !! index = Some (e, t).
Proof.
  intros Hs. set (pp := partition_point _ l).
  assert (∀ i p, l !! i = Some p → (i < pp)%nat ↔ p.2 ≤ m) as Hpp.
  { intros i p Hi. unfold pp. rewrite (partition_point_sorted _ _ _ i p Hs); [apply Z.leb_le| |done].
    intros a b [_ ?] ?%Z.leb_le. apply Z.leb_le. lia. }
  split.
  - intros (t & Hin & Ht & Hmax). apply list_elem_of_lookup in Hin as [i Hi].
    assert ((i < pp)%nat) as Hip by by apply (Hpp i (e, t)).
    exists (pp - 1)%nat, t. split; [lia|].
    assert ((pp - 1)%nat = i ∨ (i < pp - 1)%nat) as [->|Hlt] by lia; [done|].
    pose proof (partition_point_le (λ p, p.2 <=? m) l) as Hle. fold pp in Hle.
    destruct (lookup_lt_is_Some_2 l (pp - 1)) as [q Hq]; [lia|].
    destruct (StronglySorted_lookup _ _ _ _ _ _ Hs Hlt Hi Hq) as [? _]. simpl in *.
    assert (q.1 ≤ e) by (apply Hmax; [by eapply list_elem_of_lookup_2 | apply (Hpp (pp - 1)%nat); [done|lia]]).
    lia.
  - intros (index & t & Hp & Hi). exists t.
    split; [by eapply list_elem_of_lookup_2|]. split; [apply (Hpp _ _ Hi); lia|].
    intros q [j Hj]%list_elem_of_lookup Hq. apply (Hpp _ _ Hj) in Hq.
    assert (j = index ∨ (j < index)%nat) as [->|Hlt] by lia.
    + rewrite Hi in Hj. by simplify_eq.
    + destruct (StronglySorted_lookup _ _ _ _ _ _ Hs Hlt Hj Hi). simpl in *. lia.
Qed.

Lemma epoch_at_iff millis h e :
  wf h → epoch_at millis h = Ok e ↔
    is_on h = true ∧ floor h ≤ e ∧ at_time (Z.max 0 millis) (times h) e.
Proof.
  intros [Hs _]. rewrite at_time_lookup by done. unfold epoch_at.
  destruct (is_on h); [|naive_solver]. simpl.
  destruct (partition_point _ (times h)) as [|index] eqn:Hp.
  - split; [done|]. by intros (_ & _ & ? & ? & ? & _).
  - destruct (times h !! index) as [[e' t]|] eqn:Ht.
    + destruct (e' <? floor h) eqn:Hf; bool_to_prop.
      * split; [done|]. intros (_ & ? & i & t' & ? & ?). simplify_eq. lia.
      * split; [intros; simplify_eq; eauto 10|]. intros (_ & ? & i & t' & ? & ?). by simplify_eq.
    + split; [done|]. intros (_ & _ & i & t' & ? & ?). by simplify_eq.
Qed.

Lemma at_time_mono m m' l e e' : m ≤ m' → at_time m l e → at_time m' l e' → e ≤ e'.
Proof. intros ? (t & Hin & ? & _) (t' & _ & _ & Hmax). apply (Hmax (e, t)); [done|]. simpl. lia. Qed.

(** What a collect keeps of the time index answers every read at or after the
    horizon as the whole index does. *)
Lemma collected_at_time horizon m l e :
  times_ok l → horizon ≤ e →
  at_time m (drop (partition_point (λ p, (p.1 <=? horizon)%Z) l - 1) l) e ↔ at_time m l e.
Proof.
  intros Hs He. set (k := (_ - 1)%nat).
  assert (∀ i p, l !! i = Some p → (i < partition_point (λ p, (p.1 <=? horizon)%Z) l)%nat ↔ p.1 ≤ horizon) as Hpp.
  { intros i p Hi. rewrite (partition_point_sorted _ _ _ i p Hs); [apply Z.leb_le| |done].
    intros a b [? _] ?%Z.leb_le. apply Z.leb_le. lia. }
  assert (∀ p, p ∈ drop k l → p ∈ l) as Hsub.
  { intros p Hp. rewrite <- (take_drop k l). apply elem_of_app. by right. }
  assert (∀ i p, l !! i = Some p → (i < k)%nat → p.1 < horizon) as Hold.
  { intros i p Hi Hk. destruct (lookup_lt_is_Some_2 l k) as [q Hq].
    { pose proof (partition_point_le (λ p, p.1 <=? horizon) l). lia. }
    assert (q.1 ≤ horizon) by (apply (Hpp k q Hq); lia).
    destruct (StronglySorted_lookup _ _ _ _ _ _ Hs Hk Hi Hq). lia. }
  assert (∀ p, p ∈ l → p ∈ drop k l ∨ p.1 < horizon) as Hsplit.
  { intros p [i Hi]%list_elem_of_lookup. destruct (decide (i < k)%nat) as [Hk|Hk].
    - right. by eapply Hold.
    - left. apply list_elem_of_lookup. exists (i - k)%nat. rewrite lookup_drop. by replace (k + (i - k))%nat with i by lia. }
  split; intros (t & Hin & Ht & Hmax); exists t.
  - split; [by apply Hsub|]. split; [done|]. intros p Hp Hpm.
    destruct (Hsplit p Hp) as [?|?]; [by apply Hmax|lia].
  - split; [|split; [done|]].
    + destruct (Hsplit _ Hin) as [?|?]; simpl in *; [done|lia].
    + intros p Hp. apply Hmax. by apply Hsub.
Qed.

Lemma epoch_at_collected millis horizon h e :
  wf h →
  epoch_at millis (collected_at horizon h) = Ok e ↔ epoch_at millis h = Ok e ∧ horizon ≤ e.
Proof.
  intros Hw. rewrite !epoch_at_iff by (done || by apply collected_at_wf). unfold collected_at. simpl.
  destruct (is_on h) eqn:Hon; unfold is_on in *; simpl; rewrite Hon; [|intuition done].
  split.
  - intros (_ & Hf & Hat). split; [split; [done|split; [lia|]]|lia].
    destruct (floor h <? horizon); [|done].
    apply collected_at_time in Hat; [done|apply Hw|lia].
  - intros ((_ & Hf & Hat) & Hh). split; [done|]. split; [lia|].
    destruct (floor h <? horizon); [|done].
    apply collected_at_time; [apply Hw|done|done].
Qed.

(** The start of the retention window is not after any epoch that a read in
    the window reads at. *)
Lemma retention_horizon_window now w millis h e start :
  wf h → retention h = Duration w → w ≤ u64_max → saturating_sub now w ≤ millis →
  epoch_at millis h = Ok e → retention_horizon now h = Some start → start ≤ e.
Proof.
  intros Hw Hr Hmax Hwin (Hon & Hf & Hat)%epoch_at_iff Hs; [|done].
  unfold retention_horizon in Hs. rewrite Hon, Hr in Hs. simpl in Hs.
  rewrite (proj2 (Z.leb_le _ _)) in Hs by done. simplify_eq.
  assert (∀ e', at_time (saturating_sub now w) (times h) e' → e' ≤ e) as Hle.
  { intros e' He'. eapply at_time_mono; [|exact He'|exact Hat]. lia. }
  destruct (partition_point _ (times h)) as [|index] eqn:Hp; [lia|].
  destruct (times h !! index) as [[e' t]|] eqn:Hi; [|lia].
  assert (e' ≤ e) by (apply Hle, at_time_lookup; [apply Hw|eauto]). simpl. lia.
Qed.

(** Round trip of the history image. A history opened with the same
    retention and restored from an image answers every read in the past as the
    history the image was taken of. *)
Theorem image_restores_reads millis h im :
  0 ≤ floor h → on h = negb (bool_decide (retention h = Off)) → image h = Some im →
  epoch_at millis (restore im (open (retention h) new)) = epoch_at millis h.
Proof.
  intros Hf Hon Him. unfold image in Him. destruct (is_on h) eqn:Hi; [|done]. simplify_eq/=.
  unfold restore, open, epoch_at, is_on in *. simpl. rewrite <- Hon, Hi. simpl. rewrite ?Hi.
  by rewrite (Z.max_r 0 (floor h)) by done.
Qed.

Lemma image_restores_reads_witness :
  let h := mkHistory true (Duration 100) [(1, 10); (4, 30)] 30 1 in
  epoch_at 25 (restore {| image_floor := 1; image_times := [(1, 10); (4, 30)] |} (open (Duration 100) new)) = epoch_at 25 h.
Proof.
  intros h. apply (image_restores_reads 25 h); [vm_compute; discriminate|reflexivity..].
Defined.

End History.
