(* ===== verification/TxTypes.v ===== *)
(** * The data of the transaction manager, and counting the entries of a map

    How many values of a map satisfy a boolean predicate, as an integer: what
    the manager's counter of open transactions and its readers count. *)
From S2P Require Import Prelude History.
Open Scope Z_scope.

Definition b2z (b : bool) : Z := if b then 1 else 0.

(** How many elements of a list satisfy [f]. *)
Definition count_list {A} (f : A → bool) (l : list A) : Z := Z.of_nat (length (List.filter f l)).

Definition count_map {A} (f : A → bool) (t : gmap Z A) : Z :=
  count_list (λ p, f p.2) (map_to_list t).

Section count_list.
Context {A : Type}.
Implicit Types (f g : A → bool) (l : list A).

Lemma count_list_cons f x l : count_list f (x :: l) = b2z (f x) + count_list f l.
Proof. unfold count_list. simpl. destruct (f x); simpl; lia. Qed.

Lemma count_list_nonneg f l : 0 ≤ count_list f l.
Proof. unfold count_list. lia. Qed.

Lemma count_list_perm f l l' : l ≡ₚ l' → count_list f l = count_list f l'.
Proof. induction 1; rewrite ?count_list_cons; lia. Qed.

Lemma count_list_ext f g l : (∀ x, x ∈ l → f x = g x) → count_list f l = count_list g l.
Proof.
  induction l as [|x l IH]; intros Heq; [done|]. rewrite !count_list_cons, (Heq x) by left.
  rewrite IH; [done|]. intros y Hy. apply Heq. by right.
Qed.

Lemma count_list_filter f g l : count_list f (List.filter g l) = count_list (λ x, g x && f x) l.
Proof.
  induction l as [|x l IH]; [done|]. simpl. destruct (g x) eqn:Hg; rewrite ?count_list_cons, IH, ?Hg; simpl; lia.
Qed.

Lemma count_list_split f g l :
  count_list f l = count_list (λ x, f x && g x) l + count_list (λ x, f x && negb (g x)) l.
Proof.
  induction l as [|x l IH]; [done|]. rewrite !count_list_cons, IH. destruct (f x), (g x); simpl; lia.
Qed.

Lemma count_list_mono f g l :
  (∀ x, x ∈ l → f x = true → g x = true) → count_list f l ≤ count_list g l.
Proof.
  induction l as [|x l IH]; intros Himp; [done|]. rewrite !count_list_cons.
  assert (count_list f l ≤ count_list g l) by (apply IH; intros y Hy; apply Himp; by right).
  specialize (Himp x (list_elem_of_here _ _)). destruct (f x), (g x); simpl; naive_solver lia.
Qed.

End count_list.

Section count.
Context {A : Type}.
Implicit Types (f g : A → bool) (t : gmap Z A).

Lemma count_map_nonneg f t : 0 ≤ count_map f t.
Proof. apply count_list_nonneg. Qed.

Lemma count_map_empty f : count_map f ∅ = 0.
Proof. unfold count_map. by rewrite map_to_list_empty. Qed.

Lemma count_map_new f t k x : t !! k = None → count_map f (<[k := x]> t) = b2z (f x) + count_map f t.
Proof.
  intros Hk. unfold count_map. rewrite (count_list_perm _ _ _ (map_to_list_insert t k x Hk)).
  by rewrite count_list_cons.
Qed.

Lemma count_map_delete f t k x : t !! k = Some x → count_map f (delete k t) = count_map f t - b2z (f x).
Proof.
  intros Hk. rewrite <- (insert_delete_id t k x Hk) at 2.
  rewrite count_map_new by apply lookup_delete_eq. lia.
Qed.

Lemma count_map_insert f t k x y :
  t !! k = Some x → count_map f (<[k := y]> t) = count_map f t - b2z (f x) + b2z (f y).
Proof.
  intros Hk. rewrite <- insert_delete_eq, count_map_new by apply lookup_delete_eq.
  rewrite (count_map_delete f t k x Hk). lia.
Qed.

Lemma count_map_pos f t k x : t !! k = Some x → f x = true → 0 < count_map f t.
Proof.
  intros Hk Hx. pose proof (count_map_delete f t k x Hk) as Hd. rewrite Hx in Hd. simpl in Hd.
  pose proof (count_map_nonneg f (delete k t)). lia.
Qed.

(** Two entries that satisfy [f] count as two. *)
Lemma count_map_two f t k1 k2 x1 x2 :
  k1 ≠ k2 → t !! k1 = Some x1 → t !! k2 = Some x2 → f x1 = true → f x2 = true → 1 < count_map f t.
Proof.
  intros Hne H1 H2 Hf1 Hf2. pose proof (count_map_delete f t k1 x1 H1) as Hd. rewrite Hf1 in Hd. simpl in Hd.
  assert (0 < count_map f (delete k1 t)); [|lia].
  apply (count_map_pos f _ k2 x2); [by rewrite lookup_delete_ne|done].
Qed.

Lemma count_map_fmap f (h : A → A) t : count_map f (h <$> t) = count_map (λ x, f (h x)) t.
Proof.
  unfold count_map. rewrite map_to_list_fmap.
  induction (map_to_list t) as [|[k x] l IH]; [done|]. rewrite fmap_cons, !count_list_cons, IH. done.
Qed.

Lemma count_map_ext f g t : (∀ k x, t !! k = Some x → f x = g x) → count_map f t = count_map g t.
Proof. intros Heq. apply count_list_ext. intros [k x] Hx%elem_of_map_to_list. by eapply Heq. Qed.

Lemma count_map_split f g t :
  count_map f t = count_map (λ x, f x && g x) t + count_map (λ x, f x && negb (g x)) t.
Proof. apply (count_list_split (λ p : Z * A, f p.2) (λ p, g p.2)). Qed.

(** Deleting entries that do not satisfy [f] changes no count. *)
Lemma count_map_fold_delete f t (ks : list Z) :
  (∀ k x, k ∈ ks → t !! k = Some x → f x = false) →
  count_map f (fold_left (λ t k, delete k t) ks t) = count_map f t.
Proof.
  revert t. induction ks as [|k ks IH]; intros t Hf; [done|]. simpl. rewrite IH.
  - destruct (t !! k) as [x|] eqn:Hk.
    + rewrite (count_map_delete f t k x Hk), (Hf k x); [simpl; lia|left|done].
    + by rewrite delete_id.
  - intros k' x Hk' Hx. apply (Hf k' x); [by right|]. by apply lookup_delete_Some in Hx as [_ ?].
Qed.

End count.

(** ** The data of the transaction manager

    The types of grafeo-engine/src/transaction/manager.rs: transactions, what
    they claim for conflict detection, and the manager itself. Hash maps and
    hash sets are [gmap] and [gset]; an operation that walks one walks it in
    the order of [map_to_list] or [elements], which stands for the
    unspecified order of the source's hash tables. *)
Open Scope Z_scope.

Inductive TransactionState : Set := Active | Committing | Committed | Aborted.

#[export] Instance TransactionState_eq_dec : EqDecision TransactionState.
Proof. solve_decision. Defined.

Inductive IsolationLevel : Set := ReadCommitted | SnapshotIsolation | Serializable.

#[export] Instance IsolationLevel_eq_dec : EqDecision IsolationLevel.
Proof. solve_decision. Defined.

(** A node or an edge, by its id. *)
Inductive EntityId : Set :=
  | Node (id : Z)
  | Edge (id : Z).

#[export] Instance EntityId_eq_dec : EqDecision EntityId.
Proof. solve_decision. Defined.
#[export] Instance EntityId_countable : Countable EntityId.
Proof.
  apply (inj_countable' (λ e, match e with Node i => inl i | Edge i => inr i end)
    (λ s, match s with inl i => Node i | inr i => Edge i end)). by intros [].
Defined.

(** An entity of one graph ([None]: the default graph). *)
Record GraphEntity := mkEntity { graph : option string; entity : EntityId }.

#[export] Instance GraphEntity_eq_dec : EqDecision GraphEntity.
Proof. solve_decision. Defined.
#[export] Instance GraphEntity_countable : Countable GraphEntity.
Proof.
  apply (inj_countable' (λ e, (graph e, entity e)) (λ p, mkEntity p.1 p.2)). by intros [].
Defined.

(** What the manager asks of the components it stands on: the values of key
    constraints, which it only compares, and a transaction's change set
    (transaction/changes.rs), which it creates, commits and rolls back. *)
Class Engine := {
  HashableValue : Type;
  HashableValue_eq_dec :: EqDecision HashableValue;
  HashableValue_countable :: Countable HashableValue;
  TransactionChanges : Type;
  ApplyError : Type;
  changes_new : Z → Z → TransactionChanges;
  changes_commit : TransactionChanges → Z → result ApplyError unit;
  changes_rollback : TransactionChanges → result ApplyError unit
}.

(** How a transaction claims an entity. *)
Module Claim.
Inductive t : Set := Write | Delete | Endpoint.
End Claim.

Section types.
Context `{Engine}.

(** A value written under a key constraint. *)
Record KeyClaim := mkKey {
  key_graph : option string;
  key_label : string;
  key_properties : list string;
  key_values : list HashableValue
}.

#[export] Instance KeyClaim_eq_dec : EqDecision KeyClaim.
Proof. solve_decision. Defined.
#[export] Instance KeyClaim_countable : Countable KeyClaim.
Proof.
  apply (inj_countable' (λ k, (key_graph k, key_label k, key_properties k, key_values k))
    (λ p, mkKey p.1.1.1 p.1.1.2 p.1.2 p.2)). by intros [].
Defined.

(** One change to the conflict claims, as it is undone. *)
Inductive ClaimUndo : Type :=
  | UndoWrite (e : GraphEntity)
  | UndoDelete (e : GraphEntity)
  | UndoEndpoint (e : GraphEntity)
  | UndoKey (k : KeyClaim).

(** The undo log is a stack: the last change first. *)
Record TransactionInfo := mkInfo {
  state : TransactionState;
  isolation_level : IsolationLevel;
  start_epoch : Z;
  write_set : gset GraphEntity;
  read_set : gset GraphEntity;
  delete_set : gset GraphEntity;
  endpoint_set : gset GraphEntity;
  key_set : gset KeyClaim;
  changes : option TransactionChanges;
  private : bool;
  claim_undo : option (list ClaimUndo)
}.

Definition info_new (start : Z) (level : IsolationLevel) (c : TransactionChanges) (priv : bool)
  : TransactionInfo :=
  mkInfo Active level start ∅ ∅ ∅ ∅ ∅ (Some c) priv None.

(** Which claims of two transactions meet. *)
Inductive Conflict : Type :=
  | WriteWrite (e : GraphEntity)
  | DeletesEndpoint (e : GraphEntity)
  | LinksDeleted (e : GraphEntity)
  | SameKey (k : KeyClaim).

Inductive Error : Type :=
  | WriteConflict (c : Conflict)
  | SerializationFailure (e : GraphEntity)
  | TransactionNotFound
  | TransactionNotActive
  | InvalidSavepoint
  | IncompleteCommit
  | DatabaseClosed
  | InternalApply (e : ApplyError)
  | InvalidValue (e : history_error).

(** The manager. Its locks are in the system of TxSystem.v; the pool of spare
    change sets, which only keeps buffers, is left out. *)
Record TransactionManager := mkManager {
  next_transaction_id : Z;
  assigned_epoch : Z;
  published_epoch : Z;
  active_counter : Z;
  transactions : gmap Z TransactionInfo;
  committed_epochs : gmap Z Z;
  poisoned : bool;
  closed : bool;
  unpublishable_from : Z;
  reads : list (Z * Z);
  history : History
}.

(** A commit between its epoch and its publication. *)
Record Publish := mkPublish {
  pub_transaction : Z;
  pub_epoch : Z;
  pub_time : option Z
}.

(** ** Field updates *)

Definition set_transactions (t : gmap Z TransactionInfo) (m : TransactionManager) :=
  mkManager (next_transaction_id m) (assigned_epoch m) (published_epoch m) (active_counter m)
    t (committed_epochs m) (poisoned m) (closed m) (unpublishable_from m) (reads m) (history m).
Definition set_reads (r : list (Z * Z)) (m : TransactionManager) :=
  mkManager (next_transaction_id m) (assigned_epoch m) (published_epoch m) (active_counter m)
    (transactions m) (committed_epochs m) (poisoned m) (closed m) (unpublishable_from m) r (history m).
Definition set_history (h : History) (m : TransactionManager) :=
  mkManager (next_transaction_id m) (assigned_epoch m) (published_epoch m) (active_counter m)
    (transactions m) (committed_epochs m) (poisoned m) (closed m) (unpublishable_from m) (reads m) h.
Definition set_committed (c : gmap Z Z) (m : TransactionManager) :=
  mkManager (next_transaction_id m) (assigned_epoch m) (published_epoch m) (active_counter m)
    (transactions m) c (poisoned m) (closed m) (unpublishable_from m) (reads m) (history m).
Definition set_epochs (assigned published : Z) (m : TransactionManager) :=
  mkManager (next_transaction_id m) assigned published (active_counter m)
    (transactions m) (committed_epochs m) (poisoned m) (closed m) (unpublishable_from m) (reads m) (history m).
Definition set_active (n : Z) (m : TransactionManager) :=
  mkManager (next_transaction_id m) (assigned_epoch m) (published_epoch m) n
    (transactions m) (committed_epochs m) (poisoned m) (closed m) (unpublishable_from m) (reads m) (history m).
Definition set_next_id (n : Z) (m : TransactionManager) :=
  mkManager n (assigned_epoch m) (published_epoch m) (active_counter m)
    (transactions m) (committed_epochs m) (poisoned m) (closed m) (unpublishable_from m) (reads m) (history m).
Definition set_closed (m : TransactionManager) :=
  mkManager (next_transaction_id m) (assigned_epoch m) (published_epoch m) (active_counter m)
    (transactions m) (committed_epochs m) (poisoned m) true (unpublishable_from m) (reads m) (history m).

Definition info_state (s : TransactionState) (i : TransactionInfo) : TransactionInfo :=
  mkInfo s (isolation_level i) (start_epoch i) (write_set i) (read_set i) (delete_set i)
    (endpoint_set i) (key_set i) (changes i) (private i) (claim_undo i).

(** A transaction that ended: its undo log and change set are dropped. *)
Definition info_end (s : TransactionState) (i : TransactionInfo) : TransactionInfo :=
  mkInfo s (isolation_level i) (start_epoch i) (write_set i) (read_set i) (delete_set i)
    (endpoint_set i) (key_set i) None (private i) None.

(** The claims of a transaction, with the undo log that goes with them. *)
Definition info_claims (w d en : gset GraphEntity) (k : gset KeyClaim)
    (u : option (list ClaimUndo)) (i : TransactionInfo) : TransactionInfo :=
  mkInfo (state i) (isolation_level i) (start_epoch i) w (read_set i) d en k
    (changes i) (private i) u.

Definition info_reads (r : gset GraphEntity) (i : TransactionInfo) : TransactionInfo :=
  mkInfo (state i) (isolation_level i) (start_epoch i) (write_set i) r (delete_set i)
    (endpoint_set i) (key_set i) (changes i) (private i) (claim_undo i).

End types.
