(* ===== verification/TxManager.v ===== *)
(** * The operations of the transaction manager

    grafeo-engine/src/transaction/manager.rs. Each method is a function of the
    manager; a method that fails without changing anything returns a [result],
    one that changes the manager also when it fails returns the manager beside
    its result. A method that waits (for its turn to publish, for the commits
    written before it) is a function on the states where it does not wait,
    with the condition it waits for as a predicate of its own. *)
From S2P Require Import Prelude ReadPins History TxTypes.
Open Scope Z_scope.

Section manager.
Context `{Engine}.

(** ** Conflicts *)

(** Whether a claim of [e] by another transaction conflicts with [i]'s. *)
Definition conflict_with (i : TransactionInfo) (claim : Claim.t) (e : GraphEntity) : option Conflict :=
  match claim with
  | Claim.Write => if decide (e ∈ write_set i) then Some (WriteWrite e) else None
  | Claim.Delete =>
      if decide (e ∈ write_set i) then Some (WriteWrite e)
      else if decide (e ∈ endpoint_set i) then Some (DeletesEndpoint e) else None
  | Claim.Endpoint => if decide (e ∈ delete_set i) then Some (LinksDeleted e) else None
  end.

Fixpoint find_map {A B} (f : A → option B) (l : list A) : option B :=
  match l with
  | [] => None
  | x :: l' => match f x with Some y => Some y | None => find_map f l' end
  end.

Definition is_open (s : TransactionState) : bool :=
  match s with Active | Committing => true | Committed | Aborted => false end.

(** ** The manager and its flags *)

Definition manager_new : TransactionManager :=
  mkManager 2 0 0 0 ∅ ∅ false false u64_max [] History.new.

Definition has_incomplete_commit (m : TransactionManager) : bool := poisoned m.

Definition check_no_incomplete_commit (m : TransactionManager) : result Error unit :=
  if has_incomplete_commit m then Err IncompleteCommit else Ok tt.

Definition check_open (m : TransactionManager) : result Error unit :=
  if closed m then Err DatabaseClosed else Ok tt.

(** The commit at [epoch] did not complete. *)
Definition incomplete_from (epoch : Z) (m : TransactionManager) : TransactionManager :=
  mkManager (next_transaction_id m) (assigned_epoch m) (published_epoch m) (active_counter m)
    (transactions m) (committed_epochs m) true (closed m) (Z.min (unpublishable_from m) epoch)
    (reads m) (history m).

Definition poison (m : TransactionManager) : TransactionManager := incomplete_from 0 m.

Definition current_epoch (m : TransactionManager) : Z := published_epoch m.
Definition readable_epoch (epoch : Z) (m : TransactionManager) : Z := Z.min epoch (current_epoch m).

(** ** Beginning *)

(** [next_transaction_id.fetch_add(1)]. *)
Definition take_id (m : TransactionManager) : Z * TransactionManager :=
  (next_transaction_id m, set_next_id (wrap64 (next_transaction_id m + 1)) m).

Definition register (level : IsolationLevel) (priv : bool) (m : TransactionManager)
  : Z * TransactionManager :=
  let '(id, m1) := take_id m in
  let '(epoch, r) := ReadPins.hold_published (published_epoch m1) (reads m1) in
  let i := info_new epoch level (changes_new id epoch) priv in
  (id, set_active (wrap64 (active_counter m1 + 1))
         (set_transactions (<[id := i]> (transactions m1)) (set_reads r m1))).

Definition begin_with_isolation (level : IsolationLevel) (m : TransactionManager) :=
  register level false m.

Definition begin (m : TransactionManager) := begin_with_isolation SnapshotIsolation m.

Definition begin_private (m : TransactionManager) : result Error (Z * TransactionManager) :=
  check_open m ≫= λ _, Ok (register SnapshotIsolation true m).

(** Whether a direct call that commits at once may run: no transaction is
    open. *)
Definition idle_gate (m : TransactionManager) : bool := active_counter m =? 0.

Definition bulk_writer (m : TransactionManager) : (Z * Z) * TransactionManager :=
  let '(id, m1) := take_id m in ((id, current_epoch m1), m1).

(** ** Claims *)

(** The conflict of a claim of [es] by [tx] with an open transaction. *)
Definition open_conflict (tx : Z) (claim : Claim.t) (es : list GraphEntity) (m : TransactionManager)
  : option Conflict :=
  if 1 <? active_counter m then
    find_map (λ '(other, i),
      if bool_decide (other = tx) || negb (is_open (state i)) then None
      else find_map (conflict_with i claim) es) (map_to_list (transactions m))
  else None.

(** An active transaction's info. *)
Definition active_info (tx : Z) (m : TransactionManager) : result Error TransactionInfo :=
  match transactions m !! tx with
  | None => Err TransactionNotFound
  | Some i => if decide (state i = Active) then Ok i else Err TransactionNotActive
  end.

(** Pushes the inverse of a set insertion when the log is kept and the
    element is new. *)
Definition push_undo {A} `{Countable A} (x : A) (s : gset A) (undo : ClaimUndo)
    (u : option (list ClaimUndo)) : option (list ClaimUndo) :=
  match u with
  | Some log => Some (if decide (x ∈ s) then log else undo :: log)
  | None => None
  end.

Definition claim_entity (claim : Claim.t) (i : TransactionInfo) (e : GraphEntity) : TransactionInfo :=
  match claim with
  | Claim.Write =>
      info_claims ({[e]} ∪ write_set i) (delete_set i) (endpoint_set i) (key_set i)
        (push_undo e (write_set i) (UndoWrite e) (claim_undo i)) i
  | Claim.Delete =>
      info_claims ({[e]} ∪ write_set i) ({[e]} ∪ delete_set i) (endpoint_set i) (key_set i)
        (push_undo e (delete_set i) (UndoDelete e)
           (push_undo e (write_set i) (UndoWrite e) (claim_undo i))) i
  | Claim.Endpoint =>
      info_claims (write_set i) (delete_set i) ({[e]} ∪ endpoint_set i) (key_set i)
        (push_undo e (endpoint_set i) (UndoEndpoint e) (claim_undo i)) i
  end.

Definition update_info (tx : Z) (i : TransactionInfo) (m : TransactionManager) : TransactionManager :=
  set_transactions (<[tx := i]> (transactions m)) m.

Definition record_claims (tx : Z) (claim : Claim.t) (es : list GraphEntity) (m : TransactionManager)
  : result Error TransactionManager :=
  check_no_incomplete_commit m ≫= λ _,
  match open_conflict tx claim es m with
  | Some c => Err (WriteConflict c)
  | None =>
      active_info tx m ≫= λ i,
      Ok (update_info tx (fold_left (claim_entity claim) es i) m)
  end.

Definition record_write (tx : Z) (e : GraphEntity) (m : TransactionManager) :=
  record_claims tx Claim.Write [e] m.
Definition record_delete (tx : Z) (e : GraphEntity) (m : TransactionManager) :=
  record_claims tx Claim.Delete [e] m.
Definition record_endpoints (tx : Z) (e1 e2 : GraphEntity) (m : TransactionManager) :=
  record_claims tx Claim.Endpoint [e1; e2] m.

(** Whether another open transaction claimed [k]. *)
Definition key_claimed (own : option Z) (k : KeyClaim) (m : TransactionManager) : bool :=
  existsb (λ '(other, i),
    negb (bool_decide (Some other = own)) && is_open (state i) && bool_decide (k ∈ key_set i))
    (map_to_list (transactions m)).

Definition claim_key (k : KeyClaim) (i : TransactionInfo) : TransactionInfo :=
  info_claims (write_set i) (delete_set i) (endpoint_set i) ({[k]} ∪ key_set i)
    (push_undo k (key_set i) (UndoKey k) (claim_undo i)) i.

Definition record_key (tx : Z) (k : KeyClaim) (m : TransactionManager)
  : result Error TransactionManager :=
  check_no_incomplete_commit m ≫= λ _,
  if (1 <? active_counter m) && key_claimed (Some tx) k m then Err (WriteConflict (SameKey k))
  else active_info tx m ≫= λ i, Ok (update_info tx (claim_key k i) m).

Definition record_read (tx : Z) (e : GraphEntity) (m : TransactionManager)
  : result Error TransactionManager :=
  active_info tx m ≫= λ i, Ok (update_info tx (info_reads ({[e]} ∪ read_set i) i) m).

Definition refuse_claimed (k : KeyClaim) (own : option Z) (m : TransactionManager) : result Error unit :=
  if active_counter m =? 0 then Ok tt
  else if key_claimed own k m then Err (WriteConflict (SameKey k)) else Ok tt.

(** ** Savepoints of the claims *)

Definition mark_claims (tx : Z) (m : TransactionManager) : result Error (nat * TransactionManager) :=
  active_info tx m ≫= λ i,
  let log := match claim_undo i with Some log => log | None => [] end in
  Ok (length log,
      update_info tx (info_claims (write_set i) (delete_set i) (endpoint_set i) (key_set i) (Some log) i) m).

Definition undo_claim (i : TransactionInfo) (u : ClaimUndo) : TransactionInfo :=
  match u with
  | UndoWrite e => info_claims (write_set i ∖ {[e]}) (delete_set i) (endpoint_set i) (key_set i) (claim_undo i) i
  | UndoDelete e => info_claims (write_set i) (delete_set i ∖ {[e]}) (endpoint_set i) (key_set i) (claim_undo i) i
  | UndoEndpoint e => info_claims (write_set i) (delete_set i) (endpoint_set i ∖ {[e]}) (key_set i) (claim_undo i) i
  | UndoKey k => info_claims (write_set i) (delete_set i) (endpoint_set i) (key_set i ∖ {[k]}) (claim_undo i) i
  end.

Definition set_undo (log : list ClaimUndo) (i : TransactionInfo) : TransactionInfo :=
  info_claims (write_set i) (delete_set i) (endpoint_set i) (key_set i) (Some log) i.

(** Pops the log down to [mark] entries, undoing each. *)
Fixpoint pop_claims (mark : nat) (log : list ClaimUndo) (i : TransactionInfo) : TransactionInfo :=
  match log with
  | [] => set_undo [] i
  | u :: log' =>
      if (mark <? length log)%nat then pop_claims mark log' (undo_claim i u)
      else set_undo log i
  end.

Definition restore_claims (tx : Z) (mark : nat) (m : TransactionManager)
  : result Error TransactionManager :=
  active_info tx m ≫= λ i,
  match claim_undo i with
  | Some log =>
      if (mark <=? length log)%nat then Ok (update_info tx (pop_claims mark log i) m)
      else Err InvalidSavepoint
  | None => Err InvalidSavepoint
  end.

(** ** Commits *)

(** The transactions that committed after [start], other than [tx], that the
    manager still knows. *)
Definition committed_after (tx start : Z) (m : TransactionManager) : list TransactionInfo :=
  omap (λ '(other, epoch),
    if negb (bool_decide (other = tx)) && (start <? epoch) then transactions m !! other else None)
    (map_to_list (committed_epochs m)).

(** Write-write conflicts with the transactions that committed since. *)
Definition write_conflict (ours : TransactionInfo) (others : list TransactionInfo) : option Conflict :=
  find_map (λ other,
    find_map (λ e, if decide (e ∈ write_set other) then Some (WriteWrite e) else None)
      (elements (write_set ours))) others.

(** Dangling edges: an endpoint of ours deleted, a node we delete linked. *)
Definition endpoint_conflict (ours : TransactionInfo) (others : list TransactionInfo) : option Conflict :=
  find_map (λ other,
    match find_map (conflict_with other Claim.Endpoint) (elements (endpoint_set ours)) with
    | Some c => Some c
    | None => find_map (conflict_with other Claim.Delete) (elements (delete_set ours))
    end) others.

(** A unique key of ours written by another. *)
Definition key_conflict (ours : TransactionInfo) (others : list TransactionInfo) : option Conflict :=
  find_map (λ other,
    find_map (λ k, if decide (k ∈ key_set other) then Some (SameKey k) else None)
      (elements (key_set ours))) others.

(** An entity we read and another wrote. *)
Definition read_conflict (ours : TransactionInfo) (others : list TransactionInfo) : option GraphEntity :=
  find_map (λ other,
    find_map (λ e, if decide (e ∈ write_set other) then Some e else None)
      (elements (read_set ours))) others.

(** The checks of a commit, in their order. *)
Definition validate (tx : Z) (ours : TransactionInfo) (m : TransactionManager) : result Error unit :=
  let others_committed := start_epoch ours <? assigned_epoch m in
  let others := committed_after tx (start_epoch ours) m in
  match (if others_committed && negb (bool_decide (write_set ours = ∅))
         then write_conflict ours others else None) with
  | Some c => Err (WriteConflict c)
  | None =>
  match (if others_committed && negb (bool_decide (endpoint_set ours = ∅) && bool_decide (delete_set ours = ∅))
         then endpoint_conflict ours others else None) with
  | Some c => Err (WriteConflict c)
  | None =>
  match (if others_committed && negb (bool_decide (key_set ours = ∅))
         then key_conflict ours others else None) with
  | Some c => Err (WriteConflict c)
  | None =>
  match (if others_committed && bool_decide (isolation_level ours = Serializable)
              && negb (bool_decide (read_set ours = ∅))
         then read_conflict ours others else None) with
  | Some e => Err (SerializationFailure e)
  | None => Ok tt
  end end end end.

(** Every written commit is published, or none ever will be: what
    [wait_for_written_commits] waits for. *)
Definition written_commits_published (m : TransactionManager) : bool :=
  has_incomplete_commit m || negb (published_epoch m <? assigned_epoch m).

(** [start_commit]; the caller takes the commit lock. *)
Definition start_commit (now tx : Z) (m : TransactionManager)
  : result Error (TransactionManager * Publish) :=
  check_no_incomplete_commit m ≫= λ _,
  check_open m ≫= λ _,
  active_info tx m ≫= λ ours,
  validate tx ours m ≫= λ _,
  let epoch := assigned_epoch m + 1 in
  let '(time, h) := History.commit_time now (history m) in
  Ok (set_history h
        (set_committed (<[tx := epoch]> (committed_epochs m))
          (set_transactions (<[tx := info_state Committing ours]> (transactions m))
            (set_epochs (wrap64 epoch) (published_epoch m) m))),
      mkPublish tx epoch time).

(** [CommitGuard::abort]: the commit is taken back, its epoch is free. *)
Definition commit_abort (p : Publish) (m : TransactionManager) : TransactionManager :=
  set_epochs (pub_epoch p - 1) (published_epoch m)
    (set_committed (delete (pub_transaction p) (committed_epochs m))
      (set_transactions (alter (info_state Active) (pub_transaction p) (transactions m)) m)).

(** Whether a written commit's wait for its turn is over. *)
Definition publish_turn (p : Publish) (m : TransactionManager) : bool :=
  (unpublishable_from m <=? pub_epoch p) || (pub_epoch p <=? published_epoch m + 1).

(** What [complete_with] does to the transactions once it is its turn. *)
Definition publish_transactions (p : Publish) (m : TransactionManager) : TransactionManager :=
  match transactions m !! pub_transaction p with
  | None => m
  | Some i =>
      let m1 := set_reads (ReadPins.release (start_epoch i) (reads m)) m in
      if private i && (active_counter m =? 1) then
        set_committed (delete (pub_transaction p) (committed_epochs m))
          (set_transactions (delete (pub_transaction p) (transactions m)) m1)
      else set_transactions (<[pub_transaction p := info_end Committed i]> (transactions m)) m1
  end.

(** [Publish::complete_with], once its wait is over; [ordered] is the result
    of the steps it runs in its turn. The manager and the result; a handle
    whose [ordered] fails is dropped unfinished. *)
Definition complete_with (p : Publish) (ordered : result Error unit) (m : TransactionManager)
  : TransactionManager * result Error unit :=
  if unpublishable_from m <=? pub_epoch p then (m, Err IncompleteCommit)
  else match ordered with
  | Err e => (incomplete_from (pub_epoch p) m, Err e)
  | Ok _ =>
      let m1 := publish_transactions p m in
      let m2 := set_epochs (assigned_epoch m1) (Z.max (published_epoch m1) (pub_epoch p))
                  (set_active (wrap64 (active_counter m1 - 1)) m1) in
      (match pub_time p with
       | Some t => set_history (History.record (pub_epoch p) t (history m2)) m2
       | None => m2
       end, Ok tt)
  end.

(** A handle dropped unfinished: the commit did not complete. *)
Definition publish_drop (p : Publish) (m : TransactionManager) : TransactionManager :=
  incomplete_from (pub_epoch p) m.

Definition changes_of (tx : Z) (m : TransactionManager) : option TransactionChanges :=
  transactions m !! tx ≫= changes.

(** [commit]: [None] while it waits for its turn to publish. *)
Definition commit (now tx : Z) (m : TransactionManager)
  : option (TransactionManager * result Error Z) :=
  match start_commit now tx m with
  | Err e => Some (m, Err e)
  | Ok (m1, p) =>
      match (match changes_of tx m with Some c => changes_commit c (pub_epoch p) | None => Ok tt end) with
      | Err e => Some (publish_drop p m1, Err (InternalApply e))
      | Ok _ =>
          if publish_turn p m1 then
            let '(m2, r) := complete_with p (Ok tt) m1 in
            Some (m2, (λ _, pub_epoch p) <$> r)
          else None
      end
  end.

(** ** Aborts *)

Definition abort_registered (tx : Z) (m : TransactionManager) : result Error TransactionManager :=
  active_info tx m ≫= λ i,
  let m1 := set_reads (ReadPins.release (start_epoch i) (reads m)) m in
  let t := if private i then delete tx (transactions m)
           else <[tx := info_end Aborted i]> (transactions m) in
  Ok (set_active (wrap64 (active_counter m1 - 1)) (set_transactions t m1)).

Definition abort (tx : Z) (m : TransactionManager) : TransactionManager * result Error unit :=
  let undone := match changes_of tx m with Some c => changes_rollback c | None => Ok tt end in
  let m1 := match undone with Err _ => poison m | Ok _ => m end in
  match abort_registered tx m1 with
  | Err e => (m1, Err e)
  | Ok m2 => (m2, match undone with Err e => Err (InternalApply e) | Ok _ => Ok tt end)
  end.

Definition is_active (i : TransactionInfo) : bool := bool_decide (state i = Active).

Definition abort_all_active (m : TransactionManager) : TransactionManager :=
  let active := List.filter (λ p : Z * TransactionInfo, is_active p.2) (map_to_list (transactions m)) in
  set_active (wrap64 (active_counter m - Z.of_nat (length active)))
    (set_reads (fold_left (λ r p, ReadPins.release (start_epoch p.2) r) active (reads m))
      (set_transactions ((λ i, if is_active i then info_end Aborted i else i) <$> transactions m) m)).

(** ** Reads and horizons *)

Definition read_horizon (m : TransactionManager) : Z :=
  match ReadPins.oldest (reads m) with
  | Some o => Z.min o (published_epoch m)
  | None => published_epoch m
  end.

Definition pin_read (m : TransactionManager) : Z * TransactionManager :=
  let '(epoch, r) := ReadPins.hold_published (published_epoch m) (reads m) in
  (epoch, set_reads r m).

Definition pin_read_at (epoch : Z) (m : TransactionManager) : result Error (Z * TransactionManager) :=
  if epoch <? floor (history m) then Err (InvalidValue (BeforeFloor (floor (history m)) epoch))
  else let at_ := readable_epoch epoch m in
       Ok (at_, set_reads (ReadPins.hold_at at_ (reads m)) m).

(** [ReadPin::again] and the drop of a pin. *)
Definition pin_again (epoch : Z) (m : TransactionManager) : TransactionManager :=
  set_reads (ReadPins.hold_at epoch (reads m)) m.
Definition pin_drop (epoch : Z) (m : TransactionManager) : TransactionManager :=
  set_reads (ReadPins.release epoch (reads m)) m.

Definition collect_horizon (now : Z) (m : TransactionManager) : Z * TransactionManager :=
  let read := read_horizon m in
  let horizon := match History.retention_horizon now (history m) with
                 | Some start => Z.min read start
                 | None => read
                 end in
  (horizon, set_history (History.collected_at horizon (history m)) m).

Definition sync_epoch (epoch : Z) (m : TransactionManager) : TransactionManager :=
  set_epochs (Z.max (assigned_epoch m) epoch) (Z.max (published_epoch m) epoch) m.

Definition close_for_writes (m : TransactionManager) : TransactionManager := set_closed m.

Definition set_history_retention (now : Z) (r : HistoryRetention) (m : TransactionManager) :=
  set_history (History.set_retention now r (published_epoch m) (history m)) m.

Definition epoch_at (millis : Z) (m : TransactionManager) : result Error Z :=
  match History.epoch_at millis (history m) with
  | Ok e => Ok e
  | Err x => Err (InvalidValue x)
  end.

Definition record_commit_time (epoch millis : Z) (m : TransactionManager) :=
  set_history (History.record epoch millis (history m)) m.

Definition open_history (r : HistoryRetention) (m : TransactionManager) :=
  set_history (History.open r (history m)) m.

Definition restore_history_or_floor (image : option HistoryImage) (checkpoint : Z) (m : TransactionManager) :=
  set_history (match image with
               | Some i => History.restore i (history m)
               | None => History.collected_at checkpoint (history m)
               end) m.

Definition anchor_history (now : Z) (m : TransactionManager) :=
  set_history (History.anchor now (published_epoch m) (history m)) m.

(** ** Bookkeeping *)

Definition transaction_state (tx : Z) (m : TransactionManager) : option TransactionState :=
  state <$> transactions m !! tx.
Definition transaction_start (tx : Z) (m : TransactionManager) : option Z :=
  start_epoch <$> transactions m !! tx.

Definition get_write_set (tx : Z) (m : TransactionManager) : result Error (gset GraphEntity) :=
  write_set <$> ok_or (transactions m !! tx) TransactionNotFound.

Definition open_change_sets (m : TransactionManager) : list TransactionChanges :=
  omap (λ p : Z * TransactionInfo, if is_active p.2 then changes p.2 else None)
    (map_to_list (transactions m)).

(** The number of active transactions. *)
Definition active_count (m : TransactionManager) : nat :=
  length (List.filter (λ p : Z * TransactionInfo, is_active p.2) (map_to_list (transactions m))).

Definition min_active_start (m : TransactionManager) : option Z :=
  fold_right (λ (p : Z * TransactionInfo) acc,
    if is_active p.2 then Some (match acc with
                                | Some a => Z.min (start_epoch p.2) a
                                | None => start_epoch p.2
                                end)
    else acc) None (map_to_list (transactions m)).

(** Whether [gc] takes a transaction out. *)
Definition gc_removes (m : TransactionManager) (tx : Z) (i : TransactionInfo) : bool :=
  match state i with
  | Active | Committing => false
  | Aborted => true
  | Committed =>
      match min_active_start m with
      | Some min_start =>
          match committed_epochs m !! tx with
          | Some epoch => epoch <? min_start
          | None => false
          end
      | None => true
      end
  end.

Definition gc (m : TransactionManager) : TransactionManager * nat :=
  let to_remove := omap (λ p : Z * TransactionInfo, if gc_removes m p.1 p.2 then Some p.1 else None)
                     (map_to_list (transactions m)) in
  let m' := set_committed (fold_left (λ c id, delete id c) to_remove (committed_epochs m))
              (set_transactions (fold_left (λ t id, delete id t) to_remove (transactions m)) m) in
  (m', (size (transactions m) - size (transactions m'))%nat).

Definition mark_committed (tx epoch : Z) (m : TransactionManager) : TransactionManager :=
  set_committed (<[tx := epoch]> (committed_epochs m)) m.

Definition last_assigned_transaction_id (m : TransactionManager) : option Z :=
  if 1 <? next_transaction_id m then Some (next_transaction_id m - 1) else None.

End manager.

(** ** Facts about the manager's operations

    What the commit checks decide, what a claim conflicts with, what [gc]
    takes out, and the savepoints of the claims. *)
Open Scope Z_scope.

Section facts.
Context `{Engine}.
Implicit Types (m : TransactionManager) (i ours other : TransactionInfo).

(** ** Searches *)

Lemma find_map_None {A B} (f : A → option B) (l : list A) :
  find_map f l = None ↔ ∀ x, x ∈ l → f x = None.
Proof.
  induction l as [|x l IH]; simpl.
  - split; [|done]. intros _ x Hx. by apply not_elem_of_nil in Hx.
  - destruct (f x) eqn:Hf.
    + split; [done|]. intros Hall. rewrite Hall in Hf; [done|left].
    + rewrite IH. split.
      * intros Hall y [->|Hy]%elem_of_cons; [done|by apply Hall].
      * intros Hall y Hy. apply Hall. by right.
Qed.

Lemma find_map_elements_None {A B} `{Countable A} (f : A → option B) (s : gset A) :
  find_map f (elements s) = None ↔ ∀ x, x ∈ s → f x = None.
Proof. rewrite find_map_None. by setoid_rewrite elem_of_elements. Qed.

Lemma existsb_false {A} (f : A → bool) (l : list A) :
  existsb f l = false ↔ ∀ x, x ∈ l → f x = false.
Proof.
  induction l as [|x l IH]; simpl.
  - split; [|done]. intros _ x Hx. by apply not_elem_of_nil in Hx.
  - rewrite orb_false_iff, IH. split.
    + intros [? Hall] y [->|Hy]%elem_of_cons; [done|by apply Hall].
    + intros Hall. split; [apply Hall; left|]. intros y Hy. apply Hall. by right.
Qed.

Lemma if_None {A} (b : bool) (o : option A) :
  (if b then o else None) = None ↔ (b = true → o = None).
Proof. destruct b; naive_solver. Qed.

Lemma in_nonempty {A} `{Countable A} (x : A) (s : gset A) : x ∈ s → s ≠ ∅.
Proof. set_solver. Qed.

(** ** Conflicts *)

(** A claim of [ours] meets one of [other]'s. *)
Definition claims_meet (claim : Claim.t) (e : GraphEntity) other : Prop :=
  match claim with
  | Claim.Write => e ∈ write_set other
  | Claim.Delete => e ∈ write_set other ∨ e ∈ endpoint_set other
  | Claim.Endpoint => e ∈ delete_set other
  end.

Lemma conflict_with_None i claim e : conflict_with i claim e = None ↔ ¬ claims_meet claim e i.
Proof. destruct claim; simpl; repeat case_decide; intuition done. Qed.

(** Why [ours] may not commit after [other] did, when [other] committed after
    [ours] began. *)
Definition conflicts ours other : Prop :=
  (∃ e, e ∈ write_set ours ∧ e ∈ write_set other) ∨
  (∃ e, e ∈ endpoint_set ours ∧ claims_meet Claim.Endpoint e other) ∨
  (∃ e, e ∈ delete_set ours ∧ claims_meet Claim.Delete e other) ∨
  (∃ k, k ∈ key_set ours ∧ k ∈ key_set other) ∨
  (isolation_level ours = Serializable ∧ ∃ e, e ∈ read_set ours ∧ e ∈ write_set other).

Lemma write_conflict_None ours others :
  write_conflict ours others = None ↔
    ∀ other, other ∈ others → ∀ e, e ∈ write_set ours → e ∉ write_set other.
Proof.
  unfold write_conflict. rewrite find_map_None.
  setoid_rewrite find_map_elements_None.
  split; intros Hall other Ho e He; specialize (Hall other Ho e He); by case_decide.
Qed.

Lemma endpoint_conflict_None ours others :
  endpoint_conflict ours others = None ↔
    ∀ other, other ∈ others →
      (∀ e, e ∈ endpoint_set ours → ¬ claims_meet Claim.Endpoint e other) ∧
      (∀ e, e ∈ delete_set ours → ¬ claims_meet Claim.Delete e other).
Proof.
  unfold endpoint_conflict. rewrite find_map_None.
  apply forall_proper; intros other. apply Morphisms_Prop.iff_iff_iff_impl_morphism; [done|].
  transitivity (find_map (conflict_with other Claim.Endpoint) (elements (endpoint_set ours)) = None ∧
    find_map (conflict_with other Claim.Delete) (elements (delete_set ours)) = None).
  - destruct (find_map _ _); naive_solver.
  - rewrite !find_map_elements_None. by setoid_rewrite conflict_with_None.
Qed.

Lemma key_conflict_None ours others :
  key_conflict ours others = None ↔
    ∀ other, other ∈ others → ∀ k, k ∈ key_set ours → k ∉ key_set other.
Proof.
  unfold key_conflict. rewrite find_map_None. setoid_rewrite find_map_elements_None.
  split; intros Hall other Ho e He; specialize (Hall other Ho e He); by case_decide.
Qed.

Lemma read_conflict_None ours others :
  read_conflict ours others = None ↔
    ∀ other, other ∈ others → ∀ e, e ∈ read_set ours → e ∉ write_set other.
Proof.
  unfold read_conflict. rewrite find_map_None. setoid_rewrite find_map_elements_None.
  split; intros Hall other Ho e He; specialize (Hall other Ho e He); by case_decide.
Qed.

Lemma committed_after_elem tx start m other :
  other ∈ committed_after tx start m ↔
    ∃ id epoch, id ≠ tx ∧ start < epoch ∧
      committed_epochs m !! id = Some epoch ∧ transactions m !! id = Some other.
Proof.
  unfold committed_after. rewrite list_elem_of_omap. split.
  - intros ([id epoch] & Hin & Hx). apply elem_of_map_to_list in Hin.
    destruct (negb _ && _) eqn:Hc; [|done]. bool_to_prop. eauto 10.
  - intros (id & epoch & Hne & Hlt & Hc & Ht). exists (id, epoch).
    rewrite elem_of_map_to_list. split; [done|].
    rewrite bool_decide_eq_false_2 by done. by rewrite (proj2 (Z.ltb_lt _ _)).
Qed.

(** The checks of a commit pass exactly when no transaction that committed
    since conflicts. *)
Lemma validate_ok tx ours m :
  validate tx ours m = Ok tt ↔
    (start_epoch ours < assigned_epoch m →
     ∀ other, other ∈ committed_after tx (start_epoch ours) m → ¬ conflicts ours other).
Proof.
  unfold validate. set (others := committed_after tx (start_epoch ours) m).
  transitivity (
    (if (start_epoch ours <? assigned_epoch m) && negb (bool_decide (write_set ours = ∅))
     then write_conflict ours others else None) = None ∧
    (if (start_epoch ours <? assigned_epoch m) && negb (bool_decide (endpoint_set ours = ∅) && bool_decide (delete_set ours = ∅))
     then endpoint_conflict ours others else None) = None ∧
    (if (start_epoch ours <? assigned_epoch m) && negb (bool_decide (key_set ours = ∅))
     then key_conflict ours others else None) = None ∧
    (if (start_epoch ours <? assigned_epoch m) && bool_decide (isolation_level ours = Serializable)
              && negb (bool_decide (read_set ours = ∅))
     then read_conflict ours others else None) = None).
  { repeat match goal with |- context [match ?o with Some _ => _ | None => _ end] => destruct o end;
      naive_solver. }
  rewrite !if_None, write_conflict_None, endpoint_conflict_None, key_conflict_None, read_conflict_None.
  rewrite !andb_true_iff, !negb_true_iff, andb_false_iff, !bool_decide_eq_false, bool_decide_eq_true, Z.ltb_lt.
  split.
  - intros (Hw & He & Hk & Hr) Hlt other Hother [(e & Ho & Hx)|[(e & Ho & Hx)|[(e & Ho & Hx)|[(k & Ho & Hx)|(Hs & e & Ho & Hx)]]]].
    + apply (Hw (conj Hlt (in_nonempty _ _ Ho)) other Hother e Ho Hx).
    + apply (He (conj Hlt (or_introl (in_nonempty _ _ Ho))) other Hother) in Ho; done.
    + apply (He (conj Hlt (or_intror (in_nonempty _ _ Ho))) other Hother) in Ho; done.
    + apply (Hk (conj Hlt (in_nonempty _ _ Ho)) other Hother k Ho Hx).
    + apply (Hr (conj (conj Hlt Hs) (in_nonempty _ _ Ho)) other Hother e Ho Hx).
  - intros Hall. unfold conflicts in Hall. split_and!.
    + intros [Hlt _] other Ho e He Hx. apply (Hall Hlt other Ho). eauto.
    + intros [Hlt _] other Ho. split; intros e He Hx; apply (Hall Hlt other Ho); eauto 6.
    + intros [Hlt _] other Ho e He Hx. apply (Hall Hlt other Ho). eauto 8.
    + intros [[Hlt Hs] _] other Ho e He Hx. apply (Hall Hlt other Ho). eauto 10.
Qed.

Lemma validate_is_ok tx ours m : is_ok (validate tx ours m) = true ↔ validate tx ours m = Ok tt.
Proof. destruct (validate tx ours m) as [[]|]; simpl; naive_solver. Qed.

(** A claim is free of conflicts exactly when no other open transaction's
    claims meet it, when the counter says another may be open. *)
Lemma open_conflict_None tx claim es m :
  open_conflict tx claim es m = None ↔
    (1 < active_counter m → ∀ (other : Z) i, transactions m !! other = Some i → other ≠ tx →
      is_open (state i) = true → ∀ e, e ∈ es → ¬ claims_meet claim e i).
Proof.
  unfold open_conflict. rewrite if_None, Z.ltb_lt, find_map_None.
  apply Morphisms_Prop.iff_iff_iff_impl_morphism; [done|]. split.
  - intros Hall other i Hi Hne Ho e He. specialize (Hall (other, i) ltac:(by apply elem_of_map_to_list)).
    simpl in Hall. rewrite bool_decide_eq_false_2, Ho in Hall by done. simpl in Hall.
    rewrite find_map_None in Hall. by apply conflict_with_None, Hall.
  - intros Hall [other i] Hi%elem_of_map_to_list.
    destruct (bool_decide (other = tx) || negb (is_open (state i))) eqn:Hc; [done|]. bool_to_prop.
    apply find_map_None. intros e He. apply conflict_with_None. by eapply Hall.
Qed.

Lemma key_claimed_false own k m :
  key_claimed own k m = false ↔
    ∀ (other : Z) i, transactions m !! other = Some i → Some other ≠ own →
      is_open (state i) = true → k ∉ key_set i.
Proof.
  unfold key_claimed. rewrite existsb_false. split.
  - intros Hall other i Hi Hne Ho Hk.
    specialize (Hall (other, i) ltac:(by apply elem_of_map_to_list)). simpl in Hall.
    rewrite bool_decide_eq_false_2, Ho, bool_decide_eq_true_2 in Hall by done. done.
  - intros Hall [other i] Hi%elem_of_map_to_list.
    destruct (bool_decide (Some other = own)) eqn:Ho; [done|].
    destruct (is_open (state i)) eqn:Hs; [|done]. bool_to_prop. simpl.
    apply bool_decide_eq_false_2. by eapply Hall.
Qed.

Lemma active_info_Ok tx m i :
  active_info tx m = Ok i ↔ transactions m !! tx = Some i ∧ state i = Active.
Proof.
  unfold active_info. destruct (transactions m !! tx) as [j|]; [|naive_solver].
  case_decide; naive_solver.
Qed.

End facts.
