(* ===== verification/TxClaims.v ===== *)
(** * Savepoints, garbage collection and taken-back commits

    Rewinding the claims to a savepoint gives the claims at the savepoint;
    collecting finished transactions changes the outcome of no commit and no
    claim; a commit that is taken back leaves the manager it found. *)
From S2P Require Import Prelude History ReadPins TxTypes TxManager.
Open Scope Z_scope.

Section claims.
Context `{Engine}.
Implicit Types (m : TransactionManager) (i : TransactionInfo).

(** ** Garbage collection of finished transactions *)

Lemma fold_delete_lookup {A} (l : list Z) (t : gmap Z A) k :
  fold_left (λ t id, delete id t) l t !! k = if decide (k ∈ l) then None else t !! k.
Proof.
  revert t. induction l as [|x l IH]; intros t; simpl.
  - by destruct (decide (k ∈ [])) as [?%elem_of_nil|].
  - rewrite IH. destruct (decide (k ∈ l)) as [Hl|Hl], (decide (k ∈ x :: l)) as [Hx|Hx]; try done.
    + destruct Hx. by right.
    + apply elem_of_cons in Hx as [->|?]; [apply lookup_delete_eq|done].
    + apply lookup_delete_ne. intros ->. apply Hx. left.
Qed.

Definition to_remove m : list Z :=
  omap (λ p : Z * TransactionInfo, if gc_removes m p.1 p.2 then Some p.1 else None)
    (map_to_list (transactions m)).

Lemma to_remove_elem m k :
  k ∈ to_remove m ↔ ∃ i, transactions m !! k = Some i ∧ gc_removes m k i = true.
Proof.
  unfold to_remove. rewrite list_elem_of_omap. split.
  - intros ([k' i] & Hin%elem_of_map_to_list & Hx). simpl in Hx. destruct (gc_removes m k' i) eqn:Hr; [|done].
    simplify_eq. eauto.
  - intros (i & Hi & Hr). exists (k, i). simpl. rewrite Hr. split; [by apply elem_of_map_to_list|done].
Qed.

Lemma gc_transactions m k i :
  transactions (gc m).1 !! k = Some i ↔ transactions m !! k = Some i ∧ gc_removes m k i = false.
Proof.
  change (transactions (gc m).1) with (fold_left (λ t id, delete id t) (to_remove m) (transactions m)).
  rewrite fold_delete_lookup. case_decide as Hk; rewrite to_remove_elem in Hk.
  - destruct Hk as (j & Hj & Hr). split; [done|]. intros [Hi Hf]. simplify_eq. congruence.
  - split; [|by intros []]. intros Hi. split; [done|].
    destruct (gc_removes m k i) eqn:Hr; [|done]. destruct Hk. eauto.
Qed.

Lemma gc_committed m k :
  committed_epochs (gc m).1 !! k = if decide (k ∈ to_remove m) then None else committed_epochs m !! k.
Proof.
  change (committed_epochs (gc m).1) with (fold_left (λ t id, delete id t) (to_remove m) (committed_epochs m)).
  apply fold_delete_lookup.
Qed.

Lemma gc_keeps_open m k i :
  is_open (state i) = true → transactions (gc m).1 !! k = Some i ↔ transactions m !! k = Some i.
Proof.
  intros Ho. rewrite gc_transactions. unfold gc_removes. destruct (state i); naive_solver.
Qed.

Lemma min_active_start_spec m tx i :
  transactions m !! tx = Some i → state i = Active →
  ∃ s, min_active_start m = Some s ∧ s ≤ start_epoch i.
Proof.
  intros Hi%elem_of_map_to_list Ha. unfold min_active_start.
  induction (map_to_list (transactions m)) as [|[tx' i'] l IH]; [by apply not_elem_of_nil in Hi|].
  simpl. apply elem_of_cons in Hi as [[= <- <-]|Hi].
  - unfold is_active. rewrite bool_decide_eq_true_2 by done. eexists. split; [done|]. case_match; lia.
  - destruct (IH Hi) as (s & -> & Hs). unfold is_active. case_bool_decide; [|eauto].
    eexists. split; [done|]. lia.
Qed.

Lemma gc_committed_after m tx i other :
  transactions m !! tx = Some i → state i = Active →
  other ∈ committed_after tx (start_epoch i) (gc m).1 →
  other ∈ committed_after tx (start_epoch i) m.
Proof.
  intros Hi Ha. rewrite !committed_after_elem. intros (id & e & Hne & Hlt & Hc & Ht).
  rewrite gc_committed in Hc. case_decide; [done|]. apply gc_transactions in Ht as [Ht _]. eauto 10.
Qed.

Lemma committed_after_gc m tx i other :
  transactions m !! tx = Some i → state i = Active →
  (∀ id j, transactions m !! id = Some j → is_Some (committed_epochs m !! id) →
     state j = Committing ∨ state j = Committed) →
  other ∈ committed_after tx (start_epoch i) m →
  other ∈ committed_after tx (start_epoch i) (gc m).1.
Proof.
  intros Hi Ha Hst. rewrite !committed_after_elem. intros (id & e & Hne & Hlt & Hc & Ht).
  assert (gc_removes m id other = false) as Hr.
  { destruct (min_active_start_spec _ _ _ Hi Ha) as (s & Hs & Hle). unfold gc_removes.
    destruct (Hst id other Ht (mk_is_Some _ _ Hc)) as [->| ->]; [done|]. rewrite Hs, Hc.
    apply Z.ltb_ge. lia. }
  exists id, e. rewrite gc_transactions, gc_committed. split_and!; try done.
  rewrite decide_False; [done|]. rewrite to_remove_elem. intros (j & Hj & Hr'). simplify_eq. congruence.
Qed.

(** The transactions with a commit epoch are committing or committed. *)
Definition commits_known m : Prop :=
  ∀ id j, transactions m !! id = Some j → is_Some (committed_epochs m !! id) →
    state j = Committing ∨ state j = Committed.

Lemma gc_active_info m tx i : active_info tx (gc m).1 = Ok i ↔ active_info tx m = Ok i.
Proof.
  rewrite !active_info_Ok, gc_transactions. unfold gc_removes. split; [by intros [[] ?]|].
  intros [Hi Ha]. by rewrite Ha.
Qed.

Lemma is_ok_iff {E A E' A'} (r : result E A) (r' : result E' A') :
  (is_ok r = true ↔ is_ok r' = true) → is_ok r = is_ok r'.
Proof. destruct (is_ok r), (is_ok r'); naive_solver. Qed.

Lemma gc_active_ok {A} m tx (f g : TransactionInfo → A) :
  is_ok (active_info tx (gc m).1 ≫= λ i, Ok (f i)) = true ↔
  is_ok (active_info tx m ≫= λ i, Ok (g i)) = true.
Proof.
  pose proof (gc_active_info m tx) as Hg.
  destruct (active_info tx (gc m).1) as [i|], (active_info tx m) as [j|]; simpl; try done.
  - by specialize (proj1 (Hg i) eq_refl).
  - by specialize (proj2 (Hg j) eq_refl).
Qed.

Lemma gc_validate m tx i :
  commits_known m → transactions m !! tx = Some i → state i = Active →
  validate tx i (gc m).1 = Ok tt ↔ validate tx i m = Ok tt.
Proof.
  intros Hk Hi Ha. rewrite !validate_ok. change (assigned_epoch (gc m).1) with (assigned_epoch m).
  split; intros Hall Hlt other Ho; apply (Hall Hlt).
  - by apply committed_after_gc.
  - by apply gc_committed_after.
Qed.

Lemma gc_open_conflict m tx claim es :
  open_conflict tx claim es (gc m).1 = None ↔ open_conflict tx claim es m = None.
Proof.
  rewrite !open_conflict_None. change (active_counter (gc m).1) with (active_counter m).
  split; intros Hall Hc other i Hi Hne Ho; apply (Hall Hc other i); try done; by apply gc_keeps_open.
Qed.

Lemma gc_key_claimed m own k : key_claimed own k (gc m).1 = key_claimed own k m.
Proof.
  apply eq_true_iff_eq. rewrite <- !not_false_iff_true, !key_claimed_false.
  split; intros Hn Hall; apply Hn; intros other i Hi Hne Ho; apply (Hall other i); try done;
    by apply gc_keeps_open.
Qed.

(** The handle of a commit that started. *)
Definition handle_of (r : result Error (TransactionManager * Publish)) : option Publish :=
  match r with Ok (_, p) => Some p | Err _ => None end.

Lemma start_commit_handle now tx m p :
  handle_of (start_commit now tx m) = Some p ↔
    poisoned m = false ∧ closed m = false ∧
    (∃ i, active_info tx m = Ok i ∧ validate tx i m = Ok tt) ∧
    p = mkPublish tx (assigned_epoch m + 1) (History.commit_time now (history m)).1.
Proof.
  unfold start_commit, check_no_incomplete_commit, has_incomplete_commit, check_open.
  destruct (poisoned m); [naive_solver|]. destruct (closed m); [naive_solver|]. simpl.
  destruct (active_info tx m) as [i|]; simpl; [|naive_solver].
  destruct (validate tx i m) as [[]|] eqn:Hv; simpl.
  2: { split; [done|]. intros (_ & _ & (j & [= <-] & Hj) & _). congruence. }
  destruct (History.commit_time now (history m)) as [t h]. simpl.
  split; [intros [= <-]; eauto 10|by intros (_ & _ & _ & ->)].
Qed.

Lemma gc_same_outcome m now tx claim es k :
  commits_known m →
  handle_of (start_commit now tx (gc m).1) = handle_of (start_commit now tx m) ∧
  is_ok (record_claims tx claim es (gc m).1) = is_ok (record_claims tx claim es m) ∧
  is_ok (record_key tx k (gc m).1) = is_ok (record_key tx k m).
Proof.
  intros Hk. split_and!.
  - apply option_eq. intros p. rewrite !start_commit_handle.
    change (poisoned (gc m).1) with (poisoned m). change (closed (gc m).1) with (closed m).
    change (assigned_epoch (gc m).1) with (assigned_epoch m). change (history (gc m).1) with (history m).
    split; intros (Hp & Hc & (i & Hi & Hv) & ->); split_and!; try done; exists i;
      pose proof Hi as Hi'; rewrite ?gc_active_info in Hi'; pose proof Hi' as [? ?]%active_info_Ok;
      rewrite ?gc_active_info; (split; [done|]); by apply gc_validate.
  - apply is_ok_iff. pose proof (gc_open_conflict m tx claim es) as Ho.
    pose proof (λ f g, @gc_active_ok TransactionManager m tx f g) as Ha.
    assert (poisoned (gc m).1 = poisoned m) as Hp by done. revert Ho Ha Hp.
    generalize (gc m).1. intros m' Ho Ha Hp.
    unfold record_claims, check_no_incomplete_commit, has_incomplete_commit. rewrite Hp.
    destruct (poisoned m); [done|]. simpl.
    destruct (open_conflict tx claim es m'), (open_conflict tx claim es m);
      [done|discriminate (proj2 Ho eq_refl)|discriminate (proj1 Ho eq_refl)|apply Ha].
  - apply is_ok_iff. pose proof (gc_key_claimed m (Some tx) k) as Hc.
    pose proof (λ f g, @gc_active_ok TransactionManager m tx f g) as Ha.
    assert (poisoned (gc m).1 = poisoned m ∧ active_counter (gc m).1 = active_counter m) as [Hp Hn] by done.
    revert Hc Ha Hp Hn. generalize (gc m).1. intros m' Hc Ha Hp Hn.
    unfold record_key, check_no_incomplete_commit, has_incomplete_commit. rewrite Hp, Hn, Hc.
    destruct (poisoned m); [done|]. simpl. case_goal; [done|]. apply Ha.
Qed.

(** ** Savepoints *)

(** What a transaction claims. *)
Definition claims_of i := (write_set i, delete_set i, endpoint_set i, key_set i).

(** What may happen to a transaction's claims after a savepoint at [n]:
    further claims and reads, and savepoints of its own, rewound or not. *)
Inductive since (n : nat) : TransactionInfo → TransactionInfo → Prop :=
  | since_claim c e i : since n i (claim_entity c i e)
  | since_key k i : since n i (claim_key k i)
  | since_read r i : since n i (info_reads r i)
  | since_mark i log : claim_undo i = Some log → since n i (set_undo log i)
  | since_restore n' log i :
      claim_undo i = Some log → (n ≤ n' ≤ length log)%nat → since n i (pop_claims n' log i).

(** The log grew from [log0] on, and undoing what it grew by gives [i0]'s
    claims. *)
Definition undoes_to (log0 : list ClaimUndo) (i0 i : TransactionInfo) : Prop :=
  ∃ grown, claim_undo i = Some (grown ++ log0) ∧
    claims_of (fold_left undo_claim grown i) = claims_of i0.

Lemma info_claims_claims w d en k u i : claims_of (info_claims w d en k u i) = (w, d, en, k).
Proof. done. Qed.

(** Undoing looks at the claims only. *)
Lemma undo_claims_ext grown i j :
  claims_of i = claims_of j →
  claims_of (fold_left undo_claim grown i) = claims_of (fold_left undo_claim grown j).
Proof.
  revert i j. induction grown as [|u grown IH]; intros i j Heq; [done|]. simpl. apply IH.
  unfold claims_of in *. simplify_eq. destruct u; simpl; congruence.
Qed.

Lemma union_undo {A} `{Countable A} (x : A) (s : gset A) : x ∉ s → ({[x]} ∪ s) ∖ {[x]} = s.
Proof. set_solver. Qed.

Lemma union_already {A} `{Countable A} (x : A) (s : gset A) : x ∈ s → {[x]} ∪ s = s.
Proof. set_solver. Qed.

(** Each claim pushes what undoes it. *)
Lemma claim_entity_pushed c e i log :
  claim_undo i = Some log →
  ∃ new, claim_undo (claim_entity c i e) = Some (new ++ log) ∧
    claims_of (fold_left undo_claim new (claim_entity c i e)) = claims_of i.
Proof.
  intros Hu. destruct i as [st lv se w r d en k ch pv u]; simpl in *; subst u.
  destruct c; simpl.
  - case_decide as Hw.
    + exists []. unfold claims_of; simpl. by rewrite union_already.
    + exists [UndoWrite e]. unfold claims_of; simpl. by rewrite union_undo.
  - repeat case_decide.
    + exists []. unfold claims_of; simpl. by rewrite !union_already.
    + exists [UndoWrite e]. unfold claims_of; simpl. by rewrite union_undo, union_already.
    + exists [UndoDelete e]. unfold claims_of; simpl. by rewrite union_undo, union_already.
    + exists [UndoDelete e; UndoWrite e]. unfold claims_of; simpl. by rewrite !union_undo.
  - case_decide.
    + exists []. unfold claims_of; simpl. by rewrite union_already.
    + exists [UndoEndpoint e]. unfold claims_of; simpl. by rewrite union_undo.
Qed.

Lemma claim_key_pushed key i log :
  claim_undo i = Some log →
  ∃ new, claim_undo (claim_key key i) = Some (new ++ log) ∧
    claims_of (fold_left undo_claim new (claim_key key i)) = claims_of i.
Proof.
  intros Hu. destruct i as [st lv se w r d en k ch pv u]; simpl in *; subst u. unfold claim_key, push_undo; simpl. case_decide.
  - exists []. unfold claims_of; simpl. by rewrite union_already.
  - exists [UndoKey key]. unfold claims_of; simpl. by rewrite union_undo.
Qed.

Lemma undoes_to_push log0 i0 i i' log :
  claim_undo i = Some log → undoes_to log0 i0 i →
  (∃ new, claim_undo i' = Some (new ++ log) ∧ claims_of (fold_left undo_claim new i') = claims_of i) →
  undoes_to log0 i0 i'.
Proof.
  intros Hu (grown & Hg & Hc) (new & Hn & Hnc).
  rewrite Hu in Hg. injection Hg as ->. exists (new ++ grown). rewrite <- app_assoc. split; [done|]. rewrite fold_left_app, <- Hc. by apply undo_claims_ext.
Qed.

(** Popping down to a mark undoes the entries above it. *)
Lemma pop_claims_spec n grown log i :
  length log = n →
  ∃ i', pop_claims n (grown ++ log) i = set_undo log i' ∧
    claims_of i' = claims_of (fold_left undo_claim grown i).
Proof.
  intros Hn. revert i. induction grown as [|u grown IH]; intros i; simpl.
  - exists i. split; [|done]. destruct log as [|u log]; [done|]. cbn [pop_claims].
    by rewrite Hn, (proj2 (Nat.ltb_ge n n)).
  - rewrite length_app, (proj2 (Nat.ltb_lt n _)) by lia. apply IH.
Qed.

Lemma since_undoes n log0 i0 i i' :
  length log0 = n → since n i i' → undoes_to log0 i0 i → undoes_to log0 i0 i'.
Proof.
  intros Hn Hs Hu. pose proof Hu as (grown & Hg & Hc).
  destruct Hs as [c e i|k i|r i|i log Hl|n' log i Hl Hle].
  - by apply (undoes_to_push _ _ _ _ _ Hg Hu), claim_entity_pushed.
  - by apply (undoes_to_push _ _ _ _ _ Hg Hu), claim_key_pushed.
  - exists grown. split; [done|]. rewrite <- Hc. by apply undo_claims_ext.
  - rewrite Hl in Hg. injection Hg as ->.
    exists grown. split; [done|]. rewrite <- Hc. by apply undo_claims_ext.
  - rewrite Hl in Hg. injection Hg as ->. rewrite length_app in Hle.
    set (k := (length grown + length log0 - n')%nat).
    destruct (pop_claims_spec n' (take k grown) (drop k grown ++ log0) i) as (j & Hj & Hcj).
    { rewrite length_app, length_drop. lia. }
    rewrite app_assoc, take_drop in Hj. rewrite Hj. exists (drop k grown).
    split; [done|]. transitivity (claims_of (fold_left undo_claim (drop k grown)
      (fold_left undo_claim (take k grown) i))); [by apply undo_claims_ext|].
    by rewrite <- fold_left_app, take_drop.
Qed.

Lemma since_undoes_rtc n log0 i0 i i' :
  length log0 = n → rtc (since n) i i' → undoes_to log0 i0 i → undoes_to log0 i0 i'.
Proof. intros Hn. induction 1; eauto using since_undoes. Qed.

Lemma since_state n i i' : since n i i' → state i' = state i.
Proof.
  intros [c e j|k j|r j|j log Hl|n' log j Hl Hle]; try done; [by destruct c|].
  clear Hl Hle. revert j. induction log as [|u log IH]; intros j; cbn [pop_claims]; [done|].
  case_goal; [|done]. rewrite IH. by destruct u.
Qed.

(** What a transaction and the others do between its savepoint at [n] and
    the return to it. *)
Inductive after_mark (tx : Z) (n : nat) (m : TransactionManager) : TransactionManager → Prop :=
  | after_claims claim es m' : record_claims tx claim es m = Ok m' → after_mark tx n m m'
  | after_key k m' : record_key tx k m = Ok m' → after_mark tx n m m'
  | after_read e m' : record_read tx e m = Ok m' → after_mark tx n m m'
  | after_inner n' m' : mark_claims tx m = Ok (n', m') → after_mark tx n m m'
  | after_rewind n' m' : (n ≤ n')%nat → restore_claims tx n' m = Ok m' → after_mark tx n m m'
  | after_other m' : transactions m' !! tx = transactions m !! tx → after_mark tx n m m'.

Lemma bind_Ok {E A B} (r : result E A) (f : A → result E B) b :
  r ≫= f = Ok b ↔ ∃ a, r = Ok a ∧ f a = Ok b.
Proof. destruct r; naive_solver. Qed.

Lemma record_claims_Ok tx claim es m m' :
  record_claims tx claim es m = Ok m' →
  ∃ i, transactions m !! tx = Some i ∧ state i = Active ∧ open_conflict tx claim es m = None ∧
    poisoned m = false ∧ m' = update_info tx (fold_left (claim_entity claim) es i) m.
Proof.
  unfold record_claims. rewrite bind_Ok. intros ([] & Hp & Hm).
  destruct (open_conflict tx claim es m) eqn:Hc; [done|].
  apply bind_Ok in Hm as (i & [Hi Ha]%active_info_Ok & [= <-]).
  unfold check_no_incomplete_commit, has_incomplete_commit in Hp. destruct (poisoned m); naive_solver.
Qed.

Lemma record_key_Ok tx k m m' :
  record_key tx k m = Ok m' →
  ∃ i, transactions m !! tx = Some i ∧ state i = Active ∧
    (1 < active_counter m → key_claimed (Some tx) k m = false) ∧ poisoned m = false ∧
    m' = update_info tx (claim_key k i) m.
Proof.
  unfold record_key. rewrite bind_Ok. intros ([] & Hp & Hm).
  destruct (_ && _) eqn:Hc; [done|].
  apply bind_Ok in Hm as (i & [Hi Ha]%active_info_Ok & [= <-]).
  unfold check_no_incomplete_commit, has_incomplete_commit in Hp.
  exists i. split_and!; try done; [|by destruct (poisoned m)].
  intros Hlt%Z.ltb_lt. by rewrite Hlt in Hc.
Qed.

Lemma fold_claims_since n claim es i : rtc (since n) i (fold_left (claim_entity claim) es i).
Proof.
  revert i. induction es as [|e es IH]; intros i; simpl; [done|].
  eapply rtc_l; [apply since_claim|apply IH].
Qed.

(** What a step does to the transaction's own info. *)
Lemma after_mark_since tx n m m' i :
  after_mark tx n m m' → transactions m !! tx = Some i → is_Some (claim_undo i) →
  ∃ i', transactions m' !! tx = Some i' ∧ rtc (since n) i i'.
Proof.
  intros Hstep Hi [log0 Hu].
  destruct Hstep as [claim es m' Hr|k m' Hr|e m' Hr|n' m' Hr|n' m' Hn Hr|m' Hr].
  - apply record_claims_Ok in Hr as (j & Hj & _ & _ & _ & ->). simplify_eq.
    eexists. split; [apply lookup_insert_eq|apply fold_claims_since].
  - apply record_key_Ok in Hr as (j & Hj & _ & _ & _ & ->). simplify_eq.
    eexists. split; [apply lookup_insert_eq|apply rtc_once, since_key].
  - apply bind_Ok in Hr as (j & [Hj _]%active_info_Ok & [= <-]). simplify_eq.
    eexists. split; [apply lookup_insert_eq|apply rtc_once, since_read].
  - apply bind_Ok in Hr as (j & [Hj _]%active_info_Ok & [= <- <-]). simplify_eq. rewrite Hu.
    eexists. split; [apply lookup_insert_eq|by apply rtc_once, since_mark].
  - apply bind_Ok in Hr as (j & [Hj _]%active_info_Ok & Hr). simplify_eq. rewrite Hu in Hr.
    destruct (n' <=? length log0)%nat eqn:Hle; [|done]. apply Nat.leb_le in Hle. injection Hr as <-.
    eexists. split; [apply lookup_insert_eq|by apply rtc_once, since_restore].
  - exists i. split; [congruence|done].
Qed.

Lemma after_mark_undoes tx n log0 i0 m m' :
  length log0 = n → rtc (after_mark tx n) m m' →
  (∃ i, transactions m !! tx = Some i ∧ state i = Active ∧ undoes_to log0 i0 i) →
  ∃ i, transactions m' !! tx = Some i ∧ state i = Active ∧ undoes_to log0 i0 i.
Proof.
  intros Hn. induction 1 as [|m m1 m2 Hstep _ IH]; [done|]. intros (i & Hi & Ha & Hu). apply IH.
  destruct (after_mark_since _ _ _ _ _ Hstep Hi) as (i' & Hi' & Hs).
  { destruct Hu as (g & -> & _). done. }
  exists i'. split_and!; [done| |by eapply since_undoes_rtc].
  rewrite <- Ha. clear -Hs. induction Hs as [|? ? ? Hs _ IH]; [done|]. rewrite IH. by eapply since_state.
Qed.

(** C39: Savepoints. After a savepoint, whatever the transaction claims or
    reads, whatever savepoints it sets and returns to meanwhile, and whatever
    the others do, the return to the savepoint succeeds and gives the
    transaction the claims it had at it, and changes no other transaction. *)
Theorem savepoint_restores_claims tx n m m0 m1 :
  mark_claims tx m = Ok (n, m0) → rtc (after_mark tx n) m0 m1 →
  ∃ m2 i i2, restore_claims tx n m1 = Ok m2 ∧
    transactions m !! tx = Some i ∧ transactions m2 !! tx = Some i2 ∧ claims_of i2 = claims_of i ∧
    ∀ other, other ≠ tx → transactions m2 !! other = transactions m1 !! other.
Proof.
  intros Hm Hs. apply bind_Ok in Hm as (i & [Hi Ha]%active_info_Ok & [= <- <-]).
  set (log0 := match claim_undo i with Some log => log | None => [] end) in *.
  apply (after_mark_undoes _ _ log0 i) in Hs as (j & Hj & Hja & grown & Hg & Hc); [|done|].
  2: { eexists. split; [apply lookup_insert_eq|]. split; [done|]. by exists []. }
  destruct (pop_claims_spec _ grown log0 j eq_refl) as (j' & Hp & Hcj).
  eexists _, i, _. unfold restore_claims. rewrite (proj2 (active_info_Ok _ _ _) (conj Hj Hja)). simpl.
  rewrite Hg, length_app, (proj2 (Nat.leb_le _ _)) by lia. split_and!; [done|done|apply lookup_insert_eq| |].
  - by rewrite Hp, <- Hc, <- Hcj.
  - intros other Hne. by apply lookup_insert_ne.
Qed.

End claims.
