(* ===== verification/TxSystem.v ===== *)
(** * The transaction manager under its locks

    The manager together with what its callers hold: the commit lock, the
    handles of the commits that are not published yet, the read pins, the
    idle gate. [step] is one operation of one caller; operations are atomic
    (they run under the manager's [transactions] lock, and a commit's wait
    for its turn is over when it steps), and any caller may go next. Two
    components record the past and are no state of the manager: the ledger of
    the commits by epoch, with the claims each commit was validated with, and
    the transactions whose commit was taken back. The manager itself would let
    such a transaction commit again; [CommitGuard::abort] leaves it to its
    caller to roll back, and [step_start] holds the callers to that. *)
From S2P Require Import Prelude History ReadPins TxTypes TxManager TxClaims.
Open Scope Z_scope.

Section system.
Context `{Engine}.

(** Who holds the commit lock. *)
Inductive CommitLock : Type :=
  | Unlocked
  | ByCommit (p : Publish)
  | ByHold.

Record System := mkSystem {
  mgr : TransactionManager;
  lock : CommitLock;
  handles : list Publish;
  pins : list Z;
  gate : bool;
  ledger : gmap Z (Z * TransactionInfo);
  taken_back : gset Z
}.

Definition set_mgr (m : TransactionManager) (s : System) : System :=
  mkSystem m (lock s) (handles s) (pins s) (gate s) (ledger s) (taken_back s).
Definition set_lock (l : CommitLock) (s : System) : System :=
  mkSystem (mgr s) l (handles s) (pins s) (gate s) (ledger s) (taken_back s).
Definition set_pins (m : TransactionManager) (p : list Z) (s : System) : System :=
  mkSystem m (lock s) (handles s) p (gate s) (ledger s) (taken_back s).
Definition set_gate (g : bool) (s : System) : System :=
  mkSystem (mgr s) (lock s) (handles s) (pins s) g (ledger s) (taken_back s).

(** The guard of a commit goes with its handle. *)
Definition unlock (p : Publish) (l : CommitLock) : CommitLock :=
  match l with
  | ByCommit q => if decide (pub_transaction q = pub_transaction p) then Unlocked else l
  | _ => l
  end.

Definition without (p : Publish) (l : list Publish) : list Publish :=
  filter (λ q, pub_transaction q ≠ pub_transaction p) l.

(** The handle of [p] ends, with its lock when it holds it. *)
Definition end_handle (p : Publish) (m : TransactionManager) (s : System) : System :=
  mkSystem m (unlock p (lock s)) (without p (handles s)) (pins s) (gate s) (ledger s) (taken_back s).

(** Takes one occurrence out. *)
Fixpoint remove_one (e : Z) (l : list Z) : list Z :=
  match l with
  | [] => []
  | x :: l' => if x =? e then l' else x :: remove_one e l'
  end.

(** The operations of a transaction on its own claims. *)
Inductive claim_op (tx : Z) (m : TransactionManager) : TransactionManager → Prop :=
  | op_claims claim es m' : record_claims tx claim es m = Ok m' → claim_op tx m m'
  | op_key k m' : record_key tx k m = Ok m' → claim_op tx m m'
  | op_read e m' : record_read tx e m = Ok m' → claim_op tx m m'
  | op_mark n m' : mark_claims tx m = Ok (n, m') → claim_op tx m m'
  | op_restore n m' : restore_claims tx n m = Ok m' → claim_op tx m m'.

Definition initial : System := mkSystem manager_new Unlocked [] [] false ∅ ∅.

Inductive step (s : System) : System → Prop :=
  | step_begin level private :
      gate s = false → (private = true → closed (mgr s) = false) →
      next_transaction_id (mgr s) < u64_max → active_counter (mgr s) < u64_max →
      step s (set_mgr (register level private (mgr s)).2 s)
  | step_bulk :
      lock s = ByHold → next_transaction_id (mgr s) < u64_max →
      step s (set_mgr (bulk_writer (mgr s)).2 s)
  | step_claim tx m' : claim_op tx (mgr s) m' → step s (set_mgr m' s)
  | step_start now tx i m' p :
      lock s = Unlocked → tx ∉ taken_back s → assigned_epoch (mgr s) < u64_max - 1 →
      transactions (mgr s) !! tx = Some i → start_commit now tx (mgr s) = Ok (m', p) →
      step s (mkSystem m' (ByCommit p) (p :: handles s) (pins s) (gate s)
                (<[pub_epoch p := (tx, i)]> (ledger s)) (taken_back s))
  | step_take_back p :
      lock s = ByCommit p →
      step s (mkSystem (commit_abort p (mgr s)) Unlocked (without p (handles s)) (pins s) (gate s)
                (delete (pub_epoch p) (ledger s)) ({[pub_transaction p]} ∪ taken_back s))
  | step_written p : lock s = ByCommit p → step s (set_lock Unlocked s)
  | step_complete p ordered :
      p ∈ handles s → publish_turn p (mgr s) = true →
      step s (end_handle p (complete_with p ordered (mgr s)).1 s)
  | step_drop p : p ∈ handles s → step s (end_handle p (publish_drop p (mgr s)) s)
  | step_abort tx : step s (set_mgr (abort tx (mgr s)).1 s)
  | step_abort_all : step s (set_mgr (abort_all_active (mgr s)) s)
  | step_gc : step s (set_mgr (gc (mgr s)).1 s)
  | step_poison : step s (set_mgr (poison (mgr s)) s)
  | step_pin :
      step s (set_pins (pin_read (mgr s)).2 ((pin_read (mgr s)).1 :: pins s) s)
  | step_pin_at epoch at_ m' :
      0 ≤ epoch → pin_read_at epoch (mgr s) = Ok (at_, m') → step s (set_pins m' (at_ :: pins s) s)
  | step_pin_again e : e ∈ pins s → step s (set_pins (pin_again e (mgr s)) (e :: pins s) s)
  | step_pin_drop e : e ∈ pins s → step s (set_pins (pin_drop e (mgr s)) (remove_one e (pins s)) s)
  | step_collect now : step s (set_mgr (collect_horizon now (mgr s)).2 s)
  | step_retention now r : step s (set_mgr (set_history_retention now r (mgr s)) s)
  | step_record_time e t : step s (set_mgr (record_commit_time e t (mgr s)) s)
  | step_hold :
      lock s = Unlocked → written_commits_published (mgr s) = true →
      check_no_incomplete_commit (mgr s) = Ok tt → step s (set_lock ByHold s)
  | step_release : lock s = ByHold → step s (set_lock Unlocked s)
  | step_sync e : lock s = ByHold → e < u64_max → step s (set_mgr (sync_epoch e (mgr s)) s)
  | step_gate : gate s = false → idle_gate (mgr s) = true → step s (set_gate true s)
  | step_ungate : step s (set_gate false s)
  | step_close :
      lock s = Unlocked → written_commits_published (mgr s) = true →
      step s (set_mgr (close_for_writes (mgr s)) s).

Definition reachable (s : System) : Prop := rtc step initial s.

End system.
