(* ===== verification/TxEpochs.v ===== *)
(** * The epochs of transactions and commits

    The invariant of the epochs: which transactions hold a commit epoch, how
    these compare with the published and the assigned epoch, and which
    commits still have a handle. *)
From S2P Require Import Prelude History ReadPins TxTypes TxManager TxClaims TxSystem.
Open Scope Z_scope.

Section epochs.
Context `{Engine}.
Implicit Types (m : TransactionManager) (i : TransactionInfo) (s : System) (p : Publish).

(** ** What the operations do *)

(** What an operation on the claims leaves alone. *)
Definition same_frame i i' : Prop :=
  state i' = state i ∧ start_epoch i' = start_epoch i ∧ private i' = private i.

Lemma claim_entities_frame claim es i : same_frame i (fold_left (claim_entity claim) es i).
Proof.
  unfold same_frame. revert i. induction es as [|e es IH]; intros i; [done|]. simpl.
  destruct (IH (claim_entity claim i e)) as (-> & -> & ->). by destruct claim.
Qed.

Lemma pop_claims_frame n log i : same_frame i (pop_claims n log i).
Proof.
  unfold same_frame. revert i. induction log as [|u log IH]; intros i; cbn [pop_claims]; [done|].
  case_goal; [|done]. destruct (IH (undo_claim i u)) as (-> & -> & ->). by destruct u.
Qed.

Lemma claim_op_spec tx m m' :
  claim_op tx m m' →
  ∃ i i', transactions m !! tx = Some i ∧ state i = Active ∧
    m' = update_info tx i' m ∧ same_frame i i'.
Proof.
  intros [claim es ? Hr|k ? Hr|e ? Hr|n ? Hr|n ? Hr].
  - apply record_claims_Ok in Hr as (i & Hi & Ha & _ & _ & ->). exists i. eexists.
    split; [done|split; [done|split; [done|apply claim_entities_frame]]].
  - apply record_key_Ok in Hr as (i & Hi & Ha & _ & _ & ->). exists i. eexists. done.
  - apply bind_Ok in Hr as (i & [Hi Ha]%active_info_Ok & [= <-]). exists i. eexists. done.
  - apply bind_Ok in Hr as (i & [Hi Ha]%active_info_Ok & [= <- <-]). exists i. eexists. done.
  - apply bind_Ok in Hr as (i & [Hi Ha]%active_info_Ok & Hr). destruct (claim_undo i) as [log|]; [|done].
    destruct (n <=? length log)%nat; [|done]. injection Hr as <-. exists i. eexists.
    split; [done|split; [done|split; [done|apply pop_claims_frame]]].
Qed.

Lemma start_commit_Ok now tx m m' p :
  start_commit now tx m = Ok (m', p) →
  ∃ i, transactions m !! tx = Some i ∧ state i = Active ∧ validate tx i m = Ok tt ∧
    poisoned m = false ∧ closed m = false ∧
    p = mkPublish tx (assigned_epoch m + 1) (History.commit_time now (history m)).1 ∧
    m' = set_history (History.commit_time now (history m)).2
           (set_committed (<[tx := assigned_epoch m + 1]> (committed_epochs m))
             (set_transactions (<[tx := info_state Committing i]> (transactions m))
               (set_epochs (wrap64 (assigned_epoch m + 1)) (published_epoch m) m))).
Proof.
  unfold start_commit, check_no_incomplete_commit, has_incomplete_commit, check_open.
  destruct (poisoned m); [done|]. destruct (closed m); [done|]. simpl. intros Hs.
  apply bind_Ok in Hs as (i & [Hi Ha]%active_info_Ok & Hs).
  apply bind_Ok in Hs as ([] & Hv & Hs). exists i.
  destruct (History.commit_time now (history m)) as [t h]. by simplify_eq/=.
Qed.

Lemma abort_registered_Ok tx m m' :
  abort_registered tx m = Ok m' →
  ∃ i, transactions m !! tx = Some i ∧ state i = Active ∧
    m' = set_active (wrap64 (active_counter m - 1))
          (set_transactions (if private i then delete tx (transactions m)
                             else <[tx := info_end Aborted i]> (transactions m))
            (set_reads (ReadPins.release (start_epoch i) (reads m)) m)).
Proof.
  intros Hr. apply bind_Ok in Hr as (i & [Hi Ha]%active_info_Ok & [= <-]). eauto.
Qed.

(** An abort poisons the manager when the undo failed, and marks the
    transaction when it is active. *)
Lemma abort_cases tx m :
  ∃ m1, (m1 = m ∨ m1 = poison m) ∧
    ((abort tx m).1 = m1 ∨ abort_registered tx m1 = Ok (abort tx m).1).
Proof.
  unfold abort. destruct (match changes_of tx m with Some c => _ | None => _ end).
  - exists m. split; [by left|]. destruct (abort_registered tx m); auto.
  - exists (poison m). split; [by right|]. destruct (abort_registered tx (poison m)); auto.
Qed.

Lemma complete_cases p ordered m :
  ((complete_with p ordered m).1 = m ∧ unpublishable_from m ≤ pub_epoch p) ∨
  (complete_with p ordered m).1 = publish_drop p m ∨
  (pub_epoch p < unpublishable_from m ∧ ordered = Ok tt).
Proof.
  unfold complete_with. destruct (Z.leb_spec (unpublishable_from m) (pub_epoch p)); [by left|].
  destruct ordered as [[]|]; auto.
Qed.

(** The map of the transactions after a commit was published. *)
Lemma publish_transactions_fields p m i :
  transactions m !! pub_transaction p = Some i →
  let gone := private i && (active_counter m =? 1) in
  publish_transactions p m =
    set_committed (if gone then delete (pub_transaction p) (committed_epochs m) else committed_epochs m)
      (set_transactions (if gone then delete (pub_transaction p) (transactions m)
                         else <[pub_transaction p := info_end Committed i]> (transactions m))
        (set_reads (ReadPins.release (start_epoch i) (reads m)) m)).
Proof.
  intros Hi. unfold publish_transactions. rewrite Hi. simpl.
  destruct (private i && _); [done|]. by destruct m.
Qed.

(** ** The invariant *)

(** The commit epoch of a transaction, by its state. *)
Definition epoch_of_state m (st : TransactionState) (e : option Z) : Prop :=
  match st with
  | Active | Aborted => e = None
  | Committing => ∃ x, e = Some x ∧ published_epoch m < x ≤ assigned_epoch m
  | Committed => ∃ x, e = Some x ∧ x ≤ published_epoch m
  end.

Definition txs_ok m : Prop :=
  (0 ≤ published_epoch m ≤ assigned_epoch m ∧ assigned_epoch m < u64_max) ∧
  (0 ≤ next_transaction_id m ≤ u64_max) ∧
  (∀ k i, transactions m !! k = Some i →
     k < next_transaction_id m ∧ 0 ≤ start_epoch i ≤ published_epoch m ∧
     epoch_of_state m (state i) (committed_epochs m !! k)) ∧
  (∀ k e, committed_epochs m !! k = Some e → is_Some (transactions m !! k)) ∧
  (∀ k k' e, committed_epochs m !! k = Some e → committed_epochs m !! k' = Some e → k = k').

Definition lock_ok s : Prop :=
  match lock s with
  | Unlocked => True
  | ByCommit p => p ∈ handles s ∧ pub_epoch p = assigned_epoch (mgr s)
  | ByHold => published_epoch (mgr s) = assigned_epoch (mgr s)
  end.

Definition handle_ok m p : Prop :=
  (∃ i, transactions m !! pub_transaction p = Some i ∧ state i = Committing) ∧
  committed_epochs m !! pub_transaction p = Some (pub_epoch p).

(** While no commit failed, every epoch that is assigned and not published
    has a handle. *)
Definition covered s : Prop :=
  poisoned (mgr s) = false →
  unpublishable_from (mgr s) = u64_max ∧
  ∀ e, published_epoch (mgr s) < e ≤ assigned_epoch (mgr s) → ∃ p, p ∈ handles s ∧ pub_epoch p = e.

Definition epochs_ok s : Prop :=
  txs_ok (mgr s) ∧ (∀ p, p ∈ handles s → handle_ok (mgr s) p) ∧ lock_ok s ∧ covered s.

Lemma initial_epochs_ok : epochs_ok initial.
Proof.
  split; [|split; [|split]].
  - unfold txs_ok, u64_max; simpl. split_and!; try lia; intros *; by rewrite lookup_empty.
  - intros p Hp. by apply not_elem_of_nil in Hp.
  - done.
  - intros _. simpl. split; [done|lia].
Qed.

Lemma handle_epoch m p :
  txs_ok m → handle_ok m p → published_epoch m < pub_epoch p ≤ assigned_epoch m.
Proof.
  intros (_ & _ & Ht & _) ((i & Hi & Hs) & Hc). destruct (Ht _ _ Hi) as (_ & _ & He).
  rewrite Hs, Hc in He. destruct He as (x & [= <-] & ?). done.
Qed.

(** A transaction is updated in a way that keeps its state and snapshot. *)
Lemma txs_ok_update m k i i' :
  transactions m !! k = Some i → state i' = state i → start_epoch i' = start_epoch i →
  txs_ok m → txs_ok (set_transactions (<[k := i']> (transactions m)) m).
Proof.
  intros Hi Hs Hst (Hb & Hn & Ht & Hc & Hinj). refine (conj Hb (conj Hn (conj _ (conj _ Hinj)))); simpl.
  - intros k' j Hj. destruct (decide (k' = k)) as [->|Hne].
    + rewrite lookup_insert_eq in Hj. simplify_eq. rewrite Hs, Hst. by apply Ht.
    + rewrite lookup_insert_ne in Hj by done. by apply Ht.
  - intros k' e He. destruct (decide (k' = k)) as [->|Hne]; [by rewrite lookup_insert_eq|].
    rewrite lookup_insert_ne by done. by eapply Hc.
Qed.

Lemma handle_ok_update m k i i' p :
  transactions m !! k = Some i → state i' = state i →
  handle_ok m p → handle_ok (set_transactions (<[k := i']> (transactions m)) m) p.
Proof.
  intros Hi Hs [(j & Hj & Hjs) Hc]. split; [|done]. simpl.
  destruct (decide (pub_transaction p = k)) as [Heq|Hne].
  - rewrite Heq in Hj |- *. rewrite lookup_insert_eq. exists i'. split; [done|]. congruence.
  - rewrite lookup_insert_ne by done. eauto.
Qed.

(** ** Every operation keeps it *)

(** An operation that changes neither the epochs, the commits nor the flags. *)
Lemma epochs_ok_transactions t m s :
  (txs_ok (mgr s) → txs_ok m) → (∀ p, handle_ok (mgr s) p → handle_ok m p) →
  assigned_epoch m = assigned_epoch (mgr s) → published_epoch m = published_epoch (mgr s) →
  (poisoned m = false → poisoned (mgr s) = false ∧ unpublishable_from m = unpublishable_from (mgr s)) →
  epochs_ok s → epochs_ok (mkSystem m (lock s) (handles s) t (gate s) (ledger s) (taken_back s)).
Proof.
  intros Ht Hh Ha Hp Hf (Hok & Hhs & Hl & Hc). refine (conj (Ht Hok) (conj _ (conj _ _))); simpl.
  - auto.
  - unfold lock_ok in *. simpl. by rewrite Ha, Hp.
  - unfold covered in *; simpl. rewrite Ha, Hp. intros Hpo. destruct (Hf Hpo) as [Hf' ->]. by apply Hc.
Qed.

Lemma register_epochs_ok level private s :
  next_transaction_id (mgr s) < u64_max → epochs_ok s →
  epochs_ok (set_mgr (register level private (mgr s)).2 s).
Proof.
  intros Hn Hok. set (m := mgr s) in *.
  assert (∃ r n, (register level private m).2 =
    set_active n (set_transactions (<[next_transaction_id m := info_new (published_epoch m) level
      (changes_new (next_transaction_id m) (published_epoch m)) private]> (transactions m))
      (set_reads r (set_next_id (wrap64 (next_transaction_id m + 1)) m)))) as (r & n & ->).
  { unfold register, take_id. destruct (ReadPins.hold_published _ _) as [e r] eqn:Hr.
    assert (e = published_epoch m) as ->; [|by eexists _, _].
    unfold ReadPins.hold_published in Hr. simpl in Hr. repeat case_match; by simplify_eq. }
  assert (transactions m !! next_transaction_id m = None) as Hnew.
  { destruct Hok as ((_ & _ & Ht & _) & _). apply eq_None_not_Some. intros [i Hi].
    destruct (Ht _ _ Hi) as [? _]. subst m. lia. }
  subst m. apply epochs_ok_transactions; try done.
  - intros (Hb & Hnb & Ht & Hc & Hinj). refine (conj Hb (conj _ (conj _ (conj _ Hinj)))); simpl;
      rewrite ?wrap64_small by (unfold is_u64, u64_max in *; lia).
    + lia.
    + intros k i Hi. destruct (decide (k = next_transaction_id (mgr s))) as [->|Hne].
      * rewrite lookup_insert_eq in Hi. simplify_eq; simpl. split; [lia|]. split; [lia|].
        apply eq_None_not_Some. intros [e He]. destruct (Hc _ _ He) as [j Hj]. by simplify_eq.
      * rewrite lookup_insert_ne in Hi by done. destruct (Ht _ _ Hi) as (? & ? & ?).
        split; [lia|]. done.
    + intros k e He. destruct (Hc _ _ He) as [j Hj].
      destruct (decide (k = next_transaction_id (mgr s))) as [->|Hne].
      * by rewrite lookup_insert_eq.
      * by rewrite lookup_insert_ne.
  - intros p [(i & Hi & Hs) Hc]. split; [|done]. simpl. exists i. split; [|done].
    rewrite lookup_insert_ne; [done|]. intros Heq. congruence.
Qed.

Lemma claim_epochs_ok tx m' s :
  claim_op tx (mgr s) m' → epochs_ok s → epochs_ok (set_mgr m' s).
Proof.
  intros (i & i' & Hi & Ha & -> & (Hs & Hst & _))%claim_op_spec. apply epochs_ok_transactions; try done.
  - by apply txs_ok_update with i.
  - intros p. by apply handle_ok_update with i.
Qed.

Lemma poison_epochs_ok s : epochs_ok s → epochs_ok (set_mgr (poison (mgr s)) s).
Proof. by apply epochs_ok_transactions. Qed.

(** A handle goes without its commit being published, in a manager where a
    commit failed. *)
Lemma end_handle_epochs_ok p m s :
  poisoned m = true → (txs_ok (mgr s) → txs_ok m) → (∀ q, handle_ok (mgr s) q → handle_ok m q) →
  assigned_epoch m = assigned_epoch (mgr s) → published_epoch m = published_epoch (mgr s) →
  epochs_ok s → epochs_ok (end_handle p m s).
Proof.
  intros Hpo Ht Hh Ha Hp (Hok & Hhs & Hl & Hc). refine (conj (Ht Hok) (conj _ (conj _ _))); simpl.
  - intros q [_ Hq]%list_elem_of_filter. auto.
  - unfold lock_ok in *; simpl. destruct (lock s) as [|q|]; simpl; [done| |congruence].
    case_decide; [done|]. destruct Hl as [Hq ?]. split; [|congruence]. by apply list_elem_of_filter.
  - unfold covered; simpl. congruence.
Qed.

Lemma drop_epochs_ok p s : epochs_ok s → epochs_ok (end_handle p (publish_drop p (mgr s)) s).
Proof. by apply end_handle_epochs_ok. Qed.

Lemma start_epochs_ok now tx led m' p s :
  lock s = Unlocked → assigned_epoch (mgr s) < u64_max - 1 →
  start_commit now tx (mgr s) = Ok (m', p) → epochs_ok s →
  epochs_ok (mkSystem m' (ByCommit p) (p :: handles s) (pins s) (gate s) led (taken_back s)).
Proof.
  intros Hlock Hmax (j & Hj & Ha & _ & Hpo & _ & -> & ->)%start_commit_Ok (Hok & Hhs & Hl & Hc).
  pose proof Hok as ((Hb & Hb') & Hn & Ht & Hcm & Hinj).
  assert (∀ k e, committed_epochs (mgr s) !! k = Some e → e ≤ assigned_epoch (mgr s)) as Hle.
  { intros k e He. destruct (Hcm _ _ He) as [x Hx]. destruct (Ht _ _ Hx) as (_ & _ & Hx').
    destruct (state x); simpl in Hx'; naive_solver lia. }
  assert (wrap64 (assigned_epoch (mgr s) + 1) = assigned_epoch (mgr s) + 1) as Hw.
  { apply wrap64_small. unfold is_u64, u64_max in *. lia. }
  refine (conj _ (conj _ (conj _ _))); simpl.
  - unfold txs_ok; simpl. rewrite Hw. split; [lia|]. split; [done|]. split; [|split].
    + intros k x Hx. destruct (decide (k = tx)) as [->|Hne].
      * rewrite lookup_insert_eq in Hx. simplify_eq. simpl. destruct (Ht _ _ Hj) as (? & ? & _).
        split; [done|]. split; [done|]. exists (assigned_epoch (mgr s) + 1). rewrite lookup_insert_eq. split; [done|simpl; lia].
      * rewrite lookup_insert_ne in Hx by done. destruct (Ht _ _ Hx) as (? & ? & Hst).
        split; [done|]. split; [done|]. rewrite lookup_insert_ne by done.
        destruct (state x); simpl in *; [done| |done|done]. naive_solver lia.
    + intros k e. destruct (decide (k = tx)) as [->|Hne]; [by rewrite !lookup_insert_eq|].
      rewrite !lookup_insert_ne by done. apply Hcm.
    + intros k k' e. destruct (decide (k = tx)) as [->|Hne], (decide (k' = tx)) as [->|Hne'];
        rewrite ?lookup_insert_eq, ?lookup_insert_ne by done; [done| | |apply Hinj].
      * intros [= <-] Hk'%Hle. lia.
      * intros Hk%Hle [= <-]. lia.
  - intros q [->|Hq]%elem_of_cons.
    + split; simpl; [|apply lookup_insert_eq]. eexists. by rewrite lookup_insert_eq.
    + destruct (Hhs q Hq) as [(x & Hx & Hxs) Hqc].
      assert (pub_transaction q ≠ tx) by (intros Heq; rewrite Heq in Hx; simplify_eq; congruence).
      split; simpl; rewrite !lookup_insert_ne by done; eauto.
  - unfold lock_ok; simpl. split; [left|done].
  - intros _. simpl. destruct (Hc Hpo) as [Hu Hcov]. split; [done|]. rewrite Hw. intros e He.
    destruct (decide (e = assigned_epoch (mgr s) + 1)) as [->|Hne].
    + eexists. split; [left|done].
    + destruct (Hcov e) as (q & Hq & ?); [lia|]. exists q. split; [by right|done].
Qed.

(** The transaction of a handle is the only one with its epoch. *)
Lemma other_epoch m p k e :
  txs_ok m → handle_ok m p → k ≠ pub_transaction p → committed_epochs m !! k = Some e → e ≠ pub_epoch p.
Proof. intros (_ & _ & _ & _ & Hinj) [_ Hp] Hne He ->. by destruct (Hne (Hinj _ _ _ He Hp)). Qed.

Lemma take_back_epochs_ok p l b s :
  lock s = ByCommit p → epochs_ok s →
  epochs_ok (mkSystem (commit_abort p (mgr s)) Unlocked (without p (handles s)) (pins s) (gate s) l b).
Proof.
  intros Hlock (Hok & Hhs & Hl & Hc). unfold lock_ok in Hl. rewrite Hlock in Hl. destruct Hl as [Hp Hpe].
  pose proof (Hhs p Hp) as Hph. pose proof (handle_epoch _ _ Hok Hph) as Hpb.
  pose proof Hok as ((Hb & Hb') & Hn & Ht & Hcm & Hinj). destruct Hph as [(i & Hi & His) Hpc].
  refine (conj _ (conj _ (conj _ _))); simpl.
  - unfold txs_ok; simpl. split; [lia|]. split; [done|]. split; [|split].
    + intros k x Hx. destruct (decide (k = pub_transaction p)) as [->|Hne].
      * rewrite lookup_alter_eq, Hi in Hx. simplify_eq/=. destruct (Ht _ _ Hi) as (? & ? & _).
        split; [done|]. split; [done|]. by rewrite lookup_delete_eq.
      * rewrite lookup_alter_ne in Hx by done. destruct (Ht _ _ Hx) as (? & ? & Hst).
        split; [done|]. split; [done|]. rewrite lookup_delete_ne by done.
        destruct (state x); simpl in *; [done| |done|done]. destruct Hst as (e & He & ?).
        exists e. split; [done|]. pose proof (other_epoch _ p _ _ Hok (conj (ex_intro _ i (conj Hi His)) Hpc) Hne He). lia.
    + intros k e [Hne He]%lookup_delete_Some. rewrite lookup_alter_ne by done. by eapply Hcm.
    + intros k k' e [_ Hk]%lookup_delete_Some [_ Hk']%lookup_delete_Some. by eapply Hinj.
  - intros q [Hne Hq]%list_elem_of_filter. destruct (Hhs q Hq) as [(x & Hx & Hxs) Hqc].
    split; simpl; [rewrite lookup_alter_ne by done|rewrite lookup_delete_ne by done]; eauto.
  - done.
  - intros Hpo. destruct (Hc Hpo) as [Hu Hcov]. split; [done|]. simpl. intros e He.
    destruct (Hcov e) as (q & Hq & Hqe); [lia|]. exists q. split; [|done].
    apply list_elem_of_filter. split; [|done]. intros Heq.
    destruct (Hhs q Hq) as [_ Hqc]. rewrite Heq, Hpc in Hqc. simplify_eq. lia.
Qed.

(** The handles that are left, and their epochs, when [p]'s turn came. *)
Lemma complete_epochs_ok p m s :
  p ∈ handles s → pub_epoch p ≤ published_epoch (mgr s) + 1 →
  assigned_epoch m = assigned_epoch (mgr s) → published_epoch m = pub_epoch p →
  next_transaction_id m = next_transaction_id (mgr s) →
  poisoned m = poisoned (mgr s) → unpublishable_from m = unpublishable_from (mgr s) →
  (∀ k, k ≠ pub_transaction p → transactions m !! k = transactions (mgr s) !! k) →
  (∀ k, k ≠ pub_transaction p → committed_epochs m !! k = committed_epochs (mgr s) !! k) →
  (∀ i, transactions (mgr s) !! pub_transaction p = Some i →
    transactions m !! pub_transaction p = Some (info_end Committed i) ∧
      committed_epochs m !! pub_transaction p = Some (pub_epoch p) ∨
    transactions m !! pub_transaction p = None ∧ committed_epochs m !! pub_transaction p = None) →
  epochs_ok s → epochs_ok (end_handle p m s).
Proof.
  intros Hp Hturn Ha Hpub Hid Hpo Hun Hto Hco Hptx (Hok & Hhs & Hl & Hc).
  pose proof (Hhs p Hp) as Hph. pose proof (handle_epoch _ _ Hok Hph) as Hpb.
  pose proof Hok as ((Hb & Hb') & Hn & Ht & Hcm & Hinj).
  pose proof Hph as [(i & Hi & His) Hpc]. destruct (Ht _ _ Hi) as (Hik & Hist & _). specialize (Hptx i Hi).
  assert (∀ k e, committed_epochs m !! k = Some e → committed_epochs (mgr s) !! k = Some e) as Hsub.
  { intros k e. destruct (decide (k = pub_transaction p)) as [->|Hne]; [|by rewrite Hco].
    rewrite Hpc. destruct Hptx as [[_ ->]|[_ ->]]; congruence. }
  refine (conj _ (conj _ (conj _ _))); simpl.
  - unfold txs_ok; simpl. rewrite Ha, Hpub, Hid. split; [lia|]. split; [done|]. split; [|split].
    + intros k x Hx. destruct (decide (k = pub_transaction p)) as [->|Hne].
      * destruct Hptx as [[Htx Hcx]|[Htx _]]; [|congruence]. rewrite Htx in Hx. simplify_eq/=.
        split; [done|]. split; [lia|]. exists (pub_epoch p). rewrite Hcx. split; [done|lia].
      * rewrite Hto in Hx by done. rewrite Hco by done. destruct (Ht _ _ Hx) as (? & ? & Hst).
        split; [done|]. split; [lia|]. destruct (state x); simpl in *; try done; destruct Hst as (e & He & ?);
          exists e; (split; [done|]); pose proof (other_epoch _ p _ _ Hok Hph Hne He); lia.
    + intros k e He. destruct (decide (k = pub_transaction p)) as [->|Hne].
      * destruct Hptx as [[-> _]|[_ Hx]]; [done|congruence].
      * rewrite Hto by done. rewrite Hco in He by done. by eapply Hcm.
    + intros k k' e Hk%Hsub Hk'%Hsub. by eapply Hinj.
  - intros q [Hne Hq]%list_elem_of_filter. destruct (Hhs q Hq) as [(x & Hx & Hxs) Hqc].
    split; simpl; [rewrite Hto by done|rewrite Hco by done]; eauto.
  - unfold lock_ok in *; simpl. destruct (lock s) as [|q|]; simpl; [done| |].
    + case_decide; [done|]. destruct Hl as [Hq ?]. split; [|congruence]. by apply list_elem_of_filter.
    + lia.
  - intros Hpo'. simpl in *. rewrite Hpo in Hpo'. destruct (Hc Hpo') as [Hu Hcov]. split; [congruence|].
    rewrite Ha, Hpub. intros e He. destruct (Hcov e) as (q & Hq & Hqe); [lia|]. exists q. split; [|done].
    apply list_elem_of_filter. split; [|done]. intros Heq.
    destruct (Hhs q Hq) as [_ Hqc]. rewrite Heq, Hpc in Hqc. simplify_eq. lia.
Qed.

(** The manager after a commit was published. *)
Lemma complete_fields p m i :
  pub_epoch p < unpublishable_from m → transactions m !! pub_transaction p = Some i →
  let gone := private i && (active_counter m =? 1) in
  (complete_with p (Ok tt) m).1 =
    mkManager (next_transaction_id m) (assigned_epoch m) (Z.max (published_epoch m) (pub_epoch p))
      (wrap64 (active_counter m - 1))
      (if gone then delete (pub_transaction p) (transactions m)
       else <[pub_transaction p := info_end Committed i]> (transactions m))
      (if gone then delete (pub_transaction p) (committed_epochs m) else committed_epochs m)
      (poisoned m) (closed m) (unpublishable_from m)
      (ReadPins.release (start_epoch i) (reads m))
      (match pub_time p with
       | Some t => History.record (pub_epoch p) t (history m)
       | None => history m
       end).
Proof.
  intros Hu Hi gone. unfold complete_with. rewrite (proj2 (Z.leb_gt _ _)) by done.
  rewrite (publish_transactions_fields p m i Hi). by destruct (pub_time p).
Qed.

Lemma unpublishable_poisoned p s :
  epochs_ok s → p ∈ handles s → unpublishable_from (mgr s) ≤ pub_epoch p → poisoned (mgr s) = true.
Proof.
  intros (Hok & Hhs & _ & Hc) Hp Hu. destruct (poisoned (mgr s)) eqn:Hpo; [done|].
  destruct (Hc Hpo) as [Hm _]. pose proof (handle_epoch _ _ Hok (Hhs p Hp)).
  destruct Hok as ((_ & ?) & _). lia.
Qed.

Lemma turn_le p m :
  publish_turn p m = true → pub_epoch p < unpublishable_from m → pub_epoch p ≤ published_epoch m + 1.
Proof. unfold publish_turn. intros Ht Hu. bool_to_prop. destruct Ht; bool_to_prop; lia. Qed.

Lemma complete_step_epochs_ok p ordered s :
  p ∈ handles s → publish_turn p (mgr s) = true → epochs_ok s →
  epochs_ok (end_handle p (complete_with p ordered (mgr s)).1 s).
Proof.
  intros Hp Hturn Hok. destruct (complete_cases p ordered (mgr s)) as [[-> Hu]|[->|[Hu ->]]].
  - apply end_handle_epochs_ok; try done. by eapply unpublishable_poisoned.
  - by apply drop_epochs_ok.
  - pose proof Hok as (Hm & Hhs & _). pose proof (Hhs p Hp) as Hph.
    pose proof (handle_epoch _ _ Hm Hph). destruct Hph as [(i & Hi & _) Hpc].
    rewrite (complete_fields p (mgr s) i Hu Hi).
    destruct (private i && (active_counter (mgr s) =? 1)); apply complete_epochs_ok; simpl; try done;
      try (by apply turn_le); try lia; try (intros k Hk; by rewrite ?lookup_delete_ne, ?lookup_insert_ne by done).
    + intros j Hj. right. by rewrite !lookup_delete_eq.
    + intros j Hj. left. rewrite lookup_insert_eq. by simplify_eq.
Qed.

(** Transactions that are not committing change or go. *)
Lemma abort_registered_epochs_ok tx m' s :
  abort_registered tx (mgr s) = Ok m' → epochs_ok s → epochs_ok (set_mgr m' s).
Proof.
  intros (i & Hi & Ha & ->)%abort_registered_Ok. apply epochs_ok_transactions; try done.
  - intros (Hb & Hn & Ht & Hc & Hinj). destruct (Ht _ _ Hi) as (Hik & Hist & Hie). rewrite Ha in Hie. simpl in Hie.
    refine (conj Hb (conj Hn (conj _ (conj _ Hinj)))); simpl.
    + intros k x Hx. destruct (private i).
      * apply lookup_delete_Some in Hx as [_ Hx]. by apply Ht.
      * apply lookup_insert_Some in Hx as [[<- <-]|[_ Hx]]; [done|by apply Ht].
    + intros k e He. assert (k ≠ tx) by congruence.
      destruct (private i); rewrite ?lookup_delete_ne, ?lookup_insert_ne by done; by eapply Hc.
  - intros p [(x & Hx & Hxs) Hpc]. split; [|done]. simpl.
    assert (pub_transaction p ≠ tx) by (intros Heq; rewrite Heq in Hx; simplify_eq; congruence).
    exists x. destruct (private i); by rewrite ?lookup_delete_ne, ?lookup_insert_ne by done.
Qed.

Lemma abort_epochs_ok tx s : epochs_ok s → epochs_ok (set_mgr (abort tx (mgr s)).1 s).
Proof.
  intros Hok. destruct (abort_cases tx (mgr s)) as (m1 & Hm1 & Hm).
  assert (epochs_ok (set_mgr m1 s)) as Hok1.
  { destruct Hm1 as [->| ->]; [by destruct s|by apply poison_epochs_ok]. }
  destruct Hm as [->|Hm]; [done|]. by apply (abort_registered_epochs_ok tx _ (set_mgr m1 s)).
Qed.

Lemma abort_all_epochs_ok s : epochs_ok s → epochs_ok (set_mgr (abort_all_active (mgr s)) s).
Proof.
  apply epochs_ok_transactions; try done.
  - intros (Hb & Hn & Ht & Hc & Hinj). refine (conj Hb (conj Hn (conj _ (conj _ Hinj)))); simpl.
    + intros k x. rewrite lookup_fmap. intros (y & Hy & Hx)%fmap_Some. destruct (Ht _ _ Hy) as (? & ? & Hst).
      unfold is_active in Hx. case_bool_decide as Ha; subst; [|done]. rewrite Ha in Hst. done.
    + intros k e He. rewrite lookup_fmap. destruct (Hc _ _ He) as [x ->]. done.
  - intros p [(x & Hx & Hxs) Hpc]. split; [|done]. simpl. exists x. rewrite lookup_fmap, Hx. simpl.
    unfold is_active. rewrite bool_decide_eq_false_2; [done|]. congruence.
Qed.

Lemma gc_epochs_ok s : epochs_ok s → epochs_ok (set_mgr (gc (mgr s)).1 s).
Proof.
  apply epochs_ok_transactions; try done.
  - intros (Hb & Hn & Ht & Hc & Hinj). refine (conj Hb (conj Hn (conj _ (conj _ _)))).
    + intros k x Hx. pose proof Hx as [Hx' Hr]%gc_transactions. destruct (Ht _ _ Hx') as (? & ? & Hst).
      split; [done|]. split; [done|]. rewrite gc_committed.
      destruct (decide (k ∈ to_remove (mgr s))) as [(y & Hy & Hry)%to_remove_elem|]; [|done].
      simplify_eq. congruence.
    + intros k e. rewrite gc_committed. destruct (decide (k ∈ to_remove (mgr s))) as [|Hk]; [done|].
      intros He. destruct (Hc _ _ He) as [x Hx]. exists x. apply gc_transactions. split; [done|].
      destruct (gc_removes (mgr s) k x) eqn:Hr; [|done]. destruct Hk. apply to_remove_elem. eauto.
    + intros k k' e. rewrite !gc_committed. repeat case_decide; try done. apply Hinj.
  - intros p [(x & Hx & Hxs) Hpc]. split.
    + exists x. split; [|done]. apply gc_keeps_open; [by rewrite Hxs|done].
    + rewrite gc_committed. destruct (decide _) as [(y & Hy & Hry)%to_remove_elem|]; [|done].
      simplify_eq. unfold gc_removes in Hry. by rewrite Hxs in Hry.
Qed.

Lemma sync_epochs_ok e s :
  lock s = ByHold → e < u64_max → epochs_ok s → epochs_ok (set_mgr (sync_epoch e (mgr s)) s).
Proof.
  intros Hlock He (Hok & Hhs & Hl & Hc). unfold lock_ok in Hl. rewrite Hlock in Hl.
  pose proof Hok as (Hb & Hn & Ht & Hcm & Hinj).
  refine (conj _ (conj _ (conj _ _))); simpl.
  - refine (conj _ (conj Hn (conj _ (conj Hcm Hinj)))); simpl; [lia|].
    intros k x Hx. destruct (Ht _ _ Hx) as (? & ? & Hst). split; [done|]. split; [lia|].
    destruct (state x); simpl in *; try done; destruct Hst as (y & Hy & ?); exists y; (split; [done|lia]).
  - intros p Hp. apply (Hhs p Hp).
  - unfold lock_ok; simpl. rewrite Hlock. lia.
  - intros Hpo. simpl in *. destruct (Hc Hpo) as [Hu _]. split; [done|]. lia.
Qed.

Lemma bulk_epochs_ok s :
  next_transaction_id (mgr s) < u64_max → epochs_ok s → epochs_ok (set_mgr (bulk_writer (mgr s)).2 s).
Proof.
  intros Hn. apply epochs_ok_transactions; try done.
  intros (Hb & Hnb & Ht & Hc & Hinj). refine (conj Hb (conj _ (conj _ (conj Hc Hinj)))); simpl;
    rewrite wrap64_small by (unfold is_u64, u64_max in *; lia); [lia|].
  intros k i Hi. destruct (Ht _ _ Hi) as (? & ? & ?). split; [lia|done].
Qed.

Lemma lock_epochs_ok l s :
  match l with Unlocked => True | ByCommit _ => False
             | ByHold => published_epoch (mgr s) = assigned_epoch (mgr s) end →
  epochs_ok s → epochs_ok (set_lock l s).
Proof. intros Hl (Hok & Hhs & _ & Hc). split; [done|]. split; [done|]. split; [by destruct l|done]. Qed.

Lemma pin_at_fields e m x m' : pin_read_at e m = Ok (x, m') →
  floor (history m) ≤ e ∧ x = readable_epoch e m ∧ m' = set_reads (ReadPins.hold_at x (reads m)) m.
Proof. unfold pin_read_at. case_goal; [done|]. bool_to_prop. naive_solver. Qed.

Lemma pin_read_fields m : ∃ r, pin_read m = (published_epoch m, set_reads r m).
Proof.
  unfold pin_read, ReadPins.hold_published. repeat case_match; simplify_eq; eauto.
Qed.

Lemma step_epochs_ok s s' : step s s' → epochs_ok s → epochs_ok s'.
Proof.
  intros Hstep Hok. destruct Hstep.
  - by apply register_epochs_ok.
  - by apply bulk_epochs_ok.
  - by eapply claim_epochs_ok.
  - by eapply start_epochs_ok.
  - by apply take_back_epochs_ok.
  - by apply lock_epochs_ok.
  - by apply complete_step_epochs_ok.
  - by apply drop_epochs_ok.
  - by apply abort_epochs_ok.
  - by apply abort_all_epochs_ok.
  - by apply gc_epochs_ok.
  - by apply poison_epochs_ok.
  - destruct (pin_read_fields (mgr s)) as [r ->]. by apply epochs_ok_transactions.
  - apply pin_at_fields in H1 as (_ & _ & ->). by apply epochs_ok_transactions.
  - by apply epochs_ok_transactions.
  - by apply epochs_ok_transactions.
  - by apply epochs_ok_transactions.
  - by apply epochs_ok_transactions.
  - by apply epochs_ok_transactions.
  - apply lock_epochs_ok; [|done]. unfold written_commits_published, check_no_incomplete_commit in *.
    destruct Hok as (((? & ?) & _) & _). destruct (has_incomplete_commit (mgr s)); simpl in *; [done|].
    bool_to_prop. lia.
  - by apply lock_epochs_ok.
  - by apply sync_epochs_ok.
  - done.
  - done.
  - by apply epochs_ok_transactions.
Qed.

Lemma reachable_epochs_ok s : reachable s → epochs_ok s.
Proof.
  unfold reachable. intros Hr. pose proof initial_epochs_ok as Hi. revert Hi.
  induction Hr; eauto using step_epochs_ok.
Qed.

End epochs.
