(* ===== verification/TxReaders.v ===== *)
(** * The readers and the counters

    The counter of open transactions counts them, the read pins count every
    open transaction's snapshot and every pinned read, and the history floor
    stays at or below every reader. *)
From S2P Require Import Prelude History ReadPins TxTypes TxManager TxClaims TxSystem TxEpochs.
Open Scope Z_scope.

Section readers.
Context `{Engine}.
Implicit Types (m : TransactionManager) (i : TransactionInfo) (s : System) (p : Publish).

Definition open_tx i : bool := is_open (state i).
Definition reads_at (e : Z) i : bool := open_tx i && (start_epoch i =? e).

(** How many readers read at [e]: open transactions and pins. *)
Definition readers (e : Z) (t : gmap Z TransactionInfo) (ps : list Z) : Z :=
  count_map (reads_at e) t + count_list (Z.eqb e) ps.

Definition counted m (ps : list Z) : Prop :=
  active_counter m = count_map open_tx (transactions m) ∧ active_counter m ≤ u64_max ∧
  ReadPins.wf (reads m) ∧
  ∀ e, ReadPins.readers_at e (reads m) = readers e (transactions m) ps.

Definition floor_ok m : Prop :=
  floor (history m) ≤ published_epoch m ∧
  (∀ e, 0 < ReadPins.readers_at e (reads m) → floor (history m) ≤ e) ∧
  History.wf (history m).

Definition readers_ok s : Prop :=
  counted (mgr s) (pins s) ∧ floor_ok (mgr s) ∧
  (∀ e, e ∈ pins s → e ≤ published_epoch (mgr s)) ∧
  (gate s = true → active_counter (mgr s) = 0).

Lemma initial_readers_ok : readers_ok initial.
Proof.
  split; [|split; [|split]].
  - unfold counted; simpl. rewrite count_map_empty. split_and!; [done|unfold u64_max; lia|apply ReadPins.wf_nil|].
    intros e. unfold readers. by rewrite count_map_empty.
  - split; [done|]. split; [simpl; lia|]. split; constructor.
  - intros e He. by apply not_elem_of_nil in He.
  - done.
Qed.

(** ** Counting *)

Lemma count_list_pos {A} (f : A → bool) (l : list A) : 0 < count_list f l → ∃ x, x ∈ l ∧ f x = true.
Proof.
  induction l as [|x l IH]; [done|]. rewrite count_list_cons. destruct (f x) eqn:Hx; simpl.
  - intros _. exists x. split; [left|done].
  - intros Hl. destruct IH as (y & Hy & ?); [lia|]. exists y. split; [by right|done].
Qed.

Lemma count_map_exists {A} (f : A → bool) (t : gmap Z A) :
  0 < count_map f t → ∃ k x, t !! k = Some x ∧ f x = true.
Proof. intros ([k x] & Hin%elem_of_map_to_list & Hf)%count_list_pos. eauto. Qed.

(** Every reader reads at a published epoch. *)
Lemma reader_published m ps e :
  (∀ k i, transactions m !! k = Some i → start_epoch i ≤ published_epoch m) →
  (∀ x, x ∈ ps → x ≤ published_epoch m) → counted m ps →
  0 < ReadPins.readers_at e (reads m) → e ≤ published_epoch m.
Proof.
  intros Ht Hps (_ & _ & _ & Hr) Hpos. rewrite Hr in Hpos. unfold readers in Hpos.
  pose proof (count_map_nonneg (reads_at e) (transactions m)). pose proof (count_list_nonneg (Z.eqb e) ps).
  assert (0 < count_map (reads_at e) (transactions m) ∨ 0 < count_list (Z.eqb e) ps) as [Hc|Hc] by lia.
  - apply count_map_exists in Hc as (k & i & Hi & Hx). unfold reads_at in Hx. bool_to_prop. subst.
    by eapply Ht.
  - apply count_list_pos in Hc as (x & Hx & ->%Z.eqb_eq). auto.
Qed.

(** A reader at the published epoch is counted in its place. *)
Lemma hold_published_counted m ps :
  (∀ k i, transactions m !! k = Some i → start_epoch i ≤ published_epoch m) →
  (∀ x, x ∈ ps → x ≤ published_epoch m) → counted m ps →
  ReadPins.hold_published (published_epoch m) (reads m) =
    (published_epoch m, ReadPins.hold_at (published_epoch m) (reads m)).
Proof.
  intros Ht Hps Hc. pose proof Hc as (_ & _ & Hwf & _). apply ReadPins.hold_published_hold_at; [done|].
  apply (ReadPins.keys_Forall (λ q, q ≤ published_epoch m)). intros e He.
  eapply reader_published; [done..|]. by apply ReadPins.readers_at_key.
Qed.

Lemma epochs_start s :
  epochs_ok s → ∀ k i, transactions (mgr s) !! k = Some i → 0 ≤ start_epoch i ≤ published_epoch (mgr s).
Proof. intros ((_ & _ & Ht & _) & _) k i Hi. by destruct (Ht _ _ Hi) as (_ & ? & _). Qed.

Lemma b2z_reads e i : b2z (reads_at e i) = if open_tx i then b2z (start_epoch i =? e) else 0.
Proof. unfold reads_at. by destruct (open_tx i). Qed.

(** ** Changes of the readers *)

(** An open transaction is updated and stays open at its snapshot. *)
Lemma counted_update m ps k i i' :
  transactions m !! k = Some i → open_tx i' = open_tx i → start_epoch i' = start_epoch i →
  counted m ps → counted (set_transactions (<[k := i']> (transactions m)) m) ps.
Proof.
  intros Hi Ho Hs (Ha & Hmax & Hwf & Hr). unfold counted, readers; simpl.
  rewrite (count_map_insert _ _ _ i _ Hi), Ho. split; [lia|]. split; [done|]. split; [done|]. intros e.
  rewrite (count_map_insert _ _ _ i _ Hi), !b2z_reads, Ho, Hs, Hr. unfold readers. lia.
Qed.

Lemma reader_pos m ps k i :
  transactions m !! k = Some i → open_tx i = true → counted m ps →
  0 < ReadPins.readers_at (start_epoch i) (reads m) ∧ 0 < active_counter m.
Proof.
  intros Hi Ho (Ha & _ & _ & Hr). rewrite Hr, Ha. unfold readers.
  pose proof (count_list_nonneg (Z.eqb (start_epoch i)) ps).
  assert (0 < count_map (reads_at (start_epoch i)) (transactions m)).
  { apply (count_map_pos _ _ k i Hi). unfold reads_at. by rewrite Ho, Z.eqb_refl. }
  assert (0 < count_map open_tx (transactions m)) by by apply (count_map_pos _ _ k i).
  lia.
Qed.

(** An open transaction ends: it is marked, or it goes. *)
Lemma counted_end m m' ps k i (removed : bool) i' :
  transactions m !! k = Some i → open_tx i = true → open_tx i' = false →
  active_counter m' = wrap64 (active_counter m - 1) →
  transactions m' = (if removed then delete k (transactions m) else <[k := i']> (transactions m)) →
  reads m' = ReadPins.release (start_epoch i) (reads m) →
  counted m ps → counted m' ps.
Proof.
  intros Hi Ho Ho' Hact Ht Hrd Hc. destruct (reader_pos m ps k i Hi Ho Hc) as [Hpos Hapos].
  destruct Hc as (Ha & Hmax & Hwf & Hr). unfold counted, readers. rewrite Hact, Ht, Hrd.
  rewrite wrap64_small by (unfold is_u64, u64_max in *; lia).
  assert (∀ f, f i' = false → count_map f (if removed then delete k (transactions m) else <[k := i']> (transactions m))
    = count_map f (transactions m) - b2z (f i)) as Hcount.
  { intros f Hf. destruct removed; [by apply count_map_delete|].
    rewrite (count_map_insert f _ k i i' Hi), Hf. simpl. lia. }
  rewrite Hcount, Ho by done. split; [simpl; lia|]. split; [lia|]. split; [by apply ReadPins.release_wf|].
  intros e. rewrite ReadPins.release_readers, Hr, Hcount, b2z_reads, Ho by (done || unfold reads_at; by rewrite Ho').
  unfold readers. rewrite Z.eqb_sym. destruct (start_epoch i =? e); simpl; lia.
Qed.

(** A reader is counted, or is dropped. *)
Lemma counted_hold m ps e :
  counted m ps → counted (set_reads (ReadPins.hold_at e (reads m)) m) (e :: ps).
Proof.
  intros (Ha & Hmax & Hwf & Hr). unfold counted, readers; simpl. split; [done|]. split; [done|].
  split; [by apply ReadPins.hold_at_wf|]. intros x. rewrite ReadPins.hold_at_readers, Hr by done.
  rewrite count_list_cons. unfold readers. destruct (x =? e); simpl; lia.
Qed.

Lemma count_remove_one (e x : Z) ps :
  e ∈ ps → count_list (Z.eqb x) (remove_one e ps) = count_list (Z.eqb x) ps - b2z (x =? e).
Proof.
  induction ps as [|y ps IH]; intros He; [by apply not_elem_of_nil in He|]. simpl.
  rewrite count_list_cons. destruct (Z.eqb_spec y e) as [->|Hne]; [lia|].
  apply elem_of_cons in He as [->|He]; [done|]. rewrite count_list_cons, IH by done. lia.
Qed.

Lemma counted_release m ps e :
  e ∈ ps → counted m ps → counted (set_reads (ReadPins.release e (reads m)) m) (remove_one e ps).
Proof.
  intros He (Ha & Hmax & Hwf & Hr). unfold counted, readers; simpl. split; [done|]. split; [done|].
  split; [by apply ReadPins.release_wf|]. intros x.
  pose proof (count_remove_one e e ps He) as Hone. rewrite Z.eqb_refl in Hone. simpl in Hone.
  pose proof (count_list_nonneg (Z.eqb e) (remove_one e ps)).
  pose proof (count_map_nonneg (reads_at e) (transactions m)).
  rewrite ReadPins.release_readers; [|done|rewrite Hr; unfold readers; lia].
  rewrite count_remove_one, Hr by done. unfold readers. destruct (x =? e); simpl; lia.
Qed.

(** A transaction begins at the published epoch. *)
Lemma counted_begin m ps k i :
  transactions m !! k = None → open_tx i = true → active_counter m < u64_max →
  counted m ps →
  counted (set_active (wrap64 (active_counter m + 1))
            (set_transactions (<[k := i]> (transactions m))
              (set_reads (ReadPins.hold_at (start_epoch i) (reads m)) m))) ps.
Proof.
  intros Hk Ho Hlt (Ha & Hmax & Hwf & Hr). unfold counted, readers; simpl.
  pose proof (count_map_nonneg open_tx (transactions m)).
  rewrite wrap64_small by (unfold is_u64, u64_max in *; lia).
  rewrite count_map_new, Ho by done. simpl. split; [lia|]. split; [lia|].
  split; [by apply ReadPins.hold_at_wf|]. intros e.
  rewrite ReadPins.hold_at_readers, Hr, count_map_new, b2z_reads, Ho by done.
  unfold readers. rewrite Z.eqb_sym. destruct (start_epoch i =? e); simpl; lia.
Qed.

(** Releasing the readers of a list of transactions. *)
Lemma fold_release_readers (l : list (Z * TransactionInfo)) r :
  ReadPins.wf r → (∀ e, count_list (λ q, start_epoch q.2 =? e) l ≤ ReadPins.readers_at e r) →
  let r' := fold_left (λ r q, ReadPins.release (start_epoch q.2) r) l r in
  ReadPins.wf r' ∧
  ∀ e, ReadPins.readers_at e r' = ReadPins.readers_at e r - count_list (λ q, start_epoch q.2 =? e) l.
Proof.
  revert r. induction l as [|q l IH]; intros r Hwf Hle; simpl.
  - split; [done|]. intros e. unfold count_list; simpl. lia.
  - assert (0 < ReadPins.readers_at (start_epoch q.2) r) as Hpos.
    { specialize (Hle (start_epoch q.2)). rewrite count_list_cons, Z.eqb_refl in Hle. simpl in Hle.
      pose proof (count_list_nonneg (λ x : Z * TransactionInfo, start_epoch x.2 =? start_epoch q.2) l). lia. }
    destruct (IH (ReadPins.release (start_epoch q.2) r)) as [Hwf' Hr'].
    + by apply ReadPins.release_wf.
    + intros e. specialize (Hle e). rewrite count_list_cons in Hle.
      rewrite ReadPins.release_readers by done. rewrite Z.eqb_sym. destruct (start_epoch q.2 =? e); simpl in *; lia.
    + split; [done|]. intros e. rewrite Hr', ReadPins.release_readers, count_list_cons by done.
      rewrite (Z.eqb_sym e). destruct (start_epoch q.2 =? e); simpl; lia.
Qed.

Lemma counted_abort_all m ps : counted m ps → counted (abort_all_active m) ps.
Proof.
  intros (Ha & Hmax & Hwf & Hr). unfold abort_all_active, counted, readers; simpl.
  set (active := List.filter (λ q : Z * TransactionInfo, is_active q.2) (map_to_list (transactions m))).
  assert (∀ f, (∀ i, is_active i = true → open_tx i = true) →
    count_map (λ i, open_tx i && f i) (transactions m) =
    count_list (λ q, f q.2) active +
    count_map (λ i, open_tx i && f i) ((λ i, if is_active i then info_end Aborted i else i) <$> transactions m)) as Hsplit.
  { intros f Himp. rewrite (count_map_split _ is_active). f_equal.
    - unfold active. rewrite count_list_filter. apply count_list_ext. intros [k i] _; simpl.
      destruct (is_active i) eqn:Hi; simpl; [rewrite (Himp i Hi); by destruct (f i)|by destruct (open_tx i && f i)].
    - rewrite count_map_fmap. apply count_map_ext. intros k i _. destruct (is_active i); simpl; [|by rewrite andb_true_r].
      by rewrite andb_false_r. }
  assert (∀ i, is_active i = true → open_tx i = true) as Himp.
  { intros i Hi. unfold is_active in Hi. bool_to_prop. unfold open_tx. by rewrite Hi. }
  pose proof (Hsplit (λ _, true) Himp) as Hall.
  rewrite (count_map_ext _ open_tx) in Hall by (intros; apply andb_true_r).
  rewrite (count_map_ext (λ i, open_tx i && true) open_tx) in Hall by (intros; apply andb_true_r).
  assert (count_list (λ q : Z * TransactionInfo, true) active = Z.of_nat (length active)) as Hlen.
  { clear. unfold count_list. do 2 f_equal. induction active; simpl; congruence. }
  pose proof (count_map_nonneg open_tx ((λ i, if is_active i then info_end Aborted i else i) <$> transactions m)).
  rewrite wrap64_small by (unfold is_u64, u64_max in *; lia).
  split; [lia|]. split; [lia|].
  destruct (fold_release_readers active (reads m) Hwf) as [Hwf' Hr'].
  { intros e. rewrite Hr. unfold readers, reads_at. rewrite (Hsplit (λ i, start_epoch i =? e) Himp).
    pose proof (count_list_nonneg (Z.eqb e) ps).
    pose proof (count_map_nonneg (λ i, open_tx i && (start_epoch i =? e))
      ((λ i, if is_active i then info_end Aborted i else i) <$> transactions m)). lia. }
  split; [done|]. intros e. rewrite Hr', Hr. unfold readers, reads_at at 1.
  rewrite (Hsplit (λ i, start_epoch i =? e) Himp). unfold reads_at. lia.
Qed.

Lemma counted_gc m ps : counted m ps → counted (gc m).1 ps.
Proof.
  intros (Ha & Hmax & Hwf & Hr). unfold counted, readers.
  assert (∀ f, (∀ i, f i = true → open_tx i = true) →
    count_map f (transactions (gc m).1) = count_map f (transactions m)) as Hcount.
  { intros f Hf. apply (count_map_fold_delete f (transactions m) (to_remove m)).
    intros k i (j & Hj & Hrm)%to_remove_elem Hi. rewrite Hi in Hj. injection Hj as <-.
    destruct (f i) eqn:Hfi; [|done]. apply Hf in Hfi. unfold open_tx, gc_removes in *.
    by destruct (state i). }
  rewrite Hcount by done. split; [done|]. split; [done|]. split; [done|]. intros e.
  rewrite Hcount; [apply Hr|]. intros i. unfold reads_at. by destruct (open_tx i).
Qed.

(** ** The floor *)

Lemma hold_pos e x r :
  ReadPins.wf r → 0 < ReadPins.readers_at x (ReadPins.hold_at e r) → x = e ∨ 0 < ReadPins.readers_at x r.
Proof.
  intros Hwf. rewrite !ReadPins.readers_at_key by (done || by apply ReadPins.hold_at_wf).
  apply ReadPins.hold_at_keys.
Qed.

Lemma release_pos e x r :
  ReadPins.wf r → 0 < ReadPins.readers_at x (ReadPins.release e r) → 0 < ReadPins.readers_at x r.
Proof.
  intros Hwf. rewrite !ReadPins.readers_at_key by (done || by apply ReadPins.release_wf).
  apply ReadPins.release_keys.
Qed.

Lemma fold_release_pos (l : list (Z * TransactionInfo)) x r :
  ReadPins.wf r → 0 < ReadPins.readers_at x (fold_left (λ r q, ReadPins.release (start_epoch q.2) r) l r) →
  0 < ReadPins.readers_at x r.
Proof.
  revert r. induction l as [|q l IH]; intros r Hwf; simpl; [done|]. intros Hx%IH; [|by apply ReadPins.release_wf].
  by apply release_pos in Hx.
Qed.

Lemma floor_ok_change m m' :
  floor (history m') = floor (history m) → History.wf (history m') →
  published_epoch m ≤ published_epoch m' →
  (∀ e, 0 < ReadPins.readers_at e (reads m') → 0 < ReadPins.readers_at e (reads m) ∨ floor (history m) ≤ e) →
  floor_ok m → floor_ok m'.
Proof.
  intros Hf Hw Hp Hr (Hfp & Hfr & _). unfold floor_ok. rewrite Hf. split; [lia|]. split; [|done].
  intros e [He|He]%Hr; auto.
Qed.

Lemma record_floor e t h : floor (History.record e t h) = floor h.
Proof. unfold History.record. by case_match. Qed.

Lemma commit_time_floor now h : floor (History.commit_time now h).2 = floor h.
Proof. unfold History.commit_time. by case_match. Qed.

Lemma set_retention_floor now r published h : floor (History.set_retention now r published h) = floor h.
Proof. unfold History.set_retention, History.next_time. by repeat case_match. Qed.

(** The read horizon is at or below every reader, and every reader that may
    come. *)
Lemma read_horizon_le m :
  ReadPins.wf (reads m) →
  read_horizon m ≤ published_epoch m ∧
  ∀ e, 0 < ReadPins.readers_at e (reads m) → read_horizon m ≤ e.
Proof.
  intros Hwf. unfold read_horizon. destruct (ReadPins.oldest (reads m)) as [o|] eqn:Ho.
  - destruct (ReadPins.oldest_Some _ _ Hwf Ho) as [_ Hmin]. split; [lia|]. intros e He%Hmin. lia.
  - split; [lia|]. intros e. rewrite (ReadPins.oldest_None _ e Hwf Ho). lia.
Qed.

Lemma collect_floor_ok now m :
  ReadPins.wf (reads m) → floor_ok m → floor_ok (collect_horizon now m).2.
Proof.
  intros Hwf (Hfp & Hfr & Hw). destruct (read_horizon_le m Hwf) as [Hp Hr].
  unfold collect_horizon, floor_ok; simpl.
  set (h := match History.retention_horizon now (history m) with Some start => _ | None => _ end).
  assert (h ≤ read_horizon m) by (subst h; case_match; lia).
  split; [lia|]. split; [|by apply History.collected_at_wf]. intros e He.
  specialize (Hfr e He). specialize (Hr e He). lia.
Qed.

(** ** Every operation keeps it *)

Lemma readers_ok_manager m s :
  counted m (pins s) → floor_ok m → published_epoch (mgr s) ≤ published_epoch m →
  (gate s = true → active_counter m = 0) → readers_ok s → readers_ok (set_mgr m s).
Proof.
  intros Hc Hf Hp Hg (_ & _ & Hps & _). split; [done|]. split; [done|]. split; [|done].
  intros e He. specialize (Hps e He). simpl. lia.
Qed.

(** No transaction is open while the gate is held. *)
Lemma gate_no_open s k i :
  readers_ok s → transactions (mgr s) !! k = Some i → open_tx i = true → gate s = true → False.
Proof.
  intros (Hc & _ & _ & Hg) Hi Ho Hgate. destruct (reader_pos _ _ _ _ Hi Ho Hc) as [_ Hpos].
  specialize (Hg Hgate). lia.
Qed.

Lemma register_readers_ok level private s :
  gate s = false → active_counter (mgr s) < u64_max → epochs_ok s → readers_ok s →
  readers_ok (set_mgr (register level private (mgr s)).2 s).
Proof.
  intros Hgate Hlt He Hok. pose proof Hok as (Hc & Hf & Hps & _).
  pose proof (epochs_start s He) as Hst.
  assert (transactions (mgr s) !! next_transaction_id (mgr s) = None) as Hnew.
  { destruct He as ((_ & _ & Ht & _) & _). apply eq_None_not_Some. intros [i Hi].
    destruct (Ht _ _ Hi) as [? _]. lia. }
  unfold register, take_id. simpl.
  rewrite (hold_published_counted (mgr s) (pins s)); [| |done|done].
  2: { intros k i Hi. by apply (Hst k i Hi). }
  set (i := info_new _ _ _ _). apply readers_ok_manager; try done.
  - destruct (counted_begin (mgr s) (pins s) _ i Hnew eq_refl Hlt Hc) as (? & ? & ? & ?). by split_and!.
  - apply (floor_ok_change (mgr s)); [done|apply Hf|done| |exact Hf]. simpl. intros e He'.
    apply hold_pos in He' as [->|?]; [right; by destruct Hf|by left|apply Hc].
  - simpl. congruence.
Qed.

(** An open transaction is updated at its snapshot. *)
Lemma update_readers_ok m k i i' s :
  transactions (mgr s) !! k = Some i → open_tx i' = open_tx i → start_epoch i' = start_epoch i →
  transactions m = <[k := i']> (transactions (mgr s)) → reads m = reads (mgr s) →
  active_counter m = active_counter (mgr s) → published_epoch m = published_epoch (mgr s) →
  floor (history m) = floor (history (mgr s)) → History.wf (history m) →
  readers_ok s → counted m (pins s) ∧ floor_ok m.
Proof.
  intros Hi Ho Hs Ht Hr Ha Hp Hfl Hw (Hc & Hf & Hps & Hg). split.
  - pose proof (counted_update (mgr s) (pins s) k i i' Hi Ho Hs Hc) as Hc'.
    unfold counted in *. simpl in Hc'. by rewrite Ht, Hr, Ha.
  - apply (floor_ok_change (mgr s)); [done|done|lia| |exact Hf]. rewrite Hr. by left.
Qed.

(** An open transaction ends. *)
Lemma end_readers_ok m k i i' (removed : bool) s :
  transactions (mgr s) !! k = Some i → open_tx i = true → open_tx i' = false →
  active_counter m = wrap64 (active_counter (mgr s) - 1) →
  transactions m = (if removed then delete k (transactions (mgr s)) else <[k := i']> (transactions (mgr s))) →
  reads m = ReadPins.release (start_epoch i) (reads (mgr s)) →
  published_epoch (mgr s) ≤ published_epoch m →
  floor (history m) = floor (history (mgr s)) → History.wf (history m) →
  readers_ok s → readers_ok (set_mgr m s).
Proof.
  intros Hi Ho Ho' Ha Ht Hr Hp Hfl Hw Hok. pose proof Hok as (Hc & Hf & Hps & Hg). apply readers_ok_manager; try done.
  - by eapply counted_end.
  - apply (floor_ok_change (mgr s)); [done|done|lia| |exact Hf]. rewrite Hr. intros e He%release_pos; [by left|apply Hc].
  - intros Hgate. destruct (gate_no_open s k i Hok Hi Ho Hgate).
Qed.

Lemma abort_registered_readers_ok tx m' s :
  abort_registered tx (mgr s) = Ok m' → readers_ok s → readers_ok (set_mgr m' s).
Proof.
  intros (i & Hi & Ha & ->)%abort_registered_Ok Hok.
  apply (end_readers_ok _ tx i (info_end Aborted i) (private i)); try done.
  - unfold open_tx. by rewrite Ha.
  - apply Hok.
Qed.

Lemma abort_readers_ok tx s : readers_ok s → readers_ok (set_mgr (abort tx (mgr s)).1 s).
Proof.
  intros Hok. destruct (abort_cases tx (mgr s)) as (m1 & Hm1 & Hm).
  assert (readers_ok (set_mgr m1 s)) as Hok1 by (by destruct Hm1 as [->| ->]; destruct s).
  destruct Hm as [->|Hm]; [done|]. by apply (abort_registered_readers_ok tx _ (set_mgr m1 s)).
Qed.

Lemma complete_readers_ok p ordered s :
  p ∈ handles s → epochs_ok s → readers_ok s →
  readers_ok (end_handle p (complete_with p ordered (mgr s)).1 s).
Proof.
  intros Hp He Hok. destruct (complete_cases p ordered (mgr s)) as [[-> Hu]|[->|[Hu ->]]]; [done..|].
  pose proof He as (_ & Hhs & _). destruct (Hhs p Hp) as [(i & Hi & His) _].
  change (readers_ok (set_mgr (complete_with p (Ok tt) (mgr s)).1 s)).
  rewrite (complete_fields p (mgr s) i Hu Hi).
  apply (end_readers_ok _ (pub_transaction p) i (info_end Committed i) (private i && (active_counter (mgr s) =? 1)));
    try done; simpl.
  - unfold open_tx. by rewrite His.
  - lia.
  - destruct (pub_time p); [apply record_floor|done].
  - destruct (pub_time p); [apply History.record_wf|]; apply Hok.
Qed.

Lemma abort_all_readers_ok s : readers_ok s → readers_ok (set_mgr (abort_all_active (mgr s)) s).
Proof.
  intros Hok. pose proof Hok as (Hc & Hf & Hps & Hg). pose proof (counted_abort_all _ _ Hc) as Hc'.
  apply readers_ok_manager; try done.
  - apply (floor_ok_change (mgr s)); [done|apply Hf|done| |exact Hf]. simpl. intros e He%fold_release_pos; [by left|apply Hc].
  - intros Hgate. destruct Hc' as (-> & _). simpl.
    pose proof (count_map_nonneg open_tx ((λ i, if is_active i then info_end Aborted i else i) <$> transactions (mgr s))).
    destruct (Z.eq_dec 0 (count_map open_tx ((λ i, if is_active i then info_end Aborted i else i) <$> transactions (mgr s)))) as [|Hne]; [done|].
    destruct (count_map_exists open_tx ((λ i, if is_active i then info_end Aborted i else i) <$> transactions (mgr s))) as (k & x & Hx & Hxo); [lia|].
    rewrite lookup_fmap in Hx. apply fmap_Some in Hx as (y & Hy & ->).
    destruct (gate_no_open s k y); try done. destruct (is_active y); done.
Qed.

(** A pin comes or goes. *)
Lemma pins_readers_ok r ps s :
  counted (set_reads r (mgr s)) ps →
  (∀ e, 0 < ReadPins.readers_at e r →
     0 < ReadPins.readers_at e (reads (mgr s)) ∨ floor (history (mgr s)) ≤ e) →
  (∀ e, e ∈ ps → e ≤ published_epoch (mgr s)) →
  readers_ok s → readers_ok (set_pins (set_reads r (mgr s)) ps s).
Proof.
  intros Hc Hr Hps (_ & Hf & _ & Hg). split; [done|]. split; [|done].
  apply (floor_ok_change (mgr s)); [done|apply Hf|done|done|done].
Qed.

Lemma pin_hold_readers_ok e s :
  floor (history (mgr s)) ≤ e ≤ published_epoch (mgr s) → readers_ok s →
  readers_ok (set_pins (set_reads (ReadPins.hold_at e (reads (mgr s))) (mgr s)) (e :: pins s) s).
Proof.
  intros He Hok. pose proof Hok as (Hc & Hf & Hps & _). apply pins_readers_ok; [by apply counted_hold| | |done].
  - intros x Hx. apply hold_pos in Hx as [->|?]; [right; lia|by left|apply Hc].
  - intros x [->|Hx]%elem_of_cons; [lia|auto].
Qed.

Lemma remove_one_elem e x l : x ∈ remove_one e l → x ∈ l.
Proof.
  induction l as [|y l IH]; simpl; [done|]. case_match; [by right|].
  intros [->|Hx]%elem_of_cons; [left|right; auto].
Qed.

Lemma pin_pos s e : readers_ok s → e ∈ pins s → 0 < ReadPins.readers_at e (reads (mgr s)).
Proof.
  intros ((_ & _ & _ & Hr) & _) He. rewrite Hr. unfold readers.
  pose proof (count_remove_one e e _ He) as Hone. rewrite Z.eqb_refl in Hone. simpl in Hone.
  pose proof (count_list_nonneg (Z.eqb e) (remove_one e (pins s))).
  pose proof (count_map_nonneg (reads_at e) (transactions (mgr s))). lia.
Qed.

Lemma alter_insert {A} (t : gmap Z A) (k : Z) (x : A) (f : A → A) : t !! k = Some x → alter f k t = <[k := f x]> t.
Proof. intros Hi. apply map_eq. intros k'. destruct (decide (k' = k)) as [->|Hne]; by simplify_map_eq. Qed.

(** Operations on one open transaction that keep it open. *)
Lemma start_readers_ok now tx led m' p s :
  start_commit now tx (mgr s) = Ok (m', p) → readers_ok s →
  readers_ok (mkSystem m' (ByCommit p) (p :: handles s) (pins s) (gate s) led (taken_back s)).
Proof.
  intros (i & Hi & Ha & _ & _ & _ & -> & ->)%start_commit_Ok Hok. pose proof Hok as (_ & Hf & Hps & Hg).
  set (m' := set_history _ _).
  destruct (update_readers_ok m' tx i (info_state Committing i) s) as [Hc' Hf']; try done.
  - unfold open_tx. by rewrite Ha.
  - apply commit_time_floor.
  - apply History.commit_time_wf. apply Hf.
Qed.

Lemma take_back_readers_ok p led b s :
  lock s = ByCommit p → epochs_ok s → readers_ok s →
  readers_ok (mkSystem (commit_abort p (mgr s)) Unlocked (without p (handles s)) (pins s) (gate s) led b).
Proof.
  intros Hlock (_ & Hhs & Hl & _) Hok. pose proof Hok as (_ & Hf & Hps & Hg).
  unfold lock_ok in Hl. rewrite Hlock in Hl. destruct Hl as [Hp _].
  destruct (Hhs p Hp) as [(i & Hi & His) _].
  destruct (update_readers_ok (commit_abort p (mgr s)) (pub_transaction p) i (info_state Active i) s)
    as [Hc' Hf']; try done.
  - unfold open_tx. by rewrite His.
  - by apply alter_insert.
  - apply Hf.
Qed.

Lemma claim_readers_ok tx m' s : claim_op tx (mgr s) m' → readers_ok s → readers_ok (set_mgr m' s).
Proof.
  intros (i & i' & Hi & Ha & -> & (Hs & Hst & _))%claim_op_spec Hok. pose proof Hok as (_ & Hf & Hps & Hg).
  destruct (update_readers_ok (update_info tx i' (mgr s)) tx i i' s) as [Hc' Hf']; try done.
  - unfold open_tx. by rewrite Hs.
  - apply Hf.
Qed.

Lemma pin_read_readers_ok s :
  epochs_ok s → readers_ok s →
  readers_ok (set_pins (pin_read (mgr s)).2 ((pin_read (mgr s)).1 :: pins s) s).
Proof.
  intros He Hok. pose proof Hok as (Hc & Hf & Hps & _). unfold pin_read.
  rewrite (hold_published_counted (mgr s) (pins s)); [| |done|done].
  2: { intros k i Hi. by apply (epochs_start s He k i Hi). }
  apply pin_hold_readers_ok; [|done]. destruct Hf. simpl; lia.
Qed.

Lemma pin_at_readers_ok e x m' s :
  pin_read_at e (mgr s) = Ok (x, m') → readers_ok s → readers_ok (set_pins m' (x :: pins s) s).
Proof.
  intros (Hfl & -> & ->)%pin_at_fields Hok. apply pin_hold_readers_ok; [|done].
  pose proof Hok as (_ & (? & _) & _). unfold readable_epoch, current_epoch. lia.
Qed.

Lemma drop_pin_readers_ok e s :
  e ∈ pins s → readers_ok s → readers_ok (set_pins (pin_drop e (mgr s)) (remove_one e (pins s)) s).
Proof.
  intros He Hok. pose proof Hok as (Hc & Hf & Hps & _). apply pins_readers_ok; [by apply counted_release| | |done].
  - intros x Hx. left. apply release_pos in Hx; [done|apply Hc].
  - intros x Hx. apply Hps. by eapply remove_one_elem.
Qed.

Lemma history_readers_ok h s :
  floor h = floor (history (mgr s)) → History.wf h → readers_ok s → readers_ok (set_mgr (set_history h (mgr s)) s).
Proof.
  intros Hfl Hw Hok. pose proof Hok as (Hc & Hf & Hps & Hg). apply readers_ok_manager; try done.
  apply (floor_ok_change (mgr s)); try done. by left.
Qed.

Lemma step_readers_ok s s' : step s s' → epochs_ok s → readers_ok s → readers_ok s'.
Proof.
  intros Hstep He Hok. pose proof Hok as (Hc & Hf & Hps & Hg). destruct Hstep.
  - by apply register_readers_ok.
  - done.
  - by eapply claim_readers_ok.
  - by eapply start_readers_ok.
  - by apply take_back_readers_ok.
  - done.
  - by apply complete_readers_ok.
  - done.
  - by apply abort_readers_ok.
  - by apply abort_all_readers_ok.
  - apply readers_ok_manager; try done. by apply counted_gc.
  - done.
  - by apply pin_read_readers_ok.
  - by eapply pin_at_readers_ok.
  - apply pin_hold_readers_ok; [|done]. split; [|auto]. apply Hf. by apply pin_pos.
  - by apply drop_pin_readers_ok.
  - apply readers_ok_manager; try done. apply collect_floor_ok; [apply Hc|done].
  - apply history_readers_ok; [apply set_retention_floor|apply History.set_retention_wf, Hf|done].
  - apply history_readers_ok; [apply record_floor|apply History.record_wf, Hf|done].
  - done.
  - done.
  - apply readers_ok_manager; try done; [|simpl; lia].
    apply (floor_ok_change (mgr s)); [done|apply Hf|simpl; lia|by left|done].
  - split; [done|]. split; [done|]. split; [done|]. intros _. unfold idle_gate in *. simpl. by bool_to_prop.
  - split; [done|]. split; [done|]. split; [done|]. done.
  - done.
Qed.

Lemma reachable_readers_ok s : reachable s → epochs_ok s ∧ readers_ok s.
Proof.
  unfold reachable. intros Hr. pose proof initial_epochs_ok as Hi. pose proof initial_readers_ok as Hi'. revert Hi Hi'.
  induction Hr; eauto using step_epochs_ok, step_readers_ok.
Qed.

End readers.
