(* ===== verification/TxIsolation.v ===== *)
(** * Isolation

    The claims of the transactions that are open at the same time do not
    conflict, and the commits of the ledger satisfy first-committer-wins: a
    commit never conflicts with one that took its epoch after the other's
    snapshot. *)
From S2P Require Import Prelude History ReadPins TxTypes TxManager TxClaims TxSystem TxEpochs TxReaders.
Open Scope Z_scope.

Section isolation.
Context `{Engine}.
Implicit Types (m : TransactionManager) (i j : TransactionInfo) (s : System) (p : Publish).

(** ** Open transactions *)

Definition claims_apart i j : Prop :=
  write_set i ## write_set j ∧ delete_set i ## endpoint_set j ∧
  endpoint_set i ## delete_set j ∧ key_set i ## key_set j.

Definition open_apart (t : gmap Z TransactionInfo) : Prop :=
  ∀ k k' i j, k ≠ k' → t !! k = Some i → t !! k' = Some j →
    open_tx i = true → open_tx j = true → claims_apart i j.

Definition claims_within i' i : Prop :=
  write_set i' ⊆ write_set i ∧ delete_set i' ⊆ delete_set i ∧
  endpoint_set i' ⊆ endpoint_set i ∧ key_set i' ⊆ key_set i.

Lemma claims_apart_sym i j : claims_apart i j → claims_apart j i.
Proof. unfold claims_apart. intros (? & ? & ? & ?). split_and!; by symmetry. Qed.

Lemma claims_apart_within i i' j : claims_within i' i → claims_apart i j → claims_apart i' j.
Proof. unfold claims_within, claims_apart. intros (? & ? & ? & ?) (? & ? & ? & ?). set_solver. Qed.

Lemma claims_within_refl i : claims_within i i.
Proof. done. Qed.

Lemma pop_claims_within n log i : claims_within (pop_claims n log i) i.
Proof.
  revert i. induction log as [|u log IH]; intros i; cbn [pop_claims]; [done|]. case_goal; [|done].
  destruct (IH (undo_claim i u)) as (? & ? & ? & ?).
  destruct u; unfold claims_within; simpl in *; set_solver.
Qed.

Lemma claim_entities_apart claim es i j :
  (∀ e, e ∈ es → ¬ claims_meet claim e j) → claims_apart i j →
  claims_apart (fold_left (claim_entity claim) es i) j.
Proof.
  revert i. induction es as [|e es IH]; intros i Hm Ha; [done|]. simpl. apply IH.
  - intros x Hx. apply Hm. by right.
  - assert (¬ claims_meet claim e j) as He by (apply Hm; left).
    destruct Ha as (? & ? & ? & ?). destruct claim; unfold claims_apart; simpl in *; set_solver.
Qed.

(** What a claim operation does to the claims: nothing new, or claims that
    meet no other open transaction's. *)
Lemma claim_op_apart tx m m' ps i j k :
  claim_op tx m m' → counted m ps → transactions m !! tx = Some i →
  k ≠ tx → transactions m !! k = Some j → open_tx j = true → claims_apart i j →
  ∃ i', transactions m' !! tx = Some i' ∧ claims_apart i' j.
Proof.
  intros Hop (Hcnt & _) Hi Hne Hj Ho Hap.
  assert (state i = Active → 1 < active_counter m) as Htwo.
  { intros Ha. rewrite Hcnt. eapply count_map_two; [exact Hne|done..|]. unfold open_tx. by rewrite Ha. }
  destruct Hop as [claim es m' Hr|ky m' Hr|e m' Hr|n m' Hr|n m' Hr].
  - apply record_claims_Ok in Hr as (x & Hx & Ha & Hoc & _ & ->). simplify_eq.
    eexists. split; [apply lookup_insert_eq|]. apply claim_entities_apart; [|done].
    intros e He. by eapply (proj1 (open_conflict_None _ _ _ _) Hoc); [auto|..].
  - apply record_key_Ok in Hr as (x & Hx & Ha & Hk & _ & ->). simplify_eq.
    eexists. split; [apply lookup_insert_eq|].
    assert (ky ∉ key_set j). { eapply key_claimed_false; [by apply Hk, Htwo|exact Hj|congruence|done]. }
    destruct Hap as (? & ? & ? & ?). unfold claims_apart; simpl. set_solver.
  - apply bind_Ok in Hr as (x & [Hx Ha]%active_info_Ok & [= <-]). simplify_eq.
    eexists. split; [apply lookup_insert_eq|done].
  - apply bind_Ok in Hr as (x & [Hx Ha]%active_info_Ok & [= <- <-]). simplify_eq.
    eexists. split; [apply lookup_insert_eq|done].
  - apply bind_Ok in Hr as (x & [Hx Ha]%active_info_Ok & Hr). simplify_eq.
    destruct (claim_undo x) as [log|]; [|done]. destruct (n <=? length log)%nat; [|done]. injection Hr as <-.
    eexists. split; [apply lookup_insert_eq|]. eapply claims_apart_within; [apply pop_claims_within|done].
Qed.

(** The claims of the open transactions did not grow, and no transaction
    opened. *)
Lemma open_apart_within t t' :
  (∀ k i', t' !! k = Some i' → open_tx i' = true →
     ∃ i, t !! k = Some i ∧ open_tx i = true ∧ claims_within i' i) →
  open_apart t → open_apart t'.
Proof.
  intros Hw Hap k k' i j Hne Hi Hj Hoi Hoj.
  destruct (Hw _ _ Hi Hoi) as (i0 & Hi0 & Hoi0 & Hwi). destruct (Hw _ _ Hj Hoj) as (j0 & Hj0 & Hoj0 & Hwj).
  eapply claims_apart_within; [done|]. apply claims_apart_sym. eapply claims_apart_within; [done|].
  apply claims_apart_sym. by apply (Hap k k').
Qed.

Lemma claim_open_apart tx m m' ps :
  claim_op tx m m' → counted m ps → open_apart (transactions m) → open_apart (transactions m').
Proof.
  intros Hop Hc Hap. pose proof (claim_op_spec _ _ _ Hop) as (i & i' & Hi & Ha & Hm & (Hs & _)).
  assert (open_tx i = true) as Hoi by (unfold open_tx; by rewrite Ha).
  assert (∀ k j, k ≠ tx → transactions m !! k = Some j → open_tx j = true → claims_apart i' j) as Hnew.
  { intros k j Hne Hj Hoj. destruct (claim_op_apart _ _ _ _ i j k Hop Hc Hi Hne Hj Hoj) as (x & Hx & ?).
    - by apply (Hap tx k).
    - rewrite Hm in Hx. simpl in Hx. rewrite lookup_insert_eq in Hx. by simplify_eq. }
  rewrite Hm. simpl. intros k k' x y Hne Hx Hy Hox Hoy.
  apply lookup_insert_Some in Hx as [[<- <-]|[Hkx Hx]]; apply lookup_insert_Some in Hy as [[<- <-]|[Hky Hy]].
  - done.
  - by apply (Hnew k').
  - apply claims_apart_sym. by apply (Hnew k).
  - by apply (Hap k k').
Qed.

Lemma register_open_apart level private m :
  transactions m !! next_transaction_id m = None →
  open_apart (transactions m) → open_apart (transactions (register level private m).2).
Proof.
  intros Hnew Hap. unfold register, take_id. destruct (ReadPins.hold_published _ _) as [e r]. simpl.
  assert (∀ x j, x = info_new e level (changes_new (next_transaction_id m) e) private → claims_apart x j) as Hempty.
  { intros x j ->. unfold claims_apart; simpl. set_solver. }
  intros k k' x y Hne Hx Hy Hox Hoy.
  apply lookup_insert_Some in Hx as [[<- Hx]|[Hkx Hx]]; apply lookup_insert_Some in Hy as [[<- Hy]|[Hky Hy]].
  - done.
  - by apply Hempty.
  - apply claims_apart_sym. by apply Hempty.
  - by apply (Hap k k').
Qed.

Lemma complete_open_apart p ordered m i :
  transactions m !! pub_transaction p = Some i →
  open_apart (transactions m) → open_apart (transactions (complete_with p ordered m).1).
Proof.
  intros Hi Hap. destruct (complete_cases p ordered m) as [[-> _]|[->|[Hu ->]]]; [done|done|].
  rewrite (complete_fields p m i Hu Hi). simpl. revert Hap. apply open_apart_within.
  intros k x Hx Ho. destruct (private i && _).
  - apply lookup_delete_Some in Hx as [_ Hx]. by exists x.
  - apply lookup_insert_Some in Hx as [[_ <-]|[_ Hx]]; [done|by exists x].
Qed.

Lemma abort_open_apart tx m : open_apart (transactions m) → open_apart (transactions (abort tx m).1).
Proof.
  intros Hap. destruct (abort_cases tx m) as (m1 & Hm1 & Hm).
  assert (open_apart (transactions m1)) as Hap1 by (by destruct Hm1 as [->| ->]).
  destruct Hm as [->|(i & Hi & Ha & ->)%abort_registered_Ok]; [done|]. simpl. revert Hap1.
  apply open_apart_within. intros k x Hx Ho. destruct (private i).
  - apply lookup_delete_Some in Hx as [_ Hx]. by exists x.
  - apply lookup_insert_Some in Hx as [[_ <-]|[_ Hx]]; [done|by exists x].
Qed.

Lemma update_open_apart (t : gmap Z TransactionInfo) k i i' :
  t !! k = Some i → open_tx i = true → claims_within i' i → open_apart t → open_apart (<[k := i']> t).
Proof.
  intros Hi Ho Hw. apply open_apart_within. intros k' x Hx Hox.
  apply lookup_insert_Some in Hx as [[<- <-]|[_ Hx]]; [by exists i|by exists x].
Qed.

Lemma step_open_apart s s' :
  step s s' → epochs_ok s → readers_ok s →
  open_apart (transactions (mgr s)) → open_apart (transactions (mgr s')).
Proof.
  intros Hstep He Hr Hap. pose proof He as ((_ & _ & Ht & _) & Hhs & Hl & _).
  destruct Hstep; try done; simpl.
  - apply register_open_apart; [|done]. apply eq_None_not_Some. intros [i Hi].
    destruct (Ht _ _ Hi) as [? _]. lia.
  - eapply claim_open_apart; [done|apply Hr|done].
  - apply start_commit_Ok in H4 as (j & Hj & Ha & _ & _ & _ & -> & ->). simpl.
    eapply update_open_apart; [done| |done|done]. unfold open_tx. by rewrite Ha.
  - unfold lock_ok in Hl. rewrite H0 in Hl. destruct Hl as [Hp _]. destruct (Hhs _ Hp) as [(j & Hj & Hs) _].
    rewrite (alter_insert _ _ _ _ Hj).
    eapply update_open_apart; [done| |done|done]. unfold open_tx. by rewrite Hs.
  - destruct (Hhs _ H0) as [(j & Hj & _) _]. by eapply complete_open_apart.
  - by apply abort_open_apart.
  - revert Hap. apply open_apart_within. intros k x Hx Ho. rewrite lookup_fmap in Hx.
    apply fmap_Some in Hx as (y & Hy & ->). exists y. by destruct (is_active y).
  - revert Hap. apply open_apart_within. intros k x [Hx _]%gc_transactions Ho. by exists x.
  - by destruct (pin_read_fields (mgr s)) as [r ->].
  - by apply pin_at_fields in H1 as (_ & _ & ->).
Qed.

(** ** The ledger *)

(** The commits that the manager still knows have their ledger entry's epoch
    and claims; those a reader cannot see yet, and those an active
    transaction began before, it still knows. *)
Definition ledger_known s : Prop :=
  (∀ e k i, ledger s !! e = Some (k, i) →
     e ≤ assigned_epoch (mgr s) ∧ k < next_transaction_id (mgr s) ∧
     ∀ j, transactions (mgr s) !! k = Some j →
       committed_epochs (mgr s) !! k = Some e ∧ claims_of j = claims_of i) ∧
  (∀ e k i, ledger s !! e = Some (k, i) → published_epoch (mgr s) < e →
     is_Some (transactions (mgr s) !! k)) ∧
  (∀ b ib e k i, transactions (mgr s) !! b = Some ib → state ib = Active → b ∉ taken_back s →
     ledger s !! e = Some (k, i) → start_epoch ib < e → is_Some (transactions (mgr s) !! k)) ∧
  (∀ k e, committed_epochs (mgr s) !! k = Some e → ∃ i, ledger s !! e = Some (k, i)).

(** No commit conflicts with one that took its epoch since its snapshot. *)
Definition first_committer s : Prop :=
  ∀ e1 e2 k1 k2 i1 i2, ledger s !! e1 = Some (k1, i1) → ledger s !! e2 = Some (k2, i2) →
    e1 < e2 → start_epoch i2 < e1 → ¬ conflicts i2 i1.

Definition ledger_ok s : Prop := ledger_known s ∧ first_committer s.

Lemma conflicts_claims ours i j : claims_of i = claims_of j → conflicts ours i → conflicts ours j.
Proof.
  unfold claims_of. intros [= Hw Hd He Hk]. unfold conflicts, claims_meet. by rewrite Hw, Hd, He, Hk.
Qed.

(** A transaction of the ledger that the manager knows is not active. *)
Lemma ledger_not_active s e k i j :
  epochs_ok s → ledger_known s → ledger s !! e = Some (k, i) → transactions (mgr s) !! k = Some j →
  state j ≠ Active.
Proof.
  intros ((_ & _ & Ht & _) & _) (Hl & _) He Hj Ha. destruct (Hl _ _ _ He) as (_ & _ & Hk).
  destruct (Hk _ Hj) as [Hc _]. destruct (Ht _ _ Hj) as (_ & _ & Hst). rewrite Ha, Hc in Hst. done.
Qed.

(** An operation that leaves the ledger alone. *)
Lemma ledger_ok_change m l hs ps g s :
  assigned_epoch (mgr s) ≤ assigned_epoch m → next_transaction_id (mgr s) ≤ next_transaction_id m →
  published_epoch (mgr s) ≤ published_epoch m →
  (∀ e k i j', ledger s !! e = Some (k, i) → transactions m !! k = Some j' →
     ∃ j, transactions (mgr s) !! k = Some j ∧ claims_of j' = claims_of j ∧
       committed_epochs m !! k = committed_epochs (mgr s) !! k) →
  (∀ e k i, ledger s !! e = Some (k, i) → published_epoch m < e →
     is_Some (transactions (mgr s) !! k) → is_Some (transactions m !! k)) →
  (∀ b ib, transactions m !! b = Some ib → state ib = Active →
     (∃ ib0, transactions (mgr s) !! b = Some ib0 ∧ state ib0 = Active ∧ start_epoch ib0 = start_epoch ib) ∨
     published_epoch (mgr s) ≤ start_epoch ib) →
  (∀ b ib e k i, transactions m !! b = Some ib → state ib = Active → start_epoch ib < e →
     ledger s !! e = Some (k, i) → is_Some (transactions (mgr s) !! k) → is_Some (transactions m !! k)) →
  (∀ k e, committed_epochs m !! k = Some e → committed_epochs (mgr s) !! k = Some e) →
  ledger_ok s → ledger_ok (mkSystem m l hs ps g (ledger s) (taken_back s)).
Proof.
  intros Ha Hn Hp HA HB HC HC' HE ((Hl & Hpub & Hact & Hcm) & Hfc). split; [|done].
  split; [|split; [|split]]; simpl.
  - intros e k i He. destruct (Hl _ _ _ He) as (? & ? & Hk). split; [lia|]. split; [lia|].
    intros j' Hj'. destruct (HA _ _ _ _ He Hj') as (j & Hj & Hcl & Hce).
    destruct (Hk _ Hj) as [? ?]. split; congruence.
  - intros e k i He Hlt. apply (HB e k i He Hlt). eapply Hpub; [done|lia].
  - intros b ib e k i Hb Hba Htb He Hlt. apply (HC' b ib e k i Hb Hba Hlt He).
    destruct (HC _ _ Hb Hba) as [(ib0 & Hb0 & Hba0 & Hst)|Hst].
    + eapply (Hact b ib0); [done|done|done|done|lia].
    + eapply Hpub; [done|lia].
  - intros k e He%HE. by apply Hcm.
Qed.

(** One active transaction, which no ledger entry is about, changes or goes. *)
Lemma ledger_ok_active m tx i0 o l hs ps g s :
  transactions (mgr s) !! tx = Some i0 → state i0 = Active →
  transactions m = partial_alter (λ _, o) tx (transactions (mgr s)) →
  committed_epochs m = committed_epochs (mgr s) →
  assigned_epoch m = assigned_epoch (mgr s) → next_transaction_id m = next_transaction_id (mgr s) →
  published_epoch m = published_epoch (mgr s) →
  (∀ i', o = Some i' → state i' = Active → start_epoch i' = start_epoch i0) →
  epochs_ok s → ledger_ok s → ledger_ok (mkSystem m l hs ps g (ledger s) (taken_back s)).
Proof.
  intros Htx Hact Ht Hc Ha Hn Hp Ho He Hok.
  assert (∀ e k i j, ledger s !! e = Some (k, i) → transactions (mgr s) !! k = Some j → k ≠ tx) as Hne.
  { intros e k i j Hl Hj ->. simplify_eq. by eapply ledger_not_active; [exact He|apply Hok|..]. }
  assert (∀ k, k ≠ tx → transactions m !! k = transactions (mgr s) !! k) as Hsame.
  { intros k Hk. rewrite Ht. by apply lookup_partial_alter_ne. }
  assert (∀ e k i, ledger s !! e = Some (k, i) → is_Some (transactions (mgr s) !! k) → is_Some (transactions m !! k)) as Hkeep.
  { intros e k i Hl [j Hj]. rewrite Hsame; [done|]. by eapply Hne. }
  apply ledger_ok_change; try (rewrite ?Ha, ?Hn, ?Hp, ?Hc; done || eauto).
  - intros e k i j' Hl Hj'. destruct (decide (k = tx)) as [->|Hk].
    + destruct (Hne _ _ _ _ Hl Htx). done.
    + rewrite Hsame in Hj' by done. eauto.
  - intros b ib Hb Hba. left. destruct (decide (b = tx)) as [->|Hbne].
    + rewrite Ht, lookup_partial_alter_eq in Hb. exists i0. split; [done|]. split; [done|]. symmetry. by apply Ho.
    + rewrite Hsame in Hb by done. eauto.
Qed.

Lemma start_ledger_ok now tx i m' p s :
  tx ∉ taken_back s → assigned_epoch (mgr s) < u64_max - 1 →
  transactions (mgr s) !! tx = Some i → start_commit now tx (mgr s) = Ok (m', p) →
  epochs_ok s → ledger_ok s →
  ledger_ok (mkSystem m' (ByCommit p) (p :: handles s) (pins s) (gate s)
               (<[pub_epoch p := (tx, i)]> (ledger s)) (taken_back s)).
Proof.
  intros Htb Hmax Hi (j & Hj & Ha & Hv & _ & _ & -> & ->)%start_commit_Ok Hok ((Hl & Hpub & Hact & Hcm) & Hfc).
  rewrite Hj in Hi. injection Hi as <-.
  pose proof Hok as ((Hb & Hn & Ht & _) & _).
  assert (∀ e k x, ledger s !! e = Some (k, x) → is_Some (transactions (mgr s) !! k) → k ≠ tx) as Hne.
  { intros e k x He [y Hy] ->. simplify_eq. by eapply ledger_not_active; [exact Hok|split_and!; done|..]. }
  assert (wrap64 (assigned_epoch (mgr s) + 1) = assigned_epoch (mgr s) + 1) as Hw.
  { apply wrap64_small. unfold is_u64, u64_max in *. lia. }
  split; [split; [|split; [|split]]|]; simpl.
  - intros e k x. rewrite Hw. intros [[<- [= <- <-]]|[Hee He]]%lookup_insert_Some.
    + split; [lia|]. split; [by destruct (Ht _ _ Hj)|]. intros y Hy. rewrite lookup_insert_eq in Hy. simplify_eq.
      by rewrite lookup_insert_eq.
    + destruct (Hl _ _ _ He) as (? & ? & Hk). split; [lia|]. split; [done|]. intros y Hy.
      destruct (decide (k = tx)) as [->|Hkt].
      * destruct (Hne _ _ _ He (mk_is_Some _ _ Hj)). done.
      * rewrite lookup_insert_ne in Hy by done. rewrite lookup_insert_ne by done. auto.
  - intros e k x [[<- [= <- <-]]|[Hee He]]%lookup_insert_Some Hlt; [by rewrite lookup_insert_eq|].
    apply lookup_insert_is_Some'. right. eauto.
  - intros b ib e k x Hbt Hba Hbtb. apply lookup_insert_Some in Hbt as [[<- <-]|[Hbne Hbt]]; [done|].
    intros [[<- [= <- <-]]|[Hee He]]%lookup_insert_Some Hlt; [by rewrite lookup_insert_eq|].
    apply lookup_insert_is_Some'. right. eauto.
  - intros k e [[<- <-]|[Hkt Hk]]%lookup_insert_Some; [rewrite lookup_insert_eq; eauto|].
    destruct (Hcm _ _ Hk) as [x Hx]. exists x. rewrite lookup_insert_ne; [done|].
    destruct (Hl _ _ _ Hx) as (? & _). lia.
  - unfold first_committer; simpl. intros e1 e2 k1 k2 i1 i2 [[<- [= <- <-]]|[Hne1 H1]]%lookup_insert_Some
      [[<- [= <- <-]]|[Hne2 H2]]%lookup_insert_Some Hlt Hst.
    + lia.
    + destruct (Hl _ _ _ H2) as (? & _). lia.
    + destruct (Hact tx j e1 k1 i1 Hj Ha Htb H1 Hst) as [y Hy]. destruct (Hl _ _ _ H1) as (Hle & _ & Hk).
      destruct (Hk _ Hy) as [Hce Hcl]. intros Hcon.
      apply (proj1 (validate_ok tx j (mgr s)) Hv ltac:(lia) y).
      * apply committed_after_elem. exists k1, e1. split_and!; try done. by apply (Hne e1 _ i1).
      * by apply (conflicts_claims _ i1).
    + by apply (Hfc e1 e2 k1 k2).
Qed.

Lemma take_back_ledger_ok p s :
  lock s = ByCommit p → epochs_ok s → ledger_ok s →
  ledger_ok (mkSystem (commit_abort p (mgr s)) Unlocked (without p (handles s)) (pins s) (gate s)
               (delete (pub_epoch p) (ledger s)) ({[pub_transaction p]} ∪ taken_back s)).
Proof.
  intros Hlock (Hok & Hhs & Hlo & _) ((Hl & Hpub & Hact & Hcm) & Hfc).
  unfold lock_ok in Hlo. rewrite Hlock in Hlo. destruct Hlo as [Hp Hpe].
  destruct (Hhs p Hp) as [(i & Hi & His) Hpc].
  assert (∀ e k x, ledger s !! e = Some (k, x) → pub_epoch p ≠ e → k ≠ pub_transaction p) as Hne.
  { intros e k x He Hee ->. destruct (Hl _ _ _ He) as (_ & _ & Hk). destruct (Hk _ Hi). congruence. }
  assert (∀ k, is_Some (transactions (mgr s) !! k) → is_Some (alter (info_state Active) (pub_transaction p) (transactions (mgr s)) !! k)) as Hkeep.
  { intros k Hk. by apply lookup_alter_is_Some. }
  split; [split; [|split; [|split]]|]; simpl.
  - intros e k x [Hee He]%lookup_delete_Some. destruct (Hl _ _ _ He) as (? & ? & Hk).
    pose proof (Hne _ _ _ He Hee). split; [lia|]. split; [done|]. intros y.
    rewrite lookup_alter_ne, lookup_delete_ne by done. auto.
  - intros e k x [Hee He]%lookup_delete_Some Hlt. eauto.
  - intros b ib e k x Hb Hba Hbt [Hee He]%lookup_delete_Some Hlt. apply Hkeep.
    rewrite lookup_alter_ne in Hb by set_solver. eapply Hact; [done|done|set_solver|done|done].
  - intros k e [Hkne Hk]%lookup_delete_Some. destruct (Hcm _ _ Hk) as [x Hx]. exists x.
    rewrite lookup_delete_ne; [done|]. intros <-. destruct Hok as (_ & _ & _ & _ & Hinj).
    by destruct (Hkne (Hinj _ _ _ Hpc Hk)).
  - unfold first_committer; simpl. intros e1 e2 k1 k2 i1 i2 [_ H1]%lookup_delete_Some [_ H2]%lookup_delete_Some. by apply (Hfc e1 e2 k1 k2).
Qed.

(** A private transaction leaves with its commit only when no other is open. *)
Lemma complete_ledger_ok p ordered s :
  p ∈ handles s → publish_turn p (mgr s) = true → epochs_ok s → readers_ok s → ledger_ok s →
  ledger_ok (end_handle p (complete_with p ordered (mgr s)).1 s).
Proof.
  intros Hp Hturn He Hr Hok. destruct (complete_cases p ordered (mgr s)) as [[-> Hu]|[->|[Hu ->]]]; [done..|].
  pose proof He as (Hm & Hhs & _). pose proof (Hhs p Hp) as Hph.
  pose proof (handle_epoch _ _ Hm Hph) as Hpb. destruct Hph as [(i & Hi & His) Hpc].
  pose proof (turn_le _ _ Hturn Hu) as Hturn'.
  rewrite (complete_fields p (mgr s) i Hu Hi). pose proof Hok as ((Hl & _ & _ & _) & _).
  destruct (private i && (active_counter (mgr s) =? 1)) eqn:Hgone; apply ledger_ok_change; simpl; try done; try lia.
  - intros e k x y Hlx [Hne Hy]%lookup_delete_Some. exists y. by rewrite lookup_delete_ne.
  - intros e k x Hlx Hlt Hk. apply lookup_delete_is_Some. split; [|done]. intros <-.
    destruct (Hl _ _ _ Hlx) as (_ & _ & Hk'). destruct (Hk' _ Hi). simplify_eq. lia.
  - intros b ib [Hne Hb]%lookup_delete_Some Hba. left. eauto.
  - intros b ib e k x [Hne Hb]%lookup_delete_Some Hba. bool_to_prop.
    assert (1 < active_counter (mgr s)); [|lia]. destruct Hr as ((-> & _) & _).
    eapply count_map_two; [exact Hne|done|done|unfold open_tx; by rewrite His|unfold open_tx; by rewrite Hba].
  - intros k e [_ Hk]%lookup_delete_Some. done.
  - intros e k x y Hlx [[<- <-]|[Hne Hy]]%lookup_insert_Some; [|eauto]. by exists i.
  - intros e k x Hlx Hlt Hk. apply lookup_insert_is_Some'. by right.
  - intros b ib [[<- <-]|[Hne Hb]]%lookup_insert_Some Hba; [done|]. left. eauto.
  - intros b ib e k x _ _ _ _ Hk. apply lookup_insert_is_Some'. by right.
Qed.

Lemma abort_ledger_ok tx s :
  epochs_ok s → ledger_ok s → ledger_ok (set_mgr (abort tx (mgr s)).1 s).
Proof.
  intros He Hok. destruct (abort_cases tx (mgr s)) as (m1 & Hm1 & Hm).
  assert (ledger_ok (set_mgr m1 s)) as Hok1 by (by destruct Hm1 as [->| ->]; destruct s).
  assert (epochs_ok (set_mgr m1 s)) as He1.
  { destruct Hm1 as [->| ->]; [by destruct s|by apply poison_epochs_ok]. }
  destruct Hm as [->|(i & Hi & Ha & ->)%abort_registered_Ok]; [done|].
  apply (ledger_ok_active _ tx i (if private i then None else Some (info_end Aborted i)) _ _ _ _ (set_mgr m1 s));
    try done; simpl.
  - by destruct (private i).
  - intros i'. destruct (private i); [done|]. by intros [= <-].
Qed.

Lemma abort_all_ledger_ok s : ledger_ok s → ledger_ok (set_mgr (abort_all_active (mgr s)) s).
Proof.
  apply ledger_ok_change; simpl; try done.
  - intros e k i j' _ Hj'. rewrite lookup_fmap in Hj'. apply fmap_Some in Hj' as (j & Hj & ->).
    exists j. by destruct (is_active j).
  - intros e k i _ _ [j Hj]. rewrite lookup_fmap, Hj. done.
  - intros b ib Hb Hba. rewrite lookup_fmap in Hb. apply fmap_Some in Hb as (j & Hj & ->).
    unfold is_active in Hba. case_bool_decide; done.
  - intros b ib e k i _ _ _ _ [j Hj]. rewrite lookup_fmap, Hj. done.
Qed.

Lemma gc_ledger_ok s : epochs_ok s → ledger_ok s → ledger_ok (set_mgr (gc (mgr s)).1 s).
Proof.
  intros He Hok. pose proof He as ((_ & _ & Ht & _) & _). pose proof Hok as ((Hl & _) & _).
  assert (∀ k i j, transactions (mgr s) !! k = Some j → transactions (gc (mgr s)).1 !! k = Some i →
    committed_epochs (gc (mgr s)).1 !! k = committed_epochs (mgr s) !! k) as Hce.
  { intros k i j Hj [Hi Hr]%gc_transactions. rewrite gc_committed. case_decide as Hk; [|done].
    apply to_remove_elem in Hk as (y & Hy & Hry). simplify_eq. congruence. }
  apply ledger_ok_change; try done.
  - intros e k i j' _ Hj'. pose proof Hj' as [Hj Hr]%gc_transactions. exists j'. split; [done|].
    split; [done|]. by eapply Hce.
  - intros e k i Hlx Hlt [j Hj]. exists j. apply gc_keeps_open; [|done].
    destruct (Hl _ _ _ Hlx) as (_ & _ & Hk). destruct (Hk _ Hj) as [Hc _]. destruct (Ht _ _ Hj) as (_ & _ & Hst).
    rewrite Hc in Hst. simpl in Hlt. destruct (state j); simpl in Hst; try done. naive_solver lia.
  - intros b ib [Hb _]%gc_transactions Hba. left. eauto.
  - intros b ib e k i [Hb _]%gc_transactions Hba Hlt Hlx [j Hj]. exists j. apply gc_transactions. split; [done|].
    destruct (Hl _ _ _ Hlx) as (_ & _ & Hk). destruct (Hk _ Hj) as [Hc _]. destruct (Ht _ _ Hj) as (_ & _ & Hst).
    rewrite Hc in Hst. unfold gc_removes. destruct (min_active_start_spec _ _ _ Hb Hba) as (x & -> & Hx).
    destruct (state j); simpl in Hst; try done. rewrite Hc. apply Z.ltb_ge. lia.
  - intros k e. rewrite gc_committed. by case_decide.
Qed.

Lemma register_ledger_ok level private s :
  next_transaction_id (mgr s) < u64_max → epochs_ok s → ledger_ok s →
  ledger_ok (set_mgr (register level private (mgr s)).2 s).
Proof.
  intros Hn He Hok. pose proof He as ((_ & Hnb & Ht & _) & _). pose proof Hok as ((Hl & _) & _).
  unfold register, take_id. destruct (ReadPins.hold_published _ _) as [e0 r] eqn:Hh. simpl.
  assert (e0 = published_epoch (mgr s)) as ->.
  { unfold ReadPins.hold_published in Hh. simpl in Hh. repeat case_match; by simplify_eq. }
  apply ledger_ok_change; simpl; try done.
  - rewrite wrap64_small; [lia|]. unfold is_u64, u64_max in *. lia.
  - intros e k i j' Hlx Hj'. destruct (Hl _ _ _ Hlx) as (_ & Hk & _).
    rewrite lookup_insert_ne in Hj' by lia. eauto.
  - intros e k i Hlx _ Hk. apply lookup_insert_is_Some'. by right.
  - intros b ib [[<- <-]|[Hne Hb]]%lookup_insert_Some Hba; [by right|]. left. eauto.
  - intros b ib e k i _ _ _ _ Hk. apply lookup_insert_is_Some'. by right.
Qed.

Lemma set_mgr_ledger_ok m s :
  transactions m = transactions (mgr s) → committed_epochs m = committed_epochs (mgr s) →
  assigned_epoch (mgr s) ≤ assigned_epoch m → next_transaction_id (mgr s) ≤ next_transaction_id m →
  published_epoch (mgr s) ≤ published_epoch m → ledger_ok s → ledger_ok (set_mgr m s).
Proof. intros Ht Hc ? ? ?. apply ledger_ok_change; rewrite ?Ht, ?Hc; try done; eauto. Qed.

Lemma step_ledger_ok s s' : step s s' → epochs_ok s → readers_ok s → ledger_ok s → ledger_ok s'.
Proof.
  intros Hstep He Hr Hok. destruct Hstep; try done.
  - by apply register_ledger_ok.
  - apply set_mgr_ledger_ok; try done. simpl. destruct He as ((_ & Hnb & _) & _).
    rewrite wrap64_small; [lia|]. unfold is_u64, u64_max in *. lia.
  - pose proof H0 as (i & i' & Hi & Ha & -> & (Hs & Hst & _))%claim_op_spec.
    apply (ledger_ok_active _ tx i (Some i')); try done. by intros ? [= <-].
  - by eapply start_ledger_ok.
  - by apply take_back_ledger_ok.
  - by apply complete_ledger_ok.
  - by apply abort_ledger_ok.
  - by apply abort_all_ledger_ok.
  - by apply gc_ledger_ok.
  - by destruct (pin_read_fields (mgr s)) as [r ->].
  - by apply pin_at_fields in H1 as (_ & _ & ->).
  - apply set_mgr_ledger_ok; try done; simpl; lia.
Qed.

(** ** Every reachable state *)

Definition system_ok s : Prop :=
  epochs_ok s ∧ readers_ok s ∧ open_apart (transactions (mgr s)) ∧ ledger_ok s.

Lemma initial_ok : system_ok initial.
Proof.
  split; [apply initial_epochs_ok|]. split; [apply initial_readers_ok|]. split.
  - intros k k' i j _ Hi. simpl in Hi. by rewrite lookup_empty in Hi.
  - split; [|intros e1 e2 k1 k2 i1 i2 Hx; simpl in Hx; by rewrite lookup_empty in Hx].
    split_and!; simpl; intros *; rewrite ?lookup_empty; try done.
Qed.

Lemma step_ok s s' : step s s' → system_ok s → system_ok s'.
Proof.
  intros Hstep (He & Hr & Ha & Hl).
  split; [by eapply step_epochs_ok|]. split; [by eapply step_readers_ok|].
  split; [by eapply step_open_apart|by eapply step_ledger_ok].
Qed.

Lemma steps_ok s s' : rtc step s s' → system_ok s → system_ok s'.
Proof. induction 1; eauto using step_ok. Qed.

Lemma reachable_ok s : reachable s → system_ok s.
Proof. intros Hr. eapply steps_ok; [exact Hr|apply initial_ok]. Qed.

End isolation.
