(* ===== verification/TxProperties.v ===== *)
(** * What the transaction manager guarantees

    The properties of every state the manager can reach, whatever its callers
    do and in whatever order. *)
From S2P Require Import Prelude ReadPins History TxTypes TxManager TxClaims TxSystem TxEpochs TxReaders TxIsolation.
Open Scope Z_scope.

Section properties.
Context `{Engine}.
Implicit Types (m : TransactionManager) (i : TransactionInfo) (s : System) (p : Publish).

(** ** Commits that did not complete *)

(** A commit that has its epoch and no handle any more. *)
Definition incomplete (k e : Z) s : Prop :=
  (∃ i, transactions (mgr s) !! k = Some i ∧ state i = Committing) ∧
  committed_epochs (mgr s) !! k = Some e ∧
  ∀ p, p ∈ handles s → pub_transaction p ≠ k.

Lemma incomplete_other s k e m l hs ps g led b :
  incomplete k e s → transactions m !! k = transactions (mgr s) !! k →
  committed_epochs m !! k = committed_epochs (mgr s) !! k →
  (∀ p, p ∈ hs → p ∈ handles s ∨ pub_transaction p ≠ k) →
  incomplete k e (mkSystem m l hs ps g led b).
Proof.
  intros ((i & Hi & Hs) & Hc & Hh) Ht Hce Hhs. split; [|split]; simpl.
  - exists i. by rewrite Ht.
  - by rewrite Hce.
  - intros p [?|?]%Hhs; auto.
Qed.

Lemma without_elem p q (l : list Publish) : q ∈ without p l → q ∈ l.
Proof. by intros [_ ?]%list_elem_of_filter. Qed.

Lemma incomplete_step k e s s' : step s s' → epochs_ok s → incomplete k e s → incomplete k e s'.
Proof.
  intros Hstep He Hk. pose proof Hk as ((ik & Hik & Hks) & Hkc & Hkh).
  pose proof He as ((_ & _ & Ht & _) & Hhs & Hl & _).
  assert (∀ x j, transactions (mgr s) !! x = Some j → state j = Active → x ≠ k) as Hact.
  { intros x j Hj Hja ->. congruence. }
  destruct Hstep; try done; try (apply (incomplete_other s k e); simpl; by auto); simpl.
  - unfold register, take_id. destruct (ReadPins.hold_published _ _). apply (incomplete_other s k e); simpl; auto.
    rewrite lookup_insert_ne; [done|]. destruct (Ht _ _ Hik). lia.
  - pose proof H0 as (i & i' & Hi & Ha & -> & _)%claim_op_spec. apply (incomplete_other s k e); simpl; auto.
    rewrite lookup_insert_ne; [done|]. by eapply Hact.
  - apply start_commit_Ok in H4 as (j & Hj & Ha & _ & _ & _ & -> & ->).
    apply (incomplete_other s k e); simpl; auto; try (rewrite lookup_insert_ne; [done|]; by eapply Hact).
    intros q [->|?]%elem_of_cons; [right; by eapply Hact|by left].
  - unfold lock_ok in Hl. rewrite H0 in Hl. destruct Hl as [Hp _]. specialize (Hkh _ Hp).
    apply (incomplete_other s k e); simpl; auto; [by rewrite lookup_alter_ne|by rewrite lookup_delete_ne|].
    intros q Hq. left. by eapply without_elem.
  - specialize (Hkh _ H0). destruct (Hhs _ H0) as [(i & Hi & _) _].
    apply (incomplete_other s k e); auto.
    + destruct (complete_cases p ordered (mgr s)) as [[-> _]|[->|[Hu ->]]]; [done|done|].
      rewrite (complete_fields p _ i Hu Hi). simpl. destruct (private i && _); by simplify_map_eq.
    + destruct (complete_cases p ordered (mgr s)) as [[-> _]|[->|[Hu ->]]]; [done|done|].
      rewrite (complete_fields p _ i Hu Hi). simpl. destruct (private i && _); by simplify_map_eq.
    + intros q Hq. left. by eapply without_elem.
  - apply (incomplete_other s k e); simpl; auto. intros q Hq. left. by eapply without_elem.
  - destruct (abort_cases tx (mgr s)) as (m1 & Hm1 & Hm).
    assert (transactions m1 = transactions (mgr s) ∧ committed_epochs m1 = committed_epochs (mgr s)) as [Ht1 Hc1].
    { by destruct Hm1 as [->| ->]. }
    apply (incomplete_other s k e); auto; destruct Hm as [->|(i & Hi & Ha & ->)%abort_registered_Ok]; simpl; try congruence.
    rewrite Ht1 in *. pose proof (Hact _ _ Hi Ha). destruct (private i); by simplify_map_eq.
  - apply (incomplete_other s k e); simpl; auto. rewrite lookup_fmap, Hik. simpl. unfold is_active.
    rewrite bool_decide_eq_false_2; [done|congruence].
  - apply (incomplete_other s k e); auto.
    + rewrite Hik. apply gc_keeps_open; [by rewrite Hks|done].
    + etransitivity; [apply gc_committed|]. case_decide as Hr; [|done]. apply to_remove_elem in Hr as (j & Hj & Hr).
      simplify_eq. unfold gc_removes in Hr. by rewrite Hks in Hr.
  - destruct (pin_read_fields (mgr s)) as [r ->]. by apply (incomplete_other s k e); auto.
  - apply pin_at_fields in H1 as (_ & _ & ->). by apply (incomplete_other s k e); auto.
Qed.

Lemma incomplete_steps k e s s' : rtc step s s' → system_ok s → incomplete k e s → incomplete k e s'.
Proof.
  induction 1 as [|s1 s2 s3 Hstep _ IH]; [done|]. intros Hok Hk. apply IH; [by eapply step_ok|].
  eapply incomplete_step; [done|apply Hok|done].
Qed.

(** Once a commit failed, the manager stays poisoned. *)
Lemma poisoned_step s s' : step s s' → poisoned (mgr s) = true → poisoned (mgr s') = true.
Proof.
  intros Hstep Hp. destruct Hstep; try done; simpl.
  - unfold register, take_id. by destruct (ReadPins.hold_published _ _).
  - by pose proof H0 as (i & i' & Hi & Ha & -> & _)%claim_op_spec.
  - apply start_commit_Ok in H4 as (j & Hj & Ha & _ & Hpo & _). congruence.
  - destruct (complete_cases p ordered (mgr s)) as [[-> _]|[->|[Hu ->]]]; [done|done|].
    unfold complete_with. rewrite (proj2 (Z.leb_gt _ _)) by done. unfold publish_transactions.
    repeat case_match; simplify_eq/=; done.
  - destruct (abort_cases tx (mgr s)) as (m1 & Hm1 & Hm).
    assert (poisoned m1 = true) as Hp1 by (by destruct Hm1 as [->| ->]).
    by destruct Hm as [->|(i & Hi & Ha & ->)%abort_registered_Ok].
  - by destruct (pin_read_fields (mgr s)) as [r ->].
  - by apply pin_at_fields in H1 as (_ & _ & ->).
Qed.

Lemma poisoned_steps s s' : rtc step s s' → poisoned (mgr s) = true → poisoned (mgr s') = true.
Proof. induction 1; eauto using poisoned_step. Qed.

(** No commit takes an epoch any more. *)
Lemma poisoned_ledger s s' : rtc step s s' → poisoned (mgr s) = true → ledger s' ⊆ ledger s.
Proof.
  induction 1 as [|s1 s2 s3 Hstep _ IH]; intros Hp; [done|].
  transitivity (ledger s2); [by apply IH, (poisoned_step s1)|]. destruct Hstep; try done; simpl.
  - apply start_commit_Ok in H4 as (j & _ & _ & _ & Hpo & _). congruence.
  - apply delete_subseteq.
Qed.

Lemma poisoned_refuses m :
  poisoned m = true →
  (∀ now tx, start_commit now tx m = Err IncompleteCommit) ∧
  (∀ tx claim es, record_claims tx claim es m = Err IncompleteCommit) ∧
  (∀ tx k, record_key tx k m = Err IncompleteCommit).
Proof.
  intros Hp. unfold start_commit, record_claims, record_key, check_no_incomplete_commit, has_incomplete_commit.
  by rewrite Hp.
Qed.

(** ** The guarantees *)

(** C1: First committer wins. Of two commits, the later one, when its snapshot
    is before the earlier one's epoch, wrote nothing the earlier one wrote,
    linked to nothing it deleted, deleted nothing it linked to, wrote none of
    its unique keys, and, when it is serializable, read nothing it wrote. A
    transaction whose commit was taken back is rolled back and does not start
    to commit again, as the source asks of its callers. *)
Theorem first_committer_wins s e1 e2 k1 k2 i1 i2 :
  reachable s → ledger s !! e1 = Some (k1, i1) → ledger s !! e2 = Some (k2, i2) →
  e1 < e2 → start_epoch i2 < e1 →
  write_set i2 ## write_set i1 ∧ endpoint_set i2 ## delete_set i1 ∧
  delete_set i2 ## endpoint_set i1 ∧ key_set i2 ## key_set i1 ∧
  (isolation_level i2 = Serializable → read_set i2 ## write_set i1).
Proof.
  intros (_ & _ & _ & _ & Hfc)%reachable_ok H1 H2 Hlt Hst.
  pose proof (Hfc _ _ _ _ _ _ H1 H2 Hlt Hst) as Hn. unfold conflicts, claims_meet in Hn.
  split_and!; [..|intros Hser]; intros x Hx Hy; apply Hn; naive_solver.
Qed.

(** C5: First writer wins. The claims of two transactions that are open at the
    same time never meet: no entity is written by both, none is deleted by one
    and an endpoint of the other, no unique key is written by both. *)
Theorem open_transactions_apart s k k' i j :
  reachable s → k ≠ k' → transactions (mgr s) !! k = Some i → transactions (mgr s) !! k' = Some j →
  is_open (state i) = true → is_open (state j) = true → claims_apart i j.
Proof. intros (_ & _ & Ha & _)%reachable_ok. apply Ha. Qed.

(** C6: A snapshot holds whole commits. A transaction with a commit epoch is
    committed exactly when its epoch is published, and still committing
    exactly when it is not, so a reader at the published epoch sees no part of
    a commit in progress. *)
Theorem published_means_committed s k i e :
  reachable s → transactions (mgr s) !! k = Some i → committed_epochs (mgr s) !! k = Some e →
  (state i = Committed ↔ e ≤ published_epoch (mgr s)) ∧
  (state i = Committing ↔ published_epoch (mgr s) < e).
Proof.
  intros (((_ & _ & Ht & _) & _) & _)%reachable_ok Hi Hc. destruct (Ht _ _ Hi) as (_ & _ & Hst).
  rewrite Hc in Hst. destruct (state i); simpl in Hst; try done;
    destruct Hst as (x & [= <-] & ?); split; split; (done || lia).
Qed.

(** Commits publish in order. A commit whose turn has come, below any
    failed one, publishes: the published epoch moves by exactly one, to its
    epoch, its transaction is committed (or, a private one that was the last
    open one, forgotten), and one fewer transaction is counted as open. *)
Theorem publish_in_order s p :
  reachable s → p ∈ handles s → publish_turn p (mgr s) = true → pub_epoch p < unpublishable_from (mgr s) →
  let '(m', r) := complete_with p (Ok tt) (mgr s) in
  r = Ok tt ∧ published_epoch m' = published_epoch (mgr s) + 1 ∧ published_epoch m' = pub_epoch p ∧
  active_counter m' = active_counter (mgr s) - 1 ∧
  (transaction_state (pub_transaction p) m' = Some Committed ∨
   transaction_state (pub_transaction p) m' = None ∧ active_counter m' = 0).
Proof.
  intros (He & Hr & _)%reachable_ok Hp Hturn Hu. pose proof He as (Hm & Hhs & _).
  pose proof (handle_epoch _ _ Hm (Hhs p Hp)) as Hpb. destruct (Hhs p Hp) as [(i & Hi & His) _].
  pose proof (turn_le _ _ Hturn Hu) as Hle. pose proof (complete_fields p (mgr s) i Hu Hi) as Hf.
  assert ((complete_with p (Ok tt) (mgr s)).2 = Ok tt) as H2.
  { unfold complete_with. by rewrite (proj2 (Z.leb_gt _ _)). }
  assert (0 < active_counter (mgr s) ≤ u64_max) as Hac.
  { destruct Hr as (Hc & _). split; [|apply Hc].
    apply (reader_pos _ _ (pub_transaction p) i Hi) in Hc; [lia|]. unfold open_tx. by rewrite His. }
  destruct (complete_with p (Ok tt) (mgr s)) as [m' r]. simpl in Hf, H2. subst m' r. simpl.
  rewrite wrap64_small by (unfold is_u64, u64_max in *; lia). unfold transaction_state; simpl.
  split; [done|]. split; [lia|]. split; [lia|]. split; [done|].
  destruct (private i && (active_counter (mgr s) =? 1)) eqn:Hg.
  - right. rewrite lookup_delete_eq. bool_to_prop. split; [done|lia].
  - left. by rewrite lookup_insert_eq.
Qed.

(** C35: No commit waits for ever. While no commit has failed, and some epoch
    is assigned and not published, one of the commits in progress has its
    turn, the one right above the published epoch. *)
Theorem publish_progress s :
  reachable s → poisoned (mgr s) = false → published_epoch (mgr s) < assigned_epoch (mgr s) →
  ∃ p, p ∈ handles s ∧ pub_epoch p = published_epoch (mgr s) + 1 ∧ publish_turn p (mgr s) = true ∧
    pub_epoch p < unpublishable_from (mgr s).
Proof.
  intros ((Hm & _ & _ & Hc) & _)%reachable_ok Hp Hlt. destruct (Hc Hp) as [Hu Hcov].
  destruct (Hcov (published_epoch (mgr s) + 1)) as (p & Hin & Hpe); [lia|]. exists p.
  destruct Hm as ((_ & ?) & _). split; [done|]. split; [done|]. split; [|lia].
  unfold publish_turn. rewrite Hpe, Z.leb_refl. apply orb_true_r.
Qed.

(** A commit that did not complete stays hidden. When a committing
    transaction has lost its handle, then whatever happens next it stays
    committing, no reader ever reaches its epoch, and the manager is poisoned.
    *)
Theorem incomplete_commit_stays_hidden s s' k i e :
  reachable s → transactions (mgr s) !! k = Some i → state i = Committing →
  committed_epochs (mgr s) !! k = Some e → (∀ p, p ∈ handles s → pub_transaction p ≠ k) →
  rtc step s s' →
  transaction_state k (mgr s') = Some Committing ∧ published_epoch (mgr s') < e ∧
  read_horizon (mgr s') < e ∧ poisoned (mgr s') = true.
Proof.
  intros Hr Hi Hs Hc Hh Hsteps. pose proof (reachable_ok _ Hr) as Hok.
  destruct (incomplete_steps k e s s' Hsteps Hok) as ((j & Hj & Hjs) & Hjc & _); [by split; eauto|].
  pose proof (steps_ok _ _ Hsteps Hok) as (((_ & _ & Ht & _) & _) & ((_ & _ & Hwf & _) & _) & _).
  destruct (Ht _ _ Hj) as (_ & _ & Hst). rewrite Hjs, Hjc in Hst. destruct Hst as (x & [= <-] & ?).
  destruct (read_horizon_le (mgr s') Hwf) as [? _].
  split; [unfold transaction_state; by rewrite Hj; simpl; rewrite Hjs|]. split; [lia|]. split; [lia|].
  apply (poisoned_steps s); [done|]. destruct (poisoned (mgr s)) eqn:Hp; [done|].
  destruct Hok as (((_ & _ & Ht0 & _ & Hinj) & Hhs & _ & Hcov) & _). destruct (Hcov Hp) as [_ Hcov'].
  destruct (Ht0 _ _ Hi) as (_ & _ & Hst). rewrite Hs, Hc in Hst. destruct Hst as (y & [= <-] & ?).
  destruct (Hcov' e) as (p & Hin & Hpe); [lia|]. destruct (Hh p Hin).
  destruct (Hhs p Hin) as [_ Hpc]. rewrite Hpe in Hpc. by eapply Hinj.
Qed.

(** C40: Poisoning is final. Once the manager is poisoned, whatever happens
    next, every commit and every claim fails with [IncompleteCommit], and no
    commit joins the ledger. *)
Theorem poisoned_for_good s s' :
  poisoned (mgr s) = true → rtc step s s' →
  poisoned (mgr s') = true ∧
  (∀ now tx, start_commit now tx (mgr s') = Err IncompleteCommit) ∧
  (∀ tx claim es, record_claims tx claim es (mgr s') = Err IncompleteCommit) ∧
  (∀ tx k, record_key tx k (mgr s') = Err IncompleteCommit) ∧
  ledger s' ⊆ ledger s.
Proof.
  intros Hp Hs. pose proof (poisoned_steps _ _ Hs Hp) as Hp'.
  destruct (poisoned_refuses _ Hp') as (? & ? & ?). split_and!; try done. by apply poisoned_ledger.
Qed.

(** C38: The horizons. The horizon a collection runs at is at most the read
    horizon, which is at most the published epoch, the snapshot of every open
    transaction and the epoch of every pinned read; the history floor is at
    most all of these readers too. *)
Theorem horizons_below_readers s now :
  reachable s →
  let h := (collect_horizon now (mgr s)).1 in
  h ≤ read_horizon (mgr s) ∧ read_horizon (mgr s) ≤ published_epoch (mgr s) ∧
  (∀ k i, transactions (mgr s) !! k = Some i → is_open (state i) = true →
     read_horizon (mgr s) ≤ start_epoch i ∧ floor (history (mgr s)) ≤ start_epoch i) ∧
  (∀ e, e ∈ pins s → read_horizon (mgr s) ≤ e ∧ floor (history (mgr s)) ≤ e).
Proof.
  intros (_ & Hr & _)%reachable_ok h. pose proof Hr as (Hc & (_ & Hf & _) & _).
  pose proof Hc as (_ & _ & Hwf & _). destruct (read_horizon_le (mgr s) Hwf) as [Hp Hle].
  split; [subst h; simpl; case_match; lia|]. split; [done|]. split.
  - intros k i Hi Ho. destruct (reader_pos _ _ k i Hi Ho Hc). auto.
  - intros e He. pose proof (pin_pos s e Hr He). auto.
Qed.

(** The counter of open transactions. It is their exact number, so the
    idle gate opens exactly when no transaction is open, and none is while it
    is held. *)
Theorem counter_counts_open s :
  reachable s →
  active_counter (mgr s) = count_map open_tx (transactions (mgr s)) ∧
  (idle_gate (mgr s) = true ↔ ∀ k i, transactions (mgr s) !! k = Some i → is_open (state i) = false) ∧
  (gate s = true → ∀ k i, transactions (mgr s) !! k = Some i → is_open (state i) = false).
Proof.
  intros (_ & Hr & _)%reachable_ok. pose proof Hr as ((Hc & _) & _ & _ & Hg).
  assert (active_counter (mgr s) = 0 ↔ ∀ k i, transactions (mgr s) !! k = Some i → is_open (state i) = false) as Hz.
  { rewrite Hc. split.
    - intros H0 k i Hi. destruct (is_open (state i)) eqn:Ho; [|done].
      pose proof (count_map_pos open_tx _ k i Hi Ho). lia.
    - intros Hall. pose proof (count_map_nonneg open_tx (transactions (mgr s))).
      destruct (Z.eq_dec 0 (count_map open_tx (transactions (mgr s)))) as [|Hne]; [done|].
      destruct (count_map_exists open_tx (transactions (mgr s))) as (k & i & Hi & Ho); [lia|].
      unfold open_tx in Ho. rewrite (Hall k i Hi) in Ho. done. }
  split; [done|]. unfold idle_gate. rewrite Z.eqb_eq. split; [done|]. intros Hgt. apply Hz. auto.
Qed.

(** Holding commits off. While they are held off, every assigned epoch is
    published, no handle of a commit exists and no transaction is committing.
    *)
Theorem hold_sees_no_commit_in_progress s :
  reachable s → lock s = ByHold →
  published_epoch (mgr s) = assigned_epoch (mgr s) ∧ handles s = [] ∧
  ∀ k i, transactions (mgr s) !! k = Some i → state i ≠ Committing.
Proof.
  intros (((_ & _ & Ht & _) & Hhs & Hl & _) & _)%reachable_ok Hlock.
  unfold lock_ok in Hl. rewrite Hlock in Hl.
  assert (∀ x j, transactions (mgr s) !! x = Some j → state j ≠ Committing) as Hno.
  { intros x j Hj Hs. destruct (Ht _ _ Hj) as (_ & _ & Hst). rewrite Hs in Hst. destruct Hst as (y & _ & ?). lia. }
  split; [done|]. split; [|done]. destruct (handles s) as [|p hs]; [done|].
  destruct (Hhs p) as [(j & Hj & Hs) _]; [left|]. by destruct (Hno _ _ Hj).
Qed.

(** A commit taken back. [CommitGuard::abort] right after [start_commit]
    gives the manager as it was, but for the last time the history gave out.
    *)
Theorem take_back_undoes_start s now tx m' p :
  reachable s → start_commit now tx (mgr s) = Ok (m', p) → assigned_epoch (mgr s) < u64_max - 1 →
  commit_abort p m' = set_history (History.commit_time now (history (mgr s))).2 (mgr s).
Proof.
  intros (((Hb & _ & Ht & _) & _) & _)%reachable_ok (i & Hi & Ha & _ & _ & _ & -> & ->)%start_commit_Ok Hmax.
  destruct (Ht _ _ Hi) as (_ & _ & Hst). rewrite Ha in Hst. simpl in Hst.
  unfold commit_abort; simpl. rewrite delete_insert_id by done.
  rewrite (alter_insert _ _ (info_state Committing i)) by apply lookup_insert_eq.
  rewrite insert_insert_eq.
  assert (info_state Active (info_state Committing i) = i) as -> by (destruct i; simpl in *; by subst).
  rewrite insert_id by done. rewrite Z.add_simpl_r. by destruct (mgr s).
Qed.

(** Forgetting finished transactions. A garbage collection of the manager
    changes the outcome of no commit (its epoch and time included), of no
    claim of entities and of no claim of a key. *)
Theorem gc_changes_no_outcome s now tx claim es k :
  reachable s →
  handle_of (start_commit now tx (gc (mgr s)).1) = handle_of (start_commit now tx (mgr s)) ∧
  is_ok (record_claims tx claim es (gc (mgr s)).1) = is_ok (record_claims tx claim es (mgr s)) ∧
  is_ok (record_key tx k (gc (mgr s)).1) = is_ok (record_key tx k (mgr s)).
Proof.
  intros (((_ & _ & Ht & _) & _) & _)%reachable_ok. apply gc_same_outcome.
  intros id j Hj [e He]. destruct (Ht _ _ Hj) as (_ & _ & Hst). rewrite He in Hst.
  destruct (state j); simpl in Hst; auto; done.
Qed.

(** ** Reads in the past *)

Lemma reachable_history s : reachable s → History.wf (history (mgr s)).
Proof. by intros (_ & (_ & (_ & _ & ?) & _) & _)%reachable_ok. Qed.

Lemma epoch_at_Ok millis m e : epoch_at millis m = Ok e ↔ History.epoch_at millis (history m) = Ok e.
Proof. unfold epoch_at. case_match; naive_solver. Qed.

(** Time travel. A read at a time reads at an epoch exactly when history
    is on, the epoch is not before the floor, and it is that of the newest
    commit recorded at or before the time (a time before 1970 counting as 0).
    *)
Theorem read_at_time_finds_newest s millis e :
  reachable s →
  epoch_at millis (mgr s) = Ok e ↔
    History.is_on (history (mgr s)) = true ∧ floor (history (mgr s)) ≤ e ∧
    (∃ t, (e, t) ∈ times (history (mgr s)) ∧ t ≤ Z.max 0 millis) ∧
    ∀ e' t', (e', t') ∈ times (history (mgr s)) → t' ≤ Z.max 0 millis → e' ≤ e.
Proof.
  intros Hw%reachable_history. rewrite epoch_at_Ok, History.epoch_at_iff by done. unfold History.at_time.
  split.
  - intros (Hon & Hf & t & Hin & Ht & Hmax). split_and!; eauto. intros e' t' Hin' Ht'. by apply (Hmax (e', t')).
  - intros (Hon & Hf & (t & Hin & Ht) & Hmax). split_and!; try done. exists t. split_and!; try done.
    intros [e' t'] Hin' Ht'. by eapply Hmax.
Qed.

(** Retention. A read at a time within the retention window that succeeds
    before a collection reads at the same epoch after it. *)
Theorem retention_window_stays_readable s now w millis e :
  reachable s → retention (history (mgr s)) = Duration w → w ≤ u64_max →
  saturating_sub now w ≤ millis → epoch_at millis (mgr s) = Ok e →
  epoch_at millis (collect_horizon now (mgr s)).2 = Ok e.
Proof.
  intros Hw%reachable_history Hr Hmax Hwin He%epoch_at_Ok. apply epoch_at_Ok. simpl.
  apply History.epoch_at_collected; [done|]. split; [done|].
  destruct (History.retention_horizon now (history (mgr s))) as [start|] eqn:Hs.
  - pose proof (History.retention_horizon_window _ _ _ _ _ _ Hw Hr Hmax Hwin He Hs). lia.
  - apply History.epoch_at_iff in He as (Hon & _); [|done].
    unfold History.retention_horizon in Hs. by rewrite Hon, Hr in Hs.
Qed.

End properties.

(** ** A run of the manager

    A concrete engine and a concrete run of the transaction manager: three
    transactions, of which two commit and one commit fails. The theorems
    about reachable states are applied to it. *)
Open Scope Z_scope.

(** Change sets that record nothing and always apply. *)
#[local] Instance demo : Engine := {|
  HashableValue := Z;
  TransactionChanges := unit;
  ApplyError := unit;
  changes_new := λ _ _, tt;
  changes_commit := λ _ _, Ok tt;
  changes_rollback := λ _, Ok tt
|}.

Definition node (n : Z) : GraphEntity := mkEntity None (Node n).

Definition do_begin (level : IsolationLevel) (private : bool) (s : System) : System :=
  set_mgr (register level private (mgr s)).2 s.
Definition do_write (tx n : Z) (s : System) : System :=
  match record_write tx (node n) (mgr s) with Ok m' => set_mgr m' s | Err _ => s end.
Definition do_start (now tx : Z) (s : System) : System :=
  match transactions (mgr s) !! tx, start_commit now tx (mgr s) with
  | Some i, Ok (m', p) =>
      mkSystem m' (ByCommit p) (p :: handles s) (pins s) (gate s)
        (<[pub_epoch p := (tx, i)]> (ledger s)) (taken_back s)
  | _, _ => s
  end.
Definition do_written (s : System) : System := set_lock Unlocked s.
Definition do_complete (s : System) : System :=
  match last (handles s) with
  | Some p => end_handle p (complete_with p (Ok tt) (mgr s)).1 s
  | None => s
  end.
Definition do_drop (s : System) : System :=
  match last (handles s) with
  | Some p => end_handle p (publish_drop p (mgr s)) s
  | None => s
  end.

Lemma do_begin_reachable level private s : reachable s →
  gate s = false → closed (mgr s) = false → (next_transaction_id (mgr s) <? u64_max) = true →
  (active_counter (mgr s) <? u64_max) = true → reachable (do_begin level private s).
Proof. intros. bool_to_prop. eapply rtc_r; [done|]. by apply step_begin. Qed.

Lemma do_write_reachable tx n s : reachable s →
  is_ok (record_write tx (node n) (mgr s)) = true → reachable (do_write tx n s).
Proof.
  unfold do_write. intros Hr0 Hok. destruct (record_write tx (node n) (mgr s)) as [m'|] eqn:Hr; [|done].
  eapply rtc_r; [done|]. by eapply step_claim, op_claims.
Qed.

Lemma do_start_reachable now tx s : reachable s →
  lock s = Unlocked → bool_decide (tx ∈ taken_back s) = false →
  (assigned_epoch (mgr s) <? u64_max - 1) = true → is_ok (start_commit now tx (mgr s)) = true →
  reachable (do_start now tx s).
Proof.
  intros Hr0 Hl Ht Ha Hok. bool_to_prop. unfold do_start.
  destruct (start_commit now tx (mgr s)) as [[m' p]|] eqn:Hs; [|done].
  pose proof Hs as (i & Hi & _)%start_commit_Ok. rewrite Hi. eapply rtc_r; [done|]. by eapply step_start.
Qed.

Lemma do_written_reachable s : reachable s →
  match lock s with ByCommit _ => true | _ => false end = true → reachable (do_written s).
Proof. destruct (lock s) as [|p|] eqn:Hl; [done| |done]. intros Hr0 _. eapply rtc_r; [done|]. by eapply step_written. Qed.

Lemma do_complete_reachable s : reachable s →
  match last (handles s) with Some p => publish_turn p (mgr s) | None => false end = true →
  reachable (do_complete s).
Proof.
  unfold do_complete. destruct (last (handles s)) as [p|] eqn:Hl; [|done]. intros Hr0 Ht.
  eapply rtc_r; [done|]. apply step_complete; [|done]. apply last_Some in Hl as [l ->]. apply elem_of_app. right. left.
Qed.

Lemma do_drop_reachable s : reachable s → handles s ≠ [] → reachable (do_drop s).
Proof.
  unfold do_drop. intros Hr0 Hne. destruct (last (handles s)) as [p|] eqn:Hl; [|by apply last_None in Hl].
  eapply rtc_r; [done|]. apply step_drop. apply last_Some in Hl as [l ->]. apply elem_of_app. right. left.
Qed.

(** Transactions 2, 3 and 4 begin; 2 and 3 write. *)
Definition s_begun : System :=
  do_write 3 7 (do_write 2 1 (do_begin SnapshotIsolation true
    (do_begin Serializable false (do_begin SnapshotIsolation false initial)))).
(** Transaction 2 has its epoch and is written. *)
Definition s_written : System := do_written (do_start 10 2 s_begun).
(** Transaction 3 has its epoch too. *)
Definition s_both : System := do_written (do_start 20 3 s_written).
(** Transaction 2 is published. *)
Definition s_published : System := do_complete s_both.
(** Transaction 3's handle is dropped unfinished. *)
Definition s_failed : System := do_drop s_published.

Ltac run := vm_compute; reflexivity.

Lemma s_begun_reachable : reachable s_begun.
Proof.
  apply do_write_reachable; [apply do_write_reachable|run]; [|run].
  apply do_begin_reachable; [apply do_begin_reachable; [apply do_begin_reachable; [apply rtc_refl|run..]|run..]|run..].
Qed.

Lemma s_both_reachable : reachable s_both.
Proof.
  apply do_written_reachable; [|run]. apply do_start_reachable; [|run..].
  apply do_written_reachable; [|run]. apply do_start_reachable; [|run..]. apply s_begun_reachable.
Qed.

Lemma s_published_reachable : reachable s_published.
Proof. apply do_complete_reachable; [apply s_both_reachable|run]. Qed.

Lemma s_failed_reachable : reachable s_failed.
Proof. apply do_drop_reachable; [apply s_published_reachable|by vm_compute]. Qed.

(** ** The theorems on this run *)

(** The claims a commit of the ledger had. *)
Definition entry (e : Z) (s : System) : TransactionInfo :=
  match ledger s !! e with Some (_, i) => i | None => info_new 0 ReadCommitted tt false end.
(** A transaction's info. *)
Definition info (k : Z) (s : System) : TransactionInfo :=
  match transactions (mgr s) !! k with Some i => i | None => info_new 0 ReadCommitted tt false end.
Definition first_handle (s : System) : Publish :=
  match last (handles s) with Some p => p | None => mkPublish 0 0 None end.

Lemma first_committer_wins_witness :
  write_set (entry 2 s_both) ## write_set (entry 1 s_both) ∧
  read_set (entry 2 s_both) ## write_set (entry 1 s_both).
Proof.
  destruct (first_committer_wins s_both 1 2 2 3 (entry 1 s_both) (entry 2 s_both)) as (Hw & _ & _ & _ & Hr);
    [apply s_both_reachable|run..|]. split; [exact Hw|apply Hr; run].
Defined.

Lemma open_transactions_apart_witness : claims_apart (info 2 s_begun) (info 3 s_begun).
Proof.
  apply (open_transactions_apart s_begun 2 3); [apply s_begun_reachable|discriminate|run..].
Defined.

Lemma published_means_committed_witness :
  (state (info 2 s_published) = Committed ↔ 1 ≤ published_epoch (mgr s_published)) ∧
  (state (info 3 s_published) = Committing ↔ published_epoch (mgr s_published) < 2).
Proof.
  split.
  - eapply proj1. apply (published_means_committed s_published 2 (info 2 s_published)); [apply s_published_reachable|run..].
  - eapply proj2. apply (published_means_committed s_published 3 (info 3 s_published)); [apply s_published_reachable|run..].
Defined.

Lemma publish_in_order_witness :
  published_epoch (complete_with (first_handle s_both) (Ok tt) (mgr s_both)).1 = 1 ∧
  pub_transaction (first_handle s_both) = 2.
Proof.
  pose proof (publish_in_order s_both (first_handle s_both) s_both_reachable) as Hp.
  destruct (complete_with (first_handle s_both) (Ok tt) (mgr s_both)) as [m' r].
  destruct Hp as (_ & Hp & _); [|run..|].
  - apply (list_elem_of_lookup_2 _ 1). run.
  - split; [exact Hp|run].
Defined.

Lemma publish_progress_witness :
  ∃ p, p ∈ handles s_both ∧ pub_epoch p = published_epoch (mgr s_both) + 1 ∧
    publish_turn p (mgr s_both) = true ∧ pub_epoch p < unpublishable_from (mgr s_both).
Proof. apply (publish_progress s_both); [apply s_both_reachable|run..]. Defined.

Lemma incomplete_commit_stays_hidden_witness :
  transaction_state 3 (mgr s_failed) = Some Committing ∧ published_epoch (mgr s_failed) < 2 ∧
  read_horizon (mgr s_failed) < 2 ∧ poisoned (mgr s_failed) = true.
Proof.
  apply (incomplete_commit_stays_hidden s_failed s_failed 3 (info 3 s_failed) 2); [apply s_failed_reachable|run..| |apply rtc_refl].
  intros p Hp. vm_compute in Hp. by apply not_elem_of_nil in Hp.
Defined.

Lemma poisoned_for_good_witness : start_commit 30 4 (mgr s_failed) = Err IncompleteCommit.
Proof.
  destruct (poisoned_for_good s_failed s_failed) as (_ & Hs & _); [run|apply rtc_refl|]. apply Hs.
Defined.

Lemma horizons_below_readers_witness :
  read_horizon (mgr s_published) ≤ start_epoch (info 4 s_published).
Proof.
  destruct (horizons_below_readers s_published 50 s_published_reachable) as (_ & _ & Hr & _).
  apply (Hr 4); run.
Defined.

Lemma counter_counts_open_witness :
  active_counter (mgr s_published) = count_map open_tx (transactions (mgr s_published)).
Proof. exact (proj1 (counter_counts_open s_published s_published_reachable)). Defined.

(** Commits held off before any transaction. *)
Lemma hold_sees_no_commit_in_progress_witness :
  published_epoch (mgr (set_lock ByHold initial)) = assigned_epoch (mgr (set_lock ByHold initial)).
Proof.
  destruct (hold_sees_no_commit_in_progress (set_lock ByHold initial)) as [Hp _]; [|reflexivity|exact Hp].
  eapply rtc_once, step_hold; reflexivity.
Defined.

Lemma take_back_undoes_start_witness :
  match start_commit 10 2 (mgr s_begun) with
  | Ok (m', p) => commit_abort p m' = set_history (History.commit_time 10 (history (mgr s_begun))).2 (mgr s_begun)
  | Err _ => False
  end.
Proof.
  destruct (start_commit 10 2 (mgr s_begun)) as [[m' p]|] eqn:Hs; [|vm_compute in Hs; discriminate].
  apply (take_back_undoes_start s_begun 10 2); [apply s_begun_reachable|exact Hs|run].
Defined.

Lemma gc_changes_no_outcome_witness :
  handle_of (start_commit 30 4 (gc (mgr s_published)).1) = handle_of (start_commit 30 4 (mgr s_published)).
Proof.
  exact (proj1 (gc_changes_no_outcome s_published 30 4 Claim.Write [node 1]
    (mkKey None String.EmptyString [] []) s_published_reachable)).
Defined.

(** A savepoint, a claim after it, and the return to it. *)
Lemma savepoint_restores_claims_witness :
  match mark_claims 2 (mgr s_begun) with
  | Ok (n, m0) =>
      match record_delete 2 (node 5) m0 with
      | Ok m1 => ∃ m2 i2, restore_claims 2 n m1 = Ok m2 ∧ transactions m2 !! 2 = Some i2 ∧
                   claims_of i2 = claims_of (info 2 s_begun)
      | Err _ => False
      end
  | Err _ => False
  end.
Proof.
  destruct (mark_claims 2 (mgr s_begun)) as [[n m0]|] eqn:Hm; [|vm_compute in Hm; discriminate].
  destruct (record_delete 2 (node 5) m0) as [m1|] eqn:Hd.
  - destruct (savepoint_restores_claims 2 n (mgr s_begun) m0 m1) as (m2 & i & i2 & Hr & Hi & Hi2 & Hc & _).
    + exact Hm.
    + eapply rtc_once, after_claims. exact Hd.
    + exists m2, i2. split; [exact Hr|]. split; [exact Hi2|]. rewrite Hc. unfold info. by rewrite Hi.
  - vm_compute in Hm. injection Hm as <- <-. vm_compute in Hd. discriminate.
Defined.

(** History is kept for 100 ms from time 5 on; transaction 2 commits at time
    10. *)
Definition s_history : System :=
  do_complete (do_written (do_start 10 2
    (set_mgr (set_history_retention 5 (Duration 100) (mgr s_begun)) s_begun))).

Lemma s_history_reachable : reachable s_history.
Proof.
  apply do_complete_reachable; [|run]. apply do_written_reachable; [|run]. apply do_start_reachable; [|run..].
  eapply rtc_r; [apply s_begun_reachable|apply step_retention].
Qed.

Lemma read_at_time_finds_newest_witness :
  epoch_at 12 (mgr s_history) = Ok 1 ∧ floor (history (mgr s_history)) ≤ 1.
Proof.
  assert (epoch_at 12 (mgr s_history) = Ok 1) as He by run. split; [exact He|].
  apply (read_at_time_finds_newest s_history 12 1 s_history_reachable) in He as (_ & Hf & _). exact Hf.
Defined.

Lemma retention_window_stays_readable_witness :
  epoch_at 7 (collect_horizon 60 (mgr s_history)).2 = Ok 0.
Proof.
  apply (retention_window_stays_readable s_history 60 100 7 0); [apply s_history_reachable|run|by vm_compute|by vm_compute|run].
Defined.
