(* ===== verification/PageAlloc.v ===== *)
(** * The page allocator of the storage file

    Model of [PageRun] and [PageAllocator] of
    [src/crates/grafeo-storage/src/file/v3/alloc.rs]. The allocator's ordered
    map of gaps is the list of its entries in key order, kept in order by
    [btree_insert]. A checkpoint is a list of requests served one after the
    other; [pages_accounted] says that the pages of the runs in use, of the
    runs handed out and of the gaps never meet and leave none out. *)
From S2P Require Import Prelude.

(** ** Ordered maps

    A [BTreeMap] with integer keys as its entries in ascending order. *)

Fixpoint btree_insert {V} (k : Z) (v : V) (m : list (Z * V)) : list (Z * V) :=
  match m with
  | [] => [(k, v)]
  | (k', v') :: m' =>
      if k <? k' then (k, v) :: m
      else if k =? k' then (k, v) :: m'
      else (k', v') :: btree_insert k v m'
  end.

Definition btree_remove {V} (k : Z) (m : list (Z * V)) : list (Z * V) :=
  filter (λ e, e.1 ≠ k) m.

(** ** Page runs *)

Definition PAGE_SIZE : Z := 4096.
Definition DATA_START_PAGE : Z := 3.

Module PageRun.
Record t : Type := Run { first : Z; count : Z }.
Abbreviation PageRun := t.

Inductive run_error : Set := BeyondOffsets | BeyondPages.

Definition offset (r : PageRun) : result run_error Z :=
  ok_or (checked_mul64 (first r) PAGE_SIZE) BeyondOffsets.

Definition end_ (r : PageRun) : result run_error Z :=
  ok_or (checked_add64 (first r) (count r)) BeyondPages.

Definition for_bytes (len : Z) : Z := div_ceil len PAGE_SIZE.

(** The derived order: by first page, then by count. *)
Definition le (r s : PageRun) : Prop :=
  first r < first s ∨ (first r = first s ∧ count r ≤ count s).
#[export] Instance le_dec : RelDecision le := λ r s, ltac:(unfold le; apply _).
#[export] Instance le_total : Total le.
Proof. intros r s. unfold le. lia. Qed.
#[export] Instance le_trans : Transitive le.
Proof. intros r s u. unfold le. lia. Qed.
#[export] Instance run_eq_dec : EqDecision PageRun.
Proof. solve_decision. Defined.

(** The pages of a run, and the number of runs of a list that hold a page. *)
Definition holds (p : Z) (r : PageRun) : bool :=
  (first r <=? p) && (p <? first r + count r).
Fixpoint holders (p : Z) (runs : list PageRun) : nat :=
  match runs with
  | [] => 0
  | r :: runs => (if holds p r then 1 else 0) + holders p runs
  end.

(** What a [u64] pair can be. *)
Definition is_run (r : PageRun) : Prop := is_u64 (first r) ∧ is_u64 (count r).
End PageRun.
Import PageRun.

(** ** The allocator *)

Module PageAllocator.
Record PageAllocator : Type := Alloc {
  free : list (Z * Z);
  end_page : Z;
}.

Inductive alloc_error : Type :=
  | BelowDataStart (run : PageRun)
  | RunOverflows (run : PageRun)
  | Overlaps (run : PageRun) (end_ : Z)
  | CannotAllocate (count first : Z).

(** [first.checked_add(count)] that also fits in byte offsets. *)
Definition checked_end (first count : Z) : option Z :=
  e ← checked_add64 first count;
  _ ← checked_mul64 e PAGE_SIZE;
  Some e.

Fixpoint place_runs (runs : list PageRun) (free : list (Z * Z)) (end_ : Z)
  : result alloc_error PageAllocator :=
  match runs with
  | [] => Ok (Alloc free end_)
  | run :: runs =>
      if first run <? DATA_START_PAGE then Err (BelowDataStart run) else
      match checked_end (first run) (count run) with
      | None => Err (RunOverflows run)
      | Some run_end =>
          if first run <? end_ then Err (Overlaps run end_) else
          let free := if end_ <? first run
                      then btree_insert end_ (first run - end_) free else free in
          place_runs runs free run_end
      end
  end.

Definition from_used (used : list PageRun) : result alloc_error PageAllocator :=
  let runs := merge_sort PageRun.le (filter (λ r, 0 < count r) used) in
  place_runs runs [] DATA_START_PAGE.

(** Takes [count] pages from the front of the gap at [first]. *)
Definition take_front (a : PageAllocator) (first gap count : Z) : PageAllocator :=
  let free := btree_remove first (free a) in
  let free := if count <? gap
              then btree_insert (first + count) (gap - count) free else free in
  Alloc free (end_page a).

Definition allocate (count : Z) (a : PageAllocator)
  : PageAllocator * result alloc_error PageRun :=
  if count =? 0 then (a, Ok (Run 0 0)) else
  match find (λ g, count <=? g.2) (free a) with
  | Some (first, gap) => (take_front a first gap count, Ok (Run first count))
  | None =>
      match checked_end (end_page a) count with
      | None => (a, Err (CannotAllocate count (end_page a)))
      | Some e => (Alloc (free a) e, Ok (Run (end_page a) count))
      end
  end.

Definition allocate_before (count limit : Z) (a : PageAllocator)
  : PageAllocator * option PageRun :=
  if count =? 0 then (a, None) else
  match find (λ g, (count <=? g.2) && (g.1 + count <=? limit))
          (filter (λ g, g.1 < limit) (free a)) with
  | None => (a, None)
  | Some (first, gap) => (take_front a first gap count, Some (Run first count))
  end.

Definition free_runs (a : PageAllocator) : list PageRun :=
  (λ g, Run g.1 g.2) <$> free a.

(** A request of a checkpoint, and the runs a list of requests is given. *)
Inductive request : Type :=
  | Allocate (count : Z)
  | AllocateBefore (count limit : Z).

Definition is_request (q : request) : Prop :=
  match q with
  | Allocate n => is_u64 n
  | AllocateBefore n l => is_u64 n ∧ is_u64 l
  end.

Definition serve (q : request) (a : PageAllocator) : PageAllocator * option PageRun :=
  match q with
  | Allocate n =>
      let (a', r) := allocate n a in
      (a', match r with Ok run => Some run | Err _ => None end)
  | AllocateBefore n limit => allocate_before n limit a
  end.

Fixpoint serve_all (qs : list request) (a : PageAllocator)
  : PageAllocator * list PageRun :=
  match qs with
  | [] => (a, [])
  | q :: qs =>
      let (a', given) := serve q a in
      let (a'', runs) := serve_all qs a' in
      (a'', option_list given ++ runs)
  end.

(** Gaps are in order with used pages between them and before the end, and
    the end lies in the range of byte offsets. *)
Definition apart (g h : Z * Z) : Prop := g.1 + g.2 < h.1.
Record wf (a : PageAllocator) : Prop := {
  wf_apart : StronglySorted apart (free a);
  wf_gaps : Forall (λ g, DATA_START_PAGE ≤ g.1 ∧ 0 < g.2 ∧ g.1 + g.2 < end_page a) (free a);
  wf_end : DATA_START_PAGE ≤ end_page a ∧ end_page a * PAGE_SIZE ≤ u64_max;
}.
End PageAllocator.
Import PageAllocator.

(** ** Lemmas *)

Section holders.
Implicit Types (runs : list PageRun) (p : Z).

Lemma holders_app p runs1 runs2 :
  holders p (runs1 ++ runs2) = (holders p runs1 + holders p runs2)%nat.
Proof. induction runs1; simpl; lia. Qed.

#[export] Instance holders_proper p : Proper ((≡ₚ) ==> eq) (holders p).
Proof. intros l1 l2. induction 1; simpl; lia. Qed.

Lemma holders_pos p runs : (0 < holders p runs)%nat ↔ ∃ r, r ∈ runs ∧ holds p r = true.
Proof.
  induction runs as [|r runs IH]; simpl.
  - split; [lia|]. intros (r & Hr & _). by apply not_elem_of_nil in Hr.
  - destruct (holds p r) eqn:Hr; simpl.
    + split; [|lia]. intros _. exists r. split; [left|done].
    + rewrite IH. split; intros (s & Hs & Hp); exists s; split; try done; [by right|].
      apply elem_of_cons in Hs as [->|Hs]; congruence.
Qed.

Lemma holders_nonempty p runs : holders p (filter (λ r, 0 < count r) runs) = holders p runs.
Proof.
  induction runs as [|r runs IH]; [done|]. rewrite filter_cons.
  destruct (decide (0 < count r)); simpl; [lia|].
  replace (holds p r) with false; [done|]. unfold holds. symmetry.
  apply andb_false_iff. rewrite Z.leb_gt, Z.ltb_ge. lia.
Qed.

Lemma holders_above p runs b :
  Forall (λ r, b ≤ first r) runs → p < b → holders p runs = 0%nat.
Proof.
  induction 1 as [|r runs Hr _ IH]; intros Hp; simpl; [done|]. rewrite IH by done.
  unfold holds. destruct (first r <=? p) eqn:E; simpl; bool_to_prop; [lia|done].
Qed.

Lemma holders_below p runs b :
  Forall (λ r, first r + count r ≤ b) runs → b ≤ p → holders p runs = 0%nat.
Proof.
  induction 1 as [|r runs Hr _ IH]; intros Hp; simpl; [done|]. rewrite IH by done.
  unfold holds. destruct (p <? first r + count r) eqn:E; bool_to_prop; [lia|].
  by rewrite andb_false_r.
Qed.
End holders.

(** Decides which of the runs of a sum hold the page by cases on bounds. *)
Ltac holds_cases :=
  unfold holds; simpl; repeat case_match; bool_to_prop; try lia;
  repeat match goal with H : _ ∨ _ |- _ => destruct H; bool_to_prop end; lia.

Lemma holders_flatten p (l : list (Z * Z)) g1 g2 (l' : list (Z * Z)) :
  holders p ((λ g, Run g.1 g.2) <$> l ++ (g1, g2) :: l') =
  ((if holds p (Run g1 g2) then 1 else 0) + holders p ((λ g, Run g.1 g.2) <$> l ++ l'))%nat.
Proof. rewrite !fmap_app, !holders_app, fmap_cons. cbn [holders fst snd]. lia. Qed.

Section gaps.
Implicit Types (l : list (Z * Z)).

Definition gap_ok (lo hi : Z) (g : Z * Z) : Prop := lo ≤ g.1 ∧ 0 < g.2 ∧ g.1 + g.2 < hi.

Lemma apart_app_inv l1 g l2 :
  StronglySorted apart (l1 ++ g :: l2) →
  StronglySorted apart (l1 ++ l2) ∧ Forall (λ h, apart h g) l1 ∧ Forall (apart g) l2.
Proof.
  intros Hs. induction l1 as [|h l1 IH]; simpl in *.
  - inversion_clear Hs. auto.
  - inversion_clear Hs as [|? ? Hs' Hh]. destruct (IH Hs') as (H1 & H2 & H3).
    apply Forall_app in Hh as [Hh1 Hh2]. inversion_clear Hh2.
    split_and!; [|by constructor|done]. constructor; [done|]. by apply Forall_app.
Qed.

Lemma apart_app l1 g l2 :
  StronglySorted apart (l1 ++ l2) → Forall (λ h, apart h g) l1 → Forall (apart g) l2 →
  StronglySorted apart (l1 ++ g :: l2).
Proof.
  intros Hs H1 H2. induction H1 as [|h l1 Hh H1 IH]; simpl in *.
  - by constructor.
  - inversion_clear Hs as [|? ? Hs' Hall]. constructor; [by apply IH|].
    apply Forall_app in Hall as [??]. apply Forall_app. split; [done|]. by constructor.
Qed.

Lemma remove_mid l1 f g l2 :
  Forall (λ h, h.1 < f) l1 → Forall (λ h, f < h.1) l2 →
  btree_remove f (l1 ++ (f, g) :: l2) = l1 ++ l2.
Proof.
  intros H1 H2. unfold btree_remove. rewrite filter_app, filter_cons. simpl.
  rewrite decide_False by lia. f_equal; apply list_filter_id.
  - eapply Forall_impl; [exact H1|]. simpl. lia.
  - eapply Forall_impl; [exact H2|]. simpl. lia.
Qed.

Lemma insert_mid l1 (f g : Z) l2 :
  Forall (λ h, h.1 < f) l1 → Forall (λ h, f < h.1) l2 →
  btree_insert f g (l1 ++ l2) = l1 ++ (f, g) :: l2.
Proof.
  intros H1 H2. induction H1 as [|[k v] l1 Hh _ IH]; simpl in *.
  - inversion_clear H2 as [|[k v]]; [done|]. simpl in *.
    destruct (f <? k) eqn:E; [done|]. bool_to_prop; lia.
  - destruct (f <? k) eqn:E; bool_to_prop; [lia|].
    destruct (f =? k) eqn:E'; bool_to_prop; [lia|]. by rewrite IH.
Qed.
End gaps.

(** Taking the front of a gap keeps the allocator in order and moves exactly
    the pages of the new run out of the gaps. *)
Lemma take_front_ok a l1 f g l2 n :
  wf a → free a = l1 ++ (f, g) :: l2 → 0 < n ≤ g →
  wf (take_front a f g n) ∧
  ∀ p, holders p (free_runs a) =
       ((if holds p (Run f n) then 1 else 0) + holders p (free_runs (take_front a f g n)))%nat.
Proof.
  intros [Hs Hg He] Hfree Hn. rewrite Hfree in Hs, Hg.
  apply apart_app_inv in Hs as (Hs & H1 & H2).
  apply Forall_app in Hg as [Hg1 Hg2]. inversion_clear Hg2 as [|?? Hfg Hg2'].
  assert (Forall (λ h : Z * Z, h.1 < f) l1) as L1.
  { apply Forall_forall. intros h Hh. pose proof (proj1 (Forall_forall _ _) H1 h Hh) as A1.
    pose proof (proj1 (Forall_forall _ _) Hg1 h Hh) as A2. unfold apart in A1. simpl in *. lia. }
  assert (Forall (λ h : Z * Z, f + g < h.1) l2) as L2 by exact H2.
  assert (btree_remove f (free a) = l1 ++ l2) as Hrm.
  { rewrite Hfree. apply remove_mid; [done|]. eapply Forall_impl; [exact L2|]. simpl in *. lia. }
  unfold take_front, free_runs. rewrite Hrm. cbn [free end_page]. simpl in Hfg.
  destruct (n <? g) eqn:E; bool_to_prop.
  - rewrite insert_mid; [|eapply Forall_impl; [exact L1|]; simpl; lia
                         |eapply Forall_impl; [exact L2|]; simpl; lia].
    split.
    + split; cbn [free end_page]; [| |done].
      * apply apart_app; [done| |]; (eapply Forall_impl; [first [exact H1|exact H2]|]);
          unfold apart; simpl; lia.
      * apply Forall_app. split; [done|]. constructor; [simpl; lia|done].
    + intros p. rewrite Hfree, !holders_flatten. rewrite Nat.add_assoc. f_equal. holds_cases.
  - split.
    + split; cbn [free end_page]; [done| |done]. by apply Forall_app.
    + intros p. rewrite Hfree, holders_flatten. do 2 f_equal. unfold holds. simpl.
      replace g with n by lia. done.
Qed.

(** ** Accounting for pages *)

(** Every page from the data start to the end belongs to exactly one of the
    runs or gaps, and no other page to any. *)
Definition accounted (a : PageAllocator) (runs : list PageRun) : Prop :=
  ∀ p, (holders p runs + holders p (free_runs a))%nat =
       if (DATA_START_PAGE <=? p) && (p <? end_page a) then 1%nat else 0%nat.

Lemma checked_end_Some f n e :
  0 ≤ f + n → checked_end f n = Some e ↔ e = f + n ∧ (f + n) * PAGE_SIZE ≤ u64_max.
Proof.
  intros H0. unfold checked_end, checked_add64, checked_mul64, PAGE_SIZE. simpl.
  destruct (f + n <=? u64_max) eqn:E; simpl; bool_to_prop; [|split; [done|lia]].
  destruct ((f + n) * 4096 <=? u64_max) eqn:E'; simpl; bool_to_prop.
  - split; [intros [= <-]; lia|]. by intros [-> _].
  - split; [done|lia].
Qed.

Lemma extend_end_ok a n runs :
  wf a → 0 < n → (end_page a + n) * PAGE_SIZE ≤ u64_max → accounted a runs →
  let a' := Alloc (free a) (end_page a + n) in
  wf a' ∧ accounted a' (Run (end_page a) n :: runs).
Proof.
  intros [Hs Hg He] Hn Hle Hacc a'. split.
  - split; cbn [free end_page a']; [done| |lia].
    eapply Forall_impl; [exact Hg|]. simpl. lia.
  - intros p. specialize (Hacc p). cbn [holders a' end_page].
    replace (holders p (free_runs a')) with (holders p (free_runs a)) by done.
    destruct He. revert Hacc. holds_cases.
Qed.

Lemma take_front_accounted a f g n runs :
  wf a → (f, g) ∈ free a → 0 < n ≤ g → accounted a runs →
  wf (take_front a f g n) ∧ accounted (take_front a f g n) (Run f n :: runs).
Proof.
  intros Hwf (l1 & l2 & Hfree)%list_elem_of_split Hn Hacc.
  destruct (take_front_ok a l1 f g l2 n) as [Hwf' Hp]; [done..|]. split; [done|].
  intros p. specialize (Hacc p). rewrite Hp in Hacc. cbn [holders end_page take_front].
  cbn [end_page] in Hacc. unfold take_front in *. cbn [end_page] in *. lia.
Qed.

Lemma serve_accounted q a runs a' given :
  wf a → is_request q → accounted a runs → serve q a = (a', given) →
  wf a' ∧ accounted a' (option_list given ++ runs).
Proof.
  intros Hwf Hq Hacc Hs. destruct q as [n|n limit]; simpl in Hs, Hq.
  - unfold allocate in Hs. destruct (n =? 0) eqn:E0; bool_to_prop.
    { simplify_eq/=. split; [done|]. intros p. specialize (Hacc p). simpl.
      replace (holds p (Run 0 0)) with false; [done|]. holds_cases. }
    assert (0 < n) by (unfold is_u64 in Hq; lia).
    destruct (find _ _) as [[f g]|] eqn:Hf; simplify_eq/=.
    { apply find_elem in Hf as [Hin Hle]. simpl in Hle. bool_to_prop.
      by apply take_front_accounted. }
    destruct (checked_end _ _) as [e|] eqn:He; simplify_eq/=; [|done].
    apply checked_end_Some in He as [-> He]; [by apply extend_end_ok|].
    pose proof (wf_end _ Hwf). unfold DATA_START_PAGE in *. lia.
  - unfold allocate_before in Hs. destruct (n =? 0) eqn:E0; bool_to_prop; [by simplify_eq/=|].
    destruct (find _ _) as [[f g]|] eqn:Hf; simplify_eq/=; [|done].
    rewrite find_filter_and in Hf. apply find_elem in Hf as [Hin Hle]. simpl in Hle.
    bool_to_prop. apply take_front_accounted; try done. destruct Hq as [Hq _]. unfold is_u64 in Hq. lia.
Qed.

Lemma serve_all_accounted qs a runs :
  wf a → Forall is_request qs → accounted a runs →
  wf (serve_all qs a).1 ∧ accounted (serve_all qs a).1 ((serve_all qs a).2 ++ runs).
Proof.
  intros Hwf Hqs. revert a runs Hwf. induction Hqs as [|q qs Hq _ IH]; intros a runs Hwf Hacc; [done|].
  cbn [serve_all]. destruct (serve q a) as [a' given] eqn:Hs.
  apply serve_accounted with (runs := runs) in Hs as [Hwf' Hacc']; [|done..].
  destruct (IH a' _ Hwf' Hacc') as [Hwf'' Hacc'']. destruct (serve_all qs a') as [a'' rs].
  cbn [fst snd] in *. split; [done|]. intros p. rewrite <- Hacc''. rewrite !holders_app. lia.
Qed.

(** ** Building the allocator *)

Lemma place_run_ok a run runs :
  wf a → accounted a runs → 0 < count run → end_page a ≤ first run →
  (first run + count run) * PAGE_SIZE ≤ u64_max →
  let gaps := if end_page a <? first run
              then btree_insert (end_page a) (first run - end_page a) (free a) else free a in
  let a' := Alloc gaps (first run + count run) in
  wf a' ∧ accounted a' (run :: runs).
Proof.
  intros [Hs Hg He] Hacc Hc Hle Hov gaps a'.
  assert (gaps = free a ++ (if end_page a <? first run
                            then [(end_page a, first run - end_page a)] else [])) as Hgaps.
  { unfold gaps. destruct (end_page a <? first run); [|by rewrite app_nil_r].
    rewrite <- (app_nil_r (free a)) at 1. apply insert_mid; [|done].
    eapply Forall_impl; [exact Hg|]. simpl. lia. }
  split.
  - split; cbn [free end_page a']; [| |lia]; rewrite Hgaps; destruct (_ <? _) eqn:E;
      rewrite ?app_nil_r; bool_to_prop; try done.
    + apply StronglySorted_snoc; [done|]. eapply Forall_impl; [exact Hg|]. unfold apart. simpl. lia.
    + apply Forall_app. split; [|constructor; [simpl; lia|done]].
      eapply Forall_impl; [exact Hg|]. simpl. lia.
    + eapply Forall_impl; [exact Hg|]. simpl. lia.
  - intros p. specialize (Hacc p). unfold free_runs in *. cbn [free end_page a' holders].
    rewrite Hgaps, fmap_app, holders_app. destruct run as [f c]. cbn [first count] in *.
    destruct He. revert Hacc. destruct (end_page a <? f) eqn:E; bool_to_prop; simpl; holds_cases.
Qed.

Lemma place_runs_ok runs a0 seen a :
  wf a0 → accounted a0 seen → Forall (λ r, 0 < count r) runs →
  place_runs runs (free a0) (end_page a0) = Ok a →
  wf a ∧ accounted a (runs ++ seen).
Proof.
  intros Hwf Hacc Hc. revert a0 seen Hwf Hacc.
  induction Hc as [|run runs Hc _ IH]; intros [fr e] seen Hwf Hacc; cbn [place_runs free end_page].
  { intros [= <-]. done. }
  destruct (first run <? DATA_START_PAGE) eqn:E1; [done|]. bool_to_prop.
  destruct (checked_end _ _) as [e'|] eqn:E2; [|done].
  apply checked_end_Some in E2 as [-> E2]; [|unfold DATA_START_PAGE in *; lia].
  destruct (first run <? e) eqn:E3; [done|]. bool_to_prop. intros Hp.
  destruct (place_run_ok (Alloc fr e) run seen) as [Hwf' Hacc']; [done..|].
  destruct (IH _ _ Hwf' Hacc' Hp) as [Hwf'' Hacc'']. split; [done|].
  intros p. rewrite <- (Hacc'' p). rewrite !holders_app. cbn [holders]. lia.
Qed.

Lemma wf_empty : wf (Alloc [] DATA_START_PAGE) ∧ accounted (Alloc [] DATA_START_PAGE) [].
Proof.
  split; [split; [constructor|constructor|]; vm_compute; intuition congruence|].
  intros p. cbn. case_match; [|done]. bool_to_prop. lia.
Qed.

Lemma from_used_accounted used a : from_used used = Ok a → wf a ∧ accounted a used.
Proof.
  intros Hok. destruct wf_empty as [Hwf Hacc].
  apply (place_runs_ok _ (Alloc [] DATA_START_PAGE) []) in Hok as [Hwf' Hacc']; [|done|done|].
  - split; [done|]. intros p. rewrite <- (Hacc' p), app_nil_r. f_equal.
    rewrite merge_sort_Permutation. symmetry. apply holders_nonempty.
  - rewrite merge_sort_Permutation. apply Forall_filter_impl, Forall_true. auto.
Qed.

(** Which lists of runs the allocator accepts. *)
Definition in_range (r : PageRun) : Prop :=
  DATA_START_PAGE ≤ first r ∧ (first r + count r) * PAGE_SIZE ≤ u64_max.
Definition before (r s : PageRun) : Prop := first r + count r ≤ first s.

Lemma place_runs_accepts runs fr e :
  Forall (λ r, 0 < count r) runs →
  is_ok (place_runs runs fr e) = true ↔
  Forall in_range runs ∧ StronglySorted before runs ∧ Forall (λ r, e ≤ first r) runs.
Proof.
  intros Hc. revert fr e. induction Hc as [|run runs Hc _ IH]; intros fr e; cbn [place_runs].
  { split; [|done]. intros _. repeat constructor. }
  destruct (first run <? DATA_START_PAGE) eqn:E1; bool_to_prop.
  { split; [done|]. intros ([[? _] _]%Forall_cons & _). lia. }
  assert (0 ≤ first run + count run) by (unfold DATA_START_PAGE in *; lia).
  destruct (checked_end _ _) as [e'|] eqn:E2.
  2:{ split; [done|]. intros ([[_ Ho] _]%Forall_cons & _).
      assert (checked_end (first run) (count run) = Some (first run + count run)) as E by
        (by apply checked_end_Some). by rewrite E in E2. }
  apply checked_end_Some in E2 as [-> E2]; [|done].
  destruct (first run <? e) eqn:E3; bool_to_prop.
  { split; [done|]. intros (_ & _ & [? _]%Forall_cons). lia. }
  rewrite IH, !Forall_cons. split.
  - intros (Hr & Hs & Hb). split_and!; [done|done|by constructor|done|].
    eapply Forall_impl; [exact Hb|]. simpl. lia.
  - intros ((_ & Hr) & Hs & _ & Hb). apply StronglySorted_inv in Hs as [Hs1 Hs2]. done.
Qed.

Lemma sorted_disjoint runs :
  Forall (λ r, 0 < count r) runs → StronglySorted PageRun.le runs →
  StronglySorted before runs ↔ ∀ p, (holders p runs ≤ 1)%nat.
Proof.
  intros Hc Hs. split.
  - intros Hb p. clear Hs. induction Hb as [|r runs Hb IH Hr]; simpl; [lia|].
    apply Forall_cons in Hc as [Hcr Hc]. specialize (IH Hc).
    destruct (holds p r) eqn:E; [|lia]. rewrite (holders_above p runs (first r + count r)); [lia| |].
    + exact Hr.
    + unfold holds in E. bool_to_prop. lia.
  - intros Hp. induction Hs as [|r runs Hs IH Hr]; constructor.
    + apply Forall_cons in Hc as [_ Hc]. apply IH; [done|]. intros p. specialize (Hp p). simpl in Hp. lia.
    + apply Forall_cons in Hc as [Hcr Hc]. apply Forall_forall. intros s Hin. unfold before.
      destruct (decide (first r + count r ≤ first s)) as [|Hlt]; [done|exfalso].
      pose proof (proj1 (Forall_forall _ _) Hr s Hin) as Hle.
      pose proof (proj1 (Forall_forall _ _) Hc s Hin) as Hcs. simpl in Hcs.
      assert (0 < holders (first s) runs)%nat as H1.
      { apply holders_pos. exists s. split; [done|]. unfold holds.
        apply andb_true_iff. rewrite Z.leb_le, Z.ltb_lt. lia. }
      specialize (Hp (first s)). simpl in Hp. replace (holds (first s) r) with true in Hp; [lia|].
      symmetry. unfold holds. apply andb_true_iff. rewrite Z.leb_le, Z.ltb_lt. unfold PageRun.le in Hle. lia.
Qed.

(** ** Where a run is placed *)

(** The [n] pages from [q] are all free. *)
Definition free_at (a : PageAllocator) (q n : Z) : Prop :=
  ∀ p, q ≤ p < q + n → (0 < holders p (free_runs a))%nat.

Lemma free_page a p :
  (0 < holders p (free_runs a))%nat ↔ ∃ g, g ∈ free a ∧ g.1 ≤ p < g.1 + g.2.
Proof.
  rewrite holders_pos. unfold free_runs. split.
  - intros (r & (g & -> & Hg)%list_elem_of_fmap & Hp). exists g. split; [done|].
    unfold holds in Hp. simpl in Hp. bool_to_prop. lia.
  - intros (g & Hg & Hp). exists (Run g.1 g.2). split; [by apply (list_elem_of_fmap_2 (λ g, Run g.1 g.2))|].
    unfold holds. simpl. apply andb_true_iff. rewrite Z.leb_le, Z.ltb_lt. lia.
Qed.

(** Free pages in a row lie in one gap, because gaps never touch. *)
Lemma free_at_gap a q n :
  wf a → 0 < n → free_at a q n ↔ ∃ g, g ∈ free a ∧ g.1 ≤ q ∧ q + n ≤ g.1 + g.2.
Proof.
  intros Hwf Hn. split; [|intros (g & Hg & Hq) p Hp; apply free_page; exists g; split; [done|lia]].
  intros Hfree. destruct (proj1 (free_page a q) (Hfree q ltac:(lia))) as (g & Hg & Hq).
  exists g. split_and!; [done|lia|]. destruct (decide (q + n ≤ g.1 + g.2)) as [|Hlt]; [done|exfalso].
  destruct (proj1 (free_page a (g.1 + g.2)) (Hfree (g.1 + g.2) ltac:(lia))) as (h & Hh & Hp).
  apply list_elem_of_lookup in Hg as [i Hi]. apply list_elem_of_lookup in Hh as [j Hj].
  pose proof (StronglySorted_lookup apart _ i j g h (wf_apart _ Hwf)) as Hij.
  pose proof (StronglySorted_lookup apart _ j i h g (wf_apart _ Hwf)) as Hji. unfold apart in *.
  destruct (Nat.lt_trichotomy i j) as [?|[->|?]]; [specialize (Hij ltac:(done) Hi Hj)| |specialize (Hji ltac:(done) Hj Hi)];
    simplify_eq; lia.
Qed.

Lemma gap_size a g : wf a → g ∈ free a → 0 < g.2.
Proof. intros Hwf Hg. apply (proj1 (Forall_forall _ _) (wf_gaps _ Hwf)) in Hg. lia. Qed.

(** The gap found by a search that accepts every gap starting low enough. *)
Lemma find_lowest a n limit p :
  wf a → 0 < n → Forall (λ g, p g = (n <=? g.2) && (g.1 + n <=? limit)) (free a) →
  match find p (free a) with
  | Some (f, g) => (f, g) ∈ free a ∧ n ≤ g ∧ f + n ≤ limit ∧
                   ∀ q, free_at a q n → q + n ≤ limit → f ≤ q
  | None => ∀ q, free_at a q n → limit < q + n
  end.
Proof.
  intros Hwf Hn Hp. rewrite (find_ext_bool _ _ _ Hp). clear p Hp.
  destruct (find _ (free a)) as [[f g]|] eqn:Hf.
  - apply find_split in Hf as (l1 & l2 & Hl & Hfg & Hl1). simpl in Hfg. bool_to_prop.
    split_and!; [rewrite Hl, elem_of_app; right; left|done..|]. intros q Hq Hlim.
    apply free_at_gap in Hq as (h & Hh & Hq1 & Hq2); [|done..].
    destruct (decide (f ≤ h.1)) as [|Hlt]; [lia|]. exfalso.
    pose proof (wf_apart _ Hwf) as Hs. rewrite Hl in Hs, Hh. apply elem_of_app in Hh as [Hh|Hh].
    + apply (proj1 (Forall_forall _ _) Hl1) in Hh. simpl in Hh. bool_to_prop. destruct Hh; bool_to_prop; lia.
    + apply elem_of_cons in Hh as [->|Hh]; [simpl in Hlt; lia|].
      apply apart_app_inv in Hs as (_ & _ & Hs). apply (proj1 (Forall_forall _ _) Hs) in Hh.
      unfold apart in Hh. simpl in Hh. lia.
  - intros q Hq. apply free_at_gap in Hq as (h & Hh & Hq1 & Hq2); [|done..].
    destruct (decide (limit < q + n)) as [|Hge]; [done|exfalso].
    rewrite list_elem_of_In in Hh. apply (find_none _ _ Hf) in Hh. simpl in Hh. bool_to_prop.
    destruct Hh; bool_to_prop; lia.
Qed.

Lemma free_at_front a f g n : wf a → (f, g) ∈ free a → 0 < n ≤ g → free_at a f n.
Proof. intros Hwf Hin Hn. apply free_at_gap; [done|lia|]. exists (f, g). simpl. split; [done|lia]. Qed.

Lemma free_below_end a q n : wf a → 0 < n → free_at a q n → q + n ≤ end_page a.
Proof.
  intros Hwf Hn Hq. apply free_at_gap in Hq as (g & Hg & Hq); [|done..].
  apply (proj1 (Forall_forall _ _) (wf_gaps _ Hwf)) in Hg. lia.
Qed.

Lemma allocate_placed a n :
  wf a → 0 < n →
  match allocate n a with
  | (a', Ok r) => count r = n ∧
      ((free_at a (first r) n ∧ end_page a' = end_page a ∧
        ∀ q, free_at a q n → first r ≤ q) ∨
       (first r = end_page a ∧ end_page a' = end_page a + n ∧ ∀ q, ¬ free_at a q n))
  | (a', Err _) => a' = a ∧ (∀ q, ¬ free_at a q n) ∧ u64_max < (end_page a + n) * PAGE_SIZE
  end.
Proof.
  intros Hwf Hn. unfold allocate. destruct (n =? 0) eqn:E0; bool_to_prop; [lia|].
  pose proof (find_lowest a n (end_page a) (λ g, n <=? g.2) Hwf Hn) as Hf.
  assert (Forall (λ h, (n <=? h.2) = (n <=? h.2) && (h.1 + n <=? end_page a)) (free a)) as Hp.
  { eapply Forall_impl; [exact (wf_gaps _ Hwf)|]. intros h Hh. simpl in *.
    destruct (n <=? h.2) eqn:E; [|done]. bool_to_prop. symmetry. apply Z.leb_le. lia. }
  specialize (Hf Hp). destruct (find _ _) as [[f g]|].
  - destruct Hf as (Hin & Hg & Hlim & Hlow). cbn [first count end_page take_front].
    split; [done|]. left. split_and!; [by apply (free_at_front a f g)|done|].
    intros q Hq. apply Hlow; [done|]. by apply free_below_end.
  - assert (∀ q, ¬ free_at a q n) as Hnone.
    { intros q Hq. pose proof (Hf q Hq). apply free_below_end in Hq; [lia|done..]. }
    assert (0 ≤ end_page a + n) by (pose proof (wf_end _ Hwf); unfold DATA_START_PAGE in *; lia).
    destruct (checked_end (end_page a) n) as [e|] eqn:He; cbn [first count end_page].
    + apply checked_end_Some in He as [-> _]; [|done]. split; [done|]. by right.
    + split_and!; [done..|]. destruct (decide (u64_max < (end_page a + n) * PAGE_SIZE)) as [|Hle]; [done|].
      rewrite (proj2 (checked_end_Some (end_page a) n (end_page a + n) ltac:(done))) in He; [done|].
      split; [done|lia].
Qed.

Lemma allocate_before_placed a n limit :
  wf a → 0 < n →
  match allocate_before n limit a with
  | (a', Some r) => count r = n ∧ free_at a (first r) n ∧ first r + n ≤ limit ∧
      end_page a' = end_page a ∧ ∀ q, free_at a q n → q + n ≤ limit → first r ≤ q
  | (a', None) => a' = a ∧ ∀ q, free_at a q n → limit < q + n
  end.
Proof.
  intros Hwf Hn. unfold allocate_before. destruct (n =? 0) eqn:E0; bool_to_prop; [lia|].
  rewrite find_filter_and. cbn beta.
  pose proof (find_lowest a n limit
    (λ g, bool_decide (g.1 < limit) && ((n <=? g.2) && (g.1 + n <=? limit))) Hwf Hn) as Hf.
  assert (Forall (λ h, bool_decide (h.1 < limit) && ((n <=? h.2) && (h.1 + n <=? limit)) =
                       (n <=? h.2) && (h.1 + n <=? limit)) (free a)) as Hp.
  { apply Forall_forall. intros h _. destruct (bool_decide (h.1 < limit)) eqn:E; [done|].
    bool_to_prop. simpl. symmetry. apply andb_false_iff. right. apply Z.leb_gt. lia. }
  specialize (Hf Hp). destruct (find _ _) as [[f g]|].
  - destruct Hf as (Hin & Hg & Hlim & Hlow). cbn [first count end_page take_front].
    split_and!; try done. by apply (free_at_front a f g).
  - by split.
Qed.

Lemma sorted_fmap_runs l :
  StronglySorted apart l →
  StronglySorted (λ r s, first r + count r < first s) ((λ g, Run g.1 g.2) <$> l).
Proof.
  induction 1 as [|g l Hs IH Hg]; cbn [fmap list_fmap]; constructor; [done|].
  apply Forall_fmap. exact Hg.
Qed.

(** ** Properties *)

(** C10: Every page has one holder. From the runs in use, through any
    requests, each page from the data start to the end of the file is in
    exactly one of the used runs, the runs given out and the free runs, no
    page outside is in any, free runs never touch, and the file stays within
    the offsets of [u64]. *)
Theorem pages_accounted used qs a0 :
  from_used used = Ok a0 → Forall is_request qs →
  let (a, given) := serve_all qs a0 in
  (∀ p, (holders p used + holders p given + holders p (free_runs a))%nat =
        if (DATA_START_PAGE <=? p) && (p <? end_page a) then 1%nat else 0%nat) ∧
  StronglySorted (λ r s, first r + count r < first s) (free_runs a) ∧
  end_page a * PAGE_SIZE ≤ u64_max.
Proof.
  intros [Hwf Hacc]%from_used_accounted Hqs.
  destruct (serve_all_accounted qs a0 used Hwf Hqs Hacc) as [[Hs _ [_ He]] Hacc'].
  destruct (serve_all qs a0) as [a given]. cbn [fst snd] in *. split_and!; [|by apply sorted_fmap_runs|done].
  intros p. rewrite <- Hacc', holders_app. lia.
Qed.

(** What [from_used] accepts: it succeeds exactly when every run that is
    not empty starts at the data start or later and ends within the offsets of
    [u64], and no page is in two runs. *)
Theorem from_used_accepts used :
  is_ok (from_used used) = true ↔
  Forall (λ r, 0 < count r →
    DATA_START_PAGE ≤ first r ∧ (first r + count r) * PAGE_SIZE ≤ u64_max) used ∧
  ∀ p, (holders p used ≤ 1)%nat.
Proof.
  unfold from_used. set (runs := filter (λ r, 0 < count r) used).
  assert (Forall (λ r, 0 < count r) runs) as Hc by (apply Forall_filter_impl, Forall_true; auto).
  assert (Forall (λ r, 0 < count r) (merge_sort PageRun.le runs)) as Hc'
    by by rewrite merge_sort_Permutation.
  assert (StronglySorted PageRun.le (merge_sort PageRun.le runs)) as Hs
    by (apply StronglySorted_merge_sort; apply _).
  rewrite place_runs_accepts, sorted_disjoint by done.
  rewrite !(merge_sort_Permutation PageRun.le runs).
  assert (Forall in_range runs ↔ Forall (λ r, 0 < count r → in_range r) used) as ->
    by apply Forall_filter_impl.
  split.
  - intros (Hr & Hp & _). split; [done|]. intros p. specialize (Hp p).
    rewrite merge_sort_Permutation in Hp. by rewrite <- holders_nonempty.
  - intros (Hr & Hp). split_and!; [done| |].
    + intros p. rewrite merge_sort_Permutation. unfold runs. by rewrite holders_nonempty.
    + apply Forall_filter_impl. eapply Forall_impl; [exact Hr|]. intros r Hi Hx. exact (proj1 (Hi Hx)).
Qed.

(** Allocation takes the lowest fit. [allocate] gives the lowest free
    place of its size, grows the file at its end only when there is none, and
    fails, changing nothing, only when the file cannot grow; [allocate_before]
    gives the lowest free place that ends by the limit, or nothing when there
    is none. *)
Theorem allocation_is_lowest_fit a n limit :
  wf a → 0 < n →
  match allocate n a with
  | (a', Ok r) => count r = n ∧
      ((free_at a (first r) n ∧ end_page a' = end_page a ∧
        ∀ q, free_at a q n → first r ≤ q) ∨
       (first r = end_page a ∧ end_page a' = end_page a + n ∧ ∀ q, ¬ free_at a q n))
  | (a', Err _) => a' = a ∧ (∀ q, ¬ free_at a q n) ∧ u64_max < (end_page a + n) * PAGE_SIZE
  end ∧
  match allocate_before n limit a with
  | (a', Some r) => count r = n ∧ free_at a (first r) n ∧ first r + n ≤ limit ∧
      end_page a' = end_page a ∧ ∀ q, free_at a q n → q + n ≤ limit → first r ≤ q
  | (a', None) => a' = a ∧ ∀ q, free_at a q n → limit < q + n
  end.
Proof.
  intros Hwf Hn. split; [by apply allocate_placed|by apply allocate_before_placed].
Qed.

(** ** Witnesses *)

Definition sample_used : list PageRun := [Run 8 1; Run 3 2].
Definition sample_alloc : PageAllocator := Alloc [(5, 3)] 9.
Definition sample_requests : list request := [Allocate 2; Allocate 2; AllocateBefore 1 8].

Lemma pages_accounted_witness :
  from_used sample_used = Ok sample_alloc ∧
  serve_all sample_requests sample_alloc = (Alloc [] 11, [Run 5 2; Run 9 2; Run 7 1]) ∧
  ∀ p, (holders p sample_used + holders p [Run 5 2; Run 9 2; Run 7 1] + 0)%nat =
       if (DATA_START_PAGE <=? p) && (p <? 11) then 1%nat else 0%nat.
Proof.
  split; [reflexivity|]. split; [reflexivity|].
  assert (Forall is_request sample_requests) as Hq by (repeat constructor; vm_compute; intuition congruence).
  destruct (pages_accounted sample_used sample_requests sample_alloc eq_refl Hq) as [H _]. exact H.
Defined.

Lemma allocation_is_lowest_fit_witness :
  (allocate 2 sample_alloc).2 = Ok (Run 5 2) ∧
  (∀ q, free_at sample_alloc q 2 → 5 ≤ q) ∧
  (∀ q, free_at sample_alloc q 2 → 6 < q + 2).
Proof.
  assert (wf sample_alloc) as Hwf.
  { split; [repeat constructor|repeat constructor; vm_compute; congruence|]. vm_compute. intuition congruence. }
  split; [reflexivity|].
  destruct (allocation_is_lowest_fit sample_alloc 2 6 Hwf ltac:(lia)) as [H1 H2].
  split.
  - cbn in H1. destruct H1 as [_ [(_ & _ & H)|(Hbad & _)]]; [exact H|discriminate Hbad].
  - destruct H2 as [_ H]. exact H.
Defined.
