(* ===== verification/RunJoin.v ===== *)
(** * Joining two runs of adjacent edges

    Model of [Adjacent], [gallop], [entries_to], [intersect_runs] and
    [intersect_run_with_delta] of
    [src/crates/grafeo-core/src/graph/rowgroup/adjacency.rs]. The calls of the
    callback [found] are the list of the pairs it is given, in order. The two
    loops whose index does not move by one take fuel and return [None] when it
    runs out; [gallop_finds] and [intersect_runs_is_join] say how much fuel
    is enough and what comes back. *)
From S2P Require Import Prelude.

Record Adjacent : Type := mkAdjacent { edge_type : Z; other : Z; edge : Z }.

#[export] Instance Adjacent_eq_dec : EqDecision Adjacent.
Proof. solve_decision. Defined.

(** The derived order: by type, then other end, then edge. *)
Definition adj_le (a b : Adjacent) : Prop :=
  edge_type a < edge_type b ∨
  (edge_type a = edge_type b ∧
   (other a < other b ∨ (other a = other b ∧ edge a ≤ edge b))).
#[export] Instance adj_le_dec : RelDecision adj_le := λ a b, ltac:(unfold adj_le; apply _).
#[export] Instance adj_le_total : Total adj_le.
Proof. intros a b. unfold adj_le. lia. Qed.
#[export] Instance adj_le_trans : Transitive adj_le.
Proof. intros a b c. unfold adj_le. lia. Qed.

Definition SHORT_RUN : nat := 16.

(** [&l[start..end]] of a range inside the list. *)
Definition sub {A} (start end_ : nat) (l : list A) : list A := take (end_ - start) (drop start l).

(** ** Galloping *)

Definition below (o : Z) (e : Adjacent) : bool := other e <? o.
Definition reaches (o : Z) (e : Adjacent) : bool := other e =? o.

(** The doubling steps: the low end, the step and the probes they end with. *)
Fixpoint gallop_steps (fuel : nat) (sorted : list Adjacent) (low step probes : nat) (o : Z)
  : option (nat * nat * nat) :=
  match fuel with
  | O => None
  | S fuel =>
      match sorted !! (low + step)%nat with
      | Some e =>
          if below o e then gallop_steps fuel sorted (low + step) (step * 2) (probes + 1) o
          else Some (low, step, probes)
      | None => Some (low, step, probes)
      end
  end.

Definition gallop (fuel : nat) (sorted : list Adjacent) (from : nat) (o : Z)
  : option (nat * nat) :=
  '(low, step, probes) ← gallop_steps fuel sorted from 1 0 o;
  let high := Nat.min (low + step + 1) (length sorted) in
  let found := partition_point (below o) (sub low high sorted) in
  Some ((low + found)%nat, (probes + Nat.log2 step + 1)%nat).

Definition entries_to (run : list Adjacent) (o : Z) : list Adjacent :=
  let start := partition_point (below o) run in
  let count := partition_point (reaches o) (drop start run) in
  sub start (start + count) run.

(** ** Joins *)

Definition pair_up (swapped : bool) (short_entry long_entry : Adjacent) : Adjacent * Adjacent :=
  if swapped then (long_entry, short_entry) else (short_entry, long_entry).

Fixpoint join_loop (fuel : nat) (short long : list Adjacent) (swapped : bool)
    (from index probes : nat) (found : list (Adjacent * Adjacent))
  : option (list (Adjacent * Adjacent) * nat) :=
  match fuel with
  | O => None
  | S fuel' =>
      match short !! index with
      | None => Some (found, probes)
      | Some e =>
          let o := other e in
          let run := partition_point (reaches o) (drop index short) in
          '(start, reads) ← gallop (S (length long)) long from o;
          let count := partition_point (reaches o) (drop start long) in
          let pairs :=
            short_entry ← sub index (index + run) short;
            pair_up swapped short_entry <$> sub start (start + count) long in
          join_loop fuel' short long swapped start (index + run) (probes + reads + 1) (found ++ pairs)
      end
  end.

Definition intersect_runs (fuel : nat) (near far : list Adjacent)
  : option (list (Adjacent * Adjacent) * nat) :=
  let swapped := (length far <? length near)%nat in
  let '(short, long) := if swapped then (far, near) else (near, far) in
  join_loop fuel short long swapped 0 0 0 [].

Definition intersect_run_with_delta (run delta : list Adjacent)
  : list (Adjacent * Adjacent) * nat :=
  if (length run <? SHORT_RUN)%nat then
    (entry ← run; pair entry <$> filter (λ d, other d = other entry) delta,
     (length run * length delta)%nat)
  else
    (d ← delta; (λ entry, (entry, d)) <$> entries_to run (other d), length delta).

(** The join by comparing every pair. *)
Definition naive_join (near far : list Adjacent) : list (Adjacent * Adjacent) :=
  n ← near; pair n <$> filter (λ f, other f = other n) far.

Definition by_other (l : list Adjacent) : Prop :=
  StronglySorted (λ a b, other a ≤ other b) l.

(** ** Lemmas *)

Lemma lookup_sub {A} (l : list A) s e i :
  sub s e l !! i = if decide (i < e - s)%nat then l !! (s + i)%nat else None.
Proof.
  unfold sub. destruct (decide _).
  - by rewrite lookup_take_lt, lookup_drop by done.
  - by rewrite lookup_take_ge by lia.
Qed.

Lemma sub_length {A} (l : list A) s e : (e ≤ length l)%nat → length (sub s e l) = (e - s)%nat.
Proof. intros. unfold sub. rewrite length_take, length_drop. lia. Qed.

Lemma gallop_steps_spec fuel l low step probes o :
  (low ≤ length l < fuel + low)%nat → (0 < step)%nat →
  ∃ low' k,
    gallop_steps fuel l low step probes o = Some (low', (step * 2 ^ k)%nat, (probes + k)%nat) ∧
    (low' + step = low + step * 2 ^ k)%nat ∧ (low' ≤ length l)%nat ∧
    (k = O ∨ ∃ e, l !! low' = Some e ∧ below o e = true) ∧
    (∀ e, l !! (low' + step * 2 ^ k)%nat = Some e → below o e = false).
Proof.
  revert low step probes. induction fuel as [|fuel IH]; intros low step probes Hf Hs; [lia|].
  cbn [gallop_steps]. destruct (l !! (low + step)%nat) as [e|] eqn:He; [destruct (below o e) eqn:Hb|].
  - pose proof (lookup_lt_Some _ _ _ He).
    destruct (IH (low + step)%nat (step * 2)%nat (probes + 1)%nat) as (low' & k & -> & Hlow & Hle & Hk & Hat); [lia..|].
    exists low', (S k). rewrite Nat.pow_succ_r'. split_and!.
    + f_equal; f_equal; [f_equal|]; lia.
    + lia.
    + done.
    + right. destruct Hk as [->|Hk]; [|done]. exists e. simpl in Hlow. replace low' with (low + step)%nat by lia. done.
    + intros x. rewrite Nat.mul_assoc. apply Hat.
  - exists low, O. rewrite Nat.pow_0_r, Nat.mul_1_r, Nat.add_0_r. split_and!; [done|lia|lia|by left|].
    intros x. rewrite He. by intros [= <-].
  - exists low, O. rewrite Nat.pow_0_r, Nat.mul_1_r, Nat.add_0_r. split_and!; [done|lia|lia|by left|].
    intros x. by rewrite He.
Qed.

Lemma below_mono o l i j a b :
  by_other l → (i ≤ j)%nat → l !! i = Some a → l !! j = Some b → below o b = true → below o a = true.
Proof.
  intros Hs Hij Ha Hb Hbelow. destruct (decide (i = j)) as [->|Hne]; [by simplify_eq|].
  assert (other a ≤ other b) by (apply (StronglySorted_lookup _ l i j a b Hs); (done || lia)).
  unfold below in *. bool_to_prop. apply Z.ltb_lt. lia.
Qed.

Lemma gallop_spec fuel l from o :
  by_other l → (from ≤ length l < fuel + from)%nat →
  ∃ k, gallop fuel l from o =
         Some ((from + partition_point (below o) (drop from l))%nat, (2 * k + 1)%nat) ∧
       (k = O ∨ (2 ^ k ≤ length l - from)%nat).
Proof.
  intros Hs Hf. destruct (gallop_steps_spec fuel l from 1 0 o Hf) as (low & k & Hg & Hlow & Hle & Hk & Hat); [lia|].
  unfold gallop. rewrite Hg. cbn [mbind option_bind]. rewrite Nat.mul_1_l in *. exists k. split.
  2:{ destruct Hk as [->|(e & He & _)]; [by left|]. right. apply lookup_lt_Some in He. lia. }
  rewrite Nat.log2_pow2 by lia. f_equal. f_equal; [|lia].
  set (high := Nat.min (low + 2 ^ k + 1) (length l)). set (found := partition_point _ (sub low high l)).
  assert (1 ≤ 2 ^ k)%nat by (pose proof (Nat.pow_nonzero 2 k); lia).
  assert (found ≤ high - low)%nat as Hfound.
  { unfold found. etransitivity; [apply partition_point_le|]. rewrite sub_length; lia. }
  replace (partition_point _ (drop from l)) with (low + found - from)%nat; [lia|].
  symmetry. apply partition_point_unique.
  - rewrite length_drop. lia.
  - intros j x Hj Hlt. rewrite lookup_drop in Hj. destruct (decide (from + j < low)%nat) as [Hj'|Hj'].
    + destruct Hk as [->|(e & He & Hbe)]; [simpl in Hlow; lia|].
      apply (below_mono o l (from + j) low x e); (done || lia).
    + apply (partition_point_before (below o) (sub low high l) (from + j - low)); [|unfold found in Hlt; lia].
      rewrite lookup_sub, decide_True by lia. by replace (low + (from + j - low))%nat with (from + j)%nat by lia.
  - intros x. rewrite lookup_drop. replace (from + (low + found - from))%nat with (low + found)%nat by lia.
    intros Hx. destruct (decide (found < high - low)%nat) as [Hlt|Hge].
    { apply (partition_point_at (below o) (sub low high l)). by rewrite lookup_sub, decide_True. }
    pose proof (lookup_lt_Some _ _ _ Hx).
    destruct (lookup_lt_is_Some_2 l (low + 2 ^ k)) as [e He]; [lia|].
    specialize (Hat e He). rewrite (partition_point_before (below o) (sub low high l) (2 ^ k) e) in Hat; [done| |unfold found in *; lia].
    by rewrite lookup_sub, decide_True by lia.
Qed.

Lemma take_partition_filter o l :
  by_other l → Forall (λ e, o ≤ other e) l →
  take (partition_point (reaches o) l) l = filter (λ e, other e = o) l.
Proof.
  intros Hs Hge. induction Hs as [|x l Hs IH Hx]; [done|].
  apply Forall_cons in Hge as [Hox Hge]. cbn [partition_point]. unfold reaches at 1.
  destruct (other x =? o) eqn:E; bool_to_prop.
  - rewrite filter_cons_True by done. cbn [take]. f_equal. by apply IH.
  - rewrite filter_cons_False by done. symmetry. apply list_filter_none.
    eapply Forall_impl; [exact Hx|]. simpl. lia.
Qed.

Lemma entries_to_filter o l : by_other l → entries_to l o = filter (λ e, other e = o) l.
Proof.
  intros Hs. unfold entries_to, sub. rewrite Nat.add_comm, Nat.add_sub.
  induction Hs as [|x l Hs IH Hx]; [done|]. cbn [partition_point].
  destruct (below o x) eqn:E; unfold below in E; bool_to_prop.
  - rewrite filter_cons_False by lia. cbn [drop]. exact IH.
  - cbn [drop]. apply take_partition_filter; [by constructor|]. constructor; [done|].
    eapply Forall_impl; [exact Hx|]. simpl. lia.
Qed.

(** A search that starts past entries it would skip finds the same place. *)
Lemma partition_point_drop {A} (p : A → bool) (l : list A) from :
  (from ≤ length l)%nat → (∀ j x, l !! j = Some x → (j < from)%nat → p x = true) →
  (from + partition_point p (drop from l))%nat = partition_point p l.
Proof.
  revert from. induction l as [|x l IH]; intros [|from] Hle Hb; simpl in *; try done; [lia|].
  rewrite (Hb O x eq_refl) by lia. f_equal. apply IH; [lia|].
  intros j y Hj Hlt. apply (Hb (S j) y Hj). lia.
Qed.

(** ** The join loop *)

Definition join_from (swapped : bool) (short long : list Adjacent) : list (Adjacent * Adjacent) :=
  s ← short; pair_up swapped s <$> filter (λ l, other l = other s) long.

Lemma join_from_group swapped o group long :
  Forall (λ e, other e = o) group →
  join_from swapped group long =
  (s ← group; pair_up swapped s <$> filter (λ l, other l = o) long).
Proof.
  induction 1 as [|e group <- _ IH]; [done|]. unfold join_from in *. cbn [mbind list_bind].
  by f_equal.
Qed.

Lemma log2_bound k n : k = O ∨ (2 ^ k ≤ n)%nat → (k ≤ Nat.log2 n)%nat.
Proof.
  intros [->|H]; [lia|]. rewrite <- (Nat.log2_pow2 k) by lia. by apply Nat.log2_le_mono.
Qed.

Lemma group_spec (short : list Adjacent) index e :
  by_other short → short !! index = Some e →
  let run := partition_point (reaches (other e)) (drop index short) in
  (0 < run)%nat ∧ (index + run ≤ length short)%nat ∧
  Forall (λ s, other s = other e) (sub index (index + run) short) ∧
  Forall (λ s, other e < other s) (drop (index + run) short).
Proof.
  intros Hs He run. pose proof (drop_S _ _ _ He) as Hd.
  assert (0 < run)%nat as Hr.
  { unfold run. rewrite Hd. cbn [partition_point]. unfold reaches. rewrite Z.eqb_refl. lia. }
  pose proof (partition_point_le (reaches (other e)) (drop index short)) as Hle.
  rewrite length_drop in Hle. pose proof (lookup_lt_Some _ _ _ He).
  fold run in Hle. split_and!; [done|lia| |].
  - apply Forall_lookup. intros i x. rewrite lookup_sub. case_decide; [|done]. intros Hx.
    assert (reaches (other e) x = true) as Hreach.
    { apply (partition_point_before _ (drop index short) i); [by rewrite lookup_drop|fold run; lia]. }
    unfold reaches in Hreach. by bool_to_prop.
  - apply Forall_lookup. intros i x. rewrite lookup_drop. intros Hx.
    destruct (lookup_lt_is_Some_2 short (index + run)) as [y Hy]; [apply lookup_lt_Some in Hx; lia|].
    assert (reaches (other e) y = false) as Hreach.
    { apply (partition_point_at _ (drop index short)). fold run. by rewrite lookup_drop. }
    unfold reaches in Hreach. bool_to_prop.
    assert (other e ≤ other y) by (apply (StronglySorted_lookup _ _ index (index + run) e y Hs); (done || lia)).
    destruct i as [|i]; [rewrite Nat.add_0_r in Hx; simplify_eq; lia|].
    assert (other y ≤ other x) by (apply (StronglySorted_lookup _ _ (index + run) (index + run + S i) y x Hs); (done || lia)).
    lia.
Qed.

Lemma join_loop_spec fuel short long swapped from index probes found :
  by_other short → by_other long → (from ≤ length long)%nat →
  (index ≤ length short < fuel + index)%nat →
  (∀ j x s, long !! j = Some x → (j < from)%nat → s ∈ drop index short → other x < other s) →
  ∃ probes',
    join_loop fuel short long swapped from index probes found =
      Some (found ++ join_from swapped (drop index short) long, probes') ∧
    (probes' ≤ probes + (length short - index) * (2 * Nat.log2 (length long) + 2))%nat.
Proof.
  intros Hs Hl. revert from index probes found.
  induction fuel as [|fuel IH]; intros from index probes found Hfrom Hfuel Hbelow; [lia|].
  cbn [join_loop]. destruct (short !! index) as [e|] eqn:He.
  2:{ apply lookup_ge_None in He. rewrite drop_ge by lia. exists probes. rewrite app_nil_r. split; [done|lia]. }
  destruct (group_spec short index e Hs He) as (Hrun & Hle & Hgroup & Hrest).
  set (run := partition_point _ (drop index short)) in *.
  destruct (gallop_spec (S (length long)) long from (other e) Hl) as (k & -> & Hk); [lia|].
  rewrite partition_point_drop; [|done|].
  2:{ intros j x Hj Hlt. unfold below. apply Z.ltb_lt. apply (Hbelow j x e Hj Hlt).
      rewrite (drop_S _ _ _ He). left. }
  set (start := partition_point (below (other e)) long) in *. cbn [mbind option_bind].
  change (sub start (start + partition_point (reaches (other e)) (drop start long)) long)
    with (entries_to long (other e)). rewrite entries_to_filter by done.
  rewrite <- join_from_group by done.
  destruct (IH start (index + run)%nat (probes + (2 * k + 1) + 1)%nat
              (found ++ join_from swapped (sub index (index + run) short) long)) as (probes' & -> & Hp).
  - apply partition_point_le.
  - lia.
  - intros j x s Hj Hlt Hin. apply (proj1 (Forall_forall _ _) Hrest) in Hin.
    pose proof (partition_point_before (below (other e)) long j x Hj Hlt) as Hb.
    unfold below in Hb. bool_to_prop. lia.
  - exists probes'. split.
    + rewrite <- app_assoc. do 3 f_equal. unfold join_from. rewrite <- bind_app. f_equal.
      unfold sub. rewrite Nat.add_comm, Nat.add_sub, Nat.add_comm, <- drop_drop. apply take_drop.
    + assert (k ≤ Nat.log2 (length long))%nat by (apply log2_bound; destruct Hk; [by left|right; lia]). nia.
Qed.

(** ** The two orders of a join *)

Lemma eq_perm {A} (l k : list A) : l = k → l ≡ₚ k.
Proof. by intros ->. Qed.

Lemma bind_app_perm {A B} (l : list A) (g h : A → list B) :
  l ≫= (λ x, g x ++ h x) ≡ₚ (l ≫= g) ++ (l ≫= h).
Proof.
  induction l as [|x l IH]; [done|]. cbn [mbind list_bind]. rewrite IH.
  rewrite <- !app_assoc. f_equiv. rewrite !app_assoc. f_equiv. apply Permutation_app_comm.
Qed.

Lemma bind_filter_pair {A B} (R : B → Prop) `{!∀ y, Decision (R y)} (n : A) (l : list B) :
  l ≫= (λ f, if decide (R f) then [(n, f)] else []) = pair n <$> filter R l.
Proof.
  induction l as [|y l IH]; [done|]. cbn [mbind list_bind]. rewrite filter_cons, IH.
  by destruct (decide (R y)).
Qed.

Lemma join_exchange near far :
  naive_join near far ≡ₚ (f ← far; (λ n, (n, f)) <$> filter (λ n, other n = other f) near).
Proof.
  induction near as [|n near IH].
  { induction far as [|f far IH]; [done|]. cbn [mbind list_bind]. exact IH. }
  change (naive_join (n :: near) far)
    with ((pair n <$> filter (λ f, other f = other n) far) ++ naive_join near far).
  rewrite IH, <- bind_filter_pair, <- bind_app_perm.
  apply eq_perm, list_bind_ext; [|done]. intros f. rewrite filter_cons.
  destruct (decide (other f = other n)), (decide (other n = other f)); done || congruence.
Qed.

(** ** Properties *)

(** The galloping search ends and finds the place. With fuel for the
    entries left, it returns the first entry at or past the one it starts from
    that reaches the node, after at most 2 log n + 1 probes. *)
Theorem gallop_finds fuel sorted from o :
  by_other sorted → (from ≤ length sorted < fuel + from)%nat →
  ∃ found probes,
    gallop fuel sorted from o = Some (found, probes) ∧
    (from ≤ found ≤ length sorted)%nat ∧
    (∀ i e, sorted !! i = Some e → (from ≤ i)%nat → (i < found)%nat ↔ other e < o) ∧
    (probes ≤ 2 * Nat.log2 (length sorted - from) + 1)%nat.
Proof.
  intros Hs Hf. destruct (gallop_spec fuel sorted from o Hs Hf) as (k & -> & Hk).
  eexists _, _. split; [done|]. pose proof (partition_point_le (below o) (drop from sorted)) as Hle.
  rewrite length_drop in Hle. split_and!; [lia|lia| |apply log2_bound in Hk; lia].
  intros i e Hi Hge.
  assert (drop from sorted !! (i - from)%nat = Some e) as Hi'
    by (rewrite lookup_drop; by replace (from + (i - from))%nat with i by lia).
  pose proof (partition_point_sorted (below o) (λ a b, other a ≤ other b) (drop from sorted) (i - from) e
    (StronglySorted_drop _ _ _ Hs)) as Hp.
  rewrite <- Z.ltb_lt. fold (below o e). rewrite <- Hp; [lia| |done].
  intros a b Hab. unfold below. rewrite !Z.ltb_lt. lia.
Qed.

(** C15: The intersection of two sorted runs is their join. It returns, for
    the nodes both runs lead to, every pair of their entries, as the nested
    loops do (in the same order when the first run is the shorter), after at
    most m (2 log n + 2) probes for a shorter run of m entries and a longer
    one of n. *)
Theorem intersect_runs_is_join fuel near far :
  by_other near → by_other far → (Nat.min (length near) (length far) < fuel)%nat →
  ∃ pairs probes,
    intersect_runs fuel near far = Some (pairs, probes) ∧
    pairs ≡ₚ naive_join near far ∧
    ((length near ≤ length far)%nat → pairs = naive_join near far) ∧
    (probes ≤ Nat.min (length near) (length far) *
              (2 * Nat.log2 (Nat.max (length near) (length far)) + 2))%nat.
Proof.
  intros Hn Hf Hfuel. unfold intersect_runs. destruct (length far <? length near)%nat eqn:E.
  - apply Nat.ltb_lt in E.
    destruct (join_loop_spec fuel far near true 0 0 0 []) as (probes & -> & Hp); [done..|lia|lia|lia|].
    eexists _, _. split; [done|]. split_and!; [|lia|].
    + rewrite join_exchange. reflexivity.
    + rewrite Nat.min_r, Nat.max_l by lia. lia.
  - apply Nat.ltb_ge in E.
    destruct (join_loop_spec fuel near far false 0 0 0 []) as (probes & -> & Hp); [done..|lia|lia|lia|].
    eexists _, _. split; [done|]. split_and!; [done|done|].
    rewrite Nat.min_l, Nat.max_r by lia. lia.
Qed.

(** The join of a run with a delta in no order gives the same pairs. *)
Theorem intersect_run_with_delta_is_join run delta :
  by_other run → (intersect_run_with_delta run delta).1 ≡ₚ naive_join run delta.
Proof.
  intros Hs. unfold intersect_run_with_delta. destruct (_ <? _)%nat; [done|]. cbn [fst].
  rewrite join_exchange. apply eq_perm, list_bind_ext; [|done].
  intros d. by rewrite entries_to_filter.
Qed.

(** ** Witnesses *)

Definition sample_near : list Adjacent := [mkAdjacent 1 2 10; mkAdjacent 1 5 11; mkAdjacent 1 5 12].
Definition sample_far : list Adjacent :=
  [mkAdjacent 1 1 20; mkAdjacent 1 3 21; mkAdjacent 1 5 22; mkAdjacent 1 5 23; mkAdjacent 1 9 24].

Lemma sample_by_other : by_other sample_near ∧ by_other sample_far.
Proof. split; repeat constructor; vm_compute; congruence. Qed.

Lemma gallop_finds_witness :
  gallop 6 sample_far 0 5 = Some (2%nat, 3%nat) ∧ (3 ≤ 2 * Nat.log2 5 + 1)%nat.
Proof.
  split; [reflexivity|].
  destruct (gallop_finds 6 sample_far 0 5 (proj2 sample_by_other) ltac:(simpl; lia))
    as (found & probes & Hg & _ & _ & Hp).
  vm_compute in Hg. injection Hg as <- <-. exact Hp.
Defined.

Lemma intersect_runs_is_join_witness :
  (fst <$> intersect_runs 4 sample_near sample_far) = Some (naive_join sample_near sample_far) ∧
  length (naive_join sample_near sample_far) = 4%nat.
Proof.
  split; [|reflexivity].
  destruct (intersect_runs_is_join 4 sample_near sample_far (proj1 sample_by_other)
    (proj2 sample_by_other) ltac:(simpl; lia)) as (pairs & probes & Hi & _ & Heq & _).
  rewrite Hi. cbn [fmap option_fmap option_map fst]. f_equal. apply Heq. simpl. lia.
Defined.
