(* ===== verification/NodeAdjacency.v ===== *)
(** * A node row group's adjacency

    Model of [Adjacency] of
    [src/crates/grafeo-core/src/graph/rowgroup/adjacency.rs]: per row a list
    sorted by type, other end and edge, and a delta of the edges added since.
    The hash map of the deltas is a [gmap], the set of removed edges a [gset]
    and the rows with a delta the bitset of [Bitset.v]. Reads that return an
    iterator return the list it gives. *)
From S2P Require Import Prelude Bits Bitset RunJoin.

Definition MERGE_MIN : nat := 1024.

Record Adjacency : Type := mkAdjacency {
  offsets : list nat;
  sorted : list Adjacent;
  removed : gset Z;
  delta : gmap nat (list Adjacent);
  delta_rows : list Z;
  delta_len : nat;
}.

Module Adjacency.

Definition default_ : Adjacency := mkAdjacency [] [] ∅ ∅ [] 0.

(** ** Reads *)

Definition sorted_of (row : nat) (a : Adjacency) : list Adjacent :=
  match offsets a !! row, offsets a !! S row with
  | Some start, Some end_ => sub start end_ (sorted a)
  | _, _ => []
  end.

Definition is_removed (x : Adjacent) (a : Adjacency) : bool :=
  negb (bool_decide (removed a = ∅)) && bool_decide (edge x ∈ removed a).

Definition delta_of (row : nat) (a : Adjacency) : list Adjacent :=
  if Bitset.get row (delta_rows a) then default [] (delta a !! row) else [].

Definition of_ (row : nat) (a : Adjacency) : list Adjacent :=
  filter (λ x, is_removed x a = false) (sorted_of row a) ++ delta_of row a.

Definition of_type (row : nat) (t : Z) (a : Adjacency) : list Adjacent :=
  let l := sorted_of row a in
  let start := partition_point (λ x, edge_type x <? t) l in
  let end_ := partition_point (λ x, edge_type x <=? t) l in
  filter (λ x, is_removed x a = false) (sub start end_ l) ++
  filter (λ x, edge_type x = t) (delta_of row a).

Definition entries_of (row : nat) (a : Adjacency) : nat :=
  (length (sorted_of row a) + length (delta_of row a))%nat.

(** The iterator of [runs_of], which takes at least one entry a turn. *)
Fixpoint split_runs (fuel : nat) (rest : list Adjacent) : list (list Adjacent) :=
  match fuel, rest with
  | S fuel, x :: _ =>
      let end_ := partition_point (λ y, edge_type y <=? edge_type x) rest in
      take end_ rest :: split_runs fuel (drop end_ rest)
  | _, _ => []
  end.

Definition runs_of (row : nat) (a : Adjacency) : list (list Adjacent) :=
  let l := sorted_of row a in split_runs (length l) l.

Definition to_other (row : nat) (o : Z) (a : Adjacency) : list Adjacent :=
  filter (λ x, is_removed x a = false) (run ← runs_of row a; entries_to run o) ++
  filter (λ x, other x = o) (delta_of row a).

Definition last_sorted (a : Adjacency) : option Adjacent := last (sorted a).

(** [windows(2)] of the offsets, numbered, less the empty ones. *)
Definition sorted_rows (a : Adjacency) : list (nat * list Adjacent) :=
  let windows := zip (offsets a) (tail (offsets a)) in
  (λ w, (w.1, sub w.2.1 w.2.2 (sorted a))) <$>
    filter (λ w, (w.2.1 < w.2.2)%nat) (zip (seq 0 (length windows)) windows).

Definition sorted_len (a : Adjacency) : nat := length (sorted a).

Definition is_merged (a : Adjacency) : bool :=
  (delta_len a =? 0)%nat && bool_decide (removed a = ∅).

(** ** Loading *)

Definition push_sorted (row : nat) (l : list Adjacent) (a : Adjacency) : Adjacency :=
  let offs := match offsets a with [] => [O] | _ => offsets a end in
  let offs := offs ++ replicate (S row - length offs) (length (sorted a)) in
  let srt := sorted a ++ l in
  mkAdjacency (offs ++ [length srt]) srt (removed a) (delta a) (delta_rows a) (delta_len a).

Definition extend_last_sorted (l : list Adjacent) (a : Adjacency) : Adjacency :=
  let srt := sorted a ++ l in
  let offs := alter (λ _, length srt) (length (offsets a) - 1)%nat (offsets a) in
  mkAdjacency offs srt (removed a) (delta a) (delta_rows a) (delta_len a).

(** ** Writes *)

(** One turn of the loop of [merge]: the inner loop, which takes the smaller
    head of the kept and of the added entries, is the merge of two lists. *)
Definition merge_row (a : Adjacency)
    (acc : list nat * list Adjacent * gmap nat (list Adjacent)) (row : nat)
  : list nat * list Adjacent * gmap nat (list Adjacent) :=
  let '(offs, srt, dl) := acc in
  let added := merge_sort adj_le (default [] (dl !! row)) in
  let kept := filter (λ x, edge x ∉ removed a) (sorted_of row a) in
  let srt := srt ++ list_merge adj_le kept added in
  (offs ++ [length srt], srt, delete row dl).

Definition merge_rows (a : Adjacency) : nat :=
  Nat.max (length (offsets a) - 1) (max_list_with (λ p, S p.1) (map_to_list (delta a))).

Definition merge (a : Adjacency) : Adjacency :=
  let '(offs, srt, _) := foldl (merge_row a) ([O], [], delta a) (seq 0 (merge_rows a)) in
  mkAdjacency offs srt ∅ ∅ [] 0.

Definition push (row : nat) (x : Adjacent) (a : Adjacency) : Adjacency :=
  let a := mkAdjacency (offsets a) (sorted a) (removed a)
             (<[row := default [] (delta a !! row) ++ [x]]> (delta a))
             (Bitset.set row (delta_rows a)) (S (delta_len a)) in
  if (Nat.max MERGE_MIN (length (sorted a) / 2) <? delta_len a)%nat then merge a else a.

(** The index of the first entry of edge [e]. *)
Definition position (e : Z) (l : list Adjacent) : option nat :=
  fst <$> list_find (λ x, edge x = e) l.

Definition remove (row : nat) (e : Z) (a : Adjacency) : Adjacency :=
  let in_delta := l ← delta a !! row; i ← position e l; Some (l, i) in
  match in_delta with
  | Some (l, i) =>
      let l := vec_remove i l in
      if (length l =? 0)%nat
      then mkAdjacency (offsets a) (sorted a) (removed a) (delete row (delta a))
             (Bitset.clear row (delta_rows a)) (delta_len a - 1)
      else mkAdjacency (offsets a) (sorted a) (removed a) (<[row := l]> (delta a))
             (delta_rows a) (delta_len a - 1)
  | None =>
      if existsb (λ x, edge x =? e) (sorted_of row a)
      then mkAdjacency (offsets a) (sorted a) ({[e]} ∪ removed a) (delta a) (delta_rows a) (delta_len a)
      else a
  end.

Definition clear (row : nat) (a : Adjacency) : Adjacency :=
  let '(dl, rows, len) :=
    match delta a !! row with
    | Some l => (delete row (delta a), Bitset.clear row (delta_rows a), (delta_len a - length l)%nat)
    | None => (delta a, delta_rows a, delta_len a)
    end in
  let ids := edge <$> sorted_of row a in
  mkAdjacency (offsets a) (sorted a) (list_to_set ids ∪ removed a) dl rows len.

End Adjacency.

(** ** The layout of the sorted lists *)

(** The offsets of the lists [ls] laid out one after the other. *)
Definition offsets_of (ls : list (list Adjacent)) : list nat :=
  (λ r, length (concat (take r ls))) <$> seq 0 (S (length ls)).

Definition layout (a : Adjacency) (ls : list (list Adjacent)) : Prop :=
  sorted a = concat ls ∧ (offsets a = offsets_of ls ∨ (offsets a = [] ∧ ls = [])).

Lemma offsets_of_length ls : length (offsets_of ls) = S (length ls).
Proof. unfold offsets_of. by rewrite length_fmap, length_seq. Qed.

Lemma offsets_of_lookup ls r :
  offsets_of ls !! r = if decide (r ≤ length ls)%nat then Some (length (concat (take r ls))) else None.
Proof.
  unfold offsets_of. rewrite list_lookup_fmap. destruct (decide _).
  - by rewrite lookup_seq_lt by lia.
  - by rewrite lookup_seq_ge by lia.
Qed.

Lemma sub_concat (ls : list (list Adjacent)) r l :
  ls !! r = Some l → sub (length (concat (take r ls))) (length (concat (take (S r) ls))) (concat ls) = l.
Proof.
  intros Hl. rewrite (take_S_r _ _ _ Hl), concat_app, length_app. unfold sub.
  rewrite <- (take_drop_middle _ _ _ Hl) at 4. rewrite concat_app. cbn [concat].
  rewrite drop_app_length. rewrite app_nil_r. rewrite Nat.add_comm, Nat.add_sub. apply take_app_length.
Qed.

Lemma sorted_of_layout a ls row : layout a ls → Adjacency.sorted_of row a = default [] (ls !! row).
Proof.
  intros [Hs [Ho|[Ho ->]]]; unfold Adjacency.sorted_of; rewrite Ho; [|done].
  rewrite !offsets_of_lookup. destruct (ls !! row) as [l|] eqn:Hl.
  - pose proof (lookup_lt_Some _ _ _ Hl). rewrite !decide_True by lia.
    rewrite Hs. by apply sub_concat.
  - apply lookup_ge_None in Hl. case_decide; [|done]. by rewrite decide_False by lia.
Qed.

Lemma offsets_of_snoc ls l : offsets_of (ls ++ [l]) = offsets_of ls ++ [length (concat (ls ++ [l]))].
Proof.
  unfold offsets_of. rewrite length_app. cbn [length]. rewrite Nat.add_1_r, seq_S, fmap_app.
  f_equal.
  - apply list_fmap_ext. intros i r [-> Hr]%lookup_seq. rewrite take_app_le by lia. done.
  - cbn. by rewrite take_ge by (rewrite length_app; simpl; lia).
Qed.
