(* ===== verification/NodeAdjacencyProps.v ===== *)
(** * What a node row group's adjacency reads and keeps

    The adjacency of [NodeAdjacency.v] against a list of the edges of all rows:
    [adjacency_refines_edges] says that every sequence of pushes, removes,
    clears and merges leaves each row reading exactly the edges the list has
    of it, [typed_reads_are_filters] that the reads of one type and of one
    other end filter the row, and [load_restores_lists] that loading the
    sorted lists of a merged adjacency gives its reads back. *)
From S2P Require Import Prelude Bits Bitset RunJoin NodeAdjacency.
Import Adjacency.

(** ** Slices of a sorted list *)

Definition by_type (l : list Adjacent) : Prop :=
  StronglySorted (λ a b, edge_type a ≤ edge_type b) l.
Definition in_order (l : list Adjacent) : Prop := StronglySorted adj_le l.

Lemma StronglySorted_weaken {A} (R S : A → A → Prop) (l : list A) :
  (∀ x y, R x y → S x y) → StronglySorted R l → StronglySorted S l.
Proof. intros HRS. induction 1 as [|x l _ IH Hx]; constructor; [done|]. eapply Forall_impl; eauto. Qed.

Lemma in_order_by_type l : in_order l → by_type l.
Proof. apply StronglySorted_weaken. unfold adj_le. lia. Qed.

Lemma in_order_by_other t l : in_order l → Forall (λ x, edge_type x = t) l → by_other l.
Proof.
  induction 1 as [|x l Hs IH Hx]; intros Ht; constructor; apply Forall_cons in Ht as [Htx Ht].
  - by apply IH.
  - apply Forall_forall. intros y Hy. pose proof (proj1 (Forall_forall _ _) Hx y Hy) as Hle.
    pose proof (proj1 (Forall_forall _ _) Ht y Hy) as Hty. unfold adj_le in Hle. simpl in Hty. lia.
Qed.

(** The prefix a partition point ends, and the rest. *)
Lemma take_partition_type t l :
  by_type l → take (partition_point (λ x, edge_type x <=? t) l) l = filter (λ x, edge_type x ≤ t) l.
Proof.
  induction 1 as [|x l Hs IH Hx]; [done|]. cbn [partition_point].
  destruct (edge_type x <=? t) eqn:E; bool_to_prop.
  - rewrite filter_cons_True by done. cbn [take]. by rewrite IH.
  - rewrite filter_cons_False by lia. symmetry. apply list_filter_none.
    eapply Forall_impl; [exact Hx|]. simpl. lia.
Qed.

Lemma drop_partition_type t l :
  by_type l → drop (partition_point (λ x, edge_type x <=? t) l) l = filter (λ x, t < edge_type x) l.
Proof.
  induction 1 as [|x l Hs IH Hx]; [done|]. cbn [partition_point].
  destruct (edge_type x <=? t) eqn:E; bool_to_prop.
  - rewrite filter_cons_False by lia. exact IH.
  - rewrite filter_cons_True by lia. cbn [drop]. f_equal. symmetry. apply list_filter_id.
    eapply Forall_impl; [exact Hx|]. simpl. lia.
Qed.

Lemma type_slice t l :
  by_type l →
  sub (partition_point (λ x, edge_type x <? t) l) (partition_point (λ x, edge_type x <=? t) l) l =
  filter (λ x, edge_type x = t) l.
Proof.
  intros Hs. unfold sub. induction Hs as [|x l Hs IH Hx]; [done|]. cbn [partition_point].
  destruct (edge_type x <? t) eqn:E; bool_to_prop.
  - rewrite (proj2 (Z.leb_le _ _)) by lia. rewrite filter_cons_False by lia. exact IH.
  - rewrite Nat.sub_0_r. cbn [drop].
    pose proof (take_partition_type t (x :: l) ltac:(by constructor)) as Ht. cbn [partition_point] in Ht.
    rewrite Ht. apply list_filter_iff_Forall. constructor; [lia|].
    eapply Forall_impl; [exact Hx|]. simpl. lia.
Qed.

(** The runs of a sorted list are its entries, each of one type. *)
Lemma split_runs_spec fuel l :
  in_order l → (length l ≤ fuel)%nat →
  concat (split_runs fuel l) = l ∧ Forall by_other (split_runs fuel l).
Proof.
  revert l. induction fuel as [|fuel IH]; intros [|x l] Hs Hf; simpl in Hf; try lia; [done..|].
  cbn [split_runs]. set (n := partition_point _ (x :: l)).
  assert (0 < n)%nat as Hn by (unfold n; cbn [partition_point]; rewrite Z.leb_refl; lia).
  destruct (IH (drop n (x :: l))) as [Hc Hall].
  { by apply StronglySorted_drop. }
  { rewrite length_drop. simpl. lia. }
  split; [cbn [concat]; rewrite Hc; apply take_drop|]. constructor; [|done].
  pose proof (take_partition_type (edge_type x) (x :: l) (in_order_by_type _ Hs)) as Ht. fold n in Ht.
  apply (in_order_by_other (edge_type x)).
  - rewrite Ht. by apply StronglySorted_filter.
  - rewrite Ht. apply Forall_filter_impl. constructor; [done|].
    apply in_order_by_type in Hs. apply StronglySorted_inv in Hs as [_ Hx].
    eapply Forall_impl; [exact Hx|]. simpl. lia.
Qed.

Lemma bind_entries_to o runs :
  Forall by_other runs → (run ← runs; entries_to run o) = filter (λ x, other x = o) (concat runs).
Proof.
  induction 1 as [|run runs Hrun _ IH]; [done|]. cbn [mbind list_bind concat].
  by rewrite filter_app, entries_to_filter, IH.
Qed.

(** ** The invariant *)

Record wf (a : Adjacency) : Prop := {
  wf_layout : ∃ ls, layout a ls ∧ Forall in_order ls;
  wf_apart : ∀ r r' x x', x ∈ sorted_of r a → x' ∈ sorted_of r' a → edge x = edge x' → r = r';
  wf_bits : Bitset.wf (delta_rows a);
  wf_rows : ∀ r, Bitset.get r (delta_rows a) = bool_decide (is_Some (delta a !! r));
  wf_full : ∀ r l, delta a !! r = Some l → l ≠ [];
  wf_len : delta_len a = sum_list_with (λ p, length p.2) (map_to_list (delta a));
}.

Lemma is_removed_spec x a : is_removed x a = bool_decide (edge x ∈ removed a).
Proof.
  unfold is_removed. destruct (decide (removed a = ∅)) as [E|E].
  - rewrite (bool_decide_true (removed a = ∅)) by done. rewrite E. simpl.
    by rewrite bool_decide_false by set_solver.
  - by rewrite (bool_decide_false (removed a = ∅)).
Qed.

Lemma delta_of_lookup r a : wf a → delta_of r a = default [] (delta a !! r).
Proof.
  intros Hwf. unfold delta_of. rewrite (wf_rows _ Hwf). destruct (delta a !! r); [|done].
  by rewrite bool_decide_true.
Qed.

Lemma of_spec r a :
  wf a → of_ r a = filter (λ x, edge x ∉ removed a) (sorted_of r a) ++ default [] (delta a !! r).
Proof.
  intros Hwf. unfold of_. rewrite delta_of_lookup by done. f_equal. apply list_filter_iff.
  intros x. rewrite is_removed_spec. apply bool_decide_eq_false.
Qed.

Lemma sorted_of_in_order r a : wf a → in_order (sorted_of r a).
Proof.
  intros Hwf. destruct (wf_layout _ Hwf) as (ls & Hls & Hs). rewrite (sorted_of_layout a ls) by done.
  destruct (ls !! r) as [l|] eqn:Hl; simpl; [|constructor]. by apply (Forall_lookup_1 _ _ _ _ Hs Hl).
Qed.

Lemma wf_default : wf default_.
Proof.
  split; [exists []; split; [split; [done|by right]|constructor]|..].
  - intros r r' x x' Hx. by apply not_elem_of_nil in Hx.
  - constructor.
  - intros r. unfold default_. cbn [delta delta_rows]. rewrite lookup_empty.
    by rewrite bool_decide_false by (by intros []).
  - intros r l. unfold default_. cbn [delta]. by rewrite lookup_empty.
  - unfold default_. cbn [delta delta_len]. by rewrite map_to_list_empty.
Qed.

(** *** Sizes of the delta *)

Definition total (m : gmap nat (list Adjacent)) : nat :=
  sum_list_with (λ p, length p.2) (map_to_list m).

Lemma total_insert m r l : m !! r = None → total (<[r := l]> m) = (length l + total m)%nat.
Proof. intros Hr. unfold total. by rewrite map_to_list_insert. Qed.

Lemma total_delete m r l : m !! r = Some l → total m = (length l + total (delete r m))%nat.
Proof. intros Hr. rewrite <- (insert_delete_id m r l) at 1 by done. apply total_insert, lookup_delete_eq. Qed.

Lemma total_alter m r l : total (<[r := l]> m) = (length l + total (delete r m))%nat.
Proof. rewrite <- insert_delete_eq. apply total_insert, lookup_delete_eq. Qed.

Lemma total_old m r : (length (default [] (m !! r)) + total (delete r m))%nat = total m.
Proof. destruct (m !! r) as [l|] eqn:E; simpl; [by rewrite (total_delete m r l)|by rewrite delete_id]. Qed.

(** ** Merging *)

Definition merged_row (a : Adjacency) (r : nat) : list Adjacent :=
  list_merge adj_le (filter (λ x, edge x ∉ removed a) (sorted_of r a))
    (merge_sort adj_le (default [] (delta a !! r))).

Lemma merge_loop a n :
  ∃ dl, foldl (merge_row a) ([O], [], delta a) (seq 0 n) =
          (offsets_of (merged_row a <$> seq 0 n), concat (merged_row a <$> seq 0 n), dl) ∧
        ∀ r, (n ≤ r)%nat → dl !! r = delta a !! r.
Proof.
  induction n as [|n IH]; [by exists (delta a)|]. destruct IH as (dl & Hfold & Hdl).
  rewrite seq_S, foldl_app, Hfold, fmap_app. cbn [foldl merge_row Nat.add fmap list_fmap].
  rewrite (Hdl n) by lia. fold (merged_row a n). exists (delete n dl). split.
  - rewrite offsets_of_snoc, concat_app. cbn [concat]. by rewrite app_nil_r.
  - intros r Hr. rewrite lookup_delete_ne by lia. apply Hdl. lia.
Qed.

Lemma layout_beyond a ls r :
  layout a ls → (length (offsets a) - 1 ≤ r)%nat → ls !! r = None.
Proof.
  intros [_ [Ho|[_ ->]]] Hr; [|done]. rewrite Ho, offsets_of_length in Hr. apply lookup_ge_None. lia.
Qed.

Lemma max_list_with_elem_of_le {A} (f : A → nat) (l : list A) x :
  x ∈ l → (f x ≤ max_list_with f l)%nat.
Proof. induction 1; simpl; lia. Qed.

Lemma merged_row_beyond a r : wf a → (merge_rows a ≤ r)%nat → merged_row a r = [].
Proof.
  intros Hwf Hr. unfold merge_rows in Hr. unfold merged_row.
  destruct (wf_layout _ Hwf) as (ls & Hls & _).
  rewrite (sorted_of_layout a ls), (layout_beyond a ls) by (done || lia).
  destruct (delta a !! r) as [l|] eqn:Hl; [|done]. exfalso.
  apply elem_of_map_to_list in Hl.
  pose proof (max_list_with_elem_of_le (λ p, S p.1) _ _ Hl). simpl in *. lia.
Qed.

Lemma merge_shape a :
  wf a → layout (merge a) (merged_row a <$> seq 0 (merge_rows a)) ∧
         removed (merge a) = ∅ ∧ delta (merge a) = ∅ ∧ delta_rows (merge a) = [] ∧ delta_len (merge a) = O.
Proof.
  intros Hwf. unfold merge. destruct (merge_loop a (merge_rows a)) as (dl & -> & _). cbn.
  split; [|done]. split; [done|]. by left.
Qed.

Lemma merge_sorted_of a r : wf a → sorted_of r (merge a) = merged_row a r.
Proof.
  intros Hwf. destruct (merge_shape a Hwf) as [Hl _]. rewrite (sorted_of_layout _ _ r Hl).
  rewrite list_lookup_fmap. destruct (decide (r < merge_rows a)%nat).
  - by rewrite lookup_seq_lt.
  - rewrite lookup_seq_ge by lia. simpl. symmetry. apply merged_row_beyond; [done|lia].
Qed.

Lemma merged_row_of a r : wf a → merged_row a r ≡ₚ of_ r a.
Proof.
  intros Hwf. rewrite of_spec by done. unfold merged_row. rewrite merge_Permutation.
  by rewrite merge_sort_Permutation.
Qed.

Lemma merged_row_in_order a r : wf a → in_order (merged_row a r).
Proof.
  intros Hwf. apply Sorted_StronglySorted; [apply _|]. apply Sorted_list_merge; [apply _|..].
  - apply StronglySorted_Sorted, StronglySorted_filter, sorted_of_in_order, Hwf.
  - apply Sorted_merge_sort, _.
Qed.

Lemma merge_wf a :
  wf a → (∀ r r' x x', x ∈ of_ r a → x' ∈ of_ r' a → edge x = edge x' → r = r') → wf (merge a).
Proof.
  intros Hwf Hvis. destruct (merge_shape a Hwf) as (Hl & Hr & Hd & Hb & Hn). split.
  - eexists. split; [exact Hl|]. apply Forall_fmap, Forall_true. intros r. by apply merged_row_in_order.
  - intros r r' x x'. rewrite !merge_sorted_of by done. rewrite !merged_row_of by done. apply Hvis.
  - rewrite Hb. constructor.
  - intros r. rewrite Hb, Hd, lookup_empty. by rewrite bool_decide_false by (by intros []).
  - intros r l. by rewrite Hd, lookup_empty.
  - by rewrite Hn, Hd, map_to_list_empty.
Qed.

Lemma merge_of a r : wf a → wf (merge a) → of_ r (merge a) ≡ₚ of_ r a.
Proof.
  intros Hwf Hwf'. rewrite (of_spec r (merge a)) by done.
  destruct (merge_shape a Hwf) as (_ & -> & -> & _). rewrite lookup_empty, app_nil_r.
  rewrite list_filter_id by (apply Forall_true; set_solver).
  rewrite merge_sorted_of by done. by apply merged_row_of.
Qed.

(** ** The abstract adjacency: the edges of every row *)

Abbreviation edges := (list (nat * Adjacent)).
Definition row_of (r : nat) (s : edges) : list Adjacent := snd <$> filter (λ p, p.1 = r) s.
Definition ids (s : edges) : list Z := (λ p, edge p.2) <$> s.

Inductive op : Type :=
  | Push (row : nat) (x : Adjacent)
  | Remove (row : nat) (e : Z)
  | Clear (row : nat)
  | Merge.

Definition apply_op (o : op) (a : Adjacency) : Adjacency :=
  match o with
  | Push r x => push r x a
  | Remove r e => remove r e a
  | Clear r => clear r a
  | Merge => merge a
  end.

Definition spec_op (o : op) (s : edges) : edges :=
  match o with
  | Push r x => (r, x) :: s
  | Remove r e => filter (λ p, ¬ (p.1 = r ∧ edge p.2 = e)) s
  | Clear r => filter (λ p, p.1 ≠ r) s
  | Merge => s
  end.

(** An edge is pushed to one row at a time. *)
Fixpoint admissible (ops : list op) (s : edges) : Prop :=
  match ops with
  | [] => True
  | o :: ops =>
      match o with Push _ x => edge x ∉ ids s | _ => True end ∧
      admissible ops (spec_op o s)
  end.

Definition apply_all (ops : list op) (a : Adjacency) : Adjacency :=
  foldl (λ a o, apply_op o a) a ops.
Definition spec_all (ops : list op) (s : edges) : edges := foldl (λ s o, spec_op o s) s ops.

Record refines (a : Adjacency) (s : edges) : Prop := {
  ref_wf : wf a;
  ref_ids : NoDup (ids s);
  ref_rows : ∀ r, of_ r a ≡ₚ row_of r s;
}.

Lemma elem_row_of r s x : x ∈ row_of r s ↔ (r, x) ∈ s.
Proof.
  unfold row_of. rewrite list_elem_of_fmap. setoid_rewrite list_elem_of_filter. split.
  - by intros ([r' x'] & -> & <- & ?).
  - intros Hx. by exists (r, x).
Qed.

Lemma NoDup_fmap_elem {A B} (f : A → B) (l : list A) x y :
  NoDup (f <$> l) → x ∈ l → y ∈ l → f x = f y → x = y.
Proof.
  intros Hnd Hx Hy Hf. apply list_elem_of_lookup in Hx as [i Hi]. apply list_elem_of_lookup in Hy as [j Hj].
  assert (i = j) as <-; [|congruence].
  apply (NoDup_lookup (f <$> l) i j (f x)); [done|..]; rewrite list_lookup_fmap; [by rewrite Hi|by rewrite Hj, Hf].
Qed.

Lemma NoDup_fmap_filter {A B} (f : A → B) (P : A → Prop) `{!∀ x, Decision (P x)} (l : list A) :
  NoDup (f <$> l) → NoDup (f <$> filter P l).
Proof.
  induction l as [|x l IH]; [done|]. cbn [fmap list_fmap]. rewrite NoDup_cons. intros [Hx Hl].
  rewrite filter_cons. case_decide; [|by apply IH]. cbn [fmap list_fmap]. rewrite NoDup_cons.
  split; [|by apply IH]. intros Hin. destruct Hx. apply list_elem_of_fmap in Hin as (y & -> & Hy).
  apply list_elem_of_filter in Hy as [_ Hy]. by apply list_elem_of_fmap_2.
Qed.

Lemma visible_apart a s r r' x x' :
  refines a s → x ∈ of_ r a → x' ∈ of_ r' a → edge x = edge x' → r = r'.
Proof.
  intros [_ Hnd Hr]. rewrite !Hr, !elem_row_of. intros Hx Hx' He.
  pose proof (NoDup_fmap_elem (λ p : nat * Adjacent, edge p.2) s (r, x) (r', x') Hnd Hx Hx' He). congruence.
Qed.

Lemma row_ids_unique a s r : refines a s → NoDup (edge <$> of_ r a).
Proof.
  intros [_ Hnd Hr]. rewrite Hr. unfold row_of. rewrite <- list_fmap_compose.
  by apply (NoDup_fmap_filter (λ p : nat * Adjacent, edge p.2)).
Qed.

Lemma row_of_cons r r' x s : row_of r' ((r, x) :: s) = if decide (r = r') then x :: row_of r' s else row_of r' s.
Proof. unfold row_of. rewrite filter_cons. simpl. by case_decide. Qed.

Lemma row_of_remove r e s r' :
  row_of r' (filter (λ p, ¬ (p.1 = r ∧ edge p.2 = e)) s) =
  filter (λ x, ¬ (r' = r ∧ edge x = e)) (row_of r' s).
Proof.
  induction s as [|[r0 x] s IH]; [done|]. rewrite row_of_cons.
  destruct (decide (r0 = r')) as [->|Hne].
  - destruct (decide (r' = r ∧ edge x = e)) as [Hd|Hd].
    + rewrite !filter_cons_False by (simpl; tauto). exact IH.
    + rewrite !filter_cons_True by done. rewrite row_of_cons, decide_True by done. by rewrite IH.
  - destruct (decide (r0 = r ∧ edge x = e)) as [Hd|Hd].
    + rewrite filter_cons_False by (simpl; tauto). exact IH.
    + rewrite filter_cons_True by done. by rewrite row_of_cons, decide_False by done.
Qed.

Lemma row_of_clear r s r' :
  row_of r' (filter (λ p, p.1 ≠ r) s) = if decide (r' = r) then [] else row_of r' s.
Proof.
  induction s as [|[r0 x] s IH]; [by case_decide|]. rewrite row_of_cons.
  destruct (decide (r0 = r)) as [->|Hr].
  - rewrite filter_cons_False by (simpl; tauto). rewrite IH.
    destruct (decide (r' = r)), (decide (r = r')); congruence.
  - rewrite filter_cons_True by done. rewrite row_of_cons, IH.
    destruct (decide (r' = r)), (decide (r0 = r')); congruence.
Qed.

(** ** The steps *)

Lemma merge_refines a s : refines a s → refines (merge a) s.
Proof.
  intros Href. pose proof (ref_wf _ _ Href) as Hwf.
  assert (wf (merge a)) as Hwf'.
  { apply merge_wf; [done|]. intros r r' x x'. by apply (visible_apart a s). }
  split; [done|apply Href|]. intros r. rewrite merge_of by done. apply Href.
Qed.

Lemma push_delta_refines a s r x :
  refines a s → edge x ∉ ids s →
  refines (mkAdjacency (offsets a) (sorted a) (removed a)
             (<[r := default [] (delta a !! r) ++ [x]]> (delta a))
             (Bitset.set r (delta_rows a)) (S (delta_len a))) ((r, x) :: s).
Proof.
  intros [Hwf Hnd Hr] Hx. set (a' := mkAdjacency _ _ _ _ _ _).
  assert (wf a') as Hwf'.
  { destruct Hwf as [Hl Ha Hb Hrows Hf Hn]. split; cbn [a' offsets sorted delta delta_rows delta_len removed].
    - exact Hl.
    - exact Ha.
    - by apply Bitset.set_wf.
    - intros r'. rewrite Bitset.get_set, Hrows by done. rewrite lookup_insert. case_decide as E.
      + subst. rewrite (bool_decide_true (r' = r')) by done. done.
      + by rewrite (bool_decide_false (r' = r)) by congruence.
    - intros r' l. rewrite lookup_insert. case_decide; [|by apply Hf]. intros [= <-]. by destruct (default _ _).
    - fold (total (<[r:=default [] (delta a !! r) ++ [x]]> (delta a))). rewrite Hn.
      rewrite total_alter, length_app. cbn [length]. fold (total (delta a)).
      pose proof (total_old (delta a) r). lia. }
  split; [done|by apply NoDup_cons|]. intros r'.
  rewrite row_of_cons, (of_spec r' a') by done.
  change (sorted_of r' a') with (sorted_of r' a). cbn [a' removed delta]. rewrite lookup_insert.
  destruct (decide (r = r')) as [->|Hne]; rewrite <- Hr, of_spec by done; [|done]. simpl.
  rewrite app_assoc. by rewrite <- Permutation_cons_append.
Qed.

Lemma push_refines a s r x : refines a s → edge x ∉ ids s → refines (push r x a) ((r, x) :: s).
Proof.
  intros Href Hx. unfold push. pose proof (push_delta_refines a s r x Href Hx).
  case_match; [by apply merge_refines|done].
Qed.

Lemma wf_removed a rm :
  wf a → wf (mkAdjacency (offsets a) (sorted a) rm (delta a) (delta_rows a) (delta_len a)).
Proof. intros [? ? ? ? ? ?]. by split. Qed.

Lemma wf_delete_delta a r l rm :
  wf a → delta a !! r = Some l →
  wf (mkAdjacency (offsets a) (sorted a) rm (delete r (delta a)) (Bitset.clear r (delta_rows a))
        (delta_len a - length l)).
Proof.
  intros [Hl Ha Hb Hrows Hf Hn] Hr. split; cbn [offsets sorted delta delta_rows delta_len removed].
  - exact Hl.
  - exact Ha.
  - by apply Bitset.clear_wf.
  - intros r'. rewrite Bitset.get_clear, Hrows by done. rewrite lookup_delete.
    case_decide as E; [subst; by rewrite (bool_decide_true (r' = r'))|].
    by rewrite (bool_decide_false (r' = r)) by congruence.
  - intros r' l'. rewrite lookup_delete. case_decide; [done|]. by apply Hf.
  - fold (total (delete r (delta a))). rewrite Hn. fold (total (delta a)).
    rewrite (total_delete _ _ _ Hr). lia.
Qed.

Lemma wf_shrink_delta a r l l' rm :
  wf a → delta a !! r = Some l → length l = S (length l') → l' ≠ [] →
  wf (mkAdjacency (offsets a) (sorted a) rm (<[r := l']> (delta a)) (delta_rows a) (delta_len a - 1)).
Proof.
  intros [Hl Ha Hb Hrows Hf Hn] Hr Hlen Hne. split; cbn [offsets sorted delta delta_rows delta_len removed].
  - exact Hl.
  - exact Ha.
  - done.
  - intros r'. rewrite Hrows, lookup_insert. case_decide as E; [subst; by rewrite Hr|done].
  - intros r' k. rewrite lookup_insert. case_decide; [by intros [= <-]|by apply Hf].
  - fold (total (<[r := l']> (delta a))). rewrite Hn. fold (total (delta a)).
    rewrite (total_delete _ _ _ Hr), total_alter. lia.
Qed.

Lemma position_split e l i :
  position e l = Some i →
  ∃ l1 x l2, l = l1 ++ x :: l2 ∧ edge x = e ∧ vec_remove i l = l1 ++ l2.
Proof.
  unfold position. intros Hp. apply fmap_Some in Hp as ([i' x] & Hf & ->).
  apply list_find_Some in Hf as (Hx & He & _). simpl.
  exists (take i' l), x, (drop (S i') l). split_and!; [|done|done]. symmetry. by apply take_drop_middle.
Qed.

Lemma position_None e l : position e l = None ↔ Forall (λ x, edge x ≠ e) l.
Proof. unfold position. by rewrite fmap_None, list_find_None. Qed.

(** Dropping one entry of a list of distinct edges is filtering it out. *)
Lemma drop_entry k l1 x l2 :
  NoDup (edge <$> k ++ l1 ++ x :: l2) →
  k ++ l1 ++ l2 = filter (λ y, edge y ≠ edge x) (k ++ l1 ++ x :: l2).
Proof.
  rewrite !app_assoc. rewrite fmap_app. cbn [fmap list_fmap]. rewrite NoDup_app, NoDup_cons.
  intros (_ & Hx1 & Hx2 & _). rewrite filter_app, filter_cons_False by tauto.
  f_equal; symmetry; apply list_filter_id, Forall_forall; intros y Hy He.
  - apply (Hx1 (edge x)); [rewrite <- He; by apply list_elem_of_fmap_2|left].
  - destruct Hx2. rewrite <- He. by apply list_elem_of_fmap_2.
Qed.

Lemma remove_other_row (r r' : nat) e (l : list Adjacent) :
  r' ≠ r → filter (λ x, ¬ (r' = r ∧ edge x = e)) l = l.
Proof. intros Hne. apply list_filter_id, Forall_true. tauto. Qed.

Lemma remove_same_row (r : nat) e (l : list Adjacent) :
  filter (λ x, ¬ (r = r ∧ edge x = e)) l = filter (λ x, edge x ≠ e) l.
Proof. apply list_filter_iff. intros x. tauto. Qed.

(** The rows after the delta of one of them changed. *)
Lemma of_change a a' r l q :
  wf a → wf a' → (∀ q, sorted_of q a' = sorted_of q a) → removed a' = removed a →
  (∀ q, default [] (delta a' !! q) = if decide (r = q) then l else default [] (delta a !! q)) →
  of_ q a' = if decide (r = q) then filter (λ x, edge x ∉ removed a) (sorted_of r a) ++ l
             else of_ q a.
Proof.
  intros Hwf Hwf' Hs Hrm Hd. rewrite (of_spec q a') by done. rewrite Hs, Hrm, Hd.
  case_decide as E; [by rewrite E|]. by rewrite of_spec.
Qed.

Lemma remove_delta_of a s r e l1 x l2 a' r' :
  refines a s → wf a' → delta a !! r = Some (l1 ++ x :: l2) → edge x = e →
  (∀ q, sorted_of q a' = sorted_of q a) → removed a' = removed a →
  (∀ q, default [] (delta a' !! q) = if decide (r = q) then l1 ++ l2 else default [] (delta a !! q)) →
  of_ r' a' = filter (λ x, ¬ (r' = r ∧ edge x = e)) (of_ r' a).
Proof.
  intros Href Hwf' Hl <- Hs Hrm Hd. pose proof (ref_wf _ _ Href) as Hwf.
  rewrite (of_change a a' r (l1 ++ l2)) by done. case_decide as E.
  - subst r'. rewrite remove_same_row. pose proof (row_ids_unique a s r Href) as Hnd.
    rewrite of_spec, Hl in * by done. by apply drop_entry.
  - by rewrite remove_other_row by congruence.
Qed.

(** Hiding the edges of a row's sorted list leaves the other rows as they are. *)
Lemma hide_of a rm r r' :
  wf a → (∀ e, e ∈ rm → ∃ x, x ∈ sorted_of r a ∧ edge x = e) →
  of_ r' (mkAdjacency (offsets a) (sorted a) (rm ∪ removed a) (delta a) (delta_rows a) (delta_len a)) =
  filter (λ x, edge x ∉ rm) (filter (λ x, edge x ∉ removed a) (sorted_of r' a)) ++
  default [] (delta a !! r').
Proof.
  intros Hwf Hrm. rewrite of_spec by by apply wf_removed. cbn [removed delta]. f_equal.
  change (sorted_of r' (mkAdjacency _ _ _ _ _ _)) with (sorted_of r' a).
  rewrite list_filter_filter. apply list_filter_iff. set_solver.
Qed.

Lemma hide_other_row a (rm : gset Z) r r' (l : list Adjacent) :
  wf a → (∀ e, e ∈ rm → ∃ x, x ∈ sorted_of r a ∧ edge x = e) → r' ≠ r →
  (∀ x, x ∈ l → x ∈ sorted_of r' a) → filter (λ x, edge x ∉ rm) l = l.
Proof.
  intros Hwf Hrm Hne Hl. apply list_filter_id, Forall_forall. intros x Hx He.
  apply Hrm in He as (y & Hy & He). apply Hne. apply (wf_apart _ Hwf r' r x y); auto.
Qed.

(** The row after a removal reads the entries of the other edges. *)
Lemma remove_of a s r e r' :
  refines a s → wf (remove r e a) ∧
  of_ r' (remove r e a) = filter (λ x, ¬ (r' = r ∧ edge x = e)) (of_ r' a).
Proof.
  intros Href. pose proof (ref_wf _ _ Href) as Hwf. unfold remove.
  destruct (delta a !! r ≫= _) as [[l i]|] eqn:E.
  - apply bind_Some in E as (l' & Hl & E). apply bind_Some in E as (i' & Hi & [= -> ->]).
    apply position_split in Hi as (l1 & x & l2 & -> & Hx & ->).
    destruct (length (l1 ++ l2) =? 0)%nat eqn:E; [apply Nat.eqb_eq in E|apply Nat.eqb_neq in E].
    + assert (length (l1 ++ x :: l2) = 1%nat) as Hlen by (rewrite length_app in *; simpl; lia).
      pose proof (wf_delete_delta a r _ (removed a) Hwf Hl) as Hwf'. rewrite Hlen in Hwf'.
      split; [done|]. apply (remove_delta_of a s r e l1 x l2); try done. intros q. cbn [delta].
      rewrite lookup_delete. apply nil_length_inv in E. rewrite E. by case_decide.
    + assert (length (l1 ++ x :: l2) = S (length (l1 ++ l2))) as Hlen by (rewrite !length_app; simpl; lia).
      pose proof (wf_shrink_delta a r _ (l1 ++ l2) (removed a) Hwf Hl Hlen) as Hwf'.
      assert (l1 ++ l2 ≠ []) as Hne by (intros Hn; by rewrite Hn in E).
      split; [by apply Hwf'|]. apply (remove_delta_of a s r e l1 x l2); try done.
      * by apply Hwf'.
      * intros q. cbn [delta]. rewrite lookup_insert. by case_decide.
  - assert (Forall (λ x, edge x ≠ e) (default [] (delta a !! r))) as Hnd.
    { destruct (delta a !! r) as [l|]; [|constructor]. simpl in *. apply position_None.
      by destruct (position e l). }
    destruct (existsb _ _) eqn:Hex.
    + apply existsb_exists in Hex as (x & Hx%list_elem_of_In & Hxe). bool_to_prop.
      split; [by apply wf_removed|].
      assert (∀ e', e' ∈ ({[e]} : gset Z) → ∃ x, x ∈ sorted_of r a ∧ edge x = e') as Hrm.
      { intros e' ->%elem_of_singleton. by exists x. }
      rewrite (hide_of a {[e]} r) by done. rewrite (of_spec r' a) by done.
      destruct (decide (r' = r)) as [->|Hne].
      * rewrite remove_same_row, filter_app. f_equal; [apply list_filter_iff; set_solver|].
        symmetry. by apply list_filter_id.
      * rewrite remove_other_row by done. f_equal. apply (hide_other_row a {[e]} r r'); try done.
        intros y [_ Hy]%list_elem_of_filter. done.
    + split; [done|]. symmetry. apply list_filter_id. rewrite of_spec by done. apply Forall_app. split.
      * apply Forall_filter_impl, Forall_forall. intros x Hx _ [-> He].
        assert (existsb (λ x, edge x =? e) (sorted_of r a) = true); [|congruence].
        apply existsb_exists. exists x. rewrite <- list_elem_of_In. split; [done|]. by apply Z.eqb_eq.
      * destruct (decide (r' = r)) as [->|Hne]; [|apply Forall_true; tauto].
        eapply Forall_impl; [exact Hnd|]. simpl. tauto.
Qed.

Lemma remove_refines a s r e : refines a s → refines (remove r e a) (spec_op (Remove r e) s).
Proof.
  intros Href. split.
  - by apply (remove_of a s r e r).
  - by apply (NoDup_fmap_filter (λ p : nat * Adjacent, edge p.2)), Href.
  - intros r'. rewrite (proj2 (remove_of a s r e r' Href)). cbn [spec_op]. rewrite row_of_remove.
    by rewrite (ref_rows _ _ Href).
Qed.

(** ** Clearing a row *)

Lemma clear_delta a r :
  ∃ dl rows len,
    clear r a = mkAdjacency (offsets a) (sorted a)
      (list_to_set (edge <$> sorted_of r a) ∪ removed a) dl rows len ∧
    dl = delete r (delta a) ∧
    (wf a → wf (mkAdjacency (offsets a) (sorted a) (removed a) dl rows len)).
Proof.
  unfold clear. destruct (delta a !! r) as [l|] eqn:Hl; eexists _, _, _; (split; [done|]).
  - split; [done|]. intros Hwf. by apply wf_delete_delta.
  - split; [by rewrite delete_id|]. by destruct a.
Qed.

Lemma clear_refines a s r : refines a s → refines (clear r a) (spec_op (Clear r) s).
Proof.
  intros Href. pose proof (ref_wf _ _ Href) as Hwf.
  destruct (clear_delta a r) as (dl & rows & len & -> & -> & Hwf'). specialize (Hwf' Hwf).
  split; [by apply (wf_removed _ _ Hwf')| |].
  { by apply (NoDup_fmap_filter (λ p : nat * Adjacent, edge p.2)), Href. }
  intros r'. cbn [spec_op]. rewrite row_of_clear.
  set (a' := mkAdjacency _ _ (removed a) _ _ _) in *.
  assert (∀ e, e ∈ (list_to_set (edge <$> sorted_of r a) : gset Z) →
            ∃ x, x ∈ sorted_of r a' ∧ edge x = e) as Hrm.
  { intros e (x & -> & Hx)%elem_of_list_to_set%list_elem_of_fmap. by exists x. }
  pose proof (hide_of a' _ r r' Hwf' Hrm) as Hof. change (sorted_of r' a') with (sorted_of r' a) in Hof.
  cbn [a' offsets sorted removed delta delta_rows delta_len] in Hof. rewrite Hof, lookup_delete.
  destruct (decide (r' = r)) as [->|Hne].
  - rewrite decide_True by done. simpl. rewrite app_nil_r. rewrite list_filter_none; [done|].
    apply Forall_filter_impl, Forall_forall. intros x Hx _ Hn. apply Hn.
    apply elem_of_list_to_set, list_elem_of_fmap_2, Hx.
  - rewrite decide_False by congruence. rewrite <- (ref_rows _ _ Href), of_spec by done.
    apply Permutation_app; [|done]. apply eq_perm, (hide_other_row a' _ r r'); [done..|].
    intros y [_ Hy]%list_elem_of_filter. exact Hy.
Qed.

Lemma op_refines o a s :
  refines a s → match o with Push _ x => edge x ∉ ids s | _ => True end →
  refines (apply_op o a) (spec_op o s).
Proof.
  intros Href Ho. destruct o as [r x|r e|r|]; cbn [apply_op].
  - by apply push_refines.
  - by apply remove_refines.
  - by apply clear_refines.
  - by apply merge_refines.
Qed.

Lemma apply_all_refines ops a s :
  refines a s → admissible ops s → refines (apply_all ops a) (spec_all ops s).
Proof.
  revert a s. induction ops as [|o ops IH]; intros a s Href Hok; [done|]. destruct Hok as [Ho Hok].
  apply IH; [by apply op_refines|done].
Qed.

Lemma refines_default : refines default_ [].
Proof. split; [apply wf_default|constructor|done]. Qed.

(** ** Properties of a node row group's adjacency

    The theorems of [NodeAdjacency.v]: refinement of the edges of every row,
    the reads by type and by other end, and loading the sorted lists. *)
Import Adjacency.

(** ** The size of the delta *)

#[local] Arguments Nat.div : simpl never.
#[local] Arguments MERGE_MIN : simpl never.

Definition delta_small (a : Adjacency) : Prop :=
  (delta_len a ≤ Nat.max MERGE_MIN (length (sorted a) / 2))%nat.

Lemma op_delta_small o a : delta_small a → delta_small (apply_op o a).
Proof.
  assert (∀ a, delta_small (merge a)) as Hmerge.
  { intros b. unfold delta_small, merge. destruct (foldl _ _ _) as [[??]?]. cbn. lia. }
  intros Ha. destruct o as [r x|r e|r|]; cbn [apply_op]; [| | |apply Hmerge].
  - unfold push. destruct (_ <? _)%nat eqn:E; [apply Hmerge|]. apply Nat.ltb_ge in E.
    unfold delta_small. cbn [delta_len sorted] in *. lia.
  - unfold remove. destruct (_ ≫= _) as [[l i]|]; repeat case_match; unfold delta_small in *;
      cbn [delta_len sorted]; lia.
  - unfold clear. destruct (delta a !! r); unfold delta_small in *; cbn [delta_len sorted]; lia.
Qed.

Lemma apply_all_delta_small ops a : delta_small a → delta_small (apply_all ops a).
Proof.
  revert a. induction ops as [|o ops IH]; intros a Ha; [done|]. apply (IH (apply_op o a)).
  by apply op_delta_small.
Qed.

Lemma merged_of a r : wf a → is_merged a = true → of_ r a = sorted_of r a.
Proof.
  intros Hwf Hm. unfold is_merged in Hm. bool_to_prop. apply Nat.eqb_eq in H.
  rewrite of_spec by done. rewrite H0, list_filter_id by (apply Forall_true; set_solver).
  destruct (delta a !! r) as [l|] eqn:Hl; [|apply app_nil_r]. exfalso.
  pose proof (wf_len _ Hwf) as Hn. fold (total (delta a)) in Hn. rewrite (total_delete _ _ _ Hl) in Hn.
  apply (wf_full _ Hwf r l Hl). apply nil_length_inv. lia.
Qed.

(** ** Reads by type and by other end *)

Lemma of_type_filter a r t : wf a → of_type r t a = filter (λ x, edge_type x = t) (of_ r a).
Proof.
  intros Hwf. unfold of_type, of_. rewrite filter_app. f_equal.
  rewrite type_slice by by apply in_order_by_type, sorted_of_in_order.
  rewrite !list_filter_filter. apply list_filter_iff. tauto.
Qed.

Lemma to_other_filter a r o : wf a → to_other r o a = filter (λ x, other x = o) (of_ r a).
Proof.
  intros Hwf. unfold to_other, of_, runs_of. rewrite filter_app. f_equal.
  destruct (split_runs_spec (length (sorted_of r a)) (sorted_of r a)) as [Hc Hb];
    [by apply sorted_of_in_order|done|].
  rewrite bind_entries_to, Hc by done. rewrite !list_filter_filter. apply list_filter_iff. tauto.
Qed.

(** ** Loading sorted lists *)

Definition load (rows : list (nat * list Adjacent)) (a : Adjacency) : Adjacency :=
  foldl (λ a p, push_sorted p.1 p.2 a) a rows.

Lemma offsets_of_pad ls n :
  offsets_of (ls ++ replicate n []) = offsets_of ls ++ replicate n (length (concat ls)).
Proof.
  induction n as [|n IH]; [by rewrite !app_nil_r|].
  rewrite !replicate_S_end, !app_assoc, offsets_of_snoc, IH. do 3 f_equal.
  rewrite !concat_app. cbn [concat]. rewrite !app_nil_r.
  replace (concat (replicate n [])) with (@nil Adjacent); [by rewrite app_nil_r|].
  clear. by induction n.
Qed.

Lemma push_sorted_layout a ls r l :
  layout a ls → (length ls ≤ r)%nat →
  layout (push_sorted r l a) (ls ++ replicate (r - length ls) [] ++ [l]).
Proof.
  intros [Hs Ho] Hr.
  assert (match offsets a with [] => [O] | _ => offsets a end = offsets_of ls) as Hoff.
  { destruct Ho as [Ho|[Ho ->]]; [|by rewrite Ho]. rewrite Ho. by destruct (offsets_of ls) eqn:E. }
  assert (concat (ls ++ replicate (r - length ls) []) = concat ls) as Hc.
  { rewrite concat_app. replace (concat (replicate (r - length ls) [])) with (@nil Adjacent); [apply app_nil_r|].
    induction (r - length ls)%nat; done. }
  split; unfold push_sorted; cbn [sorted offsets].
  - rewrite app_assoc, concat_app, Hc, Hs. cbn [concat]. by rewrite app_nil_r.
  - left. rewrite Hoff, Hs, offsets_of_length, app_assoc, offsets_of_snoc, offsets_of_pad.
    rewrite Nat.sub_succ. rewrite concat_app, Hc. cbn [concat]. by rewrite app_nil_r.
Qed.

(** The reads after rows are loaded in ascending order. *)
Lemma load_sorted_of rows a ls r :
  layout a ls → StronglySorted (λ p q : nat * list Adjacent, (p.1 < q.1)%nat) rows →
  Forall (λ p : nat * list Adjacent, (length ls ≤ p.1)%nat) rows →
  sorted_of r (load rows a) =
  match list_find (λ p : nat * list Adjacent, p.1 = r) rows with
  | Some (_, p) => p.2
  | None => sorted_of r a
  end.
Proof.
  revert a ls. induction rows as [|[q l] rows IH]; intros a ls Hl Hs Hle; [done|].
  apply StronglySorted_inv in Hs as [Hs Hq]. apply Forall_cons in Hle as [Hle _]. cbn [fst] in *.
  pose proof (push_sorted_layout a ls q l Hl Hle) as Hl'.
  assert (length (ls ++ replicate (q - length ls) [] ++ [l]) = S q) as Hlen.
  { rewrite !length_app, length_replicate. cbn. lia. }
  cbn [load foldl]. change (foldl _ _ rows) with (load rows (push_sorted q l a)).
  rewrite (IH _ _ Hl' Hs) by (eapply Forall_impl; [exact Hq|]; cbn; lia).
  cbn [list_find fst]. destruct (decide (q = r)) as [->|Hne].
  - replace (list_find _ rows) with (@None (nat * (nat * list Adjacent))).
    + rewrite (sorted_of_layout _ _ r Hl'). rewrite app_assoc, lookup_app_r; rewrite length_app, length_replicate; [|lia].
      by replace (r - (length ls + (r - length ls)))%nat with O by lia.
    + symmetry. apply list_find_None. eapply Forall_impl; [exact Hq|]. cbn. lia.
  - destruct (list_find _ rows) as [[i p]|] eqn:Hf; [done|]. cbn.
    rewrite (sorted_of_layout _ _ r Hl'), (sorted_of_layout _ _ r Hl).
    destruct (decide (r < length ls)%nat).
    + by rewrite lookup_app_l by done.
    + rewrite (lookup_ge_None_2 ls r) by lia. rewrite lookup_app_r by lia.
      destruct (decide (r - length ls < q - length ls)%nat).
      * rewrite lookup_app_l by (rewrite length_replicate; lia). by rewrite lookup_replicate_2.
      * rewrite lookup_ge_None_2; [done|]. rewrite length_app, length_replicate. cbn. lia.
Qed.

(** *** The rows with a sorted list *)

Lemma zip_seq {A} (f : nat → A) n :
  zip (seq 0 (length (f <$> seq 0 n))) (f <$> seq 0 n) = (λ r, (r, f r)) <$> seq 0 n.
Proof.
  rewrite length_fmap, length_seq. apply list_eq. intros i.
  rewrite lookup_zip_with, !list_lookup_fmap. destruct (decide (i < n)%nat).
  - by rewrite lookup_seq_lt.
  - by rewrite lookup_seq_ge by lia.
Qed.

Lemma windows_offsets_of ls :
  zip (offsets_of ls) (tail (offsets_of ls)) =
  (λ r, (length (concat (take r ls)), length (concat (take (S r) ls)))) <$> seq 0 (length ls).
Proof.
  set (f := λ r, length (concat (take r ls))).
  change (offsets_of ls) with (f <$> seq 0 (S (length ls))).
  change (tail (f <$> seq 0 (S (length ls)))) with (f <$> seq 1 (length ls)).
  apply list_eq. intros i.
  rewrite lookup_zip_with, !list_lookup_fmap. destruct (decide (i < length ls)%nat).
  - by rewrite !lookup_seq_lt by lia.
  - rewrite (lookup_seq_ge 0 (length ls)) by lia. destruct (seq 0 _ !! i); [|done]. cbn.
    by rewrite lookup_seq_ge by lia.
Qed.

Lemma list_filter_fmap {A B} (f : A → B) (P : B → Prop) `{!∀ x, Decision (P x)} (l : list A) :
  filter P (f <$> l) = f <$> filter (P ∘ f) l.
Proof.
  induction l as [|x l IH]; [done|]. cbn [fmap list_fmap]. rewrite !filter_cons.
  destruct (decide (P (f x))), (decide ((P ∘ f) x)); try done. cbn [fmap list_fmap]. by f_equal.
Qed.

Lemma sorted_rows_layout a ls :
  layout a ls →
  sorted_rows a =
  (λ r, (r, default [] (ls !! r))) <$> filter (λ r, default [] (ls !! r) ≠ []) (seq 0 (length ls)).
Proof.
  intros [Hs [Ho|[Ho ->]]]; unfold sorted_rows; rewrite Ho; [|done].
  rewrite windows_offsets_of, zip_seq, Hs. rewrite list_filter_fmap, <- list_fmap_compose.
  assert (filter ((λ w : nat * (nat * nat), (w.2.1 < w.2.2)%nat) ∘ (λ r, (r, (length (concat (take r ls)),
            length (concat (take (S r) ls)))))) (seq 0 (length ls)) =
          filter (λ r, default [] (ls !! r) ≠ []) (seq 0 (length ls))) as ->.
  { apply list_filter_iff_Forall, Forall_seq. intros r Hr. cbn.
    destruct (lookup_lt_is_Some_2 ls r) as [l Hl]; [lia|]. rewrite (take_S_r _ _ _ Hl), concat_app, length_app.
    cbn. rewrite app_nil_r, Hl. cbn. destruct l; cbn; split; (lia || congruence). }
  apply list_fmap_ext. intros i r Hi. cbn. f_equal.
  apply list_elem_of_lookup_2, list_elem_of_filter in Hi as [_ Hi%elem_of_seq].
  destruct (lookup_lt_is_Some_2 ls r) as [l Hl]; [lia|]. rewrite Hl. cbn. by apply sub_concat.
Qed.

Lemma seq_ascending a n : StronglySorted lt (seq a n).
Proof.
  revert a. induction n as [|n IH]; intros a; cbn [seq]; constructor; [done|].
  apply Forall_seq. lia.
Qed.

Lemma StronglySorted_fmap {A B} (f : A → B) (R : A → A → Prop) (S : B → B → Prop) (l : list A) :
  (∀ x y, R x y → S (f x) (f y)) → StronglySorted R l → StronglySorted S (f <$> l).
Proof.
  intros HRS. induction 1 as [|x l _ IH Hx]; cbn [fmap list_fmap]; constructor; [done|].
  apply Forall_fmap. eapply Forall_impl; [exact Hx|]. cbn. auto.
Qed.

(** Loading the rows of a function that are not empty gives its rows. *)
Lemma load_listed (f : nat → list Adjacent) n r :
  sorted_of r (load ((λ r, (r, f r)) <$> filter (λ r, f r ≠ []) (seq 0 n)) default_) =
  if decide (r < n)%nat then f r else [].
Proof.
  rewrite (load_sorted_of _ default_ []).
  - destruct (list_find _ _) as [[i p]|] eqn:Hf.
    + apply list_find_Some in Hf as (Hi & Hp & _). apply list_lookup_fmap_Some in Hi as (q & -> & Hq).
      apply list_elem_of_lookup_2, list_elem_of_filter in Hq as [_ Hq%elem_of_seq]. cbn in *. subst q.
      by rewrite decide_True by lia.
    + apply list_find_None in Hf. rewrite Forall_fmap in Hf. case_decide as Hr; [|done]. cbn. symmetry.
      destruct (decide (f r = [])) as [|Hne]; [done|]. exfalso. rewrite Forall_forall in Hf.
      apply (Hf r); [|done]. apply list_elem_of_filter. split; [done|]. apply elem_of_seq. lia.
  - split; [done|by right].
  - apply (StronglySorted_fmap _ lt); [done|]. apply StronglySorted_filter, seq_ascending.
  - apply Forall_forall. intros p _. cbn. lia.
Qed.

Lemma load_sorted_rows a ls r :
  layout a ls → sorted_of r (load (sorted_rows a) default_) = sorted_of r a.
Proof.
  intros Hl. rewrite (sorted_rows_layout a ls Hl), (sorted_of_layout a ls r Hl).
  rewrite (load_listed (λ r, default [] (ls !! r))). case_decide; [done|].
  by rewrite lookup_ge_None_2 by lia.
Qed.

(** Loading leaves the delta and the removed edges of an empty adjacency. *)
Lemma load_of rows r : of_ r (load rows default_) = sorted_of r (load rows default_).
Proof.
  assert (∀ a, removed a = ∅ → delta_rows a = [] →
            removed (load rows a) = ∅ ∧ delta_rows (load rows a) = []) as Hkeep.
  { induction rows as [|p rows IH]; intros a Hr Hd; [done|]. by apply (IH (push_sorted p.1 p.2 a)). }
  destruct (Hkeep default_ eq_refl eq_refl) as [Hr Hd].
  unfold of_, delta_of. rewrite Hd. cbn [Bitset.get lookup]. rewrite app_nil_r.
  apply list_filter_id, Forall_true. intros x. rewrite is_removed_spec, Hr. by apply bool_decide_false.
Qed.

(** A list loaded in two pieces is the list loaded whole. *)
Lemma load_in_pieces a r l1 l2 :
  extend_last_sorted l2 (push_sorted r l1 a) = push_sorted r (l1 ++ l2) a.
Proof.
  unfold extend_last_sorted, push_sorted. cbn [offsets sorted removed delta delta_rows delta_len].
  rewrite <- !app_assoc. f_equal. set (o := match offsets a with [] => [O] | _ => offsets a end).
  rewrite !app_assoc. rewrite (length_app (_ ++ _) [_]). cbn [length]. rewrite Nat.add_sub.
  rewrite alter_app_r_alt by done. by rewrite Nat.sub_diag.
Qed.

(** The state after a last merge. *)
Lemma merged_state ops :
  admissible ops [] →
  refines (apply_all (ops ++ [Merge]) default_) (spec_all ops []) ∧
  is_merged (apply_all (ops ++ [Merge]) default_) = true.
Proof.
  intros Hok. pose proof (apply_all_refines ops _ _ refines_default Hok) as Href.
  unfold apply_all at 1 2. rewrite foldl_app. cbn [foldl apply_op]. fold (apply_all ops default_).
  split; [by apply merge_refines|].
  destruct (merge_shape _ (ref_wf _ _ Href)) as (_ & Hr & _ & _ & Hn).
  unfold is_merged. rewrite Hr, Hn. by rewrite bool_decide_true.
Qed.

(** ** Properties *)

(** C11: The adjacency of a row group refines a list of edges per row. After
    any history of pushes, removals and clears of rows with edges pushed once,
    and merges at any time, each row reads as its edges, the merged part is in
    order, a merged adjacency reads in order, and the delta stays within the
    bound that triggers a merge. *)
Theorem adjacency_refines_edges ops :
  admissible ops [] →
  let a := apply_all ops default_ in
  let s := spec_all ops [] in
  (∀ r, of_ r a ≡ₚ row_of r s) ∧
  (∀ r, in_order (sorted_of r a)) ∧
  (is_merged a = true → ∀ r, in_order (of_ r a)) ∧
  (delta_len a ≤ Nat.max MERGE_MIN (length (sorted a) / 2))%nat.
Proof.
  intros Hok a s. pose proof (apply_all_refines ops _ _ refines_default Hok) as Href.
  fold a s in Href. pose proof (ref_wf _ _ Href) as Hwf. split_and!.
  - apply Href.
  - intros r. by apply sorted_of_in_order.
  - intros Hm r. rewrite merged_of by done. by apply sorted_of_in_order.
  - apply apply_all_delta_small. unfold delta_small. cbn. lia.
Qed.

(** Reads of one type and of one other node. After any history, the
    binary searches of [of_type] and [to_other] return exactly the entries of
    the row with that type, or to that node, in the order of the row; the runs
    of a row are its sorted entries cut by type, each sorted by node. *)
Theorem typed_reads_are_filters ops r t o :
  admissible ops [] →
  let a := apply_all ops default_ in
  of_type r t a = filter (λ x, edge_type x = t) (of_ r a) ∧
  to_other r o a = filter (λ x, other x = o) (of_ r a) ∧
  concat (runs_of r a) = sorted_of r a ∧ Forall by_other (runs_of r a).
Proof.
  intros Hok a. pose proof (ref_wf _ _ (apply_all_refines ops _ _ refines_default Hok)) as Hwf.
  split_and!; [by apply of_type_filter|by apply to_other_filter|..];
    apply split_runs_spec; (done || by apply sorted_of_in_order).
Qed.

(** Loading the rows that a merged adjacency lists gives its rows back. *)
Theorem load_restores_lists ops r :
  admissible ops [] →
  let a := apply_all (ops ++ [Merge]) default_ in
  of_ r (load (sorted_rows a) default_) = of_ r a ∧ of_ r a ≡ₚ row_of r (spec_all ops []).
Proof.
  intros Hok a. destruct (merged_state ops Hok) as [Href Hm]. fold a in Href, Hm.
  destruct (wf_layout _ (ref_wf _ _ Href)) as (ls & Hl & _). split; [|apply Href].
  rewrite (merged_of a r) by (done || apply Href). rewrite <- (load_sorted_rows a ls r Hl). apply load_of.
Qed.

(** ** Witnesses *)

Definition sample_ops : list op :=
  [Push 2 (mkAdjacent 7 40 100); Push 0 (mkAdjacent 5 41 101); Push 2 (mkAdjacent 3 42 102); Merge;
   Push 2 (mkAdjacent 7 39 103); Remove 2 100; Clear 0].

Lemma sample_ops_admissible : admissible sample_ops [].
Proof.
  cbn [admissible sample_ops]. split_and!; try exact I; by apply (bool_decide_unpack _); vm_compute.
Qed.

Lemma adjacency_refines_edges_witness :
  of_ 2 (apply_all sample_ops default_) = [mkAdjacent 3 42 102; mkAdjacent 7 39 103] ∧
  of_ 2 (apply_all sample_ops default_) ≡ₚ row_of 2 (spec_all sample_ops []).
Proof.
  split; [vm_compute; reflexivity|].
  destruct (adjacency_refines_edges sample_ops sample_ops_admissible) as [H _]. exact (H 2%nat).
Defined.

Lemma typed_reads_are_filters_witness :
  of_type 2 7 (apply_all sample_ops default_) = [mkAdjacent 7 39 103] ∧
  of_type 2 7 (apply_all sample_ops default_) =
    filter (λ x, edge_type x = 7) (of_ 2 (apply_all sample_ops default_)).
Proof.
  split; [vm_compute; reflexivity|].
  destruct (typed_reads_are_filters sample_ops 2 7 0 sample_ops_admissible) as [H _]. exact H.
Defined.

Lemma load_restores_lists_witness :
  sorted_rows (apply_all (sample_ops ++ [Merge]) default_) =
    [(2%nat, [mkAdjacent 3 42 102; mkAdjacent 7 39 103])] ∧
  of_ 2 (load (sorted_rows (apply_all (sample_ops ++ [Merge]) default_)) default_) =
    of_ 2 (apply_all (sample_ops ++ [Merge]) default_).
Proof.
  split; [vm_compute; reflexivity|].
  destruct (load_restores_lists sample_ops 2 sample_ops_admissible) as [H _]. exact H.
Defined.
