(* ===== verification/AdjacencyChunk.v ===== *)
(** * Adjacency chunks

    Model of [encode] and [decode] of
    [src/crates/grafeo-core/src/graph/rowgroup/adjacency_chunk.rs] and of the
    bit-packed bodies of [src/crates/grafeo-core/src/codec/column_chunk.rs]
    they use. A reader is a position in the bytes; a read returns its value
    and the next position. A refusal is an [Err] that says where and why;
    [Panics] stands for an index out of range or a width past 64, which
    [chunk_reads_back] and [decoded_chunk_ok] show never happens.

    The last two parts model what
    [src/crates/grafeo-core/src/graph/rowgroup/section.rs] does with the
    adjacency of one direction of a graph: [write_groups] writes the lists of
    file row groups in chunks and pieces, [load_chunks] loads them with the
    checks of the loader. A write to the sink does not fail here. The flags of
    the metadata, which the loader matches with the direction, the chunks a
    checkpoint takes over from the image it follows, and the comparison with
    the edge table after the load are left out. *)
From S2P Require Import Prelude Bytes Bits Bitset BitPack BitPackProps Delta RunJoin NodeAdjacency.

Inductive refusal : Set :=
  | EndsInside
  | BadFlags
  | BadRowCount
  | BadEntryCount
  | PieceOfManyRows
  | BadBody
  | DegreesDoNotAddUp
  | BytesAfterBodies
  | IdPastRange (row : nat)
  | ListNotSorted (row : nat).

Inductive chunk_error : Set :=
  | BadChunkSize (rows entries : nat)
  | RowNotSorted (row : nat)
  | PastU32 (value : nat)
  | Corrupt (pos : nat) (what : refusal)
  | Panics.

(** ** Bit-packed bodies *)

Definition put_u32 (value : nat) : result chunk_error (list Z) :=
  if Z.of_nat value <=? u32_max then Ok (to_le 4 (Z.of_nat value)) else Err (PastU32 value).

(** The bytes [write_bitpacked_body] appends. *)
Definition write_bitpacked_body (p : BitPackedInts) : result chunk_error (list Z) :=
  n ← put_u32 (BitPack.count p);
  w ← put_u32 (WordStore.word_count (data p));
  Ok (Z.of_nat (bits_per_value p) :: n ++ w ++ WordStore.to_bytes (data p)).

(** [write_bitpacked_body(&BitPackedInts::pack(values), out)]. *)
Definition pack_body (values : list Z) : result chunk_error (list Z) :=
  match BitPackedInts.pack values with
  | Some p => write_bitpacked_body p
  | None => Err Panics
  end.

Definition read_u32 (bytes : list Z) (pos : nat) : option (Z * nat) :=
  b ← slice pos 4 bytes; Some (from_le b, (pos + 4)%nat).

Definition read_bitpacked_body (bytes : list Z) (pos : nat) : option (BitPackedInts * nat) :=
  bits ← bytes !! pos;
  '(n, pos) ← read_u32 bytes (pos + 1);
  '(word_count, pos) ← read_u32 bytes pos;
  need ← checked_mul64 word_count 8;
  words ← slice pos (Z.to_nat need) bytes;
  Some (BitPackedInts.from_bytes_storage words (Z.to_nat bits) (Z.to_nat n),
        (pos + Z.to_nat need)%nat).

(** ** Writing *)

Definition HEADER_LEN : nat := 16.

Record AdjacencyChunk : Type := mkChunk { first_entry : Z; lists : list (list Adjacent) }.

Definition zigzag (difference : Z) : Z :=
  Z.lxor (wrap64 (Z.shiftl (wrap64 difference) 1)) (wrap64 (Z.shiftr difference 63)).

Definition unzigzag (value : Z) : Z :=
  Z.lxor (to_i64 (Z.shiftr value 1)) (- Z.land value 1).

Definition adj_lt (a b : Adjacent) : Prop := adj_le a b ∧ a ≠ b.
#[export] Instance adj_lt_dec : RelDecision adj_lt := λ a b, ltac:(unfold adj_lt; apply _).

(** [list.windows(2).all(|pair| pair[0] < pair[1])]. *)
Fixpoint ascending (l : list Adjacent) : bool :=
  match l with
  | x :: (y :: _) as l' => bool_decide (adj_lt x y) && ascending l'
  | _ => true
  end.

Definition first_unsorted (ls : list (list Adjacent)) : option nat :=
  fst <$> list_find (λ l, ascending l = false) ls.

(** The zigzag differences of the other ends after the first of a list. *)
Fixpoint steps_after (previous : Z) (l : list Adjacent) : list Z :=
  match l with
  | [] => []
  | x :: l => zigzag (to_i64 (other x - previous)) :: steps_after (other x) l
  end.

Definition steps_of (l : list Adjacent) : list Z :=
  match l with [] => [] | x :: l => steps_after (other x) l end.

Definition firsts_of (l : list Adjacent) : list Z :=
  match l with [] => [] | x :: _ => [other x] end.

(** [iter().copied().min().unwrap_or(0)]. *)
Definition min_or_0 (values : list Z) : Z :=
  match values with [] => 0 | v :: values => foldr Z.min v values end.

Definition encode (ls : list (list Adjacent)) (first : Z) (max_entries : nat)
  : result chunk_error (list Z) :=
  let entries := concat ls in
  let entry_count := length entries in
  if (entry_count =? 0)%nat || (max_entries <? entry_count)%nat || (max_entries <? length ls)%nat
  then Err (BadChunkSize (length ls) entry_count) else
  match first_unsorted ls with
  | Some row => Err (RowNotSorted row)
  | None =>
      let degrees := (λ l, Z.of_nat (length l)) <$> ls in
      let types := edge_type <$> entries in
      let firsts := ls ≫= firsts_of in
      let steps := ls ≫= steps_of in
      let edges := edge <$> entries in
      let first_base := min_or_0 firsts in
      let edge_base := min_or_0 edges in
      rows ← put_u32 (length ls);
      count ← put_u32 entry_count;
      degrees ← pack_body degrees;
      types ← pack_body types;
      firsts ← pack_body ((λ f, f - first_base) <$> firsts);
      steps ← pack_body steps;
      edges ← pack_body ((λ e, e - edge_base) <$> edges);
      Ok ([0; 0; 0; 0] ++ rows ++ to_le 4 first ++ count ++ degrees ++ types ++
          to_le 8 first_base ++ firsts ++ steps ++ to_le 8 edge_base ++ edges)
  end.

(** ** Reading *)

Module Reader.

Definition u32 (bytes : list Z) (pos : nat) : result chunk_error (Z * nat) :=
  b ← ok_or (slice pos 4 bytes) (Corrupt pos EndsInside);
  Ok (from_le b, (pos + 4)%nat).

Definition u64 (bytes : list Z) (pos : nat) : result chunk_error (Z * nat) :=
  b ← ok_or (slice pos 8 bytes) (Corrupt pos EndsInside);
  Ok (from_le b, (pos + 8)%nat).

Definition body_words (count bits : nat) : option nat :=
  if (count =? 0)%nat && (bits =? 0)%nat then Some O
  else if (1 <=? bits)%nat && (bits <=? 64)%nat && (0 <? count)%nat
  then Some (Z.to_nat (div_ceil (Z.of_nat count) (Z.of_nat (64 / bits))))
  else None.

Definition body (bytes : list Z) (pos count : nat) : result chunk_error (list Z * nat) :=
  '(packed, next) ← ok_or (read_bitpacked_body bytes pos) (Corrupt pos BadBody);
  let words := body_words count (bits_per_value packed) in
  if negb (BitPack.count packed =? count)%nat
     || negb (bool_decide (words = Some (WordStore.word_count (data packed))))
  then Err (Corrupt pos BadBody)
  else
    values ← ok_or (BitPackedInts.unpack packed) Panics;
    Ok (values, next).

End Reader.

(** The columns a row is decoded from, from the next entry on, and the bases
    of the first other ends and of the edges. *)
Record columns : Type := mkColumns {
  types_left : list Z;
  firsts_left : list Z;
  steps_left : list Z;
  edges_left : list Z;
}.

(** [u32::try_from]. *)
Definition try_u32 (v : Z) : option Z := if v <=? u32_max then Some v else None.

(** The other end of the next entry; the outer [None] is an index out of
    range, the inner one an overflow. *)
Definition next_other (first_base : Z) (l : list Adjacent) (c : columns)
  : option (option Z * columns) :=
  match last l with
  | None =>
      match firsts_left c with
      | [] => None
      | f :: fs => Some (checked_add64 first_base f, mkColumns (types_left c) fs (steps_left c) (edges_left c))
      end
  | Some previous =>
      match steps_left c with
      | [] => None
      | s :: ss => Some (Some (wrap64 (other previous + unzigzag s)),
                         mkColumns (types_left c) (firsts_left c) ss (edges_left c))
      end
  end.

Fixpoint decode_row (first_base edge_base : Z) (pos row : nat) (n : nat) (l : list Adjacent)
    (c : columns) : result chunk_error (list Adjacent * columns) :=
  match n with
  | O => Ok (l, c)
  | S n =>
      match next_other first_base l c with
      | None => Err Panics
      | Some (o, c) =>
          match types_left c, edges_left c with
          | t :: ts, e :: es =>
              match o, try_u32 t, checked_add64 edge_base e with
              | Some o, Some t, Some e =>
                  let x := mkAdjacent t o e in
                  if match last l with Some y => negb (bool_decide (adj_lt y x)) | None => false end
                  then Err (Corrupt pos (ListNotSorted row))
                  else decode_row first_base edge_base pos row n (l ++ [x])
                         (mkColumns ts (firsts_left c) (steps_left c) es)
              | _, _, _ => Err (Corrupt pos (IdPastRange row))
              end
          | _, _ => Err Panics
          end
      end
  end.

Fixpoint decode_rows (first_base edge_base : Z) (pos row : nat) (degrees : list Z) (c : columns)
  : result chunk_error (list (list Adjacent)) :=
  match degrees with
  | [] => Ok []
  | degree :: degrees =>
      '(l, c) ← decode_row first_base edge_base pos row (Z.to_nat degree) [] c;
      ls ← decode_rows first_base edge_base pos (S row) degrees c;
      Ok (l :: ls)
  end.

(** [try_fold(0, checked_add)]. *)
Fixpoint checked_sum (sum : Z) (values : list Z) : option Z :=
  match values with
  | [] => Some sum
  | v :: values => s ← checked_add64 sum v; checked_sum s values
  end.

Definition decode (bytes : list Z) (row_count : Z) (max_entries : Z)
  : result chunk_error AdjacencyChunk :=
  '(flags, pos) ← Reader.u32 bytes 0;
  if negb (Z.land flags 255 =? 0) then Err (Corrupt 0 BadFlags) else
  '(rows, pos) ← Reader.u32 bytes pos;
  if negb (rows =? row_count) || (rows =? 0) || (max_entries <? rows)
  then Err (Corrupt pos BadRowCount) else
  '(first_entry, pos) ← Reader.u32 bytes pos;
  '(entry_count, pos) ← Reader.u32 bytes pos;
  if (entry_count =? 0) || (max_entries <? entry_count) then Err (Corrupt pos BadEntryCount) else
  if negb (first_entry =? 0) && negb (rows =? 1) then Err (Corrupt pos PieceOfManyRows) else
  let entries := Z.to_nat entry_count in
  '(degrees, pos) ← Reader.body bytes pos (Z.to_nat rows);
  if negb (bool_decide (checked_sum 0 degrees = Some entry_count))
  then Err (Corrupt pos DegreesDoNotAddUp) else
  let with_entries := length (filter (λ d, 0 < d) degrees) in
  '(types, pos) ← Reader.body bytes pos entries;
  '(first_base, pos) ← Reader.u64 bytes pos;
  '(firsts, pos) ← Reader.body bytes pos with_entries;
  '(steps, pos) ← Reader.body bytes pos (entries - with_entries);
  '(edge_base, pos) ← Reader.u64 bytes pos;
  '(edges, pos) ← Reader.body bytes pos entries;
  if negb (pos =? length bytes)%nat then Err (Corrupt pos BytesAfterBodies) else
  ls ← decode_rows first_base edge_base pos 0 degrees (mkColumns types firsts steps edges);
  Ok (mkChunk first_entry ls).

(** ** The chunks of a checkpoint

    What section.rs writes of the lists of one direction and reads back: a
    file row group is [max_rows] ids, a row group of the store is
    [ROWS_PER_GROUP] of them. *)

Definition ROWS_PER_GROUP : Z := 65536.

Definition locate (id : Z) : Z * nat := (id / ROWS_PER_GROUP, Z.to_nat (id mod ROWS_PER_GROUP)).

Definition adjacency_bound (rows entries : nat) : Z := 96 + 3 * Z.of_nat rows + 20 * Z.of_nat entries.

(** A chunk handed to the sink, with what of its [ChunkMeta] differs between
    the adjacency chunks of one graph and direction. *)
Record stored_chunk : Type := mkStored {
  row_start : Z;
  row_count : Z;
  column_id : Z;
  stored : list Z;
}.

Inductive write_error : Set :=
  | NotEncoded (e : chunk_error)
  | RowsPastCap
  | ListPastU32
  | TooManyPieces.

Definition encoded (r : result chunk_error (list Z)) : result write_error (list Z) :=
  match r with Ok bytes => Ok bytes | Err e => Err (NotEncoded e) end.

(** [list.chunks(n)], for a list of at most [fuel] entries. *)
Fixpoint chunks_of {A} (fuel n : nat) (l : list A) : list (list A) :=
  match fuel, l with
  | S fuel, _ :: _ => take n l :: chunks_of fuel n (drop n l)
  | _, _ => []
  end.

Section writing.
Context (max_rows : nat) (max_bytes group_start : Z).

(** The closure [flush]: the open lists in one chunk from the first of their
    rows to the last. *)
Definition flush (open : list (nat * list Adjacent)) : result write_error (list stored_chunk) :=
  match head open, last open with
  | Some (first, _), Some (last_, _) =>
      let rows := (last_ - first + 1)%nat in
      let dense := foldl (λ d item, <[(item.1 - first)%nat := item.2]> d) (replicate rows []) open in
      bytes ← encoded (encode dense 0 max_rows);
      if u32_max <? Z.of_nat rows then Err RowsPastCap
      else Ok [mkStored (group_start + Z.of_nat first) (Z.of_nat rows) 0 bytes]
  | _, _ => Ok []
  end.

Definition piece_len : nat :=
  Z.to_nat (Z.min (Z.of_nat max_rows) (Z.max 1 (Z.max 0 (max_bytes - adjacency_bound 1 0) / 20))).

Fixpoint write_pieces (row number : nat) (parts : list (list Adjacent)) : result write_error (list stored_chunk) :=
  match parts with
  | [] => Ok []
  | part :: parts =>
      let first_entry := Z.of_nat (number * piece_len) in
      if u32_max <? first_entry then Err ListPastU32
      else
        bytes ← encoded (encode [part] first_entry max_rows);
        if u32_max <? Z.of_nat number then Err TooManyPieces
        else
          rest ← write_pieces row (S number) parts;
          Ok (mkStored (group_start + Z.of_nat row) 1 (Z.of_nat number) bytes :: rest)
  end.

(** The loop over the lists, with the open ones and their entries. *)
Fixpoint write_lists (lists open : list (nat * list Adjacent)) (entries : nat) : result write_error (list stored_chunk) :=
  match lists with
  | [] => flush open
  | (row, l) :: lists =>
      if (piece_len <? length l)%nat then
        before ← flush open;
        pieces ← write_pieces row 0 (chunks_of (length l) piece_len l);
        rest ← write_lists lists [] 0;
        Ok (before ++ pieces ++ rest)
      else
        match head open with
        | Some (first, _) =>
            if (max_rows <? entries + length l)%nat || (max_bytes <? adjacency_bound (row - first + 1) (entries + length l)) then
              before ← flush open;
              rest ← write_lists lists [(row, l)] (length l);
              Ok (before ++ rest)
            else write_lists lists (open ++ [(row, l)]) (entries + length l)
        | None => write_lists lists (open ++ [(row, l)]) (entries + length l)
        end
  end.

Definition write_adjacency (lists : list (nat * list Adjacent)) : result write_error (list stored_chunk) := write_lists lists [] 0.
End writing.

(** What a checkpoint writes, with the store's row groups, its nodes
    ([is_node]) and the edges its window holds ([written_edge]). *)
Section checkpoint.
Context (store : gmap Z Adjacency) (is_node written_edge : Z → bool).

Definition written_adjacency (id : Z) : list Adjacent :=
  if is_node id then
    let (group, row) := locate id in
    merge_sort adj_le (filter (λ x, written_edge (edge x) = true) (Adjacency.of_ row (default Adjacency.default_ (store !! group))))
  else [].

Definition written_lists (written : list Z) (group_start : Z) : list (nat * list Adjacent) :=
  filter (λ p, p.2 ≠ []) ((λ id, (Z.to_nat (id - group_start), written_adjacency id)) <$> written).

(** The lists of file row groups written anew, each with its written rows. *)
Fixpoint write_groups (max_rows : nat) (max_bytes : Z) (groups : list (Z * list Z)) : result write_error (list stored_chunk) :=
  match groups with
  | [] => Ok []
  | (file_group, written) :: groups =>
      let group_start := file_group * Z.of_nat max_rows in
      chunks ← write_adjacency max_rows max_bytes group_start (written_lists written group_start);
      rest ← write_groups max_rows max_bytes groups;
      Ok (chunks ++ rest)
  end.
End checkpoint.

(** ** Loading *)

Inductive load_error : Set :=
  | RowsInNoGroup
  | PastNextId
  | OutOfOrder
  | Overlaps
  | NotDecoded (e : chunk_error)
  | PieceWithoutFirst
  | DoesNotContinue
  | NotAfterPiece
  | FirstFromEntry (entry : Z)
  | NoNode (id : Z).

(** Of the load of a graph what it keeps for one direction: the lists by row
    group, the group of the last list, of the last chunk that is no piece the
    row, the rows, the next piece and the entries so far, the end of that
    chunk, and the file row group reached. *)
Record Loading : Type := mkLoading {
  groups : gmap Z Adjacency;
  last_list : option Z;
  piece_at : option (Z * Z * Z * nat);
  column_end : option Z;
  order : Z;
}.

Definition new_loading : Loading := mkLoading ∅ None None None 0.

Section loading.
Context (max_rows : nat) (next_id : Z) (is_node : Z → bool).

(** The loop over the lists of a first chunk. *)
Fixpoint load_lists (id : Z) (ls : list (list Adjacent)) (gs : gmap Z Adjacency) (last_ : option Z) : result load_error (gmap Z Adjacency * option Z) :=
  match ls with
  | [] => Ok (gs, last_)
  | [] :: ls => load_lists (id + 1) ls gs last_
  | l :: ls =>
      if negb (is_node id) then Err (NoNode id)
      else
        let (group, row) := locate id in
        load_lists (id + 1) ls (<[group := Adjacency.push_sorted row l (default Adjacency.default_ (gs !! group))]> gs) (Some group)
  end.

Definition load_first (c : stored_chunk) (decoded : AdjacencyChunk) (end_ file_group : Z) (s : Loading) : result load_error Loading :=
  if negb (first_entry decoded =? 0) then Err (FirstFromEntry (first_entry decoded))
  else
    let entries := match lists decoded with l :: _ => length l | [] => O end in
    '(gs, last_) ← load_lists (row_start c) (lists decoded) (groups s) (last_list s);
    Ok (mkLoading gs last_ (Some (row_start c, row_count c, 1, entries)) (Some end_) file_group).

Definition load_piece (c : stored_chunk) (decoded : AdjacencyChunk) (file_group : Z) (s : Loading) : result load_error Loading :=
  match piece_at s with
  | None => Err PieceWithoutFirst
  | Some (row, rows, next_piece, entries) =>
      if negb (row =? row_start c) || negb (rows =? 1) || negb (row_count c =? 1) || negb (next_piece =? column_id c)
         || negb (first_entry decoded =? Z.of_nat entries)
      then Err DoesNotContinue
      else
        let l := default [] (head (lists decoded)) in
        match (g ← last_list s; a ← groups s !! g; Some (g, a)) with
        | None => Err PieceWithoutFirst
        | Some (g, whole) =>
            if match Adjacency.last_sorted whole, head l with Some x, Some y => bool_decide (adj_le y x) | _, _ => false end then Err NotAfterPiece
            else Ok (mkLoading (<[g := Adjacency.extend_last_sorted l whole]> (groups s)) (last_list s)
                       (Some (row, rows, next_piece + 1, (entries + length l)%nat)) (column_end s) file_group)
        end
  end.

Definition load_chunk (c : stored_chunk) (s : Loading) : result load_error Loading :=
  let end_ := row_start c + row_count c in
  let file_group := row_start c / Z.of_nat max_rows in
  if (row_count c =? 0) || (Z.of_nat max_rows <? row_count c) || negb ((end_ - 1) / Z.of_nat max_rows =? file_group) then Err RowsInNoGroup
  else if next_id <? end_ then Err PastNextId
  else if file_group <? order s then Err OutOfOrder
  else
    let piece := 0 <? column_id c in
    if negb piece && match column_end s with Some last_end => row_start c <? last_end | None => false end then Err Overlaps
    else
      match decode (stored c) (row_count c) (Z.of_nat max_rows) with
      | Err e => Err (NotDecoded e)
      | Ok decoded => if piece then load_piece c decoded file_group s else load_first c decoded end_ file_group s
      end.

Fixpoint load_chunks (cs : list stored_chunk) (s : Loading) : result load_error Loading :=
  match cs with
  | [] => Ok s
  | c :: cs => s ← load_chunk c s; load_chunks cs s
  end.
End loading.
