(* ===== verification/AdjacencyChunkFacts.v ===== *)
(** * Adjacency chunks read back

    Proofs about [AdjacencyChunk.v]: what [encode] writes [decode] reads back
    ([chunk_reads_back]), what [decode] accepts is a chunk of sorted lists
    within the caps ([decoded_chunk_ok]), and the lists a checkpoint writes
    of the row groups of a store, in as many chunks and pieces as the caps
    ask for, are loaded back to their rows
    ([adjacency_survives_checkpoint]). *)
From S2P Require Import Prelude Bytes Bits Bitset BitPack BitPackProps Delta RunJoin AdjacencyChunk.
From S2P Require Import NodeAdjacency NodeAdjacencyProps.

#[local] Arguments Nat.div : simpl never.
#[local] Arguments to_le : simpl never.
#[local] Arguments from_le : simpl never.

(** ** The zigzag map of the chunk *)

Lemma wrap64_lxor a b : wrap64 (Z.lxor a b) = Z.lxor (wrap64 a) (wrap64 b).
Proof.
  unfold wrap64. apply Z.bits_inj'. intros n Hn. rewrite Z.lxor_spec.
  destruct (decide (n < 64)).
  - by rewrite !Z.mod_pow2_bits_low, Z.lxor_spec by lia.
  - by rewrite !Z.mod_pow2_bits_high by lia.
Qed.

Lemma wrap64_to_i64 x : wrap64 (to_i64 x) = wrap64 x.
Proof.
  unfold to_i64, wrap64. destruct (_ <? _); [apply Z.mod_mod; lia|].
  replace (x mod 2 ^ 64 - 2 ^ 64) with (x mod 2 ^ 64 + (-1) * 2 ^ 64) by lia.
  rewrite Z.mod_add by lia. apply Z.mod_mod. lia.
Qed.

Lemma zigzag_is_encode d : zigzag d = zigzag_encode d.
Proof.
  unfold zigzag, zigzag_encode. rewrite wrap64_lxor, wrap64_to_i64. f_equal.
  rewrite !Z.shiftl_mul_pow2 by lia. unfold wrap64. rewrite Z.mul_mod_idemp_l by lia. done.
Qed.

Lemma unzigzag_zigzag d : is_i64 d → unzigzag (zigzag d) = d.
Proof. intros Hd. rewrite zigzag_is_encode. by apply zigzag_decode_encode. Qed.

Lemma step_back previous o :
  is_u64 o → wrap64 (previous + unzigzag (zigzag (to_i64 (o - previous)))) = o.
Proof.
  intros Ho. rewrite unzigzag_zigzag by apply to_i64_i64.
  unfold wrap64 at 1. rewrite Z.add_mod, <- (Z.mod_mod (to_i64 _) (2 ^ 64)) by lia.
  change (to_i64 (o - previous) mod 2 ^ 64) with (wrap64 (to_i64 (o - previous))).
  rewrite wrap64_to_i64. unfold wrap64. rewrite Z.mod_mod, <- Z.add_mod by lia.
  replace (previous + (o - previous)) with o by lia. by apply Z.mod_small.
Qed.

(** ** Reading at a position *)

(** From [pos] on the bytes are [rest]. *)
Definition at_pos (bytes : list Z) (pos : nat) (rest : list Z) : Prop :=
  ∃ before, bytes = before ++ rest ∧ length before = pos.

Lemma at_pos_0 bytes : at_pos bytes 0 bytes.
Proof. by exists []. Qed.

Lemma at_pos_app bytes pos part rest :
  at_pos bytes pos (part ++ rest) → at_pos bytes (pos + length part) rest.
Proof. intros (before & -> & <-). exists (before ++ part). rewrite length_app. by rewrite <- app_assoc. Qed.

Lemma at_pos_slice bytes pos part rest :
  at_pos bytes pos (part ++ rest) → slice pos (length part) bytes = Some part.
Proof. intros (before & -> & <-). by apply slice_app. Qed.

Lemma at_pos_end bytes pos : at_pos bytes pos [] → pos = length bytes.
Proof. intros (before & -> & <-). by rewrite app_nil_r. Qed.

Lemma read_u32_at bytes pos x rest :
  0 ≤ x ≤ u32_max → at_pos bytes pos (to_le 4 x ++ rest) →
  Reader.u32 bytes pos = Ok (x, (pos + 4)%nat) ∧ read_u32 bytes pos = Some (x, (pos + 4)%nat) ∧
  at_pos bytes (pos + 4) rest.
Proof.
  intros Hx Hat. pose proof (at_pos_slice _ _ _ _ Hat) as Hs. pose proof (at_pos_app _ _ _ _ Hat) as Hr.
  rewrite to_le_length in Hs, Hr. unfold Reader.u32, read_u32. rewrite Hs. cbn.
  rewrite from_to_le by (unfold u32_max in Hx; lia). done.
Qed.

Lemma read_u64_at bytes pos x rest :
  is_u64 x → at_pos bytes pos (to_le 8 x ++ rest) →
  Reader.u64 bytes pos = Ok (x, (pos + 8)%nat) ∧ at_pos bytes (pos + 8) rest.
Proof.
  intros Hx Hat. pose proof (at_pos_slice _ _ _ _ Hat) as Hs. pose proof (at_pos_app _ _ _ _ Hat) as Hr.
  rewrite to_le_length in Hs, Hr. unfold Reader.u64. rewrite Hs. cbn. by rewrite from_to_le64.
Qed.

(** ** Bodies *)

Lemma pack_shape values :
  Forall is_u64 values → values ≠ [] →
  ∃ bits, (0 < bits ≤ 64)%nat ∧
    BitPackedInts.pack values =
      Some (mkPacked (Inline (packed_words bits values)) bits (length values)) ∧
    holds (mkPacked (Inline (packed_words bits values)) bits (length values)) values.
Proof.
  intros Hvs Hne. set (bits := BitPackedInts.bits_needed (BitPackedInts.max_value values)).
  pose proof (bits_needed_bound _ (max_value_u64 _ Hvs)) as Hb. fold bits in Hb.
  destruct (packed_holds bits values) as (p & Hp & Hh & _ & Heq); [lia| |].
  { apply Forall_forall. intros v Hv. apply bits_needed_within; [|by apply max_value_ge].
    by apply (proj1 (Forall_forall _ _) Hvs). }
  specialize (Heq Hne). replace (bits =? 0)%nat with false in Heq by (symmetry; apply Nat.eqb_neq; lia).
  exists bits. rewrite Heq in Hh, Hp. split_and!; [lia|lia| |done]. by destruct values.
Qed.

Lemma bytes_of_words bits (values : list Z) :
  length (words_to_bytes (packed_words bits values)) = (words_for bits (length values) * 8)%nat.
Proof. by rewrite words_to_bytes_length, packed_words_length. Qed.

Lemma read_body_format bytes pos bits n words rest :
  Z.of_nat n ≤ u32_max → Z.of_nat (length words) ≤ u32_max →
  let out := Z.of_nat bits :: to_le 4 (Z.of_nat n) ++ to_le 4 (Z.of_nat (length words)) ++ words_to_bytes words in
  at_pos bytes pos (out ++ rest) →
  read_bitpacked_body bytes pos =
    Some (mkPacked (Mapped (words_to_bytes words)) bits n, (pos + length out)%nat).
Proof.
  intros Hn Hw out Hat. unfold read_bitpacked_body.
  assert (bytes !! pos = Some (Z.of_nat bits)) as ->.
  { destruct Hat as (before & -> & <-). by rewrite lookup_app_r, Nat.sub_diag. }
  cbn [mbind option_bind].
  assert (at_pos bytes (pos + 1) (to_le 4 (Z.of_nat n) ++ to_le 4 (Z.of_nat (length words)) ++
            words_to_bytes words ++ rest)) as Hat1.
  { apply (at_pos_app bytes pos [Z.of_nat bits]). unfold out in Hat. cbn [app] in Hat |- *.
    by rewrite <- !app_assoc in Hat. }
  destruct (read_u32_at _ _ (Z.of_nat n) _ ltac:(lia) Hat1) as (_ & -> & Hat2).
  cbn [mbind option_bind]. destruct (read_u32_at _ _ (Z.of_nat (length words)) _ ltac:(lia) Hat2) as (_ & -> & Hat3).
  cbn [mbind option_bind]. unfold checked_mul64.
  rewrite (proj2 (Z.leb_le _ _)) by (unfold u32_max, u64_max in *; lia). cbn [mbind option_bind].
  replace (Z.to_nat (Z.of_nat (length words) * 8)) with (length (words_to_bytes words))
    by (rewrite words_to_bytes_length; lia).
  rewrite (at_pos_slice _ _ _ _ Hat3). cbn [mbind option_bind]. rewrite !Nat2Z.id.
  unfold BitPackedInts.from_bytes_storage. do 2 f_equal. unfold out.
  cbn [length]. rewrite !length_app, !to_le_length. lia.
Qed.

Lemma pack_body_reads values :
  Forall is_u64 values → Z.of_nat (length values) ≤ u32_max →
  ∃ out, pack_body values = Ok out ∧
    ∀ bytes pos rest, at_pos bytes pos (out ++ rest) →
      Reader.body bytes pos (length values) = Ok (values, (pos + length out)%nat).
Proof.
  intros Hvs Hlen. unfold pack_body. destruct (decide (values = [])) as [->|Hne].
  { eexists. split; [reflexivity|]. intros bytes pos rest Hat. unfold Reader.body.
    rewrite (read_body_format bytes pos 0 0 [] rest) by done. reflexivity. }
  destruct (pack_shape values Hvs Hne) as (bits & Hb & -> & Hh).
  assert (Z.of_nat (length (packed_words bits values)) ≤ u32_max) as Hw.
  { rewrite packed_words_length. pose proof (words_for_le bits (length values) Hb). lia. }
  unfold write_bitpacked_body, put_u32. cbn [BitPack.count data bits_per_value WordStore.word_count WordStore.to_bytes].
  rewrite !(proj2 (Z.leb_le _ _)) by done. eexists. split; [reflexivity|].
  intros bytes pos rest Hat. unfold Reader.body.
  rewrite (read_body_format bytes pos bits (length values) (packed_words bits values) rest) by done.
  cbn [ok_or mbind result_bind BitPack.count data bits_per_value WordStore.word_count].
  rewrite Nat.eqb_refl, bytes_of_words, Nat.div_mul by lia.
  replace (Reader.body_words (length values) bits) with (Some (words_for bits (length values))).
  2:{ unfold Reader.body_words. destruct values; [done|].
      rewrite (proj2 (Nat.leb_le 1 bits)), (proj2 (Nat.leb_le bits 64)) by lia. cbn [andb Nat.eqb length Nat.ltb Nat.leb].
      by rewrite words_for_div_ceil. }
  rewrite bool_decide_true by done. cbn [negb orb].
  rewrite (holds_unpack _ values); [reflexivity|].
  pose proof (mapped_holds bits values Hlen) as Hm. unfold stored_words in Hm.
  replace (bits =? 0)%nat with false in Hm by (symmetry; apply Nat.eqb_neq; lia). by apply Hm.
Qed.

(** ** Decoding what was encoded *)

Definition ok_entry (x : Adjacent) : Prop :=
  0 ≤ edge_type x ≤ u32_max ∧ is_u64 (other x) ∧ is_u64 (edge x).

Section rows.
Context (fb eb : Z) (Hfb : 0 ≤ fb) (Heb : 0 ≤ eb).

Definition edges_from (l : list Adjacent) : list Z := (λ x, edge x - eb) <$> l.
Definition firsts_from (l : list Adjacent) : list Z := (λ f, f - fb) <$> firsts_of l.

Lemma entry_in_range x : ok_entry x → try_u32 (edge_type x) = Some (edge_type x) ∧
  checked_add64 eb (edge x - eb) = Some (edge x).
Proof.
  intros (Ht & _ & He). unfold try_u32, checked_add64. unfold is_u64, u64_max in *.
  rewrite !(proj2 (Z.leb_le _ _)) by lia. split; [done|]. f_equal. lia.
Qed.

Lemma decode_row_rest pos row l1 y l2 T F S E :
  Forall ok_entry l2 → ascending (y :: l2) = true →
  decode_row fb eb pos row (length l2) (l1 ++ [y])
    (mkColumns ((edge_type <$> l2) ++ T) F (steps_after (other y) l2 ++ S) (edges_from l2 ++ E)) =
  Ok (l1 ++ y :: l2, mkColumns T F S E).
Proof.
  intros Hok. revert l1 y. induction Hok as [|x l2 Hx _ IH]; intros l1 y Hasc; [done|].
  cbn [length decode_row fmap list_fmap app steps_after edges_from].
  unfold next_other. rewrite last_snoc. cbn [steps_left types_left edges_left firsts_left].
  destruct (entry_in_range x Hx) as [-> ->]. rewrite step_back by apply Hx.
  cbn [ascending] in Hasc. apply andb_true_iff in Hasc as [Hlt Hasc]. apply bool_decide_eq_true in Hlt.
  destruct x as [t o e]. cbn [edge_type other edge]. rewrite bool_decide_true by done. cbn [negb].
  specialize (IH (l1 ++ [y]) (mkAdjacent t o e) Hasc). etransitivity; [exact IH|].
  by rewrite <- app_assoc.
Qed.

Lemma decode_row_all pos row l T F S E :
  Forall ok_entry l → ascending l = true → Forall (λ f, fb ≤ f) (firsts_of l) →
  decode_row fb eb pos row (length l) []
    (mkColumns ((edge_type <$> l) ++ T) (firsts_from l ++ F) (steps_of l ++ S) (edges_from l ++ E)) =
  Ok (l, mkColumns T F S E).
Proof.
  intros Hok Hasc Hf. destruct l as [|x l]; [done|]. apply Forall_cons in Hok as [Hx Hok].
  unfold firsts_from. cbn [length decode_row fmap list_fmap app steps_of firsts_of edges_from].
  unfold next_other. cbn [last steps_left types_left edges_left firsts_left].
  destruct (entry_in_range x Hx) as [-> ->].
  assert (checked_add64 fb (other x - fb) = Some (other x)) as ->.
  { unfold checked_add64. destruct Hx as (_ & Ho & _). unfold is_u64, u64_max in *.
    rewrite (proj2 (Z.leb_le _ _)) by lia. f_equal. lia. }
  destruct x as [t o e]. cbn [edge_type other edge app].
  exact (decode_row_rest pos row [] (mkAdjacent t o e) l T F S E Hok Hasc).
Qed.

Lemma decode_rows_all pos row ls :
  Forall (Forall ok_entry) ls → Forall (λ l, ascending l = true) ls →
  Forall (λ f, fb ≤ f) (ls ≫= firsts_of) →
  decode_rows fb eb pos row ((λ l, Z.of_nat (length l)) <$> ls)
    (mkColumns (edge_type <$> concat ls) (ls ≫= firsts_from) (ls ≫= steps_of) (edges_from (concat ls))) =
  Ok ls.
Proof.
  intros Hok Hasc. revert row. induction Hok as [|l ls Hl _ IH]; intros row Hf; [done|].
  apply Forall_cons in Hasc as [Hal Hasc]. cbn [mbind list_bind] in Hf. apply Forall_app in Hf as [Hfl Hf].
  cbn [decode_rows fmap list_fmap concat]. rewrite Nat2Z.id.
  unfold edges_from. rewrite !fmap_app. cbn [mbind list_bind].
  rewrite (decode_row_all pos row l) by done. cbn [mbind result_bind].
  fold (edges_from (concat ls)). by rewrite (IH Hasc) by done.
Qed.
End rows.

Lemma firsts_from_bind fb ls : (λ f, f - fb) <$> (ls ≫= firsts_of) = ls ≫= firsts_from fb.
Proof. induction ls as [|l ls IH]; [done|]. cbn [mbind list_bind]. by rewrite fmap_app, IH. Qed.

(** ** Lengths and ranges of the columns *)

Lemma min_or_0_le values v : v ∈ values → min_or_0 values ≤ v.
Proof.
  destruct values as [|x values]; [by intros ?%not_elem_of_nil|]. cbn [min_or_0].
  rewrite elem_of_cons. revert x. induction values as [|y values IH]; intros x [->|Hv]; cbn [foldr].
  - lia.
  - by apply not_elem_of_nil in Hv.
  - specialize (IH x ltac:(by left)). lia.
  - apply elem_of_cons in Hv as [->|Hv]; [lia|]. specialize (IH x ltac:(by right)). lia.
Qed.

Lemma min_or_0_u64 values : Forall is_u64 values → is_u64 (min_or_0 values).
Proof.
  intros Hvs. destruct Hvs as [|x values Hx Hvs]; [unfold is_u64; cbn; lia|]. cbn [min_or_0].
  induction Hvs as [|y values Hy _ IH]; [done|]. cbn [foldr]. unfold is_u64 in *. lia.
Qed.

Lemma sub_base_u64 values :
  Forall is_u64 values → Forall is_u64 ((λ v, v - min_or_0 values) <$> values).
Proof.
  intros Hvs. pose proof (min_or_0_u64 _ Hvs) as Hm. apply Forall_fmap, Forall_forall. intros v Hv. cbn.
  pose proof (min_or_0_le _ _ Hv). apply (proj1 (Forall_forall _ _) Hvs) in Hv. unfold is_u64 in *. lia.
Qed.

Lemma zigzag_u64 d : is_u64 (zigzag d).
Proof. rewrite zigzag_is_encode. apply zigzag_encode_u64. Qed.

Lemma steps_after_u64 previous l :
  Forall is_u64 (steps_after previous l) ∧ length (steps_after previous l) = length l.
Proof.
  revert previous. induction l as [|x l IH]; intros previous; [done|]. destruct (IH (other x)) as [H1 H2].
  split; [constructor; [apply zigzag_u64|done]|cbn; by rewrite H2].
Qed.

(** A row of the chunk has an entry with a first other end, or none. *)
Lemma columns_lengths (ls : list (list Adjacent)) :
  Forall is_u64 (ls ≫= steps_of) ∧
  length (ls ≫= firsts_of) = length (filter (λ d, 0 < d) ((λ l, Z.of_nat (length l)) <$> ls)) ∧
  (length (ls ≫= firsts_of) + length (ls ≫= steps_of))%nat = length (concat ls).
Proof.
  induction ls as [|l ls (IH1 & IH2 & IH3)]; [by split_and!|]. cbn [mbind list_bind fmap list_fmap concat].
  rewrite filter_cons, !length_app. destruct l as [|x l].
  - cbn in *. split_and!; auto.
  - destruct (steps_after_u64 (other x) l) as [H1 H2].
    cbn [firsts_of steps_of length]. rewrite decide_True by lia. split_and!.
    + by apply Forall_app.
    + cbn. by rewrite IH2.
    + rewrite H2. cbn [length]. unfold mbind in *. lia.
Qed.

Lemma checked_sum_degrees ls sum :
  sum + Z.of_nat (length (concat ls)) ≤ u64_max →
  checked_sum sum ((λ l : list Adjacent, Z.of_nat (length l)) <$> ls) = Some (sum + Z.of_nat (length (concat ls))).
Proof.
  revert sum. induction ls as [|l ls IH]; intros sum Hle; cbn [fmap list_fmap checked_sum concat].
  - f_equal. cbn. lia.
  - cbn [concat] in Hle. rewrite length_app in Hle. unfold checked_add64. rewrite (proj2 (Z.leb_le _ _)) by lia.
    cbn [mbind option_bind]. rewrite IH by lia. f_equal. rewrite length_app. lia.
Qed.

(** ** Encoding *)

(** The lists a chunk holds: 1 to [max] entries, at most [max] rows, each
    ascending without duplicates. *)
Definition chunk_ok (ls : list (list Adjacent)) (max : nat) : Prop :=
  (0 < length (concat ls) ≤ max)%nat ∧ (length ls ≤ max)%nat ∧ Forall (λ l, ascending l = true) ls.

Lemma first_unsorted_None ls : first_unsorted ls = None ↔ Forall (λ l, ascending l = true) ls.
Proof.
  unfold first_unsorted. rewrite fmap_None, list_find_None. apply Forall_iff. intros l.
  apply not_false_iff_true.
Qed.

Lemma encode_refuses ls first max : ¬ chunk_ok ls max → is_ok (encode ls first max) = false.
Proof.
  intros Hbad. unfold encode. destruct (_ || _) eqn:E; [done|]. bool_to_prop.
  destruct (first_unsorted ls) as [r|] eqn:Hs; [done|]. destruct Hbad. apply first_unsorted_None in Hs.
  apply Nat.eqb_neq in H. apply Nat.ltb_ge in H0, H1. split_and!; [lia..|done].
Qed.

Lemma Forall_concat_2 {A} (P : A → Prop) (ls : list (list A)) : Forall (Forall P) ls → Forall P (concat ls).
Proof. induction 1; cbn [concat]; [constructor|]. by apply Forall_app. Qed.

Lemma firsts_u64 ls : Forall (Forall ok_entry) ls → Forall is_u64 (ls ≫= firsts_of).
Proof.
  induction 1 as [|l ls Hl _ IH]; [constructor|]. cbn [mbind list_bind]. apply Forall_app. split; [|done].
  destruct Hl as [|x l Hx _]; constructor; [apply Hx|constructor].
Qed.

Section round_trip.
Context (ls : list (list Adjacent)) (first : Z) (max : nat).
Context (Hmax : Z.of_nat max ≤ u32_max) (Hfirst : 0 ≤ first ≤ u32_max).
Context (Hok : Forall (Forall ok_entry) ls) (Hchunk : chunk_ok ls max).

Let entries := concat ls.
Let fb := min_or_0 (ls ≫= firsts_of).
Let eb := min_or_0 (edge <$> entries).

Lemma entries_ok : Forall ok_entry entries.
Proof. by apply Forall_concat_2. Qed.

Lemma edges_u64 : Forall is_u64 (edge <$> entries).
Proof. apply Forall_fmap. eapply Forall_impl; [exact entries_ok|]. by intros x (_ & _ & ?). Qed.

(** The bytes are the header and five bodies that read back. *)
Lemma encode_shape :
  ∃ degrees types firsts steps edges,
    encode ls first max =
      Ok ([0; 0; 0; 0] ++ to_le 4 (Z.of_nat (length ls)) ++ to_le 4 first ++
          to_le 4 (Z.of_nat (length entries)) ++ degrees ++ types ++ to_le 8 fb ++ firsts ++
          steps ++ to_le 8 eb ++ edges) ∧
    (∀ bytes pos rest, at_pos bytes pos (degrees ++ rest) →
       Reader.body bytes pos (length ls) =
         Ok ((λ l, Z.of_nat (length l)) <$> ls, (pos + length degrees)%nat)) ∧
    (∀ bytes pos rest, at_pos bytes pos (types ++ rest) →
       Reader.body bytes pos (length entries) = Ok (edge_type <$> entries, (pos + length types)%nat)) ∧
    (∀ bytes pos rest, at_pos bytes pos (firsts ++ rest) →
       Reader.body bytes pos (length (ls ≫= firsts_of)) =
         Ok (ls ≫= firsts_from fb, (pos + length firsts)%nat)) ∧
    (∀ bytes pos rest, at_pos bytes pos (steps ++ rest) →
       Reader.body bytes pos (length (ls ≫= steps_of)) = Ok (ls ≫= steps_of, (pos + length steps)%nat)) ∧
    (∀ bytes pos rest, at_pos bytes pos (edges ++ rest) →
       Reader.body bytes pos (length entries) = Ok (edges_from eb entries, (pos + length edges)%nat)).
Proof.
  destruct Hchunk as (Hcount & Hrows & Hasc).
  destruct (columns_lengths ls) as (Hsteps & _ & Hlen). fold entries in Hcount, Hlen.
  assert (Z.of_nat (length entries) ≤ u32_max) as He by lia.
  destruct (pack_body_reads ((λ l : list Adjacent, Z.of_nat (length l)) <$> ls)) as (degrees & Hd & Rd).
  { apply Forall_fmap, Forall_forall. intros l Hl. unfold is_u64. cbn. unfold u32_max in *.
    assert (length l ≤ length entries)%nat; [|lia]. unfold entries. clear -Hl.
    induction Hl; cbn [concat]; rewrite length_app; lia. }
  { rewrite length_fmap. lia. }
  destruct (pack_body_reads (edge_type <$> entries)) as (types & Ht & Rt).
  { apply Forall_fmap. eapply Forall_impl; [exact entries_ok|]. intros x (Hx & _). unfold is_u64, u32_max in *. cbn. lia. }
  { by rewrite length_fmap. }
  destruct (pack_body_reads ((λ f, f - fb) <$> (ls ≫= firsts_of))) as (firsts & Hf & Rf).
  { apply sub_base_u64, firsts_u64, Hok. }
  { rewrite length_fmap. lia. }
  destruct (pack_body_reads (ls ≫= steps_of) Hsteps) as (steps & Hs & Rs); [lia|].
  destruct (pack_body_reads ((λ e, e - eb) <$> (edge <$> entries))) as (edges & Hg & Rg).
  { apply sub_base_u64, edges_u64. }
  { by rewrite !length_fmap. }
  exists degrees, types, firsts, steps, edges. split.
  - unfold encode. fold entries. replace (length entries =? 0)%nat with false by (symmetry; apply Nat.eqb_neq; lia).
    replace (max <? length entries)%nat with false by (symmetry; apply Nat.ltb_ge; lia).
    replace (max <? length ls)%nat with false by (symmetry; apply Nat.ltb_ge; lia). cbn [orb].
    rewrite (proj2 (first_unsorted_None ls) Hasc). unfold put_u32.
    rewrite !(proj2 (Z.leb_le _ _)) by lia. cbn [mbind result_bind]. fold fb eb.
    by rewrite Hd, Ht, Hf, Hs, Hg.
  - rewrite length_fmap in Rd. rewrite length_fmap in Rt. rewrite length_fmap in Rf.
    rewrite !length_fmap in Rg. rewrite <- list_fmap_compose in Rg.
    rewrite firsts_from_bind in Rf. split_and!; assumption.
Qed.

(** Reads the next part of the bytes: the read and where the next one is. *)
Ltac next_u32 H v :=
  let R := fresh in let H' := fresh in
  destruct (read_u32_at _ _ v _ ltac:(unfold u32_max in *; lia) H) as (R & _ & H');
  rewrite R; cbn [mbind result_bind]; clear R H; rename H' into H.
Ltac next_u64 H v Hv :=
  let R := fresh in let H' := fresh in
  destruct (read_u64_at _ _ v _ Hv H) as (R & H');
  rewrite R; cbn [mbind result_bind]; clear R H; rename H' into H.
Ltac next_body H R :=
  rewrite (R _ _ _ H); cbn [mbind result_bind]; apply at_pos_app in H.

Lemma encode_decode :
  (first ≠ 0 → length ls = 1%nat) →
  ∃ out, encode ls first max = Ok out ∧
         decode out (Z.of_nat (length ls)) (Z.of_nat max) = Ok (mkChunk first ls).
Proof.
  intros Hpiece. destruct encode_shape as (degrees & types & firsts & steps & edges & He & Rd & Rt & Rf & Rs & Rg).
  eexists. split; [exact He|]. clear He. set (bytes := _ ++ _).
  destruct Hchunk as (Hcount & Hrows & Hasc). destruct (columns_lengths ls) as (_ & Hlf & Hlen).
  fold entries in Hcount, Hlen.
  assert (length ls ≠ 0%nat) as Hne by (intros E; apply nil_length_inv in E; unfold entries in *; subst; cbn in *; lia).
  pose proof (at_pos_0 bytes) as Hat. unfold bytes at 2 in Hat. change [0; 0; 0; 0] with (to_le 4 0) in Hat.
  unfold decode. next_u32 Hat 0. change (negb (Z.land 0 255 =? 0)) with false. next_u32 Hat (Z.of_nat (length ls)).
  rewrite (Z.eqb_refl (Z.of_nat (length ls))). replace (Z.of_nat (length ls) =? 0) with false by lia.
  replace (Z.of_nat max <? Z.of_nat (length ls)) with false by lia. cbn [negb orb].
  next_u32 Hat first. next_u32 Hat (Z.of_nat (length entries)).
  replace (Z.of_nat (length entries) =? 0) with false by lia.
  replace (Z.of_nat max <? Z.of_nat (length entries)) with false by lia. cbn [orb].
  replace (negb (first =? 0) && negb (Z.of_nat (length ls) =? 1)) with false.
  2:{ destruct (first =? 0) eqn:E; [done|]. bool_to_prop. rewrite (Hpiece E). done. }
  rewrite !Nat2Z.id. next_body Hat Rd.
  rewrite checked_sum_degrees by (fold entries; unfold u32_max, u64_max in *; lia). fold entries.
  rewrite Z.add_0_l, bool_decide_true by done. cbn [negb]. rewrite <- Hlf. next_body Hat Rt.
  next_u64 Hat fb (min_or_0_u64 _ (firsts_u64 ls Hok)). next_body Hat Rf.
  replace (length entries - length (ls ≫= firsts_of))%nat with (length (ls ≫= steps_of)) by lia.
  next_body Hat Rs. next_u64 Hat eb (min_or_0_u64 _ edges_u64).
  rewrite <- (app_nil_r edges) in Hat. next_body Hat Rg. rewrite (at_pos_end _ _ Hat), Nat.eqb_refl. cbn [negb].
  unfold entries. rewrite decode_rows_all; [done| | |].
  - exact Hok.
  - exact Hasc.
  - apply Forall_forall. intros f Hf. by apply min_or_0_le.
Qed.
End round_trip.

(** ** What is accepted *)

Lemma ascending_snoc l x :
  ascending l = true → (∀ y, last l = Some y → adj_lt y x) → ascending (l ++ [x]) = true.
Proof.
  induction l as [|y l IH]; intros Hl Hx; [done|]. destruct l as [|z l].
  - cbn. rewrite bool_decide_true; [done|]. by apply Hx.
  - cbn [app ascending] in *. apply andb_true_iff in Hl as [Hyz Hl]. rewrite Hyz. cbn [andb].
    apply IH; [done|]. intros w Hw. by apply Hx.
Qed.

(** Values from a body are not negative, and there are as many as asked for. *)
Lemma unpack_ok p values :
  BitPackedInts.unpack p = Some values → length values = BitPack.count p ∧ Forall (Z.le 0) values.
Proof.
  unfold BitPackedInts.unpack. destruct (BitPack.count p =? 0)%nat eqn:E0.
  { intros [= <-]. apply Nat.eqb_eq in E0. by rewrite E0. }
  destruct (bits_per_value p =? 0)%nat.
  { intros [= <-]. rewrite length_replicate. split; [done|]. by apply Forall_replicate. }
  destruct (64 / bits_per_value p =? 0)%nat; [done|]. intros [= <-]. rewrite length_map, length_seq. split; [done|].
  apply Forall_fmap, Forall_forall. intros i _. cbn. unfold BitPackedInts.value_in.
  apply Z.land_nonneg. right. apply mask_u64.
Qed.

Lemma unpack_panics p : BitPackedInts.unpack p = None → BitPack.count p ≠ O ∧ (64 < bits_per_value p)%nat.
Proof.
  unfold BitPackedInts.unpack. destruct (BitPack.count p =? 0)%nat eqn:E0; [done|]. apply Nat.eqb_neq in E0.
  destruct (bits_per_value p =? 0)%nat eqn:E1; [done|]. apply Nat.eqb_neq in E1.
  destruct (64 / bits_per_value p =? 0)%nat eqn:E2; [|done]. apply Nat.eqb_eq in E2. intros _.
  split; [done|]. destruct (decide (64 < bits_per_value p)%nat) as [|H]; [done|].
  assert (0 < 64 / bits_per_value p)%nat; [apply Nat.div_str_pos; lia|lia].
Qed.

Lemma body_sound bytes pos count :
  match Reader.body bytes pos count with
  | Ok (values, _) => length values = count ∧ Forall (Z.le 0) values
  | Err e => e ≠ Panics
  end.
Proof.
  unfold Reader.body. destruct (read_bitpacked_body bytes pos) as [[p next]|]; cbn [ok_or mbind result_bind]; [|done].
  destruct (_ || _) eqn:E; [done|]. bool_to_prop. apply Nat.eqb_eq in H.
  destruct (BitPackedInts.unpack p) as [values|] eqn:Hu; cbn [ok_or mbind result_bind].
  - apply unpack_ok in Hu. by rewrite <- H.
  - apply unpack_panics in Hu as [Hc Hb]. unfold Reader.body_words in H0. exfalso.
    replace (count =? 0)%nat with false in H0 by (symmetry; apply Nat.eqb_neq; lia). cbn [andb] in H0.
    replace (bits_per_value p <=? 64)%nat with false in H0 by (symmetry; apply Nat.leb_gt; lia).
    rewrite andb_false_r in H0. done.
Qed.

Lemma u32_sound bytes pos :
  Forall is_byte bytes →
  match Reader.u32 bytes pos with Ok (v, _) => 0 ≤ v ≤ u32_max | Err e => e ≠ Panics end.
Proof.
  intros Hb. unfold Reader.u32, slice. destruct (_ <=? _)%nat eqn:E; cbn; [|done].
  assert (Forall is_byte (take 4 (drop pos bytes))) as Hb' by by apply Forall_take, Forall_drop.
  apply from_le_bound in Hb'. rewrite length_take, length_drop in Hb'. apply Nat.leb_le in E.
  rewrite Nat.min_l in Hb' by lia. unfold u32_max. lia.
Qed.

Lemma u64_sound bytes pos :
  Forall is_byte bytes →
  match Reader.u64 bytes pos with Ok (v, _) => 0 ≤ v | Err e => e ≠ Panics end.
Proof.
  intros Hb. unfold Reader.u64, slice. destruct (_ <=? _)%nat eqn:E; cbn; [|done].
  assert (Forall is_byte (take 8 (drop pos bytes))) as Hb' by by apply Forall_take, Forall_drop.
  apply from_le_bound in Hb'. lia.
Qed.

Section accepted.
Context (fb eb : Z) (Hfb : 0 ≤ fb) (Heb : 0 ≤ eb).

Definition cols_ok (c : columns) : Prop :=
  Forall (Z.le 0) (types_left c) ∧ Forall (Z.le 0) (firsts_left c) ∧ Forall (Z.le 0) (edges_left c).

Definition list_ok (l : list Adjacent) : Prop := ascending l = true ∧ Forall ok_entry l.

(** The first other ends a row of [n] more entries after [l] takes. *)
Definition firsts_needed (l : list Adjacent) (n : nat) : nat :=
  match last l, n with None, S _ => 1 | _, _ => 0 end.

(** The columns that are left hold the entries of the rest of the row. *)
Definition cols_hold (c : columns) (l : list Adjacent) (n : nat) : Prop :=
  (n ≤ length (types_left c))%nat ∧ (n ≤ length (edges_left c))%nat ∧
  (firsts_needed l n ≤ length (firsts_left c))%nat ∧
  (n - firsts_needed l n ≤ length (steps_left c))%nat.

Definition cols_after (c c' : columns) (l : list Adjacent) (n : nat) : Prop :=
  (length (types_left c') + n = length (types_left c))%nat ∧
  (length (edges_left c') + n = length (edges_left c))%nat ∧
  (length (firsts_left c') + firsts_needed l n = length (firsts_left c))%nat ∧
  (length (steps_left c') + (n - firsts_needed l n) = length (steps_left c))%nat.

Lemma next_other_sound l c n :
  cols_hold c l (S n) → cols_ok c →
  ∃ o c', next_other fb l c = Some (o, c') ∧ types_left c' = types_left c ∧ edges_left c' = edges_left c ∧
    cols_ok c' ∧ (∀ v, o = Some v → is_u64 v) ∧
    (length (firsts_left c') + firsts_needed l 1 = length (firsts_left c))%nat ∧
    (length (steps_left c') + (1 - firsts_needed l 1) = length (steps_left c))%nat.
Proof.
  intros (_ & _ & Hf & Hs) (Ht & Hfs & He). unfold next_other, firsts_needed in *.
  destruct (last l) as [y|].
  - destruct (steps_left c) as [|s ss]; [cbn in Hs; lia|]. eexists _, _. split; [done|].
    cbn [types_left firsts_left steps_left edges_left length]. split_and!; try (done || lia).
    intros v [= <-]. apply wrap64_u64.
  - destruct (firsts_left c) as [|f fs] eqn:Efs; [cbn in Hf; lia|]. eexists _, _. split; [done|].
    cbn [types_left firsts_left steps_left edges_left length]. apply Forall_cons in Hfs as [Hf0 Hfs].
    split_and!; try (done || lia).
    intros v. unfold checked_add64. destruct (_ <=? _) eqn:E; [|done]. intros [= <-]. bool_to_prop.
    unfold is_u64, u64_max in *. lia.
Qed.

Lemma decode_row_sound pos row n l c :
  cols_hold c l n → cols_ok c → list_ok l →
  match decode_row fb eb pos row n l c with
  | Ok (l', c') => list_ok l' ∧ length l' = (length l + n)%nat ∧ cols_after c c' l n ∧ cols_ok c'
  | Err e => e ≠ Panics
  end.
Proof.
  revert l c. induction n as [|n IH]; intros l c Hh Hc Hl; cbn [decode_row].
  { split; [done|]. split; [lia|]. split; [|done]. unfold cols_after, firsts_needed. destruct (last l); lia. }
  destruct (next_other_sound l c n Hh Hc) as (o & c1 & -> & Ht & He & (Hc1t & Hc1f & Hc1e) & Ho & Hlf & Hls).
  rewrite Ht in Hc1t |- *. rewrite He in Hc1e |- *. destruct Hh as (Hnt & Hne & Hnf & Hns).
  destruct (types_left c) as [|t ts] eqn:Ets; [cbn in Hnt; lia|].
  destruct (edges_left c) as [|e es] eqn:Ees; [cbn in Hne; lia|].
  apply Forall_cons in Hc1t as [Ht0 Hc1t]. apply Forall_cons in Hc1e as [He0 Hc1e].
  destruct o as [o|]; [|done]. unfold try_u32. destruct (t <=? u32_max) eqn:Et; [|done]. bool_to_prop.
  destruct (checked_add64 eb e) as [e'|] eqn:Ee; [|done].
  assert (is_u64 e') as He'.
  { unfold checked_add64 in Ee. destruct (_ <=? _) eqn:E; simplify_eq. bool_to_prop. unfold is_u64, u64_max in *. lia. }
  set (x := mkAdjacent t o e'). destruct (match last l with Some y => _ | None => _ end) eqn:Elt; [done|].
  assert (list_ok (l ++ [x])) as Hlx.
  { split; [apply ascending_snoc; [apply Hl|]|apply Forall_app; split; [apply Hl|]].
    - intros y Hy. rewrite Hy in Elt. by bool_to_prop.
    - constructor; [|constructor]. split_and!; cbn; auto; by apply Ho. }
  assert (∀ m, firsts_needed (l ++ [x]) m = O) as Hz by (intros m; unfold firsts_needed; by rewrite last_snoc).
  assert (firsts_needed l (S n) = firsts_needed l 1) as Hfn by (unfold firsts_needed; by destruct (last l)).
  assert (firsts_needed l 1 ≤ 1)%nat as Hle1 by (unfold firsts_needed; destruct (last l); lia).
  specialize (IH (l ++ [x]) (mkColumns ts (firsts_left c1) (steps_left c1) es)).
  cbn [length] in Hnt, Hne.
  destruct (decode_row _ _ _ _ n _ _) as [[l' c']|err]; [|apply IH; [|done|done]].
  - destruct IH as (H1 & H2 & (A1 & A2 & A3 & A4) & H4); [|done|done|].
    + unfold cols_hold. rewrite Hz. cbn [types_left firsts_left steps_left edges_left]. lia.
    + rewrite Hz in A3, A4. cbn [types_left firsts_left steps_left edges_left] in A1, A2, A3, A4.
      split; [done|]. split; [rewrite length_app in H2; cbn in H2; lia|]. split; [|done].
      unfold cols_after. rewrite Ets, Ees. cbn [length]. lia.
  - unfold cols_hold. rewrite Hz. cbn [types_left firsts_left steps_left edges_left]. lia.
Qed.
End accepted.

Definition total_degree (ds : list Z) : nat := sum_list (Z.to_nat <$> ds).
Definition positives (ds : list Z) : nat := length (filter (λ d, 0 < d) ds).

Lemma positives_le ds : (positives ds ≤ total_degree ds)%nat.
Proof.
  unfold positives, total_degree. induction ds as [|d ds IH]; [done|]. rewrite filter_cons. cbn.
  case_decide; cbn; lia.
Qed.

Lemma checked_sum_total ds sum n :
  Forall (Z.le 0) ds → checked_sum sum ds = Some n → n = sum + Z.of_nat (total_degree ds).
Proof.
  intros Hds. revert sum. induction Hds as [|d ds Hd _ IH]; intros sum; cbn [checked_sum].
  - intros [= <-]. cbn. lia.
  - unfold checked_add64. destruct (_ <=? _); [|done]. cbn [mbind option_bind]. intros ->%IH.
    unfold total_degree. cbn. lia.
Qed.

Lemma decode_rows_sound fb eb pos row ds c :
  0 ≤ fb → 0 ≤ eb → Forall (Z.le 0) ds → cols_ok c →
  length (types_left c) = total_degree ds → length (edges_left c) = total_degree ds →
  length (firsts_left c) = positives ds → length (steps_left c) = (total_degree ds - positives ds)%nat →
  match decode_rows fb eb pos row ds c with
  | Ok ls => Forall list_ok ls ∧ length ls = length ds ∧ length (concat ls) = total_degree ds
  | Err e => e ≠ Panics
  end.
Proof.
  intros Hfb Heb Hds. revert row c. induction Hds as [|d ds Hd _ IH]; intros row c Hc Ht He Hf Hs; [done|].
  cbn [decode_rows]. pose proof (positives_le ds) as Hple.
  unfold positives, total_degree in Ht, He, Hf, Hs. rewrite filter_cons in Hf, Hs. cbn in Ht, He, Hs.
  fold (total_degree ds) in Ht, He, Hs.
  assert (positives ds + firsts_needed [] (Z.to_nat d) = length (firsts_left c))%nat as Hf'.
  { rewrite Hf. unfold firsts_needed, positives. cbn. destruct (decide (0 < d)).
    - destruct (Z.to_nat d) eqn:E; [lia|]. cbn. lia.
    - replace (Z.to_nat d) with O by lia. lia. }
  assert (total_degree ds - positives ds + (Z.to_nat d - firsts_needed [] (Z.to_nat d)) =
          length (steps_left c))%nat as Hs'.
  { rewrite Hs. unfold firsts_needed, positives in *. cbn. destruct (decide (0 < d)).
    - destruct (Z.to_nat d) eqn:E; [lia|]. cbn. lia.
    - replace (Z.to_nat d) with O by lia. lia. }
  assert (cols_hold c [] (Z.to_nat d)) as Hh by (unfold cols_hold; lia).
  pose proof (decode_row_sound fb eb Hfb Heb pos row (Z.to_nat d) [] c Hh Hc ltac:(done)) as Hrow.
  destruct (decode_row _ _ _ _ _ _ _) as [[l c']|e]; cbn [mbind result_bind]; [|done].
  destruct Hrow as (Hl & Hll & (A1 & A2 & A3 & A4) & Hc').
  specialize (IH (S row) c' Hc' ltac:(lia) ltac:(lia) ltac:(lia) ltac:(lia)).
  destruct (decode_rows _ _ _ _ _ _) as [ls|e]; [|done]. cbn [mbind result_bind].
  destruct IH as (H1 & H2 & H3). split; [by constructor|]. split; [cbn; lia|].
  cbn [concat]. rewrite length_app, H3, Hll. reflexivity.
Qed.

(** Steps over a read of [decode]: its error, or what the value satisfies. *)
Ltac sound_read lem :=
  let H := fresh "Hread" in
  pose proof lem as H; cbn [mbind result_bind] in H |- *;
  match type of H with
  | match ?r with Ok _ => _ | Err _ => _ end => destruct r as [[? ?]|?]; cbn [mbind result_bind]; [|exact H]
  end.

Lemma decode_sound bytes row_count max :
  Forall is_byte bytes →
  match decode bytes row_count max with
  | Ok chunk =>
      Z.of_nat (length (lists chunk)) = row_count ∧ 0 < row_count ≤ max ∧
      0 < Z.of_nat (length (concat (lists chunk))) ≤ max ∧ Forall list_ok (lists chunk) ∧
      0 ≤ first_entry chunk ≤ u32_max ∧ (first_entry chunk ≠ 0 → row_count = 1)
  | Err e => e ≠ Panics
  end.
Proof.
  intros Hb. unfold decode. sound_read (u32_sound bytes 0 Hb).
  destruct (negb _); [done|]. sound_read (u32_sound bytes n Hb). rename z0 into rows.
  destruct (_ || _) eqn:Erows; [done|]. bool_to_prop. subst rows. sound_read (u32_sound bytes n0 Hb). rename z0 into first.
  sound_read (u32_sound bytes n1 Hb). rename z0 into entries. destruct (_ || _) eqn:Een; [done|]. bool_to_prop.
  destruct (negb (first =? 0) && negb (row_count =? 1)) eqn:Epiece; [done|].
  sound_read (body_sound bytes n2 (Z.to_nat row_count)). destruct Hread3 as [Hld Hd0].
  destruct (bool_decide _) eqn:Esum; [|done]. bool_to_prop. cbn [negb].
  apply checked_sum_total in Esum; [|done]. rewrite Z.add_0_l in Esum. fold (positives l).
  sound_read (body_sound bytes n3 (Z.to_nat entries)). destruct Hread3 as [Hlt Ht0].
  sound_read (u64_sound bytes n4 Hb). rename z0 into fb.
  sound_read (body_sound bytes n5 (positives l)). destruct Hread4 as [Hlf Hf0].
  sound_read (body_sound bytes n6 (Z.to_nat entries - positives l)). destruct Hread4 as [Hls Hs0].
  sound_read (u64_sound bytes n7 Hb). rename z0 into eb.
  sound_read (body_sound bytes n8 (Z.to_nat entries)). destruct Hread5 as [Hle He0].
  destruct (n9 =? length bytes)%nat; cbn [negb]; [|done].
  pose proof (decode_rows_sound fb eb n9 0 l (mkColumns l0 l1 l2 l3)) as Hrows.
  cbn [types_left firsts_left steps_left edges_left] in Hrows.
  specialize (Hrows ltac:(done) ltac:(done) Hd0 ltac:(done) ltac:(lia) ltac:(lia) ltac:(lia) ltac:(lia)).
  destruct (decode_rows _ _ _ _ _ _) as [ls|e]; cbn [mbind result_bind]; [|done].
  destruct Hrows as (Hok & Hlen & Htot). cbn [lists first_entry]. rewrite Hlen, Hld, Htot.
  split; [lia|]. split; [lia|]. split; [lia|]. split; [done|]. split; [lia|].
  intros Hf. destruct Epiece as [E|E]; bool_to_prop; lia.
Qed.

(** ** A checkpoint of an adjacency *)

Lemma in_order_ascending l : in_order l → NoDup (edge <$> l) → ascending l = true.
Proof.
  induction 1 as [|x l Hs IH Hx]; intros Hnd; [done|]. apply NoDup_cons in Hnd as [Hne Hnd].
  specialize (IH Hnd). destruct l as [|y l]; [done|].
  change (bool_decide (adj_lt x y) && ascending (y :: l) = true). rewrite IH, bool_decide_true; [done|].
  apply Forall_cons in Hx as [Hxy _]. split; [done|]. intros ->. apply Hne. left.
Qed.

(** *** Rows of a chunk *)

(** The rows ascend from [at_] on. *)
Fixpoint asc_from (at_ : nat) (items : list (nat * list Adjacent)) : Prop :=
  match items with [] => True | (r, _) :: items => (at_ ≤ r)%nat ∧ asc_from (S r) items end.

Fixpoint spread (at_ : nat) (items : list (nat * list Adjacent)) : list (list Adjacent) :=
  match items with [] => [] | (r, l) :: items => replicate (r - at_) [] ++ l :: spread (S r) items end.

Definition end_of (at_ : nat) (items : list (nat * list Adjacent)) : nat := match last items with Some (r, _) => S r | None => at_ end.

Lemma end_of_cons at_ r l items : end_of at_ ((r, l) :: items) = end_of (S r) items.
Proof. unfold end_of. rewrite last_cons. by destruct (last items). Qed.

Lemma end_of_le at_ items : asc_from at_ items → (at_ ≤ end_of at_ items)%nat.
Proof.
  revert at_. induction items as [|[r l] items IH]; intros at_; [done|]. intros [Hr Hi]. rewrite end_of_cons. specialize (IH (S r) Hi). lia.
Qed.

Lemma dense_spread first items pre :
  asc_from (first + length pre) items →
  foldl (λ d item, <[(item.1 - first)%nat := item.2]> d) (pre ++ replicate (end_of (first + length pre) items - (first + length pre)) []) items =
  pre ++ spread (first + length pre) items.
Proof.
  revert pre. induction items as [|[r l] items IH]; intros pre; cbn [asc_from foldl spread].
  { intros _. unfold end_of. cbn. by rewrite Nat.sub_diag. }
  intros [Hr Hi]. rewrite end_of_cons. pose proof (end_of_le _ _ Hi) as He. cbn [fst snd].
  set (k := (r - (first + length pre))%nat). replace (end_of (S r) items - (first + length pre))%nat with (k + S (end_of (S r) items - S r))%nat by (unfold k; lia).
  rewrite replicate_add. replace (r - first)%nat with (length pre + k)%nat by (unfold k; lia). rewrite insert_app_r.
  replace k with (length (replicate k (@nil Adjacent)) + 0)%nat at 1 by (rewrite length_replicate; lia). rewrite insert_app_r. cbn [replicate insert list_insert].
  specialize (IH (pre ++ replicate k [] ++ [l])). rewrite !length_app, length_replicate in IH. cbn [length] in IH.
  replace (first + (length pre + (k + 1)))%nat with (S r) in IH by (unfold k; lia). specialize (IH Hi). rewrite <- !app_assoc in IH. cbn [app] in IH. exact IH.
Qed.

Lemma spread_length at_ items : asc_from at_ items → length (spread at_ items) = (end_of at_ items - at_)%nat.
Proof.
  revert at_. induction items as [|[r l] items IH]; intros at_; cbn [asc_from spread]; [unfold end_of; cbn; lia|]. intros [Hr Hi].
  pose proof (end_of_le _ _ Hi). rewrite end_of_cons, length_app, length_replicate. cbn [length]. rewrite IH by done. lia.
Qed.

Lemma spread_Forall (P : list Adjacent → Prop) at_ items : P [] → Forall (λ p, P p.2) items → Forall P (spread at_ items).
Proof.
  intros H0 Hi. revert at_. induction Hi as [|[r l] items Hl _ IH]; intros at_; cbn [spread]; [constructor|]. apply Forall_app. split; [by apply Forall_replicate|]. by constructor.
Qed.

Lemma spread_concat at_ items : concat (spread at_ items) = concat (snd <$> items).
Proof.
  revert at_. induction items as [|[r l] items IH]; intros at_; cbn [spread]; [done|]. rewrite concat_app. cbn [fmap list_fmap concat snd]. rewrite IH.
  replace (concat (replicate _ [])) with (@nil Adjacent); [done|]. by induction (r - at_)%nat.
Qed.

(** *** Lists by id *)

Definition put_item (gs : gmap Z Adjacency) (p : Z * list Adjacent) : gmap Z Adjacency :=
  let (group, row) := locate p.1 in <[group := Adjacency.push_sorted row p.2 (default Adjacency.default_ (gs !! group))]> gs.
Definition put_items (gs : gmap Z Adjacency) (items : list (Z * list Adjacent)) : gmap Z Adjacency := foldl put_item gs items.

Definition last_group (lst : option Z) (items : list (Z * list Adjacent)) : option Z :=
  match last items with Some p => Some (locate p.1).1 | None => lst end.

Definition by_id (gst : Z) (items : list (nat * list Adjacent)) : list (Z * list Adjacent) := (λ p, (gst + Z.of_nat p.1, p.2)) <$> items.

Section loads.
Context (max_rows : nat) (max_bytes next_id : Z) (is_node : Z → bool).

Lemma load_lists_skip k id ls gs lst : load_lists is_node id (replicate k [] ++ ls) gs lst = load_lists is_node (id + Z.of_nat k) ls gs lst.
Proof. revert id. induction k as [|k IH]; intros id; cbn [replicate app load_lists]; [f_equal; lia|]. rewrite IH. f_equal; lia. Qed.

Lemma load_lists_spread gst items at_ gs lst :
  asc_from at_ items → Forall (λ p, p.2 ≠ []) items → Forall (λ p, is_node p.1 = true) (by_id gst items) →
  load_lists is_node (gst + Z.of_nat at_) (spread at_ items) gs lst = Ok (put_items gs (by_id gst items), last_group lst (by_id gst items)).
Proof.
  revert at_ gs lst. induction items as [|[r l] items IH]; intros at_ gs lst; [done|]. cbn [asc_from spread by_id fmap list_fmap fst snd]. intros [Hr Hi] [Hl Hls]%Forall_cons [Hn Hns]%Forall_cons.
  rewrite load_lists_skip. replace (gst + Z.of_nat at_ + Z.of_nat (r - at_)) with (gst + Z.of_nat r) by lia. cbn [fst snd] in *. destruct l as [|x l]; [done|]. cbn [load_lists]. rewrite Hn. cbn [negb].
  unfold put_items. cbn [foldl]. unfold put_item at 2. cbn [fst snd]. destruct (locate (gst + Z.of_nat r)) as [g row] eqn:El.
  replace (gst + Z.of_nat r + 1) with (gst + Z.of_nat (S r)) by lia. rewrite IH by done. unfold put_items, last_group. rewrite last_cons. fold (by_id gst items).
  destruct (last (by_id gst items)); [done|]. cbn [fst]. by rewrite El.
Qed.
(** The load has put [items], of chunks that start at or before [bound] and
    end before it. *)
Record reached (s : Loading) (items : list (Z * list Adjacent)) (bound : Z) : Prop := {
  re_groups : groups s = put_items ∅ items;
  re_last : last_list s = last_group None items;
  re_end : ∀ e, column_end s = Some e → e ≤ bound;
  re_order : order s ≤ bound / Z.of_nat max_rows;
}.

Context (Hmax : (0 < max_rows)%nat) (Hmax32 : Z.of_nat max_rows ≤ u32_max).

Lemma reached_le s items b b' : reached s items b → b ≤ b' → reached s items b'.
Proof using Hmax.
  intros [Hg Hl He Ho] Hb. split; [done|done|intros e Hs; specialize (He e Hs); lia|]. pose proof (Z.div_le_mono b b' (Z.of_nat max_rows) ltac:(lia) Hb). lia.
Qed.

(** A list the writer takes: ascending entries within their widths. *)
Definition list_fits (l : list Adjacent) : Prop := l ≠ [] ∧ list_ok l ∧ Z.of_nat (length l) ≤ u32_max.

(** The checks in front of the decoder, for rows of one file row group. *)
Lemma load_chunk_at fg first rows piece bytes decoded s items b :
  let gst := fg * Z.of_nat max_rows in
  let c := mkStored (gst + Z.of_nat first) (Z.of_nat rows) piece bytes in
  (0 < rows)%nat → (first + rows ≤ max_rows)%nat → gst + Z.of_nat (first + rows) ≤ next_id → reached s items b →
  (0 < piece → b ≤ gst + Z.of_nat first + 1) → (piece ≤ 0 → b ≤ gst + Z.of_nat first) → order s ≤ fg →
  decode bytes (Z.of_nat rows) (Z.of_nat max_rows) = Ok decoded →
  load_chunk max_rows next_id is_node c s =
    if 0 <? piece then load_piece c decoded fg s else load_first is_node c decoded (gst + Z.of_nat (first + rows)) fg s.
Proof using Hmax.
  intros gst c Hrows Hin Hnext [Hg Hl He Ho] Hb1 Hb0 Hord Hd.
  assert (Hfg : ∀ k, 0 ≤ k < Z.of_nat max_rows → (gst + k) / Z.of_nat max_rows = fg).
  { intros k Hk. unfold gst. rewrite Z.add_comm, Z.div_add by lia. rewrite Z.div_small by lia. lia. }
  unfold load_chunk. cbn [row_start row_count column_id stored c]. rewrite (Hfg (Z.of_nat first)) by lia.
  replace (gst + Z.of_nat first + Z.of_nat rows - 1) with (gst + Z.of_nat (first + rows - 1)) by lia. rewrite Hfg by lia.
  rewrite (proj2 (Z.eqb_neq _ _)), (proj2 (Z.ltb_ge _ _)), Z.eqb_refl by lia. cbn [orb negb].
  replace (gst + Z.of_nat first + Z.of_nat rows) with (gst + Z.of_nat (first + rows)) by lia.
  rewrite (proj2 (Z.ltb_ge _ _)), (proj2 (Z.ltb_ge fg _)), Hd by lia.
  destruct (Z.ltb_spec 0 piece) as [|Hp]; cbn [negb andb]; [done|]. destruct (column_end s) as [e|] eqn:Ee; [|done]. specialize (He e eq_refl). by rewrite (proj2 (Z.ltb_ge _ _)) by lia.
Qed.
Lemma put_items_app gs items items' : put_items gs (items ++ items') = put_items (put_items gs items) items'.
Proof. apply foldl_app. Qed.

Lemma last_group_app lst items items' : last_group lst (items ++ items') = last_group (last_group lst items) items'.
Proof. unfold last_group. rewrite last_app. by destruct (last items'). Qed.

Lemma order_below fg first s items b : (first < max_rows)%nat → reached s items b → b ≤ fg * Z.of_nat max_rows + Z.of_nat first → order s ≤ fg.
Proof using Hmax.
  intros Hf Hr Hb. pose proof (re_order _ _ _ (reached_le _ _ _ _ Hr Hb)) as Ho. rewrite Z.add_comm, Z.div_add, Z.div_small in Ho by lia. lia.
Qed.

Lemma encoded_reads ls first :
  chunk_ok ls max_rows → Forall (Forall ok_entry) ls → 0 ≤ first ≤ u32_max → (first ≠ 0 → length ls = 1%nat) →
  ∃ bytes, encoded (encode ls first max_rows) = Ok bytes ∧ decode bytes (Z.of_nat (length ls)) (Z.of_nat max_rows) = Ok (mkChunk first ls).
Proof using Hmax32. intros Hc Hok Hf Hp. destruct (encode_decode ls first max_rows Hmax32 Hf Hok Hc Hp) as (bytes & -> & Hd). by exists bytes. Qed.

(** What is needed of the lists of a file row group. *)
Record lists_fit (fg : Z) (items : list (nat * list Adjacent)) : Prop := {
  lf_lists : Forall (λ p, list_fits p.2) items;
  lf_rows : Forall (λ p, (p.1 < max_rows)%nat) items;
  lf_ids : Forall (λ p, p.1 < next_id ∧ is_node p.1 = true) (by_id (fg * Z.of_nat max_rows) items);
}.

Lemma lists_fit_app fg x y : lists_fit fg (x ++ y) ↔ lists_fit fg x ∧ lists_fit fg y.
Proof.
  split.
  - intros [Hl Hr Hi]. apply Forall_app in Hl, Hr. unfold by_id in Hi. rewrite fmap_app in Hi. apply Forall_app in Hi. split; split; tauto.
  - intros [[Hl Hr Hi] [Hl' Hr' Hi']]. split; [by apply Forall_app..|]. unfold by_id. rewrite fmap_app. by apply Forall_app.
Qed.

(** The rows an ascending chunk of them ends at. *)
Lemma end_of_fits fg r l items : asc_from r ((r, l) :: items) → lists_fit fg ((r, l) :: items) →
  (r < end_of r ((r, l) :: items) ≤ max_rows)%nat ∧ fg * Z.of_nat max_rows + Z.of_nat (end_of r ((r, l) :: items)) ≤ next_id.
Proof.
  intros Ha [_ Hr Hi]. pose proof (end_of_le (S r) items (proj2 Ha)) as He. rewrite end_of_cons. unfold end_of in *.
  assert (Hin : ∀ q m, last items = Some (q, m) → (q, m) ∈ (r, l) :: items) by (intros q m Hq; right; by apply last_Some_elem_of).
  rewrite Forall_forall in Hr. unfold by_id in Hi. rewrite Forall_fmap, Forall_forall in Hi. destruct (last items) as [[q m]|].
  - specialize (Hin q m eq_refl). specialize (Hr _ Hin). specialize (Hi _ Hin). cbn in *. lia.
  - specialize (Hr (r, l) ltac:(left)). specialize (Hi (r, l) ltac:(left)). cbn in *. lia.
Qed.

Lemma flush_loads fg open :
  let gst := fg * Z.of_nat max_rows in
  (∃ r, asc_from r open ∧ (fst <$> head open = Some r ∨ open = [])) → lists_fit fg open → (length (concat (snd <$> open)) ≤ max_rows)%nat →
  ∃ cs, flush max_rows gst open = Ok cs ∧
    ∀ s items b, reached s items b → (∀ p, head open = Some p → b ≤ gst + Z.of_nat p.1) →
      ∃ s', load_chunks max_rows next_id is_node cs s = Ok s' ∧ reached s' (items ++ by_id gst open) (match last open with Some p => gst + Z.of_nat p.1 + 1 | None => b end).
Proof using Hmax Hmax32.
  intros gst (r0 & Ha & Hr0) Hfit Hlen. destruct open as [|[r l] items0].
  { exists []. split; [done|]. intros s items b Hr _. exists s. cbn. rewrite app_nil_r. by split. }
  destruct Hr0 as [[= ->]|[=]]. destruct (end_of_fits fg r0 l items0 Ha Hfit) as [He Hnext]. fold gst in Hnext. set (open := (r0, l) :: items0) in *.
  set (ls := spread r0 open). assert (Hls : length ls = (end_of r0 open - r0)%nat) by (by apply spread_length).
  assert (Hlast : ∃ m, last open = Some ((end_of r0 open - 1)%nat, m)).
  { unfold end_of. destruct (last open) as [[q m]|] eqn:E; [|by apply last_None in E]. exists m. by rewrite Nat.sub_succ, Nat.sub_0_r. }
  destruct Hlast as [m Hlast]. pose proof (lf_lists _ _ Hfit) as Hfl.
  assert (Hdense : foldl (λ d item, <[(item.1 - r0)%nat := item.2]> d) (replicate (end_of r0 open - 1 - r0 + 1) []) open = ls).
  { pose proof (dense_spread r0 open []) as Hd. cbn [length app] in Hd. rewrite Nat.add_0_r in Hd. etrans; [|exact (Hd Ha)]. do 2 f_equal. lia. }
  destruct (encoded_reads ls 0) as (bytes & Hbytes & Hdec).
  { unfold chunk_ok, ls. rewrite spread_concat. fold ls. split_and!; [|done|lia|].
    - cbn [open fmap list_fmap concat snd]. rewrite length_app. destruct (proj1 (Forall_cons _ _ _) Hfl) as [[Hne _] _]. destruct l; [done|]. cbn. lia.
    - apply spread_Forall; [done|]. eapply Forall_impl; [exact Hfl|]. intros p Hp. apply Hp. }
  { apply spread_Forall; [constructor|]. eapply Forall_impl; [exact Hfl|]. intros p Hp. apply Hp. }
  { unfold u32_max. lia. } { done. }
  eexists. split.
  { unfold flush. cbn [head open]. fold open. rewrite Hlast, Hdense, Hbytes. cbn [mbind result_bind]. rewrite (proj2 (Z.ltb_ge _ _)) by lia. reflexivity. }
  intros s items b Hr Hb. specialize (Hb (r0, l) eq_refl). cbn [fst] in Hb. rewrite Hlast. cbn [fst load_chunks].
  assert (Hnd : Forall (λ p, is_node p.1 = true) (by_id gst open)) by (eapply Forall_impl; [exact (lf_ids _ _ Hfit)|]; tauto).
  replace (end_of r0 open - 1 - r0 + 1)%nat with (length ls) by lia.
  pose proof (load_chunk_at fg r0 (length ls) 0 bytes (mkChunk 0 ls) s items b) as Hload. cbn zeta in Hload. fold gst in Hload.
  rewrite Hload; [|lia|lia|lia|done|lia|done|exact (order_below fg r0 s items b ltac:(lia) Hr Hb)|done]. clear Hload. cbn [Z.ltb Z.compare]. unfold load_first. cbn [first_entry lists Z.eqb negb row_start row_count].
  pose proof (load_lists_spread gst open r0 (groups s) (last_list s) Ha ltac:(eapply Forall_impl; [exact Hfl|]; intros p Hp; apply Hp) Hnd) as Hll. fold ls in Hll. rewrite Hll. cbn [mbind result_bind]. eexists. split; [reflexivity|].
  destruct Hr as [Hg Hl _ _]. split; cbn [groups last_list column_end order].
  - by rewrite Hg, put_items_app.
  - by rewrite Hl, last_group_app.
  - intros e [= <-]. lia.
  - apply Z.div_le_lower_bound; [lia|]. fold gst. lia.
Qed.
(** *** Pieces *)

Lemma ascending_app l1 l2 : ascending (l1 ++ l2) = true →
  ascending l1 = true ∧ ascending l2 = true ∧ ∀ x y, last l1 = Some x → head l2 = Some y → adj_lt x y.
Proof.
  induction l1 as [|a l1 IH]; [done|]. destruct l1 as [|b l1]; cbn [app].
  - destruct l2 as [|c l2]; [done|]. cbn [ascending]. intros [Hlt Ha]%andb_true_iff. apply bool_decide_eq_true in Hlt. split_and!; [done|done|]. by intros x y [= <-] [= <-].
  - change (ascending (a :: b :: l1 ++ l2)) with (bool_decide (adj_lt a b) && ascending (b :: l1 ++ l2)). intros [Hlt Ha]%andb_true_iff. destruct (IH Ha) as (H1 & H2 & H3).
    split_and!; [|done|exact H3]. change (bool_decide (adj_lt a b) && ascending (b :: l1) = true). by rewrite Hlt.
Qed.

Lemma adj_lt_not_le x y : adj_lt x y → ¬ adj_le y x.
Proof. intros [Hle Hne] Hle'. apply Hne. destruct x, y. unfold adj_le in *. cbn in *. f_equal; lia. Qed.

Record in_piece (s : Loading) (items : list (Z * list Adjacent)) (id : Z) (pre : list Adjacent) (number fg : Z) : Prop := {
  ip_groups : groups s = put_items ∅ (items ++ [(id, pre)]);
  ip_last : last_list s = Some (locate id).1;
  ip_piece : piece_at s = Some (id, 1, number, length pre);
  ip_end : column_end s = Some (id + 1);
  ip_order : order s = fg;
}.

Lemma in_piece_reached s items row pre number fg : (row < max_rows)%nat → let id := fg * Z.of_nat max_rows + Z.of_nat row in
  in_piece s items id pre number fg → reached s (items ++ [(id, pre)]) (id + 1).
Proof using Hmax.
  intros Hrow id [Hg Hl _ He Ho]. split; [done| |intros e; rewrite He; intros [= <-]; lia|].
  - rewrite Hl, last_group_app. done.
  - rewrite Ho. apply Z.div_le_lower_bound; unfold id; lia.
Qed.

Lemma put_item_lookup gs id l : put_item gs (id, l) !! (locate id).1 = Some (Adjacency.push_sorted (locate id).2 l (default Adjacency.default_ (gs !! (locate id).1))).
Proof. unfold put_item. cbn [fst snd]. destruct (locate id) as [g r]. apply lookup_insert_eq. Qed.

Lemma put_item_extend gs id l1 l2 : <[(locate id).1 := Adjacency.push_sorted (locate id).2 (l1 ++ l2) (default Adjacency.default_ (gs !! (locate id).1))]> (put_item gs (id, l1)) = put_item gs (id, l1 ++ l2).
Proof. unfold put_item. cbn [fst snd]. destruct (locate id) as [g r]. apply insert_insert_eq. Qed.

Lemma piece_len_bounds : (0 < piece_len max_rows max_bytes ≤ max_rows)%nat.
Proof using Hmax. unfold piece_len. lia. Qed.

(** One part of a list is written and read back. *)
Lemma part_reads part first : part ≠ [] → list_ok part → (length part ≤ piece_len max_rows max_bytes)%nat → 0 ≤ first ≤ u32_max →
  ∃ bytes, encoded (encode [part] first max_rows) = Ok bytes ∧ decode bytes 1 (Z.of_nat max_rows) = Ok (mkChunk first [part]).
Proof using Hmax Hmax32.
  intros Hne [Ha Hok] Hl Hf. pose proof piece_len_bounds. apply (encoded_reads [part] first); [|by repeat constructor|done|done].
  split_and!; [cbn; rewrite app_nil_r; destruct part; [done|]; cbn in *; lia|cbn; rewrite app_nil_r; lia|cbn; lia|by repeat constructor].
Qed.

Lemma load_piece_at fg row number pre part bytes s items :
  let id := fg * Z.of_nat max_rows + Z.of_nat row in
  (row < max_rows)%nat → id < next_id → 0 < number → pre ≠ [] → part ≠ [] → ascending (pre ++ part) = true → in_piece s items id pre number fg →
  decode bytes 1 (Z.of_nat max_rows) = Ok (mkChunk (Z.of_nat (length pre)) [part]) →
  ∃ s', load_chunk max_rows next_id is_node (mkStored id 1 number bytes) s = Ok s' ∧ in_piece s' items id (pre ++ part) (number + 1) fg.
Proof using Hmax.
  intros id Hrow Hnext Hnum Hpre Hpart Hasc Hip Hd. pose proof (in_piece_reached s items row pre number fg Hrow Hip) as Hr. fold id in Hr.
  pose proof (load_chunk_at fg row 1 number bytes _ s _ _ ltac:(lia) ltac:(lia) ltac:(fold id; lia) Hr ltac:(fold id; lia) ltac:(lia) ltac:(rewrite (ip_order _ _ _ _ _ _ Hip); lia) Hd) as Hl. fold id in Hl. change (Z.of_nat 1) with 1 in Hl. rewrite Hl. clear Hl.
  rewrite (proj2 (Z.ltb_lt _ _)) by done. destruct Hip as [Hg Hla Hpc He Ho]. unfold load_piece. rewrite Hpc. cbn [row_start row_count column_id first_entry lists]. rewrite !Z.eqb_refl. cbn [negb orb head default].
  rewrite Hla, Hg, put_items_app. cbn [put_items foldl mbind option_bind]. fold (put_items ∅ items). rewrite put_item_lookup. cbn [mbind option_bind].
  set (base := default Adjacency.default_ (put_items ∅ items !! (locate id).1)).
  assert (Hls : Adjacency.last_sorted (Adjacency.push_sorted (locate id).2 pre base) = last pre).
  { unfold Adjacency.last_sorted, Adjacency.push_sorted. cbn [sorted]. rewrite last_app. destruct (last pre) eqn:E; [done|]. by apply last_None in E. }
  rewrite Hls. destruct (ascending_app _ _ Hasc) as (_ & _ & Hlt). destruct (last pre) as [x|] eqn:Elast; [|by apply last_None in Elast].
  destruct part as [|y part]; [done|]. change (Datatypes.id (y :: part)) with (y :: part). cbn [head]. rewrite bool_decide_false by (apply adj_lt_not_le, Hlt; done). eexists. split; [reflexivity|].
  split; cbn [groups last_list piece_at column_end order]; try done.
  - rewrite load_in_pieces, put_items_app. cbn [put_items foldl]. apply put_item_extend.
  - by rewrite length_app.
Qed.
(** What is left of a list, part by part. *)
Lemma pieces_load fg row fuel : (row < max_rows)%nat → let gst := fg * Z.of_nat max_rows in gst + Z.of_nat row < next_id →
  ∀ number pre rest, (length rest ≤ fuel)%nat → (0 < number)%nat → pre ≠ [] → (rest ≠ [] → length pre = (number * piece_len max_rows max_bytes)%nat) →
  list_ok (pre ++ rest) → Z.of_nat (length (pre ++ rest)) ≤ u32_max →
  ∃ cs, write_pieces max_rows max_bytes gst row number (chunks_of fuel (piece_len max_rows max_bytes) rest) = Ok cs ∧
    ∀ s items, in_piece s items (gst + Z.of_nat row) pre (Z.of_nat number) fg →
    ∃ s', load_chunks max_rows next_id is_node cs s = Ok s' ∧ reached s' (items ++ [(gst + Z.of_nat row, pre ++ rest)]) (gst + Z.of_nat row + 1).
Proof using Hmax Hmax32.
  intros Hrow gst Hnext. pose proof piece_len_bounds as Hpl. set (n := piece_len max_rows max_bytes) in *.
  induction fuel as [|fuel IH]; intros number pre rest Hf Hnum Hpre Hfull Hok Hlen; (destruct rest as [|y rest];
    [exists []; split; [done|]; intros s items Hip; exists s; rewrite app_nil_r; split; [done|by apply (in_piece_reached s items row pre (Z.of_nat number) fg)]|]); [cbn in Hf; lia|].
  set (l := y :: rest) in *. specialize (Hfull ltac:(done)). destruct Hok as [Hasc Hent]. rewrite <- (take_drop n l) in Hasc, Hent, Hlen. rewrite app_assoc in Hasc, Hent, Hlen.
  assert (Hpart : take n l ≠ []) by (unfold l; destruct n; [lia|done]). rewrite length_app, length_app in Hlen. pose proof (ascending_app _ _ Hasc) as (Hasc1 & _ & _).
  pose proof (ascending_app _ _ Hasc1) as (_ & Hasc2 & _). pose proof (proj1 (Forall_app _ _ _) Hent) as [Hent1 _]. pose proof (proj1 (Forall_app _ _ _) Hent1) as [_ Hent2].
  destruct (part_reads (take n l) (Z.of_nat (length pre)) Hpart (conj Hasc2 Hent2) ltac:(rewrite length_take; fold n; lia) ltac:(lia)) as (bytes & He & Hd).
  destruct (IH (S number) (pre ++ take n l) (drop n l)) as (cs & Hcs & Hload).
  { rewrite length_drop. unfold l. cbn in *. lia. } { lia. } { intros [E _]%app_nil. by rewrite E in Hpre. }
  { intros Hne. rewrite length_app, length_take, Nat.min_l; [fold n in Hfull; lia|]. destruct (decide (n ≤ length l)%nat); [done|]. contradict Hne. apply drop_ge. lia. }
  { by split. } { by rewrite !length_app. }
  rewrite <- app_assoc, take_drop in Hload. eexists. split.
  { change (chunks_of (S fuel) n l) with (take n l :: chunks_of fuel n (drop n l)). cbn [write_pieces]. fold n. rewrite <- Hfull, (proj2 (Z.ltb_ge _ _)), He by lia. cbn [mbind result_bind].
    rewrite (proj2 (Z.ltb_ge _ _)), Hcs by nia. reflexivity. }
  intros s items Hip. cbn [load_chunks].
  destruct (load_piece_at fg row (Z.of_nat number) pre (take n l) bytes s items Hrow Hnext ltac:(lia) Hpre Hpart Hasc1 Hip Hd) as (s1 & Hs1 & Hip1). fold gst in Hs1, Hip1. rewrite Hs1. cbn [mbind result_bind].
  apply Hload. by replace (Z.of_nat (S number)) with (Z.of_nat number + 1) by lia.
Qed.

(** A list in pieces from its first part on. *)
Lemma list_in_pieces fg row l : (row < max_rows)%nat → let gst := fg * Z.of_nat max_rows in let id := gst + Z.of_nat row in
  id < next_id → is_node id = true → list_fits l → (piece_len max_rows max_bytes < length l)%nat →
  ∃ cs, write_pieces max_rows max_bytes gst row 0 (chunks_of (length l) (piece_len max_rows max_bytes) l) = Ok cs ∧
    ∀ s items b, reached s items b → b ≤ id → ∃ s', load_chunks max_rows next_id is_node cs s = Ok s' ∧ reached s' (items ++ [(id, l)]) (id + 1).
Proof using Hmax Hmax32.
  intros Hrow gst id Hnext Hnode (Hne & Hok & Hlen) Hlong. pose proof piece_len_bounds as Hpl. pose proof Hok as [Hasc Hent]. set (n := piece_len max_rows max_bytes) in *.
  pose proof (take_drop n l) as Htd. rewrite <- Htd in Hasc, Hent. pose proof (ascending_app _ _ Hasc) as (Hasc1 & _ & _). pose proof (proj1 (Forall_app _ _ _) Hent) as [Hent1 _].
  assert (Hpart : take n l ≠ []) by (destruct l, n; [done|done|lia|done]). assert (Hlt : length (take n l) = n) by (rewrite length_take; lia).
  destruct (part_reads (take n l) 0 Hpart (conj Hasc1 Hent1) ltac:(fold n; lia) ltac:(unfold u32_max; lia)) as (bytes & He & Hd).
  destruct l as [|x l]; [done|]. cbn [length] in *.
  destruct (pieces_load fg row (length l) Hrow Hnext 1 (take n (x :: l)) (drop n (x :: l))) as (cs & Hcs & Hload).
  { rewrite length_drop. cbn [length]. lia. } { lia. } { done. } { intros _. fold n. lia. } { by rewrite Htd. } { by rewrite Htd. }
  fold gst n in Hcs. fold gst in Hload. eexists. split.
  { change (chunks_of (S (length l)) n (x :: l)) with (take n (x :: l) :: chunks_of (length l) n (drop n (x :: l))). cbn [write_pieces]. fold n. change (Z.of_nat (0 * n)) with 0. rewrite He. cbn [Z.ltb Z.compare mbind result_bind].
    rewrite (proj2 (Z.ltb_ge _ _)), Hcs by (unfold u32_max; lia). reflexivity. }
  intros s items b Hr Hb. cbn [load_chunks]. change (Z.of_nat 0) with 0.
  pose proof (load_chunk_at fg row 1 0 bytes _ s items b ltac:(lia) ltac:(lia) ltac:(fold gst id; lia) Hr ltac:(lia) ltac:(by intros _) (order_below fg row s items b Hrow Hr Hb) Hd) as Hl. fold gst id in Hl. change (Z.of_nat 1) with 1 in Hl. fold id. rewrite Hl. clear Hl.
  cbn [Z.ltb Z.compare]. unfold load_first. cbn [first_entry lists Z.eqb negb row_start row_count]. destruct (take n (x :: l)) as [|y part] eqn:Et; [done|]. cbn [load_lists]. rewrite Hnode. cbn [negb].
  destruct (locate id) as [g r] eqn:El. cbn [mbind result_bind]. rewrite <- Et in *. destruct (Hload (mkLoading (<[g := Adjacency.push_sorted r (take n (x :: l)) (default Adjacency.default_ (groups s !! g))]> (groups s)) (Some g) (Some (id, 1, 1, length (take n (x :: l)))) (Some (id + 1)) fg) items) as (s' & Hs' & Hr').
  { fold id. split; cbn [groups last_list piece_at column_end order]; try done; [|by rewrite El]. rewrite put_items_app, <- (re_groups _ _ _ Hr). cbn [put_items foldl]. unfold put_item. cbn [fst snd]. by rewrite El. }
  exists s'. fold id in Hr'. rewrite Htd in Hr'. split; [|exact Hr']. replace (gst + Z.of_nat (row + 1)) with (id + 1) by (unfold id; lia). exact Hs'.
Qed.
(** *** The writer's loop *)

Lemma asc_from_le at_ at' items : asc_from at_ items → (at' ≤ at_)%nat → asc_from at' items.
Proof. destruct items as [|[r l] items]; [done|]. cbn. intros [Hr Hi] Hle. split; [lia|done]. Qed.

Lemma asc_from_app at_ x y : asc_from at_ (x ++ y) ↔ asc_from at_ x ∧ asc_from (end_of at_ x) y.
Proof.
  revert at_. induction x as [|[r l] x IH]; intros at_; cbn [app asc_from]; [unfold end_of; cbn; tauto|]. rewrite IH, end_of_cons. tauto.
Qed.

Lemma by_id_app gst x y : by_id gst (x ++ y) = by_id gst x ++ by_id gst y.
Proof. apply fmap_app. Qed.

(** The rows of the open lists and of those to come start at [r]. *)
Definition opens_at (r : nat) (open items : list (nat * list Adjacent)) : Prop := asc_from r (open ++ items) ∧ (open = [] ∨ fst <$> head open = Some r).

(** Loading [cs] puts [new], from one bound to the next. *)
Definition carries (cs : list stored_chunk) (from to : Z) (new : list (Z * list Adjacent)) : Prop :=
  from ≤ to ∧ ∀ s items, reached s items from → ∃ s', load_chunks max_rows next_id is_node cs s = Ok s' ∧ reached s' (items ++ new) to.

Lemma load_chunks_app x y s : load_chunks max_rows next_id is_node (x ++ y) s = s ← load_chunks max_rows next_id is_node x s; load_chunks max_rows next_id is_node y s.
Proof. revert s. induction x as [|c x IH]; intros s; cbn [app load_chunks]; [done|]. destruct (load_chunk _ _ _ c s); [|done]. cbn [mbind result_bind]. apply IH. Qed.

Lemma carries_weaken cs from from' to to' new : carries cs from to new → from' ≤ from → to ≤ to' → carries cs from' to' new.
Proof using Hmax.
  intros [Hle Hc] Hf Ht. split; [lia|]. intros s items Hr. destruct (Hc s items (reached_le _ _ _ _ Hr Hf)) as (s' & Hs & Hr'). exists s'. split; [done|]. by eapply reached_le.
Qed.

Lemma carries_nil b : carries [] b b [].
Proof. split; [lia|]. intros s items Hr. exists s. by rewrite app_nil_r. Qed.

Lemma carries_app x y a b c n1 n2 : carries x a b n1 → carries y b c n2 → carries (x ++ y) a c (n1 ++ n2).
Proof.
  intros [Hab Hx] [Hbc Hy]. split; [lia|]. intros s items Hr. destruct (Hx s items Hr) as (s1 & Hs1 & Hr1). destruct (Hy s1 _ Hr1) as (s2 & Hs2 & Hr2).
  exists s2. rewrite load_chunks_app, Hs1. cbn [mbind result_bind]. by rewrite app_assoc.
Qed.

Lemma flush_carries fg r open : let gst := fg * Z.of_nat max_rows in opens_at r open [] → lists_fit fg open → (length (concat (snd <$> open)) ≤ max_rows)%nat →
  ∃ cs, flush max_rows gst open = Ok cs ∧ carries cs (gst + Z.of_nat r) (gst + Z.of_nat (end_of r open)) (by_id gst open).
Proof using Hmax Hmax32.
  intros gst [Ha Hh] Hfit Hlen. rewrite app_nil_r in Ha. destruct (flush_loads fg open) as (cs & Hcs & Hload); [exists r; tauto|done|done|]. fold gst in Hcs, Hload. exists cs. split; [done|].
  pose proof (end_of_le r open Ha). split; [lia|]. intros s items Hr. destruct (Hload s items (gst + Z.of_nat r) Hr) as (s' & Hs & Hr').
  { intros p Hp. destruct Hh as [->|Hh]; [done|]. rewrite Hp in Hh. injection Hh as ->. lia. }
  exists s'. split; [done|]. unfold end_of. destruct (last open) as [[q m]|]; [|exact Hr']. cbn [fst] in Hr'. by replace (gst + Z.of_nat (S q)) with (gst + Z.of_nat q + 1) by lia.
Qed.

Lemma concat_snoc_length open row (l : list Adjacent) : length (concat (snd <$> open ++ [(row : nat, l)])) = (length (concat (snd <$> open)) + length l)%nat.
Proof. rewrite fmap_app, concat_app, length_app. cbn. by rewrite app_nil_r. Qed.

Lemma write_lists_carry fg items : let gst := fg * Z.of_nat max_rows in
  ∀ r open, (r ≤ max_rows)%nat → opens_at r open items → lists_fit fg (open ++ items) → (length (concat (snd <$> open)) ≤ max_rows)%nat →
  ∃ cs, write_lists max_rows max_bytes gst items open (length (concat (snd <$> open))) = Ok cs ∧
    carries cs (gst + Z.of_nat r) (gst + Z.of_nat max_rows) (by_id gst (open ++ items)).
Proof using Hmax Hmax32.
  intros gst. pose proof piece_len_bounds as Hpl. induction items as [|[row l] items IH]; intros r open Hr [Ha Hh] Hfit Hlen; cbn [write_lists].
  { destruct (flush_carries fg r open ltac:(by split) ltac:(by rewrite app_nil_r in Hfit) Hlen) as (cs & Hcs & Hc). exists cs. split; [exact Hcs|]. rewrite app_nil_r in *.
    eapply carries_weaken; [exact Hc|lia|]. fold gst. destruct open as [|[q m] open]; [unfold end_of; cbn; lia|]. destruct Hh as [|[= ->]]; [done|]. destruct (end_of_fits fg r m open Ha Hfit). lia. }
  apply asc_from_app in Ha as [Ha [Hrow Hai]]. apply lists_fit_app in Hfit as [Hfo Hfi]. pose proof (end_of_le r open Ha) as Her.
  pose proof (proj1 (lists_fit_app fg [(row, l)] items) Hfi) as [Hf1 Hfis]. pose proof (proj1 (Forall_cons _ _ _) (lf_rows _ _ Hf1)) as [Hrm _]. pose proof (proj1 (Forall_cons _ _ _) (lf_lists _ _ Hf1)) as [Hfl _].
  pose proof (proj1 (Forall_cons _ _ _) (lf_ids _ _ Hf1)) as [[Hid Hnode] _]. cbn [fst snd] in *. fold gst in Hid, Hnode.
  assert (Hopen : opens_at r open []) by (split; [by rewrite app_nil_r|done]). pose proof (flush_carries fg r open Hopen Hfo Hlen) as (cf & Hcf & Hcc). fold gst in Hcf, Hcc.
  assert (Hone : (length l ≤ max_rows)%nat → ∃ cs, write_lists max_rows max_bytes gst items [(row, l)] (length l) = Ok cs ∧ carries cs (gst + Z.of_nat row) (gst + Z.of_nat max_rows) (by_id gst ((row, l) :: items))).
  { intros Hl. pose proof (IH row [(row, l)] ltac:(lia) (conj (conj (le_n row) Hai) (or_intror eq_refl)) Hfi) as IH1. cbn [fmap list_fmap concat snd] in IH1. rewrite app_nil_r in IH1. exact (IH1 Hl). }
  destruct (Nat.ltb_spec (piece_len max_rows max_bytes) (length l)) as [Hlong|Hshort].
  - destruct (list_in_pieces fg row l Hrm Hid Hnode Hfl Hlong) as (cp & Hcp & Hlp). fold gst in Hcp, Hlp.
    assert (Hnone : opens_at (S row) [] items) by (split; [exact Hai|by left]). destruct (IH (S row) [] ltac:(lia) Hnone Hfis ltac:(cbn; lia)) as (cr & Hcr & Hcar). cbn [fmap list_fmap concat length] in Hcr.
    rewrite Hcf, Hcp, Hcr. cbn [mbind result_bind]. eexists. split; [reflexivity|]. rewrite by_id_app. apply (carries_app _ _ _ (gst + Z.of_nat row)).
    + eapply carries_weaken; [exact Hcc|lia|lia].
    + change (by_id gst ((row, l) :: items)) with ([(gst + Z.of_nat row, l)] ++ by_id gst items). apply (carries_app _ _ _ (gst + Z.of_nat (S row))); [|exact Hcar].
      split; [lia|]. intros s its Hrs. destruct (Hlp s its _ Hrs ltac:(lia)) as (s' & Hs & Hr'). exists s'. split; [done|]. by replace (gst + Z.of_nat (S row)) with (gst + Z.of_nat row + 1) by lia.
  - destruct (head open) as [[q m]|] eqn:Eh.
    + assert (q = r) as -> by (destruct Hh as [->|[= ->]]; done).
      destruct (_ || _) eqn:Eover.
      * destruct (Hone ltac:(lia)) as (cr & Hcr & Hcar). rewrite Hcf, Hcr. cbn [mbind result_bind]. eexists. split; [reflexivity|]. rewrite by_id_app. apply (carries_app _ _ _ (gst + Z.of_nat row)); [|exact Hcar].
        eapply carries_weaken; [exact Hcc|lia|lia].
      * apply orb_false_iff in Eover as [Hcap _]. apply Nat.ltb_ge in Hcap. rewrite <- concat_snoc_length with (row := row).
        destruct (IH r (open ++ [(row, l)])) as (cs & Hcs & Hcar); [done| | |rewrite concat_snoc_length; lia|].
        -- split; [rewrite <- app_assoc; cbn [app]; apply asc_from_app; split; [done|by split]|]. right. destruct open; [done|]. by injection Eh as ->.
        -- rewrite <- app_assoc. by apply lists_fit_app.
        -- exists cs. split; [exact Hcs|]. rewrite <- app_assoc in Hcar. exact Hcar.
    + destruct open as [|p open]; [|done]. cbn [fmap list_fmap concat length app Nat.add] in *. destruct (Hone ltac:(lia)) as (cs & Hcs & Hcar). exists cs. split; [exact Hcs|].
      eapply carries_weaken; [exact Hcar| |lia]. unfold end_of in Hrow. cbn in Hrow. lia.
Qed.

(** *** The file row groups of a checkpoint *)

(** File row groups in order, each with ids of its own in order. *)
Definition grouped (gs : list (Z * list Z)) : Prop :=
  StronglySorted Z.lt gs.*1 ∧ Forall (λ p, StronglySorted Z.lt p.2 ∧ Forall (λ id, id / Z.of_nat max_rows = p.1) p.2) gs.

Lemma grouped_above x gs : Forall (λ p, Forall (λ id, id / Z.of_nat max_rows = p.1) p.2) gs → Forall (Z.lt (x / Z.of_nat max_rows)) gs.*1 → Forall (Z.lt x) (concat gs.*2).
Proof using Hmax.
  induction 1 as [|[fg ids] gs Hg _ IH]; cbn [fmap list_fmap fst snd concat]; [constructor|]. intros [Hx Hxs]%Forall_cons. apply Forall_app. split; [|by apply IH].
  eapply Forall_impl; [exact Hg|]. cbn. intros y <-. apply Z.nle_gt. intros Hle. pose proof (Z.div_le_mono y x (Z.of_nat max_rows) ltac:(lia) Hle). lia.
Qed.

Lemma grouped_sorted gs : grouped gs → StronglySorted Z.lt (concat gs.*2).
Proof using Hmax.
  intros [Hs Hg]. induction gs as [|[fg ids] gs IH]; [constructor|]. cbn [fmap list_fmap fst snd concat] in *. apply StronglySorted_inv in Hs as [Hs Hlt].
  apply Forall_cons in Hg as [[Hsi Hgi] Hg]. cbn [fst snd] in *. apply StronglySorted_app_2; [|done|by apply IH].
  intros x y Hx. revert y. apply Forall_forall, grouped_above; [eapply Forall_impl; [exact Hg|]; by intros q [_ Hq]|]. by rewrite (proj1 (Forall_forall _ _) Hgi x Hx).
Qed.

Context (store : gmap Z Adjacency) (written_edge : Z → bool).

Definition listed (ids : list Z) : list (Z * list Adjacent) :=
  filter (λ p, p.2 ≠ []) ((λ id, (id, written_adjacency store is_node written_edge id)) <$> ids).

Definition id_fits (id : Z) : Prop :=
  id < next_id ∧ is_node id = true ∧
  (written_adjacency store is_node written_edge id = [] ∨ list_fits (written_adjacency store is_node written_edge id)).

Lemma written_lists_cons id ids gst :
  written_lists store is_node written_edge (id :: ids) gst =
  (if decide (written_adjacency store is_node written_edge id = []) then [] else [(Z.to_nat (id - gst), written_adjacency store is_node written_edge id)])
  ++ written_lists store is_node written_edge ids gst.
Proof. unfold written_lists. cbn [fmap list_fmap]. rewrite filter_cons. cbn [snd]. by repeat case_decide. Qed.

Lemma listed_cons id ids :
  listed (id :: ids) =
  (if decide (written_adjacency store is_node written_edge id = []) then [] else [(id, written_adjacency store is_node written_edge id)]) ++ listed ids.
Proof. unfold listed. cbn [fmap list_fmap]. rewrite filter_cons. cbn [snd]. by repeat case_decide. Qed.

Lemma listed_app x y : listed (x ++ y) = listed x ++ listed y.
Proof. unfold listed. by rewrite fmap_app, filter_app. Qed.

Lemma elem_of_listed id l ids : (id, l) ∈ listed ids ↔ id ∈ ids ∧ l = written_adjacency store is_node written_edge id ∧ l ≠ [].
Proof.
  unfold listed. rewrite list_elem_of_filter, list_elem_of_fmap. cbn [snd]. split.
  - intros (Hne & id' & [= -> ->] & Hin). done.
  - intros (Hin & -> & Hne). split; [done|]. by exists id.
Qed.

Lemma listed_sorted ids : StronglySorted Z.lt ids → StronglySorted (λ p q, p.1 < q.1) (listed ids).
Proof. intros Hs. unfold listed. apply StronglySorted_filter, (StronglySorted_fmap _ Z.lt); [done|done]. Qed.

(** The lists of one file row group. *)
Lemma written_lists_fit fg ids at_ : let gst := fg * Z.of_nat max_rows in
  StronglySorted Z.lt ids → Forall (λ id, id / Z.of_nat max_rows = fg) ids → Forall id_fits ids → Forall (λ id, gst + Z.of_nat at_ ≤ id) ids →
  let items := written_lists store is_node written_edge ids gst in
  asc_from at_ items ∧ lists_fit fg items ∧ by_id gst items = listed ids.
Proof using Hmax.
  intros gst Hs. revert at_. induction Hs as [|id ids _ IH Hlt]; intros at_ Hg Hf Hat; [split_and!; [done|by repeat constructor|done]|].
  apply Forall_cons in Hg as [Hg Hgs], Hf as [(Hn & Hnode & Hfit) Hfs], Hat as [Hat _]. rewrite written_lists_cons, listed_cons.
  pose proof (Z.div_mod id (Z.of_nat max_rows) ltac:(lia)) as Hdm. pose proof (Z.mod_pos_bound id (Z.of_nat max_rows) ltac:(lia)) as Hmod. rewrite Hg in Hdm.
  assert (Hid : gst + Z.of_nat (Z.to_nat (id - gst)) = id) by (unfold gst in *; lia).
  destruct (IH (S (Z.to_nat (id - gst))) Hgs Hfs) as (Ha & Hfi & Hby).
  { eapply Forall_impl; [exact Hlt|]. cbn. lia. }
  case_decide as E; cbn [app].
  - split_and!; [|done|done]. eapply asc_from_le; [exact Ha|]. lia.
  - destruct Hfit as [|Hfit]; [done|]. split_and!.
    + split; [lia|exact Ha].
    + apply (proj2 (lists_fit_app fg [_] _)). split; [|done]. split; (constructor; [|constructor]); cbn [fst snd]; fold gst; [done|unfold gst in *; lia|by rewrite Hid].
    + change (by_id gst (?p :: ?ps)) with ((gst + Z.of_nat p.1, p.2) :: by_id gst ps). cbn [fst snd]. by rewrite Hid, Hby.
Qed.

Lemma write_groups_carry gs from :
  grouped gs → Forall (λ p, from ≤ p.1 * Z.of_nat max_rows) gs → Forall id_fits (concat gs.*2) →
  ∃ cs to, write_groups store is_node written_edge max_rows max_bytes gs = Ok cs ∧ carries cs from to (listed (concat gs.*2)).
Proof using Hmax Hmax32.
  intros [Hs Hg]. revert from. induction gs as [|[fg ids] gs IH]; intros from Hfrom Hfit; [eexists _, from; split; [done|apply carries_nil]|].
  cbn [fmap list_fmap fst snd concat] in *. apply StronglySorted_inv in Hs as [Hs Hlt]. apply Forall_cons in Hg as [[Hsi Hgi] Hg], Hfrom as [Hfg _]. cbn [fst snd] in *.
  apply Forall_app in Hfit as [Hfi Hfit]. cbn [write_groups]. set (gst := fg * Z.of_nat max_rows) in *.
  destruct (written_lists_fit fg ids 0 Hsi Hgi Hfi) as (Ha & Hl & Hby).
  { eapply Forall_impl; [exact Hgi|]. cbn. intros id Hd. pose proof (Z.mul_div_le id (Z.of_nat max_rows) ltac:(lia)). unfold gst in *. lia. }
  fold gst in Ha, Hl, Hby. destruct (write_lists_carry fg (written_lists store is_node written_edge ids gst) 0 [] ltac:(lia) ltac:(split; [exact Ha|by left]) Hl ltac:(cbn; lia)) as (cs & Hcs & Hc). fold gst in Hcs, Hc.
  destruct (IH Hs Hg (gst + Z.of_nat max_rows)) as (cr & to & Hcr & Hr); [|done|].
  { rewrite Forall_fmap in Hlt. eapply Forall_impl; [exact Hlt|]. cbn. intros p Hp. unfold gst. nia. }
  unfold write_adjacency. cbn [fmap list_fmap concat length] in Hcs. rewrite Hcs, Hcr. cbn [mbind result_bind]. eexists _, to. split; [reflexivity|]. rewrite listed_app.
  eapply carries_app; [|exact Hr]. cbn [app] in Hc. rewrite Hby in Hc. eapply carries_weaken; [exact Hc|lia|lia].
Qed.

End loads.

(** *** The lists after the load *)

Definition rows_in (g : Z) (items : list (Z * list Adjacent)) : list (nat * list Adjacent) :=
  (λ p, ((locate p.1).2, p.2)) <$> filter (λ p, (locate p.1).1 = g) items.

Lemma put_items_lookup items gs g :
  default Adjacency.default_ (put_items gs items !! g) = load (rows_in g items) (default Adjacency.default_ (gs !! g)).
Proof.
  revert gs. induction items as [|[id l] items IH]; intros gs; [done|]. cbn [put_items foldl]. fold (put_items (put_item gs (id, l)) items).
  rewrite IH. unfold rows_in. rewrite filter_cons. cbn [fst]. case_decide as E.
  - subst g. rewrite put_item_lookup. done.
  - unfold put_item. cbn [fst snd]. destruct (locate id) as [g' r]. cbn [fst] in E. by rewrite lookup_insert_ne.
Qed.

Lemma locate_row_lt x y : (locate x).1 = (locate y).1 → x < y → ((locate x).2 < (locate y).2)%nat.
Proof.
  unfold locate. cbn [fst snd]. intros Hd Hlt. pose proof (Z.div_mod x ROWS_PER_GROUP ltac:(done)). pose proof (Z.div_mod y ROWS_PER_GROUP ltac:(done)).
  pose proof (Z.mod_pos_bound x ROWS_PER_GROUP ltac:(done)). pose proof (Z.mod_pos_bound y ROWS_PER_GROUP ltac:(done)). rewrite Hd in *. lia.
Qed.

Lemma locate_inj x y : locate x = locate y → x = y.
Proof.
  intros E. destruct (Z.lt_total x y) as [Hlt|[|Hlt]]; [|done|];
    (eapply locate_row_lt in Hlt; [rewrite E in Hlt; lia|by rewrite E]).
Qed.

Lemma rows_in_sorted g items : StronglySorted (λ p q : Z * list Adjacent, p.1 < q.1) items →
  StronglySorted (λ p q : nat * list Adjacent, (p.1 < q.1)%nat) (rows_in g items).
Proof.
  unfold rows_in. induction 1 as [|p items _ IH Hp]; [constructor|]. rewrite filter_cons. case_decide as E; [|done].
  cbn [fmap list_fmap]. constructor; [done|]. apply Forall_fmap, Forall_forall. intros q [Hq Hin]%list_elem_of_filter. cbn [fst].
  apply locate_row_lt; [congruence|]. by apply (proj1 (Forall_forall _ _) Hp).
Qed.

(** Each id reads as the list put for it, an id with none as an empty list. *)
Lemma put_items_of items id : StronglySorted (λ p q : Z * list Adjacent, (p.1 < q.1)) items →
  let l := Adjacency.of_ (locate id).2 (default Adjacency.default_ (put_items ∅ items !! (locate id).1)) in
  (id, l) ∈ items ∨ ((id ∉ items.*1) ∧ l = []).
Proof.
  intros Hs l. unfold l. rewrite put_items_lookup, lookup_empty. cbn [default]. change (from_option Datatypes.id Adjacency.default_ None) with Adjacency.default_. rewrite load_of, (load_sorted_of _ Adjacency.default_ []).
  - destruct (list_find _ _) as [[i p]|] eqn:Hf.
    + left. apply list_find_Some in Hf as (Hi & Hp & _). apply list_lookup_fmap_Some in Hi as ([id' l'] & -> & Hq).
      apply list_elem_of_lookup_2, list_elem_of_filter in Hq as [Hg Hin]. cbn [fst snd] in *.
      assert (id = id') as -> by (apply locate_inj; rewrite (surjective_pairing (locate id)), (surjective_pairing (locate id')); congruence). done.
    + right. split; [|done]. apply list_find_None in Hf. intros ([id' l'] & -> & Hin)%list_elem_of_fmap. rewrite Forall_forall in Hf. cbn [fst] in *.
      apply (Hf ((locate id').2, l')); [|done]. apply list_elem_of_fmap. exists (id', l'). split; [done|]. by apply list_elem_of_filter.
  - split; [done|by right].
  - by apply rows_in_sorted.
  - apply Forall_forall. intros p _. cbn. lia.
Qed.

(** *** What a checkpoint writes of a store *)

(** The row groups of a store after a history of each. *)
Definition store_of (hists : gmap Z (list op)) : gmap Z Adjacency := (λ ops, apply_all ops Adjacency.default_) <$> hists.

(** The edges of a node after those histories. *)
Definition edges_of (hists : gmap Z (list op)) (id : Z) : list Adjacent :=
  row_of (locate id).2 (spec_all (default [] (hists !! (locate id).1)) []).

Definition hists_ok (hists : gmap Z (list op)) : Prop :=
  ∀ g ops, hists !! g = Some ops → admissible ops [] ∧ Forall (λ p, ok_entry p.2) (spec_all ops []).

Lemma store_refines hists g : hists_ok hists →
  let ops := default [] (hists !! g) in
  refines (default Adjacency.default_ (store_of hists !! g)) (spec_all ops []) ∧ Forall (λ p, ok_entry p.2) (spec_all ops []).
Proof.
  intros Hh ops. unfold store_of. rewrite lookup_fmap. unfold ops. destruct (hists !! g) as [h|] eqn:E; cbn.
  - destruct (Hh g h E) as [Hadm Hok]. split; [|done]. apply apply_all_refines; [apply refines_default|done].
  - split; [apply refines_default|constructor].
Qed.

Lemma written_adjacency_spec hists is_node written_edge id : hists_ok hists → is_node id = true →
  let l := written_adjacency (store_of hists) is_node written_edge id in
  l ≡ₚ filter (λ x, written_edge (edge x) = true) (edges_of hists id) ∧ in_order l ∧ list_ok l.
Proof.
  intros Hh Hn. cbn zeta. unfold written_adjacency, edges_of. rewrite Hn. destruct (locate id) as [g r]. cbn [fst snd].
  destruct (store_refines hists g Hh) as [Href Hok]. set (a := default Adjacency.default_ _) in *. set (es := spec_all _ _) in *.
  set (l := merge_sort _ _). assert (Hl : l ≡ₚ filter (λ x, written_edge (edge x) = true) (row_of r es)).
  { unfold l. by rewrite merge_sort_Permutation, (ref_rows _ _ Href r). }
  assert (Hs : in_order l) by (apply Sorted_StronglySorted, Sorted_merge_sort; apply _).
  split_and!; [done|done|]. split.
  - apply in_order_ascending; [done|]. unfold l. rewrite merge_sort_Permutation. apply NoDup_fmap_filter. by eapply row_ids_unique.
  - rewrite Hl. apply Forall_forall. intros x [_ Hx]%list_elem_of_filter. apply elem_row_of in Hx. by apply (proj1 (Forall_forall _ _) Hok (r, x)).
Qed.

(** ** Properties *)

(** C14: Adjacency survives a checkpoint. After any histories of writes to the
    row groups of a store, with each edge pushed once, the writer cuts the
    lists of the nodes of any file row groups, in order, into chunks and
    pieces, whatever the caps (at least one row), and the loader accepts what
    it wrote: it puts each list in its row group, where it reads in order as
    exactly the edges of the node that are written, and every other row is
    empty. The nodes are those the loader knows and below its next id, and a
    list has at most 2^32 - 1 entries. *)
Theorem adjacency_survives_checkpoint max_rows max_bytes next_id is_node written_edge hists gs :
  (0 < max_rows)%nat → Z.of_nat max_rows ≤ u32_max → hists_ok hists →
  Forall (Z.le 0) gs.*1 → grouped max_rows gs →
  (∀ id, id ∈ concat gs.*2 → id < next_id ∧ is_node id = true ∧ Z.of_nat (length (edges_of hists id)) ≤ u32_max) →
  ∃ chunks s,
    write_groups (store_of hists) is_node written_edge max_rows max_bytes gs = Ok chunks ∧
    load_chunks max_rows next_id is_node chunks new_loading = Ok s ∧
    ∀ id, let l := Adjacency.of_ (locate id).2 (default Adjacency.default_ (groups s !! (locate id).1)) in
      in_order l ∧
      l ≡ₚ if decide (id ∈ concat gs.*2) then filter (λ x, written_edge (edge x) = true) (edges_of hists id) else [].
Proof.
  intros Hmax Hmax32 Hh H0 Hgs Hids. set (ids := concat gs.*2) in *.
  assert (Hfit : Forall (id_fits next_id is_node (store_of hists) written_edge) ids).
  { apply Forall_forall. intros id (Hn & Hnode & Hlen)%Hids. destruct (written_adjacency_spec hists is_node written_edge id Hh Hnode) as (Hp & _ & Hok).
    split_and!; [done|done|]. destruct (decide (written_adjacency (store_of hists) is_node written_edge id = [])) as [|Hne]; [by left|right]. split_and!; [done|done|].
    rewrite (Permutation_length Hp). pose proof (length_filter (λ x, written_edge (edge x) = true) (edges_of hists id)). lia. }
  destruct (write_groups_carry max_rows max_bytes next_id is_node Hmax Hmax32 (store_of hists) written_edge gs 0 Hgs) as (cs & to & Hcs & _ & Hload); [|done|].
  { rewrite Forall_fmap in H0. eapply Forall_impl; [exact H0|]. cbn. intros p Hp. nia. }
  destruct (Hload new_loading []) as (s & Hs & Hr); [by split|]. exists cs, s. split_and!; [done|done|]. intros id l. unfold l. rewrite (re_groups _ _ _ _ Hr). cbn [app]. fold ids.
  pose proof (put_items_of _ id (listed_sorted is_node (store_of hists) written_edge ids (grouped_sorted max_rows Hmax gs Hgs))) as Hof. cbn zeta in Hof.
  destruct Hof as [(Hin & -> & _)%elem_of_listed|[Hno ->]].
  - rewrite decide_True by done. destruct (Hids id Hin) as (_ & Hnode & _). destruct (written_adjacency_spec hists is_node written_edge id Hh Hnode) as (Hp & Ho & _). done.
  - split; [constructor|]. case_decide as Hin; [|done]. destruct (Hids id Hin) as (_ & Hnode & _). destruct (written_adjacency_spec hists is_node written_edge id Hh Hnode) as (Hp & _ & _).
    rewrite <- Hp. destruct (written_adjacency (store_of hists) is_node written_edge id) as [|x l'] eqn:E; [done|]. destruct Hno. apply list_elem_of_fmap. exists (id, x :: l'). split; [done|]. by apply elem_of_listed.
Qed.

(** Adjacency chunks round trip. The writer accepts exactly the lists
    that are ascending, not all empty and within the limits, and the reader
    gets the lists and the first entry back from what it writes. *)
Theorem chunk_reads_back ls first max :
  Z.of_nat max ≤ u32_max → 0 ≤ first ≤ u32_max → Forall (Forall ok_entry) ls →
  (is_ok (encode ls first max) = true ↔ chunk_ok ls max) ∧
  (∀ out, encode ls first max = Ok out → (first ≠ 0 → length ls = 1%nat) →
          decode out (Z.of_nat (length ls)) (Z.of_nat max) = Ok (mkChunk first ls)).
Proof.
  intros Hmax Hfirst Hok. assert (is_ok (encode ls first max) = true → chunk_ok ls max) as Hchunk.
  { intros Henc. destruct (decide ((0 < length (concat ls) ≤ max)%nat ∧ (length ls ≤ max)%nat ∧
      Forall (λ l, ascending l = true) ls)) as [|Hbad]; [done|].
    by rewrite (encode_refuses ls first max Hbad) in Henc. }
  split; [split; [done|]|].
  - intros Hc. destruct (encode_shape ls first max) as (? & ? & ? & ? & ? & -> & _); done.
  - intros out Hout Hpiece. destruct (encode_decode ls first max) as (out' & Hout' & Hdec); try done.
    + apply Hchunk. by rewrite Hout.
    + congruence.
Qed.

(** What the reader of adjacency chunks returns, whatever the bytes: it
    never panics, and a chunk it accepts has the rows asked for, between one
    and the limit of entries, each list ascending, each number within its
    width, and a first entry only for a single row. *)
Theorem decoded_chunk_ok bytes row_count max :
  Forall is_byte bytes →
  match decode bytes row_count max with
  | Ok chunk =>
      Z.of_nat (length (lists chunk)) = row_count ∧ 0 < row_count ≤ max ∧
      0 < Z.of_nat (length (concat (lists chunk))) ≤ max ∧
      Forall (λ l, ascending l = true ∧ Forall ok_entry l) (lists chunk) ∧
      0 ≤ first_entry chunk ≤ u32_max ∧ (first_entry chunk ≠ 0 → row_count = 1)
  | Err e => e ≠ Panics
  end.
Proof. apply decode_sound. Qed.

(** ** Witnesses *)

Definition sample_lists : list (list Adjacent) :=
  [[mkAdjacent 3 42 102; mkAdjacent 7 39 103]; []; [mkAdjacent 3 5 100]].

Definition sample_bytes : list Z :=
  match encode sample_lists 0 8 with Ok bytes => bytes | Err _ => [] end.

(** The three reserved bytes are not checked: a chunk no writer writes, read
    as the chunk it differs from in them. *)
Example reserved_bytes_are_ignored :
  (length sample_bytes =? 117)%nat = true ∧
  decode (<[1%nat := 9]> sample_bytes) 3 8 = decode sample_bytes 3 8 ∧
  decode sample_bytes 3 8 = Ok (mkChunk 0 sample_lists).
Proof. vm_compute. auto. Qed.

Lemma chunk_reads_back_witness :
  encode sample_lists 0 8 = Ok sample_bytes ∧ decode sample_bytes 3 8 = Ok (mkChunk 0 sample_lists).
Proof.
  split; [reflexivity|].
  assert (Forall (Forall ok_entry) sample_lists) as Hok by (repeat constructor; vm_compute; congruence).
  destruct (chunk_reads_back sample_lists 0 8 ltac:(vm_compute; congruence)
    ltac:(vm_compute; intuition congruence) Hok) as [_ H].
  apply (H sample_bytes); [reflexivity|]. intros Hne. contradiction Hne. reflexivity.
Defined.

Lemma decoded_chunk_ok_witness :
  match decode sample_bytes 3 8 with
  | Ok chunk => Z.of_nat (length (lists chunk)) = 3
  | Err e => e ≠ Panics
  end.
Proof.
  assert (Forall is_byte sample_bytes) as Hb.
  { apply Forall_forall. intros b Hin. unfold is_byte.
    assert (forallb (λ b, (0 <=? b) && (b <? 256)) sample_bytes = true) as Hall by (vm_compute; reflexivity).
    rewrite forallb_forall in Hall. specialize (Hall b (proj1 (list_elem_of_In _ _) Hin)). lia. }
  pose proof (decoded_chunk_ok sample_bytes 3 8 Hb) as H. revert H.
  destruct (decode sample_bytes 3 8); [intros [H _]; exact H|intros H; exact H].
Defined.

(** Two row groups, with file row groups of three ids and room for one entry
    in a chunk: the list of node 2 goes in two pieces. *)
Definition sample_hists : gmap Z (list op) := {[0 := sample_ops; 1 := [Push 0 (mkAdjacent 1 2 7)]]}.
Definition sample_groups : list (Z * list Z) := [(0, [0; 1; 2]); (21845, [65536])].

Lemma adjacency_survives_checkpoint_witness :
  match write_groups (store_of sample_hists) (λ _, true) (λ _, true) 3 119 sample_groups with
  | Ok chunks => (λ c, (row_start c, row_count c, column_id c)) <$> chunks = [(2, 1, 0); (2, 1, 1); (65536, 1, 0)]
  | Err _ => False
  end ∧
  ∃ chunks s,
    write_groups (store_of sample_hists) (λ _, true) (λ _, true) 3 119 sample_groups = Ok chunks ∧
    load_chunks 3 65537 (λ _, true) chunks new_loading = Ok s ∧
    Adjacency.of_ 2 (default Adjacency.default_ (groups s !! 0)) ≡ₚ [mkAdjacent 7 39 103; mkAdjacent 3 42 102].
Proof.
  split; [vm_compute; reflexivity|].
  destruct (adjacency_survives_checkpoint 3 119 65537 (λ _, true) (λ _, true) sample_hists sample_groups)
    as (cs & s & Hcs & Hs & Hof).
  - lia.
  - vm_compute. congruence.
  - intros g ops Hg. unfold sample_hists in Hg. apply lookup_insert_Some in Hg as [[_ <-]|[_ Hg]].
    + split; [exact sample_ops_admissible|]. repeat constructor; vm_compute; congruence.
    + apply lookup_singleton_Some in Hg as [_ <-]. split; [|repeat constructor; vm_compute; congruence].
      cbn. split; [|exact I]. apply not_elem_of_nil.
  - apply (bool_decide_unpack _). reflexivity.
  - split; [repeat constructor|]. constructor; [|constructor; [|constructor]]; (split; [repeat constructor|apply (bool_decide_unpack _); reflexivity]).
  - intros id Hid. cbn in Hid. rewrite !elem_of_cons in Hid.
    destruct Hid as [->|[->|[->|[->|Hid]]]]; [..|by apply not_elem_of_nil in Hid]; (split; [lia|]; split; [done|]; vm_compute; congruence).
  - exists cs, s. split; [exact Hcs|]. split; [exact Hs|]. destruct (Hof 2) as [_ H]. exact H.
Defined.
