(* ===== verification/WalFrame.v ===== *)
(** * Frames of the write-ahead log

    Model of [src/crates/grafeo-storage/src/wal/frame.rs] and of the
    associated data of [cipher.rs]. The checksum (the crc32fast crate) and the
    authenticated cipher (the aes-gcm crate behind [WalCipher]) are not part
    of the repository's own logic: [WalEnv] names what the log relies on, that
    a checksum is a [u32] of the bytes it was fed, and that a sealed payload
    opens under the data it was sealed with and is 28 bytes longer.
    [sample_env] is a pair of functions with these laws. *)
From S2P Require Import Prelude Bytes.

Class WalEnv := {
  crc32 : list Z → Z;
  crc32_range : ∀ bytes, 0 ≤ crc32 bytes ≤ u32_max;
  WalCipher : Type;
  encrypt : WalCipher → list Z → list Z → list Z → list Z;  (* nonce, associated data, plaintext *)
  decrypt : WalCipher → list Z → list Z → option (list Z);  (* associated data, sealed *)
  decrypt_encrypt : ∀ c nonce aad plain, decrypt c aad (encrypt c nonce aad plain) = Some plain;
  encrypt_length : ∀ c nonce aad plain, length (encrypt c nonce aad plain) = (length plain + 28)%nat;
  encrypt_bytes : ∀ c nonce aad plain, Forall is_byte plain → Forall is_byte (encrypt c nonce aad plain);
}.

(** A checksum and a cipher with these laws: the sum of the bytes, and the
    plaintext with 28 zeros behind it. *)
Definition sample_crc (bytes : list Z) : Z := foldr Z.add 0 bytes mod 2 ^ 32.

Lemma sample_crc_range bytes : 0 ≤ sample_crc bytes ≤ u32_max.
Proof. unfold sample_crc, u32_max. pose proof (Z.mod_pos_bound (foldr Z.add 0 bytes) (2 ^ 32)). lia. Qed.

Definition sample_open (sealed : list Z) : option (list Z) :=
  if (28 <=? length sealed)%nat then Some (take (length sealed - 28) sealed) else None.

Lemma sample_open_seal plain : sample_open (plain ++ replicate 28 0) = Some plain.
Proof.
  unfold sample_open. rewrite length_app, length_replicate, (proj2 (Nat.leb_le _ _)) by lia.
  rewrite Nat.add_sub. by rewrite take_app_length.
Qed.

Lemma sample_seal_length (plain : list Z) : length (plain ++ replicate 28 0) = (length plain + 28)%nat.
Proof. by rewrite length_app, length_replicate. Qed.

Lemma sample_seal_bytes plain : Forall is_byte plain → Forall is_byte (plain ++ replicate 28 0).
Proof. intros Hp. apply Forall_app. split; [done|]. apply Forall_replicate. unfold is_byte. lia. Qed.

Definition sample_env : WalEnv := {|
  crc32 := sample_crc;
  crc32_range := sample_crc_range;
  WalCipher := unit;
  encrypt := λ _ _ _ plain, plain ++ replicate 28 0;
  decrypt := λ _ _ sealed, sample_open sealed;
  decrypt_encrypt := λ _ _ _ plain, sample_open_seal plain;
  encrypt_length := λ _ _ _ plain, sample_seal_length plain;
  encrypt_bytes := λ _ _ _ plain, sample_seal_bytes plain;
|}.

Definition FRAME_HEADER_BYTES : nat := 25.
Definition FRAME_TARGET : Z := 64 * 1024.
Definition MAX_FRAME_PAYLOAD : Z := 2 ^ 30.
Definition FRAME_PROLOGUE_BYTES : nat := 8.
Definition SEALED_OVERHEAD : Z := 12 + 16.
Definition MAX_FRAME_RECORD_BYTES : Z :=
  MAX_FRAME_PAYLOAD - Z.of_nat FRAME_PROLOGUE_BYTES - SEALED_OVERHEAD.

(** ** Flags *)

Module FrameFlags.
Definition MIDDLE : Z := 0.
Definition FIRST : Z := 1.
Definition LAST : Z := 2.
Definition FIRST_AND_LAST : Z := 3.

(** [bits & !FIRST_AND_LAST] of a byte. *)
Definition from_bits (bits : Z) : option Z :=
  if Z.land bits (Z.lxor 255 FIRST_AND_LAST) =? 0 then Some bits else None.

Definition is_first (flags : Z) : bool := negb (Z.land flags FIRST =? 0).
Definition is_last (flags : Z) : bool := negb (Z.land flags LAST =? 0).
Definition with_ (flags more : Z) : Z := Z.lor flags more.
Definition ok (flags : Z) : Prop := 0 ≤ flags ≤ 3.
End FrameFlags.

(** ** Headers *)

Record FrameHeader : Type := mkHeader {
  length_ : Z;
  crc : Z;
  lsn : Z;
  transaction_id : Z;
  flags : Z;
}.

Inductive header_error : Set := OverLimit (length : Z) | UnknownFlags (bits : Z).

(** CRC-32 of the bound header bytes and the payload. *)
Definition bound_checksum `{WalEnv} (length rest payload : list Z) : Z :=
  crc32 (length ++ rest ++ payload).

Module FrameHeader.
Section header.
Context `{WalEnv}.

Definition new (length lsn transaction_id flags : Z) : FrameHeader :=
  mkHeader length 0 lsn transaction_id flags.

Definition bound_bytes (h : FrameHeader) : list Z :=
  to_le 4 (length_ h) ++ to_le 8 (lsn h) ++ to_le 8 (transaction_id h) ++ [flags h].

Definition checksum (payload : list Z) (h : FrameHeader) : Z :=
  let bound := bound_bytes h in bound_checksum (take 4 bound) (drop 4 bound) payload.

Definition stored_checksum_matches (bytes payload : list Z) : bool :=
  let stored := from_le (take 4 (drop 4 bytes)) in
  stored =? bound_checksum (take 4 bytes) (drop 8 bytes) payload.

Definition with_checksum (payload : list Z) (h : FrameHeader) : FrameHeader :=
  mkHeader (length_ h) (checksum payload h) (lsn h) (transaction_id h) (flags h).

Definition checksum_matches (payload : list Z) (h : FrameHeader) : bool :=
  crc h =? checksum payload h.

Definition encode (h : FrameHeader) : list Z :=
  to_le 4 (length_ h) ++ to_le 4 (crc h) ++ to_le 8 (lsn h) ++ to_le 8 (transaction_id h) ++ [flags h].

Definition decode (bytes : list Z) : result header_error FrameHeader :=
  let length := from_le (take 4 bytes) in
  if MAX_FRAME_PAYLOAD <? length then Err (OverLimit length) else
  match FrameFlags.from_bits (nth 24 bytes 0) with
  | None => Err (UnknownFlags (nth 24 bytes 0))
  | Some flags =>
      Ok (mkHeader length (from_le (take 4 (drop 4 bytes))) (from_le (take 8 (drop 8 bytes)))
            (from_le (take 8 (drop 16 bytes))) flags)
  end.

Definition frame_bytes (h : FrameHeader) : Z := Z.of_nat FRAME_HEADER_BYTES + length_ h.

(** A header whose fields have their widths. *)
Definition ok (h : FrameHeader) : Prop :=
  0 ≤ length_ h ≤ u32_max ∧ 0 ≤ crc h ≤ u32_max ∧ is_u64 (lsn h) ∧ is_u64 (transaction_id h) ∧
  FrameFlags.ok (flags h).
End header.
End FrameHeader.

(** "grafeo-wal-v2" *)
Definition FRAME_AAD_PREFIX : list Z := [103; 114; 97; 102; 101; 111; 45; 119; 97; 108; 45; 118; 50].

Definition frame_aad (database_id : Z) (h : FrameHeader) : list Z :=
  FRAME_AAD_PREFIX ++ to_le 16 database_id ++ FrameHeader.bound_bytes h.

(** ** Lemmas *)

#[local] Arguments to_le : simpl never.
#[local] Arguments from_le : simpl never.

Lemma from_bits_ok bits : 0 ≤ bits < 256 → FrameFlags.from_bits bits = Some bits ↔ FrameFlags.ok bits.
Proof.
  intros Hb. unfold FrameFlags.from_bits, FrameFlags.ok.
  assert (∀ n, (n < 256)%nat → ((Z.land (Z.of_nat n) 252 =? 0) = (Z.of_nat n <=? 3))) as Hall.
  { assert (forallb (λ n, Bool.eqb (Z.land (Z.of_nat n) 252 =? 0) (Z.of_nat n <=? 3)) (seq 0 256) = true) as Hc
      by (vm_compute; reflexivity).
    rewrite forallb_forall in Hc. intros n Hn. apply Bool.eqb_prop, Hc, in_seq. lia. }
  specialize (Hall (Z.to_nat bits) ltac:(lia)). rewrite Z2Nat.id in Hall by lia.
  change (Z.lxor 255 FrameFlags.FIRST_AND_LAST) with 252. rewrite Hall.
  destruct (bits <=? 3) eqn:E; bool_to_prop; split; intros; (done || lia).
Qed.

Lemma from_bits_Some bits f : FrameFlags.from_bits bits = Some f → f = bits.
Proof. unfold FrameFlags.from_bits. destruct (_ =? _); congruence. Qed.

Section header_facts.
Context `{WalEnv}.

Lemma encode_length h : length (FrameHeader.encode h) = FRAME_HEADER_BYTES.
Proof. unfold FrameHeader.encode. by rewrite !length_app, !to_le_length. Qed.

(** The parts of an encoded header, as they are read. *)
Lemma encode_parts h :
  let b := FrameHeader.encode h in
  take 4 b = to_le 4 (length_ h) ∧ take 4 (drop 4 b) = to_le 4 (crc h) ∧
  take 8 (drop 8 b) = to_le 8 (lsn h) ∧ take 8 (drop 16 b) = to_le 8 (transaction_id h) ∧
  drop 8 b = to_le 8 (lsn h) ++ to_le 8 (transaction_id h) ++ [flags h] ∧
  nth 24 b 0 = flags h.
Proof.
  intros b. unfold b, FrameHeader.encode.
  assert (∀ n x l, take n (to_le n x ++ l) = to_le n x) as Ht
    by (intros n x l; rewrite <- (to_le_length n x) at 1; apply take_app_length).
  assert (∀ n x l, drop n (to_le n x ++ l) = l) as Hd
    by (intros n x l; rewrite <- (to_le_length n x) at 1; apply drop_app_length).
  assert (∀ (l : list Z), drop 8 l = drop 4 (drop 4 l)) as D8 by (intros; by rewrite drop_drop).
  assert (∀ (l : list Z), drop 16 l = drop 8 (drop 4 (drop 4 l))) as D16 by (intros; by rewrite !drop_drop).
  split_and!.
  - apply Ht.
  - by rewrite Hd, Ht.
  - by rewrite D8, !Hd, Ht.
  - by rewrite D16, !Hd, Ht.
  - by rewrite D8, !Hd.
  - unfold to_le. cbn. done.
Qed.

Lemma encode_checksum payload h :
  FrameHeader.stored_checksum_matches (FrameHeader.encode (FrameHeader.with_checksum payload h)) payload = true.
Proof.
  unfold FrameHeader.stored_checksum_matches.
  destruct (encode_parts (FrameHeader.with_checksum payload h)) as (-> & -> & _ & _ & -> & _).
  cbn [FrameHeader.with_checksum length_ crc lsn transaction_id flags].
  rewrite from_to_le by (pose proof (crc32_range (take 4 (FrameHeader.bound_bytes h) ++
    drop 4 (FrameHeader.bound_bytes h) ++ payload)); unfold FrameHeader.checksum, bound_checksum, u32_max in *; lia).
  unfold FrameHeader.checksum, FrameHeader.bound_bytes.
  assert (∀ x l, take 4 (to_le 4 x ++ l) = to_le 4 x) as ->
    by (intros x l; rewrite <- (to_le_length 4 x) at 1; apply take_app_length).
  assert (∀ x l, drop 4 (to_le 4 x ++ l) = l) as ->
    by (intros x l; rewrite <- (to_le_length 4 x) at 1; apply drop_app_length).
  apply Z.eqb_refl.
Qed.

Lemma decode_encode h :
  FrameHeader.ok h → length_ h ≤ MAX_FRAME_PAYLOAD → FrameHeader.decode (FrameHeader.encode h) = Ok h.
Proof.
  intros (Hl & Hc & Hlsn & Htx & Hf) Hmax. unfold FrameHeader.decode.
  destruct (encode_parts h) as (-> & -> & -> & -> & _ & ->).
  rewrite !from_to_le64 by done. rewrite !from_to_le by (unfold u32_max in *; lia).
  rewrite (proj2 (Z.ltb_ge _ _)) by done.
  rewrite (proj2 (from_bits_ok (flags h) ltac:(unfold FrameFlags.ok in Hf; lia))) by done. by destruct h.
Qed.

Ltac all_bytes := repeat (apply Forall_cons_2; [assumption|]); apply Forall_nil_2.

(** What the decoder accepts. *)
Lemma decode_ok bytes h :
  Forall is_byte bytes → length bytes = FRAME_HEADER_BYTES → FrameHeader.decode bytes = Ok h →
  FrameHeader.ok h ∧ length_ h ≤ MAX_FRAME_PAYLOAD ∧ FrameHeader.encode h = bytes.
Proof.
  intros Hb Hlen Hd. unfold FrameHeader.decode in Hd.
  destruct (_ <? _) eqn:E; [done|]. bool_to_prop.
  do 25 (destruct bytes as [|? bytes]; [done|]). destruct bytes; [|done]. cbn [nth] in Hd.
  assert (∀ l, Forall is_byte l → to_le (length l) (from_le l) = l) as Hback by apply to_from_le.
  repeat match goal with H : Forall is_byte (_ :: _) |- _ => apply Forall_cons in H as [? H] end.
  destruct (FrameFlags.from_bits z23) as [f|] eqn:Ef; [|done].
  injection Hd as <-. pose proof (from_bits_Some _ _ Ef) as ->.
  assert (FrameFlags.ok z23) as Hok by (apply from_bits_ok; [unfold is_byte in *; lia|done]).
  cbn [take drop] in *. split_and!.
  - unfold FrameHeader.ok. cbn [length_ crc lsn transaction_id flags].
    assert (∀ l, Forall is_byte l → 0 ≤ from_le l < 256 ^ Z.of_nat (length l)) as Hr by apply from_le_bound.
    unfold is_u64, u32_max.
    split_and!; try done; match goal with |- context [from_le ?l] => specialize (Hr l ltac:(all_bytes)); cbn [length] in Hr; lia end.
  - done.
  - unfold FrameHeader.encode. cbn [length_ crc lsn transaction_id flags].
    repeat match goal with |- context [to_le ?n (from_le ?l)] =>
      change (to_le n (from_le l)) with (to_le (length l) (from_le l)); rewrite (Hback l) by all_bytes end.
    done.
Qed.
End header_facts.
