(* ===== verification/WalReader.v ===== *)
(** * Scanning the write-ahead log

    Model of [src/crates/grafeo-storage/src/wal/reader.rs]: [WalScan] from the
    segments whose headers were checked, the groups it returns and where it
    says the log ends. A segment is named by its first log position, as its
    file is, and holds the bytes after its header; the reader of a segment is
    the bytes from the scan's position on. Reads of files do not fail here.
    Loops over the frames of a group and over groups take fuel; the theorems
    of WalScanFacts.v show that as much fuel as bytes and segments is
    enough. *)
From S2P Require Import Prelude Bytes WalFrame.

Section scan.
Context `{WalEnv}.

Definition SEGMENT_HEADER_BYTES : Z := 128.

Record ScanSegment : Type := mkSegment {
  first_lsn : Z;
  content : list Z;
  seg_cipher : option WalCipher;
}.

Definition end_lsn (s : ScanSegment) : Z := first_lsn s + Z.of_nat (length (content s)).

(** Why a frame is bad. *)
Inductive bad_reason : Set :=
  | PartialHeader
  | LengthOverLimit
  | WrongLsn
  | PayloadPastEnd
  | ChecksumMismatch
  | NotAGroupStart
  | NoPrologue
  | SegmentEndsInGroup
  | GroupInsideGroup
  | OtherTransaction
  | CheckpointInsideGroup
  | SyncedPastStart
  | AuthenticationFailed
  | DurableBytesBad (why : bad_reason) (later synced : Z)
  | GapBetweenSegments
  | ChangedSinceScan.

Inductive FrameRead : Type :=
  | FrEnd
  | FrFrame (h : FrameHeader) (payload : list Z)
  | FrBad (why : bad_reason)
  | FrUnauthentic
  | FrUnsupported (why : header_error).

Inductive WalError : Type :=
  | Damaged (segment offset lsn : Z) (why : bad_reason)
  | UnsupportedFrame (segment offset lsn : Z) (why : header_error)
  | LsnOverflow
  | Gap.

(** ** One frame *)

(** [open_payload(cipher, &frame_aad(database_id, header), payload)]. *)
Definition open_payload (c : WalCipher) (aad sealed : list Z) : option (list Z) := decrypt c aad sealed.

(** The frame at [at_lsn], read from [rest], the bytes left of the segment. *)
Definition read_frame_from (rest : list Z) (at_lsn : Z) (c : option WalCipher) (database_id : Z)
  : FrameRead :=
  let remaining := length rest in
  if (remaining =? 0)%nat then FrEnd else
  if (remaining <? FRAME_HEADER_BYTES)%nat then FrBad PartialHeader else
  let bytes := take FRAME_HEADER_BYTES rest in
  let rest := drop FRAME_HEADER_BYTES rest in
  let declared := from_le (take 4 bytes) in
  if MAX_FRAME_PAYLOAD <? declared then FrBad LengthOverLimit else
  let stored_lsn := from_le (take 8 (drop 8 bytes)) in
  if negb (stored_lsn =? at_lsn) then FrBad WrongLsn else
  if Z.of_nat (length rest) <? declared then FrBad PayloadPastEnd else
  let payload := take (Z.to_nat declared) rest in
  if negb (FrameHeader.stored_checksum_matches bytes payload) then FrBad ChecksumMismatch else
  match FrameHeader.decode bytes with
  | Err why => FrUnsupported why
  | Ok h =>
      match c with
      | None => FrFrame h payload
      | Some c =>
          match open_payload c (frame_aad database_id h) payload with
          | Some plaintext => FrFrame h plaintext
          | None => FrUnauthentic
          end
      end
  end.

Definition advance (position : Z) (h : FrameHeader) : result WalError Z :=
  ok_or (checked_add64 position (FrameHeader.frame_bytes h)) LsnOverflow.

Definition prologue (payload : list Z) : option Z :=
  b ← slice 0 FRAME_PROLOGUE_BYTES payload; Some (from_le b).

(** ** The scan *)

Inductive TailKind : Set := Torn | DamagedTail.

Record Tail : Type := mkTail {
  kind : TailKind;
  tail_segment : option Z;
  tail_offset : Z;
  tail_lsn : Z;
  reason : bad_reason;
  set_aside : list Z;
}.

Record Ending : Type := mkEnding { ending_lsn : Z; ending_tail : option Tail }.

Record WalScan : Type := mkScan {
  database_id : Z;
  salvage : bool;
  group_buffer_bytes : Z;
  segments : list ScanSegment;
  beyond_gap : option (list Z);
  index : nat;
  position : Z;
  start_lsn : Z;
  ending : option Ending;
}.

(** Where a group's payloads come from: kept from the scan, or read again
    from a position of its segment. *)
Inductive GroupSource : Type :=
  | Buffered (payloads : list (list Z))
  | Reread (segment : ScanSegment) (at_lsn : Z).

Record GroupFrames : Type := mkGroup {
  group_transaction : Z;
  group_start : Z;
  group_end : Z;
  synced_lsn : Z;
  frame_count : nat;
  source : GroupSource;
}.

Definition set_position (p : Z) (s : WalScan) : WalScan :=
  mkScan (database_id s) (salvage s) (group_buffer_bytes s) (segments s) (beyond_gap s) (index s) p
    (start_lsn s) (ending s).

Definition next_segment (s : WalScan) : WalScan :=
  mkScan (database_id s) (salvage s) (group_buffer_bytes s) (segments s) (beyond_gap s) (S (index s))
    (position s) (start_lsn s) (ending s).

Definition end_scan (e : Ending) (s : WalScan) : WalScan :=
  mkScan (database_id s) (salvage s) (group_buffer_bytes s) (segments s) (beyond_gap s) (index s)
    (position s) (start_lsn s) (Some e).

Definition drop_gap (s : WalScan) : WalScan :=
  mkScan (database_id s) (salvage s) (group_buffer_bytes s) (segments s) None (index s) (position s)
    (start_lsn s) (ending s).

Definition segment_at (s : WalScan) : option ScanSegment := segments s !! index s.

(** The bytes of a segment from a log position on. *)
Definition bytes_from (seg : ScanSegment) (p : Z) : list Z := drop (Z.to_nat (p - first_lsn seg)) (content seg).

Definition read_frame (s : WalScan) (seg : ScanSegment) : FrameRead :=
  read_frame_from (bytes_from seg (position s)) (position s) (seg_cipher seg) (database_id s).

Definition offset_of (seg : ScanSegment) (l : Z) : Z := SEGMENT_HEADER_BYTES + (l - first_lsn seg).

(** The result of reading a group: the scan after it, and the group, [None]
    for the end of the scan, or the error. *)
Definition group_result : Type := WalScan * result WalError (option GroupFrames).

Definition stop_with_tail (k : TailKind) (seg : ScanSegment) (start : Z) (why : bad_reason)
    (aside : list Z) (s : WalScan) : WalScan :=
  end_scan (mkEnding start (Some (mkTail k (Some (first_lsn seg)) (offset_of seg start) start why aside))) s.

Definition damage (seg : ScanSegment) (start bad_lsn : Z) (why : bad_reason) (s : WalScan) : group_result :=
  if negb (salvage s) then (s, Err (Damaged (first_lsn seg) (offset_of seg bad_lsn) bad_lsn why)) else
  let aside := first_lsn <$> drop (S (index s)) (segments s) in
  let aside := aside ++ default [] (beyond_gap s) in
  (stop_with_tail DamagedTail seg start why aside (drop_gap s), Ok None).

(** What [later_synced_group] finds at one candidate position: a later group
    that was written after a sync past the bad frame, a whole frame of a later
    release, where to look next after a group that was not, or nothing. *)
Inductive candidate_result : Type :=
  | CandNothing
  | CandSynced (later synced : Z)
  | CandUnsupported (why : header_error)
  | CandNext (skip : Z).

Definition candidate (db : Z) (seg : ScanSegment) (bad_lsn at_lsn : Z) : candidate_result :=
  let rest := bytes_from seg at_lsn in
  let bytes := take FRAME_HEADER_BYTES rest in
  let after := drop FRAME_HEADER_BYTES rest in
  if negb (bool_decide (take 8 (drop 8 bytes) = to_le 8 at_lsn)) ||
     match FrameFlags.from_bits (nth 24 bytes 0) with
     | Some f => negb (FrameFlags.is_first f)
     | None => false
     end
  then CandNothing else
  let declared := from_le (take 4 bytes) in
  if (MAX_FRAME_PAYLOAD <? declared) || (Z.of_nat (length after) <? declared) then CandNothing else
  let payload := take (Z.to_nat declared) after in
  if negb (FrameHeader.stored_checksum_matches bytes payload) then CandNothing else
  match FrameHeader.decode bytes with
  | Err why => CandUnsupported why
  | Ok h =>
      let synced := match seg_cipher seg with
                    | Some c => open_payload c (frame_aad db h) payload ≫= prologue
                    | None => prologue payload
                    end in
      match synced with
      | None => CandNothing
      | Some synced =>
          if bad_lsn <? synced then CandSynced at_lsn synced else CandNext (FrameHeader.frame_bytes h)
      end
  end.

(** The search from [at_lsn] on. The source reads the bytes a window at a
    time; the candidates are the same. *)
Fixpoint later_synced (fuel : nat) (db : Z) (seg : ScanSegment) (bad_lsn at_lsn : Z)
  : result WalError (option (Z * Z)) :=
  match fuel with
  | O => Ok None
  | S fuel =>
      if (length (bytes_from seg at_lsn) <? FRAME_HEADER_BYTES)%nat then Ok None else
      match candidate db seg bad_lsn at_lsn with
      | CandNothing => later_synced fuel db seg bad_lsn (at_lsn + 1)
      | CandSynced later synced => Ok (Some (later, synced))
      | CandUnsupported why => Err (UnsupportedFrame (first_lsn seg) (offset_of seg at_lsn) at_lsn why)
      | CandNext skip => later_synced fuel db seg bad_lsn (at_lsn + skip)
      end
  end.

(** Every candidate is past the one before it. *)
Definition later_synced_group (db : Z) (seg : ScanSegment) (bad_lsn : Z)
  : result WalError (option (Z * Z)) :=
  later_synced (S (length (bytes_from seg (bad_lsn + 1)))) db seg bad_lsn (bad_lsn + 1).

Definition bad_frame (seg : ScanSegment) (start bad_lsn : Z) (why : bad_reason) (s : WalScan) : group_result :=
  let last_segment := (S (index s) =? length (segments s))%nat && bool_decide (beyond_gap s = None) in
  if negb last_segment then damage seg start bad_lsn why s else
  match later_synced_group (database_id s) seg bad_lsn with
  | Err e => (s, Err e)
  | Ok None => (stop_with_tail Torn seg start why [] s, Ok None)
  | Ok (Some (later, synced)) => damage seg start bad_lsn (DurableBytesBad why later synced) s
  end.

(** The frames kept while a group is read: [None] once they are too large. *)
Definition keep (limit : Z) (kept : option (list (list Z) * Z)) (payload : list Z)
  : option (list (list Z) * Z) :=
  match kept with
  | None => None
  | Some (payloads, bytes) =>
      let bytes := Z.min u64_max (bytes + Z.of_nat (length payload)) in
      if limit <? bytes then None else Some (payloads ++ [payload], bytes)
  end.

(** The loop of [read_group] over the frames after the first; [last] is the
    header read last. *)
Fixpoint read_frames (fuel : nat) (seg : ScanSegment) (first last : FrameHeader) (start synced : Z)
    (count : nat) (kept : option (list (list Z) * Z)) (s : WalScan) : option group_result :=
  if FrameFlags.is_last (flags last) then
    let source := match kept with
                  | Some (payloads, _) => Buffered payloads
                  | None => Reread seg start
                  end in
    Some (s, Ok (Some (mkGroup (transaction_id first) start (position s) synced count source)))
  else
  match fuel with
  | O => None
  | S fuel =>
      let frame_lsn := position s in
      match read_frame s seg with
      | FrEnd => Some (bad_frame seg start frame_lsn SegmentEndsInGroup s)
      | FrBad why => Some (bad_frame seg start frame_lsn why s)
      | FrUnauthentic => Some (damage seg start frame_lsn AuthenticationFailed s)
      | FrUnsupported why =>
          Some (s, Err (UnsupportedFrame (first_lsn seg) (offset_of seg frame_lsn) frame_lsn why))
      | FrFrame h payload =>
          if FrameFlags.is_first (flags h) then Some (bad_frame seg start frame_lsn GroupInsideGroup s) else
          if negb (transaction_id h =? transaction_id first)
          then Some (bad_frame seg start frame_lsn OtherTransaction s) else
          match advance (position s) h with
          | Err e => Some (s, Err e)
          | Ok p =>
              read_frames fuel seg first h start synced (S count)
                (keep (group_buffer_bytes s) kept payload) (set_position p s)
          end
      end
  end.

Definition read_group (seg : ScanSegment) (first : FrameHeader) (first_payload : list Z) (s : WalScan)
  : option group_result :=
  let start := position s in
  match prologue first_payload with
  | None => Some (bad_frame seg start start NoPrologue s)
  | Some synced =>
      if start <? synced then Some (damage seg start start SyncedPastStart s) else
      match advance (position s) first with
      | Err e => Some (s, Err e)
      | Ok p =>
          read_frames (S (length (content seg))) seg first first start synced 1
            (keep (group_buffer_bytes s) (Some ([], 0)) first_payload) (set_position p s)
      end
  end.

Definition stop_at_end (s : WalScan) : WalScan :=
  let tail := (λ aside,
    match last (segments s) with
    | Some seg => mkTail DamagedTail (Some (first_lsn seg)) (offset_of seg (position s)) (position s)
                    GapBetweenSegments aside
    | None => mkTail DamagedTail None 0 (position s) GapBetweenSegments aside
    end) <$> beyond_gap s in
  end_scan (mkEnding (position s) tail) (drop_gap s).

Fixpoint next_group (fuel : nat) (s : WalScan) : option group_result :=
  match ending s with
  | Some _ => Some (s, Ok None)
  | None =>
  match segment_at s with
  | None => Some (stop_at_end s, Ok None)
  | Some seg =>
  match fuel with
  | O => None
  | S fuel =>
      let start := position s in
      match read_frame s seg with
      | FrEnd => next_group fuel (next_segment s)
      | FrFrame h payload =>
          if FrameFlags.is_first (flags h) then
            let marker := FrameFlags.is_last (flags h) && (length payload =? FRAME_PROLOGUE_BYTES)%nat in
            match read_group seg h payload s with
            | Some (s, Ok (Some g)) => if marker then next_group fuel s else Some (s, Ok (Some g))
            | r => r
            end
          else if start =? start_lsn s then Some (damage seg start start CheckpointInsideGroup s)
          else Some (bad_frame seg start start NotAGroupStart s)
      | FrBad why => Some (bad_frame seg start start why s)
      | FrUnauthentic => Some (damage seg start start AuthenticationFailed s)
      | FrUnsupported why => Some (s, Err (UnsupportedFrame (first_lsn seg) (offset_of seg start) start why))
      end
  end end end.

(** Turns that [next_group] takes at most: one per segment and per byte. *)
Definition scan_fuel (s : WalScan) : nat :=
  (length (segments s) + sum_list_with (λ seg, length (content seg)) (segments s))%nat.

(** Every group, then where the log ends: the loop of a recovery over
    [next_group], ended by [finish]. *)
Fixpoint scan_groups (fuel : nat) (s : WalScan) : option (result WalError (list GroupFrames * Ending)) :=
  match fuel with
  | O => None
  | S fuel =>
      '(s, r) ← next_group (S (scan_fuel s)) s;
      match r with
      | Err e => Some (Err e)
      | Ok None => Some (Ok ([], default (mkEnding (position s) None) (ending s)))
      | Ok (Some g) =>
          rest ← scan_groups fuel s;
          Some ('(gs, e) ← rest; Ok (g :: gs, e))
      end
  end.

(** ** Opening *)

(** How many segments come before the first gap, if there is one. *)
Fixpoint gap_after (k : nat) (segs : list ScanSegment) : option nat :=
  match segs with
  | s1 :: (s2 :: _) as segs' =>
      if negb (end_lsn s1 =? first_lsn s2) then Some k else gap_after (S k) segs'
  | _ => None
  end.

Definition find_gap (segs : list ScanSegment) (from_lsn : Z) : option nat :=
  match segs with
  | [] => None
  | first :: _ => if from_lsn <? first_lsn first then Some O else gap_after 1 segs
  end.

(** The segments of the directory whose headers were checked, in order. *)
Definition open_scan (db from_lsn : Z) (salvage_ : bool) (buffer : Z) (listing : list ScanSegment)
  : result WalError WalScan :=
  let used := filter (λ s, from_lsn < end_lsn s ∨ from_lsn ≤ first_lsn s) listing in
  let scan segs beyond :=
    let p := match segs with [] => from_lsn | first :: _ => Z.max from_lsn (first_lsn first) end in
    mkScan db salvage_ buffer segs beyond 0 p p None in
  match find_gap used from_lsn with
  | None => Ok (scan used None)
  | Some k =>
      if negb salvage_ then Err Gap
      else Ok (scan (take k used) (Some (first_lsn <$> drop k used)))
  end.

(** ** The payloads of a group *)

(** [next_payload] until the group ends: the frames' payloads, the prologue
    of the first left out. *)
Fixpoint reread_payloads (db : Z) (seg : ScanSegment) (tx at_lsn : Z) (returned count : nat)
  : result WalError (list (list Z)) :=
  match count with
  | O => Ok []
  | S count' =>
      let changed := Err (Damaged (first_lsn seg) (offset_of seg at_lsn) at_lsn ChangedSinceScan) in
      match read_frame_from (bytes_from seg at_lsn) at_lsn (seg_cipher seg) db with
      | FrFrame h payload =>
          if negb (transaction_id h =? tx)
             || negb (Bool.eqb (FrameFlags.is_first (flags h)) (returned =? 0)%nat)
             || negb (Bool.eqb (FrameFlags.is_last (flags h)) (count' =? 0)%nat)
             || ((returned =? 0)%nat && (length payload <? FRAME_PROLOGUE_BYTES)%nat)
          then changed
          else
            at_lsn ← advance at_lsn h;
            rest ← reread_payloads db seg tx at_lsn (S returned) count';
            Ok (payload :: rest)
      | _ => changed
      end
  end.

Definition skip_prologue (payloads : list (list Z)) : list (list Z) :=
  match payloads with [] => [] | p :: ps => drop FRAME_PROLOGUE_BYTES p :: ps end.

Definition payloads (db : Z) (g : GroupFrames) : result WalError (list (list Z)) :=
  match source g with
  | Buffered ps => Ok (skip_prologue ps)
  | Reread seg at_lsn =>
      ps ← reread_payloads db seg (group_transaction g) at_lsn 0 (frame_count g);
      Ok (skip_prologue ps)
  end.

(** ** Cutting the tail *)

Definition truncate_segment (off : Z) (seg : ScanSegment) : ScanSegment :=
  mkSegment (first_lsn seg) (take (Z.to_nat (off - SEGMENT_HEADER_BYTES)) (content seg)) (seg_cipher seg).

(** The segments left after [cut_torn_tail]: those set aside are gone, the
    segment of the tail is cut. *)
Definition cut_torn_tail (t : option Tail) (listing : list ScanSegment) : list ScanSegment :=
  match t with
  | None => listing
  | Some t =>
      let listing := match kind t with
                     | DamagedTail => filter (λ s, first_lsn s ∉ set_aside t) listing
                     | Torn => listing
                     end in
      match tail_segment t with
      | None => listing
      | Some name =>
          (λ s, if first_lsn s =? name then truncate_segment (tail_offset t) s else s) <$> listing
      end
  end.

End scan.
