(* ===== verification/WalScanFacts.v ===== *)
(** * What a scan of the log returns

    Proofs about [WalReader.v] for any bytes in the segments: a scan ends,
    every group it returns is a whole group of frames with right checksums
    in the order of the log, and its payloads are those of the frames,
    kept or read again. *)
From S2P Require Import Prelude Bytes WalFrame WalReader.

#[local] Arguments to_le : simpl never.
#[local] Arguments from_le : simpl never.

Section facts.
Context `{WalEnv}.

(** ** One frame *)

(** A frame that was read: its header is in front of its payload, both within
    the bytes, and the checksum covers them. *)
Record frame_in (rest : list Z) (p : Z) (h : FrameHeader) : Prop := {
  fi_lsn : lsn h = p;
  fi_ok : FrameHeader.ok h;
  fi_limit : length_ h ≤ MAX_FRAME_PAYLOAD;
  fi_bytes : take FRAME_HEADER_BYTES rest = FrameHeader.encode h;
  fi_room : FrameHeader.frame_bytes h ≤ Z.of_nat (length rest);
  fi_checksum : FrameHeader.stored_checksum_matches (FrameHeader.encode h)
    (take (Z.to_nat (length_ h)) (drop FRAME_HEADER_BYTES rest)) = true;
}.

Lemma decode_length bytes h : FrameHeader.decode bytes = Ok h →
  length_ h = from_le (take 4 bytes) ∧ lsn h = from_le (take 8 (drop 8 bytes)).
Proof.
  unfold FrameHeader.decode. destruct (_ <? _); [done|]. destruct (FrameFlags.from_bits _); [|done].
  by intros [= <-].
Qed.

Lemma read_frame_in rest p c db h payload :
  Forall is_byte rest → read_frame_from rest p c db = FrFrame h payload → frame_in rest p h.
Proof.
  intros Hb. unfold read_frame_from. destruct (_ =? 0)%nat; [done|].
  destruct (length rest <? FRAME_HEADER_BYTES)%nat eqn:El; [done|]. apply Nat.ltb_ge in El.
  destruct (MAX_FRAME_PAYLOAD <? _) eqn:Em; [done|].
  destruct (negb (_ =? p)) eqn:Ep; [done|]. destruct (Z.of_nat _ <? _) eqn:Er; [done|].
  destruct (negb (FrameHeader.stored_checksum_matches _ _)) eqn:Ec; [done|].
  destruct (FrameHeader.decode _) as [h'|] eqn:Ed; [|done]. bool_to_prop. intros Hf.
  assert (h' = h) as -> by (destruct c; [destruct (open_payload _ _ _)|]; congruence). clear Hf.
  destruct (decode_length _ _ Ed) as [Hlen Hl]. rewrite <- Hlen in Em, Er, Ec.
  apply decode_ok in Ed as (Hok & Hlim & Henc); [|by apply Forall_take|rewrite length_take; lia].
  split.
  - by rewrite Hl.
  - done.
  - done.
  - by rewrite Henc.
  - unfold FrameHeader.frame_bytes. rewrite length_drop in Er. lia.
  - by rewrite Henc.
Qed.

Lemma frame_bytes_pos h : FrameHeader.ok h → 25 ≤ FrameHeader.frame_bytes h.
Proof. intros (Hl & _). unfold FrameHeader.frame_bytes, FRAME_HEADER_BYTES. lia. Qed.

(** What bytes after a frame do not change, and what is read of a frame
    whose last bytes are missing. *)
Lemma read_frame_take rest p c db h payload n :
  Forall is_byte rest → read_frame_from rest p c db = FrFrame h payload →
  read_frame_from (take n rest) p c db =
    if (n =? 0)%nat then FrEnd else
    if (n <? FRAME_HEADER_BYTES)%nat then FrBad PartialHeader else
    if (n <? Z.to_nat (FrameHeader.frame_bytes h))%nat then FrBad PayloadPastEnd
    else FrFrame h payload.
Proof.
  intros Hb Hread. pose proof (read_frame_in _ _ _ _ _ _ Hb Hread) as [Hl Hok Hlim Hby Hroom Hck].
  pose proof (frame_bytes_pos h Hok) as Hpos. revert Hread. unfold read_frame_from.
  unfold FrameHeader.frame_bytes in *. rewrite length_take.
  destruct (length rest =? 0)%nat eqn:E0; [done|]. apply Nat.eqb_neq in E0.
  destruct (n =? 0)%nat eqn:En.
  { apply Nat.eqb_eq in En. subst n. done. }
  apply Nat.eqb_neq in En. replace (n `min` length rest =? 0)%nat with false by (symmetry; apply Nat.eqb_neq; lia).
  destruct (length rest <? FRAME_HEADER_BYTES)%nat eqn:El; [done|]. apply Nat.ltb_ge in El.
  destruct (n <? FRAME_HEADER_BYTES)%nat eqn:Eh.
  { apply Nat.ltb_lt in Eh. replace (n `min` length rest <? FRAME_HEADER_BYTES)%nat with true
      by (symmetry; apply Nat.ltb_lt; lia). done. }
  apply Nat.ltb_ge in Eh. replace (n `min` length rest <? FRAME_HEADER_BYTES)%nat with false
    by (symmetry; apply Nat.ltb_ge; lia).
  assert (take FRAME_HEADER_BYTES (take n rest) = take FRAME_HEADER_BYTES rest) as ->
    by (rewrite take_take; f_equal; lia).
  rewrite Hby.
  destruct (encode_parts h) as (-> & _ & -> & _). destruct Hok as (Hlr & _ & Hlsn & _).
  rewrite from_to_le64 by done. rewrite from_to_le by (unfold u32_max in *; lia).
  destruct (MAX_FRAME_PAYLOAD <? length_ h); [done|]. destruct (negb (lsn h =? p)); [done|].
  rewrite length_drop. destruct (Z.of_nat (length rest - FRAME_HEADER_BYTES) <? length_ h) eqn:Er; [done|].
  rewrite length_drop, length_take.
  destruct (n <? Z.to_nat (Z.of_nat FRAME_HEADER_BYTES + length_ h))%nat eqn:Ep.
  { apply Nat.ltb_lt in Ep. replace (Z.of_nat (n `min` length rest - FRAME_HEADER_BYTES) <? length_ h) with true; [done|].
    symmetry. apply Z.ltb_lt. lia. }
  apply Nat.ltb_ge in Ep. replace (Z.of_nat (n `min` length rest - FRAME_HEADER_BYTES) <? length_ h) with false
    by (symmetry; apply Z.ltb_ge; lia).
  assert (take (Z.to_nat (length_ h)) (drop FRAME_HEADER_BYTES (take n rest)) =
          take (Z.to_nat (length_ h)) (drop FRAME_HEADER_BYTES rest)) as ->; [|done].
  rewrite skipn_firstn_comm, take_take. f_equal. lia.
Qed.

(** ** Frames one after the other *)

Definition frame_at (db : Z) (seg : ScanSegment) (p : Z) (h : FrameHeader) (payload : list Z) : Prop :=
  read_frame_from (bytes_from seg p) p (seg_cipher seg) db = FrFrame h payload ∧
  p + FrameHeader.frame_bytes h ≤ u64_max.

Inductive frames_at (db : Z) (seg : ScanSegment) : Z → list (FrameHeader * list Z) → Z → Prop :=
  | frames_nil p : frames_at db seg p [] p
  | frames_cons p h payload fs q :
      frame_at db seg p h payload → frames_at db seg (p + FrameHeader.frame_bytes h) fs q →
      frames_at db seg p ((h, payload) :: fs) q.

Lemma frames_at_app db seg p fs q fs' r :
  frames_at db seg p fs q → frames_at db seg q fs' r → frames_at db seg p (fs ++ fs') r.
Proof. induction 1; [done|]. intros. cbn [app]. econstructor; eauto. Qed.

Lemma bytes_from_byte seg p : Forall is_byte (content seg) → Forall is_byte (bytes_from seg p).
Proof. apply Forall_drop. Qed.

Lemma frame_at_ok db seg p h payload :
  Forall is_byte (content seg) → frame_at db seg p h payload →
  25 ≤ FrameHeader.frame_bytes h ≤ Z.of_nat (length (bytes_from seg p)).
Proof.
  intros Hb [Hr _]. apply read_frame_in in Hr as [_ Hok _ _ Hroom _]; [|by apply bytes_from_byte].
  pose proof (frame_bytes_pos h Hok). lia.
Qed.

(** A position only moves on within its segment. *)
Lemma bytes_from_length seg p : length (bytes_from seg p) = (length (content seg) - Z.to_nat (p - first_lsn seg))%nat.
Proof. unfold bytes_from. by rewrite length_drop. Qed.

Lemma frame_at_shorter db seg p h payload :
  Forall is_byte (content seg) → first_lsn seg ≤ p → frame_at db seg p h payload →
  (length (bytes_from seg (p + FrameHeader.frame_bytes h)) + 25 ≤ length (bytes_from seg p))%nat.
Proof.
  intros Hb Hp Hf. apply frame_at_ok in Hf; [|done]. rewrite !bytes_from_length in *. lia.
Qed.

Lemma frames_at_le db seg p fs q :
  Forall is_byte (content seg) → frames_at db seg p fs q → p ≤ q.
Proof.
  intros Hb. induction 1 as [|p h payload fs q Hf _ IH]; [lia|]. apply frame_at_ok in Hf; [|done]. lia.
Qed.

(** FIRST is set on the first frame alone, LAST on the last alone. *)
Definition group_flags (fs : list (FrameHeader * list Z)) : Prop :=
  ∀ i h payload, fs !! i = Some (h, payload) →
    FrameFlags.is_first (flags h) = (i =? 0)%nat ∧ FrameFlags.is_last (flags h) = (S i =? length fs)%nat.

Record whole_group (db : Z) (seg : ScanSegment) (g : GroupFrames) (fs : list (FrameHeader * list Z)) : Prop := {
  wg_chain : frames_at db seg (group_start g) fs (group_end g);
  wg_flags : group_flags fs;
  wg_transaction : Forall (λ f, transaction_id f.1 = group_transaction g) fs;
  wg_count : frame_count g = length fs;
  wg_prologue : ∃ h payload fs', fs = (h, payload) :: fs' ∧ prologue payload = Some (synced_lsn g);
  wg_synced : synced_lsn g ≤ group_start g;
  wg_payloads : payloads db g = Ok (skip_prologue fs.*2);
}.

(** Reading the frames again gives their payloads. *)
Lemma reread_frames db seg p fs q tx returned :
  frames_at db seg p fs q → Forall (λ f, transaction_id f.1 = tx) fs →
  (∀ i h payload, fs !! i = Some (h, payload) →
     FrameFlags.is_first (flags h) = (returned + i =? 0)%nat ∧
     FrameFlags.is_last (flags h) = (S i =? length fs)%nat) →
  (returned = O → ∀ h payload fs', fs = (h, payload) :: fs' → is_Some (prologue payload)) →
  reread_payloads db seg tx p returned (length fs) = Ok fs.*2.
Proof.
  intros Hfs. revert returned. induction Hfs as [|p h payload fs q [Hr Hp] Hfs IH]; intros returned Htx Hfl Hpro; [done|].
  apply Forall_cons in Htx as [Htx1 Htx]. cbn [length reread_payloads]. rewrite Hr.
  destruct (Hfl O h payload eq_refl) as [Hf0 Hl0]. rewrite Nat.add_0_r in Hf0. cbn [length] in Hl0.
  rewrite Hf0, Hl0. cbn [fst] in Htx1. rewrite Htx1, Z.eqb_refl.
  replace (1 =? S (length fs))%nat with (length fs =? 0)%nat by (destruct fs; done).
  rewrite !Bool.eqb_reflx. cbn [negb orb].
  assert ((returned =? 0)%nat && (length payload <? FRAME_PROLOGUE_BYTES)%nat = false) as ->.
  { destruct (returned =? 0)%nat eqn:E; [|done]. apply Nat.eqb_eq in E. cbn [andb].
    destruct (Hpro E h payload fs eq_refl) as [v Hv]. unfold prologue, slice in Hv.
    destruct (0 + FRAME_PROLOGUE_BYTES <=? length payload)%nat eqn:E2; [|done]. apply Nat.leb_le in E2.
    apply Nat.ltb_ge. exact E2. }
  unfold advance, checked_add64. rewrite (proj2 (Z.leb_le _ _)) by done. cbn [ok_or mbind result_bind].
  rewrite IH; [done|done| |done].
  intros i h' payload' Hi. specialize (Hfl (S i) h' payload' Hi). cbn [length] in Hfl.
  by replace (S returned + i)%nat with (returned + S i)%nat by lia.
Qed.

(** ** One group *)

(** A scan that stopped at [start]: an error, or its end is there. *)
Definition stops (start : Z) (r : group_result) : Prop :=
  match r with
  | (s', Ok None) => ∃ e, ending s' = Some e ∧ ending_lsn e = start
  | (_, Ok (Some _)) => False
  | (_, Err _) => True
  end.

Lemma damage_stops seg start bad why s : stops start (damage seg start bad why s).
Proof. unfold damage. destruct (negb _); [done|]. by eexists. Qed.

Lemma bad_frame_stops seg start bad why s : stops start (bad_frame seg start bad why s).
Proof.
  unfold bad_frame. destruct (negb _); [apply damage_stops|].
  destruct (later_synced_group _ _ _) as [[[later synced]|]|e]; [apply damage_stops|by eexists|done].
Qed.

(** The frames read so far, the header read last and the kept payloads. *)
Record reading (db : Z) (seg : ScanSegment) (first last_h : FrameHeader) (start synced : Z)
    (fs : list (FrameHeader * list Z)) (count : nat) (kept : option (list (list Z) * Z)) (p : Z) : Prop := {
  rd_chain : frames_at db seg start fs p;
  rd_start : first_lsn seg ≤ start;
  rd_first : ∀ i h payload, fs !! i = Some (h, payload) → FrameFlags.is_first (flags h) = (i =? 0)%nat;
  rd_last : ∃ fs0 payload, fs = fs0 ++ [(last_h, payload)] ∧
              Forall (λ f, FrameFlags.is_last (flags f.1) = false) fs0;
  rd_transaction : Forall (λ f, transaction_id f.1 = transaction_id first) fs;
  rd_count : count = length fs;
  rd_prologue : ∃ h payload fs', fs = (h, payload) :: fs' ∧ prologue payload = Some synced;
  rd_synced : synced ≤ start;
  rd_kept : ∀ ps n, kept = Some (ps, n) → ps = fs.*2;
}.

Lemma reading_whole db seg first last_h start synced fs count kept p :
  reading db seg first last_h start synced fs count kept p →
  FrameFlags.is_last (flags last_h) = true →
  whole_group db seg
    (mkGroup (transaction_id first) start p synced count
       (match kept with Some (ps, _) => Buffered ps | None => Reread seg start end)) fs.
Proof.
  intros [Hc Hs Hf (fs0 & pl & -> & Hl0) Ht Hn Hpro Hsy Hk] Hl.
  assert (group_flags (fs0 ++ [(last_h, pl)])) as Hfl.
  { intros i h payload Hi. split; [by eapply Hf|]. rewrite length_app. cbn [length].
    apply lookup_app_Some in Hi as [Hi|[Hge Hi]].
    - pose proof (lookup_lt_Some _ _ _ Hi). apply (Forall_lookup_1 _ _ _ _ Hl0) in Hi. cbn in Hi.
      rewrite Hi. symmetry. apply Nat.eqb_neq. lia.
    - apply list_lookup_singleton_Some in Hi as [Hi [= <- <-]]. rewrite Hl. symmetry. apply Nat.eqb_eq. lia. }
  split; cbn [group_start group_end group_transaction frame_count synced_lsn]; try done.
  unfold payloads. cbn [source]. destruct kept as [[ps n]|].
  - by rewrite (Hk ps n eq_refl).
  - cbn [frame_count group_transaction]. rewrite Hn.
    rewrite (reread_frames db seg start _ p (transaction_id first) 0); [done|done|done|exact Hfl|].
    intros _ h payload fs' Heq. destruct Hpro as (h' & payload' & fs'' & Heq' & Hp). rewrite Heq in Heq'.
    injection Heq' as <- <- <-. by rewrite Hp.
Qed.

Lemma keep_fmap limit kept payload (fs : list (FrameHeader * list Z)) h :
  (∀ ps n, kept = Some (ps, n) → ps = fs.*2) →
  ∀ ps n, keep limit kept payload = Some (ps, n) → ps = (fs ++ [(h, payload)]).*2.
Proof.
  intros Hk ps n. unfold keep. destruct kept as [[ps' n']|]; [|done]. destruct (_ <? _); [done|].
  intros [= <- _]. by rewrite (Hk ps' n' eq_refl), fmap_app.
Qed.

Lemma reading_step db seg first last_h start synced fs count kept p h payload limit :
  reading db seg first last_h start synced fs count kept p →
  FrameFlags.is_last (flags last_h) = false → frame_at db seg p h payload →
  FrameFlags.is_first (flags h) = false → transaction_id h = transaction_id first →
  reading db seg first h start synced (fs ++ [(h, payload)]) (S count)
    (keep limit kept payload) (p + FrameHeader.frame_bytes h).
Proof.
  intros [Hc Hs Hf (fs0 & pl & Heq & Hl0) Ht Hn (h0 & p0 & fs1 & Heq0 & Hp0) Hsy Hk] Hl Hat Hfirst Htx. split.
  - eapply frames_at_app; [done|]. econstructor; [done|constructor].
  - done.
  - intros i h' payload' Hi. apply lookup_app_Some in Hi as [Hi|[Hge Hi]]; [by eapply Hf|].
    apply list_lookup_singleton_Some in Hi as [Hi [= <- <-]]. rewrite Hfirst. symmetry. apply Nat.eqb_neq.
    rewrite Heq0 in Hge. cbn in Hge. lia.
  - exists fs, payload. split; [done|]. rewrite Heq. apply Forall_app. split; [done|]. by constructor.
  - apply Forall_app. split; [done|]. by constructor.
  - rewrite length_app. cbn. lia.
  - exists h0, p0, (fs1 ++ [(h, payload)]). by rewrite Heq0.
  - done.
  - by apply keep_fmap.
Qed.

Lemma read_frames_spec fuel db seg first last_h start synced fs count kept s :
  Forall is_byte (content seg) → database_id s = db → (length (bytes_from seg (position s)) < fuel)%nat →
  reading db seg first last_h start synced fs count kept (position s) →
  ∃ r, read_frames fuel seg first last_h start synced count kept s = Some r ∧
    match r with
    | (s', Ok (Some g)) =>
        (∃ fs', whole_group db seg g (fs ++ fs')) ∧ group_start g = start ∧ position s ≤ group_end g ∧
        s' = set_position (group_end g) s
    | _ => stops start r
    end.
Proof.
  intros Hb <-. revert last_h fs count kept s.
  induction fuel as [|fuel IH]; intros last_h fs count kept s Hfuel Hr; [lia|].
  cbn [read_frames]. destruct (FrameFlags.is_last (flags last_h)) eqn:El.
  { eexists. split; [done|]. split; [exists []; rewrite app_nil_r; by eapply reading_whole|]. cbn. split_and!; [done|lia|]. by destruct s. }
  assert (∀ r, stops start r →
    match r with
    | (s', Ok (Some g)) =>
        (∃ fs', whole_group (database_id s) seg g (fs ++ fs')) ∧ group_start g = start ∧ position s ≤ group_end g ∧
        s' = set_position (group_end g) s
    | _ => stops start r
    end) as Hstop by (intros [s' [[g|]|e]]; cbn; tauto).
  destruct (read_frame s seg) as [|h payload|why| |why] eqn:Erd;
    try (eexists; split; [done|]; apply Hstop; first [apply bad_frame_stops|apply damage_stops|exact I]).
  destruct (FrameFlags.is_first (flags h)) eqn:Ef;
    [eexists; split; [done|]; apply Hstop, bad_frame_stops|].
  destruct (transaction_id h =? transaction_id first) eqn:Et; cbn [negb];
    [|eexists; split; [done|]; apply Hstop, bad_frame_stops].
  bool_to_prop. unfold advance, checked_add64. destruct (_ <=? u64_max) eqn:Eo; cbn [ok_or];
    [|eexists; split; [done|]; by apply Hstop].
  bool_to_prop. assert (frame_at (database_id s) seg (position s) h payload) as Hat by done.
  pose proof (reading_step _ _ _ _ _ _ _ _ _ _ _ _ (group_buffer_bytes s) Hr El Hat Ef Et) as Hr'.
  assert (first_lsn seg ≤ position s) as Hpos.
  { pose proof (rd_start _ _ _ _ _ _ _ _ _ _ Hr). pose proof (frames_at_le _ _ _ _ _ Hb (rd_chain _ _ _ _ _ _ _ _ _ _ Hr)). lia. }
  pose proof (frame_at_shorter _ _ _ _ _ Hb Hpos Hat) as Hsh.
  destruct (IH h (fs ++ [(h, payload)]) (S count) (keep (group_buffer_bytes s) kept payload)
    (set_position (position s + FrameHeader.frame_bytes h) s)) as (r & -> & Hres); [cbn [position set_position]; lia|done|].
  exists r. split; [done|]. destruct r as [s' [[g|]|e]]; [|done|done]. cbn [position set_position database_id] in Hres.
  destruct Hres as ((fs' & Hw) & Hg & Hle & ->). rewrite <- app_assoc in Hw. split; [by eexists|].
  pose proof (frame_at_ok _ _ _ _ _ Hb Hat). split_and!; [done|lia|done].
Qed.

Lemma read_group_spec seg h payload s :
  Forall is_byte (content seg) → first_lsn seg ≤ position s → read_frame s seg = FrFrame h payload →
  FrameFlags.is_first (flags h) = true →
  ∃ r, read_group seg h payload s = Some r ∧
    match r with
    | (s', Ok (Some g)) =>
        (∃ fs, whole_group (database_id s) seg g fs ∧ head fs = Some (h, payload)) ∧ group_start g = position s ∧
        position s + 25 ≤ group_end g ∧ s' = set_position (group_end g) s
    | _ => stops (position s) r
    end.
Proof.
  intros Hb Hpos Hrd Hf. unfold read_group.
  assert (∀ r, stops (position s) r →
    match r with
    | (s', Ok (Some g)) =>
        (∃ fs, whole_group (database_id s) seg g fs ∧ head fs = Some (h, payload)) ∧ group_start g = position s ∧
        position s + 25 ≤ group_end g ∧ s' = set_position (group_end g) s
    | _ => stops (position s) r
    end) as Hstop by (intros [s' [[g|]|e]]; cbn; tauto).
  destruct (prologue payload) as [synced|] eqn:Ep; [|eexists; split; [done|]; apply Hstop, bad_frame_stops].
  destruct (position s <? synced) eqn:Es; [eexists; split; [done|]; apply Hstop, damage_stops|]. bool_to_prop.
  unfold advance, checked_add64. destruct (_ <=? u64_max) eqn:Eo; cbn [ok_or]; [|eexists; split; [done|]; by apply Hstop].
  bool_to_prop. assert (frame_at (database_id s) seg (position s) h payload) as Hat by done.
  pose proof (frame_at_ok _ _ _ _ _ Hb Hat) as Hfb.
  assert (reading (database_id s) seg h h (position s) synced [(h, payload)] 1
            (keep (group_buffer_bytes s) (Some ([], 0)) payload) (position s + FrameHeader.frame_bytes h)) as Hr.
  { split; try done.
    - econstructor; [done|constructor].
    - intros i h' payload' [-> [= <- <-]]%list_lookup_singleton_Some. done.
    - by exists [], payload.
    - by constructor.
    - by exists h, payload, [].
    - apply (keep_fmap _ _ _ [] h). by intros ps n [= <- _]. }
  destruct (read_frames_spec (S (length (content seg))) (database_id s) seg h h (position s) synced
    [(h, payload)] 1 (keep (group_buffer_bytes s) (Some ([], 0)) payload)
    (set_position (position s + FrameHeader.frame_bytes h) s)) as (r & -> & Hres); try done.
  { rewrite bytes_from_length. lia. }
  exists r. split; [done|]. destruct r as [s' [[g|]|e]]; [|done|done]. cbn [position set_position] in Hres.
  destruct Hres as ((fs' & Hw) & Hg & Hle & ->). split; [by eexists|]. split_and!; [done|lia|done].
Qed.

(** ** All groups *)

(** Bytes and segments left to scan. *)
Definition left_to_scan (s : WalScan) : nat :=
  match drop (index s) (segments s) with
  | [] => 0
  | seg :: segs =>
      (1 + length (bytes_from seg (position s)) + sum_list_with (λ seg, 1 + length (content seg)) segs)%nat
  end.

(** Scans walk the segments within their bounds. *)
Record scan_ok (s : WalScan) : Prop := {
  so_bytes : Forall (λ seg, Forall is_byte (content seg)) (segments s);
  so_chain : ∀ i s1 s2, segments s !! i = Some s1 → segments s !! S i = Some s2 → end_lsn s1 = first_lsn s2;
  so_position : ∀ seg, segment_at s = Some seg → first_lsn seg ≤ position s ≤ end_lsn seg;
}.

Lemma left_le_fuel s : (left_to_scan s ≤ scan_fuel s)%nat.
Proof.
  unfold left_to_scan, scan_fuel. set (w := λ seg, length (content seg)).
  assert (∀ l, sum_list_with (λ seg, 1 + length (content seg))%nat l = (length l + sum_list_with w l)%nat) as Hsum.
  { induction l as [|x l IH]; [done|]. cbn [sum_list_with length]. rewrite IH. unfold w. lia. }
  rewrite <- (take_drop (index s) (segments s)) at 2 3.
  rewrite length_app. assert (∀ l k, sum_list_with w (l ++ k) = (sum_list_with w l + sum_list_with w k)%nat) as Happ.
  { intros l k. induction l as [|x l IH]; [done|]. cbn [app sum_list_with]. rewrite IH. lia. }
  rewrite Happ. destruct (drop (index s) (segments s)) as [|seg segs]; [lia|].
  rewrite Hsum, bytes_from_length. cbn [sum_list_with length]. change (w seg) with (length (content seg)). lia.
Qed.

Lemma segment_at_drop s seg :
  segment_at s = Some seg → drop (index s) (segments s) = seg :: drop (S (index s)) (segments s).
Proof. apply drop_S. Qed.

Lemma scan_ok_next s seg :
  scan_ok s → segment_at s = Some seg → bytes_from seg (position s) = [] → scan_ok (next_segment s).
Proof.
  intros [Hb Hc Hp] Hseg He. split; [done|done|]. intros seg' Hseg'. unfold segment_at in *. cbn [index segments next_segment] in Hseg'.
  cbn [position next_segment]. pose proof (Hc _ _ _ Hseg Hseg') as Heq. specialize (Hp seg Hseg).
  assert (length (bytes_from seg (position s)) = O) as Hz by by rewrite He. rewrite bytes_from_length in Hz.
  unfold end_lsn in *. lia.
Qed.

Lemma read_frame_End rest p c db : read_frame_from rest p c db = FrEnd → rest = [].
Proof.
  unfold read_frame_from. destruct (length rest =? 0)%nat eqn:E; [intros _; by apply nil_length_inv, Nat.eqb_eq|].
  repeat case_match; done.
Qed.

Lemma frames_at_end db seg p fs q :
  Forall is_byte (content seg) → first_lsn seg ≤ p ≤ end_lsn seg → frames_at db seg p fs q → q ≤ end_lsn seg.
Proof.
  intros Hb Hp Hfs. induction Hfs as [|p h payload fs q Hf _ IH]; [lia|]. apply IH.
  apply frame_at_ok in Hf; [|done]. rewrite bytes_from_length in Hf. unfold end_lsn in *. lia.
Qed.

(** A sync marker is one frame that holds a prologue alone. *)
Definition not_marker (fs : list (FrameHeader * list Z)) : Prop :=
  ∀ h payload, fs = [(h, payload)] → length payload ≠ FRAME_PROLOGUE_BYTES.

(** What one call of [next_group] does. *)
Definition next_ok (s : WalScan) (r : group_result) : Prop :=
  match r with
  | (s', Ok (Some g)) =>
      (∃ i seg fs, segments s !! i = Some seg ∧ (index s ≤ i)%nat ∧ whole_group (database_id s) seg g fs ∧
         not_marker fs) ∧
      position s ≤ group_start g ∧ group_start g < group_end g ∧ group_end g = position s' ∧
      ending s' = None ∧ segments s' = segments s ∧ database_id s' = database_id s ∧ scan_ok s' ∧
      (left_to_scan s' < left_to_scan s)%nat
  | (s', Ok None) => ∃ e, ending s' = Some e ∧ position s ≤ ending_lsn e
  | (_, Err _) => True
  end.

Lemma read_group_left seg s p :
  segment_at s = Some seg → scan_ok s → position s + 25 ≤ p ≤ end_lsn seg →
  scan_ok (set_position p s) ∧ (left_to_scan (set_position p s) < left_to_scan s)%nat.
Proof.
  intros Hseg [Hb Hc Hp] Hle. specialize (Hp seg Hseg) as Hps. split.
  - split; [done|done|]. intros seg' Hseg'. change (segment_at (set_position p s)) with (segment_at s) in Hseg'.
    simplify_eq. cbn [position set_position]. lia.
  - unfold left_to_scan. cbn [index segments position set_position].
    rewrite (segment_at_drop _ _ Hseg). rewrite !bytes_from_length. unfold end_lsn in *. lia.
Qed.

Lemma next_group_spec fuel s :
  scan_ok s → ending s = None → (left_to_scan s < fuel)%nat →
  ∃ r, next_group fuel s = Some r ∧ next_ok s r.
Proof.
  revert s. induction fuel as [|fuel IH]; intros s Hok He Hfuel; [lia|]. cbn [next_group]. rewrite He.
  destruct (segment_at s) as [seg|] eqn:Hseg.
  2:{ eexists. split; [done|]. eexists. split; [done|]. cbn. lia. }
  pose proof (so_position _ Hok seg Hseg) as Hpos.
  assert (Forall is_byte (content seg)) as Hb by (apply (Forall_lookup_1 _ _ _ _ (so_bytes _ Hok) Hseg)).
  assert (∀ r, stops (position s) r → next_ok s r) as Hstop.
  { intros [s' [[g|]|e]] Hs; cbn in *; [done| |done]. destruct Hs as (e & -> & Heq). exists e. split; [done|lia]. }
  destruct (read_frame s seg) as [|h payload|why| |why] eqn:Erd;
    try (eexists; split; [done|]; apply Hstop; first [apply bad_frame_stops|apply damage_stops|exact I]).
  - apply read_frame_End in Erd as Hempty.
    assert (left_to_scan (next_segment s) < left_to_scan s)%nat as Hlt.
    { unfold left_to_scan. cbn [index segments position next_segment]. rewrite (segment_at_drop _ _ Hseg).
      destruct (drop (S (index s)) (segments s)) as [|seg' segs]; [lia|]. rewrite !bytes_from_length.
      cbn [sum_list_with]. lia. }
    destruct (IH (next_segment s)) as (r & -> & Hr); [by eapply scan_ok_next|done|lia|]. exists r. split; [done|].
    destruct r as [s' [[g|]|e]]; cbn in *; [|done|done].
    destruct Hr as ((i & sg & fs & Hi & Hle & Hw) & Hrest). split; [|naive_solver lia].
    exists i, sg, fs. split; [done|]. split; [lia|done].
  - destruct (FrameFlags.is_first (flags h)) eqn:Ef.
    2:{ destruct (_ =? _); eexists; (split; [done|]); apply Hstop; [apply damage_stops|apply bad_frame_stops]. }
    destruct (read_group_spec seg h payload s Hb (proj1 Hpos) Erd Ef) as (r & -> & Hr).
    destruct r as [s' [[g|]|e]]; [|eexists; split; [done|]; by apply Hstop..].
    destruct Hr as ((fs & Hw & Hhead) & Hgs & Hge & ->).
    assert (group_end g ≤ end_lsn seg) as Hend.
    { pose proof (wg_chain _ _ _ _ Hw) as Hc. rewrite Hgs in Hc. by apply frames_at_end in Hc. }
    destruct (read_group_left seg s (group_end g) Hseg Hok ltac:(lia)) as [Hok' Hlt].
    destruct (_ && _) eqn:Em.
    + destruct (IH (set_position (group_end g) s)) as (r & -> & Hr); [done|done|lia|]. exists r. split; [done|].
      destruct r as [s' [[g'|]|e]]; cbn in *; [|naive_solver lia|done].
      destruct Hr as (Hex & H1 & H2 & H3 & H4 & H5 & H6 & H7 & H8). split_and!; try done; lia.
    + eexists. split; [done|]. cbn [next_ok]. split.
      { exists (index s), seg, fs. split; [done|]. split; [lia|]. split; [done|]. intros h' pl -> Hpl8.
        cbn in Hhead. simplify_eq. pose proof (proj2 (wg_flags _ _ _ _ Hw O _ _ eq_refl)) as Hl. cbn in Hl. rewrite Hl, Hpl8, Nat.eqb_refl in Em. done. }
      split_and!; try done; try lia; apply Hok'.
Qed.

Lemma scan_groups_spec fuel s :
  scan_ok s → ending s = None → (left_to_scan s < fuel)%nat →
  ∃ r, scan_groups fuel s = Some r ∧
    match r with
    | Err _ => True
    | Ok (gs, e) =>
        (∀ g, g ∈ gs → ∃ seg fs, seg ∈ segments s ∧ whole_group (database_id s) seg g fs ∧ not_marker fs) ∧
        StronglySorted (λ g g', group_end g ≤ group_start g') gs ∧
        Forall (λ g, position s ≤ group_start g ∧ group_start g < group_end g ∧ group_end g ≤ ending_lsn e) gs ∧
        position s ≤ ending_lsn e
    end.
Proof.
  revert s. induction fuel as [|fuel IH]; intros s Hok He Hfuel; [lia|]. cbn [scan_groups].
  destruct (next_group_spec (S (scan_fuel s)) s Hok He) as (r & -> & Hr); [pose proof (left_le_fuel s); lia|].
  cbn [mbind option_bind]. destruct r as [s' [[g|]|err]]; [| |by eexists].
  - destruct Hr as ((i & seg & fs & Hi & _ & Hw & Hm) & Hp1 & Hp2 & Hp3 & He' & Hsegs & Hdb & Hok' & Hlt).
    destruct (IH s' Hok' He' ltac:(lia)) as (r & -> & Hr). cbn [mbind option_bind]. eexists. split; [done|].
    destruct r as [[gs e]|err]; cbn [mbind result_bind]; [|done]. rewrite Hsegs, Hdb in Hr.
    destruct Hr as (H1 & H2 & H3 & H4). split_and!.
    + intros g' [->|Hg']%elem_of_cons; [|by apply H1]. exists seg, fs. split_and!; [|done|done].
      by apply list_elem_of_lookup_2 in Hi.
    + constructor; [done|]. eapply Forall_impl; [exact H3|]. cbn. lia.
    + constructor; [lia|]. eapply Forall_impl; [exact H3|]. cbn. lia.
    + lia.
  - destruct Hr as (e & -> & Hle). eexists. split; [done|]. cbn. split_and!; try done; [|constructor..].
    by intros g ?%not_elem_of_nil.
Qed.

(** ** Opening *)

Lemma gap_after_chain k segs i s1 s2 :
  gap_after k segs = None → segs !! i = Some s1 → segs !! S i = Some s2 → end_lsn s1 = first_lsn s2.
Proof.
  revert k i. induction segs as [|x segs IH]; intros k i Hg H1 H2; [done|]. cbn [gap_after] in Hg.
  destruct segs as [|y segs]; [by destruct i|]. destruct (end_lsn x =? first_lsn y) eqn:E; cbn [negb] in Hg; [|done].
  destruct i as [|i]; [cbn in H1, H2; simplify_eq; by bool_to_prop|]. by apply (IH (S k) i).
Qed.

Lemma gap_after_take k segs n i s1 s2 :
  gap_after k segs = Some n → (k + i < n)%nat → segs !! i = Some s1 → segs !! S i = Some s2 → end_lsn s1 = first_lsn s2.
Proof.
  revert k i. induction segs as [|x segs IH]; intros k i Hg Hlt H1 H2; [done|]. cbn [gap_after] in Hg.
  destruct segs as [|y segs]; [by destruct i|]. destruct (end_lsn x =? first_lsn y) eqn:E; cbn [negb] in Hg.
  - destruct i as [|i]; [cbn in H1, H2; simplify_eq; by bool_to_prop|]. apply (IH (S k) i); [done|lia|done|done].
  - simplify_eq. lia.
Qed.

Lemma open_scan_ok db from_lsn salvage_ buffer listing s :
  Forall (λ seg, Forall is_byte (content seg)) listing →
  open_scan db from_lsn salvage_ buffer listing = Ok s →
  scan_ok s ∧ ending s = None ∧ database_id s = db ∧ from_lsn ≤ position s ∧
  (∀ seg, seg ∈ segments s → seg ∈ listing).
Proof.
  intros Hb. unfold open_scan. set (used := filter _ listing).
  assert (∀ seg, seg ∈ used → seg ∈ listing ∧ (from_lsn < end_lsn seg ∨ from_lsn ≤ first_lsn seg)) as Hused.
  { intros seg [? ?]%list_elem_of_filter. done. }
  assert (∀ segs beyond, (∀ seg, seg ∈ segs → seg ∈ used) →
    (∀ i s1 s2, segs !! i = Some s1 → segs !! S i = Some s2 → end_lsn s1 = first_lsn s2) →
    (∀ seg segs', segs = seg :: segs' → first_lsn seg ≤ from_lsn) →
    let p := match segs with [] => from_lsn | first :: _ => Z.max from_lsn (first_lsn first) end in
    let s := mkScan db salvage_ buffer segs beyond 0 p p None in
    scan_ok s ∧ ending s = None ∧ database_id s = db ∧ from_lsn ≤ position s ∧
    (∀ seg, seg ∈ segments s → seg ∈ listing)) as Hmk.
  { intros segs beyond Hin Hch Hfirst p s'. split_and!; try done.
    - split; cbn.
      + apply Forall_forall. intros seg Hseg. apply (proj1 (Forall_forall _ _) Hb), Hused, Hin, Hseg.
      + done.
      + intros seg Hseg. destruct segs as [|seg' segs]; [done|]. cbn in Hseg. simplify_eq.
        specialize (Hfirst seg segs eq_refl). destruct (Hused seg (Hin seg (list_elem_of_here _ _))) as [_ Hu].
        unfold p, end_lsn in *. lia.
    - cbn. unfold p. destruct segs; lia.
    - cbn. intros seg Hseg. apply Hused, Hin, Hseg. }
  unfold find_gap. destruct used as [|first rest] eqn:Eu.
  { intros [= <-]. apply Hmk; [done| |done]. intros [] ? ?; done. }
  destruct (from_lsn <? first_lsn first) eqn:Ef.
  { destruct (negb salvage_); [done|]. intros [= <-]. cbn [take]. apply Hmk; [by intros seg ?%not_elem_of_nil|by intros []|done]. }
  bool_to_prop. destruct (gap_after 1 (first :: rest)) as [n|] eqn:Eg.
  - destruct (negb salvage_); [done|]. intros [= <-]. apply Hmk.
    + intros seg Hseg. apply list_elem_of_lookup in Hseg as [i Hi].
      apply lookup_take_Some in Hi as [Hi _]. by apply list_elem_of_lookup_2 in Hi.
    + intros i s1 s2 H1 H2. apply lookup_take_Some in H1 as [H1 _], H2 as [H2 Hlt].
      apply (gap_after_take 1 (first :: rest) n i); [done|lia|done|done].
    + intros seg segs' Heq. destruct n; [done|]. cbn in Heq. simplify_eq. done.
  - intros [= <-]. apply Hmk; [done| |by intros seg segs' [= <- _]].
    intros i s1 s2 H1 H2. by apply (gap_after_chain 1 (first :: rest) i).
Qed.

End facts.
