(* ===== verification/WalWriter.v ===== *)
(** * Writing groups to the log

    Model of the group writer of
    [src/crates/grafeo-storage/src/wal/writer.rs]: records packed into frames,
    the first with FIRST and the prologue, the last with LAST, appended to the
    active segment; a failed group is cut back. A write may fail after any
    number of its bytes, and so may the cut, which poisons the writer; faults
    are arguments. A file is the bytes after its segment header. Rotation
    starts a segment at the end of the log, a sync moves the durable position
    to the end, and a sync marker is an empty group. Locks and the flusher
    are not modelled: a group holds the writer's lock from begin to finish. *)
From S2P Require Import Prelude Bytes Ids WalFrame WalReader.

Definition MAX_FRAMES_PER_SEGMENT_KEY : Z := 2 ^ 32.

Section writer.
Context `{WalEnv}.

(** What happens to one write of a frame: all of it is written, or [write_all]
    fails after [k] of its bytes, never after all of them. *)
Inductive write_io : Set := WriteOk | WriteFails (k : nat).

Inductive write_error : Set :=
  | RecordTooLarge
  | TooManyFrames
  | PositionOverflow
  | WriteFailed
  | GroupOver
  | RotationFailed
  | Poisoned.

(** The parts of [Wal] the writer keeps: the sealed segments, the active one,
    the end of the last complete group, the durable position, the frames of
    the active segment, and whether the writer is poisoned. *)
Record Wal : Type := mkWal {
  wal_db : Z;
  wal_segment_bytes : Z;
  wal_frame_target : Z;
  wal_frames_per_key : Z;
  wal_sealed : list ScanSegment;
  wal_active : ScanSegment;
  wal_end : Z;
  wal_synced : Z;
  wal_frames : Z;
  wal_poisoned : bool;
}.

Record GroupWriter : Type := mkWriter {
  gw_wal : Wal;
  gw_transaction : Z;
  gw_start : Z;
  gw_next : Z;
  gw_payload : list Z;
  gw_pending : nat;
  gw_frames_written : nat;
  gw_touched : bool;
  gw_failed : bool;
}.

Definition set_active (seg : ScanSegment) (w : Wal) : Wal :=
  mkWal (wal_db w) (wal_segment_bytes w) (wal_frame_target w) (wal_frames_per_key w) (wal_sealed w) seg
    (wal_end w) (wal_synced w) (wal_frames w) (wal_poisoned w).

Definition set_frames (n : Z) (w : Wal) : Wal :=
  mkWal (wal_db w) (wal_segment_bytes w) (wal_frame_target w) (wal_frames_per_key w) (wal_sealed w)
    (wal_active w) (wal_end w) (wal_synced w) n (wal_poisoned w).

Definition set_end (e : Z) (w : Wal) : Wal :=
  mkWal (wal_db w) (wal_segment_bytes w) (wal_frame_target w) (wal_frames_per_key w) (wal_sealed w)
    (wal_active w) e (wal_synced w) (wal_frames w) (wal_poisoned w).

Definition set_synced (e : Z) (w : Wal) : Wal :=
  mkWal (wal_db w) (wal_segment_bytes w) (wal_frame_target w) (wal_frames_per_key w) (wal_sealed w)
    (wal_active w) (wal_end w) (Z.max (wal_synced w) e) (wal_frames w) (wal_poisoned w).

Definition poison (w : Wal) : Wal :=
  mkWal (wal_db w) (wal_segment_bytes w) (wal_frame_target w) (wal_frames_per_key w) (wal_sealed w)
    (wal_active w) (wal_end w) (wal_synced w) (wal_frames w) true.

(** Appends [bytes] to the active segment. *)
Definition append_bytes (bytes : list Z) (w : Wal) : Wal :=
  let seg := wal_active w in
  set_active (mkSegment (first_lsn seg) (content seg ++ bytes) (seg_cipher seg)) w.

(** The length field of a payload. *)
Definition frame_length (length : Z) : result write_error Z :=
  if (length <=? u32_max) && (length <=? MAX_FRAME_PAYLOAD) then Ok length else Err RecordTooLarge.

(** The header and body of a frame. *)
Definition build_frame (w : Wal) (next transaction flags : Z) (nonce payload : list Z)
  : result write_error (FrameHeader * list Z) :=
  match seg_cipher (wal_active w) with
  | Some c =>
      length ← frame_length (Z.of_nat (length payload) + SEALED_OVERHEAD);
      let header := FrameHeader.new length next transaction flags in
      let sealed := encrypt c nonce (frame_aad (wal_db w) header) payload in
      Ok (FrameHeader.with_checksum sealed header, sealed)
  | None =>
      length ← frame_length (Z.of_nat (length payload));
      let header := FrameHeader.new length next transaction flags in
      Ok (FrameHeader.with_checksum payload header, payload)
  end.

Definition write_frame (flags : Z) (nonce : list Z) (io : write_io) (g : GroupWriter)
  : GroupWriter * option write_error :=
  let w := gw_wal g in
  if wal_poisoned w then (g, Some Poisoned) else
  if MAX_FRAMES_PER_SEGMENT_KEY <=? wal_frames w then (g, Some TooManyFrames) else
  let w := set_frames (wal_frames w + 1) w in
  let counted := mkWriter w (gw_transaction g) (gw_start g) (gw_next g) (gw_payload g) (gw_pending g)
                   (gw_frames_written g) (gw_touched g) (gw_failed g) in
  match build_frame w (gw_next g) (gw_transaction g) flags nonce (gw_payload g) with
  | Err e => (counted, Some e)
  | Ok (header, body) =>
      match checked_add64 (gw_next g) (FrameHeader.frame_bytes header) with
      | None => (counted, Some PositionOverflow)
      | Some next =>
          let frame := FrameHeader.encode header ++ body in
          match io with
          | WriteFails k =>
              (mkWriter (append_bytes (take (Nat.min k (length frame - 1)) frame) w) (gw_transaction g) (gw_start g) (gw_next g)
                 (gw_payload g) (gw_pending g) (gw_frames_written g) true (gw_failed g), Some WriteFailed)
          | WriteOk =>
              (mkWriter (append_bytes frame w) (gw_transaction g) (gw_start g) next [] 0
                 (S (gw_frames_written g)) true (gw_failed g), None)
          end
      end
  end.

(** What happens to a cut: the file is cut and its cursor moved, it is not
    cut, or it is cut and the cursor cannot be moved. *)
Inductive cut_io : Set := CutOk | CutFails | SeekFails.

(** The active segment cut back to the start of the group, and whether that
    succeeded. *)
Definition cut_back (io : cut_io) (g : GroupWriter) : GroupWriter * bool :=
  let w := gw_wal g in
  let seg := wal_active w in
  let seg := mkSegment (first_lsn seg) (take (Z.to_nat (gw_start g - first_lsn seg)) (content seg)) (seg_cipher seg) in
  match io with
  | CutOk => (mkWriter (set_active seg w) (gw_transaction g) (gw_start g) (gw_start g) (gw_payload g)
                (gw_pending g) (gw_frames_written g) false (gw_failed g), true)
  | CutFails => (g, false)
  | SeekFails => (mkWriter (set_active seg w) (gw_transaction g) (gw_start g) (gw_next g) (gw_payload g)
                    (gw_pending g) (gw_frames_written g) (gw_touched g) (gw_failed g), false)
  end.

(** A cut that fails poisons the writer. *)
Definition cut_or_poison (io : cut_io) (g : GroupWriter) : GroupWriter :=
  match cut_back io g with
  | (g, true) => g
  | (g, false) => mkWriter (poison (gw_wal g)) (gw_transaction g) (gw_start g) (gw_next g) (gw_payload g)
                    (gw_pending g) (gw_frames_written g) (gw_touched g) (gw_failed g)
  end.

Definition fail (io : cut_io) (g : GroupWriter) : GroupWriter :=
  let g := mkWriter (gw_wal g) (gw_transaction g) (gw_start g) (gw_next g) (gw_payload g) (gw_pending g)
             (gw_frames_written g) (gw_touched g) true in
  if gw_touched g then cut_or_poison io g else g.

(** [drop] of a group that was not finished. *)
Definition drop_group (io : cut_io) (g : GroupWriter) : GroupWriter :=
  if gw_touched g && negb (gw_failed g) then cut_or_poison io g else g.

(** The nonce, write and cut of one frame. *)
Record frame_io : Type := mkIo { io_nonce : list Z; io_write : write_io; io_cut : cut_io }.

Definition write_pending (flags : Z) (io : frame_io) (g : GroupWriter) : GroupWriter * option write_error :=
  let flags := if (gw_frames_written g =? 0)%nat then FrameFlags.with_ flags FrameFlags.FIRST else flags in
  match write_frame flags (io_nonce io) (io_write io) g with
  | (g, None) => (g, None)
  | (g, Some e) => (fail (io_cut io) g, Some e)
  end.

Definition push (record : list Z) (io : frame_io) (g : GroupWriter) : GroupWriter * option write_error :=
  if gw_failed g then (g, Some GroupOver) else
  if MAX_FRAME_RECORD_BYTES <? Z.of_nat (length record) then (fail (io_cut io) g, Some RecordTooLarge) else
  let '(g, e) :=
    if (0 <? gw_pending g)%nat &&
       (wal_frame_target (gw_wal g) <? Z.of_nat (length (gw_payload g) + length record))
    then write_pending FrameFlags.MIDDLE io g else (g, None) in
  match e with
  | Some e => (g, Some e)
  | None =>
      (mkWriter (gw_wal g) (gw_transaction g) (gw_start g) (gw_next g) (gw_payload g ++ record)
         (S (gw_pending g)) (gw_frames_written g) (gw_touched g) (gw_failed g), None)
  end.

(** Where a finished group sits. *)
Record GroupEnd : Type := mkGroupEnd { ge_start : Z; ge_end : Z }.

Definition write_last (io : frame_io) (g : GroupWriter) : GroupWriter * result write_error GroupEnd :=
  if gw_failed g then (g, Err GroupOver) else
  match write_pending FrameFlags.LAST io g with
  | (g, Some e) => (g, Err e)
  | (g, None) =>
      (mkWriter (set_end (gw_next g) (gw_wal g)) (gw_transaction g) (gw_start g) (gw_next g) (gw_payload g)
         (gw_pending g) (gw_frames_written g) false (gw_failed g),
       Ok (mkGroupEnd (gw_start g) (gw_next g)))
  end.

(** What happens to a rotation: the new segment has the cipher of its own
    salt, the active segment cannot be synced, or no segment is created. *)
Inductive rotate_io : Type := RotateOk (c : option WalCipher) | SyncFails | CreateFails.

(** [rotate_locked]: the active segment is sealed and synced and a new one
    starts at the end; one without frames is kept. *)
Definition rotate_locked (io : rotate_io) (w : Wal) : Wal * result write_error Z :=
  if wal_end w =? first_lsn (wal_active w) then (w, Ok (wal_end w)) else
  match io with
  | SyncFails => (poison w, Err RotationFailed)
  | CreateFails => (set_synced (wal_end w) w, Err RotationFailed)
  | RotateOk c =>
      let w := set_synced (wal_end w) w in
      (mkWal (wal_db w) (wal_segment_bytes w) (wal_frame_target w) (wal_frames_per_key w)
         (wal_sealed w ++ [wal_active w]) (mkSegment (wal_end w) [] c) (wal_end w) (wal_synced w) 0 (wal_poisoned w),
       Ok (wal_end w))
  end.

Definition group_writer (w : Wal) (transaction : Z) : GroupWriter :=
  mkWriter w transaction (wal_end w) (wal_end w) (to_le 8 (wal_synced w)) 0 0 false false.

Definition begin_group (rio : rotate_io) (transaction : Z) (w : Wal) : Wal * result write_error GroupWriter :=
  if wal_poisoned w then (w, Err Poisoned) else
  let used := wal_end w - first_lsn (wal_active w) in
  let full := (wal_segment_bytes w <=? SEGMENT_HEADER_BYTES + used) || (wal_frames_per_key w <=? wal_frames w) in
  let '(w, r) := if (0 <? used) && full then rotate_locked rio w else (w, Ok (wal_end w)) in
  match r with
  | Err e => (w, Err e)
  | Ok _ => (w, Ok (group_writer w transaction))
  end.

(** A group's records, pushed one by one with their frame writes, then the
    last frame; a failed push ends the group. *)
Fixpoint push_all (records : list (list Z * frame_io)) (g : GroupWriter) : GroupWriter * option write_error :=
  match records with
  | [] => (g, None)
  | (record, io) :: records =>
      match push record io g with
      | (g, Some e) => (g, Some e)
      | (g, None) => push_all records g
      end
  end.

(** A whole group, as a commit writes it. *)
Definition write_group (rio : rotate_io) (transaction : Z) (records : list (list Z * frame_io))
    (last_io : frame_io) (w : Wal) : Wal * result write_error GroupEnd :=
  match begin_group rio transaction w with
  | (w, Err e) => (w, Err e)
  | (_, Ok g) =>
      match push_all records g with
      | (g, Some e) => (gw_wal g, Err e)
      | (g, None) => let (g, r) := write_last last_io g in (gw_wal g, r)
      end
  end.

(** [write_marker_if_due]: an empty group at the end of the log whose prologue
    is the durable position. *)
Definition write_marker (io : frame_io) (w : Wal) : Wal :=
  if wal_poisoned w then w else gw_wal (write_last io (group_writer w TransactionId.SYSTEM)).1.

(** [sync]: every complete group is durable; a failure poisons the writer. *)
Definition sync (ok : bool) (w : Wal) : Wal :=
  if wal_poisoned w || (wal_end w <=? wal_synced w) then w
  else if ok then set_synced (wal_end w) w else poison w.

Definition rotate (rio : rotate_io) (w : Wal) : Wal := if wal_poisoned w then w else (rotate_locked rio w).1.

(** A group given up after its records were pushed. *)
Definition abandon_group (rio : rotate_io) (transaction : Z) (records : list (list Z * frame_io))
    (cut : cut_io) (w : Wal) : Wal :=
  match begin_group rio transaction w with
  | (w, Err e) => w
  | (_, Ok g) => gw_wal (drop_group cut (push_all records g).1)
  end.

Inductive wal_op : Type :=
  | WriteGroup (rio : rotate_io) (transaction : Z) (records : list (list Z * frame_io)) (last_io : frame_io)
  | AbandonGroup (rio : rotate_io) (transaction : Z) (records : list (list Z * frame_io)) (cut : cut_io)
  | WriteMarker (io : frame_io)
  | Sync (ok : bool)
  | Rotate (rio : rotate_io).

(** A group that was reported as written: its transaction, its records and
    where it sits. *)
Record written : Type := mkWritten { w_transaction : Z; w_records : list (list Z); w_end : GroupEnd }.

(** One operation on the log, and the group it reports as written. *)
Definition apply_op (w : Wal) (o : wal_op) : Wal * option written :=
  match o with
  | WriteGroup c t records last_io =>
      match write_group c t records last_io w with
      | (w, Ok e) => (w, Some (mkWritten t records.*1 e))
      | (w, Err _) => (w, None)
      end
  | AbandonGroup c t records cut => (abandon_group c t records cut w, None)
  | WriteMarker io => (write_marker io w, None)
  | Sync ok => (sync ok w, None)
  | Rotate rio => (rotate rio w, None)
  end.

Fixpoint run (ops : list wal_op) (w : Wal) : Wal * list written :=
  match ops with
  | [] => (w, [])
  | o :: ops =>
      let (w, g) := apply_op w o in
      let (w, gs) := run ops w in
      (w, option_list g ++ gs)
  end.

(** A new log at [start]. *)
Definition new_wal (db segment_bytes frame_target frames_per_key start : Z) (c : option WalCipher) : Wal :=
  mkWal db segment_bytes (Z.min frame_target MAX_FRAME_RECORD_BYTES) (Z.max 1 frames_per_key) []
    (mkSegment start [] c) start start 0 false.

(** The segments as a scan finds them. *)
Definition listing (w : Wal) : list ScanSegment := wal_sealed w ++ [wal_active w].

End writer.
