(* ===== verification/WalLog.v ===== *)
(** * A log of whole groups with a torn end

    What a scan makes of segments that hold whole groups up to some position
    and at most part of one more group behind it: it returns the groups that
    are not sync markers, in order, and stops at that position. The writer's
    logs have this shape after every operation and after every crash, which
    WalProps.v shows. *)
From S2P Require Import Prelude Bytes WalFrame WalReader WalScanFacts.
#[local] Arguments to_le : simpl never.
#[local] Arguments from_le : simpl never.

Section log.
Context `{WalEnv}.

Record lgroup : Type := mkLgroup {
  l_transaction : Z;
  l_start : Z;
  l_end : Z;
  l_synced : Z;
  l_frames : list (FrameHeader * list Z);
}.

Record lgroup_at (db : Z) (seg : ScanSegment) (g : lgroup) : Prop := {
  lg_chain : frames_at db seg (l_start g) (l_frames g) (l_end g);
  lg_flags : group_flags (l_frames g);
  lg_transaction : Forall (λ f, transaction_id f.1 = l_transaction g) (l_frames g);
  lg_prologue : ∃ h payload fs, l_frames g = (h, payload) :: fs ∧ prologue payload = Some (l_synced g);
  lg_synced : l_synced g ≤ l_start g;
}.

Inductive groups_at (db : Z) (seg : ScanSegment) : Z → list lgroup → Z → Prop :=
  | groups_nil p : groups_at db seg p [] p
  | groups_cons g gs q :
      lgroup_at db seg g → groups_at db seg (l_end g) gs q → groups_at db seg (l_start g) (g :: gs) q.

(** No whole frame is at [r], for want of bytes. *)
Definition read_ends (db : Z) (seg : ScanSegment) (r : Z) : Prop :=
  read_frame_from (bytes_from seg r) r (seg_cipher seg) db = FrEnd ∨
  read_frame_from (bytes_from seg r) r (seg_cipher seg) db = FrBad PartialHeader ∨
  read_frame_from (bytes_from seg r) r (seg_cipher seg) db = FrBad PayloadPastEnd.

(** Part of a group: its frames up to a place where the bytes end. *)
Definition torn_at (db : Z) (seg : ScanSegment) (q : Z) : Prop :=
  ∃ fs r tx, frames_at db seg q fs r ∧
    (∀ i h payload, fs !! i = Some (h, payload) →
       FrameFlags.is_first (flags h) = (i =? 0)%nat ∧ FrameFlags.is_last (flags h) = false) ∧
    Forall (λ f, transaction_id f.1 = tx) fs ∧
    (∀ h payload fs', fs = (h, payload) :: fs' → ∃ synced, prologue payload = Some synced ∧ synced ≤ q) ∧
    read_ends db seg r.

Definition marker (g : lgroup) : bool :=
  match l_frames g with [(_, payload)] => (length payload =? FRAME_PROLOGUE_BYTES)%nat | _ => false end.

(** A group of a scan is the group of the log. *)
Record matches (db : Z) (g : GroupFrames) (l : lgroup) : Prop := {
  m_transaction : group_transaction g = l_transaction l;
  m_start : group_start g = l_start l;
  m_end : group_end g = l_end l;
  m_payloads : payloads db g = Ok (skip_prologue (l_frames l).*2);
  m_count : frame_count g = length (l_frames l);
}.

(** The log from a position on: whole groups to the end of each segment but
    the last, then to [q] and a torn end. *)
Inductive log_at (db : Z) : list ScanSegment → Z → list lgroup → Z → Prop :=
  | log_last seg p gs q :
      groups_at db seg p gs q → torn_at db seg q → log_at db [seg] p gs q
  | log_next seg segs p gs gs' q :
      groups_at db seg p gs (end_lsn seg) → segs ≠ [] → log_at db segs (end_lsn seg) gs' q →
      log_at db (seg :: segs) p (gs ++ gs') q.

(** ** Reading a group of the log *)

Lemma frames_at_inj db seg p fs q fs' :
  Forall is_byte (content seg) → frames_at db seg p fs q → frames_at db seg p fs' q → fs = fs'.
Proof.
  intros Hb Hfs. revert fs'. induction Hfs as [p|p h payload fs q [Hr Hp] Hfs IH]; intros fs' Hfs'.
  - inversion Hfs' as [|? h payload fs'' ? Hf Hrest]; [done|]. subst.
    pose proof (frame_at_ok _ _ _ _ _ Hb Hf). apply frames_at_le in Hrest; [lia|done].
  - inversion Hfs' as [|? h' payload' fs'' ? Hf Hrest]; subst.
    + pose proof (frame_at_ok _ _ _ _ _ Hb (conj Hr Hp)). apply frames_at_le in Hfs; [lia|done].
    + destruct Hf as [Hr' _]. rewrite Hr in Hr'. injection Hr' as <- <-. f_equal. by apply IH.
Qed.

Lemma read_frames_chain fuel seg first last_h start synced count kept s fs q :
  Forall is_byte (content seg) → first_lsn seg ≤ position s → (length (bytes_from seg (position s)) < fuel)%nat →
  frames_at (database_id s) seg (position s) fs q →
  FrameFlags.is_last (flags last_h) = (length fs =? 0)%nat →
  (∀ i h payload, fs !! i = Some (h, payload) →
     FrameFlags.is_first (flags h) = false ∧ FrameFlags.is_last (flags h) = (S i =? length fs)%nat) →
  Forall (λ f, transaction_id f.1 = transaction_id first) fs →
  ∃ g, read_frames fuel seg first last_h start synced count kept s = Some (set_position q s, Ok (Some g)).
Proof.
  intros Hb. revert last_h count kept s fuel. induction fs as [|[h payload] fs IH];
    intros last_h count kept s fuel Hpos Hfuel Hfs Hl Hfl Htx.
  - inversion Hfs; subst. destruct fuel; [lia|]. cbn [read_frames]. rewrite Hl. cbn. eexists. by destruct s.
  - inversion Hfs as [|? ? ? ? ? [Hr Hp] Hrest]; subst. destruct fuel as [|fuel]; [lia|]. cbn [read_frames].
    rewrite Hl. cbn [length Nat.eqb]. unfold read_frame. rewrite Hr.
    destruct (Hfl O h payload eq_refl) as [Hf0 Hl0]. rewrite Hf0.
    apply Forall_cons in Htx as [Htx0 Htx]. cbn [fst] in Htx0. rewrite Htx0, Z.eqb_refl. cbn [negb].
    unfold advance, checked_add64. rewrite (proj2 (Z.leb_le _ _)) by done. cbn [ok_or].
    pose proof (frame_at_shorter _ _ _ _ _ Hb Hpos (conj Hr Hp)) as Hsh.
    pose proof (frame_at_ok _ _ _ _ _ Hb (conj Hr Hp)) as Hok.
    destruct (IH h (S count) (keep (group_buffer_bytes s) kept payload)
      (set_position (position s + FrameHeader.frame_bytes h) s) fuel) as [g Hg]; cbn [position set_position]; try done.
    + lia.
    + lia.
    + rewrite Hl0. by destruct fs.
    + intros i h' payload' Hi. exact (Hfl (S i) h' payload' Hi).
    + exists g. exact Hg.
Qed.

Lemma read_group_chain s seg g :
  Forall is_byte (content seg) → first_lsn seg ≤ position s → position s = l_start g →
  lgroup_at (database_id s) seg g →
  ∃ h payload g',
    read_frame s seg = FrFrame h payload ∧ FrameFlags.is_first (flags h) = true ∧
    read_group seg h payload s = Some (set_position (l_end g) s, Ok (Some g')) ∧
    matches (database_id s) g' g ∧
    FrameFlags.is_last (flags h) && (length payload =? FRAME_PROLOGUE_BYTES)%nat = marker g.
Proof.
  intros Hb Hpos Hst [Hc Hfl Htx (h & payload & fs & Heq & Hpro) Hsy]. rewrite Heq in Hc, Hfl, Htx.
  inversion Hc as [|? ? ? ? ? [Hr Hp] Hrest]; subst. rewrite <- Hst in *.
  destruct (Hfl O h payload eq_refl) as [Hf0 Hl0].
  apply Forall_cons in Htx as [Htx0 Htx]. cbn [fst] in Htx0.
  assert (∃ g', read_group seg h payload s = Some (set_position (l_end g) s, Ok (Some g'))) as [g' Hg'].
  { unfold read_group. rewrite Hpro. replace (position s <? l_synced g) with false by (symmetry; apply Z.ltb_ge; lia).
    unfold advance, checked_add64. rewrite (proj2 (Z.leb_le _ _)) by done. cbn [ok_or].
    pose proof (frame_at_shorter _ _ _ _ _ Hb Hpos (conj Hr Hp)) as Hsh.
    pose proof (frame_at_ok _ _ _ _ _ Hb (conj Hr Hp)) as Hok.
    destruct (read_frames_chain (S (length (content seg))) seg h h (position s) (l_synced g) 1
      (keep (group_buffer_bytes s) (Some ([], 0)) payload)
      (set_position (position s + FrameHeader.frame_bytes h) s) fs (l_end g)) as [g' Hg'];
      cbn [position set_position]; try done.
    - lia.
    - rewrite bytes_from_length. lia.
    - rewrite Hl0. by destruct fs.
    - intros i h' payload' Hi. destruct (Hfl (S i) h' payload' Hi) as [-> ->]. done.
    - eapply Forall_impl; [exact Htx|]. cbn. congruence.
    - exists g'. exact Hg'. }
  exists h, payload, g'. split; [done|]. split; [done|]. split; [done|].
  destruct (read_group_spec seg h payload s Hb Hpos Hr Hf0) as (r & Hr' & Hspec). rewrite Hg' in Hr'.
  injection Hr' as <-. cbn in Hspec. destruct Hspec as ((fs' & Hw & Hhead) & Hgs & _ & Hge).
  assert (group_end g' = l_end g) as Hend by (apply (f_equal position) in Hge; cbn in Hge; done).
  pose proof (wg_chain _ _ _ _ Hw) as Hc'. rewrite Hgs, Hend in Hc'.
  pose proof (frames_at_inj _ _ _ _ _ _ Hb Hc' Hc) as ->.
  split; [split|].
  - pose proof (wg_transaction _ _ _ _ Hw) as Ht. apply Forall_cons in Ht as [Ht _]. cbn in Ht. congruence.
  - congruence.
  - done.
  - rewrite (wg_payloads _ _ _ _ Hw), Heq. done.
  - rewrite (wg_count _ _ _ _ Hw), Heq. done.
  - unfold marker. rewrite Heq, Hl0. destruct fs; [done|]. done.
Qed.

(** ** Stopping at a torn end *)

(** Bytes behind [q] that look like a frame written after a sync past a
    place where the payload of a frame breaks off. *)
Definition lookalike (db : Z) (seg : ScanSegment) (q : Z) : Prop :=
  ∃ bad, q ≤ bad ∧ read_frame_from (bytes_from seg bad) bad (seg_cipher seg) db = FrBad PayloadPastEnd ∧
    later_synced_group db seg bad ≠ Ok None.

(** What a scan of the last segment makes of the bytes behind [q]: the log
    ends there cleanly or torn, unless a lookalike decides. *)
Definition torn_end (db : Z) (seg : ScanSegment) (q : Z) (r : group_result) : Prop :=
  match r with
  | (s', Ok None) =>
      ∃ e, ending s' = Some e ∧ ending_lsn e = q ∧
        ((ending_tail e = None ∧ q = end_lsn seg) ∨
         (q < end_lsn seg ∧
          ∃ why, ending_tail e = Some (mkTail Torn (Some (first_lsn seg)) (offset_of seg q) q why [])) ∨
         lookalike db seg q)
  | (_, Ok (Some _)) => False
  | (_, Err _) => lookalike db seg q
  end.

Lemma later_synced_short db seg bad :
  (length (bytes_from seg (bad + 1)) < FRAME_HEADER_BYTES)%nat → later_synced_group db seg bad = Ok None.
Proof. intros Hl. unfold later_synced_group. cbn [later_synced]. by rewrite (proj2 (Nat.ltb_lt _ _)). Qed.

Lemma read_ends_later db seg q bad :
  first_lsn seg ≤ bad → q ≤ bad → read_ends db seg bad → later_synced_group db seg bad ≠ Ok None → lookalike db seg q.
Proof.
  intros Hf Hle Hr Hne. assert ((length (bytes_from seg bad) < FRAME_HEADER_BYTES)%nat → lookalike db seg q) as Hshort.
  { intros Hl. destruct Hne. apply later_synced_short. rewrite bytes_from_length in *. lia. }
  destruct Hr as [Hr|[Hr|Hr]].
  - apply Hshort. apply read_frame_End in Hr. rewrite Hr. by apply Nat.ltb_lt.
  - apply Hshort. revert Hr. unfold read_frame_from. destruct (length _ =? 0)%nat; [done|].
    destruct (length (bytes_from seg bad) <? _)%nat eqn:El; [intros _; by apply Nat.ltb_lt|]. repeat case_match; done.
  - by exists bad.
Qed.

Lemma bad_frame_torn s seg q bad why :
  segment_at s = Some seg → S (index s) = length (segments s) → beyond_gap s = None →
  first_lsn seg ≤ bad → q ≤ bad → q < end_lsn seg → read_ends (database_id s) seg bad →
  torn_end (database_id s) seg q (bad_frame seg q bad why s).
Proof.
  intros Hseg Hlast Hgap Hf Hle Hend Hr. unfold bad_frame. rewrite Hlast, Nat.eqb_refl, Hgap, bool_decide_true by done. cbn [andb negb].
  pose proof (read_ends_later _ _ _ _ Hf Hle Hr) as Hlook.
  destruct (later_synced_group (database_id s) seg bad) as [[[later synced]|]|e]; cbn [torn_end].
  - unfold damage. destruct (negb (salvage s)); cbn [torn_end].
    + by apply Hlook.
    + eexists. split; [done|]. split; [done|]. right. right. by apply Hlook.
  - eexists. split; [done|]. split; [done|]. right. left. split; [done|]. by eexists.
  - by apply Hlook.
Qed.

Lemma read_frames_torn fuel seg first last_h start synced count kept s fs r :
  Forall is_byte (content seg) → segment_at s = Some seg → S (index s) = length (segments s) → beyond_gap s = None →
  first_lsn seg ≤ position s → start ≤ position s → start < end_lsn seg → (length (bytes_from seg (position s)) < fuel)%nat →
  frames_at (database_id s) seg (position s) fs r →
  FrameFlags.is_last (flags last_h) = false →
  (∀ i h payload, fs !! i = Some (h, payload) →
     FrameFlags.is_first (flags h) = false ∧ FrameFlags.is_last (flags h) = false) →
  Forall (λ f, transaction_id f.1 = transaction_id first) fs →
  read_ends (database_id s) seg r →
  ∃ res, read_frames fuel seg first last_h start synced count kept s = Some res ∧
         torn_end (database_id s) seg start res.
Proof.
  intros Hb. revert last_h count kept s fuel. induction fs as [|[h payload] fs IH];
    intros last_h count kept s fuel Hseg Hlast Hgap Hpos Hst Hse Hfuel Hfs Hl Hfl Htx Hend; (destruct fuel as [|fuel]; [lia|]);
    cbn [read_frames]; rewrite Hl.
  - inversion Hfs; subst. unfold read_frame.
    pose proof Hend as [Hd|[Hd|Hd]]; rewrite Hd; eexists; (split; [done|]); by apply bad_frame_torn.
  - inversion Hfs as [|? ? ? ? ? [Hr Hp] Hrest]; subst. unfold read_frame. rewrite Hr.
    destruct (Hfl O h payload eq_refl) as [Hf0 Hl0]. rewrite Hf0.
    apply Forall_cons in Htx as [Htx0 Htx]. cbn [fst] in Htx0. rewrite Htx0, Z.eqb_refl. cbn [negb].
    unfold advance, checked_add64. rewrite (proj2 (Z.leb_le _ _)) by done. cbn [ok_or].
    pose proof (frame_at_shorter _ _ _ _ _ Hb Hpos (conj Hr Hp)) as Hsh.
    pose proof (frame_at_ok _ _ _ _ _ Hb (conj Hr Hp)) as Hok.
    destruct (IH h (S count) (keep (group_buffer_bytes s) kept payload)
      (set_position (position s + FrameHeader.frame_bytes h) s) fuel) as (res & Hres & Htorn);
      cbn [position set_position database_id index segments beyond_gap]; try done; try lia.
    + intros i h' payload' Hi. exact (Hfl (S i) h' payload' Hi).
    + exists res. by split.
Qed.

(** ** Scanning the log *)

Definition shown (gs : list lgroup) : list lgroup := filter (λ g, marker g = false) gs.

(** A scan that stands at a position of the log: what is left is [gs], up to
    [q], where the last segment has a torn end. *)
Record scan_at (s : WalScan) (seg : ScanSegment) (gs : list lgroup) (q : Z) : Prop := {
  sa_ok : scan_ok s;
  sa_running : ending s = None;
  sa_gap : beyond_gap s = None;
  sa_log : log_at (database_id s) (drop (index s) (segments s)) (position s) gs q;
  sa_last : last (segments s) = Some seg;
}.

Lemma log_at_segment db segs p gs q :
  log_at db segs p gs q → ∃ seg segs', segs = seg :: segs' ∧
    match gs with
    | [] => (segs' = [] ∧ p = q ∧ torn_at db seg q) ∨ (segs' ≠ [] ∧ p = end_lsn seg ∧ log_at db segs' p [] q)
    | g :: gs => (lgroup_at db seg g ∧ p = l_start g ∧ log_at db segs (l_end g) gs q)
                 ∨ (segs' ≠ [] ∧ p = end_lsn seg ∧ log_at db segs' p (g :: gs) q)
    end.
Proof.
  destruct 1 as [seg p gs q Hg Ht|seg segs p gs gs' q Hg Hne Hl].
  - exists seg, []. split; [done|]. inversion Hg; subst; [by left|]. left. split_and!; [done..|]. by constructor.
  - exists seg, segs. split; [done|]. inversion Hg as [|g gs0 ? Hg1 Hg2]; subst; cbn [app].
    + destruct gs' as [|g gs']; by right.
    + left. split_and!; [done..|]. by constructor.
Qed.

Lemma scan_at_segment s seg gs q sg segs' :
  scan_at s seg gs q → drop (index s) (segments s) = sg :: segs' →
  segment_at s = Some sg ∧ drop (S (index s)) (segments s) = segs' ∧
  (segs' = [] → sg = seg ∧ S (index s) = length (segments s)).
Proof.
  intros Hs Hd. assert (segment_at s = Some sg) as Hsg.
  { unfold segment_at. rewrite <- (Nat.add_0_r (index s)), <- lookup_drop, Hd. done. }
  pose proof (segment_at_drop _ _ Hsg) as Hd'. rewrite Hd in Hd'. injection Hd' as Hd'. split_and!; [done|done|].
  intros ->. pose proof (lookup_lt_Some _ _ _ Hsg) as Hlt.
  assert (S (index s) = length (segments s)) as Hlen.
  { apply (f_equal length) in Hd'. rewrite length_drop in Hd'. cbn in Hd'. lia. }
  split; [|done]. pose proof (sa_last _ _ _ _ Hs) as Hl. rewrite last_lookup, <- Hlen in Hl. cbn in Hl.
  unfold segment_at in Hsg. congruence.
Qed.

Lemma left_next_segment s seg :
  segment_at s = Some seg → (left_to_scan (next_segment s) < left_to_scan s)%nat.
Proof.
  intros Hseg. unfold left_to_scan. cbn [index segments position next_segment]. rewrite (segment_at_drop _ _ Hseg).
  destruct (drop (S (index s)) (segments s)) as [|seg' segs]; [lia|]. rewrite !bytes_from_length.
  cbn [sum_list_with]. lia.
Qed.

(** At the end of the log's groups the scan ends there. *)
Lemma next_group_torn fuel s seg :
  scan_at s seg [] (position s) → segment_at s = Some seg → S (index s) = length (segments s) →
  torn_at (database_id s) seg (position s) → (1 < fuel)%nat →
  ∃ r, next_group fuel s = Some r ∧ torn_end (database_id s) seg (position s) r.
Proof.
  intros [Hok He Hgap _ _] Hseg Hlast (fs & r & tx & Hfs & Hfl & Htx & Hpro & Hend) Hfuel.
  destruct fuel as [|[|fuel]]; [lia|lia|]. pose proof (so_position _ Hok seg Hseg) as Hpos.
  assert (Forall is_byte (content seg)) as Hb by (apply (Forall_lookup_1 _ _ _ _ (so_bytes _ Hok) Hseg)).
  cbn [next_group]. rewrite He, Hseg. inversion Hfs as [|? h payload fs' ? [Hr Hp] Hrest]; subst.
  - assert (read_frame_from (bytes_from seg (position s)) (position s) (seg_cipher seg) (database_id s) ≠ FrEnd →
      position s < end_lsn seg) as Hmore.
    { intros Hne. destruct (decide (position s = end_lsn seg)) as [Heq|]; [|lia]. destruct Hne.
      replace (bytes_from seg (position s)) with (@nil Z); [done|]. symmetry. apply nil_length_inv.
      rewrite bytes_from_length. unfold end_lsn in Heq. lia. }
    unfold read_frame. pose proof Hend as [Hd|[Hd|Hd]]; rewrite Hd;
      [|by (eexists; split; [done|]; apply bad_frame_torn; try done; try lia; apply Hmore; rewrite Hd)..].
    change (ending (next_segment s)) with (ending s). rewrite He.
    assert (segment_at (next_segment s) = None) as ->.
    { unfold segment_at. cbn [index segments next_segment]. apply lookup_ge_None_2. lia. }
    eexists. split; [done|]. cbn. rewrite Hgap. cbn. eexists. split; [done|]. split; [done|]. left. split; [done|].
    apply read_frame_End in Hd. assert (length (bytes_from seg (position s)) = O) as Hz by by rewrite Hd.
    rewrite bytes_from_length in Hz. unfold end_lsn in *. lia.
  - unfold read_frame. rewrite Hr. destruct (Hfl O h payload eq_refl) as [Hf0 Hl0]. rewrite Hf0.
    cbn [Nat.eqb]. destruct (Hpro h payload fs' eq_refl) as (synced & Hsy & Hle).
    apply Forall_cons in Htx as [Htx0 Htx]. cbn [fst] in Htx0. subst tx.
    assert (∃ res, read_group seg h payload s = Some res ∧ torn_end (database_id s) seg (position s) res) as (res & -> & Ht).
    { unfold read_group. rewrite Hsy. replace (position s <? synced) with false by (symmetry; apply Z.ltb_ge; lia).
      unfold advance, checked_add64. rewrite (proj2 (Z.leb_le _ _)) by done. cbn [ok_or].
      pose proof (frame_at_ok _ _ _ _ _ Hb (conj Hr Hp)) as Hfok.
      set (s1 := set_position (position s + FrameHeader.frame_bytes h) s).
      change (database_id s) with (database_id s1).
      apply (read_frames_torn _ _ _ _ _ _ _ _ s1 fs' r); cbn [s1 position set_position database_id]; try done; try lia.
      - rewrite bytes_from_length in Hfok. unfold end_lsn. lia.
      - rewrite bytes_from_length. lia.
      - intros i h' payload' Hi. exact (Hfl (S i) h' payload' Hi). }
    exists res. split; [|done]. destruct res as [s' [[g|]|e]]; done.
Qed.

Lemma next_group_log fuel s seg gs q :
  scan_at s seg gs q → (left_to_scan s < fuel)%nat →
  match shown gs with
  | [] => ∃ r, next_group fuel s = Some r ∧ torn_end (database_id s) seg q r
  | g :: rest =>
      ∃ s' g' gs', next_group fuel s = Some (s', Ok (Some g')) ∧ matches (database_id s) g' g ∧
        database_id s' = database_id s ∧ scan_at s' seg gs' q ∧ shown gs' = rest ∧
        (left_to_scan s' < left_to_scan s)%nat
  end.
Proof.
  revert s gs. induction fuel as [|fuel IH]; intros s gs Hs Hfuel; [lia|].
  destruct (log_at_segment _ _ _ _ _ (sa_log _ _ _ _ Hs)) as (sg & segs' & Hd & Hcases).
  destruct (scan_at_segment _ _ _ _ _ _ Hs Hd) as (Hsg & Hd' & Hlast).
  pose proof Hs as [Hok He Hgap Hlog Hl]. pose proof (so_position _ Hok sg Hsg) as Hpos.
  assert (Forall is_byte (content sg)) as Hb by (apply (Forall_lookup_1 _ _ _ _ (so_bytes _ Hok) Hsg)).
  pose proof (left_next_segment _ _ Hsg) as Hlt.
  assert (segs' ≠ [] → position s = end_lsn sg → log_at (database_id s) segs' (position s) gs q →
    match shown gs with
    | [] => ∃ r, next_group (S fuel) s = Some r ∧ torn_end (database_id s) seg q r
    | g :: rest =>
        ∃ s' g' gs', next_group (S fuel) s = Some (s', Ok (Some g')) ∧ matches (database_id s) g' g ∧
          database_id s' = database_id s ∧ scan_at s' seg gs' q ∧ shown gs' = rest ∧
          (left_to_scan s' < left_to_scan s)%nat
    end) as Hskip.
  { intros Hne Hp Hrest. assert (bytes_from sg (position s) = []) as Hempty.
    { apply nil_length_inv. rewrite bytes_from_length. unfold end_lsn in Hp. lia. }
    assert (scan_at (next_segment s) seg gs q) as Hs'.
    { split; [by eapply scan_ok_next|done|done| |done]. cbn [database_id index segments position next_segment].
      by rewrite Hd'. }
    specialize (IH (next_segment s) gs Hs' ltac:(lia)). cbn [next_group]. rewrite He, Hsg. unfold read_frame.
    rewrite Hempty. cbn [read_frame_from length Nat.eqb]. cbn [database_id next_segment] in IH.
    destruct (shown gs); [done|]. destruct IH as (s' & g' & gs' & ? & ? & ? & ? & ? & ?).
    exists s', g', gs'. split_and!; try done. lia. }
  destruct gs as [|g gs].
  - destruct Hcases as [(-> & Hp & Ht)|(Hne & Hp & Hrest)]; [|by apply Hskip]. subst q.
    destruct (Hlast eq_refl) as [-> Hlen]. apply (next_group_torn (S fuel)); try done.
    unfold left_to_scan in Hfuel. rewrite Hd in Hfuel. lia.
  - destruct Hcases as [(Hg & Hp & Hrest)|(Hne & Hp & Hrest)]; [|by apply Hskip].
    destruct (read_group_chain s sg g Hb (proj1 Hpos) Hp Hg) as (h & payload & g' & Hr & Hf & Hrg & Hm & Hmk).
    pose proof (lg_chain _ _ _ Hg) as Hc.
    assert (position s + 25 ≤ l_end g ≤ end_lsn sg) as Hle.
    { rewrite Hp in *. split; [|by eapply frames_at_end].
      destruct (lg_prologue _ _ _ Hg) as (h0 & p0 & fs0 & Heq & _). rewrite Heq in Hc.
      inversion Hc as [|? ? ? ? ? Hf0 Hrest0]; subst. apply frame_at_ok in Hf0; [|done].
      apply frames_at_le in Hrest0; [lia|done]. }
    destruct (read_group_left sg s (l_end g) Hsg Hok Hle) as [Hok' Hlt'].
    assert (scan_at (set_position (l_end g) s) seg gs q) as Hs'.
    { split; [done|done|done| |done]. cbn [database_id index segments position set_position]. done. }
    cbn [next_group]. rewrite He, Hsg, Hr, Hf, Hrg, Hmk. unfold shown. rewrite filter_cons.
    destruct (marker g) eqn:Em.
    + rewrite decide_False by done. specialize (IH _ _ Hs' ltac:(lia)). cbn [database_id set_position] in IH.
      fold (shown gs). destruct (shown gs); [done|]. destruct IH as (s' & g'' & gs' & ? & ? & ? & ? & ? & ?).
      exists s', g'', gs'. split_and!; try done. lia.
    + rewrite decide_True by done. by exists (set_position (l_end g) s), g', gs.
Qed.

Lemma scan_groups_log fuel s seg gs q :
  scan_at s seg gs q → ¬ lookalike (database_id s) seg q → (left_to_scan s < fuel)%nat →
  ∃ groups e, scan_groups fuel s = Some (Ok (groups, e)) ∧
    Forall2 (matches (database_id s)) groups (shown gs) ∧ ending_lsn e = q ∧
    ((ending_tail e = None ∧ q = end_lsn seg) ∨
     q < end_lsn seg ∧ ∃ why, ending_tail e = Some (mkTail Torn (Some (first_lsn seg)) (offset_of seg q) q why [])).
Proof.
  intros Hs Hq. remember (database_id s) as db eqn:Hdb. revert s gs Hs Hdb.
  induction fuel as [|fuel IH]; intros s gs Hs -> Hfuel; [lia|]. cbn [scan_groups].
  pose proof (next_group_log (S (scan_fuel s)) s seg gs q Hs ltac:(pose proof (left_le_fuel s); lia)) as Hn.
  destruct (shown gs) as [|g rest].
  - destruct Hn as ([s' [[g|]|e]] & -> & Ht); [done| |by destruct (Hq Ht)].
    cbn [mbind option_bind]. destruct Ht as (e & -> & Hend & Hcase). exists [], e. split_and!; [done|constructor|done|].
    destruct Hcase as [?|[?|Hl]]; [by left|by right|by destruct (Hq Hl)].
  - destruct Hn as (s' & g' & gs' & -> & Hm & Hdb & Hs' & <- & Hlt). cbn [mbind option_bind].
    destruct (IH s' gs' Hs' (eq_sym Hdb) ltac:(lia)) as (groups & e & -> & Hg & He & Htail).
    exists (g' :: groups), e. split_and!; [done|by constructor|done|done].
Qed.
End log.

(** ** Segments with bytes appended or cut off

    Frames and groups of a segment stay what they are when bytes are appended
    behind them, and when the segment is cut off behind them; a cut through a
    group leaves a torn end at the group's start. *)
#[local] Arguments to_le : simpl never.
#[local] Arguments from_le : simpl never.

Section cut.
Context `{WalEnv}.

(** ** Bytes behind a frame *)

Lemma read_frame_app rest x p c db h payload :
  Forall is_byte rest → read_frame_from rest p c db = FrFrame h payload →
  read_frame_from (rest ++ x) p c db = FrFrame h payload.
Proof.
  intros Hb Hread. pose proof (read_frame_in _ _ _ _ _ _ Hb Hread) as [_ Hok _ _ Hroom _].
  pose proof (frame_bytes_pos h Hok) as Hpos. unfold FrameHeader.frame_bytes in *.
  revert Hread. unfold read_frame_from. rewrite length_app.
  destruct (length rest =? 0)%nat eqn:E0; [done|]. apply Nat.eqb_neq in E0.
  replace (length rest + length x =? 0)%nat with false by (symmetry; apply Nat.eqb_neq; lia).
  destruct (length rest <? FRAME_HEADER_BYTES)%nat eqn:El; [done|]. apply Nat.ltb_ge in El.
  replace (length rest + length x <? FRAME_HEADER_BYTES)%nat with false by (symmetry; apply Nat.ltb_ge; lia).
  rewrite (take_app_le rest x FRAME_HEADER_BYTES El), (drop_app_le rest x FRAME_HEADER_BYTES El).
  set (d := from_le (take 4 (take FRAME_HEADER_BYTES rest))).
  destruct (MAX_FRAME_PAYLOAD <? d); [done|]. destruct (negb (_ =? p)); [done|].
  rewrite length_app. destruct (Z.of_nat (length (drop FRAME_HEADER_BYTES rest)) <? d) eqn:Er; [done|]. bool_to_prop.
  replace (Z.of_nat (length (drop FRAME_HEADER_BYTES rest) + length x) <? d) with false by (symmetry; apply Z.ltb_ge; lia).
  rewrite take_app_le by lia. done.
Qed.

(** [seg'] is [seg] with bytes appended. *)
Record extends (seg seg' : ScanSegment) : Prop := {
  ex_first : first_lsn seg' = first_lsn seg;
  ex_cipher : seg_cipher seg' = seg_cipher seg;
  ex_content : content seg `prefix_of` content seg';
}.

Lemma frame_at_extend db seg seg' p h payload :
  extends seg seg' → Forall is_byte (content seg) → frame_at db seg p h payload → frame_at db seg' p h payload.
Proof.
  intros [Hf Hc [x Hx]] Hb Hat. pose proof (frame_at_ok _ _ _ _ _ Hb Hat) as Hok. destruct Hat as [Hr Hp].
  split; [|done]. rewrite bytes_from_length in Hok. unfold bytes_from in *. rewrite Hf, Hc, Hx, drop_app_le by lia.
  apply read_frame_app; [by apply Forall_drop|done].
Qed.

Lemma frames_at_extend db seg seg' p fs q :
  extends seg seg' → Forall is_byte (content seg) → frames_at db seg p fs q → frames_at db seg' p fs q.
Proof. intros He Hb. induction 1; econstructor; [|done]. by eapply frame_at_extend. Qed.

Lemma groups_at_extend db seg seg' p gs q :
  extends seg seg' → Forall is_byte (content seg) → groups_at db seg p gs q → groups_at db seg' p gs q.
Proof.
  intros He Hb. induction 1 as [|g gs q [Hc ?] _ IH]; constructor; [|done].
  split; try done. by eapply frames_at_extend.
Qed.

(** ** A cut *)

Definition cut (n : nat) (seg : ScanSegment) : ScanSegment :=
  mkSegment (first_lsn seg) (take n (content seg)) (seg_cipher seg).

Lemma bytes_from_cut n seg p :
  bytes_from (cut n seg) p = take (n - Z.to_nat (p - first_lsn seg)) (bytes_from seg p).
Proof. unfold bytes_from. cbn [content first_lsn cut]. apply skipn_firstn_comm. Qed.

Lemma read_frame_cut n db seg p h payload :
  Forall is_byte (content seg) → first_lsn seg ≤ p → frame_at db seg p h payload →
  if p + FrameHeader.frame_bytes h <=? first_lsn seg + Z.of_nat n
  then frame_at db (cut n seg) p h payload else read_ends db (cut n seg) p.
Proof.
  intros Hb Hp Hat. pose proof (frame_at_ok _ _ _ _ _ Hb Hat) as Hok. destruct Hat as [Hr Hmax].
  pose proof (read_frame_take _ _ _ _ _ _ (n - Z.to_nat (p - first_lsn seg)) (bytes_from_byte _ _ Hb) Hr) as Ht.
  unfold frame_at, read_ends. rewrite bytes_from_cut. cbn [seg_cipher cut]. rewrite Ht.
  destruct (_ <=? _) eqn:E; bool_to_prop.
  - replace (n - Z.to_nat (p - first_lsn seg) =? 0)%nat with false by (symmetry; apply Nat.eqb_neq; lia).
    replace (n - Z.to_nat (p - first_lsn seg) <? FRAME_HEADER_BYTES)%nat with false
      by (symmetry; apply Nat.ltb_ge; unfold FRAME_HEADER_BYTES; lia).
    replace (n - Z.to_nat (p - first_lsn seg) <? Z.to_nat (FrameHeader.frame_bytes h))%nat with false
      by (symmetry; apply Nat.ltb_ge; lia). done.
  - destruct (_ =? 0)%nat eqn:E0; [by left|]. apply Nat.eqb_neq in E0.
    destruct (_ <? FRAME_HEADER_BYTES)%nat; [by right; left|].
    replace (n - Z.to_nat (p - first_lsn seg) <? Z.to_nat (FrameHeader.frame_bytes h))%nat with true
      by (symmetry; apply Nat.ltb_lt; lia). by right; right.
Qed.

Lemma read_ends_cut n db seg r : read_ends db seg r → read_ends db (cut n seg) r.
Proof.
  unfold read_ends. rewrite bytes_from_cut. cbn [seg_cipher cut]. set (m := (n - _)%nat). set (rest := bytes_from seg r).
  unfold read_frame_from. rewrite length_take.
  destruct (m `min` length rest =? 0)%nat eqn:E0; [by left|]. apply Nat.eqb_neq in E0.
  replace (length rest =? 0)%nat with false by (symmetry; apply Nat.eqb_neq; lia).
  destruct (m `min` length rest <? FRAME_HEADER_BYTES)%nat eqn:E1; [by right; left|]. apply Nat.ltb_ge in E1.
  replace (length rest <? FRAME_HEADER_BYTES)%nat with false by (symmetry; apply Nat.ltb_ge; lia).
  assert (take FRAME_HEADER_BYTES (take m rest) = take FRAME_HEADER_BYTES rest) as ->
    by (rewrite take_take; f_equal; lia).
  set (d := from_le (take 4 (take FRAME_HEADER_BYTES rest))).
  destruct (MAX_FRAME_PAYLOAD <? d); [naive_solver|]. destruct (negb (_ =? r)); [naive_solver|].
  rewrite !length_drop, length_take.
  destruct (Z.of_nat (m `min` length rest - FRAME_HEADER_BYTES) <? d) eqn:E2; [by right; right|]. bool_to_prop.
  replace (Z.of_nat (length rest - FRAME_HEADER_BYTES) <? d) with false by (symmetry; apply Z.ltb_ge; lia).
  intros Hx. exfalso. revert Hx. destruct (negb _); [naive_solver|]. destruct (FrameHeader.decode _); [|naive_solver].
  destruct (seg_cipher seg); [destruct (open_payload _ _ _)|]; naive_solver.
Qed.

Lemma frames_cut n db seg p fs q :
  Forall is_byte (content seg) → first_lsn seg ≤ p → frames_at db seg p fs q →
  if q <=? first_lsn seg + Z.of_nat n then frames_at db (cut n seg) p fs q
  else p ≤ first_lsn seg + Z.of_nat n →
    ∃ fs1 fs2 r, fs = fs1 ++ fs2 ∧ fs2 ≠ [] ∧ frames_at db (cut n seg) p fs1 r ∧ read_ends db (cut n seg) r.
Proof.
  intros Hb Hp Hfs. induction Hfs as [p|p h payload fs q Hf Hfs IH].
  { destruct (p <=? _) eqn:E; [constructor|]. bool_to_prop. lia. }
  pose proof (frame_at_ok _ _ _ _ _ Hb Hf) as Hok. specialize (IH ltac:(lia)).
  pose proof (read_frame_cut n _ _ _ _ _ Hb Hp Hf) as Hc.
  pose proof (frames_at_le _ _ _ _ _ Hb Hfs) as Hle.
  destruct (p + FrameHeader.frame_bytes h <=? first_lsn seg + Z.of_nat n) eqn:E; bool_to_prop.
  - destruct (q <=? _) eqn:Eq; [by econstructor|]. intros _. destruct (IH ltac:(lia)) as (fs1 & fs2 & r & -> & Hne & H1 & H2).
    exists ((h, payload) :: fs1), fs2, r. split_and!; [done|done| |done]. by econstructor.
  - destruct (q <=? _) eqn:Eq; bool_to_prop; [lia|]. intros _. exists [], ((h, payload) :: fs), p.
    split_and!; [done|done|constructor|done].
Qed.

Lemma group_cut n db seg g :
  Forall is_byte (content seg) → first_lsn seg ≤ l_start g → lgroup_at db seg g →
  if l_end g <=? first_lsn seg + Z.of_nat n then lgroup_at db (cut n seg) g
  else l_start g ≤ first_lsn seg + Z.of_nat n → torn_at db (cut n seg) (l_start g).
Proof.
  intros Hb Hst [Hc Hfl Htx Hpro Hsy]. pose proof (frames_cut n _ _ _ _ _ Hb Hst Hc) as Hcut.
  destruct (l_end g <=? _) eqn:E; [by split|]. intros Hp. destruct (Hcut Hp) as (fs1 & fs2 & r & Heq & Hne & H1 & H2).
  exists fs1, r, (l_transaction g). rewrite Heq in *. split_and!; [done| | | |done].
  - intros i h payload Hi. pose proof (lookup_lt_Some _ _ _ Hi) as Hlt.
    destruct (Hfl i h payload) as [Hf Hl]; [by apply lookup_app_l_Some|]. split; [done|]. rewrite Hl.
    apply Nat.eqb_neq. rewrite length_app. destruct fs2; [done|]. cbn. lia.
  - by apply Forall_app in Htx as [? _].
  - intros h payload fs' ->. destruct Hpro as (h0 & p0 & fs0 & [= <- <- _] & Hp0). by exists (l_synced g).
Qed.

Lemma torn_cut n db seg q :
  Forall is_byte (content seg) → first_lsn seg ≤ q ≤ first_lsn seg + Z.of_nat n → torn_at db seg q →
  torn_at db (cut n seg) q.
Proof.
  intros Hb Hq (fs & r & tx & Hfs & Hfl & Htx & Hpro & Hend).
  pose proof (frames_cut n _ _ _ _ _ Hb (proj1 Hq) Hfs) as Hcut. destruct (r <=? _) eqn:E.
  { exists fs, r, tx. split_and!; [done..|]. by apply read_ends_cut. }
  destruct (Hcut (proj2 Hq)) as (fs1 & fs2 & r' & -> & _ & H1 & H2). exists fs1, r', tx. split_and!; [done| | | |done].
  - intros i h payload Hi. apply (Hfl i h payload). by apply lookup_app_l_Some.
  - by apply Forall_app in Htx as [? _].
  - intros h payload fs' ->. by eapply Hpro.
Qed.

Lemma groups_start_le db seg p gs q :
  Forall is_byte (content seg) → groups_at db seg p gs q → p ≤ q ∧ Forall (λ g, p ≤ l_start g ∧ l_start g ≤ l_end g ∧ l_end g ≤ q) gs.
Proof.
  intros Hb. induction 1 as [|g gs q [Hc ?] _ [IH1 IH2]]; [done|]. apply frames_at_le in Hc; [|done]. split; [lia|].
  constructor; [lia|]. eapply Forall_impl; [exact IH2|]. cbn. lia.
Qed.

(** A cut leaves the groups in front of it and a torn end. *)
Lemma groups_cut n db seg p gs q :
  Forall is_byte (content seg) → first_lsn seg ≤ p ≤ first_lsn seg + Z.of_nat n →
  groups_at db seg p gs q → torn_at db seg q →
  ∃ gs1 gs2 r, gs = gs1 ++ gs2 ∧ groups_at db (cut n seg) p gs1 r ∧ torn_at db (cut n seg) r ∧
    p ≤ r ≤ first_lsn seg + Z.of_nat n ∧
    Forall (λ g, l_end g ≤ first_lsn seg + Z.of_nat n) gs1 ∧ Forall (λ g, first_lsn seg + Z.of_nat n < l_end g) gs2.
Proof.
  intros Hb Hp Hgs Ht. induction Hgs as [p|g gs q Hg Hgs IH].
  { exists [], [], p. split_and!; try lia; try done; [apply groups_nil|by apply torn_cut]. }
  pose proof (group_cut n _ _ _ Hb (proj1 Hp) Hg) as Hc. destruct (l_end g <=? _) eqn:E; bool_to_prop.
  - pose proof (frames_at_le _ _ _ _ _ Hb (lg_chain _ _ _ Hg)) as Hle.
    destruct IH as (gs1 & gs2 & r & -> & H1 & H2 & H3 & H4 & H5); [lia|done|].
    exists (g :: gs1), gs2, r. split_and!; try done; try lia; by constructor.
  - exists [], (g :: gs), (l_start g). split_and!; try lia; try done; [apply groups_nil|by apply Hc, Hp|].
    constructor; [done|]. pose proof (groups_start_le _ _ _ _ _ Hb Hgs) as [_ Hl].
    eapply Forall_impl; [exact Hl|]. cbn. lia.
Qed.

End cut.
