(* ===== verification/WalWriterFacts.v ===== *)
(** * What the group writer leaves in the active segment

    Proofs about [WalWriter.v]: while records are pushed the segment holds
    whole frames behind the last group; a finished group is a group of the
    log with the records' bytes as its payloads; a group that failed or was
    dropped leaves the segment as it was, or a torn end and a poisoned
    writer. *)
From S2P Require Import Prelude Bytes Ids WalFrame WalReader WalScanFacts WalWriter WalLog.

#[local] Arguments to_le : simpl never.
#[local] Arguments from_le : simpl never.

Section writer.
Context `{WalEnv}.

(** ** One frame *)

Lemma encode_bytes h : FrameFlags.ok (flags h) → Forall is_byte (FrameHeader.encode h).
Proof.
  intros Hf. unfold FrameHeader.encode. repeat (apply Forall_app; split); try apply to_le_bytes.
  constructor; [|constructor]. unfold FrameFlags.ok, is_byte in *. lia.
Qed.

(** A frame as it is written, and what it reads as. *)
Record built (db : Z) (c : option WalCipher) (next tx fl : Z) (payload : list Z) (h : FrameHeader) (body : list Z) : Prop := {
  bu_flags : flags h = fl;
  bu_transaction : transaction_id h = tx;
  bu_bytes : Forall is_byte (FrameHeader.encode h ++ body);
  bu_length : Z.of_nat (length (FrameHeader.encode h ++ body)) = FrameHeader.frame_bytes h;
  bu_reads : read_frame_from (FrameHeader.encode h ++ body) next c db = FrFrame h payload;
}.

Lemma read_built db c h body payload :
  FrameHeader.ok h → length_ h = Z.of_nat (length body) → length_ h ≤ MAX_FRAME_PAYLOAD →
  FrameHeader.stored_checksum_matches (FrameHeader.encode h) body = true →
  match c with None => payload = body | Some c => decrypt c (frame_aad db h) body = Some payload end →
  read_frame_from (FrameHeader.encode h ++ body) (lsn h) c db = FrFrame h payload.
Proof.
  intros Hok Hlen Hmax Hck Hopen. unfold read_frame_from. rewrite length_app, encode_length.
  replace (FRAME_HEADER_BYTES + length body =? 0)%nat with false by done.
  replace (FRAME_HEADER_BYTES + length body <? FRAME_HEADER_BYTES)%nat with false by (symmetry; apply Nat.ltb_ge; lia).
  assert (take FRAME_HEADER_BYTES (FrameHeader.encode h ++ body) = FrameHeader.encode h) as ->
    by (rewrite <- (encode_length h); apply take_app_length).
  assert (drop FRAME_HEADER_BYTES (FrameHeader.encode h ++ body) = body) as ->
    by (rewrite <- (encode_length h); apply drop_app_length).
  pose proof (decode_encode h Hok Hmax) as Hd. destruct (encode_parts h) as (-> & _ & -> & _).
  destruct Hok as (Hl & _ & Hlsn & _). rewrite from_to_le64 by done. rewrite from_to_le by (unfold u32_max in *; lia).
  rewrite (proj2 (Z.ltb_ge _ _)) by done. rewrite Z.eqb_refl. cbn [negb].
  rewrite (proj2 (Z.ltb_ge _ _)) by lia. rewrite Hlen, Nat2Z.id, take_ge, Hck, Hd by done. cbn [negb].
  unfold open_payload. destruct c as [c|]; [by rewrite Hopen|by rewrite Hopen].
Qed.

Lemma build_frame_built w next tx fl nonce payload h body :
  is_u64 next → is_u64 tx → FrameFlags.ok fl → Forall is_byte payload →
  build_frame w next tx fl nonce payload = Ok (h, body) →
  built (wal_db w) (seg_cipher (wal_active w)) next tx fl payload h body.
Proof.
  intros Hn Ht Hf Hb. unfold build_frame.
  assert (∀ body, Z.of_nat (length body) ≤ u32_max → Z.of_nat (length body) ≤ MAX_FRAME_PAYLOAD → Forall is_byte body →
    let h0 := FrameHeader.new (Z.of_nat (length body)) next tx fl in
    let h := FrameHeader.with_checksum body h0 in
    match seg_cipher (wal_active w) with
    | None => payload = body
    | Some c => decrypt c (frame_aad (wal_db w) h0) body = Some payload
    end → built (wal_db w) (seg_cipher (wal_active w)) next tx fl payload h body) as Hbuilt.
  { intros bd Hu Hm Hbb h0 h1 Hopen. split; try done.
    - apply Forall_app. split; [by apply encode_bytes|done].
    - rewrite length_app, encode_length, Nat2Z.inj_add. done.
    - change next with (lsn h1). apply read_built; try done.
      + split_and!; cbn [h1 h0 FrameHeader.with_checksum FrameHeader.new length_ crc lsn transaction_id flags]; try done; try lia; apply crc32_range.
      + apply encode_checksum. }
  assert (∀ n m, frame_length n = Ok m → n ≤ u32_max ∧ n ≤ MAX_FRAME_PAYLOAD ∧ m = n) as Hfl.
  { intros n m. unfold frame_length. destruct (_ && _) eqn:E; [|done]. bool_to_prop. intros [= <-]. lia. }
  destruct (seg_cipher (wal_active w)) as [c|].
  - destruct (frame_length _) as [m|] eqn:El; [|done]. cbn [mbind result_bind]. intros [= <- <-].
    apply Hfl in El as (Hu & Hm & ->). set (h0 := FrameHeader.new _ _ _ _).
    set (sealed := encrypt _ _ _ _).
    assert (Z.of_nat (length payload) + SEALED_OVERHEAD = Z.of_nat (length sealed)) as Heq
      by (unfold sealed; rewrite encrypt_length; unfold SEALED_OVERHEAD; lia).
    pose proof (Hbuilt sealed) as HB. rewrite <- Heq in HB.
    apply HB; [done|done|by apply encrypt_bytes|]. apply decrypt_encrypt.
  - destruct (frame_length _) as [m|] eqn:El; [|done]. cbn [mbind result_bind]. intros [= <- <-].
    apply Hfl in El as (Hu & Hm & ->). by apply Hbuilt.
Qed.

(** ** The log a group is written to *)

(** A writer that may begin a group. *)
Record wal_ready (w : Wal) : Prop := {
  wr_bytes : Forall is_byte (content (wal_active w));
  wr_end : end_lsn (wal_active w) = wal_end w;
  wr_first : 0 ≤ first_lsn (wal_active w);
  wr_synced : 0 ≤ wal_synced w ≤ wal_end w;
  wr_max : wal_end w ≤ u64_max;
  wr_poisoned : wal_poisoned w = false;
}.

(** What no frame of a group changes. *)
Record same_log (w0 w : Wal) : Prop := {
  sl_db : wal_db w = wal_db w0;
  sl_sealed : wal_sealed w = wal_sealed w0;
  sl_end : wal_end w = wal_end w0;
  sl_synced : wal_synced w = wal_synced w0;
  sl_active : extends (wal_active w0) (wal_active w);
  sl_bytes : Forall is_byte (content (wal_active w));
}.

(** A group that left nothing, or a torn end and a poisoned writer. *)
Record settled (w0 w : Wal) : Prop := {
  se_same : same_log w0 w;
  se_torn : torn_at (wal_db w0) (wal_active w) (wal_end w0);
  se_clean : wal_poisoned w = false → content (wal_active w) = content (wal_active w0);
}.

(** A group given up in this state settles. *)
Record dirty (w0 : Wal) (g : GroupWriter) : Prop := {
  di_same : same_log w0 (gw_wal g);
  di_torn : torn_at (wal_db w0) (wal_active (gw_wal g)) (wal_end w0);
  di_start : gw_start g = wal_end w0;
  di_poisoned : wal_poisoned (gw_wal g) = false;
  di_touched : gw_touched g = false → content (wal_active (gw_wal g)) = content (wal_active w0);
}.

(** The payloads of a group's frames: each holds whole records, behind the
    prologue in the first. *)
Definition add_prologue (prologue : list Z) (ps : list (list Z)) : list (list Z) :=
  match ps with [] => [] | x :: ps => (prologue ++ x) :: ps end.

Definition framed (prologue : list Z) (recs payloads : list (list Z)) : Prop :=
  ∃ ps : list (list (list Z)), concat ps = recs ∧ payloads = add_prologue prologue (map (concat (A:=Z)) ps).

Lemma add_prologue_app p l k : l ≠ [] → add_prologue p (l ++ k) = add_prologue p l ++ k.
Proof. by destruct l. Qed.

Lemma framed_push p recs xs x r : framed p recs (xs ++ [x]) → framed p (recs ++ [r]) (xs ++ [x ++ r]).
Proof.
  intros (ps & <- & Heq). destruct ps as [|l ps _] using rev_ind; [by destruct xs|]. exists (ps ++ [l ++ [r]]). split.
  { rewrite !concat_app. cbn [concat]. by rewrite !app_nil_r, app_assoc. }
  rewrite map_app in Heq |- *. cbn [map] in *. rewrite concat_app. cbn [concat]. rewrite app_nil_r.
  destruct (decide (ps = [])) as [->|Hne].
  - cbn [map app add_prologue] in *. apply (app_inj_tail xs [] x) in Heq as [-> ->]. by rewrite app_assoc.
  - rewrite add_prologue_app in Heq |- * by (by destruct ps). apply app_inj_tail in Heq as [-> ->]. done.
Qed.

Lemma framed_next p recs xs : xs ≠ [] → framed p recs xs → framed p recs (xs ++ [[]]).
Proof.
  intros Hne (ps & <- & ->). exists (ps ++ [[]]). rewrite concat_app, map_app, add_prologue_app by (by destruct ps). cbn. by rewrite app_nil_r.
Qed.

Lemma app_not_nil_r {A} (l : list A) x : l ++ [x] ≠ [].
Proof. by destruct l. Qed.

Lemma concat_maps (ps : list (list (list Z))) : concat (map (concat (A:=Z)) ps) = concat (concat ps).
Proof. induction ps as [|l ps IH]; [done|]. cbn [map concat]. by rewrite IH, concat_app. Qed.

Lemma framed_concat p recs xs : xs ≠ [] → framed p recs xs → concat xs = p ++ concat recs.
Proof.
  intros Hne (ps & <- & ->). rewrite <- concat_maps. destruct ps as [|l ps]; [done|]. cbn. by rewrite app_assoc.
Qed.

(** A group being written: its frames so far, and its records. *)
Record open_group (w0 : Wal) (g : GroupWriter) (fs : list (FrameHeader * list Z)) (recs : list (list Z)) : Prop := {
  og_same : same_log w0 (gw_wal g);
  og_chain : frames_at (wal_db w0) (wal_active (gw_wal g)) (wal_end w0) fs (gw_next g);
  og_end : end_lsn (wal_active (gw_wal g)) = gw_next g;
  og_max : gw_next g ≤ u64_max;
  og_flags : ∀ i h payload, fs !! i = Some (h, payload) →
    FrameFlags.is_first (flags h) = (i =? 0)%nat ∧ FrameFlags.is_last (flags h) = false;
  og_transaction : Forall (λ f, transaction_id f.1 = gw_transaction g) fs;
  og_count : gw_frames_written g = length fs;
  og_start : gw_start g = wal_end w0;
  og_touched : gw_touched g = negb (length fs =? 0)%nat;
  og_failed : gw_failed g = false;
  og_poisoned : wal_poisoned (gw_wal g) = false;
  og_framed : framed (to_le 8 (wal_synced w0)) recs (fs.*2 ++ [gw_payload g]);
  og_payload_bytes : Forall is_byte (gw_payload g);
  og_first : ∀ h payload fs', fs = (h, payload) :: fs' → prologue payload = Some (wal_synced w0);
}.

Lemma og_payload w0 g fs recs : open_group w0 g fs recs → concat fs.*2 ++ gw_payload g = to_le 8 (wal_synced w0) ++ concat recs.
Proof.
  intros Ho. rewrite <- (framed_concat _ _ _ (app_not_nil_r _ _) (og_framed _ _ _ _ Ho)), concat_app. cbn [concat]. by rewrite app_nil_r.
Qed.

Lemma extends_refl seg : extends seg seg.
Proof. by split. Qed.

Lemma read_ends_nil db seg r : first_lsn seg ≤ r → end_lsn seg ≤ r → read_ends db seg r.
Proof.
  intros Hf He. left. assert (bytes_from seg r = []) as ->; [|done].
  apply nil_length_inv. rewrite bytes_from_length. unfold end_lsn in He. lia.
Qed.

Lemma torn_at_end db seg q : first_lsn seg ≤ q → end_lsn seg ≤ q → torn_at db seg q.
Proof.
  intros Hf He. exists [], q, 0. split_and!; [constructor|done|constructor|done|by apply read_ends_nil].
Qed.

Lemma open_dirty w0 g fs recs : wal_ready w0 → open_group w0 g fs recs → dirty w0 g.
Proof.
  intros Hw [Hs Hc He Hm Hf Ht Hn Hst Hto Hfa Hpo Hp Hpb Hfi]. split; [done| |done|done|].
  - exists fs, (gw_next g), (gw_transaction g). split_and!; try done.
    + intros h payload fs' Heq. exists (wal_synced w0). split; [by eapply Hfi|apply Hw].
    + apply read_ends_nil; [|lia]. unfold end_lsn in He. lia.
  - rewrite Hto. intros Hz. destruct fs; [|done]. inversion Hc; subst. destruct (sl_active _ _ Hs) as [Hfst _ [x Hx]].
    rewrite Hx. assert (length x = O) as Hlx.
    { pose proof (wr_end _ Hw) as He0. unfold end_lsn in He, He0. rewrite Hx, length_app, Hfst in He. lia. }
    apply nil_length_inv in Hlx. subst x. by rewrite app_nil_r.
Qed.

(** ** Giving up *)

Lemma cut_content w0 g :
  wal_ready w0 → dirty w0 g →
  take (Z.to_nat (gw_start g - first_lsn (wal_active (gw_wal g)))) (content (wal_active (gw_wal g))) = content (wal_active w0).
Proof.
  intros Hw Hd. destruct (sl_active _ _ (di_same _ _ Hd)) as [Hf _ [x Hx]]. rewrite Hx, Hf, (di_start _ _ Hd).
  pose proof (wr_end _ Hw) as He. unfold end_lsn in He.
  replace (Z.to_nat (wal_end w0 - first_lsn (wal_active w0))) with (length (content (wal_active w0))) by lia.
  apply take_app_length.
Qed.

Lemma cut_or_poison_settled io w0 g : wal_ready w0 → dirty w0 g → settled w0 (gw_wal (cut_or_poison io g)).
Proof.
  intros Hw Hd. pose proof (cut_content w0 g Hw Hd) as Hcut. pose proof Hd as [[Hdb Hs He Hsy [Hf Hc Hx] Hb] Ht _ _ _].
  assert (∀ w, wal_db w = wal_db w0 → wal_sealed w = wal_sealed w0 → wal_end w = wal_end w0 → wal_synced w = wal_synced w0 →
    wal_active w = mkSegment (first_lsn (wal_active (gw_wal g))) (content (wal_active w0)) (seg_cipher (wal_active (gw_wal g))) →
    settled w0 w) as Hback.
  { intros w H1 H2 H3 H4 H5. split; [split; try done; rewrite H5|rewrite H5|by rewrite H5].
    - by split.
    - apply Hw.
    - apply torn_at_end; unfold end_lsn; cbn; rewrite Hf; pose proof (wr_end _ Hw) as He0; unfold end_lsn in He0; lia. }
  unfold cut_or_poison, cut_back. rewrite Hcut. destruct io; cbn [gw_wal].
  - by apply Hback.
  - by split; [split| |].
  - by apply Hback.
Qed.

Lemma fail_settled io w0 g : wal_ready w0 → dirty w0 g →
  settled w0 (gw_wal (fail io g)) ∧ gw_failed (fail io g) = true.
Proof.
  intros Hw Hd. unfold fail. cbn [gw_touched]. destruct (gw_touched g) eqn:Et.
  - split; [|by destruct io]. apply cut_or_poison_settled; [done|]. by destruct Hd; split.
  - split; [|done]. cbn [gw_wal]. destruct Hd as [? ? ? ? Hto]. split; [done|done|]. intros _. by apply Hto.
Qed.

Lemma drop_settled io w0 g fs recs : wal_ready w0 → open_group w0 g fs recs → settled w0 (gw_wal (drop_group io g)).
Proof.
  intros Hw Ho. pose proof (open_dirty _ _ _ _ Hw Ho) as Hd. unfold drop_group. rewrite (og_failed _ _ _ _ Ho), andb_true_r.
  destruct (gw_touched g) eqn:Et; [by apply cut_or_poison_settled|]. destruct Hd as [? ? ? ? Hto].
  split; [done|done|]. intros _. by apply Hto.
Qed.

(** ** Writing a frame *)

Lemma frame_at_appended db seg next h body payload :
  first_lsn seg ≤ next → end_lsn seg = next → next + FrameHeader.frame_bytes h ≤ u64_max →
  read_frame_from (FrameHeader.encode h ++ body) next (seg_cipher seg) db = FrFrame h payload →
  frame_at db (mkSegment (first_lsn seg) (content seg ++ FrameHeader.encode h ++ body) (seg_cipher seg)) next h payload.
Proof.
  intros Hf He Hm Hr. split; [|done]. unfold bytes_from. cbn [first_lsn content seg_cipher].
  unfold end_lsn in He. replace (Z.to_nat (next - first_lsn seg)) with (length (content seg)) by lia.
  by rewrite drop_app_length.
Qed.

Lemma read_ends_appended db seg next h body payload k :
  first_lsn seg ≤ next → end_lsn seg = next → Forall is_byte (FrameHeader.encode h ++ body) →
  Z.of_nat (length (FrameHeader.encode h ++ body)) = FrameHeader.frame_bytes h →
  read_frame_from (FrameHeader.encode h ++ body) next (seg_cipher seg) db = FrFrame h payload →
  (k < length (FrameHeader.encode h ++ body))%nat →
  read_ends db (mkSegment (first_lsn seg) (content seg ++ take k (FrameHeader.encode h ++ body)) (seg_cipher seg)) next.
Proof.
  intros Hf He Hb Hl Hr Hk. unfold read_ends, bytes_from. cbn [first_lsn content seg_cipher].
  unfold end_lsn in He. replace (Z.to_nat (next - first_lsn seg)) with (length (content seg)) by lia.
  rewrite drop_app_length, (read_frame_take _ _ _ _ _ _ k Hb Hr).
  destruct (k =? 0)%nat; [by left|]. destruct (k <? FRAME_HEADER_BYTES)%nat; [by right; left|].
  rewrite (proj2 (Nat.ltb_lt _ _)) by lia. by right; right.
Qed.

Lemma extends_append seg bytes : extends seg (mkSegment (first_lsn seg) (content seg ++ bytes) (seg_cipher seg)).
Proof. split; [done|done|]. by eexists. Qed.

Lemma extends_trans s1 s2 s3 : extends s1 s2 → extends s2 s3 → extends s1 s3.
Proof. intros [? ? ?] [? ? ?]. split; [congruence|congruence|]. by etrans. Qed.

(** Outcomes of one frame write in an open group. *)
Definition frame_written (w0 : Wal) (fs : list (FrameHeader * list Z)) (g : GroupWriter) (fl : Z)
    (r : GroupWriter * option write_error) : Prop :=
  match r with
  | (g', Some _) => dirty w0 g'
  | (g', None) =>
      ∃ h, flags h = fl ∧ transaction_id h = gw_transaction g ∧
        same_log w0 (gw_wal g') ∧
        frames_at (wal_db w0) (wal_active (gw_wal g')) (wal_end w0) (fs ++ [(h, gw_payload g)]) (gw_next g') ∧
        end_lsn (wal_active (gw_wal g')) = gw_next g' ∧ gw_next g' ≤ u64_max ∧
        gw_transaction g' = gw_transaction g ∧ gw_start g' = gw_start g ∧ gw_payload g' = [] ∧
        gw_frames_written g' = S (gw_frames_written g) ∧ gw_touched g' = true ∧ gw_failed g' = false ∧
        wal_poisoned (gw_wal g') = false
  end.

Lemma write_frame_outcome w0 g fs recs fl nonce io :
  wal_ready w0 → open_group w0 g fs recs → is_u64 (gw_transaction g) → FrameFlags.ok fl →
  frame_written w0 fs g fl (write_frame fl nonce io g).
Proof.
  intros Hw Ho Htx Hfl. pose proof (open_dirty _ _ _ _ Hw Ho) as Hd.
  destruct Ho as [Hs Hc He Hm Hf Ht Hn Hst Hto Hfa Hpo Hp Hpb Hfi].
  unfold write_frame. rewrite Hpo. destruct (MAX_FRAMES_PER_SEGMENT_KEY <=? _); [done|].
  set (w := set_frames _ _). set (counted := mkWriter w _ _ _ _ _ _ _ _).
  assert (dirty w0 counted) as Hd' by (destruct Hd as [[] ? ? ? ?]; split; [by split|done..]).
  assert (same_log w0 w) as Hs' by (destruct Hs; by split).
  destruct (build_frame _ _ _ _ _ _) as [[h body]|e] eqn:Eb; [|done].
  unfold checked_add64. destruct (_ <=? u64_max) eqn:Eo; [|done]. bool_to_prop.
  assert (wal_end w0 ≤ gw_next g) as Hle by (eapply frames_at_le; [apply Hs|done]).
  pose proof (sl_active _ _ Hs') as [Hfst Hci _].
  assert (first_lsn (wal_active w0) ≤ wal_end w0) as Hfe by (pose proof (wr_end _ Hw) as Hx; unfold end_lsn in Hx; lia).
  assert (is_u64 (gw_next g)) as Hnu by (pose proof (wr_first _ Hw); unfold is_u64, u64_max in *; lia).
  pose proof (build_frame_built w _ _ _ _ _ _ _ Hnu Htx Hfl Hpb Eb) as [Bf Bt Bb Bl Br].
  rewrite (sl_db _ _ Hs') in Br. change (wal_active (gw_wal g)) with (wal_active w) in *.
  assert (∀ bytes, Forall is_byte bytes → same_log w0 (append_bytes bytes w)) as Happ.
  { intros bytes Hbb. destruct Hs' as [? ? ? ? Hx Hbx]. split; try done.
    - by eapply extends_trans, extends_append.
    - apply Forall_app. by split. }
  destruct io as [|k].
  - cbn [frame_written]. exists h. cbn [gw_wal gw_next gw_transaction gw_start gw_payload gw_frames_written gw_touched gw_failed].
    split_and!; try done.
    + by apply Happ.
    + eapply frames_at_app.
      * eapply frames_at_extend; [apply extends_append|apply Hs'|done].
      * econstructor; [|constructor]. apply frame_at_appended; [lia|done|done|done].
    + unfold end_lsn. cbn [wal_active append_bytes set_active first_lsn content].
      rewrite length_app, Nat2Z.inj_add, Bl, <- He. unfold end_lsn. lia.
  - cbn [frame_written]. set (n := Nat.min k _).
    assert (n < length (FrameHeader.encode h ++ body))%nat as Hlt.
    { unfold n. rewrite length_app, encode_length. unfold FRAME_HEADER_BYTES. lia. }
    split; cbn [gw_wal gw_start gw_touched]; try done.
    + apply Happ. by apply Forall_take.
    + exists fs, (gw_next g), (gw_transaction g). split_and!; try done.
      * eapply frames_at_extend; [apply extends_append|apply Hs'|done].
      * intros h' payload' fs' Heq. exists (wal_synced w0). split; [by eapply Hfi|apply Hw].
      * apply (read_ends_appended _ _ _ h body (gw_payload g)); [lia|done|done|done|done|done].
Qed.

(** The flags a pending frame gets. *)
Definition pending_flags (fl : Z) (fs : list (FrameHeader * list Z)) : Z :=
  if (length fs =? 0)%nat then FrameFlags.with_ fl FrameFlags.FIRST else fl.

Lemma pending_flags_ok fl fs :
  fl = FrameFlags.MIDDLE ∨ fl = FrameFlags.LAST →
  FrameFlags.ok (pending_flags fl fs) ∧
  FrameFlags.is_first (pending_flags fl fs) = (length fs =? 0)%nat ∧
  FrameFlags.is_last (pending_flags fl fs) = FrameFlags.is_last fl.
Proof. unfold pending_flags. intros [-> | ->]; destruct (length fs =? 0)%nat; done. Qed.

Lemma write_pending_outcome w0 g fs recs fl io :
  wal_ready w0 → open_group w0 g fs recs → is_u64 (gw_transaction g) → fl = FrameFlags.MIDDLE ∨ fl = FrameFlags.LAST →
  match write_pending fl io g with
  | (g', Some _) => settled w0 (gw_wal g') ∧ gw_failed g' = true
  | r => frame_written w0 fs g (pending_flags fl fs) r
  end.
Proof.
  intros Hw Ho Htx Hfl. unfold write_pending. rewrite (og_count _ _ _ _ Ho). fold (pending_flags fl fs).
  pose proof (write_frame_outcome w0 g fs recs (pending_flags fl fs) (io_nonce io) (io_write io) Hw Ho Htx
    (proj1 (pending_flags_ok fl fs Hfl))) as Hr.
  destruct (write_frame _ _ _ g) as [g' [e|]]; [|done]. by apply fail_settled.
Qed.

(** The first frame begins with the prologue. *)
Lemma first_prologue w0 g fs recs h h' payload fs' :
  wal_ready w0 → open_group w0 g fs recs → fs ++ [(h, gw_payload g)] = (h', payload) :: fs' →
  prologue payload = Some (wal_synced w0).
Proof.
  intros Hw Ho Heq. destruct fs as [|[h0 p0] fs]; [|injection Heq as -> -> _; by eapply (og_first _ _ _ _ Ho)].
  injection Heq as <- <- _. pose proof (og_payload _ _ _ _ Ho) as Hp. cbn in Hp. rewrite Hp.
  unfold prologue, slice. rewrite length_app, to_le_length. rewrite (proj2 (Nat.leb_le _ _)) by (unfold FRAME_PROLOGUE_BYTES; lia).
  cbn [mbind option_bind]. rewrite drop_0. change FRAME_PROLOGUE_BYTES with 8%nat.
  assert (take 8 (to_le 8 (wal_synced w0) ++ concat recs) = to_le 8 (wal_synced w0)) as ->
    by (rewrite <- (to_le_length 8 (wal_synced w0)) at 1; apply take_app_length).
  rewrite from_to_le64; [done|]. pose proof (wr_synced _ Hw). pose proof (wr_max _ Hw). unfold is_u64, u64_max in *. lia.
Qed.

Lemma snoc_flags fs h payload last_ :
  (∀ i h payload, fs !! i = Some (h, payload) → FrameFlags.is_first (flags h) = (i =? 0)%nat ∧ FrameFlags.is_last (flags h) = false) →
  FrameFlags.is_first (flags h) = (length fs =? 0)%nat → FrameFlags.is_last (flags h) = last_ →
  ∀ i h' payload', (fs ++ [(h, payload)]) !! i = Some (h', payload') →
    FrameFlags.is_first (flags h') = (i =? 0)%nat ∧
    FrameFlags.is_last (flags h') = last_ && (S i =? length (fs ++ [(h, payload)] : list (FrameHeader * list Z)))%nat.
Proof.
  intros Hf H1 H2 i h' payload' Hi. rewrite length_app. cbn [length]. apply lookup_app_Some in Hi as [Hi|[Hge Hi]].
  - pose proof (lookup_lt_Some _ _ _ Hi). destruct (Hf _ _ _ Hi) as [? ->]. split; [done|].
    replace (S i =? length fs + 1)%nat with false by (symmetry; apply Nat.eqb_neq; lia). by rewrite andb_false_r.
  - apply list_lookup_singleton_Some in Hi as [Hi [= <- <-]]. assert (i = length fs) as -> by lia. split; [done|].
    rewrite H2, Nat.add_1_r, Nat.eqb_refl. by rewrite andb_true_r.
Qed.

Lemma push_outcome w0 g fs recs record io :
  wal_ready w0 → open_group w0 g fs recs → is_u64 (gw_transaction g) → Forall is_byte record →
  match push record io g with
  | (g', Some _) => settled w0 (gw_wal g') ∧ gw_failed g' = true
  | (g', None) => gw_transaction g' = gw_transaction g ∧ ∃ fs', open_group w0 g' fs' (recs ++ [record])
  end.
Proof.
  intros Hw Ho Htx Hb. unfold push. rewrite (og_failed _ _ _ _ Ho). destruct (MAX_FRAME_RECORD_BYTES <? _).
  { apply fail_settled; [done|]. by eapply open_dirty. }
  assert (∀ g' fs', open_group w0 g' fs' recs →
    open_group w0 (mkWriter (gw_wal g') (gw_transaction g') (gw_start g') (gw_next g') (gw_payload g' ++ record)
      (S (gw_pending g')) (gw_frames_written g') (gw_touched g') (gw_failed g')) fs' (recs ++ [record])) as Hadd.
  { intros g' fs' [Hs Hc He Hm Hf Ht Hn Hst Hto Hfa Hpo Hp Hpb Hfi]. split; try done; cbn [gw_payload].
    - by apply framed_push.
    - apply Forall_app. by split. }
  destruct (_ && _); [|split; [done|]; exists fs; by apply Hadd].
  pose proof (write_pending_outcome w0 g fs recs FrameFlags.MIDDLE io Hw Ho Htx (or_introl eq_refl)) as Hr.
  destruct (write_pending _ io g) as [g' [e|]]; [done|].
  destruct Hr as (h & Hfl & Htr & Hs & Hc & He & Hm & Ht & Hst & Hp & Hn & Hto & Hfa & Hpo). split; [done|].
  exists (fs ++ [(h, gw_payload g)]). apply Hadd.
  destruct (pending_flags_ok FrameFlags.MIDDLE fs (or_introl eq_refl)) as (_ & Hf1 & Hf2). rewrite <- Hfl in Hf1, Hf2.
  split; try done.
  - intros i h' payload' Hi.
    destruct (snoc_flags _ _ _ false (og_flags _ _ _ _ Ho) Hf1 Hf2 i h' payload' Hi) as [-> ->]. done.
  - apply Forall_app. split; [rewrite Ht; apply Ho|]. constructor; [|constructor]. cbn. congruence.
  - rewrite Hn, (og_count _ _ _ _ Ho), length_app. cbn. lia.
  - rewrite Hst. apply Ho.
  - rewrite Hto, length_app, Nat.add_1_r. done.
  - rewrite Hp, fmap_app. apply framed_next; [apply app_not_nil_r|apply Ho].
  - rewrite Hp. constructor.
  - intros h' payload' fs' Heq. by eapply first_prologue.
Qed.

Lemma push_all_outcome w0 g fs recs records :
  wal_ready w0 → open_group w0 g fs recs → is_u64 (gw_transaction g) → Forall (λ r, Forall is_byte r.1) records →
  match push_all records g with
  | (g', Some _) => settled w0 (gw_wal g') ∧ gw_failed g' = true
  | (g', None) => gw_transaction g' = gw_transaction g ∧ ∃ fs', open_group w0 g' fs' (recs ++ records.*1)
  end.
Proof.
  intros Hw Ho Htx Hb. revert g fs recs Ho Htx. induction Hb as [|[record io] records Hr Hb IH]; intros g fs recs Ho Htx; cbn [push_all].
  { split; [done|]. exists fs. cbn. by rewrite app_nil_r. }
  pose proof (push_outcome w0 g fs recs record io Hw Ho Htx Hr) as Hp. destruct (push record io g) as [g' [e|]]; [done|].
  destruct Hp as (Ht & fs' & Ho'). rewrite <- Ht in Htx. specialize (IH g' fs' _ Ho' Htx).
  destruct (push_all records g') as [g'' [e|]]; [done|]. destruct IH as (Ht' & fs'' & Ho''). split; [congruence|].
  exists fs''. rewrite <- app_assoc in Ho''. done.
Qed.

(** ** Finishing *)

(** The log with one more group. *)
Record appended (w0 w : Wal) (l : lgroup) : Prop := {
  ap_db : wal_db w = wal_db w0;
  ap_sealed : wal_sealed w = wal_sealed w0;
  ap_synced : wal_synced w = wal_synced w0;
  ap_active : extends (wal_active w0) (wal_active w);
  ap_bytes : Forall is_byte (content (wal_active w));
  ap_group : lgroup_at (wal_db w0) (wal_active w) l;
  ap_start : l_start l = wal_end w0;
  ap_wal_end : l_end l = wal_end w;
  ap_end : end_lsn (wal_active w) = wal_end w;
  ap_max : wal_end w ≤ u64_max;
  ap_poisoned : wal_poisoned w = false;
}.

Lemma write_last_outcome w0 g fs recs io :
  wal_ready w0 → open_group w0 g fs recs → is_u64 (gw_transaction g) →
  match write_last io g with
  | (g', Err _) => settled w0 (gw_wal g')
  | (g', Ok e) =>
      ∃ l, appended w0 (gw_wal g') l ∧ e = mkGroupEnd (l_start l) (l_end l) ∧ l_transaction l = gw_transaction g ∧
        length (l_frames l) = S (length fs) ∧ framed (to_le 8 (wal_synced w0)) recs (l_frames l).*2
  end.
Proof.
  intros Hw Ho Htx. unfold write_last. rewrite (og_failed _ _ _ _ Ho).
  pose proof (write_pending_outcome w0 g fs recs FrameFlags.LAST io Hw Ho Htx (or_intror eq_refl)) as Hr.
  destruct (write_pending _ io g) as [g' [e|]]; [apply Hr|]. cbn [gw_wal].
  destruct Hr as (h & Hfl & Htr & Hs & Hc & He & Hm & Ht & Hst & Hp & Hn & Hto & Hfa & Hpo).
  destruct (pending_flags_ok FrameFlags.LAST fs (or_intror eq_refl)) as (_ & Hf1 & Hf2). rewrite <- Hfl in Hf1, Hf2.
  exists (mkLgroup (gw_transaction g) (wal_end w0) (gw_next g') (wal_synced w0) (fs ++ [(h, gw_payload g)])).
  split_and!; try done.
  - destruct Hs as [? ? ? ? ? ?]. split; try done. split; try done; cbn [l_frames l_synced l_start l_transaction].
    + intros i h' payload' Hi.
      destruct (snoc_flags _ _ _ true (og_flags _ _ _ _ Ho) Hf1 Hf2 i h' payload' Hi) as [-> ->]. done.
    + apply Forall_app. split; [apply Ho|]. by constructor.
    + destruct (fs ++ [(h, gw_payload g)]) as [|[h' payload'] fs'] eqn:E; [by destruct fs|].
      exists h', payload', fs'. split; [done|]. by eapply first_prologue.
    + apply Hw.
  - cbn. by rewrite Hst, (og_start _ _ _ _ Ho).
  - cbn [l_frames]. rewrite length_app. cbn. lia.
  - cbn [l_frames]. rewrite fmap_app. apply Ho.
Qed.

Lemma group_writer_open w tx :
  wal_ready w → open_group w (group_writer w tx) [] [].
Proof.
  intros Hw. split; try done; cbn; try apply Hw.
  - split; try done. apply Hw.
  - constructor.
  - exists [[]]. cbn. by rewrite app_nil_r.
  - apply to_le_bytes.
Qed.
End writer.
