(* ===== verification/WalProps.v ===== *)
(** * The log after a crash

    The segments of a writer hold whole groups, one segment after the other,
    whatever operations were done and whichever of their writes, cuts, syncs
    and rotations failed. A crash that keeps any number of the active
    segment's bytes leaves a log that a scan reads as the groups reported as
    written in front of the cut, and that is clean once the torn tail is
    cut. *)
From S2P Require Import Prelude Ids Bytes WalFrame WalReader WalScanFacts WalWriter WalLog WalWriterFacts.
#[local] Arguments to_le : simpl never.
#[local] Arguments from_le : simpl never.

Section crash.
Context `{WalEnv}.

(** ** The invariant of the writer *)

(** Sealed segments: whole groups up to the end of each, each segment where
    the one before it ends. *)
Inductive sealed_at (db : Z) : list ScanSegment → Z → list lgroup → Z → Prop :=
  | sealed_nil p : sealed_at db [] p [] p
  | sealed_cons seg segs gs gs' q :
      Forall is_byte (content seg) → groups_at db seg (first_lsn seg) gs (end_lsn seg) →
      sealed_at db segs (end_lsn seg) gs' q → sealed_at db (seg :: segs) (first_lsn seg) (gs ++ gs') q.

Lemma sealed_snoc db segs p gs seg gs' :
  sealed_at db segs p gs (first_lsn seg) → Forall is_byte (content seg) →
  groups_at db seg (first_lsn seg) gs' (end_lsn seg) → sealed_at db (segs ++ [seg]) p (gs ++ gs') (end_lsn seg).
Proof.
  intros Hs Hb Hg. remember (first_lsn seg) as q eqn:Hq.
  induction Hs as [p|sg segs gs gs0 q Hb0 Hg0 Hs IH]; subst; cbn [app].
  - rewrite <- (app_nil_r gs'). constructor; [done|done|constructor].
  - rewrite <- app_assoc. constructor; [done|done|]. by apply IH.
Qed.

Record wal_inv (db start : Z) (w : Wal) (gs : list lgroup) : Prop := {
  wi_log : ∃ gs_s gs_a, gs = gs_s ++ gs_a ∧
    sealed_at (wal_db w) (wal_sealed w) start gs_s (first_lsn (wal_active w)) ∧
    groups_at (wal_db w) (wal_active w) (first_lsn (wal_active w)) gs_a (wal_end w);
  wi_torn : torn_at (wal_db w) (wal_active w) (wal_end w);
  wi_bytes : Forall is_byte (content (wal_active w));
  wi_first : 0 ≤ first_lsn (wal_active w);
  wi_synced : 0 ≤ wal_synced w ≤ wal_end w;
  wi_max : wal_end w ≤ u64_max;
  wi_end : wal_poisoned w = false → end_lsn (wal_active w) = wal_end w;
  wi_db : wal_db w = db;
}.

Lemma inv_ready db start w gs : wal_inv db start w gs → wal_poisoned w = false → wal_ready w.
Proof. intros [? ? ? ? ? ? He ?] Hp. split; try done. by apply He. Qed.

Lemma inv_settled db start w0 w gs : wal_inv db start w0 gs → wal_poisoned w0 = false → settled w0 w → wal_inv db start w gs.
Proof.
  intros [(gs_s & gs_a & -> & Hs & Hg) _ Hb Hf Hsy Hm He Hwdb] Hp [[Hdb Hse Hend Hsyn Hact Hby] Ht Hcl].
  pose proof (ex_first _ _ Hact) as Hfst. split; rewrite ?Hfst, ?Hend, ?Hsyn; try done.
  - exists gs_s, gs_a. rewrite Hdb, Hse. split_and!; [done|done|]. by eapply groups_at_extend.
  - by rewrite Hdb.
  - intros Hpw. rewrite <- (He Hp). unfold end_lsn. by rewrite Hfst, (Hcl Hpw).
  - by rewrite Hdb.
Qed.

Lemma groups_snoc db seg p gs g :
  groups_at db seg p gs (l_start g) → lgroup_at db seg g → groups_at db seg p (gs ++ [g]) (l_end g).
Proof.
  intros Hg Hl. remember (l_start g) as q eqn:Hq. induction Hg as [|g0 gs q Hg0 Hg IH]; subst; cbn [app].
  - constructor; [done|constructor].
  - constructor; [done|]. by apply IH.
Qed.

Lemma inv_appended db start w0 w gs l : wal_inv db start w0 gs → appended w0 w l → wal_inv db start w (gs ++ [l]).
Proof.
  intros [(gs_s & gs_a & -> & Hs & Hg) _ Hb Hf Hsy Hm He Hwdb] [Hdb Hse Hsyn Hact Hby Hgr Hst Hle Hend Hmax Hpo].
  pose proof (ex_first _ _ Hact) as Hfst. pose proof (frames_at_le _ _ _ _ _ Hby (lg_chain _ _ _ Hgr)) as Hmono.
  split; rewrite ?Hfst, ?Hsyn; try done.
  - exists gs_s, (gs_a ++ [l]). rewrite Hdb, Hse. split_and!; [by rewrite app_assoc|done|].
    rewrite <- Hle. apply groups_snoc; [|done]. rewrite Hst. by eapply groups_at_extend.
  - apply torn_at_end; [|lia]. rewrite Hfst. pose proof (groups_start_le _ _ _ _ _ Hb Hg). lia.
  - lia.
  - by rewrite Hdb.
Qed.

Lemma inv_poison db start w gs : wal_inv db start w gs → wal_inv db start (poison w) gs.
Proof. intros [? ? ? ? ? ? ? ?]. by split. Qed.

Lemma inv_synced db start w gs e : wal_inv db start w gs → e ≤ wal_end w → wal_inv db start (set_synced e w) gs.
Proof. intros [? ? ? ? ? ? ? ?] He. split; try done. cbn. lia. Qed.

Lemma rotate_inv db start w gs io :
  wal_inv db start w gs → wal_poisoned w = false →
  wal_inv db start (rotate_locked io w).1 gs ∧
  (is_ok (rotate_locked io w).2 = true → wal_poisoned (rotate_locked io w).1 = false).
Proof.
  intros Hi Hp. unfold rotate_locked. destruct (_ =? _); [done|]. destruct io as [c| |]; cbn [fst snd].
  - split; [|done]. destruct Hi as [(gs_s & gs_a & -> & Hs & Hg) _ Hb Hf Hsy Hm He Hwdb].
    pose proof (groups_start_le _ _ _ _ _ Hb Hg) as [Hle _].
    split; cbn [wal_db wal_sealed wal_active wal_end wal_synced wal_poisoned first_lsn content set_synced]; try done; try lia.
    + exists (gs_s ++ gs_a), []. rewrite app_nil_r. split_and!; [done| |constructor].
      rewrite <- (He Hp) in Hg |- *. by apply sealed_snoc.
    + apply torn_at_end; [done|]. unfold end_lsn. cbn. lia.
    + unfold end_lsn. cbn. lia.
  - split; [by apply inv_poison|]. done.
  - split; [by apply inv_synced|]. done.
Qed.

Lemma begin_group_inv db start w gs rio tx :
  wal_inv db start w gs →
  wal_inv db start (begin_group rio tx w).1 gs ∧
  (∀ g, (begin_group rio tx w).2 = Ok g →
     wal_ready (begin_group rio tx w).1 ∧ g = group_writer (begin_group rio tx w).1 tx).
Proof.
  intros Hi. unfold begin_group. destruct (wal_poisoned w) eqn:Hp; [done|].
  destruct (_ && _).
  - destruct (rotate_inv db start w gs rio Hi Hp) as [Hi' Hp']. destruct (rotate_locked rio w) as [w' [e|e]]; cbn [fst snd] in *; [|done].
    split; [done|]. intros g [= <-]. split; [|done]. eapply inv_ready; [done|]. by apply Hp'.
  - cbn [fst snd]. split; [done|]. intros g [= <-]. split; [|done]. by eapply inv_ready.
Qed.

(** ** Operations *)

(** The inputs of an operation: bytes, and a commit's records have some. *)
Definition op_ok (o : wal_op) : Prop :=
  match o with
  | WriteGroup _ tx records _ => is_u64 tx ∧ Forall (λ r, Forall is_byte r.1) records ∧ concat records.*1 ≠ []
  | AbandonGroup _ tx records _ => is_u64 tx ∧ Forall (λ r, Forall is_byte r.1) records
  | _ => True
  end.

(** A group of the log is the group that was reported as written. *)
Record recorded (l : lgroup) (x : written) : Prop := {
  rc_transaction : l_transaction l = w_transaction x;
  rc_end : w_end x = mkGroupEnd (l_start l) (l_end l);
  rc_records : ∃ ps, skip_prologue (l_frames l).*2 = map (concat (A:=Z)) ps ∧ concat ps = w_records x;
}.

Lemma skip_add_prologue p ps : length p = FRAME_PROLOGUE_BYTES → skip_prologue (add_prologue p ps) = ps.
Proof. intros Hp. destruct ps as [|x ps]; [done|]. cbn [add_prologue skip_prologue]. by rewrite <- Hp, drop_app_length. Qed.

Lemma group_records l synced recs :
  framed (to_le 8 synced) recs (l_frames l).*2 →
  (∃ ps, skip_prologue (l_frames l).*2 = map (concat (A:=Z)) ps ∧ concat ps = recs) ∧
  (concat recs ≠ [] → marker l = false) ∧ (concat recs = [] → length (l_frames l) = 1%nat → marker l = true).
Proof.
  intros (ps & <- & Hc). pose proof (to_le_length 8 synced) as Hp. generalize dependent (to_le 8 synced). intros p Hc Hp.
  rewrite Hc. split; [exists ps; split; [by apply skip_add_prologue|done]|]. unfold marker.
  destruct (l_frames l) as [|[h payload] [|f fs]]; [|destruct ps as [|x [|]]; try done|done].
  { split; [|done]. intros _. done. }
  cbn [fmap list_fmap snd add_prologue concat] in *. injection Hc as ->. rewrite app_nil_r, length_app, Hp. split.
  - intros Hne. apply Nat.eqb_neq. destruct (concat x); [done|]. cbn. unfold FRAME_PROLOGUE_BYTES. lia.
  - intros -> _. done.
Qed.

(** What an operation adds to the log. *)
Definition adds (db start : Z) (gs : list lgroup) (r : Wal * option written) : Prop :=
  ∃ gs', wal_inv db start r.1 (gs ++ gs') ∧ Forall2 recorded (shown gs') (option_list r.2).

Lemma adds_nothing db start gs w : wal_inv db start w gs → adds db start gs (w, None).
Proof. intros Hi. exists []. rewrite app_nil_r. split; [done|constructor]. Qed.

Lemma write_group_adds db start w gs rio tx records io :
  wal_inv db start w gs → op_ok (WriteGroup rio tx records io) → adds db start gs (apply_op w (WriteGroup rio tx records io)).
Proof.
  intros Hi (Htx & Hb & Hne). cbn [apply_op]. unfold write_group.
  destruct (begin_group_inv db start w gs rio tx Hi) as [Hi' Hg]. destruct (begin_group rio tx w) as [w' [g|e]]; cbn [fst snd] in *;
    [|by apply adds_nothing].
  destruct (Hg g eq_refl) as [Hw ->]. pose proof (wr_poisoned _ Hw) as Hp.
  pose proof (push_all_outcome w' _ [] [] records Hw (group_writer_open w' tx Hw) Htx Hb) as Hpush.
  destruct (push_all records _) as [g [e|]].
  { destruct Hpush as [Hs _]. apply adds_nothing. by eapply inv_settled. }
  destruct Hpush as (Ht & fs & Ho). cbn in Ht. rewrite <- Ht in Htx.
  pose proof (write_last_outcome w' g fs _ io Hw Ho Htx) as Hlast.
  destruct (write_last io g) as [g' [e|e]]; [|apply adds_nothing; by eapply inv_settled].
  destruct Hlast as (l & Hap & -> & Htl & _ & Hc). cbn [app] in Hc.
  destruct (group_records _ _ _ Hc) as (Hrec & Hm & _).
  exists [l]. cbn [fst snd]. split; [by eapply inv_appended|]. unfold shown. rewrite filter_cons_True by by apply Hm.
  constructor; [|constructor]. split; [cbn; congruence|done|done].
Qed.

Lemma write_marker_adds db start w gs io : wal_inv db start w gs → adds db start gs (apply_op w (WriteMarker io)).
Proof.
  intros Hi. cbn [apply_op]. unfold write_marker. destruct (wal_poisoned w) eqn:Hp; [by apply adds_nothing|].
  pose proof (inv_ready _ _ _ _ Hi Hp) as Hw.
  pose proof (write_last_outcome w _ [] [] io Hw (group_writer_open w TransactionId.SYSTEM Hw)) as Hlast.
  destruct (write_last io _) as [g' [e|e]]; cbn [fst]; [|apply adds_nothing; eapply inv_settled; [done..|by apply Hlast]].
  destruct Hlast as (l & Hap & _ & _ & Hlen & Hc); [done|].
  destruct (group_records _ _ _ Hc) as (_ & _ & Hm).
  exists [l]. cbn [fst snd]. split; [by eapply inv_appended|]. unfold shown. rewrite filter_cons_False; [constructor|].
  rewrite Hm by done. done.
Qed.

Lemma abandon_adds db start w gs rio tx records cut :
  wal_inv db start w gs → op_ok (AbandonGroup rio tx records cut) → adds db start gs (apply_op w (AbandonGroup rio tx records cut)).
Proof.
  intros Hi (Htx & Hb). cbn [apply_op]. unfold abandon_group. apply adds_nothing.
  destruct (begin_group_inv db start w gs rio tx Hi) as [Hi' Hg]. destruct (begin_group rio tx w) as [w' [g|e]]; cbn [fst snd] in *; [|done].
  destruct (Hg g eq_refl) as [Hw ->]. pose proof (wr_poisoned _ Hw) as Hp.
  pose proof (push_all_outcome w' _ [] [] records Hw (group_writer_open w' tx Hw) Htx Hb) as Hpush.
  destruct (push_all records _) as [g [e|]]; cbn [fst].
  - destruct Hpush as [Hs Hf]. unfold drop_group. rewrite Hf, andb_false_r. by eapply inv_settled.
  - destruct Hpush as (_ & fs & Ho). eapply inv_settled; [done..|]. by eapply drop_settled.
Qed.

Lemma apply_op_adds db start w gs o : wal_inv db start w gs → op_ok o → adds db start gs (apply_op w o).
Proof.
  intros Hi Ho. destruct o as [rio tx records io|rio tx records cut|io|ok|rio].
  - by apply write_group_adds.
  - by apply abandon_adds.
  - by apply write_marker_adds.
  - apply adds_nothing. unfold sync. destruct (_ || _); [done|]. destruct ok; [by apply inv_synced|by apply inv_poison].
  - apply adds_nothing. unfold rotate. destruct (wal_poisoned w) eqn:Hp; [done|]. by apply rotate_inv.
Qed.

Lemma run_adds db start ops w gs :
  wal_inv db start w gs → Forall op_ok ops →
  ∃ gs', wal_inv db start (run ops w).1 (gs ++ gs') ∧ Forall2 recorded (shown gs') (run ops w).2.
Proof.
  intros Hi Hops. revert w gs Hi. induction Hops as [|o ops Ho Hops IH]; intros w gs Hi; cbn [run].
  { exists []. rewrite app_nil_r. split; [done|constructor]. }
  destruct (apply_op_adds db start w gs o Hi Ho) as (gs1 & Hi1 & Hr1). destruct (apply_op w o) as [w1 g1]. cbn [fst snd] in *.
  destruct (IH w1 _ Hi1) as (gs2 & Hi2 & Hr2). destruct (run ops w1) as [w2 g2]. cbn [fst snd] in *.
  exists (gs1 ++ gs2). rewrite <- app_assoc in Hi2. split; [done|]. unfold shown. rewrite filter_app. by apply Forall2_app.
Qed.

Lemma new_wal_inv db sb ft fk start c : is_u64 start → wal_inv db start (new_wal db sb ft fk start c) [].
Proof.
  intros Hs. unfold is_u64, u64_max in *. split; cbn; try done; try lia.
  - exists [], []. split_and!; [done|constructor|constructor].
  - apply torn_at_end; [done|]. unfold end_lsn. cbn. lia.
  - unfold u64_max. lia.
  - unfold end_lsn. cbn. lia.
Qed.
End crash.

(** ** Properties of the write-ahead log

    The end-to-end theorems of the log: what a scan of arbitrary bytes
    returns, what it returns of a writer's log after a crash, and what
    cutting the torn tail leaves. *)
#[local] Arguments to_le : simpl never.
#[local] Arguments from_le : simpl never.

Section props.
Context `{WalEnv}.

(** The segments after a crash that kept [n] bytes of the active one. *)
Definition crashed (n : nat) (w : Wal) : list ScanSegment := wal_sealed w ++ [cut n (wal_active w)].

(** A group of a scan is the group that was reported as written. *)
Record recovered (db : Z) (g : GroupFrames) (x : written) : Prop := {
  re_transaction : group_transaction g = w_transaction x;
  re_end : w_end x = mkGroupEnd (group_start g) (group_end g);
  re_records : ∃ ps, payloads db g = Ok (map (concat (A:=Z)) ps) ∧ frame_count g = length ps ∧ concat ps = w_records x;
}.

(** ** Opening a writer's log *)

Lemma sealed_chain db sealed start gs seg k :
  sealed_at db sealed start gs (first_lsn seg) →
  gap_after k (sealed ++ [seg]) = None ∧ Forall (λ s, start ≤ first_lsn s) (sealed ++ [seg]) ∧
  Forall (λ g, l_end g ≤ first_lsn seg) gs ∧ start ≤ first_lsn seg ∧ Forall (λ s, Forall is_byte (content s)) sealed ∧
  ∃ s0, head (sealed ++ [seg]) = Some s0 ∧ first_lsn s0 = start.
Proof.
  intros Hs. remember (first_lsn seg) as q eqn:Hq. revert k.
  induction Hs as [p|sg segs gs gs' q Hb Hg Hs IH]; intros k; subst.
  - split_and!; try done; [|by exists seg]. constructor; [done|constructor].
  - destruct (IH eq_refl (S k)) as (Hgap & Hall & Hends & Hle & Hbs & s0 & Hh & Hf).
    assert (first_lsn sg ≤ end_lsn sg) as Hse by (unfold end_lsn; lia).
    split_and!; cbn [app head].
    + cbn [gap_after]. destruct (segs ++ [seg]) as [|s1 segs'] eqn:E; [by destruct segs|]. cbn in Hh. injection Hh as ->.
      rewrite Hf, Z.eqb_refl. cbn [negb]. exact Hgap.
    + constructor; [lia|]. eapply Forall_impl; [exact Hall|]. cbn. lia.
    + apply Forall_app. split; [|done]. eapply Forall_impl; [apply (groups_start_le _ _ _ _ _ Hb Hg)|]. cbn. lia.
    + lia.
    + by constructor.
    + by exists sg.
Qed.

Lemma sealed_log db sealed start gs seg gs' q :
  sealed_at db sealed start gs (first_lsn seg) → groups_at db seg (first_lsn seg) gs' q → torn_at db seg q →
  log_at db (sealed ++ [seg]) start (gs ++ gs') q.
Proof.
  intros Hs Hg Ht. remember (first_lsn seg) as p eqn:Hp. induction Hs as [p|sg segs gs gs0 p Hb Hgs Hs IH]; cbn [app].
  - by constructor.
  - rewrite <- app_assoc. constructor; [done|by destruct segs|]. by apply IH.
Qed.

Lemma open_log db start salvage_ buffer sealed seg gs gs' q :
  sealed_at db sealed start gs (first_lsn seg) → Forall is_byte (content seg) →
  groups_at db seg (first_lsn seg) gs' q → torn_at db seg q →
  ∃ s, open_scan db start salvage_ buffer (sealed ++ [seg]) = Ok s ∧ database_id s = db ∧ scan_at s seg (gs ++ gs') q.
Proof.
  intros Hs Hb Hg Ht. destruct (sealed_chain _ _ _ _ _ 1 Hs) as (Hgap & Hall & _ & _ & Hbs & s0 & Hh & Hf).
  assert (filter (λ s, start < end_lsn s ∨ start ≤ first_lsn s) (sealed ++ [seg]) = sealed ++ [seg]) as Hfil.
  { apply list_filter_id. eapply Forall_impl; [exact Hall|]. cbn. lia. }
  assert (find_gap (sealed ++ [seg]) start = None) as Hfind.
  { unfold find_gap. destruct (sealed ++ [seg]) as [|s1 segs]; [done|]. cbn in Hh. injection Hh as ->.
    rewrite Hf, Z.ltb_irrefl. done. }
  destruct (open_scan db start salvage_ buffer (sealed ++ [seg])) as [s|e] eqn:Eo.
  2:{ unfold open_scan in Eo. rewrite Hfil, Hfind in Eo. done. }
  exists s. split; [done|]. pose proof Eo as Eo'. apply open_scan_ok in Eo' as (Hok & He & Hdb & _ & _);
    [|apply Forall_app; split; [done|by constructor]].
  split; [done|]. unfold open_scan in Eo. rewrite Hfil, Hfind in Eo. injection Eo as <-.
  split; [done|done|done| |by rewrite <- last_snoc with (l := sealed)].
  cbn [database_id index segments position drop]. destruct (sealed ++ [seg]) as [|s1 segs] eqn:E; [done|]. cbn in Hh. injection Hh as ->.
  rewrite Hf, Z.max_id. cbn [drop]. rewrite <- E. by apply sealed_log.
Qed.

(** ** Groups and written groups *)

Lemma Forall2_filter {A B} (R : A → B → Prop) P `{∀ x, Decision (P x)} Q `{∀ y, Decision (Q y)} l k :
  Forall2 R l k → (∀ x y, R x y → P x ↔ Q y) → Forall2 R (filter P l) (filter Q k).
Proof.
  intros Hlk Hpq. induction Hlk as [|x y l k Hxy Hlk IH]; [constructor|]. rewrite !filter_cons.
  destruct (decide (P x)) as [Hp|Hp], (decide (Q y)) as [Hq|Hq]; try done; [by constructor|..]; naive_solver.
Qed.

Lemma matches_recorded db g l x : matches db g l → recorded l x → recovered db g x.
Proof.
  intros [Ht Hs He Hp Hn] [Rt Re (ps & Hps & Hc)]. split; [congruence|congruence|]. exists ps. split; [by rewrite <- Hps|]. split; [|done].
  rewrite Hn. apply (f_equal length) in Hps. rewrite length_map in Hps. rewrite <- Hps. destruct (l_frames l); cbn; [done|]. by rewrite length_fmap.
Qed.

Lemma Forall2_recovered db gs ls xs :
  Forall2 (matches db) gs ls → Forall2 recorded ls xs → Forall2 (recovered db) gs xs.
Proof.
  intros H1. revert xs. induction H1 as [|g l gs ls Hm H1 IH]; intros xs H2; inversion H2; subst; constructor; eauto.
  by eapply matches_recorded.
Qed.

(** ** Scanning it *)

(** A scan of sealed segments and a last one with a torn end at [q]. *)
Lemma scan_log db start salvage_ buffer sealed seg gs gs' q :
  sealed_at db sealed start gs (first_lsn seg) → Forall is_byte (content seg) →
  groups_at db seg (first_lsn seg) gs' q → torn_at db seg q → ¬ lookalike db seg q →
  ∃ s groups e, open_scan db start salvage_ buffer (sealed ++ [seg]) = Ok s ∧
    scan_groups (S (scan_fuel s)) s = Some (Ok (groups, e)) ∧
    Forall2 (matches db) groups (shown (gs ++ gs')) ∧ ending_lsn e = q ∧
    ((ending_tail e = None ∧ q = end_lsn seg) ∨
     q < end_lsn seg ∧ ∃ why, ending_tail e = Some (mkTail Torn (Some (first_lsn seg)) (offset_of seg q) q why [])).
Proof.
  intros Hs Hb Hg Ht Hl. destruct (open_log db start salvage_ buffer sealed seg gs gs' q Hs Hb Hg Ht) as (s & Ho & Hdb & Hsa).
  pose proof (left_le_fuel s). subst db.
  destruct (scan_groups_log (S (scan_fuel s)) s seg _ q Hsa Hl ltac:(lia)) as (groups & e & Hr). by exists s, groups, e.
Qed.

(** What a crash leaves of a writer's log. *)
Lemma crashed_log db sb ft fk start c ops n w xs :
  is_u64 start → Forall op_ok ops → run ops (new_wal db sb ft fk start c) = (w, xs) →
  ∃ gs gs' q, sealed_at db (wal_sealed w) start gs (first_lsn (wal_active w)) ∧
    Forall is_byte (content (cut n (wal_active w))) ∧
    groups_at db (cut n (wal_active w)) (first_lsn (wal_active w)) gs' q ∧ torn_at db (cut n (wal_active w)) q ∧
    first_lsn (wal_active w) ≤ q ≤ first_lsn (wal_active w) + Z.of_nat n ∧
    Forall2 recorded (shown (gs ++ gs')) (filter (λ x, ge_end (w_end x) ≤ first_lsn (wal_active w) + Z.of_nat n) xs).
Proof.
  intros Hst Hops Hrun. destruct (run_adds db start ops _ [] (new_wal_inv db sb ft fk start c Hst) Hops) as (gs & Hi & Hr).
  rewrite Hrun in Hi, Hr. cbn [fst snd app] in Hi, Hr.
  destruct Hi as [(gs_s & gs_a & -> & Hs & Hg) Ht Hb Hf Hsy Hm He Hdb]. rewrite Hdb in *.
  destruct (groups_cut n _ _ _ _ _ Hb ltac:(split; [done|lia]) Hg Ht) as (gs1 & gs2 & q & -> & Hg1 & Ht1 & Hq & H1 & H2).
  destruct (sealed_chain _ _ _ _ _ 1 Hs) as (_ & _ & Hends & _).
  exists gs_s, gs1, q. split_and!; try done; [by apply Forall_take|lia|lia|].
  assert (shown (gs_s ++ gs1) = filter (λ l, l_end l ≤ first_lsn (wal_active w) + Z.of_nat n) (shown (gs_s ++ gs1 ++ gs2))) as ->.
  { unfold shown. rewrite list_filter_filter. rewrite !filter_app. rewrite (list_filter_none _ gs2), app_nil_r.
    - f_equal; apply list_filter_iff_Forall.
      + eapply Forall_impl; [exact Hends|]. cbn. intros l Hl. split; [|by intros []]. intros. split; [lia|done].
      + eapply Forall_impl; [exact H1|]. cbn. intros l Hl. split; [|by intros []]. intros. split; [lia|done].
    - eapply Forall_impl; [exact H2|]. cbn. lia. }
  apply (Forall2_filter _ _ _ _ _ Hr). intros l x [_ Hx _]. rewrite Hx. done.
Qed.

Lemma lookalike_le db seg q q' : q ≤ q' → lookalike db seg q' → lookalike db seg q.
Proof. intros Hle (bad & ? & ?). exists bad. split; [lia|done]. Qed.

Lemma groups_at_fun db seg seg' p gs q r : groups_at db seg p gs q → groups_at db seg' p gs r → r = q.
Proof.
  intros Hg. revert r. induction Hg as [p|g gs q _ Hg IH]; intros r Hg1; inversion Hg1; subst; [done|]. by apply IH.
Qed.

(** Cutting a segment at the end of its groups leaves them and nothing else. *)
Lemma cut_at_end db seg gs q :
  Forall is_byte (content seg) → first_lsn seg ≤ q ≤ end_lsn seg → groups_at db seg (first_lsn seg) gs q → torn_at db seg q →
  let seg' := cut (Z.to_nat (q - first_lsn seg)) seg in
  groups_at db seg' (first_lsn seg) gs q ∧ torn_at db seg' q ∧ end_lsn seg' = q ∧ ¬ lookalike db seg' q.
Proof.
  intros Hb Hq Hg Ht seg'. assert (end_lsn seg' = q) as He.
  { unfold end_lsn, seg', cut in *. cbn [first_lsn content]. rewrite length_take. lia. }
  destruct (groups_cut (Z.to_nat (q - first_lsn seg)) db seg (first_lsn seg) gs q Hb ltac:(lia) Hg Ht)
    as (gs1 & gs2 & r & -> & Hg1 & Ht1 & Hr & H1 & H2). fold seg' in Hg1, Ht1.
  assert (gs2 = []) as ->.
  { destruct gs2 as [|g gs2]; [done|]. apply Forall_cons in H2 as [H2 _].
    pose proof (proj2 (groups_start_le _ _ _ _ _ Hb Hg)) as Hall. apply Forall_app in Hall as [_ [Hg0 _]%Forall_cons]. lia. }
  assert (r = q) as ->.
  { rewrite app_nil_r in Hg. by eapply groups_at_fun. }
  rewrite app_nil_r. split_and!; try done. intros (bad & Hle & Hr' & _).
  assert (bytes_from seg' bad = []) as Hnil.
  { apply nil_length_inv. rewrite bytes_from_length. unfold end_lsn in He. lia. }
  by rewrite Hnil in Hr'.
Qed.

(** Cutting the tail at [q] cuts the last segment alone. *)
Lemma cut_tail_last db sealed start gs seg q e :
  sealed_at db sealed start gs (first_lsn seg) →
  (ending_tail e = None ∧ q = end_lsn seg) ∨
  (q < end_lsn seg ∧ ∃ why, ending_tail e = Some (mkTail Torn (Some (first_lsn seg)) (offset_of seg q) q why [])) →
  cut_torn_tail (ending_tail e) (sealed ++ [seg]) = sealed ++ [cut (Z.to_nat (q - first_lsn seg)) seg].
Proof.
  intros Hs Htail. assert (truncate_segment (offset_of seg q) seg = cut (Z.to_nat (q - first_lsn seg)) seg) as Hcut.
  { unfold truncate_segment, offset_of, cut. f_equal. f_equal. lia. }
  destruct Htail as [[-> ->]|(_ & why & ->)]; cbn [cut_torn_tail kind tail_segment tail_offset].
  - unfold cut, end_lsn. rewrite Z.add_simpl_l, Nat2Z.id, firstn_all. by destruct seg.
  - rewrite fmap_app. cbn [fmap list_fmap]. rewrite Z.eqb_refl, Hcut. f_equal.
    remember (first_lsn seg) as p eqn:Hp. clear Hcut. induction Hs as [p|sg segs gs gs' p Hb Hg Hs IH]; [done|].
    cbn [fmap list_fmap]. f_equal; [|by apply IH]. destruct (first_lsn sg =? p) eqn:E; [|done]. bool_to_prop.
    subst p. destruct (sealed_chain _ _ _ _ seg 1 Hs) as (_ & _ & _ & Hle & _). unfold truncate_segment. destruct sg as [f ct ci].
    unfold end_lsn in Hle. cbn in *. destruct ct; [by rewrite take_nil|]. cbn in Hle. lia.
Qed.

(** The frames of a chain are in the bytes, under their checksums. *)
Lemma frames_at_in db seg p fs q :
  Forall is_byte (content seg) → frames_at db seg p fs q →
  Forall (λ f, frame_in (bytes_from seg (lsn f.1)) (lsn f.1) f.1) fs.
Proof.
  intros Hb. induction 1 as [|p h payload fs q [Hr _] _ IH]; constructor; [|done]. cbn [fst].
  apply read_frame_in in Hr; [|by apply bytes_from_byte]. by rewrite (fi_lsn _ _ _ Hr).
Qed.

(** ** Theorems *)

(** C7: Scanning any bytes. For whatever bytes the segments hold, the scan
    ends, and every group it returns is a chain of whole frames with right
    checksums in one listed segment, FIRST on the first frame and LAST on the
    last alone, of one transaction, not a sync marker, its payloads those of
    the frames whether kept or read again; the groups are in order, do not
    overlap, and lie between the start of the scan and the end it reports. *)
Theorem scan_returns_whole_groups db from_lsn salvage_ buffer listing s :
  Forall (λ seg, Forall is_byte (content seg)) listing →
  open_scan db from_lsn salvage_ buffer listing = Ok s →
  ∃ r, scan_groups (S (scan_fuel s)) s = Some r ∧
    match r with
    | Err _ => True
    | Ok (groups, e) =>
        (∀ g, g ∈ groups → ∃ seg fs, seg ∈ listing ∧ whole_group db seg g fs ∧ not_marker fs ∧
           Forall (λ f, frame_in (bytes_from seg (lsn f.1)) (lsn f.1) f.1) fs) ∧
        StronglySorted (λ g g', group_end g ≤ group_start g') groups ∧
        Forall (λ g, from_lsn ≤ group_start g ∧ group_start g < group_end g ∧ group_end g ≤ ending_lsn e) groups ∧
        from_lsn ≤ ending_lsn e
    end.
Proof.
  intros Hb Ho. destruct (open_scan_ok _ _ _ _ _ _ Hb Ho) as (Hok & He & Hdb & Hle & Hin).
  destruct (scan_groups_spec (S (scan_fuel s)) s Hok He) as (r & Hr & Hres); [pose proof (left_le_fuel s); lia|].
  exists r. split; [done|]. destruct r as [[groups e]|]; [|done]. rewrite Hdb in Hres.
  destruct Hres as (H1 & H2 & H3 & H4). split_and!; [|done| |lia].
  - intros g Hg. destruct (H1 g Hg) as (seg & fs & Hseg & Hw). destruct Hw as [Hw Hm].
    exists seg, fs. apply Hin in Hseg. split_and!; [done|done|done|]. eapply frames_at_in; [|by apply Hw].
    by apply (proj1 (Forall_forall _ _) Hb).
  - eapply Forall_impl; [exact H3|]. cbn. lia.
Qed.


(** C28: Cutting the torn tail. When the tail that the scan after a crash
    found is cut, a new scan returns the same written groups, ends at the same
    position and finds no tail; unless bytes of the torn payload look like a
    whole later frame, which the first scan reports as damage. *)
Theorem cut_log_scans_clean db sb ft fk start c ops n salvage_ buffer w xs s groups e :
  is_u64 start → Forall op_ok ops → run ops (new_wal db sb ft fk start c) = (w, xs) →
  ¬ lookalike db (cut n (wal_active w)) (first_lsn (wal_active w)) →
  open_scan db start salvage_ buffer (crashed n w) = Ok s →
  scan_groups (S (scan_fuel s)) s = Some (Ok (groups, e)) →
  ∃ s' groups', open_scan db start salvage_ buffer (cut_torn_tail (ending_tail e) (crashed n w)) = Ok s' ∧
    scan_groups (S (scan_fuel s')) s' = Some (Ok (groups', mkEnding (ending_lsn e) None)) ∧
    Forall2 (recovered db) groups'
      (filter (λ x, ge_end (w_end x) ≤ first_lsn (wal_active w) + Z.of_nat n) xs).
Proof.
  intros Hst Hops Hrun Hl Ho0 Hsc0. destruct (crashed_log _ _ _ _ _ _ _ n _ _ Hst Hops Hrun) as (gs & gs' & q & Hs & Hb & Hg & Ht & Hq & Hrec).
  set (seg := cut n (wal_active w)) in *.
  destruct (scan_log db start salvage_ buffer (wal_sealed w) seg gs gs' q Hs Hb Hg Ht)
    as (s1 & groups1 & e1 & Ho & Hsc & Hm & He & Htail).
  { intros Hx. apply Hl. eapply lookalike_le; [|exact Hx]. lia. }
  unfold crashed in *. fold seg in Ho0 |- *. assert (s1 = s) as -> by congruence. assert (e1 = e) as -> by congruence.
  assert (first_lsn seg ≤ q ≤ end_lsn seg) as Hqs by (split; [cbn; lia|destruct Htail as [[_ ->]|[? _]]; lia]).
  destruct (cut_at_end db seg gs' q Hb Hqs Hg Ht) as (Hg' & Ht' & Hend & Hl').
  rewrite (cut_tail_last db _ start gs seg q e Hs Htail).
  destruct (scan_log db start salvage_ buffer (wal_sealed w) (cut (Z.to_nat (q - first_lsn seg)) seg) gs gs' q Hs
    (Forall_take _ _ _ Hb) Hg' Ht' Hl') as (s' & groups' & e' & Ho' & Hsc' & Hm' & He' & Htail').
  exists s', groups'. split; [done|]. split; [|by eapply Forall2_recovered].
  rewrite Hsc'. destruct Htail' as [[Hn _]|[Hlt _]]; [|rewrite Hend in Hlt; lia]. destruct e' as [l t]. cbn in *. by subst.
Qed.

(** A header within the limits reads back, and what the decoder accepts is the
    encoding of what it returns. *)
Theorem header_reads_back h bytes :
  (FrameHeader.ok h ∧ length_ h ≤ MAX_FRAME_PAYLOAD → FrameHeader.decode (FrameHeader.encode h) = Ok h) ∧
  (Forall is_byte bytes → length bytes = FRAME_HEADER_BYTES → FrameHeader.decode bytes = Ok h →
   FrameHeader.ok h ∧ FrameHeader.encode h = bytes).
Proof.
  split; [intros [Hok Hm]; by apply decode_encode|]. intros Hb Hl Hd.
  destruct (decode_ok _ _ Hb Hl Hd) as (? & _ & ?). done.
Qed.
End props.

(** ** Runs of the log

    A concrete run of the writer, with the sample checksum and cipher of
    WalFrame.v, at which the theorems of WalProps.v are applied: a group of two
    records, a sync and its marker, a rotation, an encrypted group, and a group
    whose write and cut fail. *)
#[local] Existing Instance sample_env.

(** Whether no bytes of a segment look like a later frame behind a place
    where a frame breaks off. *)
Definition quiet (db : Z) (seg : ScanSegment) : bool :=
  forallb (λ i,
    let bad := first_lsn seg + Z.of_nat i in
    match read_frame_from (bytes_from seg bad) bad (seg_cipher seg) db with
    | FrBad PayloadPastEnd => match later_synced_group db seg bad with Ok None => true | _ => false end
    | _ => true
    end) (seq 0 (length (content seg))).

Lemma quiet_no_lookalike db seg : quiet db seg = true → ¬ lookalike db seg (first_lsn seg).
Proof.
  unfold quiet. rewrite forallb_forall. intros Hq (bad & Hle & Hr & Hne).
  destruct (decide (Z.to_nat (bad - first_lsn seg) < length (content seg))%nat) as [Hlt|Hge].
  - specialize (Hq (Z.to_nat (bad - first_lsn seg)) ltac:(apply in_seq; lia)).
    replace (first_lsn seg + Z.of_nat (Z.to_nat (bad - first_lsn seg))) with bad in Hq by lia. rewrite Hr in Hq.
    destruct (later_synced_group db seg bad) as [[?|]|]; done.
  - assert (bytes_from seg bad = []) as Hnil by (apply nil_length_inv; rewrite bytes_from_length; lia).
    by rewrite Hnil in Hr.
Qed.

Definition ok_io : frame_io := mkIo [] WriteOk CutOk.

Definition sample_ops : list wal_op :=
  [ WriteGroup SyncFails 5 [([1; 2; 3], ok_io); ([4], ok_io)] ok_io;
    Sync true;
    WriteMarker ok_io;
    AbandonGroup SyncFails 8 [([7; 7], ok_io)] CutOk;
    Rotate (RotateOk (Some tt));
    WriteGroup SyncFails 6 [([9; 9; 9; 9], ok_io); ([8; 8], ok_io)] ok_io;
    WriteGroup SyncFails 7 [([1; 1; 1; 1; 1], ok_io)] (mkIo [] (WriteFails 40) CutFails);
    WriteGroup SyncFails 9 [([1], ok_io)] ok_io ].

Definition sample_run : Wal * list written := run sample_ops (new_wal 77 4096 10 100 1000 None).

Lemma sample_ops_ok : Forall op_ok sample_ops.
Proof.
  assert (∀ l, forallb (λ b, (0 <=? b) && (b <? 256)) l = true → Forall is_byte l) as Hb.
  { intros l. rewrite forallb_forall, Forall_forall. intros Hl b Hin. apply list_elem_of_In in Hin.
    specialize (Hl b Hin). bool_to_prop. unfold is_byte. lia. }
  unfold sample_ops. repeat (constructor; [|]); cbn [op_ok]; try exact I; try constructor;
    try (unfold is_u64; lia); try (split; [|done]); repeat (constructor; [apply Hb; reflexivity|]); try constructor; done.
Qed.

Lemma sample_quiet :
  ¬ lookalike 77 (cut 155 (wal_active sample_run.1)) (first_lsn (wal_active sample_run.1)).
Proof. apply (quiet_no_lookalike 77 (cut 155 (wal_active sample_run.1))). vm_compute. reflexivity. Qed.


Lemma sample_run_eq : run sample_ops (new_wal 77 4096 10 100 1000 None) = (sample_run.1, sample_run.2).
Proof. unfold sample_run. by destruct (run _ _). Qed.

Definition sample_scan : option (WalScan * list GroupFrames * Ending) :=
  match open_scan 77 1000 false 20 (crashed 155 sample_run.1) with
  | Ok s => match scan_groups (S (scan_fuel s)) s with Some (Ok (groups, e)) => Some (s, groups, e) | _ => None end
  | Err _ => None
  end.

Lemma sample_scan_parts s groups e :
  sample_scan = Some (s, groups, e) →
  open_scan 77 1000 false 20 (crashed 155 sample_run.1) = Ok s ∧ scan_groups (S (scan_fuel s)) s = Some (Ok (groups, e)).
Proof.
  unfold sample_scan. generalize (crashed 155 sample_run.1). intros l.
  destruct (open_scan 77 1000 false 20 l) as [s0|]; [|done].
  destruct (scan_groups (S (scan_fuel s0)) s0) as [[[groups0 e0]|]|] eqn:Es; [|done..].
  intros Heq. injection Heq. intros <- <- <-. exact (conj eq_refl Es).
Qed.

Definition sample_tail_check (r : option (WalScan * list GroupFrames * Ending)) : bool :=
  match r with
  | Some (_, _, e) => (ending_lsn e =? 1215) && bool_decide (is_Some (ending_tail e))
  | None => false
  end.

Lemma sample_tail_checked : sample_tail_check sample_scan = true.
Proof. vm_compute. reflexivity. Qed.

Lemma sample_tail r :
  sample_tail_check r = true → ∃ s groups e, r = Some (s, groups, e) ∧ ending_lsn e = 1215 ∧ is_Some (ending_tail e).
Proof.
  destruct r as [[[s groups] e]|]; [|done]. cbn. intros [He%Z.eqb_eq Ht%bool_decide_eq_true]%andb_true_iff.
  by exists s, groups, e.
Qed.

(** Cutting the tail leaves a log that ends without one. *)
Lemma cut_log_scans_clean_witness :
  ∃ s groups e, sample_scan = Some (s, groups, e) ∧ ending_lsn e = 1215 ∧ is_Some (ending_tail e) ∧
    ∃ s' groups', open_scan 77 1000 false 20 (cut_torn_tail (ending_tail e) (crashed 155 sample_run.1)) = Ok s' ∧
      scan_groups (S (scan_fuel s')) s' = Some (Ok (groups', mkEnding (ending_lsn e) None)) ∧
      Forall2 (recovered 77) groups'
        (filter (λ x, ge_end (w_end x) ≤ first_lsn (wal_active sample_run.1) + Z.of_nat 155) sample_run.2).
Proof.
  destruct (sample_tail sample_scan sample_tail_checked) as (s & groups & e & Hsc & He & Ht).
  destruct (sample_scan_parts s groups e Hsc) as [Ho Hs].
  exact (ex_intro _ s (ex_intro _ groups (ex_intro _ e (conj Hsc (conj He (conj Ht
    (cut_log_scans_clean 77 4096 10 100 1000 None sample_ops 155 false 20 sample_run.1 sample_run.2 s groups e
      (proj1 (is_u64b_spec 1000) eq_refl) sample_ops_ok sample_run_eq sample_quiet Ho Hs))))))).
Defined.

(** Every group of a scan of bytes whose middle was changed is whole. *)
Lemma scan_returns_whole_groups_witness :
  let listing := [mkSegment 1000 (take 62 (content (default (mkSegment 0 [] None) (wal_sealed sample_run.1 !! 0%nat))) ++ [1; 2; 3]) None] in
  ∃ s, open_scan 77 1000 true 20 listing = Ok s ∧ ∃ r, scan_groups (S (scan_fuel s)) s = Some r ∧
    match r with
    | Err _ => True
    | Ok (groups, e) =>
        (∀ g, g ∈ groups → ∃ seg fs, seg ∈ listing ∧ whole_group 77 seg g fs ∧ not_marker fs ∧
           Forall (λ f, frame_in (bytes_from seg (lsn f.1)) (lsn f.1) f.1) fs) ∧
        StronglySorted (λ g g', group_end g ≤ group_start g') groups ∧
        Forall (λ g, 1000 ≤ group_start g ∧ group_start g < group_end g ∧ group_end g ≤ ending_lsn e) groups ∧
        1000 ≤ ending_lsn e
    end.
Proof.
  intros listing. assert (is_ok (open_scan 77 1000 true 20 listing) = true) as Hok by (vm_compute; reflexivity).
  destruct (open_scan 77 1000 true 20 listing) as [s|] eqn:Eo; [|done]. exists s. split; [done|].
  apply (scan_returns_whole_groups 77 1000 true 20 listing); [|done].
  constructor; [|constructor]. apply Forall_forall. intros b Hb.
  assert (forallb (λ b, (0 <=? b) && (b <? 256)) (content (default (mkSegment 0 [] None) (head listing))) = true) as Hall
    by (vm_compute; reflexivity).
  rewrite forallb_forall in Hall. apply list_elem_of_In in Hb. specialize (Hall b Hb). bool_to_prop. unfold is_byte. lia.
Defined.
