(* ===== verification/Hlc.v ===== *)
(** * The hybrid logical clock

    Model of [src/crates/grafeo-common/src/types/hlc.rs]: time stamps of 48
    bits of milliseconds and 16 bits of counter, and the clock that threads
    share through one atomic word. [now] and [update] are loops of a load and
    a compare-and-exchange that may fail; the clock is the step relation of
    any number of threads in such loops, the wall clock an argument of each
    call. *)
From S2P Require Import Prelude.

Definition LOGICAL_BITS : Z := 16.
Definition LOGICAL_MASK : Z := Z.shiftl 1 LOGICAL_BITS - 1.
Definition MAX_LOGICAL : Z := LOGICAL_MASK.

(** A time stamp is its raw [u64]. *)
Module HlcTimestamp.
Definition new (physical_ms logical : Z) : Z := Z.lor (wrap64 (Z.shiftl physical_ms LOGICAL_BITS)) logical.
Definition physical_ms (t : Z) : Z := Z.shiftr t LOGICAL_BITS.
Definition logical (t : Z) : Z := Z.land t LOGICAL_MASK.
End HlcTimestamp.
Import HlcTimestamp.

(** ** The clock *)

Definition next_logical (l : Z) : Z := Z.min (l + 1) MAX_LOGICAL.

(** The stamp one round of [now] wants to store. *)
Definition now_next (pt last : Z) : Z :=
  match pt ?= physical_ms last with
  | Gt => new pt 0
  | Eq => new pt (next_logical (logical last))
  | Lt => new (physical_ms last) (next_logical (logical last))
  end.

(** The stamp one round of [update] wants to store. *)
Definition update_next (received pt last : Z) : Z :=
  let last_pt := physical_ms last in
  let recv_pt := physical_ms received in
  let max_pt := Z.max (Z.max pt last_pt) recv_pt in
  if (max_pt =? pt) && (last_pt <? pt) && (recv_pt <? pt) then new pt 0
  else if (max_pt =? last_pt) && (last_pt =? recv_pt)
  then new max_pt (next_logical (Z.max (logical last) (logical received)))
  else if max_pt =? last_pt then new max_pt (next_logical (logical last))
  else new max_pt (next_logical (logical received)).

(** A call: [now], or [update] with the stamp received. *)
Inductive call : Set := Now | Update (received : Z).

Definition next_of (c : call) (pt last : Z) : Z :=
  match c with Now => now_next pt last | Update received => update_next received pt last end.

(** A thread is outside the clock, about to load, or has loaded a value. *)
Inductive thread : Set :=
  | Outside
  | AtLoad (c : call) (pt : Z)
  | AtExchange (c : call) (pt loaded : Z).

(** The shared word, the threads, and the calls that returned, newest first. *)
Record clock : Type := mkClock {
  last : Z;
  threads : list thread;
  returned : list (call * Z);
}.

(** A wall clock of 48 bits, and stamps of 64. *)
Definition call_ok (c : call) : Prop := match c with Now => True | Update r => is_u64 r end.
Definition is_wall (pt : Z) : Prop := 0 ≤ pt < 2 ^ 48.

Inductive step : clock → clock → Prop :=
  | step_call s i c pt :
      threads s !! i = Some Outside → call_ok c → is_wall pt →
      step s (mkClock (last s) (<[i := AtLoad c pt]> (threads s)) (returned s))
  | step_load s i c pt :
      threads s !! i = Some (AtLoad c pt) →
      step s (mkClock (last s) (<[i := AtExchange c pt (last s)]> (threads s)) (returned s))
  | step_exchange s i c pt loaded :
      threads s !! i = Some (AtExchange c pt loaded) → last s = loaded →
      step s (mkClock (next_of c pt loaded) (<[i := Outside]> (threads s)) ((c, next_of c pt loaded) :: returned s))
  | step_retry s i c pt loaded :
      threads s !! i = Some (AtExchange c pt loaded) →
      step s (mkClock (last s) (<[i := AtLoad c pt]> (threads s)) (returned s)).

(** [HlcClock::new] at a wall clock, shared by [n] threads. *)
Definition new_clock (pt : Z) (n : nat) : clock := mkClock (new pt 0) (replicate n Outside) [].

Definition reachable (pt : Z) (n : nat) (s : clock) : Prop := rtc step (new_clock pt n) s.

(** ** Stamps *)













(** ** The clock shared by threads *)






(** ** Runs *)

(** A call of a thread that nobody disturbs. *)
Lemma undisturbed s i c pt :
  threads s !! i = Some Outside → call_ok c → is_wall pt →
  rtc step s (mkClock (next_of c pt (last s)) (threads s) ((c, next_of c pt (last s)) :: returned s)).
Proof.
  intros Hi Hc Hp. pose proof (lookup_lt_Some _ _ _ Hi) as Hlt.
  eapply rtc_l; [by apply (step_call s i c pt)|].
  eapply rtc_l; [apply (step_load _ i c pt); apply list_lookup_insert_eq; done|].
  eapply rtc_l; [apply (step_exchange _ i c pt (last s)); [apply list_lookup_insert_eq; cbn [threads]; by rewrite length_insert|done]|].
  cbn [last threads returned]. rewrite !list_insert_insert_eq. rewrite list_insert_id by done. constructor.
Qed.


(** Once the counter of a millisecond is used up, [update] returns the very
    stamp it received and [now] repeats it. *)
Theorem used_up_counter_repeats_stamps :
  let t := new 5 MAX_LOGICAL in
  ∃ s, reachable 5 1 s ∧ returned s = [(Now, t); (Update t, t)].
Proof.
  intros t. eexists. split.
  - unfold reachable. etrans; [eapply (undisturbed _ 0 (Update t) 5); [reflexivity|vm_compute; split; congruence|unfold is_wall; lia]|].
    eapply (undisturbed _ 0 Now 5); [reflexivity|exact I|unfold is_wall; lia].
  - vm_compute. reflexivity.
Qed.
