(* ===== verification/SecondChance.v ===== *)
(** * The second-chance cache

    Model of [src/crates/grafeo-core/src/cache/second_chance.rs]: the hash
    map is a [gmap] from keys to a value and its accessed flag, the eviction
    queue is the list of its keys, front first. A read sets the flag of its
    entry, so it returns the cache too. The loop of [evict_one] takes twice
    the queue's length as its count, as in the source. *)
From S2P Require Import Prelude.

Module SecondChanceLru.
Section cache.
Context {K V : Type} `{Countable K}.

Record SecondChanceLru : Type := mkLru {
  cache : gmap K (V * bool);
  queue : list K;
  capacity : nat;
}.

Definition new (n : nat) : SecondChanceLru := mkLru ∅ [] n.

Definition get (k : K) (c : SecondChanceLru) : SecondChanceLru * option V :=
  match cache c !! k with
  | Some (v, _) => (mkLru (<[k := (v, true)]> (cache c)) (queue c) (capacity c), Some v)
  | None => (c, None)
  end.

(** [get_mut], with the write of its caller. *)
Definition get_mut (k : K) (write : V → V) (c : SecondChanceLru) : SecondChanceLru :=
  match cache c !! k with
  | Some (v, _) => mkLru (<[k := (write v, true)]> (cache c)) (queue c) (capacity c)
  | None => c
  end.

Definition contains_key (k : K) (c : SecondChanceLru) : bool := bool_decide (is_Some (cache c !! k)).

(** The loop of [evict_one], with [n] rounds left. *)
Fixpoint evict_loop (n : nat) (c : SecondChanceLru) : SecondChanceLru :=
  match n with
  | O =>
      match queue c with
      | k :: q => mkLru (delete k (cache c)) q (capacity c)
      | [] => c
      end
  | S n =>
      match queue c with
      | [] => c
      | k :: q =>
          match cache c !! k with
          | Some (v, true) => evict_loop n (mkLru (<[k := (v, false)]> (cache c)) (q ++ [k]) (capacity c))
          | Some (v, false) => mkLru (delete k (cache c)) q (capacity c)
          | None => evict_loop n (mkLru (cache c) q (capacity c))
          end
      end
  end.

Definition evict_one (c : SecondChanceLru) : SecondChanceLru := evict_loop (length (queue c) * 2) c.

Definition insert (k : K) (v : V) (c : SecondChanceLru) : SecondChanceLru :=
  match cache c !! k with
  | Some _ => mkLru (<[k := (v, true)]> (cache c)) (queue c) (capacity c)
  | None =>
      let c := if (capacity c <=? size (cache c))%nat then evict_one c else c in
      mkLru (<[k := (v, false)]> (cache c)) (queue c ++ [k]) (capacity c)
  end.

Definition remove (k : K) (c : SecondChanceLru) : SecondChanceLru * option V :=
  (mkLru (delete k (cache c)) (queue c) (capacity c), fst <$> cache c !! k).

Definition clear (c : SecondChanceLru) : SecondChanceLru := mkLru ∅ [] (capacity c).

Definition len (c : SecondChanceLru) : nat := size (cache c).

(** ** Histories *)

Inductive op : Type :=
  | Get (k : K)
  | GetMut (k : K) (write : V → V)
  | Insert (k : K) (v : V)
  | Remove (k : K)
  | Clear.

Definition apply_op (c : SecondChanceLru) (o : op) : SecondChanceLru :=
  match o with
  | Get k => (get k c).1
  | GetMut k write => get_mut k write c
  | Insert k v => insert k v c
  | Remove k => (remove k c).1
  | Clear => clear c
  end.

(** The map a cache without a bound would be. *)
Definition apply_map (m : gmap K V) (o : op) : gmap K V :=
  match o with
  | Get _ => m
  | GetMut k write => alter write k m
  | Insert k v => <[k := v]> m
  | Remove k => delete k m
  | Clear => ∅
  end.

(** ** Eviction *)

Definition values (c : SecondChanceLru) : gmap K V := fst <$> cache c.

Definition flagged (c : SecondChanceLru) : gmap K (V * bool) := filter (λ kv, kv.2.2 = true) (cache c).

Definition stale (c : SecondChanceLru) : list K := filter (λ k, cache c !! k = None) (queue c).

(** Every cached key is in the queue. *)
Definition queued (c : SecondChanceLru) : Prop := ∀ k, is_Some (cache c !! k) → k ∈ queue c.

(** What an eviction leaves: all but one entry, with their values. *)
Record evicted (c c' : SecondChanceLru) (victim : K) : Prop := {
  ev_cached : is_Some (cache c !! victim);
  ev_values : values c' = delete victim (values c);
  ev_queued : queued c';
  ev_capacity : capacity c' = capacity c;
}.

Lemma values_lookup c k : values c !! k = fst <$> cache c !! k.
Proof. unfold values. apply lookup_fmap. Qed.

Lemma flagged_clear k v c q :
  cache c !! k = Some (v, true) →
  size (flagged (mkLru (<[k := (v, false)]> (cache c)) q (capacity c))) = pred (size (flagged c)).
Proof.
  intros Hk. unfold flagged. cbn [cache]. rewrite map_filter_insert_False by done.
  rewrite map_filter_delete. rewrite map_size_delete.
  replace (filter (λ kv, kv.2.2 = true) (cache c) !! k) with (Some (v, true)); [done|].
  symmetry. by apply map_lookup_filter_Some.
Qed.

Lemma values_clear k v c q :
  cache c !! k = Some (v, true) → values (mkLru (<[k := (v, false)]> (cache c)) q (capacity c)) = values c.
Proof.
  intros Hk. unfold values. cbn [cache]. rewrite fmap_insert. apply insert_id. by rewrite lookup_fmap, Hk.
Qed.

Lemma evict_loop_evicts n c :
  queued c → cache c ≠ ∅ → (size (flagged c) + length (stale c) < n)%nat → ∃ victim, evicted c (evict_loop n c) victim.
Proof.
  revert c. induction n as [|n IH]; intros c Hq Hne Hn; [lia|]. cbn [evict_loop].
  destruct (queue c) as [|k q] eqn:Eq.
  { destruct (map_choose (cache c) Hne) as (k & x & Hk). specialize (Hq k ltac:(by rewrite Hk)). rewrite Eq in Hq.
    by apply not_elem_of_nil in Hq. }
  destruct (cache c !! k) as [[v [|]]|] eqn:Ek.
  - set (c1 := mkLru _ _ _). destruct (IH c1) as (victim & [Hc Hv Hq' Hcap]).
    + intros k' Hk'. cbn [c1 cache queue] in *. apply elem_of_app.
      destruct (decide (k' = k)) as [->|Hkk]; [right; by apply list_elem_of_singleton|]. left.
      rewrite lookup_insert_ne in Hk' by done. specialize (Hq k' Hk'). rewrite Eq in Hq. set_solver.
    + cbn. apply insert_non_empty.
    + pose proof (flagged_clear k v c (q ++ [k]) Ek) as Hf. fold c1 in Hf. rewrite Hf.
      assert (size (flagged c) ≠ 0)%nat as Hpos.
      { apply (map_size_ne_0_lookup_2 _ k). exists (v, true). by apply map_lookup_filter_Some. }
      assert (length (stale c1) = length (stale c)) as ->; [|lia].
      unfold stale. rewrite Eq. cbn [c1 queue cache]. rewrite filter_app.
      rewrite (filter_cons_False (λ k', <[k := (v, false)]> (cache c) !! k' = None) k []) by (by rewrite lookup_insert_eq).
      rewrite (filter_cons_False (λ k', cache c !! k' = None) k q) by (by rewrite Ek).
      rewrite filter_nil, app_nil_r. f_equal.
      apply list_filter_iff. intros k'. destruct (decide (k' = k)) as [->|].
      * by rewrite lookup_insert_eq, Ek.
      * by rewrite lookup_insert_ne.
    + exists victim. split; [| |done|done].
      * cbn [c1 cache] in Hc. destruct (decide (victim = k)) as [->|]; [by rewrite Ek|]. by rewrite lookup_insert_ne in Hc.
      * rewrite Hv. pose proof (values_clear k v c (q ++ [k]) Ek) as Hvc. fold c1 in Hvc. by rewrite Hvc.
  - exists k. split; cbn [cache queue capacity].
    + by rewrite Ek.
    + unfold values. cbn [cache]. apply fmap_delete.
    + intros k' Hk'. cbn [cache queue] in *. destruct (decide (k' = k)) as [->|Hkk]; [by rewrite lookup_delete_eq in Hk'; destruct Hk'|].
      rewrite lookup_delete_ne in Hk' by done. specialize (Hq k' Hk'). rewrite Eq in Hq. set_solver.
    + done.
  - set (c1 := mkLru _ _ _). destruct (IH c1) as (victim & [Hc Hv Hq' Hcap]).
    + intros k' Hk'. cbn [c1 cache queue] in *. specialize (Hq k' Hk'). rewrite Eq in Hq.
      apply elem_of_cons in Hq as [->|]; [|done]. rewrite Ek in Hk'. by destruct Hk'.
    + done.
    + unfold stale in *. rewrite Eq in Hn. rewrite filter_cons_True in Hn by done. cbn [length] in Hn.
      change (flagged c1) with (flagged c). cbn [c1 queue cache]. lia.
    + by exists victim.
Qed.

(** Cached keys and stale places share the queue. *)
Lemma queue_room c : queued c → (size (cache c) + length (stale c) ≤ length (queue c))%nat.
Proof.
  intros Hq. set (live := filter (λ k, cache c !! k ≠ None) (queue c)).
  assert (size (cache c) ≤ length live)%nat as Hlive.
  { rewrite <- size_dom. etrans; [apply (subseteq_size _ (list_to_set live : gset K))|].
    - intros k Hk%elem_of_dom. apply elem_of_list_to_set, list_elem_of_filter. split; [|by apply Hq]. by destruct Hk as [x ->].
    - clear. induction live as [|k l IH]; [done|]. cbn [list_to_set length]. pose proof (size_union_alt ({[k]} : gset K) (list_to_set l)).
      pose proof (subseteq_size ((list_to_set l : gset K) ∖ {[k]}) (list_to_set l) ltac:(set_solver)).
      rewrite size_singleton in *. lia. }
  assert (length (queue c) = (length live + length (stale c))%nat) as ->; [|lia].
  unfold live, stale. clear. induction (queue c) as [|k l IH]; [done|]. rewrite !filter_cons.
  destruct (decide (cache c !! k = None)) as [Hk|Hk].
  - rewrite decide_False by tauto. cbn [length]. lia.
  - rewrite decide_True by done. cbn [length]. lia.
Qed.

Lemma evict_one_evicts c : queued c → cache c ≠ ∅ → ∃ victim, evicted c (evict_one c) victim.
Proof.
  intros Hq Hne. apply evict_loop_evicts; [done|done|]. pose proof (queue_room c Hq).
  assert (size (flagged c) ≤ size (cache c))%nat by (apply map_subseteq_size, map_filter_subseteq).
  assert (size (cache c) ≠ 0)%nat by (by apply map_size_non_empty_iff). lia.
Qed.

(** ** Histories *)

Record lru_inv (c : SecondChanceLru) (m : gmap K V) : Prop := {
  li_queued : queued c;
  li_size : (size (cache c) ≤ capacity c)%nat;
  li_values : values c ⊆ m;
}.

Lemma inv_same_keys c m m' k x :
  lru_inv c m → is_Some (cache c !! k) → <[k := x.1]> (values c) ⊆ m' →
  lru_inv (mkLru (<[k := x]> (cache c)) (queue c) (capacity c)) m'.
Proof.
  intros [Hq Hs Hv] Hk Hsub. split; cbn [cache queue capacity].
  - intros k' Hk'. apply Hq. cbn in Hk'. destruct (decide (k' = k)) as [->|]; [done|]. by rewrite lookup_insert_ne in Hk'.
  - destruct Hk as [y Hy]. rewrite map_size_insert, Hy. exact Hs.
  - unfold values. cbn [cache]. rewrite fmap_insert. exact Hsub.
Qed.

Lemma insert_inv c m k v : (1 ≤ capacity c)%nat → lru_inv c m → lru_inv (insert k v c) (<[k := v]> m).
Proof.
  intros Hcap Hi. unfold insert. destruct (cache c !! k) as [x|] eqn:Ek.
  { apply (inv_same_keys c m _ k (v, true)); [done|by rewrite Ek|]. apply insert_mono, Hi. }
  destruct Hi as [Hq Hs Hv].
  assert (∀ c', queued c' → (size (cache c') < capacity c')%nat → cache c' !! k = None → values c' ⊆ m →
    lru_inv (mkLru (<[k := (v, false)]> (cache c')) (queue c' ++ [k]) (capacity c')) (<[k := v]> m)) as Hnew.
  { intros c' Hq' Hs' Hk' Hv'. split; cbn [cache queue capacity].
    - intros k' Hin. cbn [cache queue] in *. apply elem_of_app. destruct (decide (k' = k)) as [->|]; [right; by apply list_elem_of_singleton|].
      left. apply Hq'. by rewrite lookup_insert_ne in Hin.
    - rewrite map_size_insert, Hk'. lia.
    - unfold values. cbn [cache]. rewrite fmap_insert. by apply insert_mono. }
  destruct (capacity c <=? size (cache c))%nat eqn:Ef.
  - apply Nat.leb_le in Ef. assert (cache c ≠ ∅) as Hne by (intros He; rewrite He, map_size_empty in Ef; lia).
    destruct (evict_one_evicts c Hq Hne) as (victim & [Hc Hev Heq Hcp]).
    apply Hnew; [done| | |].
    + rewrite <- (map_size_fmap fst (cache (evict_one c))). fold (values (evict_one c)). rewrite Hev, map_size_delete.
      rewrite values_lookup. destruct Hc as [x ->]. cbn [fmap option_fmap option_map]. rewrite Hcp. unfold values. rewrite map_size_fmap. lia.
    + apply (fmap_None fst). fold (values (evict_one c)). rewrite <- lookup_fmap. fold (values (evict_one c)). rewrite Hev.
      destruct (decide (victim = k)) as [->|]; [by rewrite lookup_delete_eq|]. rewrite lookup_delete_ne by done. by rewrite values_lookup, Ek.
    + rewrite Hev. etrans; [apply delete_subseteq|done].
  - apply Nat.leb_gt in Ef. by apply Hnew.
Qed.

Lemma empty_inv n m : lru_inv (mkLru ∅ [] n) m.
Proof.
  split; cbn [cache capacity].
  - intros k [x Hx]. cbn [cache] in Hx. by rewrite lookup_empty in Hx.
  - rewrite map_size_empty. lia.
  - unfold values. cbn [cache]. rewrite fmap_empty. apply map_empty_subseteq.
Qed.

Lemma apply_op_inv c m o : (1 ≤ capacity c)%nat → lru_inv c m → lru_inv (apply_op c o) (apply_map m o).
Proof.
  intros Hcap Hi. destruct o as [k|k write|k v|k|]; cbn [apply_op apply_map].
  - unfold get. destruct (cache c !! k) as [[v b]|] eqn:Ek; [|done]. cbn [fst].
    apply (inv_same_keys c m m k (v, true)); [done|by rewrite Ek|]. rewrite insert_id; [apply Hi|]. by rewrite values_lookup, Ek.
  - unfold get_mut. destruct (cache c !! k) as [[v b]|] eqn:Ek.
    + apply (inv_same_keys c m _ k (write v, true)); [done|by rewrite Ek|]. cbn [fst].
      assert (m !! k = Some v) as Hk by (eapply lookup_weaken; [|apply Hi]; by rewrite values_lookup, Ek).
      assert (alter write k m = <[k := write v]> m) as -> by (apply map_eq; intros k'; destruct (decide (k' = k)) as [->|];
        [by rewrite lookup_alter_eq, Hk, lookup_insert_eq|by rewrite lookup_alter_ne, lookup_insert_ne]).
      apply insert_mono, Hi.
    + destruct Hi as [Hq Hs Hv]. split; [done|done|]. apply map_subseteq_spec. intros k' v Hk'.
      destruct (decide (k' = k)) as [->|]; [by rewrite values_lookup, Ek in Hk'|]. rewrite lookup_alter_ne by done. by eapply lookup_weaken.
  - by apply insert_inv.
  - destruct Hi as [Hq Hs Hv]. split; cbn [remove fst cache queue capacity].
    + intros k' Hk'. apply Hq. cbn in Hk'. destruct (decide (k' = k)) as [->|]; [by rewrite lookup_delete_eq in Hk'; destruct Hk'|].
      by rewrite lookup_delete_ne in Hk'.
    + etrans; [apply map_subseteq_size, delete_subseteq|done].
    + unfold values. cbn [cache]. rewrite fmap_delete. by apply delete_mono.
  - apply empty_inv.
Qed.

Lemma apply_op_capacity c o : capacity (apply_op c o) = capacity c.
Proof.
  assert (∀ n c, capacity (evict_loop n c) = capacity c) as Hev.
  { clear. induction n as [|n IH]; intros c; cbn [evict_loop]; (destruct (queue c) as [|k q]; [done|]); [done|].
    destruct (cache c !! k) as [[v [|]]|]; [by rewrite IH|done|by rewrite IH]. }
  destruct o as [k|k write|k v|k|]; cbn [apply_op].
  - unfold get. by destruct (cache c !! k) as [[]|].
  - unfold get_mut. by destruct (cache c !! k) as [[]|].
  - unfold insert. destruct (cache c !! k); [done|]. cbn [capacity]. destruct (_ <=? _)%nat; [apply Hev|done].
  - done.
  - done.
Qed.

Lemma values_put c k v b q n : values (mkLru (<[k := (v, b)]> (cache c)) q n) = <[k := v]> (values c).
Proof. unfold values. cbn [cache]. by rewrite fmap_insert. Qed.

(** The values after an insertion. *)
Lemma insert_values c k v :
  queued c →
  match cache c !! k with
  | Some _ => values (insert k v c) = <[k := v]> (values c)
  | None =>
      if (capacity c <=? size (cache c))%nat
      then cache c ≠ ∅ → ∃ victim, is_Some (values c !! victim) ∧ values (insert k v c) = <[k := v]> (delete victim (values c))
      else values (insert k v c) = <[k := v]> (values c)
  end.
Proof.
  intros Hq. unfold insert. destruct (cache c !! k) as [x|] eqn:Ek; [by apply values_put|].
  destruct (capacity c <=? size (cache c))%nat; rewrite values_put; [|done]. intros Hne.
  destruct (evict_one_evicts c Hq Hne) as (victim & [[x Hc] Hev Heq Hcp]). exists victim. split; [by rewrite values_lookup, Hc|].
  by rewrite Hev.
Qed.

(** C37: The cache is a bounded part of a map. After any history with a
    capacity of at least 1, it holds at most that many entries, each with the
    value last written, and every cached key is in the eviction queue. An
    insertion leaves the cached values with the new one put in; when the cache
    is full and the key is new, all of them but exactly one. *)
Theorem cache_is_bounded_part_of_map n ops :
  (1 ≤ n)%nat →
  let c := foldl apply_op (new n) ops in
  (len c ≤ n)%nat ∧ values c ⊆ foldl apply_map ∅ ops ∧ queued c ∧
  (∀ k v,
    if decide (len c = n ∧ values c !! k = None)
    then ∃ victim, is_Some (values c !! victim) ∧ values (insert k v c) = <[k := v]> (delete victim (values c))
    else values (insert k v c) = <[k := v]> (values c)).
Proof.
  intros Hn c. assert (lru_inv c (foldl apply_map ∅ ops) ∧ capacity c = n) as [Hi Hcap].
  { unfold c. assert (lru_inv (new n) ∅) as H0.
    { apply empty_inv. }
    assert (capacity (new n) = n) as Hc0 by done. revert H0 Hc0. generalize (new n) (∅ : gmap K V). clear c.
    induction ops as [|o ops IH]; intros c m Hi Hc; [done|]. cbn [foldl]. apply IH; [|by rewrite apply_op_capacity].
    apply apply_op_inv; [lia|done]. }
  destruct Hi as [Hq Hs Hv]. rewrite Hcap in Hs. split_and!; [done|done|done|].
  intros k v. pose proof (insert_values c k v Hq) as Hins. rewrite Hcap, values_lookup in *. unfold len.
  destruct (cache c !! k) as [x|] eqn:Ek; cbn [fmap option_fmap option_map].
  { rewrite decide_False by naive_solver. exact Hins. }
  destruct (n <=? size (cache c))%nat eqn:Ef; [apply Nat.leb_le in Ef; rewrite decide_True by (split; [lia|done])|apply Nat.leb_gt in Ef; rewrite decide_False by lia; exact Hins].
  apply Hins. intros He. rewrite He, map_size_empty in Ef. lia.
Qed.

(** ** The victim *)

Definition accessed (m : gmap K (V * bool)) (k : K) : bool :=
  match m !! k with Some (_, b) => b | None => false end.

(** The flags of [ks] cleared. *)
Definition clear_flags (ks : list K) (m : gmap K (V * bool)) : gmap K (V * bool) :=
  foldr (λ k m, alter (λ x, (x.1, false)) k m) m ks.

Lemma clear_flags_lookup ks m k :
  clear_flags ks m !! k = if decide (k ∈ ks) then (λ x, (x.1, false)) <$> m !! k else m !! k.
Proof.
  induction ks as [|k' ks IH]; cbn [clear_flags foldr].
  { rewrite decide_False by apply not_elem_of_nil. done. }
  fold (clear_flags ks m). destruct (decide (k = k')) as [->|Hk].
  - rewrite lookup_alter_eq, IH, (decide_True (P := k' ∈ k' :: ks)) by set_solver.
    destruct (decide (k' ∈ ks)); [|done]. by destruct (m !! k').
  - rewrite lookup_alter_ne, IH by done. destruct (decide (k ∈ ks)) as [Hin|Hin].
    + rewrite decide_True by set_solver. done.
    + rewrite decide_False by set_solver. done.
Qed.

(** Entries that were accessed go to the back with their flags cleared. *)
Lemma evict_passes pre n m q cap :
  NoDup pre → Forall (λ k, accessed m k = true) pre →
  evict_loop (length pre + n) (mkLru m (pre ++ q) cap) = evict_loop n (mkLru (clear_flags pre m) (q ++ pre) cap).
Proof.
  revert m q. induction pre as [|k pre IH]; intros m q Hnd Ha; [cbn; by rewrite app_nil_r|].
  apply NoDup_cons in Hnd as [Hk Hnd]. apply Forall_cons in Ha as [Hak Ha]. cbn [length Nat.add app evict_loop queue cache capacity].
  unfold accessed in Hak. destruct (m !! k) as [[v [|]]|] eqn:Em; [|done..]. rewrite <- app_assoc. rewrite IH; [|done|].
  - f_equal. rewrite <- app_assoc. f_equal. apply map_eq. intros k'. rewrite !clear_flags_lookup.
    destruct (decide (k' = k)) as [->|Hkk].
    + rewrite decide_False by done. rewrite lookup_insert_eq, decide_True, Em by set_solver. done.
    + rewrite lookup_insert_ne by done. destruct (decide (k' ∈ pre)); [rewrite decide_True by set_solver|rewrite decide_False by set_solver]; done.
  - apply Forall_forall. intros k' Hk'. rewrite Forall_forall in Ha. specialize (Ha k' Hk'). unfold accessed in *.
    rewrite lookup_insert_ne by (intros ->; done). done.
Qed.

(** The victim of an eviction, in a cache from which nothing was removed: the
    first entry of the queue that was not accessed, or its first one when all
    were; the entries passed over lose their flags and go to the back. *)
Theorem victim_had_its_chance c :
  NoDup (queue c) → (∀ k, k ∈ queue c ↔ is_Some (cache c !! k)) →
  (∀ pre k post, queue c = pre ++ k :: post → Forall (λ k, accessed (cache c) k = true) pre → accessed (cache c) k = false →
     evict_one c = mkLru (delete k (clear_flags pre (cache c))) (post ++ pre) (capacity c)) ∧
  (∀ k post, queue c = k :: post → Forall (λ k, accessed (cache c) k = true) (queue c) →
     evict_one c = mkLru (delete k (clear_flags (queue c) (cache c))) post (capacity c)).
Proof.
  intros Hnd Hdom. unfold evict_one. destruct c as [m q cap]. cbn [cache queue capacity] in *. split.
  - intros pre k post -> Hpre Hk. apply NoDup_app in Hnd as (Hnd & Hdis & _).
    assert (is_Some (m !! k)) as [[v b] Hv] by (apply Hdom; set_solver).
    unfold accessed in Hk. rewrite Hv in Hk. subst b. rewrite length_app. cbn [length].
    replace ((length pre + S (length post)) * 2)%nat with (length pre + S (length pre + 2 * length post + 1))%nat by lia.
    rewrite evict_passes by done. cbn [app evict_loop queue cache capacity]. rewrite clear_flags_lookup, decide_False, Hv; [done|].
    intros Hin. by apply (Hdis k Hin), list_elem_of_here.
  - intros k post -> Hall. assert (is_Some (m !! k)) as [[v b] Hv] by (apply Hdom; set_solver).
    replace (length (k :: post) * 2)%nat with (length (k :: post) + S (length post))%nat by (cbn; lia).
    pose proof (evict_passes (k :: post) (S (length post)) m [] cap Hnd Hall) as Hp. rewrite app_nil_r in Hp. rewrite Hp.
    cbn [app evict_loop queue cache capacity]. rewrite clear_flags_lookup, decide_True, Hv by set_solver. done.
Qed.

(** A key that is inserted and removed again and again stays in the queue
    once for each time, in a cache that is empty. *)
Theorem removed_keys_pile_up n k v rounds :
  (1 ≤ n)%nat →
  let c := foldl apply_op (new n) (concat (replicate rounds [Insert k v; Remove k])) in
  len c = 0%nat ∧ length (queue c) = rounds.
Proof.
  intros Hn. assert (∀ q, foldl apply_op (mkLru ∅ q n) (concat (replicate rounds [Insert k v; Remove k])) =
    mkLru ∅ (q ++ replicate rounds k) n) as Hrun.
  { induction rounds as [|r IH]; intros q; [cbn; by rewrite app_nil_r|]. cbn [replicate concat app foldl apply_op].
    unfold insert. cbn [cache capacity queue]. rewrite lookup_empty, map_size_empty.
    rewrite (proj2 (Nat.leb_gt n 0)) by lia. cbn [remove fst cache queue capacity].
    rewrite insert_empty, delete_singleton_eq, IH. by rewrite <- app_assoc. }
  cbn zeta. unfold new. rewrite Hrun. unfold len. cbn [cache queue app]. rewrite map_size_empty, length_replicate. done.
Qed.
End cache.

(** A cache of capacity 0 holds the entry inserted last. *)
Theorem capacity_zero_holds_one : len (insert 1%nat 7 (new 0)) = 1%nat.
Proof. vm_compute. reflexivity. Qed.

(** An entry removed and inserted again is evicted before an older one. *)
Theorem reinserted_entry_goes_first :
  let c := foldl apply_op (new 2) [Insert 1%nat 10; Insert 2%nat 20; Remove 1%nat; Insert 1%nat 11; Insert 3%nat 30] in
  contains_key 1%nat c = false ∧ contains_key 2%nat c = true.
Proof. vm_compute. done. Qed.

Definition sample_lru : @SecondChanceLru nat Z _ _ :=
  foldl apply_op (new 3) [Insert 1%nat 10; Insert 2%nat 20; Insert 3%nat 30; Get 1%nat].

(** A full cache of two entries, and the insertion of a third. *)
Lemma cache_is_bounded_part_of_map_witness :
  let c := foldl apply_op (new 2) [Insert 1%nat 10; Insert 2%nat 20] in
  (len c ≤ 2)%nat ∧ values (insert 3%nat 30 c) !! 1%nat = None ∧
  ∃ victim, is_Some (values c !! victim) ∧ values (insert 3%nat 30 c) = <[3%nat := 30]> (delete victim (values c)).
Proof.
  cbv zeta. set (c := foldl apply_op (new 2) [Insert 1%nat 10; Insert 2%nat 20]).
  destruct (cache_is_bounded_part_of_map 2 [Insert 1%nat 10; Insert 2%nat 20] ltac:(lia)) as (Hl & _ & _ & Hins). fold c in Hl, Hins.
  split; [exact Hl|]. split; [vm_compute; reflexivity|]. specialize (Hins 3%nat 30).
  rewrite decide_True in Hins; [exact Hins|]. split; vm_compute; reflexivity.
Defined.

Lemma sample_lru_keys k : k ∈ queue sample_lru ↔ is_Some (cache sample_lru !! k).
Proof.
  assert (cache sample_lru = <[1%nat := (10, true)]> (<[2%nat := (20, false)]> {[3%nat := (30, false)]})) as -> by (vm_compute; reflexivity).
  assert (queue sample_lru = [1; 2; 3]%nat) as -> by (vm_compute; reflexivity).
  rewrite !lookup_insert_is_Some', lookup_singleton_is_Some. set_solver.
Qed.

Lemma victim_had_its_chance_witness :
  evict_one sample_lru = mkLru (delete 2%nat (clear_flags [1%nat] (cache sample_lru))) [3%nat; 1%nat] 3.
Proof.
  apply (proj1 (victim_had_its_chance sample_lru ltac:(vm_compute; repeat constructor; set_solver) sample_lru_keys) [1%nat] 2%nat [3%nat]).
  - vm_compute. reflexivity.
  - constructor; [vm_compute; reflexivity|constructor].
  - vm_compute. reflexivity.
Defined.
End SecondChanceLru.
