(* ===== verification/Date.v ===== *)
(** * Calendar dates

    Model of [src/crates/grafeo-common/src/types/date.rs]: a date is its
    [i32] of days since 1970-01-01, and Hinnant's algorithms turn it into
    year, month and day and back. Strings are lists of bytes. Of [Duration]
    the months and days are used. Operations on [i32] and [i64] that
    overflow panic with [debug] and wrap without it; an outer [option] is
    that panic. The [u32]s of the algorithms stay far below their bound. *)
From S2P Require Import Prelude.

#[local] Ltac Zify.zify_post_hook ::= Z.to_euclidean_division_equations.

Definition is_i32 (x : Z) : Prop := - 2 ^ 31 ≤ x < 2 ^ 31.
Definition i32_max : Z := 2 ^ 31 - 1.
Definition i32_min : Z := - 2 ^ 31.

(** [x] as an integer of [bits] bits, two's complement. *)
Definition signed (bits x : Z) : Z := (x + 2 ^ (bits - 1)) mod 2 ^ bits - 2 ^ (bits - 1).

Definition checked_op (bits : Z) (debug : bool) (x : Z) : option Z :=
  if debug && negb ((- 2 ^ (bits - 1) <=? x) && (x <? 2 ^ (bits - 1))) then None else Some (signed bits x).

(** [i32::try_from(x).unwrap_or(MIN or MAX)]. *)
Definition saturate (x : Z) : Z :=
  if (i32_min <=? x) && (x <=? i32_max) then x else if x <? 0 then i32_min else i32_max.

Definition is_leap_year (year : Z) : bool :=
  (Z.rem year 4 =? 0) && negb (Z.rem year 100 =? 0) || (Z.rem year 400 =? 0).

Definition days_in_month (year month : Z) : Z :=
  match month with
  | 1 | 3 | 5 | 7 | 8 | 10 | 12 => 31
  | 4 | 6 | 9 | 11 => 30
  | 2 => if is_leap_year year then 29 else 28
  | _ => 0
  end.

Definition days_from_civil (debug : bool) (year month day : Z) : option Z :=
  y ← (if month <=? 2 then checked_op 32 debug (year - 1) else Some year);
  let era := y / 400 in
  let yoe := y mod 400 in
  let doy := (153 * (if 2 <? month then month - 3 else month + 9) + 2) / 5 + day - 1 in
  let doe := yoe * 365 + yoe / 4 - yoe / 100 + doy in
  let days := era * 146097 + doe - 719468 in
  Some (saturate days).

Definition civil_from_days (days : Z) : Z * Z * Z :=
  let z := days + 719468 in
  let era := z / 146097 in
  let doe := z mod 146097 in
  let yoe := (doe - doe / 1460 + doe / 36524 - doe / 146096) / 365 in
  let y := yoe + era * 400 in
  let doy := doe - (365 * yoe + yoe / 4 - yoe / 100) in
  let mp := (5 * doy + 2) / 153 in
  let d := doy - (153 * mp + 2) / 5 + 1 in
  let m := if mp <? 10 then mp + 3 else mp - 9 in
  let y := if m <=? 2 then y + 1 else y in
  (signed 32 y, m, d).

Module Date.
(** [None] is a panic, [Some None] an invalid date. *)
Definition from_ymd (debug : bool) (year month day : Z) : option (option Z) :=
  if negb ((1 <=? month) && (month <=? 12)) || negb ((1 <=? day) && (day <=? 31)) then Some None else
  if days_in_month year month <? day then Some None else
  Some <$> days_from_civil debug year month day.

Definition to_ymd (date : Z) : Z * Z * Z := civil_from_days date.

Record Duration : Type := mkDuration { months : Z; days : Z; nanos : Z }.

Definition add_duration (debug : bool) (date : Z) (dur : Duration) : option Z :=
  let '(y, m, d) := to_ymd date in
  '(y, m, d) ←
    (if months dur =? 0 then Some (y, m, d) else
     total ← checked_op 64 debug (y * 12 + (m - 1) + months dur);
     let y := saturate (total / 12) in
     let m := total mod 12 + 1 in
     Some (y, m, Z.min d (days_in_month y m)));
  days0 ← days_from_civil debug y m d;
  days ← checked_op 64 debug (days0 + days dur);
  Some (saturate days).

Definition neg (debug : bool) (dur : Duration) : option Duration :=
  m ← checked_op 64 debug (- months dur);
  d ← checked_op 64 debug (- days dur);
  n ← checked_op 64 debug (- nanos dur);
  Some (mkDuration m d n).

Definition sub_duration (debug : bool) (date : Z) (dur : Duration) : option Z :=
  dur ← neg debug dur; add_duration debug date dur.

(** The unit names of [truncate]. *)
Inductive unit_name : Set := Year | Month | Day | Other.

Definition truncate (debug : bool) (date : Z) (u : unit_name) : option (option Z) :=
  let '(y, m, _) := to_ymd date in
  match u with
  | Year => from_ymd debug y 1 1
  | Month => from_ymd debug y m 1
  | Day => Some (Some date)
  | Other => Some None
  end.

(** ** Text *)

(** [str::parse] of digits after an optional [+], up to [max]. *)
Fixpoint parse_digits (max acc : Z) (s : list Z) : option Z :=
  match s with
  | [] => Some acc
  | c :: s =>
      if (48 <=? c) && (c <=? 57) then
        let acc := acc * 10 + (c - 48) in
        if max <? acc then None else parse_digits max acc s
      else None
  end.

Definition parse_int (max : Z) (s : list Z) : option Z :=
  match s with
  | [] => None
  | c :: s' =>
      let digits := if c =? 43 then s' else s in
      match digits with [] => None | _ => parse_digits max 0 digits end
  end.

(** The text before the first [-] and the text behind it, if there is one. *)
Fixpoint split_dash (s : list Z) : list Z * option (list Z) :=
  match s with
  | [] => ([], None)
  | c :: s => if c =? 45 then ([], Some s) else let '(a, b) := split_dash s in (c :: a, b)
  end.

(** The three parts of a date behind its sign. *)
Definition parse_parts (debug negative : bool) (s : list Z) : option (option Z) :=
  let '(p0, rest) := split_dash s in
  match rest with
  | None => Some None
  | Some rest =>
      let '(p1, rest) := split_dash rest in
      match rest with
      | None => Some None
      | Some p2 =>
          match parse_int i32_max p0, parse_int u32_max p1, parse_int u32_max p2 with
          | Some year, Some month, Some day =>
              year ← (if negative then checked_op 32 debug (- year) else Some year);
              from_ymd debug year month day
          | _, _, _ => Some None
          end
      end
  end.

Definition parse (debug : bool) (s : list Z) : option (option Z) :=
  match s with
  | c :: rest => if c =? 45 then parse_parts debug true rest else parse_parts debug false s
  | [] => parse_parts debug false []
  end.

(** Decimal digits, most significant first, and the padding of a width. *)
Fixpoint decimal (fuel : nat) (n : Z) : list Z :=
  match fuel with
  | O => []
  | S fuel => if n <? 10 then [48 + n] else decimal fuel (n / 10) ++ [48 + n mod 10]
  end.

Definition padded (width : nat) (n : Z) : list Z :=
  let s := decimal 10 n in replicate (width - length s) 48 ++ s.

Definition fmt (date : Z) : list Z :=
  let '(y, m, d) := civil_from_days date in
  if y <? 0 then 45 :: padded 4 (- y) ++ 45 :: padded 2 m ++ 45 :: padded 2 d
  else padded 4 y ++ 45 :: padded 2 m ++ 45 :: padded 2 d.
End Date.

(** ** The calendar *)

(** The day after a date, by the lengths of the months. *)
Definition next_day (ymd : Z * Z * Z) : Z * Z * Z :=
  let '(y, m, d) := ymd in
  if d <? days_in_month y m then (y, m, d + 1) else if m <? 12 then (y, m + 1, 1) else (y + 1, 1, 1).

Definition valid_date (y m d : Z) : Prop := 1 ≤ m ≤ 12 ∧ 1 ≤ d ≤ days_in_month y m.

(** The days before a year that begins in March, within its era. *)
Definition year_start (yoe : Z) : Z := yoe * 365 + yoe / 4 - yoe / 100.
Definition year_of (doe : Z) : Z := (doe - doe / 1460 + doe / 36524 - doe / 146096) / 365.
(** Its last day of era. *)
Definition year_last (yoe : Z) : Z := if yoe =? 399 then 146096 else year_start (yoe + 1) - 1.

Lemma year_of_mono a b : 0 ≤ a ≤ b → b < 146097 → year_of a ≤ year_of b.
Proof.
  intros Ha Hb. assert (∀ n, (Z.of_nat n + a < 146097) → year_of a ≤ year_of (Z.of_nat n + a)) as Hn.
  { induction n as [|n IH]; intros Hlt; [done|]. etrans; [apply IH; lia|]. unfold year_of. apply Z.div_le_mono; [lia|].
    replace (Z.of_nat (S n) + a) with (Z.of_nat n + a + 1) by lia. set (x := Z.of_nat n + a) in *.
    assert (0 ≤ x < 146096) by lia. assert (x / 146096 = 0) as -> by (apply Z.div_small; lia).
    pose proof (Z.div_mod x 1460). pose proof (Z.mod_pos_bound x 1460). pose proof (Z.div_mod (x + 1) 1460).
    pose proof (Z.mod_pos_bound (x + 1) 1460). pose proof (Z.div_le_mono x (x + 1) 36524).
    destruct (decide (x + 1 = 146096)) as [E|]; [replace x with 146095 by lia; vm_compute; congruence|].
    assert ((x + 1) / 146096 = 0) as -> by (apply Z.div_small; lia). lia. }
  specialize (Hn (Z.to_nat (b - a))). rewrite Z2Nat.id in Hn by lia. replace (b - a + a) with b in Hn by lia. by apply Hn.
Qed.

Lemma year_ends yoe : 0 ≤ yoe < 400 → year_of (year_start yoe) = yoe ∧ year_of (year_last yoe) = yoe.
Proof.
  assert (forallb (λ n, (year_of (year_start (Z.of_nat n)) =? Z.of_nat n) && (year_of (year_last (Z.of_nat n)) =? Z.of_nat n)) (seq 0 400) = true)
    as Hall by (vm_compute; reflexivity).
  intros Hy. rewrite forallb_forall in Hall. specialize (Hall (Z.to_nat yoe) ltac:(apply in_seq; lia)).
  rewrite Z2Nat.id in Hall by lia. bool_to_prop. done.
Qed.

Lemma year_of_day yoe doe : 0 ≤ yoe < 400 → year_start yoe ≤ doe ≤ year_last yoe → year_of doe = yoe.
Proof.
  intros Hy Hd. destruct (year_ends yoe Hy) as [H1 H2].
  assert (0 ≤ year_start yoe) by (unfold year_start; lia).
  assert (year_last yoe < 146097) by (unfold year_last, year_start; destruct (yoe =? 399) eqn:E; bool_to_prop; lia).
  pose proof (year_of_mono (year_start yoe) doe). pose proof (year_of_mono doe (year_last yoe)). lia.
Qed.

Lemma day_in_year doe : 0 ≤ doe < 146097 →
  0 ≤ year_of doe < 400 ∧ year_start (year_of doe) ≤ doe ≤ year_last (year_of doe).
Proof.
  intros Hd. assert (0 ≤ year_of doe < 400) as Hy by (unfold year_of; lia). split; [done|].
  destruct (year_ends _ Hy) as [H1 H2].
  assert (year_last (year_of doe) < 146097) by (unfold year_last, year_start; destruct (year_of doe =? 399) eqn:E; bool_to_prop; lia).
  split; apply Z.nlt_ge; intros Hlt.
  - destruct (decide (year_of doe = 0)) as [E|E]; [rewrite E in Hlt; unfold year_start in Hlt; cbn in Hlt; lia|].
    destruct (year_ends (year_of doe - 1) ltac:(lia)) as [_ H3].
    assert (year_last (year_of doe - 1) = year_start (year_of doe) - 1) as Hl.
    { unfold year_last. replace (year_of doe - 1 =? 399) with false by (symmetry; apply Z.eqb_neq; lia). f_equal. f_equal. lia. }
    rewrite Hl in H3. pose proof (year_of_mono doe (year_start (year_of doe) - 1)).
    assert (year_start (year_of doe) < 146097) by (unfold year_start; lia). lia.
  - destruct (decide (year_of doe = 399)) as [E|E]; [rewrite E in Hlt; cbn in Hlt; lia|].
    destruct (year_ends (year_of doe + 1) ltac:(lia)) as [H3 _].
    assert (year_last (year_of doe) = year_start (year_of doe + 1) - 1) as Hl.
    { unfold year_last. by replace (year_of doe =? 399) with false by (symmetry; apply Z.eqb_neq; lia). }
    rewrite Hl in Hlt. assert (0 ≤ year_start (year_of doe + 1)) by (unfold year_start; lia).
    pose proof (year_of_mono (year_start (year_of doe + 1)) doe). lia.
Qed.

(** ** Months *)

(** Months count from March, so that February ends the year. *)
Definition march_month (m : Z) : Z := if 2 <? m then m - 3 else m + 9.
Definition month_start (mp : Z) : Z := (153 * mp + 2) / 5.
Definition civil_month (mp : Z) : Z := if mp <? 10 then mp + 3 else mp - 9.

Lemma is_leap_mod y :
  is_leap_year y = true ↔ (y mod 4 = 0 ∧ y mod 100 ≠ 0) ∨ y mod 400 = 0.
Proof.
  unfold is_leap_year. rewrite orb_true_iff, andb_true_iff, negb_true_iff, !Z.eqb_eq, Z.eqb_neq.
  rewrite !Z.rem_divide, <- !Z.mod_divide by lia. done.
Qed.

(** A year that begins in March has 366 days when the February that ends it
    is a leap year's. *)
Lemma year_length era yoe : 0 ≤ yoe < 400 →
  year_last yoe - year_start yoe = if is_leap_year (era * 400 + yoe + 1) then 365 else 364.
Proof.
  intros Hy. pose proof (is_leap_mod (era * 400 + yoe + 1)) as Hl.
  assert ((era * 400 + yoe + 1) mod 4 = (yoe + 1) mod 4) as E1 by lia.
  assert ((era * 400 + yoe + 1) mod 100 = (yoe + 1) mod 100) as E2 by lia.
  assert ((era * 400 + yoe + 1) mod 400 = (yoe + 1) mod 400) as E3 by lia.
  rewrite E1, E2, E3 in Hl. unfold year_last, year_start.
  destruct (is_leap_year (era * 400 + yoe + 1)).
  - destruct (proj1 Hl eq_refl) as [[? ?]|?]; (destruct (yoe =? 399) eqn:E; bool_to_prop; [subst; lia|]); lia.
  - assert (¬ ((yoe + 1) mod 4 = 0 ∧ (yoe + 1) mod 100 ≠ 0) ∧ (yoe + 1) mod 400 ≠ 0) as [Hn1 Hn2] by (split; intros ?; apply Bool.diff_false_true, Hl; tauto).
    destruct (yoe =? 399) eqn:E; bool_to_prop; [subst; done|]. lia.
Qed.

(** The lengths of the months from March on, February's by the leap year. *)
Lemma month_length y m :
  1 ≤ m ≤ 12 →
  days_in_month y m = (if march_month m =? 11 then (if is_leap_year y then 366 else 365) else month_start (march_month m + 1)) - month_start (march_month m) ∧
  0 ≤ march_month m ≤ 11 ∧ civil_month (march_month m) = m.
Proof.
  intros Hm. assert (m = 1 ∨ m = 2 ∨ m = 3 ∨ m = 4 ∨ m = 5 ∨ m = 6 ∨ m = 7 ∨ m = 8 ∨ m = 9 ∨ m = 10 ∨ m = 11 ∨ m = 12) as Hc by lia.
  destruct Hc as [Hc|[Hc|[Hc|[Hc|[Hc|[Hc|[Hc|[Hc|[Hc|[Hc|[Hc|Hc]]]]]]]]]]]; subst m; (split; [|split; [vm_compute; split; congruence|reflexivity]]);
    try reflexivity. unfold days_in_month. by destruct (is_leap_year y).
Qed.

Lemma month_of_day mp doy :
  0 ≤ mp ≤ 11 → month_start mp ≤ doy → (mp < 11 → doy < month_start (mp + 1)) → doy ≤ 365 → (5 * doy + 2) / 153 = mp.
Proof. unfold month_start. intros. destruct (decide (mp = 11)); lia. Qed.

Lemma day_in_month doy :
  0 ≤ doy ≤ 365 →
  let mp := (5 * doy + 2) / 153 in 0 ≤ mp ≤ 11 ∧ month_start mp ≤ doy ∧ (mp < 11 → doy < month_start (mp + 1)).
Proof. intros Hd. unfold month_start. lia. Qed.

(** ** Both ways, without bounds *)

Definition march_year (y m : Z) : Z := if m <=? 2 then y - 1 else y.

Definition day_number (y m d : Z) : Z :=
  let y' := march_year y m in
  y' / 400 * 146097 + (year_start (y' mod 400) + (month_start (march_month m) + d - 1)) - 719468.

Definition civil (days : Z) : Z * Z * Z :=
  let z := days + 719468 in
  let doe := z mod 146097 in
  let yoe := year_of doe in
  let doy := doe - year_start yoe in
  let mp := (5 * doy + 2) / 153 in
  let m := civil_month mp in
  let y := yoe + z / 146097 * 400 in
  (if m <=? 2 then y + 1 else y, m, doy - month_start mp + 1).

Lemma march_month_le2 m : 1 ≤ m ≤ 12 → (m <=? 2) = (9 <? march_month m).
Proof. intros Hm. unfold march_month. destruct (2 <? m) eqn:E, (m <=? 2) eqn:E2; bool_to_prop; symmetry; first [apply Z.ltb_lt; lia|apply Z.ltb_ge; lia]. Qed.

Lemma civil_day_number y m d : valid_date y m d → civil (day_number y m d) = (y, m, d).
Proof.
  intros [Hm Hd]. destruct (month_length y m Hm) as (Hlen & Hmp & Hback). unfold civil, day_number.
  set (y' := march_year y m). set (yoe := y' mod 400). set (doy := month_start (march_month m) + d - 1).
  assert (0 ≤ yoe < 400) as Hyoe by (unfold yoe; lia).
  assert (year_last yoe - year_start yoe = if is_leap_year (y' + 1) then 365 else 364) as Hyl.
  { rewrite (year_length (y' / 400) yoe Hyoe). by replace (y' / 400 * 400 + yoe + 1) with (y' + 1) by (unfold yoe; lia). }
  assert (0 ≤ doy ∧ doy ≤ year_last yoe - year_start yoe ∧ (march_month m < 11 → doy < month_start (march_month m + 1))) as (Hd0 & Hd1 & Hd2).
  { rewrite Hyl. unfold doy. rewrite Hlen in Hd. destruct (march_month m =? 11) eqn:E; bool_to_prop.
    - rewrite E in *. assert (y' + 1 = y) as Hy'. { unfold y', march_year. rewrite march_month_le2 by done. rewrite E. cbn. lia. }
      rewrite Hy'. unfold month_start in *. destruct (is_leap_year y); lia.
    - unfold month_start in *. destruct (is_leap_year (y' + 1)); lia. }
  assert (0 ≤ year_start yoe) by (unfold year_start; lia).
  assert (year_last yoe < 146097) by (unfold year_last, year_start; destruct (yoe =? 399) eqn:E; bool_to_prop; lia).
  assert (doy ≤ 365) by (rewrite Hyl in Hd1; destruct (is_leap_year (y' + 1)); lia).
  replace (y' / 400 * 146097 + (year_start yoe + doy) - 719468 + 719468) with (y' / 400 * 146097 + (year_start yoe + doy)) by lia.
  assert ((y' / 400 * 146097 + (year_start yoe + doy)) mod 146097 = year_start yoe + doy) as ->.
  { rewrite Z.add_comm, Z.mod_add by lia. apply Z.mod_small. lia. }
  assert ((y' / 400 * 146097 + (year_start yoe + doy)) / 146097 = y' / 400) as ->.
  { rewrite Z.div_add_l by lia. rewrite (Z.div_small (_ + doy)) by lia. lia. }
  rewrite (year_of_day yoe) by lia. rewrite (Z.add_simpl_l (year_start yoe) doy).
  rewrite (month_of_day (march_month m) doy); [|done|unfold doy; lia|done|done]. rewrite Hback.
  f_equal; [f_equal|unfold doy; lia]. unfold yoe, y', march_year. destruct (m <=? 2); lia.
Qed.

Lemma day_number_civil days y m d : civil days = (y, m, d) → valid_date y m d ∧ day_number y m d = days.
Proof.
  unfold civil. set (z := days + 719468). set (doe := z mod 146097). set (yoe := year_of doe). set (doy := doe - year_start yoe).
  set (mp := (5 * doy + 2) / 153). intros Heq. injection Heq as <- <- <-.
  assert (0 ≤ doe < 146097) as Hdoe by (unfold doe; lia). destruct (day_in_year doe Hdoe) as [Hyoe Hy]. fold yoe in Hyoe, Hy.
  pose proof (year_length (z / 146097) yoe Hyoe) as Hyl.
  assert (0 ≤ doy ≤ 365) as Hdoy by (unfold doy; destruct (is_leap_year _); lia).
  destruct (day_in_month doy Hdoy) as (Hmp & Hs & He). fold mp in Hmp, Hs, He.
  assert (1 ≤ civil_month mp ≤ 12 ∧ march_month (civil_month mp) = mp ∧ (civil_month mp <=? 2) = (9 <? mp)) as (Hm & Hback & Hle).
  { unfold civil_month, march_month. destruct (mp <? 10) eqn:E; bool_to_prop.
    - split; [lia|]. split; [|].
      + destruct (2 <? mp + 3) eqn:E2; bool_to_prop; lia.
      + rewrite (proj2 (Z.leb_gt _ _)), (proj2 (Z.ltb_ge _ _)) by lia. done.
    - split; [lia|]. split.
      + destruct (2 <? mp - 9) eqn:E2; bool_to_prop; lia.
      + rewrite (proj2 (Z.leb_le _ _)), (proj2 (Z.ltb_lt _ _)) by lia. done. }
  set (y := if civil_month mp <=? 2 then yoe + z / 146097 * 400 + 1 else yoe + z / 146097 * 400).
  assert (march_year y (civil_month mp) = z / 146097 * 400 + yoe) as Hmy by (unfold march_year, y; destruct (civil_month mp <=? 2); lia).
  destruct (month_length y (civil_month mp) Hm) as (Hlen & _ & _). rewrite Hback in Hlen. split.
  - split; [done|]. rewrite Hlen. split; [lia|]. destruct (mp =? 11) eqn:E; bool_to_prop; [|lia].
    assert (y = z / 146097 * 400 + yoe + 1) as Hy1 by (unfold y; rewrite Hle, E; cbn; lia).
    rewrite Hy1. destruct (is_leap_year _); unfold doy in *; lia.
  - unfold day_number. rewrite Hmy, Hback. assert ((z / 146097 * 400 + yoe) / 400 = z / 146097) as -> by lia.
    assert ((z / 146097 * 400 + yoe) mod 400 = yoe) as -> by lia. unfold doy, doe, z. lia.
Qed.

(** ** The code's functions *)

Lemma signed_small bits x : 0 < bits → - 2 ^ (bits - 1) ≤ x < 2 ^ (bits - 1) → signed bits x = x.
Proof.
  intros Hb Hx. unfold signed. rewrite Z.mod_small; [lia|].
  assert (2 ^ bits = 2 * 2 ^ (bits - 1)) as -> by (rewrite <- Z.pow_succ_r by lia; f_equal; lia). lia.
Qed.

Lemma checked_op_small bits debug x : 0 < bits → - 2 ^ (bits - 1) ≤ x < 2 ^ (bits - 1) → checked_op bits debug x = Some x.
Proof.
  intros Hb Hx. unfold checked_op. rewrite (proj2 (Z.leb_le _ _)), (proj2 (Z.ltb_lt _ _)) by apply Hx.
  cbn [andb negb]. rewrite andb_false_r. by rewrite signed_small.
Qed.

Lemma saturate_small x : is_i32 x → saturate x = x.
Proof. intros Hx. unfold saturate, is_i32, i32_min, i32_max in *. rewrite (proj2 (Z.leb_le _ _)), (proj2 (Z.leb_le _ _)) by lia. done. Qed.

(** Years of [i32] days. *)
Lemma civil_year n y m d : is_i32 n → civil n = (y, m, d) → -6000000 < y < 6000000.
Proof.
  intros Hn. unfold civil. set (z := n + 719468). assert (0 ≤ z mod 146097 < 146097) as Hdoe by lia.
  destruct (day_in_year _ Hdoe) as [Hy _]. intros Heq. injection Heq as <- _ _. unfold is_i32 in Hn.
  assert (-14700 ≤ z / 146097 ≤ 14704) by lia. destruct (_ <=? 2); lia.
Qed.

Lemma civil_from_days_civil n : is_i32 n → civil_from_days n = civil n.
Proof.
  intros Hn. destruct (civil n) as [[y m] d] eqn:E. pose proof (civil_year n y m d Hn E) as Hy.
  assert (civil_from_days n = let '(y, m, d) := civil n in (signed 32 y, m, d)) as ->.
  { unfold civil_from_days, civil. cbv zeta. set (doe := (n + 719468) mod 146097). fold (year_of doe).
    replace (365 * year_of doe + year_of doe / 4 - year_of doe / 100) with (year_start (year_of doe)) by (unfold year_start; lia).
    reflexivity. }
  rewrite E. do 2 f_equal. apply signed_small; lia.
Qed.

Lemma days_from_civil_number debug y m d :
  is_i32 y → y ≠ i32_min ∨ 2 < m → days_from_civil debug y m d = Some (saturate (day_number y m d)).
Proof.
  intros Hy Hmin. unfold days_from_civil, day_number, march_year.
  assert ((if m <=? 2 then checked_op 32 debug (y - 1) else Some y) = Some (if m <=? 2 then y - 1 else y)) as ->.
  { destruct (m <=? 2) eqn:E; [|done]. bool_to_prop. apply checked_op_small; unfold is_i32, i32_min in *; lia. }
  cbn [mbind option_bind]. set (y' := if m <=? 2 then y - 1 else y). reflexivity.
Qed.

Lemma days_in_month_bound y m : 0 ≤ days_in_month y m ≤ 31.
Proof. unfold days_in_month. destruct (is_leap_year y); repeat case_match; lia. Qed.

Lemma from_ymd_valid debug y m d :
  is_i32 y → valid_date y m d → y ≠ i32_min ∨ 2 < m → Date.from_ymd debug y m d = Some (Some (saturate (day_number y m d))).
Proof.
  intros Hy [Hm Hd] Hmin. unfold Date.from_ymd. pose proof (days_in_month_bound y m).
  rewrite !(proj2 (Z.leb_le _ _)) by lia. cbn [andb negb orb]. rewrite (proj2 (Z.ltb_ge _ _)) by lia.
  by rewrite days_from_civil_number.
Qed.

Lemma year_next y' : y' / 400 * 146097 + year_last (y' mod 400) + 1 = (y' + 1) / 400 * 146097 + year_start ((y' + 1) mod 400).
Proof.
  unfold year_last. destruct (y' mod 400 =? 399) eqn:E; bool_to_prop.
  - assert ((y' + 1) / 400 = y' / 400 + 1) as -> by lia. assert ((y' + 1) mod 400 = 0) as -> by lia. change (year_start 0) with 0. lia.
  - assert ((y' + 1) / 400 = y' / 400) as -> by lia. assert ((y' + 1) mod 400 = y' mod 400 + 1) as -> by lia. lia.
Qed.

Lemma next_day_number y m d :
  valid_date y m d → let '(y', m', d') := next_day (y, m, d) in valid_date y' m' d' ∧ day_number y' m' d' = day_number y m d + 1.
Proof.
  intros [Hm Hd]. unfold next_day. destruct (d <? days_in_month y m) eqn:Ed; bool_to_prop.
  { split; [split; [done|lia]|]. unfold day_number. lia. }
  assert (d = days_in_month y m) as Hdm by lia. destruct (month_length y m Hm) as (Hlen & Hmp & _). rewrite Hlen in Hdm.
  assert (∀ y m, 1 ≤ m ≤ 12 → 1 ≤ days_in_month y m) as Hpos.
  { intros y0 m0 Hm0. destruct (month_length y0 m0 Hm0) as (-> & Hmp0 & _). unfold month_start.
    destruct (march_month m0 =? 11) eqn:E; bool_to_prop; [rewrite E; destruct (is_leap_year y0); vm_compute; congruence|lia]. }
  destruct (m <? 12) eqn:Em; bool_to_prop.
  - split; [split; [lia|]; specialize (Hpos y (m + 1)); lia|]. unfold day_number. destruct (decide (m = 2)) as [->|Hm2].
    + change (march_month 2) with 11 in *. change (march_month (2 + 1)) with 0. cbn [Z.eqb Pos.eqb] in Hdm.
      change (march_year y (2 + 1)) with y. change (march_year y 2) with (y - 1).
      pose proof (year_next (y - 1)) as Hn. replace (y - 1 + 1) with y in Hn by lia.
      pose proof (year_length ((y - 1) / 400) ((y - 1) mod 400) ltac:(lia)) as Hyl.
      replace ((y - 1) / 400 * 400 + (y - 1) mod 400 + 1) with y in Hyl by lia.
      change (month_start 0) with 0. change (month_start 11) with 337 in *. clear Hlen Ed Hd. destruct (is_leap_year y); lia.
    + assert (march_month (m + 1) = march_month m + 1 ∧ march_month m ≠ 11) as [Hmm Hne].
      { unfold march_month. destruct (2 <? m) eqn:E1, (2 <? m + 1) eqn:E2; bool_to_prop; lia. }
      assert (march_year y (m + 1) = march_year y m) as ->.
      { unfold march_year. destruct (m <=? 2) eqn:E1, (m + 1 <=? 2) eqn:E2; bool_to_prop; lia. }
      rewrite Hmm. rewrite (proj2 (Z.eqb_neq _ _) Hne) in Hdm. lia.
  - assert (m = 12) as -> by lia. split; [split; [lia|]; specialize (Hpos (y + 1) 1); lia|]. unfold day_number.
    change (march_year (y + 1) 1) with (y + 1 - 1). change (march_year y 12) with y. replace (y + 1 - 1) with y by lia.
    change (march_month 12) with 9 in *. change (march_month 1) with 10. cbn [Z.eqb Pos.eqb] in Hdm. change (9 + 1) with 10 in Hdm. lia.
Qed.
