(* ===== verification/DateProps.v ===== *)
(** * Properties of dates

    The dates walk through the calendar day by day, construction and
    components are inverse to each other, printed dates parse back, and
    durations move by months with the day clamped, then by days. *)
From S2P Require Import Prelude Date.

#[local] Ltac Zify.zify_post_hook ::= Z.to_euclidean_division_equations.

(** ** Digits *)

Lemma parse_digits_app max acc s c :
  Date.parse_digits max acc (s ++ [c]) =
    (v ← Date.parse_digits max acc s; Date.parse_digits max v [c]).
Proof.
  revert acc. induction s as [|x s IH]; intros acc; [done|]. cbn [app Date.parse_digits].
  destruct (_ && _); [|done]. destruct (_ <? _); [done|]. apply IH.
Qed.

Lemma parse_decimal fuel n max :
  0 ≤ n ≤ max → n < 10 ^ Z.of_nat fuel → (0 < fuel)%nat →
  Date.parse_digits max 0 (Date.decimal fuel n) = Some n ∧ (0 < length (Date.decimal fuel n))%nat ∧
  Forall (λ c, 48 ≤ c ≤ 57) (Date.decimal fuel n).
Proof.
  revert n. induction fuel as [|fuel IH]; intros n Hn Hlt Hf; [lia|]. cbn [Date.decimal].
  assert (∀ d, 0 ≤ d < 10 → (48 <=? 48 + d) && (48 + d <=? 57) = true) as Hdig by (intros d Hd; rewrite !(proj2 (Z.leb_le _ _)) by lia; done).
  destruct (n <? 10) eqn:E; bool_to_prop.
  - split_and!; [|cbn; lia|constructor; [lia|constructor]]. cbn [Date.parse_digits]. rewrite Hdig by lia.
    rewrite (proj2 (Z.ltb_ge _ _)) by lia. f_equal. lia.
  - rewrite Nat2Z.inj_succ, Z.pow_succ_r in Hlt by lia.
    destruct fuel as [|fuel]; [cbn in Hlt; lia|]. destruct (IH (n / 10)) as (Hp & Hl & Ha); [lia|lia|lia|]. split_and!.
    + rewrite parse_digits_app, Hp. cbn [mbind option_bind Date.parse_digits]. rewrite Hdig by lia.
      rewrite (proj2 (Z.ltb_ge _ _)) by lia. f_equal. lia.
    + rewrite length_app. cbn. lia.
    + apply Forall_app. split; [done|]. constructor; [lia|constructor].
Qed.

Lemma parse_zeros max k s : 0 ≤ max → Date.parse_digits max 0 (replicate k 48 ++ s) = Date.parse_digits max 0 s.
Proof.
  intros Hm. induction k as [|k IH]; [done|]. cbn [replicate app Date.parse_digits].
  change (0 * 10 + (48 - 48)) with 0. rewrite (proj2 (Z.ltb_ge _ _)) by lia. exact IH.
Qed.

Lemma parse_padded width n max :
  0 ≤ n ≤ max → n < 10 ^ 10 → Date.parse_int max (Date.padded width n) = Some n ∧ Forall (λ c, 48 ≤ c ≤ 57) (Date.padded width n).
Proof.
  intros Hn Hlt. unfold Date.padded. destruct (parse_decimal 10 n max Hn Hlt ltac:(lia)) as (Hp & Hl & Ha).
  set (k := (width - _)%nat). set (s := Date.decimal 10 n) in *.
  assert (Forall (λ c, 48 ≤ c ≤ 57) (replicate k 48 ++ s)) as Hall by (apply Forall_app; split; [apply Forall_replicate; lia|done]).
  split; [|done]. rewrite <- (parse_zeros max k s) in Hp by lia. unfold Date.parse_int.
  destruct (replicate k 48 ++ s) as [|c l] eqn:E.
  - apply (f_equal length) in E. rewrite length_app in E. cbn [length] in E. lia.
  - apply Forall_cons in Hall as [Hc _]. replace (c =? 43) with false by (symmetry; apply Z.eqb_neq; lia). exact Hp.
Qed.

Lemma split_digits s rest :
  Forall (λ c, 48 ≤ c ≤ 57) s → Date.split_dash (s ++ 45 :: rest) = (s, Some rest).
Proof.
  induction 1 as [|c s Hc Hs IH]; [done|]. cbn [app Date.split_dash].
  replace (c =? 45) with false by (symmetry; apply Z.eqb_neq; lia). by rewrite IH.
Qed.

(** ** Theorems *)

Lemma to_ymd_valid n : is_i32 n → let '(y, m, d) := Date.to_ymd n in valid_date y m d ∧ day_number y m d = n ∧ -6000000 < y < 6000000.
Proof.
  intros Hn. unfold Date.to_ymd. rewrite (civil_from_days_civil n Hn). destruct (civil n) as [[y m] d] eqn:E.
  destruct (day_number_civil _ _ _ _ E). pose proof (civil_year _ _ _ _ Hn E). done.
Qed.

Lemma from_to_ymd debug y m d :
  valid_date y m d → is_i32 (day_number y m d) →
  Date.from_ymd debug y m d = Some (Some (day_number y m d)) ∧ Date.to_ymd (day_number y m d) = (y, m, d).
Proof.
  intros Hv Hn. pose proof (civil_day_number y m d Hv) as Hc. pose proof (civil_year _ _ _ _ Hn Hc) as Hy. split.
  - rewrite from_ymd_valid; [by rewrite saturate_small|unfold is_i32; lia|done|left; unfold i32_min; lia].
  - unfold Date.to_ymd. by rewrite civil_from_days_civil.
Qed.

(** C36: Dates walk through the calendar. Day 0 is 1970-01-01, the day after
    every date is the next one by the lengths of the months and the leap
    years, the components of a date are valid and construct the same date, and
    a date constructed within the range has the components it was constructed
    from. *)
Theorem dates_follow_calendar debug n :
  is_i32 n →
  Date.to_ymd 0 = (1970, 1, 1) ∧
  (is_i32 (n + 1) → Date.to_ymd (n + 1) = next_day (Date.to_ymd n)) ∧
  (let '(y, m, d) := Date.to_ymd n in valid_date y m d ∧ Date.from_ymd debug y m d = Some (Some n)) ∧
  (∀ y m d, valid_date y m d → Date.from_ymd debug y m d = Some (Some n) → i32_min < n < i32_max → is_i32 y → y ≠ i32_min →
     Date.to_ymd n = (y, m, d)).
Proof.
  intros Hn. split; [reflexivity|]. pose proof (to_ymd_valid n Hn) as Hv. split_and!.
  - intros Hn1. destruct (Date.to_ymd n) as [[y m] d]. destruct Hv as (Hv & Hd & _).
    pose proof (next_day_number y m d Hv) as Hnext. destruct (next_day (y, m, d)) as [[y' m'] d']. destruct Hnext as [Hv' Hd'].
    rewrite Hd in Hd'. rewrite <- Hd' in *. by apply (from_to_ymd debug).
  - destruct (Date.to_ymd n) as [[y m] d]. destruct Hv as (Hv & Hd & _). split; [done|]. rewrite <- Hd in *. by apply from_to_ymd.
  - intros y m d Hvd Hf Hb Hy Hmin. rewrite from_ymd_valid in Hf by (try done; by left). injection Hf as Hf.
    assert (day_number y m d = n) as Hd.
    { unfold saturate, i32_min, i32_max in *. destruct (_ && _) eqn:E; [done|]. destruct (_ <? 0); lia. }
    rewrite <- Hd in *. by apply (from_to_ymd debug).
Qed.

(** The three parts, printed and read. *)
Lemma parse_printed_parts debug negative a m d :
  0 ≤ a ≤ 6000000 → 1 ≤ m ≤ 12 → 1 ≤ d ≤ 31 →
  Date.parse_parts debug negative (Date.padded 4 a ++ 45 :: Date.padded 2 m ++ 45 :: Date.padded 2 d) =
    Date.from_ymd debug (if negative then - a else a) m d.
Proof.
  intros Ha Hm Hd. destruct (parse_padded 4 a i32_max ltac:(unfold i32_max; lia) ltac:(lia)) as [Hpa Haa].
  destruct (parse_padded 2 m u32_max ltac:(unfold u32_max; lia) ltac:(lia)) as [Hpm Ham].
  destruct (parse_padded 2 d u32_max ltac:(unfold u32_max; lia) ltac:(lia)) as [Hpd Had].
  unfold Date.parse_parts. rewrite (split_digits _ _ Haa), (split_digits _ _ Ham), Hpa, Hpm, Hpd.
  destruct negative; [|done]. by rewrite checked_op_small by lia.
Qed.

(** Printed dates parse back: [parse] of the text [Display] writes for a
    date, negative and long years included, is the date. *)
Theorem printed_dates_parse_back debug n : is_i32 n → Date.parse debug (Date.fmt n) = Some (Some n).
Proof.
  intros Hn. pose proof (to_ymd_valid n Hn) as Hv. unfold Date.to_ymd in Hv. unfold Date.fmt. destruct (civil_from_days n) as [[y m] d].
  destruct Hv as ([Hm Hd] & Hnum & Hy). pose proof (days_in_month_bound y m) as Hdm.
  assert (Date.from_ymd debug y m d = Some (Some n)) as Hback by (rewrite <- Hnum in *; by apply from_to_ymd).
  destruct (y <? 0) eqn:E; bool_to_prop.
  - cbn [Date.parse]. change (45 =? 45) with true. cbv iota. rewrite parse_printed_parts by lia. by rewrite Z.opp_involutive.
  - rewrite <- Hback, <- (parse_printed_parts debug false y m d) by lia.
    destruct (parse_padded 4 y i32_max ltac:(unfold i32_max; lia) ltac:(lia)) as [Hp Hall].
    destruct (Date.padded 4 y) as [|c s]; [done|]. apply Forall_cons in Hall as [Hc _]. cbn [app Date.parse].
    by replace (c =? 45) with false by (symmetry; apply Z.eqb_neq; lia).
Qed.

(** The year, month and day that [months] months from a date lead to. *)
Definition month_shift (ymd : Z * Z * Z) (months : Z) : Z * Z * Z :=
  let '(y, m, d) := ymd in
  let total := y * 12 + (m - 1) + months in
  let y' := total / 12 in
  let m' := total mod 12 + 1 in
  (y', m', Z.min d (days_in_month y' m')).

Lemma month_shift_zero n : is_i32 n → month_shift (Date.to_ymd n) 0 = Date.to_ymd n.
Proof.
  intros Hn. pose proof (to_ymd_valid n Hn) as Hv. destruct (Date.to_ymd n) as [[y m] d]. destruct Hv as ([Hm Hd] & _ & _).
  unfold month_shift. assert ((y * 12 + (m - 1) + 0) / 12 = y) as -> by lia. assert ((y * 12 + (m - 1) + 0) mod 12 + 1 = m) as -> by lia.
  by rewrite Z.min_l by lia.
Qed.

Lemma month_shift_valid n months : is_i32 n → let '(y, m, d) := month_shift (Date.to_ymd n) months in valid_date y m d.
Proof.
  intros Hn. pose proof (to_ymd_valid n Hn) as Hv. destruct (Date.to_ymd n) as [[y m] d]. destruct Hv as ([Hm Hd] & _ & _).
  unfold month_shift. set (total := _ + months). assert (1 ≤ total mod 12 + 1 ≤ 12) as Hm' by lia.
  split; [done|]. assert (1 ≤ days_in_month (total / 12) (total mod 12 + 1)); [|lia].
  destruct (month_length (total / 12) (total mod 12 + 1) Hm') as (-> & Hmp & _). unfold month_start.
  destruct (march_month (total mod 12 + 1) =? 11) eqn:E; bool_to_prop; [rewrite E; destruct (is_leap_year _); vm_compute; congruence|lia].
Qed.

(** Moving a date by a duration: by its months first, to the same day or the
    last one of a shorter month, and then by its days. *)
Theorem durations_move_dates debug n dur :
  is_i32 n → - 2 ^ 62 ≤ Date.months dur ≤ 2 ^ 62 → - 2 ^ 62 ≤ Date.days dur ≤ 2 ^ 62 →
  (let '(y, m, d) := month_shift (Date.to_ymd n) (Date.months dur) in
   is_i32 (day_number y m d) → is_i32 (day_number y m d + Date.days dur) →
   Date.add_duration debug n dur = Some (day_number y m d + Date.days dur)).
Proof.
  intros Hn Hmo Hda. pose proof (month_shift_valid n (Date.months dur) Hn) as Hv.
  pose proof (month_shift_zero n Hn) as Hz. pose proof (to_ymd_valid n Hn) as Hymd. unfold Date.add_duration.
  destruct (Date.to_ymd n) as [[y m] d]. destruct Hymd as ([Hm Hd] & _ & Hy).
  destruct (month_shift (y, m, d) (Date.months dur)) as [[y' m'] d'] eqn:Es. intros Hn1 Hn2.
  pose proof (civil_year _ _ _ _ Hn1 (civil_day_number _ _ _ Hv)) as Hy'.
  assert ((if Date.months dur =? 0 then Some (y, m, d) else
     total ← checked_op 64 debug (y * 12 + (m - 1) + Date.months dur);
     Some (saturate (total / 12), total mod 12 + 1, Z.min d (days_in_month (saturate (total / 12)) (total mod 12 + 1)))) = Some (y', m', d')) as Hmid.
  { destruct (Date.months dur =? 0) eqn:E; bool_to_prop; [rewrite E, Hz in Es; congruence|].
    rewrite checked_op_small by lia. cbn [mbind option_bind]. unfold month_shift in Es. injection Es as E1 E2 E3.
    assert (is_i32 ((y * 12 + (m - 1) + Date.months dur) / 12)) as Hi by (rewrite E1; unfold is_i32; lia).
    rewrite saturate_small by exact Hi. rewrite E1, E2 in *. by rewrite E3. }
  rewrite Hmid. cbn [mbind option_bind].
  rewrite days_from_civil_number by (unfold is_i32, i32_min; lia). cbn [mbind option_bind].
  rewrite (saturate_small _ Hn1). rewrite checked_op_small by (unfold is_i32 in *; lia). cbn [mbind option_bind].
  by rewrite saturate_small.
Qed.

(** A year that days of [i32] do not reach is not refused: every date of the
    year 10000000 is the last date there is. *)
Theorem far_years_are_not_refused :
  Date.from_ymd true 10000000 1 1 = Some (Some i32_max) ∧ Date.to_ymd i32_max = (5881580, 7, 11).
Proof. split; reflexivity. Qed.

(** ** Examples *)

Lemma dates_follow_calendar_witness : Date.to_ymd (19782 + 1) = next_day (Date.to_ymd 19782) ∧ Date.to_ymd 19782 = (2024, 2, 29).
Proof.
  split; [|reflexivity].
  apply (proj1 (proj2 (dates_follow_calendar true 19782 ltac:(unfold is_i32; lia)))). unfold is_i32. lia.
Defined.

Lemma printed_dates_parse_back_witness :
  Date.parse true (Date.fmt (-719530)) = Some (Some (-719530)) ∧ Date.to_ymd (-719530) = (-1, 12, 30).
Proof. split; [|reflexivity]. apply (printed_dates_parse_back true (-719530)). unfold is_i32. lia. Defined.
