(* ===== verification/Wide.v ===== *)
(** * Wide unsigned integers

    [Wide] of grafeo-common/src/types/decimal.rs: an unsigned integer of a
    fixed number of 64-bit limbs, least significant first, for the
    intermediates of decimal arithmetic. Each operation is the loop over the
    limbs of the source; the lemmas show that it computes on the integers the
    limbs stand for ([eval]) as long as the result fits the width. *)
From S2P Require Import Prelude Bits.
Open Scope Z_scope.

(** ** The operations *)

(** The low 64 bits of a [u128]. *)
Definition low_word (value : Z) : Z := Z.land value u64_max.

Definition overflowing_add64 (a b : Z) : Z * bool := (wrap64 (a + b), 2 ^ 64 <=? a + b).
Definition overflowing_sub64 (a b : Z) : Z * bool := (wrap64 (a - b), a <? b).

(** [Iterator::cmp]: the first pair of elements that differ decides. *)
Fixpoint lex_cmp (a b : list Z) : comparison :=
  match a, b with
  | [], [] => Eq
  | [], _ :: _ => Lt
  | _ :: _, [] => Gt
  | x :: a', y :: b' => match x ?= y with Eq => lex_cmp a' b' | c => c end
  end.

Module Wide.

(** The limbs, least significant first. *)
Abbreviation t := (list Z) (only parsing).

(** The limb at an index, which the loops keep in range. *)
Definition limb_at (w : t) (i : nat) : Z := default 0 (w !! i).

(** [From<u128>], at a number of limbs that is at least two. *)
Definition from_u128 (LIMBS : nat) (value : Z) : t :=
  low_word value :: low_word (Z.shiftr value 64) :: replicate (LIMBS - 2) 0.

(** The inner loop of [product]: adds [a] times the limbs [right] at the
    limbs from [i + j] on; gives the carry it leaves. *)
Fixpoint product_row (a : Z) (right : list Z) (i : nat) (limbs : t) (carry : Z) : t * Z :=
  match right with
  | [] => (limbs, carry)
  | b :: right' =>
      let value := a * b + limb_at limbs i + carry in
      product_row a right' (S i) (<[i := low_word value]> limbs) (Z.shiftr value 64)
  end.

Fixpoint product_rows (left_ right : list Z) (i : nat) (limbs : t) : t :=
  match left_ with
  | [] => limbs
  | a :: left' =>
      let '(limbs, carry) := product_row a right i limbs 0 in
      product_rows left' right (S i) (<[(i + 2)%nat := low_word carry]> limbs)
  end.

(** [U256::product]: the full product of two 128-bit magnitudes. *)
Definition product (left_ right : Z) : t :=
  product_rows [low_word left_; low_word (Z.shiftr left_ 64)]
    [low_word right; low_word (Z.shiftr right 64)] 0 (replicate 4 0).

(** One round of [times_pow10]: the limbs times ten, and the last carry. *)
Fixpoint times10 (carry : Z) (limbs : t) : t * Z :=
  match limbs with
  | [] => ([], carry)
  | limb :: limbs' =>
      let product := limb * 10 + carry in
      let '(rest, last) := times10 (Z.shiftr product 64) limbs' in
      (low_word product :: rest, last)
  end.

(** [times_pow10]: a debug build asserts that no carry is left. *)
Fixpoint times_pow10 (debug : bool) (w : t) (n : nat) : option t :=
  match n with
  | O => Some w
  | S n' =>
      let '(w, carry) := times10 0 w in
      if debug && negb (carry =? 0) then None else times_pow10 debug w n'
  end.

Fixpoint plus_loop (carry : bool) (a b : t) : t * bool :=
  match a, b with
  | x :: a', y :: b' =>
      let '(sum, over) := overflowing_add64 x y in
      let '(sum, over_again) := overflowing_add64 sum (Z.b2z carry) in
      let '(rest, last) := plus_loop (over || over_again) a' b' in
      (sum :: rest, last)
  | _, _ => ([], carry)
  end.

(** [plus]: a debug build asserts that no carry is left. *)
Definition plus (debug : bool) (a b : t) : option t :=
  let '(sum, carry) := plus_loop false a b in
  if debug && carry then None else Some sum.

Fixpoint minus_loop (borrow : bool) (a b : t) : t :=
  match a, b with
  | x :: a', y :: b' =>
      let '(difference, under) := overflowing_sub64 x y in
      let '(difference, under_again) := overflowing_sub64 difference (Z.b2z borrow) in
      difference :: minus_loop (under || under_again) a' b'
  | _, _ => []
  end.

Definition minus (a b : t) : t := minus_loop false a b.

Definition bit (w : t) (index : nat) : bool :=
  Z.land (Z.shiftr (limb_at w (index / 64)) (Z.of_nat (index mod 64))) 1 =? 1.

Fixpoint shift_loop (carry : Z) (limbs : t) : t :=
  match limbs with
  | [] => []
  | limb :: limbs' => Z.lor (wrap64 (Z.shiftl limb 1)) carry :: shift_loop (Z.shiftr limb 63) limbs'
  end.

Definition shifted_left_with (w : t) (low_bit : bool) : t := shift_loop (Z.b2z low_bit) w.

(** [Ord]: the limbs from the most significant down. *)
Definition cmp (a b : t) : comparison := lex_cmp (rev a) (rev b).
Definition ge (a b : t) : bool := match cmp a b with Lt => false | _ => true end.

Definition set_bit (w : t) (index : nat) : t :=
  alter (λ limb, Z.lor limb (Z.shiftl 1 (Z.of_nat (index mod 64)))) (index / 64)%nat w.

(** The rounds of [div_rem] for the bits below [n]. *)
Fixpoint div_loop (w divisor : t) (n : nat) (quotient remainder : t) : t * t :=
  match n with
  | O => (quotient, remainder)
  | S index =>
      let remainder := shifted_left_with remainder (bit w index) in
      if ge remainder divisor
      then div_loop w divisor index (set_bit quotient index) (minus remainder divisor)
      else div_loop w divisor index quotient remainder
  end.

(** [div_rem], by binary long division. *)
Definition div_rem (w divisor : t) : t * t :=
  div_loop w divisor (64 * length w) (from_u128 (length w) 0) (from_u128 (length w) 0).

Definition to_u128 (w : t) : option Z :=
  if forallb (Z.eqb 0) (drop 2 w) then Some (Z.lor (Z.shiftl (limb_at w 1) 64) (limb_at w 0)) else None.

(** ** The integer the limbs stand for *)

Fixpoint eval (w : t) : Z :=
  match w with
  | [] => 0
  | limb :: w' => limb + 2 ^ 64 * eval w'
  end.

(** A wide integer of [LIMBS] limbs. *)
Definition ok (LIMBS : nat) (w : t) : Prop := length w = LIMBS ∧ Forall is_u64 w.

(** What the width holds. *)
Definition capacity (LIMBS : nat) : Z := 2 ^ (64 * Z.of_nat LIMBS).
End Wide.

(** ** The arithmetic of wide integers

    The loops of Wide.v compute on the integers their limbs stand for. *)
Import Wide.
Open Scope Z_scope.

(** ** Words *)

Lemma low_word_mod v : low_word v = v mod 2 ^ 64.
Proof. unfold low_word. rewrite u64_max_ones, Z.land_ones by lia. done. Qed.

Lemma low_word_u64 v : is_u64 (low_word v).
Proof. rewrite low_word_mod. apply wrap64_u64. Qed.

Lemma split_word v : v = low_word v + 2 ^ 64 * Z.shiftr v 64.
Proof. rewrite low_word_mod, Z.shiftr_div_pow2 by lia. pose proof (Z.div_mod v (2 ^ 64)). lia. Qed.

Lemma lor_words x y : is_u64 x → Z.lor (Z.shiftl y 64) x = x + 2 ^ 64 * y.
Proof.
  intros Hx. assert (Hland : Z.land (Z.shiftl y 64) x = 0).
  { apply Z.bits_inj'. intros n Hn. rewrite Z.land_spec, Z.testbit_0_l.
    destruct (Z.lt_ge_cases n 64); [by rewrite (Z.shiftl_spec_low y) by done|].
    pose proof (test_high x (Z.to_nat n) Hx ltac:(lia)) as Ht. unfold test in Ht.
    rewrite Z2Nat.id in Ht by lia. by rewrite Ht, andb_false_r. }
  rewrite <- Z.lxor_lor, <- Z.add_nocarry_lxor, Z.shiftl_mul_pow2 by done || lia. lia.
Qed.

Lemma capacity_succ n : capacity (S n) = 2 ^ 64 * capacity n.
Proof.
  unfold capacity. rewrite Nat2Z.inj_succ, Z.mul_succ_r, Z.add_comm.
  by rewrite Z.pow_add_r by lia.
Qed.

Lemma capacity_pos n : 0 < capacity n.
Proof. unfold capacity. apply Z.pow_pos_nonneg; lia. Qed.

Lemma eval_bound w : Forall is_u64 w → 0 ≤ eval w < capacity (length w).
Proof.
  induction 1 as [|x w Hx _ IH]; [unfold capacity; simpl; lia|]. cbn [eval length].
  rewrite capacity_succ. unfold is_u64 in Hx. lia.
Qed.

Lemma ok_bound L w : ok L w → 0 ≤ eval w < capacity L.
Proof. intros [<- Hw]. by apply eval_bound. Qed.

Lemma replicate0_u64 n : Forall is_u64 (replicate n 0).
Proof. apply Forall_replicate, is_u64_0. Qed.

Lemma eval_replicate0 n : eval (replicate n 0) = 0.
Proof. induction n as [|n IH]; [done|]. cbn [replicate eval]. rewrite IH. lia. Qed.

Lemma from_u128_ok L v : (2 ≤ L)%nat → ok L (from_u128 L v).
Proof.
  intros HL. split; [cbn [from_u128 length]; rewrite length_replicate; lia|].
  repeat constructor; [apply low_word_u64..|apply replicate0_u64].
Qed.

Lemma eval_from_u128 L v : 0 ≤ v < 2 ^ 128 → eval (from_u128 L v) = v.
Proof.
  intros Hv. unfold from_u128. cbn [eval]. rewrite eval_replicate0, (low_word_mod (Z.shiftr v 64)).
  rewrite Z.mod_small; [pose proof (split_word v); lia|]. rewrite Z.shiftr_div_pow2 by lia.
  split; [apply Z.div_pos; lia|apply Z.div_lt_upper_bound; lia].
Qed.

(** ** Multiplication by powers of ten *)

Lemma times10_spec carry w : Forall is_u64 w → 0 ≤ carry < 10 →
  let '(r, last) := times10 carry w in
  length r = length w ∧ Forall is_u64 r ∧ 0 ≤ last < 10 ∧
  eval r + capacity (length w) * last = 10 * eval w + carry.
Proof.
  intros Hw. revert carry. induction Hw as [|x w Hx _ IH]; intros carry Hc.
  { cbn [times10]. repeat split; try done; try lia. unfold capacity. simpl. lia. }
  cbn [times10]. pose proof (split_word (x * 10 + carry)) as Hs.
  pose proof (low_word_u64 (x * 10 + carry)) as Hl. unfold is_u64 in Hx, Hl.
  specialize (IH (Z.shiftr (x * 10 + carry) 64)). destruct (times10 _ w) as [r last].
  destruct IH as (Hlen & Hr & Hlast & Heq); [lia|].
  repeat split; [simpl; lia|by constructor|lia..|]. cbn [eval length]. rewrite capacity_succ. lia.
Qed.

Lemma times_pow10_spec debug L w n : ok L w → eval w * 10 ^ Z.of_nat n < capacity L →
  ∃ r, times_pow10 debug w n = Some r ∧ ok L r ∧ eval r = eval w * 10 ^ Z.of_nat n.
Proof.
  revert w. induction n as [|n IH]; intros w Hw Hlt.
  { exists w. repeat split; [apply Hw..|simpl; lia]. }
  rewrite Nat2Z.inj_succ, Z.pow_succ_r in Hlt |- * by lia. cbn [times_pow10].
  pose proof (ok_bound L w Hw) as Hb. destruct Hw as [Hlen Hu].
  pose proof (times10_spec 0 w Hu ltac:(lia)) as Ht. destruct (times10 0 w) as [r last].
  destruct Ht as (Hlr & Hr & Hlast & Heq). rewrite Hlen in *.
  pose proof (Z.pow_pos_nonneg 10 (Z.of_nat n) ltac:(lia) ltac:(lia)) as Hp.
  assert (Hrok : ok L r) by (by split). pose proof (ok_bound L r Hrok).
  assert (Hlast0 : last = 0) by nia. subst last.
  replace (debug && negb (0 =? 0)) with false by (by destruct debug).
  destruct (IH r Hrok) as (r' & -> & Hok & Hev); [nia|].
  exists r'. repeat split; [apply Hok..|]. rewrite Hev. nia.
Qed.

(** ** Addition and subtraction *)

Lemma plus_loop_spec carry a b : Forall is_u64 a → Forall is_u64 b → length a = length b →
  let '(r, last) := plus_loop carry a b in
  length r = length a ∧ Forall is_u64 r ∧
  eval r + capacity (length a) * Z.b2z last = eval a + eval b + Z.b2z carry.
Proof.
  intros Ha. revert carry b. induction Ha as [|x a Hx _ IH]; intros carry b Hb Hlen.
  { destruct b; [|done]. simpl. repeat split; [constructor|]. unfold capacity. simpl. lia. }
  destruct Hb as [|y b Hy Hb]; [done|]. cbn [plus_loop overflowing_add64].
  set (s := wrap64 (x + y)). set (s' := wrap64 (s + Z.b2z carry)).
  set (c := (2 ^ 64 <=? x + y) || (2 ^ 64 <=? s + Z.b2z carry)).
  assert (Hstep : is_u64 s' ∧ s' + 2 ^ 64 * Z.b2z c = x + y + Z.b2z carry).
  { split; [apply wrap64_u64|]. unfold is_u64 in Hx, Hy. subst c s' s. unfold wrap64.
    destruct (Z.leb_spec (2 ^ 64) (x + y)) as [H1|H1].
    - rewrite <- (Z.mod_unique (x + y) (2 ^ 64) 1 (x + y - 2 ^ 64)) by lia. cbn [orb].
      rewrite (Z.mod_small (_ + Z.b2z carry)) by (destruct carry; simpl; lia). simpl (Z.b2z true). lia.
    - rewrite (Z.mod_small (x + y)) by lia. cbn [orb].
      destruct (Z.leb_spec (2 ^ 64) (x + y + Z.b2z carry)) as [H2|H2].
      + rewrite <- (Z.mod_unique (x + y + Z.b2z carry) (2 ^ 64) 1 (x + y + Z.b2z carry - 2 ^ 64))
          by (destruct carry; simpl in *; lia). simpl (Z.b2z true). lia.
      + rewrite Z.mod_small by (destruct carry; simpl in *; lia). simpl (Z.b2z false). lia. }
  destruct Hstep as [Hs' Heq]. injection Hlen as Hlen.
  specialize (IH c b Hb Hlen). destruct (plus_loop c a b) as [r last].
  destruct IH as (Hlr & Hr & Hev). repeat split; [simpl; lia|by constructor|].
  cbn [eval length]. rewrite capacity_succ. lia.
Qed.

Lemma plus_spec debug L a b : ok L a → ok L b → eval a + eval b < capacity L →
  ∃ r, plus debug a b = Some r ∧ ok L r ∧ eval r = eval a + eval b.
Proof.
  intros [Hla Ha] [Hlb Hb] Hlt. unfold plus.
  pose proof (plus_loop_spec false a b Ha Hb ltac:(lia)) as Hp.
  destruct (plus_loop false a b) as [r last]. destruct Hp as (Hlr & Hr & Hev).
  rewrite Hla in *. assert (Hrok : ok L r) by (by split). pose proof (ok_bound L r Hrok).
  destruct last; simpl in Hev; [lia|]. exists r.
  rewrite andb_false_r. repeat split; [apply Hrok..|lia].
Qed.

Lemma minus_loop_spec borrow a b : Forall is_u64 a → Forall is_u64 b → length a = length b →
  eval b + Z.b2z borrow ≤ eval a →
  length (minus_loop borrow a b) = length a ∧ Forall is_u64 (minus_loop borrow a b) ∧
  eval (minus_loop borrow a b) = eval a - eval b - Z.b2z borrow.
Proof.
  intros Ha. revert borrow b. induction Ha as [|x a Hx Ha IH]; intros borrow b Hb Hlen Hle.
  { destruct b; [|done]. simpl in *. repeat split; [constructor|]. destruct borrow; simpl in *; lia. }
  destruct Hb as [|y b Hy Hb]; [done|]. cbn [minus_loop overflowing_sub64 eval length] in *.
  set (s := wrap64 (x - y)). set (s' := wrap64 (s - Z.b2z borrow)).
  set (c := (x <? y) || (s <? Z.b2z borrow)).
  assert (Hstep : is_u64 s' ∧ s' - 2 ^ 64 * Z.b2z c = x - y - Z.b2z borrow).
  { split; [apply wrap64_u64|]. unfold is_u64 in Hx, Hy. subst c s' s. unfold wrap64.
    destruct (Z.ltb_spec x y) as [H1|H1].
    - rewrite <- (Z.mod_unique (x - y) (2 ^ 64) (-1) (x - y + 2 ^ 64)) by lia. cbn [orb].
      rewrite (Z.mod_small (_ - Z.b2z borrow)) by (destruct borrow; simpl; lia). simpl (Z.b2z true). lia.
    - rewrite (Z.mod_small (x - y)) by lia. cbn [orb].
      destruct (Z.ltb_spec (x - y) (Z.b2z borrow)) as [H2|H2].
      + rewrite <- (Z.mod_unique (x - y - Z.b2z borrow) (2 ^ 64) (-1) (x - y - Z.b2z borrow + 2 ^ 64))
          by (destruct borrow; simpl in *; lia). simpl (Z.b2z true). lia.
      + rewrite Z.mod_small by (destruct borrow; simpl in *; lia). simpl (Z.b2z false). lia. }
  destruct Hstep as [Hs' Heq]. injection Hlen as Hlen. fold c.
  pose proof (eval_bound b Hb). pose proof (eval_bound a Ha).
  assert (eval b + Z.b2z c ≤ eval a).
  { unfold is_u64 in Hs', Hx, Hy. destruct c, borrow; simpl in *; lia. }
  destruct (IH c b Hb Hlen) as (Hlr & Hr & Hev); [done|].
  repeat split; [simpl; lia|by constructor|]. rewrite Hev. lia.
Qed.

Lemma minus_spec L a b : ok L a → ok L b → eval b ≤ eval a →
  ok L (minus a b) ∧ eval (minus a b) = eval a - eval b.
Proof.
  intros [Hla Ha] [Hlb Hb] Hle.
  destruct (minus_loop_spec false a b Ha Hb) as (Hl & Hr & Hev); simpl; [lia..|].
  unfold minus. repeat split; [lia|done|]. rewrite Hev. simpl. lia.
Qed.

(** ** Comparison *)

Lemma eval_snoc w x : eval (w ++ [x]) = eval w + capacity (length w) * x.
Proof.
  induction w as [|y w IH]; [unfold capacity; simpl; lia|]. cbn [app eval length].
  rewrite IH, capacity_succ. lia.
Qed.

Lemma cmp_spec L a b : ok L a → ok L b → cmp a b = (eval a ?= eval b).
Proof.
  revert a b. induction L as [|L IH]; intros a b [Hla Ha] [Hlb Hb].
  { destruct a, b; done. }
  destruct (exists_last (l := a)) as (a' & x & ->); [by destruct a|].
  destruct (exists_last (l := b)) as (b' & y & ->); [by destruct b|].
  rewrite length_app in Hla, Hlb. simpl in Hla, Hlb.
  apply Forall_app in Ha as [Ha Hx], Hb as [Hb Hy].
  assert (Hoka : ok L a') by (split; [lia|done]). assert (Hokb : ok L b') by (split; [lia|done]).
  unfold cmp. rewrite !rev_app_distr. cbn [rev app lex_cmp].
  rewrite !eval_snoc. replace (length a') with L by lia. replace (length b') with L by lia.
  pose proof (ok_bound L a' Hoka). pose proof (ok_bound L b' Hokb).
  destruct (Z.compare_spec x y) as [->|Hlt|Hgt].
  - fold (cmp a' b'). rewrite (IH a' b') by done. rewrite (Z.add_comm (eval a')), (Z.add_comm (eval b')).
    by rewrite Z.add_compare_mono_l.
  - symmetry. apply Z.compare_lt_iff. nia.
  - symmetry. apply Z.compare_gt_iff. nia.
Qed.

Lemma ge_spec L a b : ok L a → ok L b → ge a b = (eval b <=? eval a).
Proof.
  intros Ha Hb. unfold ge. rewrite (cmp_spec L) by done.
  destruct (Z.compare_spec (eval a) (eval b)), (Z.leb_spec (eval b) (eval a)); try done; lia.
Qed.

(** ** Bits *)

Lemma bit_spec w index : Forall is_u64 w → bit w index = Z.testbit (eval w) (Z.of_nat index).
Proof.
  intros Hw. unfold bit.
  assert (Hland : ∀ x k, (Z.land (Z.shiftr x k) 1 =? 1) = Z.testbit x k).
  { intros x k. change 1 with (Z.ones 1) at 1. rewrite Z.land_ones, <- Z.bit0_mod by lia.
    destruct (Z.lt_ge_cases k 0) as [Hk|Hk].
    - rewrite (Z.testbit_neg_r x k), Z.shiftr_spec, Z.add_0_l, Z.testbit_neg_r by lia. done.
    - rewrite Z.shiftr_spec, Z.add_0_l by lia. by destruct (Z.testbit x k). }
  rewrite Hland. clear Hland. revert index. induction Hw as [|x w Hx Hw IH]; intros index.
  { cbn [eval]. by rewrite !Z.testbit_0_l. }
  cbn [eval]. unfold is_u64 in Hx. destruct (Nat.lt_ge_cases index 64) as [Hi|Hi].
  - rewrite Nat.div_small, Nat.mod_small by done. unfold limb_at. cbn [lookup list_lookup default].
    rewrite <- (Z.mod_pow2_bits_low (x + _) 64) by lia. rewrite Z.mul_comm, Z.mod_add, Z.mod_small by lia. done.
  - replace index with ((index - 64) + 1 * 64)%nat at 1 2 by lia.
    rewrite Nat.div_add, Nat.Div0.mod_add, Nat.add_1_r by lia. change (limb_at (x :: w) (S ((index - 64) / 64))) with (limb_at w ((index - 64) / 64)).
    rewrite IH. replace (Z.of_nat index) with (Z.of_nat (index - 64) + 64) by lia.
    rewrite <- Z.div_pow2_bits by lia. f_equal. rewrite Z.mul_comm, Z.div_add, Z.div_small by lia. lia.
Qed.

Lemma lor_add_low a k : 0 ≤ k → Z.testbit a k = false → Z.lor a (Z.shiftl 1 k) = a + 2 ^ k.
Proof.
  intros Hk Hb. rewrite Z.shiftl_1_l. rewrite <- Z.lxor_lor, Z.add_nocarry_lxor; [done|..].
  all: apply Z.bits_inj'; intros n Hn; rewrite Z.land_spec, Z.testbit_0_l.
  all: destruct (Z.eq_dec n k) as [->|Hne]; [by rewrite Hb|].
  all: rewrite (Z.pow2_bits_false k n) by lia; by rewrite andb_false_r.
Qed.

Lemma eval_alter w i x f : w !! i = Some x → eval (alter f i w) = eval w + capacity i * (f x - x).
Proof.
  revert i. induction w as [|y w IH]; intros i Hi; [done|]. destruct i as [|i].
  - simplify_eq/=. unfold capacity. simpl. lia.
  - cbn [lookup list_lookup] in Hi. change (alter f (S i) (y :: w)) with (y :: alter f i w).
    cbn [eval]. rewrite capacity_succ. rewrite (IH i Hi). lia.
Qed.

Lemma set_bit_spec L w index : ok L w → (index < 64 * L)%nat →
  Z.testbit (eval w) (Z.of_nat index) = false →
  ok L (set_bit w index) ∧ eval (set_bit w index) = eval w + 2 ^ Z.of_nat index.
Proof.
  intros [Hlen Hw] Hi Hb. rewrite <- bit_spec in Hb by done.
  pose proof (Nat.div_mod_eq index 64) as Hdm. pose proof (Nat.mod_upper_bound index 64 ltac:(lia)) as Hm.
  destruct (lookup_lt_is_Some_2 w (index / 64)) as [x Hx].
  { rewrite Hlen. apply Nat.Div0.div_lt_upper_bound. lia. }
  pose proof (Forall_lookup_1 _ _ _ _ Hw Hx) as Hxu.
  assert (Hbx : Z.testbit x (Z.of_nat (index mod 64)) = false).
  { rewrite bit_spec in Hb by done. pose proof (bit_spec [x] (index mod 64) ltac:(by constructor)) as E.
    cbn [eval] in E. rewrite Z.mul_0_r, Z.add_0_r in E. rewrite <- E. rewrite <- bit_spec in Hb by done.
    unfold bit, limb_at in Hb |- *. rewrite Hx in Hb. cbn [default] in Hb.
    rewrite Nat.Div0.mod_mod, Nat.div_small by lia. exact Hb. }
  split; [split|].
  - unfold set_bit. by rewrite length_alter.
  - apply Forall_alter; [done|]. intros y _ Hy. apply lor_u64; [done|].
    apply (bit64_u64 (index mod 64)). lia.
  - unfold set_bit. rewrite (eval_alter _ _ _ _ Hx). rewrite lor_add_low by (done || lia).
    rewrite Z.add_simpl_l. unfold capacity. rewrite <- Z.pow_add_r by lia. do 2 f_equal. lia.
Qed.

Lemma shift_loop_spec carry w : Forall is_u64 w → 0 ≤ carry ≤ 1 →
  length (shift_loop carry w) = length w ∧ Forall is_u64 (shift_loop carry w) ∧
  ∃ last, eval (shift_loop carry w) + capacity (length w) * last = 2 * eval w + carry ∧ 0 ≤ last.
Proof.
  intros Hw. revert carry. induction Hw as [|x w Hx _ IH]; intros carry Hc.
  { repeat split; [constructor|]. exists carry. unfold capacity. simpl. lia. }
  cbn [shift_loop eval length]. unfold is_u64 in Hx.
  assert (Hlimb : Z.lor (wrap64 (Z.shiftl x 1)) carry = wrap64 (2 * x) + carry).
  { rewrite Z.shiftl_mul_pow2, Z.pow_1_r, Z.mul_comm by lia.
    assert (carry = 0 ∨ carry = 1) as [-> | ->] by lia; [by rewrite Z.lor_0_r, Z.add_0_r|].
    apply (lor_add_low _ 0); [lia|]. unfold wrap64. rewrite Z.mod_pow2_bits_low by lia.
    apply Z.testbit_even_0. }
  assert (Hshift : Z.shiftr x 63 = 2 * x / 2 ^ 64).
  { rewrite Z.shiftr_div_pow2 by lia. change (2 ^ 64) with (2 * 2 ^ 63). by rewrite Z.div_mul_cancel_l by lia. }
  assert (Hs01 : 0 ≤ Z.shiftr x 63 ≤ 1).
  { rewrite Hshift. split; [apply Z.div_pos; lia|]. enough (2 * x / 2 ^ 64 < 2) by lia.
    apply Z.div_lt_upper_bound; lia. }
  destruct (IH _ Hs01) as (Hl & Hf & last & Heq & Hlast).
  rewrite Hlimb. pose proof (Z.div_mod (2 * x) (2 ^ 64) ltac:(lia)) as Hdm.
  pose proof (Z.mod_pos_bound (2 * x) (2 ^ 64) ltac:(lia)) as Hmb. unfold wrap64.
  repeat split; [simpl; lia| |].
  - constructor; [|done]. unfold is_u64. split; [lia|].
    assert (Hev : (2 * x) mod 2 ^ 64 = 2 * (x mod 2 ^ 63)).
    { change (2 ^ 64) with (2 * 2 ^ 63). by rewrite Z.mul_mod_distr_l by lia. }
    pose proof (Z.mod_pos_bound x (2 ^ 63) ltac:(lia)). lia.
  - exists last. rewrite capacity_succ. lia.
Qed.

Lemma shifted_left_spec L w b : ok L w → 2 * eval w + Z.b2z b < capacity L →
  ok L (shifted_left_with w b) ∧ eval (shifted_left_with w b) = 2 * eval w + Z.b2z b.
Proof.
  intros [Hlen Hw] Hlt. unfold shifted_left_with.
  destruct (shift_loop_spec (Z.b2z b) w Hw) as (Hl & Hf & last & Heq & Hlast); [destruct b; simpl; lia|].
  assert (Hok : ok L (shift_loop (Z.b2z b) w)) by (split; [lia|done]).
  split; [done|]. pose proof (ok_bound L _ Hok). pose proof (capacity_pos L). rewrite Hlen in Heq.
  assert (last = 0) by nia. lia.
Qed.

(** ** Long division *)

Lemma div_loop_spec L w d n q r : ok L w → ok L d → ok L q → ok L r →
  0 < eval d → 2 * eval d ≤ capacity L → (n ≤ 64 * L)%nat →
  let x := eval w / 2 ^ Z.of_nat n in
  eval r = x mod eval d → eval q = x / eval d * 2 ^ Z.of_nat n →
  let '(q', r') := div_loop w d n q r in
  ok L q' ∧ ok L r' ∧ eval q' = eval w / eval d ∧ eval r' = eval w mod eval d.
Proof.
  intros Hw Hd. revert q r. induction n as [|n IH]; intros q r Hq Hr Hd0 Hd2 Hn x Er Eq.
  { subst x. simpl in Er, Eq. rewrite Z.div_1_r in Er, Eq. cbn [div_loop].
    split_and!; [done..| |]; lia. }
  cbn [div_loop]. rewrite bit_spec by apply Hw. set (b := Z.testbit (eval w) (Z.of_nat n)).
  set (y := eval w / 2 ^ Z.of_nat n).
  assert (Hy : y = 2 * x + Z.b2z b).
  { subst x y b. rewrite Nat2Z.inj_succ, Z.pow_succ_r, (Z.mul_comm 2 (2 ^ _)) by lia.
    rewrite <- Z.div_div by (try apply Z.pow_nonzero; lia). rewrite Z.testbit_odd, Z.shiftr_div_pow2 by lia.
    pose proof (Z.div_mod (eval w / 2 ^ Z.of_nat n) 2 ltac:(lia)) as Hdm. rewrite Zmod_odd in Hdm.
    destruct (Z.odd _); simpl (Z.b2z _); lia. }
  pose proof (Z.mod_pos_bound x (eval d) Hd0) as Hrb. pose proof (Z.div_mod x (eval d) ltac:(lia)) as Hxdm.
  assert (Hb01 : 0 ≤ Z.b2z b ≤ 1) by (destruct b; simpl; lia).
  destruct (shifted_left_spec L r b Hr) as [Hsok Hsev]; [lia|].
  rewrite (ge_spec L) by done. rewrite Hsev, Er. rewrite Nat2Z.inj_succ, Z.pow_succ_r in Eq by lia.
  destruct (Z.leb_spec (eval d) (2 * (x mod eval d) + Z.b2z b)) as [Hge|Hlt].
  - destruct (minus_spec L _ d Hsok Hd) as [Hmok Hmev]; [lia|].
    destruct (set_bit_spec L q n Hq) as [Hqok Hqev]; [lia| |].
    { rewrite Eq. replace (x / eval d * (2 * 2 ^ Z.of_nat n)) with (2 * (x / eval d) * 2 ^ Z.of_nat n) by lia.
      rewrite Z.mul_pow2_bits, Z.sub_diag by lia. apply Z.testbit_even_0. }
    assert (Hq1 : y / eval d = 2 * (x / eval d) + 1).
    { symmetry. apply (Z.div_unique _ _ _ (2 * (x mod eval d) + Z.b2z b - eval d)); lia. }
    assert (Hr1 : y mod eval d = 2 * (x mod eval d) + Z.b2z b - eval d).
    { symmetry. apply (Z.mod_unique _ _ (2 * (x / eval d) + 1)); lia. }
    apply IH; [done..|lia|fold y; lia|]. fold y. rewrite Hqev, Eq, Hq1. lia.
  - assert (Hq1 : y / eval d = 2 * (x / eval d)).
    { symmetry. apply (Z.div_unique _ _ _ (2 * (x mod eval d) + Z.b2z b)); lia. }
    assert (Hr1 : y mod eval d = 2 * (x mod eval d) + Z.b2z b).
    { symmetry. apply (Z.mod_unique _ _ (2 * (x / eval d))); lia. }
    apply IH; [done..|lia|fold y; lia|]. fold y. rewrite Eq, Hq1. lia.
Qed.

(** Long division of wide integers is division, for a divisor that leaves the
    top bit of its width free. *)
Lemma div_rem_spec L w d : (2 ≤ L)%nat → ok L w → ok L d → 0 < eval d → 2 * eval d ≤ capacity L →
  let '(q, r) := div_rem w d in
  ok L q ∧ ok L r ∧ eval q = eval w / eval d ∧ eval r = eval w mod eval d.
Proof.
  intros HL Hw Hd Hd0 Hd2. unfold div_rem. pose proof (ok_bound L w Hw) as Hb.
  rewrite (proj1 Hw). assert (Hx : eval w / 2 ^ Z.of_nat (64 * L) = 0).
  { apply Z.div_small. unfold capacity in Hb. replace (Z.of_nat (64 * L)) with (64 * Z.of_nat L) by lia. done. }
  apply div_loop_spec; try done; try (by apply from_u128_ok);
    rewrite eval_from_u128, Hx by lia; [by rewrite Z.mod_0_l by lia|by rewrite Z.div_0_l by lia].
Qed.

(** ** The product of two magnitudes *)

(** The sums of a row stay below [2^128]. *)
Lemma product_value_bound a b limb carry : is_u64 a → is_u64 b → is_u64 limb → is_u64 carry →
  0 ≤ a * b + limb + carry < 2 ^ 128 ∧ is_u64 (Z.shiftr (a * b + limb + carry) 64).
Proof.
  unfold is_u64. intros Ha Hb Hl Hc. assert (0 ≤ a * b + limb + carry < 2 ^ 128) by nia.
  split; [done|]. rewrite Z.shiftr_div_pow2 by lia.
  split; [apply Z.div_pos; lia|apply Z.div_lt_upper_bound; lia].
Qed.

Lemma high_word_u64 v : 0 ≤ v < 2 ^ 128 → low_word (Z.shiftr v 64) = Z.shiftr v 64.
Proof.
  intros Hv. rewrite low_word_mod, Z.shiftr_div_pow2 by lia. apply Z.mod_small.
  split; [apply Z.div_pos; lia|apply Z.div_lt_upper_bound; lia].
Qed.

(** One row over two limbs. *)
Lemma product_row_two a b0 b1 i limbs l0 l1 : is_u64 a → is_u64 b0 → is_u64 b1 →
  limbs !! i = Some l0 → limbs !! S i = Some l1 → is_u64 l0 → is_u64 l1 →
  ∃ m0 m1 c, product_row a [b0; b1] i limbs 0 = (<[S i := m1]> (<[i := m0]> limbs), c) ∧
    is_u64 m0 ∧ is_u64 m1 ∧ is_u64 c ∧
    m0 + 2 ^ 64 * m1 + 2 ^ 128 * c = l0 + 2 ^ 64 * l1 + a * (b0 + 2 ^ 64 * b1).
Proof.
  intros Ha Hb0 Hb1 E0 E1 Hl0 Hl1. cbn [product_row]. unfold limb_at. rewrite E0. cbn [default].
  set (v0 := a * b0 + l0 + 0). destruct (product_value_bound a b0 l0 0) as [_ Hc0]; try done.
  rewrite list_lookup_insert_ne, E1 by lia. cbn [default].
  set (v1 := a * b1 + l1 + Z.shiftr v0 64). destruct (product_value_bound a b1 l1 (Z.shiftr v0 64)) as [_ Hc1]; try done.
  exists (low_word v0), (low_word v1), (Z.shiftr v1 64).
  split_and!; [done|apply low_word_u64..|done|].
  pose proof (split_word v0). pose proof (split_word v1). subst v0 v1. lia.
Qed.

Lemma product_spec a b : 0 ≤ a < 2 ^ 128 → 0 ≤ b < 2 ^ 128 →
  ok 4 (product a b) ∧ eval (product a b) = a * b.
Proof.
  intros Ha Hb. unfold product. rewrite !high_word_u64 by done.
  pose proof (split_word a) as Ea. pose proof (split_word b) as Eb.
  pose proof (low_word_u64 a) as Ha0. pose proof (low_word_u64 (Z.shiftr a 64)) as Ha1.
  pose proof (low_word_u64 b) as Hb0. pose proof (low_word_u64 (Z.shiftr b 64)) as Hb1.
  rewrite high_word_u64 in Ha1, Hb1 by done.
  set (a0 := low_word a) in *. set (a1 := Z.shiftr a 64) in *.
  set (b0 := low_word b) in *. set (b1 := Z.shiftr b 64) in *. clearbody a0 a1 b0 b1.
  cbn [product_rows].
  destruct (product_row_two a0 b0 b1 0 (replicate 4 0) 0 0) as (m0 & m1 & c & -> & H0 & H1 & Hc & E1); try done.
  cbn [replicate insert list_insert Nat.add].
  rewrite (low_word_mod c), (Z.mod_small c) by exact Hc.
  destruct (product_row_two a1 b0 b1 1 [m0; m1; c; 0] m1 c) as (m2 & m3 & c' & -> & H2 & H3 & Hc' & E2); try done.
  cbn [insert list_insert Nat.add]. rewrite (low_word_mod c'), (Z.mod_small c') by exact Hc'.
  split; [split; [done|]; repeat constructor; apply H0 || apply H2 || apply H3 || apply Hc'|].
  cbn [eval]. rewrite Ea, Eb. lia.
Qed.

Lemma forallb_zero w : Forall is_u64 w → forallb (Z.eqb 0) w = (eval w =? 0).
Proof.
  induction 1 as [|x w Hx Hw IH]; [done|]. cbn [forallb eval]. rewrite IH.
  pose proof (eval_bound w Hw). unfold is_u64 in Hx.
  destruct (Z.eqb_spec 0 x), (Z.eqb_spec (eval w) 0), (Z.eqb_spec (x + 2 ^ 64 * eval w) 0); try done; lia.
Qed.

Lemma to_u128_spec L w : (2 ≤ L)%nat → ok L w →
  to_u128 w = if eval w <? 2 ^ 128 then Some (eval w) else None.
Proof.
  intros HL [Hlen Hw]. destruct w as [|x [|y w]]; [simpl in Hlen; lia..|].
  apply Forall_cons in Hw as [Hx Hw]. apply Forall_cons in Hw as [Hy Hw].
  unfold to_u128, limb_at. simpl (drop 2 _). rewrite drop_0, forallb_zero by done. cbn [eval].
  pose proof (eval_bound w Hw). unfold is_u64 in Hx, Hy.
  destruct (Z.eqb_spec (eval w) 0) as [E|E], (Z.ltb_spec (x + 2 ^ 64 * (y + 2 ^ 64 * eval w)) (2 ^ 128));
    try lia; [|done].
  f_equal. simpl. rewrite lor_words by done. lia.
Qed.
