(* ===== verification/Decimal.v ===== *)
(** * Exact decimals

    grafeo-common/src/types/decimal.rs: a decimal is a mantissa below
    [10^38] in magnitude, kept as two 64-bit words, and a scale up to 38. The
    scale is the [Z] of its [u8]. What a debug build asserts or checks and a
    release build does not depends on the argument [debug]; an operation that
    can panic is an [option]. The conversions from and to floats are left
    out. *)
From S2P Require Import Prelude Bytes Wide Date.
Open Scope Z_scope.

Definition wrap128 (x : Z) : Z := x mod 2 ^ 128.
(** [cast_signed] of a [u128]. *)
Definition cast_signed128 (x : Z) : Z := if x <? 2 ^ 127 then x else x - 2 ^ 128.
Definition checked_mul128 (a b : Z) : option Z := if a * b <? 2 ^ 128 then Some (a * b) else None.
(** The plain [+] of [u128]s. *)
Definition add128 (debug : bool) (a b : Z) : option Z :=
  if debug && (2 ^ 128 <=? a + b) then None else Some (wrap128 (a + b)).
(** The checked operations of [i128]s. *)
Definition checked128 (x : Z) : option Z :=
  if (- 2 ^ 127 <=? x) && (x <? 2 ^ 127) then Some x else None.

(** [str::split_once] at a byte. *)
Fixpoint split_once (sep : Z) (s : list Z) : option (list Z * list Z) :=
  match s with
  | [] => None
  | c :: s' =>
      if c =? sep then Some ([], s')
      else match split_once sep s' with Some (a, b) => Some (c :: a, b) | None => None end
  end.

Module Decimal.

Definition MAX_DECIMAL_DIGITS : Z := 38.

Inductive DecimalError :=
  | Overflow
  | DivisionByZero
  | Invalid
  | InvalidPrecision.

#[export] Instance DecimalError_eq_dec : EqDecision DecimalError.
Proof. solve_decision. Defined.

(** The low word first. *)
Record Decimal := mk { scale : Z; mantissa_words : Z * Z }.

#[export] Instance Decimal_eq_dec : EqDecision Decimal.
Proof. solve_decision. Defined.

(** The table of the powers of ten, and a lookup in its range. *)
Fixpoint powers (n : nat) (p : Z) : list Z :=
  match n with O => [] | S n' => p :: powers n' (p * 10) end.
Definition POW10 : list Z := powers 39 1.
Definition pow10 (n : Z) : Z := default 0 (POW10 !! Z.to_nat n).
Definition LIMIT : Z := pow10 38.

(** The rounds of [digit_count] from [count] on. *)
Fixpoint digit_loop (fuel : nat) (count value : Z) : Z :=
  match fuel with
  | O => count
  | S fuel' => if pow10 count <=? value then digit_loop fuel' (count + 1) value else count
  end.
Definition digit_count (value : Z) : Z := digit_loop 38 0 value.

(** [magnitude / 10^digits], rounded half away from zero. *)
Definition round_off (magnitude digits : Z) : Z :=
  if digits =? 0 then magnitude
  else if MAX_DECIMAL_DIGITS <? digits then 0
  else
    let divisor := pow10 digits in
    let quotient := magnitude / divisor in
    let remainder := magnitude mod divisor in
    if divisor - remainder <=? remainder then quotient + 1 else quotient.

Definition words (mantissa : Z) : Z * Z :=
  let bits := wrap128 mantissa in
  (low_word bits, low_word (Z.shiftr bits 64)).

Definition mantissa (d : Decimal) : Z :=
  cast_signed128 (Z.lor (Z.shiftl (mantissa_words d).2 64) (mantissa_words d).1).

Definition new (mantissa scale : Z) : result DecimalError Decimal :=
  if (MAX_DECIMAL_DIGITS <? scale) || (LIMIT <=? Z.abs mantissa) then Err Overflow
  else Ok (mk scale (words mantissa)).

Definition from_magnitude (magnitude : Z) (negative : bool) (scale : Z) : result DecimalError Decimal :=
  if magnitude <? 2 ^ 127 then new (if negative then - magnitude else magnitude) scale
  else Err Overflow.

(** The loop of [normalized], for at most [scale] rounds. *)
Fixpoint strip_zeros (rounds : nat) (mantissa : Z) : Z * nat :=
  match rounds with
  | O => (mantissa, O)
  | S rounds' =>
      if Z.rem mantissa 10 =? 0 then strip_zeros rounds' (Z.quot mantissa 10) else (mantissa, rounds)
  end.
Definition normalized (d : Decimal) : Z * Z :=
  let '(m, s) := strip_zeros (Z.to_nat (scale d)) (mantissa d) in (m, Z.of_nat s).
Definition normalize (d : Decimal) : Decimal :=
  let '(m, s) := normalized d in mk s (words m).

(** ** Text *)

Definition is_digit (c : Z) : bool := (48 <=? c) && (c <=? 57).

(** The magnitude of the digits, read from the left. *)
Fixpoint read_magnitude (debug : bool) (magnitude : Z) (s : list Z) : option (result DecimalError Z) :=
  match s with
  | [] => Some (Ok magnitude)
  | byte :: s' =>
      match checked_mul128 magnitude 10 with
      | None => Some (Err Overflow)
      | Some value =>
          value ← add128 debug value (byte - 48);
          if value <? LIMIT then read_magnitude debug value s' else Some (Err Overflow)
      end
  end.

(** The sign and the rest of a text. *)
Definition strip_sign (text : list Z) : bool * list Z :=
  match text with
  | c :: rest => if c =? 45 then (true, rest) else if c =? 43 then (false, rest) else (false, text)
  | [] => (false, text)
  end.

Definition parse_digits (debug : bool) (text : list Z) (round : bool) : option (result DecimalError Decimal) :=
  let '(negative, unsigned) := strip_sign text in
  let '(integer, fraction) := default (unsigned, []) (split_once 46 unsigned) in
  if (bool_decide (integer = []) && bool_decide (fraction = []))
     || negb (forallb is_digit integer) || negb (forallb is_digit fraction)
  then Some (Err Invalid)
  else
    let long := (38 <? length fraction)%nat in
    if long && negb round then Some (Err Overflow)
    else
      let kept := if long then take 38 fraction else fraction in
      let dropped := if long then drop 38 fraction else [] in
      m ← read_magnitude debug 0 (integer ++ kept);
      match m with
      | Err e => Some (Err e)
      | Ok magnitude =>
          let magnitude := match dropped with digit :: _ => if 53 <=? digit then magnitude + 1 else magnitude | [] => magnitude end in
          Some (from_magnitude magnitude negative (Z.of_nat (length kept)))
      end.

Definition parse (debug : bool) (text : list Z) : option (result DecimalError Decimal) :=
  parse_digits debug text false.

Definition fmt (d : Decimal) : list Z :=
  let m := mantissa d in
  let digits := Date.decimal 39 (Z.abs m) in
  let scale := Z.to_nat (scale d) in
  (if m <? 0 then [45] else []) ++
  (if (scale =? 0)%nat then digits
   else if (scale <? length digits)%nat
   then take (length digits - scale) digits ++ 46 :: drop (length digits - scale) digits
   else 48 :: 46 :: replicate (scale - length digits) 48 ++ digits).

Definition to_xsd_string (d : Decimal) : list Z :=
  let '(m, s) := normalized d in
  let text := fmt (mk s (words m)) in
  if s =? 0 then text ++ [46; 48] else text.

(** ** Arithmetic *)

Definition rescale (d : Decimal) (scale' : Z) : result DecimalError Decimal :=
  if MAX_DECIMAL_DIGITS <? scale' then Err Overflow
  else
    let magnitude := Z.abs (mantissa d) in
    let negative := mantissa d <? 0 in
    rescaled ←
      (if scale d <=? scale' then ok_or (checked_mul128 magnitude (pow10 (scale' - scale d))) Overflow
       else Ok (round_off magnitude (scale d - scale')));
    from_magnitude rescaled negative scale'.

Definition with_precision (d : Decimal) (precision scale' : Z) : result DecimalError Decimal :=
  if negb ((1 <=? precision) && (precision <=? MAX_DECIMAL_DIGITS)) || (precision <? scale') then Err InvalidPrecision
  else
    rescaled ← rescale d scale';
    if pow10 precision <=? Z.abs (mantissa rescaled) then Err Overflow else Ok rescaled.

Definition aligned (a b : Decimal) : result DecimalError (Z * Z * Z) :=
  let scale' := Z.max (scale a) (scale b) in
  a' ← rescale a scale';
  b' ← rescale b scale';
  Ok (mantissa a', mantissa b', scale').

Definition checked_add (a b : Decimal) : result DecimalError Decimal :=
  '(left_, right_, scale') ← aligned a b;
  sum ← ok_or (checked128 (left_ + right_)) Overflow;
  new sum scale'.

Definition checked_sub (a b : Decimal) : result DecimalError Decimal :=
  '(left_, right_, scale') ← aligned a b;
  difference ← ok_or (checked128 (left_ - right_)) Overflow;
  new difference scale'.

(** The loop of [rounded]: how many digits to drop; [room] is the scale less
    the digits dropped so far. *)
Fixpoint fit_loop (debug : bool) (magnitude boundary : list Z) (room : nat) (dropped : Z)
  : option (result DecimalError Z) :=
  if Wide.ge magnitude boundary then
    match room with
    | O => Some (Err Overflow)
    | S room' =>
        boundary ← Wide.times_pow10 debug boundary 1;
        fit_loop debug magnitude boundary room' (dropped + 1)
    end
  else Some (Ok dropped).

Definition rounded (debug : bool) (magnitude : list Z) (negative : bool) (scale' : Z)
  : option (result DecimalError Decimal) :=
  let LIMBS := length magnitude in
  let dropped := saturating_sub scale' MAX_DECIMAL_DIGITS in
  boundary ← Wide.times_pow10 debug (Wide.from_u128 LIMBS LIMIT) (Z.to_nat dropped);
  fit ← fit_loop debug magnitude boundary (Z.to_nat (scale' - dropped)) dropped;
  match fit with
  | Err e => Some (Err e)
  | Ok dropped =>
      divisor ← Wide.times_pow10 debug (Wide.from_u128 LIMBS 1) (Z.to_nat dropped);
      let '(quotient, remainder) := Wide.div_rem magnitude divisor in
      match Wide.to_u128 quotient with
      | None => Some (Err Overflow)
      | Some magnitude =>
          let magnitude :=
            if Wide.ge remainder (Wide.minus divisor remainder) then magnitude + 1 else magnitude in
          let scale' := scale' - dropped in
          if magnitude =? LIMIT then
            if scale' =? 0 then Some (Err Overflow)
            else Some (from_magnitude (magnitude / 10) negative (scale' - 1))
          else Some (from_magnitude magnitude negative scale')
      end
  end.

Definition checked_mul (debug : bool) (a b : Decimal) : option (result DecimalError Decimal) :=
  let negative := xorb (mantissa a <? 0) (mantissa b <? 0) in
  let left_ := Z.abs (mantissa a) in
  let right_ := Z.abs (mantissa b) in
  let scale' := scale a + scale b in
  match checked_mul128 left_ right_ with
  | Some product =>
      let dropped := saturating_sub scale' MAX_DECIMAL_DIGITS in
      let magnitude := round_off product dropped in
      if LIMIT <=? magnitude then
        if dropped =? scale' then Some (Err Overflow)
        else
          let dropped := dropped + 1 in
          Some (from_magnitude (round_off product dropped) negative (scale' - dropped))
      else Some (from_magnitude magnitude negative (scale' - dropped))
  | None => rounded debug (Wide.product left_ right_) negative scale'
  end.

(** A digit of [quotient]: how often the denominator goes into the remainder,
    at most nine times. *)
Fixpoint take_out (fuel : nat) (remainder denominator : list Z) (digit : Z) : Z * list Z :=
  match fuel with
  | O => (digit, remainder)
  | S fuel' =>
      if Wide.ge remainder denominator
      then take_out fuel' (Wide.minus remainder denominator) denominator (digit + 1)
      else (digit, remainder)
  end.

(** The first [n] digits of the fraction. *)
Fixpoint fraction_digits (debug : bool) (n : nat) (remainder denominator : list Z) : option (list Z) :=
  match n with
  | O => Some []
  | S n' =>
      remainder ← Wide.times_pow10 debug remainder 1;
      let '(digit, remainder) := take_out 10 remainder denominator 0 in
      digits ← fraction_digits debug n' remainder denominator;
      Some (digit :: digits)
  end.

Definition SIGNIFICANT : Z := 16.

(** [iter().position] of the first digit that is not 0. *)
Fixpoint leading_zeros (digits : list Z) : option nat :=
  match digits with
  | [] => None
  | d :: digits' => if negb (d =? 0) then Some O else S <$> leading_zeros digits'
  end.

Definition quotient (debug : bool) (numerator denominator : list Z) (negative : bool) (least_scale : Z)
  : option (result DecimalError Decimal) :=
  let '(integer, remainder) := Wide.div_rem numerator denominator in
  match (match Wide.to_u128 integer with Some value => if value <? LIMIT then Some value else None | None => None end) with
  | None => Some (Err Overflow)
  | Some integer =>
      let integer_digits := digit_count integer in
      fraction ← fraction_digits debug 39 remainder denominator;
      let wanted :=
        if 0 <? integer then saturating_sub SIGNIFICANT integer_digits
        else match leading_zeros fraction with
             | Some zeros => Z.min (Z.of_nat zeros + SIGNIFICANT) 255
             | None => 0
             end in
      let scale' := Z.min (Z.max wanted least_scale) (MAX_DECIMAL_DIGITS - integer_digits) in
      let kept := foldl (λ value digit, value * 10 + digit) 0 (take (Z.to_nat scale') fraction) in
      let magnitude := integer * pow10 scale' + kept in
      let magnitude := if 5 <=? default 0 (fraction !! Z.to_nat scale') then magnitude + 1 else magnitude in
      if LIMIT <=? magnitude then Some (Err Overflow)
      else Some (from_magnitude magnitude negative scale')
  end.

Definition checked_div (debug : bool) (a b : Decimal) : option (result DecimalError Decimal) :=
  if mantissa b =? 0 then Some (Err DivisionByZero)
  else
    let negative := xorb (mantissa a <? 0) (mantissa b <? 0) in
    numerator ← Wide.times_pow10 debug (Wide.from_u128 4 (Z.abs (mantissa a))) (Z.to_nat (scale b));
    denominator ← Wide.times_pow10 debug (Wide.from_u128 4 (Z.abs (mantissa b))) (Z.to_nat (scale a));
    quotient debug numerator denominator negative (Z.max (scale a) (scale b)).

(** The remainder of two magnitudes at scales [sa] and [sb], at the scale
    [scale']; in 256 bits where 128 do not hold them. *)
Definition rem_magnitude (debug : bool) (left_ right_ sa sb scale' : Z) : option (result DecimalError Z) :=
  match checked_mul128 left_ (pow10 (scale' - sa)), checked_mul128 right_ (pow10 (scale' - sb)) with
  | Some left_, Some right_ => Some (Ok (left_ mod right_))
  | _, _ =>
      left_ ← Wide.times_pow10 debug (Wide.from_u128 4 left_) (Z.to_nat (scale' - sa));
      right_ ← Wide.times_pow10 debug (Wide.from_u128 4 right_) (Z.to_nat (scale' - sb));
      Some (ok_or (Wide.to_u128 (Wide.div_rem left_ right_).2) Overflow)
  end.

Definition checked_rem (debug : bool) (a b : Decimal) : option (result DecimalError Decimal) :=
  if mantissa b =? 0 then Some (Err DivisionByZero)
  else
    let scale' := Z.max (scale a) (scale b) in
    magnitude ← rem_magnitude debug (Z.abs (mantissa a)) (Z.abs (mantissa b)) (scale a) (scale b) scale';
    Some (m ← magnitude; from_magnitude m (mantissa a <? 0) scale').

Definition neg (d : Decimal) : Decimal := mk (scale d) (words (- mantissa d)).
Definition abs (d : Decimal) : Decimal := if mantissa d <? 0 then neg d else d.
Definition signum (d : Decimal) : Z :=
  match mantissa d ?= 0 with Lt => -1 | Eq => 0 | Gt => 1 end.

(** The integer part toward zero, and the sign of what was cut off. *)
Definition truncated (d : Decimal) : Z * Z :=
  let unit_ := pow10 (scale d) in
  (Z.quot (mantissa d) unit_, Z.sgn (Z.rem (mantissa d) unit_)).

Definition whole (integer : Z) : Decimal := mk 0 (words integer).

Definition floor (d : Decimal) : Decimal :=
  let '(integer, fraction) := truncated d in whole (if fraction <? 0 then integer - 1 else integer).
Definition ceil (d : Decimal) : Decimal :=
  let '(integer, fraction) := truncated d in whole (if 0 <? fraction then integer + 1 else integer).
Definition round (d : Decimal) : Decimal :=
  let integer := cast_signed128 (round_off (Z.abs (mantissa d)) (scale d)) in
  whole (if mantissa d <? 0 then - integer else integer).

Definition from_i64 (value : Z) : Decimal := mk 0 (words value).
Definition trunc_to_i64 (d : Decimal) : option Z :=
  let integer := Z.quot (mantissa d) (pow10 (scale d)) in
  if (- 2 ^ 63 <=? integer) && (integer <? 2 ^ 63) then Some integer else None.

(** [Ord]: the integer parts, then the fractions at 38 digits. *)
Definition cmp_parts (d : Decimal) : Z * Z :=
  let unit_ := pow10 (scale d) in
  let widen := pow10 (MAX_DECIMAL_DIGITS - scale d) in
  (Z.quot (mantissa d) unit_, Z.rem (mantissa d) unit_ * widen).
Definition cmp (a b : Decimal) : comparison :=
  let '(i, f) := cmp_parts a in
  let '(i', f') := cmp_parts b in
  match i ?= i' with Eq => f ?= f' | c => c end.
Definition eq (a b : Decimal) : bool := match cmp a b with Eq => true | _ => false end.
End Decimal.

(** ** Decimal types *)

Module DecimalType.
Import Decimal.

Record DecimalType := mk { precision : Z; scale : Z }.

Definition new (precision scale : Z) : result DecimalError DecimalType :=
  if (1 <=? precision) && (precision <=? MAX_DECIMAL_DIGITS) && (scale <=? precision)
  then Ok (mk precision scale) else Err InvalidPrecision.

Definition fit (ty : DecimalType) (value : Decimal) : result DecimalError Decimal :=
  with_precision value (precision ty) (scale ty).

Definition holds (ty : DecimalType) (value : Decimal) : bool :=
  (Decimal.scale value =? scale ty) && (Z.abs (mantissa value) <? pow10 (precision ty)).
End DecimalType.

(** ** Sums *)

Module DecimalSum.
Import Decimal.

Definition SUM_LIMBS : nat := 6.
Definition DECIMAL_SUM_BYTES : nat := 1 + 2 * 8 * SUM_LIMBS.

Record DecimalSum := mk { positive : list Z; negative : list Z; scale : Z }.

Definition new : DecimalSum := mk (Wide.from_u128 SUM_LIMBS 0) (Wide.from_u128 SUM_LIMBS 0) 0.

(** The first step of [add_magnitude]: both magnitudes at a larger scale. *)
Definition raise_scale (debug : bool) (s : DecimalSum) (scale' : Z) : option DecimalSum :=
  if scale s <? scale' then
    p ← Wide.times_pow10 debug (positive s) (Z.to_nat (scale' - scale s));
    n ← Wide.times_pow10 debug (negative s) (Z.to_nat (scale' - scale s));
    Some (mk p n scale')
  else Some s.

Definition add_magnitude (debug : bool) (s : DecimalSum) (magnitude : Z) (negative_ : bool) (scale' : Z)
  : option DecimalSum :=
  s ← raise_scale debug s scale';
  aligned ← Wide.times_pow10 debug (Wide.from_u128 SUM_LIMBS magnitude) (Z.to_nat (scale s - scale'));
  if negative_ then n ← Wide.plus debug (negative s) aligned; Some (mk (positive s) n (scale s))
  else p ← Wide.plus debug (positive s) aligned; Some (mk p (negative s) (scale s)).

Definition from_i128 (debug : bool) (value : Z) : option DecimalSum :=
  add_magnitude debug new (Z.abs value) (value <? 0) 0.

Definition add (debug : bool) (s : DecimalSum) (value : Decimal) : option DecimalSum :=
  add_magnitude debug s (Z.abs (mantissa value)) (mantissa value <? 0) (Decimal.scale value).

Definition magnitude (s : DecimalSum) : list Z * bool :=
  if Wide.ge (positive s) (negative s) then (Wide.minus (positive s) (negative s), false)
  else (Wide.minus (negative s) (positive s), true).

Definition total (debug : bool) (s : DecimalSum) : option (result DecimalError Decimal) :=
  let '(m, negative_) := magnitude s in rounded debug m negative_ (scale s).

Definition average (debug : bool) (s : DecimalSum) (count : Z) : option (result DecimalError Decimal) :=
  if count =? 0 then Some (Err DivisionByZero)
  else
    let '(m, negative_) := magnitude s in
    denominator ← Wide.times_pow10 debug (Wide.from_u128 SUM_LIMBS count) (Z.to_nat (scale s));
    quotient debug m denominator negative_ (scale s).

Definition to_le_bytes (s : DecimalSum) : list Z :=
  scale s :: words_to_bytes (positive s ++ negative s).

Definition from_le_bytes (bytes : list Z) : option DecimalSum :=
  match bytes with
  | [] => None
  | b :: rest =>
      if MAX_DECIMAL_DIGITS <? b then None
      else
        let limbs := read_words (2 * SUM_LIMBS) rest in
        Some (mk (take SUM_LIMBS limbs) (drop SUM_LIMBS limbs) b)
  end.

(** The sum of a sequence of rows. *)
Fixpoint add_all (debug : bool) (s : DecimalSum) (rows : list Decimal) : option DecimalSum :=
  match rows with
  | [] => Some s
  | row :: rows' => s ← add debug s row; add_all debug s rows'
  end.
End DecimalSum.
