(* ===== verification/DecimalFacts.v ===== *)
(** * Decimals as numbers

    What the operations of Decimal.v compute on the numbers the decimals stand
    for: [units d] is the value of [d] in units of [10^-38], so that every
    decimal is an integer. *)
From S2P Require Import Prelude Bytes Bits Date Wide Decimal.
Import Decimal.
Open Scope Z_scope.

(** ** Numbers *)

(** [n / d] rounded to the nearest integer, a half up. *)
Definition nearest_div (n d : Z) : Z := (2 * n + d) / (2 * d).

(** A decimal as [new] builds it. *)
Definition decimal_ok (d : Decimal) : Prop :=
  0 ≤ scale d ≤ 38 ∧ Z.abs (mantissa d) < 10 ^ 38 ∧ mantissa_words d = words (mantissa d).

Definition units (d : Decimal) : Z := mantissa d * 10 ^ (38 - scale d).

Lemma pow10_spec n : 0 ≤ n ≤ 38 → pow10 n = 10 ^ n.
Proof.
  intros Hn. assert (H : forallb (λ n, pow10 n =? 10 ^ n) (seqZ 0 39) = true) by (vm_compute; reflexivity).
  rewrite forallb_forall in H. apply Z.eqb_eq, H, list_elem_of_In, elem_of_seqZ. lia.
Qed.

Lemma LIMIT_spec : LIMIT = 10 ^ 38.
Proof. reflexivity. Qed.

Lemma pow10_pos n : 0 < 10 ^ n ∨ n < 0.
Proof. destruct (Z.lt_ge_cases n 0); [by right|left; apply Z.pow_pos_nonneg; lia]. Qed.

Ltac pow10_facts :=
  repeat match goal with
  | |- context [10 ^ ?n] =>
      lazymatch goal with H : 0 < 10 ^ n |- _ => fail | _ => assert (0 < 10 ^ n) by (apply Z.pow_pos_nonneg; lia) end
  | _ : context [10 ^ ?n] |- _ =>
      lazymatch goal with H : 0 < 10 ^ n |- _ => fail | _ => assert (0 < 10 ^ n) by (apply Z.pow_pos_nonneg; lia) end
  end.

Lemma pow10_split a b : 0 ≤ a → 0 ≤ b → 10 ^ (a + b) = 10 ^ a * 10 ^ b.
Proof. intros. by apply Z.pow_add_r. Qed.

(** ** Rounded division *)

Lemma nearest_div_bounds n d : 0 < d →
  2 * d * nearest_div n d ≤ 2 * n + d < 2 * d * nearest_div n d + 2 * d.
Proof.
  intros Hd. unfold nearest_div. pose proof (Z.div_mod (2 * n + d) (2 * d)).
  pose proof (Z.mod_pos_bound (2 * n + d) (2 * d)). lia.
Qed.

Lemma nearest_div_unique n d q : 0 < d → 2 * d * q ≤ 2 * n + d < 2 * d * q + 2 * d → nearest_div n d = q.
Proof. intros Hd Hq. pose proof (nearest_div_bounds n d Hd). nia. Qed.

Lemma nearest_div_nonneg n d : 0 < d → 0 ≤ n → 0 ≤ nearest_div n d.
Proof. intros. apply Z.div_pos; lia. Qed.

Lemma nearest_div_1 n : nearest_div n 1 = n.
Proof. apply nearest_div_unique; lia. Qed.

Lemma nearest_div_exact n d : 0 < d → nearest_div (n * d) d = n.
Proof. intros. apply nearest_div_unique; nia. Qed.

(** Rounding reaches a bound no later than the number does. *)
Lemma nearest_div_ge n d x : 0 < d → x * d ≤ n → x ≤ nearest_div n d.
Proof. intros Hd Hx. pose proof (nearest_div_bounds n d Hd). nia. Qed.
Lemma nearest_div_le n d x : 0 < d → n ≤ x * d → nearest_div n d ≤ x.
Proof. intros Hd Hx. pose proof (nearest_div_bounds n d Hd). nia. Qed.

(** The quotient and the remainder decide the rounding. *)
Lemma nearest_div_rem n d : 0 < d →
  nearest_div n d = (if d - n mod d <=? n mod d then n / d + 1 else n / d).
Proof.
  intros Hd. pose proof (Z.div_mod n d). pose proof (Z.mod_pos_bound n d).
  apply nearest_div_unique; [done|]. destruct (Z.leb_spec (d - n mod d) (n mod d)); nia.
Qed.

(** A larger divisor rounds to less. *)
Lemma nearest_div_anti n d d' : 0 ≤ n → 0 < d ≤ d' → nearest_div n d' ≤ nearest_div n d.
Proof.
  intros Hn Hd. pose proof (nearest_div_bounds n d). pose proof (nearest_div_bounds n d').
  pose proof (nearest_div_nonneg n d). pose proof (nearest_div_nonneg n d'). nia.
Qed.

Lemma round_off_spec m k : 0 ≤ m < 2 ^ 128 → 0 ≤ k → round_off m k = nearest_div m (10 ^ k).
Proof.
  intros Hm Hk. unfold round_off, MAX_DECIMAL_DIGITS. destruct (Z.eqb_spec k 0) as [->|Hk0].
  { by rewrite nearest_div_1. }
  destruct (Z.ltb_spec 38 k) as [Hgt|Hle].
  - assert (10 ^ 39 ≤ 10 ^ k) by (apply Z.pow_le_mono_r; lia).
    symmetry. apply nearest_div_unique; [lia|]. change (2 ^ 128) with 340282366920938463463374607431768211456 in Hm.
    change (10 ^ 39) with 1000000000000000000000000000000000000000 in *. lia.
  - rewrite pow10_spec by lia. rewrite nearest_div_rem; [done|]. apply Z.pow_pos_nonneg; lia.
Qed.

(** ** The words of a mantissa *)

Lemma words_mantissa s m : - 2 ^ 127 ≤ m < 2 ^ 127 → mantissa (mk s (words m)) = m.
Proof.
  intros Hm. unfold mantissa, words. cbn [mantissa_words fst snd]. set (bits := wrap128 m).
  assert (Hb : 0 ≤ bits < 2 ^ 128) by (apply Z.mod_pos_bound; lia).
  rewrite lor_words by apply low_word_u64. rewrite high_word_u64, <- split_word by done.
  unfold cast_signed128. subst bits. unfold wrap128 in *. destruct (Z.le_gt_cases 0 m).
  - rewrite Z.mod_small by lia. destruct (Z.ltb_spec m (2 ^ 127)); lia.
  - rewrite <- (Z.mod_unique m (2 ^ 128) (-1) (m + 2 ^ 128)) by lia.
    destruct (Z.ltb_spec (m + 2 ^ 128) (2 ^ 127)); lia.
Qed.

Lemma pow38_fits : 10 ^ 38 < 2 ^ 127.
Proof. reflexivity. Qed.

Lemma mantissa_small s m : Z.abs m < 10 ^ 38 → mantissa (mk s (words m)) = m.
Proof. intros Hm. pose proof pow38_fits. apply words_mantissa. lia. Qed.

Lemma mk_ok s m : 0 ≤ s ≤ 38 → Z.abs m < 10 ^ 38 → decimal_ok (mk s (words m)).
Proof. intros Hs Hm. split; [done|]. by rewrite mantissa_small by done. Qed.

(** A decimal is its scale and its mantissa. *)
Lemma decimal_eq a b : decimal_ok a → decimal_ok b → scale a = scale b → mantissa a = mantissa b → a = b.
Proof.
  intros (_ & _ & Ha) (_ & _ & Hb) Hs Hm. destruct a as [sa wa], b as [sb wb]. cbn [scale mantissa_words] in *.
  congruence.
Qed.

Lemma new_spec m s : 0 ≤ s →
  new m s = if decide (s ≤ 38 ∧ Z.abs m < 10 ^ 38) then Ok (mk s (words m)) else Err Overflow.
Proof.
  intros Hs. unfold new, MAX_DECIMAL_DIGITS. rewrite LIMIT_spec.
  destruct (Z.ltb_spec 38 s), (Z.leb_spec (10 ^ 38) (Z.abs m)); case_decide; first [reflexivity|lia].
Qed.

Definition signed (negative : bool) (m : Z) : Z := if negative then - m else m.

Lemma signed_abs negative m : 0 ≤ m → Z.abs (signed negative m) = m.
Proof. destruct negative; simpl; lia. Qed.

Lemma from_magnitude_spec m negative s : 0 ≤ m → 0 ≤ s ≤ 38 →
  from_magnitude m negative s = if m <? 10 ^ 38 then Ok (mk s (words (signed negative m))) else Err Overflow.
Proof.
  intros Hm Hs. unfold from_magnitude. fold (signed negative m). pose proof pow38_fits.
  rewrite new_spec, signed_abs by lia.
  destruct (Z.ltb_spec m (2 ^ 127)), (Z.ltb_spec m (10 ^ 38)); try case_decide; first [reflexivity|lia].
Qed.

(** ** The order *)

Lemma compare_quot_rem x y w : 0 < w →
  match Z.quot x w ?= Z.quot y w with Eq => Z.rem x w ?= Z.rem y w | c => c end = (x ?= y).
Proof.
  intros Hw. pose proof (Z.quot_rem x w ltac:(lia)) as Ex. pose proof (Z.quot_rem y w ltac:(lia)) as Ey.
  assert (Hsx : 0 ≤ x → 0 ≤ Z.rem x w < w) by (intros; apply Z.rem_bound_pos; lia).
  assert (Hsy : 0 ≤ y → 0 ≤ Z.rem y w < w) by (intros; apply Z.rem_bound_pos; lia).
  assert (Hnx : x ≤ 0 → - w < Z.rem x w ≤ 0).
  { intros Hx. pose proof (Z.rem_bound_pos (- x) w ltac:(lia) Hw). rewrite Z.rem_opp_l in H by lia. lia. }
  assert (Hny : y ≤ 0 → - w < Z.rem y w ≤ 0).
  { intros Hy. pose proof (Z.rem_bound_pos (- y) w ltac:(lia) Hw). rewrite Z.rem_opp_l in H by lia. lia. }
  revert Ex Ey Hsx Hsy Hnx Hny. generalize (Z.quot x w), (Z.rem x w), (Z.quot y w), (Z.rem y w).
  intros qx rx qy ry Ex Ey Hsx Hsy Hnx Hny.
  assert (Hx : 0 ≤ qx ∧ 0 ≤ rx < w ∨ qx ≤ 0 ∧ - w < rx ≤ 0) by (destruct (Z.le_gt_cases 0 x); [left|right]; nia).
  assert (Hy : 0 ≤ qy ∧ 0 ≤ ry < w ∨ qy ≤ 0 ∧ - w < ry ≤ 0) by (destruct (Z.le_gt_cases 0 y); [left|right]; nia).
  clear Hsx Hsy Hnx Hny. destruct (Z.compare_spec qx qy) as [<-|L|G].
  - subst x y. by rewrite Z.add_compare_mono_l.
  - symmetry. apply Z.compare_lt_iff. nia.
  - symmetry. apply Z.compare_gt_iff. nia.
Qed.

Lemma cmp_parts_units d : decimal_ok d →
  cmp_parts d = (Z.quot (units d) (10 ^ 38), Z.rem (units d) (10 ^ 38)).
Proof.
  intros (Hs & _ & _). unfold cmp_parts, units, MAX_DECIMAL_DIGITS. rewrite !pow10_spec by lia.
  replace (10 ^ 38) with (10 ^ scale d * 10 ^ (38 - scale d)).
  2: { rewrite <- Z.pow_add_r by lia. f_equal. lia. }
  pow10_facts. rewrite Z.quot_mul_cancel_r, Z.mul_rem_distr_r by lia. done.
Qed.

Lemma cmp_units a b : decimal_ok a → decimal_ok b → cmp a b = (units a ?= units b).
Proof.
  intros Ha Hb. unfold cmp. rewrite !cmp_parts_units by done. apply compare_quot_rem. reflexivity.
Qed.

(** ** Normal forms *)

Lemma strip_zeros_spec n m : let '(m', n') := strip_zeros n m in
  (n' ≤ n)%nat ∧ m = m' * 10 ^ Z.of_nat (n - n') ∧ (n' = O ∨ Z.rem m' 10 ≠ 0).
Proof.
  revert m. induction n as [|n IH]; intros m; cbn [strip_zeros].
  { split_and!; [lia|simpl; lia|by left]. }
  destruct (Z.eqb_spec (Z.rem m 10) 0) as [E|E].
  - specialize (IH (Z.quot m 10)). destruct (strip_zeros n (Z.quot m 10)) as [m' n'].
    destruct IH as (Hle & Heq & Hend). split_and!; [lia| |done].
    pose proof (Z.quot_rem m 10 ltac:(lia)) as Hm. rewrite E, Heq in Hm.
    replace (S n - n')%nat with (S (n - n'))%nat by lia. rewrite Nat2Z.inj_succ, Z.pow_succ_r by lia. lia.
  - split_and!; [lia| |by right]. rewrite Nat.sub_diag. simpl. lia.
Qed.

Lemma normalized_spec d : decimal_ok d → let '(m, s) := normalized d in
  0 ≤ s ≤ scale d ∧ mantissa d = m * 10 ^ (scale d - s) ∧ (s = 0 ∨ Z.rem m 10 ≠ 0).
Proof.
  intros (Hs & _ & _). unfold normalized. pose proof (strip_zeros_spec (Z.to_nat (scale d)) (mantissa d)) as H.
  destruct (strip_zeros _ _) as [m n]. destruct H as (Hle & Heq & Hend).
  split_and!; [lia|lia| |destruct Hend as [->|]; [by left|by right]].
  rewrite Heq. do 2 f_equal. lia.
Qed.

(** Two normal forms of a value are the same. *)
Lemma normal_form_unique m s m' s' : 0 ≤ s → 0 ≤ s' → s ≤ 38 → s' ≤ 38 →
  (s = 0 ∨ Z.rem m 10 ≠ 0) → (s' = 0 ∨ Z.rem m' 10 ≠ 0) →
  m * 10 ^ (38 - s) = m' * 10 ^ (38 - s') → (m, s) = (m', s').
Proof.
  assert (Hwlog : ∀ m s m' s', 0 ≤ s < s' → s' ≤ 38 → (s' = 0 ∨ Z.rem m' 10 ≠ 0) →
    m * 10 ^ (38 - s) ≠ m' * 10 ^ (38 - s')).
  { clear. intros m s m' s' Hlt Hs' [->|Hr] Heq; [lia|]. apply Hr.
    replace (38 - s) with ((s' - s) + (38 - s')) in Heq by lia. rewrite Z.pow_add_r in Heq by lia.
    assert (Hm' : m' = m * 10 ^ (s' - s)).
    { assert (0 < 10 ^ (38 - s')) by (apply Z.pow_pos_nonneg; lia). nia. }
    rewrite Hm'. replace (s' - s) with (Z.succ (s' - s - 1)) by lia. rewrite Z.pow_succ_r by lia.
    rewrite Z.rem_divide by lia. exists (m * 10 ^ (s' - s - 1)). lia. }
  intros Hs Hs' Hb Hb' He He' Heq. destruct (Z.lt_trichotomy s s') as [Hlt|[->|Hlt]].
  - by destruct (Hwlog m s m' s').
  - f_equal. assert (0 < 10 ^ (38 - s')) by (apply Z.pow_pos_nonneg; lia). nia.
  - by destruct (Hwlog m' s' m s).
Qed.

Lemma normalized_units a b : decimal_ok a → decimal_ok b → normalized a = normalized b ↔ units a = units b.
Proof.
  intros Ha Hb. pose proof (normalized_spec a Ha) as Na. pose proof (normalized_spec b Hb) as Nb.
  destruct (normalized a) as [ma sa], (normalized b) as [mb sb].
  destruct Na as (Hsa & Ea & Fa), Nb as (Hsb & Eb & Fb). destruct Ha as (Ha & _), Hb as (Hb & _).
  assert (Hua : units a = ma * 10 ^ (38 - sa)).
  { unfold units. rewrite Ea, <- Z.mul_assoc, <- Z.pow_add_r by lia. do 2 f_equal. lia. }
  assert (Hub : units b = mb * 10 ^ (38 - sb)).
  { unfold units. rewrite Eb, <- Z.mul_assoc, <- Z.pow_add_r by lia. do 2 f_equal. lia. }
  rewrite Hua, Hub. split; [intros [= -> ->]; done|]. intros Heq. apply normal_form_unique; auto; lia.
Qed.

(** ** Products, quotients and sums of decimals

    The rounding of products and sums gives the decimal nearest the exact
    value at the largest scale that fits 38 digits, and division the nearest
    at the scale it chooses. *)
Import Decimal.
Open Scope Z_scope.

(** ** The nearest decimal *)

(** [r] is the decimal nearest [m / 10^scale'], negated when [negative], at
    the largest scale at which it fits 38 digits; an error when it fits at no
    scale. *)
Definition rounds_to (m scale' : Z) (negative : bool) (r : result DecimalError Decimal) : Prop :=
  match r with
  | Ok d =>
      decimal_ok d ∧ scale d ≤ scale' ∧
      mantissa d = signed negative (nearest_div m (10 ^ (scale' - scale d))) ∧
      ∀ s, scale d < s ≤ Z.min 38 scale' → 10 ^ 38 ≤ nearest_div m (10 ^ (scale' - s))
  | Err e => e = Overflow ∧ 10 ^ 38 ≤ nearest_div m (10 ^ scale')
  end.

Lemma nearest_pow_anti m j k : 0 ≤ m → 0 ≤ j ≤ k → nearest_div m (10 ^ k) ≤ nearest_div m (10 ^ j).
Proof.
  intros Hm Hjk. apply nearest_div_anti; [done|]. split; [apply Z.pow_pos_nonneg; lia|].
  apply Z.pow_le_mono_r; lia.
Qed.

Lemma rounds_to_unique m scale' negative r r' : 0 ≤ m → 0 ≤ scale' →
  rounds_to m scale' negative r → rounds_to m scale' negative r' → r = r'.
Proof.
  intros Hm Hs.
  assert (Hno : ∀ d, rounds_to m scale' negative (Ok d) → nearest_div m (10 ^ scale') < 10 ^ 38).
  { intros d ((Hsc & Hab & _) & Hle & Hmd & _). rewrite Hmd, signed_abs in Hab.
    - pose proof (nearest_pow_anti m (scale' - scale d) scale' Hm). lia.
    - apply nearest_div_nonneg; [apply Z.pow_pos_nonneg; lia|done]. }
  assert (Hle : ∀ d d', rounds_to m scale' negative (Ok d) → rounds_to m scale' negative (Ok d') →
    scale d' ≤ scale d).
  { intros d d' (Hok & _ & _ & Hmax) (Hok' & Hle' & Hmd' & _). destruct (Z.le_gt_cases (scale d') (scale d)); [done|].
    destruct Hok' as (Hsc' & Hab' & _). specialize (Hmax (scale d') ltac:(lia)).
    rewrite Hmd', signed_abs in Hab'; [lia|]. apply nearest_div_nonneg; [apply Z.pow_pos_nonneg; lia|done]. }
  destruct r as [d|e], r' as [d'|e']; intros H H'.
  - pose proof (Hle _ _ H H'). pose proof (Hle _ _ H' H). destruct H as (Hok & _ & Hm1 & _), H' as (Hok' & _ & Hm2 & _).
    f_equal. assert (Hse : scale d = scale d') by lia. apply decimal_eq; [done..|]. rewrite Hm1, Hm2, Hse. done.
  - specialize (Hno _ H). destruct H' as [_ H']. lia.
  - specialize (Hno _ H'). destruct H as [_ H]. lia.
  - destruct H as [-> _], H' as [-> _]. done.
Qed.

(** Dropping [k] digits is right when the rest fits and one digit fewer did
    not, or no fewer could be dropped. *)
Lemma rounds_to_intro m scale' negative k : 0 ≤ m → 0 ≤ k ≤ scale' → scale' - k ≤ 38 →
  nearest_div m (10 ^ k) < 10 ^ 38 →
  (k = saturating_sub scale' 38 ∨ 10 ^ 38 ≤ nearest_div m (10 ^ (k - 1))) →
  rounds_to m scale' negative (from_magnitude (nearest_div m (10 ^ k)) negative (scale' - k)).
Proof.
  intros Hm Hk Hs Hlt Hmin. assert (Hn : 0 ≤ nearest_div m (10 ^ k)).
  { apply nearest_div_nonneg; [apply Z.pow_pos_nonneg; lia|done]. }
  rewrite from_magnitude_spec, (proj2 (Z.ltb_lt _ _)) by lia.
  assert (Hsm : Z.abs (signed negative (nearest_div m (10 ^ k))) < 10 ^ 38) by (rewrite signed_abs; lia).
  split_and!; [apply mk_ok; [lia|done]|cbn [scale]; lia| |].
  - rewrite mantissa_small by done. cbn [scale]. do 3 f_equal. lia.
  - cbn [scale]. intros s Hsr. unfold saturating_sub in Hmin. destruct Hmin as [->|Hge]; [lia|].
    pose proof (nearest_pow_anti m (scale' - s) (k - 1) Hm). lia.
Qed.

(** ** [rounded] *)

Lemma fit_loop_spec debug L w b room k0 : Wide.ok L w → Wide.ok L b → 0 ≤ k0 → Wide.eval b = 10 ^ (38 + k0) →
  10 * Wide.eval w < Wide.capacity L →
  (∃ k, fit_loop debug w b room k0 = Some (Ok k) ∧ k0 ≤ k ≤ k0 + Z.of_nat room ∧
     Wide.eval w < 10 ^ (38 + k) ∧ (k = k0 ∨ 10 ^ (38 + (k - 1)) ≤ Wide.eval w)) ∨
  (fit_loop debug w b room k0 = Some (Err Overflow) ∧ 10 ^ (38 + (k0 + Z.of_nat room)) ≤ Wide.eval w).
Proof.
  intros Hw. revert b k0. induction room as [|room IH]; intros b k0 Hb Hk Eb Hcap;
    cbn [fit_loop]; rewrite (ge_spec L) by done; destruct (Z.leb_spec (Wide.eval b) (Wide.eval w)) as [Hge|Hlt].
  - right. rewrite Z.add_0_r, <- Eb. done.
  - left. exists k0. split_and!; [done|lia..|by left].
  - destruct (times_pow10_spec debug L b 1 Hb) as (b' & -> & Hb' & Eb'); [simpl (10 ^ _); lia|].
    cbn [mbind option_bind]. assert (Eb1 : Wide.eval b' = 10 ^ (38 + (k0 + 1))).
    { rewrite Eb', Eb. change (10 ^ Z.of_nat 1) with (10 ^ 1). rewrite <- Z.pow_add_r by lia. f_equal. lia. }
    destruct (IH b' (k0 + 1) Hb' ltac:(lia) Eb1 Hcap) as [(k & -> & Hr & Hlt' & Hmin)|[-> Hov]].
    + left. exists k. split_and!; [done|lia..|done|]. right. destruct Hmin as [->|Hmin]; [|done].
      replace (k0 + 1 - 1) with k0 by lia. lia.
    + right. split; [done|]. replace (k0 + Z.of_nat (S room)) with (k0 + 1 + Z.of_nat room) by lia. done.
  - left. exists k0. split_and!; [done|lia..|by left].
Qed.

(** A magnitude below a power of ten that rounds up to it carries exactly. *)
Lemma carry_drops_zero m k : 0 ≤ k → m < 10 ^ (38 + k) → nearest_div m (10 ^ k) = 10 ^ 38 →
  nearest_div m (10 ^ (k + 1)) = 10 ^ 37.
Proof.
  intros Hk Hlt Heq. assert (Hp : 0 < 10 ^ k) by (apply Z.pow_pos_nonneg; lia).
  pose proof (nearest_div_bounds m (10 ^ k) Hp) as Hb. rewrite Heq in Hb.
  rewrite Z.pow_add_r in Hlt by lia. rewrite Z.pow_add_r, Z.pow_1_r by lia.
  change (10 ^ 38) with (10 * 10 ^ 37) in *. apply nearest_div_unique; [lia|].
  generalize dependent (10 ^ k). intros p Hp. assert (Hc : 0 < 10 ^ 37) by reflexivity.
  generalize dependent (10 ^ 37). intros c _. nia.
Qed.

Section Rounded.
Context (debug : bool) (L : nat) (w : list Z) (negative : bool) (scale' : Z).
Hypothesis HL : (4 ≤ L)%nat.
Hypothesis Hw : Wide.ok L w.
Hypothesis Hcap : 10 * Wide.eval w < Wide.capacity L.
Hypothesis Hscale : 0 ≤ scale' ≤ 76.

Lemma capacity_256 : 2 ^ 256 ≤ Wide.capacity L.
Proof. unfold Wide.capacity. apply Z.pow_le_mono_r; lia. Qed.

Lemma pow76_fits k : 0 ≤ k ≤ 76 → 10 ^ k * 2 < Wide.capacity L.
Proof.
  intros Hk. pose proof capacity_256. assert (10 ^ k ≤ 10 ^ 76) by (apply Z.pow_le_mono_r; lia).
  assert (10 ^ 76 * 2 < 2 ^ 256) by reflexivity. lia.
Qed.

(** The quotient by a power of ten, rounded by its remainder. *)
Lemma rounded_quotient divisor k : 0 ≤ k ≤ 76 → Wide.ok L divisor → Wide.eval divisor = 10 ^ k →
  let '(quotient, remainder) := Wide.div_rem w divisor in
  (if Wide.ge remainder (Wide.minus divisor remainder) then Wide.eval quotient + 1 else Wide.eval quotient)
  = nearest_div (Wide.eval w) (10 ^ k) ∧ Wide.ok L quotient ∧ Wide.eval quotient = Wide.eval w / 10 ^ k.
Proof.
  intros Hk Hd Ed. pose proof (pow76_fits k Hk). assert (0 < 10 ^ k) by (apply Z.pow_pos_nonneg; lia).
  pose proof (div_rem_spec L w divisor ltac:(lia) Hw Hd ltac:(lia) ltac:(lia)) as Hdr.
  destruct (Wide.div_rem w divisor) as [q r]. destruct Hdr as (Hq & Hr & Eq & Er). rewrite Ed in *.
  pose proof (Z.mod_pos_bound (Wide.eval w) (10 ^ k) ltac:(lia)).
  destruct (minus_spec L divisor r Hd Hr) as [Hm Em]; [lia|].
  rewrite (ge_spec L) by done. rewrite Em, Ed, Er, Eq. split_and!; [|done..].
  symmetry. by apply nearest_div_rem.
Qed.

Lemma rounded_spec : ∃ r, rounded debug w negative scale' = Some r ∧ rounds_to (Wide.eval w) scale' negative r.
Proof.
  unfold rounded. rewrite (proj1 Hw). set (k0 := saturating_sub scale' MAX_DECIMAL_DIGITS).
  pose proof (ok_bound L w Hw) as Hw0.
  assert (Hk0 : 0 ≤ k0 ≤ scale' ∧ k0 ≤ 38 ∧ scale' - k0 ≤ 38) by (subst k0; unfold saturating_sub, MAX_DECIMAL_DIGITS; lia).
  pose proof capacity_256 as H256.
  destruct (times_pow10_spec debug L (Wide.from_u128 L LIMIT) (Z.to_nat k0)) as (b & -> & Hb & Eb).
  { apply from_u128_ok. lia. }
  { rewrite eval_from_u128, LIMIT_spec, <- Z.pow_add_r by (done || lia). pose proof (pow76_fits (38 + Z.of_nat (Z.to_nat k0))). lia. }
  rewrite eval_from_u128, LIMIT_spec, <- Z.pow_add_r, Z2Nat.id in Eb by (done || lia). cbn [mbind option_bind].
  destruct (fit_loop_spec debug L w b (Z.to_nat (scale' - k0)) k0 Hw Hb ltac:(lia) Eb Hcap) as [(k & -> & Hk & Hlt & Hmin)|[-> Hov]].
  2: { eexists. split; [done|]. split; [done|]. cbn [mbind option_bind]. apply nearest_div_ge; [apply Z.pow_pos_nonneg; lia|].
       rewrite <- Z.pow_add_r by lia. rewrite Z2Nat.id in Hov by lia. replace (k0 + (scale' - k0)) with scale' in Hov by lia. done. }
  rewrite Z2Nat.id in Hk by lia. cbn [mbind option_bind].
  destruct (times_pow10_spec debug L (Wide.from_u128 L 1) (Z.to_nat k)) as (d & -> & Hd & Ed).
  { apply from_u128_ok. lia. }
  { rewrite eval_from_u128 by done. rewrite Z2Nat.id by lia. pose proof (pow76_fits k). lia. }
  rewrite eval_from_u128, Z.mul_1_l, Z2Nat.id in Ed by (done || lia). cbn [mbind option_bind].
  pose proof (rounded_quotient d k ltac:(lia) Hd Ed) as Hq. destruct (Wide.div_rem w d) as [q rem].
  destruct Hq as (Hround & Hqok & Eq). assert (Hp : 0 < 10 ^ k) by (apply Z.pow_pos_nonneg; lia).
  assert (Hq38 : Wide.eval q < 10 ^ 38).
  { rewrite Eq. apply Z.div_lt_upper_bound; [done|]. rewrite <- Z.pow_add_r, Z.add_comm by lia. done. }
  rewrite (to_u128_spec L), (proj2 (Z.ltb_lt _ _)) by (done || lia || (pose proof pow38_fits; lia)).
  rewrite Hround. clear Hround. assert (Hn38 : nearest_div (Wide.eval w) (10 ^ k) ≤ 10 ^ 38).
  { apply nearest_div_le; [done|]. rewrite <- Z.pow_add_r by lia. lia. }
  assert (Hmin' : k = k0 ∨ 10 ^ 38 ≤ nearest_div (Wide.eval w) (10 ^ (k - 1))).
  { destruct Hmin as [->|Hmin]; [by left|]. destruct (Z.eq_dec k k0); [by left|right].
    apply nearest_div_ge; [apply Z.pow_pos_nonneg; lia|]. rewrite <- Z.pow_add_r by lia. done. }
  rewrite LIMIT_spec. destruct (Z.eqb_spec (nearest_div (Wide.eval w) (10 ^ k)) (10 ^ 38)) as [Hc|Hc].
  - destruct (Z.eqb_spec (scale' - k) 0) as [E0|E0]; eexists; (split; [done|]).
    + split; [done|]. replace scale' with k by lia. lia.
    + rewrite Hc. change (10 ^ 38 / 10) with (10 ^ 37). replace (scale' - k - 1) with (scale' - (k + 1)) by lia.
      rewrite <- (carry_drops_zero (Wide.eval w) k) by (done || lia).
      apply rounds_to_intro; [lia..| |right; replace (k + 1 - 1) with k by lia; lia].
      rewrite carry_drops_zero by (done || lia). done.
  - eexists. split; [done|]. apply rounds_to_intro; [lia..|]. exact Hmin'.
Qed.
End Rounded.

(** ** Products *)

Lemma checked_mul_spec debug a b : decimal_ok a → decimal_ok b →
  ∃ r, checked_mul debug a b = Some r ∧
    rounds_to (Z.abs (mantissa a * mantissa b)) (scale a + scale b)
      (xorb (mantissa a <? 0) (mantissa b <? 0)) r.
Proof.
  intros (Hsa & Hma & _) (Hsb & Hmb & _). unfold checked_mul. set (negative := xorb _ _). clearbody negative.
  rewrite Z.abs_mul. set (x := Z.abs (mantissa a)) in *. set (y := Z.abs (mantissa b)) in *.
  assert (Hx : 0 ≤ x) by (subst x; lia). assert (Hy : 0 ≤ y) by (subst y; lia). clearbody x y.
  set (scale' := scale a + scale b). assert (Hs : 0 ≤ scale' ≤ 76) by lia. clearbody scale'.
  pose proof pow38_fits as H38. unfold checked_mul128. destruct (Z.ltb_spec (x * y) (2 ^ 128)) as [Hlt|Hge].
  - set (k0 := saturating_sub scale' MAX_DECIMAL_DIGITS). assert (0 ≤ x * y) by nia.
    assert (Hk0 : 0 ≤ k0 ≤ scale' ∧ scale' - k0 ≤ 38) by (subst k0; unfold saturating_sub, MAX_DECIMAL_DIGITS; lia).
    rewrite !round_off_spec, LIMIT_spec by lia.
    destruct (Z.leb_spec (10 ^ 38) (nearest_div (x * y) (10 ^ k0))) as [Hov|Hfit].
    + destruct (Z.eqb_spec k0 scale') as [E|E]; eexists; (split; [done|]); [split; [done|by rewrite <- E]|].
      apply rounds_to_intro; [lia..| |right; replace (k0 + 1 - 1) with k0 by lia; done].
      apply Z.le_lt_trans with (nearest_div (x * y) (10 ^ 1)); [apply nearest_pow_anti; lia|].
      apply Z.le_lt_trans with (10 ^ 38 - 1); [|lia]. apply nearest_div_le; [done|].
      change (2 ^ 128) with 340282366920938463463374607431768211456 in Hlt.
      change ((10 ^ 38 - 1) * 10 ^ 1) with 999999999999999999999999999999999999990. lia.
    + eexists. split; [done|]. apply rounds_to_intro; [lia..|by left].
  - destruct (product_spec x y) as [Hok Hev]; [lia..|]. rewrite <- Hev.
    apply (rounded_spec debug 4); [done|done| |done]. rewrite Hev. change (Wide.capacity 4) with (2 ^ 256).
    assert (x * y ≤ 10 ^ 38 * 10 ^ 38) by nia. assert (10 * (10 ^ 38 * 10 ^ 38) < 2 ^ 256) by reflexivity. lia.
Qed.
