(* ===== verification/DecimalDiv.v ===== *)
(** * Quotients and remainders of decimals *)
From S2P Require Import Prelude Bits Bytes Wide Date Decimal DecimalFacts.
Import Decimal.
Open Scope Z_scope.

(** ** The digits of a fraction *)

(** The digits of [r / d], for [r < d]. *)
Fixpoint digits_of (n : nat) (r d : Z) : list Z :=
  match n with
  | O => []
  | S n' => 10 * r / d :: digits_of n' ((10 * r) mod d) d
  end.

Lemma digits_of_length n r d : length (digits_of n r d) = n.
Proof. revert r. induction n as [|n IH]; intros r; [done|]. simpl. by rewrite IH. Qed.

(** Shifting a fraction by its first digit. *)
Lemma shift_digit r d p : 0 < d → 0 ≤ p →
  r * (10 * p) / d = 10 * r / d * p + (10 * r) mod d * p / d ∧ (r * (10 * p)) mod d = ((10 * r) mod d * p) mod d.
Proof.
  intros Hd Hp. pose proof (Z.div_mod (10 * r) d ltac:(lia)) as Hdm.
  replace (r * (10 * p)) with ((10 * r) mod d * p + 10 * r / d * p * d) by nia.
  rewrite Z.div_add, Z.mod_add by lia. split; [lia|done].
Qed.

Lemma digits_value n s r d acc : 0 ≤ r < d → (s ≤ n)%nat →
  foldl (λ value digit, value * 10 + digit) acc (take s (digits_of n r d))
  = acc * 10 ^ Z.of_nat s + r * 10 ^ Z.of_nat s / d.
Proof.
  revert n r acc. induction s as [|s IH]; intros n r acc Hr Hs.
  { simpl. rewrite Z.mul_1_r, Z.div_small by lia. lia. }
  destruct n as [|n]; [lia|]. cbn [digits_of take foldl].
  rewrite IH by (try apply Z.mod_pos_bound; lia). rewrite Nat2Z.inj_succ, Z.pow_succ_r by lia.
  destruct (shift_digit r d (10 ^ Z.of_nat s)) as [-> _]; [lia|apply Z.pow_nonneg; lia|]. lia.
Qed.

Lemma digits_at n s r d : 0 ≤ r < d → (s < n)%nat →
  digits_of n r d !! s = Some (10 * ((r * 10 ^ Z.of_nat s) mod d) / d).
Proof.
  revert n r. induction s as [|s IH]; intros n r Hr Hs; (destruct n as [|n]; [lia|]); cbn [digits_of lookup list_lookup].
  { simpl. rewrite Z.mul_1_r, Z.mod_small by lia. done. }
  change (list_lookup s ?l) with (l !! s). rewrite IH by (try apply Z.mod_pos_bound; lia).
  rewrite Nat2Z.inj_succ, Z.pow_succ_r by lia.
  destruct (shift_digit r d (10 ^ Z.of_nat s)) as [_ ->]; [lia|apply Z.pow_nonneg; lia|]. done.
Qed.

(** The zeros before the first digit of a fraction that is not 0. *)
Lemma leading_zeros_spec n r d : 0 ≤ r < d →
  match leading_zeros (digits_of n r d) with
  | Some z => (z < n)%nat ∧ d ≤ r * 10 ^ Z.of_nat (S z)
  | None => r * 10 ^ Z.of_nat n < d
  end.
Proof.
  revert r. induction n as [|n IH]; intros r Hr; [simpl; lia|]. cbn [digits_of leading_zeros].
  destruct (Z.eqb_spec (10 * r / d) 0) as [E|E]; cbn [negb].
  - assert (Hlt : 10 * r < d).
    { pose proof (Z.div_mod (10 * r) d). pose proof (Z.mod_pos_bound (10 * r) d). nia. }
    specialize (IH ((10 * r) mod d)). rewrite Z.mod_small in IH |- * by lia. specialize (IH ltac:(lia)).
    destruct (leading_zeros (digits_of n (10 * r) d)) as [z|]; cbn [fmap option_fmap option_map].
    + rewrite (Nat2Z.inj_succ (S z)), Z.pow_succ_r by lia. split; [lia|]. destruct IH as [_ IH]. lia.
    + rewrite Nat2Z.inj_succ, Z.pow_succ_r by lia. lia.
  - split; [lia|]. change (10 ^ Z.of_nat 1) with 10. assert (0 ≤ 10 * r / d) by (apply Z.div_pos; lia).
    assert (1 ≤ 10 * r / d) by lia.
    pose proof (Z.div_mod (10 * r) d). pose proof (Z.mod_pos_bound (10 * r) d). nia.
Qed.

(** ** Long division in decimals *)

Lemma take_out_spec L fuel r d digit : Wide.ok L r → Wide.ok L d → 0 < Wide.eval d →
  Wide.eval r / Wide.eval d ≤ Z.of_nat fuel →
  let '(digit', r') := take_out fuel r d digit in
  digit' = digit + Wide.eval r / Wide.eval d ∧ Wide.ok L r' ∧ Wide.eval r' = Wide.eval r mod Wide.eval d.
Proof.
  intros Hr Hd Hd0. revert r digit Hr. induction fuel as [|fuel IH]; intros r digit Hr Hq; cbn [take_out];
    pose proof (ok_bound L r Hr) as Hrb.
  - assert (0 ≤ Wide.eval r / Wide.eval d) by (apply Z.div_pos; lia).
    assert (E0 : Wide.eval r / Wide.eval d = 0) by lia. pose proof (Z.div_mod (Wide.eval r) (Wide.eval d) ltac:(lia)).
    rewrite E0 in *. split_and!; [lia|apply Hr..|lia].
  - rewrite (ge_spec L) by done. destruct (Z.leb_spec (Wide.eval d) (Wide.eval r)) as [Hge|Hlt].
    + destruct (minus_spec L r d Hr Hd Hge) as [Hm Em].
      assert (Hq1 : Wide.eval (Wide.minus r d) / Wide.eval d = Wide.eval r / Wide.eval d - 1).
      { rewrite Em. replace (Wide.eval r - Wide.eval d) with (Wide.eval r + (-1) * Wide.eval d) by lia. rewrite Z.div_add by lia. lia. }
      assert (Hr1 : Wide.eval (Wide.minus r d) mod Wide.eval d = Wide.eval r mod Wide.eval d).
      { rewrite Em. replace (Wide.eval r - Wide.eval d) with (Wide.eval r + (-1) * Wide.eval d) by lia. by rewrite Z.mod_add by lia. }
      specialize (IH (Wide.minus r d) (digit + 1) Hm ltac:(lia)). destruct (take_out fuel _ d _) as [digit' r'].
      destruct IH as (-> & Hok & Hev). split_and!; [lia|apply Hok..|lia].
    + rewrite Z.div_small, Z.mod_small by lia. split_and!; [lia|apply Hr..|lia].
Qed.

Lemma fraction_digits_spec debug L n r d : Wide.ok L r → Wide.ok L d → Wide.eval r < Wide.eval d →
  10 * Wide.eval d ≤ Wide.capacity L →
  fraction_digits debug n r d = Some (digits_of n (Wide.eval r) (Wide.eval d)).
Proof.
  intros Hr Hd. revert r Hr. induction n as [|n IH]; intros r Hr Hlt Hcap; [done|]. cbn [fraction_digits digits_of].
  pose proof (ok_bound L r Hr).
  destruct (times_pow10_spec debug L r 1 Hr) as (r1 & -> & Hr1 & E1); [change (10 ^ Z.of_nat 1) with 10; lia|].
  change (10 ^ Z.of_nat 1) with 10 in E1. cbn [mbind option_bind].
  assert (Hq : Wide.eval r1 / Wide.eval d ≤ Z.of_nat 10).
  { rewrite E1. apply Z.lt_le_incl, Z.div_lt_upper_bound; lia. }
  pose proof (take_out_spec L 10 r1 d 0 Hr1 Hd ltac:(lia) Hq) as Ht. destruct (take_out 10 r1 d 0) as [digit r2].
  destruct Ht as (-> & Hr2 & E2). pose proof (Z.mod_pos_bound (Wide.eval r1) (Wide.eval d) ltac:(lia)).
  rewrite (IH r2 Hr2) by lia. cbn [mbind option_bind]. rewrite E2, E1, Z.add_0_l, (Z.mul_comm (Wide.eval r)). done.
Qed.

Lemma digit_loop_spec fuel count v : 0 ≤ count → count + Z.of_nat fuel = 38 → 0 ≤ v < 10 ^ 38 →
  (count = 0 ∨ 10 ^ (count - 1) ≤ v) →
  let c := digit_loop fuel count v in count ≤ c ≤ 38 ∧ v < 10 ^ c ∧ (c = 0 ∨ 10 ^ (c - 1) ≤ v).
Proof.
  revert count. induction fuel as [|fuel IH]; intros count Hc Hsum Hv Hlow; cbn [digit_loop].
  { split_and!; [lia..| |done]. replace count with 38 by lia. lia. }
  rewrite pow10_spec by lia. destruct (Z.leb_spec (10 ^ count) v) as [Hle|Hgt].
  - destruct (IH (count + 1)) as (Hr & Hlt & Hl); [lia..| |].
    { right. by replace (count + 1 - 1) with count by lia. }
    split_and!; [lia..|done|done].
  - split_and!; [lia..|done].
Qed.

Lemma digit_count_spec v : 0 ≤ v < 10 ^ 38 →
  0 ≤ digit_count v ≤ 38 ∧ v < 10 ^ digit_count v ∧ (digit_count v = 0 ∨ 10 ^ (digit_count v - 1) ≤ v).
Proof. intros Hv. apply (digit_loop_spec 38 0 v); [lia..|done|by left]. Qed.

(** ** The scale of a quotient *)

(** A scale keeps enough of [n / d]: all the digits there is room for, or
    [least] digits after the point and 16 significant ones (of a quotient
    that is not 0 in its first 39 digits). *)
Definition enough_digits (n d least s : Z) : Prop :=
  s = 38 - digit_count (n / d) ∨ least ≤ s ∧ (n * 10 ^ 39 < d ∨ 10 ^ 15 ≤ n * 10 ^ s / d).

(** [r] is the quotient [n / d], negated when [negative]. *)
Definition divides_to (n d : Z) (negative : bool) (least : Z) (r : result DecimalError Decimal) : Prop :=
  match r with
  | Ok q =>
      decimal_ok q ∧ mantissa q = signed negative (nearest_div (n * 10 ^ scale q) d) ∧ enough_digits n d least (scale q)
  | Err e => e = Overflow ∧ 10 ^ 38 ≤ n / d
  end.

Lemma floor_step n d s : 0 < d → 0 ≤ s →
  n * 10 ^ s / d = n / d * 10 ^ s + n mod d * 10 ^ s / d ∧ (n * 10 ^ s) mod d = (n mod d * 10 ^ s) mod d.
Proof.
  intros Hd Hs. pose proof (Z.div_mod n d ltac:(lia)) as Hdm.
  replace (n * 10 ^ s) with (n mod d * 10 ^ s + n / d * 10 ^ s * d) by nia.
  rewrite Z.div_add, Z.mod_add by lia. split; [lia|done].
Qed.

(** Half of the divisor left over is a next digit of 5 or more. *)
Lemma next_digit_rounds n d : 0 < d →
  nearest_div n d = (if 5 <=? 10 * (n mod d) / d then n / d + 1 else n / d).
Proof.
  intros Hd. rewrite nearest_div_rem by done. pose proof (Z.mod_pos_bound n d Hd).
  pose proof (Z.div_mod (10 * (n mod d)) d ltac:(lia)). pose proof (Z.mod_pos_bound (10 * (n mod d)) d Hd).
  destruct (Z.leb_spec (d - n mod d) (n mod d)), (Z.leb_spec 5 (10 * (n mod d) / d)); try done; nia.
Qed.

Lemma div_mul_le n d p : 0 ≤ n → 0 < d → 0 ≤ p → n / d * p ≤ n * p / d.
Proof.
  intros Hn Hd Hp. apply Z.div_le_lower_bound; [done|]. pose proof (Z.mul_div_le n d Hd). nia.
Qed.

(** The digits wanted after the point give 16 significant digits. *)
Lemma wanted_is_enough n d s : 0 ≤ n → 0 < d → n / d < 10 ^ 38 → 0 ≤ s →
  (if 0 <? n / d then saturating_sub SIGNIFICANT (digit_count (n / d))
   else match leading_zeros (digits_of 39 (n mod d) d) with
        | Some zeros => Z.min (Z.of_nat zeros + SIGNIFICANT) 255
        | None => 0
        end) ≤ s →
  n * 10 ^ 39 < d ∨ 10 ^ 15 ≤ n * 10 ^ s / d.
Proof.
  intros Hn Hd Hlt Hs Hw. assert (Hi : 0 ≤ n / d) by (apply Z.div_pos; lia).
  destruct (digit_count_spec (n / d) ltac:(lia)) as (Hc & Hup & Hlow). unfold SIGNIFICANT, saturating_sub in Hw.
  destruct (Z.ltb_spec 0 (n / d)) as [Hpos|Hzero].
  - right. assert (Hc0 : digit_count (n / d) ≠ 0) by (intros E; rewrite E in Hup; simpl in Hup; lia).
    destruct Hlow as [|Hlow]; [done|]. etrans; [|apply div_mul_le; [done..|apply Z.pow_nonneg; lia]].
    apply Z.le_trans with (10 ^ (digit_count (n / d) - 1) * 10 ^ s).
    + rewrite <- Z.pow_add_r by lia. apply Z.pow_le_mono_r; lia.
    + apply Z.mul_le_mono_nonneg_r; [apply Z.pow_nonneg; lia|done].
  - assert (E0 : n / d = 0) by lia. pose proof (Z.div_mod n d ltac:(lia)) as Hdm. rewrite E0 in Hdm.
    pose proof (Z.mod_pos_bound n d Hd) as Hmb. replace (n mod d) with n in * by lia.
    pose proof (leading_zeros_spec 39 n d ltac:(lia)) as Hz. destruct (leading_zeros _) as [z|]; [right|left; exact Hz].
    destruct Hz as [Hz39 Hz]. apply Z.div_le_lower_bound; [done|].
    replace s with (Z.of_nat (S z) + (s - Z.of_nat (S z))) by lia. rewrite Z.pow_add_r by lia.
    assert (10 ^ 15 ≤ 10 ^ (s - Z.of_nat (S z))) by (apply Z.pow_le_mono_r; lia).
    assert (0 < 10 ^ Z.of_nat (S z)) by (apply Z.pow_pos_nonneg; lia). assert (0 < 10 ^ 15) by done. nia.
Qed.

Section Quotient.
Context (debug : bool) (L : nat) (num den : list Z) (negative : bool) (least : Z).
Hypothesis HL : (4 ≤ L)%nat.
Hypothesis Hnum : Wide.ok L num.
Hypothesis Hden : Wide.ok L den.
Hypothesis Hpos : 0 < Wide.eval den.
Hypothesis Hcap : 10 * Wide.eval den ≤ Wide.capacity L.
Hypothesis Hleast : 0 ≤ least ≤ 38.

(** A quotient below [10^38] is rounded at a scale that keeps enough digits;
    what it rounds to may still have a digit too many. *)
Lemma quotient_spec :
  let n := Wide.eval num in
  let d := Wide.eval den in
  if n / d <? 10 ^ 38 then
    ∃ s, 0 ≤ s ≤ 38 - digit_count (n / d) ∧ enough_digits n d least s ∧
      quotient debug num den negative least
      = Some (if nearest_div (n * 10 ^ s) d <? 10 ^ 38
              then Ok (mk s (words (signed negative (nearest_div (n * 10 ^ s) d)))) else Err Overflow)
  else quotient debug num den negative least = Some (Err Overflow).
Proof.
  intros n d. unfold quotient. pose proof (ok_bound L num Hnum) as Hn0.
  pose proof (div_rem_spec L num den ltac:(lia) Hnum Hden Hpos ltac:(lia)) as Hdr.
  destruct (Wide.div_rem num den) as [q r]. destruct Hdr as (Hq & Hr & Eq & Er). fold n d in Eq, Er, Hn0, Hpos, Hcap.
  assert (Hi : 0 ≤ n / d) by (apply Z.div_pos; lia). pose proof pow38_fits.
  rewrite (to_u128_spec L q ltac:(lia) Hq), Eq. rewrite LIMIT_spec.
  assert (Hfilter : (match (if n / d <? 2 ^ 128 then Some (n / d) else None) with
                     | Some value => if value <? 10 ^ 38 then Some value else None | None => None end)
                    = if n / d <? 10 ^ 38 then Some (n / d) else None).
  { destruct (Z.ltb_spec (n / d) (2 ^ 128)), (Z.ltb_spec (n / d) (10 ^ 38)); first [reflexivity|lia]. }
  rewrite Hfilter. clear Hfilter. destruct (Z.ltb_spec (n / d) (10 ^ 38)) as [Hlt|Hge]; [|done].
  destruct (digit_count_spec (n / d) ltac:(lia)) as (Hc & Hup & Hlow).
  pose proof (Z.mod_pos_bound n d Hpos) as Hmb.
  rewrite (fraction_digits_spec debug L 39 r den Hr Hden) by lia. cbn [mbind option_bind]. rewrite Er. fold d.
  set (wanted := if 0 <? n / d then _ else _).
  assert (Hw0 : 0 ≤ wanted).
  { subst wanted. unfold saturating_sub, SIGNIFICANT. destruct (0 <? n / d); [lia|]. destruct (leading_zeros _); lia. }
  unfold MAX_DECIMAL_DIGITS. set (s := Z.min (Z.max wanted least) (38 - digit_count (n / d))).
  assert (Hs : 0 ≤ s ≤ 38 - digit_count (n / d)) by lia. exists s. split; [done|]. split.
  { destruct (Z.eq_dec s (38 - digit_count (n / d))) as [->|Hne]; [by left|right]. split; [lia|].
    apply wanted_is_enough; [lia..|]. fold wanted. lia. }
  rewrite digits_value, digits_at, pow10_spec by lia. cbn [default]. rewrite Z2Nat.id, Z.mul_0_l, Z.add_0_l by lia.
  destruct (floor_step n d s Hpos ltac:(lia)) as [Ef Em]. unfold id. rewrite <- Em, <- Ef.
  rewrite <- next_digit_rounds by done.
  assert (0 ≤ nearest_div (n * 10 ^ s) d) by (apply nearest_div_nonneg; [done|]; assert (0 < 10 ^ s) by (apply Z.pow_pos_nonneg; lia); nia).
  rewrite from_magnitude_spec by lia.
  destruct (Z.leb_spec (10 ^ 38) (nearest_div (n * 10 ^ s) d)), (Z.ltb_spec (nearest_div (n * 10 ^ s) d) (10 ^ 38)); first [reflexivity|lia].
Qed.
End Quotient.

(** ** Division *)

(** The quotient of two mantissas of at most 38 digits never rounds up to a
    power of ten it is below. *)
Lemma quotient_no_carry A B sa sb k : 0 ≤ A < 10 ^ 38 → 0 < B < 10 ^ 38 → 0 ≤ sa → 0 ≤ sb → 0 ≤ k ≤ 38 →
  A * 10 ^ sb < 10 ^ k * (B * 10 ^ sa) →
  nearest_div (A * 10 ^ sb * 10 ^ (38 - k)) (B * 10 ^ sa) < 10 ^ 38.
Proof.
  intros HA HB Hsa Hsb Hk Hlt.
  assert (Hpsa : 0 < 10 ^ sa) by (apply Z.pow_pos_nonneg; lia).
  assert (Hpsb : 0 < 10 ^ sb) by (apply Z.pow_pos_nonneg; lia).
  assert (Hpk : 0 < 10 ^ k) by (apply Z.pow_pos_nonneg; lia).
  assert (Hpk' : 0 < 10 ^ (38 - k)) by (apply Z.pow_pos_nonneg; lia).
  assert (Hkk : 10 ^ 38 = 10 ^ (38 - k) * 10 ^ k) by (rewrite <- Z.pow_add_r by lia; f_equal; lia).
  destruct (Z.lt_ge_cases (nearest_div (A * 10 ^ sb * 10 ^ (38 - k)) (B * 10 ^ sa)) (10 ^ 38)) as [|Hge]; [done|exfalso].
  pose proof (nearest_div_bounds (A * 10 ^ sb * 10 ^ (38 - k)) (B * 10 ^ sa) ltac:(nia)) as [Hb _].
  assert (Hgap : 2 * 10 ^ (38 - k) * (10 ^ k * (B * 10 ^ sa) - A * 10 ^ sb) ≤ B * 10 ^ sa).
  { rewrite Hkk in Hge. nia. }
  clear Hb Hge. destruct (Z.le_gt_cases sb (k + sa)) as [He|He].
  - set (e := k + sa - sb). assert (Hpe : 0 < 10 ^ e) by (apply Z.pow_pos_nonneg; lia).
    assert (Eu : 10 ^ k * (B * 10 ^ sa) - A * 10 ^ sb = 10 ^ sb * (B * 10 ^ e - A)).
    { assert (10 ^ k * 10 ^ sa = 10 ^ sb * 10 ^ e) by (rewrite <- !Z.pow_add_r by lia; f_equal; lia). nia. }
    assert (Hp : 10 ^ (38 - k) * 10 ^ sb * 10 ^ e = 10 ^ 38 * 10 ^ sa).
    { rewrite <- !Z.pow_add_r by lia. f_equal. lia. }
    rewrite Eu in Hgap.
    assert (Hone : 1 ≤ B * 10 ^ e - A) by nia.
    (* the gap is at least one unit, which makes [B] large *)
    assert (Hbig : 2 * 10 ^ 38 ≤ B * 10 ^ e).
    { assert (2 * (10 ^ (38 - k) * 10 ^ sb) ≤ B * 10 ^ sa) by nia.
      assert (2 * (10 ^ (38 - k) * 10 ^ sb) * 10 ^ e ≤ B * 10 ^ sa * 10 ^ e) by nia. nia. }
    assert (Hhalf : B * 10 ^ e ≤ 2 * (B * 10 ^ e - A)) by lia.
    assert (Hfin : 10 ^ (38 - k) * 10 ^ sb * (B * 10 ^ e) ≤ B * 10 ^ sa).
    { apply Z.le_trans with (10 ^ (38 - k) * 10 ^ sb * (2 * (B * 10 ^ e - A))); [|lia].
      apply Z.mul_le_mono_nonneg_l; [nia|done]. }
    replace (10 ^ (38 - k) * 10 ^ sb * (B * 10 ^ e)) with (10 ^ 38 * (B * 10 ^ sa)) in Hfin by nia.
    assert (0 < B * 10 ^ sa) by nia. assert (1 < 10 ^ 38) by reflexivity. nia.
  - set (e := sb - (k + sa)). assert (Hpe : 0 < 10 ^ e) by (apply Z.pow_pos_nonneg; lia).
    assert (Eu : 10 ^ k * (B * 10 ^ sa) - A * 10 ^ sb = 10 ^ k * 10 ^ sa * (B - A * 10 ^ e)).
    { assert (10 ^ sb = 10 ^ k * 10 ^ sa * 10 ^ e) by (rewrite <- !Z.pow_add_r by lia; f_equal; lia). nia. }
    assert (Hone : 1 ≤ B - A * 10 ^ e) by nia. rewrite Eu in Hgap.
    assert (2 * (10 ^ (38 - k) * 10 ^ k) * 10 ^ sa ≤ B * 10 ^ sa) by nia. nia.
Qed.

(** A magnitude widened to 256 bits by a scale. *)
Lemma widen_spec debug x s : 0 ≤ x < 10 ^ 38 → 0 ≤ s ≤ 38 →
  ∃ w, Wide.times_pow10 debug (Wide.from_u128 4 x) (Z.to_nat s) = Some w ∧ Wide.ok 4 w ∧
    Wide.eval w = x * 10 ^ s ∧ x * 10 ^ s < 10 ^ 76.
Proof.
  intros Hx Hs. pose proof pow38_fits. assert (Hp : 0 < 10 ^ s ≤ 10 ^ 38).
  { split; [apply Z.pow_pos_nonneg; lia|apply Z.pow_le_mono_r; lia]. }
  assert (Hb : x * 10 ^ s < 10 ^ 76) by (change (10 ^ 76) with (10 ^ 38 * 10 ^ 38); nia).
  destruct (times_pow10_spec debug 4 (Wide.from_u128 4 x) (Z.to_nat s)) as (w & Hw & Hok & Hev).
  - apply from_u128_ok. lia.
  - rewrite eval_from_u128, Z2Nat.id by lia. assert (10 ^ 76 < Wide.capacity 4) by reflexivity. lia.
  - rewrite eval_from_u128, Z2Nat.id in Hev by lia. eauto.
Qed.

Lemma checked_div_spec debug a b : decimal_ok a → decimal_ok b → mantissa b ≠ 0 →
  ∃ r, checked_div debug a b = Some r ∧
    divides_to (Z.abs (mantissa a) * 10 ^ scale b) (Z.abs (mantissa b) * 10 ^ scale a)
      (xorb (mantissa a <? 0) (mantissa b <? 0)) (Z.max (scale a) (scale b)) r.
Proof.
  intros (Hsa & Hma & _) (Hsb & Hmb & _) Hb0. unfold checked_div.
  destruct (Z.eqb_spec (mantissa b) 0) as [|_]; [done|]. set (negative := xorb _ _). clearbody negative.
  set (A := Z.abs (mantissa a)) in *. set (B := Z.abs (mantissa b)) in *.
  assert (HA : 0 ≤ A) by lia. assert (HB : 0 < B) by lia. clearbody A B.
  destruct (widen_spec debug A (scale b)) as (n & -> & Hn & En & _); [lia..|].
  destruct (widen_spec debug B (scale a)) as (d & -> & Hd & Ed & Hd76); [lia..|]. cbn [mbind option_bind].
  assert (Hpa : 0 < 10 ^ scale a) by (apply Z.pow_pos_nonneg; lia).
  assert (Hpb : 0 < 10 ^ scale b) by (apply Z.pow_pos_nonneg; lia).
  assert (Hcap : 10 * 10 ^ 76 ≤ Wide.capacity 4) by (vm_compute; congruence).
  pose proof (quotient_spec debug 4 n d negative (Z.max (scale a) (scale b)) ltac:(lia) Hn Hd ltac:(nia) ltac:(lia) ltac:(lia)) as Hq.
  cbn zeta in Hq. rewrite En, Ed in Hq. set (N := A * 10 ^ scale b) in *. set (D := B * 10 ^ scale a) in *.
  assert (HD : 0 < D) by nia. assert (HN : 0 ≤ N) by nia.
  destruct (Z.ltb_spec (N / D) (10 ^ 38)) as [Hlt|Hge]; [|rewrite Hq; eexists; split; [done|by split]].
  destruct Hq as (s & Hs & Henough & ->). assert (0 ≤ N / D) by (apply Z.div_pos; lia).
  destruct (digit_count_spec (N / D)) as (Hc & Hup & _); [lia|].
  assert (Hfit : nearest_div (N * 10 ^ s) D < 10 ^ 38).
  { apply Z.le_lt_trans with (nearest_div (N * 10 ^ (38 - digit_count (N / D))) D).
    - apply Z.div_le_mono; [lia|]. assert (10 ^ s ≤ 10 ^ (38 - digit_count (N / D))) by (apply Z.pow_le_mono_r; lia). nia.
    - apply quotient_no_carry; [lia..|]. fold N D. apply Z.lt_le_trans with (D * (N / D + 1)).
      + pose proof (Z.div_mod N D ltac:(lia)). pose proof (Z.mod_pos_bound N D HD). lia.
      + rewrite (Z.mul_comm _ D). apply Z.mul_le_mono_nonneg_l; lia. }
  rewrite (proj2 (Z.ltb_lt _ _) Hfit). eexists. split; [done|].
  assert (Hps : 0 < 10 ^ s) by (apply Z.pow_pos_nonneg; lia).
  assert (0 ≤ nearest_div (N * 10 ^ s) D) by (apply nearest_div_nonneg; nia).
  split_and!; [apply mk_ok; [lia|rewrite signed_abs; lia]| |exact Henough].
  rewrite mantissa_small by (rewrite signed_abs; lia). done.
Qed.

(** ** Remainders *)

Lemma units_aligned d s : scale d ≤ s ≤ 38 → 0 ≤ scale d → units d = mantissa d * 10 ^ (s - scale d) * 10 ^ (38 - s).
Proof. intros Hs Hd. unfold units. rewrite <- Z.mul_assoc, <- Z.pow_add_r by lia. do 2 f_equal. lia. Qed.

Lemma rem_abs a b : b ≠ 0 → Z.rem a b = signed (a <? 0) (Z.abs a mod Z.abs b).
Proof.
  intros Hb. rewrite <- Z.rem_mod_nonneg, Z.rem_abs_r by lia. destruct (Z.ltb_spec a 0); simpl.
  - rewrite Z.abs_neq, Z.rem_opp_l by lia. lia.
  - by rewrite Z.abs_eq by lia.
Qed.

Lemma rem_magnitude_spec debug x y sa sb s : 0 ≤ x < 10 ^ 38 → 0 < y < 10 ^ 38 → 0 ≤ sa → 0 ≤ sb → s ≤ 38 →
  s = Z.max sa sb →
  let r := (x * 10 ^ (s - sa)) mod (y * 10 ^ (s - sb)) in
  rem_magnitude debug x y sa sb s = Some (Ok r) ∧ 0 ≤ r < 10 ^ 38.
Proof.
  intros Hx Hy Hsa Hsb Hs38 Hs. unfold rem_magnitude, checked_mul128. rewrite !pow10_spec by lia. cbn zeta.
  assert (Hpa : 0 < 10 ^ (s - sa)) by (apply Z.pow_pos_nonneg; lia).
  assert (Hpb : 0 < 10 ^ (s - sb)) by (apply Z.pow_pos_nonneg; lia).
  destruct (widen_spec debug x (s - sa)) as (w & -> & Hw & Ew & Hw76); [lia..|].
  destruct (widen_spec debug y (s - sb)) as (v & -> & Hv & Ev & Hv76); [lia..|]. cbn [mbind option_bind].
  assert (HX : sa = s → x * 10 ^ (s - sa) = x) by (intros ->; rewrite Z.sub_diag; simpl; lia).
  assert (HY : sb = s → y * 10 ^ (s - sb) = y) by (intros ->; rewrite Z.sub_diag; simpl; lia).
  set (X := x * 10 ^ (s - sa)) in *. set (Y := y * 10 ^ (s - sb)) in *.
  assert (0 ≤ X) by (subst X; nia). assert (0 < Y) by (subst Y; nia).
  pose proof (Z.mod_pos_bound X Y ltac:(lia)). pose proof (Z.mod_le X Y ltac:(lia) ltac:(lia)).
  assert (Hr : X mod Y < 10 ^ 38) by lia. split; [|lia].
  assert (Hcap : 2 * 10 ^ 76 ≤ Wide.capacity 4) by (vm_compute; congruence).
  pose proof (div_rem_spec 4 w v ltac:(lia) Hw Hv ltac:(lia) ltac:(lia)) as Hdr.
  destruct (Wide.div_rem w v) as [q r]. destruct Hdr as (_ & Hrok & _ & Er). cbn [snd].
  pose proof pow38_fits. rewrite (to_u128_spec 4 r ltac:(lia) Hrok), Er, Ew, Ev.
  rewrite (proj2 (Z.ltb_lt (X mod Y) _)) by lia. by destruct (X <? 2 ^ 128), (Y <? 2 ^ 128).
Qed.

Lemma checked_rem_spec debug a b : decimal_ok a → decimal_ok b → mantissa b ≠ 0 →
  ∃ d, checked_rem debug a b = Some (Ok d) ∧ decimal_ok d ∧ scale d = Z.max (scale a) (scale b) ∧
    units d = Z.rem (units a) (units b).
Proof.
  intros (Hsa & Hma & _) (Hsb & Hmb & _) Hb0. unfold checked_rem.
  destruct (Z.eqb_spec (mantissa b) 0) as [|_]; [done|]. set (s := Z.max (scale a) (scale b)).
  destruct (rem_magnitude_spec debug (Z.abs (mantissa a)) (Z.abs (mantissa b)) (scale a) (scale b) s) as [-> Hr]; [lia..|].
  assert (Hpa : 0 < 10 ^ (s - scale a)) by (apply Z.pow_pos_nonneg; lia).
  assert (Hpb : 0 < 10 ^ (s - scale b)) by (apply Z.pow_pos_nonneg; lia).
  cbn [mbind option_bind result_bind]. rewrite from_magnitude_spec by lia.
  rewrite (proj2 (Z.ltb_lt _ _) (proj2 Hr)). eexists. split; [done|].
  split_and!; [apply mk_ok; [lia|rewrite signed_abs; lia]|done|].
  rewrite (units_aligned a s), (units_aligned b s) by lia. rewrite Z.mul_rem_distr_r.
  2: { intros E. apply Z.mul_eq_0 in E. lia. } 2: { apply Z.pow_nonzero; lia. }
  unfold units. cbn [scale]. f_equal. rewrite mantissa_small by (rewrite signed_abs; lia).
  rewrite rem_abs by (intros E; apply Z.mul_eq_0 in E; lia). rewrite !Z.abs_mul, !(Z.abs_eq (10 ^ _)) by lia.
  f_equal. destruct (Z.ltb_spec (mantissa a) 0), (Z.ltb_spec (mantissa a * 10 ^ (s - scale a)) 0); try done; nia.
Qed.
