(* ===== verification/DecimalSums.v ===== *)
(** * Sums of decimals

    [DecimalSum] keeps the exact sum of its rows, the same limbs in whatever
    order they come. *)
From S2P Require Import Prelude Bytes Bits Date Wide Decimal DecimalFacts DecimalDiv.
Import Decimal.
Open Scope Z_scope.

Lemma eval_inj L a b : Wide.ok L a → Wide.ok L b → Wide.eval a = Wide.eval b → a = b.
Proof.
  revert a b. induction L as [|L IH]; intros [|x a] [|y b] [Hla Ha] [Hlb Hb] Heq; try done.
  apply Forall_cons in Ha as [Hx Ha], Hb as [Hy Hb]. cbn [Wide.eval] in Heq. unfold is_u64 in Hx, Hy.
  assert (x = y ∧ Wide.eval a = Wide.eval b) as [-> Heq'] by lia. f_equal.
  apply IH; [split; [by injection Hla|done]|split; [by injection Hlb|done]|done].
Qed.

(** ** The exact sum *)

(** The magnitudes of one sign: of the positive or of the negative rows. *)
Definition part (negative : bool) (m : Z) : Z := Z.max 0 (signed negative m).

(** Their sum in units of [10^-s], for rows of scales up to [s]. *)
Definition part_sum (negative : bool) (s : Z) (rows : list Decimal) : Z :=
  foldr (λ d acc, part negative (mantissa d) * 10 ^ (s - scale d) + acc) 0 rows.

Definition max_scale (rows : list Decimal) : Z := foldr (λ d acc, Z.max (scale d) acc) 0 rows.

(** The sum of the rows in units of [10^-s]. *)
Definition exact_sum (s : Z) (rows : list Decimal) : Z :=
  foldr (λ d acc, mantissa d * 10 ^ (s - scale d) + acc) 0 rows.

Lemma exact_sum_parts s rows : exact_sum s rows = part_sum false s rows - part_sum true s rows.
Proof.
  induction rows as [|d rows IH]; [done|]. cbn [exact_sum part_sum foldr]. fold (exact_sum s rows).
  fold (part_sum false s rows) (part_sum true s rows). rewrite IH.
  assert (mantissa d = part false (mantissa d) - part true (mantissa d)) by (unfold part; simpl; lia). nia.
Qed.

Lemma max_scale_bounds rows : Forall decimal_ok rows →
  0 ≤ max_scale rows ≤ 38 ∧ Forall (λ d, 0 ≤ scale d ≤ max_scale rows) rows.
Proof.
  induction 1 as [|d rows (Hs & _) _ [IH1 IH2]]; [split; [simpl; lia|constructor]|].
  cbn [max_scale foldr]. fold (max_scale rows). split; [lia|]. constructor; [lia|].
  eapply Forall_impl; [exact IH2|]. cbn beta. lia.
Qed.

Lemma part_sum_rescale negative s s' rows : Forall (λ d, 0 ≤ scale d ≤ s) rows → s ≤ s' →
  part_sum negative s' rows = part_sum negative s rows * 10 ^ (s' - s).
Proof.
  induction 1 as [|d rows Hd _ IH]; intros Hle; [done|]. cbn [part_sum foldr].
  fold (part_sum negative s rows) (part_sum negative s' rows). rewrite IH by done.
  replace (s' - scale d) with ((s - scale d) + (s' - s)) by lia. rewrite Z.pow_add_r by lia. lia.
Qed.

Lemma part_sum_bound negative s rows : Forall decimal_ok rows → 0 ≤ s ≤ 38 → Forall (λ d, 0 ≤ scale d ≤ s) rows →
  0 ≤ part_sum negative s rows ≤ Z.of_nat (length rows) * 10 ^ 76.
Proof.
  intros Hok Hs. induction Hok as [|d rows (_ & Hm & _) _ IH]; intros Hsc; [simpl; lia|].
  apply Forall_cons in Hsc as [Hd Hsc]. cbn [part_sum foldr length]. fold (part_sum negative s rows).
  specialize (IH Hsc). assert (Hp : 0 < 10 ^ (s - scale d) ≤ 10 ^ 38).
  { split; [apply Z.pow_pos_nonneg; lia|apply Z.pow_le_mono_r; lia]. }
  assert (Hpart : 0 ≤ part negative (mantissa d) < 10 ^ 38) by (unfold part; destruct negative; simpl; lia).
  change (10 ^ 76) with (10 ^ 38 * 10 ^ 38) in *. rewrite Nat2Z.inj_succ. nia.
Qed.

Lemma part_sum_perm negative s rows rows' : rows ≡ₚ rows' → part_sum negative s rows = part_sum negative s rows'.
Proof. unfold part_sum. induction 1; cbn [foldr] in *; lia. Qed.

Lemma max_scale_perm rows rows' : rows ≡ₚ rows' → max_scale rows = max_scale rows'.
Proof. unfold max_scale. induction 1; cbn [foldr] in *; lia. Qed.

Lemma exact_sum_perm s rows rows' : rows ≡ₚ rows' → exact_sum s rows = exact_sum s rows'.
Proof. unfold exact_sum. induction 1; cbn [foldr] in *; lia. Qed.

(** ** The state of a sum *)

Definition sum_ok (s : DecimalSum.DecimalSum) (rows : list Decimal) : Prop :=
  DecimalSum.scale s = max_scale rows ∧
  Wide.ok 6 (DecimalSum.positive s) ∧ Wide.eval (DecimalSum.positive s) = part_sum false (max_scale rows) rows ∧
  Wide.ok 6 (DecimalSum.negative s) ∧ Wide.eval (DecimalSum.negative s) = part_sum true (max_scale rows) rows.

Lemma sum_ok_new : sum_ok DecimalSum.new [].
Proof. split_and!; [done|apply (from_u128_ok 6); lia|by apply eval_from_u128|apply (from_u128_ok 6); lia|by apply eval_from_u128]. Qed.

Lemma sum_ok_perm s rows rows' : rows ≡ₚ rows' → sum_ok s rows → sum_ok s rows'.
Proof.
  intros Hp (H1 & H2 & H3 & H4 & H5). pose proof (max_scale_perm _ _ Hp) as Em.
  unfold sum_ok. rewrite <- Em, <- !(part_sum_perm _ _ _ _ Hp). done.
Qed.

(** The rows decide the limbs. *)
Lemma sum_ok_unique s s' rows : sum_ok s rows → sum_ok s' rows → s = s'.
Proof.
  intros (H1 & H2 & H3 & H4 & H5) (H1' & H2' & H3' & H4' & H5').
  destruct s as [p n c], s' as [p' n' c']. cbn [DecimalSum.positive DecimalSum.negative DecimalSum.scale] in *.
  f_equal; [apply (eval_inj 6); [done..|congruence]|apply (eval_inj 6); [done..|congruence]|congruence].
Qed.

Lemma rows_fit rows : Forall decimal_ok rows → Z.of_nat (length rows) < 2 ^ 63 → ∀ negative s,
  0 ≤ s ≤ 38 → Forall (λ d, 0 ≤ scale d ≤ s) rows →
  0 ≤ part_sum negative s rows ∧ 10 * part_sum negative s rows < Wide.capacity 6.
Proof.
  intros Hok Hlen negative s Hs Hsc. pose proof (part_sum_bound negative s rows Hok Hs Hsc) as Hb.
  assert (10 * (2 ^ 63 * 10 ^ 76) < Wide.capacity 6) by reflexivity. assert (0 < 10 ^ 76) by reflexivity. nia.
Qed.

(** A sum with its magnitudes at a scale, at least that of its rows. *)
Definition sum_at (s : DecimalSum.DecimalSum) (sc : Z) (rows : list Decimal) : Prop :=
  DecimalSum.scale s = sc ∧
  Wide.ok 6 (DecimalSum.positive s) ∧ Wide.eval (DecimalSum.positive s) = part_sum false sc rows ∧
  Wide.ok 6 (DecimalSum.negative s) ∧ Wide.eval (DecimalSum.negative s) = part_sum true sc rows.

Lemma raise_scale_spec debug s rows s1 : sum_ok s rows → Forall decimal_ok rows →
  Z.of_nat (length rows) < 2 ^ 63 → 0 ≤ s1 ≤ 38 →
  ∃ s', DecimalSum.raise_scale debug s s1 = Some s' ∧ sum_at s' (Z.max s1 (max_scale rows)) rows.
Proof.
  intros (Hsc & Hp & Ep & Hn & En) Hok Hlen Hs1. destruct (max_scale_bounds _ Hok) as [Hm Hall].
  unfold DecimalSum.raise_scale. rewrite Hsc. destruct (Z.ltb_spec (max_scale rows) s1) as [Hlt|Hge].
  - replace (Z.max s1 (max_scale rows)) with s1 by lia.
    pose proof (λ b, part_sum_rescale b _ s1 rows Hall ltac:(lia)) as Hre.
    assert (Hfit : ∀ b, part_sum b s1 rows < Wide.capacity 6).
    { intros b. destruct (rows_fit rows Hok Hlen b s1 Hs1); [|lia]. eapply Forall_impl; [exact Hall|]. cbn beta. lia. }
    destruct (times_pow10_spec debug 6 (DecimalSum.positive s) (Z.to_nat (s1 - max_scale rows)) Hp) as (p & -> & Hp1 & Ep1).
    { rewrite Z2Nat.id, Ep, <- Hre by lia. apply Hfit. }
    destruct (times_pow10_spec debug 6 (DecimalSum.negative s) (Z.to_nat (s1 - max_scale rows)) Hn) as (n & -> & Hn1 & En1).
    { rewrite Z2Nat.id, En, <- Hre by lia. apply Hfit. }
    rewrite Z2Nat.id, Ep, <- Hre in Ep1 by lia. rewrite Z2Nat.id, En, <- Hre in En1 by lia.
    eexists. split; [done|]. by split_and!.
  - replace (Z.max s1 (max_scale rows)) with (max_scale rows) by lia. exists s. by split_and!.
Qed.

Lemma add_spec debug s rows d : sum_ok s rows → Forall decimal_ok (d :: rows) →
  Z.of_nat (length (d :: rows)) < 2 ^ 63 → ∃ s', DecimalSum.add debug s d = Some s' ∧ sum_ok s' (d :: rows).
Proof.
  intros Hs Hok Hlen. pose proof (rows_fit _ Hok Hlen) as Hfit. destruct (max_scale_bounds _ Hok) as [Hm Hall].
  apply Forall_cons in Hok as [Hd Hrows]. destruct Hd as (Hds & Hdm & _).
  destruct (raise_scale_spec debug s rows (scale d) Hs Hrows) as (s1 & Hraise & Hs1); [simpl in Hlen; lia|lia|].
  unfold DecimalSum.add, DecimalSum.add_magnitude. rewrite Hraise. clear Hraise s Hs. cbn [mbind option_bind].
  change (Z.max (scale d) (max_scale rows)) with (max_scale (d :: rows)) in Hs1.
  set (sc := max_scale (d :: rows)) in *. destruct Hs1 as (Hsc & Hp & Ep & Hn & En). rewrite Hsc.
  apply Forall_cons in Hall as Hall'. destruct Hall' as [Hdsc _].
  set (neg := mantissa d <? 0). pose proof pow38_fits. pose proof (Z.pow_pos_nonneg 10 (sc - scale d) ltac:(lia) ltac:(lia)).
  assert (Habs : Z.abs (mantissa d) = part neg (mantissa d) ∧ part (negb neg) (mantissa d) = 0).
  { unfold part, neg. destruct (Z.ltb_spec (mantissa d) 0); simpl; lia. }
  destruct Habs as [Habs Hother].
  assert (Hhead : ∀ b, part_sum b sc (d :: rows) = part b (mantissa d) * 10 ^ (sc - scale d) + part_sum b sc rows) by done.
  assert (Hrest : 0 ≤ part_sum neg sc rows).
  { destruct neg; [rewrite <- En|rewrite <- Ep]; eapply proj1, ok_bound; done. }
  destruct (Hfit neg sc Hm Hall) as [_ H2]. rewrite Hhead in H2. assert (0 ≤ part neg (mantissa d)) by (unfold part; lia).
  destruct (times_pow10_spec debug 6 (Wide.from_u128 6 (Z.abs (mantissa d))) (Z.to_nat (sc - scale d))) as (w & Hwe & Hw & Ew).
  { apply from_u128_ok. lia. }
  { rewrite eval_from_u128, Z2Nat.id, Habs by lia. nia. }
  unfold DecimalSum.SUM_LIMBS. rewrite Hwe. rewrite eval_from_u128, Z2Nat.id, Habs in Ew by lia. cbn [mbind option_bind].
  destruct neg; cbn [negb] in *.
  - destruct (plus_spec debug 6 (DecimalSum.negative s1) w Hn Hw) as (n2 & -> & Hn2 & En2); [nia|]. eexists. split; [done|].
    split_and!; [exact Hsc || reflexivity|assumption| |assumption|]; cbn [DecimalSum.positive DecimalSum.negative];
      fold sc; rewrite Hhead; lia.
  - destruct (plus_spec debug 6 (DecimalSum.positive s1) w Hp Hw) as (p2 & -> & Hp2 & Ep2); [nia|]. eexists. split; [done|].
    split_and!; [exact Hsc || reflexivity|assumption| |assumption|]; cbn [DecimalSum.positive DecimalSum.negative];
      fold sc; rewrite Hhead; lia.
Qed.

Lemma add_all_spec debug s rows0 rows : sum_ok s rows0 → Forall decimal_ok rows0 → Forall decimal_ok rows →
  Z.of_nat (length rows0 + length rows) < 2 ^ 63 →
  ∃ s', DecimalSum.add_all debug s rows = Some s' ∧ sum_ok s' (rows0 ++ rows).
Proof.
  intros Hs Hok0 Hok. revert s rows0 Hs Hok0. induction Hok as [|d rows Hd _ IH]; intros s rows0 Hs Hok0 Hlen.
  { exists s. by rewrite app_nil_r. }
  cbn [DecimalSum.add_all length] in *.
  destruct (add_spec debug s rows0 d Hs) as (s1 & -> & Hs1); [by constructor|simpl; lia|]. cbn [mbind option_bind].
  destruct (IH s1 (d :: rows0) Hs1) as (s2 & Hs2 & Hok2); [by constructor|simpl; lia|].
  exists s2. split; [done|]. eapply sum_ok_perm; [|exact Hok2]. simpl. by rewrite Permutation_middle.
Qed.

(** ** The total and the average *)

Lemma magnitude_spec s rows : sum_ok s rows → let '(m, negative) := DecimalSum.magnitude s in
  Wide.ok 6 m ∧ Wide.eval m = Z.abs (exact_sum (max_scale rows) rows) ∧
  negative = (exact_sum (max_scale rows) rows <? 0).
Proof.
  intros (Hsc & Hp & Ep & Hn & En). unfold DecimalSum.magnitude. rewrite (ge_spec 6) by done.
  rewrite exact_sum_parts, <- Ep, <- En.
  destruct (Z.leb_spec (Wide.eval (DecimalSum.negative s)) (Wide.eval (DecimalSum.positive s))) as [Hle|Hlt].
  - destruct (minus_spec 6 _ _ Hp Hn Hle) as [Hm Em]. split_and!; [apply Hm..|lia|].
    symmetry. apply Z.ltb_ge. lia.
  - destruct (minus_spec 6 _ _ Hn Hp ltac:(lia)) as [Hm Em]. split_and!; [apply Hm..|lia|].
    symmetry. apply Z.ltb_lt. lia.
Qed.

Lemma exact_sum_bound rows : Forall decimal_ok rows → Z.of_nat (length rows) < 2 ^ 63 →
  10 * Z.abs (exact_sum (max_scale rows) rows) < Wide.capacity 6.
Proof.
  intros Hok Hlen. destruct (max_scale_bounds rows Hok) as [Hm Hall]. rewrite exact_sum_parts.
  pose proof (rows_fit rows Hok Hlen false _ Hm Hall). pose proof (rows_fit rows Hok Hlen true _ Hm Hall). lia.
Qed.

Lemma total_spec debug s rows : sum_ok s rows → Forall decimal_ok rows → Z.of_nat (length rows) < 2 ^ 63 →
  ∃ r, DecimalSum.total debug s = Some r ∧
    rounds_to (Z.abs (exact_sum (max_scale rows) rows)) (max_scale rows) (exact_sum (max_scale rows) rows <? 0) r.
Proof.
  intros Hs Hok Hlen. unfold DecimalSum.total. pose proof (magnitude_spec s rows Hs) as Hm.
  destruct (DecimalSum.magnitude s) as [m negative]. destruct Hm as (Hm & Em & ->). rewrite (proj1 Hs), <- Em.
  apply (rounded_spec debug 6); [lia|done| |].
  - rewrite Em. by apply exact_sum_bound.
  - destruct (max_scale_bounds rows Hok). lia.
Qed.

(** The average is the exact sum over the count, rounded at the scale
    division chooses; it fails when the rounding gains a digit. *)
Lemma average_spec debug s rows count : sum_ok s rows → Forall decimal_ok rows → Z.of_nat (length rows) < 2 ^ 63 →
  0 < count < 2 ^ 64 →
  let n := Z.abs (exact_sum (max_scale rows) rows) in
  let d := count * 10 ^ max_scale rows in
  n / d < 10 ^ 38 →
  ∃ sc, 0 ≤ sc ≤ 38 - digit_count (n / d) ∧ enough_digits n d (max_scale rows) sc ∧
    DecimalSum.average debug s count
    = Some (if nearest_div (n * 10 ^ sc) d <? 10 ^ 38
            then Ok (mk sc (words (signed (exact_sum (max_scale rows) rows <? 0) (nearest_div (n * 10 ^ sc) d))))
            else Err Overflow).
Proof.
  intros Hs Hok Hlen Hc n d Hlt. unfold DecimalSum.average. destruct (Z.eqb_spec count 0) as [|_]; [lia|].
  pose proof (magnitude_spec s rows Hs) as Hm. destruct (DecimalSum.magnitude s) as [m negative].
  destruct Hm as (Hm & Em & ->). destruct (max_scale_bounds rows Hok) as [Hsc _].
  assert (Hp : 0 < 10 ^ max_scale rows ≤ 10 ^ 38).
  { split; [apply Z.pow_pos_nonneg; lia|apply Z.pow_le_mono_r; lia]. }
  assert (Hcap : 10 * (2 ^ 64 * 10 ^ 38) ≤ Wide.capacity 6) by (vm_compute; congruence).
  destruct (times_pow10_spec debug 6 (Wide.from_u128 6 count) (Z.to_nat (max_scale rows))) as (w & Hwe & Hw & Ew).
  { apply from_u128_ok. lia. }
  { rewrite eval_from_u128, Z2Nat.id by lia. nia. }
  rewrite eval_from_u128, Z2Nat.id in Ew by lia. rewrite (proj1 Hs). unfold DecimalSum.SUM_LIMBS. rewrite Hwe.
  cbn [mbind option_bind].
  pose proof (quotient_spec debug 6 m w (exact_sum (max_scale rows) rows <? 0) (max_scale rows) ltac:(lia) Hm Hw
    ltac:(nia) ltac:(nia) ltac:(lia)) as Hq. cbn zeta in Hq. rewrite Em, Ew in Hq. fold n d in Hq.
  rewrite (proj2 (Z.ltb_lt _ _) Hlt) in Hq. exact Hq.
Qed.

(** ** The text of decimals

    A decimal prints its mantissa with the point at its scale, and its text
    parses back to it. *)
Import Decimal.
Open Scope Z_scope.

Definition digit_value (acc : Z) (s : list Z) : Z := foldl (λ acc c, acc * 10 + (c - 48)) acc s.
Abbreviation digits s := (Forall (λ c, 48 ≤ c ≤ 57) s).

Lemma is_digit_spec c : is_digit c = true ↔ 48 ≤ c ≤ 57.
Proof. unfold is_digit. rewrite andb_true_iff, !Z.leb_le. done. Qed.

Lemma forallb_digits s : digits s → forallb is_digit s = true.
Proof. intros Hs. apply forallb_forall. intros c Hc. apply is_digit_spec. by eapply Forall_forall in Hs; [|apply list_elem_of_In]. Qed.

Lemma digit_value_ge acc s : 0 ≤ acc → digits s → acc ≤ digit_value acc s.
Proof.
  intros Hacc Hs. revert acc Hacc. induction Hs as [|c s Hc _ IH]; intros acc Hacc; [done|].
  cbn [digit_value foldl]. fold (digit_value (acc * 10 + (c - 48)) s). specialize (IH (acc * 10 + (c - 48))). lia.
Qed.

(** Digits below [10^38] are read without overflow. *)
Lemma read_magnitude_spec debug acc s : 0 ≤ acc → digits s → digit_value acc s < 10 ^ 38 →
  read_magnitude debug acc s = Some (Ok (digit_value acc s)).
Proof.
  intros Hacc Hs. revert acc Hacc. induction Hs as [|c s Hc Hs IH]; intros acc Hacc Hlt; [done|].
  cbn [read_magnitude digit_value foldl] in *. fold (digit_value (acc * 10 + (c - 48)) s) in *.
  pose proof (digit_value_ge (acc * 10 + (c - 48)) s ltac:(lia) Hs). pose proof pow38_fits.
  unfold checked_mul128, add128, wrap128. rewrite (proj2 (Z.ltb_lt _ _)) by lia.
  rewrite (proj2 (Z.leb_gt _ _)), andb_false_r, Z.mod_small by lia. cbn [mbind option_bind].
  rewrite LIMIT_spec, (proj2 (Z.ltb_lt _ _)) by lia. apply IH; [lia|done].
Qed.

Lemma decimal_spec fuel n acc : (1 ≤ fuel)%nat → 0 ≤ n < 10 ^ Z.of_nat fuel →
  digits (Date.decimal fuel n) ∧ (1 ≤ length (Date.decimal fuel n))%nat ∧
  digit_value acc (Date.decimal fuel n) = acc * 10 ^ Z.of_nat (length (Date.decimal fuel n)) + n.
Proof.
  revert n acc. induction fuel as [|fuel IH]; intros n acc Hf Hn; [lia|]. cbn [Date.decimal].
  destruct (Z.ltb_spec n 10) as [Hlt|Hge].
  { split_and!; [constructor; [lia|constructor]|simpl; lia|]. unfold digit_value. simpl (foldl _ _ _).
    change (10 ^ Z.of_nat (length [48 + n])) with 10. lia. }
  rewrite Nat2Z.inj_succ, Z.pow_succ_r in Hn by lia. destruct fuel as [|fuel]; [simpl in Hn; lia|].
  pose proof (Z.div_mod n 10 ltac:(lia)). pose proof (Z.mod_pos_bound n 10 ltac:(lia)).
  destruct (IH (n / 10) acc) as (Hd & Hl & Hv); [lia|split; [apply Z.div_pos; lia|apply Z.div_lt_upper_bound; lia]|].
  set (t := Date.decimal (S fuel) (n / 10)) in *. clearbody t. split_and!.
  - apply Forall_app. split; [exact Hd|]. constructor; [lia|constructor].
  - rewrite length_app. lia.
  - unfold digit_value in *. rewrite foldl_app, Hv, length_app. simpl (foldl _ _ [_]). simpl (length [_]).
    rewrite Nat2Z.inj_add, Z.pow_add_r by lia. change (10 ^ Z.of_nat 1) with 10. lia.
Qed.

Lemma split_once_digits s rest : digits s → split_once 46 (s ++ 46 :: rest) = Some (s, rest).
Proof.
  induction 1 as [|c s Hc _ IH]; [done|]. cbn [app split_once]. rewrite IH.
  by rewrite (proj2 (Z.eqb_neq _ _)) by lia.
Qed.

Lemma split_once_none s : digits s → split_once 46 s = None.
Proof. induction 1 as [|c s Hc _ IH]; [done|]. cbn [split_once]. rewrite IH. by rewrite (proj2 (Z.eqb_neq _ _)) by lia. Qed.

(** A text of a sign, an integer part and a fraction parses to its value. *)
Lemma parse_parts_spec debug (negative : bool) (integer fraction : list Z) : integer ≠ [] → digits integer → digits fraction →
  (length fraction ≤ 38)%nat → digit_value 0 (integer ++ fraction) < 10 ^ 38 →
  parse debug ((if negative then [45] else []) ++ integer ++ (if bool_decide (fraction = []) then [] else 46 :: fraction))
  = Some (Ok (mk (Z.of_nat (length fraction)) (words (signed negative (digit_value 0 (integer ++ fraction)))))).
Proof.
  intros Hne Hi Hf Hlen Hlt. unfold parse, parse_digits.
  set (body := integer ++ _).
  assert (Hsign : strip_sign ((if negative then [45] else []) ++ body) = (negative, body)).
  { destruct negative; [done|]. subst body. destruct integer as [|c integer]; [done|].
    apply Forall_cons in Hi as [Hc _]. cbn [app strip_sign]. by rewrite !(proj2 (Z.eqb_neq c _)) by lia. }
  rewrite Hsign. assert (Hsplit : default (body, []) (split_once 46 body) = (integer, fraction)).
  { subst body. case_bool_decide as E; [rewrite app_nil_r, split_once_none by done; by rewrite E|by rewrite split_once_digits]. }
  rewrite Hsplit. rewrite !forallb_digits by done. rewrite (bool_decide_eq_false_2 (integer = [])) by done.
  cbn [andb orb negb]. rewrite (proj2 (Nat.ltb_ge _ _)) by done. cbn [andb].
  assert (Hd : digits (integer ++ fraction)) by (by apply Forall_app).
  rewrite read_magnitude_spec by (done || lia). cbn [mbind option_bind].
  pose proof (digit_value_ge 0 _ ltac:(lia) Hd). rewrite from_magnitude_spec, (proj2 (Z.ltb_lt _ _)) by lia. done.
Qed.

(** Printing puts the digits of the mantissa around the point. *)
Lemma fmt_spec d : decimal_ok d → ∃ integer fraction : list Z,
  fmt d = (if mantissa d <? 0 then [45] else []) ++ integer ++ (if bool_decide (fraction = []) then [] else 46 :: fraction) ∧
  integer ≠ [] ∧ digits integer ∧ digits fraction ∧ length fraction = Z.to_nat (scale d) ∧
  digit_value 0 (integer ++ fraction) = Z.abs (mantissa d).
Proof.
  intros (Hs & Hm & _). unfold fmt. set (s := Date.decimal 39 (Z.abs (mantissa d))). set (n := Z.to_nat (scale d)).
  destruct (decimal_spec 39 (Z.abs (mantissa d)) 0 ltac:(lia)) as (Hd & Hl & Hv).
  { change (10 ^ Z.of_nat 39) with (10 * 10 ^ 38). lia. }
  fold s in Hd, Hl, Hv. clearbody s.
  rewrite Z.mul_0_l, Z.add_0_l in Hv. destruct (Nat.eqb_spec n 0) as [E0|E0].
  - exists s, []. rewrite (bool_decide_eq_true_2 ([] = [])), !app_nil_r by done. rewrite E0.
    split_and!; [reflexivity|destruct s; [simpl in Hl; lia|congruence]|exact Hd|constructor|reflexivity|exact Hv].
  - destruct (Nat.ltb_spec n (length s)) as [Hlt|Hge].
    + exists (take (length s - n) s), (drop (length s - n) s). rewrite take_drop.
      assert (Hdl : length (drop (length s - n) s) = n) by (rewrite length_drop; lia).
      rewrite bool_decide_eq_false_2 by (intros E; rewrite E in Hdl; simpl in Hdl; lia).
      split_and!; [done| |by apply Forall_take|by apply Forall_drop|done|done].
      intros E. apply (f_equal length) in E. rewrite length_take in E. simpl in E. lia.
    + exists [48], (replicate (n - length s) 48 ++ s).
      assert (Hrl : length (replicate (n - length s) 48 ++ s) = n) by (rewrite length_app, length_replicate; lia).
      rewrite bool_decide_eq_false_2 by (intros E; rewrite E in Hrl; simpl in Hrl; lia).
      split_and!; [done|done|constructor; [lia|constructor]|apply Forall_app; split; [apply Forall_replicate; lia|done]|done|].
      rewrite <- Hv. cbn [app]. change (48 :: replicate ?k 48 ++ s) with (replicate (S k) 48 ++ s).
      unfold digit_value. rewrite foldl_app. f_equal. generalize (S (n - length s)). intros k.
      induction k as [|k IH]; [done|]. exact IH.
Qed.

(** The text of a decimal parses back to it, scale included. *)
Lemma parse_fmt debug d : decimal_ok d → parse debug (fmt d) = Some (Ok d).
Proof.
  intros Hd. destruct (fmt_spec d Hd) as (integer & fraction & -> & Hne & Hi & Hf & Hlen & Hv).
  destruct Hd as (Hs & Hm & Hw). rewrite parse_parts_spec; [|done..|lia|lia].
  do 2 f_equal. rewrite Hv, Hlen, Z2Nat.id by lia.
  replace (signed (mantissa d <? 0) (Z.abs (mantissa d))) with (mantissa d).
  - rewrite <- Hw. by destruct d.
  - unfold signed. destruct (Z.ltb_spec (mantissa d) 0); lia.
Qed.
