(* ===== verification/DecimalProps.v ===== *)
(** * Decimals: theorems

    Products, quotients and sums are the nearest decimals to the exact
    values; order, equality and hashing agree with the values; texts and
    bytes read back; and where the code falls short of that, what it does. *)
From S2P Require Import Prelude Bits Bytes Wide Date Decimal DecimalFacts DecimalDiv DecimalSums.
Import Decimal.
Open Scope Z_scope.

(** ** Scales *)

Lemma pow38_mono k : 0 ≤ k ≤ 38 → 0 < 10 ^ k ≤ 10 ^ 38.
Proof. intros Hk. split; [apply Z.pow_pos_nonneg; lia|apply Z.pow_le_mono_r; lia]. Qed.

Lemma signed_of_abs m : signed (m <? 0) (Z.abs m) = m.
Proof. unfold signed. destruct (Z.ltb_spec m 0); lia. Qed.

Lemma rescale_up d s : decimal_ok d → scale d ≤ s ≤ 38 →
  rescale d s = if Z.abs (mantissa d) * 10 ^ (s - scale d) <? 10 ^ 38
                then Ok (mk s (words (mantissa d * 10 ^ (s - scale d)))) else Err Overflow.
Proof.
  intros (Hs & Hm & _) Hle. unfold rescale, MAX_DECIMAL_DIGITS, checked_mul128.
  rewrite (proj2 (Z.ltb_ge _ _)), (proj2 (Z.leb_le _ _)), pow10_spec by lia. pose proof (pow38_mono (s - scale d)).
  pose proof pow38_fits. set (x := Z.abs (mantissa d) * 10 ^ (s - scale d)).
  assert (Hx : 0 ≤ x) by (subst x; nia).
  assert (Hsx : signed (mantissa d <? 0) x = mantissa d * 10 ^ (s - scale d)).
  { subst x. unfold signed. destruct (Z.ltb_spec (mantissa d) 0); nia. }
  destruct (Z.ltb_spec x (2 ^ 128)) as [Hlt|Hge]; cbn [ok_or mbind result_bind].
  - rewrite from_magnitude_spec, Hsx by lia. reflexivity.
  - rewrite (proj2 (Z.ltb_ge x _)) by lia. reflexivity.
Qed.

Lemma rescale_down d s : decimal_ok d → 0 ≤ s < scale d →
  rescale d s = Ok (mk s (words (signed (mantissa d <? 0) (nearest_div (Z.abs (mantissa d)) (10 ^ (scale d - s)))))).
Proof.
  intros (Hs & Hm & _) Hlt. unfold rescale, MAX_DECIMAL_DIGITS. pose proof pow38_fits.
  rewrite (proj2 (Z.ltb_ge _ _)), (proj2 (Z.leb_gt _ _)) by lia. cbn [mbind result_bind].
  pose proof (pow38_mono (scale d - s)). rewrite round_off_spec, from_magnitude_spec; [|try apply nearest_div_nonneg; lia..].
  rewrite (proj2 (Z.ltb_lt _ _)); [done|]. apply Z.le_lt_trans with (Z.abs (mantissa d)); [|done].
  apply nearest_div_le; [lia|nia].
Qed.

(** The outcome of an addition of the mantissas at a common scale. *)
Lemma aligned_spec a b : decimal_ok a → decimal_ok b →
  let s := Z.max (scale a) (scale b) in
  let x := mantissa a * 10 ^ (s - scale a) in
  let y := mantissa b * 10 ^ (s - scale b) in
  aligned a b = if (Z.abs x <? 10 ^ 38) && (Z.abs y <? 10 ^ 38) then Ok (x, y, s) else Err Overflow.
Proof.
  intros Ha Hb. cbn zeta. unfold aligned. set (s := Z.max _ _).
  rewrite !rescale_up by (try done; destruct Ha as [? _], Hb as [? _]; lia).
  destruct Ha as (Ha & _), Hb as (Hb & _). pose proof (pow38_mono (s - scale a)). pose proof (pow38_mono (s - scale b)).
  rewrite !Z.abs_mul, !(Z.abs_eq (10 ^ _)) by lia.
  destruct (Z.ltb_spec (Z.abs (mantissa a) * 10 ^ (s - scale a)) (10 ^ 38)) as [Hx|Hx]; cbn [andb mbind result_bind]; [|reflexivity].
  destruct (Z.ltb_spec (Z.abs (mantissa b) * 10 ^ (s - scale b)) (10 ^ 38)) as [Hy|Hy]; cbn [mbind result_bind]; [|reflexivity].
  rewrite !mantissa_small by (rewrite Z.abs_mul, (Z.abs_eq (10 ^ _)) by lia; lia). reflexivity.
Qed.

Lemma new_checked x s : 0 ≤ s ≤ 38 → Z.abs x ≤ 2 * 10 ^ 38 →
  (sum ← ok_or (checked128 x) Overflow; new sum s) = if Z.abs x <? 10 ^ 38 then Ok (mk s (words x)) else Err Overflow.
Proof.
  intros Hs Hx. unfold checked128. pose proof pow38_fits.
  destruct (Z.ltb_spec (Z.abs x) (10 ^ 38)) as [Hlt|Hge].
  - rewrite (proj2 (Z.leb_le _ _)), (proj2 (Z.ltb_lt _ _)) by lia. cbn [andb ok_or mbind result_bind].
    rewrite new_spec, decide_True by lia. reflexivity.
  - destruct (_ && _); cbn [ok_or mbind result_bind]; [|reflexivity]. rewrite new_spec, decide_False by lia. reflexivity.
Qed.

(** A sum is exact at the larger scale; it fails exactly when an operand or
    the sum needs more than 38 digits there. *)
Lemma checked_add_spec a b : decimal_ok a → decimal_ok b →
  let s := Z.max (scale a) (scale b) in
  let x := mantissa a * 10 ^ (s - scale a) in
  let y := mantissa b * 10 ^ (s - scale b) in
  checked_add a b = if (Z.abs x <? 10 ^ 38) && (Z.abs y <? 10 ^ 38) && (Z.abs (x + y) <? 10 ^ 38)
                    then Ok (mk s (words (x + y))) else Err Overflow.
Proof.
  intros Ha Hb s x y. unfold checked_add. rewrite aligned_spec by done. fold s x y.
  destruct (Z.ltb_spec (Z.abs x) (10 ^ 38)), (Z.ltb_spec (Z.abs y) (10 ^ 38)); cbn [andb mbind result_bind]; try reflexivity.
  destruct Ha as [? _], Hb as [? _]. apply new_checked; lia.
Qed.

Lemma checked_sub_spec a b : decimal_ok a → decimal_ok b →
  let s := Z.max (scale a) (scale b) in
  let x := mantissa a * 10 ^ (s - scale a) in
  let y := mantissa b * 10 ^ (s - scale b) in
  checked_sub a b = if (Z.abs x <? 10 ^ 38) && (Z.abs y <? 10 ^ 38) && (Z.abs (x - y) <? 10 ^ 38)
                    then Ok (mk s (words (x - y))) else Err Overflow.
Proof.
  intros Ha Hb s x y. unfold checked_sub. rewrite aligned_spec by done. fold s x y.
  destruct (Z.ltb_spec (Z.abs x) (10 ^ 38)), (Z.ltb_spec (Z.abs y) (10 ^ 38)); cbn [andb mbind result_bind]; try reflexivity.
  destruct Ha as [? _], Hb as [? _]. apply new_checked; lia.
Qed.

(** ** Integer parts *)

Lemma quot_floor m u : 0 < u → Z.quot m u - (if Z.sgn (Z.rem m u) <? 0 then 1 else 0) = m / u.
Proof.
  intros Hu. pose proof (Z.quot_rem m u ltac:(lia)) as Hqr. apply Z.div_unique_pos with (Z.rem m u + (if Z.sgn (Z.rem m u) <? 0 then u else 0)).
  - destruct (Z.le_gt_cases 0 m).
    + pose proof (Z.rem_bound_pos m u ltac:(lia) Hu). rewrite (proj2 (Z.ltb_ge _ _)) by lia. lia.
    + pose proof (Z.rem_bound_pos (- m) u ltac:(lia) Hu) as Hb. rewrite Z.rem_opp_l in Hb by lia.
      destruct (Z.ltb_spec (Z.sgn (Z.rem m u)) 0); lia.
  - destruct (Z.ltb_spec (Z.sgn (Z.rem m u)) 0); lia.
Qed.

Lemma whole_ok n : Z.abs n < 10 ^ 38 → decimal_ok (whole n) ∧ mantissa (whole n) = n ∧ scale (whole n) = 0.
Proof. intros Hn. split_and!; [apply mk_ok; [lia|done]|by apply mantissa_small|done]. Qed.

Lemma div_pow_bound m k : Z.abs m < 10 ^ 38 → 0 ≤ k ≤ 38 → Z.abs (m / 10 ^ k) < 10 ^ 38 ∨ m / 10 ^ k = - 10 ^ 38.
Proof.
  intros Hm Hk. pose proof (pow38_mono k Hk) as Hp. pose proof (Z.div_mod m (10 ^ k) ltac:(lia)).
  pose proof (Z.mod_pos_bound m (10 ^ k) ltac:(lia)). nia.
Qed.

Lemma floor_spec d : decimal_ok d → decimal_ok (floor d) ∧ mantissa (floor d) = mantissa d / 10 ^ scale d ∧ scale (floor d) = 0.
Proof.
  intros (Hs & Hm & _). unfold floor, truncated. rewrite pow10_spec by lia. pose proof (pow38_mono (scale d) ltac:(lia)) as Hp.
  pose proof (quot_floor (mantissa d) (10 ^ scale d) ltac:(lia)) as Hq.
  assert (Hb : Z.abs (mantissa d / 10 ^ scale d) < 10 ^ 38).
  { destruct (div_pow_bound (mantissa d) (scale d)) as [|E]; [done..|]. exfalso.
    pose proof (Z.div_mod (mantissa d) (10 ^ scale d) ltac:(lia)). pose proof (Z.mod_pos_bound (mantissa d) (10 ^ scale d) ltac:(lia)).
    rewrite E in *. destruct (Z.eq_dec (scale d) 0) as [E0|]; [rewrite E0 in *; simpl (10 ^ 0) in *; lia|].
    assert (10 ^ 1 ≤ 10 ^ scale d) by (apply Z.pow_le_mono_r; lia). nia. }
  assert (Hv : (if Z.sgn (Z.rem (mantissa d) (10 ^ scale d)) <? 0 then Z.quot (mantissa d) (10 ^ scale d) - 1
                else Z.quot (mantissa d) (10 ^ scale d)) = mantissa d / 10 ^ scale d).
  { rewrite <- Hq. destruct (_ <? 0); lia. }
  rewrite Hv. apply whole_ok. done.
Qed.

Lemma quot_ceil m u : 0 < u → (if 0 <? Z.sgn (Z.rem m u) then Z.quot m u + 1 else Z.quot m u) = - (- m / u).
Proof.
  intros Hu. pose proof (quot_floor (- m) u Hu) as Hf. rewrite Z.quot_opp_l, Z.rem_opp_l, Z.sgn_opp in Hf by lia.
  destruct (Z.ltb_spec 0 (Z.sgn (Z.rem m u))), (Z.ltb_spec (- Z.sgn (Z.rem m u)) 0); lia.
Qed.

Lemma neg_ok d : decimal_ok d → decimal_ok (neg d) ∧ mantissa (neg d) = - mantissa d ∧ scale (neg d) = scale d.
Proof.
  intros (Hs & Hm & _). split_and!; [apply mk_ok; [done|lia]| |done]. apply mantissa_small. lia.
Qed.

Lemma ceil_spec d : decimal_ok d →
  decimal_ok (ceil d) ∧ mantissa (ceil d) = - (- mantissa d / 10 ^ scale d) ∧ scale (ceil d) = 0.
Proof.
  intros Hd. destruct (neg_ok d Hd) as (Hn & Em & Es). destruct (floor_spec (neg d) Hn) as ((_ & Hb & _) & Ef & _).
  rewrite Ef, Em, Es in Hb. destruct Hd as (Hs & _). unfold ceil, truncated. rewrite pow10_spec by lia.
  pose proof (pow38_mono (scale d) ltac:(lia)). rewrite quot_ceil by lia. apply whole_ok. lia.
Qed.

Lemma round_spec d : decimal_ok d →
  decimal_ok (round d) ∧ mantissa (round d) = signed (mantissa d <? 0) (nearest_div (Z.abs (mantissa d)) (10 ^ scale d)) ∧
  scale (round d) = 0.
Proof.
  intros (Hs & Hm & _). unfold round. pose proof pow38_fits. pose proof (pow38_mono (scale d) ltac:(lia)).
  rewrite round_off_spec by lia. set (r := nearest_div _ _).
  assert (Hr : 0 ≤ r < 10 ^ 38).
  { split; [apply nearest_div_nonneg; lia|]. apply Z.le_lt_trans with (Z.abs (mantissa d)); [|done]. apply nearest_div_le; [lia|nia]. }
  unfold cast_signed128. rewrite (proj2 (Z.ltb_lt r _)) by lia. fold (signed (mantissa d <? 0) r).
  apply whole_ok. rewrite signed_abs by lia. lia.
Qed.

(** ** Theorems *)

(** C26: Products. Multiplication never panics and gives the decimal nearest
    the exact product, a half away from zero, at the largest scale at which it
    fits 38 digits, whether the product fits 128 bits or goes through the
    256-bit long division; it fails with [Overflow] exactly when the product
    rounds to 39 digits or more even as an integer. *)
Theorem products_are_nearest debug a b : decimal_ok a → decimal_ok b →
  ∃ r, checked_mul debug a b = Some r ∧
    rounds_to (Z.abs (mantissa a * mantissa b)) (scale a + scale b) (xorb (mantissa a <? 0) (mantissa b <? 0)) r.
Proof. apply checked_mul_spec. Qed.

(** C27: Quotients. Division never panics: by zero it is [DivisionByZero], and
    otherwise the quotient is rounded to the nearest, a half away from zero,
    with every digit there is room for, or with 16 significant digits and the
    larger scale of the operands; [Overflow] means that the quotient is
    [10^38] or more. A quotient below [10^-39] may come out as 0 at the larger
    scale of the operands, which is the nearest value at any scale there is.
    *)
Theorem quotients_are_nearest debug a b : decimal_ok a → decimal_ok b →
  ∃ r, checked_div debug a b = Some r ∧
    if mantissa b =? 0 then r = Err DivisionByZero
    else divides_to (Z.abs (mantissa a) * 10 ^ scale b) (Z.abs (mantissa b) * 10 ^ scale a)
           (xorb (mantissa a <? 0) (mantissa b <? 0)) (Z.max (scale a) (scale b)) r.
Proof.
  intros Ha Hb. destruct (Z.eqb_spec (mantissa b) 0) as [E|E].
  - unfold checked_div. rewrite E. by eexists.
  - by apply checked_div_spec.
Qed.

(** Sums. A sum of fewer than [2^63] rows never panics, is the same state
    whatever the order of its rows, and its total is the decimal nearest their
    exact sum, a half away from zero, at the largest scale at which it fits.
    *)
Theorem sums_in_any_order debug rows rows' : Forall decimal_ok rows → Z.of_nat (length rows) < 2 ^ 63 →
  rows ≡ₚ rows' →
  ∃ s r, DecimalSum.add_all debug DecimalSum.new rows = Some s ∧
    DecimalSum.add_all debug DecimalSum.new rows' = Some s ∧
    DecimalSum.total debug s = Some r ∧
    rounds_to (Z.abs (exact_sum (max_scale rows) rows)) (max_scale rows) (exact_sum (max_scale rows) rows <? 0) r.
Proof.
  intros Hok Hlen Hp. assert (Hok' : Forall decimal_ok rows') by (by rewrite <- Hp).
  destruct (add_all_spec debug DecimalSum.new [] rows sum_ok_new) as (s & Hs & Hsok); [constructor|done|simpl; lia|].
  destruct (add_all_spec debug DecimalSum.new [] rows' sum_ok_new) as (s' & Hs' & Hsok'); [constructor|done| |].
  { apply Permutation_length in Hp. simpl. lia. }
  simpl app in *. destruct (total_spec debug s rows Hsok Hok Hlen) as (r & Hr & Hround).
  exists s, r. split_and!; [done| |done|done]. rewrite Hs'. f_equal.
  apply (sum_ok_unique _ _ rows'); [done|]. by apply (sum_ok_perm _ rows).
Qed.

(** The order of decimals. Decimals compare as the numbers they stand
    for, across scales and signs; those that are equal, whatever their scales,
    are those that hash alike. *)
Theorem order_is_of_values a b : decimal_ok a → decimal_ok b →
  cmp a b = (units a ?= units b) ∧ (eq a b = true ↔ normalized a = normalized b).
Proof.
  intros Ha Hb. split; [by apply cmp_units|]. rewrite normalized_units by done. unfold eq. rewrite cmp_units by done.
  rewrite <- Z.compare_eq_iff. by destruct (units a ?= units b).
Qed.

(** The text of a decimal parses back to it, scale included. *)
Theorem printed_decimals_parse_back debug d : decimal_ok d → parse debug (fmt d) = Some (Ok d).
Proof. apply parse_fmt. Qed.

(** The remainder is that of the values, with the sign of the first, at the
    larger scale; it never overflows. *)
Theorem remainders_are_exact debug a b : decimal_ok a → decimal_ok b → mantissa b ≠ 0 →
  ∃ d, checked_rem debug a b = Some (Ok d) ∧ decimal_ok d ∧ scale d = Z.max (scale a) (scale b) ∧
    units d = Z.rem (units a) (units b).
Proof. apply checked_rem_spec. Qed.

(** What a decimal type accepts it holds, rounded to the nearest at its scale,
    and a value it holds it accepts as it is. *)
Theorem fitted_values_are_held p s ty d : 0 ≤ s → DecimalType.new p s = Ok ty → decimal_ok d →
  (∀ d', DecimalType.fit ty d = Ok d' → decimal_ok d' ∧ DecimalType.holds ty d' = true) ∧
  (DecimalType.holds ty d = true → DecimalType.fit ty d = Ok d).
Proof.
  intros Hs0 Hty Hd. unfold DecimalType.new in Hty. destruct (_ && _) eqn:Hg; simplify_eq.
  rewrite !andb_true_iff, !Z.leb_le in Hg. unfold MAX_DECIMAL_DIGITS in Hg.
  unfold DecimalType.fit, with_precision, DecimalType.holds, MAX_DECIMAL_DIGITS. cbn [DecimalType.precision DecimalType.scale].
  rewrite (proj2 (Z.leb_le 1 p)), (proj2 (Z.leb_le p 38)), (proj2 (Z.ltb_ge p s)) by lia. cbn [andb negb orb].
  rewrite pow10_spec by lia. split.
  - intros d'. destruct (rescale d s) as [r|e] eqn:Hr; cbn [mbind result_bind]; [|done].
    destruct (Z.leb_spec (10 ^ p) (Z.abs (mantissa r))); [done|]. intros [= <-].
    assert (Hsr : scale r = s ∧ decimal_ok r).
    { destruct (Z.le_gt_cases (scale d) s) as [Hle|Hgt].
      - rewrite rescale_up in Hr by (done || lia). destruct (Z.ltb_spec (Z.abs (mantissa d) * 10 ^ (s - scale d)) (10 ^ 38)); [|done].
        injection Hr as <-. split; [done|]. apply mk_ok; [lia|].
        destruct Hd as [? _]. pose proof (pow38_mono (s - scale d)). rewrite Z.abs_mul, (Z.abs_eq (10 ^ _)) by lia. lia.
      - rewrite rescale_down in Hr by (done || lia). injection Hr as <-. split; [done|]. destruct Hd as (Hsd & Hm & _).
        pose proof (pow38_mono (scale d - s)). assert (Hn : 0 ≤ nearest_div (Z.abs (mantissa d)) (10 ^ (scale d - s))) by (apply nearest_div_nonneg; lia).
        apply mk_ok; [lia|]. rewrite signed_abs by done. apply Z.le_lt_trans with (Z.abs (mantissa d)); [|done].
        apply nearest_div_le; [lia|nia]. }
    destruct Hsr as [-> Hrok]. split; [done|]. rewrite Z.eqb_refl. cbn [andb]. by apply Z.ltb_lt.
  - rewrite andb_true_iff, Z.eqb_eq, Z.ltb_lt. intros [Hsd Hm]. pose proof Hd as (Hsd0 & Hm38 & Hw).
    rewrite rescale_up by (done || lia). rewrite Hsd, Z.sub_diag, Z.pow_0_r, !Z.mul_1_r.
    rewrite (proj2 (Z.ltb_lt _ _)) by done. cbn [mbind result_bind]. rewrite mantissa_small by done.
    rewrite (proj2 (Z.leb_gt _ _)) by done. f_equal. rewrite <- Hw. destruct d as [sc w]. cbn [scale mantissa_words] in *. by subst.
Qed.

(** A sum that was written to disk is read back. *)
Theorem sum_bytes_read_back s rows : sum_ok s rows → Forall decimal_ok rows →
  length (DecimalSum.to_le_bytes s) = DecimalSum.DECIMAL_SUM_BYTES ∧
  DecimalSum.from_le_bytes (DecimalSum.to_le_bytes s) = Some s.
Proof.
  intros (Hsc & (Hpl & Hp) & _ & (Hnl & Hn) & _) Hok. destruct (max_scale_bounds rows Hok) as [Hm _].
  unfold DecimalSum.to_le_bytes, DecimalSum.from_le_bytes, MAX_DECIMAL_DIGITS. split.
  - cbn [length]. rewrite words_to_bytes_length, length_app, Hpl, Hnl. reflexivity.
  - rewrite (proj2 (Z.ltb_ge _ _)) by lia. unfold DecimalSum.SUM_LIMBS.
    replace (2 * 6)%nat with (length (DecimalSum.positive s ++ DecimalSum.negative s)) by (rewrite length_app, Hpl, Hnl; reflexivity).
    rewrite <- (app_nil_r (words_to_bytes _)), read_words_app by (by apply Forall_app).
    rewrite <- Hpl, take_app_length, drop_app_length. by destruct s.
Qed.

(** ** Where the code falls short *)

(** The decimal of a scale and a mantissa. *)
Definition dec (scale mantissa : Z) : Decimal := mk scale (words mantissa).

(** The digits of [2^128]: the first 38 are below [10^38] and ten times them
    fits 128 bits, but the last digit no longer does. A debug build panics,
    and a release build reads the number as 0. *)
Theorem parse_wraps_at_128_bits :
  let text := Date.decimal 39 (2 ^ 128) in
  parse false text = Some (Ok (dec 0 0)) ∧ parse true text = None.
Proof. split; vm_compute; reflexivity. Qed.

(** [10^37 - 0.1] has 38 digits, but the operands are aligned to the larger
    scale first, where [10^37] has 39, and the addition fails. *)
Theorem sum_of_38_digits_overflows :
  checked_add (dec 0 (10 ^ 37)) (dec 1 (-1)) = Err Overflow ∧
  decimal_ok (dec 1 (10 ^ 38 - 1)) ∧ units (dec 1 (10 ^ 38 - 1)) = units (dec 0 (10 ^ 37)) + units (dec 1 (-1)).
Proof. split_and!; [vm_compute; reflexivity|apply mk_ok; lia|vm_compute; reflexivity]. Qed.

(** The average of 1 and the decimal of 38 nines after the point lies halfway
    to 1: it rounds up to [10^38] at scale 38 and fails, though it is between
    its rows. *)
Theorem average_between_rows_overflows :
  (s ← DecimalSum.add_all true DecimalSum.new [dec 38 (10 ^ 38 - 1); dec 0 1]; DecimalSum.average true s 2)
  = Some (Err Overflow).
Proof. vm_compute. reflexivity. Qed.

(** ** Concrete inputs *)

Ltac concrete_ok := apply mk_ok; lia.

Lemma products_are_nearest_witness :
  decimal_ok (dec 38 (10 ^ 38 - 1)) ∧ decimal_ok (dec 18 (-12345678901234567890123456789012345678)) ∧
  ∃ r, checked_mul true (dec 38 (10 ^ 38 - 1)) (dec 18 (-12345678901234567890123456789012345678)) = Some r ∧
    rounds_to (Z.abs (mantissa (dec 38 (10 ^ 38 - 1)) * mantissa (dec 18 (-12345678901234567890123456789012345678))))
      56 true r.
Proof.
  split_and!; [concrete_ok..|]. apply (products_are_nearest true (dec 38 (10 ^ 38 - 1)) (dec 18 (-12345678901234567890123456789012345678))); concrete_ok.
Defined.

Lemma quotients_are_nearest_witness :
  ∃ r, checked_div true (dec 0 1) (dec 1 30) = Some r ∧
    divides_to 10 30 false 1 r.
Proof. apply (quotients_are_nearest true (dec 0 1) (dec 1 30)); concrete_ok. Defined.

Lemma sums_in_any_order_witness :
  ∃ s r, DecimalSum.add_all true DecimalSum.new [dec 2 150; dec 0 (-3); dec 38 7] = Some s ∧
    DecimalSum.add_all true DecimalSum.new [dec 38 7; dec 2 150; dec 0 (-3)] = Some s ∧
    DecimalSum.total true s = Some r ∧ rounds_to (15 * 10 ^ 37 - 7) 38 true r.
Proof.
  apply (sums_in_any_order true [dec 2 150; dec 0 (-3); dec 38 7] [dec 38 7; dec 2 150; dec 0 (-3)]).
  - repeat constructor; concrete_ok.
  - simpl. lia.
  - change [dec 2 150; dec 0 (-3); dec 38 7] with ([dec 2 150; dec 0 (-3)] ++ [dec 38 7]). apply Permutation_app_comm.
Defined.

Lemma order_is_of_values_witness :
  cmp (dec 2 150) (dec 1 15) = Eq ∧ normalized (dec 2 150) = normalized (dec 1 15).
Proof.
  destruct (order_is_of_values (dec 2 150) (dec 1 15)) as [Hc Hn]; [concrete_ok..|].
  split; [rewrite Hc; vm_compute; reflexivity|]. apply Hn. vm_compute. reflexivity.
Defined.

Lemma printed_decimals_parse_back_witness : parse true [45; 48; 46; 48; 53; 48] = Some (Ok (dec 3 (-50))).
Proof. apply (printed_decimals_parse_back true (dec 3 (-50))). concrete_ok. Defined.

Lemma remainders_are_exact_witness :
  ∃ d, checked_rem true (dec 1 (-75)) (dec 0 2) = Some (Ok d) ∧ decimal_ok d ∧ scale d = 1 ∧ units d = - 15 * 10 ^ 37.
Proof.
  apply (remainders_are_exact true (dec 1 (-75)) (dec 0 2)); [concrete_ok..|]. vm_compute. congruence.
Defined.

Lemma fitted_values_are_held_witness :
  DecimalType.fit (DecimalType.mk 10 2) (dec 2 150) = Ok (dec 2 150).
Proof.
  apply (fitted_values_are_held 10 2 (DecimalType.mk 10 2) (dec 2 150)); [lia|reflexivity|concrete_ok|vm_compute; reflexivity].
Defined.

Lemma sum_bytes_read_back_witness : DecimalSum.from_le_bytes (DecimalSum.to_le_bytes DecimalSum.new) = Some DecimalSum.new.
Proof. apply (sum_bytes_read_back DecimalSum.new []); [apply sum_ok_new|constructor]. Defined.
