(* ===== verification/Values.v ===== *)
(** * Property values

    [Value] of grafeo-common/src/types/value.rs and [Term] of types/rdf.rs. A
    string is the list of its UTF-8 bytes; a float is its bits; a [BTreeMap]
    is the list of its entries in the order of the keys; the [HashMap] of a
    counter is a [gmap], whose order nothing depends on. *)
From S2P Require Import Prelude Bytes Wide Decimal DecimalFacts.
Open Scope Z_scope.
#[local] Set Warnings "-register-all".

(** ** Strings *)

Abbreviation str := (list Z) (only parsing).

Definition in_range (lo hi b : Z) : bool := (lo <=? b) && (b <=? hi).
Definition continuation (b : Z) : bool := in_range 128 191 b.

(** [str::from_utf8]: the well-formed byte sequences of the Unicode Standard
    (no overlong forms, no surrogates, nothing past U+10FFFF). *)
Fixpoint utf8_valid (s : str) : bool :=
  match s with
  | [] => true
  | b0 :: s0 =>
      if in_range 0 127 b0 then utf8_valid s0
      else match s0 with
      | [] => false
      | b1 :: s1 =>
          if in_range 194 223 b0 then continuation b1 && utf8_valid s1
          else match s1 with
          | [] => false
          | b2 :: s2 =>
              if in_range 224 239 b0 then
                in_range (if b0 =? 224 then 160 else 128) (if b0 =? 237 then 159 else 191) b1
                && continuation b2 && utf8_valid s2
              else match s2 with
              | [] => false
              | b3 :: s3 =>
                  in_range 240 244 b0
                  && in_range (if b0 =? 240 then 144 else 128) (if b0 =? 244 then 143 else 191) b1
                  && continuation b2 && continuation b3 && utf8_valid s3
              end
          end
      end
  end.

(** The order of strings: by bytes. *)
Definition str_lt (a b : str) : Prop := lex_cmp a b = Lt.
#[export] Instance str_lt_dec a b : Decision (str_lt a b) := decide_rel (=) (lex_cmp a b) Lt.

Definition is_ascii_uppercase (b : Z) : bool := in_range 65 90 b.
Definition to_ascii_lowercase (b : Z) : Z := if is_ascii_uppercase b then b + 32 else b.

(** ** RDF terms *)

Module Term.

Record Literal := mk_literal { value : str; datatype : str; language : option str }.

Inductive t :=
  | Iri (value : str)
  | BlankNode (id : str)
  | Literal_ (literal : Literal).

#[export] Instance Literal_eq_dec : EqDecision Literal.
Proof. solve_decision. Defined.
#[export] Instance t_eq_dec : EqDecision t.
Proof. solve_decision. Defined.

(** The datatype of literals with a language tag, rdf:langString. *)
Definition RDF_LANG_STRING : str :=
  [104; 116; 116; 112; 58; 47; 47; 119; 119; 119; 46; 119; 51; 46; 111; 114; 103; 47; 49; 57; 57; 57; 47; 48; 50; 47;
   50; 50; 45; 114; 100; 102; 45; 115; 121; 110; 116; 97; 120; 45; 110; 115; 35; 108; 97; 110; 103; 83; 116; 114; 105;
   110; 103].

Definition lowercase_tag (tag : str) : str :=
  if existsb is_ascii_uppercase tag then to_ascii_lowercase <$> tag else tag.

Definition typed (value datatype : str) : Literal := mk_literal value datatype None.
Definition with_language (value language : str) : Literal :=
  mk_literal value RDF_LANG_STRING (Some (lowercase_tag language)).

Definition iri (value : str) : t := Iri value.
Definition blank (id : str) : t := BlankNode id.
Definition typed_literal (value datatype : str) : t := Literal_ (typed value datatype).
Definition lang_literal (value language : str) : t := Literal_ (with_language value language).

(** A literal one of the constructors builds. *)
Definition literal_ok (l : Literal) : Prop :=
  utf8_valid (value l) = true ∧
  match language l with
  | Some tag => utf8_valid tag = true ∧ datatype l = RDF_LANG_STRING ∧ lowercase_tag tag = tag
  | None => utf8_valid (datatype l) = true
  end.

Definition ok (term : t) : Prop :=
  match term with
  | Iri s | BlankNode s => utf8_valid s = true
  | Literal_ l => literal_ok l
  end.
End Term.

(** ** Values *)

Module Time.
(** Nanoseconds since midnight, and an offset from UTC in seconds. *)
Record Time := mk { nanos : Z; offset : option Z }.
Definition NANOS_PER_DAY : Z := 86400000000000.
Definition from_nanos (nanos : Z) : option Time :=
  if NANOS_PER_DAY <=? nanos then None else Some (mk nanos None).
Definition with_offset (t : Time) (offset_secs : Z) : Time := mk (nanos t) (Some offset_secs).
End Time.

Abbreviation counts := (gmap (list Z) Z) (only parsing).

Module Value.

Inductive t :=
  | Null
  | Bool (flag : bool)
  | Int64 (integer : Z)
  | Float64 (bits : Z)
  | String (string : str)
  | Bytes (bytes : list Z)
  | Timestamp (micros : Z)
  | Date (days : Z)
  | Time (time : Time.Time)
  | Duration (months days nanos : Z)
  | ZonedDatetime (utc_micros offset_seconds : Z)
  | List (items : list t)
  | Map (entries : list (list Z * t))
  | Vector (components : list Z)
  | Path (nodes edges : list t)
  | GCounter (count : counts)
  | OnCounter (pos neg : counts)
  | Decimal (decimal : Decimal.Decimal)
  | RdfTerm (term : Term.t).

(** Induction with a hypothesis for every nested value. *)
Section Induction.
Variable P : t → Prop.
Hypothesis HList : ∀ items, Forall P items → P (List items).
Hypothesis HMap : ∀ entries, Forall (λ e, P e.2) entries → P (Map entries).
Hypothesis HPath : ∀ nodes edges, Forall P nodes → Forall P edges → P (Path nodes edges).
Hypothesis Hflat : ∀ v, match v with List _ | Map _ | Path _ _ => False | _ => True end → P v.

Fixpoint nested_ind (v : t) : P v :=
  let fix all (l : list t) : Forall P l :=
    match l with
    | [] => Forall_nil_2 P
    | x :: l' => Forall_cons_2 P x l' (nested_ind x) (all l')
    end in
  let fix entries (l : list (list Z * t)) : Forall (λ e, P e.2) l :=
    match l with
    | [] => Forall_nil_2 _
    | e :: l' => Forall_cons_2 _ e l' (nested_ind e.2) (entries l')
    end in
  match v with
  | List items => HList items (all items)
  | Map es => HMap es (entries es)
  | Path ns es => HPath ns es (all ns) (all es)
  | v' => Hflat v' I
  end.
End Induction.

Definition is_u32 (x : Z) : Prop := 0 ≤ x < 2 ^ 32.
Definition is_i32 (x : Z) : Prop := - 2 ^ 31 ≤ x < 2 ^ 31.

Definition counts_ok (c : counts) : Prop := map_Forall (λ k n, utf8_valid k = true ∧ is_u64 n) c.

Definition time_ok (t : Time.Time) : Prop :=
  0 ≤ Time.nanos t < Time.NANOS_PER_DAY ∧ match Time.offset t with Some o => is_i32 o | None => True end.

(** Every conjunct of a list of values. *)
Definition each {A} (P : A → Prop) (l : list A) : Prop := foldr (λ x Q, P x ∧ Q) True l.

Lemma each_Forall {A} (P : A → Prop) l : each P l ↔ Forall P l.
Proof. induction l as [|x l IH]; cbn [each foldr]; [done|]. rewrite Forall_cons, <- IH. done. Qed.

(** A value as the types of its fields hold it: integers at their width,
    strings in UTF-8, the keys of a map increasing. *)
Fixpoint ok (v : t) : Prop :=
  match v with
  | Null | Bool _ => True
  | Int64 x | Timestamp x => is_i64 x
  | Float64 bits => is_u64 bits
  | String s => utf8_valid s = true
  | Bytes bytes => Forall is_byte bytes
  | Date days => is_i32 days
  | Time time => time_ok time
  | Duration months days nanos => is_i64 months ∧ is_i64 days ∧ is_i64 nanos
  | ZonedDatetime micros offset => is_i64 micros ∧ is_i32 offset
  | List items => each ok items
  | Map entries =>
      StronglySorted str_lt entries.*1 ∧ each (λ e, utf8_valid e.1 = true ∧ ok e.2) entries
  | Vector components => each is_u32 components
  | Path nodes edges => each ok nodes ∧ each ok edges
  | GCounter c => counts_ok c
  | OnCounter pos neg => counts_ok pos ∧ counts_ok neg
  | Decimal d => decimal_ok d
  | RdfTerm term => Term.ok term
  end.
End Value.
