(* ===== verification/ValueCodec.v ===== *)
(** * The value codec

    grafeo-common/src/storage/value_codec.rs: the encoding of a value as a
    tag and its fields, the length it has, and the decoder. Encoders give the
    bytes they append; decoders run on the data and a position. *)
From S2P Require Import Prelude Bytes Wide Decimal Values.
Open Scope Z_scope.

Definition MAX_PROPERTY_VALUE_DEPTH : nat := 128.
Definition MAX_VALUE_DEPTH : nat := MAX_PROPERTY_VALUE_DEPTH + 2.

Definition TAG_NULL : Z := 0.
Definition TAG_BOOL : Z := 1.
Definition TAG_INT64 : Z := 2.
Definition TAG_FLOAT64 : Z := 3.
Definition TAG_STRING : Z := 4.
Definition TAG_BYTES : Z := 5.
Definition TAG_DATE : Z := 6.
Definition TAG_TIME : Z := 7.
Definition TAG_TIMESTAMP : Z := 8.
Definition TAG_ZONED_DATETIME : Z := 9.
Definition TAG_DURATION : Z := 10.
Definition TAG_LIST : Z := 11.
Definition TAG_MAP : Z := 12.
Definition TAG_VECTOR : Z := 13.
Definition TAG_PATH : Z := 14.
Definition TAG_GCOUNTER : Z := 15.
Definition TAG_ON_COUNTER : Z := 16.
Definition TAG_DECIMAL : Z := 17.
Definition TAG_RDF_TERM : Z := 18.
Definition RDF_IRI : Z := 0.
Definition RDF_BLANK_NODE : Z := 1.
Definition RDF_LITERAL : Z := 2.
Definition MIN_MAP_ENTRY_BYTES : Z := 5.
Definition MIN_COUNTER_ENTRY_BYTES : Z := 12.

(** ** Encoding *)

(** Why a value cannot be encoded. *)
Inductive encode_error :=
  | NestedTooDeep
  | LengthPastU32 (what : string) (length : Z).

Definition one_deeper (depth : nat) : result encode_error nat :=
  let depth := S depth in
  if (MAX_VALUE_DEPTH <? depth)%nat then Err NestedTooDeep else Ok depth.

Definition put_length (length : nat) (what : string) : result encode_error (list Z) :=
  if Z.of_nat length <=? u32_max then Ok (to_le 4 (Z.of_nat length)) else Err (LengthPastU32 what (Z.of_nat length)).

Definition put_str (s : list Z) (what : string) : result encode_error (list Z) :=
  length ← put_length (length s) what;
  Ok (length ++ s).

(** The bytes of each element of a list, in order. *)
Definition put_each {A} (f : A → result encode_error (list Z)) (l : list A) : result encode_error (list Z) :=
  foldr (λ x rest, bytes ← f x; rest ← rest; Ok (bytes ++ rest)) (Ok []) l.

Definition replica_le (a b : list Z * Z) : Prop := lex_cmp a.1 b.1 ≠ Gt.
#[export] Instance replica_le_dec a b : Decision (replica_le a b).
Proof. unfold replica_le. apply _. Defined.

Definition put_counter (c : counts) : result encode_error (list Z) :=
  let entries := merge_sort replica_le (map_to_list c) in
  length ← put_length (length entries) "counter";
  entries ← put_each (λ e, replica ← put_str e.1 "counter replica"; Ok (replica ++ to_le 8 e.2)) entries;
  Ok (length ++ entries).

Definition put_term (term : Term.t) : result encode_error (list Z) :=
  match term with
  | Term.Iri iri => s ← put_str iri "RDF IRI"; Ok (RDF_IRI :: s)
  | Term.BlankNode id => s ← put_str id "RDF blank node"; Ok (RDF_BLANK_NODE :: s)
  | Term.Literal_ literal =>
      s ← put_str (Term.value literal) "RDF literal";
      rest ← match Term.language literal with
             | Some language => l ← put_str language "RDF language tag"; Ok (1 :: l)
             | None => d ← put_str (Term.datatype literal) "RDF datatype"; Ok (0 :: d)
             end;
      Ok (RDF_LITERAL :: s ++ rest)
  end.

(** The bytes of [value], which sits inside [depth] lists, maps and paths. *)
Fixpoint encode_nested (value : Value.t) (depth : nat) : result encode_error (list Z) :=
  match value with
  | Value.Null => Ok [TAG_NULL]
  | Value.Bool flag => Ok [TAG_BOOL; Z.b2z flag]
  | Value.Int64 integer => Ok (TAG_INT64 :: to_le 8 integer)
  | Value.Float64 bits => Ok (TAG_FLOAT64 :: to_le 8 bits)
  | Value.String s => s ← put_str s "string"; Ok (TAG_STRING :: s)
  | Value.Bytes bytes => length ← put_length (length bytes) "byte string"; Ok (TAG_BYTES :: length ++ bytes)
  | Value.Date days => Ok (TAG_DATE :: to_le 4 days)
  | Value.Time time =>
      let '(has_offset, offset) := match Time.offset time with Some offset => (1, offset) | None => (0, 0) end in
      Ok (TAG_TIME :: to_le 8 (Time.nanos time) ++ has_offset :: to_le 4 offset)
  | Value.Timestamp micros => Ok (TAG_TIMESTAMP :: to_le 8 micros)
  | Value.ZonedDatetime micros offset => Ok (TAG_ZONED_DATETIME :: to_le 8 micros ++ to_le 4 offset)
  | Value.Duration months days nanos => Ok (TAG_DURATION :: to_le 8 months ++ to_le 8 days ++ to_le 8 nanos)
  | Value.List items =>
      depth ← one_deeper depth;
      count ← put_length (length items) "list";
      items ← put_each (λ item, encode_nested item depth) items;
      Ok (TAG_LIST :: count ++ items)
  | Value.Map entries =>
      depth ← one_deeper depth;
      count ← put_length (length entries) "map";
      entries ← put_each (λ e, key ← put_str e.1 "map key"; item ← encode_nested e.2 depth; Ok (key ++ item)) entries;
      Ok (TAG_MAP :: count ++ entries)
  | Value.Vector components =>
      count ← put_length (length components) "vector";
      Ok (TAG_VECTOR :: count ++ flat_map (to_le 4) components)
  | Value.Path nodes edges =>
      depth ← one_deeper depth;
      node_count ← put_length (length nodes) "path node list";
      nodes ← put_each (λ item, encode_nested item depth) nodes;
      edge_count ← put_length (length edges) "path edge list";
      edges ← put_each (λ item, encode_nested item depth) edges;
      Ok (TAG_PATH :: (node_count ++ nodes) ++ edge_count ++ edges)
  | Value.GCounter c => c ← put_counter c; Ok (TAG_GCOUNTER :: c)
  | Value.OnCounter pos neg => pos ← put_counter pos; neg ← put_counter neg; Ok (TAG_ON_COUNTER :: pos ++ neg)
  | Value.Decimal d => Ok (TAG_DECIMAL :: Decimal.scale d :: to_le 16 (Decimal.mantissa d))
  | Value.RdfTerm term => term ← put_term term; Ok (TAG_RDF_TERM :: term)
  end.

(** [encode_value]: appends to [out]; on an error [out] is as it was. *)
Definition encode_value (value : Value.t) (out : list Z) : result encode_error unit * list Z :=
  match encode_nested value 0 with
  | Ok bytes => (Ok tt, out ++ bytes)
  | Err e => (Err e, out)
  end.

(** ** Depth *)

(** Whether [value] nests lists, maps and paths more than [room] deep. *)
Fixpoint deeper_than (value : Value.t) (room : nat) : bool :=
  match value with
  | Value.List items => (room =? 0)%nat || existsb (λ item, deeper_than item (room - 1)) items
  | Value.Map entries => (room =? 0)%nat || existsb (λ e, deeper_than e.2 (room - 1)) entries
  | Value.Path nodes edges =>
      (room =? 0)%nat || (existsb (λ item, deeper_than item (room - 1)) nodes
                          || existsb (λ item, deeper_than item (room - 1)) edges)
  | _ => false
  end.

Definition nests_too_deep (value : Value.t) : bool := deeper_than value MAX_PROPERTY_VALUE_DEPTH.
Definition nests_too_deep_to_encode (value : Value.t) : bool := deeper_than value MAX_VALUE_DEPTH.

(** ** Lengths *)

Definition usize_max : Z := 2 ^ 64 - 1.
Definition saturating_add (a b : Z) : Z := Z.min (a + b) usize_max.
Definition saturating_total (start : Z) (parts : list Z) : Z := foldl saturating_add start parts.

(** The length of a byte sequence, as a [usize]. *)
Definition len {A} (l : list A) : Z := Z.of_nat (length l).

Definition counter_len (c : counts) : Z :=
  saturating_total 4 ((λ e, saturating_add (4 + 8) (len e.1)) <$> map_to_list c).

Definition term_len (term : Term.t) : Z :=
  1 + match term with
      | Term.Iri s | Term.BlankNode s => saturating_add 4 (len s)
      | Term.Literal_ l =>
          saturating_total (4 + 1 + 4) [len (Term.value l); len (default (Term.datatype l) (Term.language l))]
      end.

Fixpoint encoded_len (value : Value.t) : Z :=
  let values_len (values : list Value.t) := saturating_total 4 (map encoded_len values) in
  let fields :=
    match value with
    | Value.Null => 0
    | Value.Bool _ => 1
    | Value.Int64 _ | Value.Float64 _ | Value.Timestamp _ => 8
    | Value.String s => saturating_add 4 (len s)
    | Value.Bytes bytes => saturating_add 4 (len bytes)
    | Value.Date _ => 4
    | Value.Time _ => 8 + 1 + 4
    | Value.ZonedDatetime _ _ => 8 + 4
    | Value.Duration _ _ _ => 3 * 8
    | Value.List items => values_len items
    | Value.Map entries =>
        saturating_total 4 (map (λ e, saturating_total 4 [len e.1; encoded_len e.2]) entries)
    | Value.Vector components => saturating_add 4 (Z.min (len components * 4) usize_max)
    | Value.Path nodes edges => saturating_add (values_len nodes) (values_len edges)
    | Value.GCounter c => counter_len c
    | Value.OnCounter pos neg => saturating_add (counter_len pos) (counter_len neg)
    | Value.Decimal _ => 1 + 16
    | Value.RdfTerm term => term_len term
    end in
  saturating_add fields 1.

(** ** Decoding *)

(** What is wrong with the bytes, and where. *)
Inductive reason :=
  | Needs (what : string) (n remaining : Z)
  | BadFlag (what : string) (other : Z)
  | TooManyEntries (what : string) (count min_entry_bytes remaining : Z)
  | NotUtf8 (what : string)
  | TooDeep
  | NotIncreasing (what : string) (previous key : list Z)
  | NotInADay (nanos : Z)
  | StrayOffset (offset : Z)
  | BadDecimal (mantissa scale : Z)
  | UnknownTermKind (kind : Z)
  | UnknownTag (tag : Z).

Record decode_error := corruption { at_ : nat; why : reason }.

(** A decoder reads the data from a position on, and moves it. *)
Definition Decoder (A : Type) : Type := list Z → nat → result decode_error (A * nat).

#[export] Instance decoder_ret : MRet Decoder := λ A a _ pos, Ok (a, pos).
#[export] Instance decoder_bind : MBind Decoder :=
  λ A B f d data pos, match d data pos with Ok (a, pos') => f a data pos' | Err e => Err e end.

Module Decoder.

Definition error {A} (at_ : nat) (why : reason) : Decoder A := λ _ _, Err (corruption at_ why).
Definition position : Decoder nat := λ _ pos, Ok (pos, pos).
Definition remaining : Decoder Z := λ data pos, Ok (saturating_sub (len data) (Z.of_nat pos), pos).

Definition take_ (n : Z) (what : string) (at_ : nat) : Decoder (list Z) :=
  remaining ← remaining;
  if remaining <? n then error at_ (Needs what n remaining)
  else λ data pos, Ok (take (Z.to_nat n) (drop pos data), (pos + Z.to_nat n)%nat).

Definition array (N : Z) (what : string) : Decoder (list Z) :=
  at_ ← position;
  take_ N what at_.

Definition read_u8 (what : string) : Decoder Z := bytes ← array 1 what; mret (from_le bytes).
Definition read_u32 (what : string) : Decoder Z := bytes ← array 4 what; mret (from_le bytes).
Definition read_u64 (what : string) : Decoder Z := bytes ← array 8 what; mret (from_le bytes).

(** The two's complement of [bits] bits. *)
Definition cast_signed (bits : Z) (x : Z) : Z := if x <? 2 ^ (bits - 1) then x else x - 2 ^ bits.

Definition read_i32 (what : string) : Decoder Z := bytes ← array 4 what; mret (cast_signed 32 (from_le bytes)).
Definition read_i64 (what : string) : Decoder Z := bytes ← array 8 what; mret (cast_signed 64 (from_le bytes)).

Definition read_flag (what : string) : Decoder bool :=
  at_ ← position;
  byte ← read_u8 what;
  if byte =? 0 then mret false else if byte =? 1 then mret true else error at_ (BadFlag what byte).

(** A [u32] always fits a [usize] of 64 bits. *)
Definition read_length (what : string) : Decoder Z := read_u32 what.

Definition read_count (what : string) (min_entry_bytes : Z) : Decoder Z :=
  at_ ← position;
  count ← read_length what;
  remaining ← remaining;
  match checked_mul64 count min_entry_bytes with
  | Some needed =>
      if remaining <? needed then error at_ (TooManyEntries what count min_entry_bytes remaining) else mret count
  | None => error at_ (TooManyEntries what count min_entry_bytes remaining)
  end.

Definition read_str (what : string) : Decoder (list Z) :=
  at_ ← position;
  length ← read_length what;
  bytes ← take_ length what at_;
  if utf8_valid bytes then mret bytes else error at_ (NotUtf8 what).

(** [n] times the same decoder. *)
Fixpoint repeat {A} (n : nat) (d : Decoder A) : Decoder (list A) :=
  match n with
  | O => mret []
  | S n' => x ← d; l ← repeat n' d; mret (x :: l)
  end.

Definition values (value : Decoder Value.t) (what : string) : Decoder (list Value.t) :=
  count ← read_count what 1;
  repeat (Z.to_nat count) value.

Definition check_increasing (what : string) (previous : option (list Z)) (key : list Z) (at_ : nat) : Decoder unit :=
  match previous with
  | Some previous => match lex_cmp key previous with Gt => mret tt | _ => error at_ (NotIncreasing what previous key) end
  | None => mret tt
  end.

(** The entries of [map], each key after [previous]; [insert] puts a key that
    comes after all others at the end. *)
Fixpoint map_entries (n : nat) (value : Decoder Value.t) (previous : option (list Z)) : Decoder (list (list Z * Value.t)) :=
  match n with
  | O => mret []
  | S n' =>
      at_ ← position;
      key ← read_str "map key";
      _ ← check_increasing "map key" previous key at_;
      item ← value;
      entries ← map_entries n' value (Some key);
      mret ((key, item) :: entries)
  end.

Definition map (value : Decoder Value.t) : Decoder (list (list Z * Value.t)) :=
  count ← read_count "map" MIN_MAP_ENTRY_BYTES;
  map_entries (Z.to_nat count) value None.

Fixpoint counter_entries (n : nat) (c : counts) (previous : option (list Z)) : Decoder counts :=
  match n with
  | O => mret c
  | S n' =>
      at_ ← position;
      replica ← read_str "counter replica";
      _ ← check_increasing "counter replica" previous replica at_;
      count ← read_u64 "counter value";
      counter_entries n' (<[replica := count]> c) (Some replica)
  end.

Definition counter (what : string) : Decoder counts :=
  count ← read_count what MIN_COUNTER_ENTRY_BYTES;
  counter_entries (Z.to_nat count) ∅ None.

Definition time : Decoder Time.Time :=
  at_ ← position;
  nanos ← read_u64 "time";
  match Time.from_nanos nanos with
  | None => error at_ (NotInADay nanos)
  | Some time =>
      flag_at ← position;
      has_offset ← read_flag "time offset flag";
      offset ← read_i32 "time offset";
      if (has_offset : bool) then mret (Time.with_offset time offset)
      else if offset =? 0 then mret time
      else error flag_at (StrayOffset offset)
  end.

Definition term (at_ : nat) : Decoder Term.t :=
  kind ← read_u8 "RDF term kind";
  if kind =? RDF_IRI then s ← read_str "RDF IRI"; mret (Term.iri s)
  else if kind =? RDF_BLANK_NODE then s ← read_str "RDF blank node"; mret (Term.blank s)
  else if kind =? RDF_LITERAL then
    value ← read_str "RDF literal";
    has_language ← read_flag "RDF language flag";
    if (has_language : bool) then l ← read_str "RDF language tag"; mret (Term.lang_literal value l)
    else d ← read_str "RDF datatype"; mret (Term.typed_literal value d)
  else error at_ (UnknownTermKind kind).

Definition decimal (at_ : nat) : Decoder Decimal.Decimal :=
  scale ← read_u8 "decimal scale";
  bytes ← array 16 "decimal mantissa";
  let mantissa := cast_signed 128 (from_le bytes) in
  match Decimal.new mantissa scale with
  | Ok d => mret d
  | Err _ => error at_ (BadDecimal mantissa scale)
  end.

(** [enter]: the decoder of the values a list, map or path holds; there is
    none at the deepest level. *)
Definition enter (inner : option (Decoder Value.t)) (at_ : nat) : Decoder (Decoder Value.t) :=
  match inner with
  | None => error at_ TooDeep
  | Some inner => mret inner
  end.

(** One call of [Decoder::value], with the decoder of nested values. *)
Definition value_with (inner : option (Decoder Value.t)) : Decoder Value.t :=
  at_ ← position;
  tag ← read_u8 "value tag";
  if tag =? TAG_NULL then mret Value.Null
  else if tag =? TAG_BOOL then flag ← read_flag "bool"; mret (Value.Bool flag)
  else if tag =? TAG_INT64 then x ← read_i64 "integer"; mret (Value.Int64 x)
  else if tag =? TAG_FLOAT64 then x ← read_u64 "float"; mret (Value.Float64 x)
  else if tag =? TAG_STRING then s ← read_str "string"; mret (Value.String s)
  else if tag =? TAG_BYTES then
    bytes_at ← position;
    length ← read_length "byte string";
    bytes ← take_ length "byte string" bytes_at;
    mret (Value.Bytes bytes)
  else if tag =? TAG_DATE then x ← read_i32 "date"; mret (Value.Date x)
  else if tag =? TAG_TIME then t ← time; mret (Value.Time t)
  else if tag =? TAG_TIMESTAMP then x ← read_i64 "timestamp"; mret (Value.Timestamp x)
  else if tag =? TAG_ZONED_DATETIME then
    micros ← read_i64 "zoned datetime";
    offset ← read_i32 "zoned datetime offset";
    mret (Value.ZonedDatetime micros offset)
  else if tag =? TAG_DURATION then
    months ← read_i64 "duration months";
    days ← read_i64 "duration days";
    nanos ← read_i64 "duration nanoseconds";
    mret (Value.Duration months days nanos)
  else if tag =? TAG_LIST then
    value ← enter inner at_;
    items ← values value "list";
    mret (Value.List items)
  else if tag =? TAG_MAP then
    value ← enter inner at_;
    entries ← map value;
    mret (Value.Map entries)
  else if tag =? TAG_VECTOR then
    dimensions ← read_count "vector" 4;
    components ← repeat (Z.to_nat dimensions) (read_u32 "vector component");
    mret (Value.Vector components)
  else if tag =? TAG_PATH then
    value ← enter inner at_;
    nodes ← values value "path node list";
    edges ← values value "path edge list";
    mret (Value.Path nodes edges)
  else if tag =? TAG_GCOUNTER then c ← counter "counter"; mret (Value.GCounter c)
  else if tag =? TAG_ON_COUNTER then
    pos ← counter "positive counter";
    neg ← counter "negative counter";
    mret (Value.OnCounter pos neg)
  else if tag =? TAG_DECIMAL then d ← decimal at_; mret (Value.Decimal d)
  else if tag =? TAG_RDF_TERM then t ← term at_; mret (Value.RdfTerm t)
  else error at_ (UnknownTag tag).

(** [Decoder::value], inside [MAX_VALUE_DEPTH - room] lists, maps and paths:
    the field [depth] of the source, counted down. *)
Fixpoint value (room : nat) : Decoder Value.t :=
  value_with (match room with O => None | S room' => Some (value room') end).
End Decoder.

(** [decode_value]: the value at [pos] and the position after it. *)
Definition decode_value (data : list Z) (pos : nat) : result decode_error (Value.t * nat) :=
  Decoder.value MAX_VALUE_DEPTH data pos.
