(* ===== verification/ValueCodecFacts.v ===== *)
(** * What the value codec reads and writes

    [reads d bs a]: the decoder [d] reads exactly the bytes [bs], wherever
    they are, as [a]. [parses d P]: whatever [d] accepts is [P]-related to the
    bytes it read. Both compose along the decoder's sequencing. *)
From S2P Require Import Prelude Bytes Wide Decimal DecimalFacts Values ValueCodec.
Open Scope Z_scope.

Lemma Ok_inj {E A} (a b : A) : @Ok E A a = Ok b → a = b.
Proof. congruence. Qed.

(** ** Integers *)

Lemma from_to_le_mod n x : from_le (to_le n x) = x mod 256 ^ Z.of_nat n.
Proof.
  revert x. induction n as [|n IH]; intros x; cbn [to_le from_le]; [simpl; by rewrite Z.mod_1_r|].
  rewrite IH, Nat2Z.inj_succ, Z.pow_succ_r by lia.
  assert (0 < 256 ^ Z.of_nat n) by (apply Z.pow_pos_nonneg; lia).
  rewrite Z.rem_mul_r by lia. lia.
Qed.

Lemma cast_signed_mod bits x : 0 < bits → - 2 ^ (bits - 1) ≤ x < 2 ^ (bits - 1) →
  Decoder.cast_signed bits (x mod 2 ^ bits) = x.
Proof.
  intros Hb Hx. assert (E : 2 ^ bits = 2 * 2 ^ (bits - 1)) by (rewrite <- Z.pow_succ_r by lia; f_equal; lia).
  unfold Decoder.cast_signed. destruct (Z.le_gt_cases 0 x).
  - rewrite Z.mod_small by lia. destruct (Z.ltb_spec x (2 ^ (bits - 1))); lia.
  - rewrite <- (Z.mod_unique x (2 ^ bits) (-1) (x + 2 ^ bits)) by lia.
    destruct (Z.ltb_spec (x + 2 ^ bits) (2 ^ (bits - 1))); lia.
Qed.

Lemma cast_signed_range bits x : 0 < bits → 0 ≤ x < 2 ^ bits →
  - 2 ^ (bits - 1) ≤ Decoder.cast_signed bits x < 2 ^ (bits - 1) ∧ Decoder.cast_signed bits x mod 2 ^ bits = x.
Proof.
  intros Hb Hx. assert (E : 2 ^ bits = 2 * 2 ^ (bits - 1)) by (rewrite <- Z.pow_succ_r by lia; f_equal; lia).
  unfold Decoder.cast_signed. destruct (Z.ltb_spec x (2 ^ (bits - 1))); (split; [lia|]).
  - apply Z.mod_small. lia.
  - symmetry. apply Z.mod_unique with (-1); lia.
Qed.

(** [to_le] sees its argument modulo the width. *)
Lemma to_le_mod n x y : x mod 256 ^ Z.of_nat n = y → to_le n x = to_le n y.
Proof.
  intros <-. revert x. induction n as [|n IH]; intros x; [done|]. cbn [to_le].
  rewrite Nat2Z.inj_succ, Z.pow_succ_r by lia.
  assert (Hp : 0 < 256 ^ Z.of_nat n) by (apply Z.pow_pos_nonneg; lia).
  rewrite Z.rem_mul_r by lia. f_equal.
  - rewrite (Z.mul_comm 256), Z.mod_add, Z.mod_mod by lia. done.
  - rewrite (Z.mul_comm 256 (_ mod _)), Z.div_add by lia. pose proof (Z.mod_pos_bound x 256).
    rewrite (Z.div_small (x mod 256)) by lia. apply IH.
Qed.

(** ** Reading *)

Definition reads {A} (d : Decoder A) (bs : list Z) (a : A) : Prop :=
  ∀ data pos rest, drop pos data = bs ++ rest → (pos ≤ length data)%nat → d data pos = Ok (a, (pos + length bs)%nat).

Lemma reads_ret {A} (a : A) : reads (mret a) [] a.
Proof. intros data pos rest _ _. simpl. by rewrite Nat.add_0_r. Qed.

Lemma drop_more (data bs rest : list Z) pos : drop pos data = bs ++ rest → (pos ≤ length data)%nat →
  drop (pos + length bs) data = rest ∧ (pos + length bs ≤ length data)%nat.
Proof.
  intros E Hle. rewrite <- drop_drop, E, drop_app_length. split; [done|].
  apply (f_equal length) in E. rewrite length_drop, length_app in E. lia.
Qed.

Lemma reads_bind {A B} (d : Decoder A) (f : A → Decoder B) bs bs' a (b : B) : reads d bs a → reads (f a) bs' b → reads (d ≫= f) (bs ++ bs') b.
Proof.
  intros Hd Hf data pos rest E Hle. rewrite <- app_assoc in E. unfold mbind, decoder_bind.
  rewrite (Hd _ _ _ E Hle). destruct (drop_more _ _ _ _ E Hle) as [E' Hle'].
  rewrite (Hf _ _ _ E' Hle'), length_app. do 2 f_equal. lia.
Qed.

Lemma reads_bind_cons {A B} (d : Decoder A) (f : A → Decoder B) x bs a (b : B) : reads d [x] a → reads (f a) bs b → reads (d ≫= f) (x :: bs) b.
Proof. apply (reads_bind d f [x] bs a b). Qed.

Lemma reads_bind_last {A B} (d : Decoder A) (f : A → Decoder B) bs a (b : B) :
  reads d bs a → reads (f a) [] b → reads (d ≫= f) bs b.
Proof. intros Hd Hf. rewrite <- (app_nil_r bs). by eapply reads_bind. Qed.

(** A step that reads nothing. *)
Lemma reads_bind_check {A B} (d : Decoder A) (f : A → Decoder B) bs a (b : B) :
  reads d [] a → reads (f a) bs b → reads (d ≫= f) bs b.
Proof. apply (reads_bind d f [] bs). Qed.

(** The last step only rebuilds the value. *)
Lemma reads_fmap {A B} (d : Decoder A) bs a (g : A → B) : reads d bs a → reads (x ← d; mret (g x)) bs (g a).
Proof. intros Hd. eapply reads_bind_last; [exact Hd|apply reads_ret]. Qed.

Lemma reads_position {B} (f : nat → Decoder B) bs b : (∀ p, reads (f p) bs b) → reads (Decoder.position ≫= f) bs b.
Proof. intros Hf data pos rest E Hle. unfold mbind, decoder_bind, Decoder.position. by eapply Hf. Qed.

Lemma reads_take n what at_ bs : len bs = n → reads (Decoder.take_ n what at_) bs bs.
Proof.
  intros <- data pos rest E Hle. unfold Decoder.take_, mbind, decoder_bind, Decoder.remaining.
  destruct (drop_more _ _ _ _ E Hle) as [_ Hle']. unfold saturating_sub, len in *.
  rewrite (proj2 (Z.ltb_ge _ _)) by lia. rewrite E, Nat2Z.id, take_app_length. done.
Qed.

Lemma reads_array N what bs : len bs = N → reads (Decoder.array N what) bs bs.
Proof. intros HN. unfold Decoder.array. apply reads_position. intros p. by apply reads_take. Qed.

Lemma len_to_le n x : len (to_le n x) = Z.of_nat n.
Proof. unfold len. by rewrite to_le_length. Qed.

Lemma reads_u8 what x : is_byte x → reads (Decoder.read_u8 what) [x] x.
Proof.
  intros Hx. unfold Decoder.read_u8. replace x with (from_le [x]) at 2 by (simpl; lia).
  apply (reads_fmap (Decoder.array 1 what) [x] [x] from_le). by apply reads_array.
Qed.

Lemma reads_le (g : list Z → Z) n what x y : g (to_le n x) = y →
  reads (bytes ← Decoder.array (Z.of_nat n) what; mret (g bytes)) (to_le n x) y.
Proof. intros <-. apply (reads_fmap _ _ _ g), reads_array, len_to_le. Qed.

Lemma reads_u32 what x : Value.is_u32 x → reads (Decoder.read_u32 what) (to_le 4 x) x.
Proof. intros Hx. apply (reads_le from_le 4). rewrite from_to_le_mod. by apply Z.mod_small. Qed.
Lemma reads_u64 what x : is_u64 x → reads (Decoder.read_u64 what) (to_le 8 x) x.
Proof. intros Hx. apply (reads_le from_le 8). rewrite from_to_le_mod. by apply Z.mod_small. Qed.
Lemma reads_i32 what x : Value.is_i32 x → reads (Decoder.read_i32 what) (to_le 4 x) x.
Proof.
  intros Hx. apply (reads_le (λ b, Decoder.cast_signed 32 (from_le b)) 4). rewrite from_to_le_mod.
  by apply (cast_signed_mod 32).
Qed.
Lemma reads_i64 what x : is_i64 x → reads (Decoder.read_i64 what) (to_le 8 x) x.
Proof.
  intros Hx. apply (reads_le (λ b, Decoder.cast_signed 64 (from_le b)) 8). rewrite from_to_le_mod.
  by apply (cast_signed_mod 64).
Qed.

Lemma reads_flag what b : reads (Decoder.read_flag what) [Z.b2z b] b.
Proof.
  unfold Decoder.read_flag. apply reads_position. intros p. eapply reads_bind_cons; [apply reads_u8|].
  - destruct b; unfold is_byte; simpl; lia.
  - destruct b; apply reads_ret.
Qed.

(** ** What encoders write *)

Lemma put_length_ok n what bs : put_length n what = Ok bs → bs = to_le 4 (Z.of_nat n) ∧ Value.is_u32 (Z.of_nat n).
Proof.
  unfold put_length, u32_max. destruct (Z.leb_spec (Z.of_nat n) (2 ^ 32 - 1)); [|done]. intros [= <-].
  unfold Value.is_u32. split; [done|lia].
Qed.

Lemma put_str_ok s what bs : put_str s what = Ok bs → bs = to_le 4 (len s) ++ s ∧ Value.is_u32 (len s).
Proof.
  unfold put_str. destruct (put_length _ _) as [l|] eqn:E; [|done]. intros [= <-].
  by apply put_length_ok in E as [-> ?].
Qed.

Lemma put_each_ok {A} (f : A → result encode_error (list Z)) l bs :
  put_each f l = Ok bs ↔ ∃ parts, bs = concat parts ∧ Forall2 (λ x p, f x = Ok p) l parts.
Proof.
  unfold put_each. revert bs. induction l as [|x l IH]; intros bs; cbn [foldr].
  - split; [intros [= <-]; exists []; by split|]. intros (parts & -> & H). by apply Forall2_nil_inv_l in H as ->.
  - destruct (f x) as [b|e] eqn:E; cbn [mbind result_bind].
    + destruct (foldr _ _ l) as [r|e]; cbn [mbind result_bind].
      * destruct (proj1 (IH r) eq_refl) as (parts & -> & Hp).
        split; [intros [= <-]; exists (b :: parts); split; [done|by constructor]|].
        intros (parts' & -> & H). apply Forall2_cons_inv_l in H as (b' & parts2 & Hb & H2 & ->).
        pose proof (proj2 (IH (concat parts2)) (ex_intro _ parts2 (conj eq_refl H2))) as Ec. simpl. congruence.
      * split; [done|]. intros (parts' & -> & H). apply Forall2_cons_inv_l in H as (b' & parts2 & Hb & H2 & ->).
        pose proof (proj2 (IH (concat parts2)) (ex_intro _ parts2 (conj eq_refl H2))). congruence.
    + split; [done|]. intros (parts & _ & H). apply Forall2_cons_inv_l in H as (b' & parts2 & Hb & _). congruence.
Qed.

Lemma reads_str what s : Value.is_u32 (len s) → utf8_valid s = true →
  reads (Decoder.read_str what) (to_le 4 (len s) ++ s) s.
Proof.
  intros Hl Hu. unfold Decoder.read_str. apply reads_position. intros p. eapply reads_bind; [by apply reads_u32|].
  eapply reads_bind_last; [by apply reads_take|]. rewrite Hu. apply reads_ret.
Qed.

(** A count is accepted when what follows holds that many entries. *)
Lemma reads_count {B} what min_ count (f : Z → Decoder B) body b : Value.is_u32 count → 0 ≤ min_ ≤ 12 →
  count * min_ ≤ len body → reads (f count) body b →
  reads (Decoder.read_count what min_ ≫= f) (to_le 4 count ++ body) b.
Proof.
  intros Hc Hmin Hbody Hf data pos rest E Hle. rewrite <- app_assoc in E.
  destruct (drop_more _ _ _ _ E Hle) as [E' Hle']. unfold Decoder.read_count, Decoder.read_length.
  unfold mbind, decoder_bind, Decoder.position, Decoder.remaining.
  pose proof (reads_u32 what count Hc data pos _ E Hle) as Hr. rewrite Hr.
  unfold Value.is_u32 in Hc. unfold checked_mul64. rewrite (proj2 (Z.leb_le _ _)) by (unfold u64_max; nia).
  assert (Hrem : len body ≤ saturating_sub (len data) (Z.of_nat (pos + length (to_le 4 count)))).
  { unfold saturating_sub, len. apply (f_equal length) in E'. rewrite length_drop, length_app in E'. lia. }
  rewrite (proj2 (Z.ltb_ge _ _)) by lia. cbn [mret decoder_ret]. unfold mret, decoder_ret.
  rewrite (Hf data _ rest E' Hle'). rewrite length_app. do 2 f_equal. lia.
Qed.

(** ** The order of strings *)

Lemma lex_cmp_refl a : lex_cmp a a = Eq.
Proof. induction a as [|x a IH]; [done|]. cbn [lex_cmp]. by rewrite Z.compare_refl. Qed.

Lemma lex_cmp_eq a b : lex_cmp a b = Eq → a = b.
Proof.
  revert b. induction a as [|x a IH]; intros [|y b]; cbn [lex_cmp]; try done.
  destruct (Z.compare_spec x y) as [->|?|?]; [|done..]. intros H. f_equal. by apply IH.
Qed.

Lemma lex_cmp_opp a b : lex_cmp b a = CompOpp (lex_cmp a b).
Proof.
  revert b. induction a as [|x a IH]; intros [|y b]; cbn [lex_cmp]; try done.
  rewrite (Z.compare_antisym x y). destruct (x ?= y); cbn [CompOpp]; [apply IH|done..].
Qed.

Lemma str_lt_trans a b c : str_lt a b → str_lt b c → str_lt a c.
Proof.
  unfold str_lt. revert b c. induction a as [|x a IH]; intros [|y b] [|z c]; cbn [lex_cmp]; try done.
  intros H1 H2. destruct (Z.compare_spec x y), (Z.compare_spec y z), (Z.compare_spec x z); try done; try lia.
  by eapply IH.
Qed.

Lemma str_lt_irrefl a : ¬ str_lt a a.
Proof. unfold str_lt. by rewrite lex_cmp_refl. Qed.

Lemma replica_le_alt a b : replica_le a b ↔ a.1 = b.1 ∨ str_lt a.1 b.1.
Proof.
  unfold replica_le, str_lt. destruct (lex_cmp a.1 b.1) eqn:E.
  - apply lex_cmp_eq in E. split; [by left|done].
  - split; [by right|done].
  - split; [done|]. intros [E'|]; [|done]. rewrite E', lex_cmp_refl in E. done.
Qed.

#[export] Instance replica_le_total : Total replica_le.
Proof.
  intros a b. unfold replica_le. rewrite (lex_cmp_opp a.1 b.1). destruct (lex_cmp a.1 b.1); cbn [CompOpp]; by (left + right).
Qed.

#[export] Instance replica_le_trans : Transitive replica_le.
Proof.
  intros a b c. rewrite !replica_le_alt. intros [E1|E1] [E2|E2].
  - left. congruence.
  - right. by rewrite E1.
  - right. by rewrite <- E2.
  - right. by eapply str_lt_trans.
Qed.

(** The entries of a counter as it is written: its elements, by increasing
    replica. *)
Definition sorted_entries (c : counts) : list (list Z * Z) := merge_sort replica_le (map_to_list c).

Lemma sorted_entries_perm c : sorted_entries c ≡ₚ map_to_list c.
Proof. apply merge_sort_Permutation. Qed.

Lemma sorted_entries_sorted c : StronglySorted str_lt (sorted_entries c).*1.
Proof.
  assert (Hnd : NoDup (sorted_entries c).*1).
  { rewrite (fmap_Permutation _ _ _ (sorted_entries_perm c)). apply NoDup_fst_map_to_list. }
  pose proof (StronglySorted_merge_sort replica_le (map_to_list c)) as Hs. fold (sorted_entries c) in Hs.
  induction Hs as [|e l Hs IH Hall]; [constructor|]. cbn [fmap list_fmap] in *. apply NoDup_cons in Hnd as [Hnin Hnd].
  constructor; [by apply IH|]. apply Forall_fmap. apply Forall_forall. intros e' He'.
  rewrite Forall_forall in Hall. destruct (proj1 (replica_le_alt e e') (Hall e' He')) as [E|]; [|done].
  exfalso. apply Hnin. rewrite E. by apply list_elem_of_fmap_2.
Qed.

Lemma sorted_entries_map c : list_to_map (sorted_entries c) = c.
Proof.
  rewrite <- (list_to_map_to_list c) at 2. apply list_to_map_proper; [|apply sorted_entries_perm].
  rewrite (fmap_Permutation _ _ _ (sorted_entries_perm c)). apply NoDup_fst_map_to_list.
Qed.

Lemma sorted_NoDup (l : list (list Z)) : StronglySorted str_lt l → NoDup l.
Proof.
  induction 1 as [|a l _ IH Hall]; constructor; [|done]. intros Ha. rewrite Forall_forall in Hall.
  destruct (str_lt_irrefl a). by apply Hall.
Qed.

(** Increasing entries are the entries of the counter they make. *)
Lemma sorted_entries_list (l : list (list Z * Z)) : StronglySorted str_lt l.*1 → sorted_entries (list_to_map l) = l.
Proof.
  intros Hs. assert (Hperm : sorted_entries (list_to_map l) ≡ₚ l).
  { rewrite sorted_entries_perm. apply map_to_list_to_map. by apply sorted_NoDup. }
  pose proof (sorted_entries_sorted (list_to_map l)) as Hs'. revert Hs Hs' Hperm. generalize (sorted_entries (list_to_map l)).
  induction l as [|e l IH]; intros l' Hs Hs' Hperm; [by apply Permutation_nil_r in Hperm|].
  destruct l' as [|e' l']; [by apply Permutation_nil in Hperm|].
  inversion Hs as [|? ? Hs1 Hall1]; subst. inversion Hs' as [|? ? Hs2 Hall2]; subst.
  assert (e' = e) as ->.
  { assert (He : e ∈ e' :: l') by (rewrite Hperm; left). assert (He' : e' ∈ e :: l) by (rewrite <- Hperm; left).
    apply elem_of_cons in He as [|He]; [done|]. apply elem_of_cons in He' as [|He']; [done|].
    rewrite Forall_fmap, Forall_forall in Hall1, Hall2. specialize (Hall1 _ He'). specialize (Hall2 _ He). cbn in Hall1, Hall2.
    destruct (str_lt_irrefl e.1). by eapply str_lt_trans. }
  f_equal. apply IH; [done..|]. by apply Permutation_cons_inv in Hperm.
Qed.
