(* ===== verification/ValueRoundTrip.v ===== *)
(** * Encoded values are read back *)
From S2P Require Import Prelude Bytes Wide Decimal DecimalFacts Values ValueCodec ValueCodecFacts.
Open Scope Z_scope.

#[local] Arguments to_le : simpl never.

(** Decides the comparisons of a known tag. *)
Ltac decide_tag :=
  lazy beta iota delta [Z.eqb Pos.eqb RDF_IRI RDF_BLANK_NODE RDF_LITERAL TAG_NULL TAG_BOOL TAG_INT64 TAG_FLOAT64
    TAG_STRING TAG_BYTES TAG_DATE TAG_TIME TAG_TIMESTAMP TAG_ZONED_DATETIME TAG_DURATION TAG_LIST TAG_MAP TAG_VECTOR
    TAG_PATH TAG_GCOUNTER TAG_ON_COUNTER TAG_DECIMAL TAG_RDF_TERM].

(** ** Sequences *)

Lemma reads_repeat {A} (d : Decoder A) l parts : Forall2 (λ x p, reads d p x) l parts →
  reads (Decoder.repeat (length l) d) (concat parts) l.
Proof.
  induction 1 as [|x p l parts Hx _ IH]; cbn [length Decoder.repeat concat]; [apply reads_ret|].
  eapply reads_bind; [exact Hx|]. by apply (reads_fmap _ _ _ (cons x)).
Qed.

(** Parts of a least length have at least that length together. *)
Lemma concat_len {A} (P : A → list Z → Prop) k l parts : Forall2 P l parts →
  (∀ x p, P x p → k ≤ len p) → len l * k ≤ len (concat parts).
Proof.
  intros HF Hk. unfold len in *. induction HF as [|x p l parts Hx _ IH]; cbn [length concat]; [lia|].
  rewrite length_app. specialize (Hk x p Hx). lia.
Qed.

(** The previous key comes before all the keys. *)
Definition before (previous : option (list Z)) (keys : list (list Z)) : Prop :=
  match previous with Some p => Forall (str_lt p) keys | None => True end.

Lemma reads_check what previous key at_ : before previous [key] → reads (Decoder.check_increasing what previous key at_) [] tt.
Proof.
  unfold Decoder.check_increasing. destruct previous as [p|]; cbn [before]; [|intros; apply reads_ret].
  intros H. apply Forall_cons in H as [H _]. rewrite (lex_cmp_opp p key). assert (lex_cmp p key = Lt) as -> by exact H. apply reads_ret.
Qed.

Lemma before_head previous k keys : before previous (k :: keys) → before previous [k].
Proof. destruct previous; [|done]. cbn [before]. rewrite Forall_cons, Forall_singleton. by intros [? _]. Qed.

(** The bytes of an entry of a map. *)
Definition entry_bytes (depth : nat) (e : list Z * Value.t) : result encode_error (list Z) :=
  key ← put_str e.1 "map key"; item ← encode_nested e.2 depth; Ok (key ++ item).

Lemma entry_bytes_ok depth e p : entry_bytes depth e = Ok p →
  Value.is_u32 (len e.1) ∧ ∃ q, encode_nested e.2 depth = Ok q ∧ p = (to_le 4 (len e.1) ++ e.1) ++ q.
Proof.
  unfold entry_bytes. destruct (put_str e.1 _) as [k|] eqn:Ek; cbn [mbind result_bind]; [|done].
  destruct (encode_nested e.2 depth) as [q|] eqn:Eq; cbn [mbind result_bind]; [|done]. intros [= <-].
  apply put_str_ok in Ek as [-> ?]. eauto.
Qed.

Lemma reads_map_entries (d : Decoder Value.t) previous entries parts :
  StronglySorted str_lt entries.*1 → before previous entries.*1 →
  Forall2 (λ e p, ∃ q, Value.is_u32 (len e.1) ∧ utf8_valid e.1 = true ∧ p = (to_le 4 (len e.1) ++ e.1) ++ q ∧ reads d q e.2) entries parts →
  reads (Decoder.map_entries (length entries) d previous) (concat parts) entries.
Proof.
  intros Hs Hb HF. revert previous Hs Hb.
  induction HF as [|[k v] p l parts (q & Hk & Hu & -> & Hq) _ IH]; intros previous Hs Hb.
  { apply reads_ret. }
  cbn [length Decoder.map_entries concat fmap list_fmap fst snd] in *. apply reads_position. intros at_.
  inversion Hs as [|? ? Hs' Hall]; subst. rewrite <- !app_assoc, app_assoc.
  eapply reads_bind; [by apply reads_str|]. eapply reads_bind_check; [by eapply reads_check, before_head|].
  eapply reads_bind; [exact Hq|]. apply (reads_fmap _ _ _ (cons (k, v))). by apply IH.
Qed.

(** ** Counters *)

Definition replica_bytes (e : list Z * Z) : result encode_error (list Z) :=
  replica ← put_str e.1 "counter replica"; Ok (replica ++ to_le 8 e.2).

Lemma replica_bytes_ok e p : replica_bytes e = Ok p →
  Value.is_u32 (len e.1) ∧ p = (to_le 4 (len e.1) ++ e.1) ++ to_le 8 e.2.
Proof.
  unfold replica_bytes. destruct (put_str e.1 _) as [k|] eqn:Ek; cbn [mbind result_bind]; [|done]. intros [= <-].
  apply put_str_ok in Ek as [-> ?]. done.
Qed.

(** The entries inserted into a counter, in order. *)
Definition insert_all (c : counts) (l : list (list Z * Z)) : counts := foldl (λ c e, <[e.1 := e.2]> c) c l.

Lemma reads_counter_entries c previous (entries : list (list Z * Z)) parts :
  StronglySorted str_lt entries.*1 → before previous entries.*1 →
  Forall (λ e, utf8_valid e.1 = true ∧ is_u64 e.2) entries →
  Forall2 (λ e p, replica_bytes e = Ok p) entries parts →
  reads (Decoder.counter_entries (length entries) c previous) (concat parts) (insert_all c entries).
Proof.
  intros Hs Hb Hok HF. revert c previous Hs Hb Hok.
  induction HF as [|[k n] p l parts Hp _ IH]; intros c previous Hs Hb Hok; [apply reads_ret|].
  apply replica_bytes_ok in Hp as [Hk ->]. apply Forall_cons in Hok as [[Hu Hn] Hok]. inversion Hs as [|? ? Hs' Hall]; subst.
  cbn [length Decoder.counter_entries concat insert_all foldl fst snd fmap list_fmap] in *. apply reads_position. intros at_.
  rewrite <- !app_assoc, app_assoc. eapply reads_bind; [by apply reads_str|].
  eapply reads_bind_check; [by eapply reads_check, before_head|].
  cbn beta. eapply reads_bind; [by apply reads_u64|]. by apply IH.
Qed.

Lemma foldl_insert_sorted (c : counts) (l : list (list Z * Z)) : StronglySorted str_lt l.*1 →
  insert_all c l = list_to_map l ∪ c.
Proof.
  revert c. induction l as [|[k n] l IH]; intros c Hs; cbn [insert_all foldl list_to_map foldr]; [by rewrite (left_id_L ∅ (∪))|].
  cbn [fmap list_fmap] in Hs. inversion Hs as [|? ? Hs' Hall]; subst. fold (insert_all (<[k := n]> c) l). rewrite IH by done.
  rewrite <- insert_union_r, <- insert_union_l; [done|]. apply not_elem_of_list_to_map_1. intros Hin.
  rewrite Forall_forall in Hall. destruct (str_lt_irrefl k). by apply Hall.
Qed.

Lemma reads_counter what c bs : Value.counts_ok c → put_counter c = Ok bs → reads (Decoder.counter what) bs c.
Proof.
  intros Hc. unfold put_counter. fold (sorted_entries c). set (l := sorted_entries c).
  destruct (put_length (length l) _) as [n|] eqn:En; cbn [mbind result_bind]; [|done].
  destruct (put_each _ l) as [body|] eqn:Eb; cbn [mbind result_bind]; [|done]. intros [= <-].
  apply put_length_ok in En as [-> Hn]. apply put_each_ok in Eb as (parts & -> & HF).
  pose proof (sorted_entries_sorted c) as Hs. fold l in Hs.
  assert (Hok : Forall (λ e, utf8_valid e.1 = true ∧ is_u64 e.2) l).
  { apply Forall_forall. intros [k m] Hin. unfold l in Hin. rewrite sorted_entries_perm, elem_of_map_to_list in Hin.
    exact (Hc k m Hin). }
  unfold Decoder.counter. apply reads_count; [done|unfold MIN_COUNTER_ENTRY_BYTES; lia| |].
  - fold (len l). apply (concat_len _ _ _ _ HF). intros e p Hp. apply replica_bytes_ok in Hp as [_ ->].
    unfold MIN_COUNTER_ENTRY_BYTES, len. rewrite !length_app, !to_le_length. lia.
  - rewrite Nat2Z.id. replace c with (insert_all ∅ l).
    + by apply reads_counter_entries.
    + rewrite foldl_insert_sorted by done. rewrite (right_id_L ∅ (∪)). apply sorted_entries_map.
Qed.

(** ** Scalars with structure *)

Lemma reads_time t : Value.time_ok t →
  reads Decoder.time (to_le 8 (Time.nanos t) ++
    (match Time.offset t with Some o => 1 | None => 0 end) :: to_le 4 (default 0 (Time.offset t))) t.
Proof.
  intros [Hn Ho]. unfold Decoder.time. apply reads_position. intros at_.
  eapply reads_bind; [apply reads_u64; unfold is_u64, Time.NANOS_PER_DAY in *; lia|].
  unfold Time.from_nanos. rewrite (proj2 (Z.leb_gt _ _)) by lia. apply reads_position. intros flag_at.
  destruct t as [nanos [o|]]; cbn [Time.nanos Time.offset default] in *.
  - eapply reads_bind_cons; [apply (reads_flag _ true)|]. eapply reads_bind_last; [by apply reads_i32|]. apply reads_ret.
  - eapply reads_bind_cons; [apply (reads_flag _ false)|].
    eapply reads_bind_last; [apply reads_i32; unfold Value.is_i32; lia|]. apply reads_ret.
Qed.

Lemma reads_term at_ term bs : Term.ok term → put_term term = Ok bs → reads (Decoder.term at_) bs term.
Proof.
  intros Hok Hp. unfold Decoder.term. destruct term as [s|s|[v d lang]]; cbn [put_term Term.ok] in *.
  - destruct (put_str s _) as [b|] eqn:E; cbn [mbind result_bind] in Hp; [|done]. apply Ok_inj in Hp as <-. apply put_str_ok in E as [-> Hl].
    eapply reads_bind_cons; [by apply reads_u8|]; decide_tag. apply (reads_fmap _ _ _ Term.iri). by apply reads_str.
  - destruct (put_str s _) as [b|] eqn:E; cbn [mbind result_bind] in Hp; [|done]. apply Ok_inj in Hp as <-. apply put_str_ok in E as [-> Hl].
    eapply reads_bind_cons; [by apply reads_u8|]; decide_tag. apply (reads_fmap _ _ _ Term.blank). by apply reads_str.
  - destruct Hok as [Hv Hrest]. cbn [Term.value Term.datatype Term.language] in *.
    destruct (put_str v _) as [b|] eqn:E; cbn [mbind result_bind] in Hp; [|done]. apply put_str_ok in E as [-> Hl].
    destruct lang as [l|].
    + destruct (put_str l _) as [b|] eqn:E; cbn [mbind result_bind] in Hp; [|done]. apply Ok_inj in Hp as <-. apply put_str_ok in E as [-> Hl'].
      destruct Hrest as (Hu & -> & Hlow). eapply reads_bind_cons; [by apply reads_u8|]; decide_tag. eapply reads_bind; [by apply reads_str|].
      eapply reads_bind_cons; [apply (reads_flag _ true)|]. eapply reads_bind_last; [by apply reads_str|].
      unfold Term.lang_literal, Term.with_language. rewrite Hlow. apply reads_ret.
    + destruct (put_str d _) as [b|] eqn:E; cbn [mbind result_bind] in Hp; [|done]. apply Ok_inj in Hp as <-. apply put_str_ok in E as [-> Hl'].
      eapply reads_bind_cons; [by apply reads_u8|]; decide_tag. eapply reads_bind; [by apply reads_str|].
      eapply reads_bind_cons; [apply (reads_flag _ false)|]. eapply reads_bind_last; [by apply reads_str|]. apply reads_ret.
Qed.

Lemma reads_decimal at_ d : decimal_ok d → reads (Decoder.decimal at_) (Decimal.scale d :: to_le 16 (Decimal.mantissa d)) d.
Proof.
  intros (Hs & Hm & Hw). unfold Decoder.decimal. eapply reads_bind_cons; [apply reads_u8; unfold is_byte; lia|].
  eapply reads_bind_last; [apply (reads_array 16), len_to_le|]. rewrite from_to_le_mod. change (256 ^ Z.of_nat 16) with (2 ^ 128).
  pose proof pow38_fits. rewrite (cast_signed_mod 128) by lia. rewrite new_spec, decide_True by lia.
  rewrite <- Hw. destruct d. apply reads_ret.
Qed.

(** ** Values *)

Lemma encode_nonempty v depth bs : encode_nested v depth = Ok bs → 1 ≤ len bs.
Proof.
  unfold len. destruct v; cbn [encode_nested]; repeat case_match; try done;
    repeat (match goal with |- (mbind _ ?r) = _ → _ => destruct r; cbn [mbind result_bind]; [|done] end);
    intros [= <-]; cbn [length]; lia.
Qed.

Lemma one_deeper_ok depth depth' : one_deeper depth = Ok depth' → depth' = S depth ∧ (depth < MAX_VALUE_DEPTH)%nat.
Proof. unfold one_deeper. destruct (Nat.ltb_spec MAX_VALUE_DEPTH (S depth)); [done|]. intros [= <-]. lia. Qed.

(** The list of a list or a path. *)
Lemma reads_values d what items parts (f : Value.t → result encode_error (list Z)) :
  Value.is_u32 (len items) → Forall2 (λ x p, f x = Ok p) items parts →
  (∀ x p, f x = Ok p → 1 ≤ len p) → (∀ x p, x ∈ items → f x = Ok p → reads d p x) →
  reads (Decoder.values d what) (to_le 4 (len items) ++ concat parts) items.
Proof.
  intros Hn HF Hlen Hd. unfold Decoder.values. apply reads_count; [done|lia|by apply (concat_len _ _ _ _ HF)|].
  unfold len. rewrite Nat2Z.id. apply reads_repeat. clear Hn.
  induction HF as [|x p l parts Hx _ IH]; constructor; [apply Hd; [left|done]|]. apply IH. intros y q Hy. apply Hd. by right.
Qed.

Lemma reads_vector what components : Value.is_u32 (len components) → Forall Value.is_u32 components →
  reads (dimensions ← Decoder.read_count what 4; Decoder.repeat (Z.to_nat dimensions) (Decoder.read_u32 "vector component"))
    (to_le 4 (len components) ++ flat_map (to_le 4) components) components.
Proof.
  intros Hn Hc. rewrite flat_map_concat_map.
  assert (HF : Forall2 (λ x p, p = to_le 4 x ∧ Value.is_u32 x) components (map (to_le 4) components)).
  { clear Hn. induction Hc; constructor; done. }
  apply reads_count; [done|lia| |].
  - apply (concat_len _ _ _ _ HF). intros x p [-> _]. by rewrite len_to_le.
  - unfold len. rewrite Nat2Z.id. apply reads_repeat. eapply Forall2_impl; [exact HF|]. intros x p [-> Hx]. by apply reads_u32.
Qed.

Lemma value_unfold room :
  Decoder.value room = Decoder.value_with (match room with O => None | S room' => Some (Decoder.value room') end).
Proof. by destruct room. Qed.

(** Reads the tag and decides it. *)
Ltac read_tag :=
  unfold Decoder.value_with; apply reads_position; intros at_;
  (eapply reads_bind_cons; [by apply reads_u8|]); decide_tag.

(** The fields an encoder puts behind a tag. *)
Ltac encoded H :=
  repeat match type of H with
  | mbind _ ?r = Ok _ => let E := fresh "E" in destruct r eqn:E; cbn [mbind result_bind] in H; [|done]
  end;
  apply Ok_inj in H as <-.

Lemma reads_flat v inner depth bs :
  match v with Value.List _ | Value.Map _ | Value.Path _ _ => False | _ => True end →
  Value.ok v → encode_nested v depth = Ok bs → reads (Decoder.value_with inner) bs v.
Proof.
  intros Hflat Hok He. destruct v; cbn [encode_nested Value.ok] in *; try done; try (encoded He); try read_tag.
  - apply reads_ret.
  - apply (reads_fmap _ _ _ Value.Bool). apply reads_flag.
  - apply (reads_fmap _ _ _ Value.Int64). by apply reads_i64.
  - apply (reads_fmap _ _ _ Value.Float64). by apply reads_u64.
  - apply put_str_ok in E as [-> ?]. apply (reads_fmap _ _ _ Value.String). by apply reads_str.
  - apply put_length_ok in E as [-> ?]. apply reads_position. intros bytes_at. eapply reads_bind; [by apply reads_u32|].
    apply (reads_fmap _ _ _ Value.Bytes). by apply reads_take.
  - apply (reads_fmap _ _ _ Value.Timestamp). by apply reads_i64.
  - apply (reads_fmap _ _ _ Value.Date). by apply reads_i32.
  - assert (Hb : bs = TAG_TIME :: to_le 8 (Time.nanos time) ++
      (match Time.offset time with Some o => 1 | None => 0 end) :: to_le 4 (default 0 (Time.offset time))).
    { destruct (Time.offset time); apply Ok_inj in He; done. }
    rewrite Hb. read_tag. apply (reads_fmap _ _ _ Value.Time). by apply reads_time.
  - destruct Hok as (H1 & H2 & H3). eapply reads_bind; [by apply reads_i64|]. eapply reads_bind; [by apply reads_i64|].
    apply (reads_fmap _ _ _ (Value.Duration months days)). by apply reads_i64.
  - destruct Hok as (H1 & H2). eapply reads_bind; [by apply reads_i64|].
    apply (reads_fmap _ _ _ (Value.ZonedDatetime utc_micros)). by apply reads_i32.
  - apply put_length_ok in E as [-> ?]. apply Value.each_Forall in Hok.
    pose proof (reads_vector "vector" components H Hok) as Hv.
    intros data pos rest Hd Hle. specialize (Hv data pos rest Hd Hle). unfold mbind, decoder_bind in *.
    destruct (Decoder.read_count _ _ data pos) as [[n p]|]; [|done]. destruct (Decoder.repeat _ _ data p) as [[l p']|]; [|done].
    by simplify_eq.
  - apply (reads_fmap _ _ _ Value.GCounter). by apply reads_counter.
  - destruct Hok as [H1 H2]. eapply reads_bind; [by apply (reads_counter _ pos)|].
    apply (reads_fmap _ _ _ (Value.OnCounter pos)). by apply reads_counter.
  - apply (reads_fmap _ _ _ Value.Decimal). by apply reads_decimal.
  - apply (reads_fmap _ _ _ Value.RdfTerm). by apply reads_term.
Qed.

Section Nested.
Context (room depth : nat).
Hypothesis Hroom : (room + depth = MAX_VALUE_DEPTH)%nat.

Lemma reads_enter d at_ : reads (Decoder.enter (Some d) at_) [] d.
Proof. apply reads_ret. Qed.

Lemma inner_some depth' : one_deeper depth = Ok depth' →
  depth' = S depth ∧ ∃ room', room = S room' ∧ (room' + S depth = MAX_VALUE_DEPTH)%nat.
Proof.
  intros H. apply one_deeper_ok in H as [-> Hlt]. split; [done|]. exists (room - 1)%nat. lia.
Qed.
End Nested.

Lemma reads_value v : ∀ room depth bs, (room + depth = MAX_VALUE_DEPTH)%nat → Value.ok v →
  encode_nested v depth = Ok bs → reads (Decoder.value room) bs v.
Proof.
  induction v as [items IH|entries IH|nodes edges IHn IHe|v Hflat] using Value.nested_ind; intros room depth bs Hr Hok He;
    rewrite value_unfold; [| | |by eapply reads_flat]; cbn [encode_nested Value.ok] in *.
  - encoded He. destruct (inner_some room depth Hr _ E) as [-> (room' & -> & Hr')]. read_tag.
    eapply reads_bind_check; [apply reads_enter|]. apply (reads_fmap _ _ _ Value.List).
    apply put_length_ok in E0 as [-> Hn]. apply put_each_ok in E1 as (parts & -> & HF).
    rewrite Value.each_Forall, Forall_forall in Hok. rewrite Forall_forall in IH.
    apply (reads_values _ _ _ _ (λ x, encode_nested x (S depth))); [done..| |]; eauto using encode_nonempty.
  - encoded He. destruct (inner_some room depth Hr _ E) as [-> (room' & -> & Hr')]. read_tag.
    eapply reads_bind_check; [apply reads_enter|]. apply (reads_fmap _ _ _ Value.Map).
    apply put_length_ok in E0 as [-> Hn]. apply put_each_ok in E1 as (parts & -> & HF).
    destruct Hok as [Hs Hok]. apply Value.each_Forall in Hok. fold (len entries) in *.
    change (Forall2 (λ x p, entry_bytes (S depth) x = Ok p) entries parts) in HF.
    unfold Decoder.map. apply reads_count; [done|unfold MIN_MAP_ENTRY_BYTES; lia| |].
    + apply (concat_len _ _ _ _ HF). intros e p Hp. apply entry_bytes_ok in Hp as [_ (q & Hq & ->)].
      apply encode_nonempty in Hq. unfold MIN_MAP_ENTRY_BYTES, len in *. rewrite !length_app, to_le_length. lia.
    + unfold len. rewrite Nat2Z.id. apply reads_map_entries; [done|done|].
      clear Hn Hs. induction HF as [|e p l parts Hp _ IHF]; [constructor|]. apply Forall_cons in IH as [IHv IH], Hok as [[Hu Hv] Hok].
      constructor; [|by apply IHF]. apply entry_bytes_ok in Hp as [Hk (q & Hq & ->)].
      exists q. split_and!; [done..|]. by eapply IHv.
  - encoded He. destruct (inner_some room depth Hr _ E) as [-> (room' & -> & Hr')]. read_tag.
    eapply reads_bind_check; [apply reads_enter|]. destruct Hok as [Hn He].
    apply put_length_ok in E0 as [-> Hln], E2 as [-> Hle]. apply put_each_ok in E1 as (pn & -> & HFn), E3 as (pe & -> & HFe).
    rewrite Value.each_Forall, Forall_forall in Hn, He. rewrite Forall_forall in IHn, IHe.
    eapply reads_bind; [|apply (reads_fmap _ _ _ (Value.Path nodes))];
      (apply (reads_values _ _ _ _ (λ x, encode_nested x (S depth))); [done..| |]; eauto using encode_nonempty).
Qed.

(** ** Which values are encoded, and at what length *)
Open Scope Z_scope.

#[local] Arguments to_le : simpl never.

(** ** Refusals *)

Definition fits (n : nat) : bool := Z.of_nat n <=? u32_max.

Definition term_fits (term : Term.t) : bool :=
  match term with
  | Term.Iri s | Term.BlankNode s => fits (length s)
  | Term.Literal_ l => fits (length (Term.value l)) && fits (length (default (Term.datatype l) (Term.language l)))
  end.

Definition counter_fits (c : counts) : bool :=
  fits (size c) && forallb (λ e, fits (length e.1)) (map_to_list c).

(** Every length in the value fits a [u32]. *)
Fixpoint lengths_fit (v : Value.t) : bool :=
  match v with
  | Value.String s | Value.Bytes s | Value.Vector s => fits (length s)
  | Value.List items => fits (length items) && forallb lengths_fit items
  | Value.Map entries => fits (length entries) && forallb (λ e, fits (length e.1) && lengths_fit e.2) entries
  | Value.Path nodes edges =>
      fits (length nodes) && forallb lengths_fit nodes && (fits (length edges) && forallb lengths_fit edges)
  | Value.GCounter c => counter_fits c
  | Value.OnCounter pos neg => counter_fits pos && counter_fits neg
  | Value.RdfTerm term => term_fits term
  | _ => true
  end.

Lemma is_ok_bind {E A B} (r : result E A) (f : A → result E B) b :
  (∀ a, r = Ok a → is_ok (f a) = b) → is_ok (r ≫= f) = is_ok r && b.
Proof. destruct r as [a|e]; intros H; [exact (H a eq_refl)|done]. Qed.

Lemma put_length_is_ok n what : is_ok (put_length n what) = fits n.
Proof. unfold put_length, fits. by destruct (_ <=? _). Qed.

Lemma put_str_is_ok s what : is_ok (put_str s what) = fits (length s).
Proof. unfold put_str. rewrite (is_ok_bind _ _ true) by done. by rewrite put_length_is_ok, andb_true_r. Qed.

Lemma put_each_is_ok {A} (f : A → result encode_error (list Z)) l : is_ok (put_each f l) = forallb (λ x, is_ok (f x)) l.
Proof.
  induction l as [|x l IH]; [done|]. cbn [put_each foldr forallb].
  rewrite (is_ok_bind _ _ (forallb (λ x, is_ok (f x)) l)); [done|]. intros bytes _.
  rewrite (is_ok_bind _ _ true) by done. fold (put_each f l). by rewrite IH, andb_true_r.
Qed.

Lemma forallb_perm {A} (p : A → bool) l l' : l ≡ₚ l' → forallb p l = forallb p l'.
Proof. induction 1; cbn [forallb]; [done|congruence| |congruence]. by rewrite !andb_assoc, (andb_comm (p y)). Qed.

Lemma put_counter_is_ok c : is_ok (put_counter c) = counter_fits c.
Proof.
  unfold put_counter. fold (sorted_entries c). rewrite (is_ok_bind _ _ (forallb (λ e, fits (length e.1)) (map_to_list c))).
  - rewrite put_length_is_ok. unfold counter_fits. do 2 f_equal. rewrite sorted_entries_perm. apply length_map_to_list.
  - intros n _. rewrite (is_ok_bind _ _ true) by done. rewrite put_each_is_ok, andb_true_r.
    rewrite <- (forallb_perm _ _ _ (sorted_entries_perm c)).
    induction (sorted_entries c) as [|e l IHl]; [done|]. cbn [forallb]. rewrite IHl. f_equal.
    rewrite (is_ok_bind _ _ true) by done. by rewrite put_str_is_ok, andb_true_r.
Qed.

Lemma put_term_is_ok term : is_ok (put_term term) = term_fits term.
Proof.
  destruct term as [s|s|[v d [l|]]]; cbn [put_term term_fits Term.value Term.language Term.datatype default].
  1,2: rewrite (is_ok_bind _ _ true) by done; by rewrite put_str_is_ok, andb_true_r.
  all: erewrite is_ok_bind; [by rewrite put_str_is_ok|]; intros b _; rewrite (is_ok_bind _ _ true) by done;
    rewrite (is_ok_bind _ _ true) by done; by rewrite put_str_is_ok, !andb_true_r.
Qed.

Lemma one_deeper_is_ok room depth : (room + depth = MAX_VALUE_DEPTH)%nat → is_ok (one_deeper depth) = negb (room =? 0)%nat.
Proof.
  intros Hr. unfold one_deeper. destruct (Nat.ltb_spec MAX_VALUE_DEPTH (S depth)), (Nat.eqb_spec room 0); (done || lia).
Qed.

(** The outcome of a list of values one level down. *)
Lemma put_values_is_ok room depth (items : list Value.t) :
  Forall (λ v, is_ok (encode_nested v depth) = negb (deeper_than v room) && lengths_fit v) items →
  is_ok (put_each (λ item, encode_nested item depth) items)
  = negb (existsb (λ item, deeper_than item room) items) && forallb lengths_fit items.
Proof.
  rewrite put_each_is_ok. induction 1 as [|v items Hv _ IH]; [done|]. cbn [existsb forallb]. rewrite Hv, IH, negb_orb.
  destruct (deeper_than v room), (lengths_fit v); cbn [negb andb]; rewrite ?andb_false_r; done.
Qed.

(** A value is encoded exactly when it nests no deeper than the room it has
    and all its lengths fit. *)
Lemma encode_is_ok v : ∀ room depth, (room + depth = MAX_VALUE_DEPTH)%nat →
  is_ok (encode_nested v depth) = negb (deeper_than v room) && lengths_fit v.
Proof.
  induction v as [items IH|entries IH|nodes edges IHn IHe|v Hflat] using Value.nested_ind; intros room depth Hr.
  - cbn [encode_nested deeper_than lengths_fit].
    erewrite is_ok_bind; [rewrite (one_deeper_is_ok room) by done|].
    2: { intros depth' Hd. apply one_deeper_ok in Hd as [-> Hlt]. erewrite is_ok_bind; [rewrite put_length_is_ok; done|].
         intros n _. rewrite (is_ok_bind _ _ true) by done. rewrite andb_true_r. apply (put_values_is_ok (room - 1)).
         eapply Forall_impl; [exact IH|]. cbn beta. intros v Hv. apply Hv. lia. }
    destruct (room =? 0)%nat, (existsb _ _), (fits _); cbn [negb orb andb]; done.
  - cbn [encode_nested deeper_than lengths_fit].
    erewrite is_ok_bind; [rewrite (one_deeper_is_ok room) by done|].
    2: { intros depth' Hd. apply one_deeper_ok in Hd as [-> Hlt]. erewrite is_ok_bind; [rewrite put_length_is_ok; done|].
         intros n _. rewrite (is_ok_bind _ _ true) by done. rewrite andb_true_r, put_each_is_ok.
         instantiate (1 := negb (existsb (λ e, deeper_than e.2 (room - 1)) entries) && forallb (λ e, fits (length e.1) && lengths_fit e.2) entries).
         clear n. induction IH as [|e l He _ IHl]; [done|]. cbn [existsb forallb]. rewrite IHl. fold (entry_bytes (S depth) e).
         assert (Hee : is_ok (entry_bytes (S depth) e) = fits (length e.1) && (negb (deeper_than e.2 (room - 1)) && lengths_fit e.2)).
         { unfold entry_bytes. erewrite is_ok_bind; [by rewrite put_str_is_ok|]. intros k _. rewrite (is_ok_bind _ _ true) by done.
           rewrite andb_true_r. apply He. lia. }
         rewrite Hee, negb_orb. destruct (fits (length e.1)), (deeper_than e.2 _), (lengths_fit e.2); cbn [negb andb]; rewrite ?andb_false_r; done. }
    destruct (room =? 0)%nat, (existsb _ _), (fits _); cbn [negb orb andb]; done.
  - cbn [encode_nested deeper_than lengths_fit].
    assert (Hvals : ∀ l, Forall (λ v, ∀ room depth, (room + depth = MAX_VALUE_DEPTH)%nat →
        is_ok (encode_nested v depth) = negb (deeper_than v room) && lengths_fit v) l → (depth < MAX_VALUE_DEPTH)%nat →
      is_ok (put_each (λ item, encode_nested item (S depth)) l)
      = negb (existsb (λ item, deeper_than item (room - 1)) l) && forallb lengths_fit l).
    { intros l Hl Hlt. apply put_values_is_ok. eapply Forall_impl; [exact Hl|]. cbn beta. intros v Hv. apply Hv. lia. }
    erewrite is_ok_bind; [rewrite (one_deeper_is_ok room) by done|].
    2: { intros depth' Hd. apply one_deeper_ok in Hd as [-> Hlt]. erewrite is_ok_bind; [rewrite put_length_is_ok; done|].
         intros n _. erewrite is_ok_bind; [rewrite Hvals by done; done|]. intros b _.
         erewrite is_ok_bind; [rewrite put_length_is_ok; done|]. intros n' _. rewrite (is_ok_bind _ _ true) by done.
         rewrite andb_true_r. by apply Hvals. }
    destruct (room =? 0)%nat, (existsb _ nodes), (existsb _ edges), (fits (length nodes)), (fits (length edges));
      cbn [negb orb andb]; rewrite ?andb_false_r; done.
  - destruct v; cbn [encode_nested deeper_than lengths_fit negb andb]; try done;
      rewrite ?(is_ok_bind _ _ true) by done; rewrite ?put_str_is_ok, ?put_length_is_ok, ?put_counter_is_ok, ?put_term_is_ok, ?andb_true_r; try done.
    + by destruct (Time.offset time).
    + erewrite is_ok_bind; [by rewrite put_counter_is_ok|]. intros p _. rewrite (is_ok_bind _ _ true) by done.
      by rewrite put_counter_is_ok, andb_true_r.
Qed.

(** ** Lengths *)

Definition total_len (parts : list (list Z)) : Z := len (concat parts).

Lemma saturating_total_le start parts : start ≤ usize_max → saturating_total start parts ≤ usize_max.
Proof.
  revert start. induction parts as [|x parts IH]; intros start Hs; [done|]. cbn [saturating_total foldl].
  apply IH. unfold saturating_add. lia.
Qed.

Lemma saturating_total_perm start parts parts' : parts ≡ₚ parts' → Forall (λ x, 0 ≤ x) parts →
  saturating_total start parts = saturating_total start parts'.
Proof.
  intros Hp. revert start. induction Hp as [|x l l' _ IH|x y l|l l' l'' Hp IH _ IH']; intros start Hf;
    cbn [saturating_total foldl] in *; [done| | |].
  - apply Forall_cons in Hf as [_ Hf]. by apply IH.
  - apply Forall_cons in Hf as [Hy Hf]. apply Forall_cons in Hf as [Hx _]. f_equal. unfold saturating_add. lia.
  - rewrite IH by done. apply IH'. by rewrite <- Hp.
Qed.

(** The saturating total of lengths that saturate themselves is the total,
    saturated once. *)
Lemma saturating_total_parts {A} (g : A → Z) (P : A → list Z → Prop) l parts k start :
  Forall2 P l parts → (∀ x p, P x p → g x = Z.min usize_max (k + len p)) → 0 ≤ k → 0 ≤ start →
  saturating_total (Z.min usize_max start) (map g l) = Z.min usize_max (start + len l * k + total_len parts).
Proof.
  intros HF Hg Hk. revert start. induction HF as [|x p l parts Hx _ IH]; intros start Hs.
  { unfold total_len, len. simpl. f_equal. lia. }
  cbn [map saturating_total foldl]. rewrite (Hg x p Hx).
  replace (saturating_add (Z.min usize_max start) (Z.min usize_max (k + len p))) with (Z.min usize_max (start + k + len p)).
  - fold (saturating_total (Z.min usize_max (start + k + len p)) (map g l)). rewrite IH by (unfold len in *; lia).
    unfold total_len, len. cbn [concat length]. rewrite length_app. f_equal. lia.
  - unfold saturating_add, len, usize_max. lia.
Qed.

Lemma usize_max_large : 2 ^ 40 < usize_max.
Proof. reflexivity. Qed.

Lemma put_str_len s what bs : put_str s what = Ok bs → len bs = 4 + len s.
Proof. intros H. apply put_str_ok in H as [-> _]. unfold len. rewrite length_app, to_le_length. lia. Qed.

Lemma counter_len_spec c bs : put_counter c = Ok bs → counter_len c = Z.min usize_max (len bs).
Proof.
  unfold put_counter. fold (sorted_entries c). intros H. encoded H.
  apply put_length_ok in E as [-> _]. apply put_each_ok in E0 as (parts & -> & HF).
  change (Forall2 (λ e p, replica_bytes e = Ok p) (sorted_entries c) parts) in HF.
  unfold counter_len. set (g := λ e : list Z * Z, saturating_add (4 + 8) (len e.1)).
  rewrite (saturating_total_perm 4 _ (map g (sorted_entries c))).
  2: { change (g <$> map_to_list c) with (map g (map_to_list c)). by rewrite (sorted_entries_perm c). }
  2: { apply Forall_forall. intros x Hx. apply list_elem_of_fmap in Hx as (e & -> & _). unfold g, saturating_add, usize_max, len. lia. }
  change 4 with (Z.min usize_max 4) at 1. rewrite (saturating_total_parts _ _ _ _ 0 _ HF); [|subst g|lia..].
  - unfold total_len, len in *. rewrite length_app, to_le_length. f_equal. lia.
  - intros e p Hp. apply replica_bytes_ok in Hp as [Hk ->]. unfold saturating_add, len, Value.is_u32 in *.
    rewrite !length_app, !to_le_length. pose proof usize_max_large. lia.
Qed.

Lemma term_len_spec term bs : put_term term = Ok bs → term_len term = len bs ∧ len bs < 2 ^ 40.
Proof.
  pose proof usize_max_large. intros Hp.
  destruct term as [s|s|[v d [l|]]]; cbn [put_term Term.value Term.datatype Term.language] in Hp; encoded Hp;
    repeat match goal with E : put_str _ _ = Ok _ |- _ => apply put_str_ok in E as [-> ?] end;
    repeat match goal with E : mbind _ ?r = Ok _ |- _ => destruct r eqn:?E; cbn [mbind result_bind] in E; [|done]; apply Ok_inj in E as <- end;
    repeat match goal with E : put_str _ _ = Ok _ |- _ => apply put_str_ok in E as [-> ?] end;
    unfold term_len, saturating_total, saturating_add, Value.is_u32, len in *;
    cbn [foldl Term.value Term.datatype Term.language default from_option id length]; rewrite ?length_app; cbn [length];
    rewrite ?length_app, ?to_le_length; lia.
Qed.

(** The length of a list of values, count included. *)
Lemma values_len_spec depth items parts :
  Forall (λ v, ∀ depth bs, encode_nested v depth = Ok bs → encoded_len v = Z.min usize_max (len bs)) items →
  Forall2 (λ v p, encode_nested v depth = Ok p) items parts →
  saturating_total 4 (map encoded_len items) = Z.min usize_max (4 + total_len parts).
Proof.
  intros IH HF. change 4 with (Z.min usize_max 4) at 1.
  assert (HF' : Forall2 (λ v p, encoded_len v = Z.min usize_max (0 + len p)) items parts).
  { clear -IH HF. induction HF; constructor; apply Forall_cons in IH as [IHv IH]; eauto. }
  rewrite (saturating_total_parts _ _ _ _ 0 _ HF'); [f_equal; lia|done|lia..].
Qed.

(** [encoded_len] is the number of bytes written, at most [usize::MAX]. *)
Lemma encoded_len_spec v : ∀ depth bs, encode_nested v depth = Ok bs → encoded_len v = Z.min usize_max (len bs).
Proof.
  pose proof usize_max_large as Hmax.
  induction v as [items IH|entries IH|nodes edges IHn IHe|v Hflat] using Value.nested_ind; intros depth bs He.
  - cbn [encode_nested encoded_len] in *. encoded He. apply put_length_ok in E0 as [-> _]. apply put_each_ok in E1 as (parts & -> & HF).
    rewrite (values_len_spec _ _ _ IH HF). unfold saturating_add, total_len, len. cbn [length]. rewrite length_app, to_le_length. lia.
  - cbn [encode_nested encoded_len] in *. encoded He. apply put_length_ok in E0 as [-> _]. apply put_each_ok in E1 as (parts & -> & HF).
    change (Forall2 (λ x p, entry_bytes a x = Ok p) entries parts) in HF.
    assert (HF' : Forall2 (λ e p, saturating_total 4 [len e.1; encoded_len e.2] = Z.min usize_max (0 + len p)) entries parts).
    { clear -IH HF Hmax. induction HF as [|e p l parts Hp _ IHF]; constructor; apply Forall_cons in IH as [IHe IH]; [|by apply IHF].
      apply entry_bytes_ok in Hp as [Hk (q & Hq & ->)]. specialize (IHe _ _ Hq). rewrite IHe.
      unfold saturating_total, saturating_add, len, Value.is_u32 in *. cbn [foldl]. rewrite !length_app, to_le_length. lia. }
    change 4 with (Z.min usize_max 4) at 1. rewrite (saturating_total_parts _ _ _ _ 0 _ HF'); [|done|lia..].
    unfold saturating_add, total_len, len. cbn [length]. rewrite length_app, to_le_length. lia.
  - cbn [encode_nested encoded_len] in *. encoded He. apply put_length_ok in E0 as [-> _], E2 as [-> _].
    apply put_each_ok in E1 as (pn & -> & HFn), E3 as (pe & -> & HFe).
    rewrite (values_len_spec _ _ _ IHn HFn), (values_len_spec _ _ _ IHe HFe).
    unfold saturating_add, total_len, len. cbn [length]. rewrite !length_app, !to_le_length. lia.
  - destruct v; cbn [encode_nested encoded_len] in *; try done; try (encoded He);
      repeat match goal with
      | E : put_str _ _ = Ok _ |- _ => apply put_str_ok in E as [-> ?]
      | E : put_length _ _ = Ok _ |- _ => apply put_length_ok in E as [-> ?]
      | E : put_counter _ = Ok _ |- _ => apply counter_len_spec in E as ->
      | E : put_term _ = Ok _ |- _ => apply term_len_spec in E as [-> ?]
      end; unfold saturating_add, Value.is_u32, len in *; cbn [length]; rewrite ?length_app, ?to_le_length;
      rewrite ?length_app, ?to_le_length; try lia.
    + destruct (Time.offset time); apply Ok_inj in He as <-; cbn [length]; rewrite length_app; cbn [length]; rewrite !to_le_length; lia.
    + assert (Hfl : length (flat_map (to_le 4) components) = (4 * length components)%nat).
      { clear. induction components as [|c l IH]; [done|]. cbn [flat_map length]. rewrite length_app, IH, to_le_length. lia. }
      rewrite Hfl. lia.
Qed.

(** ** The bytes written are bytes *)

Lemma in_range_byte lo hi b : in_range lo hi b = true → 0 ≤ lo → hi < 256 → is_byte b.
Proof. unfold in_range, is_byte. intros H ? ?. bool_to_prop. lia. Qed.

Lemma continuation_byte b : continuation b = true → is_byte b.
Proof. intros H. by eapply in_range_byte. Qed.

Ltac in_bytes := repeat apply Forall_cons_2;
  try first [eapply continuation_byte; eassumption | eapply in_range_byte; [eassumption|repeat case_match; lia..]].

Lemma utf8_bytes s : utf8_valid s = true → Forall is_byte s.
Proof.
  induction s as [s IH] using (induction_ltof1 _ (@length Z)). unfold ltof in IH.
  destruct s as [|b0 s0]; [constructor|]. cbn [utf8_valid].
  destruct (in_range 0 127 b0) eqn:E0; [intros H; in_bytes; apply IH; [cbn; lia|done]|].
  destruct s0 as [|b1 s1]; [done|]. destruct (in_range 194 223 b0) eqn:E1.
  { intros [H1 H]%andb_true_iff. in_bytes. apply IH; [cbn; lia|done]. }
  destruct s1 as [|b2 s2]; [done|]. destruct (in_range 224 239 b0) eqn:E2.
  { intros [[H1 H2]%andb_true_iff H]%andb_true_iff. in_bytes. apply IH; [cbn; lia|done]. }
  destruct s2 as [|b3 s3]; [done|]. intros [[[[H0 H1]%andb_true_iff H2]%andb_true_iff H3]%andb_true_iff H]%andb_true_iff.
  in_bytes. apply IH; [cbn; lia|done].
Qed.

Lemma concat_bytes parts : Forall (Forall is_byte) parts → Forall is_byte (concat parts).
Proof. induction 1; [constructor|]. by apply Forall_app. Qed.

(** Every part of a list whose elements write bytes is bytes. *)
Lemma parts_are_bytes {A} (f : A → result encode_error (list Z)) (P : A → Prop) l parts :
  Forall2 (λ x p, f x = Ok p) l parts → Forall P l → (∀ x p, x ∈ l → P x → f x = Ok p → Forall is_byte p) → Forall is_byte (concat parts).
Proof.
  intros HF HP Hf. apply concat_bytes. induction HF as [|x p l parts Hp _ IH]; [constructor|]. apply Forall_cons in HP as [Hx HP]. constructor.
  - eapply Hf; [left|done|done].
  - apply IH; [done|]. intros y q Hy. apply Hf. by right.
Qed.

Lemma str_bytes s what bs : put_str s what = Ok bs → utf8_valid s = true → Forall is_byte bs.
Proof. intros [-> _]%put_str_ok Hs. apply Forall_app. split; [apply to_le_bytes|by apply utf8_bytes]. Qed.

Lemma counter_bytes c bs : Value.counts_ok c → put_counter c = Ok bs → Forall is_byte bs.
Proof.
  intros Hc He. unfold put_counter in He. encoded He. apply put_length_ok in E as [-> _]. apply put_each_ok in E0 as (parts & -> & HF).
  apply Forall_app. split; [apply to_le_bytes|]. apply (parts_are_bytes _ (λ _, True) _ _ HF); [by apply Forall_true|]. intros [k n] p Hin _ Hp.
  cbn [fst snd] in Hp. encoded Hp. apply Forall_app. split; [|apply to_le_bytes]. eapply str_bytes; [done|].
  assert (Hm : (k, n) ∈ map_to_list c) by (by rewrite <- sorted_entries_perm). apply elem_of_map_to_list in Hm. exact (proj1 (Hc k n Hm)).
Qed.

Lemma term_bytes term bs : Term.ok term → put_term term = Ok bs → Forall is_byte bs.
Proof.
  intros Hok He. destruct term as [s|s|l]; cbn [Term.ok put_term] in *.
  1-2: encoded He; constructor; [unfold is_byte, RDF_IRI, RDF_BLANK_NODE; lia|by eapply str_bytes].
  destruct Hok as [Hv Hl]. encoded He. constructor; [unfold is_byte, RDF_LITERAL; lia|]. apply Forall_app. split; [by eapply str_bytes|].
  destruct (Term.language l) as [tag|]; [destruct Hl as [Hl _]|]; match goal with E : _ = Ok _ |- Forall _ _ => encoded E end; (constructor; [unfold is_byte; lia|by eapply str_bytes]).
Qed.

Lemma tag_bytes tag bs : is_byte tag → Forall is_byte bs → Forall is_byte (tag :: bs).
Proof. by constructor. Qed.

(** What [encode_nested] writes of a value is bytes. *)
Lemma encode_value_bytes v : ∀ depth bs, Value.ok v → encode_nested v depth = Ok bs → Forall is_byte bs.
Proof.
  induction v as [items IH|entries IH|nodes edges IHn IHe|v Hflat] using Value.nested_ind; intros depth bs Hok He.
  - cbn [encode_nested Value.ok] in *. encoded He. apply put_length_ok in E0 as [-> _]. apply put_each_ok in E1 as (parts & -> & HF). apply Value.each_Forall in Hok.
    apply tag_bytes; [unfold is_byte, TAG_LIST; lia|]. apply Forall_app. split; [apply to_le_bytes|]. apply (parts_are_bytes _ _ _ _ HF Hok).
    intros x p Hin Hx. exact (proj1 (Forall_forall _ _) IH x Hin _ _ Hx).
  - cbn [encode_nested Value.ok] in *. encoded He. apply put_length_ok in E0 as [-> _]. apply put_each_ok in E1 as (parts & -> & HF). destruct Hok as [_ Hok%Value.each_Forall].
    apply tag_bytes; [unfold is_byte, TAG_MAP; lia|]. apply Forall_app. split; [apply to_le_bytes|]. apply (parts_are_bytes _ _ _ _ HF Hok).
    intros [k x] p Hin [Hk Hx] Hp. cbn [fst snd] in *. encoded Hp. apply Forall_app. split; [by eapply str_bytes|]. exact (proj1 (Forall_forall _ _) IH (k, x) Hin _ _ Hx E1).
  - cbn [encode_nested Value.ok] in *. encoded He. apply put_length_ok in E0 as [-> _], E2 as [-> _]. apply put_each_ok in E1 as (pn & -> & HFn), E3 as (pe & -> & HFe).
    destruct Hok as [Hn%Value.each_Forall He%Value.each_Forall]. apply tag_bytes; [unfold is_byte, TAG_PATH; lia|]. rewrite !Forall_app. split_and!; try apply to_le_bytes.
    + apply (parts_are_bytes _ _ _ _ HFn Hn). intros x p Hin Hx. exact (proj1 (Forall_forall _ _) IHn x Hin _ _ Hx).
    + apply (parts_are_bytes _ _ _ _ HFe He). intros x p Hin Hx. exact (proj1 (Forall_forall _ _) IHe x Hin _ _ Hx).
  - destruct v; cbn [encode_nested Value.ok] in *; try done; try (encoded He);
      repeat match goal with
      | E : put_length _ _ = Ok _ |- _ => apply put_length_ok in E as [-> ?]
      | E : put_str _ _ = Ok _ |- _ => apply str_bytes in E; [|done]
      | E : put_counter _ = Ok _ |- _ => apply counter_bytes in E; [|tauto]
      | E : put_term _ = Ok _ |- _ => apply term_bytes in E; [|done]
      end; try (apply tag_bytes; [done|]); rewrite ?Forall_app; split_and?; try done; try apply to_le_bytes; try constructor; try done.
    + destruct flag; unfold is_byte; cbn; lia.
    + destruct (Time.offset time); apply Ok_inj in He as <-; apply tag_bytes; [done| |done|]; rewrite Forall_app; (split; [apply to_le_bytes|]);
        (apply tag_bytes; [unfold is_byte; lia|apply to_le_bytes]).
    + clear. induction components as [|c l IH]; [constructor|]. cbn [flat_map]. apply Forall_app. split; [apply to_le_bytes|exact IH].
    + destruct Hok as [? _]. unfold is_byte. lia.
    + apply to_le_bytes.
Qed.
