(* ===== verification/ValueProps.v ===== *)
(** * What the decoder accepts

    Whatever [decode_value] accepts is a well-formed value that encodes to as
    many bytes as were read, and to the same bytes but for the case of
    language tags. *)
From S2P Require Import Prelude Bytes Wide Decimal DecimalFacts Values ValueCodec ValueCodecFacts ValueRoundTrip.
Open Scope Z_scope.

#[local] Arguments to_le : simpl never.

Definition parses {A} (d : Decoder A) (P : A → list Z → Prop) : Prop :=
  ∀ data pos a pos', Forall is_byte data → (pos ≤ length data)%nat → d data pos = Ok (a, pos') →
    ∃ bs, drop pos data = bs ++ drop pos' data ∧ pos' = (pos + length bs)%nat ∧ (pos' ≤ length data)%nat ∧
      Forall is_byte bs ∧ P a bs.

Lemma parses_weaken {A} (d : Decoder A) (P Q : A → list Z → Prop) :
  parses d P → (∀ a bs, P a bs → Q a bs) → parses d Q.
Proof.
  intros Hd HPQ data pos a pos' Hb Hle H. destruct (Hd _ _ _ _ Hb Hle H) as (bs & ? & ? & ? & ? & HP).
  exists bs. split_and!; [done..|]. by apply HPQ.
Qed.

(** What is read is bytes. *)
Lemma parses_bytes {A} (d : Decoder A) (P : A → list Z → Prop) : parses d P → parses d (λ a bs, Forall is_byte bs ∧ P a bs).
Proof.
  intros Hd data pos a pos' Hb Hle H. destruct (Hd _ _ _ _ Hb Hle H) as (bs & ? & ? & ? & ? & HP). exists bs. by split_and!.
Qed.

Lemma parses_ret {A} (x : A) : parses (mret x) (λ a bs, a = x ∧ bs = []).
Proof.
  intros data pos a pos' Hb Hle H. unfold mret, decoder_ret in H. simplify_eq. exists []. split_and!; try done; simpl; lia.
Qed.

Lemma parses_error {A} at_ why (P : A → list Z → Prop) : parses (Decoder.error at_ why) P.
Proof. by intros data pos a pos' _ _ H. Qed.

(** The rule for a sequence whose rest is known for each first result. *)
Lemma parses_seq {A B} (d : Decoder A) (f : A → Decoder B) (P : A → list Z → Prop) (R : B → list Z → Prop) :
  parses d P → (∀ a b1, P a b1 → parses (f a) (λ b b2, R b (b1 ++ b2))) → parses (d ≫= f) R.
Proof.
  intros Hd Hf data pos b pos' Hb Hle H. unfold mbind, decoder_bind in H.
  destruct (d data pos) as [[a p]|] eqn:E; [|done].
  destruct (Hd _ _ _ _ Hb Hle E) as (b1 & E1 & -> & Hle1 & Hb1 & HP).
  destruct (Hf a b1 HP _ _ _ _ Hb Hle1 H) as (b2 & E2 & -> & Hle2 & Hb2 & HQ).
  exists (b1 ++ b2). rewrite length_app. split_and!; [|lia|lia|by apply Forall_app|done].
  rewrite E1, E2, app_assoc. done.
Qed.

Lemma parses_fmap {A B} (d : Decoder A) (g : A → B) (P : A → list Z → Prop) (R : B → list Z → Prop) :
  parses d P → (∀ a bs, P a bs → R (g a) bs) → parses (x ← d; mret (g x)) R.
Proof.
  intros Hd HR. eapply parses_seq; [exact Hd|]. intros a b1 HP. eapply parses_weaken; [apply parses_ret|].
  intros b b2 [-> ->]. rewrite app_nil_r. by apply HR.
Qed.

Lemma parses_position {B} (f : nat → Decoder B) R : (∀ p, parses (f p) R) → parses (Decoder.position ≫= f) R.
Proof. intros Hf data pos b pos' Hb Hle H. exact (Hf pos data pos b pos' Hb Hle H). Qed.

Lemma parses_if {A} (c : bool) (d e : Decoder A) R : (c = true → parses d R) → (c = false → parses e R) → parses (if c then d else e) R.
Proof. destruct c; auto. Qed.

Lemma parses_take n what at_ : 0 ≤ n → parses (Decoder.take_ n what at_) (λ a bs, a = bs ∧ len bs = n).
Proof.
  intros Hn data pos a pos' Hb Hle H. unfold Decoder.take_, mbind, decoder_bind, Decoder.remaining in H.
  destruct (Z.ltb_spec (saturating_sub (len data) (Z.of_nat pos)) n) as [|Hge]; [done|]. apply Ok_inj in H. simplify_eq.
  assert (Hl : length (take (Z.to_nat n) (drop pos data)) = Z.to_nat n).
  { rewrite length_take, length_drop. unfold saturating_sub, len in Hge. lia. }
  eexists. split_and!; [|by rewrite Hl| |by apply Forall_take, Forall_drop|done|unfold len; rewrite Hl; lia].
  - rewrite <- drop_drop, take_drop. done.
  - rewrite length_take, length_drop in Hl. unfold saturating_sub, len in Hge. lia.
Qed.

Lemma parses_array n what : parses (Decoder.array (Z.of_nat n) what) (λ a bs, a = bs ∧ length bs = n).
Proof.
  unfold Decoder.array. apply parses_position. intros p. eapply parses_weaken; [apply parses_take; lia|].
  intros a bs [-> H]. unfold len in H. split; [done|lia].
Qed.

(** A fixed number of bytes, read as an integer. *)
Lemma parses_le n what (g : list Z → Z) (P : Z → Prop) :
  (∀ bs, Forall is_byte bs → length bs = n → P (g bs) ∧ to_le n (g bs) = bs) →
  parses (bytes ← Decoder.array (Z.of_nat n) what; mret (g bytes)) (λ a bs, P a ∧ bs = to_le n a).
Proof.
  intros Hg data pos a pos' Hb Hle H.
  destruct (parses_fmap _ g _ (λ a bs, ∃ b, a = g b ∧ b = bs ∧ length bs = n) (parses_array n what)
    ltac:(intros b bs [-> E]; by exists bs) _ _ _ _ Hb Hle H) as (bs & H1 & H2 & H3 & H4 & b & -> & -> & H5).
  exists bs. destruct (Hg bs H4 H5). split_and!; done.
Qed.

Lemma from_le_width n bs : Forall is_byte bs → length bs = n → 0 ≤ from_le bs < 256 ^ Z.of_nat n ∧ to_le n (from_le bs) = bs.
Proof. intros Hb <-. split; [by apply from_le_bound|by apply to_from_le]. Qed.

Lemma parses_u8 what : parses (Decoder.read_u8 what) (λ a bs, is_byte a ∧ bs = [a]).
Proof.
  eapply parses_weaken; [apply (parses_le 1 what from_le is_byte)|].
  - intros bs Hb Hl. exact (from_le_width 1 bs Hb Hl).
  - intros a bs [Ha ->]. split; [done|]. unfold to_le. f_equal. by apply Z.mod_small.
Qed.
Lemma parses_u32 what : parses (Decoder.read_u32 what) (λ a bs, Value.is_u32 a ∧ bs = to_le 4 a).
Proof. apply (parses_le 4 what from_le). intros bs Hb Hl. exact (from_le_width 4 bs Hb Hl). Qed.
Lemma parses_u64 what : parses (Decoder.read_u64 what) (λ a bs, is_u64 a ∧ bs = to_le 8 a).
Proof. apply (parses_le 8 what from_le). intros bs Hb Hl. exact (from_le_width 8 bs Hb Hl). Qed.

Lemma signed_width n bits bs : 0 < bits → 256 ^ Z.of_nat n = 2 ^ bits → Forall is_byte bs → length bs = n →
  - 2 ^ (bits - 1) ≤ Decoder.cast_signed bits (from_le bs) < 2 ^ (bits - 1) ∧
  to_le n (Decoder.cast_signed bits (from_le bs)) = bs.
Proof.
  intros Hbits Hp Hb Hl. destruct (from_le_width n bs Hb Hl) as [Hr Hto]. rewrite Hp in Hr.
  destruct (cast_signed_range bits (from_le bs) Hbits Hr) as [Hc Hm]. split; [done|].
  rewrite <- Hto at 2. apply to_le_mod. by rewrite Hp.
Qed.

Lemma parses_i32 what : parses (Decoder.read_i32 what) (λ a bs, Value.is_i32 a ∧ bs = to_le 4 a).
Proof.
  apply (parses_le 4 what (λ b, Decoder.cast_signed 32 (from_le b))). intros bs Hb Hl. by apply (signed_width 4 32 bs).
Qed.
Lemma parses_i64 what : parses (Decoder.read_i64 what) (λ a bs, is_i64 a ∧ bs = to_le 8 a).
Proof.
  apply (parses_le 8 what (λ b, Decoder.cast_signed 64 (from_le b))). intros bs Hb Hl. by apply (signed_width 8 64 bs).
Qed.

Lemma parses_flag what : parses (Decoder.read_flag what) (λ a bs, bs = [Z.b2z a]).
Proof.
  unfold Decoder.read_flag. apply parses_position. intros p. eapply parses_seq; [apply parses_u8|]. intros a b1 [_ ->].
  apply parses_if; [intros ->%Z.eqb_eq|intros _; apply parses_if; [intros ->%Z.eqb_eq|intros _; apply parses_error]];
    (eapply parses_weaken; [apply parses_ret|]); by intros b b2 [-> ->].
Qed.

Lemma parses_str what : parses (Decoder.read_str what)
  (λ a bs, Value.is_u32 (len a) ∧ utf8_valid a = true ∧ bs = to_le 4 (len a) ++ a).
Proof.
  unfold Decoder.read_str. apply parses_position. intros p. eapply parses_seq; [apply parses_u32|]. intros n b1 [Hn ->].
  eapply parses_seq; [apply parses_take; unfold Value.is_u32 in Hn; lia|]. intros a b2 [-> Hl].
  apply parses_if; [|intros _; apply parses_error]. intros Hu. eapply parses_weaken; [apply parses_ret|].
  intros b b3 [-> ->]. rewrite app_nil_r, Hl. done.
Qed.

Lemma parses_count what min_ : parses (Decoder.read_count what min_) (λ a bs, Value.is_u32 a ∧ bs = to_le 4 a).
Proof.
  unfold Decoder.read_count. apply parses_position. intros p. eapply parses_seq; [apply parses_u32|]. intros n b1 [Hn ->].
  intros data pos a pos' Hb Hle H. unfold mbind, decoder_bind, Decoder.remaining in H.
  destruct (checked_mul64 n min_); [|done]. destruct (_ <? _); [done|]. unfold mret, decoder_ret in H. apply Ok_inj in H. simplify_eq.
  exists []. rewrite app_nil_r. split_and!; try done; simpl; lia.
Qed.

Lemma parses_repeat {A} (d : Decoder A) P n : parses d P →
  parses (Decoder.repeat n d) (λ l bs, length l = n ∧ ∃ parts, bs = concat parts ∧ Forall2 P l parts).
Proof.
  intros Hd. induction n as [|n IH]; cbn [Decoder.repeat].
  - eapply parses_weaken; [apply parses_ret|]. intros l bs [-> ->]. split; [done|]. exists []. by split.
  - eapply parses_seq; [exact Hd|]. intros x b1 Hx. eapply parses_fmap; [exact IH|].
    intros l bs (Hl & parts & -> & HF). split; [simpl; lia|]. exists (b1 :: parts). split; [done|by constructor].
Qed.

(** ** Increasing keys *)

Lemma parses_check what previous key at_ :
  parses (Decoder.check_increasing what previous key at_) (λ _ bs, bs = [] ∧ before previous [key]).
Proof.
  unfold Decoder.check_increasing. destruct previous as [p|]; cbn [before].
  - rewrite (lex_cmp_opp p key). destruct (lex_cmp p key) eqn:E; cbn [CompOpp]; [apply parses_error| |apply parses_error].
    eapply parses_weaken; [apply parses_ret|]. intros [] bs [_ ->]. split; [done|]. by constructor.
  - eapply parses_weaken; [apply parses_ret|]. by intros [] bs [_ ->].
Qed.

Lemma before_cons previous k keys : before previous [k] → Forall (str_lt k) keys → before previous (k :: keys).
Proof.
  destruct previous as [p|]; cbn [before]; [|done]. intros Hk Hall. apply Forall_cons in Hk as [Hk _]. constructor; [done|].
  eapply Forall_impl; [exact Hall|]. cbn beta. intros x. by apply str_lt_trans.
Qed.

Definition entry_parsed (P : Value.t → list Z → Prop) (e : list Z * Value.t) (p : list Z) : Prop :=
  Value.is_u32 (len e.1) ∧ utf8_valid e.1 = true ∧ ∃ q, p = (to_le 4 (len e.1) ++ e.1) ++ q ∧ P e.2 q.

Lemma parses_map_entries d P n previous : parses d P →
  parses (Decoder.map_entries n d previous) (λ l bs, length l = n ∧ StronglySorted str_lt l.*1 ∧ before previous l.*1 ∧
    ∃ parts, bs = concat parts ∧ Forall2 (entry_parsed P) l parts).
Proof.
  intros Hd. revert previous. induction n as [|n IH]; intros previous; cbn [Decoder.map_entries].
  - eapply parses_weaken; [apply parses_ret|]. intros l bs [-> ->]. split_and!; [done|constructor|by destruct previous; cbn|].
    exists []. by split.
  - apply parses_position. intros p. eapply parses_seq; [apply parses_str|]. intros k b1 (Hk & Hu & ->).
    eapply parses_seq; [apply parses_check|]. intros _ b2 [-> Hprev]. eapply parses_seq; [exact Hd|]. intros v b3 Hv.
    eapply parses_fmap; [apply (IH (Some k))|]. intros l bs (Hl & Hs & Hbefore & parts & -> & HF). cbn [before] in Hbefore.
    cbn [fmap list_fmap fst]. split_and!; [simpl; lia|by constructor|by apply before_cons|].
    exists (((to_le 4 (len k) ++ k) ++ b3) :: parts). split; [cbn [concat app]; by rewrite <- !app_assoc|].
    constructor; [|done]. split_and!; [done..|]. by exists b3.
Qed.

Lemma parses_counter_entries n c previous :
  parses (Decoder.counter_entries n c previous) (λ c' bs, ∃ l : list (list Z * Z),
    c' = insert_all c l ∧ length l = n ∧ StronglySorted str_lt l.*1 ∧ before previous l.*1 ∧
    Forall (λ e, Value.is_u32 (len e.1) ∧ utf8_valid e.1 = true ∧ is_u64 e.2) l ∧
    ∃ parts, bs = concat parts ∧ Forall2 (λ e p, p = (to_le 4 (len e.1) ++ e.1) ++ to_le 8 e.2) l parts).
Proof.
  revert c previous. induction n as [|n IH]; intros c previous; cbn [Decoder.counter_entries].
  - eapply parses_weaken; [apply parses_ret|]. intros c' bs [-> ->]. exists [].
    split_and!; [done|done|constructor|by destruct previous; cbn|constructor|]. exists []. by split.
  - apply parses_position. intros p. eapply parses_seq; [apply parses_str|]. intros k b1 (Hk & Hu & ->).
    eapply parses_seq; [apply parses_check|]. intros _ b2 [-> Hprev]. eapply parses_seq; [apply parses_u64|]. intros m b3 [Hm ->].
    eapply parses_weaken; [apply (IH _ (Some k))|]. intros c' bs (l & -> & Hl & Hs & Hbefore & Hok & parts & -> & HF). cbn [before] in Hbefore.
    exists ((k, m) :: l). cbn [fmap list_fmap fst]. split_and!; [done|simpl; lia|by constructor|by apply before_cons|by constructor|].
    exists (((to_le 4 (len k) ++ k) ++ to_le 8 m) :: parts). split; [cbn [concat app]; by rewrite <- !app_assoc|]. by constructor.
Qed.

(** ** Writing what was read *)

Lemma put_length_u32 n what : Value.is_u32 (Z.of_nat n) → put_length n what = Ok (to_le 4 (Z.of_nat n)).
Proof. intros Hn. unfold put_length, u32_max, Value.is_u32 in *. by rewrite (proj2 (Z.leb_le _ _)) by lia. Qed.

Lemma put_str_u32 s what : Value.is_u32 (len s) → put_str s what = Ok (to_le 4 (len s) ++ s).
Proof. intros Hs. unfold put_str. by rewrite put_length_u32. Qed.

Lemma parses_counter what : parses (Decoder.counter what) (λ c bs, Value.counts_ok c ∧ put_counter c = Ok bs).
Proof.
  unfold Decoder.counter. eapply parses_seq; [apply parses_count|]. intros n b1 [Hn ->].
  eapply parses_weaken; [apply parses_counter_entries|]. intros c bs (l & -> & Hl & Hs & _ & Hok & parts & -> & HF).
  rewrite foldl_insert_sorted, (right_id_L ∅ (∪)) by done. split.
  - intros k m Hk. apply elem_of_list_to_map_2 in Hk. rewrite Forall_forall in Hok. by destruct (Hok _ Hk) as (_ & ? & ?).
  - unfold put_counter. fold (sorted_entries (list_to_map l)). rewrite sorted_entries_list by done.
    rewrite put_length_u32 by (unfold Value.is_u32 in *; lia). cbn [mbind result_bind].
    assert (He : put_each (λ e, replica ← put_str e.1 "counter replica"; Ok (replica ++ to_le 8 e.2)) l = Ok (concat parts)).
    { apply put_each_ok. exists parts. split; [done|]. clear -Hok HF. induction HF as [|e p l parts -> _ IH]; constructor.
      - apply Forall_cons in Hok as [(Hk & _) _]. by rewrite put_str_u32.
      - apply IH. by apply Forall_cons in Hok as [_ ?]. }
    rewrite He. cbn [mbind result_bind]. do 3 f_equal. unfold Value.is_u32 in Hn. lia.
Qed.

Lemma parses_time : parses Decoder.time (λ t bs, Value.time_ok t ∧ encode_nested (Value.Time t) 0 = Ok (TAG_TIME :: bs)).
Proof.
  unfold Decoder.time. apply parses_position. intros p. eapply parses_seq; [apply parses_u64|]. intros nanos b1 [Hn ->].
  unfold Time.from_nanos. destruct (Z.leb_spec Time.NANOS_PER_DAY nanos) as [|Hlt]; [apply parses_error|].
  apply parses_position. intros p'. eapply parses_seq; [apply parses_flag|]. intros flag b2 ->.
  eapply parses_seq; [apply parses_i32|]. intros offset b3 [Ho ->]. unfold is_u64 in Hn. destruct flag.
  - eapply parses_weaken; [apply parses_ret|]. intros t bs [-> ->]. rewrite app_nil_r. split; [split; [cbn; lia|done]|done].
  - apply parses_if; [intros ->%Z.eqb_eq|intros _; apply parses_error]. eapply parses_weaken; [apply parses_ret|].
    intros t bs [-> ->]. rewrite app_nil_r. split; [split; [cbn; lia|done]|done].
Qed.

Lemma parses_decimal at_ : parses (Decoder.decimal at_)
  (λ d bs, decimal_ok d ∧ bs = Decimal.scale d :: to_le 16 (Decimal.mantissa d)).
Proof.
  unfold Decoder.decimal. eapply parses_seq; [apply parses_u8|]. intros scale b1 [Hs ->].
  intros data pos d pos' Hb Hle H. unfold mbind, decoder_bind in H.
  destruct (Decoder.array 16 _ data pos) as [[bytes p]|] eqn:E; [|done].
  destruct (parses_array 16 _ _ _ _ _ Hb Hle E) as (bs & E1 & -> & Hle1 & Hb1 & -> & Hl).
  destruct (signed_width 16 128 bs ltac:(lia) eq_refl Hb1 Hl) as [Hr Hto]. unfold is_byte in Hs.
  rewrite new_spec in H by lia. case_decide as Hd; [|done]. unfold mret, decoder_ret in H. apply Ok_inj in H. simplify_eq.
  exists bs. rewrite mantissa_small by apply Hd. cbn [Decimal.scale app]. rewrite Hto. split_and!; try done. apply mk_ok; [lia|apply Hd].
Qed.

(** ** RDF terms *)

Lemma lowercase_tag_spec tag : Term.lowercase_tag tag = to_ascii_lowercase <$> tag.
Proof.
  unfold Term.lowercase_tag. destruct (existsb _ tag) eqn:E; [done|]. induction tag as [|b tag IH]; [done|].
  cbn [existsb] in E. apply orb_false_iff in E as [Eb Et]. cbn [fmap list_fmap]. unfold to_ascii_lowercase at 1. rewrite Eb.
  f_equal. by apply IH.
Qed.

Lemma lowercase_fixed tag : Term.lowercase_tag (Term.lowercase_tag tag) = Term.lowercase_tag tag.
Proof.
  rewrite !lowercase_tag_spec. rewrite <- list_fmap_compose. apply list_fmap_ext. intros i b _. unfold compose, to_ascii_lowercase, is_ascii_uppercase, in_range.
  destruct (Z.leb_spec 65 b), (Z.leb_spec b 90); cbn [andb]; try done;
    repeat match goal with |- context [?x <=? ?y] => destruct (Z.leb_spec x y) end; cbn [andb]; try done; lia.
Qed.

(** Lowercase letters are as good UTF-8 as uppercase ones. *)
Lemma lowercase_range lo hi b : in_range 128 255 lo = true → in_range lo hi (to_ascii_lowercase b) = in_range lo hi b.
Proof.
  unfold to_ascii_lowercase, is_ascii_uppercase, in_range. intros Hlo. apply andb_prop in Hlo as [Hlo _]. apply Z.leb_le in Hlo.
  destruct (Z.leb_spec 65 b), (Z.leb_spec b 90); cbn [andb]; try done.
  destruct (Z.leb_spec lo (b + 32)), (Z.leb_spec lo b); try lia; done.
Qed.

Lemma lowercase_ascii b : in_range 0 127 (to_ascii_lowercase b) = in_range 0 127 b.
Proof.
  unfold to_ascii_lowercase, is_ascii_uppercase, in_range.
  destruct (Z.leb_spec 65 b), (Z.leb_spec b 90); cbn [andb]; try done.
  destruct (Z.leb_spec 0 (b + 32)), (Z.leb_spec (b + 32) 127), (Z.leb_spec 0 b), (Z.leb_spec b 127); try lia; done.
Qed.

Lemma lowercase_high b : in_range 0 127 b = false → to_ascii_lowercase b = b.
Proof.
  unfold to_ascii_lowercase, is_ascii_uppercase, in_range. intros H.
  destruct (Z.leb_spec 65 b), (Z.leb_spec b 90); cbn [andb]; try done.
  rewrite (proj2 (Z.leb_le 0 b)), (proj2 (Z.leb_le b 127)) in H by lia. done.
Qed.

Lemma utf8_lowercase s : utf8_valid (to_ascii_lowercase <$> s) = utf8_valid s.
Proof.
  assert (H : ∀ n s, (length s ≤ n)%nat → utf8_valid (to_ascii_lowercase <$> s) = utf8_valid s); [|by apply (H (length s))].
  clear s. induction n as [|n IH]; intros [|b0 s0] Hn; cbn [length] in Hn; try done; [lia|].
  cbn [fmap list_fmap utf8_valid]. rewrite lowercase_ascii. destruct (in_range 0 127 b0) eqn:E0; [apply IH; lia|].
  rewrite (lowercase_high b0 E0). destruct s0 as [|b1 s1]; [done|]. cbn [length] in Hn. cbn [fmap list_fmap].
  unfold continuation. destruct (in_range 194 223 b0).
  { rewrite lowercase_range by done. f_equal. apply IH. lia. }
  destruct s1 as [|b2 s2]; [done|]. cbn [length] in Hn. cbn [fmap list_fmap]. destruct (in_range 224 239 b0).
  { rewrite !lowercase_range by (by destruct (b0 =? 224)). f_equal. apply IH. lia. }
  destruct s2 as [|b3 s3]; [done|]. cbn [length] in Hn. cbn [fmap list_fmap].
  rewrite !lowercase_range by (by destruct (b0 =? 240)). f_equal. apply IH. lia.
Qed.

Definition has_language (term : Term.t) : bool :=
  match term with
  | Term.Literal_ l => match Term.language l with Some _ => true | None => false end
  | _ => false
  end.

Lemma parses_term at_ : parses (Decoder.term at_) (λ term bs,
  Term.ok term ∧ ∃ bs', put_term term = Ok bs' ∧ length bs' = length bs ∧ (has_language term = false → bs' = bs)).
Proof.
  unfold Decoder.term. eapply parses_seq; [apply parses_u8|]. intros kind b1 [_ ->].
  apply parses_if; [intros ->%Z.eqb_eq|intros _].
  { eapply parses_fmap; [apply parses_str|]. intros s bs (Hl & Hu & ->). split; [done|]. cbn [put_term Term.iri].
    rewrite put_str_u32 by done. by eexists. }
  apply parses_if; [intros ->%Z.eqb_eq|intros _].
  { eapply parses_fmap; [apply parses_str|]. intros s bs (Hl & Hu & ->). split; [done|]. cbn [put_term Term.blank].
    rewrite put_str_u32 by done. by eexists. }
  apply parses_if; [intros ->%Z.eqb_eq|intros _; apply parses_error].
  eapply parses_seq; [apply parses_str|]. intros v b2 (Hl & Hu & ->). eapply parses_seq; [apply parses_flag|]. intros flag b3 ->.
  destruct flag; (eapply parses_fmap; [apply parses_str|]); intros s bs (Hls & Hus & ->).
  - assert (Hlow : len (Term.lowercase_tag s) = len s) by (rewrite lowercase_tag_spec; unfold len; by rewrite length_fmap).
    split; [split; [done|split_and!; [|done|apply lowercase_fixed]]|].
    { cbn [Term.language Term.with_language]. by rewrite lowercase_tag_spec, utf8_lowercase. }
    cbn [put_term Term.lang_literal Term.with_language Term.value Term.language]. rewrite (put_str_u32 v) by done. cbn [mbind result_bind].
    rewrite put_str_u32 by (by rewrite Hlow). cbn [mbind result_bind]. eexists. split; [done|]. split; [|done].
    rewrite Hlow. unfold len in Hlow. cbn [app length]. rewrite !length_app. cbn [length app]. rewrite !length_app. lia.
  - split; [by split|]. cbn [put_term Term.typed_literal Term.typed Term.value Term.language Term.datatype].
    rewrite put_str_u32 by done. cbn [mbind result_bind]. rewrite put_str_u32 by done. cbn [mbind result_bind].
    eexists. split; [done|]. split; done.
Qed.

(** ** Values *)

(** No literal with a language tag is in the value. *)
Fixpoint no_language (v : Value.t) : bool :=
  match v with
  | Value.List items => forallb no_language items
  | Value.Map entries => forallb (λ e, no_language e.2) entries
  | Value.Path nodes edges => forallb no_language nodes && forallb no_language edges
  | Value.RdfTerm term => negb (has_language term)
  | _ => true
  end.

(** A well-formed value that encodes to as many bytes as [bs], and to [bs]
    itself without language tags. *)
Definition accepted (depth : nat) (v : Value.t) (bs : list Z) : Prop :=
  Value.ok v ∧ ∃ bs', encode_nested v depth = Ok bs' ∧ length bs' = length bs ∧ (no_language v = true → bs' = bs).

(** The parts of a list, re-encoded. *)
Lemma accepted_parts {A} (f : A → result encode_error (list Z)) (q : A → bool) (R : A → list Z → Prop) l parts :
  Forall2 R l parts → (∀ x p, R x p → ∃ p', f x = Ok p' ∧ length p' = length p ∧ (q x = true → p' = p)) →
  ∃ bs, put_each f l = Ok bs ∧ length bs = length (concat parts) ∧ (forallb q l = true → bs = concat parts).
Proof.
  intros HF HR. induction HF as [|x p l parts Hx _ (bs & Hbs & Hlen & Heq)]; [by exists []|].
  destruct (HR x p Hx) as (p' & Hp' & Hl' & He'). exists (p' ++ bs). cbn [put_each foldr concat forallb].
  fold (put_each f l). rewrite Hp', Hbs. cbn [mbind result_bind]. rewrite !length_app. split_and!; [done|lia|].
  intros [Hq Hqs]%andb_true_iff. by rewrite He', Heq.
Qed.

Lemma parses_values d what depth : parses d (accepted depth) →
  parses (Decoder.values d what) (λ items bs, Value.each Value.ok items ∧ Value.is_u32 (len items) ∧
    ∃ body, put_each (λ item, encode_nested item depth) items = Ok body ∧
      length (to_le 4 (len items) ++ body) = length bs ∧
      (forallb no_language items = true → to_le 4 (len items) ++ body = bs)).
Proof.
  intros Hd. unfold Decoder.values. eapply parses_seq; [apply parses_count|]. intros n b1 [Hn ->].
  eapply parses_weaken; [by apply (parses_repeat d (accepted depth))|]. intros items bs (Hl & parts & -> & HF).
  unfold Value.is_u32 in Hn. assert (Hlen : len items = n) by (unfold len; lia). rewrite Hlen.
  split; [|split; [done|]].
  - apply Value.each_Forall. clear -HF. induction HF as [|x p l parts [Hx _] _ IH]; by constructor.
  - destruct (accepted_parts (λ item, encode_nested item depth) no_language _ _ _ HF) as (body & Hb & Hlb & Heq).
    { by intros x p [_ Hx]. }
    exists body. rewrite !length_app, Hlb. split_and!; [done..|]. intros Hq. by rewrite Heq.
Qed.

Lemma one_deeper_lt depth : (depth < MAX_VALUE_DEPTH)%nat → one_deeper depth = Ok (S depth).
Proof. intros Hlt. unfold one_deeper. by rewrite (proj2 (Nat.ltb_ge _ _)) by lia. Qed.

Section Value.
Context (room depth : nat).
Hypothesis Hroom : (room + depth = MAX_VALUE_DEPTH)%nat.
Context (inner : option (Decoder Value.t)).
Hypothesis Hinner : match inner with Some d => (0 < room)%nat ∧ parses d (accepted (S depth)) | None => True end.

Lemma parses_enter at_ : parses (Decoder.enter inner at_)
  (λ d bs, bs = [] ∧ (depth < MAX_VALUE_DEPTH)%nat ∧ parses d (accepted (S depth))).
Proof.
  unfold Decoder.enter. destruct inner as [d|]; [|apply parses_error]. destruct Hinner as [Hpos Hd].
  eapply parses_weaken; [apply parses_ret|]. intros d' bs [-> ->]. split_and!; [done|lia|done].
Qed.

(** A scalar field behind a tag. *)
Lemma parses_scalar {A} (d : Decoder A) (g : A → Value.t) (P : A → list Z → Prop) tag : parses d P →
  (∀ a bs, P a bs → Value.ok (g a) ∧ encode_nested (g a) depth = Ok (tag :: bs)) →
  parses (x ← d; mret (g x)) (λ v bs, accepted depth v ([tag] ++ bs)).
Proof.
  intros Hd HP. eapply parses_fmap; [exact Hd|]. intros a bs Ha. destruct (HP a bs Ha) as [Hok He]. split; [done|].
  exists (tag :: bs). done.
Qed.

Lemma parses_list at_ : parses (value ← Decoder.enter inner at_; items ← Decoder.values value "list"; mret (Value.List items))
  (λ v bs, accepted depth v ([TAG_LIST] ++ bs)).
Proof.
  eapply parses_seq; [apply parses_enter|]. intros d b1 (-> & Hlt & Hd). eapply parses_fmap; [by apply parses_values|].
  intros items bs (Hok & Hn & body & Hb & Hl & Heq). split; [done|].
  exists (TAG_LIST :: to_le 4 (len items) ++ body). cbn [encode_nested no_language app length]. rewrite one_deeper_lt by done. cbn [mbind result_bind].
  rewrite put_length_u32 by done. cbn [mbind result_bind]. rewrite Hb. cbn [mbind result_bind].
  split_and!; [done|lia|]. intros Hq. f_equal. by apply Heq.
Qed.

Lemma parses_path at_ : parses (value ← Decoder.enter inner at_; nodes ← Decoder.values value "path node list";
    edges ← Decoder.values value "path edge list"; mret (Value.Path nodes edges)) (λ v bs, accepted depth v ([TAG_PATH] ++ bs)).
Proof.
  eapply parses_seq; [apply parses_enter|]. intros d b1 (-> & Hlt & Hd). eapply parses_seq; [by apply parses_values|].
  intros nodes b2 (Hokn & Hnn & bn & Hbn & Hln & Heqn). eapply parses_fmap; [by apply parses_values|].
  intros edges b3 (Hoke & Hne & be & Hbe & Hle & Heqe). split; [done|].
  exists (TAG_PATH :: (to_le 4 (len nodes) ++ bn) ++ to_le 4 (len edges) ++ be).
  cbn [encode_nested no_language app length]. rewrite one_deeper_lt by done. cbn [mbind result_bind].
  rewrite (put_length_u32 (length nodes)) by done. cbn [mbind result_bind]. rewrite Hbn. cbn [mbind result_bind].
  rewrite (put_length_u32 (length edges)) by done. cbn [mbind result_bind]. rewrite Hbe. cbn [mbind result_bind].
  split_and!; [done|rewrite (length_app (to_le 4 (len nodes) ++ bn)), (length_app b2); lia|].
  intros [Hqn Hqe]%andb_true_iff. by rewrite Heqn, Heqe.
Qed.

Lemma parses_map at_ : parses (value ← Decoder.enter inner at_; entries ← Decoder.map value; mret (Value.Map entries))
  (λ v bs, accepted depth v ([TAG_MAP] ++ bs)).
Proof.
  eapply parses_seq; [apply parses_enter|]. intros d b1 (-> & Hlt & Hd). unfold Decoder.map.
  eapply (parses_fmap _ Value.Map).
  { eapply parses_seq; [apply parses_count|]. intros n b2 [Hn ->].
    eapply parses_weaken; [by apply (parses_map_entries d (accepted (S depth)))|]. intros entries bs H.
    instantiate (1 := λ entries bs, StronglySorted str_lt entries.*1 ∧ Value.is_u32 (len entries) ∧
      ∃ parts, bs = to_le 4 (len entries) ++ concat parts ∧ Forall2 (entry_parsed (accepted (S depth))) entries parts).
    destruct H as (Hl & Hs & _ & parts & -> & HF). unfold Value.is_u32 in *.
    assert (len entries = n) as -> by (unfold len; lia). split_and!; [done|lia|lia|by exists parts]. }
  intros entries bs (Hs & Hn & parts & -> & HF). split.
  { split; [done|]. apply Value.each_Forall. clear -HF. induction HF as [|e p l parts (_ & Hu & q & _ & Hok & _) _ IH]; by constructor. }
  destruct (accepted_parts (entry_bytes (S depth)) (λ e, no_language e.2) _ _ _ HF) as (body & Hb & Hlb & Heq).
  { intros e p (Hk & Hu & q & -> & _ & q' & Hq & Hlq & Heq). unfold entry_bytes. rewrite put_str_u32 by done. cbn [mbind result_bind].
    rewrite Hq. cbn [mbind result_bind]. eexists. split_and!; [done|rewrite !length_app; lia|]. intros H. by rewrite Heq. }
  exists (TAG_MAP :: to_le 4 (len entries) ++ body). cbn [encode_nested no_language app length]. rewrite one_deeper_lt by done. cbn [mbind result_bind].
  rewrite put_length_u32 by done. cbn [mbind result_bind].
  change (put_each _ entries) with (put_each (entry_bytes (S depth)) entries). rewrite Hb. cbn [mbind result_bind].
  split_and!; [done|rewrite !length_app; lia|]. intros Hq. by rewrite Heq.
Qed.

Lemma parses_vector : parses (dimensions ← Decoder.read_count "vector" 4;
    components ← Decoder.repeat (Z.to_nat dimensions) (Decoder.read_u32 "vector component"); mret (Value.Vector components))
  (λ v bs, accepted depth v ([TAG_VECTOR] ++ bs)).
Proof.
  eapply parses_seq; [apply parses_count|]. intros n b1 [Hn ->]. eapply parses_fmap; [apply parses_repeat, parses_u32|].
  intros l bs (Hl & parts & -> & HF). unfold Value.is_u32 in Hn. assert (Hlen : Z.of_nat (length l) = n) by lia.
  assert (Hc : concat parts = flat_map (to_le 4) l ∧ Forall Value.is_u32 l).
  { clear -HF. induction HF as [|x p l parts [Hx ->] _ [IH1 IH2]]; [done|]. cbn [concat flat_map]. rewrite IH1. split; [done|by constructor]. }
  destruct Hc as [-> Hc]. split; [by apply Value.each_Forall|]. eexists. cbn [encode_nested]. rewrite put_length_u32 by (unfold Value.is_u32; lia).
  cbn [mbind result_bind]. rewrite Hlen. split; [done|]. split; done.
Qed.

(** One tag: the value it announces, or the tags after it. *)
Ltac tag_case := apply parses_if; [intros ->%Z.eqb_eq|intros _].

Lemma parses_value_with : parses (Decoder.value_with inner) (accepted depth).
Proof.
  unfold Decoder.value_with. apply parses_position. intros at_. eapply parses_seq; [apply parses_u8|]. intros tag b1 [_ ->].
  tag_case. { eapply parses_weaken; [apply parses_ret|]. intros v bs [-> ->]. split; [done|]. by eexists. }
  tag_case. { eapply parses_scalar; [apply parses_flag|]. by intros a bs ->. }
  tag_case. { eapply parses_scalar; [apply parses_i64|]. by intros a bs [? ->]. }
  tag_case. { eapply parses_scalar; [apply parses_u64|]. by intros a bs [? ->]. }
  tag_case. { eapply parses_scalar; [apply parses_str|]. intros a bs (Hl & Hu & ->). split; [done|]. cbn [encode_nested]. by rewrite put_str_u32. }
  tag_case. { apply parses_position. intros p. eapply parses_seq; [apply parses_u32|]. intros n b1 [Hn ->].
    eapply parses_fmap; [apply parses_bytes, parses_take; unfold Value.is_u32 in Hn; lia|]. intros a bs (Hb & -> & Hl). split; [exact Hb|]. eexists.
    cbn [encode_nested]. rewrite put_length_u32 by (unfold len in Hl; by rewrite Hl). unfold len in Hl. rewrite Hl. by split_and!. }
  tag_case. { eapply parses_scalar; [apply parses_i32|]. by intros a bs [? ->]. }
  tag_case. { eapply parses_scalar; [apply parses_time|]. intros a bs [? He]. split; [done|]. exact He. }
  tag_case. { eapply parses_scalar; [apply parses_i64|]. by intros a bs [? ->]. }
  tag_case. { eapply parses_seq; [apply parses_i64|]. intros m b1 [Hm ->]. eapply parses_fmap; [apply parses_i32|].
    intros o bs [Ho ->]. split; [done|]. by eexists. }
  tag_case. { eapply parses_seq; [apply parses_i64|]. intros m b1 [Hm ->]. eapply parses_seq; [apply parses_i64|]. intros n b2 [Hn ->].
    eapply parses_fmap; [apply parses_i64|]. intros o bs [Ho ->]. split; [done|]. by eexists. }
  tag_case; [apply parses_list|]. tag_case; [apply parses_map|]. tag_case; [apply parses_vector|]. tag_case; [apply parses_path|].
  tag_case. { eapply parses_scalar; [apply parses_counter|]. intros c bs [Hc He]. split; [done|]. cbn [encode_nested]. by rewrite He. }
  tag_case. { eapply parses_seq; [apply parses_counter|]. intros pos b1 [Hp Ep]. eapply parses_fmap; [apply parses_counter|].
    intros neg bs [Hn En]. split; [done|]. eexists. cbn [encode_nested]. rewrite Ep, En. by split_and!. }
  tag_case. { eapply parses_scalar; [apply parses_decimal|]. by intros d bs [? ->]. }
  tag_case; [|apply parses_error]. eapply parses_fmap; [apply parses_term|]. intros term bs (Hok & bs' & He & Hl & Heq).
  split; [done|]. exists (TAG_RDF_TERM :: bs'). cbn [encode_nested no_language app length]. rewrite He. split_and!; [done|lia|].
  intros Hq. f_equal. apply Heq. by destruct (has_language term).
Qed.
End Value.

Lemma parses_value room : ∀ depth, (room + depth = MAX_VALUE_DEPTH)%nat → parses (Decoder.value room) (accepted depth).
Proof.
  induction room as [|room IH]; intros depth Hr; rewrite value_unfold; eapply (parses_value_with _ _ Hr); [done|].
  split; [lia|]. apply IH. lia.
Qed.

(** ** The value codec: theorems *)
Open Scope Z_scope.

(** C24: Values round trip. An encoded value is read back exactly, wherever it
    was appended and whatever follows it. *)
Theorem encoded_values_read_back v out out' rest : Value.ok v → encode_value v out = (Ok tt, out') →
  decode_value (out' ++ rest) (length out) = Ok (v, length out').
Proof.
  intros Hok He. unfold encode_value in He. destruct (encode_nested v 0) as [bs|e] eqn:E; simplify_eq.
  rewrite length_app. apply (reads_value v MAX_VALUE_DEPTH 0 bs eq_refl Hok E _ _ rest).
  - by rewrite <- app_assoc, drop_app_length.
  - rewrite !length_app. lia.
Qed.

(** What is encoded. A value is encoded exactly when it nests at most
    [MAX_VALUE_DEPTH] lists, maps and paths and all its lengths fit a [u32];
    then [encoded_len] bytes are appended (as far as a [usize] counts), and
    otherwise nothing is. *)
Theorem encoding_outcome v out :
  let '(r, out') := encode_value v out in
  is_ok r = negb (nests_too_deep_to_encode v) && lengths_fit v ∧
  if is_ok r then ∃ bytes, out' = out ++ bytes ∧ encoded_len v = Z.min usize_max (len bytes) else out' = out.
Proof.
  pose proof (encode_is_ok v MAX_VALUE_DEPTH 0 eq_refl) as Hok. unfold encode_value, nests_too_deep_to_encode.
  destruct (encode_nested v 0) as [bs|e] eqn:E; cbn [is_ok] in *; (split; [done|]); [|done].
  exists bs. split; [done|]. by eapply encoded_len_spec.
Qed.

(** C25: What the decoder accepts, whatever the bytes: a well-formed value
    that ends inside the data past its start and encodes to as many bytes as
    were read, to the same bytes unless it holds a literal with a language
    tag. *)
Theorem accepted_bytes_encode_again data pos v pos' : Forall is_byte data → (pos ≤ length data)%nat →
  decode_value data pos = Ok (v, pos') →
  Value.ok v ∧ (pos < pos' ≤ length data)%nat ∧
  ∃ bytes, encode_value v [] = (Ok tt, bytes) ∧ length bytes = (pos' - pos)%nat ∧
    (no_language v = true → bytes = take (pos' - pos) (drop pos data)).
Proof.
  intros Hb Hle H. destruct (parses_value MAX_VALUE_DEPTH 0 eq_refl _ _ _ _ Hb Hle H) as (bs & E & -> & Hle' & _ & Hok & bs' & He & Hl & Heq).
  pose proof (encode_nonempty _ _ _ He) as Hne. unfold len in Hne. split_and!; [done|lia|lia|]. exists bs'. unfold encode_value. rewrite He.
  split_and!; [done|lia|]. intros Hq. rewrite (Heq Hq). replace (pos + length bs - pos)%nat with (length bs) by lia.
  by rewrite E, take_app_length.
Qed.

(** The room that is left above a property value is what the history of a
    property needs: a list of pairs of an epoch and a value a write accepts is
    always encoded, when its length fits. *)
Theorem property_history_encodes (history : list (Z * Value.t)) out :
  Forall (λ e, nests_too_deep e.2 = false ∧ lengths_fit e.2 = true) history → fits (length history) = true →
  is_ok (encode_value (Value.List (map (λ e, Value.List [Value.Int64 e.1; e.2]) history)) out).1 = true.
Proof.
  intros Hh Hlen. set (items := map _ history). pose proof (encode_is_ok (Value.List items) MAX_VALUE_DEPTH 0 eq_refl) as Hok.
  assert (Hall : existsb (λ item, deeper_than item 129) items = false ∧ forallb lengths_fit items = true).
  { subst items. clear Hok Hlen. induction Hh as [|e l [Hd Hf] _ [IH1 IH2]]; [done|]. cbn [map existsb forallb].
    rewrite IH1, IH2, orb_false_r, andb_true_r. split.
    - change (deeper_than e.2 128 || false = false). by rewrite orb_false_r.
    - cbn [lengths_fit forallb]. by rewrite Hf. }
  destruct Hall as [Hd Hf]. change (deeper_than (Value.List items) MAX_VALUE_DEPTH)
    with (existsb (λ item, deeper_than item 129) items) in Hok.
  change (lengths_fit (Value.List items)) with (fits (length items) && forallb lengths_fit items) in Hok.
  rewrite Hd, Hf in Hok. unfold items in Hok at 2. rewrite length_map, Hlen in Hok.
  unfold encode_value. by destruct (encode_nested (Value.List items) 0).
Qed.

(** ** Where the codec falls short *)

(** The same literal with its language tag in uppercase and in lowercase: the
    decoder accepts both encodings, of one value. *)
Theorem language_tags_have_two_encodings :
  let bytes tag := [TAG_RDF_TERM; RDF_LITERAL; 1; 0; 0; 0; 65; 1; 2; 0; 0; 0] ++ tag in
  let term := Value.RdfTerm (Term.lang_literal [65] [101; 110]) in
  decode_value (bytes [69; 78]) 0 = Ok (term, 14%nat) ∧ decode_value (bytes [101; 110]) 0 = Ok (term, 14%nat).
Proof. split; vm_compute; reflexivity. Qed.

(** ** Concrete inputs *)

Definition sample : Value.t :=
  Value.List [Value.Map [([97], Value.Int64 (-5)); ([98], Value.Path [Value.Null] [Value.Bool true])];
    Value.GCounter (<[ [98] := 2 ]> (<[ [97] := 1 ]> ∅)); Value.Decimal (Decimal.mk 2 (Decimal.words (-150)));
    Value.RdfTerm (Term.lang_literal [65] [69; 78]); Value.Time (Time.mk 5 (Some (-3600)))].

Lemma sample_ok : Value.ok sample.
Proof.
  assert (Hcounts : Value.counts_ok (<[ [98] := 2 ]> (<[ [97] := 1 ]> ∅))).
  { apply map_Forall_insert_2; [unfold is_u64; split; [reflexivity|lia]|].
    apply map_Forall_insert_2; [unfold is_u64; split; [reflexivity|lia]|]. apply map_Forall_empty. }
  assert (Hdec : decimal_ok (Decimal.mk 2 (Decimal.words (-150)))) by (apply mk_ok; lia).
  assert (Hterm : Term.ok (Term.lang_literal [65] [69; 78])) by (repeat split; reflexivity).
  assert (Htime : Value.time_ok (Time.mk 5 (Some (-3600)))).
  { split; unfold Time.NANOS_PER_DAY, Value.is_i32; cbn; lia. }
  assert (Hmap : Value.ok (Value.Map [([97], Value.Int64 (-5)); ([98], Value.Path [Value.Null] [Value.Bool true])])).
  { split; [repeat constructor|]. split; [split; [reflexivity|]|split; [split; [reflexivity|]|exact I]].
    - cbn. unfold is_i64. lia.
    - cbn. tauto. }
  exact (conj Hmap (conj Hcounts (conj Hdec (conj Hterm (conj Htime I))))).
Qed.

Lemma encoded_values_read_back_witness :
  decode_value ((encode_value sample [7; 7]).2 ++ [9]) 2 = Ok (sample, length (encode_value sample [7; 7]).2).
Proof. apply (encoded_values_read_back sample [7; 7]); [apply sample_ok|]. vm_compute. reflexivity. Defined.

Lemma accepted_bytes_encode_again_witness :
  Value.ok (Value.Date (-1)) ∧ (1 < 6 ≤ 6)%nat ∧ ∃ bytes, encode_value (Value.Date (-1)) [] = (Ok tt, bytes) ∧ length bytes = 5%nat ∧
    (no_language (Value.Date (-1)) = true → bytes = [6; 255; 255; 255; 255]).
Proof.
  apply (accepted_bytes_encode_again [0; 6; 255; 255; 255; 255] 1 (Value.Date (-1)) 6).
  - repeat constructor; unfold is_byte; lia.
  - simpl. lia.
  - vm_compute. reflexivity.
Defined.

Lemma property_history_encodes_witness :
  is_ok (encode_value (Value.List [Value.List [Value.Int64 3; sample]]) []).1 = true.
Proof.
  apply (property_history_encodes [(3, sample)] []); [|vm_compute; reflexivity].
  constructor; [split; vm_compute; reflexivity|constructor].
Defined.
