(* ===== verification/Chunks.v ===== *)
(** * Sections, chunks and their identities

    Model of the parts of [src/crates/grafeo-common/src/storage/section.rs]
    and [chunk.rs] that describe the chunks of an image: section types, chunk
    kinds and namespaces with their bytes on disk, chunk metadata, the
    identities a section has used, and the caps of a chunk. *)
From S2P Require Import Prelude Bytes.
Open Scope Z_scope.

Module SectionType.
Inductive t : Set :=
  | Catalog | LpgStore | RdfStore | CompactStore | OverlayDeletions | TimeIndex
  | VectorStore | TextIndex | RdfRing | PropertyIndex.

#[global] Instance t_eq_dec : EqDecision t.
Proof. solve_decision. Defined.

Definition to_u8 (s : t) : Z :=
  match s with
  | Catalog => 1 | LpgStore => 2 | RdfStore => 3 | CompactStore => 4 | OverlayDeletions => 5 | TimeIndex => 6
  | VectorStore => 10 | TextIndex => 11 | RdfRing => 12 | PropertyIndex => 20
  end.

Definition from_u8 (byte : Z) : option t :=
  match byte with
  | 1 => Some Catalog | 2 => Some LpgStore | 3 => Some RdfStore | 4 => Some CompactStore
  | 5 => Some OverlayDeletions | 6 => Some TimeIndex | 10 => Some VectorStore | 11 => Some TextIndex
  | 12 => Some RdfRing | 20 => Some PropertyIndex | _ => None
  end.

Definition is_data_section (s : t) : bool := to_u8 s <? 10.
Definition is_index_section (s : t) : bool := 10 <=? to_u8 s.

(** Every type of this release is required. *)
Definition is_optional (s : t) : bool := false.

Lemma section_type_from_to s : from_u8 (to_u8 s) = Some s.
Proof. by destruct s. Qed.

#[global] Instance t_countable : Countable t := inj_countable to_u8 from_u8 section_type_from_to.

Lemma section_type_byte s : is_byte (to_u8 s).
Proof. unfold is_byte. destruct s; simpl; lia. Qed.

Lemma to_u8_inj s s' : to_u8 s = to_u8 s' → s = s'.
Proof. intros H. pose proof (section_type_from_to s) as E. rewrite H, section_type_from_to in E. by simplify_eq. Qed.
End SectionType.
Abbreviation SectionType := SectionType.t.

Module ChunkKind.
Inductive t : Set := Raw | Meta | Column | History | Stream | Adjacency.

#[global] Instance t_eq_dec : EqDecision t.
Proof. solve_decision. Defined.

Definition to_byte (k : t) : Z :=
  match k with Raw => 0 | Meta => 1 | Column => 2 | History => 3 | Stream => 4 | Adjacency => 5 end.

Definition is_optional (k : t) : bool := false.

Definition from_byte (byte : Z) : option t :=
  match byte with
  | 0 => Some Raw | 1 => Some Meta | 2 => Some Column | 3 => Some History | 4 => Some Stream
  | 5 => Some Adjacency | _ => None
  end.

Lemma kind_from_to k : from_byte (to_byte k) = Some k.
Proof. by destruct k. Qed.

Lemma kind_byte k : is_byte (to_byte k).
Proof. unfold is_byte. destruct k; simpl; lia. Qed.
End ChunkKind.
Abbreviation ChunkKind := ChunkKind.t.

Module ChunkNamespace.
Inductive t : Set :=
  | Section_ | NodeStructure | NodeProperties | NodeDeletes | NodeLabels
  | EdgeStructure | EdgeProperties | EdgeDeletes | OutgoingAdjacency | IncomingAdjacency.

#[global] Instance t_eq_dec : EqDecision t.
Proof. solve_decision. Defined.

Definition to_byte (n : t) : Z :=
  match n with
  | Section_ => 0 | NodeStructure => 16 | NodeProperties => 17 | NodeDeletes => 18 | NodeLabels => 19
  | EdgeStructure => 32 | EdgeProperties => 33 | EdgeDeletes => 34
  | OutgoingAdjacency => 48 | IncomingAdjacency => 49
  end.

Definition from_byte (byte : Z) : option t :=
  match byte with
  | 0 => Some Section_ | 16 => Some NodeStructure | 17 => Some NodeProperties | 32 => Some EdgeStructure
  | 33 => Some EdgeProperties | 18 => Some NodeDeletes | 19 => Some NodeLabels | 34 => Some EdgeDeletes
  | 48 => Some OutgoingAdjacency | 49 => Some IncomingAdjacency | _ => None
  end.

Lemma namespace_from_to n : from_byte (to_byte n) = Some n.
Proof. by destruct n. Qed.

Lemma namespace_byte n : is_byte (to_byte n).
Proof. unfold is_byte. destruct n; simpl; lia. Qed.
End ChunkNamespace.
Abbreviation ChunkNamespace := ChunkNamespace.t.

(** ** Chunk metadata *)

Module ChunkMeta.
Record t : Set := mk {
  kind : ChunkKind;
  namespace : ChunkNamespace;
  codec : Z;
  graph_id : Z;
  column_id : Z;
  row_start : Z;
  row_count : Z;
}.

#[global] Instance t_eq_dec : EqDecision t.
Proof. solve_decision. Defined.

Definition raw : t := mk ChunkKind.Raw ChunkNamespace.Section_ 0 0 0 0 0.
Definition meta : t := mk ChunkKind.Meta ChunkNamespace.Section_ 0 0 0 0 0.
Definition column (graph_id column_id row_start row_count codec : Z) : t :=
  mk ChunkKind.Column ChunkNamespace.Section_ codec graph_id column_id row_start row_count.
Definition history (graph_id column_id row_start row_count codec : Z) : t :=
  mk ChunkKind.History ChunkNamespace.Section_ codec graph_id column_id row_start row_count.
Definition stream_piece (graph_id stream offset : Z) : t :=
  mk ChunkKind.Stream ChunkNamespace.Section_ 0 graph_id stream offset 0.
Definition in_namespace (m : t) (n : ChunkNamespace) : t :=
  mk (kind m) n (codec m) (graph_id m) (column_id m) (row_start m) (row_count m).

Definition identity (m : t) : Z * Z * Z * Z * Z :=
  (ChunkKind.to_byte (kind m), ChunkNamespace.to_byte (namespace m), graph_id m, column_id m, row_start m).

(** The widths of the fields. *)
Definition ok (m : t) : Prop :=
  is_byte (codec m) ∧ 0 ≤ graph_id m < 2 ^ 32 ∧ 0 ≤ column_id m < 2 ^ 32 ∧
  is_u64 (row_start m) ∧ 0 ≤ row_count m < 2 ^ 32.
End ChunkMeta.
Abbreviation ChunkMeta := ChunkMeta.t.

(** The identities a section has used so far; [insert] is [None] for one that
    was recorded before. *)
Module ChunkIdentities.
Abbreviation t := (gset (Z * Z * Z * Z * Z)) (only parsing).

Definition insert (m : ChunkMeta) (seen : t) : option t :=
  if decide (ChunkMeta.identity m ∈ seen) then None else Some ({[ChunkMeta.identity m]} ∪ seen).
End ChunkIdentities.
