(* ===== verification/FileHeaders.v ===== *)
(** * Headers of the storage file

    Model of [src/crates/grafeo-storage/src/file/v3/header.rs]: the file
    header, the two database headers and the choice of the active one, and of
    [PageEncryptor] of [src/crates/grafeo-common/src/encryption.rs]. The
    checksum (the crc32fast crate) and the authenticated cipher (the aes-gcm
    crate) are the class [FileEnv]: a checksum is a [u32] of the bytes it was
    fed, and sealed bytes open under the nonce and the data they were sealed
    with and are 16 bytes longer; a random nonce (the rand crate) has 12 bytes.
    [sample_file_env] has these laws. *)
From S2P Require Import Prelude Bytes PageAlloc.
Open Scope Z_scope.

Class FileEnv := {
  hash : list Z → Z;
  hash_range : ∀ bytes, 0 ≤ hash bytes < 2 ^ 32;
  Aes256Gcm : Type;
  seal : Aes256Gcm → list Z → list Z → list Z → option (list Z);  (* nonce, associated data, plaintext *)
  unseal : Aes256Gcm → list Z → list Z → list Z → option (list Z);  (* nonce, associated data, sealed *)
  unseal_seal : ∀ c nonce aad plain sealed, seal c nonce aad plain = Some sealed → unseal c nonce aad sealed = Some plain;
  seal_length : ∀ c nonce aad plain sealed, seal c nonce aad plain = Some sealed → length sealed = (length plain + 16)%nat;
  unseal_length : ∀ c nonce aad plain sealed, unseal c nonce aad sealed = Some plain → length sealed = (length plain + 16)%nat;
  random_nonce : nat → list Z;  (* the nonces a generator draws, in order *)
  random_nonce_length : ∀ n, length (random_nonce n) = 12%nat;
}.

(** The sum of the bytes, the plaintext with 16 zeros behind it, and a nonce
    of zeros. *)
Definition sample_hash (bytes : list Z) : Z := foldr Z.add 0 bytes mod 2 ^ 32.
Definition sample_unseal (sealed : list Z) : option (list Z) :=
  if (16 <=? length sealed)%nat then Some (take (length sealed - 16) sealed) else None.

Lemma sample_unseal_seal (plain sealed : list Z) :
  Some (plain ++ replicate 16 0) = Some sealed → sample_unseal sealed = Some plain.
Proof.
  intros <-%(inj Some). unfold sample_unseal. rewrite length_app, length_replicate, (proj2 (Nat.leb_le _ _)) by lia.
  rewrite Nat.add_sub. by rewrite take_app_length.
Qed.

Lemma sample_sealed_length (plain sealed : list Z) :
  Some (plain ++ replicate 16 0) = Some sealed → length sealed = (length plain + 16)%nat.
Proof. intros <-%(inj Some). by rewrite length_app, length_replicate. Qed.

Lemma sample_unsealed_length (plain sealed : list Z) : sample_unseal sealed = Some plain → length sealed = (length plain + 16)%nat.
Proof. unfold sample_unseal. destruct (Nat.leb_spec 16 (length sealed)); [|done]. intros <-%(inj Some). rewrite length_take. lia. Qed.

Definition sample_file_env : FileEnv := {|
  hash := sample_hash;
  hash_range := λ bytes, Z.mod_pos_bound _ (2 ^ 32) ltac:(lia);
  Aes256Gcm := unit;
  seal := λ _ _ _ plain, Some (plain ++ replicate 16 0);
  unseal := λ _ _ _ sealed, sample_unseal sealed;
  unseal_seal := λ _ _ _ plain sealed, sample_unseal_seal plain sealed;
  seal_length := λ _ _ _ plain sealed, sample_sealed_length plain sealed;
  unseal_length := λ _ _ _ plain sealed, sample_unsealed_length plain sealed;
  random_nonce := λ _, replicate 12 0;
  random_nonce_length := λ _, eq_refl;
|}.

(** ** Bytes at fixed places *)

(** [page[at..at + n].copy_from_slice(bytes)]. *)
Definition copy_at (at_ : nat) (bytes page : list Z) : list Z :=
  take at_ page ++ bytes ++ drop (at_ + length bytes) page.

(** [page[at..at + n]]. *)
Definition field (at_ n : nat) (bytes : list Z) : list Z := take n (drop at_ bytes).
Definition u32_at (bytes : list Z) (at_ : nat) : Z := from_le (field at_ 4 bytes).
Definition u64_at (bytes : list Z) (at_ : nat) : Z := from_le (field at_ 8 bytes).
Definition byte_at (bytes : list Z) (at_ : nat) : Z := from_le (field at_ 1 bytes).

Definition PAGE_BYTES : nat := 4096.

(** ** Encryption *)

Section encryption.
Context `{FileEnv}.

Definition NONCE_SIZE : nat := 12.
Definition TAG_SIZE : nat := 16.
Definition ENCRYPTION_OVERHEAD : nat := NONCE_SIZE + TAG_SIZE.

(** [nonce || ciphertext || tag]. *)
Definition encrypt_with (cipher : Aes256Gcm) (plaintext nonce aad : list Z) : option (list Z) :=
  ciphertext ← seal cipher nonce aad plaintext;
  Some (nonce ++ ciphertext).

Definition decrypt_with (cipher : Aes256Gcm) (encrypted aad : list Z) : option (list Z) :=
  if (length encrypted <? NONCE_SIZE + TAG_SIZE)%nat then None
  else unseal cipher (take NONCE_SIZE encrypted) aad (drop NONCE_SIZE encrypted).

Lemma decrypt_encrypt_with c plain nonce aad out : length nonce = NONCE_SIZE →
  encrypt_with c plain nonce aad = Some out →
  decrypt_with c out aad = Some plain ∧ length out = (length plain + ENCRYPTION_OVERHEAD)%nat.
Proof.
  intros Hn. unfold encrypt_with. destruct (seal c nonce aad plain) as [ct|] eqn:E; simpl; [|done]. intros [= <-].
  pose proof (seal_length _ _ _ _ _ E) as Hl. unfold decrypt_with, ENCRYPTION_OVERHEAD, NONCE_SIZE, TAG_SIZE in *.
  rewrite length_app, Hn, Hl. destruct (Nat.ltb_spec (12 + (length plain + 16)) (12 + 16)); [lia|].
  rewrite take_app_length', drop_app_length' by done. split; [by apply (unseal_seal c nonce)|lia].
Qed.
End encryption.

(** ** The file header *)

Definition FORMAT_V3 : Z := 3.
Definition FORMAT_REVISION : Z := 1.
Definition MAX_FORMAT_REVISION : Z := 1.
Definition slot_offset (slot : Z) : Z := PAGE_SIZE * (1 + slot).
Definition FILE_MAGIC : list Z := [71; 82; 65; 70].
Definition DB_MAGIC : list Z := [71; 68; 66; 72].
Definition FILE_CRC_OFFSET : nat := 72.
Definition DB_CRC_OFFSET : nat := 80.
Definition FLAG_ENCRYPTED : Z := 1.
Definition INCOMPATIBLE_FLAGS : Z := 65535.
Definition KNOWN_INCOMPATIBLE_FLAGS : Z := FLAG_ENCRYPTED.

Inductive header_error : Type :=
  | NotGrafeo
  | ShortHeader (length : nat)
  | HeaderChecksum (stored computed : Z)
  | UnsupportedFormat (format : Z)
  | UnsupportedPageSize (page_size : Z)
  | UnknownFeatures (unknown : Z)
  | BothDamaged (at_ : Z)
  | DamagedAndEmpty (at_ : Z)
  | OldRevision
  | NewerRevision (revision : Z).

Module FileHeaderV3.
Record t := mk {
  page_size : Z;
  encrypted : bool;
  database_id : Z;
  creation_timestamp_ms : Z;
  creator_version : list Z;
}.

(** The version of the library, the random id and the clock are arguments. *)
Definition new (version : list Z) (id now : Z) (encrypted : bool) : t :=
  mk PAGE_SIZE encrypted id now (copy_at 0 (take 32 version) (replicate 32 0)).

Section env.
Context `{FileEnv}.

Definition encode (h : t) : list Z :=
  let page := replicate PAGE_BYTES 0 in
  let page := copy_at 0 FILE_MAGIC page in
  let page := copy_at 4 (to_le 4 FORMAT_V3) page in
  let page := copy_at 8 (to_le 4 (page_size h)) page in
  let flags := if encrypted h then FLAG_ENCRYPTED else 0 in
  let page := copy_at 12 (to_le 4 flags) page in
  let page := copy_at 16 (to_le 16 (database_id h)) page in
  let page := copy_at 32 (to_le 8 (creation_timestamp_ms h)) page in
  let page := copy_at 40 (creator_version h) page in
  copy_at FILE_CRC_OFFSET (to_le 4 (hash (take FILE_CRC_OFFSET page))) page.

Definition decode (page : list Z) : result header_error t :=
  if negb (bool_decide (slice 0 4 page = Some FILE_MAGIC)) then Err NotGrafeo
  else if (length page <? FILE_CRC_OFFSET + 4)%nat then Err (ShortHeader (length page))
  else
    let stored := u32_at page FILE_CRC_OFFSET in
    let computed := hash (take FILE_CRC_OFFSET page) in
    if negb (stored =? computed) then Err (HeaderChecksum stored computed)
    else if negb (u32_at page 4 =? FORMAT_V3) then Err (UnsupportedFormat (u32_at page 4))
    else if negb (u32_at page 8 =? PAGE_SIZE) then Err (UnsupportedPageSize (u32_at page 8))
    else
      let flags := u32_at page 12 in
      let unknown := Z.land (Z.land flags INCOMPATIBLE_FLAGS) (Z.lxor u32_max KNOWN_INCOMPATIBLE_FLAGS) in
      if negb (unknown =? 0) then Err (UnknownFeatures unknown)
      else Ok (mk (u32_at page 8) (negb (Z.land flags FLAG_ENCRYPTED =? 0)) (from_le (field 16 16 page))
                 (u64_at page 32) (field 40 32 page)).
End env.

Definition ok (h : t) : Prop :=
  page_size h = PAGE_SIZE ∧ 0 ≤ database_id h < 2 ^ 128 ∧ is_u64 (creation_timestamp_ms h) ∧
  length (creator_version h) = 32%nat.
End FileHeaderV3.
Abbreviation FileHeaderV3 := FileHeaderV3.t.

(** ** The database headers *)

Module BlockRef.
Record t : Set := mk { offset : Z; length : Z; crc : Z }.
Definition default_ : t := mk 0 0 0.
Definition ok (b : t) : Prop := is_u64 (offset b) ∧ 0 ≤ length b < 2 ^ 32 ∧ 0 ≤ crc b < 2 ^ 32.
#[global] Instance t_eq_dec : EqDecision t.
Proof. solve_decision. Defined.
End BlockRef.
Abbreviation BlockRef := BlockRef.t.

Module DbHeaderV3.
Record t : Set := mk {
  format_revision : Z;
  iteration : Z;
  checkpoint_lsn : Z;
  epoch : Z;
  last_transaction_id : Z;
  root : BlockRef;
  node_count : Z;
  edge_count : Z;
  timestamp_ms : Z;
}.

#[global] Instance t_eq_dec : EqDecision t.
Proof. solve_decision. Defined.

Definition default_ : t := mk FORMAT_REVISION 0 0 0 0 BlockRef.default_ 0 0 0.

Definition ok (h : t) : Prop :=
  0 ≤ format_revision h < 2 ^ 32 ∧ is_u64 (iteration h) ∧ is_u64 (checkpoint_lsn h) ∧ is_u64 (epoch h) ∧
  is_u64 (last_transaction_id h) ∧ BlockRef.ok (root h) ∧ is_u64 (node_count h) ∧ is_u64 (edge_count h) ∧
  is_u64 (timestamp_ms h).
End DbHeaderV3.
Abbreviation DbHeaderV3 := DbHeaderV3.t.

Inductive HeaderSlot : Set :=
  | Empty
  | Damaged
  | Valid (h : DbHeaderV3).

Section db_header.
Context `{FileEnv}.
Import DbHeaderV3.

Definition db_encode (h : t) : list Z :=
  let page := replicate PAGE_BYTES 0 in
  let page := copy_at 0 DB_MAGIC page in
  let page := copy_at 4 (to_le 4 (format_revision h)) page in
  let page := copy_at 8 (to_le 8 (iteration h)) page in
  let page := copy_at 16 (to_le 8 (checkpoint_lsn h)) page in
  let page := copy_at 24 (to_le 8 (epoch h)) page in
  let page := copy_at 32 (to_le 8 (last_transaction_id h)) page in
  let page := copy_at 40 (to_le 8 (BlockRef.offset (root h))) page in
  let page := copy_at 48 (to_le 4 (BlockRef.length (root h))) page in
  let page := copy_at 52 (to_le 4 (BlockRef.crc (root h))) page in
  let page := copy_at 56 (to_le 8 (node_count h)) page in
  let page := copy_at 64 (to_le 8 (edge_count h)) page in
  let page := copy_at 72 (to_le 8 (timestamp_ms h)) page in
  copy_at DB_CRC_OFFSET (to_le 4 (hash (take DB_CRC_OFFSET page))) page.

Definition db_decode (slot : list Z) : HeaderSlot :=
  if (length slot <? DB_CRC_OFFSET + 4)%nat then Damaged
  else if forallb (λ byte, byte =? 0) slot then Empty
  else if negb (bool_decide (take 4 slot = DB_MAGIC)) || negb (u32_at slot DB_CRC_OFFSET =? hash (take DB_CRC_OFFSET slot))
  then Damaged
  else Valid (mk (u32_at slot 4) (u64_at slot 8) (u64_at slot 16) (u64_at slot 24) (u64_at slot 32)
                (BlockRef.mk (u64_at slot 40) (u32_at slot 48) (u32_at slot 52))
                (u64_at slot 56) (u64_at slot 64) (u64_at slot 72)).
End db_header.

Definition active_header (slots : HeaderSlot * HeaderSlot) : result header_error (option (Z * DbHeaderV3)) :=
  match slots with
  | (Valid first, Valid second) =>
      if DbHeaderV3.iteration first <? DbHeaderV3.iteration second then Ok (Some (1, second)) else Ok (Some (0, first))
  | (Valid first, _) => Ok (Some (0, first))
  | (_, Valid second) => Ok (Some (1, second))
  | (Empty, Empty) => Ok None
  | (Damaged, Damaged) => Err (BothDamaged (slot_offset 0))
  | (Damaged, Empty) => Err (DamagedAndEmpty (slot_offset 0))
  | (Empty, Damaged) => Err (DamagedAndEmpty (slot_offset 1))
  end.

Definition check_format_revision (revision : Z) : result header_error unit :=
  if revision =? 0 then Err OldRevision
  else if revision <=? MAX_FORMAT_REVISION then Ok tt
  else Err (NewerRevision revision).

(** ** Headers of the storage file: layout and round trips *)
Open Scope Z_scope.

(** ** Fields *)

Lemma copy_at_zeros at_ pre bytes n : at_ = length pre →
  copy_at at_ bytes (pre ++ replicate n 0) = (pre ++ bytes) ++ replicate (n - length bytes) 0.
Proof.
  intros ->. unfold copy_at. rewrite take_app_length, <- app_assoc. do 2 f_equal.
  rewrite drop_app_ge by lia. rewrite Nat.add_comm, Nat.add_sub. apply drop_replicate.
Qed.

Lemma copy_at_length at_ bytes page : (at_ + length bytes ≤ length page)%nat → length (copy_at at_ bytes page) = length page.
Proof. intros Hl. unfold copy_at. rewrite !length_app, length_take, length_drop. lia. Qed.

Lemma field_skip at_ n l1 l2 : (length l1 ≤ at_)%nat → field at_ n (l1 ++ l2) = field (at_ - length l1) n l2.
Proof. intros Hl. unfold field. by rewrite drop_app_ge. Qed.

Lemma field_here n l1 l2 : length l1 = n → field 0 n (l1 ++ l2) = l1.
Proof. intros <-. unfold field. rewrite drop_0. apply take_app_length. Qed.

Lemma field_in at_ n l1 l2 : (at_ + n ≤ length l1)%nat → field at_ n (l1 ++ l2) = field at_ n l1.
Proof.
  intros Hl. unfold field. rewrite drop_app_le by lia. apply take_app_le. rewrite length_drop. lia.
Qed.

Lemma field_length at_ n l : (at_ + n ≤ length l)%nat → length (field at_ n l) = n.
Proof. intros Hl. unfold field. rewrite length_take, length_drop. lia. Qed.

Lemma field_bytes at_ n l : Forall is_byte l → Forall is_byte (field at_ n l).
Proof. intros Hl. by apply Forall_take, Forall_drop. Qed.

Lemma u32_at_range l at_ : Forall is_byte l → 0 ≤ u32_at l at_ < 2 ^ 32.
Proof.
  intros Hl. unfold u32_at. pose proof (from_le_bound _ (field_bytes at_ 4 l Hl)) as Hb. split; [apply Hb|].
  eapply Z.lt_le_trans; [apply Hb|]. assert (length (field at_ 4 l) ≤ 4)%nat by (apply firstn_le_length).
  change (2 ^ 32) with (256 ^ 4). apply Z.pow_le_mono_r; lia.
Qed.

Lemma u64_at_range l at_ : Forall is_byte l → is_u64 (u64_at l at_).
Proof.
  intros Hl. unfold u64_at, is_u64. pose proof (from_le_bound _ (field_bytes at_ 8 l Hl)) as Hb. split; [apply Hb|].
  eapply Z.lt_le_trans; [apply Hb|]. assert (length (field at_ 8 l) ≤ 8)%nat by (apply firstn_le_length).
  change (2 ^ 64) with (256 ^ 8). apply Z.pow_le_mono_r; lia.
Qed.

(** Reads a field out of a concatenation of fields of known lengths. *)
Ltac read_field :=
  unfold u32_at, u64_at, byte_at;
  repeat (rewrite field_skip by (rewrite ?to_le_length; simpl; lia)); rewrite ?to_le_length; cbn [Nat.sub length];
  rewrite field_here by (rewrite ?to_le_length; reflexivity);
  try (rewrite from_to_le by (change (256 ^ Z.of_nat 1) with 256; change (256 ^ Z.of_nat 4) with (2 ^ 32);
                              change (256 ^ Z.of_nat 8) with (2 ^ 64); change (256 ^ Z.of_nat 16) with (2 ^ 128);
                              first [assumption|lia]));
  try reflexivity.

(** Lays out a chain of [copy_at] on an empty page. *)
Ltac lay_out :=
  repeat (rewrite copy_at_zeros by (rewrite ?length_app, ?to_le_length; reflexivity));
  rewrite ?length_app, ?to_le_length, <- ?app_assoc.

Section headers.
Context `{FileEnv}.

(** ** Database headers *)

Definition db_fields (h : DbHeaderV3) : list Z :=
  DB_MAGIC ++ to_le 4 (DbHeaderV3.format_revision h) ++ to_le 8 (DbHeaderV3.iteration h) ++
  to_le 8 (DbHeaderV3.checkpoint_lsn h) ++ to_le 8 (DbHeaderV3.epoch h) ++ to_le 8 (DbHeaderV3.last_transaction_id h) ++
  to_le 8 (BlockRef.offset (DbHeaderV3.root h)) ++ to_le 4 (BlockRef.length (DbHeaderV3.root h)) ++
  to_le 4 (BlockRef.crc (DbHeaderV3.root h)) ++ to_le 8 (DbHeaderV3.node_count h) ++ to_le 8 (DbHeaderV3.edge_count h) ++
  to_le 8 (DbHeaderV3.timestamp_ms h).

Lemma db_fields_length h : length (db_fields h) = 80%nat.
Proof. unfold db_fields. by rewrite !length_app, !to_le_length. Qed.

Lemma db_encode_layout h : db_encode h = db_fields h ++ to_le 4 (hash (db_fields h)) ++ replicate (PAGE_BYTES - 84) 0.
Proof.
  unfold db_encode. set (z := replicate PAGE_BYTES 0). change z with ([] ++ z). subst z.
  do 12 (rewrite copy_at_zeros by (rewrite ?length_app, ?to_le_length; reflexivity)). cbv zeta.
  rewrite !(app_nil_l DB_MAGIC). rewrite <- !app_assoc.
  match goal with |- context [hash (take _ ?p)] => assert (E : p = db_fields h ++ replicate (PAGE_BYTES - 80) 0) end.
  { unfold db_fields. rewrite !to_le_length, <- !app_assoc. do 12 f_equal. }
  rewrite E. unfold DB_CRC_OFFSET. rewrite copy_at_zeros by (by rewrite db_fields_length).
  rewrite take_app_length' by (by rewrite db_fields_length). rewrite to_le_length, <- app_assoc. do 3 f_equal.
Qed.

Lemma db_encode_length h : length (db_encode h) = PAGE_BYTES.
Proof. rewrite db_encode_layout, !length_app, db_fields_length, to_le_length, length_replicate. reflexivity. Qed.

Lemma hash_u32 bytes : 0 ≤ hash bytes < 2 ^ 32.
Proof. apply hash_range. Qed.

Lemma db_decode_encode h : DbHeaderV3.ok h → db_decode (db_encode h) = Valid h.
Proof.
  intros (Hr & Hi & Hl & He & Ht & (Ho & Hn & Hc) & Hnc & Hec & Hts). unfold db_decode.
  rewrite db_encode_length, db_encode_layout. unfold DB_CRC_OFFSET.
  replace (take 80 _) with (db_fields h) by (symmetry; apply take_app_length'; by rewrite db_fields_length).
  assert (Hcrc : u32_at (db_fields h ++ to_le 4 (hash (db_fields h)) ++ replicate (PAGE_BYTES - 84) 0) 80 = hash (db_fields h)).
  { unfold u32_at. rewrite field_skip by (by rewrite db_fields_length). rewrite db_fields_length, Nat.sub_diag.
    rewrite field_here by (by rewrite to_le_length). apply from_to_le, hash_u32. }
  rewrite Hcrc, Z.eqb_refl. clear Hcrc. unfold db_fields. rewrite <- !app_assoc.
  set (rest := replicate _ 0). set (crc := to_le 4 (hash _)).
  change (bool_decide (take 4 (DB_MAGIC ++ ?l) = DB_MAGIC)) with true. cbn [negb orb].
  change (forallb (λ byte, byte =? 0) (DB_MAGIC ++ ?l)) with false.
  destruct h as [fr it cl ep lt [ro rl rc] nc ec ts].
  f_equal. f_equal; [read_field..| |read_field|read_field|read_field]. f_equal; read_field.
Qed.

(** ** The file header *)

Definition file_fields (h : FileHeaderV3) : list Z :=
  FILE_MAGIC ++ to_le 4 FORMAT_V3 ++ to_le 4 (FileHeaderV3.page_size h) ++
  to_le 4 (if FileHeaderV3.encrypted h then FLAG_ENCRYPTED else 0) ++ to_le 16 (FileHeaderV3.database_id h) ++
  to_le 8 (FileHeaderV3.creation_timestamp_ms h) ++ FileHeaderV3.creator_version h.

Lemma file_fields_length h : length (FileHeaderV3.creator_version h) = 32%nat → length (file_fields h) = 72%nat.
Proof. intros E. unfold file_fields. by rewrite !length_app, !to_le_length, E. Qed.

Lemma file_encode_layout h : length (FileHeaderV3.creator_version h) = 32%nat →
  FileHeaderV3.encode h = file_fields h ++ to_le 4 (hash (file_fields h)) ++ replicate (PAGE_BYTES - 76) 0.
Proof.
  intros Hv. unfold FileHeaderV3.encode. set (z := replicate PAGE_BYTES 0). change z with ([] ++ z). subst z.
  do 7 (rewrite copy_at_zeros by (rewrite ?length_app, ?to_le_length; reflexivity)). cbv zeta.
  rewrite !(app_nil_l FILE_MAGIC). rewrite <- !app_assoc.
  match goal with |- context [hash (take _ ?p)] => assert (E : p = file_fields h ++ replicate (PAGE_BYTES - 72) 0) end.
  { unfold file_fields. rewrite !to_le_length, Hv, <- !app_assoc. do 7 f_equal. }
  rewrite E. unfold FILE_CRC_OFFSET. rewrite copy_at_zeros by (by rewrite file_fields_length).
  rewrite take_app_length' by (by rewrite file_fields_length). rewrite to_le_length, <- app_assoc. do 3 f_equal.
Qed.

Lemma file_encode_length h : length (FileHeaderV3.creator_version h) = 32%nat → length (FileHeaderV3.encode h) = PAGE_BYTES.
Proof. intros E. rewrite file_encode_layout, !length_app, file_fields_length, to_le_length, length_replicate by done. reflexivity. Qed.

Lemma file_decode_encode h : FileHeaderV3.ok h → FileHeaderV3.decode (FileHeaderV3.encode h) = Ok h.
Proof.
  intros (Hp & Hid & Ht & Hv). unfold FileHeaderV3.decode. rewrite file_encode_layout by done.
  pose proof (file_fields_length h Hv) as Hl. rewrite !length_app, Hl, to_le_length, length_replicate.
  unfold FILE_CRC_OFFSET. replace (take 72 _) with (file_fields h) by (symmetry; by apply take_app_length').
  assert (Hcrc : u32_at (file_fields h ++ to_le 4 (hash (file_fields h)) ++ replicate (PAGE_BYTES - 76) 0) 72 = hash (file_fields h)).
  { unfold u32_at. rewrite field_skip by (by rewrite Hl). rewrite Hl, Nat.sub_diag.
    rewrite field_here by (by rewrite to_le_length). apply from_to_le, hash_u32. }
  rewrite Hcrc, Z.eqb_refl. clear Hcrc Hl. unfold file_fields. rewrite <- !app_assoc.
  set (rest := replicate _ 0). set (crc := to_le 4 (hash _)).
  change (bool_decide (slice 0 4 (FILE_MAGIC ++ ?l) = Some FILE_MAGIC)) with true. cbn [negb].
  assert (E1 : ∀ l, u32_at (FILE_MAGIC ++ to_le 4 FORMAT_V3 ++ l) 4 = FORMAT_V3) by reflexivity.
  rewrite E1. clear E1. rewrite Z.eqb_refl. cbn [negb]. set (flags := if FileHeaderV3.encrypted h then _ else _).
  assert (E2 : ∀ l, u32_at (FILE_MAGIC ++ to_le 4 FORMAT_V3 ++ to_le 4 (FileHeaderV3.page_size h) ++ l) 8 = PAGE_SIZE) by (by rewrite Hp).
  rewrite E2, Z.eqb_refl. clear E2. cbn [negb].
  assert (E3 : ∀ l, u32_at (FILE_MAGIC ++ to_le 4 FORMAT_V3 ++ to_le 4 (FileHeaderV3.page_size h) ++ to_le 4 flags ++ l) 12 = flags)
    by (intros l; subst flags; by destruct (FileHeaderV3.encrypted h)).
  rewrite !E3. clear E3. replace (negb (Z.land (Z.land flags _) _ =? 0)) with false by (subst flags; by destruct (FileHeaderV3.encrypted h)).
  destruct h as [ps en id ct cv]. cbn [FileHeaderV3.page_size FileHeaderV3.encrypted FileHeaderV3.creator_version] in *.
  subst ps flags. f_equal. f_equal; [by destruct en|read_field|read_field|].
  repeat (rewrite field_skip by (rewrite ?to_le_length; simpl; lia)). rewrite ?to_le_length. by apply field_here.
Qed.
End headers.
