(* ===== verification/Directory.v ===== *)
(** * The directory of an image

    Model of [src/crates/grafeo-storage/src/file/v3/directory.rs]: the entries
    that list the chunks of an image, the blocks that hold them, and the
    chain of blocks written last to first and read first to last. [place] is
    the closure that says where a block goes, with the state it changes;
    [read] is the closure that reads the bytes of a block. *)
From S2P Require Import Prelude Bytes PageAlloc Chunks FileHeaders.
Import PageRun.
Open Scope Z_scope.

Definition ENTRY_SIZE : nat := 48.
Definition BLOCK_HEADER_SIZE : nat := 32.
Definition MAX_BLOCK_SIZE : Z := 64 * 1024.
Definition ENTRIES_PER_BLOCK : Z := (MAX_BLOCK_SIZE - Z.of_nat BLOCK_HEADER_SIZE) / Z.of_nat ENTRY_SIZE.
Definition ENTRY_SECTION_OPTIONAL : Z := 1.
Definition ENTRY_CHUNK_OPTIONAL : Z := 2.
Definition ENTRY_INCOMPATIBLE_FLAGS : Z := 15.
Definition KNOWN_ENTRY_FLAGS : Z := Z.lor ENTRY_SECTION_OPTIONAL ENTRY_CHUNK_OPTIONAL.
Definition FLAGS_AT : nat := 44.
Definition NAMESPACE_AT : nat := 45.
Definition BLOCK_MAGIC : list Z := [71; 68; 73; 82].

(** ** Entries *)

Module DirectoryEntry.
Record t : Set := mk {
  section_type : SectionType;
  section_version : Z;
  meta : ChunkMeta;
  offset : Z;
  length : Z;
  crc : Z;
  flags : Z;
}.

#[global] Instance t_eq_dec : EqDecision t.
Proof. solve_decision. Defined.

Definition flags_for (s : SectionType) (k : ChunkKind) : Z :=
  let flags := 0 in
  let flags := if SectionType.is_optional s then Z.lor flags ENTRY_SECTION_OPTIONAL else flags in
  if ChunkKind.is_optional k then Z.lor flags ENTRY_CHUNK_OPTIONAL else flags.

Definition encode (e : t) : list Z :=
  let m := meta e in
  let out := replicate ENTRY_SIZE 0 in
  let out := copy_at 0 [SectionType.to_u8 (section_type e)] out in
  let out := copy_at 1 [section_version e] out in
  let out := copy_at 2 [ChunkKind.to_byte (ChunkMeta.kind m)] out in
  let out := copy_at 3 [ChunkMeta.codec m] out in
  let out := copy_at 4 (to_le 4 (ChunkMeta.graph_id m)) out in
  let out := copy_at 8 (to_le 4 (ChunkMeta.column_id m)) out in
  let out := copy_at 12 (to_le 4 (ChunkMeta.row_count m)) out in
  let out := copy_at 16 (to_le 8 (ChunkMeta.row_start m)) out in
  let out := copy_at 24 (to_le 8 (offset e)) out in
  let out := copy_at 32 (to_le 8 (length e)) out in
  let out := copy_at 40 (to_le 4 (crc e)) out in
  let out := copy_at FLAGS_AT [flags e] out in
  copy_at NAMESPACE_AT [ChunkNamespace.to_byte (ChunkMeta.namespace m)] out.

(** The pages of a stored chunk. *)
Definition run_of (offset length : Z) : PageRun := Run (offset / PAGE_SIZE) (for_bytes length).
Definition run (e : t) : PageRun := run_of (offset e) (length e).

Definition ok (e : t) : Prop :=
  is_byte (section_version e) ∧ ChunkMeta.ok (meta e) ∧ is_u64 (offset e) ∧ is_u64 (length e) ∧
  0 ≤ crc e < 2 ^ 32 ∧ is_byte (flags e).
End DirectoryEntry.
Abbreviation DirectoryEntry := DirectoryEntry.t.

Module SkippedEntry.
Record t : Set := mk { section_type : Z; kind : Z; flags : Z; offset : Z; length : Z }.
Definition run (e : t) : PageRun := DirectoryEntry.run_of (offset e) (length e).
End SkippedEntry.
Abbreviation SkippedEntry := SkippedEntry.t.

Inductive DecodedEntry : Set :=
  | Known (e : DirectoryEntry)
  | Skipped (e : SkippedEntry).

Inductive entry_error : Set :=
  | UnknownFlags (flags unknown : Z)
  | RequiredSection (type_byte : Z)
  | RequiredChunk (s : SectionType) (kind_byte : Z)
  | NoSuchNamespace (s : SectionType) (k : ChunkKind) (namespace_byte : Z).

Definition decode_entry (bytes : list Z) : result entry_error DecodedEntry :=
  let flags := byte_at bytes FLAGS_AT in
  let unknown := Z.land (Z.land flags ENTRY_INCOMPATIBLE_FLAGS) (Z.lxor 255 KNOWN_ENTRY_FLAGS) in
  if negb (unknown =? 0) then Err (UnknownFlags flags unknown) else
  let type_byte := byte_at bytes 0 in
  let kind_byte := byte_at bytes 2 in
  let skipped := Skipped (SkippedEntry.mk type_byte kind_byte flags (u64_at bytes 24) (u64_at bytes 32)) in
  match SectionType.from_u8 type_byte with
  | None => if negb (Z.land flags ENTRY_SECTION_OPTIONAL =? 0) then Ok skipped else Err (RequiredSection type_byte)
  | Some section_type =>
      match ChunkKind.from_byte kind_byte with
      | None => if negb (Z.land flags ENTRY_CHUNK_OPTIONAL =? 0) then Ok skipped
                else Err (RequiredChunk section_type kind_byte)
      | Some kind =>
          match ChunkNamespace.from_byte (byte_at bytes NAMESPACE_AT) with
          | None => Err (NoSuchNamespace section_type kind (byte_at bytes NAMESPACE_AT))
          | Some namespace =>
              Ok (Known (DirectoryEntry.mk section_type (byte_at bytes 1)
                    (ChunkMeta.mk kind namespace (byte_at bytes 3) (u32_at bytes 4) (u32_at bytes 8)
                       (u64_at bytes 16) (u32_at bytes 12))
                    (u64_at bytes 24) (u64_at bytes 32) (u32_at bytes 40) flags))
          end
      end
  end.

(** ** Blocks *)

(** [slice.chunks(n)]; [rounds] is at least the number of chunks. *)
Fixpoint chunks {A} (rounds n : nat) (l : list A) : list (list A) :=
  match rounds, l with
  | _, [] => []
  | O, _ => [l]
  | S rounds', _ => take n l :: chunks rounds' n (drop n l)
  end.

Inductive block_error : Set := TooManyEntries | BlockTooLarge.

Section directory.
Context `{FileEnv}.

Definition encode_block (entries : list (list Z)) (next : BlockRef) : result block_error (list Z) :=
  if u32_max <? Z.of_nat (length entries) then Err TooManyEntries else
  let header := replicate BLOCK_HEADER_SIZE 0 in
  let header := copy_at 0 BLOCK_MAGIC header in
  let header := copy_at 4 (to_le 4 (Z.of_nat (length entries))) header in
  let header := copy_at 8 (to_le 8 (BlockRef.offset next)) header in
  let header := copy_at 16 (to_le 4 (BlockRef.length next)) header in
  let header := copy_at 20 (to_le 4 (BlockRef.crc next)) header in
  Ok (header ++ concat entries).

Section place.
Context {S E : Type} (place : nat → S → result E Z * S) (refuse : block_error → E).

(** The loop of [encode_blocks_raw] over the groups, last to first; the
    blocks come out in the order of the chain. *)
Fixpoint place_blocks (groups : list (list (list Z))) (next : BlockRef) (blocks : list (Z * list Z)) (s : S)
  : result E (BlockRef * list (Z * list Z)) * S :=
  match groups with
  | [] => (Ok (next, blocks), s)
  | group :: groups =>
      match encode_block group next with
      | Err e => (Err (refuse e), s)
      | Ok bytes =>
          match place (length bytes) s with
          | (Err e, s) => (Err e, s)
          | (Ok offset, s) =>
              if u32_max <? Z.of_nat (length bytes) then (Err (refuse BlockTooLarge), s) else
              let next := BlockRef.mk offset (Z.of_nat (length bytes)) (hash bytes) in
              place_blocks groups next ((offset, bytes) :: blocks) s
          end
      end
  end.

Definition groups_of (entries : list (list Z)) : list (list (list Z)) :=
  match entries with
  | [] => [[]]
  | _ => chunks (length entries) (Z.to_nat ENTRIES_PER_BLOCK) entries
  end.

Definition encode_blocks_raw (entries : list (list Z)) (s : S) : result E (BlockRef * list (Z * list Z)) * S :=
  place_blocks (reverse (groups_of entries)) BlockRef.default_ [] s.
End place.

(** ** The chain *)

Inductive chain_error (R : Type) : Type :=
  | Revisits (offset : Z)
  | NotAligned (offset : Z)
  | BeforeData (offset : Z)
  | InvalidLength (offset length : Z)
  | ReadFailed (e : R)
  | ReadLength (offset : Z) (read : nat) (expected : Z)
  | BlockChecksum (offset : Z)
  | BadMagic (offset : Z)
  | BadCount (offset count : Z) (bytes : nat)
  | InBlock (offset : Z) (e : entry_error).

Definition check_pointer {R} (pointer : BlockRef) : result (chain_error R) unit :=
  let offset := BlockRef.offset pointer in
  let length := BlockRef.length pointer in
  if negb (offset mod PAGE_SIZE =? 0) then Err (NotAligned R offset)
  else if offset <? DATA_START_PAGE * PAGE_SIZE then Err (BeforeData R offset)
  else if negb ((Z.of_nat BLOCK_HEADER_SIZE <=? length) && (length <=? MAX_BLOCK_SIZE))
          || negb ((length - Z.of_nat BLOCK_HEADER_SIZE) mod Z.of_nat ENTRY_SIZE =? 0)
  then Err (InvalidLength R offset length)
  else Ok tt.

(** The slots of a block decoded one after the other. *)
Fixpoint decode_slots {R} (offset : Z) (slots : list (list Z))
  : result (chain_error R) (list DirectoryEntry * list SkippedEntry) :=
  match slots with
  | [] => Ok ([], [])
  | slot :: slots =>
      match decode_entry slot with
      | Err e => Err (InBlock R offset e)
      | Ok decoded =>
          '(entries, skipped) ← decode_slots offset slots;
          match decoded with
          | Known e => Ok (e :: entries, skipped)
          | Skipped e => Ok (entries, e :: skipped)
          end
      end
  end.

(** What one round of the loop makes of the bytes of the block. *)
Definition decode_block {R} (pointer : BlockRef) (bytes : list Z)
  : result (chain_error R) (list DirectoryEntry * list SkippedEntry * BlockRef) :=
  let offset := BlockRef.offset pointer in
  if negb (Z.of_nat (length bytes) =? BlockRef.length pointer)
  then Err (ReadLength R offset (length bytes) (BlockRef.length pointer))
  else if negb (hash bytes =? BlockRef.crc pointer) then Err (BlockChecksum R offset)
  else if negb (bool_decide (take 4 bytes = BLOCK_MAGIC)) then Err (BadMagic R offset)
  else
    let count := u32_at bytes 4 in
    if (ENTRIES_PER_BLOCK <? count)
       || negb (Z.of_nat BLOCK_HEADER_SIZE + count * Z.of_nat ENTRY_SIZE =? Z.of_nat (length bytes))
    then Err (BadCount R offset count (length bytes))
    else
      '(entries, skipped) ← decode_slots offset (chunks (length bytes) ENTRY_SIZE (drop BLOCK_HEADER_SIZE bytes));
      Ok (entries, skipped, BlockRef.mk (u64_at bytes 8) (u32_at bytes 16) (u32_at bytes 20)).

Section chain.
Context {R : Type} (overhead : Z) (read : Z → Z → result R (list Z)).

(** The loop of [decode_chain]; [None] when the rounds run out. *)
Fixpoint follow_chain (rounds : nat) (pointer : BlockRef) (visited : gset Z)
    (entries : list DirectoryEntry) (skipped : list SkippedEntry) (runs : list PageRun)
  : option (result (chain_error R) (list DirectoryEntry * list SkippedEntry * list PageRun)) :=
  match rounds with
  | O => None
  | S rounds =>
      let offset := BlockRef.offset pointer in
      if decide (offset ∈ visited) then Some (Err (Revisits R offset)) else
      match check_pointer pointer with
      | Err e => Some (Err e)
      | Ok _ =>
          match read offset (BlockRef.length pointer) with
          | Err e => Some (Err (ReadFailed R e))
          | Ok bytes =>
              match decode_block pointer bytes with
              | Err e => Some (Err e)
              | Ok (more, more_skipped, next) =>
                  let entries := entries ++ more in
                  let skipped := skipped ++ more_skipped in
                  let runs := runs ++ [Run (offset / PAGE_SIZE) (for_bytes (BlockRef.length pointer + overhead))] in
                  if BlockRef.length next =? 0 then Some (Ok (entries, skipped, runs))
                  else follow_chain rounds next ({[offset]} ∪ visited) entries skipped runs
              end
          end
      end
  end.

Definition decode_chain (rounds : nat) (root : BlockRef)
  : option (result (chain_error R) (list DirectoryEntry * list SkippedEntry * list PageRun)) :=
  if BlockRef.length root =? 0 then Some (Ok ([], [], [])) else follow_chain rounds root ∅ [] [] [].
End chain.
End directory.
Arguments Revisits {R}.
Arguments NotAligned {R}.
Arguments BeforeData {R}.
Arguments InvalidLength {R}.
Arguments ReadFailed {R}.
Arguments ReadLength {R}.
Arguments BlockChecksum {R}.
Arguments BadMagic {R}.
Arguments BadCount {R}.
Arguments InBlock {R}.

(** ** The directory of an image: what is written reads back *)
Import PageRun.
Open Scope Z_scope.

(** ** Entries *)

Definition entry_fields (e : DirectoryEntry) : list Z :=
  let m := DirectoryEntry.meta e in
  [SectionType.to_u8 (DirectoryEntry.section_type e)] ++ [DirectoryEntry.section_version e] ++
  [ChunkKind.to_byte (ChunkMeta.kind m)] ++ [ChunkMeta.codec m] ++ to_le 4 (ChunkMeta.graph_id m) ++
  to_le 4 (ChunkMeta.column_id m) ++ to_le 4 (ChunkMeta.row_count m) ++ to_le 8 (ChunkMeta.row_start m) ++
  to_le 8 (DirectoryEntry.offset e) ++ to_le 8 (DirectoryEntry.length e) ++ to_le 4 (DirectoryEntry.crc e) ++
  [DirectoryEntry.flags e] ++ [ChunkNamespace.to_byte (ChunkMeta.namespace m)].

Lemma encode_layout e : DirectoryEntry.encode e = entry_fields e ++ [0; 0].
Proof.
  unfold DirectoryEntry.encode. set (z := replicate ENTRY_SIZE 0). change z with ([] ++ z). subst z.
  do 13 (rewrite copy_at_zeros by (rewrite ?length_app, ?to_le_length; reflexivity)). cbv zeta.
  unfold entry_fields. rewrite !to_le_length, <- !app_assoc. reflexivity.
Qed.

Lemma entry_encode_length e : length (DirectoryEntry.encode e) = ENTRY_SIZE.
Proof. rewrite encode_layout. unfold entry_fields. by rewrite !length_app, !to_le_length. Qed.

(** A writer's entry: the flags are those of its section type and kind. *)
Definition entry_ok (e : DirectoryEntry) : Prop :=
  DirectoryEntry.ok e ∧
  DirectoryEntry.flags e = DirectoryEntry.flags_for (DirectoryEntry.section_type e) (ChunkMeta.kind (DirectoryEntry.meta e)).

Lemma single_byte b : is_byte b → from_le [b] = b.
Proof. unfold is_byte. simpl. lia. Qed.

Lemma decode_encode_entry e : entry_ok e → decode_entry (DirectoryEntry.encode e) = Ok (Known e).
Proof.
  intros [(Hv & (Hc & Hg & Hcol & Hrs & Hrc) & Ho & Hl & Hcrc & _) Hf].
  pose proof (SectionType.section_type_byte (DirectoryEntry.section_type e)) as Hs.
  pose proof (ChunkKind.kind_byte (ChunkMeta.kind (DirectoryEntry.meta e))) as Hk.
  pose proof (ChunkNamespace.namespace_byte (ChunkMeta.namespace (DirectoryEntry.meta e))) as Hn.
  unfold decode_entry. rewrite encode_layout. unfold entry_fields, FLAGS_AT, NAMESPACE_AT. rewrite <- !app_assoc, Hf.
  set (l := _ ++ _).
  assert (Ef : byte_at l 44 = 0) by (subst l; read_field). rewrite Ef. clear Ef. cbn [Z.land Z.eqb negb].
  assert (Es : byte_at l 0 = SectionType.to_u8 (DirectoryEntry.section_type e)) by (subst l; read_field; by apply single_byte).
  assert (Ek : byte_at l 2 = ChunkKind.to_byte (ChunkMeta.kind (DirectoryEntry.meta e))) by (subst l; read_field; by apply single_byte).
  assert (En : byte_at l 45 = ChunkNamespace.to_byte (ChunkMeta.namespace (DirectoryEntry.meta e))) by (subst l; read_field; by apply single_byte).
  rewrite Es, Ek, En, SectionType.section_type_from_to, ChunkKind.kind_from_to, ChunkNamespace.namespace_from_to. clear Es Ek En.
  destruct e as [st sv [kd ns cd gi ci rs rc] off len crc fl].
  cbn [DirectoryEntry.section_type DirectoryEntry.flags DirectoryEntry.meta ChunkMeta.kind ChunkMeta.namespace] in *. subst fl.
  do 2 f_equal. f_equal; [subst l; read_field; by apply single_byte| |subst l; read_field..].
  f_equal; [subst l; read_field; by apply single_byte|subst l; read_field..].
Qed.

(** What a decoded entry of bytes holds fits its fields. *)
Lemma decode_entry_ok bytes e : Forall is_byte bytes → decode_entry bytes = Ok (Known e) → DirectoryEntry.ok e.
Proof.
  intros Hb Hd. assert (H1 : ∀ i, is_byte (byte_at bytes i)).
  { intros i. unfold byte_at, is_byte. pose proof (from_le_bound _ (field_bytes i 1 bytes Hb)) as Hr. split; [apply Hr|].
    eapply Z.lt_le_trans; [apply Hr|]. assert (length (field i 1 bytes) ≤ 1)%nat by apply firstn_le_length.
    change 256 with (256 ^ 1) at 2. apply Z.pow_le_mono_r; lia. }
  unfold decode_entry in Hd. repeat case_match; simplify_eq. unfold DirectoryEntry.ok, ChunkMeta.ok. simpl.
  split_and!; try apply H1; try apply u32_at_range; try apply u64_at_range; done.
Qed.

(** ** Blocks *)

Section blocks.
Context `{FileEnv}.

Lemma chunks_concat n (groups : list (list Z)) rounds : (0 < n)%nat → Forall (λ g, length g = n) groups →
  (length groups ≤ rounds)%nat → chunks rounds n (concat groups) = groups.
Proof.
  intros Hn. revert rounds. induction groups as [|g groups IH]; intros rounds Hg Hr.
  - by destruct rounds.
  - inversion_clear Hg as [|? ? Hlg Hg']. simpl in Hr. destruct rounds as [|rounds]; [lia|]. simpl.
    destruct (g ++ concat groups) as [|x l] eqn:E.
    { apply (f_equal length) in E. rewrite length_app in E. simpl in E. lia. }
    rewrite <- E, <- Hlg, take_app_length, drop_app_length, Hlg. f_equal. apply IH; [done|lia].
Qed.

Lemma chunks_all {A} rounds n (l : list A) : concat (chunks rounds n l) = l.
Proof.
  revert l. induction rounds as [|rounds IH]; intros [|x l]; simpl; [done|by rewrite app_nil_r|done|].
  destruct n as [|n]; simpl; [by rewrite IH|]. rewrite IH. by rewrite take_drop.
Qed.

Lemma chunks_lengths {A} rounds n (l : list A) : (length l ≤ rounds)%nat → (0 < n)%nat →
  Forall (λ g, (length g ≤ n)%nat) (chunks rounds n l).
Proof.
  revert l. induction rounds as [|rounds IH]; intros [|x l] Hl Hn; simpl in *; try constructor; try lia.
  - rewrite length_take. lia.
  - apply IH; [|done]. rewrite length_drop. simpl. lia.
Qed.

Lemma chunks_bytes rounds n l : Forall is_byte l → Forall (Forall is_byte) (chunks rounds n l).
Proof.
  revert l. induction rounds as [|rounds IH]; intros [|x l] Hl; simpl; [constructor|by apply Forall_singleton|constructor|].
  apply Forall_cons. split; [by apply Forall_take|by apply IH, Forall_drop].
Qed.

Definition block_header (n : nat) (next : BlockRef) : list Z :=
  BLOCK_MAGIC ++ to_le 4 (Z.of_nat n) ++ to_le 8 (BlockRef.offset next) ++ to_le 4 (BlockRef.length next) ++
  to_le 4 (BlockRef.crc next) ++ replicate 8 0.

Lemma block_header_length n next : length (block_header n next) = BLOCK_HEADER_SIZE.
Proof. unfold block_header. by rewrite !length_app, !to_le_length. Qed.

Lemma encode_block_layout entries next bytes : encode_block entries next = Ok bytes →
  bytes = block_header (length entries) next ++ concat entries.
Proof.
  unfold encode_block. destruct (u32_max <? Z.of_nat (length entries)); [done|]. intros Heq.
  assert (∀ A B (x y : B), @Ok A B x = Ok y → x = y) as Hinj by (by intros ???? [= ->]). apply Hinj in Heq as <-.
  reflexivity.
Qed.

Lemma encode_block_total entries next : Z.of_nat (length entries) ≤ ENTRIES_PER_BLOCK →
  ∃ bytes, encode_block entries next = Ok bytes.
Proof.
  intros Hl. unfold encode_block. destruct (Z.ltb_spec u32_max (Z.of_nat (length entries))) as [Hlt|]; [|by eexists].
  change ENTRIES_PER_BLOCK with 1364 in Hl. unfold u32_max in Hlt. lia.
Qed.

Lemma concat_entries_length (es : list DirectoryEntry) :
  length (concat (map DirectoryEntry.encode es)) = (length es * ENTRY_SIZE)%nat.
Proof. induction es as [|e es IH]; [done|]. cbn [map concat]. rewrite length_app, entry_encode_length, IH. reflexivity. Qed.

Lemma decode_slots_encoded {R} offset es : Forall entry_ok es →
  @decode_slots R offset (map DirectoryEntry.encode es) = Ok (es, []).
Proof. induction 1 as [|e es He _ IH]; [done|]. cbn [map decode_slots]. rewrite decode_encode_entry by done. by rewrite IH. Qed.

Lemma decode_encode_block {R} es next bytes offset : Forall entry_ok es → BlockRef.ok next →
  Z.of_nat (length es) ≤ ENTRIES_PER_BLOCK → encode_block (map DirectoryEntry.encode es) next = Ok bytes →
  @decode_block _ R (BlockRef.mk offset (Z.of_nat (length bytes)) (hash bytes)) bytes = Ok (es, [], next) ∧
  Z.of_nat (length bytes) = 32 + 48 * Z.of_nat (length es).
Proof.
  intros Hes (Hno & Hnl & Hnc) Hlen Hb. apply encode_block_layout in Hb. rewrite length_map in Hb.
  assert (Hlb : length bytes = (32 + length es * 48)%nat).
  { rewrite Hb, length_app, block_header_length, concat_entries_length. reflexivity. }
  split; [|lia]. unfold decode_block. cbn [BlockRef.offset BlockRef.length BlockRef.crc]. rewrite !Z.eqb_refl. cbn [negb].
  change ENTRIES_PER_BLOCK with 1364 in *.
  assert (Em : take 4 bytes = BLOCK_MAGIC) by (by rewrite Hb).
  assert (Ec : u32_at bytes 4 = Z.of_nat (length es)).
  { rewrite Hb. unfold block_header. rewrite <- !app_assoc. read_field. }
  assert (En : BlockRef.mk (u64_at bytes 8) (u32_at bytes 16) (u32_at bytes 20) = next).
  { rewrite Hb. unfold block_header. rewrite <- !app_assoc. destruct next. f_equal; read_field. }
  rewrite Em, bool_decide_true by done. rewrite Ec, En. cbn [negb].
  destruct (Z.ltb_spec 1364 (Z.of_nat (length es))); [lia|].
  assert (E : Z.of_nat BLOCK_HEADER_SIZE + Z.of_nat (length es) * Z.of_nat ENTRY_SIZE = Z.of_nat (length bytes)).
  { rewrite Hlb. unfold BLOCK_HEADER_SIZE, ENTRY_SIZE. lia. }
  rewrite E, Z.eqb_refl. cbn [orb negb]. 
  assert (Ed : drop BLOCK_HEADER_SIZE bytes = concat (map DirectoryEntry.encode es)).
  { rewrite Hb. apply drop_app_length'. symmetry. apply block_header_length. }
  rewrite Ed.
  rewrite chunks_concat; [by rewrite decode_slots_encoded|unfold ENTRY_SIZE; lia| |].
  - apply Forall_map, Forall_true. apply entry_encode_length.
  - rewrite length_map, Hlb. lia.
Qed.
End blocks.
