(* ===== verification/ImageFile.v ===== *)
(** * The storage file and the reader of an image

    Model of [src/crates/grafeo-storage/src/file/v3/reader.rs] and [cipher.rs]
    over a file. A file is the list of its bytes; a [Disk] keeps what reads
    see, what the last sync made durable, and the changes since, of which a
    power loss keeps any part. [faults] says how the next writes, syncs and
    cuts fail: a failing write leaves a prefix of its bytes. [bad] says which
    reads fail. *)
From S2P Require Import Prelude Bytes PageAlloc Date Chunks FileHeaders Directory.
Import PageRun.
Open Scope Z_scope.

(** ** Files *)

(** [write_all_at]: bytes past the end of the file are zero up to [offset]. *)
Definition write_bytes (offset : Z) (bytes file : list Z) : list Z :=
  match bytes with
  | [] => file
  | _ => let at_ := Z.to_nat offset in copy_at at_ bytes (file ++ replicate (at_ - length file) 0)
  end.

Inductive change : Type :=
  | Wrote (offset : Z) (bytes : list Z)
  | Cut (length : Z).

Record Disk := mkDisk {
  view : list Z;
  durable : list Z;
  pending : list change;
  faults : list (option nat);
  drawn : nat;
}.

Inductive read_error : Set := EndsWithin (offset length : Z) | ReadFault (offset : Z).

Definition read_at (bad : Z → bool) (file : list Z) (offset length : Z) : result read_error (list Z) :=
  if length =? 0 then Ok []
  else if bad offset then Err (ReadFault offset)
  else if offset + length <=? Z.of_nat (List.length file) then Ok (field (Z.to_nat offset) (Z.to_nat length) file)
  else Err (EndsWithin offset length).

(** The fault of the next operation, and the disk for the ones after it. *)
Definition next_fault (d : Disk) : option nat * Disk :=
  match faults d with
  | [] => (None, d)
  | f :: fs => (f, mkDisk (view d) (durable d) (pending d) fs (drawn d))
  end.

Inductive io_error : Set := WriteFault (offset : Z) | SyncFault | LengthFault.

Definition write_at (offset : Z) (bytes : list Z) (d : Disk) : result io_error unit * Disk :=
  let '(fault, d) := next_fault d in
  let after kept := mkDisk (write_bytes offset kept (view d)) (durable d) (pending d ++ [Wrote offset bytes]) (faults d) (drawn d) in
  match fault with
  | None => (Ok tt, after bytes)
  | Some n => (Err (WriteFault offset), after (take n bytes))
  end.

Definition sync_all (d : Disk) : result io_error unit * Disk :=
  let '(fault, d) := next_fault d in
  match fault with
  | None => (Ok tt, mkDisk (view d) (view d) [] (faults d) (drawn d))
  | Some _ => (Err SyncFault, d)
  end.

Definition set_len (length : Z) (d : Disk) : result io_error unit * Disk :=
  let '(fault, d) := next_fault d in
  match fault with
  | None => (Ok tt, mkDisk (resize (Z.to_nat length) 0 (view d)) (durable d) (pending d ++ [Cut length]) (faults d) (drawn d))
  | Some _ => (Err LengthFault, d)
  end.

(** ** Associated data *)

(** The letters of "grafeo-directory:" and "grafeo-chunk:". *)
Definition directory_prefix : list Z := [103; 114; 97; 102; 101; 111; 45; 100; 105; 114; 101; 99; 116; 111; 114; 121; 58].
Definition chunk_prefix : list Z := [103; 114; 97; 102; 101; 111; 45; 99; 104; 117; 110; 107; 58].

Definition directory_aad (offset : Z) : list Z := directory_prefix ++ Date.decimal 20 offset.

Definition chunk_aad_parts (section_type kind namespace graph_id column_id row_start : Z) : list Z :=
  chunk_prefix ++ Date.decimal 20 section_type ++ 58 :: Date.decimal 20 kind ++ 58 :: Date.decimal 20 namespace ++ 58 ::
  Date.decimal 20 graph_id ++ 58 :: Date.decimal 20 column_id ++ 58 :: Date.decimal 20 row_start.

Definition chunk_aad_for (s : SectionType) (m : ChunkMeta) : list Z :=
  chunk_aad_parts (SectionType.to_u8 s) (ChunkKind.to_byte (ChunkMeta.kind m))
    (ChunkNamespace.to_byte (ChunkMeta.namespace m)) (ChunkMeta.graph_id m) (ChunkMeta.column_id m) (ChunkMeta.row_start m).

Definition chunk_aad (e : DirectoryEntry) : list Z :=
  chunk_aad_for (DirectoryEntry.section_type e) (DirectoryEntry.meta e).

(** ** The reader *)

Inductive block_read_error : Set :=
  | BlockUnread (offset : Z) (e : read_error)
  | RootNotDecrypted (offset : Z)
  | BlockNotDecrypted (offset : Z).

Inductive image_error : Type :=
  | ChainError (e : chain_error block_read_error)
  | TwoVersions (e : DirectoryEntry) (version : Z)
  | TwoChunks (e : DirectoryEntry)
  | Misplaced (offset length file_length : Z)
  | SharedPages (e : PageAllocator.alloc_error)
  | OutOfRange (index : nat)
  | ChunkUnread (e : read_error)
  | ChunkChecksum (offset : Z)
  | ChunkNotDecrypted (offset : Z)
  | Endless.

Abbreviation sections_seen := (gmap SectionType (Z * gset (Z * Z * Z * Z * Z))) (only parsing).

(** [check_sections], from the sections seen so far. *)
Fixpoint check_entries (seen : sections_seen) (entries : list DirectoryEntry) : result image_error sections_seen :=
  match entries with
  | [] => Ok seen
  | e :: entries =>
      let s := DirectoryEntry.section_type e in
      let '(version, identities) := default (DirectoryEntry.section_version e, ∅) (seen !! s) in
      if negb (DirectoryEntry.section_version e =? version) then Err (TwoVersions e version)
      else match ChunkIdentities.insert (DirectoryEntry.meta e) identities with
           | None => Err (TwoChunks e)
           | Some identities => check_entries (<[s := (version, identities)]> seen) entries
           end
  end.

Definition check_sections (entries : list DirectoryEntry) : result image_error unit :=
  _ ← check_entries ∅ entries; Ok tt.

Definition check_placement (file_length offset length : Z) : result image_error unit :=
  if length =? 0 then Ok tt
  else if negb (offset mod PAGE_SIZE =? 0) || (offset <? DATA_START_PAGE * PAGE_SIZE)
          || match checked_add64 offset length with None => true | Some end_ => file_length <? end_ end
  then Err (Misplaced offset length file_length)
  else Ok tt.

Fixpoint check_all {A} (check : A → result image_error unit) (l : list A) : result image_error unit :=
  match l with
  | [] => Ok tt
  | x :: l => _ ← check x; check_all check l
  end.

Record ImageReader := mkReader {
  entries : list DirectoryEntry;
  skipped : list SkippedEntry;
  directory_runs : list PageRun;
}.

Definition used_runs (r : ImageReader) : list PageRun :=
  filter (λ run, 0 < count run) (map DirectoryEntry.run (entries r) ++ map SkippedEntry.run (skipped r))
  ++ directory_runs r.

Section reader.
Context `{FileEnv} (cipher : option Aes256Gcm).

Definition stored_extra : nat := match cipher with Some _ => ENCRYPTION_OVERHEAD | None => 0 end.

Section reads.
Variable bad : Z → bool.

Definition read_block (file : list Z) (root : BlockRef) (offset length : Z) : result block_read_error (list Z) :=
  match read_at bad file offset (length + Z.of_nat stored_extra) with
  | Err e => Err (BlockUnread offset e)
  | Ok stored =>
      match cipher with
      | None => Ok stored
      | Some cipher =>
          match decrypt_with cipher stored (directory_aad offset) with
          | Some bytes => Ok bytes
          | None => if offset =? BlockRef.offset root then Err (RootNotDecrypted offset) else Err (BlockNotDecrypted offset)
          end
      end
  end.

(** [ImageReader::open]. A block the chain reads starts in a page of the file
    of its own, so there are fewer than [length file + 1] rounds. *)
Definition open (file : list Z) (root : BlockRef) : result image_error ImageReader :=
  match decode_chain (Z.of_nat stored_extra) (read_block file root) (S (length file)) root with
  | None => Err Endless
  | Some (Err e) => Err (ChainError e)
  | Some (Ok (entries, skipped, runs)) =>
      let file_length := Z.of_nat (length file) in
      _ ← check_sections entries;
      _ ← check_all (λ e, check_placement file_length (DirectoryEntry.offset e) (DirectoryEntry.length e)) entries;
      _ ← check_all (λ e, check_placement file_length (SkippedEntry.offset e) (SkippedEntry.length e)) skipped;
      let reader := mkReader entries skipped runs in
      match PageAllocator.from_used (used_runs reader) with
      | Err e => Err (SharedPages e)
      | Ok _ => Ok reader
      end
  end.

(** The chunks of one section, with the version they carry. *)
Definition section (r : ImageReader) (s : SectionType) : option (list DirectoryEntry * Z) :=
  match filter (λ e, DirectoryEntry.section_type e = s) (entries r) with
  | [] => None
  | first :: rest => Some (first :: rest, DirectoryEntry.section_version first)
  end.

(** [SectionChunks::stored_bytes] and [fetch] on the entries of a section. *)
Definition stored_bytes (file : list Z) (chunks : list DirectoryEntry) (index : nat) : result image_error (list Z) :=
  match chunks !! index with
  | None => Err (OutOfRange index)
  | Some e =>
      match read_at bad file (DirectoryEntry.offset e) (DirectoryEntry.length e) with
      | Err e => Err (ChunkUnread e)
      | Ok stored =>
          if negb (hash stored =? DirectoryEntry.crc e) then Err (ChunkChecksum (DirectoryEntry.offset e)) else Ok stored
      end
  end.

Definition fetch (file : list Z) (chunks : list DirectoryEntry) (index : nat) : result image_error (list Z) :=
  match chunks !! index with
  | None => Err (OutOfRange index)
  | Some e =>
      if DirectoryEntry.length e =? 0 then Ok []
      else
        match read_at bad file (DirectoryEntry.offset e) (DirectoryEntry.length e) with
        | Err e => Err (ChunkUnread e)
        | Ok stored =>
            if negb (hash stored =? DirectoryEntry.crc e) then Err (ChunkChecksum (DirectoryEntry.offset e))
            else match cipher with
                 | None => Ok stored
                 | Some cipher =>
                     match decrypt_with cipher stored (chunk_aad e) with
                     | Some plain => Ok plain
                     | None => Err (ChunkNotDecrypted (DirectoryEntry.offset e))
                     end
                 end
        end
  end.

Definition stored_length (chunks : list DirectoryEntry) (index : nat) : result image_error Z :=
  match chunks !! index with
  | None => Err (OutOfRange index)
  | Some e => Ok (DirectoryEntry.length e)
  end.
End reads.
End reader.

(** ** The storage file and the reader of an image: lemmas

    What a write changes, that an image depends on its own pages only, and
    that following a directory ends. *)
Import PageRun.
Open Scope Z_scope.

(** ** Writes *)

Section write_bytes.
Implicit Types (f bs : list Z) (i : nat).

Lemma write_bytes_length o bs f : bs ≠ [] → 0 ≤ o →
  length (write_bytes o bs f) = Nat.max (length f) (Z.to_nat o + length bs).
Proof.
  intros Hne Ho. destruct bs as [|b bs']; [done|]. unfold write_bytes, copy_at. set (bs := b :: bs').
  rewrite !length_app, length_take, length_drop, !length_app, length_replicate. lia.
Qed.

Lemma write_bytes_inside o bs f i : 0 ≤ o → (Z.to_nat o ≤ i < Z.to_nat o + length bs)%nat →
  write_bytes o bs f !! i = bs !! (i - Z.to_nat o)%nat.
Proof.
  intros Ho Hi. destruct bs as [|b bs']; [simpl in Hi; lia|]. unfold write_bytes, copy_at. set (bs := b :: bs') in *.
  assert (Hl : length (take (Z.to_nat o) (f ++ replicate (Z.to_nat o - length f) 0)) = Z.to_nat o).
  { rewrite length_take, length_app, length_replicate. lia. }
  rewrite lookup_app_r by lia. rewrite Hl. apply lookup_app_l. lia.
Qed.

Lemma write_bytes_outside o bs f i x : 0 ≤ o → (i < Z.to_nat o ∨ Z.to_nat o + length bs ≤ i)%nat →
  f !! i = Some x → write_bytes o bs f !! i = Some x.
Proof.
  intros Ho Hi Hx. destruct bs as [|b bs']; [done|]. unfold write_bytes, copy_at. set (bs := b :: bs') in *.
  set (g := f ++ replicate _ 0). assert (Hg : g !! i = Some x) by (by apply lookup_app_l_Some).
  assert (Hl : length (take (Z.to_nat o) g) = Z.to_nat o).
  { subst g. rewrite length_take, length_app, length_replicate. lia. }
  destruct Hi as [Hi|Hi].
  - rewrite lookup_app_l by lia. by rewrite lookup_take_lt.
  - rewrite lookup_app_r by lia. rewrite lookup_app_r by lia. rewrite lookup_drop. rewrite <- Hg. f_equal. lia.
Qed.

Lemma write_bytes_field o bs f : 0 ≤ o → field (Z.to_nat o) (length bs) (write_bytes o bs f) = bs.
Proof.
  intros Ho. apply list_eq. intros i. unfold field. destruct (decide (i < length bs)%nat) as [Hi|Hi].
  - rewrite lookup_take_lt, lookup_drop by done. rewrite write_bytes_inside by lia. f_equal. lia.
  - rewrite lookup_take_ge by lia. symmetry. apply lookup_ge_None. lia.
Qed.
End write_bytes.

(** ** Agreement on pages *)

Definition page_at (i : nat) : Z := Z.of_nat i / PAGE_SIZE.

(** [f'] has every byte [f] has in the pages of [runs]. *)
Definition agree (runs : list PageRun) (f f' : list Z) : Prop :=
  ∀ i x, (0 < holders (page_at i) runs)%nat → f !! i = Some x → f' !! i = Some x.

#[export] Instance agree_preorder runs : PreOrder (agree runs).
Proof. split; [by intros f i x|]. intros f g h Hfg Hgh i x Hi Hx. eauto. Qed.

Lemma agree_mono runs runs' f f' : (∀ p, (0 < holders p runs')%nat → (0 < holders p runs)%nat) → agree runs f f' → agree runs' f f'.
Proof. intros Hsub Ha i x Hi Hx. eauto. Qed.

Definition no_fault (offset : Z) : bool := false.

(** The bytes of a read lie in the pages of [runs]. *)
Definition covered (runs : list PageRun) (offset length : Z) : Prop :=
  ∀ p, offset ≤ p < offset + length → (0 < holders (p / PAGE_SIZE) runs)%nat.

Lemma read_at_agree bad f f' runs offset length bytes : agree runs f f' → 0 ≤ offset → 0 ≤ length → covered runs offset length →
  read_at bad f offset length = Ok bytes → read_at no_fault f' offset length = Ok bytes.
Proof.
  intros Ha Ho Hlen0 Hc Hr. unfold read_at in *. destruct (Z.eqb_spec length 0); [done|]. destruct (bad offset); [done|]. cbn [no_fault].
  destruct (Z.leb_spec (offset + length) (Z.of_nat (List.length f))) as [Hle|]; [|done]. injection Hr as <-.
  assert (Hin : ∀ i, (i < Z.to_nat length)%nat → f' !! (Z.to_nat offset + i)%nat = f !! (Z.to_nat offset + i)%nat).
  { intros i Hi. destruct (lookup_lt_is_Some_2 f (Z.to_nat offset + i)) as [x Hx]; [lia|]. rewrite Hx. apply Ha; [|done].
    unfold page_at. apply Hc. lia. }
  assert (Hlen : offset + length ≤ Z.of_nat (List.length f')).
  { specialize (Hin (Z.to_nat length - 1)%nat ltac:(lia)). destruct (lookup_lt_is_Some_2 f (Z.to_nat offset + (Z.to_nat length - 1))) as [x Hx]; [lia|].
    rewrite Hx in Hin. apply lookup_lt_Some in Hin. lia. }
  rewrite (proj2 (Z.leb_le _ _)) by lia. f_equal. apply list_eq. intros i. unfold field.
  destruct (decide (i < Z.to_nat length)%nat) as [Hi|Hi]; [|by rewrite !lookup_take_ge by lia].
  rewrite !lookup_take_lt, !lookup_drop by done. by rewrite Hin.
Qed.

Lemma holds_run_of offset length p : offset mod PAGE_SIZE = 0 → offset ≤ p < offset + length →
  holds (p / PAGE_SIZE) (Run (offset / PAGE_SIZE) (for_bytes length)) = true.
Proof.
  intros Hm Hp. unfold holds, for_bytes, div_ceil, PAGE_SIZE in *. simpl.
  assert (offset / 4096 ≤ p / 4096) by (apply Z.div_le_mono; lia).
  assert (p / 4096 < offset / 4096 + (length + 4096 - 1) / 4096).
  { assert (offset = 4096 * (offset / 4096)) by (apply Z.div_exact; lia).
    rewrite (Z.add_comm (offset / 4096)), <- Z.div_add by lia. apply Z.lt_le_trans with ((p + 4096) / 4096).
    - replace (p + 4096) with (p + 1 * 4096) by lia. rewrite Z.div_add by lia. lia.
    - apply Z.div_le_mono; lia. }
  apply andb_true_iff. split; [apply Z.leb_le; lia|apply Z.ltb_lt; lia].
Qed.

Lemma covered_elem runs offset length : offset mod PAGE_SIZE = 0 →
  Run (offset / PAGE_SIZE) (for_bytes length) ∈ runs → covered runs offset length.
Proof. intros Hm Hin p Hp. apply holders_pos. eexists. split; [done|]. by apply holds_run_of. Qed.

(** ** The chain of a directory *)

Section chain.
Context `{FileEnv} (cipher : option Aes256Gcm).
Implicit Types (f : list Z) (pointer root : BlockRef).

Lemma check_pointer_ok {R} pointer : @check_pointer R pointer = Ok tt →
  BlockRef.offset pointer mod PAGE_SIZE = 0 ∧ DATA_START_PAGE * PAGE_SIZE ≤ BlockRef.offset pointer ∧
  32 ≤ BlockRef.length pointer ≤ MAX_BLOCK_SIZE.
Proof. unfold check_pointer. intros Hc. repeat case_match; simplify_eq. bool_to_prop. change (Z.of_nat BLOCK_HEADER_SIZE) with 32 in *. lia. Qed.

Lemma read_block_at bad f root offset length bytes : read_block cipher bad f root offset length = Ok bytes →
  ∃ stored, read_at bad f offset (length + Z.of_nat (stored_extra cipher)) = Ok stored.
Proof. unfold read_block. case_match; [eauto|done]. Qed.

Lemma read_block_agree bad f f' root offset length bytes runs : agree runs f f' → 0 ≤ offset → 0 ≤ length →
  covered runs offset (length + Z.of_nat (stored_extra cipher)) →
  read_block cipher bad f root offset length = Ok bytes → read_block cipher no_fault f' root offset length = Ok bytes.
Proof.
  intros Ha Ho Hl Hc Hr. destruct (read_block_at _ _ _ _ _ _ Hr) as [stored Hs]. unfold read_block in *. rewrite Hs in Hr.
  rewrite (read_at_agree bad f f' runs offset (length + Z.of_nat (stored_extra cipher)) stored); (done || lia).
Qed.

Lemma follow_chain_more {R} overhead (read : Z → Z → result R (list Z)) rounds rounds' pointer visited es sk rs r :
  (rounds ≤ rounds')%nat → follow_chain overhead read rounds pointer visited es sk rs = Some r →
  follow_chain overhead read rounds' pointer visited es sk rs = Some r.
Proof.
  revert rounds' pointer visited es sk rs. induction rounds as [|rounds IH]; intros rounds' pointer visited es sk rs Hle; [done|].
  destruct rounds' as [|rounds']; [lia|]. cbn [follow_chain]. repeat case_match; try done. intros Hf. apply IH; [lia|done].
Qed.

Lemma follow_chain_agree bad f f' root rounds pointer visited es sk rs es' sk' rs' :
  follow_chain (Z.of_nat (stored_extra cipher)) (read_block cipher bad f root) rounds pointer visited es sk rs = Some (Ok (es', sk', rs')) →
  (∀ r, r ∈ rs → r ∈ rs') ∧
  (agree rs' f f' →
   follow_chain (Z.of_nat (stored_extra cipher)) (read_block cipher no_fault f' root) rounds pointer visited es sk rs = Some (Ok (es', sk', rs'))).
Proof.
  revert pointer visited es sk rs. induction rounds as [|rounds IH]; intros pointer visited es sk rs; [done|]. cbn [follow_chain].
  case_decide; [done|]. destruct (check_pointer pointer) as [[]|] eqn:Hp; [|done].
  destruct (read_block cipher bad f root _ _) as [bytes|] eqn:Hr; [|done].
  destruct (decode_block pointer bytes) as [[[more more_sk] next]|] eqn:Hd; [|done].
  destruct (check_pointer_ok _ Hp) as (Hm & Ho & Hl).
  assert (0 ≤ BlockRef.offset pointer) by (unfold DATA_START_PAGE, PAGE_SIZE in Ho; lia).
  set (run := Run _ _). intros Hf.
  assert (Hin : ∀ r, r ∈ rs ++ [run] → r ∈ rs').
  { destruct (BlockRef.length next =? 0); [by simplify_eq|]. by apply IH in Hf as [? _]. }
  split; [intros r Hr'; apply Hin, elem_of_app; by left|]. intros Ha.
  rewrite (read_block_agree bad f f' root (BlockRef.offset pointer) (BlockRef.length pointer) bytes rs' Ha);
    [|lia|lia|apply covered_elem; [done|apply Hin, elem_of_app; right; by left]|done].
  rewrite Hd.
  destruct (BlockRef.length next =? 0); [done|]. apply IH in Hf as [_ Hf]. by apply Hf.
Qed.

Lemma visited_size (visited : gset Z) n : (∀ o, o ∈ visited → 0 ≤ o < Z.of_nat n) → (size visited ≤ n)%nat.
Proof.
  intros Hv. assert (Hsub : visited ⊆ list_to_set (seqZ 0 (Z.of_nat n))).
  { intros o Ho. apply elem_of_list_to_set, elem_of_seqZ. specialize (Hv o Ho). lia. }
  apply subseteq_size in Hsub. rewrite size_list_to_set in Hsub by apply NoDup_seqZ. rewrite length_seqZ in Hsub. lia.
Qed.

(** Each round takes a block that starts at another byte of the file. *)
Lemma follow_chain_ends bad f root rounds pointer visited es sk rs :
  (∀ o, o ∈ visited → 0 ≤ o < Z.of_nat (length f)) → (length f < rounds + size visited)%nat →
  is_Some (follow_chain (Z.of_nat (stored_extra cipher)) (read_block cipher bad f root) rounds pointer visited es sk rs).
Proof.
  revert pointer visited es sk rs. induction rounds as [|rounds IH]; intros pointer visited es sk rs Hv Hsize.
  { apply visited_size in Hv. lia. }
  cbn [follow_chain]. case_decide as Hnew; [done|]. destruct (check_pointer pointer) as [[]|] eqn:Hp; [|done].
  destruct (read_block cipher bad f root _ _) as [bytes|] eqn:Hr; [|done].
  destruct (decode_block pointer bytes) as [[[more more_sk] next]|]; [|done].
  destruct (BlockRef.length next =? 0); [done|]. apply IH.
  - intros o [->%elem_of_singleton|Ho]%elem_of_union; [|by apply Hv].
    destruct (check_pointer_ok _ Hp) as (_ & Ho & Hl). destruct (read_block_at _ _ _ _ _ _ Hr) as [stored Hs].
    unfold read_at in Hs. repeat case_match; simplify_eq; bool_to_prop; unfold DATA_START_PAGE, PAGE_SIZE in Ho; lia.
  - rewrite size_union by set_solver. rewrite size_singleton. lia.
Qed.

Lemma decode_chain_agree bad f f' root rounds rounds' es sk rs :
  decode_chain (Z.of_nat (stored_extra cipher)) (read_block cipher bad f root) rounds root = Some (Ok (es, sk, rs)) →
  agree rs f f' → (length f' < rounds')%nat →
  decode_chain (Z.of_nat (stored_extra cipher)) (read_block cipher no_fault f' root) rounds' root = Some (Ok (es, sk, rs)).
Proof.
  unfold decode_chain. destruct (BlockRef.length root =? 0); [done|]. intros Hf Ha Hl.
  apply (follow_chain_agree _ f f') in Hf as [_ Hf]. specialize (Hf Ha).
  destruct (follow_chain_ends no_fault f' root rounds' root ∅ [] [] []) as [r Hr]; [set_solver|rewrite size_empty; lia|].
  rewrite Hr. apply (follow_chain_more _ _ _ (rounds + rounds')) in Hf, Hr; [|lia..]. congruence.
Qed.
End chain.

(** ** Images *)

Section images.
Context `{FileEnv} (cipher : option Aes256Gcm).
Implicit Types (f : list Z) (root : BlockRef) (rd : ImageReader).

Lemma used_run_elem rd e : e ∈ entries rd → 0 < DirectoryEntry.length e → DirectoryEntry.run e ∈ used_runs rd.
Proof.
  intros He Hl. unfold used_runs. apply elem_of_app. left. apply list_elem_of_filter. split.
  - unfold DirectoryEntry.run, DirectoryEntry.run_of, for_bytes, div_ceil, PAGE_SIZE. simpl. apply Z.div_str_pos. lia.
  - apply elem_of_app. left. by apply (list_elem_of_fmap_2 DirectoryEntry.run).
Qed.

Lemma check_placement_ok n offset length : check_placement n offset length = Ok tt →
  length = 0 ∨ (offset mod PAGE_SIZE = 0 ∧ DATA_START_PAGE * PAGE_SIZE ≤ offset ∧ offset + length ≤ n).
Proof.
  unfold check_placement, checked_add64. destruct (Z.eqb_spec length 0); [by left|].
  intros Hc. right. repeat case_match; simplify_eq; bool_to_prop; done || lia.
Qed.

(** A placed chunk with bytes in agreeing pages is placed in the other file. *)
Lemma check_placement_agree runs f f' offset length : agree runs f f' → 0 ≤ length →
  check_placement (Z.of_nat (List.length f)) offset length = Ok tt →
  (0 < length → DirectoryEntry.run_of offset length ∈ runs) →
  check_placement (Z.of_nat (List.length f')) offset length = Ok tt.
Proof.
  intros Ha Hl Hc Hr. pose proof (check_placement_ok _ _ _ Hc) as Hp. unfold check_placement in *.
  destruct (Z.eqb_spec length 0); [done|]. destruct Hp as [?|(Hm & Hs & He)]; [done|].
  unfold DATA_START_PAGE, PAGE_SIZE in Hs.
  destruct (lookup_lt_is_Some_2 f (Z.to_nat (offset + length - 1))) as [x Hx]; [lia|]. apply Ha, lookup_lt_Some in Hx.
  - destruct (negb _ || _); [done|]. cbn [orb] in *. destruct (checked_add64 offset length) as [e|] eqn:E; [|done].
    unfold checked_add64 in E. destruct (offset + length <=? u64_max); [|done]. injection E as <-.
    by rewrite (proj2 (Z.ltb_ge _ _)) by lia.
  - unfold page_at. apply (covered_elem runs offset length); [done|apply Hr; lia|lia].
Qed.

Lemma check_all_agree {A} (check check' : A → result image_error unit) l : (∀ x, x ∈ l → check x = Ok tt → check' x = Ok tt) →
  check_all check l = Ok tt → check_all check' l = Ok tt.
Proof.
  induction l as [|x l IH]; intros Hc; [done|]. cbn [check_all]. destruct (check x) as [[]|] eqn:E; [|done]. simpl. intros Hl.
  rewrite (Hc x) by (done || left). simpl. apply IH; [|done]. intros y Hy. apply Hc. by right.
Qed.

Lemma check_all_elem {A} (check : A → result image_error unit) l x : check_all check l = Ok tt → x ∈ l → check x = Ok tt.
Proof.
  induction l as [|y l IH]; intros Hc Hx; [by apply not_elem_of_nil in Hx|]. cbn [check_all] in Hc.
  destruct (check y) as [[]|] eqn:E; [|done]. simpl in Hc. apply elem_of_cons in Hx as [->|Hx]; auto.
Qed.

Lemma directory_run_elem rd r : r ∈ directory_runs rd → r ∈ used_runs rd.
Proof. intros Hr. apply elem_of_app. by right. Qed.

Lemma skipped_run_elem rd (e : SkippedEntry) : e ∈ skipped rd → 0 < SkippedEntry.length e → SkippedEntry.run e ∈ used_runs rd.
Proof.
  intros He Hl. unfold used_runs. apply elem_of_app. left. apply list_elem_of_filter. split.
  - unfold SkippedEntry.run, DirectoryEntry.run_of, for_bytes, div_ceil, PAGE_SIZE. simpl. apply Z.div_str_pos. lia.
  - apply elem_of_app. right. by apply (list_elem_of_fmap_2 SkippedEntry.run).
Qed.

Lemma open_inv bad f root rd : open cipher bad f root = Ok rd →
  decode_chain (Z.of_nat (stored_extra cipher)) (read_block cipher bad f root) (S (length f)) root
    = Some (Ok (entries rd, skipped rd, directory_runs rd)) ∧
  (∃ seen, check_entries ∅ (entries rd) = Ok seen) ∧
  check_all (λ e, check_placement (Z.of_nat (length f)) (DirectoryEntry.offset e) (DirectoryEntry.length e)) (entries rd) = Ok tt ∧
  check_all (λ e, check_placement (Z.of_nat (length f)) (SkippedEntry.offset e) (SkippedEntry.length e)) (skipped rd) = Ok tt ∧
  ∃ a, PageAllocator.from_used (used_runs rd) = Ok a.
Proof.
  unfold open. destruct (decode_chain _ _ _ _) as [[[[es sk] rs]|]|]; [|done..]. unfold check_sections.
  destruct (check_entries ∅ es) as [seen|] eqn:E1; [|done]. cbn [mbind result_bind].
  destruct (check_all _ es) as [[]|] eqn:E2; [|done]. cbn [mbind result_bind].
  destruct (check_all _ sk) as [[]|] eqn:E3; [|done]. cbn [mbind result_bind].
  destruct (PageAllocator.from_used _) as [a|] eqn:E4; [|done]. intros [= <-]. eauto 10.
Qed.

Lemma open_intro bad f root rd seen a :
  decode_chain (Z.of_nat (stored_extra cipher)) (read_block cipher bad f root) (S (length f)) root
    = Some (Ok (entries rd, skipped rd, directory_runs rd)) →
  check_entries ∅ (entries rd) = Ok seen →
  check_all (λ e, check_placement (Z.of_nat (length f)) (DirectoryEntry.offset e) (DirectoryEntry.length e)) (entries rd) = Ok tt →
  check_all (λ e, check_placement (Z.of_nat (length f)) (SkippedEntry.offset e) (SkippedEntry.length e)) (skipped rd) = Ok tt →
  PageAllocator.from_used (used_runs rd) = Ok a → open cipher bad f root = Ok rd.
Proof.
  intros Hd Hs He Hk Ha. unfold open. rewrite Hd. unfold check_sections. rewrite Hs. cbn [mbind result_bind].
  rewrite He. cbn [mbind result_bind]. rewrite Hk. cbn [mbind result_bind]. destruct rd. cbn in Ha |- *. by rewrite Ha.
Qed.

(** The lengths an entry can have: a [u64]. *)
Definition lengths_ok rd : Prop :=
  Forall (λ e, 0 ≤ DirectoryEntry.length e) (entries rd) ∧ Forall (λ e, 0 ≤ SkippedEntry.length e) (skipped rd).

(** An image depends on its pages only. *)
Lemma open_agree bad f f' root rd : lengths_ok rd → agree (used_runs rd) f f' →
  open cipher bad f root = Ok rd → open cipher no_fault f' root = Ok rd.
Proof.
  intros [Hle Hls] Ha (Hd & [seen Hs] & He & Hk & [a Hu])%open_inv. apply (open_intro _ _ _ _ seen a); [|done| | |done].
  - eapply decode_chain_agree; [exact Hd| |lia]. eapply agree_mono; [|exact Ha].
    intros p (r & Hr & Hp)%holders_pos. apply holders_pos. eauto using directory_run_elem.
  - revert He. apply check_all_agree. intros e Hin Hp. eapply check_placement_agree; [exact Ha| |exact Hp|].
    + rewrite Forall_forall in Hle. by apply Hle.
    + apply (used_run_elem rd e Hin).
  - revert Hk. apply check_all_agree. intros e Hin Hp. eapply check_placement_agree; [exact Ha| |exact Hp|].
    + rewrite Forall_forall in Hls. by apply Hls.
    + apply (skipped_run_elem rd e Hin).
Qed.
(** ** Opening ends *)

Lemma check_entries_not_endless seen es : check_entries seen es ≠ Err Endless.
Proof. revert seen. induction es as [|e es IH]; intros seen; simpl; [done|]. destruct (default _ _) as [v ids]. destruct (negb _); [done|]. destruct (ChunkIdentities.insert _ _); [apply IH|done]. Qed.

Lemma check_all_not_endless {A} (check : A → result image_error unit) l : (∀ x, check x ≠ Err Endless) → check_all check l ≠ Err Endless.
Proof.
  intros Hc. induction l as [|x l IH]; simpl; [done|]. specialize (Hc x). destruct (check x) as [[]|e]; [exact IH|]. intros [= ->]. done.
Qed.

Lemma placement_not_endless n o l : check_placement n o l ≠ Err Endless.
Proof. unfold check_placement. repeat case_match; done. Qed.

Lemma bind_not_endless {A B} (m : result image_error A) (k : A → result image_error B) : m ≠ Err Endless → (∀ a, k a ≠ Err Endless) → (m ≫= k) ≠ Err Endless.
Proof. destruct m as [a|e]; simpl; [auto|]. intros Hm _ [= ->]. done. Qed.

Lemma open_ends bad f root : open cipher bad f root ≠ Err Endless.
Proof.
  assert (Hd : is_Some (decode_chain (Z.of_nat (stored_extra cipher)) (read_block cipher bad f root) (S (length f)) root)).
  { unfold decode_chain. destruct (BlockRef.length root =? 0); [eauto|]. apply follow_chain_ends; [set_solver|rewrite size_empty; lia]. }
  unfold open. destruct Hd as [r ->]. destruct r as [[[es sk] rs]|e]; [|done].
  repeat apply bind_not_endless; [apply check_entries_not_endless|done|intros _..].
  repeat (apply bind_not_endless; [apply check_all_not_endless; intros x; apply placement_not_endless|intros _]).
  by destruct (PageAllocator.from_used _).
Qed.
End images.
