(* ===== verification/ImageWriter.v ===== *)
(** * The checkpoint writer

    Model of [src/crates/grafeo-storage/src/file/v3/writer.rs]: the writer
    streams the chunks of each section into pages the active image does not
    use, takes chunks of the image it follows over, moving them towards the
    start of the file when the file is mostly free, and writes the directory.
    An operation runs on the writer and the disk and leaves both as they are
    at its return, errors included. A section's [write_to] is a [Script]: the
    calls it makes of its sink, each going on with what the call returned. *)
From S2P Require Import Prelude Bytes PageAlloc Chunks FileHeaders Directory ImageFile.
Import PageRun PageAllocator.
Open Scope Z_scope.

Record ImageId : Set := mkImageId { image_database : Z; image_iteration : Z }.

Record CheckpointStats := mkStats {
  chunks_written : Z;
  bytes_written : Z;
  chunks_reused : Z;
  bytes_reused : Z;
  chunks_moved : Z;
  bytes_moved : Z;
}.
Definition no_stats : CheckpointStats := mkStats 0 0 0 0 0 0.

Record Stored : Set := mkStored { stored_offset : Z; stored_len : Z; stored_crc : Z }.

Inductive write_error : Type :=
  | NoSection
  | SectionTwice (s : SectionType)
  | IdentityTwice (m : ChunkMeta)
  | CannotAllocatePages (e : alloc_error)
  | NoOffset (e : run_error)
  | NotEncrypted
  | WrongStoredLength (offset : Z) (stored expected : nat)
  | Io (e : io_error)
  | NothingToReuse (index : nat)
  | OtherVersion (index : nat) (version : Z)
  | CannotRead (e : image_error)
  | DirectoryBlock (e : block_error)
  | SectionFailed (reason : nat).

Record CheckpointWriter := mkWriter {
  pages : PageAllocator;
  written : list DirectoryEntry;
  runs : list PageRun;
  current : option (SectionType * Z);
  following : option (ImageId * ImageReader);
  previous : option (list DirectoryEntry * Z);
  relocate : bool;
  stats : CheckpointStats;
  begun : list SectionType;
  identities : gset (Z * Z * Z * Z * Z);
}.

Definition set_pages (p : PageAllocator) (w : CheckpointWriter) : CheckpointWriter :=
  mkWriter p (written w) (runs w) (current w) (following w) (previous w) (relocate w) (stats w) (begun w) (identities w).
Definition push_run (r : PageRun) (w : CheckpointWriter) : CheckpointWriter :=
  mkWriter (pages w) (written w) (runs w ++ [r]) (current w) (following w) (previous w) (relocate w) (stats w) (begun w) (identities w).
Definition push_entry (e : DirectoryEntry) (w : CheckpointWriter) : CheckpointWriter :=
  mkWriter (pages w) (written w ++ [e]) (runs w) (current w) (following w) (previous w) (relocate w) (stats w) (begun w) (identities w).
Definition set_stats (s : CheckpointStats) (w : CheckpointWriter) : CheckpointWriter :=
  mkWriter (pages w) (written w) (runs w) (current w) (following w) (previous w) (relocate w) s (begun w) (identities w).
Definition set_identities (i : gset (Z * Z * Z * Z * Z)) (w : CheckpointWriter) : CheckpointWriter :=
  mkWriter (pages w) (written w) (runs w) (current w) (following w) (previous w) (relocate w) (stats w) (begun w) i.

(** ** The state monad of the writer *)

Definition Write (A : Type) : Type := CheckpointWriter * Disk → result write_error A * (CheckpointWriter * Disk).

#[export] Instance write_ret : MRet Write := λ A a s, (Ok a, s).
#[export] Instance write_bind : MBind Write := λ A B f m s,
  match m s with
  | (Ok a, s) => f a s
  | (Err e, s) => (Err e, s)
  end.

Definition refuse {A} (e : write_error) : Write A := λ s, (Err e, s).
Definition the_writer : Write CheckpointWriter := λ s, (Ok s.1, s).
Definition the_file : Write (list Z) := λ s, (Ok (view s.2), s).
Definition change_writer (f : CheckpointWriter → CheckpointWriter) : Write unit := λ s, (Ok tt, (f s.1, s.2)).

Definition write_file (offset : Z) (bytes : list Z) : Write unit := λ s,
  let '(r, d) := write_at offset bytes s.2 in
  (match r with Ok u => Ok u | Err e => Err (Io e) end, (s.1, d)).

Definition draw_nonce `{FileEnv} : Write (list Z) := λ s,
  let d := s.2 in (Ok (random_nonce (drawn d)), (s.1, mkDisk (view d) (durable d) (pending d) (faults d) (S (drawn d)))).

Definition allocate_pages (count : Z) : Write PageRun := λ s,
  let '(p, r) := allocate count (pages s.1) in
  (match r with Ok run => Ok run | Err e => Err (CannotAllocatePages e) end, (set_pages p s.1, s.2)).

Definition allocate_pages_before (count limit : Z) : Write (option PageRun) := λ s,
  let '(p, r) := allocate_before count limit (pages s.1) in (Ok r, (set_pages p s.1, s.2)).

Definition or_refuse {E A} (e : E → write_error) (r : result E A) : Write A :=
  match r with Ok a => mret a | Err x => refuse (e x) end.

Section writer.
Context `{FileEnv} (cipher : option Aes256Gcm) (bad : Z → bool).

Definition new (pages : PageAllocator) : CheckpointWriter :=
  mkWriter pages [] [] None None None false no_stats [] ∅.

(** [following]: chunks move when half of the pages the image spans are free. *)
Definition following_image (image : ImageId) (reader : ImageReader) (w : CheckpointWriter) : CheckpointWriter :=
  let runs_ := used_runs reader in
  let used := foldr (λ run n, count run + n) 0 runs_ in
  let end_ := match runs_ with
              | [] => DATA_START_PAGE
              | run :: rest => foldl (λ m r, Z.max m (first r + count r)) (first run + count run) rest
              end in
  let span := saturating_sub end_ DATA_START_PAGE in
  mkWriter (pages w) (written w) (runs w) (current w) (Some (image, reader)) (previous w)
    (used <=? saturating_sub span used) (stats w) (begun w) (identities w).

Definition begin_section (s : SectionType) (version : Z) : Write unit :=
  w ← the_writer;
  if decide (s ∈ begun w) then
    _ ← change_writer (λ w, mkWriter (pages w) (written w) (runs w) None (following w) (previous w) (relocate w) (stats w) (begun w) (identities w));
    refuse (SectionTwice s)
  else
    change_writer (λ w, mkWriter (pages w) (written w) (runs w) (Some (s, version)) (following w)
      ('(_, reader) ← following w; section reader s) (relocate w) (stats w) (begun w ++ [s]) ∅).

(** The stored form of [bytes]: as they are, or sealed under a fresh nonce. *)
Definition sealed (aad bytes : list Z) : Write (list Z) :=
  match cipher with
  | None => mret bytes
  | Some cipher =>
      nonce ← draw_nonce;
      match encrypt_with cipher bytes nonce aad with
      | Some stored => mret stored
      | None => refuse NotEncrypted
      end
  end.

Definition check_stored_length (offset : Z) (stored expected : nat) : Write unit :=
  if (stored =? expected)%nat then mret tt else refuse (WrongStoredLength offset stored expected).

Definition store (aad bytes : list Z) : Write Stored :=
  match bytes with
  | [] => mret (mkStored 0 0 (hash []))
  | _ =>
      let expected := (length bytes + stored_extra cipher)%nat in
      let stored_length := Z.of_nat expected in
      run ← allocate_pages (for_bytes stored_length);
      offset ← or_refuse NoOffset (PageRun.offset run);
      stored ← sealed aad bytes;
      _ ← check_stored_length offset (length stored) expected;
      let crc := hash stored in
      _ ← write_file offset stored;
      _ ← change_writer (push_run run);
      _ ← change_writer (λ w, let s := stats w in
            set_stats (mkStats (chunks_written s) (bytes_written s + stored_length) (chunks_reused s) (bytes_reused s)
                         (chunks_moved s) (bytes_moved s)) w);
      mret (mkStored offset stored_length crc)
  end.

Definition current_section : Write (SectionType * Z) :=
  w ← the_writer;
  match current w with Some c => mret c | None => refuse NoSection end.

Definition new_identity (m : ChunkMeta) : Write unit :=
  w ← the_writer;
  match ChunkIdentities.insert m (identities w) with
  | Some i => change_writer (set_identities i)
  | None => refuse (IdentityTwice m)
  end.

Definition write_chunk (m : ChunkMeta) (bytes : list Z) : Write unit :=
  '(s, version) ← current_section;
  _ ← new_identity m;
  stored ← store (chunk_aad_for s m) bytes;
  _ ← change_writer (push_entry (DirectoryEntry.mk s version m (stored_offset stored) (stored_len stored)
        (stored_crc stored) (DirectoryEntry.flags_for s (ChunkMeta.kind m))));
  change_writer (λ w, let s := stats w in
    set_stats (mkStats (chunks_written s + 1) (bytes_written s) (chunks_reused s) (bytes_reused s)
                 (chunks_moved s) (bytes_moved s)) w).

(** Where [reuse_chunk] leaves the pages of chunk [index]: moved into a free
    run before them, or where they are. *)
Definition place_reused (index : nat) (e : DirectoryEntry) : Write Z :=
  if DirectoryEntry.length e =? 0 then mret (DirectoryEntry.offset e)
  else
    let run := DirectoryEntry.run e in
    w ← the_writer;
    target ← (if relocate w then allocate_pages_before (count run) (first run) else mret None);
    match target with
    | Some target =>
        file ← the_file;
        stored ← or_refuse CannotRead
          (stored_bytes bad file (match previous w with Some (chunks, _) => chunks | None => [] end) index);
        offset ← or_refuse NoOffset (PageRun.offset target);
        _ ← write_file offset stored;
        _ ← change_writer (push_run target);
        _ ← change_writer (λ w, let s := stats w in
              set_stats (mkStats (chunks_written s) (bytes_written s) (chunks_reused s) (bytes_reused s)
                           (chunks_moved s + 1) (bytes_moved s + DirectoryEntry.length e)) w);
        mret offset
    | None => _ ← change_writer (push_run run); mret (DirectoryEntry.offset e)
    end.

Definition reuse_chunk (index : nat) : Write unit :=
  '(s, version) ← current_section;
  w ← the_writer;
  match ('(chunks, _) ← previous w; chunks !! index) with
  | None => refuse (NothingToReuse index)
  | Some e =>
      if negb (DirectoryEntry.section_version e =? version) then refuse (OtherVersion index (DirectoryEntry.section_version e))
      else
        _ ← new_identity (DirectoryEntry.meta e);
        offset ← place_reused index e;
        _ ← change_writer (λ w, let s := stats w in
              set_stats (mkStats (chunks_written s) (bytes_written s) (chunks_reused s + 1)
                           (bytes_reused s + DirectoryEntry.length e) (chunks_moved s) (bytes_moved s)) w);
        change_writer (push_entry (DirectoryEntry.mk (DirectoryEntry.section_type e) (DirectoryEntry.section_version e)
          (DirectoryEntry.meta e) offset (DirectoryEntry.length e) (DirectoryEntry.crc e)
          (DirectoryEntry.flags_for s (ChunkMeta.kind (DirectoryEntry.meta e)))))
  end.

(** ** The directory *)

(** Where [finish] puts a block: the state is the allocator and the runs. *)
Definition place_block (length : nat) (s : PageAllocator * list PageRun) : result write_error Z * (PageAllocator * list PageRun) :=
  let stored := Z.of_nat (length + stored_extra cipher) in
  match allocate (for_bytes stored) s.1 with
  | (p, Err e) => (Err (CannotAllocatePages e), (p, s.2))
  | (p, Ok run) =>
      (match PageRun.offset run with Ok offset => Ok offset | Err e => Err (NoOffset e) end, (p, s.2 ++ [run]))
  end.

Fixpoint write_blocks (blocks : list (Z * list Z)) : Write unit :=
  match blocks with
  | [] => mret tt
  | (offset, block) :: blocks =>
      let expected := (length block + stored_extra cipher)%nat in
      stored ← sealed (directory_aad offset) block;
      _ ← check_stored_length offset (length stored) expected;
      _ ← write_file offset stored;
      write_blocks blocks
  end.

Definition place_directory : Write (BlockRef * list (Z * list Z)) := λ s,
  let '(r, (p, rs)) :=
    encode_blocks_raw place_block DirectoryBlock (map DirectoryEntry.encode (written s.1)) (pages s.1, runs s.1) in
  let w := s.1 in
  (r, (mkWriter p (written w) rs (current w) (following w) (previous w) (relocate w) (stats w) (begun w) (identities w), s.2)).

Definition finish : Write (BlockRef * list PageRun) :=
  '(root, blocks) ← place_directory;
  _ ← write_blocks blocks;
  w ← the_writer;
  mret (root, runs w).

(** ** Sections *)

Inductive Script : Type :=
  | Return (r : result nat unit)
  | WriteChunk (m : ChunkMeta) (bytes : list Z) (go_on : result write_error unit → Script)
  | ReuseChunk (index : nat) (go_on : result write_error unit → Script)
  | Previous (go_on : option (ImageId * list DirectoryEntry * (nat → result image_error (list Z))) → Script).

(** What [previous] offers: the chunks of the section in the image followed,
    and their bytes. *)
Definition previous_chunks (w : CheckpointWriter) (file : list Z)
  : option (ImageId * list DirectoryEntry * (nat → result image_error (list Z))) :=
  '(image, _) ← following w;
  '(chunks, _) ← previous w;
  Some (image, chunks, fetch cipher bad file chunks).

Fixpoint run_script (script : Script) : Write unit := λ s,
  match script with
  | Return (Ok u) => (Ok u, s)
  | Return (Err e) => (Err (SectionFailed e), s)
  | WriteChunk m bytes go_on => let '(r, s) := write_chunk m bytes s in run_script (go_on r) s
  | ReuseChunk index go_on => let '(r, s) := reuse_chunk index s in run_script (go_on r) s
  | Previous go_on => run_script (go_on (previous_chunks s.1 (view s.2))) s
  end.

Record Section_ := mkSection { section_type_ : SectionType; version_ : Z; write_to : Script }.

Fixpoint write_sections (sections : list Section_) : Write unit :=
  match sections with
  | [] => mret tt
  | s :: sections =>
      _ ← begin_section (section_type_ s) (version_ s);
      _ ← run_script (write_to s);
      write_sections sections
  end.
End writer.
