(* ===== verification/FileManager.v ===== *)
(** * The manager of a storage file

    Model of [GrafeoFileManager] of
    [src/crates/grafeo-storage/src/file/manager.rs]: creating a file, opening
    it at its active image, and checkpoints. The path, the locks on the file
    and the sidecar log are left out; clock readings, the database id and the
    version of the library are arguments. The hooks that make tests crash or
    fail do nothing otherwise; the faults of the disk stand for them. *)
From S2P Require Import Prelude Bytes PageAlloc Chunks FileHeaders Directory ImageFile ImageWriter.
Import PageRun PageAllocator.
Open Scope Z_scope.

Record CheckpointHeader : Set := mkCheckpointHeader {
  new_checkpoint_lsn : Z;
  new_epoch : Z;
  new_last_transaction_id : Z;
  new_node_count : Z;
  new_edge_count : Z;
}.

Record ActiveImage := mkActive {
  header : DbHeaderV3;
  slot : Z;
  spared : list PageRun;
}.

Record GrafeoFileManager `{FileEnv} := mkManager {
  file_header : FileHeaderV3;
  active : ActiveImage;
  read_only : bool;
  last_checkpoint : option CheckpointStats;
  file_cipher : option Aes256Gcm;
}.

Inductive manager_error : Type :=
  | ReadOnly
  | IterationsUsedUp (iteration : Z)
  | SparedRuns (e : alloc_error)
  | CheckpointFailed (e : write_error)
  | FileIo (e : io_error)
  | EndBeyondOffsets
  | EndOverflows (e : run_error)
  | OldFormat
  | HeaderRefused (e : header_error)
  | NeedsKey
  | NotEncryptedFile
  | NoHeader
  | NoDirectory (slot : Z)
  | ImageRefused (e : image_error).

(** [write_page], [image_end] and the pages of the headers. *)

Definition write_page (offset : Z) (bytes : list Z) (d : Disk) : result io_error unit * Disk := write_at offset bytes d.

Fixpoint last_page (end_page : Z) (runs : list PageRun) : result manager_error Z :=
  match runs with
  | [] => Ok end_page
  | run :: runs =>
      match PageRun.end_ run with
      | Ok e => last_page (Z.max end_page e) runs
      | Err e => Err (EndOverflows e)
      end
  end.

Definition image_end (runs : list PageRun) : result manager_error Z :=
  end_page ← last_page DATA_START_PAGE runs;
  ok_or (checked_mul64 end_page PAGE_SIZE) EndBeyondOffsets.

Definition page_of (prefix : list Z) (index : nat) : list Z := take PAGE_BYTES (drop (index * PAGE_BYTES) prefix).

Definition read_prefix (file : list Z) (length : Z) : list Z := take (Z.to_nat length) file.

Section manager.
Context `{FileEnv}.

(** ** Opening *)

Definition read_active_image (bad : Z → bool) (file : list Z) (cipher_for : Z → option Aes256Gcm)
  : result manager_error (FileHeaderV3 * ActiveImage * option Aes256Gcm) :=
  let prefix := read_prefix file (DATA_START_PAGE * PAGE_SIZE) in
  if (4 <? length prefix)%nat && bool_decide (take 4 prefix = FILE_MAGIC) && (byte_at prefix 4 =? 1) then Err OldFormat else
  match FileHeaderV3.decode (page_of prefix 0) with
  | Err e => Err (HeaderRefused e)
  | Ok file_header =>
      let cipher := cipher_for (FileHeaderV3.database_id file_header) in
      match FileHeaderV3.encrypted file_header, cipher with
      | true, None => Err NeedsKey
      | false, Some _ => Err NotEncryptedFile
      | _, _ =>
          match active_header (db_decode (page_of prefix 1), db_decode (page_of prefix 2)) with
          | Err e => Err (HeaderRefused e)
          | Ok None => Err NoHeader
          | Ok (Some (slot, header)) =>
              match check_format_revision (DbHeaderV3.format_revision header) with
              | Err e => Err (HeaderRefused e)
              | Ok _ =>
                  if BlockRef.length (DbHeaderV3.root header) =? 0 then Err (NoDirectory slot)
                  else match open cipher bad file (DbHeaderV3.root header) with
                       | Err e => Err (ImageRefused e)
                       | Ok reader => Ok (file_header, mkActive header slot (used_runs reader), cipher)
                       end
              end
          end
      end
  end.

Definition open_existing (bad : Z → bool) (cipher_for : Z → option Aes256Gcm) (read_only : bool) (d : Disk)
  : result manager_error GrafeoFileManager :=
  '(file_header, active, cipher) ← read_active_image bad (view d) cipher_for;
  Ok (mkManager _ file_header active read_only None cipher).

(** ** Creating *)

(** Runs a disk operation and goes on with the disk, or stops with the error. *)
Definition then_ {A B} (m : result io_error A * Disk) (f : A → Disk → result manager_error B * Disk)
  : result manager_error B * Disk :=
  match m with
  | (Ok a, d) => f a d
  | (Err e, d) => (Err (FileIo e), d)
  end.

(** [create_with_id] on the file under its temporary name, up to the rename. *)
Definition create_with_id (version : list Z) (database_id created now : Z) (cipher : option Aes256Gcm) (d : Disk)
  : result manager_error GrafeoFileManager * Disk :=
  then_ (set_len 0 d) (λ _ d,
  let file_header := FileHeaderV3.new version database_id created (bool_decide (is_Some cipher)) in
  match from_used [] with
  | Err e => (Err (SparedRuns e), d)
  | Ok pages =>
      match finish cipher (new pages, d) with
      | (Err e, (_, d)) => (Err (CheckpointFailed e), d)
      | (Ok (root, runs), (_, d)) =>
          let header := DbHeaderV3.mk FORMAT_REVISION 0 0 0 0 root 0 0 now in
          then_ (write_page 0 (FileHeaderV3.encode file_header) d) (λ _ d,
          then_ (write_page (slot_offset 0) (db_encode header) d) (λ _ d,
          then_ (write_page (slot_offset 1) (replicate PAGE_BYTES 0) d) (λ _ d,
          match image_end runs with
          | Err e => (Err e, d)
          | Ok end_ =>
              then_ (set_len end_ d) (λ _ d,
              then_ (sync_all d) (λ _ d,
              (Ok (mkManager _ file_header (mkActive header 0 runs) false None cipher), d)))
          end)))
      end
  end).

(** ** Checkpoints *)

(** The runs a checkpoint adds to those the next one spares. *)
Definition added_runs (spared runs : list PageRun) : list PageRun :=
  filter (λ run, run ∉ spared) runs.

Definition set_active (a : ActiveImage) (m : GrafeoFileManager) : GrafeoFileManager :=
  mkManager _ (file_header m) a (read_only m) (last_checkpoint m) (file_cipher m).

Definition start_writer (bad : Z → bool) (m : GrafeoFileManager) (file : list Z) (pages : PageAllocator) : CheckpointWriter :=
  let writer := new pages in
  match open (file_cipher m) bad file (DbHeaderV3.root (header (active m))) with
  | Ok reader =>
      following_image (mkImageId (FileHeaderV3.database_id (file_header m)) (DbHeaderV3.iteration (header (active m)))) reader writer
  | Err _ => writer
  end.

(** The image of a checkpoint: its sections, then its directory. *)
Definition write_image (bad : Z → bool) (sections : list Section_) (m : GrafeoFileManager) (pages : PageAllocator) (d : Disk)
  : result write_error (CheckpointStats * BlockRef * list PageRun) * Disk :=
  let '(r, (_, d)) :=
    (_ ← write_sections (file_cipher m) bad sections;
     w ← the_writer;
     '(root, runs) ← finish (file_cipher m);
     mret (stats w, root, runs)) (start_writer bad m (view d) pages, d) in
  (r, d).

Definition next_header (h : CheckpointHeader) (root : BlockRef) (now : Z) (previous : DbHeaderV3) (iteration : Z) : DbHeaderV3 :=
  DbHeaderV3.mk (DbHeaderV3.format_revision previous) iteration (new_checkpoint_lsn h) (new_epoch h)
    (new_last_transaction_id h) root (new_node_count h) (new_edge_count h) now.

(** The end of [write_checkpoint], from the sync of the image: the pages of
    the image are spared, its header is written into the other slot and synced,
    the image becomes the active one and the file is cut at its end. *)
Definition commit_image (stats : CheckpointStats) (next : DbHeaderV3) (runs : list PageRun) (m : GrafeoFileManager) (d : Disk)
  : result manager_error CheckpointStats * (GrafeoFileManager * Disk) :=
  let a := active m in
  let m := set_active (mkActive (header a) (slot a) (spared a ++ added_runs (spared a) runs)) m in
  let next_slot := 1 - slot a in
  match write_page (slot_offset next_slot) (db_encode next) d with
  | (Err e, d) => (Err (FileIo e), (m, d))
  | (Ok _, d) =>
  match sync_all d with
  | (Err e, d) => (Err (FileIo e), (m, d))
  | (Ok _, d) =>
  match image_end runs with
  | Err e => (Err e, (m, d))
  | Ok end_ =>
  match set_len end_ d with
  | (Err e, d) => (Err (FileIo e), (m, d))
  | (Ok _, d) =>
      (Ok stats, (mkManager _ (file_header m) (mkActive next next_slot runs) (read_only m) (Some stats) (file_cipher m), d))
  end end end end.

Definition write_checkpoint (bad : Z → bool) (sections : list Section_) (h : CheckpointHeader) (now : Z)
    (m : GrafeoFileManager) (d : Disk) : result manager_error CheckpointStats * (GrafeoFileManager * Disk) :=
  if read_only m then (Err ReadOnly, (m, d)) else
  let a := active m in
  let iteration := DbHeaderV3.iteration (header a) in
  match checked_add64 iteration 1 with
  | None => (Err (IterationsUsedUp iteration), (m, d))
  | Some next_iteration =>
  match from_used (spared a) with
  | Err e => (Err (SparedRuns e), (m, d))
  | Ok pages =>
  match write_image bad sections m pages d with
  | (Err e, d) => (Err (CheckpointFailed e), (m, d))
  | (Ok (stats, root, runs), d) =>
  match sync_all d with
  | (Err e, d) => (Err (FileIo e), (m, d))
  | (Ok _, d) => commit_image stats (next_header h root now (header a) next_iteration) runs m d
  end end end end.

(** ** Reading *)

Definition image_stats (bad : Z → bool) (m : GrafeoFileManager) (d : Disk) : result image_error (nat * nat * Z) :=
  reader ← open (file_cipher m) bad (view d) (DbHeaderV3.root (header (active m)));
  Ok (length (entries reader), length (directory_runs reader), foldr (λ run n, count run + n) 0 (used_runs reader)).

(** The chunks of a section of the active image, as [read_image] serves them. *)
Definition read_section (bad : Z → bool) (m : GrafeoFileManager) (d : Disk) (s : SectionType)
  : result image_error (option (list (ChunkMeta * result image_error (list Z)))) :=
  reader ← open (file_cipher m) bad (view d) (DbHeaderV3.root (header (active m)));
  Ok ('(chunks, _) ← section reader s;
      Some (imap (λ i e, (DirectoryEntry.meta e, fetch (file_cipher m) bad (view d) chunks i)) chunks)).

Definition sync (m : GrafeoFileManager) (d : Disk) : result io_error unit * Disk :=
  if read_only m then (Ok tt, d) else sync_all d.
End manager.
