(* ===== verification/WriterInv.v ===== *)
(** * The checkpoint writer: its invariant

    A writer starts from a file and the runs it must spare. At any time the
    entries it has written describe chunks stored in the file, in pages that
    were handed out or that the image it follows keeps; nothing else of the
    file has changed. *)
From S2P Require Import Prelude Bytes PageAlloc Chunks FileHeaders Directory ImageFile ImageWriter.
Import PageRun PageAllocator.
Open Scope Z_scope.

(** ** Pages handed out *)

Lemma accounted_page a runs r p : accounted a runs → r ∈ runs → holds p r = true → DATA_START_PAGE ≤ p < end_page a.
Proof.
  intros Hacc Hr Hp. specialize (Hacc p). assert (0 < holders p runs)%nat by (apply holders_pos; eauto).
  destruct (_ && _) eqn:E; [|lia]. bool_to_prop. lia.
Qed.

(** A run that was handed out lies in the data area, within the offsets. *)
Lemma accounted_range a runs r : wf a → accounted a runs → r ∈ runs → 0 < count r →
  DATA_START_PAGE ≤ first r ∧ (first r + count r) * PAGE_SIZE ≤ u64_max.
Proof.
  intros Hwf Hacc Hr Hc.
  assert (Hh : ∀ p, first r ≤ p < first r + count r → holds p r = true).
  { intros p Hp. unfold holds. apply andb_true_iff. split; [apply Z.leb_le|apply Z.ltb_lt]; lia. }
  destruct (accounted_page a runs r (first r) Hacc Hr (Hh (first r) ltac:(lia))) as [H1 _].
  destruct (accounted_page a runs r (first r + count r - 1) Hacc Hr (Hh (first r + count r - 1) ltac:(lia))) as [_ H2].
  destruct (wf_end _ Hwf) as [_ He]. unfold PAGE_SIZE in *. split; [done|lia].
Qed.

Lemma allocate_run a runs n a' r : wf a → is_u64 n → 0 < n → accounted a runs → allocate n a = (a', Ok r) →
  wf a' ∧ accounted a' (r :: runs) ∧ count r = n ∧ DATA_START_PAGE ≤ first r ∧ (first r + n) * PAGE_SIZE ≤ u64_max.
Proof.
  intros Hwf Hu Hn Hacc Ha. pose proof (allocate_placed a n Hwf Hn) as Hp. rewrite Ha in Hp. destruct Hp as [Hc _].
  destruct (serve_accounted (Allocate n) a runs a' (Some r)) as [Hwf' Hacc']; [done..|by simpl; rewrite Ha|].
  simpl in Hacc'. destruct (accounted_range a' (r :: runs) r) as [H1 H2]; [done|done|left|lia|]. by rewrite Hc in H2.
Qed.

Lemma allocate_before_run a runs n limit a' r : wf a → is_u64 n → is_u64 limit → 0 < n → accounted a runs →
  allocate_before n limit a = (a', Some r) →
  wf a' ∧ accounted a' (r :: runs) ∧ count r = n ∧ DATA_START_PAGE ≤ first r ∧ (first r + n) * PAGE_SIZE ≤ u64_max.
Proof.
  intros Hwf Hu Hl Hn Hacc Ha. pose proof (allocate_before_placed a n limit Hwf Hn) as Hp. rewrite Ha in Hp. destruct Hp as [Hc _].
  destruct (serve_accounted (AllocateBefore n limit) a runs a' (Some r)) as [Hwf' Hacc']; [done..|].
  simpl in Hacc'. destruct (accounted_range a' (r :: runs) r) as [H1 H2]; [done|done|left|lia|]. by rewrite Hc in H2.
Qed.

Lemma run_offset r : DATA_START_PAGE ≤ first r → 0 < count r → (first r + count r) * PAGE_SIZE ≤ u64_max →
  PageRun.offset r = Ok (first r * PAGE_SIZE).
Proof.
  intros Hf Hc Hm. unfold PageRun.offset, checked_mul64, PAGE_SIZE, DATA_START_PAGE in *.
  destruct (Z.leb_spec (first r * 4096) u64_max); [done|lia].
Qed.

Lemma for_bytes_pos n : 0 < n → 0 < for_bytes n ∧ n ≤ for_bytes n * PAGE_SIZE.
Proof. intros Hn. unfold for_bytes, div_ceil, PAGE_SIZE. pose proof (Z.div_mod (n + 4096 - 1) 4096 ltac:(lia)). pose proof (Z.mod_pos_bound (n + 4096 - 1) 4096). lia. Qed.

Lemma for_bytes_u64 n : 0 ≤ n → is_u64 n → is_u64 (for_bytes n).
Proof.
  intros H0 Hn. unfold is_u64, for_bytes, div_ceil, PAGE_SIZE in *.
  split; [apply Z.div_pos; lia|apply Z.div_lt_upper_bound; lia].
Qed.

(** The bytes of [n] bytes at the start of a run lie in its pages. *)
Lemma in_run r n p : 0 ≤ first r → n ≤ count r * PAGE_SIZE → first r * PAGE_SIZE ≤ p < first r * PAGE_SIZE + n → holds (p / PAGE_SIZE) r = true.
Proof.
  intros Hf Hn Hp. unfold holds, PAGE_SIZE in *. apply andb_true_iff. split.
  - apply Z.leb_le. apply Z.div_le_lower_bound; lia.
  - apply Z.ltb_lt. apply Z.div_lt_upper_bound; lia.
Qed.

(** ** Files outside the pages handed out *)

Definition untouched (given : list PageRun) (f f' : list Z) : Prop :=
  ∀ i x, holders (page_at i) given = 0%nat → f !! i = Some x → f' !! i = Some x.

Lemma untouched_refl given f : untouched given f f.
Proof. by intros i x. Qed.

Lemma untouched_trans given f g h : untouched given f g → untouched given g h → untouched given f h.
Proof. unfold untouched. eauto. Qed.

Lemma untouched_more given given' f f' : untouched given f f' → untouched (given' ++ given) f f'.
Proof. intros Hu i x Hi. rewrite holders_app in Hi. apply Hu. lia. Qed.

Lemma untouched_agree given runs f f' : untouched given f f' →
  (∀ p, (0 < holders p runs)%nat → holders p given = 0%nat) → agree runs f f'.
Proof. intros Hu Hd i x Hi. apply Hu. by apply Hd. Qed.

Lemma untouched_write given o bs f : 0 ≤ o → covered given o (Z.of_nat (length bs)) → untouched given f (write_bytes o bs f).
Proof.
  intros Ho Hc i x Hi Hx. apply write_bytes_outside; [done| |done].
  destruct (decide (i < Z.to_nat o)%nat) as [|H1]; [by left|]. destruct (decide (Z.to_nat o + length bs ≤ i)%nat); [by right|].
  exfalso. specialize (Hc (Z.of_nat i)). unfold page_at in Hi. rewrite Hi in Hc. lia.
Qed.

Lemma covered_take given o (bs : list Z) n : covered given o (Z.of_nat (length bs)) → covered given o (Z.of_nat (length (take n bs))).
Proof. intros Hc p Hp. apply Hc. rewrite length_take in Hp. lia. Qed.

(** ** Chunks stored in a file *)

(** A chunk as a section described it: its section and version, what it
    holds, and its bytes. *)
Definition chunk : Type := SectionType * Z * ChunkMeta * list Z.

Section stores.
Context `{FileEnv} (cipher : option Aes256Gcm).

(** [e] says where [plain] is stored in [f]. *)
Definition stores (f : list Z) (e : DirectoryEntry) (plain : list Z) : Prop :=
  if DirectoryEntry.length e =? 0 then plain = []
  else
    DirectoryEntry.offset e mod PAGE_SIZE = 0 ∧ DATA_START_PAGE * PAGE_SIZE ≤ DirectoryEntry.offset e ∧
    DirectoryEntry.offset e + DirectoryEntry.length e ≤ Z.min u64_max (Z.of_nat (length f)) ∧
    let stored := field (Z.to_nat (DirectoryEntry.offset e)) (Z.to_nat (DirectoryEntry.length e)) f in
    hash stored = DirectoryEntry.crc e ∧
    match cipher with
    | None => plain = stored
    | Some c => decrypt_with c stored (chunk_aad e) = Some plain
    end.

Definition describes (f : list Z) (e : DirectoryEntry) (c : chunk) : Prop :=
  c.1 = (DirectoryEntry.section_type e, DirectoryEntry.section_version e, DirectoryEntry.meta e) ∧ stores f e c.2.

Lemma stores_read f e plain : 0 < DirectoryEntry.length e → stores f e plain →
  read_at no_fault f (DirectoryEntry.offset e) (DirectoryEntry.length e)
    = Ok (field (Z.to_nat (DirectoryEntry.offset e)) (Z.to_nat (DirectoryEntry.length e)) f).
Proof.
  intros Hl. unfold stores, read_at. destruct (Z.eqb_spec (DirectoryEntry.length e) 0); [lia|]. intros (_ & _ & He & _).
  rewrite (proj2 (Z.leb_le _ _)) by lia. done.
Qed.

Lemma stores_agree runs f f' e plain : 0 ≤ DirectoryEntry.length e → agree runs f f' →
  (0 < DirectoryEntry.length e → DirectoryEntry.run e ∈ runs) → stores f e plain → stores f' e plain.
Proof.
  intros Hl Ha Hr Hs. destruct (Z.eqb_spec (DirectoryEntry.length e) 0) as [E|E].
  { unfold stores in *. by rewrite E in *. }
  pose proof (stores_read f e plain ltac:(lia) Hs) as Hread. unfold stores in *. apply Z.eqb_neq in E as E'. rewrite E' in *.
  destruct Hs as (Hm & Hd & He & Hh & Hc). assert (Hle : 0 ≤ DirectoryEntry.offset e) by (unfold DATA_START_PAGE, PAGE_SIZE in Hd; lia).
  apply (read_at_agree _ _ _ _ _ _ _ Ha Hle Hl) in Hread; [|apply covered_elem; [done|apply Hr; lia]].
  unfold read_at in Hread. rewrite E' in Hread. cbn [no_fault] in Hread.
  destruct (Z.leb_spec (DirectoryEntry.offset e + DirectoryEntry.length e) (Z.of_nat (length f'))) as [Hle'|]; [|done].
  injection Hread as Hf. rewrite <- Hf in Hh, Hc. split_and!; [done|done|lia|done|done].
Qed.

Lemma fetch_stores f es i e plain : 0 ≤ DirectoryEntry.length e → es !! i = Some e → stores f e plain → fetch cipher no_fault f es i = Ok plain.
Proof.
  intros Hl Hi Hs. unfold fetch. rewrite Hi. destruct (Z.eqb_spec (DirectoryEntry.length e) 0) as [E|E].
  { unfold stores in Hs. rewrite E in Hs. simpl in Hs. by subst. }
  rewrite (stores_read f e plain) by (done || lia). unfold stores in Hs. apply Z.eqb_neq in E. rewrite E in Hs.
  destruct Hs as (_ & _ & _ & Hh & Hc). rewrite Hh, Z.eqb_refl. cbn [negb]. destruct cipher; [by rewrite Hc|by subst].
Qed.

Lemma stored_bytes_stores bad f es i e plain stored : es !! i = Some e → 0 < DirectoryEntry.length e → stores f e plain →
  stored_bytes bad f es i = Ok stored →
  stored = field (Z.to_nat (DirectoryEntry.offset e)) (Z.to_nat (DirectoryEntry.length e)) f ∧
  Z.of_nat (length stored) = DirectoryEntry.length e.
Proof.
  intros Hi Hl Hs Hb. unfold stored_bytes in Hb. rewrite Hi in Hb. unfold read_at in Hb.
  unfold stores in Hs. assert (E : (DirectoryEntry.length e =? 0) = false) by (apply Z.eqb_neq; lia). rewrite E in *.
  destruct Hs as (_ & Hd & He & _ & _). destruct (bad _); [done|]. rewrite (proj2 (Z.leb_le _ _)) in Hb by lia.
  destruct (negb _); [done|]. injection Hb as <-. split; [done|].
  rewrite field_length; [lia|]. unfold DATA_START_PAGE, PAGE_SIZE in Hd. lia.
Qed.
End stores.

(** ** Sections seen *)

Definition key (e : DirectoryEntry) : SectionType * (Z * Z * Z * Z * Z) :=
  (DirectoryEntry.section_type e, ChunkMeta.identity (DirectoryEntry.meta e)).

Lemma check_entries_app seen es es' :
  check_entries seen (es ++ es') = (check_entries seen es ≫= λ seen', check_entries seen' es').
Proof.
  revert seen. induction es as [|e es IH]; intros seen; [done|]. simpl.
  destruct (default _ _) as [v ids]. destruct (negb _); [done|]. destruct (ChunkIdentities.insert _ _); [|done]. apply IH.
Qed.

Lemma insert_Some m ids ids' : ChunkIdentities.insert m ids = Some ids' →
  (ChunkMeta.identity m ∉ ids) ∧ ids' = {[ChunkMeta.identity m]} ∪ ids.
Proof. unfold ChunkIdentities.insert. case_decide; [done|]. by intros [= <-]. Qed.

(** What the check has seen: each section with its version and at least the
    identities of its entries, which are all different. *)
Lemma check_entries_spec seen es seen' : check_entries seen es = Ok seen' →
  (∀ s v ids, seen !! s = Some (v, ids) → ∃ ids', seen' !! s = Some (v, ids') ∧ ids ⊆ ids') ∧
  (∀ e, e ∈ es → ∃ ids, seen' !! DirectoryEntry.section_type e = Some (DirectoryEntry.section_version e, ids) ∧ (key e).2 ∈ ids) ∧
  (∀ e v ids, e ∈ es → seen !! DirectoryEntry.section_type e = Some (v, ids) → (key e).2 ∉ ids) ∧
  NoDup (map key es).
Proof.
  revert seen. induction es as [|e es IH]; intros seen; simpl.
  { intros [= <-]. split_and!; [eauto|by intros ? ?%not_elem_of_nil|by intros ??? ?%not_elem_of_nil|constructor]. }
  destruct (default _ _) as [v ids] eqn:Ed. destruct (Z.eqb_spec (DirectoryEntry.section_version e) v) as [Ev|]; [|done]. cbn [negb].
  destruct (ChunkIdentities.insert _ _) as [ids'|] eqn:Ei; [|done]. apply insert_Some in Ei as [Hni ->]. intros Hc.
  destruct (IH _ Hc) as (H1 & H2 & H3 & H4). clear IH.
  assert (Hold : ∀ v' i, seen !! DirectoryEntry.section_type e = Some (v', i) → v' = v ∧ i = ids).
  { intros v' i Hs. rewrite Hs in Ed. by simplify_eq/=. }
  destruct (H1 (DirectoryEntry.section_type e) v ({[ChunkMeta.identity (DirectoryEntry.meta e)]} ∪ ids)) as (ids' & Hs' & Hsub);
    [by rewrite lookup_insert_eq|].
  split_and!.
  - intros s v' i Hs. destruct (decide (s = DirectoryEntry.section_type e)) as [->|Hne].
    + apply Hold in Hs as [-> ->]. exists ids'. split; [done|set_solver].
    + apply H1. by rewrite lookup_insert_ne.
  - intros x [->|Hx]%elem_of_cons; [|by apply H2]. exists ids'. rewrite Ev. split; [done|]. simpl. set_solver.
  - intros x v' i [->|Hx]%elem_of_cons Hs; [by apply Hold in Hs as [_ ->]|].
    destruct (decide (DirectoryEntry.section_type x = DirectoryEntry.section_type e)) as [E|Hne].
    + rewrite E in Hs. apply Hold in Hs as [-> ->]. specialize (H3 x v ({[ChunkMeta.identity (DirectoryEntry.meta e)]} ∪ ids) Hx).
      rewrite E, lookup_insert_eq in H3. specialize (H3 eq_refl). set_solver.
    + apply (H3 x v' i Hx). by rewrite lookup_insert_ne.
  - constructor; [|done]. intros (x & Hk & Hx)%list_elem_of_fmap. pose proof (f_equal fst Hk : DirectoryEntry.section_type e = DirectoryEntry.section_type x) as Hst.
    specialize (H3 x v ({[ChunkMeta.identity (DirectoryEntry.meta e)]} ∪ ids) Hx).
    rewrite <- Hst, lookup_insert_eq in H3. specialize (H3 eq_refl). rewrite <- Hk in H3. set_solver.
Qed.

(** ** The checkpoint writer keeps its invariant

    [writer_ok w d given kept content]: from the disk [d0] and the runs it
    spares, the writer [w] was given the pages [given], took over the chunks
    [kept] where they are, and has written the chunks [content]. *)
Import PageRun PageAllocator.
Open Scope Z_scope.

(** A change inside the pages of [given]. *)
Definition change_in (given : list PageRun) (c : change) : Prop :=
  match c with
  | Wrote o bytes => 0 ≤ o ∧ covered given o (Z.of_nat (length bytes))
  | Cut _ => False
  end.

Lemma covered_more fresh given o n : covered given o n → covered (fresh ++ given) o n.
Proof. intros Hc p Hp. specialize (Hc p Hp). rewrite holders_app. lia. Qed.

Lemma change_in_more fresh given c : change_in given c → change_in (fresh ++ given) c.
Proof. destruct c; simpl; [|done]. intros [? ?]. split; [done|by apply covered_more]. Qed.

Section invariant.
Context `{FileEnv} (cipher : option Aes256Gcm).
Context (d0 : Disk) (spared : list PageRun).

(** The image a writer follows: what its chunks hold, and that its pages are
    spared. *)
Record followed_ok (rd : ImageReader) (old : list chunk) : Prop := {
  fo_entries : Forall2 (describes cipher (view d0)) (entries rd) old;
  fo_ok : Forall entry_ok (entries rd);
  fo_seen : ∃ seen, check_entries ∅ (entries rd) = Ok seen;
  fo_disjoint : ∀ p, (holders p (used_runs rd) ≤ 1)%nat;
  fo_spared : ∀ p, (holders p (used_runs rd) ≤ holders p spared)%nat;
  fo_listed : ∀ r, r ∈ used_runs rd → r ∈ spared;
}.

Record writer_ok (w : CheckpointWriter) (d : Disk) (given : list PageRun) (kept : list DirectoryEntry)
    (content : list chunk) : Prop := {
  wk_pages : wf (pages w);
  wk_accounted : accounted (pages w) (given ++ spared);
  wk_given : Forall (λ r, 0 < count r) given;
  wk_view : untouched given (view d0) (view d);
  wk_durable : durable d = durable d0;
  wk_pending : ∃ more, pending d = pending d0 ++ more ∧ Forall (change_in given) more;
  wk_written : Forall2 (describes cipher (view d)) (written w) content;
  wk_entries : Forall entry_ok (written w);
  wk_runs : runs w = filter (λ r, 0 < count r) (map DirectoryEntry.run (written w));
  wk_disjoint : ∀ p, (holders p (runs w) ≤ 1)%nat;
  wk_origin : ∀ r, r ∈ runs w → r ∈ given ∨ ∃ e, e ∈ kept ∧ r = DirectoryEntry.run e;
  wk_kept : ∀ e, e ∈ kept → 0 < DirectoryEntry.length e ∧ key e ∈ map key (written w) ∧
              ∃ id rd, following w = Some (id, rd) ∧ e ∈ entries rd;
  wk_seen : ∃ seen, check_entries ∅ (written w) = Ok seen ∧ (∀ s, is_Some (seen !! s) → s ∈ begun w) ∧
              ∀ s v, current w = Some (s, v) → is_byte v ∧ s ∈ begun w ∧
                ∀ v' ids, seen !! s = Some (v', ids) → v' = v ∧ ids ⊆ identities w;
  wk_following : ∀ id rd, following w = Some (id, rd) → ∃ old, followed_ok rd old;
  wk_previous : ∀ s v, current w = Some (s, v) → previous w = ('(_, rd) ← following w; section rd s);
}.

Lemma entry_length_ok e : entry_ok e → 0 ≤ DirectoryEntry.length e.
Proof. intros [(_ & _ & _ & Hl & _) _]. apply Hl. Qed.

Lemma run_in_runs es e : e ∈ es → 0 < DirectoryEntry.length e →
  DirectoryEntry.run e ∈ filter (λ r, 0 < count r) (map DirectoryEntry.run es).
Proof.
  intros He Hl. apply list_elem_of_filter. split; [|by apply (list_elem_of_fmap_2 DirectoryEntry.run)].
  apply for_bytes_pos. done.
Qed.

Lemma describes_agree rs f f' es (content : list chunk) : Forall entry_ok es → agree rs f f' →
  (∀ e, e ∈ es → 0 < DirectoryEntry.length e → DirectoryEntry.run e ∈ rs) →
  Forall2 (describes cipher f) es content → Forall2 (describes cipher f') es content.
Proof.
  intros Hok Ha Hr Hd. induction Hd as [|e c es content [Hc Hs] Hd IH]; constructor.
  - inversion_clear Hok. split; [done|]. apply (stores_agree cipher rs f); [by apply entry_length_ok|done| |done]. apply Hr. left.
  - inversion_clear Hok. apply IH; [done|]. intros e' He'. apply Hr. by right.
Qed.

(** The pages of the chunks written so far were given or are spared. *)
Lemma runs_covered w d given kept content p : writer_ok w d given kept content →
  (0 < holders p (runs w))%nat → (0 < holders p (given ++ spared))%nat.
Proof.
  intros Hw (r & Hr & Hp)%holders_pos. rewrite holders_app. destruct (wk_origin _ _ _ _ _ Hw r Hr) as [Hg|(e & Hk & ->)].
  - assert (0 < holders p given)%nat by (apply holders_pos; eauto). lia.
  - destruct (wk_kept _ _ _ _ _ Hw e Hk) as (Hl & _ & id & rd & Hf & He). destruct (wk_following _ _ _ _ _ Hw id rd Hf) as [old Ho].
    assert (0 < holders p (used_runs rd))%nat by (apply holders_pos; eauto using used_run_elem).
    pose proof (fo_spared _ _ Ho p). lia.
Qed.

(** A run that is handed out meets none of them. *)
Lemma fresh_run w d given kept content a' r p : writer_ok w d given kept content → accounted a' (r :: given ++ spared) →
  holds p r = true → holders p (runs w) = 0%nat ∧ holders p (given ++ spared) = 0%nat.
Proof.
  intros Hw Hacc Hp. specialize (Hacc p). simpl in Hacc. rewrite Hp in Hacc.
  assert (holders p (given ++ spared) = 0)%nat by (destruct (_ && _); lia). split; [|done].
  destruct (holders p (runs w)) eqn:E; [done|]. pose proof (runs_covered _ _ _ _ _ p Hw ltac:(lia)). lia.
Qed.

(** ** Steps *)

(** Two writers with the same parts the invariant looks at. *)
Lemma wk_same w w' d d' given kept content : writer_ok w d given kept content →
  pages w' = pages w → written w' = written w → runs w' = runs w → current w' = current w → following w' = following w →
  previous w' = previous w → begun w' = begun w → identities w ⊆ identities w' →
  view d' = view d → durable d' = durable d → pending d' = pending d → writer_ok w' d' given kept content.
Proof.
  intros [H1 H2 H3 H4 H5 H6 H7 H8 H9 H10 H11 H12 H13 H14 H15] Ep Ew Er Ec Ef Epr Eb Ei Ev Edu Epe.
  split; rewrite ?Ep, ?Ew, ?Er, ?Ec, ?Ef, ?Epr, ?Eb, ?Ev, ?Edu, ?Epe; try done.
  destruct H13 as (seen & Hs & Hb & Hc). exists seen. split_and!; [done|done|]. intros s v Hcur.
  destruct (Hc s v Hcur) as (? & ? & Hi). split_and!; [done|done|]. intros v' ids Hl. destruct (Hi v' ids Hl). split; [done|set_solver].
Qed.

Lemma wk_allocate_runs w d given kept content a' fresh : writer_ok w d given kept content → wf a' → accounted a' (fresh ++ given ++ spared) →
  Forall (λ r, 0 < count r) fresh → writer_ok (set_pages a' w) d (fresh ++ given) kept content.
Proof.
  intros [H1 H2 H3 H4 H5 H6 H7 H8 H9 H10 H11 H12 H13 H14 H15] Hwf Hacc Hc. split; simpl; try done.
  - by rewrite <- app_assoc.
  - by apply Forall_app.
  - by apply untouched_more.
  - destruct H6 as (more & Hp & Hm). exists more. split; [done|]. eapply Forall_impl; [exact Hm|]. intros c. apply change_in_more.
  - intros r' Hr'. destruct (H11 r' Hr') as [?|?]; [left; apply elem_of_app; by right|by right].
Qed.

Lemma wk_allocate w d given kept content a' r : writer_ok w d given kept content → wf a' → accounted a' (r :: given ++ spared) →
  0 < count r → writer_ok (set_pages a' w) d (r :: given) kept content.
Proof. intros Hw Hwf Hacc Hc. apply (wk_allocate_runs w d given kept content a' [r]); [done..|]. by constructor. Qed.

(** A write into a run that was handed out and holds no chunk yet. *)
Lemma wk_write w d given kept content r bytes res d' : writer_ok w d given kept content → r ∈ given →
  (∀ p, holds p r = true → holders p (runs w) = 0%nat) → 0 ≤ first r → Z.of_nat (length bytes) ≤ count r * PAGE_SIZE →
  write_at (first r * PAGE_SIZE) bytes d = (res, d') →
  writer_ok w d' given kept content ∧
  (res = Ok tt → view d' = write_bytes (first r * PAGE_SIZE) bytes (view d)).
Proof.
  intros Hw Hr Hfresh Hf Hl Hwr. pose proof Hw as [H1 H2 H3 H4 H5 H6 H7 H8 H9 H10 H11 H12 H13 H14 H15].
  assert (Ho : 0 ≤ first r * PAGE_SIZE) by (unfold PAGE_SIZE; lia).
  assert (Hin : ∀ p, first r * PAGE_SIZE ≤ p < first r * PAGE_SIZE + Z.of_nat (length bytes) → holds (p / PAGE_SIZE) r = true).
  { intros p Hp. by apply (in_run r (Z.of_nat (length bytes))). }
  assert (Hcov : covered [r] (first r * PAGE_SIZE) (Z.of_nat (length bytes))).
  { intros p Hp. simpl. rewrite (Hin p Hp). lia. }
  assert (Hcovg : covered given (first r * PAGE_SIZE) (Z.of_nat (length bytes))).
  { intros p Hp. apply holders_pos. exists r. split; [done|]. by apply Hin. }
  assert (Hkeep : ∀ kept_bytes, covered [r] (first r * PAGE_SIZE) (Z.of_nat (length kept_bytes)) →
    untouched [r] (view d) (write_bytes (first r * PAGE_SIZE) kept_bytes (view d))).
  { intros kb Hkb. by apply untouched_write. }
  assert (Hall : ∀ v', untouched [r] (view d) v' →
    untouched given (view d0) v' ∧ Forall2 (describes cipher v') (written w) content).
  { intros v' Hv. split.
    - intros i x Hi Hx. apply Hv; [|by apply H4]. simpl.
      destruct (holds (page_at i) r) eqn:E; [|done]. exfalso.
      assert (0 < holders (page_at i) given)%nat by (apply holders_pos; eauto). lia.
    - assert (Ha : agree (runs w) (view d) v').
      { intros i x Hi Hx. apply Hv; [|done]. simpl. destruct (holds (page_at i) r) eqn:E; [|done]. rewrite Hfresh in Hi by done. lia. }
      apply (describes_agree (runs w) (view d)); [done|done| |done]. rewrite H9. apply run_in_runs. }
  unfold write_at in Hwr. assert (Hnf : ∀ fault d1, next_fault d = (fault, d1) → view d1 = view d ∧ durable d1 = durable d ∧ pending d1 = pending d).
  { unfold next_fault. intros fault d1. destruct (faults d); intros [= <- <-]; done. }
  destruct (next_fault d) as [fault d1]. destruct (Hnf _ _ eq_refl) as (Ev & Ed & Ep). rewrite Ev, Ed, Ep in Hwr.
  assert (Hpend : ∃ more, (pending d ++ [Wrote (first r * PAGE_SIZE) bytes]) = pending d0 ++ more ∧ Forall (change_in given) more).
  { destruct H6 as (more & -> & Hm). exists (more ++ [Wrote (first r * PAGE_SIZE) bytes]). rewrite app_assoc. split; [done|].
    apply Forall_app. split; [done|]. repeat constructor; done. }
  destruct fault as [n|]; simplify_eq/=.
  - destruct (Hall _ (Hkeep (take n bytes) (covered_take _ _ _ _ Hcov))) as [Hu Hd2]. split; [by split|done].
  - destruct (Hall _ (Hkeep bytes Hcov)) as [Hu Hd2]. split; [by split|done].
Qed.

Definition identity_free (w : CheckpointWriter) (s : SectionType) (i : Z * Z * Z * Z * Z) : Prop :=
  ∀ seen v ids, check_entries ∅ (written w) = Ok seen → seen !! s = Some (v, ids) → i ∉ ids.

Lemma check_entry seen e v ids : (DirectoryEntry.section_version e = v) →
  (seen !! DirectoryEntry.section_type e = None ∧ ids = ∅ ∨ seen !! DirectoryEntry.section_type e = Some (v, ids)) →
  (key e).2 ∉ ids → check_entries seen [e] = Ok (<[DirectoryEntry.section_type e := (v, {[(key e).2]} ∪ ids)]> seen).
Proof.
  intros <- Hs Hi. simpl.
  assert (E : default (DirectoryEntry.section_version e, ∅) (seen !! DirectoryEntry.section_type e) = (DirectoryEntry.section_version e, ids))
    by (destruct Hs as [[-> ->]| ->]; done).
  rewrite E, Z.eqb_refl. cbn [negb]. unfold ChunkIdentities.insert. by rewrite decide_False.
Qed.

Lemma filter_run_snoc es e : filter (λ r, 0 < count r) (map DirectoryEntry.run (es ++ [e])) =
  filter (λ r, 0 < count r) (map DirectoryEntry.run es) ++ (if decide (0 < DirectoryEntry.length e) then [DirectoryEntry.run e] else []).
Proof.
  rewrite map_app, filter_app. f_equal. simpl. rewrite filter_cons.
  change (count (DirectoryEntry.run e)) with (for_bytes (DirectoryEntry.length e)).
  destruct (decide (0 < DirectoryEntry.length e)) as [Hl|Hl].
  - rewrite decide_True; [done|]. by apply for_bytes_pos.
  - rewrite decide_False; [done|]. unfold for_bytes, div_ceil, PAGE_SIZE.
    assert ((DirectoryEntry.length e + 4096 - 1) / 4096 < 1) by (apply Z.div_lt_upper_bound; lia). lia.
Qed.

(** An entry is added: its chunk is stored, its identity is new, and its pages
    hold no chunk yet and were given or are kept. *)
Lemma wk_push w d given kept content e c v w' kept' : writer_ok w d given kept content →
  current w = Some (DirectoryEntry.section_type e, v) → DirectoryEntry.section_version e = v → entry_ok e → describes cipher (view d) e c →
  identity_free w (DirectoryEntry.section_type e) (key e).2 → (key e).2 ∈ identities w →
  (0 < DirectoryEntry.length e → ∀ p, holds p (DirectoryEntry.run e) = true → holders p (runs w) = 0%nat) →
  (0 < DirectoryEntry.length e → DirectoryEntry.run e ∈ given ∨ ∃ e0, e0 ∈ kept' ∧ DirectoryEntry.run e = DirectoryEntry.run e0) →
  (∀ e0, e0 ∈ kept' → e0 ∈ kept ∨ 0 < DirectoryEntry.length e0 ∧ key e0 = key e ∧ ∃ id rd, following w = Some (id, rd) ∧ e0 ∈ entries rd) →
  (∀ e0, e0 ∈ kept → e0 ∈ kept') →
  pages w' = pages w → written w' = written w ++ [e] →
  runs w' = runs w ++ (if decide (0 < DirectoryEntry.length e) then [DirectoryEntry.run e] else []) →
  current w' = current w → following w' = following w → previous w' = previous w → begun w' = begun w → identities w' = identities w →
  writer_ok w' d given kept' (content ++ [c]).
Proof.
  intros Hw Hcur Hv Hok Hd Hfree Hid Hfresh Horig Hk1 Hk2 Ep Ew Er Ec Ef Epr Eb Ei.
  pose proof Hw as [H1 H2 H3 H4 H5 H6 H7 H8 H9 H10 H11 H12 H13 H14 H15].
  split; rewrite ?Ep, ?Ew, ?Ec, ?Ef, ?Epr, ?Eb, ?Ei; try done.
  - apply Forall2_app; [done|]. by constructor.
  - apply Forall_app. split; [done|]. by constructor.
  - rewrite Er, H9. by rewrite filter_run_snoc.
  - intros p. rewrite Er, holders_app. specialize (H10 p). destruct (decide (0 < DirectoryEntry.length e)) as [Hl|]; simpl; [|lia].
    destruct (holds p (DirectoryEntry.run e)) eqn:E; [|lia]. rewrite (Hfresh Hl p E). lia.
  - intros r. rewrite Er. intros [Hr|Hr]%elem_of_app.
    + destruct (H11 r Hr) as [?|(e0 & He0 & ->)]; [by left|right; eauto].
    + destruct (decide (0 < DirectoryEntry.length e)) as [Hl|]; [|by apply not_elem_of_nil in Hr].
      apply list_elem_of_singleton in Hr as ->. by apply Horig.
  - intros e0 He0. rewrite map_app. destruct (Hk1 e0 He0) as [Hold|(Hl & Hkey & Hfol)].
    + destruct (H12 e0 Hold) as (? & ? & ?). split_and!; [done| |done]. apply elem_of_app. by left.
    + split_and!; [done| |done]. apply elem_of_app. right. rewrite Hkey. left.
  - destruct H13 as (seen & Hs & Hb & Hc). destruct (Hc _ _ Hcur) as (Hbyte & Hbegun & Hids).
    set (ids := match seen !! DirectoryEntry.section_type e with Some (_, i) => i | None => ∅ end).
    assert (Hseen : seen !! DirectoryEntry.section_type e = None ∧ ids = ∅ ∨ seen !! DirectoryEntry.section_type e = Some (v, ids)).
    { subst ids. destruct (seen !! _) as [[v' i]|] eqn:E; [|by left]. right. destruct (Hids _ _ eq_refl) as [-> _]. done. }
    assert (Hni : (key e).2 ∉ ids).
    { destruct Hseen as [[_ ->]|E]; [set_solver|]. by apply (Hfree seen v). }
    exists (<[DirectoryEntry.section_type e := (v, {[(key e).2]} ∪ ids)]> seen). split_and!.
    + rewrite check_entries_app, Hs. simpl mbind. by apply check_entry.
    + intros s Hsome. destruct (decide (s = DirectoryEntry.section_type e)) as [->|Hne]; [done|]. apply Hb. by rewrite lookup_insert_ne in Hsome.
    + intros s v' Hc'. destruct (Hc s v' Hc') as (? & ? & Hi'). split_and!; [done|done|]. rewrite Hcur in Hc'. simplify_eq.
      intros v' i'. rewrite lookup_insert_eq. intros Hx. simplify_eq. split; [done|].
      apply union_subseteq. split; [by apply singleton_subseteq_l|]. destruct Hseen as [[_ ->]|E]; [apply empty_subseteq|]. by apply (Hids _ _ E).
Qed.
End invariant.
