(* ===== verification/WriterOps.v ===== *)
(** * The operations of the checkpoint writer keep its invariant *)
From S2P Require Import Prelude Bytes PageAlloc Chunks FileHeaders Directory ImageFile ImageWriter WriterInv.
Import PageRun PageAllocator.
Open Scope Z_scope.

Lemma bind_inv {A B} (m : Write A) (f : A → Write B) s r s' : (m ≫= f) s = (r, s') →
  (∃ e, m s = (Err e, s') ∧ r = Err e) ∨ ∃ a s1, m s = (Ok a, s1) ∧ f a s1 = (r, s').
Proof. unfold mbind, write_bind. destruct (m s) as [[a|e] s1]; [eauto|]. intros [= <- <-]. eauto. Qed.

(** Takes a bind apart: the first action failed, or it returned and the rest
    ran. *)
Ltac step H a s1 H1 := let e := fresh "e" in apply bind_inv in H as [(e & H1 & ->)|(a & s1 & H1 & H)].

Section ops.
Context `{FileEnv} (cipher : option Aes256Gcm).
Context (d0 : Disk) (spared : list PageRun).
Abbreviation writer_ok := (writer_ok cipher d0 spared).

(** What a sealed chunk or block opens to. *)
Definition opens_to (aad stored bytes : list Z) : Prop :=
  length stored = (length bytes + stored_extra cipher)%nat ∧
  match cipher with None => stored = bytes | Some c => decrypt_with c stored aad = Some bytes end.

Lemma sealed_spec aad bytes w d r w' d' : sealed cipher aad bytes (w, d) = (r, (w', d')) →
  w' = w ∧ view d' = view d ∧ durable d' = durable d ∧ pending d' = pending d ∧ ∀ stored, r = Ok stored → opens_to aad stored bytes.
Proof.
  unfold sealed, opens_to, stored_extra. destruct cipher as [c|].
  - intros Hs. step Hs nonce s1 Hn; [done|]. unfold draw_nonce in Hn. injection Hn as <- <-.
    destruct (encrypt_with c bytes _ aad) as [stored|] eqn:E; injection Hs as <- <- <-; split_and!; try done.
    intros st [= <-]. apply decrypt_encrypt_with in E as [? ?]; [done|apply random_nonce_length].
  - intros [= <- <- <-]. split_and!; [done..|]. intros st [= <-]. split; [simpl; lia|done].
Qed.

Lemma wk_refused_alloc w d given kept content n a' e : writer_ok w d given kept content → 0 < n → allocate n (pages w) = (a', Err e) →
  writer_ok (set_pages a' w) d given kept content.
Proof.
  intros Hw Hn Ha. pose proof (allocate_placed (pages w) n (wk_pages _ _ _ _ _ _ _ _ Hw) Hn) as Hp. rewrite Ha in Hp. destruct Hp as [-> _].
  by apply (wk_same _ _ _ w _ d).
Qed.

(** Stored bytes in the file, as an entry will describe them. *)
Definition placed (f : list Z) (aad bytes : list Z) (st : Stored) (r : PageRun) : Prop :=
  stored_offset st = first r * PAGE_SIZE ∧ DATA_START_PAGE ≤ first r ∧ 0 < stored_len st ∧ count r = for_bytes (stored_len st) ∧
  (first r + count r) * PAGE_SIZE ≤ u64_max ∧
  let stored := field (Z.to_nat (stored_offset st)) (Z.to_nat (stored_len st)) f in
  stored_offset st + stored_len st ≤ Z.of_nat (length f) ∧ hash stored = stored_crc st ∧ opens_to aad stored bytes.

Lemma store_spec aad bytes w d given kept content r w' d' : writer_ok w d given kept content →
  bytes ≠ [] → Z.of_nat (length bytes) < 2 ^ 62 → store cipher aad bytes (w, d) = (r, (w', d')) →
  ∃ given', writer_ok (set_pages (pages w') w) d' given' kept content ∧ (∀ x, x ∈ given → x ∈ given') ∧
    match r with
    | Err _ => w' = set_pages (pages w') w
    | Ok st => ∃ run, w' = set_stats (stats w') (push_run run (set_pages (pages w') w)) ∧ run ∈ given' ∧
        (∀ p, holds p run = true → holders p (runs w) = 0%nat) ∧ placed (view d') aad bytes st run
    end.
Proof.
  intros Hw Hne Hlen Hs. unfold store in Hs. destruct bytes as [|b0 bytes0]; [done|]. set (bytes := b0 :: bytes0) in *. clearbody bytes.
  set (n := Z.of_nat (length bytes + stored_extra cipher)) in *.
  assert (Hx : (stored_extra cipher ≤ 28)%nat) by (unfold stored_extra; destruct cipher; [done|lia]).
  assert (Hbp : (0 < length bytes)%nat) by (destruct bytes; [done|simpl; lia]).
  assert (Hn : 0 < n < 2 ^ 63) by (subst n; lia).
  destruct (for_bytes_pos n) as [Hfp Hfb]; [lia|]. assert (Hfu : is_u64 (for_bytes n)) by (apply for_bytes_u64; [lia|]; unfold is_u64; lia).
  step Hs run s1 Ha.
  { unfold allocate_pages in Ha. simpl in Ha. destruct (allocate _ _) as [a' [rr|ae]] eqn:E; [done|]. injection Ha as <- <- <-. exists given.
    split_and!; [|done|done]. simpl. by eapply wk_refused_alloc. }
  unfold allocate_pages in Ha. simpl in Ha. destruct (allocate _ _) as [a' [rr|ae]] eqn:E; [|done]. injection Ha as -> <-.
  destruct (allocate_run (pages w) (given ++ spared) _ a' run (wk_pages _ _ _ _ _ _ _ _ Hw) Hfu Hfp (wk_accounted _ _ _ _ _ _ _ _ Hw) E)
    as (Hwf & Hacc & Hc & Hf & Hm).
  assert (Hc0 : 0 < count run) by (rewrite Hc; lia).
  assert (Hw1 : writer_ok (set_pages a' w) d (run :: given) kept content) by (by apply wk_allocate).
  assert (Hfresh : ∀ p, holds p run = true → holders p (runs w) = 0%nat) by (intros p Hp; by eapply (fresh_run cipher d0 spared w)).
  rewrite run_offset in Hs by (rewrite ?Hc; lia). unfold or_refuse in Hs. step Hs off s2 Ho; [done|]. injection Ho as <- <-.
  assert (Hin : ∀ x, x ∈ given → x ∈ run :: given) by (intros; by right).
  step Hs stored s2 Hseal; [|destruct s2 as [w1 d1]]; apply sealed_spec in Hseal as (-> & Ev & Ed & Ep & Hst).
  { exists (run :: given). split_and!; [|done|done]. by apply (wk_same _ _ _ (set_pages a' w) _ d). }
  specialize (Hst stored eq_refl).
  assert (Hw2 : writer_ok (set_pages a' w) d1 (run :: given) kept content) by (by apply (wk_same _ _ _ (set_pages a' w) _ d)).
  unfold check_stored_length in Hs. destruct Hst as [Hsl Hst]. rewrite Hsl, Nat.eqb_refl in Hs. step Hs u s2 Hu; [done|]. injection Hu as <- <-.
  assert (Hwrite : ∀ res d2, write_at (first run * PAGE_SIZE) stored d1 = (res, d2) →
    writer_ok (set_pages a' w) d2 (run :: given) kept content ∧ (res = Ok tt → view d2 = write_bytes (first run * PAGE_SIZE) stored (view d1))).
  { intros res d2 Hw3. eapply wk_write; [exact Hw2|left|done|unfold DATA_START_PAGE in Hf; lia| |exact Hw3]. rewrite Hsl, Hc. fold n. lia. }
  step Hs u2 s2 Hwr; unfold write_file in Hwr; simpl in Hwr; destruct (write_at _ stored d1) as [res d2] eqn:Hw3;
    destruct (Hwrite _ _ eq_refl) as [Hw4 Hview].
  { destruct res; [done|]. injection Hwr as <- <- <-. exists (run :: given). by split_and!. }
  destruct res as [[]|]; [|done]. injection Hwr as <- <-. specialize (Hview eq_refl).
  injection Hs as <- <- <-. exists (run :: given). split_and!; [by apply (wk_same _ _ _ (set_pages a' w) _ d2)|done|].
  exists run. split_and!; [done|left|done|]. unfold placed. simpl stored_offset. simpl stored_len. simpl stored_crc.
  assert (Ho : 0 ≤ first run * PAGE_SIZE) by (unfold DATA_START_PAGE, PAGE_SIZE in *; lia).
  assert (Efield : field (Z.to_nat (first run * PAGE_SIZE)) (Z.to_nat n) (view d2) = stored).
  { rewrite Hview. replace (Z.to_nat n) with (length stored) by (rewrite Hsl; subst n; lia). by apply write_bytes_field. }
  rewrite Efield. split_and!; try done; try lia.
  rewrite Hview, write_bytes_length by (done || (intros ->; simpl in Hsl; lia)). rewrite Hsl. subst n. lia.
Qed.

(** A chunk of a section within its widths. *)
Definition chunk_ok (m : ChunkMeta) (bytes : list Z) : Prop := ChunkMeta.ok m ∧ Z.of_nat (length bytes) < 2 ^ 62.

Lemma current_spec w d r s' : current_section (w, d) = (r, s') →
  s' = (w, d) ∧ ((∃ c, current w = Some c ∧ r = Ok c) ∨ ∃ e, r = Err e).
Proof. unfold current_section, the_writer, mbind, write_bind, mret, write_ret, refuse. simpl. destruct (current w); intros [= <- <-]; eauto. Qed.

(** A new identity is free in the section, and known from then on. *)
Lemma new_identity_spec m w d given kept content s v r w' d' : writer_ok w d given kept content → current w = Some (s, v) →
  new_identity m (w, d) = (r, (w', d')) →
  d' = d ∧ writer_ok w' d given kept content ∧ w' = set_identities (identities w') w ∧
  (r = Ok tt → ChunkMeta.identity m ∈ identities w' ∧ identity_free w s (ChunkMeta.identity m)).
Proof.
  intros Hw Hcur. unfold new_identity, the_writer, mbind, write_bind, change_writer, refuse. simpl. destruct (ChunkIdentities.insert m (identities w)) as [i|] eqn:E.
  - intros [= <- <- <-]. apply insert_Some in E as [Hni ->]. simpl. split_and!; [done| |done|].
    + apply (wk_same _ _ _ w _ d); try done. simpl. set_solver.
    + intros _. split; [set_solver|]. intros seen v' ids Hs Hl. destruct (wk_seen _ _ _ _ _ _ _ _ Hw) as (seen' & Hs' & _ & Hc).
      rewrite Hs in Hs'. injection Hs' as <-. destruct (Hc s v Hcur) as (_ & _ & Hi). destruct (Hi v' ids Hl) as [_ Hsub]. set_solver.
  - intros [= <- <- <-]. split_and!; [done|done|by destruct w|done].
Qed.

Lemma placed_entry f s v m bytes st run : chunk_ok m bytes → is_byte v → placed f (chunk_aad_for s m) bytes st run →
  Z.of_nat (length bytes) + 28 < 2 ^ 63 →
  let e := DirectoryEntry.mk s v m (stored_offset st) (stored_len st) (stored_crc st) (DirectoryEntry.flags_for s (ChunkMeta.kind m)) in
  entry_ok e ∧ describes cipher f e (s, v, m, bytes) ∧ DirectoryEntry.run e = run.
Proof.
  intros [Hm Hl] Hv (Ho & Hf & Hn & Hc & Hu & He & Hh & Hlen & Hop) Hb e.
  assert (Hfo : stored_offset st mod PAGE_SIZE = 0) by (rewrite Ho; apply Z.mod_mul; done).
  assert (Hbound : stored_offset st + stored_len st ≤ u64_max).
  { destruct (for_bytes_pos (stored_len st) Hn) as [_ Hle]. unfold PAGE_SIZE in *. lia. }
  assert (H0 : 0 ≤ stored_offset st) by (rewrite Ho; unfold DATA_START_PAGE, PAGE_SIZE in *; lia).
  split_and!.
  - split; [|done]. unfold DirectoryEntry.ok. simpl. unfold u64_max, is_u64 in *. split_and!; try done; try lia.
    rewrite <- Hh. apply hash_range. rewrite <- Hh. apply hash_range.
  - split; [done|]. unfold stores. simpl. rewrite (proj2 (Z.eqb_neq _ _)) by lia. split_and!; [done| |lia|done|].
    + rewrite Ho. unfold DATA_START_PAGE, PAGE_SIZE in *. lia.
    + destruct cipher; [done|by symmetry].
  - unfold DirectoryEntry.run, DirectoryEntry.run_of. simpl. destruct run as [fr cr]. simpl in *. rewrite Ho, Hc. f_equal. apply Z.div_mul. done.
Qed.

(** The parts of a writer that a section's calls leave alone. *)
Definition same_section (w w' : CheckpointWriter) : Prop :=
  current w' = current w ∧ following w' = following w ∧ previous w' = previous w ∧ begun w' = begun w.

Lemma write_chunk_spec m bytes w d given kept content r w' d' : writer_ok w d given kept content → chunk_ok m bytes →
  write_chunk cipher m bytes (w, d) = (r, (w', d')) →
  ∃ given' log, writer_ok w' d' given' kept (content ++ log) ∧ same_section w w' ∧
    match r with Ok _ => ∃ s v, current w = Some (s, v) ∧ log = [(s, v, m, bytes)] | Err _ => log = [] end.
Proof.
  intros Hw Hok Hs. unfold write_chunk in Hs. step Hs cur s1 Hcur.
  { apply current_spec in Hcur as [Heq _]. injection Heq as <- <-. exists given, []. by rewrite app_nil_r. }
  apply current_spec in Hcur as [-> [([s v] & Hcur & [= ->])|[e ?]]]; [|done].
  step Hs u s1 Hnew; [|destruct s1 as [w1 d1]]; eapply new_identity_spec in Hnew as (-> & Hw1 & Ew1 & Hid); [|exact Hw|exact Hcur| |exact Hw|exact Hcur].
  { exists given, []. rewrite app_nil_r. split_and!; [done| |done]. rewrite Ew1. done. }
  destruct u. destruct (Hid eq_refl) as [Hknown Hfree]. clear Hid.
  assert (Hss : same_section w w1) by (by rewrite Ew1).
  assert (Hcur1 : current w1 = Some (s, v)) by (by rewrite Ew1).
  assert (Hfree1 : identity_free w1 s (ChunkMeta.identity m)) by (by rewrite Ew1).
  assert (Hv : is_byte v) by (destruct (wk_seen _ _ _ _ _ _ _ _ Hw) as (? & _ & _ & Hc); by apply (Hc s v)).
  pose proof Hok as [Hmok Hlen].
  destruct (decide (bytes = [])) as [->|Hne].
  - (* a chunk without bytes takes no page *)
    step Hs st s2 Hst; [done|]. injection Hst as <- <-. injection Hs as <- <- <-.
    exists given, [(s, v, m, [])]. split_and!; [|done|eauto].
    eapply (wk_push cipher d0 spared w1 d given kept content
      (DirectoryEntry.mk s v m 0 0 (hash []) (DirectoryEntry.flags_for s (ChunkMeta.kind m))) (s, v, m, []) v); try done; simpl; try lia.
    + split; [|done]. unfold DirectoryEntry.ok. simpl. unfold is_u64. pose proof (hash_range []). split_and!; try done; try lia.
    + intros e0 ?. by left.
    + by rewrite app_nil_r.
  - step Hs st s2 Hst.
    { destruct (store_spec _ _ _ _ _ _ _ _ _ _ Hw1 Hne Hlen Hst) as (given' & Hw2 & Hsub & Hres).
      exists given', []. rewrite app_nil_r, Hres. split_and!; [done| |done]. rewrite Ew1. done. }
    destruct s2 as [w2 d2]. destruct (store_spec _ _ _ _ _ _ _ _ _ _ Hw1 Hne Hlen Hst) as (given' & Hw2 & Hsub & Hres).
    destruct Hres as (run & Ew2 & Hrun & Hfresh & Hpl).
    destruct (placed_entry (view d2) s v m bytes st run Hok Hv Hpl ltac:(lia)) as (Heok & Hdesc & Erun).
    injection Hs as <- <- <-. exists given', [(s, v, m, bytes)]. split_and!; [|by rewrite Ew2, Ew1|eauto].
    set (e := DirectoryEntry.mk _ _ _ _ _ _ _) in *.
    assert (Hpos : 0 < DirectoryEntry.length e) by apply Hpl.
    eapply (wk_push cipher d0 spared (set_pages (pages w2) w1) d2 given' kept content e (s, v, m, bytes) v); try done; simpl.
    + intros _ p. rewrite Erun. apply Hfresh.
    + intros _. left. by rewrite Erun.
    + intros e0 ?. by left.
    + by rewrite Ew2.
    + rewrite decide_True by done. by rewrite Ew2, Erun.
    + by rewrite Ew2.
    + by rewrite Ew2.
    + by rewrite Ew2.
    + by rewrite Ew2.
    + by rewrite Ew2.
Qed.

(** ** Chunks taken over *)

Lemma holders_two p (es : list DirectoryEntry) e1 e2 : e1 ∈ es → e2 ∈ es → e1 ≠ e2 →
  holds p (DirectoryEntry.run e1) = true → holds p (DirectoryEntry.run e2) = true → (2 ≤ holders p (map DirectoryEntry.run es))%nat.
Proof.
  intros (l1 & l2 & ->)%list_elem_of_split H2 Hne Hp1 Hp2. rewrite map_app, holders_app. simpl. rewrite Hp1.
  assert (Hx : e2 ∈ l1 ∨ e2 ∈ l2) by (apply elem_of_app in H2 as [?|[->|?]%elem_of_cons]; [by left|done|by right]).
  assert (Hpos : ∀ l, e2 ∈ l → (0 < holders p (map DirectoryEntry.run l))%nat).
  { intros l Hl. apply holders_pos. exists (DirectoryEntry.run e2). split; [|done]. by apply (list_elem_of_fmap_2 DirectoryEntry.run). }
  destruct Hx as [Hx|Hx]; apply Hpos in Hx; lia.
Qed.

Lemma used_runs_two p rd e1 e2 : e1 ∈ entries rd → e2 ∈ entries rd → e1 ≠ e2 →
  holds p (DirectoryEntry.run e1) = true → holds p (DirectoryEntry.run e2) = true → (2 ≤ holders p (used_runs rd))%nat.
Proof.
  intros H1 H2 Hne Hp1 Hp2. unfold used_runs. rewrite holders_app, holders_nonempty, holders_app.
  pose proof (holders_two p (entries rd) e1 e2 H1 H2 Hne Hp1 Hp2). lia.
Qed.

Lemma key_not_written w d given kept content s i : writer_ok w d given kept content → identity_free w s i →
  (s, i) ∉ map key (written w).
Proof.
  intros Hw Hfree (e & Hk & He)%list_elem_of_fmap. destruct (wk_seen _ _ _ _ _ _ _ _ Hw) as (seen & Hs & _).
  destruct (check_entries_spec _ _ _ Hs) as (_ & H2 & _). destruct (H2 e He) as (ids & Hl & Hin).
  pose proof (f_equal fst Hk : s = DirectoryEntry.section_type e) as ->. rewrite <- Hk in Hin. by apply (Hfree _ _ _ Hs Hl).
Qed.

(** The spared pages still hold what they held at the start. *)
Lemma spared_agree w d given kept content : writer_ok w d given kept content → agree spared (view d0) (view d).
Proof.
  intros Hw. apply (untouched_agree given); [apply (wk_view _ _ _ _ _ _ _ _ Hw)|]. intros p Hp.
  pose proof (wk_accounted _ _ _ _ _ _ _ _ Hw p) as Ha. rewrite holders_app in Ha. destruct (_ && _); lia.
Qed.

(** The pages of a chunk of the image followed that was not taken yet. *)
Lemma kept_fresh w d given kept content id rd e : writer_ok w d given kept content → following w = Some (id, rd) → e ∈ entries rd →
  0 < DirectoryEntry.length e → key e ∉ map key (written w) →
  ∀ p, holds p (DirectoryEntry.run e) = true → holders p (runs w) = 0%nat.
Proof.
  intros Hw Hf He Hl Hk p Hp. destruct (holders p (runs w)) eqn:E; [done|]. exfalso.
  destruct (wk_following _ _ _ _ _ _ _ _ Hw _ _ Hf) as [old Ho].
  assert (Hu : (0 < holders p (used_runs rd))%nat) by (apply holders_pos; eauto using used_run_elem).
  pose proof (fo_spared _ _ _ _ _ Ho p) as Hs. pose proof (wk_accounted _ _ _ _ _ _ _ _ Hw p) as Ha. rewrite holders_app in Ha.
  destruct (proj1 (holders_pos p (runs w)) ltac:(lia)) as (r & Hr & Hpr).
  destruct (wk_origin _ _ _ _ _ _ _ _ Hw r Hr) as [Hg|(e1 & He1 & ->)].
  - assert (0 < holders p given)%nat by (apply holders_pos; eauto). destruct (_ && _); lia.
  - destruct (wk_kept _ _ _ _ _ _ _ _ Hw e1 He1) as (_ & Hk1 & id' & rd' & Hf' & Hin'). rewrite Hf in Hf'. simplify_eq.
    assert (e1 ≠ e) by (intros ->; done). pose proof (used_runs_two p rd' e1 e Hin' He ltac:(done) Hpr Hp).
    pose proof (fo_disjoint _ _ _ _ _ Ho p). lia.
Qed.

Definition moved (e : DirectoryEntry) (off : Z) : DirectoryEntry :=
  DirectoryEntry.mk (DirectoryEntry.section_type e) (DirectoryEntry.section_version e) (DirectoryEntry.meta e) off
    (DirectoryEntry.length e) (DirectoryEntry.crc e)
    (DirectoryEntry.flags_for (DirectoryEntry.section_type e) (ChunkMeta.kind (DirectoryEntry.meta e))).

Lemma moved_same e : entry_ok e → moved e (DirectoryEntry.offset e) = e.
Proof. intros [_ Hf]. unfold moved. rewrite <- Hf. by destruct e. Qed.

Lemma set_pages_same w d given kept content a : writer_ok w d given kept content → a = pages w → writer_ok (set_pages a w) d given kept content.
Proof. intros Hw ->. by apply (wk_same _ _ _ w _ d). Qed.

(** Stored bytes copied to another place are the same chunk. *)
Lemma stores_moved f f' e plain off stored : 0 < DirectoryEntry.length e → stores cipher f e plain →
  stored = field (Z.to_nat (DirectoryEntry.offset e)) (Z.to_nat (DirectoryEntry.length e)) f →
  off mod PAGE_SIZE = 0 → DATA_START_PAGE * PAGE_SIZE ≤ off → off + DirectoryEntry.length e ≤ u64_max →
  off + DirectoryEntry.length e ≤ Z.of_nat (length f') →
  field (Z.to_nat off) (Z.to_nat (DirectoryEntry.length e)) f' = stored → stores cipher f' (moved e off) plain.
Proof.
  intros Hl Hs -> Hm Hd Hu Hlen Hf. unfold stores in *. cbn [DirectoryEntry.offset DirectoryEntry.length DirectoryEntry.crc moved].
  assert (E : (DirectoryEntry.length e =? 0) = false) by (apply Z.eqb_neq; lia). rewrite E in *.
  destruct Hs as (_ & _ & _ & Hh & Hc). rewrite Hf. split_and!; [done|done|lia|done|done].
Qed.

(** What [place_reused] leaves: the chunk where it is, or copied into pages
    handed out, or an error and nothing but pages taken. *)
Definition reused (w : CheckpointWriter) (e : DirectoryEntry) (kept : list DirectoryEntry) (content : list chunk) (plain : list Z)
    (r : result write_error Z) (w' : CheckpointWriter) (d' : Disk) : Prop :=
  ∃ given', writer_ok (set_pages (pages w') w) d' given' kept content ∧
    match r with
    | Err _ => w' = set_pages (pages w') w
    | Ok off => runs w' = runs w ++ (if decide (0 < DirectoryEntry.length e) then [DirectoryEntry.run (moved e off)] else []) ∧
        written w' = written w ∧ identities w' = identities w ∧ same_section w w' ∧
        is_u64 off ∧ stores cipher (view d') (moved e off) plain ∧
        (0 < DirectoryEntry.length e → ∀ p, holds p (DirectoryEntry.run (moved e off)) = true → holders p (runs w) = 0%nat) ∧
        (0 < DirectoryEntry.length e → DirectoryEntry.run (moved e off) ∈ given' ∨ off = DirectoryEntry.offset e)
    end.

(** The chunk stays in its pages. *)
Lemma reused_stays w e d given kept content plain id rd r w' d' : writer_ok w d given kept content → following w = Some (id, rd) →
  e ∈ entries rd → entry_ok e → 0 < DirectoryEntry.length e → stores cipher (view d) e plain → key e ∉ map key (written w) →
  (_ ← change_writer (push_run (DirectoryEntry.run e)); mret (DirectoryEntry.offset e)) (w, d) = (r, (w', d')) →
  reused w e kept content plain r w' d'.
Proof.
  intros Hw Hfol He Hok Hl Hst Hkey Hp. injection Hp as <- <- <-. exists given. rewrite decide_True, moved_same by done.
  split; [by apply (wk_same _ _ _ w _ d)|]. split_and!; try done; [apply Hok| |by right]. intros _. by eapply kept_fresh.
Qed.

(** The stored bytes are copied into a run that was just handed out. *)
Lemma reused_moves w e d given kept content plain target st a' r w' d' : writer_ok w d given kept content → 0 < DirectoryEntry.length e →
  stores cipher (view d) e plain → st = field (Z.to_nat (DirectoryEntry.offset e)) (Z.to_nat (DirectoryEntry.length e)) (view d) →
  Z.of_nat (length st) = DirectoryEntry.length e → wf a' → accounted a' (target :: given ++ spared) →
  count target = for_bytes (DirectoryEntry.length e) → DATA_START_PAGE ≤ first target → (first target + count target) * PAGE_SIZE ≤ u64_max →
  (_ ← write_file (first target * PAGE_SIZE) st;
   _ ← change_writer (push_run target);
   _ ← change_writer (λ w, let s := stats w in
         set_stats (mkStats (chunks_written s) (bytes_written s) (chunks_reused s) (bytes_reused s)
                      (chunks_moved s + 1) (bytes_moved s + DirectoryEntry.length e)) w);
   mret (first target * PAGE_SIZE)) (set_pages a' w, d) = (r, (w', d')) →
  reused w e kept content plain r w' d'.
Proof.
  intros Hw Hl Hst Hstored Hsl Hwf Hacc Hc Hf Hm Hs. destruct (for_bytes_pos _ Hl) as [Hfp Hfb].
  assert (Hw1 : writer_ok (set_pages a' w) d (target :: given) kept content) by (apply wk_allocate; [done..|lia]).
  assert (Hfresh : ∀ p, holds p target = true → holders p (runs w) = 0%nat) by (intros p Hp; by eapply (fresh_run cipher d0 spared w)).
  assert (Hwrite : ∀ res d2, write_at (first target * PAGE_SIZE) st d = (res, d2) →
    writer_ok (set_pages a' w) d2 (target :: given) kept content ∧ (res = Ok tt → view d2 = write_bytes (first target * PAGE_SIZE) st (view d))).
  { intros res d2 Hw3. eapply wk_write; [exact Hw1|left|done|unfold DATA_START_PAGE in Hf; lia| |exact Hw3]. rewrite Hsl, Hc. lia. }
  step Hs u2 s2 Hwr; unfold write_file in Hwr; simpl in Hwr; destruct (write_at _ st d) as [res d2] eqn:Hw3;
    destruct (Hwrite _ _ eq_refl) as [Hw4 Hview].
  { destruct res; [done|]. injection Hwr as <- <- <-. by exists (target :: given). }
  destruct res as [[]|]; [|done]. injection Hwr as <- <-. specialize (Hview eq_refl).
  injection Hs as <- <- <-. exists (target :: given). split; [by apply (wk_same _ _ _ (set_pages a' w) _ d2)|].
  assert (Ho : 0 ≤ first target * PAGE_SIZE) by (unfold DATA_START_PAGE, PAGE_SIZE in *; lia).
  assert (Hu : first target * PAGE_SIZE + DirectoryEntry.length e ≤ u64_max) by (unfold PAGE_SIZE in *; lia).
  assert (Hrun : DirectoryEntry.run (moved e (first target * PAGE_SIZE)) = target).
  { unfold DirectoryEntry.run, DirectoryEntry.run_of. cbn. rewrite Z.div_mul by done. destruct target as [ft ct]. simpl in *. by rewrite Hc. }
  rewrite decide_True, Hrun by done. split_and!; try done; [unfold is_u64, u64_max in *; lia| |intros _; left; left].
  apply (stores_moved (view d) _ _ _ _ st); try done.
  - by apply Z.mod_mul.
  - unfold DATA_START_PAGE, PAGE_SIZE in *. lia.
  - rewrite Hview, write_bytes_length by (done || (intros ->; simpl in Hsl; lia)). lia.
  - rewrite Hview, <- Hsl, Nat2Z.id. by apply write_bytes_field.
Qed.

Lemma place_reused_spec bad index e w d given kept content id rd chunks ver plain r w' d' : writer_ok w d given kept content →
  following w = Some (id, rd) → e ∈ entries rd → previous w = Some (chunks, ver) → chunks !! index = Some e → entry_ok e →
  stores cipher (view d0) e plain → key e ∉ map key (written w) →
  place_reused bad index e (w, d) = (r, (w', d')) → reused w e kept content plain r w' d'.
Proof.
  intros Hw Hfol He Hprev Hidx Hok Hst0 Hkey Hs. unfold place_reused in Hs. pose proof (entry_length_ok _ Hok) as Hlen0.
  destruct (wk_following _ _ _ _ _ _ _ _ Hw _ _ Hfol) as [old Hfo].
  assert (Hst : stores cipher (view d) e plain).
  { apply (stores_agree cipher (used_runs rd) (view d0)); [done| |by apply used_run_elem|done].
    eapply agree_mono; [|by eapply spared_agree]. intros p Hp. pose proof (fo_spared _ _ _ _ _ Hfo p). lia. }
  destruct (Z.eqb_spec (DirectoryEntry.length e) 0) as [E0|E0].
  { injection Hs as <- <- <-. exists given. split; [by apply set_pages_same|]. rewrite decide_False, moved_same by (done || lia).
    split_and!; try (done || lia || by rewrite app_nil_r). apply Hok. }
  assert (Hl : 0 < DirectoryEntry.length e) by lia. destruct (for_bytes_pos _ Hl) as [Hfp Hfb].
  step Hs w1 s1 Hthe; [done|]. injection Hthe as <- <-. destruct (relocate w).
  2:{ step Hs target s1 Ht; [done|]. injection Ht as <- <-. by eapply reused_stays. }
  step Hs target s1 Ht; unfold allocate_pages_before in Ht; simpl in Ht;
    destruct (allocate_before _ _ _) as [a' tgt] eqn:Ea; [done|]. injection Ht as <- <-.
  destruct tgt as [target|].
  2:{ pose proof (allocate_before_placed (pages w) (for_bytes (DirectoryEntry.length e)) (DirectoryEntry.offset e / PAGE_SIZE)
        (wk_pages _ _ _ _ _ _ _ _ Hw) Hfp) as Hp. rewrite Ea in Hp. destruct Hp as [-> _].
      replace (set_pages (pages w) w) with w in Hs by (by destruct w). by eapply reused_stays. }
  assert (Hcu : is_u64 (for_bytes (DirectoryEntry.length e))) by (apply for_bytes_u64; [done|apply Hok]).
  assert (Hfu : is_u64 (DirectoryEntry.offset e / PAGE_SIZE)).
  { destruct Hok as [(_ & _ & [Ho1 Ho2] & _) _]. split; [apply Z.div_pos; done|apply Z.div_lt_upper_bound; unfold PAGE_SIZE; lia]. }
  destruct (allocate_before_run _ (given ++ spared) _ _ _ _ (wk_pages _ _ _ _ _ _ _ _ Hw) Hcu Hfu
    Hfp (wk_accounted _ _ _ _ _ _ _ _ Hw) Ea) as (Hwf & Hacc & Hc & Hf & Hm).
  rewrite Hprev in Hs. step Hs file s1 Hfile; [done|]. injection Hfile as <- <-.
  step Hs stored s1 Hb; unfold or_refuse in Hb; destruct (stored_bytes bad (view d) chunks index) as [st|] eqn:Esb; try done.
  { injection Hb as <- <- <-. exists (target :: given). split; [|done]. apply wk_allocate; [done..|lia]. }
  injection Hb as <- <-. destruct (stored_bytes_stores cipher _ _ _ _ _ _ _ Hidx Hl Hst Esb) as [Hstored Hsl].
  rewrite run_offset in Hs by (rewrite ?Hc; lia). unfold or_refuse in Hs. step Hs off s1 Ho; [done|]. injection Ho as <- <-.
  eapply reused_moves; try done. by rewrite Hc.
Qed.
End ops.

(** ** Whole sections through the checkpoint writer

    The chunks a run of sections puts into the image, in order
    ([sections_log]): those the writer accepted, and those it took over, with
    the bytes the image followed has for them. *)
Import PageRun PageAllocator.
Open Scope Z_scope.

Section runs.
Context `{FileEnv} (cipher : option Aes256Gcm) (bad : Z → bool).

(** The chunk a call adds, when it is accepted. *)
Definition write_log (w : CheckpointWriter) (m : ChunkMeta) (bytes : list Z) : list chunk :=
  match current w with Some (s, v) => [(s, v, m, bytes)] | None => [] end.

Definition reuse_log (w : CheckpointWriter) (file : list Z) (index : nat) : list chunk :=
  match previous w with
  | Some (chunks, _) =>
      match chunks !! index, fetch cipher no_fault file chunks index with
      | Some e, Ok plain => [(DirectoryEntry.section_type e, DirectoryEntry.section_version e, DirectoryEntry.meta e, plain)]
      | _, _ => []
      end
  | None => []
  end.

Definition if_ok {E A B} (r : result E A) (l : list B) : list B := if is_ok r then l else [].

Fixpoint script_log (script : Script) (s : CheckpointWriter * Disk) : list chunk :=
  match script with
  | Return _ => []
  | WriteChunk m bytes go_on =>
      let '(r, s') := write_chunk cipher m bytes s in if_ok r (write_log s.1 m bytes) ++ script_log (go_on r) s'
  | ReuseChunk index go_on =>
      let '(r, s') := reuse_chunk bad index s in if_ok r (reuse_log s.1 (view s.2) index) ++ script_log (go_on r) s'
  | Previous go_on => script_log (go_on (previous_chunks cipher bad s.1 (view s.2))) s
  end.

Fixpoint sections_log (sections : list Section_) (s : CheckpointWriter * Disk) : list chunk :=
  match sections with
  | [] => []
  | x :: sections =>
      match begin_section (section_type_ x) (version_ x) s with
      | (Err _, _) => []
      | (Ok _, s) =>
          script_log (write_to x) s ++
          match run_script cipher bad (write_to x) s with
          | (Err _, _) => []
          | (Ok _, s) => sections_log sections s
          end
      end
  end.

(** What a section writes is within the widths of the format. *)
Fixpoint script_ok (script : Script) : Prop :=
  match script with
  | Return _ => True
  | WriteChunk m bytes go_on => chunk_ok m bytes ∧ ∀ r, script_ok (go_on r)
  | ReuseChunk _ go_on => ∀ r, script_ok (go_on r)
  | Previous go_on => ∀ p, script_ok (go_on p)
  end.

Definition section_ok (s : Section_) : Prop := is_byte (version_ s) ∧ script_ok (write_to s).

Context (d0 : Disk) (spared : list PageRun).
Abbreviation writer_ok := (writer_ok cipher d0 spared).

Lemma Forall2_elem_l {A B} (P : A → B → Prop) l k x : Forall2 P l k → x ∈ l → ∃ y, y ∈ k ∧ P x y.
Proof.
  induction 1 as [|a b l k Hab _ IH]; [by intros ?%not_elem_of_nil|]. intros [->|Hx]%elem_of_cons; [exists b; split; [left|done]|].
  destruct (IH Hx) as (y & Hy & HP). exists y. split; [by right|done].
Qed.

Lemma previous_entries w d given kept content s v chunks ver index e : writer_ok w d given kept content → current w = Some (s, v) →
  previous w = Some (chunks, ver) → chunks !! index = Some e →
  ∃ id rd plain, following w = Some (id, rd) ∧ e ∈ entries rd ∧ DirectoryEntry.section_type e = s ∧ entry_ok e ∧
    stores cipher (view d0) e plain ∧ stores cipher (view d) e plain.
Proof.
  intros Hw Hcur Hprev Hidx. pose proof (wk_previous _ _ _ _ _ _ _ _ Hw _ _ Hcur) as Hp. rewrite Hprev in Hp.
  destruct (following w) as [[id rd]|] eqn:Hf; [|done]. cbn in Hp. unfold section in Hp.
  destruct (wk_following _ _ _ _ _ _ _ _ Hw _ _ Hf) as [old Ho].
  assert (Hin : e ∈ filter (λ e, DirectoryEntry.section_type e = s) (entries rd)).
  { destruct (filter _ (entries rd)); [done|]. injection Hp as -> ->. by eapply list_elem_of_lookup_2. }
  apply list_elem_of_filter in Hin as [Hs Hin]. destruct (Forall2_elem_l _ _ _ _ (fo_entries _ _ _ _ _ Ho) Hin) as (c & _ & _ & Hst).
  pose proof (proj1 (Forall_forall _ _) (fo_ok _ _ _ _ _ Ho) e Hin) as Hok.
  exists id, rd, c.2. split_and!; try done.
  apply (stores_agree cipher (used_runs rd) (view d0)); [by apply entry_length_ok| |by apply used_run_elem|done].
  eapply agree_mono; [|by eapply spared_agree]. intros p Hpp. pose proof (fo_spared _ _ _ _ _ Ho p). lia.
Qed.

Lemma reuse_chunk_spec index w d given kept content r w' d' : writer_ok w d given kept content →
  reuse_chunk bad index (w, d) = (r, (w', d')) →
  ∃ given' kept', writer_ok w' d' given' kept' (content ++ if_ok r (reuse_log w (view d) index)) ∧ same_section w w'.
Proof.
  intros Hw Hs. unfold reuse_chunk in Hs. step Hs cur s1 Hcur.
  { apply current_spec in Hcur as [Heq _]. injection Heq as <- <-. exists given, kept. by rewrite app_nil_r. }
  apply current_spec in Hcur as [-> [([s v] & Hcur & [= ->])|[e ?]]]; [|done].
  step Hs w1 s1 Hthe; [done|]. injection Hthe as <- <-.
  destruct ('(chunks, _) ← previous w; chunks !! index) as [e|] eqn:Hprev.
  2:{ injection Hs as <- <- <-. exists given, kept. by rewrite app_nil_r. }
  destruct (previous w) as [[chunks ver]|] eqn:Hpw; [|done]. cbn in Hprev.
  destruct (Z.eqb_spec (DirectoryEntry.section_version e) v) as [Hv|]; cbn [negb] in Hs.
  2:{ injection Hs as <- <- <-. exists given, kept. by rewrite app_nil_r. }
  destruct (previous_entries _ _ _ _ _ _ _ _ _ _ _ Hw Hcur Hpw Hprev) as (id & rd & plain & Hfol & Hin & Htype & Hok & Hst0 & Hst).
  step Hs u s1 Hnew; [|destruct s1 as [w1 d1]]; eapply new_identity_spec in Hnew as (-> & Hw1 & Ew1 & Hid); [|exact Hw|exact Hcur| |exact Hw|exact Hcur].
  { exists given, kept. rewrite app_nil_r. split; [done|]. by rewrite Ew1. }
  destruct u. destruct (Hid eq_refl) as [Hknown Hfree]. clear Hid.
  assert (Hfol1 : following w1 = Some (id, rd)) by (by rewrite Ew1).
  assert (Hpw1 : previous w1 = Some (chunks, ver)) by (by rewrite Ew1).
  assert (Hfree1 : identity_free w1 s (ChunkMeta.identity (DirectoryEntry.meta e))) by (by rewrite Ew1).
  assert (Hkey : key e ∉ map key (written w1)) by (unfold key at 1; rewrite Htype; by eapply key_not_written).
  step Hs off s2 Hpl; [|destruct s2 as [w2 d2]]; eapply place_reused_spec in Hpl as (given' & Hw2 & Hres); try done.
  { exists given', kept. rewrite app_nil_r, Hres. split; [done|]. by rewrite Ew1. }
  destruct Hres as (Er & Ew2 & Ei & Hss & Hou & Hstm & Hfresh & Horig). injection Hs as <- <- <-.
  assert (∃ kept' : list DirectoryEntry, (∀ e0, e0 ∈ kept' → e0 ∈ kept ∨ e0 = e ∧ 0 < DirectoryEntry.length e) ∧ (∀ e0, e0 ∈ kept → e0 ∈ kept') ∧
    (0 < DirectoryEntry.length e → e ∈ kept')) as (kept' & Hk1 & Hk2 & Hk3).
  { destruct (decide (0 < DirectoryEntry.length e)); [exists (e :: kept)|exists kept]; split_and!; intros *;
      rewrite ?elem_of_cons; naive_solver. }
  exists given', kept'.
  assert (Hlog : reuse_log w (view d) index = [(s, v, DirectoryEntry.meta e, plain)]).
  { unfold reuse_log. rewrite Hpw, Hprev. rewrite (fetch_stores cipher (view d) chunks index e plain) by (first [done | by apply entry_length_ok]).
    by rewrite Htype, Hv. }
  assert (Hsame : same_section w w2) by (rewrite Ew1 in Hss; exact Hss).
  split; [|destruct Hsame as (? & ? & ? & ?); split_and!; done]. cbn [if_ok is_ok]. rewrite Hlog. rewrite <- Htype.
  eapply (wk_push cipher d0 spared (set_pages (pages w2) w1) d2 given' kept content (moved e off) _ v); try done; cbn.
  - rewrite Htype. by rewrite Ew1.
  - destruct Hok as [(H1 & H2 & H3 & H4 & H5 & H6) Hf]. split; [|done]. refine (conj H1 (conj H2 (conj Hou (conj H4 (conj H5 _))))). change (is_byte 0). unfold is_byte. lia.
  - split; [by cbn; rewrite Hv|done].
  - by rewrite Htype.
  - intros Hl. destruct (Horig Hl) as [?|Ho]; [by left|]. right. exists e. split; [by apply Hk3|]. rewrite Ho. by rewrite moved_same.
  - intros e0 He0. destruct (Hk1 e0 He0) as [?|[-> ?]]; [by left|]. right. split_and!; [done|done|]. exists id, rd. done.
  - unfold push_entry, set_stats. simpl. by rewrite Ew2.
  - apply Hss.
  - apply Hss.
  - apply Hss.
  - apply Hss.
Qed.

Lemma begin_section_spec s v w d given kept content r w' d' : writer_ok w d given kept content → is_byte v →
  begin_section s v (w, d) = (r, (w', d')) → d' = d ∧ writer_ok w' d given kept content.
Proof.
  intros [H1 H2 H3 H4 H5 H6 H7 H8 H9 H10 H11 H12 H13 H14 H15] Hv. unfold begin_section, the_writer, mbind, write_bind, change_writer, refuse.
  simpl. destruct H13 as (seen & Hs & Hb & Hc). case_decide as Hbegun; intros [= <- <- <-]; (split; [done|]); split; simpl; try done.
  - exists seen. split_and!; [done|done|]. intros s' v' ?. done.
  - exists seen. split_and!; [done| |].
    + intros s' Hs'. apply elem_of_app. left. by apply Hb.
    + intros s' v' [= <- <-]. split_and!; [done| |].
      * apply elem_of_app. right. left.
      * intros v' ids Hl. exfalso. apply Hbegun, Hb. by rewrite Hl.
  - intros s' v' [= <- <-]. done.
Qed.

Lemma run_script_spec script w d given kept content r w' d' : writer_ok w d given kept content → script_ok script →
  run_script cipher bad script (w, d) = (r, (w', d')) →
  ∃ given' kept', writer_ok w' d' given' kept' (content ++ script_log script (w, d)).
Proof.
  revert w d given kept content. induction script as [[[]|e]|m bytes go_on IH|index go_on IH|go_on IH];
    intros w d given kept content Hw Hok Hr; cbn [run_script script_log] in *.
  - injection Hr as <- <- <-. exists given, kept. by rewrite app_nil_r.
  - injection Hr as <- <- <-. exists given, kept. by rewrite app_nil_r.
  - destruct Hok as [Hc Hok]. destruct (write_chunk cipher m bytes (w, d)) as [r1 [w1 d1]] eqn:E.
    destruct (write_chunk_spec _ _ _ _ _ _ _ _ _ _ _ _ _ Hw Hc E) as (given' & log & Hw1 & _ & Hlog).
    assert (El : log = if_ok r1 (write_log w m bytes)).
    { destruct r1; [|done]. destruct Hlog as (s & v & Hcur & ->). unfold write_log. by rewrite Hcur. }
    subst log. cbn [fst snd] in *. rewrite app_assoc. by eapply IH.
  - destruct (reuse_chunk bad index (w, d)) as [r1 [w1 d1]] eqn:E.
    destruct (reuse_chunk_spec _ _ _ _ _ _ _ _ _ Hw E) as (given' & kept' & Hw1 & _). cbn [fst snd] in *.
    rewrite app_assoc. by eapply IH.
  - by eapply IH.
Qed.

(** What the sections leave: on success the image holds what they wrote. *)
Lemma write_sections_spec sections w d given kept content r w' d' : writer_ok w d given kept content → Forall section_ok sections →
  write_sections cipher bad sections (w, d) = (r, (w', d')) →
  ∃ given' kept' content', writer_ok w' d' given' kept' content' ∧ (r = Ok tt → content' = content ++ sections_log sections (w, d)).
Proof.
  intros Hw Hok. revert w d given kept content Hw. induction Hok as [|x sections [Hv Hx] _ IH]; intros w d given kept content Hw Hr; cbn [write_sections sections_log] in *.
  { injection Hr as <- <- <-. exists given, kept, content. split; [done|]. by rewrite app_nil_r. }
  step Hr u s1 Hb; [|destruct s1 as [w1 d1]]; destruct (begin_section_spec _ _ _ _ _ _ _ _ _ _ Hw Hv Hb) as [-> Hw1].
  { exists given, kept, content. done. }
  rewrite Hb. step Hr u2 s2 Hs; [|destruct s2 as [w2 d2]]; destruct (run_script_spec _ _ _ _ _ _ _ _ _ Hw1 Hx Hs) as (given' & kept' & Hw2).
  { eexists _, _, _. split; [exact Hw2|done]. }
  rewrite Hs. destruct (IH _ _ _ _ _ Hw2 Hr) as (given2 & kept2 & content2 & Hw3 & Hc). exists given2, kept2, content2.
  split; [done|]. intros Hrr. rewrite (Hc Hrr). by rewrite app_assoc.
Qed.
End runs.
