(* ===== verification/ManagerFacts.v ===== *)
(** * The directory a checkpoint writes, and the image it makes *)
From S2P Require Import Prelude Bytes PageAlloc Chunks FileHeaders Directory ImageFile ImageWriter FileManager WriterInv WriterOps.
Import PageRun PageAllocator.
Open Scope Z_scope.

Lemma chunks_map {A B} (f : A → B) rounds n l : chunks rounds n (map f l) = map (map f) (chunks rounds n l).
Proof.
  revert l. induction rounds as [|rounds IH]; intros [|x l]; simpl; try done. destruct n as [|n]; simpl.
  - f_equal. apply (IH (x :: l)).
  - f_equal; [by rewrite firstn_map|]. rewrite skipn_map. apply IH.
Qed.

Lemma Forall2_elem_r {A B} (P : A → B → Prop) l k y : Forall2 P l k → y ∈ k → ∃ x, x ∈ l ∧ P x y.
Proof.
  intros HP Hy. apply Forall2_flip in HP. apply list_elem_of_lookup in Hy as [i Hi].
  destruct (Forall2_lookup_l _ _ _ _ _ HP Hi) as (x & Hx & Hp). exists x. split; [by eapply list_elem_of_lookup_2|done].
Qed.

Section directory.
Context `{FileEnv} (cipher : option Aes256Gcm).

(** The entries of each block. *)
Definition entry_groups (es : list DirectoryEntry) : list (list DirectoryEntry) :=
  match es with [] => [[]] | _ => chunks (length es) (Z.to_nat ENTRIES_PER_BLOCK) es end.

Lemma groups_of_entries es : groups_of (map DirectoryEntry.encode es) = map (map DirectoryEntry.encode) (entry_groups es).
Proof.
  destruct es as [|e es]; [done|]. unfold groups_of, entry_groups. rewrite <- chunks_map. cbn [map length]. by rewrite length_map.
Qed.

Lemma entry_groups_concat es : concat (entry_groups es) = es.
Proof. destruct es; [done|]. apply chunks_all. Qed.

Lemma entry_groups_small es : Forall (λ g, Z.of_nat (length g) ≤ ENTRIES_PER_BLOCK) (entry_groups es).
Proof.
  destruct es as [|e es]; [constructor; [apply Z.leb_le; vm_compute; reflexivity|constructor]|]. eapply Forall_impl; [apply chunks_lengths; [done|]|].
  - apply Nat.ltb_lt. vm_compute. reflexivity.
  - intros g Hg. cbv beta in Hg. apply Nat2Z.inj_le in Hg. rewrite Z2Nat.id in Hg; [exact Hg|]. apply Z.leb_le. vm_compute. reflexivity.
Qed.

Lemma entry_groups_nonempty es : entry_groups es ≠ [].
Proof. by destruct es. Qed.

(** A chain of blocks, each naming the next, with the entries they hold. *)
Fixpoint linked (pointer : BlockRef) (blocks : list (Z * list Z)) (groups : list (list DirectoryEntry)) : Prop :=
  match blocks, groups with
  | [], [] => BlockRef.length pointer = 0
  | (o, b) :: blocks, es :: groups =>
      pointer = BlockRef.mk o (Z.of_nat (length b)) (hash b) ∧
      Z.of_nat (length b) = 32 + 48 * Z.of_nat (length es) ∧ Z.of_nat (length es) ≤ ENTRIES_PER_BLOCK ∧
      ∃ next, @decode_block _ block_read_error pointer b = Ok (es, [], next) ∧ linked next blocks groups
  | _, _ => False
  end.

(** A block and the run it was placed in. *)
Definition block_run (b : Z * list Z) (r : PageRun) : Prop :=
  b.1 = first r * PAGE_SIZE ∧ count r = for_bytes (Z.of_nat (length b.2) + Z.of_nat (stored_extra cipher)) ∧
  DATA_START_PAGE ≤ first r ∧ (first r + count r) * PAGE_SIZE ≤ u64_max ∧ (0 < length b.2)%nat.

Lemma place_blocks_spec groups next blocks gs a rs given r a' rs' :
  wf a → accounted a given → Forall (Forall entry_ok) groups → Forall (λ g, Z.of_nat (length g) ≤ ENTRIES_PER_BLOCK) groups →
  linked next blocks gs → BlockRef.ok next →
  place_blocks (place_block cipher) DirectoryBlock (map (map DirectoryEntry.encode) groups) next blocks (a, rs) = (r, (a', rs')) →
  ∃ fresh, wf a' ∧ accounted a' (fresh ++ given) ∧ rs' = rs ++ reverse fresh ∧ Forall (λ r, 0 < count r) fresh ∧
    ∀ root blocks', r = Ok (root, blocks') → linked root blocks' (reverse groups ++ gs) ∧ BlockRef.ok root ∧
      ∃ placed, blocks' = placed ++ blocks ∧ Forall2 block_run placed fresh.
Proof.
  revert next blocks gs a rs given. induction groups as [|g groups IH]; intros next blocks gs a rs given Hwf Hacc Hok Hsmall Hlink Hnext Hp;
    cbn [place_blocks map] in Hp.
  { injection Hp as <- <- <-. exists []. split_and!; try done; [by rewrite app_nil_r|]. intros root blocks' [= <- <-].
    split_and!; [done|done|]. by exists []. }
  inversion_clear Hok as [|? ? Hg Hok']. inversion_clear Hsmall as [|? ? Hgs Hsmall'].
  destruct (encode_block_total (map DirectoryEntry.encode g) next) as [bytes Hb]; [by rewrite length_map|]. rewrite Hb in Hp.
  destruct (@decode_encode_block _ block_read_error g next bytes 0 Hg Hnext Hgs Hb) as [_ Hlen].
  assert (Hx : (stored_extra cipher ≤ 28)%nat) by (unfold stored_extra; destruct cipher; [done|lia]).
  assert (Hep : ENTRIES_PER_BLOCK = 1364) by reflexivity.
  unfold place_block in Hp at 1. cbn [fst snd] in Hp. set (n := Z.of_nat (length bytes + stored_extra cipher)) in *.
  assert (Hn : 0 < n < 2 ^ 63) by (subst n; lia). destruct (for_bytes_pos n) as [Hfp Hfb]; [lia|].
  assert (Hfu : is_u64 (for_bytes n)) by (apply for_bytes_u64; [lia|unfold is_u64; lia]).
  destruct (allocate (for_bytes n) a) as [a1 [run|ae]] eqn:Ea.
  2:{ pose proof (allocate_placed a (for_bytes n) Hwf Hfp) as Hpl. rewrite Ea in Hpl. destruct Hpl as [-> _].
      injection Hp as <- <- <-. exists []. split_and!; try done. by rewrite app_nil_r. }
  destruct (allocate_run a given (for_bytes n) a1 run Hwf Hfu Hfp Hacc Ea) as (Hwf1 & Hacc1 & Hc & Hf & Hm).
  rewrite run_offset in Hp by (rewrite ?Hc; lia).
  destruct (Z.ltb_spec u32_max (Z.of_nat (length bytes))) as [Hbig|_]; [unfold u32_max in Hbig; lia|].
  set (next1 := BlockRef.mk (first run * PAGE_SIZE) (Z.of_nat (length bytes)) (hash bytes)) in *.
  destruct (IH next1 ((first run * PAGE_SIZE, bytes) :: blocks) (g :: gs) a1 (rs ++ [run]) (run :: given)) as (fresh & Hwf' & Hacc' & Ers & Hpos & Hres);
    [done|done|done|done| | |exact Hp|].
  - cbn [linked]. split_and!; [done|done|done|]. exists next. split; [|done]. by apply decode_encode_block.
  - split_and!; cbn; [|lia|lia|apply hash_range|apply hash_range]. unfold is_u64, u64_max, DATA_START_PAGE, PAGE_SIZE in *. lia.
  - exists (fresh ++ [run]). rewrite <- app_assoc, reverse_snoc. split_and!; [done|done| | |].
    + rewrite Ers. by rewrite <- app_assoc.
    + apply Forall_app. split; [done|]. repeat constructor. lia.
    + intros root blocks' Hr. destruct (Hres root blocks' Hr) as (Hl & Hro & placed & -> & Hpl). split_and!.
      * by rewrite reverse_cons, <- app_assoc.
      * done.
      * exists (placed ++ [(first run * PAGE_SIZE, bytes)]). rewrite <- app_assoc. split; [done|]. apply Forall2_app; [done|].
        repeat constructor; cbn; [rewrite Hc; f_equal; subst n; lia|done|by rewrite Hc|lia].
Qed.

(** ** Writing the blocks *)

(** The bytes of a block can be read back. *)
Definition block_in (f : list Z) (b : Z * list Z) : Prop :=
  ∀ root, read_block cipher no_fault f root b.1 (Z.of_nat (length b.2)) = Ok b.2.

Lemma block_in_agree f f' b r rs : block_run b r → r ∈ rs → agree rs f f' → block_in f b → block_in f' b.
Proof.
  intros (Ho & Hc & Hf & _ & Hl) Hr Ha Hb root. eapply read_block_agree; [exact Ha| |lia| |apply Hb].
  - rewrite Ho. unfold DATA_START_PAGE, PAGE_SIZE in *. lia.
  - apply covered_elem; rewrite Ho; [by apply Z.mod_mul|]. rewrite Z.div_mul by done. rewrite <- Hc. by destruct r.
Qed.

Lemma opens_to_block f o b stored : 0 ≤ o → (0 < length b)%nat → opens_to cipher (directory_aad o) stored b → block_in (write_bytes o stored f) (o, b).
Proof.
  intros Ho Hb [Hl Hop] root. unfold read_block, read_at. cbn [fst snd]. rewrite (proj2 (Z.eqb_neq _ _)) by lia. cbn [no_fault].
  rewrite write_bytes_length by (done || (intros ->; simpl in Hl; lia)). rewrite (proj2 (Z.leb_le _ _)) by lia.
  replace (Z.to_nat (Z.of_nat (length b) + Z.of_nat (stored_extra cipher))) with (length stored) by lia.
  rewrite write_bytes_field by done. destruct cipher; [by rewrite Hop|by subst].
Qed.

Lemma write_at_untouched r bytes d res d' : 0 ≤ first r → Z.of_nat (length bytes) ≤ count r * PAGE_SIZE →
  write_at (first r * PAGE_SIZE) bytes d = (res, d') → untouched [r] (view d) (view d').
Proof.
  intros Hf Hl. assert (Ho : 0 ≤ first r * PAGE_SIZE) by (unfold PAGE_SIZE; lia).
  assert (Hcov : covered [r] (first r * PAGE_SIZE) (Z.of_nat (length bytes))).
  { intros p Hp. simpl. rewrite (in_run r (Z.of_nat (length bytes))) by done. lia. }
  unfold write_at, next_fault. destruct (faults d) as [|[n|] fs]; intros [= <- <-]; cbn; apply untouched_write; try done. by apply covered_take.
Qed.

Context (d0 : Disk) (spared : list PageRun).
Abbreviation writer_ok := (writer_ok cipher d0 spared).

Lemma write_blocks_spec blocks rs w0 w d given kept content r w' d' : writer_ok w0 d given kept content → Forall2 block_run blocks rs →
  (∀ x, x ∈ rs → x ∈ given) → (∀ p, (0 < holders p rs)%nat → holders p (runs w0) = 0%nat) → (∀ p, (holders p rs ≤ 1)%nat) →
  write_blocks cipher blocks (w, d) = (r, (w', d')) →
  w' = w ∧ writer_ok w0 d' given kept content ∧ untouched rs (view d) (view d') ∧ (r = Ok tt → Forall (block_in (view d')) blocks).
Proof.
  intros Hw Hbr. revert d Hw. induction Hbr as [|[o b] run blocks rs Hb Hbr IH]; intros d Hw Hgiven Hfree Hdis Hr; cbn [write_blocks] in Hr.
  { injection Hr as <- <- <-. split_and!; [done|done|apply untouched_refl|done]. }
  pose proof Hb as (Ho & Hc & Hf & Hm & Hl). cbn [fst snd] in Ho, Hc, Hl. subst o.
  assert (Hf0 : 0 ≤ first run) by (unfold DATA_START_PAGE in Hf; lia).
  assert (Hrun : ∀ p, holds p run = true → holders p (runs w0) = 0%nat) by (intros p Hp; apply Hfree; simpl; rewrite Hp; lia).
  step Hr stored s1 Hseal; [|destruct s1 as [w1 d1]]; apply sealed_spec in Hseal as (-> & Ev & Ed & Ep & Hst).
  { split_and!; [done|by apply (wk_same _ _ _ w0 _ d)|rewrite Ev; apply untouched_refl|done]. }
  specialize (Hst stored eq_refl). pose proof Hst as [Hsl _]. unfold check_stored_length in Hr. rewrite Hsl, Nat.eqb_refl in Hr.
  step Hr u s2 Hu; [done|]. injection Hu as <- <-.
  assert (Hw1 : writer_ok w0 d1 given kept content) by (by apply (wk_same _ _ _ w0 _ d)).
  destruct (for_bytes_pos (Z.of_nat (length b) + Z.of_nat (stored_extra cipher))) as [_ Hfb]; [lia|].
  assert (Hfit : Z.of_nat (length stored) ≤ count run * PAGE_SIZE) by (rewrite Hsl, Hc; lia).
  step Hr u2 s2 Hwr; unfold write_file in Hwr; simpl in Hwr; destruct (write_at _ stored d1) as [res d2] eqn:Hw3;
    destruct (wk_write _ _ _ _ _ _ _ _ _ _ _ _ Hw1 (Hgiven run (list_elem_of_here _ _)) Hrun Hf0 Hfit Hw3) as [Hw4 Hview];
    pose proof (write_at_untouched _ _ _ _ _ Hf0 Hfit Hw3) as Hun; rewrite Ev in Hun.
  { destruct res; [done|]. injection Hwr as <- <- <-. split_and!; [done|done| |done].
    intros i x Hi. apply Hun. simpl in *. lia. }
  destruct res as [[]|]; [|done]. injection Hwr as <- <-. specialize (Hview eq_refl).
  destruct (IH d2) as (-> & Hw5 & Hun' & Hblocks); [done|intros x ?; apply Hgiven; by right| | |exact Hr|].
  { intros p Hp. apply Hfree. simpl. lia. }
  { intros p. specialize (Hdis p). simpl in Hdis. lia. }
  split_and!; [done|done| |].
  - apply (untouched_trans _ _ (view d2)); [|by apply (untouched_more rs [run])]. intros i x Hi. apply Hun. simpl in *. lia.
  - intros Hok. constructor; [|by apply Hblocks]. apply (block_in_agree (view d2) _ _ run [run]); [done|left| |].
    + apply (untouched_agree rs); [done|]. intros p Hp. specialize (Hdis p). simpl in *. lia.
    + rewrite Hview. apply opens_to_block; [unfold PAGE_SIZE; lia|done|done].
Qed.

(** ** Reading the chain *)

Lemma linked_check pointer o b blocks es groups r : linked pointer ((o, b) :: blocks) (es :: groups) → block_run (o, b) r →
  @check_pointer block_read_error pointer = Ok tt ∧
  Run (BlockRef.offset pointer / PAGE_SIZE) (for_bytes (BlockRef.length pointer + Z.of_nat (stored_extra cipher))) = r.
Proof.
  intros (-> & Hlen & Hsmall & _) (Ho & Hc & Hf & Hm & Hl). cbn [fst snd BlockRef.offset BlockRef.length] in *. split.
  - unfold check_pointer. cbn [BlockRef.offset BlockRef.length]. change (Z.of_nat BLOCK_HEADER_SIZE) with 32. change (Z.of_nat ENTRY_SIZE) with 48.
    change MAX_BLOCK_SIZE with 65536. change ENTRIES_PER_BLOCK with 1364 in Hsmall.
    assert (Em : o mod PAGE_SIZE = 0) by (rewrite Ho; by apply Z.mod_mul). rewrite Em, Hlen. cbn [Z.eqb negb].
    destruct (Z.ltb_spec o (DATA_START_PAGE * PAGE_SIZE)) as [Hlt|_]; [unfold DATA_START_PAGE, PAGE_SIZE in *; lia|].
    rewrite (proj2 (Z.leb_le 32 _)), (proj2 (Z.leb_le _ 65536)) by lia. cbn [andb negb orb].
    replace (32 + 48 * Z.of_nat (length es) - 32) with (Z.of_nat (length es) * 48) by lia. by rewrite Z.mod_mul.
  - rewrite Ho, Z.div_mul, <- Hc by done. by destruct r.
Qed.

Lemma follow_linked f root blocks : ∀ groups pointer rs visited es seen, linked pointer blocks groups → blocks ≠ [] →
  Forall2 block_run blocks rs → Forall (block_in f) blocks → (∀ p, (holders p rs ≤ 1)%nat) →
  (∀ r, r ∈ rs → first r * PAGE_SIZE ∉ visited) →
  follow_chain (Z.of_nat (stored_extra cipher)) (read_block cipher no_fault f root) (length blocks) pointer visited es [] seen
    = Some (Ok (es ++ concat groups, [], seen ++ rs)).
Proof.
  induction blocks as [|[o b] blocks IH]; intros groups pointer rs visited es seen Hlink Hne Hrun Hin Hdis Hvis; [done|].
  destruct groups as [|g groups]; [done|]. apply Forall2_cons_inv_l in Hrun as (r & rs' & Hbr & Hrun & ->).
  inversion_clear Hin as [|? ? Hb Hin']. destruct (linked_check _ _ _ _ _ _ _ Hlink Hbr) as [Hcheck Er].
  pose proof Hlink as (Hp & Hlen & Hsmall & next & Hdec & Hlink'). cbn [length follow_chain].
  assert (Eo : BlockRef.offset pointer = o) by (by rewrite Hp). assert (El : BlockRef.length pointer = Z.of_nat (length b)) by (by rewrite Hp).
  pose proof Hbr as (Ho & Hc & Hf & _ & Hlb). cbn [fst snd] in *.
  rewrite decide_False; [|rewrite Eo, Ho; apply Hvis; left]. rewrite Hcheck. 
  assert (Hread : read_block cipher no_fault f root (BlockRef.offset pointer) (BlockRef.length pointer) = Ok b) by (rewrite Eo, El; apply (Hb root)).
  rewrite Hread.
  rewrite Hdec, Er. cbn [app concat]. destruct blocks as [|b' blocks'].
  { destruct groups; [|done]. destruct rs'; [|by inversion Hrun]. cbn [linked] in Hlink'. rewrite Hlink'. cbn. by rewrite app_nil_r. }
  assert (Hnext : BlockRef.length next ≠ 0).
  { destruct b' as [o' b']. destruct groups as [|g' groups]; [done|]. destruct Hlink' as (-> & Hl' & _). cbn. lia. }
  rewrite (proj2 (Z.eqb_neq _ _)) by done. rewrite (IH groups next rs'); [|done|done|done|done| |].
  - by rewrite <- !app_assoc.
  - intros p. specialize (Hdis p). simpl in Hdis. lia.
  - intros r' Hr'. rewrite Eo, Ho. apply not_elem_of_union. split; [|apply Hvis; by right].
    rewrite elem_of_singleton. intros E. apply Z.mul_reg_r in E; [|done].
    assert (Hpos : ∀ x, count x = for_bytes (Z.of_nat (length b) + Z.of_nat (stored_extra cipher)) ∨ x ∈ rs' → holds (first x) x = true).
    { intros x Hx. assert (0 < count x).
      { destruct Hx as [->|Hx]; [apply for_bytes_pos; lia|]. apply (Forall2_elem_r _ _ _ _ Hrun) in Hx as (y & _ & _ & -> & _ & _ & Hy).
        apply for_bytes_pos. lia. }
      unfold holds. apply andb_true_iff. split; [apply Z.leb_le|apply Z.ltb_lt]; lia. }
    specialize (Hdis (first r)). simpl in Hdis. rewrite (Hpos r) in Hdis by (by left).
    assert (0 < holders (first r) rs')%nat; [|lia]. apply holders_pos. exists r'. split; [done|]. rewrite <- E. apply Hpos. by right.
Qed.

(** ** The image *)

(** The file holds, in the pages [rs], an image that lists [content]. *)
Definition holds_image (f : list Z) (root : BlockRef) (rs : list PageRun) (content : list chunk) : Prop :=
  ∃ rd, open cipher no_fault f root = Ok rd ∧ skipped rd = [] ∧ used_runs rd ≡ₚ rs ∧
    Forall entry_ok (entries rd) ∧ Forall2 (describes cipher f) (entries rd) content.

Lemma described_placed f es content : Forall2 (describes cipher f) es content → Forall entry_ok es →
  check_all (λ e, check_placement (Z.of_nat (length f)) (DirectoryEntry.offset e) (DirectoryEntry.length e)) es = Ok tt.
Proof.
  induction 1 as [|e c es content [_ Hs] _ IH]; intros Hok; [done|]. inversion_clear Hok as [|? ? He Hok'].
  cbn [check_all]. rewrite (IH Hok'). unfold check_placement, stores in *. destruct (DirectoryEntry.length e =? 0) eqn:E; [done|].
  apply Z.eqb_neq in E. pose proof (entry_length_ok e He). destruct Hs as (Hm & Hd & Hle & _). rewrite Hm. cbn [Z.eqb negb orb].
  destruct (Z.ltb_spec (DirectoryEntry.offset e) (DATA_START_PAGE * PAGE_SIZE)); [lia|]. cbn [orb].
  unfold checked_add64. rewrite (proj2 (Z.leb_le _ _)) by lia. destruct (Z.ltb_spec (Z.of_nat (length f)) (DirectoryEntry.offset e + DirectoryEntry.length e)); [lia|done].
Qed.

Lemma linked_chain f root blocks groups rs : linked root blocks groups → blocks ≠ [] → Forall2 block_run blocks rs →
  Forall (block_in f) blocks → (∀ p, (holders p rs ≤ 1)%nat) →
  decode_chain (Z.of_nat (stored_extra cipher)) (read_block cipher no_fault f root) (S (length f)) root = Some (Ok (concat groups, [], rs)).
Proof.
  intros Hl Hne Hr Hin Hdis. assert (E : BlockRef.length root ≠ 0).
  { destruct blocks as [|[o b] blocks]; [done|]. destruct groups as [|g groups]; [done|]. destruct Hl as (-> & Hl & _). cbn. lia. }
  unfold decode_chain. rewrite (proj2 (Z.eqb_neq _ _)) by done.
  pose proof (follow_linked f root blocks groups root rs ∅ [] [] Hl Hne Hr Hin Hdis) as Hf. specialize (Hf ltac:(set_solver)).
  destruct (follow_chain_ends cipher no_fault f root (S (length f)) root ∅ [] [] []) as [r Hs]; [set_solver|rewrite size_empty; lia|].
  rewrite Hs. apply (follow_chain_more _ _ _ (length blocks + S (length f))) in Hf, Hs; [|lia..]. cbn [app] in Hf. congruence.
Qed.

Lemma place_directory_spec w d given kept content r w' d' : writer_ok w d given kept content →
  place_directory cipher (w, d) = (r, (w', d')) →
  d' = d ∧ ∃ fresh, runs w' = runs w ++ reverse fresh ∧ writer_ok (set_pages (pages w') w) d (fresh ++ given) kept content ∧
    (∀ p, (0 < holders p fresh)%nat → holders p (runs w) = 0%nat) ∧ (∀ p, (holders p fresh ≤ 1)%nat) ∧ Forall (λ x, 0 < count x) fresh ∧
    ∀ root blocks, r = Ok (root, blocks) →
      linked root blocks (entry_groups (written w)) ∧ BlockRef.ok root ∧ Forall2 block_run blocks fresh.
Proof.
  intros Hw. unfold place_directory. cbn [fst snd]. destruct (encode_blocks_raw _ _ _ _) as [rp [a' rs']] eqn:Hraw. intros [= <- <- <-].
  split; [done|]. unfold encode_blocks_raw in Hraw. rewrite groups_of_entries in Hraw.
  replace (reverse (map (map DirectoryEntry.encode) (entry_groups (written w)))) with
    (map (map DirectoryEntry.encode) (reverse (entry_groups (written w)))) in Hraw by apply (fmap_reverse (map DirectoryEntry.encode)).
  destruct (place_blocks_spec (reverse (entry_groups (written w))) BlockRef.default_ [] [] (pages w) (runs w) (given ++ spared) rp a' rs')
    as (fresh & Hwf & Hacc & Ers & Hpos & Hres); [apply Hw|apply Hw| | |done| |exact Hraw|].
  - apply Forall_reverse, Forall_concat. rewrite entry_groups_concat. apply Hw.
  - apply Forall_reverse, entry_groups_small.
  - unfold BlockRef.ok, BlockRef.default_, is_u64. cbn. lia.
  - cbn [runs pages]. exists fresh. split_and!; [done|by apply wk_allocate_runs| | |done|].
    + intros p Hp. destruct (holders p (runs w)) eqn:E; [done|]. pose proof (runs_covered _ _ _ _ _ _ _ _ p Hw ltac:(lia)) as Hc.
      specialize (Hacc p). rewrite holders_app in Hacc. destruct (_ && _); lia.
    + intros p. specialize (Hacc p). rewrite holders_app in Hacc. destruct (_ && _); lia.
    + intros root blocks ->. destruct (Hres root blocks eq_refl) as (Hl & Hok & placed & -> & Hbr).
      rewrite !app_nil_r, reverse_involutive in Hl. by rewrite app_nil_r.
Qed.

(** The runs of an image in the runs that are accounted for. *)
Lemma image_pages w d given kept content rs : writer_ok w d given kept content → (∀ p, (holders p rs ≤ 1)%nat) →
  (∀ x, x ∈ rs → x ∈ given ∨ x ∈ spared) → ∃ a, from_used rs = Ok a.
Proof.
  intros Hw Hdis Hin. assert (is_ok (from_used rs) = true) as Hok.
  { apply from_used_accepts. split; [|done]. apply Forall_forall. intros x Hx Hc.
    apply (accounted_range (pages w) (given ++ spared)); [apply Hw|apply Hw| |done]. apply elem_of_app. by apply Hin. }
  destruct (from_used rs); [eauto|done].
Qed.

Lemma writer_runs_listed w d given kept content x : writer_ok w d given kept content → x ∈ runs w → x ∈ given ∨ x ∈ spared.
Proof.
  intros Hw Hx. destruct (wk_origin _ _ _ _ _ _ _ _ Hw x Hx) as [?|(e & He & ->)]; [by left|right].
  destruct (wk_kept _ _ _ _ _ _ _ _ Hw e He) as (Hl & _ & id & rd & Hfol & Hin).
  destruct (wk_following _ _ _ _ _ _ _ _ Hw id rd Hfol) as [old Ho]. apply (fo_listed _ _ _ _ _ Ho). by apply used_run_elem.
Qed.

(** What [finish] leaves. *)
Lemma finish_spec w d given kept content r w' d' : writer_ok w d given kept content → finish cipher (w, d) = (r, (w', d')) →
  ∃ w0 given', writer_ok w0 d' given' kept content ∧
    ∀ root rs, r = Ok (root, rs) → holds_image (view d') root rs content ∧ BlockRef.ok root ∧ BlockRef.length root ≠ 0 ∧
      (∀ p, (holders p rs ≤ 1)%nat) ∧ Forall (λ x, 0 < count x) rs ∧ ∀ x, x ∈ rs → x ∈ given' ∨ x ∈ spared.
Proof.
  intros Hw Hs. unfold finish in Hs. step Hs rb s1 Hp; [|destruct s1 as [w1 d1]];
    destruct (place_directory_spec _ _ _ _ _ _ _ _ Hw Hp) as (-> & fresh & Er & Hw1 & Hfree & Hdis & Hpos & Hres).
  { exists (set_pages (pages w') w), (fresh ++ given). done. }
  destruct rb as [root blocks]. destruct (Hres root blocks eq_refl) as (Hlink & Hok & Hbr). clear Hres.
  assert (Hgiven : ∀ x, x ∈ fresh → x ∈ fresh ++ given) by (intros; apply elem_of_app; by left).
  step Hs u s2 Hwb; [|destruct s2 as [w2 d2]];
    eapply (write_blocks_spec blocks fresh (set_pages (pages w1) w) w1) in Hwb as (-> & Hw2 & _ & Hblocks); try done.
  { exists (set_pages (pages w1) w), (fresh ++ given). done. }
  destruct u. specialize (Hblocks eq_refl). injection Hs as <- <- <-. exists (set_pages (pages w1) w), (fresh ++ given). split; [done|].
  intros root' rs [= <- <-]. rewrite Er.
  assert (Hperm : runs w ++ fresh ≡ₚ runs w ++ reverse fresh) by (by rewrite reverse_Permutation).
  assert (Hdis' : ∀ p, (holders p (runs w ++ fresh) ≤ 1)%nat).
  { intros p. rewrite holders_app. specialize (Hdis p). specialize (Hfree p). pose proof (wk_disjoint _ _ _ _ _ _ _ _ Hw p). lia. }
  assert (Hposr : Forall (λ x, 0 < count x) (runs w)).
  { rewrite (wk_runs _ _ _ _ _ _ _ _ Hw). apply Forall_forall. intros x [Hx _]%list_elem_of_filter. done. }
  assert (Hlisted : ∀ x, x ∈ runs w ++ fresh → x ∈ fresh ++ given ∨ x ∈ spared).
  { intros x [Hx|Hx]%elem_of_app; [|left; by apply Hgiven]. destruct (writer_runs_listed _ _ _ _ _ _ Hw Hx); [left; apply elem_of_app; by right|by right]. }
  assert (Hne : blocks ≠ []) by (intros ->; destruct (entry_groups (written w)) eqn:E; [by apply (entry_groups_nonempty (written w))|done]).
  assert (Hroot : BlockRef.length root ≠ 0).
  { destruct blocks as [|[o b] blocks]; [done|]. destruct (entry_groups (written w)); [done|]. destruct Hlink as (-> & Hl & _). cbn. lia. }
  refine (conj _ (conj Hok (conj Hroot (conj _ (conj _ _))))).
  - destruct (wk_seen _ _ _ _ _ _ _ _ Hw) as (seen & Hseen & _). destruct (image_pages _ _ _ _ _ _ Hw2 Hdis' Hlisted) as [a Ha].
    pose proof (wk_written _ _ _ _ _ _ _ _ Hw2) as Hd2. cbn [written set_pages] in Hd2.
    set (rd := mkReader (written w) [] fresh). exists rd.
    assert (Eu : used_runs rd = runs w ++ fresh).
    { unfold used_runs. cbn. rewrite app_nil_r. by rewrite <- (wk_runs _ _ _ _ _ _ _ _ Hw). }
    split_and!; [|done|by rewrite Eu|apply Hw|done].
    apply (open_intro cipher no_fault _ root rd seen a); [|done|by eapply described_placed; [|apply Hw]|done|by rewrite Eu].
    cbn. rewrite <- (entry_groups_concat (written w)). by eapply linked_chain.
  - intros p. rewrite <- Hperm. apply Hdis'.
  - rewrite <- Hperm. by apply Forall_app.
  - intros x. rewrite <- Hperm. apply Hlisted.
Qed.
End directory.

(** ** The manager of a storage file: header pages, and one checkpoint's image *)
Import PageRun PageAllocator.
Open Scope Z_scope.

(** ** Pages of the headers *)

(** Page [i] of the file, as opening it reads the headers. *)
Definition page (i : nat) (f : list Z) : list Z := page_of (read_prefix f (DATA_START_PAGE * PAGE_SIZE)) i.

Lemma prefix_bytes : Z.to_nat (DATA_START_PAGE * PAGE_SIZE) = (3 * PAGE_BYTES)%nat.
Proof. vm_compute. reflexivity. Qed.

Lemma page_bytes : Z.of_nat PAGE_BYTES = PAGE_SIZE.
Proof. vm_compute. reflexivity. Qed.

#[local] Opaque PAGE_BYTES.

Lemma page_field i f : (i < 3)%nat → page i f = field (i * PAGE_BYTES) PAGE_BYTES f.
Proof.
  intros Hi. unfold page, page_of, read_prefix, field. rewrite prefix_bytes, skipn_firstn_comm, take_take. f_equal. nia.
Qed.

(** The bytes of page [i] are in [f'] as they are in [f]. *)
Definition page_kept (i : nat) (f f' : list Z) : Prop :=
  ∀ k x, (i * PAGE_BYTES ≤ k < S i * PAGE_BYTES)%nat → f !! k = Some x → f' !! k = Some x.

Lemma page_kept_eq i f f' : (i < 3)%nat → (3 * PAGE_BYTES ≤ length f)%nat → page_kept i f f' → page i f' = page i f.
Proof.
  intros Hi Hl Hk. rewrite !page_field by done. apply list_eq. intros k. unfold field.
  destruct (decide (k < PAGE_BYTES)%nat) as [Hlt|Hge]; [|by rewrite !lookup_take_ge by lia].
  rewrite !lookup_take_lt, !lookup_drop by done. destruct (lookup_lt_is_Some_2 f (i * PAGE_BYTES + k)) as [x Hx]; [nia|].
  rewrite Hx. apply Hk; [lia|done].
Qed.

Lemma page_written i bs f : (i < 3)%nat → length bs = PAGE_BYTES → page i (write_bytes (PAGE_SIZE * Z.of_nat i) bs f) = bs.
Proof.
  intros Hi Hl. rewrite page_field by done. rewrite <- Hl at 2. rewrite <- page_bytes.
  replace (i * PAGE_BYTES)%nat with (Z.to_nat (Z.of_nat PAGE_BYTES * Z.of_nat i)) by lia. apply write_bytes_field. lia.
Qed.

Lemma page_kept_write i o bs f : 0 ≤ o → (Z.of_nat (S i * PAGE_BYTES) ≤ o ∨ o + Z.of_nat (length bs) ≤ Z.of_nat (i * PAGE_BYTES)) →
  page_kept i f (write_bytes o bs f).
Proof. intros Ho Hout k x Hk Hx. apply write_bytes_outside; [done|lia|done]. Qed.

Lemma page_kept_untouched i given f f' : (i < 3)%nat → (∀ p, p < DATA_START_PAGE → holders p given = 0%nat) → untouched given f f' → page_kept i f f'.
Proof.
  intros Hi Hg Hu k x Hk Hx. apply Hu; [|done]. apply Hg. unfold page_at. rewrite <- page_bytes. apply Z.div_lt_upper_bound; [|unfold DATA_START_PAGE]; pose proof page_bytes; unfold PAGE_SIZE in *; lia.
Qed.

Lemma page_kept_resize i n f : (S i * PAGE_BYTES ≤ n)%nat → page_kept i f (resize n 0 f).
Proof.
  intros Hn k x Hk Hx. rewrite lookup_resize; [done|lia|]. by apply lookup_lt_Some in Hx.
Qed.

Lemma slot_page s : s = 0 ∨ s = 1 → ∃ i, (i < 3)%nat ∧ (0 < i)%nat ∧ slot_offset s = PAGE_SIZE * Z.of_nat i ∧ i = Z.to_nat (1 + s).
Proof. intros [->| ->]; [exists 1%nat|exists 2%nat]; unfold slot_offset; split_and!; lia. Qed.

(** ** Images *)

Section images.
Context `{FileEnv} (cipher : option Aes256Gcm).

Lemma holders_perm p rs rs' : rs ≡ₚ rs' → holders p rs = holders p rs'.
Proof. induction 1; simpl; lia. Qed.

Lemma entries_lengths rd : skipped rd = [] → Forall entry_ok (entries rd) → lengths_ok rd.
Proof. intros Hs Ho. split; [|by rewrite Hs]. eapply Forall_impl; [exact Ho|]. apply entry_length_ok. Qed.

(** An image stays as long as its pages stay. *)
Lemma holds_image_agree f f' root rs content : holds_image cipher f root rs content → agree rs f f' → holds_image cipher f' root rs content.
Proof.
  intros (rd & Ho & Hs & Hu & Hok & Hd) Ha. exists rd.
  assert (Ha' : agree (used_runs rd) f f') by (eapply agree_mono; [|exact Ha]; intros p; by rewrite (holders_perm p _ _ Hu)).
  split_and!; [|done|done|done|].
  - eapply open_agree; [by apply entries_lengths|exact Ha'|exact Ho].
  - eapply describes_agree; [done|exact Ha'| |done]. intros e. apply used_run_elem.
Qed.

Lemma agree_refl rs f : agree rs f f.
Proof. by intros i x. Qed.

(** The image determines what opening it gives. *)
Lemma holds_image_open bad f root rs content rd : holds_image cipher f root rs content → open cipher bad f root = Ok rd →
  open cipher no_fault f root = Ok rd.
Proof.
  intros (rd0 & Ho & Hs & Hu & Hok & Hd) Hb. assert (rd0 = rd) as <-; [|done].
  apply open_inv in Ho as (Hc0 & _), Hb as (Hc & _). unfold decode_chain in *. destruct (BlockRef.length root =? 0); [by destruct rd, rd0; simplify_eq|].
  apply (follow_chain_agree _ _ f f) in Hc as [_ Hc]. specialize (Hc (agree_refl _ _)). rewrite Hc0 in Hc. destruct rd, rd0. cbn in Hc. congruence.
Qed.

Lemma used_accounted used a p : from_used used = Ok a → (holders p used ≤ 1)%nat.
Proof. intros Ha. assert (Hi : is_ok (from_used used) = true) by (by rewrite Ha). apply from_used_accepts in Hi as [_ Hi]. apply Hi. Qed.

Lemma holds_image_used f root rs content : holds_image cipher f root rs content → ∃ a, from_used rs = Ok a.
Proof.
  intros (rd & Ho & _ & Hu & _). apply open_inv in Ho as (_ & _ & _ & _ & a & Ha).
  assert (Hi : is_ok (from_used (used_runs rd)) = true) by (by rewrite Ha). apply from_used_accepts in Hi as [H1 H2].
  assert (Hok : is_ok (from_used rs) = true).
  { apply from_used_accepts. split; [by rewrite <- Hu|]. intros p. rewrite <- (holders_perm p _ _ Hu). apply H2. }
  destruct (from_used rs); [eauto|done].
Qed.

(** The file reaches past the headers. *)
Lemma holds_image_long f root rs content : holds_image cipher f root rs content → BlockRef.length root ≠ 0 → (3 * PAGE_BYTES ≤ length f)%nat.
Proof.
  intros (rd & Ho & _) Hl. apply open_inv in Ho as (Hd & _). unfold decode_chain in Hd. rewrite (proj2 (Z.eqb_neq _ _)) in Hd by done.
  cbn [follow_chain] in Hd. case_decide; [done|]. destruct (check_pointer root) as [[]|] eqn:Hp; [|done]. apply check_pointer_ok in Hp as (_ & Hge & Hlen).
  destruct (read_block _ _ _ _ _ _) as [bytes|] eqn:Hr; [|done]. apply read_block_at in Hr as [stored Hr]. unfold read_at in Hr.
  rewrite (proj2 (Z.eqb_neq _ _)) in Hr by lia. cbn [no_fault] in Hr. pose proof page_bytes. unfold DATA_START_PAGE in Hge.
  destruct (Z.leb_spec (BlockRef.offset root + (BlockRef.length root + Z.of_nat (stored_extra cipher))) (Z.of_nat (length f))); [lia|done].
Qed.

(** The writer a checkpoint starts with, when the active image is spared. *)
Lemma start_writer_ok bad m d rs content a : file_cipher m = cipher → holds_image cipher (view d) (DbHeaderV3.root (header (active m))) rs content →
  from_used (spared (active m)) = Ok a → (∀ r, r ∈ rs → r ∈ spared (active m)) →
  writer_ok cipher d (spared (active m)) (start_writer bad m (view d) a) d [] [] [].
Proof.
  intros Ec Hi Ha Hsp. destruct (from_used_accounted _ _ Ha) as [Hwf Hacc].
  assert (Hfol : ∀ rd, open cipher bad (view d) (DbHeaderV3.root (header (active m))) = Ok rd → followed_ok cipher d (spared (active m)) rd content).
  { intros rd Hrd. pose proof (holds_image_open _ _ _ _ _ _ Hi Hrd) as Hrd'. destruct Hi as (rd0 & Ho & Hs & Hu & Hok & Hd).
    rewrite Ho in Hrd'. injection Hrd' as ->. pose proof (open_inv _ _ _ _ _ Ho) as (_ & Hseen & _ & _ & a' & Ha').
    assert (Hin : ∀ r, r ∈ used_runs rd → r ∈ spared (active m)) by (intros r Hr; apply Hsp; by rewrite <- Hu).
    split; [done|done|done| | |done].
    - intros p. by eapply used_accounted.
    - intros p. pose proof (used_accounted _ _ p Ha'). destruct (holders p (used_runs rd)) eqn:E; [lia|].
      assert (0 < holders p (used_runs rd))%nat as (r & Hr & Hp)%holders_pos by lia.
      assert (0 < holders p (spared (active m)))%nat by (apply holders_pos; eauto). lia. }
  unfold start_writer. rewrite Ec. destruct (open cipher bad (view d) _) as [rd|] eqn:E; split; cbn; try done;
    try (by intros ?%not_elem_of_nil); try (by intros ? ?%not_elem_of_nil); try apply untouched_refl; try constructor;
    try (exists []; rewrite app_nil_r; by split); try (exists ∅; split_and!; [done|by intros s []|done]); try (intros; lia).
  intros id rd' [= <- <-]. exists content. by apply Hfol.
Qed.
End images.

(** ** What writing an image changes *)

(** [given] are data pages within the offsets, none of them spared. *)
Record fresh_for (spared given : list PageRun) : Prop := {
  wi_apart : ∀ p, (0 < holders p given)%nat → DATA_START_PAGE ≤ p ∧ holders p spared = 0%nat;
  wi_range : Forall in_range given;
}.

(** [d'] has [d]'s bytes but for the pages of [given], which are data pages
    that are not spared, and nothing more of it is durable. *)
Record written_in (spared given : list PageRun) (d d' : Disk) : Prop := {
  wi_fresh : fresh_for spared given;
  wi_view : untouched given (view d) (view d');
  wi_durable : durable d' = durable d;
  wi_pending : ∃ more, pending d' = pending d ++ more ∧ Forall (change_in given) more;
}.

(** An image that was just written: on its own pages, given or spared. *)
Record new_image `{FileEnv} (cipher : option Aes256Gcm) (spared given : list PageRun) (f : list Z) (root : BlockRef) (rs : list PageRun)
    (content : list chunk) : Prop := {
  ni_holds : holds_image cipher f root rs content;
  ni_root : BlockRef.ok root ∧ BlockRef.length root ≠ 0;
  ni_disjoint : ∀ p, (holders p rs ≤ 1)%nat;
  ni_counts : Forall (λ r, 0 < count r) rs;
  ni_pages : ∀ r, r ∈ rs → r ∈ given ∨ r ∈ spared;
}.

Section image.
Context `{FileEnv} (cipher : option Aes256Gcm).

Lemma writer_written_in d spared w d' given kept content : writer_ok cipher d spared w d' given kept content → written_in spared given d d'.
Proof.
  intros Hw. pose proof (wk_accounted _ _ _ _ _ _ _ _ Hw) as Hacc. split; [split|apply Hw..].
  - intros p Hp. specialize (Hacc p). rewrite holders_app in Hacc. destruct (_ && _) eqn:E; [|lia]. bool_to_prop. lia.
  - apply Forall_forall. intros r Hr. apply (accounted_range (pages w) (given ++ spared)); [apply Hw|done|apply elem_of_app; by left|].
    pose proof (wk_given _ _ _ _ _ _ _ _ Hw) as Hg. rewrite Forall_forall in Hg. by apply Hg.
Qed.

Lemma finish_image d spared w d1 given kept content r w' d' : writer_ok cipher d spared w d1 given kept content → finish cipher (w, d1) = (r, (w', d')) →
  ∃ given', written_in spared given' d d' ∧ ∀ root rs, r = Ok (root, rs) → new_image cipher spared given' (view d') root rs content.
Proof.
  intros Hw Hf. destruct (finish_spec _ _ _ _ _ _ _ _ _ _ _ Hw Hf) as (w0 & given' & Hw0 & Hres). exists given'.
  split; [by eapply writer_written_in|]. intros root rs Hr. destruct (Hres root rs Hr) as (Hi & Hok & Hl & Hd & Hc & Hin). by split.
Qed.

Lemma write_image_spec bad sections m d a rs content r d' : file_cipher m = cipher →
  holds_image cipher (view d) (DbHeaderV3.root (header (active m))) rs content → from_used (spared (active m)) = Ok a →
  (∀ x, x ∈ rs → x ∈ spared (active m)) → Forall section_ok sections → write_image bad sections m a d = (r, d') →
  ∃ given, written_in (spared (active m)) given d d' ∧ ∀ st root rs', r = Ok (st, root, rs') →
    new_image cipher (spared (active m)) given (view d') root rs' (sections_log cipher bad sections (start_writer bad m (view d) a, d)).
Proof.
  intros Ec Hi Ha Hsp Hok Hw. pose proof (start_writer_ok cipher bad m d rs content a Ec Hi Ha Hsp) as Hw0. unfold write_image in Hw. rewrite Ec in Hw.
  set (start := start_writer bad m (view d) a) in *.
  match type of Hw with (let '(_, _) := ?run in _) = _ => destruct run as [r1 [w1 d1]] eqn:E end. injection Hw as -> ->.
  step E u s1 Hs; [|destruct s1 as [w2 d2]]; destruct (write_sections_spec _ _ _ _ _ _ _ _ _ _ _ _ _ Hw0 Hok Hs) as (given & kept & content' & Hw1 & Hc).
  { exists given. split; [by eapply writer_written_in|done]. }
  destruct u. specialize (Hc eq_refl). step E w3 s2 Hthe; [done|]. injection Hthe as <- <-.
  step E fr s3 Hf; [|destruct s3 as [w3 d3]]; destruct (finish_image _ _ _ _ _ _ _ _ _ _ Hw1 Hf) as (given' & Hwi & Hres); exists given'.
  { split; done. }
  destruct fr as [root rs']. injection E as <- <- <-. split; [done|]. intros st root' rs'' [= <- <- <-]. rewrite <- (app_nil_l (sections_log _ _ _ _)), <- Hc.
  by apply Hres.
Qed.

(** A writer that follows no image. *)
Lemma new_writer_ok d used a : from_used used = Ok a → writer_ok cipher d used (new a) d [] [] [].
Proof.
  intros Ha. destruct (from_used_accounted _ _ Ha) as [Hwf Hacc].
  split; cbn; try done; try (by intros ?%not_elem_of_nil); try (by intros ? ?%not_elem_of_nil); try apply untouched_refl; try constructor;
    try (exists []; rewrite app_nil_r; by split); try (exists ∅; split_and!; [done|by intros s []|done]); try (intros; lia).
Qed.

(** The first image of a file, on a disk without one. *)
Lemma first_image d a r w' d' : from_used [] = Ok a → finish cipher (new a, d) = (r, (w', d')) →
  ∃ given, written_in [] given d d' ∧ ∀ root rs, r = Ok (root, rs) → new_image cipher [] given (view d') root rs [].
Proof. intros Ha. eapply (finish_image d [] (new a) d [] [] []). by apply new_writer_ok. Qed.

(** The runs the next checkpoint spares are accepted by the allocator. *)
Lemma spared_grows sp given rs f root content a : from_used sp = Ok a → fresh_for sp given →
  new_image cipher sp given f root rs content → ∃ a', from_used (sp ++ added_runs sp rs) = Ok a'.
Proof.
  intros Ha Hw Hn. assert (Hok : is_ok (from_used (sp ++ added_runs sp rs)) = true).
  { assert (Hi : is_ok (from_used sp) = true) by (by rewrite Ha). apply from_used_accepts in Hi as [Hr Hd].
    assert (Hg : ∀ x, x ∈ added_runs sp rs → x ∈ given).
    { intros x [Hx1 Hx2]%list_elem_of_filter. by destruct (ni_pages _ _ _ _ _ _ _ Hn x Hx2). }
    apply from_used_accepts. split.
    - apply Forall_app. split; [done|]. apply Forall_forall. intros x Hx _. pose proof (wi_range _ _ Hw) as Hrange.
      rewrite Forall_forall in Hrange. by apply Hrange, Hg.
    - intros p. rewrite holders_app. specialize (Hd p). pose proof (ni_disjoint _ _ _ _ _ _ _ Hn p).
      assert (holders p (added_runs sp rs) ≤ holders p rs)%nat.
      { unfold added_runs. clear. induction rs as [|x rs IH]; [done|]. rewrite filter_cons. case_decide; simpl; lia. }
      destruct (holders p (added_runs sp rs)) as [|n] eqn:E; [lia|]. assert (0 < holders p (added_runs sp rs))%nat as (x & Hx & Hp)%holders_pos by lia.
      destruct (wi_apart _ _ Hw p) as [_ ->]; [apply holders_pos; eauto|]. lia. }
  destruct (from_used (sp ++ _)); [eauto|done].
Qed.

Lemma added_runs_all sp rs x : x ∈ rs → x ∈ sp ++ added_runs sp rs.
Proof.
  intros Hx. apply elem_of_app. destruct (decide (x ∈ sp)) as [|Hn]; [by left|right]. by apply list_elem_of_filter.
Qed.

(** ** Where an image ends *)

Lemma last_page_spec e rs : Forall in_range rs → Forall (λ r, 0 ≤ count r) rs → 0 ≤ e → e * PAGE_SIZE ≤ u64_max →
  ∃ e', last_page e rs = Ok e' ∧ e ≤ e' ∧ e' * PAGE_SIZE ≤ u64_max ∧ ∀ r, r ∈ rs → first r + count r ≤ e'.
Proof.
  intros Hr. revert e. induction Hr as [|r rs [H1 H2] Hr IH]; intros e Hc H0 He; cbn [last_page].
  { exists e. split_and!; [done|lia|done|by intros ? ?%not_elem_of_nil]. }
  inversion_clear Hc as [|? ? Hc1 Hc']. unfold DATA_START_PAGE, PAGE_SIZE in *.
  assert (E : PageRun.end_ r = Ok (first r + count r)) by (unfold PageRun.end_, checked_add64; rewrite (proj2 (Z.leb_le _ _)); [done|lia]).
  rewrite E. destruct (IH (Z.max e (first r + count r)) Hc') as (e' & -> & Hle & Hm & Hall); [lia|lia|]. exists e'.
  split_and!; [done|lia|done|]. intros x [->|Hx]%elem_of_cons; [lia|by apply Hall].
Qed.

(** The end of an image is past its pages and past the headers. *)
Lemma image_end_spec rs : Forall in_range rs → Forall (λ r, 0 ≤ count r) rs →
  ∃ e, image_end rs = Ok e ∧ DATA_START_PAGE * PAGE_SIZE ≤ e ∧ ∀ p, e ≤ p → holders (p / PAGE_SIZE) rs = 0%nat.
Proof.
  intros Hr Hc. destruct (last_page_spec DATA_START_PAGE rs Hr Hc) as (e & E & Hle & Hm & Hall); [done..|].
  exists (e * PAGE_SIZE). unfold image_end. rewrite E. cbn. unfold checked_mul64. rewrite (proj2 (Z.leb_le _ _)) by done. split_and!; [done|unfold PAGE_SIZE; lia|].
  intros p Hp. destruct (holders (p / PAGE_SIZE) rs) eqn:Eh; [done|]. assert (0 < holders (p / PAGE_SIZE) rs)%nat as (r & Hr' & Hh)%holders_pos by lia.
  specialize (Hall r Hr'). unfold holds in Hh. apply andb_true_iff in Hh as [_ Hh%Z.ltb_lt].
  assert (e ≤ p / PAGE_SIZE) by (apply Z.div_le_lower_bound; unfold PAGE_SIZE in *; lia). lia.
Qed.
End image.
