(* ===== verification/StorageFile.v ===== *)
(** * A storage file through checkpoints, restarts and power losses

    [step] is a storage file in use: checkpoints and syncs in which any write,
    sync or cut may fail, reads, restarts of the process, and power losses. A
    crash inside a checkpoint is a checkpoint whose operations fail from there
    on. After a power loss each byte that no unsynced change touches is as the
    last sync left it; nothing is said of the others, but that a header page
    is the old one, one that was written, or not valid: what its checksum is
    for. A restart keeps the unsynced bytes; it is taken here only when no
    header page is among them (see [restart_loses_image] for the other case).

    [spec_step] is what the file promises: it serves the last checkpoint that
    succeeded; a failed checkpoint changes nothing or may come up at the next
    opening, whole. *)
From S2P Require Import Prelude Bytes PageAlloc Chunks FileHeaders Directory ImageFile ImageWriter FileManager WriterInv WriterOps ManagerFacts.
Import PageRun PageAllocator.
Open Scope Z_scope.
#[local] Opaque PAGE_BYTES.

(** ** The specification *)

(** What a checkpoint stores: its positions and counts, and its chunks. *)
Definition stored_state : Type := CheckpointHeader * list chunk.

Definition section_of (s : SectionType) (content : list chunk) : option (list (ChunkMeta * result image_error (list Z))) :=
  match filter (λ c : chunk, c.1.1.1 = s) content with
  | [] => None
  | chunks => Some (map (λ c : chunk, (c.1.2, Ok c.2)) chunks)
  end.

Inductive event : Type :=
  | Checkpointed (succeeded : bool) (st : stored_state)
  | Synced
  | Served (s : SectionType) (r : result image_error (option (list (ChunkMeta * result image_error (list Z)))))
  | Reopened (h : option CheckpointHeader).

Record spec := Spec { current_state : stored_state; possible : list stored_state }.

Inductive spec_step : spec → event → spec → Prop :=
  | spec_done c p st : spec_step (Spec c p) (Checkpointed true st) (Spec st [])
  | spec_failed c p st : spec_step (Spec c p) (Checkpointed false st) (Spec c p)
  | spec_failed_late c p st : spec_step (Spec c p) (Checkpointed false st) (Spec c (st :: p))
  | spec_sync c p : spec_step (Spec c p) Synced (Spec c p)
  | spec_read c p s : spec_step (Spec c p) (Served s (Ok (section_of s c.2))) (Spec c p)
  | spec_reopen c p st : st ∈ c :: p → spec_step (Spec c p) (Reopened (Some st.1)) (Spec st []).

(** A run of steps, with its events. *)
Inductive run {S} (step : S → event → S → Prop) : S → list event → S → Prop :=
  | run_nil s : run step s [] s
  | run_cons s e s' es s'' : step s e s' → run step s' es s'' → run step s (e :: es) s''.

(** ** The file in use *)

Definition with_faults (fs : list (option nat)) (d : Disk) : Disk := mkDisk (view d) (durable d) (pending d) fs (drawn d).

Definition touches (c : change) (k : nat) : Prop :=
  match c with
  | Wrote o bytes => o ≤ Z.of_nat k < o + Z.of_nat (length bytes)
  | Cut n => n ≤ Z.of_nat k
  end.

Definition slot_page (s : Z) : nat := Z.to_nat (1 + s).

(** An unsynced write into the header pages. *)
Definition header_pending (d : Disk) : bool :=
  existsb (λ c, match c with Wrote o bytes => (o <? DATA_START_PAGE * PAGE_SIZE) && (0 <? length bytes)%nat | Cut _ => false end) (pending d).

Definition summary (h : DbHeaderV3) : CheckpointHeader :=
  mkCheckpointHeader (DbHeaderV3.checkpoint_lsn h) (DbHeaderV3.epoch h) (DbHeaderV3.last_transaction_id h)
    (DbHeaderV3.node_count h) (DbHeaderV3.edge_count h).

Definition checkpoint_ok (h : CheckpointHeader) : Prop :=
  is_u64 (new_checkpoint_lsn h) ∧ is_u64 (new_epoch h) ∧ is_u64 (new_last_transaction_id h) ∧ is_u64 (new_node_count h) ∧ is_u64 (new_edge_count h).

Section system.
Context `{FileEnv} (cipher : option Aes256Gcm).

(** A header page of [f] is the durable one, one of the unsynced ones, or not
    valid. *)
Definition slots_sound (d : Disk) (f : list Z) : Prop := ∀ s h, s = 0 ∨ s = 1 → db_decode (page (slot_page s) f) = Valid h →
  db_decode (page (slot_page s) (durable d)) = Valid h ∨ ∃ bytes, Wrote (slot_offset s) bytes ∈ pending d ∧ db_decode bytes = Valid h.

(** [f] can be what a power loss leaves of [d]. *)
Definition survives (d : Disk) (f : list Z) : Prop :=
  (∀ k x, durable d !! k = Some x → (∀ c, c ∈ pending d → ¬ touches c k) → f !! k = Some x) ∧ slots_sound d f.

(** The chunks the sections of a checkpoint put into its image. *)
Definition checkpoint_content (bad : Z → bool) (sections : list Section_) (m : GrafeoFileManager) (d : Disk) : list chunk :=
  match from_used (spared (active m)) with
  | Ok a => sections_log cipher bad sections (start_writer bad m (view d) a, d)
  | Err _ => []
  end.

Definition reopened (r : result manager_error GrafeoFileManager) : option CheckpointHeader :=
  match r with Ok m => Some (summary (header (active m))) | Err _ => None end.
Definition after_reopen (r : result manager_error GrafeoFileManager) (d : Disk) : option (GrafeoFileManager * Disk) :=
  match r with Ok m => Some (m, d) | Err _ => None end.

(** [None] is a file that did not open. *)
Inductive step : option (GrafeoFileManager * Disk) → event → option (GrafeoFileManager * Disk) → Prop :=
  | step_checkpoint m d fs bad sections h now r m' d' :
      Forall section_ok sections → checkpoint_ok h → is_u64 now →
      write_checkpoint bad sections h now m (with_faults fs d) = (r, (m', d')) → slots_sound d' (view d') →
      step (Some (m, d)) (Checkpointed (is_ok r) (h, checkpoint_content bad sections m (with_faults fs d))) (Some (m', d'))
  | step_sync m d fs r d' : sync m (with_faults fs d) = (r, d') → step (Some (m, d)) Synced (Some (m, d'))
  | step_read m d s : step (Some (m, d)) (Served s (read_section no_fault m d s)) (Some (m, d))
  | step_restart m d r : header_pending d = false → open_existing no_fault (λ _, cipher) false d = r →
      step (Some (m, d)) (Reopened (reopened r)) (after_reopen r d)
  | step_power_loss m d f n r : survives d f → open_existing no_fault (λ _, cipher) false (mkDisk f f [] [] n) = r →
      step (Some (m, d)) (Reopened (reopened r)) (after_reopen r (mkDisk f f [] [] n)).

(** ** The invariant *)

Record image := Image { im_header : DbHeaderV3; im_runs : list PageRun; im_content : list chunk }.

Definition image_ok (im : image) : Prop :=
  DbHeaderV3.ok (im_header im) ∧ check_format_revision (DbHeaderV3.format_revision (im_header im)) = Ok tt ∧
  BlockRef.length (DbHeaderV3.root (im_header im)) ≠ 0.

Definition held (f : list Z) (im : image) : Prop := holds_image cipher f (DbHeaderV3.root (im_header im)) (im_runs im) (im_content im).

Definition state_of (im : image) : stored_state := (summary (im_header im), im_content im).

(** The slot that is not active: no header, an older one, or that of an image
    a failed checkpoint left. *)
Definition other_ok (cur : image) (maybe : list image) (s : HeaderSlot) : Prop :=
  match s with
  | Valid h => DbHeaderV3.iteration h < DbHeaderV3.iteration (im_header cur) ∨ ∃ im, im ∈ maybe ∧ h = im_header im
  | _ => True
  end.

Context (fh : FileHeaderV3).

(** A file that opens at [cur] or at one of [maybe]. *)
Record good_file (sl : Z) (cur : image) (maybe : list image) (f : list Z) : Prop := {
  g_long : (3 * PAGE_BYTES ≤ length f)%nat;
  g_first : page 0 f = FileHeaderV3.encode fh;
  g_active : db_decode (page (slot_page sl) f) = Valid (im_header cur);
  g_other : other_ok cur maybe (db_decode (page (slot_page (1 - sl)) f));
  g_images : ∀ im, im ∈ cur :: maybe → held f im;
}.

(** A change that leaves the spared pages and the active header alone. *)
Definition pending_ok (sp : list PageRun) (sl : Z) (maybe : list image) (c : change) : Prop :=
  match c with
  | Wrote o bytes =>
      0 ≤ o ∧ ((∀ p, o ≤ p < o + Z.of_nat (length bytes) → DATA_START_PAGE * PAGE_SIZE ≤ p ∧ holders (p / PAGE_SIZE) sp = 0%nat) ∨
      ∃ im, im ∈ maybe ∧ o = slot_offset (1 - sl) ∧ bytes = db_encode (im_header im))
  | Cut n => DATA_START_PAGE * PAGE_SIZE ≤ n ∧ ∀ p, n ≤ p → holders (p / PAGE_SIZE) sp = 0%nat
  end.

(** Without an unsynced header page, reads and a power loss see the same
    header in slot [s]. *)
Record same_slot (s : Z) (d : Disk) : Prop := SameSlot {
  same_decoded : header_pending d = false → db_decode (page (slot_page s) (view d)) = db_decode (page (slot_page s) (durable d));
}.

Record inv (m : GrafeoFileManager) (d : Disk) (cur : image) (maybe : list image) : Prop := {
  v_mode : read_only m = false;
  v_cipher : file_cipher m = cipher;
  v_file_header : file_header m = fh;
  v_header : header (active m) = im_header cur;
  v_slot : slot (active m) = 0 ∨ slot (active m) = 1;
  v_spared : ∃ a, from_used (spared (active m)) = Ok a;
  v_images : ∀ im, im ∈ cur :: maybe → image_ok im ∧ ∀ r, r ∈ im_runs im → r ∈ spared (active m);
  v_next : ∀ im, im ∈ maybe → DbHeaderV3.iteration (im_header im) = DbHeaderV3.iteration (im_header cur) + 1;
  v_view : good_file (slot (active m)) cur maybe (view d);
  v_durable : good_file (slot (active m)) cur maybe (durable d);
  v_pending : Forall (pending_ok (spared (active m)) (slot (active m)) maybe) (pending d);
  v_same : same_slot (1 - slot (active m)) d;
}.

(** ** Files *)

Lemma slot_page_range s : s = 0 ∨ s = 1 → (0 < slot_page s < 3)%nat ∧ slot_page (1 - s) ≠ slot_page s ∧
  slot_offset s = PAGE_SIZE * Z.of_nat (slot_page s) ∧ (0 < slot_page (1 - s) < 3)%nat.
Proof. intros [->| ->]; vm_compute; split_and!; lia. Qed.

Lemma good_file_keep sl cur maybe f f' : sl = 0 ∨ sl = 1 → good_file sl cur maybe f → (3 * PAGE_BYTES ≤ length f')%nat →
  page_kept 0 f f' → page_kept (slot_page sl) f f' → other_ok cur maybe (db_decode (page (slot_page (1 - sl)) f')) →
  (∀ im, im ∈ cur :: maybe → agree (im_runs im) f f') → good_file sl cur maybe f'.
Proof.
  intros Hs [H1 H2 H3 H4 H5] Hl H0 Ha Ho Hi. destruct (slot_page_range sl Hs) as ([_ Hs3] & _). split; [done| | |done|].
  - by rewrite (page_kept_eq 0 f f') by (done || lia).
  - by rewrite (page_kept_eq (slot_page sl) f f') by (done || lia).
  - intros im Him. eapply holds_image_agree; [by apply H5|by apply Hi].
Qed.

Lemma kept_length f f' : (3 * PAGE_BYTES ≤ length f)%nat → page_kept 2 f f' → (3 * PAGE_BYTES ≤ length f')%nat.
Proof.
  intros Hl Hk. assert (0 < PAGE_BYTES)%nat by (pose proof page_bytes; unfold PAGE_SIZE in *; lia).
  destruct (lookup_lt_is_Some_2 f (3 * PAGE_BYTES - 1)) as [x Hx]; [lia|].
  specialize (Hk (3 * PAGE_BYTES - 1)%nat x ltac:(lia) Hx). apply lookup_lt_Some in Hk. lia.
Qed.

Lemma page_of_byte p : 0 ≤ p → p < DATA_START_PAGE * PAGE_SIZE ↔ p / PAGE_SIZE < DATA_START_PAGE.
Proof. intros Hp. split; intros Hlt; [apply Z.div_lt_upper_bound; unfold PAGE_SIZE in *; lia|]. unfold PAGE_SIZE, DATA_START_PAGE in *. pose proof (Z.div_mod p 4096 ltac:(lia)). pose proof (Z.mod_pos_bound p 4096). lia. Qed.
End system.

(** ** What keeps a storage file good: the parts of a checkpoint, and opening *)
Import PageRun PageAllocator.
Open Scope Z_scope.
#[local] Opaque PAGE_BYTES.

Section steps.
Context `{FileEnv} (cipher : option Aes256Gcm) (fh : FileHeaderV3).
Abbreviation inv := (inv cipher fh).
Abbreviation good_file := (good_file cipher fh).

Lemma images_agree m d cur maybe f f' : inv m d cur maybe → agree (spared (active m)) f f' →
  ∀ im, im ∈ cur :: maybe → agree (im_runs im) f f'.
Proof.
  intros Hv Ha im Him. eapply agree_mono; [|exact Ha]. intros p (r & Hr & Hp)%holders_pos.
  apply holders_pos. exists r. split; [|done]. by apply (v_images _ _ _ _ _ _ Hv im Him).
Qed.

Lemma inv_same m d d' cur maybe : inv m d cur maybe → view d' = view d → durable d' = durable d → pending d' = pending d → inv m d' cur maybe.
Proof.
  intros [H1 H2 H3 H4 H5 H6 H7 H8 H9 H10 H11 H12] Ev Ed Ep. destruct d, d'. simpl in Ev, Ed, Ep. rewrite Ev, Ed, Ep.
  split; [exact H1|exact H2|exact H3|exact H4|exact H5|exact H6|exact H7|exact H8|exact H9|exact H10|exact H11|]. split. exact (same_decoded _ _ H12).
Qed.

Lemma header_pending_app d d' more : pending d' = pending d ++ more → header_pending d' = false → header_pending d = false.
Proof. unfold header_pending. intros ->. rewrite existsb_app. by intros [? _]%orb_false_iff. Qed.

(** Writing an image's chunks and directory. *)
Lemma inv_written m d cur maybe given d' : inv m d cur maybe → written_in (spared (active m)) given d d' → inv m d' cur maybe.
Proof.
  intros Hv Hw. pose proof Hv as [H1 H2 H3 H4 H5 H6 H7 H8 H9 H10 H11 H12]. pose proof Hw as [[W1 W2] W3 W4 (more & W5 & W6)].
  destruct (slot_page_range _ H5) as (Hsl & _ & _ & Hos).
  assert (Hk : ∀ i, (i < 3)%nat → page_kept i (view d) (view d')).
  { intros i Hi. eapply page_kept_untouched; [done| |exact W3]. intros p Hp. destruct (holders p given) eqn:E; [done|]. destruct (W1 p) as [? _]; lia. }
  assert (Epage : page (slot_page (1 - slot (active m))) (view d') = page (slot_page (1 - slot (active m))) (view d)).
  { apply page_kept_eq; [lia|apply H9|]. apply Hk. lia. }
  split; [exact H1|exact H2|exact H3|exact H4|exact H5|exact H6|exact H7|exact H8| |rewrite W4; exact H10| |split; rewrite W4].
  - eapply good_file_keep; [done|exact H9| |apply Hk; lia|apply Hk; lia| |].
    + eapply kept_length; [apply H9|]. apply Hk. lia.
    + rewrite Epage. apply H9.
    + eapply images_agree; [done|]. eapply untouched_agree; [exact W3|]. intros p Hp. destruct (holders p given) eqn:E; [done|]. destruct (W1 p) as [_ ?]; lia.
  - rewrite W5. apply Forall_app. split; [done|]. eapply Forall_impl; [exact W6|]. intros [o bytes|n]; [|intros []]. intros [Ho Hc]. split; [done|]. left.
    intros p Hp. destruct (W1 _ (Hc p Hp)) as [Hd Hs]. split; [|done]. apply Z.le_ngt. intros Hlt. apply page_of_byte in Hlt; lia.
  - rewrite Epage. intros Hh. apply H12. eapply header_pending_app; [exact W5|exact Hh].
Qed.

(** A sync that succeeds. *)
Lemma sync_done d d' : sync_all d = (Ok tt, d') → view d' = view d ∧ durable d' = view d ∧ pending d' = [].
Proof. unfold sync_all, next_fault. destruct (faults d) as [|[n|] fs]; [|done|]; intros [= <-]; done. Qed.

Lemma inv_after_sync m d cur maybe d' : inv m d cur maybe → sync_all d = (Ok tt, d') → inv m d' cur maybe ∧ durable d' = view d' ∧ pending d' = [] ∧ view d' = view d.
Proof.
  intros [H1 H2 H3 H4 H5 H6 H7 H8 H9 H10 H11 H12] (Ev & Ed & Ep)%sync_done. rewrite Ev, Ed. split_and!; [|reflexivity|exact Ep|reflexivity].
  split; [exact H1|exact H2|exact H3|exact H4|exact H5|exact H6|exact H7|exact H8|rewrite Ev; exact H9|rewrite Ed; exact H9| |].
  - rewrite Ep. constructor.
  - split. intros _. rewrite Ev, Ed. reflexivity.
Qed.

Lemma sync_failed d e d' : sync_all d = (Err e, d') → view d' = view d ∧ durable d' = durable d ∧ pending d' = pending d.
Proof. unfold sync_all, next_fault. destruct (faults d) as [|[n|] fs]; intros [= <- <-]; done. Qed.

Lemma set_len_failed n d e d' : set_len n d = (Err e, d') → view d' = view d ∧ durable d' = durable d ∧ pending d' = pending d.
Proof. unfold set_len, next_fault. destruct (faults d) as [|[k|] fs]; intros [= <- <-]; done. Qed.

Lemma set_len_done n d d' : set_len n d = (Ok tt, d') →
  view d' = resize (Z.to_nat n) 0 (view d) ∧ durable d' = durable d ∧ pending d' = pending d ++ [Cut n].
Proof. unfold set_len, next_fault. destruct (faults d) as [|[k|] fs]; [|done|]; intros [= <-]; done. Qed.

Lemma other_ok_more cur im maybe s : other_ok cur maybe s → other_ok cur (im :: maybe) s.
Proof. destruct s; simpl; [done|done|]. intros [?|(x & Hx & ->)]; [by left|]. right. exists x. split; [by right|done]. Qed.

(** The image of a checkpoint once it is durable. *)
Lemma inv_added m d cur maybe im given : inv m d cur maybe → durable d = view d → pending d = [] →
  fresh_for (spared (active m)) given →
  new_image cipher (spared (active m)) given (view d) (DbHeaderV3.root (im_header im)) (im_runs im) (im_content im) →
  image_ok im → DbHeaderV3.iteration (im_header im) = DbHeaderV3.iteration (im_header cur) + 1 →
  inv (set_active (mkActive (header (active m)) (slot (active m)) (spared (active m) ++ added_runs (spared (active m)) (im_runs im))) m) d cur (im :: maybe).
Proof.
  intros [H1 H2 H3 H4 H5 [a H6] H7 H8 H9 H10 H11 H12] Ed Ep Hw Hn Hok Hit.
  assert (Hg : good_file (slot (active m)) cur (im :: maybe) (view d)).
  { destruct H9 as [G1 G2 G3 G4 G5]. split; [done|done|done| |].
    - by apply other_ok_more.
    - intros x [->|[->|Hx]%elem_of_cons]%elem_of_cons; [apply G5; left|apply Hn|apply G5; by right]. }
  split; cbn [active set_active header spared slot]; [exact H1|exact H2|exact H3|exact H4|exact H5| | | | | | |exact H12].
  - by eapply spared_grows.
  - intros x Hx. assert (Hold : ∀ y, y ∈ cur :: maybe → image_ok y ∧ ∀ r, r ∈ im_runs y → r ∈ spared (active m) ++ added_runs (spared (active m)) (im_runs im)).
    { intros y Hy. destruct (H7 y Hy) as [? Hr]. split; [done|]. intros r Hr'. apply elem_of_app. left. by apply Hr. }
    apply elem_of_cons in Hx as [->|[->|Hx]%elem_of_cons]; [apply Hold; left| |apply Hold; by right].
    split; [done|]. intros r. apply added_runs_all.
  - intros x [->|Hx]%elem_of_cons; [done|by apply H8].
  - exact Hg.
  - rewrite Ed. exact Hg.
  - rewrite Ep. constructor.
Qed.

Lemma write_at_inv o bytes d r d' : write_at o bytes d = (r, d') →
  ∃ kept, view d' = write_bytes o kept (view d) ∧ (length kept ≤ length bytes)%nat ∧ durable d' = durable d ∧
    pending d' = pending d ++ [Wrote o bytes] ∧ (r = Ok tt → kept = bytes).
Proof.
  unfold write_at, next_fault. destruct (faults d) as [|[n|] fs]; intros [= <- <-]; cbn [view durable pending]; [by exists bytes| |by exists bytes].
  exists (take n bytes). rewrite length_take. split_and!; try done. lia.
Qed.

(** What can be in the slot that is not active. *)
Lemma sound_other sp sl cur maybe d f : sl = 0 ∨ sl = 1 → other_ok cur maybe (db_decode (page (slot_page (1 - sl)) (durable d))) →
  Forall (pending_ok sp sl maybe) (pending d) → slots_sound d f → (∀ im, im ∈ maybe → image_ok im) →
  other_ok cur maybe (db_decode (page (slot_page (1 - sl)) f)).
Proof.
  intros Hsl Hd Hp Hs Hok. destruct (db_decode (page (slot_page (1 - sl)) f)) as [| |h] eqn:E; [done|done|].
  destruct (Hs (1 - sl) h ltac:(lia) E) as [Hdur|(bytes & Hin & Hb)]; [by rewrite Hdur in Hd|]. right.
  rewrite Forall_forall in Hp. destruct (Hp _ Hin) as [_ [Hdata|(x & Hx & _ & ->)]].
  - exfalso. destruct bytes as [|b bytes]; [done|]. destruct (Hdata (slot_offset (1 - sl))) as [Hge _]; [simpl; lia|].
    unfold slot_offset, DATA_START_PAGE, PAGE_SIZE in Hge. lia.
  - exists x. split; [done|]. rewrite db_decode_encode in Hb by (by apply Hok). by injection Hb.
Qed.

(** Writing the next header, in whole or in part. *)
Lemma inv_header m d cur maybe im r d' : inv m d cur maybe → im ∈ maybe →
  write_page (slot_offset (1 - slot (active m))) (db_encode (im_header im)) d = (r, d') →
  (is_ok r = false → slots_sound d' (view d')) → inv m d' cur maybe ∧
  (r = Ok tt → db_decode (page (slot_page (1 - slot (active m))) (view d')) = Valid (im_header im)).
Proof.
  intros Hv Him Hw Hsound. pose proof Hv as [H1 H2 H3 H4 H5 H6 H7 H8 H9 H10 H11 H12].
  destruct (slot_page_range _ H5) as (Hsl & Hne & _ & Hos).
  destruct (slot_page_range (1 - slot (active m)) ltac:(lia)) as (_ & _ & Hoff & _).
  assert (Hwr : ∃ kept, view d' = write_bytes (slot_offset (1 - slot (active m))) kept (view d) ∧ (length kept ≤ PAGE_BYTES)%nat ∧ durable d' = durable d ∧
    pending d' = pending d ++ [Wrote (slot_offset (1 - slot (active m))) (db_encode (im_header im))] ∧ (r = Ok tt → kept = db_encode (im_header im))).
  { destruct (write_at_inv _ _ _ _ _ Hw) as (kept & Ev & Hl & Ed & Ep & Hk). rewrite db_encode_length in Hl.
    exact (ex_intro _ kept (conj Ev (conj Hl (conj Ed (conj Ep Hk))))). }
  destruct Hwr as (kept & Ev & Hkl & Ed & Ep & Hkept). set (sl := slot (active m)) in *. set (o := slot_page (1 - sl)) in *.
  assert (Hk : ∀ i, (i < 3)%nat → i ≠ o → page_kept i (view d) (view d')).
  { intros i Hi Hio. rewrite Ev. pose proof page_bytes. rewrite Hoff. fold o. apply page_kept_write; [unfold PAGE_SIZE; lia|].
    destruct (decide (i < o)%nat); [left|right]; nia. }
  assert (Hwritten : Forall (pending_ok (spared (active m)) sl maybe) (pending d')).
  { rewrite Ep. apply Forall_app. split; [done|]. constructor; [|constructor]. split; [rewrite Hoff; unfold PAGE_SIZE; lia|]. right. by exists im. }
  assert (Hdec : r = Ok tt → db_decode (page o (view d')) = Valid (im_header im)).
  { intros Hr. rewrite Ev, (Hkept Hr), Hoff. fold o. rewrite page_written by (lia || apply db_encode_length). apply db_decode_encode.
    by apply (H7 im); right. }
  split; [|done]. split; [exact H1|exact H2|exact H3|exact H4|exact H5|exact H6|exact H7|exact H8| |rewrite Ed; exact H10|exact Hwritten|].
  - eapply good_file_keep; [exact H5|exact H9| |apply Hk; lia|apply Hk; [exact (proj2 Hsl)|exact (not_eq_sym Hne)]| |].
    + rewrite Ev. pose proof (g_long _ _ _ _ _ _ H9). destruct kept as [|b kept']; [done|]. rewrite write_bytes_length; [lia|done|rewrite Hoff; unfold PAGE_SIZE; lia].
    + change (slot_page (1 - slot (active m))) with o. destruct r as [[]|e]; [rewrite (Hdec eq_refl); right; by exists im|].
      apply (sound_other (spared (active m)) sl cur maybe d'); [done|rewrite Ed; apply H10|done|by apply Hsound|]. intros x Hx. apply (H7 x). by right.
    + eapply images_agree; [done|]. intros k x Hp Hx. rewrite Ev. apply write_bytes_outside; [rewrite Hoff; unfold PAGE_SIZE; lia| |done].
      destruct H6 as [a Ha]. destruct (from_used_accounted _ _ Ha) as [_ Hacc]. apply holders_pos in Hp as (run & Hr & Hp).
      destruct (accounted_page a _ run _ Hacc Hr Hp) as [Hge _]. right. unfold page_at in Hge. pose proof page_bytes.
      assert (DATA_START_PAGE * PAGE_SIZE ≤ Z.of_nat k) by (apply Z.le_ngt; intros Hlt; apply page_of_byte in Hlt; lia).
      rewrite Hoff. unfold DATA_START_PAGE, PAGE_SIZE in *. fold o. lia.
  - split. unfold header_pending. rewrite Ep, existsb_app. intros [_ Hh]%orb_false_iff. exfalso. cbn [existsb] in Hh.
    rewrite db_encode_length, Hoff in Hh. pose proof page_bytes. fold o in Hh. unfold DATA_START_PAGE, PAGE_SIZE in *.
    destruct (Z.ltb_spec (4096 * Z.of_nat o) (3 * 4096)); [|lia]. destruct (Nat.ltb_spec 0 PAGE_BYTES); [done|lia].
Qed.
(** ** The next image becomes the active one *)

Lemma good_switch sl cur maybe im f : sl = 0 ∨ sl = 1 → good_file sl cur maybe f → im ∈ maybe →
  DbHeaderV3.iteration (im_header im) = DbHeaderV3.iteration (im_header cur) + 1 →
  db_decode (page (slot_page (1 - sl)) f) = Valid (im_header im) → good_file (1 - sl) im [] f.
Proof.
  intros Hs [H1 H2 H3 H4 H5] Him Hit Hd. split; [done|done|done| |].
  - replace (1 - (1 - sl)) with sl by lia. rewrite H3. left. lia.
  - intros x [->|Hx%not_elem_of_nil]%elem_of_cons; [|done]. apply H5. by right.
Qed.

Lemma resize_agree rs e f : 0 ≤ e → (∀ p, e ≤ p → holders (p / PAGE_SIZE) rs = 0%nat) → agree rs f (resize (Z.to_nat e) 0 f).
Proof.
  intros He Hr k x Hk Hx. destruct (decide (k < Z.to_nat e)%nat) as [Hlt|Hge].
  - rewrite lookup_resize; [done|done|by apply lookup_lt_Some in Hx].
  - unfold page_at in Hk. rewrite Hr in Hk; lia.
Qed.

(** Cutting the file at the end of its image. *)
Lemma good_cut sl im f e : sl = 0 ∨ sl = 1 → good_file sl im [] f → Forall (λ r, 0 < count r) (im_runs im) → image_end (im_runs im) = Ok e →
  good_file sl im [] (resize (Z.to_nat e) 0 f) ∧ pending_ok (im_runs im) sl [] (Cut e) ∧
  page (slot_page (1 - sl)) (resize (Z.to_nat e) 0 f) = page (slot_page (1 - sl)) f.
Proof.
  intros Hsl Hg Hc He. pose proof (g_images _ _ _ _ _ _ Hg im (list_elem_of_here _ _)) as Hheld. destruct (holds_image_used _ _ _ _ _ Hheld) as [a Ha].
  assert (Hrange : Forall in_range (im_runs im)).
  { assert (Hi : is_ok (from_used (im_runs im)) = true) by (by rewrite Ha). apply from_used_accepts in Hi as [Hi _].
    rewrite Forall_forall in Hi, Hc |- *. intros r Hr. by apply Hi, Hc. }
  destruct (image_end_spec (im_runs im) Hrange) as (e' & He' & Hge & Hend); [eapply Forall_impl; [exact Hc|]; cbv beta; lia|].
  rewrite He in He'. injection He' as <-. pose proof page_bytes as Hpb. assert (He3 : (3 * PAGE_BYTES ≤ Z.to_nat e)%nat) by (unfold DATA_START_PAGE in Hge; lia).
  destruct (slot_page_range _ Hsl) as (Hs1 & Hs2 & Hs3 & Hs4).
  assert (Hk : ∀ i, (i < 3)%nat → page_kept i f (resize (Z.to_nat e) 0 f)) by (intros i Hi; apply page_kept_resize; nia).
  assert (Hpg : page (slot_page (1 - sl)) (resize (Z.to_nat e) 0 f) = page (slot_page (1 - sl)) f).
  { apply page_kept_eq; [apply Hs4|apply Hg|apply Hk, Hs4]. }
  split_and!; [|split; [exact Hge|exact Hend]|exact Hpg].
  eapply good_file_keep; [exact Hsl|exact Hg| |apply Hk; lia|apply Hk; lia| |].
  - rewrite length_resize. exact He3.
  - rewrite Hpg. apply Hg.
  - intros x [->|Hx%not_elem_of_nil]%elem_of_cons; [|done]. apply resize_agree; [unfold DATA_START_PAGE, PAGE_SIZE in Hge; lia|done].
Qed.

(** A manager at the image of a synced file, cut at the end of the image. *)
Lemma inv_fresh m' d d' im e : durable d = view d → pending d = [] → image_ok im → Forall (λ r, 0 < count r) (im_runs im) →
  image_end (im_runs im) = Ok e → good_file (slot (active m')) im [] (view d) →
  view d' = resize (Z.to_nat e) 0 (view d) → durable d' = view d ∧ pending d' = [Cut e] ∨ durable d' = view d' ∧ pending d' = [] →
  read_only m' = false → file_cipher m' = cipher → file_header m' = fh → header (active m') = im_header im →
  spared (active m') = im_runs im → slot (active m') = 0 ∨ slot (active m') = 1 → inv m' d' im [].
Proof.
  intros Ed Ep Hok Hc He Hg Ev' Hd' M1 M2 M3 M4 M5 Hsl. destruct (good_cut _ _ _ _ Hsl Hg Hc He) as (Hcut & Hpend & Hpg). rewrite <- Ev' in Hcut, Hpg.
  split; [exact M1|exact M2|exact M3|exact M4|exact Hsl| | | |exact Hcut| | |].
  - rewrite M5. eapply holds_image_used. apply (g_images _ _ _ _ _ _ Hg im (list_elem_of_here _ _)).
  - intros x [->|Hx%not_elem_of_nil]%elem_of_cons; [|done]. rewrite M5. by split.
  - by intros x Hx%not_elem_of_nil.
  - destruct Hd' as [[-> _]|[-> _]]; [exact Hg|exact Hcut].
  - rewrite M5. destruct Hd' as [[_ ->]|[_ ->]]; [constructor; [exact Hpend|]|]; constructor.
  - split. intros _. destruct Hd' as [[-> _]|[-> _]]; [rewrite Hpg|]; reflexivity.
Qed.

Lemma inv_commit m m' d d' cur maybe im e : inv m d cur maybe → im ∈ maybe → pending d = [] → durable d = view d →
  db_decode (page (slot_page (1 - slot (active m))) (view d)) = Valid (im_header im) → Forall (λ r, 0 < count r) (im_runs im) →
  image_end (im_runs im) = Ok e → set_len e d = (Ok tt, d') →
  read_only m' = false → file_cipher m' = cipher → file_header m' = fh → active m' = mkActive (im_header im) (1 - slot (active m)) (im_runs im) →
  inv m' d' im [].
Proof.
  intros [H1 H2 H3 H4 H5 H6 H7 H8 H9 H10 H11 H12] Him Ep Ed Hdec Hc He Hset M1 M2 M3 M4.
  destruct (set_len_done _ _ _ Hset) as (Ev' & Ed' & Ep'). rewrite Ep in Ep'. rewrite Ed in Ed'.
  apply (inv_fresh m' d d' im e); rewrite ?M4; try done; [apply (H7 im); by right|eapply good_switch; eauto|by left|cbn; lia].
Qed.
End steps.
