(* ===== verification/StorageRefines.v ===== *)
(** * Opening a good file, after a restart or a power loss *)
From S2P Require Import Prelude Bytes PageAlloc Chunks FileHeaders Directory ImageFile ImageWriter FileManager WriterInv WriterOps ManagerFacts StorageFile.
Import PageRun PageAllocator.
Open Scope Z_scope.
#[local] Opaque PAGE_BYTES.

(** The choice between the slots. *)
Lemma active_header_choice sl cur maybe (slots : HeaderSlot * HeaderSlot) other : sl = 0 ∨ sl = 1 →
  slots = (if sl =? 0 then (Valid (im_header cur), other) else (other, Valid (im_header cur))) → other_ok cur maybe other →
  (∀ im, im ∈ maybe → DbHeaderV3.iteration (im_header im) = DbHeaderV3.iteration (im_header cur) + 1) →
  (active_header slots = Ok (Some (sl, im_header cur)) ∧ other_ok cur [] other) ∨
  ∃ im, im ∈ maybe ∧ other = Valid (im_header im) ∧ active_header slots = Ok (Some (1 - sl, im_header im)).
Proof.
  intros Hsl -> Ho Hit. destruct other as [| |h].
  - left. by destruct Hsl as [->| ->].
  - left. by destruct Hsl as [->| ->].
  - destruct Ho as [Hlt|(im & Him & ->)].
    + left. split; [|by left]. destruct Hsl as [->| ->]; simpl.
      * destruct (Z.ltb_spec (DbHeaderV3.iteration (im_header cur)) (DbHeaderV3.iteration h)); [lia|done].
      * by rewrite (proj2 (Z.ltb_lt _ _)).
    + right. exists im. split_and!; [done|done|]. specialize (Hit im Him). destruct Hsl as [->| ->]; simpl.
      * by rewrite (proj2 (Z.ltb_lt _ _)) by lia.
      * destruct (Z.ltb_spec (DbHeaderV3.iteration (im_header im)) (DbHeaderV3.iteration (im_header cur))); [lia|done].
Qed.

Section reopen.
Context `{FileEnv} (cipher : option Aes256Gcm) (fh : FileHeaderV3).
Context (Hfh : FileHeaderV3.ok fh) (Henc : FileHeaderV3.encrypted fh = bool_decide (is_Some cipher)).
Abbreviation inv := (inv cipher fh).
Abbreviation good_file := (good_file cipher fh).

Lemma not_old_format f : (3 * PAGE_BYTES ≤ length f)%nat → page 0 f = FileHeaderV3.encode fh →
  byte_at (read_prefix f (DATA_START_PAGE * PAGE_SIZE)) 4 = 3.
Proof.
  intros Hl Hp. set (prefix := read_prefix _ _). assert (E : prefix = page 0 f ++ drop PAGE_BYTES prefix).
  { unfold page, page_of. fold prefix. rewrite Nat.mul_0_l, drop_0. symmetry. apply take_drop. }
  rewrite E, Hp, file_encode_layout by apply Hfh. unfold file_fields. rewrite <- !app_assoc. reflexivity.
Qed.

(** What is left to check once the header is chosen. *)
Lemma read_active_chosen f im sl' : good_file sl' im [] f → image_ok im →
  active_header (db_decode (page 1 f), db_decode (page 2 f)) = Ok (Some (sl', im_header im)) →
  ∃ rs, read_active_image no_fault f (λ _, cipher) = Ok (fh, mkActive (im_header im) sl' rs, cipher) ∧ rs ≡ₚ im_runs im.
Proof.
  intros [H1 H2 H3 H4 H5] (Hok & Hrev & Hroot) Hact. destruct (H5 im (list_elem_of_here _ _)) as (rd & Hopen & _ & Hu & _).
  exists (used_runs rd). split; [|done]. unfold read_active_image. rewrite (not_old_format f H1 H2), andb_false_r.
  fold (page 0 f) (page 1 f) (page 2 f). rewrite H2, file_decode_encode by done. rewrite Henc.
  rewrite Hact, Hrev, (proj2 (Z.eqb_neq _ _)) by done. rewrite Hopen. by destruct cipher.
Qed.

(** The image that comes up, and where. *)
Definition comes_up (sl : Z) (cur : image) (maybe : list image) (f : list Z) (im : image) (sl' : Z) : Prop :=
  (im = cur ∧ sl' = sl ∧ other_ok cur [] (db_decode (page (slot_page (1 - sl)) f))) ∨
  (im ∈ maybe ∧ sl' = 1 - sl ∧ db_decode (page (slot_page (1 - sl)) f) = Valid (im_header im)).

Lemma comes_up_good sl cur maybe f im sl' : sl = 0 ∨ sl = 1 → good_file sl cur maybe f → comes_up sl cur maybe f im sl' →
  (∀ x, x ∈ maybe → DbHeaderV3.iteration (im_header x) = DbHeaderV3.iteration (im_header cur) + 1) →
  good_file sl' im [] f ∧ im ∈ cur :: maybe ∧ (sl' = 0 ∨ sl' = 1).
Proof.
  intros Hsl Hg [(-> & -> & Ho)|(Him & -> & Hd)] Hit.
  - split; [|split; [left|done]]. destruct Hg as [H1 H2 H3 H4 H5]. split; [done|done|done|done|].
    intros x [->|Hx%not_elem_of_nil]%elem_of_cons; [|done]. apply H5. left.
  - split; [|split; [by right|lia]]. eapply good_switch; eauto.
Qed.

Lemma open_good sl cur maybe f : sl = 0 ∨ sl = 1 → good_file sl cur maybe f → (∀ im, im ∈ cur :: maybe → image_ok im) →
  (∀ im, im ∈ maybe → DbHeaderV3.iteration (im_header im) = DbHeaderV3.iteration (im_header cur) + 1) →
  ∃ im sl' rs, comes_up sl cur maybe f im sl' ∧
    read_active_image no_fault f (λ _, cipher) = Ok (fh, mkActive (im_header im) sl' rs, cipher) ∧ rs ≡ₚ im_runs im.
Proof.
  intros Hsl Hg Hok Hit. set (other := db_decode (page (slot_page (1 - sl)) f)).
  assert (Hslots : (db_decode (page 1 f), db_decode (page 2 f)) =
    (if sl =? 0 then (Valid (im_header cur), other) else (other, Valid (im_header cur)))).
  { rewrite <- (g_active _ _ _ _ _ _ Hg). unfold other. by destruct Hsl as [->| ->]. }
  destruct (active_header_choice sl cur maybe _ other Hsl Hslots (g_other _ _ _ _ _ _ Hg) Hit) as [[Hact Ho]|(im & Him & Ho & Hact)].
  - assert (Hc : comes_up sl cur maybe f cur sl) by (by left). destruct (comes_up_good _ _ _ _ _ _ Hsl Hg Hc Hit) as (Hg' & _ & _).
    destruct (read_active_chosen f cur sl Hg' (Hok cur (list_elem_of_here _ _)) Hact) as (rs & Hr & Hp). by exists cur, sl, rs.
  - assert (Hc : comes_up sl cur maybe f im (1 - sl)) by (by right). destruct (comes_up_good _ _ _ _ _ _ Hsl Hg Hc Hit) as (Hg' & Hin & _).
    destruct (read_active_chosen f im (1 - sl) Hg' (Hok im Hin) Hact) as (rs & Hr & Hp). by exists im, (1 - sl), rs.
Qed.

(** ** Power losses *)

Lemma pending_untouched sp sl maybe (cs : list change) k : sl = 0 ∨ sl = 1 → Forall (pending_ok sp sl maybe) cs →
  (Z.of_nat k < DATA_START_PAGE * PAGE_SIZE ∨ (0 < holders (page_at k) sp)%nat) →
  ¬ (slot_page (1 - sl) * PAGE_BYTES ≤ k < S (slot_page (1 - sl)) * PAGE_BYTES)%nat → ∀ c, c ∈ cs → ¬ touches c k.
Proof.
  intros Hsl Hp Hk Hother c Hc. rewrite Forall_forall in Hp. specialize (Hp c Hc). destruct c as [o bytes|n]; intros Ht; cbn [touches] in Ht.
  - destruct Hp as [Ho [Hdata|(im & _ & -> & ->)]].
    + destruct (Hdata (Z.of_nat k) Ht) as [H1 H2]. destruct Hk as [Hk|Hk]; [lia|]. unfold page_at in Hk. lia.
    + apply Hother. destruct (slot_page_range (1 - sl)) as (_ & _ & Hoff & _); [lia|]. rewrite Hoff in Ht. pose proof page_bytes.
      rewrite db_encode_length in Ht. lia.
  - destruct Hp as [H1 H2]. destruct Hk as [Hk|Hk]; [lia|]. unfold page_at in Hk. rewrite H2 in Hk by done. lia.
Qed.

Lemma survives_good m d cur maybe f : inv m d cur maybe → survives d f → good_file (slot (active m)) cur maybe f.
Proof.
  intros Hv [Hkeep Hsound]. pose proof Hv as [H1 H2 H3 H4 H5 [a H6] H7 H8 H9 H10 H11 H12].
  destruct (slot_page_range _ H5) as (Hs1 & Hs2 & Hs3 & Hs4). pose proof page_bytes as Hpb.
  destruct (from_used_accounted _ _ H6) as [_ Hacc].
  assert (Hpages : ∀ i, (i < 3)%nat → i ≠ slot_page (1 - slot (active m)) → page_kept i (durable d) f).
  { intros i Hi Hne k x Hk Hx. apply Hkeep; [done|]. eapply pending_untouched; [exact H5|exact H11| |].
    - left. unfold DATA_START_PAGE. nia.
    - nia. }
  assert (Ha : ∀ im, im ∈ cur :: maybe → agree (im_runs im) (durable d) f).
  { eapply images_agree; [exact Hv|]. intros k x Hk Hx. apply Hkeep; [done|]. eapply pending_untouched; [exact H5|exact H11|by right|].
    apply holders_pos in Hk as (r & Hr & Hp). destruct (accounted_page a _ r _ Hacc Hr Hp) as [Hge _]. unfold page_at in Hge.
    assert (DATA_START_PAGE * PAGE_SIZE ≤ Z.of_nat k) by (apply Z.le_ngt; intros Hlt; apply page_of_byte in Hlt; lia).
    unfold DATA_START_PAGE in *. nia. }
  eapply good_file_keep; [exact H5|exact H10| |apply Hpages; lia|apply Hpages; lia| |exact Ha].
  - eapply (holds_image_long cipher f); [|apply (H7 cur); left]. eapply holds_image_agree; [apply (g_images _ _ _ _ _ _ H10 cur); left|apply Ha; left].
  - eapply sound_other; [exact H5|apply H10|exact H11|exact Hsound|]. intros x Hx. apply (H7 x). by right.
Qed.

(** ** Reopening *)

Lemma inv_reopened m' d' im rs sl' : read_only m' = false → file_cipher m' = cipher → file_header m' = fh → active m' = mkActive (im_header im) sl' rs →
  rs ≡ₚ im_runs im → sl' = 0 ∨ sl' = 1 → image_ok im → good_file sl' im [] (view d') → good_file sl' im [] (durable d') →
  Forall (pending_ok rs sl' []) (pending d') →
  same_slot (1 - sl') d' → inv m' d' im [].
Proof.
  intros M1 M2 M3 M4 Hrs Hsl Hok Hv Hd Hp Hpg. 
  refine (Build_inv _ _ _ _ _ _ M1 M2 M3 _ _ _ _ _ _ _ _ _); rewrite ?M4; cbn [header slot spared]; [reflexivity|exact Hsl| | | |exact Hv|exact Hd|exact Hp|exact Hpg].
  - destruct (holds_image_used cipher _ _ _ _ (g_images _ _ _ _ _ _ Hv im (list_elem_of_here _ _))) as [a Ha].
    assert (Hi : is_ok (from_used (im_runs im)) = true) by (by rewrite Ha). apply from_used_accepts in Hi as [Hi1 Hi2].
    assert (Hi : is_ok (from_used rs) = true).
    { apply from_used_accepts. split; [by rewrite Hrs|]. intros p. rewrite (holders_perm p _ _ Hrs). apply Hi2. }
    destruct (from_used rs); [eauto|done].
  - intros x [->|Hx%not_elem_of_nil]%elem_of_cons; [|done]. split; [done|]. intros r. by rewrite Hrs.
  - by intros x Hx%not_elem_of_nil.
Qed.

(** A file that opens comes up at the active image or at a possible one. *)
Lemma power_loss_reopens m d cur maybe f n : inv m d cur maybe → survives d f →
  ∃ m' im, open_existing no_fault (λ _, cipher) false (mkDisk f f [] [] n) = Ok m' ∧ im ∈ cur :: maybe ∧ inv m' (mkDisk f f [] [] n) im [].
Proof.
  intros Hv Hs. pose proof (survives_good _ _ _ _ _ Hv Hs) as Hg. pose proof Hv as [_ _ _ _ H5 _ H7 H8 _ _ _ _].
  destruct (open_good _ _ _ _ H5 Hg (λ im Him, proj1 (H7 im Him)) H8) as (im & sl' & rs & Hc & Hr & Hp).
  destruct (comes_up_good _ _ _ _ _ _ H5 Hg Hc H8) as (Hg' & Him & Hsl'). unfold open_existing. cbn [view]. rewrite Hr. cbn.
  eexists _, im. split; [reflexivity|]. split; [done|]. apply (inv_reopened _ _ im rs sl'); [reflexivity..|exact Hp|exact Hsl'|by apply H7|exact Hg'|exact Hg'|constructor|split; reflexivity].
Qed.

Lemma restart_reopens m d cur maybe : inv m d cur maybe → header_pending d = false →
  ∃ m' im, open_existing no_fault (λ _, cipher) false d = Ok m' ∧ im ∈ cur :: maybe ∧ inv m' d im [].
Proof.
  intros Hv Hh. pose proof Hv as [_ _ _ _ H5 _ H7 H8 H9 H10 H11 H12]. apply same_decoded in H12; [|exact Hh].
  destruct (open_good _ _ _ _ H5 H9 (λ im Him, proj1 (H7 im Him)) H8) as (im & sl' & rs & Hc & Hr & Hp).
  destruct (comes_up_good _ _ _ _ _ _ H5 H9 Hc H8) as (Hg' & Him & Hsl').
  assert (Hcd : comes_up (slot (active m)) cur maybe (durable d) im sl') by (unfold comes_up in *; by rewrite <- H12).
  destruct (comes_up_good _ _ _ _ _ _ H5 H10 Hcd H8) as (Hd' & _ & _). unfold open_existing. rewrite Hr. cbn.
  eexists _, im. split; [reflexivity|]. split; [done|]. destruct (H7 im Him) as [Hok Hsp].
  apply (inv_reopened _ _ im rs sl'); [reflexivity..|exact Hp|exact Hsl'|exact Hok|exact Hg'|exact Hd'| |].
  - apply Forall_forall. intros c Hin. rewrite Forall_forall in H11. specialize (H11 c Hin).
    assert (Hsub : ∀ p, holders p (spared (active m)) = 0%nat → holders p rs = 0%nat).
    { intros p Hz. destruct (holders p rs) eqn:E; [done|]. assert (0 < holders p rs)%nat as (r & Hr' & Hp')%holders_pos by lia.
      assert (0 < holders p (spared (active m)))%nat; [|lia]. apply holders_pos. exists r. split; [|done]. apply Hsp. by rewrite <- Hp. }
    destruct c as [o bytes|l]; [|destruct H11 as [? Hc']; split; [done|]; intros p Hle; by apply Hsub, Hc'].
    destruct H11 as [Ho [Hdata|(x & Hx & -> & ->)]]; (split; [done|]).
    + left. intros p Hle. destruct (Hdata p Hle) as [? ?]. split; [done|by apply Hsub].
    + exfalso. assert (Hex : header_pending d = true); [|congruence]. unfold header_pending. apply existsb_exists.
      eexists. split; [by apply list_elem_of_In|]. cbv beta iota. rewrite db_encode_length. apply andb_true_iff.
      pose proof page_bytes. split; [apply Z.ltb_lt|apply Nat.ltb_lt]; unfold slot_offset, DATA_START_PAGE, PAGE_SIZE in *; lia.
  - split. intros _. destruct Hc as [(_ & -> & _)|(_ & -> & _)]; [exact H12|]. replace (1 - (1 - slot (active m))) with (slot (active m)) by lia.
    rewrite (g_active _ _ _ _ _ _ H9), (g_active _ _ _ _ _ _ H10). reflexivity.
Qed.
End reopen.

(** ** The storage file keeps its promise *)
Import PageRun PageAllocator.
Open Scope Z_scope.
#[local] Opaque PAGE_BYTES.

Section refines.
Context `{FileEnv} (cipher : option Aes256Gcm) (fh : FileHeaderV3).
Context (Hfh : FileHeaderV3.ok fh) (Henc : FileHeaderV3.encrypted fh = bool_decide (is_Some cipher)).
Abbreviation inv := (inv cipher fh).

(** ** Reads *)

Lemma filter_describes f es (content : list chunk) s : Forall2 (describes cipher f) es content →
  Forall2 (describes cipher f) (filter (λ e, DirectoryEntry.section_type e = s) es) (filter (λ c : chunk, c.1.1.1 = s) content).
Proof.
  induction 1 as [|e c es content Hd _ IH]; [constructor|]. rewrite !filter_cons. pose proof (proj1 Hd) as Ec.
  assert (E : c.1.1.1 = DirectoryEntry.section_type e) by (by rewrite Ec). rewrite E. case_decide; [by constructor|done].
Qed.

Lemma fetch_all f es content : Forall2 (describes cipher f) es content → Forall entry_ok es →
  imap (λ i e, (DirectoryEntry.meta e, fetch cipher no_fault f es i)) es = map (λ c : chunk, (c.1.2, Ok c.2)) content.
Proof.
  intros Hd Hok. apply list_eq. intros i. rewrite list_lookup_imap. change (map ?g content) with (g <$> content). rewrite list_lookup_fmap.
  destruct (es !! i) as [e|] eqn:Ee.
  - destruct (Forall2_lookup_l _ _ _ _ _ Hd Ee) as (c & -> & Ec & Hs). cbn.
    rewrite (fetch_stores cipher f es i e c.2); [by rewrite Ec|apply entry_length_ok|done|done].
    by eapply Forall_lookup_1 in Hok.
  - cbn. destruct (content !! i) as [c|] eqn:Ec; [|done]. destruct (Forall2_lookup_r _ _ _ _ _ Hd Ec) as (e & ? & _). congruence.
Qed.

Lemma section_served f rd content s : Forall entry_ok (entries rd) → Forall2 (describes cipher f) (entries rd) content →
  ('(chunks, _) ← section rd s; Some (imap (λ i e, (DirectoryEntry.meta e, fetch cipher no_fault f chunks i)) chunks)) = section_of s content.
Proof.
  intros Hok Hd. pose proof (filter_describes _ _ _ s Hd) as Hf. unfold section, section_of.
  assert (Hokf : Forall entry_ok (filter (λ e, DirectoryEntry.section_type e = s) (entries rd)))
    by (rewrite Forall_forall in Hok |- *; intros e [_ He]%list_elem_of_filter; by apply Hok).
  destruct (filter _ (entries rd)) as [|e es]; inversion Hf as [|? c ? cs Hec Hes]; subst; [done|]. cbn [mbind option_bind]. f_equal.
  apply fetch_all; [by constructor|exact Hokf].
Qed.

Lemma read_section_served m d cur maybe s : inv m d cur maybe → read_section no_fault m d s = Ok (section_of s (im_content cur)).
Proof.
  intros Hv. destruct (g_images _ _ _ _ _ _ (v_view _ _ _ _ _ _ Hv) cur (list_elem_of_here _ _)) as (rd & Ho & _ & _ & Hok & Hd).
  unfold read_section. rewrite (v_cipher _ _ _ _ _ _ Hv), (v_header _ _ _ _ _ _ Hv), Ho. cbn [mbind result_bind]. f_equal. by apply section_served.
Qed.

(** ** Checkpoints *)

Lemma next_header_ok h root now prev iteration : checkpoint_ok h → is_u64 now → BlockRef.ok root → DbHeaderV3.ok prev → is_u64 iteration →
  DbHeaderV3.ok (next_header h root now prev iteration).
Proof. intros (H1 & H2 & H3 & H4 & H5) Hn Hr (P1 & _) Hi. repeat (split; [done|]). done. Qed.

Lemma next_summary h root now prev iteration : summary (next_header h root now prev iteration) = h.
Proof. by destruct h. Qed.

(** What a checkpoint comes to: [st] is stored, or nothing changed, or [st] is
    possible. *)
Definition outcome (ok : bool) (m' : GrafeoFileManager) (d' : Disk) (cur : image) (maybe : list image) (st : stored_state) : Prop :=
  if ok then ∃ im, inv m' d' im [] ∧ state_of im = st
  else inv m' d' cur maybe ∨ ∃ im, inv m' d' cur (im :: maybe) ∧ state_of im = st.

(** From the sync that made the new image durable. *)
Lemma commit_inv m d cur maybe im given stats_ r m' d' : inv m d cur maybe → durable d = view d → pending d = [] →
  fresh_for (spared (active m)) given →
  new_image cipher (spared (active m)) given (view d) (DbHeaderV3.root (im_header im)) (im_runs im) (im_content im) →
  image_ok im → DbHeaderV3.iteration (im_header im) = DbHeaderV3.iteration (im_header cur) + 1 →
  commit_image stats_ (im_header im) (im_runs im) m d = (r, (m', d')) →
  slots_sound d' (view d') → outcome (is_ok r) m' d' cur maybe (state_of im).
Proof.
  intros Hv Ed Ep Hw Hn Hok Hit. pose proof (inv_added _ _ _ _ _ _ _ _ Hv Ed Ep Hw Hn Hok Hit) as Hv1.
  unfold commit_image. cbv zeta. set (m1 := set_active _ m) in *. change (slot (active m)) with (slot (active m1)).
  assert (Hlate : ∀ d2, inv m1 d2 cur (im :: maybe) → outcome false m1 d2 cur maybe (state_of im)) by (intros d2 Hd2; right; exists im; split; [exact Hd2|reflexivity]).
  destruct (write_page _ _ d) as [[[]|e] d2] eqn:Hwp.
  2:{ intros [= <- <- <-] Hs. apply Hlate. eapply (inv_header cipher fh m1 d cur (im :: maybe) im); [exact Hv1|left|exact Hwp|]. intros _. exact Hs. }
  destruct (inv_header cipher fh m1 d cur (im :: maybe) im _ _ Hv1 (list_elem_of_here _ _) Hwp) as [Hv2 Hdec]; [by intros [=]|]. specialize (Hdec eq_refl).
  destruct (sync_all d2) as [[[]|e] d3] eqn:Hsync.
  2:{ intros [= <- <- <-] _. apply Hlate. destruct (sync_failed _ _ _ Hsync) as (? & ? & ?). by eapply inv_same. }
  destruct (inv_after_sync _ _ _ _ _ _ _ Hv2 Hsync) as (Hv3 & Ed3 & Ep3 & Ev3).
  destruct (image_end (im_runs im)) as [end_|e] eqn:Hend; [|intros [= <- <- <-] _; by apply Hlate].
  destruct (set_len end_ d3) as [[[]|e] d4] eqn:Hset.
  2:{ intros [= <- <- <-] _. apply Hlate. destruct (set_len_failed _ _ _ _ Hset) as (? & ? & ?). by eapply inv_same. }
  intros [= <- <- <-] _. exists im. split; [|reflexivity].
  eapply (inv_commit cipher fh m1 _ d3 d4 cur (im :: maybe) im end_); try reflexivity; try apply Hv3; [left|exact Ep3|exact Ed3|rewrite Ev3; exact Hdec|apply Hn|exact Hend|exact Hset].
Qed.

Lemma checkpoint_inv m d cur maybe bad sections h now r m' d' : inv m d cur maybe → Forall section_ok sections → checkpoint_ok h → is_u64 now →
  write_checkpoint bad sections h now m d = (r, (m', d')) → slots_sound d' (view d') →
  outcome (is_ok r) m' d' cur maybe (h, checkpoint_content cipher bad sections m d).
Proof.
  intros Hv Hsec Hh Hnow Hw Hsound. pose proof Hv as [H1 H2 H3 H4 H5 [a Ha] H7 H8 H9 H10 H11 H12]. unfold write_checkpoint in Hw. rewrite H1 in Hw.
  destruct (checked_add64 _ 1) as [next|] eqn:Hnext; [|injection Hw as <- <- <-; by left]. unfold checkpoint_content. rewrite Ha in Hw |- *.
  destruct (write_image bad sections m a d) as [ri d1] eqn:Hwi. destruct (H7 cur (list_elem_of_here _ _)) as [(Hok & Hrev & Hroot) Hsp].
  pose proof (g_images _ _ _ _ _ _ H9 cur (list_elem_of_here _ _)) as Hheld. unfold held in Hheld. rewrite <- H4 in Hheld.
  destruct (write_image_spec cipher bad sections m d a _ _ ri d1 H2 Hheld Ha Hsp Hsec Hwi) as (given & Hwin & Himg).
  pose proof (inv_written _ _ _ _ _ _ _ _ Hv Hwin) as Hv1.
  destruct ri as [[[stats_ root] rs]|e]; [|injection Hw as <- <- <-; by left]. specialize (Himg stats_ root rs eq_refl).
  destruct (sync_all d1) as [[[]|e] d2] eqn:Hsync.
  2:{ injection Hw as <- <- <-. left. destruct (sync_failed _ _ _ Hsync) as (? & ? & ?). by eapply inv_same. }
  destruct (inv_after_sync _ _ _ _ _ _ _ Hv1 Hsync) as (Hv2 & Ed2 & Ep2 & Ev2). destruct (sync_done _ _ Hsync) as (_ & Ed2' & _).
  unfold checked_add64 in Hnext. destruct (Z.leb_spec (DbHeaderV3.iteration (header (active m)) + 1) u64_max) as [Hle|]; [|done]. injection Hnext as <-.
  set (content := sections_log cipher bad sections _) in *.
  set (im := Image (next_header h root now (header (active m)) (DbHeaderV3.iteration (header (active m)) + 1)) rs content).
  assert (Est : (h, content) = state_of im) by (unfold state_of; cbn; by rewrite next_summary). rewrite Est.
  eapply (commit_inv m d2 cur maybe im given stats_ r m' d'); [exact Hv2|exact Ed2|exact Ep2|apply Hwin| | | |exact Hw|exact Hsound].
  - rewrite Ev2. exact Himg.
  - split; [apply next_header_ok; [done|done|apply Himg|by rewrite H4|]|split; [cbn; by rewrite H4|apply Himg]].
    pose proof Hok as (_ & Hi & _). rewrite <- H4 in Hi. unfold is_u64, u64_max in *. lia.
  - cbn. by rewrite H4.
Qed.
(** ** The simulation *)

Definition sim (s : option (GrafeoFileManager * Disk)) (a : spec) : Prop :=
  ∃ m d cur maybe, s = Some (m, d) ∧ inv m d cur maybe ∧ a = Spec (state_of cur) (map state_of maybe).

Lemma sim_reopened m d im : inv m d im [] → sim (Some (m, d)) (Spec (state_of im) []).
Proof. intros Hv. by exists m, d, im, []. Qed.

Lemma spec_reopened m d cur maybe im : im ∈ cur :: maybe → inv m d im [] →
  spec_step (Spec (state_of cur) (map state_of maybe)) (Reopened (reopened (Ok m))) (Spec (state_of im) []).
Proof.
  intros Him Hv. cbn. rewrite (v_header _ _ _ _ _ _ Hv). apply (spec_reopen _ _ (state_of im)). apply (list_elem_of_fmap_2 state_of _ _ Him).
Qed.

Lemma step_simulated s a e s' : sim s a → step cipher s e s' → ∃ a', spec_step a e a' ∧ sim s' a'.
Proof.
  intros (m & d & cur & maybe & -> & Hv & ->) Hs. inversion Hs as [m0 d0 fs bad sections h now r m' d' Hsec Hh Hnow Hw Hsound|m0 d0 fs r d' Hsy|m0 d0 sec|m0 d0 r Hh Ho|m0 d0 f n r Hsu Ho]; subst.
  - assert (Hv0 : inv m (with_faults fs d) cur maybe) by (by eapply inv_same).
    pose proof (checkpoint_inv _ _ _ _ _ _ _ _ _ _ _ Hv0 Hsec Hh Hnow Hw Hsound) as Hout. destruct (is_ok r); cbn [outcome] in Hout.
    + destruct Hout as (im & Hv' & <-). eexists. split; [apply spec_done|by apply sim_reopened].
    + destruct Hout as [Hv'|(im & Hv' & <-)]; eexists.
      * split; [apply spec_failed|]. by exists m', d', cur, maybe.
      * split; [apply spec_failed_late|]. by exists m', d', cur, (im :: maybe).
  - eexists. split; [apply spec_sync|]. exists m, d', cur, maybe. split_and!; [done| |done].
    unfold sync in Hsy. rewrite (v_mode _ _ _ _ _ _ Hv) in Hsy. assert (Hv0 : inv m (with_faults fs d) cur maybe) by (by eapply inv_same).
    destruct r as [[]|e]; [by eapply inv_after_sync|]. destruct (sync_failed _ _ _ Hsy) as (? & ? & ?). by eapply inv_same.
  - rewrite (read_section_served _ _ _ _ _ Hv). eexists. split; [apply (spec_read (state_of cur))|]. by exists m, d, cur, maybe.
  - destruct (restart_reopens _ _ Hfh Henc _ _ _ _ Hv Hh) as (m' & im & Ho & Him & Hv'). rewrite Ho.
    eexists. split; [by eapply spec_reopened|by apply sim_reopened].
  - destruct (power_loss_reopens _ _ Hfh Henc _ _ _ _ _ n Hv Hsu) as (m' & im & Ho & Him & Hv'). rewrite Ho.
    eexists. split; [by eapply spec_reopened|by apply sim_reopened].
Qed.

Lemma run_simulated s a es s' : sim s a → run (step cipher) s es s' → ∃ a', run spec_step a es a' ∧ sim s' a'.
Proof.
  intros Hsim Hr. revert a Hsim. induction Hr as [s|s e s1 es s2 Hs _ IH]; intros a Hsim; [exists a; split; [constructor|done]|].
  destruct (step_simulated _ _ _ _ Hsim Hs) as (a1 & Ha1 & Hsim1). destruct (IH a1 Hsim1) as (a2 & Ha2 & Hsim2).
  exists a2. split; [by econstructor|done].
Qed.
End refines.

(** ** A new file *)

Section created.
Context `{FileEnv} (cipher : option Aes256Gcm).

Lemma then_inv {A B} (m : result io_error A * Disk) (k : A → Disk → result manager_error B * Disk) x d' : then_ m k = (Ok x, d') →
  ∃ a d, m = (Ok a, d) ∧ k a d = (Ok x, d').
Proof. unfold then_. destruct m as [[a|e] d]; [eauto|done]. Qed.

Lemma new_header_ok version id created : 0 ≤ id < 2 ^ 128 → is_u64 created → FileHeaderV3.ok (FileHeaderV3.new version id created (bool_decide (is_Some cipher))).
Proof.
  intros Hid Hc. split_and!; cbn [FileHeaderV3.new FileHeaderV3.page_size FileHeaderV3.database_id FileHeaderV3.creation_timestamp_ms FileHeaderV3.creator_version]; try done; try lia; try apply Hc.
  rewrite copy_at_length; [by rewrite length_replicate|]. rewrite length_take, length_replicate. lia.
Qed.

Lemma page_kept_page i j bs f : i ≠ j → length bs = PAGE_BYTES → page_kept i f (write_bytes (PAGE_SIZE * Z.of_nat j) bs f).
Proof. intros Hne Hl. pose proof page_bytes. apply page_kept_write; [unfold PAGE_SIZE; lia|]. rewrite Hl. destruct (decide (i < j)%nat); [left|right]; nia. Qed.

Lemma page_other_write i j bs f : (i < 3)%nat → i ≠ j → length bs = PAGE_BYTES → (3 * PAGE_BYTES ≤ length f)%nat →
  page i (write_bytes (PAGE_SIZE * Z.of_nat j) bs f) = page i f.
Proof. intros Hi Hne Hl Hf. apply page_kept_eq; [done|done|by apply page_kept_page]. Qed.

Lemma agree_page_write rs j bs f a : from_used rs = Ok a → (j < 3)%nat → length bs = PAGE_BYTES → agree rs f (write_bytes (PAGE_SIZE * Z.of_nat j) bs f).
Proof.
  intros Ha Hj Hl k x Hk Hx. pose proof page_bytes. apply write_bytes_outside; [unfold PAGE_SIZE; lia| |done].
  destruct (from_used_accounted _ _ Ha) as [_ Hacc]. apply holders_pos in Hk as (r & Hr & Hp). destruct (accounted_page a _ r _ Hacc Hr Hp) as [Hge _].
  unfold page_at in Hge. assert (DATA_START_PAGE * PAGE_SIZE ≤ Z.of_nat k) by (apply Z.le_ngt; intros Hlt; apply page_of_byte in Hlt; lia).
  right. unfold DATA_START_PAGE, PAGE_SIZE in *. lia.
Qed.

Lemma long_write o bs f : 0 ≤ o → (3 * PAGE_BYTES ≤ length f)%nat → (3 * PAGE_BYTES ≤ length (write_bytes o bs f))%nat.
Proof. intros Ho Hl. destruct bs as [|b bs]; [done|]. rewrite write_bytes_length by done. lia. Qed.

(** The pages a new file has. *)
Lemma created_good fh im f : FileHeaderV3.ok fh → image_ok im → held cipher f im → (∃ a, from_used (im_runs im) = Ok a) →
  good_file cipher fh 0 im [] (write_bytes (slot_offset 1) (replicate PAGE_BYTES 0) (write_bytes (slot_offset 0) (db_encode (im_header im))
    (write_bytes (PAGE_SIZE * Z.of_nat 0) (FileHeaderV3.encode fh) f))).
Proof.
  intros Hfh (Hok & Hrev & Hroot) Hheld [a Ha]. pose proof (holds_image_long _ _ _ _ _ Hheld Hroot) as Hl0.
  pose proof (file_encode_length fh ltac:(apply Hfh)) as L0. pose proof (db_encode_length (im_header im)) as L1. pose proof (length_replicate PAGE_BYTES 0) as L2.
  change (slot_offset 0) with (PAGE_SIZE * Z.of_nat 1). change (slot_offset 1) with (PAGE_SIZE * Z.of_nat 2).
  set (f1 := write_bytes (PAGE_SIZE * Z.of_nat 0) _ f). set (f2 := write_bytes (PAGE_SIZE * Z.of_nat 1) _ f1).
  assert (Hl1 : (3 * PAGE_BYTES ≤ length f1)%nat) by (by apply long_write). assert (Hl2 : (3 * PAGE_BYTES ≤ length f2)%nat) by (by apply long_write).
  split.
  - by apply long_write.
  - rewrite page_other_write by (done || lia). unfold f2. rewrite page_other_write by (done || lia). apply page_written; [lia|done].
  - change (slot_page 0) with 1%nat. rewrite page_other_write by (done || lia). unfold f2. rewrite page_written by (done || lia). by apply db_decode_encode.
  - change (slot_page (1 - 0)) with 2%nat. rewrite page_written by (done || lia). vm_compute. exact I.
  - intros x [->|Hx%not_elem_of_nil]%elem_of_cons; [|done]. eapply holds_image_agree; [exact Hheld|].
    etransitivity; [eapply (agree_page_write _ 0); [exact Ha|lia|exact L0]|]. etransitivity; [eapply (agree_page_write _ 1); [exact Ha|lia|exact L1]|].
    eapply (agree_page_write _ 2); [exact Ha|lia|exact L2].
Qed.

Lemma create_inv version id created now d m d' : 0 ≤ id < 2 ^ 128 → is_u64 created → is_u64 now →
  create_with_id version id created now cipher d = (Ok m, d') →
  ∃ im, inv cipher (FileHeaderV3.new version id created (bool_decide (is_Some cipher))) m d' im [] ∧ state_of im = (mkCheckpointHeader 0 0 0 0 0, []).
Proof.
  intros Hid Hcr Hnow Hc. unfold create_with_id in Hc. apply then_inv in Hc as ([] & d1 & Hset & Hc).
  destruct (from_used []) as [a|] eqn:Ha; [|done]. destruct (finish cipher (new a, d1)) as [rf [wf_ d2]] eqn:Hf.
  destruct (first_image cipher d1 a rf wf_ d2 Ha Hf) as (given & Hwin & Himg). destruct rf as [[root rs]|]; [|done].
  specialize (Himg root rs eq_refl). apply then_inv in Hc as ([] & d3 & H3 & Hc). apply then_inv in Hc as ([] & d4 & H4 & Hc). apply then_inv in Hc as ([] & d5 & H5 & Hc).
  destruct (image_end rs) as [end_|] eqn:Hend; [|done]. apply then_inv in Hc as ([] & d6 & H6 & Hc). apply then_inv in Hc as ([] & d7 & H7 & Hc).
  injection Hc as <- <-. set (fh := FileHeaderV3.new _ _ _ _) in *. assert (Hfh : FileHeaderV3.ok fh) by (by apply new_header_ok).
  set (im := Image (DbHeaderV3.mk FORMAT_REVISION 0 0 0 0 root 0 0 now) rs []). exists im. split; [|reflexivity].
  assert (Hok : image_ok im).
  { split; [|split; [reflexivity|apply Himg]]. destruct (ni_root _ _ _ _ _ _ _ Himg) as [Hr _]. refine (conj _ (conj _ (conj _ (conj _ (conj _ (conj Hr (conj _ (conj _ _)))))))); try exact Hnow; (split; [apply Z.leb_le|apply Z.ltb_lt]; reflexivity). }
  destruct (write_at_inv _ _ _ _ _ H3) as (? & E3 & _ & _ & _ & K3). destruct (write_at_inv _ _ _ _ _ H4) as (? & E4 & _ & _ & _ & K4).
  destruct (write_at_inv _ _ _ _ _ H5) as (? & E5 & _ & _ & _ & K5). rewrite (K3 eq_refl) in E3. rewrite (K4 eq_refl) in E4. rewrite (K5 eq_refl) in E5. clear K3 K4 K5.
  assert (Hg : good_file cipher fh 0 im [] (view d5)).
  { rewrite E5, E4, E3. apply created_good; [done|done|apply Himg|]. eapply holds_image_used, Himg. }
  destruct (set_len_done _ _ _ H6) as (E6 & _ & _). destruct (sync_done _ _ H7) as (E7 & D7 & P7).
  apply (inv_fresh cipher fh _ (mkDisk (view d5) (view d5) [] [] 0) _ im end_); try reflexivity; try done; [apply Himg|by rewrite E7, E6|right; by rewrite D7, E7|by left].
Qed.
End created.
