(* ===== verification/StorageProps.v ===== *)
(** * The storage file: properties and concrete runs *)
From S2P Require Import Prelude Bytes PageAlloc Chunks FileHeaders Directory ImageFile ImageWriter FileManager WriterInv WriterOps ManagerFacts StorageFile StorageRefines.
Import PageRun PageAllocator.
Open Scope Z_scope.

Definition no_checkpoint : stored_state := (mkCheckpointHeader 0 0 0 0 0, []).

(** C4: A storage file refines its specification. From its creation on,
    through any checkpoints in which any write, sync or cut fails at any
    point, syncs, reads, restarts (with no header page unsynced) and power
    losses (which keep any part of what was not synced, a torn header page
    being told by its checksum), the file always opens, serves exactly the
    chunks of the last checkpoint that succeeded or of a failed one it came up
    at, whole, and never a mixture. *)
Theorem storage_file_refines `{FileEnv} (cipher : option Aes256Gcm) version id created now d m0 d0 es s :
  0 ≤ id < 2 ^ 128 → is_u64 created → is_u64 now → create_with_id version id created now cipher d = (Ok m0, d0) →
  run (step cipher) (Some (m0, d0)) es s → ∃ a m d, run spec_step (Spec no_checkpoint []) es a ∧ s = Some (m, d).
Proof.
  intros Hid Hc Hn Hcreate Hrun. destruct (create_inv cipher version id created now d m0 d0 Hid Hc Hn Hcreate) as (im & Hv & Est).
  destruct (run_simulated cipher (FileHeaderV3.new version id created (bool_decide (is_Some cipher))) (new_header_ok cipher version id created Hid Hc) eq_refl
    (Some (m0, d0)) (Spec no_checkpoint []) es s) as (a & Ha & m & d1 & _ & _ & -> & _ & _); [|exact Hrun|by exists a, m, d1].
  unfold no_checkpoint. rewrite <- Est. by apply sim_reopened.
Qed.

(** C17: An image reads back. Whatever the sections write, with or without
    encryption, once the writer has finished the image opens, uses exactly the
    pages the writer reports, and gives for each section exactly the chunks
    its sink accepted, in order, with their bytes; no byte in the pages in use
    before has changed. *)
Theorem image_reads_back `{FileEnv} (cipher : option Aes256Gcm) bad used a d sections w d1 root rs w2 d2 :
  from_used used = Ok a → Forall section_ok sections →
  write_sections cipher bad sections (new a, d) = (Ok tt, (w, d1)) → finish cipher (w, d1) = (Ok (root, rs), (w2, d2)) →
  (∃ rd, open cipher no_fault (view d2) root = Ok rd ∧ used_runs rd ≡ₚ rs ∧ skipped rd = [] ∧
    ∀ s, ('(chunks, _) ← section rd s; Some (imap (λ i e, (DirectoryEntry.meta e, fetch cipher no_fault (view d2) chunks i)) chunks))
         = section_of s (sections_log cipher bad sections (new a, d))) ∧
  agree used (view d) (view d2).
Proof.
  intros Ha Hok Hs Hf. destruct (write_sections_spec _ _ _ _ _ _ _ _ _ _ _ _ _ (new_writer_ok cipher d used a Ha) Hok Hs) as (given & kept & content & Hw & Hc).
  destruct (finish_image _ _ _ _ _ _ _ _ _ _ _ Hw Hf) as (given' & Hwin & Himg). destruct (ni_holds _ _ _ _ _ _ _ (Himg root rs eq_refl)) as (rd & Ho & Hsk & Hu & Hent & Hd).
  rewrite (Hc eq_refl) in Hd. cbn [app] in Hd. split.
  - exists rd. split_and!; [exact Ho|exact Hu|exact Hsk|]. intros s. by apply section_served.
  - eapply untouched_agree; [apply Hwin|]. intros p Hp. destruct (holders p given') eqn:E; [done|]. destruct (wi_apart _ _ (wi_fresh _ _ _ _ Hwin) p); lia.
Qed.

(** C23: What opening accepts. Opening ends on any bytes, whatever chain of
    blocks they form; an image that opens has every chunk of its entries
    inside the file, page aligned and behind the headers, no page in two
    chunks or directory blocks, no identity twice in a section and one version
    per section. *)
Theorem opened_images_are_sound `{FileEnv} (cipher : option Aes256Gcm) bad f root :
  open cipher bad f root ≠ Err Endless ∧
  ∀ rd, open cipher bad f root = Ok rd →
    (∀ e, e ∈ entries rd → DirectoryEntry.length e = 0 ∨
       DirectoryEntry.offset e mod PAGE_SIZE = 0 ∧ DATA_START_PAGE * PAGE_SIZE ≤ DirectoryEntry.offset e ∧
       DirectoryEntry.offset e + DirectoryEntry.length e ≤ Z.of_nat (length f)) ∧
    (∀ p, (holders p (used_runs rd) ≤ 1)%nat) ∧ NoDup (map key (entries rd)) ∧
    (∀ e e', e ∈ entries rd → e' ∈ entries rd → DirectoryEntry.section_type e = DirectoryEntry.section_type e' →
       DirectoryEntry.section_version e = DirectoryEntry.section_version e').
Proof.
  split.
  - apply open_ends.
  - intros rd (_ & [seen Hs] & He & _ & [a Ha])%open_inv. split_and!.
    + intros e Hin. apply check_placement_ok. exact (check_all_elem _ _ _ He Hin).
    + intros p. by eapply used_accounted.
    + by apply check_entries_spec in Hs as (_ & _ & _ & ?).
    + intros e e' Hin Hin' Ht. apply check_entries_spec in Hs as (_ & H2 & _ & _). destruct (H2 e Hin) as (i & Hi & _), (H2 e' Hin') as (i' & Hi' & _).
      rewrite Ht in Hi. congruence.
Qed.

(** Headers. The file header and the database headers decode to what was
    encoded; of two valid slots the one with the later iteration is active, of
    one valid slot that one, and without a valid slot the file is empty or
    damaged. *)
Theorem headers_read_back `{FileEnv} (fh : FileHeaderV3) (h0 h1 : DbHeaderV3) :
  FileHeaderV3.ok fh → DbHeaderV3.ok h0 → DbHeaderV3.ok h1 →
  FileHeaderV3.decode (FileHeaderV3.encode fh) = Ok fh ∧
  (∀ s0 s1, active_header (s0, s1) = match s0, s1 with
     | Valid a, Valid b => Ok (Some (if DbHeaderV3.iteration a <? DbHeaderV3.iteration b then (1, b) else (0, a)))
     | Valid a, _ => Ok (Some (0, a))
     | _, Valid b => Ok (Some (1, b))
     | Empty, Empty => Ok None
     | Damaged, Damaged => Err (BothDamaged 4096)
     | Damaged, Empty => Err (DamagedAndEmpty 4096)
     | Empty, Damaged => Err (DamagedAndEmpty 8192)
     end) ∧
  active_header (db_decode (db_encode h0), db_decode (db_encode h1)) =
    Ok (Some (if DbHeaderV3.iteration h0 <? DbHeaderV3.iteration h1 then (1, h1) else (0, h0))).
Proof.
  intros Hf H0 H1. split_and!; [by apply file_decode_encode| |].
  - intros [| |a] [| |b]; try reflexivity. simpl. by destruct (_ <? _).
  - rewrite !db_decode_encode by done. simpl. by destruct (_ <? _).
Qed.

(** ** Concrete files *)

Section samples.
#[local] Existing Instance sample_file_env.

Definition sample_disk : Disk := mkDisk [] [] [] [] 0.
Definition blank_manager : GrafeoFileManager :=
  mkManager _ (FileHeaderV3.mk 0 false 0 0 []) (mkActive DbHeaderV3.default_ 0 []) true None None.
Definition sample_created : result manager_error GrafeoFileManager * Disk := create_with_id [48; 46; 54] 7 1 1 None sample_disk.
Definition from_ok {E A} (dflt : A) (r : result E A) : A := match r with Ok a => a | Err _ => dflt end.
Definition sample_m0 : GrafeoFileManager := from_ok blank_manager sample_created.1.
Definition sample_d0 : Disk := sample_created.2.

Lemma from_ok_split {E A D} (dflt : A) (p : result E A * D) : is_ok p.1 = true → p = (Ok (from_ok dflt p.1), p.2).
Proof. by destruct p as [[a|e] d]. Qed.

Definition sample_section (byte : Z) : Section_ :=
  mkSection SectionType.LpgStore 1 (WriteChunk ChunkMeta.raw [byte; byte] (λ r, Return (if is_ok r then Ok tt else Err 1%nat))).
Definition sample_header (n : Z) : CheckpointHeader := mkCheckpointHeader n n n n n.

Lemma sample_section_ok byte : section_ok (sample_section byte).
Proof.
  assert (Hb : is_byte 1) by (unfold is_byte; lia). split; [exact Hb|]. split; [split|intros r; exact I].
  - unfold ChunkMeta.ok, is_byte, is_u64. cbn. lia.
  - cbn [length]. lia.
Qed.

Lemma sample_header_ok n : is_u64 n → checkpoint_ok (sample_header n).
Proof. intros Hn. repeat split; apply Hn. Qed.

Definition sample_checkpoint : result manager_error CheckpointStats * (GrafeoFileManager * Disk) :=
  write_checkpoint no_fault [sample_section 65] (sample_header 3) 2 sample_m0 (with_faults [] sample_d0).
Definition sample_m1 : GrafeoFileManager := sample_checkpoint.2.1.
Definition sample_d1 : Disk := sample_checkpoint.2.2.
Definition sample_reopened : result manager_error GrafeoFileManager :=
  open_existing no_fault (λ _, None) false (mkDisk (durable sample_d1) (durable sample_d1) [] [] 0).
Definition sample_events : list event :=
  [Checkpointed (is_ok sample_checkpoint.1) (sample_header 3, checkpoint_content None no_fault [sample_section 65] sample_m0 (with_faults [] sample_d0));
   Served SectionType.LpgStore (read_section no_fault sample_m1 sample_d1 SectionType.LpgStore);
   Reopened (reopened sample_reopened)].

Lemma sample_run : run (step None) (Some (sample_m0, sample_d0)) sample_events
  (after_reopen sample_reopened (mkDisk (durable sample_d1) (durable sample_d1) [] [] 0)).
Proof.
  assert (Hu : is_u64 2 ∧ is_u64 3) by (unfold is_u64; lia).
  assert (Hc : sample_checkpoint = (sample_checkpoint.1, (sample_m1, sample_d1))) by (unfold sample_m1, sample_d1; by destruct sample_checkpoint as [r [m d]]).
  assert (Hsound : slots_sound sample_d1 (view sample_d1)) by (intros s h [->| ->] Hd; left; rewrite <- Hd; vm_compute; reflexivity).
  assert (Hs : survives sample_d1 (durable sample_d1)) by (split; [by intros k x Hx _|]; intros s h _ Hd; left; exact Hd).
  exact (run_cons _ _ _ _ _ _
    (step_checkpoint None sample_m0 sample_d0 [] no_fault [sample_section 65] (sample_header 3) 2 sample_checkpoint.1 sample_m1 sample_d1
      (proj2 (Forall_singleton _ _) (sample_section_ok 65)) (sample_header_ok 3 (proj2 Hu)) (proj1 Hu) Hc Hsound)
    (run_cons _ _ _ _ _ _ (step_read None sample_m1 sample_d1 SectionType.LpgStore)
    (run_cons _ _ _ _ _ _ (step_power_loss None sample_m1 sample_d1 (durable sample_d1) 0 sample_reopened Hs eq_refl) (run_nil _ _)))).
Qed.

Lemma storage_file_refines_witness :
  run (step None) (Some (sample_m0, sample_d0)) sample_events (after_reopen sample_reopened (mkDisk (durable sample_d1) (durable sample_d1) [] [] 0)) ∧
  is_ok sample_checkpoint.1 = true ∧
  ∃ a m d, run spec_step (Spec no_checkpoint []) sample_events a ∧ after_reopen sample_reopened (mkDisk (durable sample_d1) (durable sample_d1) [] [] 0) = Some (m, d).
Proof.
  split; [exact sample_run|]. split; [vm_compute; reflexivity|].
  apply (storage_file_refines None [48; 46; 54] 7 1 1 sample_disk sample_m0 sample_d0); [lia|unfold is_u64; lia|unfold is_u64; lia| |exact sample_run].
  apply (from_ok_split blank_manager sample_created). vm_compute. reflexivity.
Defined.

Definition sample_alloc : PageAllocator := from_ok (Alloc [] DATA_START_PAGE) (from_used []).
Definition sample_written : result write_error unit * (CheckpointWriter * Disk) := write_sections None no_fault [sample_section 65] (new sample_alloc, sample_disk).
Definition sample_finished : result write_error (BlockRef * list PageRun) * (CheckpointWriter * Disk) := finish None sample_written.2.

Lemma image_reads_back_witness :
  (∃ root rs, sample_finished.1 = Ok (root, rs) ∧ ∃ rd, open None no_fault (view sample_finished.2.2) root = Ok rd ∧ used_runs rd ≡ₚ rs ∧ skipped rd = [] ∧
    ∀ s, ('(chunks, _) ← section rd s; Some (imap (λ i e, (DirectoryEntry.meta e, fetch None no_fault (view sample_finished.2.2) chunks i)) chunks))
         = section_of s (sections_log None no_fault [sample_section 65] (new sample_alloc, sample_disk))) ∧
  section_of SectionType.LpgStore (sections_log None no_fault [sample_section 65] (new sample_alloc, sample_disk)) = Some [(ChunkMeta.raw, Ok [65; 65])].
Proof.
  split; [|vm_compute; reflexivity].
  set (root := (from_ok (BlockRef.default_, []) sample_finished.1).1). set (rs := (from_ok (BlockRef.default_, []) sample_finished.1).2).
  exists root, rs. split; [vm_compute; reflexivity|].
  eapply (image_reads_back None no_fault [] sample_alloc sample_disk [sample_section 65] sample_written.2.1 sample_written.2.2 root rs sample_finished.2.1 sample_finished.2.2).
  - vm_compute. reflexivity.
  - apply Forall_singleton, sample_section_ok.
  - vm_compute. reflexivity.
  - vm_compute. reflexivity.
Defined.

Lemma headers_read_back_witness :
  active_header (db_decode (db_encode (DbHeaderV3.mk 1 4 0 0 0 (BlockRef.mk 12288 32 9) 0 0 0)),
                 db_decode (db_encode (DbHeaderV3.mk 1 5 0 0 0 (BlockRef.mk 16384 32 9) 0 0 0)))
    = Ok (Some (1, DbHeaderV3.mk 1 5 0 0 0 (BlockRef.mk 16384 32 9) 0 0 0)).
Proof.
  apply (headers_read_back (FileHeaderV3.new [48; 46; 54] 7 1 false)
    (DbHeaderV3.mk 1 4 0 0 0 (BlockRef.mk 12288 32 9) 0 0 0) (DbHeaderV3.mk 1 5 0 0 0 (BlockRef.mk 16384 32 9) 0 0 0)).
  - apply (new_header_ok None [48; 46; 54] 7 1); [lia|unfold is_u64; lia].
  - unfold DbHeaderV3.ok, BlockRef.ok, is_u64. repeat split; cbn; lia.
  - unfold DbHeaderV3.ok, BlockRef.ok, is_u64. repeat split; cbn; lia.
Defined.

(** ** A restart between a header write and its sync *)

(** The first checkpoint fails at the sync of its header; the file is opened
    again, at the new image; the next checkpoint fails at its first sync. *)
Definition unsynced : result manager_error CheckpointStats * (GrafeoFileManager * Disk) :=
  write_checkpoint no_fault [sample_section 65] (sample_header 3) 2 sample_m0 (with_faults [None; None; None; None; Some 0%nat] sample_d0).
Definition restarted : result manager_error GrafeoFileManager := open_existing no_fault (λ _, None) false unsynced.2.2.
Definition overwriting : result manager_error CheckpointStats * (GrafeoFileManager * Disk) :=
  write_checkpoint no_fault [sample_section 66] (sample_header 4) 3 (from_ok blank_manager restarted) (with_faults [None; None; Some 0%nat] unsynced.2.2).

(** The power loss keeps the chunk of the second checkpoint and loses the
    header of the first. *)
Definition left_over : list Z := write_bytes 12288 [66; 66] (durable overwriting.2.2).

(** A restart before the header of a checkpoint is durable can lose the file:
    opening takes the new image from unsynced bytes and frees the pages of the
    durable one, the next checkpoint writes over them, and after a power loss
    the durable header names pages that are gone. *)
Theorem restart_loses_image :
  is_ok sample_created.1 = true ∧ is_ok restarted = true ∧ header_pending unsynced.2.2 = true ∧
  is_ok overwriting.1 = false ∧ survives overwriting.2.2 left_over ∧
  is_ok (open_existing no_fault (λ _, None) false (mkDisk left_over left_over [] [] 0)) = false.
Proof.
  do 4 (split; [vm_compute; reflexivity|]). split; [|vm_compute; reflexivity]. split.
  - intros k x Hx Hu. apply write_bytes_outside; [lia| |exact Hx].
    assert (Hin : Wrote 12288 [66; 66] ∈ pending overwriting.2.2) by (apply (list_elem_of_lookup_2 _ 1); vm_compute; reflexivity).
    specialize (Hu _ Hin). cbn [touches length] in Hu |- *. lia.
  - intros s h [->| ->] Hd; left; rewrite <- Hd; vm_compute; reflexivity.
Qed.
End samples.
