(* ===== verification/Streams.v ===== *)
(** * Byte streams over chunks

    Model of [ChunkCaps], [ChunkStreamWriter], [ChunkStreamReader] and
    [read_stream] of [src/crates/grafeo-common/src/storage/chunk.rs]. A sink is
    a function on its state; a source is a record of what it lists and serves.
    The capacities of the buffers are left out; an I/O error is the error it
    was made from. *)
From S2P Require Import Prelude Bytes Chunks.
Open Scope Z_scope.

(** ** Caps *)

Record ChunkCaps : Set := mkCaps { max_rows : Z; max_bytes : Z }.
Definition DEFAULT : ChunkCaps := mkCaps 65536 (2 ^ 20).

Inductive caps_error : Set :=
  | ZeroCaps (rows bytes : Z)
  | TooManyRows (rows : Z).

Definition validate (c : ChunkCaps) : result caps_error unit :=
  if (max_rows c =? 0) || (max_bytes c =? 0) then Err (ZeroCaps (max_rows c) (max_bytes c))
  else if max_rows DEFAULT <? max_rows c then Err (TooManyRows (max_rows c))
  else Ok tt.

(** ** Writing *)

Inductive write_stream_error (E : Type) : Type :=
  | BadCaps (e : caps_error)
  | SinkError (e : E).
Arguments BadCaps {E}.
Arguments SinkError {E}.

Module ChunkStreamWriter.
Record t (S E : Type) := mk {
  sink : S;
  graph_id : Z;
  stream : Z;
  max_piece : nat;
  buffer : list Z;
  offset : Z;
  error : option (write_stream_error E);
}.
Arguments mk {S E}.
Arguments sink {S E}.
Arguments graph_id {S E}.
Arguments stream {S E}.
Arguments max_piece {S E}.
Arguments buffer {S E}.
Arguments offset {S E}.
Arguments error {S E}.

Section writer.
Context {S E : Type} (write_chunk : ChunkMeta → list Z → S → result E unit * S).
Implicit Types w : t S E.

Definition new (s : S) (graph_id stream : Z) (caps : ChunkCaps) : t S E :=
  match validate caps with
  | Ok _ => mk s graph_id stream (Z.to_nat (max_bytes caps)) [] 0 None
  | Err e => mk s graph_id stream 1 [] 0 (Some (BadCaps e))
  end.

Definition set_buffer (b : list Z) w : t S E := mk (sink w) (graph_id w) (stream w) (max_piece w) b (offset w) (error w).
Definition set_error (e : write_stream_error E) w : t S E :=
  mk (sink w) (graph_id w) (stream w) (max_piece w) (buffer w) (offset w) (Some e).

Definition emit (piece : list Z) w : result (write_stream_error E) unit * t S E :=
  let '(r, s) := write_chunk (ChunkMeta.stream_piece (graph_id w) (stream w) (offset w)) piece (sink w) in
  match r with
  | Ok _ => (Ok tt, mk s (graph_id w) (stream w) (max_piece w) (buffer w) (wrap64 (offset w + Z.of_nat (length piece))) (error w))
  | Err e => (Err (SinkError e), mk s (graph_id w) (stream w) (max_piece w) (buffer w) (offset w) (error w))
  end.

(** The loop of [append]; a round takes at least one byte of [rest], so its
    length bounds the rounds. *)
Fixpoint append_rounds (rounds : nat) (rest : list Z) w : result (write_stream_error E) unit * t S E :=
  match rounds, rest with
  | _, [] => (Ok tt, w)
  | O, _ => (Ok tt, w)
  | Datatypes.S rounds, _ =>
      if (length (buffer w) =? 0)%nat && (max_piece w <=? length rest)%nat then
        match emit (take (max_piece w) rest) w with
        | (Ok _, w) => append_rounds rounds (drop (max_piece w) rest) w
        | (Err e, w) => (Err e, w)
        end
      else
        let n := Nat.min (max_piece w - length (buffer w)) (length rest) in
        let w := set_buffer (buffer w ++ take n rest) w in
        let rest := drop n rest in
        if (length (buffer w) =? max_piece w)%nat then
          let piece := buffer w in
          match emit piece (set_buffer [] w) with
          | (Ok _, w) => append_rounds rounds rest w
          | (Err e, w) => (Err e, w)
          end
        else append_rounds rounds rest w
  end.

Definition append (data : list Z) w : result (write_stream_error E) unit * t S E := append_rounds (length data) data w.

Definition write (data : list Z) w : result (write_stream_error E) nat * t S E :=
  match error w with
  | Some e => (Err e, w)
  | None =>
      match append data w with
      | (Ok _, w) => (Ok (length data), w)
      | (Err e, w) => (Err e, set_error e w)
      end
  end.

Definition flush w : result (write_stream_error E) unit := match error w with Some e => Err e | None => Ok tt end.

Definition finish w : result (write_stream_error E) Z * S :=
  match error w with
  | Some e => (Err e, sink w)
  | None =>
      if (length (buffer w) =? 0)%nat then (Ok (offset w), sink w)
      else
        let piece := buffer w in
        match emit piece (set_buffer [] w) with
        | (Ok _, w) => (Ok (offset w), sink w)
        | (Err e, w) => (Err e, sink w)
        end
  end.

(** A caller's writes, one after the other. *)
Fixpoint write_each (datas : list (list Z)) w : list (result (write_stream_error E) nat) * t S E :=
  match datas with
  | [] => ([], w)
  | data :: datas =>
      let '(r, w) := write data w in
      let '(rs, w) := write_each datas w in
      (r :: rs, w)
  end.
End writer.
End ChunkStreamWriter.

(** ** Reading *)

Record SectionSource (E : Type) := mkSource {
  chunks_ : list ChunkMeta;
  fetch_ : nat → result E (list Z);
  stored_length_ : nat → result E Z;
}.
Arguments mkSource {E}.
Arguments chunks_ {E}.
Arguments fetch_ {E}.
Arguments stored_length_ {E}.

Inductive read_stream_error (E : Type) : Type :=
  | PieceOutOfRange (position : nat)
  | ChunkOutOfRange (index : nat)
  | PieceCodec (offset codec : Z)
  | WrongStart (start expected : Z)
  | NotAfter (start before : Z)
  | BeyondReach (start reach : Z)
  | StreamTooLong (start : Z)
  | SourceError (e : E).
Arguments PieceOutOfRange {E}.
Arguments ChunkOutOfRange {E}.
Arguments PieceCodec {E}.
Arguments WrongStart {E}.
Arguments NotAfter {E}.
Arguments BeyondReach {E}.
Arguments StreamTooLong {E}.
Arguments SourceError {E}.

Module ChunkStreamReader.
Record t (E : Type) := mk {
  source : SectionSource E;
  indices : list nat;
  next : nat;
  current : list Z;
  position : nat;
  offset : Z;
}.
Arguments mk {E}.
Arguments source {E}.
Arguments indices {E}.
Arguments next {E}.
Arguments current {E}.
Arguments position {E}.
Arguments offset {E}.

Definition is_piece (graph_id stream : Z) (m : ChunkMeta) : bool :=
  bool_decide (ChunkMeta.kind m = ChunkKind.Stream) && (ChunkMeta.graph_id m =? graph_id) && (ChunkMeta.column_id m =? stream).

Section reader.
Context {E : Type}.
Implicit Types (r : t E) (s : SectionSource E).

Definition new s (graph_id stream : Z) : t E :=
  mk s (map fst (filter (λ p, is_piece graph_id stream p.2) (zip (seq 0 (length (chunks_ s))) (chunks_ s)))) 0 [] 0 0.

Definition is_at_end r : bool := (position r =? length (current r))%nat && (next r =? length (indices r))%nat.

Definition from_source {A} (x : result E A) : result (read_stream_error E) A :=
  match x with Ok a => Ok a | Err e => Err (SourceError e) end.

Definition piece_meta r (position : nat) : result (read_stream_error E) (nat * ChunkMeta) :=
  match indices r !! position with
  | None => Err (PieceOutOfRange position)
  | Some index =>
      match chunks_ (source r) !! index with
      | None => Err (ChunkOutOfRange index)
      | Some m =>
          if negb (ChunkMeta.codec m =? 0) then Err (PieceCodec (ChunkMeta.row_start m) (ChunkMeta.codec m))
          else Ok (index, m)
      end
  end.

Definition check_offset r (m : ChunkMeta) : result (read_stream_error E) unit :=
  if negb (ChunkMeta.row_start m =? offset r) then Err (WrongStart (ChunkMeta.row_start m) (offset r)) else Ok tt.

(** The loop of [check_run] over the positions from [position] on. *)
Fixpoint check_run_from r (first_length : Z) (count position : nat) (start holds : Z) : result (read_stream_error E) unit :=
  match count with
  | O => Ok tt
  | S count =>
      '(index, m) ← piece_meta r position;
      if ChunkMeta.row_start m <=? start then Err (NotAfter (ChunkMeta.row_start m) start)
      else
        let reach := Z.min (start + holds) u64_max in
        if reach <? ChunkMeta.row_start m then Err (BeyondReach (ChunkMeta.row_start m) reach)
        else
          stored ← from_source (stored_length_ (source r) index);
          check_run_from r first_length count (S position) (ChunkMeta.row_start m) (Z.min first_length stored)
  end.

Definition check_run r (first_length : Z) : result (read_stream_error E) unit :=
  check_run_from r first_length (length (indices r) - 1) 1 0 first_length.

Definition next_piece r : result (read_stream_error E) (option (list Z)) * t E :=
  if (next r =? length (indices r))%nat then (Ok None, r)
  else
    match ('(index, m) ← piece_meta r (next r); _ ← check_offset r m; from_source (fetch_ (source r) index)) with
    | Err e => (Err e, r)
    | Ok piece =>
        (Ok (Some piece), mk (source r) (indices r) (S (next r)) (current r) (position r) (wrap64 (offset r + Z.of_nat (length piece))))
    end.

(** The loop of [read] to a piece with bytes left; a round moves to the next
    piece, so one more than the pieces left bounds the rounds. *)
Fixpoint fill (rounds : nat) r : result (read_stream_error E) bool * t E :=
  if negb (position r =? length (current r))%nat then (Ok true, r)
  else
    match rounds with
    | O => (Ok false, r)
    | S rounds =>
        match next_piece r with
        | (Err e, r) => (Err e, r)
        | (Ok (Some piece), r) => fill rounds (mk (source r) (indices r) (next r) piece 0 (offset r))
        | (Ok None, r) => (Ok false, mk (source r) (indices r) (next r) [] 0 (offset r))
        end
    end.

(** [read] into a buffer of [size] bytes: the bytes it puts there. *)
Definition read (size : nat) r : result (read_stream_error E) (list Z) * t E :=
  if (size =? 0)%nat then (Ok [], r)
  else
    match fill (S (length (indices r) - next r)) r with
    | (Err e, r) => (Err e, r)
    | (Ok false, r) => (Ok [], r)
    | (Ok true, r) =>
        let available := drop (position r) (current r) in
        let count := Nat.min (length available) size in
        (Ok (take count available), mk (source r) (indices r) (next r) (current r) (position r + count) (offset r))
    end.

(** The loop of [join_pieces] over the pieces between the first and the last. *)
Fixpoint join_rounds (rounds last_position : nat) (joined : list Z) r : result (read_stream_error E) (list Z) * t E :=
  match rounds with
  | O => (Ok joined, r)
  | S rounds =>
      if (next r <? last_position)%nat then
        match next_piece r with
        | (Err e, r) => (Err e, r)
        | (Ok None, r) => (Ok joined, r)
        | (Ok (Some piece), r) => join_rounds rounds last_position (joined ++ piece) r
        end
      else (Ok joined, r)
  end.

Definition join_pieces r (first : list Z) : result (read_stream_error E) (list Z) :=
  _ ← check_run r (Z.of_nat (length first));
  let last_position := (length (indices r) - 1)%nat in
  '(last_index, last_meta) ← piece_meta r last_position;
  last ← from_source (fetch_ (source r) last_index);
  match checked_add64 (ChunkMeta.row_start last_meta) (Z.of_nat (length last)) with
  | None => Err (StreamTooLong (ChunkMeta.row_start last_meta))
  | Some _ =>
      match join_rounds last_position last_position first r with
      | (Err e, _) => Err e
      | (Ok joined, r) =>
          _ ← check_offset r last_meta;
          Ok (joined ++ last)
      end
  end.

Definition read_stream s (graph_id stream : Z) : result (read_stream_error E) (list Z) :=
  match next_piece (new s graph_id stream) with
  | (Err e, _) => Err e
  | (Ok None, _) => Ok []
  | (Ok (Some first), r) => if (next r =? length (indices r))%nat then Ok first else join_pieces r first
  end.
End reader.
End ChunkStreamReader.
