(* ===== verification/StreamProps.v ===== *)
(** * Streams: written in pieces of one size, read back whole *)
From S2P Require Import Prelude Bytes PageAlloc Chunks FileHeaders Directory ImageFile ImageWriter WriterInv WriterOps ManagerFacts StorageFile StorageRefines StorageProps Streams.
Open Scope Z_scope.

(** ** The pieces of a stream *)

Section pieces.
Context (n : nat) (graph_id stream : Z).

(** [data] from offset [off] on in pieces of [n] bytes, the last one shorter. *)
Fixpoint pieces_from (rounds : nat) (off : Z) (data : list Z) : list (ChunkMeta * list Z) :=
  match rounds, data with
  | _, [] => []
  | O, _ => []
  | S rounds, _ => (ChunkMeta.stream_piece graph_id stream off, take n data) :: pieces_from rounds (off + Z.of_nat n) (drop n data)
  end.

Definition pieces (off : Z) (data : list Z) : list (ChunkMeta * list Z) := pieces_from (length data) off data.

Context (Hn : (0 < n)%nat).

Lemma pieces_rounds rounds rounds' off data : (length data ≤ rounds)%nat → (length data ≤ rounds')%nat →
  pieces_from rounds off data = pieces_from rounds' off data.
Proof using Hn.
  revert rounds' off data. induction rounds as [|rounds IH]; intros [|rounds'] off [|x data] H1 H2; simpl in *; try done; try lia.
  f_equal. apply IH; rewrite length_drop; simpl; lia.
Qed.

Lemma pieces_cons off data : data ≠ [] → pieces off data = (ChunkMeta.stream_piece graph_id stream off, take n data) :: pieces (off + Z.of_nat n) (drop n data).
Proof using Hn.
  intros Hne. unfold pieces. destruct data as [|x data]; [done|]. cbn [length pieces_from]. f_equal. apply pieces_rounds; rewrite length_drop; cbn [length]; lia.
Qed.

Lemma pieces_app k off a b : length a = (k * n)%nat → pieces off (a ++ b) = pieces off a ++ pieces (off + Z.of_nat (length a)) b.
Proof using Hn.
  revert off a. induction k as [|k IH]; intros off a Ha; [destruct a; [by rewrite Z.add_0_r|done]|].
  assert (a ≠ []) by (intros ->; simpl in Ha; lia). rewrite (pieces_cons off (a ++ b)) by (intros [? ?]%app_eq_nil; done). rewrite (pieces_cons off a) by done.
  rewrite take_app_le, drop_app_le by lia. cbn [app]. f_equal. rewrite IH by (rewrite length_drop; lia).
  replace (off + Z.of_nat n + Z.of_nat (length (drop n a))) with (off + Z.of_nat (length a)) by (rewrite length_drop; lia). done.
Qed.

Lemma pieces_one off data : data ≠ [] → (length data ≤ n)%nat → pieces off data = [(ChunkMeta.stream_piece graph_id stream off, data)].
Proof using Hn. intros Hne Hl. rewrite pieces_cons, take_ge, drop_ge by done. done. Qed.

Lemma pieces_ind (P : Z → list Z → Prop) : (∀ off, P off []) → (∀ off data, data ≠ [] → P (off + Z.of_nat n) (drop n data) → P off data) → ∀ off data, P off data.
Proof using Hn.
  intros H0 HS off data. remember (length data) as m eqn:Em. revert off data Em. induction m as [m IH] using lt_wf_ind. intros off data ->.
  destruct data as [|x data]; [apply H0|]. apply HS; [done|]. eapply IH; [|reflexivity]. rewrite length_drop. simpl. lia.
Qed.

Lemma pieces_concat off data : concat (map snd (pieces off data)) = data.
Proof using Hn.
  pattern off, data. apply pieces_ind; clear off data; [done|]. intros off data Hne IH. rewrite pieces_cons by done. cbn. by rewrite IH, take_drop.
Qed.

Lemma pieces_starts off data k p : pieces off data !! k = Some p →
  p.1 = ChunkMeta.stream_piece graph_id stream (off + Z.of_nat (length (concat (map snd (take k (pieces off data)))))).
Proof using Hn.
  revert k p. pattern off, data. apply pieces_ind; clear off data; [done|]. intros off data Hne IH k p. rewrite pieces_cons by done.
  destruct k as [|k]; cbn [lookup list_lookup take map concat]; [intros [= <-]; cbn; by rewrite Z.add_0_r|]. intros Hk.
  pose proof (lookup_lt_Some _ _ _ Hk) as Hlt. destruct (decide (length data ≤ n)%nat) as [Hle|Hgt]; [by rewrite drop_ge in Hk by done|].
  rewrite (IH _ _ Hk), length_app. cbn [fst snd]. rewrite length_take. f_equal. lia.
Qed.

Lemma pieces_full off data k p : pieces off data !! k = Some p → (S k < length (pieces off data))%nat → length p.2 = n.
Proof using Hn.
  revert k p. pattern off, data. apply pieces_ind; clear off data; [done|]. intros off data Hne IH k p. rewrite pieces_cons by done.
  destruct (decide (length data ≤ n)%nat) as [Hle|Hgt]; [rewrite drop_ge by done; cbn; lia|].
  destruct k as [|k]; cbn [lookup list_lookup length]; [intros [= <-] _; cbn; rewrite length_take; lia|]. intros Hk Hl. apply (IH _ _ Hk). lia.
Qed.
End pieces.

(** ** Writing *)

Section writing.
Import ChunkStreamWriter.
Context {S E : Type} (write_chunk : ChunkMeta → list Z → S → result E unit * S).

(** Pieces handed to a sink until it refuses one. *)
Fixpoint hand (l : list (ChunkMeta * list Z)) (s : S) : result E unit * S :=
  match l with
  | [] => (Ok tt, s)
  | (m, piece) :: l => match write_chunk m piece s with (Ok _, s) => hand l s | (Err e, s) => (Err e, s) end
  end.

Lemma hand_app l l' s : hand (l ++ l') s = match hand l s with (Ok _, s) => hand l' s | (Err e, s) => (Err e, s) end.
Proof. revert s. induction l as [|[m p] l IH]; intros s; [done|]. simpl. destruct (write_chunk m p s) as [[u|e] s1]; [apply IH|done]. Qed.

Context (n : nat) (Hn : (0 < n)%nat) (gid st : Z) (s0 : S).
Abbreviation pieces := (pieces n gid st).

(** [w] has taken the bytes [done_]. *)
Record taken (w : t S E) (done_ : list Z) : Prop := {
  tk_graph : graph_id w = gid;
  tk_stream : stream w = st;
  tk_max : max_piece w = n;
  tk_error : error w = None;
  tk_parts : ∃ k full, done_ = full ++ buffer w ∧ length full = (k * n)%nat ∧ offset w = Z.of_nat (length full) ∧ hand (pieces 0 full) s0 = (Ok tt, sink w);
  tk_buffer : (length (buffer w) < n)%nat;
}.

(** The sink refused a piece of [done_] for the error [e]. *)
Definition refused (s : S) (e : write_stream_error E) (done_ : list Z) : Prop :=
  ∃ e', e = SinkError e' ∧ ∀ more, hand (pieces 0 (done_ ++ more)) s0 = (Err e', s).

(** A full piece goes to the sink. *)
Lemma emit_taken w full k piece rest r w' : graph_id w = gid → stream w = st → max_piece w = n → error w = None → buffer w = [] →
  length full = (k * n)%nat → offset w = Z.of_nat (length full) → hand (pieces 0 full) s0 = (Ok tt, sink w) →
  length piece = n → Z.of_nat (length (full ++ piece)) < 2 ^ 64 →
  emit write_chunk piece w = (r, w') →
  match r with Ok _ => taken w' (full ++ piece) ∧ buffer w' = [] | Err e => refused (sink w') e (full ++ piece ++ rest) end.
Proof using Hn.
  intros Eg Es Em Ee Eb Hf Eo Hh Hp Hlen. unfold emit. rewrite Eg, Es, Eo. intros He.
  destruct (write_chunk _ piece (sink w)) as [[[]|e] s1] eqn:Ew; injection He as <- <-; cbn [sink buffer].
  - assert (Hfp : hand (pieces 0 (full ++ piece)) s0 = (Ok tt, s1)).
    { rewrite (pieces_app n gid st Hn k) by done. rewrite hand_app, Hh, Z.add_0_l, (pieces_one n gid st Hn) by (lia || (intros ->; simpl in Hp; lia)). simpl. by rewrite Ew. }
    split; [|done]. rewrite length_app in Hlen. split; cbn; try done; [|rewrite Eb; done].
    exists (1 + k)%nat, (full ++ piece). rewrite Eb, app_nil_r, length_app. split_and!; [done|lia| |done]. rewrite wrap64_small; [lia|]. unfold is_u64. lia.
  - exists e. split; [done|]. intros more. rewrite <- !app_assoc, (pieces_app n gid st Hn k) by done. rewrite hand_app, Hh, Z.add_0_l.
    rewrite (pieces_cons n gid st Hn) by (intros [-> _]%app_eq_nil; simpl in Hp; lia). rewrite take_app_le, take_ge by lia. simpl. by rewrite Ew.
Qed.

Lemma emit_same piece w r w' : emit write_chunk piece w = (r, w') → max_piece w' = max_piece w ∧ error w' = error w.
Proof. unfold emit. destruct (write_chunk _ _ _) as [[u|e] s1]; intros [= <- <-]; done. Qed.

(** One round of [append]. *)
Lemma append_step rounds rest w : rest ≠ [] → append_rounds write_chunk (Datatypes.S rounds) rest w =
  if (length (buffer w) =? 0)%nat && (max_piece w <=? length rest)%nat then
    match emit write_chunk (take (max_piece w) rest) w with
    | (Ok _, w) => append_rounds write_chunk rounds (drop (max_piece w) rest) w
    | (Err e, w) => (Err e, w)
    end
  else
    let n := Nat.min (max_piece w - length (buffer w)) (length rest) in
    let w := set_buffer (buffer w ++ take n rest) w in
    if (length (buffer w) =? max_piece w)%nat then
      match emit write_chunk (buffer w) (set_buffer [] w) with
      | (Ok _, w) => append_rounds write_chunk rounds (drop n rest) w
      | (Err e, w) => (Err e, w)
      end
    else append_rounds write_chunk rounds (drop n rest) w.
Proof. by destruct rest. Qed.

Lemma append_rounds_spec rounds rest w done_ r w' : taken w done_ → (length rest ≤ rounds)%nat → Z.of_nat (length (done_ ++ rest)) < 2 ^ 64 →
  append_rounds write_chunk rounds rest w = (r, w') →
  match r with Ok _ => taken w' (done_ ++ rest) | Err e => refused (sink w') e (done_ ++ rest) ∧ error w' = None end.
Proof using Hn.
  revert rest w done_. induction rounds as [|rounds IH]; intros rest w done_ Hw Hl Hlen.
  { destruct rest as [|x rest]; [|simpl in Hl; lia]. cbn. intros [= <- <-]. by rewrite app_nil_r. }
  destruct (decide (rest = [])) as [->|Hnil]; [cbn; intros [= <- <-]; by rewrite app_nil_r|].
  assert (Hne : (0 < length rest)%nat) by (destruct rest; [done|simpl; lia]). rewrite append_step by done. destruct Hw as [Eg Es Em Ee (k & full & -> & Hf & Eo & Hh) Hb].
  assert (Hlen' : Z.of_nat (length full + length (buffer w) + length rest) < 2 ^ 64) by (rewrite !length_app in Hlen; lia).
  assert (Hemit : ∀ piece tail w1 r1 w2, piece ++ tail = buffer w ++ rest → length piece = n → graph_id w1 = gid → stream w1 = st → max_piece w1 = n →
    error w1 = None → buffer w1 = [] → offset w1 = offset w → sink w1 = sink w → (length tail ≤ rounds)%nat → emit write_chunk piece w1 = (r1, w2) →
    match r1 with
    | Ok _ => append_rounds write_chunk rounds tail w2 = (r, w') → match r with Ok _ => taken w' (full ++ buffer w ++ rest) | Err e => refused (sink w') e (full ++ buffer w ++ rest) ∧ error w' = None end
    | Err e => refused (sink w2) e (full ++ buffer w ++ rest) ∧ error w2 = None
    end).
  { intros piece tail w1 r1 w2 Hpt Hp G1 G2 G3 G4 G5 G6 G7 Ht He. apply (f_equal length) in Hpt as Hptl. rewrite !length_app in Hptl.
    assert (Hfull : Z.of_nat (length (full ++ piece)) < 2 ^ 64) by (rewrite length_app; lia).
    pose proof (emit_taken w1 full k piece tail r1 w2 G1 G2 G3 G4 G5 Hf ltac:(by rewrite G6) ltac:(by rewrite G7) Hp Hfull He) as Hout. destruct r1 as [u|e].
    - destruct Hout as [Htk _]. intros Hr. rewrite <- Hpt, app_assoc. eapply IH; [exact Htk|exact Ht| |exact Hr]. rewrite !length_app. lia.
    - rewrite Hpt in Hout. split; [exact Hout|]. apply emit_same in He as [_ ->]. exact G4. }
  rewrite <- app_assoc. destruct ((length (buffer w) =? 0)%nat && (max_piece w <=? length rest)%nat) eqn:Ebr.
  - apply andb_true_iff in Ebr as [E1%Nat.eqb_eq E2%Nat.leb_le]. apply nil_length_inv in E1. rewrite Em in E2 |- *.
    destruct (emit write_chunk (take n rest) w) as [r1 w2] eqn:He.
    assert (Em2 : max_piece w2 = n) by (apply emit_same in He as [-> _]; exact Em).
    specialize (Hemit (take n rest) (drop n rest) w r1 w2). rewrite E1, take_drop, length_take, length_drop in Hemit.
    specialize (Hemit eq_refl ltac:(lia) Eg Es Em Ee eq_refl eq_refl eq_refl ltac:(lia) He). rewrite E1.
    destruct r1 as [u|e]; [rewrite Em2; exact Hemit|intros [= <- <-]; exact Hemit].
  - rewrite Em. set (m := Nat.min (n - length (buffer w)) (length rest)). assert (Hm : (0 < m)%nat) by lia.
    assert (Hbl : length (buffer w ++ take m rest) = (length (buffer w) + m)%nat) by (rewrite length_app, length_take; lia).
    cbn [buffer set_buffer max_piece]. rewrite Em, Hbl. destruct (Nat.eqb_spec (length (buffer w) + m) n) as [Efull|Enot].
    + destruct (emit write_chunk _ _) as [r1 w2] eqn:He. eapply (Hemit _ (drop m rest)) in He; try done.
      * destruct r1 as [u|e]; [exact He|intros [= <- <-]; exact He].
      * by rewrite <- app_assoc, take_drop.
      * by rewrite Hbl.
      * rewrite length_drop. lia.
    + intros Hr. assert (Em' : m = length rest) by (subst m; lia). rewrite Em', drop_ge, take_ge in Hr by lia.
      destruct rounds; cbn in Hr; injection Hr as <- <-; (split; cbn; try done; [|rewrite length_app; lia]); exists k, full; by rewrite <- ?app_assoc.
Qed.
(** A writer through whole calls of [write]. *)
Definition streaming (w : t S E) (done_ : list Z) : Prop :=
  taken w done_ ∨ ∃ e, error w = Some e ∧ refused (sink w) e done_.

Lemma refused_more s e done_ more : refused s e done_ → refused s e (done_ ++ more).
Proof. intros (e' & -> & Hr). exists e'. split; [done|]. intros m. rewrite <- app_assoc. apply Hr. Qed.

Lemma stream_write_spec w done_ data r w' : streaming w done_ → Z.of_nat (length (done_ ++ data)) < 2 ^ 64 →
  write write_chunk data w = (r, w') → streaming w' (done_ ++ data) ∧ (error w' = None → r = Ok (length data)).
Proof using Hn.
  intros [Hw|(e & Ee & Hr)] Hlen; unfold write.
  - rewrite (tk_error _ _ Hw). unfold append. destruct (append_rounds _ _ _ _) as [ra wa] eqn:Ea.
    pose proof (append_rounds_spec _ _ _ _ _ _ Hw (le_n _) Hlen Ea) as Hout. destruct ra as [u|e]; intros [= <- <-].
    + split; [by left|done].
    + destruct Hout as [Hr _]. split; [right; by exists e|done].
  - rewrite Ee. intros [= <- <-]. split; [right; exists e; split; [done|by apply refused_more]|by rewrite Ee].
Qed.

Lemma write_each_spec datas w done_ rs w' : streaming w done_ → Z.of_nat (length (done_ ++ concat datas)) < 2 ^ 64 →
  write_each write_chunk datas w = (rs, w') →
  streaming w' (done_ ++ concat datas) ∧ (error w' = None → error w = None ∧ Forall2 (λ d r, r = Ok (length d)) datas rs).
Proof using Hn.
  revert w done_ rs. induction datas as [|data datas IH]; intros w done_ rs Hw Hlen; cbn [write_each concat].
  { intros [= <- <-]. rewrite app_nil_r. split; [done|]. split; [done|constructor]. }
  cbn [concat] in Hlen. rewrite app_assoc in Hlen. destruct (write _ data w) as [r w1] eqn:Hw1. destruct (write_each _ datas w1) as [rs1 w2] eqn:Hw2. intros [= <- <-].
  assert (Hd : Z.of_nat (length (done_ ++ data)) < 2 ^ 64) by (rewrite length_app in Hlen; lia).
  destruct (stream_write_spec _ _ _ _ _ Hw Hd Hw1) as [Hs1 Hr1]. destruct (IH _ _ _ Hs1 Hlen Hw2) as [Hs2 Hr2]. rewrite app_assoc. split; [done|].
  intros He. destruct (Hr2 He) as [He1 Hf]. split; [|constructor; [exact (Hr1 He1)|exact Hf]].
  unfold write in Hw1. destruct (error w) as [e|] eqn:Ew; [|done]. injection Hw1 as <- <-. by rewrite Ew in He1.
Qed.

Lemma stream_finish_spec w done_ r s : streaming w done_ → Z.of_nat (length done_) < 2 ^ 64 → finish write_chunk w = (r, s) →
  match r with
  | Ok len => len = Z.of_nat (length done_) ∧ error w = None ∧ hand (pieces 0 done_) s0 = (Ok tt, s)
  | Err e => ∃ e', e = SinkError e' ∧ hand (pieces 0 done_) s0 = (Err e', s)
  end.
Proof using Hn.
  intros [Hw|(e & Ee & e' & -> & Hr)] Hlen; unfold finish.
  - destruct Hw as [Eg Es Em Ee (k & full & -> & Hf & Eo & Hh) Hb]. rewrite Ee. rewrite length_app in Hlen |- *.
    destruct (Nat.eqb_spec (length (buffer w)) 0) as [E0|E0].
    + intros [= <- <-]. apply nil_length_inv in E0. rewrite E0, app_nil_r, Nat.add_0_r. done.
    + assert (Hall : pieces 0 (full ++ buffer w) = pieces 0 full ++ [(ChunkMeta.stream_piece gid st (Z.of_nat (length full)), buffer w)]).
      { rewrite (pieces_app n gid st Hn k) by done. f_equal. apply (pieces_one n gid st Hn); [intros En; by rewrite En in E0|lia]. }
      unfold emit. cbn [graph_id stream offset sink set_buffer]. rewrite Eg, Es, Eo, Hall, hand_app, Hh. cbn [hand].
      destruct (write_chunk _ _ _) as [[u|e] s1]; intros [= <- <-]; cbn; [|by exists e].
      split_and!; [|done|by destruct u]. rewrite wrap64_small; [lia|]. unfold is_u64. lia.
  - rewrite Ee. intros [= <- <-]. exists e'. split; [done|]. specialize (Hr []). by rewrite app_nil_r in Hr.
Qed.


End writing.

Section whole_stream.
Context {S E : Type} (write_chunk : ChunkMeta → list Z → S → result E unit * S) (s0 : S) (gid st : Z) (caps : ChunkCaps) (datas : list (list Z)).
Context (rs : list (result (write_stream_error E) nat)) (w : ChunkStreamWriter.t S E).
Context (Hcaps : is_u64 (max_bytes caps)) (Hdatas : Z.of_nat (length (concat datas)) < 2 ^ 64).
Context (Hw : ChunkStreamWriter.write_each write_chunk datas (ChunkStreamWriter.new s0 gid st caps) = (rs, w)).

Lemma valid_caps : is_ok (validate caps) = true → (0 < Z.to_nat (max_bytes caps))%nat.
Proof using Hcaps.
  clear -Hcaps. unfold validate. destruct (Z.eqb_spec (max_rows caps) 0), (Z.eqb_spec (max_bytes caps) 0); simpl; try done. unfold is_u64 in Hcaps. lia.
Qed.

(** A stream from its first write to [finish]. *)
Lemma stream_written r s : is_ok (validate caps) = true → ChunkStreamWriter.finish write_chunk w = (r, s) →
  let all := pieces (Z.to_nat (max_bytes caps)) gid st 0 (concat datas) in
  match r with
  | Ok len => hand write_chunk all s0 = (Ok tt, s) ∧ len = Z.of_nat (length (concat datas)) ∧ Forall2 (λ d r, r = Ok (length d)) datas rs
  | Err e => ∃ e', e = SinkError e' ∧ hand write_chunk all s0 = (Err e', s)
  end.
Proof using Hcaps Hdatas Hw.
  intros Hv. pose proof (valid_caps Hv) as Hn. unfold ChunkStreamWriter.new in Hw. destruct (validate caps) as [u|e]; [|done].
  set (w0 := ChunkStreamWriter.mk _ _ _ _ _ _ _) in Hw.
  assert (H0 : streaming write_chunk (Z.to_nat (max_bytes caps)) gid st s0 w0 []) by (left; split; cbn; try done; by exists 0%nat, []).
  destruct (write_each_spec write_chunk _ Hn gid st s0 datas w0 [] rs w H0 Hdatas Hw) as [Hs Hr]. cbn [app] in Hs.
  intros Hf%(stream_finish_spec write_chunk _ Hn gid st s0 w _ r s Hs Hdatas). destruct r as [len|e]; [|exact Hf]. destruct Hf as (-> & He & Hh). split_and!; [done|done|]. by apply Hr.
Qed.

Lemma stream_refused e : validate caps = Err e → ChunkStreamWriter.finish write_chunk w = (Err (BadCaps e), s0) ∧ Forall (λ r, r = Err (BadCaps e)) rs.
Proof using Hw.
  intros Hv. unfold ChunkStreamWriter.new in Hw. rewrite Hv in Hw.
  assert (Hstay : ∀ ds w1, ChunkStreamWriter.error w1 = Some (BadCaps e) → ChunkStreamWriter.write_each write_chunk ds w1 = (map (λ _, Err (BadCaps e)) ds, w1)).
  { induction ds as [|d ds IH]; intros w1 He; [done|]. cbn [ChunkStreamWriter.write_each map]. unfold ChunkStreamWriter.write. rewrite He. by rewrite IH. }
  rewrite Hstay in Hw by done. injection Hw as <- <-. split; [done|]. by apply Forall_map, Forall_true.
Qed.
End whole_stream.

(** Streams are cut by size. However a stream is handed to its writer, the sink
    gets the pieces of the whole stream cut at the byte cap, and the length is
    reported; bad caps refuse every write and touch nothing, and an error of
    the sink is the one [finish] returns. *)
Theorem streams_are_cut_by_size {S E} (write_chunk : ChunkMeta → list Z → S → result E unit * S) s0 gid st caps datas :
  is_u64 (max_bytes caps) → Z.of_nat (length (concat datas)) < 2 ^ 64 →
  let '(rs, w) := ChunkStreamWriter.write_each write_chunk datas (ChunkStreamWriter.new s0 gid st caps) in
  let all := pieces (Z.to_nat (max_bytes caps)) gid st 0 (concat datas) in
  match validate caps, ChunkStreamWriter.finish write_chunk w with
  | Err e, r => r = (Err (BadCaps e), s0) ∧ Forall (λ r, r = Err (BadCaps e)) rs
  | Ok _, (Ok len, s) => hand write_chunk all s0 = (Ok tt, s) ∧ len = Z.of_nat (length (concat datas)) ∧ Forall2 (λ d r, r = Ok (length d)) datas rs
  | Ok _, (Err e, s) => ∃ e', e = SinkError e' ∧ hand write_chunk all s0 = (Err e', s)
  end.
Proof.
  intros Hu Hlen. destruct (ChunkStreamWriter.write_each _ _ _) as [rs w] eqn:Ew. destruct (validate caps) as [u|e] eqn:Hv; [|by eapply stream_refused].
  destruct (ChunkStreamWriter.finish write_chunk w) as [r s] eqn:Ef. eapply stream_written in Ef; [destruct r; exact Ef|done|done|exact Ew|by rewrite Hv].
Qed.

(** ** Reading *)

Section reading.
Import ChunkStreamReader.
Context {E : Type}.
Implicit Types (s : SectionSource E) (l : list (ChunkMeta * list Z)) (r : t E).

(** The source serves at [i] the piece [p], stored without a codec in at least
    its own bytes. *)
Definition serves_at s (i : nat) (p : ChunkMeta * list Z) : Prop :=
  chunks_ s !! i = Some p.1 ∧ ChunkMeta.codec p.1 = 0 ∧ fetch_ s i = Ok p.2 ∧ ∃ k, stored_length_ s i = Ok k ∧ Z.of_nat (length p.2) ≤ k.

(** The pieces of the stream are [l], in this order. *)
Definition serves s (gid st : Z) l : Prop := Forall2 (serves_at s) (indices (new s gid st)) l.

(** Where the piece at [k] starts when the pieces follow each other. *)
Definition start l (k : nat) : Z := Z.of_nat (length (concat (map snd (take k l)))).

Definition laid l : Prop := ∀ k p, l !! k = Some p → ChunkMeta.row_start p.1 = start l k.

(** Every piece but the last has a byte, and no more than the first. *)
Definition one_cut l : Prop := ∀ k p, l !! k = Some p → (S k < length l)%nat → ∃ p0, l !! 0%nat = Some p0 ∧ (0 < length p.2 ≤ length p0.2)%nat.

Lemma start_S l k p : l !! k = Some p → start l (S k) = start l k + Z.of_nat (length p.2).
Proof. intros Hk. unfold start. rewrite (take_S_r _ _ _ Hk), map_app, concat_app, length_app. cbn [map concat]. rewrite app_nil_r. lia. Qed.

Lemma start_le l k : start l k ≤ Z.of_nat (length (concat (map snd l))).
Proof. unfold start. rewrite <- (take_drop k l) at 2. rewrite map_app, concat_app, length_app. lia. Qed.

Lemma serves_piece s gid st l r k p : serves s gid st l → source r = s → indices r = indices (new s gid st) → l !! k = Some p →
  ∃ i, piece_meta r k = Ok (i, p.1) ∧ serves_at s i p.
Proof.
  intros Hs Es Ei Hk. destruct (Forall2_lookup_r _ _ _ _ _ Hs Hk) as (i & Hi & Hat). exists i. split; [|exact Hat].
  destruct Hat as (Hc & Hcodec & _). unfold piece_meta. rewrite Ei, Hi, Es, Hc, Hcodec. by destruct p.
Qed.

Context (s : SectionSource E) (gid st : Z) (l : list (ChunkMeta * list Z)).
Context (Hs : serves s gid st l) (Hl : laid l) (Hlen : Z.of_nat (length (concat (map snd l))) < 2 ^ 64).

(** [r] has fetched the first [k] pieces. *)
Record fetched r (k : nat) : Prop := {
  ft_source : source r = s;
  ft_indices : indices r = indices (new s gid st);
  ft_next : next r = k;
  ft_offset : offset r = start l k;
  ft_bound : (k ≤ length l)%nat;
}.

Lemma served_count : length (indices (new s gid st)) = length l.
Proof using Hs. exact (Forall2_length _ _ _ Hs). Qed.

Lemma next_piece_fetched r k p : fetched r k → l !! k = Some p →
  ∃ r', next_piece r = (Ok (Some p.2), r') ∧ fetched r' (S k) ∧ current r' = current r ∧ position r' = position r.
Proof using Hs Hl Hlen.
  intros [F1 F2 F3 F4 F5] Hk. destruct (serves_piece s gid st l r k p Hs F1 F2 Hk) as (i & Hm & _ & _ & Hf & _).
  pose proof (lookup_lt_Some _ _ _ Hk) as Hkl. unfold next_piece. rewrite F3, F2, served_count, (proj2 (Nat.eqb_neq _ _)) by lia.
  rewrite Hm. cbn. unfold check_offset. rewrite F4, (Hl k p Hk), Z.eqb_refl. cbn. rewrite F1, Hf. cbn. eexists. split; [reflexivity|]. split; [|done].
  split; cbn [source indices next offset]; [done|done|done| |lia]. rewrite (start_S _ _ _ Hk). apply wrap64_small. rewrite <- (start_S _ _ _ Hk). pose proof (start_le l (S k)). unfold is_u64, start in *. lia.
Qed.

Lemma next_piece_end r : fetched r (length l) → next_piece r = (Ok None, r).
Proof using Hs. intros [F1 F2 F3 F4 F5]. unfold next_piece. by rewrite F3, F2, served_count, Nat.eqb_refl. Qed.

Lemma fetched_new : fetched (new s gid st) 0.
Proof. split; try done. lia. Qed.

(** The joined bytes of the pieces from [k] up to [k + m]. *)
Lemma join_rounds_fetched rounds k last_ joined r : fetched r k → (k ≤ last_ ≤ length l)%nat → (last_ - k ≤ rounds)%nat →
  ∃ r', join_rounds rounds last_ joined r = (Ok (joined ++ concat (map snd (take (last_ - k) (drop k l)))), r') ∧ fetched r' last_.
Proof using Hs Hl Hlen.
  revert k joined r. induction rounds as [|rounds IH]; intros k joined r Hr Hk Hd.
  { assert (k = last_) as -> by lia. rewrite Nat.sub_diag, take_0. cbn. rewrite app_nil_r. by exists r. }
  cbn [join_rounds]. rewrite (ft_next _ _ Hr). destruct (Nat.ltb_spec k last_) as [Hlt|Hge].
  - destruct (lookup_lt_is_Some_2 l k) as [p Hp]; [lia|]. destruct (next_piece_fetched r k p Hr Hp) as (r1 & -> & Hr1 & _).
    destruct (IH (S k) (joined ++ p.2) r1 Hr1) as (r2 & -> & Hr2); [lia|lia|]. exists r2. split; [|done]. do 2 f_equal.
    rewrite <- app_assoc, (drop_S _ _ _ Hp). replace (last_ - k)%nat with (S (last_ - S k)) by lia. done.
  - assert (k = last_) as -> by lia. rewrite Nat.sub_diag, take_0. cbn. rewrite app_nil_r. by exists r.
Qed.

Context (Hc : one_cut l).

Lemma check_run_from_ok r p0 count k holds : source r = s → indices r = indices (new s gid st) → l !! 0%nat = Some p0 → (0 < k)%nat → (k + count)%nat = length l →
  (∀ p, (k < length l)%nat → l !! (k - 1)%nat = Some p → Z.of_nat (length p.2) ≤ holds) →
  check_run_from r (Z.of_nat (length p0.2)) count k (start l (k - 1)) holds = Ok tt.
Proof using Hs Hl Hlen Hc.
  intros F1 F2 H0. revert k holds. induction count as [|count IH]; intros k holds Hk Hsum Hh; [done|]. cbn [check_run_from].
  destruct (lookup_lt_is_Some_2 l k) as [p Hp]; [lia|]. destruct (lookup_lt_is_Some_2 l (k - 1)) as [q Hq]; [lia|].
  destruct (serves_piece s gid st l r k p Hs F1 F2 Hp) as (i & Hm & _ & _ & _ & stored & Hst & Hle). rewrite Hm. cbn. rewrite (Hl k p Hp).
  destruct (Hc _ _ Hq) as (p0' & H0' & Hq1); [lia|]. specialize (Hh q ltac:(lia) Hq). pose proof (start_S _ _ _ Hq) as Hst'. replace (S (k - 1)) with k in Hst' by lia.
  pose proof (start_le l k) as Hle'. rewrite (proj2 (Z.leb_gt _ _)), (proj2 (Z.ltb_ge _ _)) by (unfold u64_max in *; lia). rewrite F1, Hst. cbn.
  replace (start l k) with (start l (S k - 1)) by (f_equal; lia). apply IH; [lia|lia|]. intros p' Hk' Hp'. replace (S k - 1)%nat with k in Hp' by lia.
  assert (p' = p) as -> by congruence. destruct (Hc _ _ Hp Hk') as (p1 & H1 & Hp1). assert (p1 = p0) as -> by congruence. lia.
Qed.

Lemma check_run_ok r p0 : source r = s → indices r = indices (new s gid st) → l !! 0%nat = Some p0 → check_run r (Z.of_nat (length p0.2)) = Ok tt.
Proof using Hs Hl Hlen Hc.
  intros F1 F2 H0. unfold check_run. rewrite F2, served_count. pose proof (lookup_lt_Some _ _ _ H0). apply (check_run_from_ok r p0 _ 1); [done|done|done|lia|lia|].
  intros p _ Hp. assert (p = p0) as -> by (cbn in Hp; congruence). done.
Qed.

(** All the pieces at once. *)
Lemma read_stream_served : read_stream s gid st = Ok (concat (map snd l)).
Proof using Hs Hl Hlen Hc.
  unfold read_stream. destruct (l !! 0%nat) as [p0|] eqn:H0.
  2:{ apply lookup_ge_None_1 in H0. assert (E0 : length l = 0%nat) by lia. pose proof fetched_new as Hnew. rewrite <- E0 in Hnew. rewrite (next_piece_end _ Hnew).
      apply nil_length_inv in E0. by rewrite E0. }
  destruct (next_piece_fetched _ _ _ fetched_new H0) as (r1 & -> & Hr1 & _). pose proof Hr1 as [F1 F2 F3 F4 F5]. rewrite F3, F2, served_count.
  destruct (Nat.eqb_spec 1 (length l)) as [Eone|Emore].
  { rewrite <- (take_drop 1 l), (drop_ge l 1), app_nil_r, (take_S_r _ _ _ H0) by lia. rewrite take_0. cbn. by rewrite app_nil_r. }
  pose proof (lookup_lt_Some _ _ _ H0) as Hl0.
  unfold join_pieces. rewrite (check_run_ok r1 p0 F1 F2 H0). cbn -[Nat.sub]. rewrite F2, served_count. set (last_ := (length l - 1)%nat).
  destruct (lookup_lt_is_Some_2 l last_) as [q Hq]; [lia|]. destruct (serves_piece s gid st l r1 last_ q Hs F1 F2 Hq) as (i & -> & _ & _ & Hf & _).
  cbn. rewrite F1, Hf. cbn. rewrite (Hl _ _ Hq). unfold checked_add64. pose proof (start_S _ _ _ Hq) as HS. pose proof (start_le l (S last_)) as Hle.
  assert (ES : S last_ = length l) by lia. rewrite ES in HS, Hle. rewrite (proj2 (Z.leb_le _ _)) by (unfold u64_max; lia).
  destruct (join_rounds_fetched last_ 1 last_ p0.2 r1 Hr1) as (r2 & -> & Hr2); [lia|lia|]. unfold check_offset. rewrite (Hl _ _ Hq), (ft_offset _ _ Hr2), Z.eqb_refl. cbn. f_equal.
  rewrite <- (take_drop 1 l) at 2. rewrite (take_S_r _ _ _ H0), take_0. rewrite <- (take_drop (last_ - 1) (drop 1 l)) at 2.
  rewrite drop_drop. replace (1 + (last_ - 1))%nat with last_ by lia. rewrite (drop_S _ _ _ Hq), ES, drop_all. cbn. rewrite map_app, concat_app, <- !app_assoc. cbn. by rewrite app_nil_r.
Qed.

(** ** Reading by buffers *)

(** [r] has given out the first [length out] bytes. *)
Record given r (out : list Z) : Prop := {
  gv_fetched : ∃ k, fetched r k ∧ out ++ drop (position r) (current r) = concat (map snd (take k l));
  gv_position : (position r ≤ length (current r))%nat;
}.

Lemma given_rest r out : given r out → ∃ rest, out ++ rest = concat (map snd l).
Proof using Type.
  intros [(k & _ & Hk) _]. exists (drop (position r) (current r) ++ concat (map snd (drop k l))).
  by rewrite app_assoc, Hk, <- concat_app, <- map_app, take_drop.
Qed.

(** The loop stops at a byte, or at the end of the stream. *)
Lemma fill_given rounds r out : given r out → (length l - next r < rounds)%nat →
  ∃ b r', fill rounds r = (Ok b, r') ∧ given r' out ∧
    if b then (position r' < length (current r'))%nat else out = concat (map snd l) ∧ is_at_end r' = true.
Proof using Hs Hl Hlen.
  revert r. induction rounds as [|rounds IH]; intros r Hg Hr; [lia|]. cbn [fill]. destruct Hg as [(k & Hf & Hk) Hp].
  destruct (Nat.eqb_spec (position r) (length (current r))) as [Ee|Ene]; cbn [negb].
  2:{ exists true, r. split; [done|]. split; [split; [by exists k|done]|lia]. }
  rewrite drop_ge, app_nil_r in Hk by lia. rewrite (ft_next _ _ Hf) in Hr. destruct (l !! k) as [p|] eqn:Hpk.
  - destruct (next_piece_fetched r k p Hf Hpk) as (r1 & -> & [G1 G2 G3 G4 G5] & _). apply IH; cbn [next]; [|rewrite G3; lia].
    split; cbn [position current]; [|lia]. exists (S k). split; [by split|].
    rewrite drop_0, (take_S_r _ _ _ Hpk), map_app, concat_app, Hk. cbn. by rewrite app_nil_r.
  - apply lookup_ge_None_1 in Hpk. pose proof (ft_bound _ _ Hf) as Hb. assert (k = length l) as -> by lia. rewrite (next_piece_end r Hf). rewrite take_ge in Hk by lia.
    destruct Hf as [G1 G2 G3 G4 G5]. eexists false, _. split; [reflexivity|]. split; [|split; [done|]].
    + split; cbn [position current]; [|done]. exists (length l). split; [by split|]. by rewrite drop_nil, app_nil_r, take_ge by lia.
    + unfold is_at_end. cbn [position current next indices]. rewrite G3, G2, served_count. apply Nat.eqb_refl.
Qed.

(** A buffer of at least one byte gets at least one, unless none are left. *)
Lemma read_given size r out : given r out → (0 < size)%nat →
  ∃ got r', read size r = (Ok got, r') ∧ given r' (out ++ got) ∧ (length got ≤ size)%nat ∧ (got = [] → out = concat (map snd l) ∧ is_at_end r' = true).
Proof using Hs Hl Hlen.
  intros Hg Hsz. unfold read. rewrite (proj2 (Nat.eqb_neq size 0)) by lia.
  destruct (fill_given (S (length (indices r) - next r)) r out Hg) as (b & r1 & -> & Hg1 & Hb).
  { destruct Hg as [(k & [F1 F2 F3 F4 F5] & _) _]. rewrite F2, served_count. lia. }
  destruct b.
  - destruct Hg1 as [(k & [F1 F2 F3 F4 F5] & Hk) Hp]. set (av := drop (position r1) (current r1)) in *. assert (Hav : length av = (length (current r1) - position r1)%nat) by apply length_drop.
    eexists _, _. split; [reflexivity|]. split; [|split; [rewrite length_take; lia|]].
    + split; cbn [position current]; [|lia]. exists k. split; [by split|]. rewrite <- drop_drop. fold av. by rewrite <- app_assoc, take_drop.
    + intros E0%(f_equal length). rewrite length_take in E0. simpl in E0. lia.
  - destruct Hb as [-> Hend]. exists [], r1. rewrite app_nil_r. split; [done|]. split; [done|]. split; [simpl; lia|]. done.
Qed.
End reading.

(** ** A caller that reads with buffers of its own sizes *)

Fixpoint read_each {E} (sizes : list nat) (r : ChunkStreamReader.t E) : list (result (read_stream_error E) (list Z)) * ChunkStreamReader.t E :=
  match sizes with
  | [] => ([], r)
  | size :: sizes =>
      let '(got, r) := ChunkStreamReader.read size r in
      let '(gots, r) := read_each sizes r in
      (got :: gots, r)
  end.

Lemma read_each_given {E} (s : SectionSource E) gid st l : serves s gid st l → laid l → Z.of_nat (length (concat (map snd l))) < 2 ^ 64 →
  ∀ sizes r out, Forall (λ size, 0 < size)%nat sizes → given s gid st l r out →
  ∃ gots r', read_each sizes r = (map Ok gots, r') ∧ given s gid st l r' (out ++ concat gots) ∧ Forall2 (λ size got, length got ≤ size)%nat sizes gots ∧
    ((length (concat (map snd l)) ≤ length out + length sizes)%nat → out ++ concat gots = concat (map snd l)).
Proof.
  intros Hs Hl Hlen sizes. induction sizes as [|size sizes IH]; intros r out Hpos Hg; cbn [read_each].
  { exists [], r. cbn. rewrite app_nil_r. split_and!; [done|done|constructor|]. intros Hle. destruct (given_rest _ _ _ _ _ _ Hg) as [rest Hrest].
    rewrite <- Hrest in Hle |- *. rewrite length_app in Hle. destruct rest; [by rewrite app_nil_r|simpl in Hle; lia]. }
  inversion_clear Hpos as [|? ? Hsz Hpos']. destruct (read_given s gid st l Hs Hl Hlen size r out Hg Hsz) as (got & r1 & -> & Hg1 & Hgot & Hend).
  destruct (IH r1 (out ++ got) Hpos' Hg1) as (gots & r2 & -> & Hg2 & Hf & Hall). exists (got :: gots), r2. cbn [map concat]. rewrite app_assoc. split_and!; [done|done|by constructor|].
  intros Hle. destruct got as [|x got]; [|apply Hall; rewrite length_app; cbn in *; lia]. destruct (Hend eq_refl) as [-> _]. rewrite app_nil_r in *.
  apply Hall. lia.
Qed.

Lemma given_new {E} (s : SectionSource E) gid st l : given s gid st l (ChunkStreamReader.new s gid st) [].
Proof. split; [|done]. exists 0%nat. split; [apply fetched_new|done]. Qed.

(** ** What one reader of a well laid stream gives *)

Lemma pieces_laid n gid st data : (0 < n)%nat → laid (pieces n gid st 0 data).
Proof. intros Hn k p Hk. rewrite (pieces_starts n gid st Hn 0 data k p Hk). done. Qed.

Lemma pieces_one_cut n gid st data : (0 < n)%nat → one_cut (pieces n gid st 0 data).
Proof.
  intros Hn k p Hk Hlt. destruct (lookup_lt_is_Some_2 (pieces n gid st 0 data) 0) as [p0 H0]; [lia|]. exists p0. split; [done|].
  rewrite (pieces_full n gid st Hn 0 data k p Hk Hlt), (pieces_full n gid st Hn 0 data 0 p0 H0) by lia. lia.
Qed.

Lemma pieces_stream n gid st data p : (0 < n)%nat → p ∈ pieces n gid st 0 data → ∃ off, p.1 = ChunkMeta.stream_piece gid st off ∧ 0 ≤ off ≤ Z.of_nat (length data) ∧ (length p.2 ≤ length data)%nat.
Proof.
  intros Hn [k Hk]%list_elem_of_lookup. rewrite (pieces_starts n gid st Hn 0 data k p Hk). eexists. split; [reflexivity|].
  pose proof (start_le (pieces n gid st 0 data) k) as Hle. pose proof (start_le (pieces n gid st 0 data) (S k)) as Hle'. rewrite (start_S _ _ _ Hk) in Hle'. rewrite pieces_concat in Hle, Hle' by done. unfold start in *. lia.
Qed.

(** ** What a stream that reads must look like *)

Section sound.
Import ChunkStreamReader.
Context {E : Type} (s : SectionSource E) (gid st : Z).
Context (Hfetch : ∀ i bytes, fetch_ s i = Ok bytes → Z.of_nat (length bytes) < 2 ^ 64) (Hmeta : ∀ m, m ∈ chunks_ s → is_u64 (ChunkMeta.row_start m)).
Implicit Types (r : t E) (l : list (ChunkMeta * list Z)).

(** The source serves [p] at [i], as a piece of no codec. *)
Definition serves_raw (i : nat) (p : ChunkMeta * list Z) : Prop :=
  chunks_ s !! i = Some p.1 ∧ ChunkMeta.codec p.1 = 0 ∧ fetch_ s i = Ok p.2.

Definition same_run r : Prop := source r = s ∧ indices r = indices (new s gid st).

Lemma piece_meta_ok r k i m : same_run r → piece_meta r k = Ok (i, m) →
  indices (new s gid st) !! k = Some i ∧ chunks_ s !! i = Some m ∧ ChunkMeta.codec m = 0.
Proof using Type.
  intros [Es Ei]. unfold piece_meta. rewrite Es, Ei. destruct (_ !! k) as [i'|]; [|done]. destruct (chunks_ s !! i') as [m'|] eqn:Em; [|done].
  destruct (Z.eqb_spec (ChunkMeta.codec m') 0); [|done]. by intros [= <- <-].
Qed.

Lemma piece_meta_same r r' k : same_run r → same_run r' → piece_meta r' k = piece_meta r k.
Proof using Type. intros [E1 E2] [E3 E4]. unfold piece_meta. by rewrite E1, E2, E3, E4. Qed.

(** Each piece starts after the one before it. *)
Definition rising r (from to : nat) : Prop :=
  ∀ j i m i' m', (from ≤ j < to)%nat → piece_meta r j = Ok (i, m) → piece_meta r (j - 1) = Ok (i', m') → ChunkMeta.row_start m' < ChunkMeta.row_start m.

Lemma check_run_from_rising r first_length count k start_ holds : (0 < k)%nat → (∀ i m, piece_meta r (k - 1) = Ok (i, m) → ChunkMeta.row_start m = start_) →
  check_run_from r first_length count k start_ holds = Ok tt → rising r k (k + count).
Proof using Type.
  revert k start_ holds. induction count as [|count IH]; intros k start_ holds Hk Hst Hc; [intros j; lia|]. cbn [check_run_from] in Hc.
  destruct (piece_meta r k) as [[i m]|] eqn:Em; [|done]. cbn in Hc. destruct (Z.leb_spec (ChunkMeta.row_start m) start_) as [|Hlt]; [done|]. destruct (_ <? _); [done|].
  destruct (from_source _); [|done]. cbn in Hc. apply IH in Hc; [|lia|replace (S k - 1)%nat with k by lia; rewrite Em; by intros ? ? [= <- <-]].
  intros j i1 m1 i2 m2 Hj H1 H2. destruct (decide (j = k)) as [->|Hne]; [|eapply (Hc j); [lia|exact H1|exact H2]]. assert (m1 = m) as -> by congruence. by rewrite (Hst _ _ H2).
Qed.

(** [r] has fetched the pieces [l]. *)
Record fetched_raw r l : Prop := {
  fr_run : same_run r;
  fr_next : next r = length l;
  fr_served : ∀ k p, l !! k = Some p → ∃ i, piece_meta r k = Ok (i, p.1) ∧ serves_raw i p;
  fr_laid : laid l;
  fr_offset : offset r = wrap64 (start l (length l));
}.

(** No sum of lengths has wrapped when the next piece comes after the last. *)
Lemma next_start r l i m : fetched_raw r l → l ≠ [] → rising r (length l) (S (length l)) → piece_meta r (length l) = Ok (i, m) →
  ChunkMeta.row_start m = offset r → ChunkMeta.row_start m = start l (length l).
Proof using Hfetch Hmeta.
  intros [Hrun Hnx Hsv Hla Hof] Hne Hri Hm Ho. destruct l as [|q l' _] using rev_ind; [done|]. rewrite length_app in *. cbn [length] in *. rewrite Nat.add_1_r in *.
  assert (Hq : (l' ++ [q]) !! length l' = Some q) by apply list_lookup_middle, eq_refl.
  destruct (Hsv _ _ Hq) as (i' & Hm' & Hc' & _ & Hf'). specialize (Hri (S (length l')) i m i' q.1 ltac:(lia) Hm). rewrite Nat.sub_succ, Nat.sub_0_r in Hri. specialize (Hri Hm').
  rewrite Ho, Hof, (start_S _ _ _ Hq), <- (Hla _ _ Hq) in *. pose proof (Hfetch _ _ Hf'). pose proof (Hmeta _ (list_elem_of_lookup_2 _ _ _ Hc')) as Hu.
  unfold is_u64, wrap64 in *. set (z := ChunkMeta.row_start q.1 + Z.of_nat (length q.2)) in *. pose proof (Z.div_mod z (2 ^ 64) ltac:(lia)). assert (z / 2 ^ 64 = 0 ∨ z / 2 ^ 64 = 1) as [?|?]; [|lia|lia].
  assert (0 ≤ z / 2 ^ 64 < 2); [|lia]. split; [apply Z.div_pos; lia|apply Z.div_lt_upper_bound; lia].
Qed.

Lemma start_app l l' k : (k ≤ length l)%nat → start (l ++ l') k = start l k.
Proof using Type. intros Hk. unfold start. by rewrite take_app_le. Qed.

Lemma laid_snoc l m bytes : laid l → ChunkMeta.row_start m = start l (length l) → laid (l ++ [(m, bytes)]).
Proof using Type.
  intros Hl Hm k p [Hk|[Hk [Hk0 <-]%list_lookup_singleton_Some]]%lookup_app_Some.
  - rewrite start_app by (apply lookup_lt_Some in Hk; lia). by apply Hl.
  - assert (k = length l) as -> by lia. by rewrite start_app.
Qed.

Definition served_raw r l : Prop := ∀ k p, l !! k = Some p → ∃ i, piece_meta r k = Ok (i, p.1) ∧ serves_raw i p.

Lemma served_snoc r l i m bytes : same_run r → served_raw r l → piece_meta r (length l) = Ok (i, m) → fetch_ (source r) i = Ok bytes → served_raw r (l ++ [(m, bytes)]).
Proof using Type.
  intros Hrun Hsv Hm Hfe k p [Hk|[Hk [Hk0 <-]%list_lookup_singleton_Some]]%lookup_app_Some; [exact (Hsv k p Hk)|]. assert (k = length l) as -> by lia. exists i. split; [exact Hm|].
  destruct (piece_meta_ok _ _ _ _ Hrun Hm) as (_ & Hc & Hcod). destruct Hrun as [Es _]. rewrite Es in Hfe. done.
Qed.

Lemma next_piece_raw r l bytes r' : fetched_raw r l → l = [] ∨ rising r (length l) (S (length l)) → next_piece r = (Ok (Some bytes), r') →
  ∃ m, fetched_raw r' (l ++ [(m, bytes)]).
Proof using Hfetch Hmeta.
  intros Hf Hor. pose proof Hf as [Hrun Hnx Hsv Hla Hof]. unfold next_piece. rewrite Hnx. destruct (_ =? _)%nat; [done|].
  destruct (piece_meta r (length l)) as [[i m]|] eqn:Hm; [|done]. cbn. unfold check_offset. destruct (Z.eqb_spec (ChunkMeta.row_start m) (offset r)) as [Ho|]; [|done]. cbn.
  destruct (fetch_ (source r) i) as [bytes'|] eqn:Hfe; [|done]. cbn. intros [= <- <-]. exists m.
  assert (Hst : ChunkMeta.row_start m = start l (length l)) by (destruct Hor as [->|Hri]; [by rewrite Ho, Hof|destruct (decide (l = [])) as [->|Hne]; [by rewrite Ho, Hof|exact (next_start r l i m Hf Hne Hri Hm Ho)]]).
  split; cbn.
  - exact Hrun.
  - rewrite length_app. cbn. lia.
  - exact (served_snoc r l i m bytes' Hrun Hsv Hm Hfe).
  - by apply laid_snoc.
  - rewrite length_app. cbn [length]. rewrite Nat.add_1_r, (start_S _ _ (m, bytes')) by apply list_lookup_middle, eq_refl. rewrite start_app, Hof by done. cbn [snd].
    unfold wrap64. apply Zplus_mod_idemp_l.
Qed.

Lemma next_piece_none r r' : next_piece r = (Ok None, r') → r' = r ∧ next r = length (indices r).
Proof using Type.
  unfold next_piece. destruct (Nat.eqb_spec (next r) (length (indices r))); [intros [= <-]; done|]. by destruct (_ ← _; _).
Qed.

(** The pieces up to the last. *)
Lemma join_rounds_raw rounds last_ joined r l out r' : fetched_raw r l → l ≠ [] → rising r (length l) (S last_) → (length l ≤ last_ < length (indices r))%nat →
  (last_ - length l ≤ rounds)%nat → joined = concat (map snd l) → join_rounds rounds last_ joined r = (Ok out, r') →
  ∃ l', fetched_raw r' l' ∧ length l' = last_ ∧ out = concat (map snd l').
Proof using Hfetch Hmeta.
  revert joined r l. induction rounds as [|rounds IH]; intros joined r l Hf Hne Hri Hl Hd Hj; cbn [join_rounds].
  { intros [= <- <-]. exists l. split_and!; [done|lia|done]. }
  rewrite (fr_next _ _ Hf). destruct (Nat.ltb_spec (length l) last_) as [Hlt|Hge]; [|intros [= <- <-]; exists l; split_and!; [done|lia|done]].
  destruct (next_piece r) as [[[bytes|]|e] r1] eqn:Hn; [| |done].
  - assert (Hri1 : rising r (length l) (S (length l))) by (intros j i m i' m' Hj'; apply Hri; lia).
    destruct (next_piece_raw r l bytes r1 Hf (or_intror Hri1) Hn) as [m Hf1]. intros Hjr.
    assert (Hlen : length (l ++ [(m, bytes)]) = S (length l)) by (rewrite length_app; cbn; lia).
    pose proof (fr_run _ _ Hf) as Hrun. pose proof (fr_run _ _ Hf1) as Hrun1.
    eapply (IH _ _ _ Hf1); [by destruct l| | | | |exact Hjr].
    + intros j i m1 i' m1' Hj'. rewrite !(piece_meta_same r r1) by done. apply Hri. lia.
    + rewrite Hlen, (proj2 Hrun1), <- (proj2 Hrun). lia.
    + lia.
    + rewrite map_app, concat_app, Hj. cbn. by rewrite app_nil_r.
  - apply next_piece_none in Hn as [_ Hn]. rewrite (fr_next _ _ Hf) in Hn. lia.
Qed.

(** The pieces of the stream, whole. *)
Definition whole l : Prop := Forall2 serves_raw (indices (new s gid st)) l ∧ laid l.

Lemma fetched_whole r l : same_run r → served_raw r l → laid l → length l = length (indices (new s gid st)) → whole l.
Proof using Type.
  intros Hrun Hsv Hla Hlen. split; [|exact Hla]. apply Forall2_same_length_lookup_2; [lia|]. intros k i p Hi Hp.
  destruct (Hsv k p Hp) as (i' & Hm & Hs). destruct (piece_meta_ok _ _ _ _ Hrun Hm) as (Hi' & _). assert (i' = i) as -> by congruence. exact Hs.
Qed.

Lemma read_stream_raw data : read_stream s gid st = Ok data → ∃ l, whole l ∧ data = concat (map snd l).
Proof using Hfetch Hmeta.
  unfold read_stream. assert (H0 : fetched_raw (new s gid st) []) by (by split).
  destruct (next_piece (new s gid st)) as [[[first|]|e] r] eqn:Hn; [| |done].
  2:{ intros [= <-]. apply next_piece_none in Hn as [-> Hn]. exists []. split; [|done]. by apply (fetched_whole _ [] (fr_run _ _ H0)). }
  destruct (next_piece_raw _ _ _ _ H0 (or_introl eq_refl) Hn) as [m Hf]. cbn [app] in Hf. pose proof Hf as [Hrun Hnx Hsv Hla _]. cbn in Hnx.
  destruct (Nat.eqb_spec (next r) (length (indices r))) as [Ee|Ene].
  { intros [= <-]. exists [(m, first)]. split; [|cbn; by rewrite app_nil_r]. apply (fetched_whole r); [done|exact Hsv|done|]. rewrite <- (proj2 Hrun), <- Ee, Hnx. done. }
  unfold join_pieces. destruct (check_run r _) as [u|] eqn:Hc; [|done]. destruct u. cbn -[Nat.sub]. set (last_ := (length (indices r) - 1)%nat).
  destruct (piece_meta r last_) as [[li lm]|] eqn:Hm; [|done]. cbn. destruct (fetch_ (source r) li) as [lb|] eqn:Hfe; [|done]. cbn.
  destruct (checked_add64 _ _); [|done]. destruct (join_rounds _ _ _ _) as [[joined|] r1] eqn:Hj; [|done].
  assert (Hlt : (1 < length (indices r))%nat).
  { rewrite Hnx in Ene. destruct (piece_meta_ok _ _ _ _ Hrun Hm) as (Hi & _). apply lookup_lt_Some in Hi. rewrite (proj2 Hrun) in *. lia. }
  assert (Hri : rising r 1 (S last_)).
  { replace (S last_) with (1 + (length (indices r) - 1))%nat by lia. unfold check_run in Hc. eapply check_run_from_rising; [lia| |exact Hc].
    intros i0 m0 Hm0. destruct (Hsv 0%nat (m, first) eq_refl) as (i1 & Hm1 & _). cbn in Hm0, Hm1. rewrite Hm1 in Hm0. injection Hm0 as <- <-. exact (Hla 0%nat (m, first) eq_refl). }
  destruct (join_rounds_raw last_ last_ first r [(m, first)] joined r1 Hf) as (l & Hf1 & Hll & ->); [done|exact Hri|cbn; lia|cbn; lia|cbn; by rewrite app_nil_r|exact Hj|].
  pose proof Hf1 as [Hrun1 _ Hsv1 Hla1 _]. unfold check_offset. destruct (Z.eqb_spec (ChunkMeta.row_start lm) (offset r1)) as [Ho|]; [|done]. cbn. intros [= <-].
  rewrite <- (piece_meta_same r r1), <- Hll in Hm by done. assert (Hst : ChunkMeta.row_start lm = start l (length l)).
  { eapply next_start; [exact Hf1|intros ->; cbn in Hll; lia| |exact Hm|exact Ho]. intros j i1 m1 i2 m2 Hj'. rewrite !(piece_meta_same r r1) by done. apply Hri. lia. }
  exists (l ++ [(lm, lb)]). split; [|rewrite map_app, concat_app; cbn; by rewrite app_nil_r].
  apply (fetched_whole r1); [done| |by apply laid_snoc|rewrite length_app, <- (proj2 Hrun); cbn; lia].
  apply (served_snoc r1 l li lm lb); [done|done|done|]. by rewrite (proj1 Hrun1), <- (proj1 Hrun).
Qed.
End sound.

(** ** Streams in an image *)

Section image.
Context `{FileEnv} (cipher : option Aes256Gcm).

(** [SectionSource for SectionChunks]. *)
Definition source_of (f : list Z) (chunks : list DirectoryEntry) : SectionSource image_error :=
  mkSource (map DirectoryEntry.meta chunks) (fetch cipher no_fault f chunks) (stored_length chunks).

(** The chunks of the pieces [l], in the section [ty]. *)
Definition as_chunks (ty : SectionType) (v : Z) (l : list (ChunkMeta * list Z)) : list chunk := map (λ p, (ty, v, p.1, p.2)) l.

Lemma hand_spec d0 spared ty v l w d given kept content w' d' : writer_ok cipher d0 spared w d given kept content → current w = Some (ty, v) →
  Forall (λ p, chunk_ok p.1 p.2) l → hand (write_chunk cipher) l (w, d) = (Ok tt, (w', d')) →
  ∃ given', writer_ok cipher d0 spared w' d' given' kept (content ++ as_chunks ty v l).
Proof.
  intros Hw Hc Hl. revert w d given content Hw Hc. induction Hl as [|[m p] l Hp _ IH]; intros w d given content Hw Hc; cbn [hand].
  { intros [= <- <-]. exists given. by rewrite app_nil_r. }
  destruct (write_chunk cipher m p (w, d)) as [[u|e] [w1 d1]] eqn:Hwc; [|done]. intros Hh.
  destruct (write_chunk_spec _ _ _ _ _ _ _ _ _ _ _ _ _ Hw Hp Hwc) as (given1 & log & Hw1 & Hsame & ty' & v' & Hc' & ->). assert (ty' = ty ∧ v' = v) as [-> ->] by (split; congruence).
  destruct (IH w1 d1 given1 _ Hw1) as (given' & Hw'); [by rewrite (proj1 Hsame)|done|]. exists given'. by rewrite <- app_assoc in Hw'.
Qed.

(** What an entry stores fits the bytes it is stored in. *)
Lemma stores_length f e plain : 0 ≤ DirectoryEntry.length e → stores cipher f e plain → Z.of_nat (length plain) ≤ DirectoryEntry.length e.
Proof.
  intros Hl. unfold stores. destruct (Z.eqb_spec (DirectoryEntry.length e) 0) as [E|E]; [intros ->; simpl; lia|]. intros (_ & _ & _ & _ & Hc).
  assert (Hf : (length (field (Z.to_nat (DirectoryEntry.offset e)) (Z.to_nat (DirectoryEntry.length e)) f) ≤ Z.to_nat (DirectoryEntry.length e))%nat) by (unfold field; rewrite length_take; lia).
  destruct cipher as [c|]; [|subst; lia]. unfold decrypt_with in Hc. destruct (_ <? _)%nat; [done|]. apply unseal_length in Hc. rewrite length_drop in Hc. lia.
Qed.

(** ** The pieces of a stream among the chunks of a section *)

Lemma indices_filter {E} (s : SectionSource E) (P : ChunkMeta → bool) cs a :
  (∀ i p, cs !! i = Some p → serves_at s (a + i) p) →
  Forall2 (serves_at s) (map fst (filter (λ q : nat * ChunkMeta, P q.2) (zip (seq a (length (map fst cs))) (map fst cs)))) (filter (λ p, P p.1) cs).
Proof.
  revert a. induction cs as [|[m p] cs IH]; intros a Hs; [constructor|]. cbn [map length seq zip_with]. rewrite !filter_cons. cbn [fst snd].
  assert (Hrest : Forall2 (serves_at s) (map fst (filter (λ q : nat * ChunkMeta, P q.2) (zip (seq (S a) (length (map fst cs))) (map fst cs)))) (filter (λ p, P p.1) cs)).
  { apply IH. intros i q Hi. rewrite Nat.add_succ_comm. exact (Hs (S i) q Hi). }
  destruct (decide (P m)); [|exact Hrest]. cbn. constructor; [|exact Hrest]. specialize (Hs 0%nat _ eq_refl). by rewrite Nat.add_0_r in Hs.
Qed.

Lemma section_serves f rd content ty gid st cs : Forall entry_ok (entries rd) → Forall2 (describes cipher f) (entries rd) content →
  filter (λ c : chunk, c.1.1.1 = ty) content = cs → cs ≠ [] → Forall (λ c, ChunkMeta.codec c.1.2 = 0) cs →
  ∃ chunks v, section rd ty = Some (chunks, v) ∧
    serves (source_of f chunks) gid st (filter (λ p, ChunkStreamReader.is_piece gid st p.1) (map (λ c : chunk, (c.1.2, c.2)) cs)).
Proof.
  intros Hok Hd Hcs Hne Hcod. pose proof (filter_describes _ _ _ _ ty Hd) as Hf. rewrite Hcs in Hf. unfold section.
  assert (Hokf : Forall entry_ok (filter (λ e, DirectoryEntry.section_type e = ty) (entries rd)))
    by (rewrite Forall_forall in Hok |- *; intros e [_ He]%list_elem_of_filter; by apply Hok).
  destruct (filter _ (entries rd)) as [|e es]; [by inversion Hf; subst|]. eexists _, _. split; [reflexivity|]. set (chunks := e :: es) in *.
  assert (Hmetas : map DirectoryEntry.meta chunks = map fst (map (λ c : chunk, (c.1.2, c.2)) cs)).
  { clear -Hf. induction Hf as [|x c l k [Hx _] _ IH]; [done|]. cbn. rewrite IH. f_equal. by rewrite Hx. }
  unfold serves, ChunkStreamReader.new. cbn [ChunkStreamReader.indices]. cbn [chunks_ source_of]. rewrite Hmetas. apply (indices_filter (source_of f chunks) (ChunkStreamReader.is_piece gid st) (map (λ c : chunk, (c.1.2, c.2)) cs) 0).
  intros i p Hi. apply list_lookup_fmap_Some in Hi as (c & -> & Hi). destruct (Forall2_lookup_r _ _ _ _ _ Hf Hi) as (x & Hx & Hdx & Hst).
  assert (Hlx : 0 ≤ DirectoryEntry.length x) by (rewrite Forall_lookup in Hokf; apply (Hokf _ _ Hx)).
  unfold serves_at. cbn [source_of chunks_ fetch_ stored_length_ fst snd]. split_and!.
  - apply list_lookup_fmap_Some. exists x. by rewrite Hdx.
  - rewrite Forall_lookup in Hcod. exact (Hcod _ _ Hi).
  - by eapply fetch_stores.
  - exists (DirectoryEntry.length x). split; [|by eapply stores_length]. unfold stored_length. cbn [Nat.add]. by rewrite Hx.
Qed.

(** Streams written one after the other into a section: each is its graph, its
    number and the slices it is written in. *)
Fixpoint write_streams (caps : ChunkCaps) (streams : list (Z * Z * list (list Z))) (s : CheckpointWriter * Disk)
    : result (write_stream_error write_error) unit * (CheckpointWriter * Disk) :=
  match streams with
  | [] => (Ok tt, s)
  | (gid, st, datas) :: streams =>
      let '(_, w) := ChunkStreamWriter.write_each (write_chunk cipher) datas (ChunkStreamWriter.new s gid st caps) in
      match ChunkStreamWriter.finish (write_chunk cipher) w with
      | (Err e, s) => (Err e, s)
      | (Ok _, s) => write_streams caps streams s
      end
  end.

Definition stream_pieces (n : nat) (x : Z * Z * list (list Z)) : list (ChunkMeta * list Z) := pieces n x.1.1 x.1.2 0 (concat x.2).

Lemma write_streams_hand caps streams s s' : is_u64 (max_bytes caps) → Forall (λ x, Z.of_nat (length (concat x.2)) < 2 ^ 62) streams →
  write_streams caps streams s = (Ok tt, s') →
  (streams ≠ [] → (0 < Z.to_nat (max_bytes caps))%nat) ∧ hand (write_chunk cipher) (concat (map (stream_pieces (Z.to_nat (max_bytes caps))) streams)) s = (Ok tt, s').
Proof.
  intros Hu Hl. revert s. induction Hl as [|[[gid st] datas] streams Hx _ IH]; intros s; cbn [write_streams map concat]; [intros [= <-]; by split|]. cbn [snd] in Hx.
  destruct (ChunkStreamWriter.write_each _ _ _) as [rs w] eqn:Ew. destruct (ChunkStreamWriter.finish _ w) as [[len|e] s1] eqn:Ef; [|done]. intros Hr. apply IH in Hr as [_ Hr].
  destruct (validate caps) as [u|e] eqn:Hv; [|by destruct (stream_refused _ _ _ _ _ _ _ _ Ew e Hv) as [Hf _]; rewrite Hf in Ef].
  assert (Hok : is_ok (validate caps) = true) by (by rewrite Hv). assert (Hx64 : Z.of_nat (length (concat datas)) < 2 ^ 64) by lia. split; [intros _; by apply valid_caps|].
  destruct (stream_written _ _ _ _ _ _ _ _ Hu Hx64 Ew _ _ Hok Ef) as [Hh _]. rewrite hand_app. unfold stream_pieces at 1. cbn [fst snd]. by rewrite Hh.
Qed.

Lemma filter_uniform {A} (P : A → bool) b l : Forall (λ x, P x = b) l → filter (λ x, P x) l = if b then l else [].
Proof. induction 1 as [|x l Hx _ IH]; [by destruct b|]. rewrite filter_cons, Hx, IH. by destruct b. Qed.

(** The pieces of one stream among those of all. *)
Lemma filter_streams n streams gid st datas : (0 < n)%nat → NoDup (map fst streams) → (gid, st, datas) ∈ streams →
  filter (λ p : ChunkMeta * list Z, ChunkStreamReader.is_piece gid st p.1) (concat (map (stream_pieces n) streams)) = pieces n gid st 0 (concat datas).
Proof.
  intros Hn. assert (Hone : ∀ x, filter (λ p : ChunkMeta * list Z, ChunkStreamReader.is_piece gid st p.1) (stream_pieces n x) = if decide (x.1 = (gid, st)) then stream_pieces n x else []).
  { intros [[g t] ds]. cbn [fst]. rewrite (filter_uniform (λ p : ChunkMeta * list Z, ChunkStreamReader.is_piece gid st p.1) (bool_decide ((g, t) = (gid, st)))).
    - case_bool_decide; case_decide; done.
    - apply Forall_forall. intros p (off & Hp & _)%pieces_stream; [|done]. rewrite Hp. unfold ChunkStreamReader.is_piece. cbn. rewrite bool_decide_true by done. cbn.
      destruct (Z.eqb_spec g gid) as [->|], (Z.eqb_spec t st) as [->|]; cbn; symmetry; (apply bool_decide_true || apply bool_decide_false); congruence. }
  induction streams as [|x streams IH]; [by intros _ ?%not_elem_of_nil|]. cbn [map concat]. intros [Hx Hnd]%NoDup_cons Hin. rewrite filter_app, Hone.
  apply elem_of_cons in Hin as [<-|Hin]; cbn [fst] in *.
  - rewrite decide_True by done. unfold stream_pieces at 1. cbn [fst snd]. rewrite <- (app_nil_r (pieces _ _ _ _ _)) at 2. f_equal. clear IH Hnd.
    induction streams as [|y streams IH]; [done|]. cbn [map concat] in *. rewrite filter_app, Hone, decide_False; [apply IH; set_solver|]. intros E. apply Hx. rewrite E. left.
  - rewrite decide_False; [by apply IH|]. intros E. apply Hx. rewrite E. apply list_elem_of_fmap. by exists (gid, st, datas).
Qed.
End image.

Definition stream_ok (x : Z * Z * list (list Z)) : Prop := 0 ≤ x.1.1 < 2 ^ 32 ∧ 0 ≤ x.1.2 < 2 ^ 32 ∧ Z.of_nat (length (concat x.2)) < 2 ^ 62.

Lemma stream_pieces_ok n streams : (0 < n)%nat → Forall stream_ok streams → Forall (λ p, chunk_ok p.1 p.2) (concat (map (stream_pieces n) streams)).
Proof.
  intros Hn. induction 1 as [|x streams (Hg & Ht & Hl) _ IH]; [constructor|]. cbn [map concat]. apply Forall_app. split; [|exact IH].
  apply Forall_forall. intros p (off & Hp & Ho & Hpl)%pieces_stream; [|done]. unfold chunk_ok, ChunkMeta.ok. rewrite Hp. cbn. unfold is_byte, is_u64. lia.
Qed.

Lemma stream_pieces_codec n ty v streams : (0 < n)%nat → Forall (λ c : chunk, ChunkMeta.codec c.1.2 = 0) (as_chunks ty v (concat (map (stream_pieces n) streams))).
Proof.
  intros Hn. apply Forall_map. induction streams as [|x streams IH]; [constructor|]. cbn [map concat]. apply Forall_app. split; [|exact IH].
  apply Forall_forall. intros p (off & Hp & _)%pieces_stream; [|done]. by rewrite Hp.
Qed.

(** The section of the streams serves the pieces of each. *)
Lemma stream_in_section `{FileEnv} (cipher : option Aes256Gcm) f rd ty v n streams gid st datas : (0 < n)%nat → NoDup (map fst streams) →
  (gid, st, datas) ∈ streams → concat datas ≠ [] → Forall entry_ok (entries rd) →
  Forall2 (describes cipher f) (entries rd) (as_chunks ty v (concat (map (stream_pieces n) streams))) →
  ∃ chunks version, section rd ty = Some (chunks, version) ∧ serves (source_of cipher f chunks) gid st (pieces n gid st 0 (concat datas)).
Proof.
  intros Hn Hnd Hin Hne Hent Hd. set (all := concat (map (stream_pieces n) streams)) in *. pose proof (filter_streams n streams gid st datas Hn Hnd Hin) as Hfl. fold all in Hfl.
  destruct (section_serves cipher f rd _ ty gid st (as_chunks ty v all) Hent Hd) as (chunks & version & Hsec & Hs).
  - unfold as_chunks. clear. induction all as [|p l IH]; [done|]. cbn [map]. rewrite filter_cons, decide_True by done. f_equal. exact IH.
  - intros E%(f_equal length). unfold as_chunks in E. rewrite length_map in E. destruct all; [|done]. cbn in Hfl. by rewrite <- (pieces_concat n gid st Hn 0 (concat datas)), <- Hfl in Hne.
  - by apply stream_pieces_codec.
  - exists chunks, version. split; [done|]. unfold as_chunks in Hs. rewrite map_map in Hs. cbn [fst snd] in Hs.
    rewrite (map_ext _ id) in Hs by (by intros []). rewrite map_id, Hfl in Hs. exact Hs.
Qed.

(** C20: Streams read back. Streams written piece by piece through a
    checkpoint writer are read back from the image once it is opened:
    [read_stream] returns every stream that is not empty as its bytes, and
    reads into buffers of any sizes return a prefix of them in order, all of
    them after enough reads. *)
Theorem streams_read_back `{FileEnv} (cipher : option Aes256Gcm) used a d ty v caps streams s1 s2 root rs s3 gid st datas sizes :
  PageAllocator.from_used used = Ok a → is_byte v → is_u64 (max_bytes caps) → Forall stream_ok streams → NoDup (map fst streams) →
  begin_section ty v (ImageWriter.new a, d) = (Ok tt, s1) → write_streams cipher caps streams s1 = (Ok tt, s2) → finish cipher s2 = (Ok (root, rs), s3) →
  (gid, st, datas) ∈ streams → concat datas ≠ [] → Forall (λ size, 0 < size)%nat sizes →
  ∃ rd chunks version, open cipher no_fault (view s3.2) root = Ok rd ∧ section rd ty = Some (chunks, version) ∧
    ChunkStreamReader.read_stream (source_of cipher (view s3.2) chunks) gid st = Ok (concat datas) ∧
    ∃ gots r, read_each sizes (ChunkStreamReader.new (source_of cipher (view s3.2) chunks) gid st) = (map Ok gots, r) ∧ concat gots `prefix_of` concat datas ∧
      ((length (concat datas) ≤ length sizes)%nat → concat gots = concat datas).
Proof.
  intros Ha Hv Hcaps Hok Hnd Hb Hw Hf Hin Hne Hsz. destruct s1 as [w1 d1], s2 as [w2 d2], s3 as [w3 d3].
  destruct (begin_section_spec _ _ _ _ _ _ _ _ _ _ _ _ _ (new_writer_ok cipher d used a Ha) Hv Hb) as [-> Hw1].
  destruct (write_streams_hand cipher caps streams (w1, d) (w2, d2) Hcaps) as [Hn Hh]; [by eapply Forall_impl; [exact Hok|intros x (_ & _ & ?)]|exact Hw|].
  specialize (Hn ltac:(intros ->; by apply not_elem_of_nil in Hin)). set (n := Z.to_nat (max_bytes caps)) in *. set (all := concat (map (stream_pieces n) streams)) in *.
  assert (Hc1 : current w1 = Some (ty, v)) by (unfold begin_section, the_writer, mbind, write_bind, change_writer, refuse in Hb; simpl in Hb; by injection Hb as <-).
  destruct (hand_spec cipher d used ty v all w1 d [] [] [] w2 d2 Hw1 Hc1 (stream_pieces_ok n streams Hn Hok) Hh) as (given1 & Hw2). cbn [app] in Hw2.
  destruct (finish_image _ _ _ _ _ _ _ _ _ _ _ Hw2 Hf) as (given' & _ & Himg). destruct (ni_holds _ _ _ _ _ _ _ (Himg root rs eq_refl)) as (rd & Ho & _ & _ & Hent & Hd).
  destruct (stream_in_section cipher (view d3) rd ty v n streams gid st datas Hn Hnd Hin Hne Hent Hd) as (chunks & version & Hsec & Hs).
  pose proof (pieces_laid n gid st (concat datas) Hn) as Hla. pose proof (pieces_concat n gid st Hn 0 (concat datas)) as Hcat.
  assert (Hlen : Z.of_nat (length (concat (map snd (pieces n gid st 0 (concat datas))))) < 2 ^ 64).
  { rewrite Hcat. rewrite Forall_forall in Hok. destruct (Hok _ Hin) as (_ & _ & Hl). cbn in Hl. lia. }
  exists rd, chunks, version. cbn [snd]. split_and!; [exact Ho|exact Hsec| |].
  - rewrite (read_stream_served _ gid st _ Hs Hla Hlen); [by rewrite Hcat|by apply pieces_one_cut].
  - destruct (read_each_given _ gid st _ Hs Hla Hlen sizes _ [] Hsz (given_new _ gid st _)) as (gots & r & Hr & Hg & _ & Hall). exists gots, r. rewrite Hcat in Hall. split; [exact Hr|].
    split; [|exact Hall]. destruct (given_rest _ _ _ _ _ _ Hg) as [rest Hrest]. exists rest. rewrite Hcat in Hrest. symmetry. exact Hrest.
Qed.

(** C33: What a stream reader accepts. Whatever the chunks of a section claim,
    a stream that is read in full is the concatenation of the pieces that are
    fetched for it, in order, none of them compressed, each starting where the
    ones before it end. *)
Theorem read_streams_are_contiguous {E} (s : SectionSource E) gid st data :
  (∀ i bytes, fetch_ s i = Ok bytes → Z.of_nat (length bytes) < 2 ^ 64) → (∀ m, m ∈ chunks_ s → is_u64 (ChunkMeta.row_start m)) →
  ChunkStreamReader.read_stream s gid st = Ok data →
  ∃ l, Forall2 (λ i p, chunks_ s !! i = Some p.1 ∧ ChunkMeta.codec p.1 = 0 ∧ fetch_ s i = Ok p.2) (ChunkStreamReader.indices (ChunkStreamReader.new s gid st)) l ∧
    (∀ k p, l !! k = Some p → ChunkMeta.row_start p.1 = Z.of_nat (length (concat (map snd (take k l))))) ∧ data = concat (map snd l).
Proof. intros Hf Hm Hr. destruct (read_stream_raw s gid st Hf Hm data Hr) as (l & [Hs Hl] & ->). exists l. split_and!; [exact Hs|exact Hl|done]. Qed.

(** ** Concrete streams *)

Module StreamWitnesses.
(** A sink that keeps what it is handed. *)
Definition keep (m : ChunkMeta) (bytes : list Z) (s : list (ChunkMeta * list Z)) : result Empty_set unit * list (ChunkMeta * list Z) := (Ok tt, s ++ [(m, bytes)]).
Definition small_caps : ChunkCaps := mkCaps 3 4.
Definition amster : list Z := [65; 109; 115; 116; 101; 114].
Definition dam : list Z := [100; 97; 109].

Lemma streams_are_cut_by_size_witness :
  let '(rs, w) := ChunkStreamWriter.write_each keep [amster; dam] (ChunkStreamWriter.new [] 0 19 small_caps) in
  match validate small_caps, ChunkStreamWriter.finish keep w with
  | Err e, r => r = (Err (BadCaps e), []) ∧ Forall (λ r, r = Err (BadCaps e)) rs
  | Ok _, (Ok len, s) => hand keep (pieces 4 0 19 0 (concat [amster; dam])) [] = (Ok tt, s) ∧ len = 9 ∧ Forall2 (λ d r, r = Ok (length d)) [amster; dam] rs
  | Ok _, (Err e, s) => ∃ e', e = SinkError e' ∧ hand keep (pieces 4 0 19 0 (concat [amster; dam])) [] = (Err e', s)
  end.
Proof. apply (streams_are_cut_by_size keep [] 0 19 small_caps [amster; dam]); [unfold is_u64; cbn; lia|cbn; lia]. Defined.

#[local] Existing Instance sample_file_env.

Definition some_key : option Aes256Gcm := Some (tt : @Aes256Gcm sample_file_env).
Definition two_streams : list (Z * Z * list (list Z)) := [(0, 19, [amster; dam]); (0, 20, [dam])].
Definition begun_section : result write_error unit * (CheckpointWriter * Disk) := begin_section SectionType.TextIndex 2 (ImageWriter.new sample_alloc, sample_disk).
Definition streamed : result (write_stream_error write_error) unit * (CheckpointWriter * Disk) := write_streams some_key small_caps two_streams begun_section.2.
Definition image_done : result write_error (BlockRef * list PageRun.t) * (CheckpointWriter * Disk) := finish some_key streamed.2.

Lemma ok_split {E D} (p : result E unit * D) : is_ok p.1 = true → p = (Ok tt, p.2).
Proof. by destruct p as [[[]|e] d]. Qed.
Lemma ok_split_pair {E A B D} (x : A * B) (p : result E (A * B) * D) : is_ok p.1 = true → p = (Ok ((from_ok x p.1).1, (from_ok x p.1).2), p.2).
Proof. by destruct p as [[[a b]|e] d]. Qed.

Lemma streams_read_back_witness : ∃ root rs, image_done.1 = Ok (root, rs) ∧
  ∃ rd chunks version, open some_key no_fault (view image_done.2.2) root = Ok rd ∧ section rd SectionType.TextIndex = Some (chunks, version) ∧
    ChunkStreamReader.read_stream (source_of some_key (view image_done.2.2) chunks) 0 19 = Ok (amster ++ dam).
Proof.
  set (root := (from_ok (BlockRef.default_, []) image_done.1).1). set (rs := (from_ok (BlockRef.default_, []) image_done.1).2).
  exists root, rs. pose proof (ok_split_pair (BlockRef.default_, []) image_done) as Hdone. split; [rewrite Hdone; [reflexivity|vm_compute; reflexivity]|].
  destruct (streams_read_back some_key [] sample_alloc sample_disk SectionType.TextIndex 2 small_caps two_streams begun_section.2 streamed.2 root rs image_done.2 0 19 [amster; dam] [])
    as (rd & chunks & version & H1 & H2 & H3 & _).
  - vm_compute. reflexivity.
  - unfold is_byte. lia.
  - unfold is_u64. cbn. lia.
  - repeat constructor; cbn; lia.
  - apply (bool_decide_unpack _). vm_compute. exact I.
  - apply (ok_split begun_section). vm_compute. reflexivity.
  - apply (ok_split streamed). vm_compute. reflexivity.
  - apply Hdone. vm_compute. reflexivity.
  - left.
  - done.
  - constructor.
  - exists rd, chunks, version. split; [exact H1|]. split; [exact H2|exact H3].
Defined.

(** Two pieces, listed among a chunk of another stream. *)
Definition listed : SectionSource Empty_set :=
  mkSource [ChunkMeta.stream_piece 0 19 0; ChunkMeta.stream_piece 0 20 0; ChunkMeta.stream_piece 0 19 6]
    (λ i, Ok (match i with 0%nat => amster | 1%nat => [] | _ => dam end)) (λ _, Ok 6).

Lemma read_streams_are_contiguous_witness : ∃ l,
  Forall2 (λ i p, chunks_ listed !! i = Some p.1 ∧ ChunkMeta.codec p.1 = 0 ∧ fetch_ listed i = Ok p.2) (ChunkStreamReader.indices (ChunkStreamReader.new listed 0 19)) l ∧
    (∀ k p, l !! k = Some p → ChunkMeta.row_start p.1 = Z.of_nat (length (concat (map snd (take k l))))) ∧ amster ++ dam = concat (map snd l).
Proof.
  apply (read_streams_are_contiguous listed 0 19 (amster ++ dam)).
  - intros [|[|i]] bytes [= <-]; cbn; lia.
  - intros m Hm. assert (Hall : Forall (λ m, is_u64 (ChunkMeta.row_start m)) (chunks_ listed)) by (repeat constructor; cbn; lia).
    rewrite Forall_forall in Hall. exact (Hall m Hm).
  - vm_compute. reflexivity.
Defined.
End StreamWitnesses.
