(* ===== verification/Changes.v ===== *)
(** * Change sets

    Model of [src/crates/grafeo-common/src/change.rs]: the writes of one
    transaction in the order they were applied, each with what it replaced,
    the graphs they write, the ranges of bulk writes with the rows kept for
    the log, and positions for savepoints. A string is the list of its bytes,
    an id the [Z] of its [u64], a range its two ends. [bulk_rows] is searched
    by the index of its entry, as [binary_search_by_key] finds it in the sorted
    list. The estimate of the memory held is left out. The records of catalog
    changes are a parameter of [StandaloneOp]. *)
From S2P Require Import Prelude Values.
Open Scope Z_scope.

(** ** Terms and targets of RDF records *)

Inductive TermRecord : Set :=
  | TermIri (iri : str)
  | TermBlank (label : str)
  | TermLiteral (value datatype : str) (language : option str).

Record TripleRecord : Set := mkTriple { subject : TermRecord; predicate : TermRecord; object : TermRecord }.

Inductive RdfGraphTarget : Set :=
  | TargetDefault
  | TargetNamed (name : str)
  | TargetAllNamed
  | TargetAll.

(** ** Graphs *)

Inductive DataModel : Set := Lpg | Rdf.
#[export] Instance DataModel_eq_dec : EqDecision DataModel.
Proof. solve_decision. Defined.

Record GraphRef : Set := mkGraph { model : DataModel; key : option str }.
#[export] Instance GraphRef_eq_dec : EqDecision GraphRef.
Proof. solve_decision. Defined.
#[export] Program Instance GraphRef_countable : Countable GraphRef :=
  inj_countable' (λ g, (bool_decide (model g = Rdf), key g)) (λ p, mkGraph (if p.1 then Rdf else Lpg) p.2) _.
Next Obligation. by intros [[|] k]. Qed.

(** The place of a graph in the table of its set. *)
Definition GraphSlot : Set := nat.
Bind Scope nat_scope with GraphSlot.

Inductive Table : Set := Nodes | Edges.
#[export] Instance Table_eq_dec : EqDecision Table.
Proof. solve_decision. Defined.

Inductive Entity : Set := Node_ (id : Z) | Edge_ (id : Z).
Definition table_of (e : Entity) : Table := match e with Node_ _ => Nodes | Edge_ _ => Edges end.

Abbreviation Labels := (list str) (only parsing).
Abbreviation Properties := (list (str * Value.t)) (only parsing).

(** ** What a write did and what it replaced *)

Inductive DataOp : Type :=
  | CreateNode (id : Z) (labels : Labels) (properties : Properties)
  | DeleteNode (id : Z)
  | CreateEdge (id src dst : Z) (edge_type : str) (properties : Properties)
  | DeleteEdge (id : Z)
  | SetNodeProperty (id : Z) (key : str) (value : Value.t)
  | RemoveNodeProperty (id : Z) (key : str)
  | SetEdgeProperty (id : Z) (key : str) (value : Value.t)
  | RemoveEdgeProperty (id : Z) (key : str)
  | AddNodeLabel (id : Z) (label : str)
  | RemoveNodeLabel (id : Z) (label : str)
  | InsertTriple (triple : TripleRecord)
  | DeleteTriple (triple : TripleRecord).

Definition INVALID_ID : Z := 2 ^ 64 - 1.
Definition is_valid (id : Z) : bool := negb (id =? INVALID_ID).

Definition model_of (op : DataOp) : DataModel :=
  match op with InsertTriple _ | DeleteTriple _ => Rdf | _ => Lpg end.

Definition entity (op : DataOp) : option Entity :=
  match op with
  | CreateNode id _ _ | DeleteNode id | SetNodeProperty id _ _ | RemoveNodeProperty id _ | AddNodeLabel id _ | RemoveNodeLabel id _ => Some (Node_ id)
  | CreateEdge id _ _ _ _ | DeleteEdge id | SetEdgeProperty id _ _ | RemoveEdgeProperty id _ => Some (Edge_ id)
  | InsertTriple _ | DeleteTriple _ => None
  end.

Definition property_key (op : DataOp) : option str :=
  match op with
  | SetNodeProperty _ k _ | RemoveNodeProperty _ k | SetEdgeProperty _ k _ | RemoveEdgeProperty _ k => Some k
  | _ => None
  end.

Definition names_real_ids (op : DataOp) : bool :=
  match op with
  | CreateEdge id src dst _ _ => is_valid id && is_valid src && is_valid dst
  | InsertTriple _ | DeleteTriple _ => true
  | _ => match entity op with Some (Node_ id) | Some (Edge_ id) => is_valid id | None => true end
  end.

Record NodeImage : Type := mkNodeImage { node_labels : Labels; node_properties : Properties }.
Record EdgeImage : Type := mkEdgeImage {
  edge_src : Z; edge_dst : Z; edge_type_ : str; edge_properties : Properties; deleted_with : option Z;
}.

Inductive Before : Type :=
  | Absent
  | BeforeValue (value : option Value.t)
  | BeforeLabels (labels : Labels)
  | BeforeNode (image : NodeImage)
  | BeforeEdge (image : EdgeImage).

(** [Before::fits]. *)
Definition fits (before : Before) (op : DataOp) : bool :=
  match op with
  | CreateNode _ _ _ | CreateEdge _ _ _ _ _ | InsertTriple _ | DeleteTriple _ => match before with Absent => true | _ => false end
  | SetNodeProperty _ _ _ | SetEdgeProperty _ _ _ => match before with BeforeValue _ => true | _ => false end
  | RemoveNodeProperty _ _ | RemoveEdgeProperty _ _ => match before with BeforeValue (Some _) => true | _ => false end
  | AddNodeLabel _ label => match before with BeforeLabels labels => negb (bool_decide (label ∈ labels)) | _ => false end
  | RemoveNodeLabel _ label => match before with BeforeLabels labels => bool_decide (label ∈ labels) | _ => false end
  | DeleteNode _ => match before with BeforeNode _ => true | _ => false end
  | DeleteEdge _ => match before with BeforeEdge _ => true | _ => false end
  end.

Inductive PendingVersion : Set := Created | Replaced.
#[export] Instance PendingVersion_eq_dec : EqDecision PendingVersion.
Proof. solve_decision. Defined.

(** ** Entries *)

Record BulkRange : Set := mkRange { range_graph : GraphSlot; range_table : Table; ids_start : Z; ids_end : Z }.

Definition ids_empty (r : BulkRange) : bool := ids_end r <=? ids_start r.
Definition ids_contain (r : BulkRange) (id : Z) : bool := (ids_start r <=? id) && (id <? ids_end r).
Definition ids_of (r : BulkRange) : list Z := seqZ (ids_start r) (ids_end r - ids_start r).

Definition holds (r : BulkRange) (row : DataOp) : bool :=
  match range_table r, row with
  | Nodes, CreateNode id _ _ => ids_contain r id
  | Edges, CreateEdge id _ _ _ _ => names_real_ids row && ids_contain r id
  | _, _ => false
  end.

Inductive Change : Type :=
  | Data (graph : GraphSlot) (op : DataOp) (before : Before) (version : PendingVersion)
  | Bulk (range : BulkRange).

Definition change_graph (c : Change) : GraphSlot := match c with Data graph _ _ _ => graph | Bulk r => range_graph r end.

(** ** Changes applied on their own *)

Inductive RdfGraphOp : Set :=
  | RdfCreate (name : str)
  | RdfDrop (target : RdfGraphTarget)
  | RdfClear (target : RdfGraphTarget)
  | RdfCopy (source target : option str)
  | RdfMove (source target : option str)
  | RdfAdd (source target : option str).

Inductive IndexKeyRecord : Set :=
  | PropertyKey (key : str)
  | VectorKey (label property : str)
  | TextKey (label property : str).

Inductive CatalogKey : Set :=
  | KeySchema (name : str)
  | KeyNodeType (name : str)
  | KeyEdgeType (name : str)
  | KeyGraphType (name : str)
  | KeyGraphBinding (name : str)
  | KeyConstraint (name : str)
  | KeyIndex (graph : option str) (index : IndexKeyRecord)
  | KeyIndexName (name : str)
  | KeyProcedure (name : str)
  | KeyStoredConfig
  | KeyLabelIndex (graph : option str) (label property : str).

Inductive StandaloneOp (CatalogRecord : Type) : Type :=
  | CreateGraph (name : str)
  | DropGraph (name : str)
  | PutCatalog (record : CatalogRecord)
  | DropCatalog (key : CatalogKey)
  | RdfGraph (op : RdfGraphOp).
Arguments CreateGraph {CatalogRecord}.
Arguments DropGraph {CatalogRecord}.
Arguments PutCatalog {CatalogRecord}.
Arguments DropCatalog {CatalogRecord}.
Arguments RdfGraph {CatalogRecord}.

(** ** The change set *)

Inductive change_error : Type :=
  | TooManyGraphs
  | OtherModel (slot : GraphSlot) (known : GraphRef)
  | NotASlot (slot : GraphSlot) (graphs : nat)
  | InvalidId (op : DataOp)
  | UnfitBefore (op : DataOp) (before : Before)
  | ReplacedByCreate (op : DataOp)
  | NotLastRange (rows : nat) (slot : GraphSlot)
  | NotInRange (range : BulkRange) (row : DataOp).

Module ChangeSet.

Record t : Type := mk {
  graphs : list GraphRef;
  slots : gmap GraphRef GraphSlot;
  entries : list Change;
  bulk_rows : list (nat * list DataOp);
}.

Definition new : t := mk [] ∅ [] [].

Definition slot (g : GraphRef) (s : t) : result change_error GraphSlot * t :=
  match slots s !! g with
  | Some i => (Ok i, s)
  | None =>
      let i := length (graphs s) in
      if 2 ^ 32 - 1 <? Z.of_nat i then (Err TooManyGraphs, s)
      else (Ok i, mk (graphs s ++ [g]) (<[g := i]> (slots s)) (entries s) (bulk_rows s))
  end.

Definition graph (i : GraphSlot) (s : t) : option GraphRef := graphs s !! i.

Definition check_graph (i : GraphSlot) (m : DataModel) (s : t) : result change_error unit :=
  match graph i s with
  | Some known => if decide (model known = m) then Ok tt else Err (OtherModel i known)
  | None => Err (NotASlot i (length (graphs s)))
  end.

Definition push_entry (c : Change) (s : t) : t := mk (graphs s) (slots s) (entries s ++ [c]) (bulk_rows s).

Definition push (i : GraphSlot) (op : DataOp) (before : Before) (version : PendingVersion) (s : t) : result change_error unit * t :=
  match check_graph i (model_of op) s with
  | Err e => (Err e, s)
  | Ok _ =>
      if negb (names_real_ids op) then (Err (InvalidId op), s)
      else if negb (fits before op) then (Err (UnfitBefore op before), s)
      else if bool_decide (version = Replaced) && match before with Absent => true | _ => false end then (Err (ReplacedByCreate op), s)
      else (Ok tt, push_entry (Data i op before version) s)
  end.

Definition push_bulk (r : BulkRange) (s : t) : result change_error unit * t :=
  match check_graph (range_graph r) Lpg s with
  | Err e => (Err e, s)
  | Ok _ => (Ok tt, if ids_empty r then s else push_entry (Bulk r) s)
  end.

Definition set_rows (rows : list (nat * list DataOp)) (s : t) : t := mk (graphs s) (slots s) (entries s) rows.

(** [kept.extend(rows)] for the rows of the last range, or a new list. *)
Definition keep_rows (at_ : nat) (rows : list DataOp) (s : t) : t :=
  match last (bulk_rows s) with
  | Some (index, kept) =>
      if (index =? at_)%nat then set_rows (take (length (bulk_rows s) - 1) (bulk_rows s) ++ [(index, kept ++ rows)]) s
      else set_rows (bulk_rows s ++ [(at_, rows)]) s
  | None => set_rows (bulk_rows s ++ [(at_, rows)]) s
  end.

Definition push_bulk_rows (i : GraphSlot) (rows : list DataOp) (s : t) : result change_error unit * t :=
  match rows with
  | [] => (Ok tt, s)
  | _ =>
      let refused := (Err (NotLastRange (length rows) i), s) in
      match last (entries s) with
      | Some (Bulk r) =>
          if (range_graph r =? i)%nat then
            match List.find (λ row, negb (holds r row)) rows with
            | Some row => (Err (NotInRange r row), s)
            | None => (Ok tt, keep_rows (length (entries s) - 1) rows s)
            end
          else refused
      | _ => refused
      end
  end.

Definition rows_of (index : nat) (s : t) : list DataOp :=
  match List.find (λ p : nat * list DataOp, (p.1 =? index)%nat) (bulk_rows s) with Some p => p.2 | None => [] end.

(** What the entry at [index] did. *)
Definition ops_at (s : t) (index : nat) (c : Change) : list (GraphSlot * DataOp * Before) :=
  match c with
  | Data i op before _ => [(i, op, before)]
  | Bulk r => map (λ row, (range_graph r, row, Absent)) (rows_of index s)
  end.

Definition ops (s : t) : list (GraphSlot * DataOp * Before) := concat (imap (ops_at s) (entries s)).

Definition len (s : t) : nat := length (entries s).
Definition is_empty (s : t) : bool := (len s =? 0)%nat.
Definition in_graph (i : GraphSlot) (s : t) : list Change := List.filter (λ c, (change_graph c =? i)%nat) (entries s).
Definition clear (s : t) : t := new.

(** A mark is a position in [entries]. *)
Definition mark (s : t) : nat := len s.
Definition after (m : nat) (s : t) : list Change := drop m (entries s).

(** The nodes an entry writes in the graph [i]. *)
Definition nodes_written (i : GraphSlot) (c : Change) : list Z :=
  match c with
  | Data written op _ _ => if (written =? i)%nat then match entity op with Some (Node_ id) => [id] | _ => [] end else []
  | Bulk r => if (range_graph r =? i)%nat && bool_decide (range_table r = Nodes) then ids_of r else []
  end.
Definition nodes_written_after (i : GraphSlot) (m : nat) (nodes : list Z) (s : t) : nat * list Z :=
  (mark s, nodes ++ concat (map (nodes_written i) (after m s))).

(** [partition_point]: how many ranges come before [m]. *)
Fixpoint ranges_before (m : nat) (rows : list (nat * list DataOp)) : nat :=
  match rows with
  | [] => 0
  | (index, _) :: rows => if (index <? m)%nat then S (ranges_before m rows) else 0
  end.

Definition split_off (m : nat) (s : t) : list Change * t :=
  if (len s <=? m)%nat then ([], s)
  else (drop m (entries s), mk (graphs s) (slots s) (take m (entries s)) (take (ranges_before m (bulk_rows s)) (bulk_rows s))).

(** ** What the set wrote, by graph *)

Definition written_nodes (c : Change) : list Z :=
  match c with
  | Data _ (CreateNode id _ _ | SetNodeProperty id _ _ | RemoveNodeProperty id _ | AddNodeLabel id _ | RemoveNodeLabel id _) _ _ => [id]
  | Data _ _ _ _ => []
  | Bulk r => if decide (range_table r = Nodes) then ids_of r else []
  end.
Definition written_edges (c : Change) : list Z :=
  match c with
  | Data _ (CreateEdge id _ _ _ _ | SetEdgeProperty id _ _ | RemoveEdgeProperty id _) _ _ => [id]
  | Data _ _ _ _ => []
  | Bulk r => if decide (range_table r = Edges) then ids_of r else []
  end.

(** [dedup]: equal neighbours once. *)
Fixpoint dedup (l : list Z) : list Z :=
  match l with
  | x :: l' => match l' with y :: _ => if x =? y then dedup l' else x :: dedup l' | [] => [x] end
  | [] => []
  end.
Definition sorted_ids (l : list Z) : list Z := dedup (merge_sort Z.le l).

Record WrittenEntities : Set := mkWritten { written_graph : option str; nodes_ : list Z; edges_ : list Z }.

Definition written_entities (s : t) : list WrittenEntities :=
  imap (λ i g, let cs := in_graph i s in
    mkWritten (key g) (sorted_ids (concat (map written_nodes cs))) (sorted_ids (concat (map written_edges cs)))) (graphs s).

(** The records of the set: the storage key of its graph and the op; [None]
    for a slot past the graphs, where the code panics. *)
Definition log_records (s : t) : list (option (option str * DataOp)) :=
  map (λ '(i, op, _), g ← graphs s !! i; Some (key g, op)) (ops s).
End ChangeSet.
