(* ===== verification/ChangeFacts.v ===== *)
(** * Change sets: invariant and meaning

    A change set stands for the graphs it writes and, entry by entry, the
    records it logs ([log_spec]); every operation is the one on these. *)
From S2P Require Import Prelude Values Changes.
Import ChangeSet.
Open Scope Z_scope.

(** ** Operations as events *)

Inductive change_event : Type :=
  | TakeSlot (g : GraphRef)
  | Push (i : GraphSlot) (op : DataOp) (before : Before) (version : PendingVersion)
  | PushBulk (r : BulkRange)
  | PushRows (i : GraphSlot) (rows : list DataOp)
  | SplitOff (m : nat)
  | Clear.

Definition apply_event (e : change_event) (s : ChangeSet.t) : bool * ChangeSet.t :=
  match e with
  | TakeSlot g => let '(r, s) := slot g s in (is_ok r, s)
  | Push i op before version => let '(r, s) := push i op before version s in (is_ok r, s)
  | PushBulk r => let '(x, s) := push_bulk r s in (is_ok x, s)
  | PushRows i rows => let '(r, s) := push_bulk_rows i rows s in (is_ok r, s)
  | SplitOff m => (true, (split_off m s).2)
  | Clear => (true, clear s)
  end.

Definition apply_events (es : list change_event) (s : ChangeSet.t) : ChangeSet.t := foldl (λ s e, (apply_event e s).2) s es.

(** ** What a set stands for *)

Record log_spec : Type := mkLog { log_graphs : list GraphRef; log_groups : list (list (option str * DataOp)) }.

Definition key_of (gs : list GraphRef) (i : GraphSlot) : option str := match gs !! i with Some g => key g | None => None end.

Definition log_event (ok : bool) (e : change_event) (a : log_spec) : log_spec :=
  if negb ok then a else
  match e with
  | TakeSlot g => if decide (g ∈ log_graphs a) then a else mkLog (log_graphs a ++ [g]) (log_groups a)
  | Push i op _ _ => mkLog (log_graphs a) (log_groups a ++ [[(key_of (log_graphs a) i, op)]])
  | PushBulk r => if ids_empty r then a else mkLog (log_graphs a) (log_groups a ++ [[]])
  | PushRows i rows =>
      mkLog (log_graphs a) (take (length (log_groups a) - 1) (log_groups a) ++
        from_option (λ g, [g ++ map (λ row, (key_of (log_graphs a) i, row)) rows]) [] (last (log_groups a)))
  | SplitOff m => mkLog (log_graphs a) (take m (log_groups a))
  | Clear => mkLog [] []
  end.

Fixpoint log_events (es : list change_event) (s : ChangeSet.t) (a : log_spec) : log_spec :=
  match es with
  | [] => a
  | e :: es => let '(ok, s') := apply_event e s in log_events es s' (log_event ok e a)
  end.

(** ** The invariant *)

Definition entry_ok (gs : list GraphRef) (c : Change) : Prop :=
  match c with
  | Data i op before version =>
      (∃ g, gs !! i = Some g ∧ model g = model_of op) ∧ names_real_ids op = true ∧ fits before op = true ∧ (version = Replaced → before ≠ Absent)
  | Bulk r => (∃ g, gs !! range_graph r = Some g ∧ model g = Lpg) ∧ ids_start r < ids_end r
  end.

Record set_ok (s : ChangeSet.t) : Prop := {
  so_distinct : NoDup (graphs s);
  so_slots : ∀ g i, slots s !! g = Some i ↔ graphs s !! i = Some g;
  so_entries : Forall (entry_ok (graphs s)) (entries s);
  so_rows : ∀ k rows, (k, rows) ∈ bulk_rows s → rows ≠ [] ∧ ∃ r, entries s !! k = Some (Bulk r) ∧ Forall (λ row, holds r row = true) rows;
  so_sorted : StronglySorted lt (map fst (bulk_rows s));
}.

Lemma entry_ok_more gs gs' c : entry_ok gs c → entry_ok (gs ++ gs') c.
Proof.
  destruct c as [i op before version|r]; cbn.
  - intros ((g & Hg & Hm) & H2 & H3 & H4). split_and!; try done. exists g. split; [by apply lookup_app_l_Some|done].
  - intros ((g & Hg & Hm) & H2). split; [|done]. exists g. split; [by apply lookup_app_l_Some|done].
Qed.

Lemma check_graph_ok i m s : check_graph i m s = Ok tt → ∃ g, graphs s !! i = Some g ∧ model g = m.
Proof. unfold check_graph, graph. destruct (graphs s !! i) as [g|]; [|done]. case_decide; [|done]. by exists g. Qed.

(** ** Rows kept with ranges *)

Definition rows_in (k : nat) (l : list (nat * list DataOp)) : list DataOp :=
  match List.find (λ p : nat * list DataOp, (p.1 =? k)%nat) l with Some p => p.2 | None => [] end.

Lemma rows_in_cons k j rows l : rows_in k ((j, rows) :: l) = if (j =? k)%nat then rows else rows_in k l.
Proof. unfold rows_in. cbn [List.find fst]. by destruct (j =? k)%nat. Qed.

Lemma rows_in_absent k l : k ∉ map fst l → rows_in k l = [].
Proof.
  induction l as [|[j rows] l IH]; [done|]. cbn [map fst]. intros [Hne Hl]%not_elem_of_cons. rewrite rows_in_cons, (proj2 (Nat.eqb_neq _ _)) by done. by apply IH.
Qed.

Lemma rows_in_snoc k l j rows : j ∉ map fst l → rows_in k (l ++ [(j, rows)]) = if decide (k = j) then rows else rows_in k l.
Proof.
  intros Hj. induction l as [|[j' rows'] l IH]; cbn [app].
  - rewrite rows_in_cons. case_decide as E; [by rewrite E, Nat.eqb_refl|]. by rewrite (proj2 (Nat.eqb_neq _ _)) by done.
  - cbn [map fst] in Hj. apply not_elem_of_cons in Hj as [Hne Hj]. rewrite !rows_in_cons, IH by done. destruct (Nat.eqb_spec j' k) as [->|]; [|done]. by rewrite decide_False.
Qed.

Lemma rows_in_take k n l : StronglySorted lt (map fst l) → rows_in k (take (ranges_before n l) l) = if decide (k < n)%nat then rows_in k l else [].
Proof.
  induction l as [|[j rows] l IH]; intros Hs; [by case_decide|]. cbn [map fst] in Hs. inversion_clear Hs as [|? ? Hs' Hall]. cbn [ranges_before].
  destruct (Nat.ltb_spec j n) as [Hlt|Hge].
  - cbn [take]. rewrite !rows_in_cons, IH by done. destruct (Nat.eqb_spec j k) as [->|]; [|done]. by rewrite decide_True.
  - rewrite take_0. case_decide as Hk; [|done]. symmetry. rewrite rows_in_cons, (proj2 (Nat.eqb_neq _ _)) by lia. apply rows_in_absent. intros Hin.
    rewrite Forall_forall in Hall. apply Hall in Hin. lia.
Qed.

Lemma rows_in_elem l k rows : StronglySorted lt (map fst l) → (k, rows) ∈ l → rows_in k l = rows.
Proof.
  induction l as [|[j kept] l IH]; intros Hs Hin; [by apply not_elem_of_nil in Hin|]. cbn [map fst] in Hs. inversion_clear Hs as [|? ? Hs' Hall]. rewrite rows_in_cons.
  apply elem_of_cons in Hin as [[= <- <-]|Hin]; [by rewrite Nat.eqb_refl|]. rewrite (proj2 (Nat.eqb_neq _ _)); [by apply IH|]. rewrite Forall_forall in Hall.
  assert (k ∈ map fst l) as Hk%Hall by (apply list_elem_of_fmap; by exists (k, rows)). lia.
Qed.

Lemma sorted_snoc l (x : nat) : StronglySorted lt l → Forall (λ y, y < x)%nat l → StronglySorted lt (l ++ [x]).
Proof.
  induction 1 as [|y l Hs IH Hall]; intros Hf; cbn; [repeat constructor|]. inversion_clear Hf as [|? ? Hy Hf']. constructor; [by apply IH|].
  apply Forall_app. split; [done|by constructor].
Qed.

Lemma rows_index s k : set_ok s → k ∈ map fst (bulk_rows s) → (k < length (entries s))%nat.
Proof.
  intros Hs Hk. apply list_elem_of_fmap in Hk as ([k' rows] & -> & Hin). destruct (so_rows _ Hs _ _ Hin) as (_ & r & Hr & _). by apply lookup_lt_Some in Hr.
Qed.

(** Rows go to the range they extend, or behind the rows of all others. *)
Lemma keep_rows_cases s n rows : set_ok s → length (entries s) = S n →
  (∃ l kept, bulk_rows s = l ++ [(n, kept)] ∧ keep_rows n rows s = set_rows (l ++ [(n, kept ++ rows)]) s ∧ n ∉ map fst l) ∨
  ((n ∉ map fst (bulk_rows s)) ∧ keep_rows n rows s = set_rows (bulk_rows s ++ [(n, rows)]) s).
Proof.
  intros Hs Hn. unfold keep_rows. pose proof (so_sorted _ Hs) as Hso. pose proof (rows_index s) as Hri.
  destruct (bulk_rows s) as [|p l _] eqn:El using rev_ind; [right; split; [by apply not_elem_of_nil|done]|]. rewrite last_snoc. destruct p as [j kept]. rewrite map_app in Hso. cbn [map fst] in Hso.
  assert (Hbefore : Forall (λ y, y < j)%nat (map fst l)).
  { clear -Hso. induction (map fst l) as [|y l' IH]; [constructor|]. cbn in Hso. inversion_clear Hso as [|? ? Hs' Hall]. constructor; [|by apply IH].
    apply Forall_app in Hall as [_ Hj]. by inversion_clear Hj. }
  assert (Hj : (j < S n)%nat) by (rewrite <- Hn; apply Hri; [done|]; rewrite map_app; apply elem_of_app; right; left).
  rewrite Forall_forall in Hbefore. destruct (Nat.eqb_spec j n) as [->|Hne].
  - left. exists l, kept. split; [done|]. split; [|intros Hin%Hbefore; lia]. rewrite length_app, Nat.add_sub, take_app_length. done.
  - right. split; [|done]. rewrite map_app. intros [Hin%Hbefore|Hin%elem_of_cons]%elem_of_app; [lia|]. destruct Hin as [->|Hin]; [done|by apply not_elem_of_nil in Hin].
Qed.

(** ** The meaning of a set *)

Definition group_at (gs : list GraphRef) (rows : nat → list DataOp) (k : nat) (c : Change) : list (option str * DataOp) :=
  match c with
  | Data i op _ _ => [(key_of gs i, op)]
  | Bulk r => map (λ row, (key_of gs (range_graph r), row)) (rows k)
  end.

Definition groups (s : ChangeSet.t) : list (list (option str * DataOp)) := imap (group_at (graphs s) (λ k, rows_of k s)) (entries s).
Definition meaning (s : ChangeSet.t) : log_spec := mkLog (graphs s) (groups s).

Lemma imap_same {A B} (f g : nat → A → B) l : (∀ k x, l !! k = Some x → f k x = g k x) → imap f l = imap g l.
Proof.
  intros Hfg. apply list_eq. intros k. rewrite !list_lookup_imap. destruct (l !! k) as [x|] eqn:Hk; [|done]. cbn. by rewrite (Hfg _ _ Hk).
Qed.

Lemma key_of_lookup gs i g : gs !! i = Some g → key_of gs i = key g.
Proof. unfold key_of. by intros ->. Qed.

Lemma log_records_groups s : set_ok s → log_records s = map Some (concat (groups s)).
Proof.
  intros Hs. unfold log_records, ops, groups. pose proof (so_entries _ Hs) as He. rewrite !concat_map. f_equal.
  change (@map (list (GraphSlot * DataOp * Before)) (list (option (option str * DataOp)))) with (@fmap list list_fmap (list (GraphSlot * DataOp * Before)) (list (option (option str * DataOp)))).
  change (@map (list (option str * DataOp)) (list (option (option str * DataOp)))) with (@fmap list list_fmap (list (option str * DataOp)) (list (option (option str * DataOp)))).
  rewrite !fmap_imap. apply imap_same. intros k c Hc. rewrite Forall_lookup in He. specialize (He k c Hc). unfold compose.
  destruct c as [i op before version|r]; cbn in *.
  - destruct He as ((g & Hg & _) & _). by rewrite Hg, (key_of_lookup _ _ _ Hg).
  - destruct He as ((g & Hg & _) & _). rewrite !map_map. apply map_ext. intros row. by rewrite Hg, (key_of_lookup _ _ _ Hg).
Qed.

Lemma slot_new g s : set_ok s → slots s !! g = None → set_ok (mk (graphs s ++ [g]) (<[g := length (graphs s)]> (slots s)) (entries s) (bulk_rows s)).
Proof.
  intros [H1 H2 H3 H4 H5] Hg. assert (Hnew : g ∉ graphs s) by (intros [i Hi%H2]%list_elem_of_lookup; congruence). split; cbn; try done.
  - apply NoDup_app. split_and!; [done|intros x Hx ->%list_elem_of_singleton; done|apply NoDup_singleton].
  - intros g' i. destruct (decide (g' = g)) as [->|Hne].
    + rewrite lookup_insert_eq. split.
      * intros [= <-]. apply list_lookup_middle. done.
      * intros [Hi|[Hi [Hi0 _]%list_lookup_singleton_Some]]%lookup_app_Some; [by apply H2 in Hi; congruence|]. f_equal. lia.
    + rewrite lookup_insert_ne, H2 by done. split; [by apply lookup_app_l_Some|].
      intros [Hi|[Hi [_ ->]%list_lookup_singleton_Some]]%lookup_app_Some; done.
  - eapply Forall_impl; [exact H3|]. intros c. apply entry_ok_more.
Qed.

Lemma push_entry_ok c s : set_ok s → entry_ok (graphs s) c → set_ok (push_entry c s).
Proof.
  intros [H1 H2 H3 H4 H5] Hc. split; cbn; try done.
  - by apply Forall_app, conj; [|constructor].
  - intros k rows Hin. destruct (H4 k rows Hin) as (Hne & r & Hr & Hall). split; [done|]. exists r. split; [by apply lookup_app_l_Some|done].
Qed.

Lemma keep_rows_ok s n r rows : set_ok s → length (entries s) = S n → entries s !! n = Some (Bulk r) → rows ≠ [] → Forall (λ row, holds r row = true) rows →
  set_ok (keep_rows n rows s) ∧ (∀ k, rows_of k (keep_rows n rows s) = if decide (k = n) then rows_of n s ++ rows else rows_of k s) ∧
  graphs (keep_rows n rows s) = graphs s ∧ entries (keep_rows n rows s) = entries s.
Proof.
  intros Hs Hn Hr Hne Hall. destruct (keep_rows_cases s n rows Hs Hn) as [(l & kept & El & -> & Hnl)|[Hnl ->]]; destruct Hs as [H1 H2 H3 H4 H5].
  - split; [split; cbn; try done|split; [|done]].
    + intros k rows' [Hin|[= -> ->]%list_elem_of_singleton]%elem_of_app; [apply H4; rewrite El; apply elem_of_app; by left|].
      destruct (H4 n kept) as (Hk & r' & Hr' & Hall'); [rewrite El; apply elem_of_app; right; left|]. assert (r' = r) as -> by congruence. split; [destruct kept; done|]. exists r. split; [done|]. by apply Forall_app.
    + rewrite El, map_app in H5. rewrite map_app. exact H5.
    + intros k. change (rows_in k (l ++ [(n, kept ++ rows)]) = if decide (k = n) then rows_in n (bulk_rows s) ++ rows else rows_in k (bulk_rows s)). rewrite El, (rows_in_snoc k l n (kept ++ rows)), (rows_in_snoc n l n kept), (rows_in_snoc k l n kept) by done.
      repeat case_decide; done.
  - split; [split; cbn; try done|split; [|done]].
    + intros k rows' [Hin|[= -> ->]%list_elem_of_singleton]%elem_of_app; [by apply H4|]. split; [done|]. by exists r.
    + rewrite map_app. apply sorted_snoc; [done|]. apply Forall_forall. intros k Hk. assert (k ≠ n) by (intros ->; done). pose proof (rows_index s k ltac:(by split) Hk). cbn. lia.
    + intros k. change (rows_in k (bulk_rows s ++ [(n, rows)]) = if decide (k = n) then rows_in n (bulk_rows s) ++ rows else rows_in k (bulk_rows s)). rewrite rows_in_snoc by done.
      case_decide; [|done]. by rewrite (rows_in_absent n).
Qed.

Lemma take_sorted (n : nat) l : StronglySorted lt l → StronglySorted lt (take n l).
Proof.
  intros Hs. revert n. induction Hs as [|x l _ IH Hall]; intros [|n]; cbn; [constructor..|]. constructor; [apply IH|]. by apply Forall_take.
Qed.

Lemma ranges_before_lt m rows p : p ∈ take (ranges_before m rows) rows → (p.1 < m)%nat.
Proof.
  induction rows as [|[k r] rows IH]; cbn [ranges_before]; [by intros ?%not_elem_of_nil|]. destruct (Nat.ltb_spec k m); cbn [take]; [|by intros ?%not_elem_of_nil].
  intros [->|Hp]%elem_of_cons; [done|by apply IH].
Qed.

Lemma split_off_ok m s : set_ok s →
  let s' := (split_off m s).2 in
  set_ok s' ∧ graphs s' = graphs s ∧ entries s' = take m (entries s) ∧ ∀ k, (k < m)%nat → rows_of k s' = rows_of k s.
Proof.
  intros Hs. unfold split_off, len. destruct (Nat.leb_spec (length (entries s)) m) as [Hle|Hgt]; cbn.
  { by rewrite take_ge by done. }
  pose proof Hs as [H1 H2 H3 H4 H5]. split_and!; [split; cbn|done|done|].
  - done.
  - done.
  - by apply Forall_take.
  - intros k rows Hin. pose proof (ranges_before_lt _ _ _ Hin) as Hk. cbn in Hk. apply elem_of_take in Hin as (j & Hin & _). destruct (H4 k rows (list_elem_of_lookup_2 _ _ _ Hin)) as (Hne & r & Hr & Hall).
    split; [done|]. exists r. split; [by rewrite lookup_take_lt|done].
  - change (map fst ?x) with (fst <$> x). rewrite fmap_take. by apply take_sorted.
  - intros k Hk. change (rows_in k (take (ranges_before m (bulk_rows s)) (bulk_rows s)) = rows_in k (bulk_rows s)). by rewrite rows_in_take, decide_True.
Qed.

(** Entries that are added see no rows; those before keep theirs. *)
Lemma groups_push c s : set_ok s → groups (push_entry c s) = groups s ++ [group_at (graphs s) (λ _, []) 0 c].
Proof.
  intros Hs. unfold groups. cbn [graphs entries push_entry]. rewrite imap_app. f_equal. cbn. f_equal. unfold group_at. destruct c; [done|].
  rewrite Nat.add_0_r. change (rows_of (length (entries s)) (push_entry _ s)) with (rows_in (length (entries s)) (bulk_rows s)).
  rewrite rows_in_absent; [done|]. intros Hk%(rows_index s); [lia|done].
Qed.

Lemma groups_more more s rows : set_ok s → groups (mk (graphs s ++ more) rows (entries s) (bulk_rows s)) = groups s.
Proof.
  intros Hs. unfold groups. cbn [graphs entries]. apply imap_same. intros k c Hc. pose proof (so_entries _ Hs) as He. rewrite Forall_lookup in He. specialize (He k c Hc).
  unfold group_at. destruct c as [i op before version|r]; cbn in He; destruct He as ((g & Hg & _) & _).
  - by rewrite (key_of_lookup (graphs s) i g), (key_of_lookup (graphs s ++ more) i g) by (done || by apply lookup_app_l_Some).
  - by rewrite (key_of_lookup (graphs s) _ g), (key_of_lookup (graphs s ++ more) _ g) by (done || by apply lookup_app_l_Some).
Qed.

Lemma take_imap {A B} (f : nat → A → B) m l : take m (imap f l) = imap f (take m l).
Proof. revert f l. induction m as [|m IH]; intros f [|x l]; cbn; try done. f_equal. apply IH. Qed.

(** ** Every operation is the one on the meaning *)

Definition keeps (e : change_event) (s : ChangeSet.t) : Prop :=
  let '(ok, s') := apply_event e s in set_ok s' ∧ meaning s' = log_event ok e (meaning s) ∧ (ok = false → s' = s).

Lemma slot_keeps g s : set_ok s → keeps (TakeSlot g) s.
Proof.
  intros Hs. unfold keeps. cbn [apply_event]. unfold slot. destruct (slots s !! g) as [i|] eqn:Eg; cbn.
  { split_and!; [done| |done]. unfold log_event. cbn. rewrite decide_True; [done|]. apply (so_slots _ Hs), list_elem_of_lookup_2 in Eg. done. }
  destruct (_ <? _); cbn; [done|]. split_and!; [by apply slot_new| |done]. unfold meaning, log_event. cbn. rewrite decide_False.
  - f_equal. by apply groups_more.
  - intros [i Hi%(so_slots _ Hs)]%list_elem_of_lookup. congruence.
Qed.

Lemma push_keeps i op before version s : set_ok s → keeps (Push i op before version) s.
Proof.
  intros Hs. unfold keeps. cbn [apply_event]. unfold push. destruct (check_graph i (model_of op) s) as [[]|e] eqn:Hc; [|done]. apply check_graph_ok in Hc as (g & Hg & Hm).
  destruct (names_real_ids op) eqn:Hr; [|done]. destruct (fits before op) eqn:Hf; [|done]. cbn [negb].
  destruct (bool_decide (version = Replaced) && _) eqn:Hv; [done|]. cbn. assert (Hver : version = Replaced → before ≠ Absent).
  { intros -> ->. done. }
  split_and!; [apply push_entry_ok; [done|]; split_and!; [by exists g|done..]| |done]. unfold meaning, log_event. cbn. f_equal. by apply groups_push.
Qed.

Lemma push_bulk_keeps r s : set_ok s → keeps (PushBulk r) s.
Proof.
  intros Hs. unfold keeps. cbn [apply_event]. unfold push_bulk. destruct (check_graph (range_graph r) Lpg s) as [[]|e] eqn:Hc; [|done]. apply check_graph_ok in Hc as (g & Hg & Hm).
  unfold log_event. cbn. destruct (ids_empty r) eqn:Hemp; [done|]. unfold ids_empty in Hemp. split_and!; [apply push_entry_ok; [done|]; split; [by exists g|lia]| |done].
  unfold meaning. cbn. f_equal. exact (groups_push (Bulk r) s Hs).
Qed.

Lemma push_rows_keeps i rows s : set_ok s → keeps (PushRows i rows) s.
Proof.
  intros Hs. unfold keeps. cbn [apply_event]. unfold push_bulk_rows. destruct rows as [|row0 rows0] eqn:Erows.
  { cbn. split_and!; [done| |done]. unfold meaning, log_event. cbn. f_equal. destruct (groups s) as [|x l _] using rev_ind; [done|].
    rewrite last_snoc, length_app, Nat.add_sub, take_app_length. cbn. by rewrite app_nil_r. }
  rewrite <- Erows. assert (Hne : rows ≠ []) by (by rewrite Erows). clear Erows row0 rows0.
  destruct (last (entries s)) as [[|r]|] eqn:Hlast; [done| |done]. destruct (Nat.eqb_spec (range_graph r) i) as [<-|]; [|done].
  destruct (List.find _ _) as [row|] eqn:Hfind; [done|]. assert (Hall : Forall (λ row, holds r row = true) rows).
  { apply Forall_forall. intros row Hin%list_elem_of_In. pose proof (find_none _ _ Hfind row Hin) as H. by apply negb_false_iff in H. }
  rewrite last_lookup in Hlast. pose proof (lookup_lt_Some _ _ _ Hlast) as Hlt. assert (Hn : length (entries s) = S (length (entries s) - 1)) by lia.
  destruct (keep_rows_ok s (length (entries s) - 1) r rows Hs Hn ltac:(by rewrite <- Nat.sub_1_r in Hlast) Hne Hall) as (Hok & Hrows & Hg & He). cbn. split_and!; [done| |done].
  unfold meaning, log_event. cbn [negb]. rewrite Hg. f_equal. set (n := (length (entries s) - 1)%nat) in *. set (es := take n (entries s)).
  assert (Hes : entries s = es ++ [Bulk r]) by (rewrite <- (firstn_all (entries s)), Hn at 1; apply take_S_r; by rewrite <- Nat.sub_1_r in Hlast).
  assert (Hlen : length es = n) by (unfold es; rewrite length_take; lia).
  assert (Hgroups : groups s = imap (group_at (graphs s) (λ k, rows_of k s)) es ++ [map (λ row, (key_of (graphs s) (range_graph r), row)) (rows_of n s)]).
  { unfold groups. rewrite Hes, imap_app. cbn. by rewrite Nat.add_0_r, Hlen. }
  cbn [log_groups log_graphs]. rewrite Hgroups, last_snoc, length_app, Nat.add_sub, take_app_length. cbn [from_option]. unfold groups. rewrite He, Hg, Hes, imap_app. cbn.
  rewrite Nat.add_0_r, Hlen, Hrows, decide_True, map_app by done. f_equal. apply imap_same. intros k c Hk. apply lookup_lt_Some in Hk. unfold group_at. destruct c; [done|].
  rewrite Hrows, decide_False by lia. done.
Qed.

Lemma new_set_ok : set_ok new.
Proof. split; cbn; [constructor|by intros; rewrite lookup_empty|constructor|by intros ? ? ?%not_elem_of_nil|constructor]. Qed.

Lemma event_keeps e s : set_ok s → keeps e s.
Proof.
  intros Hs. destruct e as [g|i op before version|r|i rows|m|]; [by apply slot_keeps|by apply push_keeps|by apply push_bulk_keeps|by apply push_rows_keeps| |].
  - unfold keeps. cbn [apply_event]. destruct (split_off_ok m s Hs) as (Hok & Hg & He & Hr). split_and!; [done| |done]. unfold meaning, log_event. cbn [negb]. rewrite Hg. f_equal.
    cbn [log_groups]. unfold groups. rewrite Hg, He, take_imap. apply imap_same. intros k c [Hk Hlt]%lookup_take_Some. unfold group_at. destruct c; [done|]. by rewrite Hr.
  - unfold keeps. cbn. split_and!; [exact new_set_ok|done|done].
Qed.

Lemma events_keep es s : set_ok s → set_ok (apply_events es s) ∧ meaning (apply_events es s) = log_events es s (meaning s).
Proof.
  revert s. induction es as [|e es IH]; intros s Hs; [done|]. pose proof (event_keeps e s Hs) as Hk. unfold keeps in Hk. cbn [apply_events foldl log_events].
  destruct (apply_event e s) as [ok s'] eqn:Ee. destruct Hk as (Hs' & Hm & _). rewrite <- Hm. cbn [snd]. by apply IH.
Qed.

(** ** Savepoints *)

(** [e] leaves what was recorded before the mark [m] as it is: it does not
    roll back to an earlier mark, and keeps no rows with a range from before. *)
Definition past_mark (m : nat) (e : change_event) (s : ChangeSet.t) : Prop :=
  match e with
  | SplitOff m' => (m ≤ m')%nat
  | PushRows _ rows => rows ≠ [] → (m < len s)%nat
  | Clear => False
  | _ => True
  end.

Fixpoint all_past_mark (m : nat) (es : list change_event) (s : ChangeSet.t) : Prop :=
  match es with
  | [] => True
  | e :: es => past_mark m e s ∧ all_past_mark m es (apply_event e s).2
  end.

(** [s'] holds what [s] does, and more behind it. *)
Record grown (s s' : ChangeSet.t) : Prop := {
  gw_graphs : ∃ more, graphs s' = graphs s ++ more;
  gw_entries : ∃ more, entries s' = entries s ++ more;
  gw_rows : ∃ more, bulk_rows s' = bulk_rows s ++ more ∧ Forall (λ p, len s ≤ p.1)%nat more;
}.

Lemma grown_refl s : grown s s.
Proof. split; [exists []|exists []|exists []]; by rewrite app_nil_r. Qed.

Lemma ranges_before_app m rows more : Forall (λ p, p.1 < m)%nat rows → Forall (λ p, m ≤ p.1)%nat more → ranges_before m (rows ++ more) = length rows.
Proof.
  induction 1 as [|[k r] rows Hk _ IH]; intros Hm; cbn [app ranges_before length].
  - destruct Hm as [|[k r] more Hk _]; [done|]. cbn [fst] in Hk. cbn [ranges_before]. by rewrite (proj2 (Nat.ltb_ge _ _)).
  - cbn in Hk. rewrite (proj2 (Nat.ltb_lt _ _)) by done. by rewrite IH.
Qed.

Lemma rows_before s : set_ok s → Forall (λ p, p.1 < len s)%nat (bulk_rows s).
Proof. intros Hs. apply Forall_forall. intros p Hp. apply (rows_index s); [done|]. apply list_elem_of_fmap. by exists p. Qed.

(** Rolling back to the mark gives back what was there. *)
Lemma grown_split s s' : set_ok s → set_ok s' → grown s s' →
  split_off (mark s) s' = (drop (mark s) (entries s'), mk (graphs s') (slots s') (entries s) (bulk_rows s)).
Proof.
  intros Hs Hs' [_ [me He] [mr [Hr Hall]]]. pose proof (rows_before s Hs) as Hb. pose proof (rows_before s' Hs') as Hb'. unfold split_off, mark, len in *.
  rewrite He, length_app in *. destruct (Nat.leb_spec (length (entries s) + length me) (length (entries s))) as [Hle|Hgt].
  - assert (me = []) as -> by (destruct me; [done|simpl in Hle; lia]). rewrite Hr in Hb'. apply Forall_app in Hb' as [_ Hb']. rewrite app_nil_r in *. rewrite drop_all. f_equal.
    destruct mr as [|p mr]; [|inversion_clear Hall; inversion_clear Hb'; simpl in *; lia]. rewrite app_nil_r in Hr. destruct s'; cbn in *. by subst.
  - f_equal. f_equal; [apply take_app_length|]. rewrite Hr, ranges_before_app by done. apply take_app_length.
Qed.

Lemma grown_event s e s' : set_ok s → set_ok s' → grown s s' → past_mark (mark s) e s' → grown s (apply_event e s').2.
Proof.
  intros Hs Hs' Hg Hp. pose proof Hg as [[mg Hmg] [me Hme] [mr [Hmr Hall]]].
  assert (Hmore : ∀ c, grown s (push_entry c s')).
  { intros c. split; cbn; [by exists mg|exists (me ++ [c]); by rewrite Hme, app_assoc|by exists mr]. }
  destruct e as [g|i op before version|r|i rows|m|]; cbn [apply_event].
  - unfold slot. destruct (slots s' !! g); [done|]. destruct (_ <? _); [done|]. split; cbn; [exists (mg ++ [g]); by rewrite Hmg, app_assoc|by exists me|by exists mr].
  - unfold push. destruct (check_graph _ _ _); [|done]. do 3 (destruct (_ : bool); [done|]). apply Hmore.
  - unfold push_bulk. destruct (check_graph _ _ _); [|done]. cbn. destruct (ids_empty r); [done|apply Hmore].
  - unfold push_bulk_rows. destruct rows as [|row0 rows0] eqn:Erows; [done|]. rewrite <- Erows in *. destruct (last (entries s')) as [[|r]|] eqn:Hlast; [done| |done].
    destruct (_ =? _)%nat; [|done]. destruct (List.find _ _); [done|]. cbn. specialize (Hp ltac:(by rewrite Erows)).
    destruct (keep_rows_cases s' (length (entries s') - 1) rows Hs') as [(l & kept & El & -> & Hnl)|[Hnl ->]]; [unfold len in Hp; lia| |].
    + split; cbn; [by exists mg|by exists me|]. destruct mr as [|p mr' _] using rev_ind.
      { rewrite app_nil_r in Hmr. pose proof (rows_before s Hs) as Hb. rewrite <- Hmr, El in Hb. apply Forall_app in Hb as [_ Hb]. inversion_clear Hb. unfold mark, len in *. simpl in *. lia. }
      rewrite El, app_assoc in Hmr. apply app_inj_2 in Hmr as [-> [= <-]]; [|done]. apply Forall_app in Hall as [Hall Hlast'].
      exists (mr' ++ [(length (entries s') - 1, kept ++ rows)%nat]). rewrite app_assoc. split; [done|]. apply Forall_app. split; [done|]. inversion_clear Hlast'. by constructor.
    + split; cbn; [by exists mg|by exists me|]. exists (mr ++ [(length (entries s') - 1, rows)%nat]). rewrite Hmr, app_assoc. split; [done|]. apply Forall_app. split; [done|]. constructor; [|done]. unfold mark, len in *. cbn. lia.
  - cbn in Hp. unfold split_off, mark, len in *. destruct (_ <=? _)%nat; [done|]. cbn. rewrite Hme, Hmr. split; cbn; [by exists mg| |].
    + exists (take (m - length (entries s)) me). by rewrite take_app_ge.
    + pose proof (rows_before s Hs) as Hb. assert (Hge : (length (bulk_rows s) ≤ ranges_before m (bulk_rows s ++ mr))%nat).
      { clear -Hb Hp. unfold len in Hb. induction Hb as [|[k r] l Hk _ IH]; cbn [app ranges_before length]; [lia|]. cbn in Hk. rewrite (proj2 (Nat.ltb_lt _ _)) by lia. lia. }
      eexists. rewrite take_app_ge by done. split; [reflexivity|]. by apply Forall_take.
  - done.
Qed.

Lemma grown_events s es s' : set_ok s → set_ok s' → grown s s' → all_past_mark (mark s) es s' → grown s (apply_events es s').
Proof.
  intros Hs. revert s'. induction es as [|e es IH]; intros s' Hs' Hg; [done|]. cbn [all_past_mark]. intros [Hp Hall]. cbn [apply_events foldl]. apply IH; [|by apply grown_event|done].
  pose proof (event_keeps e s' Hs') as Hk. unfold keeps in Hk. destruct (apply_event e s'). apply Hk.
Qed.

(** ** The ids a set wrote *)

Lemma dedup_spec l : Sorted Z.le l → StronglySorted Z.lt (dedup l) ∧ (∀ x, x ∈ dedup l ↔ x ∈ l) ∧ (∀ b, Forall (Z.le b) l → Forall (Z.le b) (dedup l)).
Proof.
  induction l as [|x l IH]; intros Hs; [cbn; split_and!; [constructor|done|done]|]. inversion_clear Hs as [|? ? Hs' Hh]. destruct (IH Hs') as (H1 & H2 & H3). cbn [dedup].
  assert (Hge : ∀ b, HdRel Z.le b l → Forall (Z.le b) l).
  { intros b Hb. assert (Hbl : Sorted Z.le (b :: l)) by (by constructor). apply Sorted_StronglySorted in Hbl; [by inversion_clear Hbl|intros ? ? ?; lia]. }
  destruct l as [|y l']; [split_and!; [repeat constructor|done|done]|]. destruct (Z.eqb_spec x y) as [->|Hne].
  - split_and!; [done|intros z; rewrite H2; set_solver|]. intros b Hb. inversion_clear Hb. by apply H3.
  - split_and!; [constructor; [done|]|intros z; rewrite (elem_of_cons _ z x), H2, (elem_of_cons _ z x); done|].
    + inversion_clear Hh as [|? ? Hxy]. assert (Hy : Forall (Z.le y) (dedup (y :: l'))) by (apply H3, Hge; constructor; lia). eapply Forall_impl; [exact Hy|]. cbn. intros z. lia.
    + intros b Hb. inversion_clear Hb. constructor; [done|]. by apply H3.
Qed.

Lemma sorted_ids_spec l : StronglySorted Z.lt (sorted_ids l) ∧ ∀ x, x ∈ sorted_ids l ↔ x ∈ l.
Proof.
  unfold sorted_ids. destruct (dedup_spec (merge_sort Z.le l)) as (H1 & H2 & _); [apply Sorted_merge_sort, _|]. split; [done|]. intros x. rewrite H2. by rewrite merge_sort_Permutation.
Qed.

(** ** Theorems *)

(** C19: Change sets refine the log. Whatever operations are made on a change
    set, refused ones included, the records it logs are the accepted data
    operations in the order they were made, with the rows kept for a bulk
    range at the place of the range, and its graphs are those taken, each
    once. *)
Theorem change_sets_refine_log es :
  let s := apply_events es new in
  let a := log_events es new (mkLog [] []) in
  log_records s = map Some (concat (log_groups a)) ∧ graphs s = log_graphs a.
Proof.
  destruct (events_keep es new new_set_ok) as [Hs Hm]. cbn zeta. change (meaning new) with (mkLog [] []) in Hm. rewrite <- Hm. split; [by apply log_records_groups|done].
Qed.

(** Change sets are sound. Whatever operations are made on one, every entry
    names a graph of its model, no graph is taken twice, rows are kept only for
    ranges that hold them, an operation that is refused changes nothing, and
    the written entities are reported sorted and once each. *)
Theorem change_sets_are_sound es e :
  let s := apply_events es new in
  Forall (entry_ok (graphs s)) (entries s) ∧ NoDup (graphs s) ∧ (∀ g i, slots s !! g = Some i ↔ graphs s !! i = Some g) ∧
  (∀ k rows, (k, rows) ∈ bulk_rows s → ∃ r, entries s !! k = Some (Bulk r) ∧ Forall (λ row, holds r row = true) rows) ∧
  ((apply_event e s).1 = false → (apply_event e s).2 = s) ∧
  Forall (λ w, StronglySorted Z.lt (nodes_ w) ∧ StronglySorted Z.lt (edges_ w)) (written_entities s).
Proof.
  destruct (events_keep es new new_set_ok) as [Hs _]. pose proof Hs as [H1 H2 H3 H4 H5]. pose proof (event_keeps e _ Hs) as Hk. unfold keeps in Hk. cbn zeta. split_and!; [done|done|done| | |].
  - intros k rows Hin. apply (H4 k rows Hin).
  - destruct (apply_event e (apply_events es new)). apply Hk.
  - apply Forall_lookup. intros i w Hw. unfold written_entities in Hw. rewrite list_lookup_imap in Hw. destruct (graphs _ !! i); [|done]. injection Hw as <-. split; apply sorted_ids_spec.
Qed.

(** C30: Savepoints. Whatever is recorded behind a mark, splitting the set off
    at the mark returns exactly the entries behind it, and leaves the entries,
    the kept rows and the logged records as they were at the mark. *)
Theorem savepoint_restores_changes es es' :
  let s := apply_events es new in
  let s' := apply_events es' s in
  all_past_mark (mark s) es' s →
  split_off (mark s) s' = (after (mark s) s', mk (graphs s') (slots s') (entries s) (bulk_rows s)) ∧
  log_records (split_off (mark s) s').2 = log_records s.
Proof.
  destruct (events_keep es new new_set_ok) as [Hs _]. intros s s' Hp. fold s in Hs. destruct (events_keep es' s Hs) as [Hs' _]. fold s' in Hs'.
  pose proof (grown_events s es' s Hs Hs (grown_refl s) Hp) as Hg. fold s' in Hg. pose proof (grown_split s s' Hs Hs' Hg) as Hsplit. split; [exact Hsplit|].
  destruct (split_off_ok (mark s) s' Hs') as (Hok & _). rewrite !log_records_groups by done. rewrite Hsplit. cbn [snd]. destruct (gw_graphs _ _ Hg) as [more ->]. by rewrite groups_more.
Qed.

(** ** Concrete change sets *)

Definition sample_events : list change_event :=
  [TakeSlot (mkGraph Lpg None); Push 0 (CreateNode 1 [[80]] []) Absent Created; PushBulk (mkRange 0 Nodes 5 7);
   PushRows 0 [CreateNode 5 [] []]].
Definition later_events : list change_event :=
  [TakeSlot (mkGraph Rdf None); Push 0 (AddNodeLabel 1 [81]) (BeforeLabels [[80]]) Replaced; PushBulk (mkRange 0 Nodes 7 9); PushRows 0 [CreateNode 8 [] []]; SplitOff 3].

Lemma savepoint_restores_changes_witness :
  let s := apply_events sample_events new in
  all_past_mark (mark s) later_events s ∧ length (ops s) = 2%nat ∧
  log_records (split_off (mark s) (apply_events later_events s)).2 = log_records s.
Proof.
  assert (Hp : all_past_mark (mark (apply_events sample_events new)) later_events (apply_events sample_events new)) by (vm_compute; lia || (repeat split; intros; lia)).
  split; [exact Hp|]. split; [vm_compute; reflexivity|]. apply (savepoint_restores_changes sample_events later_events Hp).
Defined.
