(* ===== verification/LogRecord.v ===== *)
(** * Log records

    Model of [src/crates/grafeo-common/src/storage/log_record.rs] and of the
    framing it shares with the catalog ([RecordFraming], [PayloadWriter],
    [encode_framed_record], [read_framed_records] of catalog_record.rs). Of
    bincode, which is not part of the sources, the numbers of 64 and 32 bits
    and the floats are a parameter ([Bincode]); strings, byte strings,
    options, lists and enums are put together from them as the sources
    document. The catalog's own records and their payloads are the interface
    [CatalogCodec], which CatalogRecord.v implements. The room a list grows to
    ahead of its elements is left out; errors name what the code names. *)
From Stdlib Require Import Ascii String.
From S2P Require Import Prelude Bytes Values ValueCodec Changes.
Open Scope Z_scope.

(** ** Sizes *)

Definition saturating_mul (a b : Z) : Z := Z.min (a * b) usize_max.

Definition varint_bytes (length : Z) : Z :=
  if length <? 251 then 1 else if length <=? 65535 then 3 else if length <=? 4294967295 then 5 else 9.
Definition string_bytes (length : Z) : Z := saturating_add (varint_bytes length) length.

(** ** bincode *)

Class Bincode := {
  put_number : Z → list Z;
  get_number : list Z → option (Z * list Z);
  get_put_number : ∀ n rest, is_u64 n → get_number (put_number n ++ rest) = Some (n, rest);
  put_number_length : ∀ n, is_u64 n → Z.of_nat (length (put_number n)) = varint_bytes n;
  put_number_bytes : ∀ n, Forall is_byte (put_number n);
  put_variant_number : Z → list Z;
  get_variant_number : list Z → option (Z * list Z);
  get_put_variant : ∀ n rest, 0 ≤ n < 2 ^ 32 → get_variant_number (put_variant_number n ++ rest) = Some (n, rest);
  put_variant_bytes : ∀ n, Forall is_byte (put_variant_number n);
  put_variant_nonempty : ∀ n, put_variant_number n ≠ [];
  put_float : Z → list Z;
  get_float : list Z → option (Z * list Z);
  get_put_float : ∀ bits rest, is_u64 bits → get_float (put_float bits ++ rest) = Some (bits, rest);
  put_float_bytes : ∀ bits, Forall is_byte (put_float bits);
  put_float_nonempty : ∀ bits, put_float bits ≠ [];
}.

(** ** Payloads in parts

    A payload is written part by part; what refuses to serialize ends it: a
    value the codec refuses, or a property type with too many levels. *)

Inductive refusal : Type := RefusedValue (e : encode_error) | RefusedType (levels : nat).

Inductive part : Type :=
  | Piece (bytes : list Z)
  | Refused (why : refusal).

Section put.
Context `{Bincode}.

Definition put_u64 (n : Z) : list part := [Piece (put_number n)].
Definition put_variant (n : Z) : list part := [Piece (put_variant_number n)].
Definition put_text (s : str) : list part := [Piece (put_number (len s)); Piece s].
Definition put_option {A} (f : A → list part) (o : option A) : list part :=
  match o with None => [Piece [0]] | Some a => Piece [1] :: f a end.
Definition put_list {A} (f : A → list part) (l : list A) : list part := Piece (put_number (len l)) :: concat (map f l).
(** [ValueRef]: the bytes of the value codec. *)
Definition put_value (v : Value.t) : list part :=
  match encode_value v [] with
  | (Ok _, bytes) => [Piece (put_number (len bytes)); Piece bytes]
  | (Err e, _) => [Refused (RefusedValue e)]
  end.
Definition put_graph (g : option str) : list part := put_option put_text g.
Definition put_property (p : str * Value.t) : list part := put_text p.1 ++ put_value p.2.
Definition put_properties (l : Properties) : list part := put_list put_property l.
Definition put_labels (l : Labels) : list part := put_list put_text l.

Definition put_term (t : TermRecord) : list part :=
  match t with
  | TermIri s => put_variant 0 ++ put_text s
  | TermBlank s => put_variant 1 ++ put_text s
  | TermLiteral value datatype language => put_variant 2 ++ put_text value ++ put_text datatype ++ put_option put_text language
  end.
Definition put_triple (t : TripleRecord) : list part := put_term (subject t) ++ put_term (predicate t) ++ put_term (object t).
Definition put_target (t : RdfGraphTarget) : list part :=
  match t with
  | TargetDefault => put_variant 0
  | TargetNamed name => put_variant 1 ++ put_text name
  | TargetAllNamed => put_variant 2
  | TargetAll => put_variant 3
  end.
Definition put_index_key (k : IndexKeyRecord) : list part :=
  match k with
  | PropertyKey key => put_variant 0 ++ put_text key
  | VectorKey label property => put_variant 1 ++ put_text label ++ put_text property
  | TextKey label property => put_variant 2 ++ put_text label ++ put_text property
  end.
End put.

(** ** Framing *)

Definition RECORD_REQUIRED : Z := 1.
Definition KNOWN_FLAGS : Z := RECORD_REQUIRED.
Definition INCOMPATIBLE_FLAGS : Z := 15.
Definition RECORD_HEADER_BYTES : nat := 6.

(** Of [RecordFraming] the most bytes a payload may hold. *)
Record RecordFraming : Set := mkFraming { max_payload : Z }.
Definition MAX_CATALOG_RECORD_PAYLOAD : Z := 2 ^ 21.
Definition MAX_RECORD_BYTES : Z := 2 ^ 30 - 64.
Definition MAX_RECORD_PAYLOAD : Z := 2 ^ 30 - 64 - 6.
Definition CATALOG_FRAMING : RecordFraming := mkFraming MAX_CATALOG_RECORD_PAYLOAD.
Definition LOG_FRAMING : RecordFraming := mkFraming MAX_RECORD_PAYLOAD.

Inductive record_error (C : Type) : Type :=
  | CannotWrite (kind flags : Z)
  | PassesMaximum
  | HoldsTooMuch (kind : Z)
  | LengthPastMaximum (kind length : Z)
  | PartRefused (why : refusal)
  | ListRefused (elements slots encoded : Z)
  | CatalogRefused (e : C).
Arguments CannotWrite {C}.
Arguments PassesMaximum {C}.
Arguments HoldsTooMuch {C}.
Arguments LengthPastMaximum {C}.
Arguments PartRefused {C}.
Arguments ListRefused {C}.
Arguments CatalogRefused {C}.

Module PayloadWriter.
Record t : Type := mk { out : list Z; room : Z; overflowed : bool }.

Section writes.
Context {C : Type}.

Definition check_room (bytes : Z) (w : t) : result (record_error C) unit * t :=
  if room w <? bytes then (Err PassesMaximum, mk (out w) (room w) true) else (Ok tt, w).

Definition write (buf : list Z) (w : t) : result (record_error C) unit * t :=
  if room w <? len buf then (Err PassesMaximum, mk (out w) (room w) true)
  else (Ok tt, mk (out w ++ buf) (room w - len buf) (overflowed w)).

(** [encode_bincode_payload]: the parts, one write each. *)
Fixpoint write_parts (parts : list part) (w : t) : result (record_error C) unit * t :=
  match parts with
  | [] => (Ok tt, w)
  | Refused why :: _ => (Err (PartRefused why), w)
  | Piece bytes :: parts => match write bytes w with (Ok _, w) => write_parts parts w | (Err e, w) => (Err e, w) end
  end.
End writes.
End PayloadWriter.

Section framing.
Context {C : Type} (framing : RecordFraming).

Definition encode_framed_record (kind flags : Z) (out : list Z)
    (write_payload : PayloadWriter.t → result (record_error C) unit * PayloadWriter.t) : result (record_error C) unit * list Z :=
  if (kind =? 0) || negb (Z.land flags (Z.lxor 255 KNOWN_FLAGS) =? 0) then (Err (CannotWrite kind flags), out)
  else
    let start := length out in
    let '(r, w) := write_payload (PayloadWriter.mk (out ++ [kind; flags; 0; 0; 0; 0]) (max_payload framing) false) in
    let written := PayloadWriter.out w in
    match r with
    | Err e => (Err (if PayloadWriter.overflowed w then HoldsTooMuch kind else e), take start written)
    | Ok _ =>
        let length_ := Z.of_nat (length written - start - RECORD_HEADER_BYTES) in
        if u32_max <? length_ then (Err (LengthPastMaximum kind length_), take start written)
        else (Ok tt, take (start + 2) written ++ to_le 4 length_ ++ drop (start + RECORD_HEADER_BYTES) written)
    end.

(** ** Reading frames *)

Inductive damage (E : Type) : Type :=
  | HeaderCut (filled : nat)
  | UnknownFlags (flags : Z)
  | KindZero
  | PayloadTooLong (length : Z)
  | PayloadCut (read : nat) (length : Z)
  | NotDecoded (kind : Z) (e : E)
  | UnknownRequired (kind : Z).
Arguments HeaderCut {E}.
Arguments UnknownFlags {E}.
Arguments KindZero {E}.
Arguments PayloadTooLong {E}.
Arguments PayloadCut {E}.
Arguments NotDecoded {E}.
Arguments UnknownRequired {E}.

Inductive read_error (E A : Type) : Type :=
  | Damaged (index : nat) (offset : Z) (why : damage E)
  | ApplyFailed (e : A).
Arguments Damaged {E A}.
Arguments ApplyFailed {E A}.

(** The loop of [read_framed_records] over the bytes left; a round takes the
    six bytes of a header, so their length bounds the rounds. [apply] runs on
    a state of its own. *)
Fixpoint read_rounds {T E A S : Type} (decode : Z → bool → list Z → result E (option T)) (apply : T → S → result A unit * S)
    (rounds index : nat) (offset : Z) (bytes : list Z) (s : S) : result (read_error E A) unit * S :=
  match bytes, rounds with
  | [], _ => (Ok tt, s)
  | _, O => (Ok tt, s)
  | _, Datatypes.S rounds =>
      let header := take RECORD_HEADER_BYTES bytes in
      let damaged why := (Err (Damaged index offset why), s) in
      if (length header <? RECORD_HEADER_BYTES)%nat then damaged (HeaderCut (length header))
      else
        let kind := nth 0 header 0 in
        let flags := nth 1 header 0 in
        let length_ := from_le (drop 2 header) in
        if negb (Z.land (Z.land flags INCOMPATIBLE_FLAGS) (Z.lxor 255 KNOWN_FLAGS) =? 0) then damaged (UnknownFlags flags)
        else if kind =? 0 then damaged KindZero
        else if max_payload framing <? length_ then damaged (PayloadTooLong length_)
        else
          let rest := drop RECORD_HEADER_BYTES bytes in
          let payload := take (Z.to_nat length_) rest in
          if len payload <? length_ then damaged (PayloadCut (length payload) length_)
          else
            let required := negb (Z.land flags RECORD_REQUIRED =? 0) in
            let go_on s := read_rounds decode apply rounds (Datatypes.S index) (wrap64 (offset + 6 + length_)) (drop (Z.to_nat length_) rest) s in
            match decode kind required payload with
            | Err e => damaged (NotDecoded kind e)
            | Ok (Some record) =>
                match apply record s with
                | (Err e, s) => (Err (ApplyFailed e), s)
                | (Ok _, s) => go_on s
                end
            | Ok None => if required then damaged (UnknownRequired kind) else go_on s
            end
  end.

Definition read_framed_records {T E A S : Type} (decode : Z → bool → list Z → result E (option T)) (apply : T → S → result A unit * S)
    (bytes : list Z) (s : S) : result (read_error E A) unit * S := read_rounds decode apply (length bytes) 0 0 bytes s.
End framing.
Arguments HeaderCut {E}.
Arguments UnknownFlags {E}.
Arguments KindZero {E}.
Arguments PayloadTooLong {E}.
Arguments PayloadCut {E}.
Arguments NotDecoded {E}.
Arguments UnknownRequired {E}.
Arguments Damaged {E A}.
Arguments ApplyFailed {E A}.

(** ** The list rule *)

Definition SLOT_BYTES_PER_BYTE : Z := 8.
Definition LIST_ALLOWANCE_BYTES : Z := 2 ^ 20.
Definition LABEL_SLOT_BYTES : Z := 24.
Definition PROPERTY_SLOT_BYTES : Z := 64.

Definition property_bytes (key : str) (value : Value.t) : Z :=
  let value_length := if nests_too_deep value then 0 else encoded_len value in
  saturating_add (string_bytes (len key)) (string_bytes value_length).

Module ListSlots.
Record t : Set := mk { slot_bytes : Z; elements : Z; encoded : Z }.
Definition new (slot_bytes : Z) : t := mk slot_bytes 0 0.
Definition allowance (s : t) : Z := saturating_add (saturating_mul (encoded s) SLOT_BYTES_PER_BYTE) LIST_ALLOWANCE_BYTES.

(** [inl]: the error, with the elements, their slots and their bytes. *)
Definition add (bytes : Z) (s : t) : result (Z * Z * Z) t :=
  let s := mk (slot_bytes s) (saturating_add (elements s) 1) (saturating_add (encoded s) bytes) in
  let slots := saturating_mul (elements s) (slot_bytes s) in
  if allowance s <? slots then Err (elements s, slots, encoded s) else Ok s.

Fixpoint add_each (sizes : list Z) (s : t) : result (Z * Z * Z) t :=
  match sizes with
  | [] => Ok s
  | bytes :: sizes => s ← add bytes s; add_each sizes s
  end.
End ListSlots.

Definition fits_allowance (count slot : Z) : bool := saturating_mul count slot <=? LIST_ALLOWANCE_BYTES.

Definition check_slots {A} (slot : Z) (size : A → Z) (l : list A) : result (Z * Z * Z) unit :=
  if fits_allowance (len l) slot then Ok tt
  else _ ← ListSlots.add_each (map size l) (ListSlots.new slot); Ok tt.

Definition check_labels (l : Labels) : result (Z * Z * Z) unit := check_slots LABEL_SLOT_BYTES (λ label, string_bytes (len label)) l.
Definition check_properties (l : Properties) : result (Z * Z * Z) unit := check_slots PROPERTY_SLOT_BYTES (λ p, property_bytes p.1 p.2) l.

Definition check_list_slots (op : DataOp) : result (Z * Z * Z) unit :=
  match op with
  | CreateNode _ labels properties => _ ← check_labels labels; check_properties properties
  | CreateEdge _ _ _ _ properties => check_properties properties
  | _ => Ok tt
  end.

(** ** Records *)

Definition KIND_GROUP_BEGIN : Z := 1.
Definition KIND_CREATE_NODE : Z := 16.
Definition KIND_DELETE_NODE : Z := 17.
Definition KIND_CREATE_EDGE : Z := 18.
Definition KIND_DELETE_EDGE : Z := 19.
Definition KIND_SET_NODE_PROPERTY : Z := 20.
Definition KIND_REMOVE_NODE_PROPERTY : Z := 21.
Definition KIND_SET_EDGE_PROPERTY : Z := 22.
Definition KIND_REMOVE_EDGE_PROPERTY : Z := 23.
Definition KIND_ADD_NODE_LABEL : Z := 24.
Definition KIND_REMOVE_NODE_LABEL : Z := 25.
Definition KIND_CREATE_GRAPH : Z := 32.
Definition KIND_DROP_GRAPH : Z := 33.
Definition KIND_PUT_CATALOG : Z := 40.
Definition KIND_DROP_CATALOG : Z := 41.
Definition KIND_INSERT_TRIPLE : Z := 64.
Definition KIND_DELETE_TRIPLE : Z := 65.
Definition KIND_CREATE_RDF_GRAPH : Z := 66.
Definition KIND_DROP_RDF_GRAPH : Z := 67.
Definition KIND_CLEAR_RDF_GRAPH : Z := 68.
Definition KIND_COPY_RDF_GRAPH : Z := 69.
Definition KIND_MOVE_RDF_GRAPH : Z := 70.
Definition KIND_ADD_RDF_GRAPH : Z := 71.

Inductive Origin : Set := Transaction | Statement | Direct | Schema | BulkImport.
Record GroupBegin : Set := mkGroupBegin { epoch : Z; timestamp_ms : Z; origin : Origin }.

(** The catalog's records: their kinds and flags, the bytes of their default
    values, their payloads in parts, and reading them back. *)
Class CatalogCodec := {
  CatalogRecord : Type;
  catalog_error : Type;
  record_kind : CatalogRecord → Z;
  record_flags : CatalogRecord → Z;
  default_value_bytes : CatalogRecord → Z;
  encode_payload : CatalogRecord → result (record_error catalog_error) (list part);
  decode_catalog : Z → list Z → result catalog_error (option CatalogRecord);
}.

Inductive LogRecord `{CatalogCodec} : Type :=
  | Group (begin : GroupBegin)
  | DataRecord (graph : option str) (op : DataOp)
  | Standalone (op : StandaloneOp CatalogRecord).

Section records.
Context `{Bincode} `{CatalogCodec}.
Abbreviation record_error := (record_error catalog_error).

Definition data_kind (op : DataOp) : Z :=
  match op with
  | CreateNode _ _ _ => KIND_CREATE_NODE
  | DeleteNode _ => KIND_DELETE_NODE
  | CreateEdge _ _ _ _ _ => KIND_CREATE_EDGE
  | DeleteEdge _ => KIND_DELETE_EDGE
  | SetNodeProperty _ _ _ => KIND_SET_NODE_PROPERTY
  | RemoveNodeProperty _ _ => KIND_REMOVE_NODE_PROPERTY
  | SetEdgeProperty _ _ _ => KIND_SET_EDGE_PROPERTY
  | RemoveEdgeProperty _ _ => KIND_REMOVE_EDGE_PROPERTY
  | AddNodeLabel _ _ => KIND_ADD_NODE_LABEL
  | RemoveNodeLabel _ _ => KIND_REMOVE_NODE_LABEL
  | InsertTriple _ => KIND_INSERT_TRIPLE
  | DeleteTriple _ => KIND_DELETE_TRIPLE
  end.

Definition rdf_kind (op : RdfGraphOp) : Z :=
  match op with
  | RdfCreate _ => KIND_CREATE_RDF_GRAPH
  | RdfDrop _ => KIND_DROP_RDF_GRAPH
  | RdfClear _ => KIND_CLEAR_RDF_GRAPH
  | RdfCopy _ _ => KIND_COPY_RDF_GRAPH
  | RdfMove _ _ => KIND_MOVE_RDF_GRAPH
  | RdfAdd _ _ => KIND_ADD_RDF_GRAPH
  end.

Definition standalone_kind (op : StandaloneOp CatalogRecord) : Z :=
  match op with
  | CreateGraph _ => KIND_CREATE_GRAPH
  | DropGraph _ => KIND_DROP_GRAPH
  | PutCatalog _ => KIND_PUT_CATALOG
  | DropCatalog _ => KIND_DROP_CATALOG
  | RdfGraph op => rdf_kind op
  end.

Definition kind (r : LogRecord) : Z :=
  match r with Group _ => KIND_GROUP_BEGIN | DataRecord _ op => data_kind op | Standalone op => standalone_kind op end.

Definition key_kind (k : CatalogKey) : Z :=
  match k with
  | KeySchema _ => 1 | KeyNodeType _ => 2 | KeyEdgeType _ => 3 | KeyGraphType _ => 4 | KeyGraphBinding _ => 5 | KeyConstraint _ => 6
  | KeyIndex _ _ => 7 | KeyIndexName _ => 8 | KeyProcedure _ => 9 | KeyStoredConfig => 10 | KeyLabelIndex _ _ _ => 11
  end.
Definition key_flags (k : CatalogKey) : Z := match k with KeyLabelIndex _ _ _ => 0 | _ => RECORD_REQUIRED end.

Definition flags (r : LogRecord) : Z :=
  match r with
  | Standalone (PutCatalog record) => record_flags record
  | Standalone (DropCatalog key) => key_flags key
  | _ => RECORD_REQUIRED
  end.

(** ** Encoding *)

Definition counted (v : Value.t) : Z := if nests_too_deep v then 0 else encoded_len v.

Definition value_bytes (r : LogRecord) : Z :=
  match r with
  | DataRecord _ (CreateNode _ _ properties) | DataRecord _ (CreateEdge _ _ _ _ properties) => saturating_total 0 (map (λ p, counted p.2) properties)
  | DataRecord _ (SetNodeProperty _ _ v) | DataRecord _ (SetEdgeProperty _ _ v) => counted v
  | _ => 0
  end.

Definition origin_variant (o : Origin) : Z :=
  match o with Transaction => 0 | Statement => 1 | Direct => 2 | Schema => 3 | BulkImport => 4 end.

Definition put_begin (g : GroupBegin) : list part := put_u64 (epoch g) ++ put_u64 (timestamp_ms g) ++ put_variant (origin_variant (origin g)).

Definition encode_data (graph : option str) (op : DataOp) : list part :=
  match op with
  | CreateNode id labels properties => put_graph graph ++ put_u64 id ++ put_labels labels ++ put_properties properties
  | DeleteNode id => put_graph graph ++ put_u64 id
  | CreateEdge id src dst edge_type properties =>
      put_graph graph ++ put_u64 id ++ put_u64 src ++ put_u64 dst ++ put_text edge_type ++ put_properties properties
  | DeleteEdge id => put_graph graph ++ put_u64 id
  | SetNodeProperty id key value => put_graph graph ++ put_u64 id ++ put_text key ++ put_value value
  | RemoveNodeProperty id key => put_graph graph ++ put_u64 id ++ put_text key
  | SetEdgeProperty id key value => put_graph graph ++ put_u64 id ++ put_text key ++ put_value value
  | RemoveEdgeProperty id key => put_graph graph ++ put_u64 id ++ put_text key
  | AddNodeLabel id label | RemoveNodeLabel id label => put_graph graph ++ put_u64 id ++ put_text label
  | InsertTriple triple | DeleteTriple triple => put_graph graph ++ put_triple triple
  end.

(** [CatalogRecord::encode_framed]. *)
Definition encode_catalog_framed (record : CatalogRecord) (out : list Z) : result record_error unit * list Z :=
  encode_framed_record CATALOG_FRAMING (record_kind record) (record_flags record) out (λ w,
    match PayloadWriter.check_room (default_value_bytes record) w with
    | (Err e, w) => (Err e, w)
    | (Ok _, w) => match encode_payload record with Ok parts => PayloadWriter.write_parts parts w | Err e => (Err e, w) end
    end).

Definition encode_catalog_record (record : CatalogRecord) (w : PayloadWriter.t) : result record_error unit * PayloadWriter.t :=
  match encode_catalog_framed record [] with
  | (Err e, _) => (Err e, w)
  | (Ok _, framed) =>
      match PayloadWriter.write [record_kind record] w with
      | (Err e, w) => (Err e, w)
      | (Ok _, w) => PayloadWriter.write (drop RECORD_HEADER_BYTES framed) w
      end
  end.

Definition put_key (k : CatalogKey) : list part :=
  match k with
  | KeySchema name | KeyNodeType name | KeyEdgeType name | KeyGraphType name | KeyGraphBinding name | KeyConstraint name | KeyIndexName name | KeyProcedure name => put_text name
  | KeyLabelIndex graph label key => put_graph graph ++ put_text label ++ put_text key
  | KeyIndex graph index => put_graph graph ++ put_index_key index
  | KeyStoredConfig => []
  end.

Definition encode_catalog_key (k : CatalogKey) (w : PayloadWriter.t) : result record_error unit * PayloadWriter.t :=
  match PayloadWriter.write [key_kind k] w with
  | (Err e, w) => (Err e, w)
  | (Ok _, w) => PayloadWriter.write_parts (put_key k) w
  end.

Definition encode_standalone (op : StandaloneOp CatalogRecord) (w : PayloadWriter.t) : result record_error unit * PayloadWriter.t :=
  match op with
  | CreateGraph name | DropGraph name => PayloadWriter.write_parts (put_text name) w
  | PutCatalog record => encode_catalog_record record w
  | DropCatalog key => encode_catalog_key key w
  | RdfGraph (RdfCreate name) => PayloadWriter.write_parts (put_text name) w
  | RdfGraph (RdfDrop target) | RdfGraph (RdfClear target) => PayloadWriter.write_parts (put_target target) w
  | RdfGraph (RdfCopy source target) | RdfGraph (RdfMove source target) | RdfGraph (RdfAdd source target) =>
      PayloadWriter.write_parts (put_graph source ++ put_graph target) w
  end.

Definition encode_record (r : LogRecord) (w : PayloadWriter.t) : result record_error unit * PayloadWriter.t :=
  match PayloadWriter.check_room (value_bytes r) w with
  | (Err e, w) => (Err e, w)
  | (Ok _, w) =>
      match r with
      | Group g => PayloadWriter.write_parts (put_begin g) w
      | DataRecord graph op =>
          match check_list_slots op with
          | Err (elements, slots, encoded) => (Err (ListRefused elements slots encoded), w)
          | Ok _ => PayloadWriter.write_parts (encode_data graph op) w
          end
      | Standalone op => encode_standalone op w
      end
  end.

Definition encode_framed (r : LogRecord) (out : list Z) : result record_error unit * list Z :=
  encode_framed_record LOG_FRAMING (kind r) (flags r) out (encode_record r).
End records.

(** ** Decoding *)

(** A reader of bincode: [None] when the bytes do not decode. *)
Definition Get (A : Type) : Type := list Z → option (A * list Z).
#[export] Instance get_ret : MRet Get := λ A a bytes, Some (a, bytes).
#[export] Instance get_bind : MBind Get := λ A B f g bytes, match g bytes with Some (a, bytes) => f a bytes | None => None end.

Inductive log_decode_error (C : Type) : Type :=
  | DoesNotDecode
  | LeftOver (bytes : nat)
  | CatalogKindZero
  | NoCatalogKind
  | CatalogTooLong (length : Z)
  | UnknownCatalogKind (kind : Z)
  | ConfigKeyBytes (length : nat)
  | CatalogDamage (e : C).
Arguments DoesNotDecode {C}.
Arguments LeftOver {C}.
Arguments CatalogKindZero {C}.
Arguments NoCatalogKind {C}.
Arguments CatalogTooLong {C}.
Arguments UnknownCatalogKind {C}.
Arguments ConfigKeyBytes {C}.
Arguments CatalogDamage {C}.

Section get.
Context `{Bincode}.

Definition get_fail {A} : Get A := λ _, None.
Definition get_u64 : Get Z := get_number.
Definition get_variant : Get Z := get_variant_number.
Definition get_bytes : Get (list Z) := λ bytes,
  match get_number bytes with
  | Some (n, bytes) => if n <=? len bytes then Some (take (Z.to_nat n) bytes, drop (Z.to_nat n) bytes) else None
  | None => None
  end.
Definition get_text : Get str := s ← get_bytes; if utf8_valid s then mret s else get_fail.
Definition get_option {A} (g : Get A) : Get (option A) := λ bytes,
  match bytes with
  | 0 :: bytes => Some (None, bytes)
  | 1 :: bytes => (a ← g; mret (Some a)) bytes
  | _ => None
  end.
Definition get_graph : Get (option str) := get_option get_text.
(** [ValueVisitor]: one value of the codec that fills the byte string. *)
Definition get_value : Get Value.t :=
  bytes ← get_bytes;
  match decode_value bytes 0 with
  | Ok (v, pos) => if (pos =? length bytes)%nat then mret v else get_fail
  | Err _ => get_fail
  end.
Definition get_property : Get (str * Value.t) := k ← get_text; v ← get_value; mret (k, v).

(** The loop of [visit_seq] over the elements left; an element takes a byte at
    least, so the bytes bound the rounds. *)
Fixpoint get_elements {A} (g : Get A) (size : A → Z) (ruled : bool) (rounds : nat) (left : Z) (slots : ListSlots.t) (items : list A) : Get (list A) := λ bytes,
  if left <=? 0 then Some (items, bytes)
  else
    match rounds with
    | O => None
    | S rounds =>
        match g bytes with
        | None => None
        | Some (item, bytes) =>
            match ListSlots.add (if ruled then size item else 0) slots with
            | Err _ => None
            | Ok slots => get_elements g size ruled rounds (left - 1) slots (items ++ [item]) bytes
            end
        end
    end.

Definition get_list {A} (g : Get A) (slot : Z) (size : A → Z) : Get (list A) := λ bytes,
  match get_number bytes with
  | None => None
  | Some (claimed, bytes) =>
      let ruled := LIST_ALLOWANCE_BYTES <? saturating_mul claimed slot in
      get_elements g size ruled (length bytes) claimed (ListSlots.new slot) [] bytes
  end.

Definition get_labels : Get Labels := get_list get_text LABEL_SLOT_BYTES (λ label, string_bytes (len label)).
Definition get_properties : Get Properties := get_list get_property PROPERTY_SLOT_BYTES (λ p, property_bytes p.1 p.2).

Definition get_term : Get TermRecord :=
  variant ← get_variant;
  if variant =? 0 then s ← get_text; mret (TermIri s)
  else if variant =? 1 then s ← get_text; mret (TermBlank s)
  else if variant =? 2 then value ← get_text; datatype ← get_text; language ← get_option get_text; mret (TermLiteral value datatype language)
  else get_fail.
Definition get_triple : Get TripleRecord := s ← get_term; p ← get_term; o ← get_term; mret (mkTriple s p o).
Definition get_target : Get RdfGraphTarget :=
  variant ← get_variant;
  if variant =? 0 then mret TargetDefault
  else if variant =? 1 then name ← get_text; mret (TargetNamed name)
  else if variant =? 2 then mret TargetAllNamed
  else if variant =? 3 then mret TargetAll
  else get_fail.
Definition get_origin : Get Origin :=
  variant ← get_variant;
  if variant =? 0 then mret Transaction else if variant =? 1 then mret Statement else if variant =? 2 then mret Direct
  else if variant =? 3 then mret Schema else if variant =? 4 then mret BulkImport else get_fail.
Definition get_index_key : Get IndexKeyRecord :=
  variant ← get_variant;
  if variant =? 0 then key ← get_text; mret (PropertyKey key)
  else if variant =? 1 then label ← get_text; property ← get_text; mret (VectorKey label property)
  else if variant =? 2 then label ← get_text; property ← get_text; mret (TextKey label property)
  else get_fail.

Definition get_begin : Get GroupBegin := e ← get_u64; t ← get_u64; o ← get_origin; mret (mkGroupBegin e t o).

(** [decode]: the whole payload. *)
Definition decode {C A} (g : Get A) (payload : list Z) : result (log_decode_error C) A :=
  match g payload with
  | Some (a, []) => Ok a
  | Some (_, rest) => Err (LeftOver (length rest))
  | None => Err DoesNotDecode
  end.
End get.

Section decoding.
Context `{Bincode} `{CatalogCodec}.
Abbreviation error := (log_decode_error catalog_error).

Definition split_catalog_kind (payload : list Z) : result error (Z * list Z) :=
  match payload with
  | [] => Err NoCatalogKind
  | kind :: rest => if kind =? 0 then Err CatalogKindZero else Ok (kind, rest)
  end.

Definition decode_catalog_record (required : bool) (payload : list Z) : result error (option CatalogRecord) :=
  '(kind, rest) ← split_catalog_kind payload;
  if MAX_CATALOG_RECORD_PAYLOAD <? len rest then Err (CatalogTooLong (len rest))
  else match decode_catalog kind rest with
  | Err e => Err (CatalogDamage e)
  | Ok (Some record) => Ok (Some record)
  | Ok None => if required then Err (UnknownCatalogKind kind) else Ok None
  end.

Definition decode_catalog_key (required : bool) (payload : list Z) : result error (option CatalogKey) :=
  '(kind, key) ← split_catalog_kind payload;
  let named (f : str → CatalogKey) := name ← decode get_text key; Ok (Some (f name)) in
  if kind =? 1 then named KeySchema
  else if kind =? 2 then named KeyNodeType
  else if kind =? 3 then named KeyEdgeType
  else if kind =? 4 then named KeyGraphType
  else if kind =? 5 then named KeyGraphBinding
  else if kind =? 6 then named KeyConstraint
  else if kind =? 7 then k ← decode (graph ← get_graph; index ← get_index_key; mret (KeyIndex graph index)) key; Ok (Some k)
  else if kind =? 8 then named KeyIndexName
  else if kind =? 9 then named KeyProcedure
  else if kind =? 11 then k ← decode (graph ← get_graph; label ← get_text; property ← get_text; mret (KeyLabelIndex graph label property)) key; Ok (Some k)
  else if kind =? 10 then match key with [] => Ok (Some KeyStoredConfig) | _ => Err (ConfigKeyBytes (length key)) end
  else if required then Err (UnknownCatalogKind kind) else Ok None.

(** A data record whose payload is its graph and then [g]. *)
Definition decode_op (g : Get DataOp) (payload : list Z) : result error (option LogRecord) :=
  r ← decode (graph ← get_graph; op ← g; mret (DataRecord graph op)) payload; Ok (Some r).

Definition decode_rdf (g : Get RdfGraphOp) (payload : list Z) : result error (option LogRecord) :=
  op ← decode g payload; Ok (Some (Standalone (RdfGraph op))).

Definition get_ends (f : option str → option str → RdfGraphOp) : Get RdfGraphOp := s ← get_graph; t ← get_graph; mret (f s t).

Definition decode_payload (kind : Z) (required : bool) (payload : list Z) : result error (option LogRecord) :=
  if kind =? KIND_GROUP_BEGIN then g ← decode get_begin payload; Ok (Some (Group g))
  else if kind =? KIND_CREATE_NODE then decode_op (id ← get_u64; labels ← get_labels; properties ← get_properties; mret (CreateNode id labels properties)) payload
  else if kind =? KIND_DELETE_NODE then decode_op (id ← get_u64; mret (DeleteNode id)) payload
  else if kind =? KIND_CREATE_EDGE then
    decode_op (id ← get_u64; src ← get_u64; dst ← get_u64; edge_type ← get_text; properties ← get_properties; mret (CreateEdge id src dst edge_type properties)) payload
  else if kind =? KIND_DELETE_EDGE then decode_op (id ← get_u64; mret (DeleteEdge id)) payload
  else if kind =? KIND_SET_NODE_PROPERTY then decode_op (id ← get_u64; key ← get_text; value ← get_value; mret (SetNodeProperty id key value)) payload
  else if kind =? KIND_REMOVE_NODE_PROPERTY then decode_op (id ← get_u64; key ← get_text; mret (RemoveNodeProperty id key)) payload
  else if kind =? KIND_SET_EDGE_PROPERTY then decode_op (id ← get_u64; key ← get_text; value ← get_value; mret (SetEdgeProperty id key value)) payload
  else if kind =? KIND_REMOVE_EDGE_PROPERTY then decode_op (id ← get_u64; key ← get_text; mret (RemoveEdgeProperty id key)) payload
  else if kind =? KIND_ADD_NODE_LABEL then decode_op (id ← get_u64; label ← get_text; mret (AddNodeLabel id label)) payload
  else if kind =? KIND_REMOVE_NODE_LABEL then decode_op (id ← get_u64; label ← get_text; mret (RemoveNodeLabel id label)) payload
  else if kind =? KIND_CREATE_GRAPH then name ← decode get_text payload; Ok (Some (Standalone (CreateGraph name)))
  else if kind =? KIND_DROP_GRAPH then name ← decode get_text payload; Ok (Some (Standalone (DropGraph name)))
  else if kind =? KIND_PUT_CATALOG then record ← decode_catalog_record required payload; Ok (record ← record; Some (Standalone (PutCatalog record)))
  else if kind =? KIND_DROP_CATALOG then key ← decode_catalog_key required payload; Ok (key ← key; Some (Standalone (DropCatalog key)))
  else if kind =? KIND_INSERT_TRIPLE then decode_op (triple ← get_triple; mret (InsertTriple triple)) payload
  else if kind =? KIND_DELETE_TRIPLE then decode_op (triple ← get_triple; mret (DeleteTriple triple)) payload
  else if kind =? KIND_CREATE_RDF_GRAPH then decode_rdf (name ← get_text; mret (RdfCreate name)) payload
  else if kind =? KIND_DROP_RDF_GRAPH then decode_rdf (target ← get_target; mret (RdfDrop target)) payload
  else if kind =? KIND_CLEAR_RDF_GRAPH then decode_rdf (target ← get_target; mret (RdfClear target)) payload
  else if kind =? KIND_COPY_RDF_GRAPH then decode_rdf (get_ends RdfCopy) payload
  else if kind =? KIND_MOVE_RDF_GRAPH then decode_rdf (get_ends RdfMove) payload
  else if kind =? KIND_ADD_RDF_GRAPH then decode_rdf (get_ends RdfAdd) payload
  else Ok None.

(** The closure the callers of [read_log_records] pass: it keeps the records. *)
Definition collect (r : LogRecord) (l : list LogRecord) : result Empty_set unit * list LogRecord := (Ok tt, l ++ [r]).

Definition read_log_records {A S : Type} (payload : list Z) (apply : LogRecord → S → result A unit * S) (s : S) :=
  read_framed_records LOG_FRAMING decode_payload apply payload s.
End decoding.
