(* ===== verification/LogRecordProps.v ===== *)
(** * Log records read back

    What the parts of a payload read back as, what the list rule accepts, what
    is written is bytes, how frames follow each other, and the theorems on
    records written and read, with concrete records. *)
From Stdlib Require Import Ascii String.
From S2P Require Import Prelude Bytes Values ValueCodec ValueCodecFacts ValueRoundTrip Changes ChangeFacts LogRecord.
Open Scope Z_scope.

(** ** Parts *)

Fixpoint parts_bytes (parts : list part) : option (list Z) :=
  match parts with
  | [] => Some []
  | Piece b :: parts => rest ← parts_bytes parts; Some (b ++ rest)
  | Refused _ :: _ => None
  end.

Lemma parts_bytes_app p q : parts_bytes (p ++ q) = a ← parts_bytes p; b ← parts_bytes q; Some (a ++ b).
Proof.
  induction p as [|[b|e] p IH]; cbn [app parts_bytes].
  - cbn. by destruct (parts_bytes q).
  - rewrite IH. destruct (parts_bytes p); [|done]. cbn. destruct (parts_bytes q); [|done]. cbn. by rewrite app_assoc.
  - done.
Qed.

Lemma parts_bytes_split p q bs : parts_bytes (p ++ q) = Some bs → ∃ a b, parts_bytes p = Some a ∧ parts_bytes q = Some b ∧ bs = a ++ b.
Proof. rewrite parts_bytes_app. destruct (parts_bytes p) as [a|]; [|done]. cbn. destruct (parts_bytes q) as [b|]; [|done]. cbn. intros [= <-]. by exists a, b. Qed.

(** The parts are bytes. *)
Definition parts_in (parts : list part) : Prop := Forall (λ p, match p with Piece b => Forall is_byte b | Refused _ => True end) parts.

(** [g] reads what the parts write, in front of anything. *)
Definition gets {A} (g : Get A) (parts : list part) (a : A) : Prop :=
  ∀ bs, parts_bytes parts = Some bs → len bs < 2 ^ 64 → ∀ rest, g (bs ++ rest) = Some (a, rest).

Lemma gets_bind {A B} (g : Get A) (f : A → Get B) p q a b : gets g p a → gets (f a) q b → gets (g ≫= f) (p ++ q) b.
Proof.
  intros Hg Hf bs Hbs Hl rest. destruct (parts_bytes_split _ _ _ Hbs) as (x & y & Hx & Hy & ->). unfold len in *. rewrite length_app in Hl.
  unfold mbind, get_bind. rewrite <- app_assoc, (Hg x Hx ltac:(unfold len; lia)). apply (Hf y Hy). unfold len. lia.
Qed.

Lemma gets_map {A B} (g : Get A) (f : A → B) p a : gets g p a → gets (x ← g; mret (f x)) p (f a).
Proof. intros Hg bs Hbs Hl rest. unfold mbind, get_bind. by rewrite (Hg bs Hbs Hl). Qed.

Section gets.
Context `{Bincode}.

Lemma gets_u64 n : is_u64 n → gets get_u64 (put_u64 n) n.
Proof. intros Hn bs [= <-] _ rest. rewrite app_nil_r. by apply get_put_number. Qed.

Lemma gets_variant n : 0 ≤ n < 2 ^ 32 → gets get_variant (put_variant n) n.
Proof. intros Hn bs [= <-] _ rest. rewrite app_nil_r. by apply get_put_variant. Qed.

Lemma get_bytes_put s rest : len s < 2 ^ 64 → get_bytes (put_number (len s) ++ s ++ rest) = Some (s, rest).
Proof.
  intros Hs. unfold get_bytes. rewrite get_put_number by (unfold is_u64, len in *; lia). unfold len at 1 2. rewrite length_app, (proj2 (Z.leb_le _ _)) by lia.
  unfold len. by rewrite Nat2Z.id, take_app_length, drop_app_length.
Qed.

Lemma gets_text s : utf8_valid s = true → gets get_text (put_text s) s.
Proof.
  intros Hs bs [= <-] Hl rest. rewrite app_nil_r, <- app_assoc. unfold get_text, mbind, get_bind. rewrite get_bytes_put; [by rewrite Hs|].
  unfold len in *. rewrite !length_app in Hl. lia.
Qed.

Lemma gets_option {A} (g : Get A) f o : (∀ a, o = Some a → gets g (f a) a) → gets (get_option g) (put_option f o) o.
Proof.
  intros Hg. destruct o as [a|]; [|intros bs [= <-] _ rest; done]. specialize (Hg a eq_refl). intros bs. cbn [put_option parts_bytes]. destruct (parts_bytes (f a)) as [b|] eqn:Hb; [|done].
  cbn [mbind option_bind]. intros [= <-] Hl rest. cbn. unfold mbind, get_bind. rewrite (Hg b Hb); [done|]. unfold len in *. cbn in Hl. lia.
Qed.

Lemma gets_graph o : (∀ s, o = Some s → utf8_valid s = true) → gets get_graph (put_graph o) o.
Proof. intros Ho. apply gets_option. intros s Hs. by apply gets_text, Ho. Qed.

Lemma gets_value v : Value.ok v → gets get_value (put_value v) v.
Proof.
  intros Hv bs. unfold put_value, encode_value. destruct (encode_nested v 0) as [b|e] eqn:E; [|done]. cbn [app parts_bytes mbind option_bind]. intros [= <-] Hl rest.
  rewrite app_nil_r, <- app_assoc. unfold get_value, mbind, get_bind. assert (Hb : len b < 2 ^ 64) by (unfold len in *; rewrite !length_app in Hl; lia).
  rewrite get_bytes_put by done. assert (Hd : decode_value b 0 = Ok (v, length b)).
  { pose proof (ValueRoundTrip.reads_value v MAX_VALUE_DEPTH 0%nat b eq_refl Hv E b 0%nat []) as Hr. rewrite app_nil_r in Hr. apply Hr; [done|lia]. }
  rewrite Hd, Nat.eqb_refl. done.
Qed.

(** ** Lists under the rule *)

Lemma get_elements_ok {A} (g : Get A) (f : A → list part) (size : A → Z) (ruled : bool) (l : list A) slots slots' : (∀ a, a ∈ l → gets g (f a) a) →
  (∀ a b, a ∈ l → parts_bytes (f a) = Some b → len b < 2 ^ 64 → (0 < length b)%nat) →
  ListSlots.add_each (map (λ a, if ruled then size a else 0) l) slots = Ok slots' →
  ∀ rounds items bs rest, parts_bytes (concat (map f l)) = Some bs → len bs < 2 ^ 64 → (length bs ≤ rounds)%nat →
  get_elements g size ruled rounds (len l) slots items (bs ++ rest) = Some (items ++ l, rest).
Proof.
  revert slots. induction l as [|a l IH]; intros slots Hg Hne Hadd rounds items bs rest Hbs Hl Hr; cbn [map concat] in *.
  { injection Hbs as <-. destruct rounds; cbn; by rewrite app_nil_r. }
  destruct (parts_bytes_split _ _ _ Hbs) as (x & y & Hx & Hy & ->). unfold len in Hl. rewrite length_app in *. assert (Hxl : len x < 2 ^ 64) by (unfold len; lia). pose proof (Hne a x (list_elem_of_here _ _) Hx Hxl) as Hpos.
  cbn [ListSlots.add_each] in Hadd. destruct (ListSlots.add _ slots) as [slots1|] eqn:E1; [|done]. cbn in Hadd.
  destruct rounds as [|rounds]; [lia|]. cbn [get_elements]. rewrite (proj2 (Z.leb_gt _ _)) by (unfold len; cbn; lia).
  rewrite <- app_assoc, (Hg a (list_elem_of_here _ _) x Hx) by (unfold len; lia). rewrite E1. replace (len (a :: l) - 1) with (len l) by (unfold len; cbn [length]; lia).
  rewrite (IH slots1 (λ b Hb, Hg b (list_elem_of_further _ _ _ Hb)) (λ b z Hb, Hne b z (list_elem_of_further _ _ _ Hb)) Hadd rounds (items ++ [a]) y rest Hy) by (unfold len; lia).
  by rewrite <- app_assoc.
Qed.

(** A list within the allowance needs no sizes. *)
Lemma add_zeros n slot e : 0 ≤ e → 0 ≤ slot → (e + Z.of_nat n) * slot ≤ LIST_ALLOWANCE_BYTES → ∃ s, ListSlots.add_each (replicate n 0) (ListSlots.mk slot e 0) = Ok s.
Proof.
  revert e. induction n as [|n IH]; intros e He Hs Hle; cbn [replicate ListSlots.add_each]; [by eexists|].
  assert (Hadd : ListSlots.add 0 (ListSlots.mk slot e 0) = Ok (ListSlots.mk slot (saturating_add e 1) 0)).
  { unfold ListSlots.add, ListSlots.allowance, saturating_add, saturating_mul. cbn [ListSlots.elements ListSlots.encoded ListSlots.slot_bytes]. rewrite (proj2 (Z.ltb_ge _ _)); [do 2 f_equal; unfold usize_max; lia|].
    unfold usize_max, SLOT_BYTES_PER_BYTE, LIST_ALLOWANCE_BYTES in *. nia. }
  rewrite Hadd. cbn. apply IH; [unfold saturating_add, usize_max; lia|done|]. unfold saturating_add. nia.
Qed.

Lemma put_number_nonempty n : is_u64 n → (0 < length (put_number n))%nat.
Proof. intros Hn. pose proof (put_number_length n Hn) as Hl. unfold varint_bytes in Hl. repeat case_match; lia. Qed.

Lemma elements_bytes {A} (f : A → list part) (l : list A) b : (∀ a b, a ∈ l → parts_bytes (f a) = Some b → len b < 2 ^ 64 → (0 < length b)%nat) →
  parts_bytes (concat (map f l)) = Some b → len b < 2 ^ 64 → (length l ≤ length b)%nat.
Proof.
  revert b. induction l as [|a l IH]; intros b Hne Hb Hl; cbn [map concat length] in *; [lia|]. destruct (parts_bytes_split _ _ _ Hb) as (x & y & Hx & Hy & ->). unfold len in Hl. rewrite length_app in *.
  pose proof (Hne a x (list_elem_of_here _ _) Hx ltac:(unfold len; lia)). pose proof (IH y (λ b z Hb, Hne b z (list_elem_of_further _ _ _ Hb)) Hy ltac:(unfold len; lia)). lia.
Qed.

Lemma gets_list {A} (g : Get A) (f : A → list part) slot (size : A → Z) (l : list A) : 0 ≤ slot → (∀ a, a ∈ l → gets g (f a) a) →
  (∀ a b, a ∈ l → parts_bytes (f a) = Some b → len b < 2 ^ 64 → (0 < length b)%nat) → check_slots slot size l = Ok tt → gets (get_list g slot size) (put_list f l) l.
Proof.
  intros Hslot Hg Hne Hc bs. cbn [put_list parts_bytes]. destruct (parts_bytes (concat (map f l))) as [b|] eqn:Hb; [|done]. cbn. intros [= <-] Hl rest.
  assert (Hbl : len b < 2 ^ 64) by (unfold len in *; rewrite length_app in Hl; lia). pose proof (elements_bytes f l b Hne Hb Hbl) as Hll.
  unfold get_list. rewrite <- app_assoc, get_put_number by (unfold is_u64, len in *; lia). set (ruled := LIST_ALLOWANCE_BYTES <? saturating_mul (len l) slot).
  assert (Hadd : ∃ s, ListSlots.add_each (map (λ a, if ruled then size a else 0) l) (ListSlots.new slot) = Ok s).
  { unfold check_slots, fits_allowance in Hc. subst ruled. destruct (Z.ltb_spec LIST_ALLOWANCE_BYTES (saturating_mul (len l) slot)) as [Hlt|Hge].
    - rewrite (proj2 (Z.leb_gt _ _)) in Hc by done. destruct (ListSlots.add_each _ _) as [s|] eqn:E; [|done]. by exists s.
    - assert (Hz : map (λ _ : A, 0) l = replicate (length l) 0) by (clear; induction l; cbn; congruence). rewrite Hz. apply add_zeros; [lia|done|].
      unfold saturating_mul, usize_max, len, LIST_ALLOWANCE_BYTES in *. nia. }
  destruct Hadd as [s Hadd]. apply (get_elements_ok g f size ruled l _ s Hg Hne Hadd _ [] b rest Hb Hbl). rewrite length_app. lia.
Qed.

Lemma text_nonempty s b : parts_bytes (put_text s) = Some b → len b < 2 ^ 64 → (0 < length b)%nat.
Proof.
  intros [= <-] Hl. unfold len in Hl. rewrite !length_app in *. pose proof (put_number_nonempty (len s) ltac:(unfold is_u64, len; lia)). lia.
Qed.

Lemma gets_labels l : Forall (λ s, utf8_valid s = true) l → check_labels l = Ok tt → gets get_labels (put_labels l) l.
Proof.
  intros Hl Hc. rewrite Forall_forall in Hl. apply gets_list; [done| | |exact Hc].
  - intros s Hs. by apply gets_text, Hl.
  - intros s b _. apply text_nonempty.
Qed.

Definition property_ok (p : str * Value.t) : Prop := utf8_valid p.1 = true ∧ Value.ok p.2.

Lemma gets_property p : property_ok p → gets get_property (put_property p) p.
Proof.
  intros [Hk Hv]. destruct p as [k v]. unfold get_property, put_property. eapply gets_bind; [by apply gets_text|]. by apply (gets_map get_value (λ v, (k, v))), gets_value.
Qed.

Lemma gets_properties l : Forall property_ok l → check_properties l = Ok tt → gets get_properties (put_properties l) l.
Proof.
  intros Hl Hc. rewrite Forall_forall in Hl. apply gets_list; [done| | |exact Hc].
  - intros p Hp. by apply gets_property, Hl.
  - intros p b _ Hb Hbl. destruct (parts_bytes_split _ _ _ Hb) as (x & y & Hx & Hy & ->). unfold len in Hbl. rewrite length_app in *.
    pose proof (text_nonempty _ _ Hx ltac:(unfold len; lia)). lia.
Qed.

(** ** Enums *)

Lemma gets_enum {A} (f : Z → Get A) n q a : 0 ≤ n < 2 ^ 32 → gets (f n) q a → gets (v ← get_variant; f v) (put_variant n ++ q) a.
Proof. intros Hn Hf. eapply gets_bind; [by apply gets_variant|exact Hf]. Qed.

Lemma gets_unit {A} (f : Z → Get A) n a : 0 ≤ n < 2 ^ 32 → f n = mret a → gets (v ← get_variant; f v) (put_variant n) a.
Proof. intros Hn Hf bs Hbs Hl rest. unfold mbind, get_bind. rewrite (gets_variant n Hn bs Hbs Hl), Hf. done. Qed.

Definition term_ok (t : TermRecord) : Prop :=
  match t with
  | TermIri s | TermBlank s => utf8_valid s = true
  | TermLiteral value datatype language => utf8_valid value = true ∧ utf8_valid datatype = true ∧ ∀ s, language = Some s → utf8_valid s = true
  end.
Definition triple_ok (t : TripleRecord) : Prop := term_ok (subject t) ∧ term_ok (predicate t) ∧ term_ok (object t).
Definition target_ok (t : RdfGraphTarget) : Prop := match t with TargetNamed s => utf8_valid s = true | _ => True end.
Definition index_key_ok (k : IndexKeyRecord) : Prop :=
  match k with PropertyKey s => utf8_valid s = true | VectorKey a b | TextKey a b => utf8_valid a = true ∧ utf8_valid b = true end.

Lemma gets_term t : term_ok t → gets get_term (LogRecord.put_term t) t.
Proof.
  intros Ht. unfold get_term. destruct t as [s|s|value datatype language]; cbn [LogRecord.put_term term_ok] in *; (apply gets_enum; [lia|]; cbn [Z.eqb Pos.eqb]).
  - by apply (gets_map get_text TermIri), gets_text.
  - by apply (gets_map get_text TermBlank), gets_text.
  - destruct Ht as (Hv & Hd & Hl). eapply gets_bind; [by apply gets_text|]. eapply gets_bind; [by apply gets_text|]. by apply (gets_map (get_option get_text) (TermLiteral value datatype)), gets_graph.
Qed.

Lemma gets_triple t : triple_ok t → gets get_triple (put_triple t) t.
Proof.
  intros (Hs & Hp & Ho). destruct t as [s p o]. unfold get_triple, put_triple. eapply gets_bind; [by apply gets_term|]. eapply gets_bind; [by apply gets_term|].
  by apply (gets_map get_term (mkTriple s p)), gets_term.
Qed.

Lemma gets_target t : target_ok t → gets get_target (put_target t) t.
Proof.
  intros Ht. unfold get_target. destruct t as [|s| |]; cbn [put_target target_ok] in *; [apply gets_unit; [lia|done]| |apply gets_unit; [lia|done]|apply gets_unit; [lia|done]].
  apply gets_enum; [lia|]; cbn [Z.eqb Pos.eqb]. by apply (gets_map get_text TargetNamed), gets_text.
Qed.

Lemma gets_index_key k : index_key_ok k → gets get_index_key (put_index_key k) k.
Proof.
  intros Hk. unfold get_index_key. destruct k as [s|a b|a b]; cbn [put_index_key index_key_ok] in *; (apply gets_enum; [lia|]; cbn [Z.eqb Pos.eqb]).
  - by apply (gets_map get_text PropertyKey), gets_text.
  - destruct Hk as [Ha Hb]. eapply gets_bind; [by apply gets_text|]. by apply (gets_map get_text (VectorKey a)), gets_text.
  - destruct Hk as [Ha Hb]. eapply gets_bind; [by apply gets_text|]. by apply (gets_map get_text (TextKey a)), gets_text.
Qed.

Lemma gets_begin g : is_u64 (epoch g) → is_u64 (timestamp_ms g) → gets get_begin (put_begin g) g.
Proof.
  intros He Ht. destruct g as [e t o]. unfold get_begin, put_begin. eapply gets_bind; [by apply gets_u64|]. eapply gets_bind; [by apply gets_u64|].
  apply (gets_map get_origin (mkGroupBegin e t)). unfold get_origin. destruct o; (apply gets_unit; [cbn; lia|done]).
Qed.
End gets.

(** ** The writer *)

Section writes.
Context {C : Type}.
Import PayloadWriter.
Implicit Types w : PayloadWriter.t.

(** [w'] holds [b] more than [w]. *)
Definition wrote w w' (b : list Z) : Prop := out w' = out w ++ b ∧ room w' = room w - len b ∧ len b ≤ room w.

Lemma wrote_nil w : 0 ≤ room w → wrote w w [].
Proof. intros Hr. unfold wrote, len. rewrite app_nil_r. cbn. split; [done|lia]. Qed.

Lemma wrote_trans w w1 w2 a b : wrote w w1 a → wrote w1 w2 b → wrote w w2 (a ++ b).
Proof. intros (H1 & H2 & H3) (H4 & H5 & H6). unfold wrote, len in *. rewrite H4, H1, app_assoc, length_app. split; [done|]. lia. Qed.

Lemma wrote_same w w' a b : wrote w w' a → wrote w w' b → a = b.
Proof. intros (H1 & _) (H2 & _). rewrite H1 in H2. by apply app_inv_head in H2. Qed.

Lemma write_ok b w w' : write (C:=C) b w = (Ok tt, w') → wrote w w' b ∧ overflowed w' = overflowed w.
Proof. unfold write. destruct (Z.ltb_spec (room w) (len b)); [done|]. intros [= <-]. unfold wrote. cbn. split; [split; [done|lia]|done]. Qed.

Lemma write_some b w r w' : 0 ≤ room w → write (C:=C) b w = (r, w') → ∃ b', out w' = out w ++ b' ∧ 0 ≤ room w'.
Proof.
  intros Hr. unfold write. destruct (Z.ltb_spec (room w) (len b)); intros [= <- <-]; cbn; [exists []; by rewrite app_nil_r|exists b; split; [done|lia]].
Qed.

Lemma write_parts_ok parts w w' : 0 ≤ room w → write_parts (C:=C) parts w = (Ok tt, w') → ∃ b, parts_bytes parts = Some b ∧ wrote w w' b ∧ overflowed w' = overflowed w.
Proof.
  revert w. induction parts as [|[b|e] parts IH]; intros w Hr; cbn [write_parts parts_bytes]; [|destruct (write b w) as [[[]|e] w1] eqn:Hw|done].
  - intros [= <-]. exists []. split; [done|]. split; [by apply wrote_nil|done].
  - apply write_ok in Hw as [Hw Ho]. intros Hp. assert (Hr1 : 0 ≤ room w1) by (destruct Hw as (_ & -> & ?); lia). destruct (IH w1 Hr1 Hp) as (b2 & -> & Hw2 & Ho2). exists (b ++ b2). split; [done|].
    split; [by eapply wrote_trans|congruence].
  - done.
Qed.

Lemma write_parts_some parts w r w' : 0 ≤ room w → write_parts (C:=C) parts w = (r, w') → ∃ b, out w' = out w ++ b.
Proof.
  revert w. induction parts as [|[b|e] parts IH]; intros w Hr; cbn [write_parts]; [intros [= <- <-]; exists []; by rewrite app_nil_r| |intros [= <- <-]; exists []; by rewrite app_nil_r].
  destruct (write b w) as [[u|e] w1] eqn:Hw; destruct (write_some _ _ _ _ Hr Hw) as (b1 & Ho & Hr1); [|intros [= <- <-]; by exists b1].
  intros Hp. destruct (IH w1 Hr1 Hp) as (b2 & ->). exists (b1 ++ b2). by rewrite Ho, app_assoc.
Qed.

(** What a payload's writer may do: append, and tell what it appended. *)
Definition appends (f : PayloadWriter.t → result (record_error C) unit * PayloadWriter.t) : Prop :=
  ∀ w r w', 0 ≤ room w → f w = (r, w') → (∃ b, out w' = out w ++ b) ∧ (r = Ok tt → ∃ b, wrote w w' b).

Lemma write_parts_appends parts : appends (write_parts parts).
Proof. intros w r w' Hr Hf. split; [by eapply write_parts_some|]. intros ->. destruct (write_parts_ok _ _ _ Hr Hf) as (b & _ & Hb & _). by exists b. Qed.

Lemma check_room_same bytes w r w' : check_room (C:=C) bytes w = (r, w') → out w' = out w ∧ room w' = room w ∧ (r = Ok tt → w' = w).
Proof. unfold check_room. destruct (_ <? _); intros [= <- <-]; done. Qed.

(** ** Frames *)

Definition frame (kind flags : Z) (payload : list Z) : list Z := kind :: flags :: to_le 4 (len payload) ++ payload.

Lemma encode_framed_spec framing kind flags out_ f r out' : 0 ≤ max_payload framing ≤ u32_max → appends f → encode_framed_record framing kind flags out_ f = (r, out') →
  match r with
  | Err _ => out' = out_
  | Ok _ => kind ≠ 0 ∧ Z.land flags 254 = 0 ∧ ∃ payload w', out' = out_ ++ frame kind flags payload ∧ len payload ≤ max_payload framing ∧
      f (mk (out_ ++ [kind; flags; 0; 0; 0; 0]) (max_payload framing) false) = (Ok tt, w') ∧ wrote (mk (out_ ++ [kind; flags; 0; 0; 0; 0]) (max_payload framing) false) w' payload
  end.
Proof.
  intros Hmax Hf. unfold encode_framed_record. destruct (Z.eqb_spec kind 0) as [|Hk]; [intros [= <- <-]; done|]. cbn [orb].
  destruct (Z.eqb_spec (Z.land flags (Z.lxor 255 KNOWN_FLAGS)) 0) as [Hfl|]; [|intros [= <- <-]; done]. cbn [negb]. set (w0 := mk _ _ _).
  destruct (f w0) as [r0 w'] eqn:Ew. destruct (Hf w0 r0 w' ltac:(cbn; lia) Ew) as [[b Hb] Hok]. cbn [out w0] in Hb.
  assert (Htake : take (length out_) (out w') = out_) by (rewrite Hb, <- app_assoc; apply take_app_length).
  destruct r0 as [[]|e]; [|intros [= <- <-]; exact Htake]. destruct (Hok eq_refl) as (payload & Hp & Hroom & Hle). cbn [out room w0] in Hp, Hroom, Hle.
  assert (Hlen : (length (out w') - length out_ - RECORD_HEADER_BYTES)%nat = length payload) by (rewrite Hp, !length_app; unfold RECORD_HEADER_BYTES; cbn [length]; lia).
  rewrite Hlen. destruct (Z.ltb_spec u32_max (Z.of_nat (length payload))) as [|Hu]; [intros [= <- <-]; exact Htake|]. intros [= <- <-].
  split_and!; [done|done|]. exists payload, w'. split; [|split; [exact Hle|split; [reflexivity|by split_and!]]].
  rewrite Hp, <- !app_assoc, take_app_ge, drop_app_ge by lia. replace (length out_ + 2 - length out_)%nat with 2%nat by lia. replace (length out_ + RECORD_HEADER_BYTES - length out_)%nat with RECORD_HEADER_BYTES by lia.
  rewrite <- app_assoc. done.
Qed.
End writes.

(** ** Tactics *)

(** Picks the reader of a kind. *)
Ltac pick_kind := unfold decode_payload, KIND_GROUP_BEGIN, KIND_CREATE_NODE, KIND_DELETE_NODE, KIND_CREATE_EDGE, KIND_DELETE_EDGE, KIND_SET_NODE_PROPERTY, KIND_REMOVE_NODE_PROPERTY, KIND_SET_EDGE_PROPERTY, KIND_REMOVE_EDGE_PROPERTY, KIND_ADD_NODE_LABEL, KIND_REMOVE_NODE_LABEL, KIND_CREATE_GRAPH, KIND_DROP_GRAPH, KIND_PUT_CATALOG, KIND_DROP_CATALOG, KIND_INSERT_TRIPLE, KIND_DELETE_TRIPLE, KIND_CREATE_RDF_GRAPH, KIND_DROP_RDF_GRAPH, KIND_CLEAR_RDF_GRAPH, KIND_COPY_RDF_GRAPH, KIND_MOVE_RDF_GRAPH, KIND_ADD_RDF_GRAPH; cbn [Z.eqb Pos.eqb].

(** Reads field after field. *)
Ltac fields :=
  repeat match goal with
  | |- gets (mbind (λ x, mret _) _) _ _ => eapply (gets_map _ _ _ _)
  | |- gets (mbind _ _) (_ ++ _) _ => eapply gets_bind
  | |- gets get_u64 _ _ => apply gets_u64; assumption
  | |- gets get_text _ _ => apply gets_text; assumption
  | |- gets get_value _ _ => apply gets_value; assumption
  | |- gets get_graph _ _ => apply gets_graph; assumption
  | |- gets get_triple _ _ => apply gets_triple; assumption
  | |- gets get_target _ _ => apply gets_target; assumption
  | |- gets get_index_key _ _ => apply gets_index_key; assumption
  | |- gets get_labels _ _ => apply gets_labels; assumption
  | |- gets get_properties _ _ => apply gets_properties; assumption
  end.

(** ** Records *)

Section records.
Context `{Bincode} `{CatalogCodec}.

Definition graph_ok (g : option str) : Prop := ∀ s, g = Some s → utf8_valid s = true.

Definition op_ok (op : DataOp) : Prop :=
  match op with
  | CreateNode id labels properties => is_u64 id ∧ Forall (λ s, utf8_valid s = true) labels ∧ Forall property_ok properties
  | DeleteNode id | DeleteEdge id => is_u64 id
  | CreateEdge id src dst edge_type properties => is_u64 id ∧ is_u64 src ∧ is_u64 dst ∧ utf8_valid edge_type = true ∧ Forall property_ok properties
  | SetNodeProperty id key value | SetEdgeProperty id key value => is_u64 id ∧ utf8_valid key = true ∧ Value.ok value
  | RemoveNodeProperty id name | RemoveEdgeProperty id name | AddNodeLabel id name | RemoveNodeLabel id name => is_u64 id ∧ utf8_valid name = true
  | InsertTriple triple | DeleteTriple triple => triple_ok triple
  end.

Definition key_ok (k : CatalogKey) : Prop :=
  match k with
  | KeySchema name | KeyNodeType name | KeyEdgeType name | KeyGraphType name | KeyGraphBinding name | KeyConstraint name | KeyIndexName name | KeyProcedure name => utf8_valid name = true
  | KeyIndex graph index => graph_ok graph ∧ index_key_ok index
  | KeyStoredConfig => True
  | KeyLabelIndex graph label key => graph_ok graph ∧ utf8_valid label = true ∧ utf8_valid key = true
  end.

(** The catalog reads back the payload it writes for [record]. *)
Definition catalog_reads_back (record : CatalogRecord) : Prop :=
  is_byte (record_kind record) ∧ is_byte (record_flags record) ∧ (∀ parts, encode_payload record = Ok parts → parts_in parts) ∧
  ∀ parts b, encode_payload record = Ok parts → parts_bytes parts = Some b → len b ≤ MAX_CATALOG_RECORD_PAYLOAD → decode_catalog (record_kind record) b = Ok (Some record).

Definition standalone_ok (op : StandaloneOp CatalogRecord) : Prop :=
  match op with
  | CreateGraph name | DropGraph name | RdfGraph (RdfCreate name) => utf8_valid name = true
  | PutCatalog record => catalog_reads_back record
  | DropCatalog key => key_ok key
  | RdfGraph (RdfDrop target) | RdfGraph (RdfClear target) => target_ok target
  | RdfGraph (RdfCopy source target) | RdfGraph (RdfMove source target) | RdfGraph (RdfAdd source target) => graph_ok source ∧ graph_ok target
  end.

Definition record_ok (r : LogRecord) : Prop :=
  match r with
  | Group g => is_u64 (epoch g) ∧ is_u64 (timestamp_ms g)
  | DataRecord graph op => graph_ok graph ∧ op_ok op
  | Standalone op => standalone_ok op
  end.

Lemma gets_decode {C A} (g : Get A) parts a b : gets g parts a → parts_bytes parts = Some b → len b < 2 ^ 64 → decode (C:=C) g b = Ok a.
Proof. intros Hg Hb Hl. unfold decode. specialize (Hg b Hb Hl []). rewrite app_nil_r in Hg. by rewrite Hg. Qed.

(** What [encode_data] writes behind the graph. *)
Definition op_parts (op : DataOp) : list part :=
  match op with
  | CreateNode id labels properties => put_u64 id ++ put_labels labels ++ put_properties properties
  | DeleteNode id | DeleteEdge id => put_u64 id
  | CreateEdge id src dst edge_type properties => put_u64 id ++ put_u64 src ++ put_u64 dst ++ put_text edge_type ++ put_properties properties
  | SetNodeProperty id key value | SetEdgeProperty id key value => put_u64 id ++ put_text key ++ put_value value
  | RemoveNodeProperty id name | RemoveEdgeProperty id name | AddNodeLabel id name | RemoveNodeLabel id name => put_u64 id ++ put_text name
  | InsertTriple triple | DeleteTriple triple => put_triple triple
  end.

Lemma encode_data_parts graph op : encode_data graph op = put_graph graph ++ op_parts op.
Proof. by destruct op. Qed.

Lemma decode_op_ok (g : Get DataOp) graph op b : graph_ok graph → gets g (op_parts op) op → parts_bytes (encode_data graph op) = Some b → len b < 2 ^ 64 →
  decode_op g b = Ok (Some (DataRecord graph op)).
Proof.
  intros Hg Hop Hb Hl. unfold decode_op. rewrite encode_data_parts in Hb.
  rewrite (gets_decode _ _ (DataRecord graph op) b (gets_bind _ _ _ _ _ _ (gets_graph graph Hg) (gets_map g (DataRecord graph) _ op Hop)) Hb Hl). done.
Qed.

Lemma data_decodes graph op required b : graph_ok graph → op_ok op → check_list_slots op = Ok tt → parts_bytes (encode_data graph op) = Some b → len b < 2 ^ 64 →
  decode_payload (data_kind op) required b = Ok (Some (DataRecord graph op)).
Proof.
  intros Hg Hop Hc Hb Hl. destruct op as [id labels properties|id|id src dst edge_type properties|id|id k v|id k|id k v|id k|id k|id k|t|t]; cbn [data_kind op_ok check_list_slots] in *;
    pick_kind; (apply decode_op_ok; [exact Hg| |exact Hb|exact Hl]); clear Hb Hl; cbn [op_parts]; destruct_and?.
  { destruct (check_labels labels) as [[]|] eqn:Hlab; [|done]. cbn in Hc. fields. }
  all: fields.
Qed.

Lemma key_decodes k required b : key_ok k → parts_bytes (put_key k) = Some b → len b < 2 ^ 64 → decode_catalog_key required (key_kind k :: b) = Ok (Some k).
Proof.
  intros Hk Hb Hl. assert (Hname : ∀ name, put_key k = put_text name → utf8_valid name = true → decode (C:=catalog_error) get_text b = Ok name).
  { intros name En Hu. rewrite En in Hb. exact (gets_decode _ _ _ _ (gets_text name Hu) Hb Hl). }
  destruct k as [n|n|n|n|n|n|graph index|n|n| |graph label property]; cbn [key_ok put_key key_kind] in *; unfold decode_catalog_key, split_catalog_kind; cbn [Z.eqb Pos.eqb mbind result_bind];
    try (rewrite (Hname n eq_refl Hk); reflexivity).
  - destruct Hk as [Hg Hi]. assert (Hd : gets (graph ← get_graph; index ← get_index_key; mret (KeyIndex graph index)) (put_graph graph ++ put_index_key index) (KeyIndex graph index)) by fields.
    by rewrite (gets_decode _ _ _ _ Hd Hb Hl).
  - by injection Hb as <-.
  - destruct Hk as (Hg & Hlab & Hp).
    assert (Hd : gets (graph ← get_graph; label ← get_text; property ← get_text; mret (KeyLabelIndex graph label property)) (put_graph graph ++ put_text label ++ put_text property) (KeyLabelIndex graph label property)) by fields.
    by rewrite (gets_decode _ _ _ _ Hd Hb Hl).
Qed.

Lemma catalog_bounds : 0 ≤ max_payload CATALOG_FRAMING ≤ u32_max.
Proof. vm_compute. done. Qed.
Lemma log_bounds : 0 ≤ max_payload LOG_FRAMING ≤ u32_max.
Proof. vm_compute. done. Qed.

Lemma drop_header kind flags payload : drop RECORD_HEADER_BYTES (frame kind flags payload) = payload.
Proof. unfold frame, RECORD_HEADER_BYTES. cbn [drop]. rewrite drop_app_ge, to_le_length, drop_0 by (rewrite to_le_length; lia). done. Qed.

(** The frame of a catalog record. *)
Lemma catalog_framed record out x out' : encode_catalog_framed record out = (x, out') →
  match x with
  | Err _ => out' = out
  | Ok _ => ∃ parts b, encode_payload record = Ok parts ∧ parts_bytes parts = Some b ∧ out' = out ++ frame (record_kind record) (record_flags record) b ∧
      len b ≤ MAX_CATALOG_RECORD_PAYLOAD ∧ record_kind record ≠ 0 ∧ Z.land (record_flags record) 254 = 0
  end.
Proof.
  intros He. unfold encode_catalog_framed in He. apply encode_framed_spec in He; [|exact catalog_bounds|].
  - destruct x as [u|e]; [|exact He]. destruct He as (Hk & Hfl & payload & w' & -> & Hl & Hf & Hw). destruct (PayloadWriter.check_room _ _) as [[v|e] w1] eqn:Hc; [|done]. apply check_room_same in Hc as (_ & _ & Hc). destruct v. rewrite (Hc eq_refl) in Hf.
    destruct (encode_payload record) as [parts|e]; [|done]. apply write_parts_ok in Hf as (b & Hb & Hwb & _); [|exact (proj1 catalog_bounds)]. pose proof (wrote_same _ _ _ _ Hw Hwb) as ->.
    exists parts, b. split_and!; done.
  - intros w r w' Hr. destruct (PayloadWriter.check_room _ w) as [[u|e] w1] eqn:Hc; apply check_room_same in Hc as (Hc1 & Hc2 & Hc3).
    + destruct u. rewrite (Hc3 eq_refl). destruct (encode_payload record) as [parts|e]; [apply write_parts_appends; done|]. intros [= <- <-]. split; [exists []; by rewrite app_nil_r|done].
    + intros [= <- <-]. split; [exists []; by rewrite app_nil_r, Hc1|done].
Qed.

(** ** A record's payload *)

Lemma written_decodes {A} (g : Get A) parts a w w' : gets g parts a → 0 ≤ PayloadWriter.room w < 2 ^ 64 →
  PayloadWriter.write_parts (C:=catalog_error) parts w = (Ok tt, w') → ∃ b, wrote w w' b ∧ decode (C:=catalog_error) g b = Ok a.
Proof.
  intros Hg Hr Hp. apply write_parts_ok in Hp as (b & Hb & Hw & _); [|lia]. exists b. split; [done|]. eapply gets_decode; [exact Hg|exact Hb|]. destruct Hw as (_ & _ & ?). lia.
Qed.

Lemma catalog_record_ok record w w' : encode_catalog_record record w = (Ok tt, w') → catalog_reads_back record →
  ∃ b, wrote w w' b ∧ ∀ required, decode_catalog_record required b = Ok (Some record).
Proof.
  intros He Hok. unfold encode_catalog_record in He. destruct (encode_catalog_framed record []) as [[[]|e] framed] eqn:Ef; [|done]. destruct (catalog_framed _ _ _ _ Ef) as (parts & b & Hp & Hb & Hd & Hl & Hk & _).
  destruct (PayloadWriter.write [record_kind record] w) as [[[]|e] w1] eqn:Ew; [|done]. apply write_ok in Ew as [Hw1 _]. apply write_ok in He as [Hw2 _]. rewrite Hd in Hw2. cbn [app] in Hw2. rewrite drop_header in Hw2.
  exists ([record_kind record] ++ b). split; [by eapply wrote_trans|]. intros required. unfold decode_catalog_record, split_catalog_kind. cbn [app mbind result_bind].
  rewrite (proj2 (Z.eqb_neq _ _)) by done. cbn [mbind result_bind]. rewrite (proj2 (Z.ltb_ge _ _)) by done. destruct Hok as (_ & _ & _ & Hok). by rewrite (Hok parts b Hp Hb Hl).
Qed.

Lemma catalog_key_ok key w w' : 0 ≤ PayloadWriter.room w < 2 ^ 64 → encode_catalog_key key w = (Ok tt, w') → key_ok key →
  ∃ b, wrote w w' b ∧ ∀ required, decode_catalog_key required b = Ok (Some key).
Proof.
  intros Hr He Hok. unfold encode_catalog_key in He. destruct (PayloadWriter.write [key_kind key] w) as [[[]|e] w1] eqn:Ew; [|done]. apply write_ok in Ew as [Hw1 _].
  assert (Hr1 : 0 ≤ PayloadWriter.room w1) by (destruct Hw1 as (_ & -> & ?); lia). apply write_parts_ok in He as (b & Hb & Hw2 & _); [|done].
  exists ([key_kind key] ++ b). split; [by eapply wrote_trans|]. intros required. apply (key_decodes key required b Hok Hb).
  destruct Hw1 as (_ & ? & ?), Hw2 as (_ & _ & ?). unfold len in *. cbn [length] in *. lia.
Qed.

(** The outcome for a record read by [g]. *)
Lemma written_record {A} (g : Get A) parts a w w' op : gets g parts a → 0 ≤ PayloadWriter.room w < 2 ^ 64 → PayloadWriter.write_parts (C:=catalog_error) parts w = (Ok tt, w') →
  (∀ required b, decode (C:=catalog_error) g b = Ok a → decode_payload (standalone_kind op) required b = Ok (Some (Standalone op))) →
  ∃ b, wrote w w' b ∧ ∀ required, decode_payload (standalone_kind op) required b = Ok (Some (Standalone op)).
Proof. intros Hg Hr Hw Hd. destruct (written_decodes g parts a w w' Hg Hr Hw) as (b & Hb & Hdb). exists b. split; [done|]. intros required. by apply Hd. Qed.

Lemma encode_standalone_ok op w w' : 0 ≤ PayloadWriter.room w < 2 ^ 64 → encode_standalone op w = (Ok tt, w') → standalone_ok op →
  ∃ b, wrote w w' b ∧ ∀ required, decode_payload (standalone_kind op) required b = Ok (Some (Standalone op)).
Proof.
  intros Hr He Hok. destruct op as [name|name|record|key|[name|target|target|s t|s t|s t]]; cbn [encode_standalone standalone_ok] in *.
  3:{ destruct (catalog_record_ok record w w' He Hok) as (b & Hw & Hd). exists b. split; [done|]. intros required. cbn [standalone_kind]. pick_kind. by rewrite Hd. }
  3:{ destruct (catalog_key_ok key w w' Hr He Hok) as (b & Hw & Hd). exists b. split; [done|]. intros required. cbn [standalone_kind]. pick_kind. by rewrite Hd. }
  1-2: apply (written_record get_text (put_text name) name); [fields|exact Hr|exact He|].
  3: apply (written_record (name ← get_text; mret (RdfCreate name)) (put_text name) (RdfCreate name)); [fields|exact Hr|exact He|].
  4: apply (written_record (target ← get_target; mret (RdfDrop target)) (put_target target) (RdfDrop target)); [fields|exact Hr|exact He|].
  5: apply (written_record (target ← get_target; mret (RdfClear target)) (put_target target) (RdfClear target)); [fields|exact Hr|exact He|].
  6-8: destruct Hok as [Hs Ht].
  6: apply (written_record (get_ends RdfCopy) (put_graph s ++ put_graph t) (RdfCopy s t)); [unfold get_ends; fields|exact Hr|exact He|].
  7: apply (written_record (get_ends RdfMove) (put_graph s ++ put_graph t) (RdfMove s t)); [unfold get_ends; fields|exact Hr|exact He|].
  8: apply (written_record (get_ends RdfAdd) (put_graph s ++ put_graph t) (RdfAdd s t)); [unfold get_ends; fields|exact Hr|exact He|].
  all: intros required b Hd; cbn [standalone_kind rdf_kind]; pick_kind; unfold decode_rdf; by rewrite Hd.
Qed.

Lemma record_written r w w' : 0 ≤ PayloadWriter.room w < 2 ^ 64 → encode_record r w = (Ok tt, w') → record_ok r →
  ∃ b, wrote w w' b ∧ ∀ required, decode_payload (kind r) required b = Ok (Some r).
Proof.
  intros Hr He Hok. unfold encode_record in He. destruct (PayloadWriter.check_room _ w) as [[u|e] w1] eqn:Hc; [|done]. apply check_room_same in Hc as (_ & _ & Hc). destruct u. rewrite (Hc eq_refl) in He. clear Hc w1.
  destruct r as [g|graph op|op]; cbn [record_ok kind] in *.
  - destruct Hok as [H1 H2]. destruct (written_decodes get_begin _ g w w' (gets_begin g H1 H2) Hr He) as (b & Hw & Hd). exists b. split; [done|]. intros required. pick_kind. by rewrite Hd.
  - destruct Hok as [Hg Hop]. destruct (check_list_slots op) as [[]|[[x y] z]] eqn:Hs; [|done]. apply write_parts_ok in He as (b & Hb & Hw & _); [|lia]. exists b. split; [done|]. intros required.
    apply data_decodes; [done|done|done|done|]. destruct Hw as (_ & _ & ?). lia.
  - exact (encode_standalone_ok op w w' Hr He Hok).
Qed.

(** Whatever comes of a record, its writer only appends. *)
Lemma write_appends bytes : appends (PayloadWriter.write (C:=catalog_error) bytes).
Proof.
  intros w r w' Hr Hw. split; [destruct (write_some _ _ _ _ Hr Hw) as (b & Hb & _); by exists b|]. intros ->. apply write_ok in Hw as [Hw _]. by exists bytes.
Qed.

Lemma refuses_appends (e : record_error catalog_error) : appends (λ w, (Err e, w)).
Proof. intros w r w' Hr [= <- <-]. split; [exists []; by rewrite app_nil_r|done]. Qed.

Lemma appends_seq (f g : PayloadWriter.t → result (record_error catalog_error) unit * PayloadWriter.t) : appends f → appends g →
  appends (λ w, match f w with (Err e, w) => (Err e, w) | (Ok _, w) => g w end).
Proof.
  intros Hf Hg w r w' Hr. destruct (f w) as [[[]|e] w1] eqn:Ef; destruct (Hf _ _ _ Hr Ef) as [[b1 Hb1] Hok1]; [|intros [= <- <-]; split; [by exists b1|done]].
  destruct (Hok1 eq_refl) as [b Hw1]. intros Eg. pose proof Hw1 as (Ho & Hro & Hle). destruct (Hg w1 r w' ltac:(lia) Eg) as [[b2 Hb2] Hok2]. split; [exists (b ++ b2); by rewrite Hb2, Ho, app_assoc|].
  intros Hrr. destruct (Hok2 Hrr) as [b3 Hw3]. exists (b ++ b3). by eapply wrote_trans.
Qed.

Lemma check_room_appends n : appends (PayloadWriter.check_room (C:=catalog_error) n).
Proof.
  intros w r w' Hr (H1 & H2 & H3)%check_room_same. split; [exists []; by rewrite app_nil_r, H1|]. intros ->. exists []. rewrite (H3 eq_refl). by apply wrote_nil.
Qed.

Lemma encode_record_appends r : appends (encode_record r).
Proof.
  unfold encode_record. apply (appends_seq _ _ (check_room_appends _)). destruct r as [g|graph op|op]; [apply write_parts_appends| |].
  { destruct (check_list_slots op) as [u|[[x y] z]]; [apply write_parts_appends|apply refuses_appends]. }
  destruct op as [name|name|record|key|[name|target|target|s t|s t|s t]]; cbn [encode_standalone]; try apply write_parts_appends.
  - unfold encode_catalog_record. destruct (encode_catalog_framed record []) as [[u|e] framed]; [|apply refuses_appends]. apply appends_seq; apply write_appends.
  - unfold encode_catalog_key. apply appends_seq; [apply write_appends|apply write_parts_appends].
Qed.

(** The frame of a record that is written. *)
Lemma encode_framed_ok r out r' out' : encode_framed r out = (r', out') →
  match r' with
  | Err _ => out' = out
  | Ok _ => ∃ payload, out' = out ++ frame (kind r) (flags r) payload ∧ len payload ≤ MAX_RECORD_PAYLOAD ∧ Z.land (flags r) 254 = 0 ∧ kind r ≠ 0 ∧
      (record_ok r → ∀ required, decode_payload (kind r) required payload = Ok (Some r))
  end.
Proof.
  intros He. apply encode_framed_spec in He; [|exact log_bounds|apply encode_record_appends]. destruct r' as [u|e]; [|exact He]. destruct He as (Hk & Hf & payload & w' & -> & Hl & Hw & Hwr).
  exists payload. split_and!; [done|exact Hl|done|done|]. intros Hok. apply record_written in Hw as (b & Hb & Hd); [|cbn; unfold MAX_RECORD_PAYLOAD; lia|done]. by rewrite (wrote_same _ _ _ _ Hwr Hb).
Qed.
(** ** What is written is bytes *)

Lemma in_app p q : parts_in p → parts_in q → parts_in (p ++ q).
Proof. apply Forall_app_2. Qed.

Ltac each_part := repeat match goal with |- parts_in (_ ++ _) => apply in_app end.

Lemma in_piece b p : Forall is_byte b → parts_in p → parts_in (Piece b :: p).
Proof. by constructor. Qed.

Lemma in_none : parts_in [].
Proof. constructor. Qed.

Lemma in_number n : parts_in (put_u64 n).
Proof. apply in_piece; [apply put_number_bytes|apply in_none]. Qed.

Lemma in_variant n : parts_in (put_variant n).
Proof. apply in_piece; [apply put_variant_bytes|apply in_none]. Qed.

Lemma in_text s : utf8_valid s = true → parts_in (put_text s).
Proof. intros Hs. apply in_piece; [apply put_number_bytes|]. apply in_piece; [by apply utf8_bytes|apply in_none]. Qed.

Lemma in_option {A} (f : A → list part) o : (∀ a, o = Some a → parts_in (f a)) → parts_in (put_option f o).
Proof. intros Hf. destruct o; (apply in_piece; [constructor; [unfold is_byte; lia|constructor]|]); [by apply Hf|apply in_none]. Qed.

Lemma in_graph g : graph_ok g → parts_in (put_graph g).
Proof. intros Hg. apply in_option. intros s Hs. by apply in_text, Hg. Qed.

Lemma in_list {A} (f : A → list part) l : Forall (λ a, parts_in (f a)) l → parts_in (put_list f l).
Proof. intros Hl. apply in_piece; [apply put_number_bytes|]. induction Hl; [apply in_none|]. by apply in_app. Qed.

Lemma in_value v : Value.ok v → parts_in (put_value v).
Proof.
  intros Hv. unfold put_value, encode_value. destruct (encode_nested v 0) as [b|e] eqn:E; [|by constructor].
  apply in_piece; [apply put_number_bytes|]. apply in_piece; [by eapply encode_value_bytes|apply in_none].
Qed.

Lemma in_labels l : Forall (λ s, utf8_valid s = true) l → parts_in (put_labels l).
Proof. intros Hl. apply in_list. eapply Forall_impl; [exact Hl|]. apply in_text. Qed.

Lemma in_properties l : Forall property_ok l → parts_in (put_properties l).
Proof. intros Hl. apply in_list. eapply Forall_impl; [exact Hl|]. intros [k v] [Hk Hv]. apply in_app; [by apply in_text|by apply in_value]. Qed.

Lemma in_term t : term_ok t → parts_in (LogRecord.put_term t).
Proof.
  destruct t as [s|s|v d l]; cbn [term_ok LogRecord.put_term].
  1-2: intros Hs; apply in_app; [apply in_variant|by apply in_text].
  intros (Hv & Hd & Hl). each_part; [apply in_variant|by apply in_text|by apply in_text|]. apply in_option. intros s Hs. by apply in_text, Hl.
Qed.

Lemma in_triple t : triple_ok t → parts_in (put_triple t).
Proof. intros (Hs & Hp & Ho). unfold put_triple. each_part; by apply in_term. Qed.

Lemma in_target t : target_ok t → parts_in (put_target t).
Proof. destruct t; intros Ht; try apply in_variant. apply in_app; [apply in_variant|by apply in_text]. Qed.

Lemma in_index_key k : index_key_ok k → parts_in (put_index_key k).
Proof. destruct k; cbn [index_key_ok put_index_key]; intros Hk; destruct_and?; each_part; first [apply in_variant|by apply in_text]. Qed.

Lemma in_key k : key_ok k → parts_in (put_key k).
Proof.
  destruct k; cbn [key_ok put_key]; intros Hk; destruct_and?; try (by apply in_text); try apply in_none; each_part;
    first [by apply in_graph|by apply in_text|by apply in_index_key].
Qed.

Lemma in_op op : op_ok op → parts_in (op_parts op).
Proof.
  destruct op; cbn [op_ok op_parts]; intros Ho; try (by apply in_triple); destruct_and?; each_part;
    first [apply in_number|by apply in_text|by apply in_value|by apply in_labels|by apply in_properties].
Qed.

Lemma in_data graph op : graph_ok graph → op_ok op → parts_in (encode_data graph op).
Proof. intros Hg Ho. rewrite encode_data_parts. apply in_app; [by apply in_graph|by apply in_op]. Qed.

(** A payload's writer that writes bytes. *)
Definition writes_bytes (f : PayloadWriter.t → result (record_error catalog_error) unit * PayloadWriter.t) : Prop :=
  ∀ w, Forall is_byte (PayloadWriter.out w) → Forall is_byte (PayloadWriter.out (f w).2).

Lemma write_bytes b : Forall is_byte b → writes_bytes (PayloadWriter.write b).
Proof. intros Hb w Hw. unfold PayloadWriter.write. destruct (_ <? _); cbn; [done|]. by apply Forall_app. Qed.

Lemma check_room_bytes n : writes_bytes (PayloadWriter.check_room n).
Proof. intros w Hw. unfold PayloadWriter.check_room. by destruct (_ <? _). Qed.

Lemma refuse_bytes e : writes_bytes (λ w, (Err e, w)).
Proof. by intros w Hw. Qed.

Lemma seq_bytes f g : writes_bytes f → writes_bytes g → writes_bytes (λ w, match f w with (Err e, w) => (Err e, w) | (Ok _, w) => g w end).
Proof. intros Hf Hg w Hw. specialize (Hf w Hw). destruct (f w) as [[u|e] w1]; [by apply Hg|done]. Qed.

Lemma write_parts_bytes parts : parts_in parts → writes_bytes (PayloadWriter.write_parts parts).
Proof.
  induction 1 as [|[b|e] parts Hb _ IH]; intros w Hw; cbn [PayloadWriter.write_parts]; [done| |done].
  pose proof (write_bytes b Hb w Hw) as Hw1. destruct (PayloadWriter.write b w) as [[u|e] w1]; [by apply IH|done].
Qed.

Lemma framed_bytes framing kind flags out f : is_byte kind → is_byte flags → writes_bytes f → Forall is_byte out → Forall is_byte (encode_framed_record framing kind flags out f).2.
Proof.
  intros Hk Hfl Hf Ho. unfold encode_framed_record. destruct (_ || _); [done|]. set (w0 := PayloadWriter.mk _ _ _).
  assert (Hw : Forall is_byte (PayloadWriter.out (f w0).2)). { apply Hf. cbn. apply Forall_app. split; [done|]. repeat (apply Forall_cons_2; [try done; unfold is_byte; lia|]). constructor. }
  destruct (f w0) as [[u|e] w']; cbn [snd] in Hw; [|by apply Forall_take]. destruct (_ <? _); cbn [snd]; [by apply Forall_take|].
  rewrite !Forall_app. split_and!; [by apply Forall_take|apply to_le_bytes|by apply Forall_drop].
Qed.

Lemma catalog_record_bytes record : catalog_reads_back record → writes_bytes (encode_catalog_record record).
Proof.
  intros (Hk & Hfl & Hp & _). unfold encode_catalog_record. assert (Hf : Forall is_byte (encode_catalog_framed record []).2).
  { apply framed_bytes; [done|done| |constructor]. apply seq_bytes; [apply check_room_bytes|]. destruct (encode_payload record) as [parts|e]; [by apply write_parts_bytes, Hp|apply refuse_bytes]. }
  destruct (encode_catalog_framed record []) as [[u|e] framed]; [|apply refuse_bytes]. apply seq_bytes; apply write_bytes; [apply Forall_cons_2; [done|constructor]|by apply Forall_drop].
Qed.

Lemma key_kind_byte k : is_byte (key_kind k).
Proof. destruct k; cbn; unfold is_byte; lia. Qed.

Lemma standalone_bytes op : standalone_ok op → writes_bytes (encode_standalone op).
Proof.
  destruct op as [name|name|record|key|[name|target|target|s t|s t|s t]]; cbn [standalone_ok encode_standalone]; intros Hok.
  3: by apply catalog_record_bytes.
  3: apply seq_bytes; [apply write_bytes; constructor; [apply key_kind_byte|constructor]|by apply write_parts_bytes, in_key].
  1-3: by apply write_parts_bytes, in_text.
  1-2: by apply write_parts_bytes, in_target.
  all: destruct Hok; apply write_parts_bytes, in_app; by apply in_graph.
Qed.

Lemma log_kind_byte r : is_byte (kind r).
Proof. destruct r as [g|graph op|op]; [|destruct op|destruct op as [| | | |[]]]; cbv; split; congruence. Qed.

Lemma flags_byte r : record_ok r → is_byte (flags r).
Proof.
  destruct r as [g|graph op|[name|name|record|key|op]]; cbn [flags record_ok standalone_ok]; intros Hok; try (unfold is_byte, RECORD_REQUIRED; lia); [apply Hok|].
  destruct key; cbn; unfold is_byte, RECORD_REQUIRED; lia.
Qed.

Lemma encode_framed_bytes r out : record_ok r → Forall is_byte out → Forall is_byte (encode_framed r out).2.
Proof.
  intros Hok Ho. apply framed_bytes; [apply log_kind_byte|by apply flags_byte| |done]. apply seq_bytes; [apply check_room_bytes|].
  destruct r as [g|graph op|op]; cbn [record_ok] in Hok.
  - apply write_parts_bytes. unfold put_begin. each_part; [apply in_number|apply in_number|apply in_variant].
  - destruct (check_list_slots op) as [u|[[x y] z]]; [|apply refuse_bytes]. destruct Hok. by apply write_parts_bytes, in_data.
  - by apply standalone_bytes.
Qed.
End records.

(** ** Reading frames *)

Section reading.
Context {T E A S : Type} (framing : RecordFraming) (Hmax : max_payload framing ≤ u32_max).
Context (decode_ : Z → bool → list Z → result E (option T)) (apply_ : T → S → result A unit * S).

Lemma frame_length kind flags payload : length (frame kind flags payload) = (RECORD_HEADER_BYTES + length payload)%nat.
Proof. unfold frame. cbn [length]. rewrite length_app, to_le_length. done. Qed.

Definition is_required (flags : Z) : bool := negb (Z.land flags RECORD_REQUIRED =? 0).

(** One round on a frame. *)
Lemma read_frame rounds index offset kind flags payload rest s : Z.land (Z.land flags 15) 254 = 0 → kind ≠ 0 → len payload ≤ max_payload framing →
  (length (frame kind flags payload ++ rest) ≤ rounds)%nat →
  ∃ rounds', (length rest ≤ rounds')%nat ∧
  read_rounds framing decode_ apply_ rounds index offset (frame kind flags payload ++ rest) s =
    let go_on s := read_rounds framing decode_ apply_ rounds' (Datatypes.S index) (wrap64 (offset + 6 + len payload)) rest s in
    match decode_ kind (is_required flags) payload with
    | Err e => (Err (Damaged index offset (NotDecoded kind e)), s)
    | Ok (Some record) => match apply_ record s with (Err e, s) => (Err (ApplyFailed e), s) | (Ok _, s) => go_on s end
    | Ok None => if is_required flags then (Err (Damaged index offset (UnknownRequired kind)), s) else go_on s
    end.
Proof using Hmax.
  intros Hf Hk Hl Hr. rewrite length_app, frame_length in Hr. destruct rounds as [|rounds]; [unfold RECORD_HEADER_BYTES in Hr; lia|]. exists rounds. split; [unfold RECORD_HEADER_BYTES in Hr; lia|].
  assert (Hlen : 0 ≤ len payload < 256 ^ Z.of_nat 4) by (unfold len, u32_max in *; lia). pose proof (from_to_le 4 (len payload) Hlen) as Hfl.
  unfold frame. remember (to_le 4 (len payload)) as l4 eqn:El4. assert (H4 : length l4 = 4%nat) by (rewrite El4; apply to_le_length). clear El4.
  destruct l4 as [|a [|b [|c [|d [|]]]]]; try done. cbn [app read_rounds]. unfold RECORD_HEADER_BYTES. cbn [take drop length nth Nat.ltb Nat.leb]. rewrite !take_0, !drop_0. cbn [length Nat.ltb Nat.leb].
  change (Z.lxor 255 KNOWN_FLAGS) with 254. change INCOMPATIBLE_FLAGS with 15. rewrite Hf, Hfl. cbn [Z.eqb negb]. rewrite (proj2 (Z.eqb_neq _ _)) by done. rewrite (proj2 (Z.ltb_ge _ _)) by done.
  replace (Z.to_nat (len payload)) with (length payload) by (unfold len; lia). rewrite take_app_length, drop_app_length, (proj2 (Z.ltb_ge _ _)) by lia. reflexivity.
Qed.

(** The state after the records [l], and the error that stops them. *)
Fixpoint apply_all (l : list T) (s : S) : result A unit * S :=
  match l with
  | [] => (Ok tt, s)
  | x :: l => match apply_ x s with (Ok _, s) => apply_all l s | (Err e, s) => (Err e, s) end
  end.

(** A frame that decodes to [x], or one the reader skips. *)
Definition frame_of (bytes : list Z) (x : option T) : Prop :=
  ∃ kind flags payload, bytes = frame kind flags payload ∧ Z.land (Z.land flags 15) 254 = 0 ∧ kind ≠ 0 ∧ len payload ≤ max_payload framing ∧
    decode_ kind (is_required flags) payload = Ok x ∧ (x = None → is_required flags = false).

Definition frames_of (bytes : list Z) (l : list (option T)) : Prop := ∃ fs, Forall2 frame_of fs l ∧ bytes = concat fs.

(** Frames are read in order; what follows them is read at its place, as long
    as the offsets stay below 2^64. *)
Lemma read_frames_app l bytes rest rounds index offset s : frames_of bytes l → (length (bytes ++ rest) ≤ rounds)%nat →
  ∃ rounds' offset', (length rest ≤ rounds')%nat ∧ (0 ≤ offset → offset + len bytes < 2 ^ 64 → offset' = offset + len bytes) ∧
  read_rounds framing decode_ apply_ rounds index offset (bytes ++ rest) s =
    match apply_all (omap id l) s with
    | (Err e, s) => (Err (ApplyFailed e), s)
    | (Ok _, s) => read_rounds framing decode_ apply_ rounds' (index + length l) offset' rest s
    end.
Proof using Hmax.
  intros (fs & Hfs & ->). revert rounds index offset s. induction Hfs as [|f x fs l (kind & flags & payload & -> & Hf & Hk & Hl & Hd & Hn) _ IH]; intros rounds index offset s Hr; cbn [concat app omap list_omap].
  { exists rounds, offset. split; [exact Hr|]. split; [unfold len; cbn [length]; lia|]. cbn. by rewrite Nat.add_0_r. }
  cbn [concat] in Hr. rewrite <- app_assoc in Hr |- *. destruct (read_frame rounds index offset kind flags payload (concat fs ++ rest) s Hf Hk Hl Hr) as (rounds1 & Hr1 & ->). cbn zeta. rewrite Hd.
  assert (Hlen : len (frame kind flags payload ++ concat fs) = 6 + len payload + len (concat fs)) by (unfold len; rewrite length_app, frame_length; unfold RECORD_HEADER_BYTES; lia). rewrite Hlen.
  assert (Hgo : ∀ s, ∃ rounds' offset', (length rest ≤ rounds')%nat ∧ (0 ≤ offset → offset + (6 + len payload + len (concat fs)) < 2 ^ 64 → offset' = offset + (6 + len payload + len (concat fs))) ∧
    read_rounds framing decode_ apply_ rounds1 (Datatypes.S index) (wrap64 (offset + 6 + len payload)) (concat fs ++ rest) s =
    match apply_all (omap id l) s with (Err e, s) => (Err (ApplyFailed e), s) | (Ok _, s) => read_rounds framing decode_ apply_ rounds' (index + length (x :: l)) offset' rest s end).
  { intros s'. destruct (IH rounds1 (Datatypes.S index) (wrap64 (offset + 6 + len payload)) s' Hr1) as (rounds2 & offset2 & Hr2 & Ho2 & Heq). exists rounds2, offset2. split; [exact Hr2|].
    split; [|rewrite Heq; cbn [length]; by rewrite Nat.add_succ_r]. intros H0 Hlt. rewrite wrap64_small in Ho2 by (unfold is_u64, len in *; lia). rewrite Ho2; unfold len in *; lia. }
  destruct x as [x|]; cbn [id apply_all].
  - destruct (apply_ x s) as [[u|e] s1]; [apply Hgo|]. by exists (length rest), (offset + (6 + len payload + len (concat fs))).
  - rewrite (Hn eq_refl). apply Hgo.
Qed.
End reading.

(** ** Log records: what is written is what replay reads *)
Open Scope Z_scope.

Section log.
Context `{Bincode} `{CatalogCodec}.

(** Records written one behind the other. *)
Fixpoint encode_all (rs : list LogRecord) (out : list Z) : result (record_error catalog_error) unit * list Z :=
  match rs with
  | [] => (Ok tt, out)
  | r :: rs => match encode_framed r out with (Ok _, out) => encode_all rs out | (Err e, out) => (Err e, out) end
  end.

Lemma collect_all rs l : apply_all collect rs l = (Ok tt, l ++ rs).
Proof. revert l. induction rs as [|r rs IH]; intros l; cbn [apply_all collect]; [by rewrite app_nil_r|]. by rewrite IH, <- app_assoc. Qed.

(** The flags a record is written with are ones a reader takes. *)
Lemma flags_known f : Z.land f 254 = 0 → Z.land (Z.land f 15) 254 = 0.
Proof. intros Hf. rewrite (Z.land_comm f 15), <- Z.land_assoc, Hf. apply Z.land_0_r. Qed.

Lemma encode_all_frames rs out out' : Forall record_ok rs → encode_all rs out = (Ok tt, out') →
  ∃ bytes, out' = out ++ bytes ∧ frames_of LOG_FRAMING decode_payload bytes (map Some rs).
Proof.
  revert out. induction rs as [|r rs IH]; intros out Hok; cbn [encode_all].
  { intros [= <-]. exists []. rewrite app_nil_r. split; [done|]. exists []. by split; [constructor|]. }
  inversion_clear Hok as [|? ? Hr Hrs]. destruct (encode_framed r out) as [[u|e] out1] eqn:He; [|done]. intros Hall. apply encode_framed_ok in He as (payload & -> & Hl & Hf & Hk & Hd).
  destruct (IH _ Hrs Hall) as (bytes & -> & fs & Hfs & ->). exists (frame (kind r) (flags r) payload ++ concat fs). rewrite app_assoc. split; [done|].
  exists (frame (kind r) (flags r) payload :: fs). split; [|done]. constructor; [|exact Hfs]. exists (kind r), (flags r), payload. split_and!; [done|by apply flags_known|done|exact Hl|by apply Hd|done].
Qed.

Lemma omap_Some {A} (l : list A) : omap id (map Some l) = l.
Proof. induction l as [|x l IH]; [done|]. cbn. f_equal. exact IH. Qed.

(** Frames read in full, then what follows. *)
Lemma read_all {A S} (apply : LogRecord → S → result A unit * S) l bytes rest s : frames_of LOG_FRAMING decode_payload bytes l →
  ∃ rounds offset, (length rest ≤ rounds)%nat ∧ (len bytes < 2 ^ 64 → offset = len bytes) ∧ read_log_records (bytes ++ rest) apply s =
    match apply_all apply (omap id l) s with
    | (Err e, s) => (Err (ApplyFailed e), s)
    | (Ok _, s) => read_rounds LOG_FRAMING decode_payload apply rounds (length l) offset rest s
    end.
Proof.
  intros Hb. unfold read_log_records, read_framed_records.
  destruct (read_frames_app LOG_FRAMING (proj2 log_bounds) decode_payload apply l bytes rest (length (bytes ++ rest)) 0 0 s Hb) as (rounds & offset & Hr & Ho & Heq); [done|].
  exists rounds, offset. split_and!; [done| |done]. intros Hl. by apply Ho.
Qed.

Lemma read_nothing {A S} (apply : LogRecord → S → result A unit * S) rounds index offset s : read_rounds LOG_FRAMING decode_payload apply rounds index offset [] s = (Ok tt, s).
Proof. by destruct rounds. Qed.

(** C18: Log records read back. Records of every kind, written one behind the
    other, are read back as they were written, each applied in order, up to
    the first whose application fails. *)
Theorem records_read_back {A S} (apply : LogRecord → S → result A unit * S) rs bytes s : Forall record_ok rs → encode_all rs [] = (Ok tt, bytes) →
  read_log_records bytes apply s = match apply_all apply rs s with (Ok _, s) => (Ok tt, s) | (Err e, s) => (Err (ApplyFailed e), s) end.
Proof.
  intros Hok He. destruct (encode_all_frames rs [] bytes Hok He) as (b & -> & Hb). cbn [app] in *. destruct (read_all apply _ _ [] s Hb) as (rounds & offset & _ & _ & Heq). rewrite app_nil_r in Heq. rewrite Heq, omap_Some.
  destruct (apply_all apply rs s) as [[u|e] s1]; [apply read_nothing|done].
Qed.

(** ** Records cut short *)

Definition cut_damage (n : nat) (f : list Z) : damage (log_decode_error catalog_error) :=
  if (n <? 6)%nat then HeaderCut n else PayloadCut (n - 6) (len f - 6).

Lemma read_cut {A S} (apply : LogRecord → S → result A unit * S) rounds index offset kind flags payload n s : Z.land (Z.land flags 15) 254 = 0 → kind ≠ 0 → len payload ≤ MAX_RECORD_PAYLOAD →
  let f := frame kind flags payload in (0 < n < length f)%nat → (n ≤ rounds)%nat →
  read_rounds LOG_FRAMING decode_payload apply rounds index offset (take n f) s = (Err (Damaged index offset (cut_damage n f)), s).
Proof.
  intros Hf Hk Hl f Hn Hr. assert (Hlen : 0 ≤ len payload < 256 ^ Z.of_nat 4) by (unfold len, MAX_RECORD_PAYLOAD in *; lia). pose proof (from_to_le 4 (len payload) Hlen) as Hfl.
  assert (Hff : length f = (6 + length payload)%nat) by apply frame_length. destruct rounds as [|rounds]; [lia|].
  unfold cut_damage. destruct (Nat.ltb_spec n 6) as [Hs|Hb].
  - assert (Htk : length (take n f) = n) by (rewrite length_take; lia). destruct (take n f) as [|x l] eqn:E; [simpl in Htk; lia|]. cbn [read_rounds]. rewrite <- E in *. rewrite length_take, Htk.
    rewrite (proj2 (Nat.ltb_lt _ _)) by (unfold RECORD_HEADER_BYTES; lia). unfold RECORD_HEADER_BYTES. by rewrite Nat.min_r by lia.
  - unfold f, frame. remember (to_le 4 (len payload)) as l4 eqn:El4. assert (H4 : length l4 = 4%nat) by (rewrite El4; apply to_le_length). clear El4.
    destruct l4 as [|a [|b [|c [|d [|]]]]]; try done. replace n with (6 + (n - 6))%nat at 1 by lia. set (m := (n - 6)%nat) in *. cbn [app Nat.add take read_rounds]. unfold RECORD_HEADER_BYTES.
    cbn [take drop length nth Nat.ltb Nat.leb]. rewrite !take_0, !drop_0. cbn [length Nat.ltb Nat.leb]. change (Z.lxor 255 KNOWN_FLAGS) with 254. change INCOMPATIBLE_FLAGS with 15.
    rewrite Hf, Hfl. cbn [Z.eqb negb]. rewrite (proj2 (Z.eqb_neq _ _)), (proj2 (Z.ltb_ge _ _)) by done. assert (Hm : length (take (Z.to_nat (len payload)) (take m payload)) = m) by (rewrite !length_take; unfold len; lia).
    unfold len at 1. rewrite Hm, (proj2 (Z.ltb_lt _ _)) by (unfold len; lia). do 4 f_equal. unfold len. cbn [length]. lia.
Qed.

(** C31: Records cut short. A payload that ends inside a record gives every
    record before it and then the damage, with the number of records read, the
    offset at which the cut record starts and how much of its header or
    payload is there. *)
Theorem torn_records_are_reported rs r bytes f n : Forall record_ok rs → len bytes < 2 ^ 64 → encode_all rs [] = (Ok tt, bytes) → encode_framed r [] = (Ok tt, f) → (0 < n < length f)%nat →
  read_log_records (bytes ++ take n f) collect [] = (Err (Damaged (length rs) (len bytes) (cut_damage n f)), rs).
Proof.
  intros Hok Hl He Hf Hn. destruct (encode_all_frames rs [] bytes Hok He) as (b & -> & Hb). cbn [app] in *. apply encode_framed_ok in Hf as (payload & -> & Hpl & Hfl & Hk & _). cbn [app] in *.
  destruct (read_all collect _ _ (take n (frame (kind r) (flags r) payload)) [] Hb) as (rounds & offset & Hr & Ho & ->). rewrite (Ho Hl),  omap_Some, collect_all, length_map. apply read_cut; [by apply flags_known|done|done|done|].
  rewrite length_take in Hr. lia.
Qed.

(** ** Records of a later release *)




(** What encoding a record does. A record is appended whole, within the bounds
    of a record, or the output is left as it was. *)
Theorem record_encoding_outcome r out :
  let '(x, out') := encode_framed r out in
  if is_ok x then ∃ f, out' = out ++ f ∧ 6 ≤ len f ≤ MAX_RECORD_BYTES else out' = out.
Proof.
  destruct (encode_framed r out) as [x out'] eqn:He. apply encode_framed_ok in He. destruct x as [u|e]; cbn [is_ok]; [|exact He]. destruct He as (payload & -> & Hl & _).
  eexists. split; [reflexivity|]. unfold len in *. rewrite frame_length. unfold MAX_RECORD_PAYLOAD, MAX_RECORD_BYTES, RECORD_HEADER_BYTES in *. lia.
Qed.
End log.

(** ** Samples *)

Module LogSamples.
(** The variable-length integers of bincode: one byte below 251, then a
    marker and 2, 4 or 8 bytes. *)
Definition put_varint (n : Z) : list Z :=
  if n <? 251 then to_le 1 n else if n <=? 65535 then 251 :: to_le 2 n else if n <=? 4294967295 then 252 :: to_le 4 n else 253 :: to_le 8 n.

Definition get_fixed (n : nat) (rest : list Z) : option (Z * list Z) :=
  if (n <=? length rest)%nat then Some (from_le (take n rest), drop n rest) else None.

Definition get_varint (bytes : list Z) : option (Z * list Z) :=
  match bytes with
  | [] => None
  | b :: rest =>
      if b <? 251 then Some (b, rest) else if b =? 251 then get_fixed 2 rest else if b =? 252 then get_fixed 4 rest else if b =? 253 then get_fixed 8 rest else None
  end.

Lemma get_fixed_put k n rest : 0 ≤ n < 256 ^ Z.of_nat k → get_fixed k (to_le k n ++ rest) = Some (n, rest).
Proof.
  intros Hn. unfold get_fixed. rewrite length_app, to_le_length, (proj2 (Nat.leb_le _ _)) by lia. rewrite take_app_le, take_ge, drop_app_ge by (rewrite to_le_length; lia).
  rewrite to_le_length, Nat.sub_diag, from_to_le by done. done.
Qed.

Lemma get_put_varint n rest : is_u64 n → get_varint (put_varint n ++ rest) = Some (n, rest).
Proof.
  intros Hn. unfold put_varint, is_u64 in *. destruct (Z.ltb_spec n 251).
  { cbn [to_le app get_varint]. rewrite Z.mod_small, (proj2 (Z.ltb_lt _ _)) by lia. done. }
  destruct (Z.leb_spec n 65535); [|destruct (Z.leb_spec n 4294967295)]; cbn [app get_varint Z.ltb Z.compare Pos.compare Pos.compare_cont Z.eqb Pos.eqb]; apply get_fixed_put; cbn; lia.
Qed.

Lemma put_varint_length n : is_u64 n → Z.of_nat (length (put_varint n)) = varint_bytes n.
Proof. intros _. unfold put_varint, varint_bytes. repeat case_match; reflexivity. Qed.

Lemma put_varint_bytes n : Forall is_byte (put_varint n).
Proof. unfold put_varint. repeat case_match; try apply to_le_bytes; (constructor; [unfold is_byte; lia|apply to_le_bytes]). Qed.

Lemma get_put_varint32 n rest : 0 ≤ n < 2 ^ 32 → get_varint (put_varint n ++ rest) = Some (n, rest).
Proof. intros Hn. apply get_put_varint. unfold is_u64. lia. Qed.

Lemma put_varint_nonempty n : put_varint n ≠ [].
Proof. unfold put_varint. repeat case_match; done. Qed.

Lemma get_put_fixed8 n rest : is_u64 n → get_fixed 8 (to_le 8 n ++ rest) = Some (n, rest).
Proof. intros Hn. apply get_fixed_put. unfold is_u64 in Hn. lia. Qed.

Lemma to_le_nonempty n : to_le 8 n ≠ [].
Proof. done. Qed.

#[local] Instance varint : Bincode := {|
  put_number := put_varint; get_number := get_varint; get_put_number := get_put_varint; put_number_length := put_varint_length; put_number_bytes := put_varint_bytes;
  put_variant_number := put_varint; get_variant_number := get_varint; get_put_variant := get_put_varint32; put_variant_bytes := put_varint_bytes; put_variant_nonempty := put_varint_nonempty;
  put_float := to_le 8; get_float := get_fixed 8; get_put_float := get_put_fixed8; put_float_bytes := to_le_bytes 8; put_float_nonempty := to_le_nonempty |}.

(** A catalog whose records are byte strings of one kind. *)
#[local] Instance blobs : CatalogCodec := {|
  CatalogRecord := list Z; catalog_error := unit; record_kind := λ _, 1; record_flags := λ _, RECORD_REQUIRED; default_value_bytes := λ _, 0;
  encode_payload := λ b, Ok [Piece b]; decode_catalog := λ kind b, if kind =? 1 then Ok (Some b) else Ok None |}.

Definition sample_records : list LogRecord :=
  [ Group (mkGroupBegin 7 1700000000000 LogRecord.Transaction);
    DataRecord None (CreateNode 3 [[80; 101]] [([110], Value.String [65; 108])]);
    DataRecord (Some [103]) (CreateEdge 88 3 19 [75] [([115], Value.Int64 2019)]);
    Standalone (CreateGraph [104]);
    Standalone (PutCatalog [1; 2; 3]);
    DataRecord None (InsertTriple (mkTriple (TermIri [97]) (TermIri [98]) (TermLiteral [99] [100] None))) ].

Lemma sample_records_ok : Forall record_ok sample_records.
Proof.
  unfold sample_records. repeat apply Forall_cons_2; try apply Forall_nil_2; cbn [record_ok op_ok standalone_ok graph_ok triple_ok term_ok subject predicate object epoch timestamp_ms].
  - unfold is_u64. lia.
  - split; [by intros s [=]|]. unfold is_u64. split_and!; try lia; repeat constructor.
  - split; [by intros s [= <-]|]. unfold is_u64. split_and!; try lia; try done. repeat constructor; cbn; unfold is_i64; lia.
  - done.
  - split_and!; [cbn; unfold is_byte; lia|cbn; unfold is_byte, RECORD_REQUIRED; lia| |].
    + intros parts [= <-]. repeat constructor; unfold is_byte; lia.
    + intros parts b [= <-] [= <-] _. done.
  - split; [by intros s [=]|]. split_and!; done.
Qed.

Definition sample_bytes : list Z := (encode_all sample_records []).2.

Lemma sample_encoded : encode_all sample_records [] = (Ok tt, sample_bytes).
Proof. vm_compute. reflexivity. Qed.

Lemma records_read_back_witness : length sample_bytes = 104%nat ∧ read_log_records sample_bytes collect [] = (Ok tt, sample_records).
Proof.
  split; [vm_compute; reflexivity|]. exact (records_read_back collect sample_records sample_bytes [] sample_records_ok sample_encoded).
Defined.

Definition torn_frame : list Z := (encode_framed (DataRecord None (DeleteNode 300)) []).2.

(** Two records whole, then a third cut in its payload. *)
Lemma torn_records_are_reported_witness :
  torn_frame = [17; 1; 4; 0; 0; 0; 0; 251; 44; 1] ∧
  read_log_records (sample_bytes ++ take 8 torn_frame) collect [] = (Err (Damaged 6 104 (PayloadCut 2 4)), sample_records).
Proof.
  split; [vm_compute; reflexivity|]. exact (torn_records_are_reported sample_records (DataRecord None (DeleteNode 300)) sample_bytes torn_frame 8
    sample_records_ok ltac:(vm_compute; reflexivity) sample_encoded ltac:(vm_compute; reflexivity) ltac:(vm_compute; lia)).
Defined.

End LogSamples.
