(* ===== verification/CatalogRecord.v ===== *)
(** * Catalog records

    Model of [src/crates/grafeo-common/src/storage/catalog_record.rs]: the
    records of the catalog, what bincode writes of them (the fields in order,
    an enum as the number of its variant), and reading them back under the
    limit on what bincode charges. What is charged is as the module documents
    it: each number at the size of its type, each string and byte string at
    its length, before it is read. The framing is that of LogRecord.v, of
    which this file gives the interface [CatalogCodec]. A float is its bits.
    What lists allocate ahead of their elements is left out. *)
From Stdlib Require Import Ascii String.
From S2P Require Import Prelude Bytes Wide Decimal Values ValueCodec Changes LogRecord.
Open Scope Z_scope.

(** ** Property types *)

Definition MAX_LIST_TYPE_DEPTH : nat := MAX_PROPERTY_VALUE_DEPTH.
Definition MAX_LIST_LEVELS_PER_RECORD : nat := Nat.pow 2 15.
Definition CATALOG_DECODE_LIMIT : Z := 2 ^ 24.
Definition DECIMAL_TYPE_FLAG : Z := 16777216.

Module PropertyTypeRecord.
Inductive t : Type :=
  | String | Int64 | Float64 | Bool | Date | Time | Timestamp | LocalDatetime | ZonedDatetime | Duration | List
  | ListOf (inner : t) | Map | Bytes | Node | Edge | Any | Decimal (type : option DecimalType.DecimalType).

Fixpoint levels_and_code (r : t) : nat * Z :=
  match r with
  | ListOf inner => let (levels, code) := levels_and_code inner in (S levels, code)
  | String => (0%nat, 0) | Int64 => (0%nat, 1) | Float64 => (0%nat, 2) | Bool => (0%nat, 3) | Date => (0%nat, 4) | Time => (0%nat, 5)
  | Timestamp => (0%nat, 6) | LocalDatetime => (0%nat, 7) | ZonedDatetime => (0%nat, 8) | Duration => (0%nat, 9) | List => (0%nat, 10)
  | Map => (0%nat, 11) | Bytes => (0%nat, 12) | Node => (0%nat, 13) | Edge => (0%nat, 14) | Any => (0%nat, 15)
  | Decimal None => (0%nat, 16)
  | Decimal (Some decimal) =>
      (0%nat, Z.lor (Z.lor DECIMAL_TYPE_FLAG (Z.shiftl (DecimalType.precision decimal) 8)) (DecimalType.scale decimal))
  end.

Definition of_code (code : Z) : option t :=
  if code =? 0 then Some String else if code =? 1 then Some Int64 else if code =? 2 then Some Float64 else if code =? 3 then Some Bool
  else if code =? 4 then Some Date else if code =? 5 then Some Time else if code =? 6 then Some Timestamp else if code =? 7 then Some LocalDatetime
  else if code =? 8 then Some ZonedDatetime else if code =? 9 then Some Duration else if code =? 10 then Some List else if code =? 11 then Some Map
  else if code =? 12 then Some Bytes else if code =? 13 then Some Node else if code =? 14 then Some Edge else if code =? 15 then Some Any
  else if code =? 16 then Some (Decimal None)
  else if Z.land code 4294901760 =? DECIMAL_TYPE_FLAG then
    match DecimalType.new (Z.shiftr code 8 mod 256) (code mod 256) with Ok d => Some (Decimal (Some d)) | Err _ => None end
  else None.

(** The levels left are counted down before the code is read. *)
Definition of_levels_and_code (levels code : Z) (levels_left : nat) : option (t * nat) :=
  if Z.of_nat MAX_LIST_TYPE_DEPTH <? levels then None
  else
    let depth := Z.to_nat levels in
    if (levels_left <? depth)%nat then None
    else element ← of_code code; Some (Nat.iter depth ListOf element, (levels_left - depth)%nat).
End PropertyTypeRecord.

(** ** Records *)

Record PropertyRecord : Type := mkProperty {
  pr_name : str;
  data_type : PropertyTypeRecord.t;
  nullable : bool;
  default_value : option Value.t;
}.

Inductive TypeConstraintRecord : Set :=
  | PrimaryKey (properties : list str)
  | Unique (properties : list str)
  | NotNull (property : str)
  | CheckRule (name : option str) (expression : str).

Record NodeTypeRecord : Type := mkNodeType {
  nt_name : str;
  nt_properties : list PropertyRecord;
  nt_constraints : list TypeConstraintRecord;
  parent_types : list str;
  nt_key_labels : list str;
}.

Record EndpointPair : Set := mkEndpoints { source_type : option str; target_type : option str }.

Record EdgeTypeRecord : Type := mkEdgeType {
  et_name : str;
  et_properties : list PropertyRecord;
  et_constraints : list TypeConstraintRecord;
  endpoints : list EndpointPair;
  et_key_labels : list str;
}.

Record GraphTypeRecord : Set := mkGraphType { gt_name : str; node_types : list str; edge_types : list str; open_ : bool }.

Inductive HistoryRetentionRecord : Set := HistoryOff | HistoryDuration (millis : Z) | HistoryForever.
Inductive GraphModelRecord : Set := ModelLpg | ModelRdf.
Inductive DurabilityRecord : Set := SyncAlways | Batch (max_delay_ms max_records : Z) | Adaptive (target_interval_ms : Z) | NoSync.
Inductive TierRecord : Set := Auto | ForceRam | ForceDisk.
Record SectionMemoryRecord : Set := mkSectionMemory { section_code : Z; max_ram : option Z; tier : TierRecord }.

Record StoredConfigRecord : Set := mkStoredConfig {
  graph_model : GraphModelRecord;
  backward_edges : bool;
  schema_constraints : bool;
  wal_enabled : bool;
  wal_durability : DurabilityRecord;
  memory_limit : option Z;
  spill_path : option str;
  sections : list SectionMemoryRecord;
  history_retention : HistoryRetentionRecord;
}.

Record GraphBindingRecord : Set := mkGraphBinding { gb_graph : str; gb_graph_type : str }.

Inductive NamedConstraintKindRecord : Set := KindUnique | KindNodeKey | KindNotNull | KindExists.
Record ConstraintRecord : Set := mkConstraint { cn_name : str; cn_label : str; cn_properties : list str; cn_kind : NamedConstraintKindRecord }.

Inductive DistanceMetricRecord : Set := Cosine | Euclidean | DotProduct | Manhattan.
Inductive QuantizationRecord : Set := NoQuantization | Scalar | Binary | Product (num_subvectors : Z).
Inductive TextTokenizerRecord : Set := Simple | Standard | CjkBigram.

Inductive IndexKindRecord : Set :=
  | PropertyIndex (key : str)
  | VectorIndex (label property : str) (dimensions : Z) (metric : DistanceMetricRecord) (m ef_construction : Z) (quantization : QuantizationRecord)
  | TextIndex (label property : str) (k1 b : Z) (tokenizer : TextTokenizerRecord) (stop_words : option (list str)).

Record IndexRecord : Set := mkIndex { ix_graph : option str; ix_index : IndexKindRecord }.
Record LabelIndexRecord : Set := mkLabelIndex { li_graph : option str; li_label : str; li_key : str }.

Inductive IndexNameKindRecord : Set := Hash | BTree | FullText | VectorKind.
Record IndexNameRecord : Set := mkIndexName { in_name : str; in_label : str; in_property : str; in_kind : IndexNameKindRecord }.

Record ProcedureRecord : Set := mkProcedure { pc_name : str; params : list (str * str); returns : list (str * str); body_ : str }.
Record SchemaRecord : Set := mkSchema { sc_name : str }.

Inductive CatalogRecord : Type :=
  | Schema_ (record : SchemaRecord)
  | NodeType (record : NodeTypeRecord)
  | EdgeType (record : EdgeTypeRecord)
  | GraphType (record : GraphTypeRecord)
  | GraphBinding (record : GraphBindingRecord)
  | Constraint_ (record : ConstraintRecord)
  | Index_ (record : IndexRecord)
  | IndexName (record : IndexNameRecord)
  | Procedure_ (record : ProcedureRecord)
  | StoredConfig (record : StoredConfigRecord)
  | LabelIndex (record : LabelIndexRecord).

Module Catalog.
Definition kind (r : CatalogRecord) : Z :=
  match r with
  | Schema_ _ => 1 | NodeType _ => 2 | EdgeType _ => 3 | GraphType _ => 4 | GraphBinding _ => 5 | Constraint_ _ => 6
  | Index_ _ => 7 | IndexName _ => 8 | Procedure_ _ => 9 | StoredConfig _ => 10 | LabelIndex _ => 11
  end.

Definition flags (r : CatalogRecord) : Z := match r with LabelIndex _ => 0 | _ => RECORD_REQUIRED end.

Definition index_key (i : IndexKindRecord) : IndexKeyRecord :=
  match i with
  | PropertyIndex key => PropertyKey key
  | VectorIndex label property _ _ _ _ _ => VectorKey label property
  | TextIndex label property _ _ _ _ => TextKey label property
  end.

Definition key (r : CatalogRecord) : CatalogKey :=
  match r with
  | Schema_ r => KeySchema (sc_name r)
  | NodeType r => KeyNodeType (nt_name r)
  | EdgeType r => KeyEdgeType (et_name r)
  | GraphType r => KeyGraphType (gt_name r)
  | GraphBinding r => KeyGraphBinding (gb_graph r)
  | Constraint_ r => KeyConstraint (cn_name r)
  | Index_ r => KeyIndex (ix_graph r) (index_key (ix_index r))
  | IndexName r => KeyIndexName (in_name r)
  | Procedure_ r => KeyProcedure (pc_name r)
  | StoredConfig _ => KeyStoredConfig
  | LabelIndex r => KeyLabelIndex (li_graph r) (li_label r) (li_key r)
  end.

Definition properties (r : CatalogRecord) : list PropertyRecord :=
  match r with NodeType r => nt_properties r | EdgeType r => et_properties r | _ => [] end.

Definition default_value_bytes (r : CatalogRecord) : Z :=
  saturating_total 0 (map encoded_len (List.filter (λ v, negb (nests_too_deep_to_encode v)) (omap default_value (properties r)))).
End Catalog.

(** ** Serializing *)

Section serialize.
Context `{Bincode}.

Definition put_u32 (n : Z) : list part := put_variant n.
Definition put_u8 (n : Z) : list part := [Piece [n]].
Definition put_bool (b : bool) : list part := [Piece [Z.b2z b]].
Definition put_f64 (bits : Z) : list part := [Piece (put_float bits)].
Definition put_texts (l : list str) : list part := put_list put_text l.

Definition put_type (r : PropertyTypeRecord.t) : list part :=
  let (levels, code) := PropertyTypeRecord.levels_and_code r in
  if (MAX_LIST_TYPE_DEPTH <? levels)%nat then [Refused (RefusedType levels)] else put_u32 (Z.of_nat levels) ++ put_u32 code.

(** [serde_option_value]: the value is encoded before anything is written. *)
Definition put_default (o : option Value.t) : list part :=
  match o with
  | None => [Piece [0]]
  | Some v => match encode_value v [] with (Ok _, bytes) => [Piece [1]; Piece (put_number (len bytes)); Piece bytes] | (Err e, _) => [Refused (RefusedValue e)] end
  end.

Definition put_property_record (r : PropertyRecord) : list part :=
  put_text (pr_name r) ++ put_type (data_type r) ++ put_bool (nullable r) ++ put_default (default_value r).

Definition put_type_constraint (r : TypeConstraintRecord) : list part :=
  match r with
  | PrimaryKey properties => put_variant 0 ++ put_texts properties
  | Unique properties => put_variant 1 ++ put_texts properties
  | NotNull property => put_variant 2 ++ put_text property
  | CheckRule name expression => put_variant 3 ++ put_graph name ++ put_text expression
  end.

Definition put_node_type (r : NodeTypeRecord) : list part :=
  put_text (nt_name r) ++ put_list put_property_record (nt_properties r) ++ put_list put_type_constraint (nt_constraints r) ++ put_texts (parent_types r) ++ put_texts (nt_key_labels r).

Definition put_endpoints (r : EndpointPair) : list part := put_graph (source_type r) ++ put_graph (target_type r).

Definition put_edge_type (r : EdgeTypeRecord) : list part :=
  put_text (et_name r) ++ put_list put_property_record (et_properties r) ++ put_list put_type_constraint (et_constraints r) ++ put_list put_endpoints (endpoints r) ++ put_texts (et_key_labels r).

Definition put_graph_type (r : GraphTypeRecord) : list part := put_text (gt_name r) ++ put_texts (node_types r) ++ put_texts (edge_types r) ++ put_bool (open_ r).

Definition put_history (r : HistoryRetentionRecord) : list part :=
  match r with HistoryOff => put_variant 0 | HistoryDuration millis => put_variant 1 ++ put_u64 millis | HistoryForever => put_variant 2 end.
Definition put_model (r : GraphModelRecord) : list part := put_variant (match r with ModelLpg => 0 | ModelRdf => 1 end).
Definition put_durability (r : DurabilityRecord) : list part :=
  match r with
  | SyncAlways => put_variant 0
  | Batch delay records => put_variant 1 ++ put_u64 delay ++ put_u64 records
  | Adaptive interval => put_variant 2 ++ put_u64 interval
  | NoSync => put_variant 3
  end.
Definition put_tier (r : TierRecord) : list part := put_variant (match r with Auto => 0 | ForceRam => 1 | ForceDisk => 2 end).
Definition put_section_memory (r : SectionMemoryRecord) : list part := put_u8 (section_code r) ++ put_option put_u64 (max_ram r) ++ put_tier (tier r).

Definition put_stored_config (r : StoredConfigRecord) : list part :=
  put_model (graph_model r) ++ put_bool (backward_edges r) ++ put_bool (schema_constraints r) ++ put_bool (wal_enabled r) ++ put_durability (wal_durability r) ++
  put_option put_u64 (memory_limit r) ++ put_graph (spill_path r) ++ put_list put_section_memory (sections r) ++ put_history (history_retention r).

Definition put_graph_binding (r : GraphBindingRecord) : list part := put_text (gb_graph r) ++ put_text (gb_graph_type r).

Definition put_constraint_kind (r : NamedConstraintKindRecord) : list part :=
  put_variant (match r with KindUnique => 0 | KindNodeKey => 1 | KindNotNull => 2 | KindExists => 3 end).
Definition put_constraint (r : ConstraintRecord) : list part := put_text (cn_name r) ++ put_text (cn_label r) ++ put_texts (cn_properties r) ++ put_constraint_kind (cn_kind r).

Definition put_metric (r : DistanceMetricRecord) : list part := put_variant (match r with Cosine => 0 | Euclidean => 1 | DotProduct => 2 | Manhattan => 3 end).
Definition put_quantization (r : QuantizationRecord) : list part :=
  match r with NoQuantization => put_variant 0 | Scalar => put_variant 1 | Binary => put_variant 2 | Product n => put_variant 3 ++ put_u32 n end.
Definition put_tokenizer (r : TextTokenizerRecord) : list part := put_variant (match r with Simple => 0 | Standard => 1 | CjkBigram => 2 end).

Definition put_index_kind (r : IndexKindRecord) : list part :=
  match r with
  | PropertyIndex key => put_variant 0 ++ put_text key
  | VectorIndex label property dimensions metric m ef_construction quantization =>
      put_variant 1 ++ put_text label ++ put_text property ++ put_u32 dimensions ++ put_metric metric ++ put_u32 m ++ put_u32 ef_construction ++ put_quantization quantization
  | TextIndex label property k1 b tokenizer stop_words =>
      put_variant 2 ++ put_text label ++ put_text property ++ put_f64 k1 ++ put_f64 b ++ put_tokenizer tokenizer ++ put_option put_texts stop_words
  end.

Definition put_index (r : IndexRecord) : list part := put_graph (ix_graph r) ++ put_index_kind (ix_index r).
Definition put_label_index (r : LabelIndexRecord) : list part := put_graph (li_graph r) ++ put_text (li_label r) ++ put_text (li_key r).

Definition put_index_name_kind (r : IndexNameKindRecord) : list part := put_variant (match r with Hash => 0 | BTree => 1 | FullText => 2 | VectorKind => 3 end).
Definition put_index_name (r : IndexNameRecord) : list part := put_text (in_name r) ++ put_text (in_label r) ++ put_text (in_property r) ++ put_index_name_kind (in_kind r).

Definition put_column (p : str * str) : list part := put_text p.1 ++ put_text p.2.
Definition put_procedure (r : ProcedureRecord) : list part := put_text (pc_name r) ++ put_list put_column (params r) ++ put_list put_column (returns r) ++ put_text (body_ r).
Definition put_schema (r : SchemaRecord) : list part := put_text (sc_name r).

Definition put_record (r : CatalogRecord) : list part :=
  match r with
  | Schema_ r => put_schema r
  | NodeType r => put_node_type r
  | EdgeType r => put_edge_type r
  | GraphType r => put_graph_type r
  | GraphBinding r => put_graph_binding r
  | Constraint_ r => put_constraint r
  | Index_ r => put_index r
  | IndexName r => put_index_name r
  | Procedure_ r => put_procedure r
  | StoredConfig r => put_stored_config r
  | LabelIndex r => put_label_index r
  end.
End serialize.

(** ** Deserializing

    A reader takes the bytes and what is left of the limit; a claim is made
    before the bytes it is for are read. *)

Inductive bincode_error : Set := LimitExceeded | Undecodable.

Definition CGet (A : Type) : Type := list Z → Z → result bincode_error (A * list Z * Z).
#[export] Instance cget_ret : MRet CGet := λ A a bytes limit, Ok (a, bytes, limit).
#[export] Instance cget_bind : MBind CGet := λ A B f g bytes limit, match g bytes limit with Ok (a, bytes, limit) => f a bytes limit | Err e => Err e end.

Definition cget_fail {A} : CGet A := λ _ _, Err Undecodable.
Definition claim (n : Z) : CGet unit := λ bytes limit, if limit <? n then Err LimitExceeded else Ok (tt, bytes, limit - n).
Definition take_in {A} (g : Get A) : CGet A := λ bytes limit, match g bytes with Some (a, rest) => Ok (a, rest, limit) | None => Err Undecodable end.

Section deserialize.
Context `{Bincode}.

Definition cget_u64 : CGet Z := _ ← claim 8; take_in get_number.
Definition cget_u32 : CGet Z := _ ← claim 4; take_in get_variant_number.
Definition cget_u8 : CGet Z := _ ← claim 1; take_in (λ bytes, match bytes with b :: rest => Some (b, rest) | [] => None end).
Definition cget_f64 : CGet Z := _ ← claim 8; take_in get_float.
Definition cget_bool : CGet bool := b ← cget_u8; if b =? 0 then mret false else if b =? 1 then mret true else cget_fail.
Definition cget_bytes : CGet (list Z) :=
  n ← cget_u64; _ ← claim n;
  take_in (λ bytes, if n <=? len bytes then Some (take (Z.to_nat n) bytes, drop (Z.to_nat n) bytes) else None).
Definition cget_text : CGet str := s ← cget_bytes; if utf8_valid s then mret s else cget_fail.
Definition cget_option {A} (g : CGet A) : CGet (option A) :=
  b ← cget_u8; if b =? 0 then mret None else if b =? 1 then (a ← g; mret (Some a)) else cget_fail.

(** A list whose elements are read with a state of their own; an element
    takes a byte at least, so a round more than there are bytes is enough. *)
Fixpoint cget_elements {A S : Type} (g : S → CGet (A * S)) (rounds : nat) (left : Z) (s : S) (items : list A) : CGet (list A) := λ bytes limit,
  if left <=? 0 then Ok (items, bytes, limit)
  else match rounds with
  | O => Err Undecodable
  | Datatypes.S rounds => ('(item, s) ← g s; cget_elements g rounds (left - 1) s (items ++ [item])) bytes limit
  end.

Definition cget_seq {A S : Type} (g : S → CGet (A * S)) (s : S) : CGet (list A) :=
  count ← cget_u64; (λ bytes limit, cget_elements g (Datatypes.S (length bytes)) count s [] bytes limit) : CGet (list A).

Definition cget_list {A} (g : CGet A) : CGet (list A) := cget_seq (λ u : unit, a ← g; mret (a, u)) tt.
Definition cget_texts : CGet (list str) := cget_list cget_text.
Definition cget_graph : CGet (option str) := cget_option cget_text.

(** An enum of [n] variants without fields. *)
Definition cget_enum {A} (variants : list A) : CGet A :=
  n ← cget_u32; match variants !! Z.to_nat n with Some a => mret a | None => cget_fail end.

Definition cget_type (levels_left : nat) : CGet (PropertyTypeRecord.t * nat) :=
  levels ← cget_u32; code ← cget_u32;
  match PropertyTypeRecord.of_levels_and_code levels code levels_left with Some r => mret r | None => cget_fail end.

Definition cget_default : CGet (option Value.t) :=
  cget_option (
    bytes ← cget_bytes;
    match decode_value bytes 0 with
    | Ok (v, pos) => if (pos =? length bytes)%nat then mret v else cget_fail
    | Err _ => cget_fail
    end).

Definition cget_property (levels_left : nat) : CGet (PropertyRecord * nat) :=
  name ← cget_text; '(data_type, levels_left) ← cget_type levels_left; nullable ← cget_bool; default_value ← cget_default;
  mret (mkProperty name data_type nullable default_value, levels_left).

Definition deserialize_properties : CGet (list PropertyRecord) := cget_seq cget_property MAX_LIST_LEVELS_PER_RECORD.

Definition cget_type_constraint : CGet TypeConstraintRecord :=
  n ← cget_u32;
  if n =? 0 then properties ← cget_texts; mret (PrimaryKey properties)
  else if n =? 1 then properties ← cget_texts; mret (Unique properties)
  else if n =? 2 then property ← cget_text; mret (NotNull property)
  else if n =? 3 then name ← cget_graph; expression ← cget_text; mret (CheckRule name expression)
  else cget_fail.

Definition cget_node_type : CGet NodeTypeRecord :=
  name ← cget_text; properties ← deserialize_properties; constraints ← cget_list cget_type_constraint; parents ← cget_texts; labels ← cget_texts;
  mret (mkNodeType name properties constraints parents labels).

Definition cget_endpoints : CGet EndpointPair := source ← cget_graph; target ← cget_graph; mret (mkEndpoints source target).

Definition cget_edge_type : CGet EdgeTypeRecord :=
  name ← cget_text; properties ← deserialize_properties; constraints ← cget_list cget_type_constraint; ends ← cget_list cget_endpoints; labels ← cget_texts;
  mret (mkEdgeType name properties constraints ends labels).

Definition cget_graph_type : CGet GraphTypeRecord :=
  name ← cget_text; nodes ← cget_texts; edges ← cget_texts; is_open ← cget_bool; mret (mkGraphType name nodes edges is_open).

Definition cget_history : CGet HistoryRetentionRecord :=
  n ← cget_u32;
  if n =? 0 then mret HistoryOff else if n =? 1 then (millis ← cget_u64; mret (HistoryDuration millis)) else if n =? 2 then mret HistoryForever else cget_fail.
Definition cget_model : CGet GraphModelRecord := cget_enum [ModelLpg; ModelRdf].
Definition cget_durability : CGet DurabilityRecord :=
  n ← cget_u32;
  if n =? 0 then mret SyncAlways else if n =? 1 then (delay ← cget_u64; records ← cget_u64; mret (Batch delay records))
  else if n =? 2 then (interval ← cget_u64; mret (Adaptive interval)) else if n =? 3 then mret NoSync else cget_fail.
Definition cget_tier : CGet TierRecord := cget_enum [Auto; ForceRam; ForceDisk].
Definition cget_section_memory : CGet SectionMemoryRecord :=
  code ← cget_u8; ram ← cget_option cget_u64; tier ← cget_tier; mret (mkSectionMemory code ram tier).

Definition cget_stored_config : CGet StoredConfigRecord :=
  model ← cget_model; backward ← cget_bool; schema ← cget_bool; wal ← cget_bool; durability ← cget_durability;
  limit ← cget_option cget_u64; spill ← cget_graph; memory ← cget_list cget_section_memory; history ← cget_history;
  mret (mkStoredConfig model backward schema wal durability limit spill memory history).

Definition cget_graph_binding : CGet GraphBindingRecord := graph ← cget_text; ty ← cget_text; mret (mkGraphBinding graph ty).

Definition cget_constraint_kind : CGet NamedConstraintKindRecord := cget_enum [KindUnique; KindNodeKey; KindNotNull; KindExists].
Definition cget_constraint : CGet ConstraintRecord :=
  name ← cget_text; label ← cget_text; properties ← cget_texts; kind ← cget_constraint_kind; mret (mkConstraint name label properties kind).

Definition cget_metric : CGet DistanceMetricRecord := cget_enum [Cosine; Euclidean; DotProduct; Manhattan].
Definition cget_quantization : CGet QuantizationRecord :=
  n ← cget_u32;
  if n =? 0 then mret NoQuantization else if n =? 1 then mret Scalar else if n =? 2 then mret Binary
  else if n =? 3 then (subvectors ← cget_u32; mret (Product subvectors)) else cget_fail.
Definition cget_tokenizer : CGet TextTokenizerRecord := cget_enum [Simple; Standard; CjkBigram].

Definition cget_index_kind : CGet IndexKindRecord :=
  n ← cget_u32;
  if n =? 0 then key ← cget_text; mret (PropertyIndex key)
  else if n =? 1 then
    label ← cget_text; property ← cget_text; dimensions ← cget_u32; metric ← cget_metric; m ← cget_u32; ef_construction ← cget_u32;
    quantization ← cget_quantization; mret (VectorIndex label property dimensions metric m ef_construction quantization)
  else if n =? 2 then
    label ← cget_text; property ← cget_text; k1 ← cget_f64; b ← cget_f64; tokenizer ← cget_tokenizer; stop_words ← cget_option cget_texts;
    mret (TextIndex label property k1 b tokenizer stop_words)
  else cget_fail.

Definition cget_index : CGet IndexRecord := graph ← cget_graph; index ← cget_index_kind; mret (mkIndex graph index).
Definition cget_label_index : CGet LabelIndexRecord := graph ← cget_graph; label ← cget_text; key ← cget_text; mret (mkLabelIndex graph label key).

Definition cget_index_name_kind : CGet IndexNameKindRecord := cget_enum [Hash; BTree; FullText; VectorKind].
Definition cget_index_name : CGet IndexNameRecord :=
  name ← cget_text; label ← cget_text; property ← cget_text; kind ← cget_index_name_kind; mret (mkIndexName name label property kind).

Definition cget_column : CGet (str * str) := name ← cget_text; ty ← cget_text; mret (name, ty).
Definition cget_procedure : CGet ProcedureRecord :=
  name ← cget_text; params ← cget_list cget_column; returns ← cget_list cget_column; body ← cget_text; mret (mkProcedure name params returns body).
Definition cget_schema : CGet SchemaRecord := name ← cget_text; mret (mkSchema name).

(** ** Payloads *)

Inductive catalog_error : Set :=
  | TooManyLevels (kind levels : Z)
  | PastDecodeLimit
  | PayloadUndecodable
  | BytesLeftOver (bytes : nat).

Definition decode_bincode_payload {A} (g : CGet A) (limit : Z) (payload : list Z) : result catalog_error A :=
  match g payload limit with
  | Ok (a, [], _) => Ok a
  | Ok (_, rest, _) => Err (BytesLeftOver (length rest))
  | Err LimitExceeded => Err PastDecodeLimit
  | Err Undecodable => Err PayloadUndecodable
  end.

Definition total_levels (r : CatalogRecord) : Z :=
  saturating_total 0 (map (λ p, Z.of_nat (PropertyTypeRecord.levels_and_code (data_type p)).1) (Catalog.properties r)).

Definition encode_payload (r : CatalogRecord) : result (record_error catalog_error) (list part) :=
  let levels := total_levels r in
  if Z.of_nat MAX_LIST_LEVELS_PER_RECORD <? levels then Err (CatalogRefused (TooManyLevels (Catalog.kind r) levels)) else Ok (put_record r).

Definition decode_payload (kind : Z) (payload : list Z) : result catalog_error (option CatalogRecord) :=
  let decode {A} (g : CGet A) (f : A → CatalogRecord) := a ← decode_bincode_payload g CATALOG_DECODE_LIMIT payload; Ok (Some (f a)) in
  if kind =? 1 then decode cget_schema Schema_
  else if kind =? 2 then decode cget_node_type NodeType
  else if kind =? 3 then decode cget_edge_type EdgeType
  else if kind =? 4 then decode cget_graph_type GraphType
  else if kind =? 5 then decode cget_graph_binding GraphBinding
  else if kind =? 6 then decode cget_constraint Constraint_
  else if kind =? 7 then decode cget_index Index_
  else if kind =? 8 then decode cget_index_name IndexName
  else if kind =? 9 then decode cget_procedure Procedure_
  else if kind =? 10 then decode cget_stored_config StoredConfig
  else if kind =? 11 then decode cget_label_index LabelIndex
  else Ok None.

(** What the log asks of the catalog. *)
#[export] Instance catalog : CatalogCodec := {|
  LogRecord.CatalogRecord := CatalogRecord;
  LogRecord.catalog_error := catalog_error;
  record_kind := Catalog.kind;
  record_flags := Catalog.flags;
  LogRecord.default_value_bytes := Catalog.default_value_bytes;
  LogRecord.encode_payload := encode_payload;
  decode_catalog := decode_payload;
|}.

Definition encode_framed (r : CatalogRecord) (out : list Z) : result (record_error catalog_error) unit * list Z := encode_catalog_framed r out.

Definition read_catalog_records {A S : Type} (bytes : list Z) (apply : CatalogRecord → S → result A unit * S) (s : S) : result (read_error catalog_error A) unit * S :=
  read_framed_records CATALOG_FRAMING (λ kind _, decode_payload kind) apply bytes s.
End deserialize.
