(* ===== verification/CatalogProps.v ===== *)
(** * Catalog records read back

    What the parts of a catalog record read back as and what of the limit that
    takes, for every record, and the theorems on catalogs written and read,
    with a concrete catalog. *)
From Stdlib Require Import Ascii String.
From S2P Require Import Prelude Bytes Wide Decimal Values ValueCodec ValueCodecFacts ValueRoundTrip Changes ChangeFacts LogRecord LogRecordProps CatalogRecord.
Open Scope Z_scope.

(** ** Readers under the limit *)

(** [g] reads what the parts write, in front of anything, and takes at most
    eight times their bytes off the limit. *)
Definition cgets {A} (g : CGet A) (parts : list part) (a : A) : Prop :=
  ∀ bs, parts_bytes parts = Some bs → len bs < 2 ^ 64 →
  ∃ charge, 0 ≤ charge ≤ 8 * len bs ∧ ∀ rest limit, charge ≤ limit → g (bs ++ rest) limit = Ok (a, rest, limit - charge).

(** The parts, when they are bytes, are not none. *)
Definition starts (parts : list part) : Prop := ∀ b, parts_bytes parts = Some b → len b < 2 ^ 64 → (0 < length b)%nat.

Lemma len_app {A} (x y : list A) : len (x ++ y) = len x + len y.
Proof. unfold len. rewrite length_app. lia. Qed.

Lemma len_nonneg {A} (x : list A) : 0 ≤ len x.
Proof. unfold len. lia. Qed.

Lemma starts_app p q : starts p → starts (p ++ q).
Proof.
  intros Hp b Hb Hl. destruct (parts_bytes_split _ _ _ Hb) as (x & y & Hx & _ & ->). rewrite len_app in Hl. pose proof (len_nonneg y). pose proof (Hp x Hx ltac:(lia)). rewrite length_app. lia.
Qed.

Lemma starts_piece b p : b ≠ [] → starts (Piece b :: p).
Proof. intros Hb c. cbn [parts_bytes]. destruct (parts_bytes p) as [q|]; [|done]. intros [= <-] _. destruct b; [done|]. cbn. lia. Qed.

Lemma cgets_bind {A B} (g : CGet A) (f : A → CGet B) p q a b : cgets g p a → cgets (f a) q b → cgets (g ≫= f) (p ++ q) b.
Proof.
  intros Hg Hf bs Hbs Hl. destruct (parts_bytes_split _ _ _ Hbs) as (x & y & Hx & Hy & ->). rewrite len_app in *. pose proof (len_nonneg x). pose proof (len_nonneg y).
  destruct (Hg x Hx ltac:(lia)) as (c & Hc & Hgx). destruct (Hf y Hy ltac:(lia)) as (d & Hd & Hfy). exists (c + d). split; [lia|]. intros rest limit Hle.
  unfold mbind, cget_bind. rewrite <- app_assoc, Hgx, Hfy by lia. do 2 f_equal. lia.
Qed.

Lemma cgets_map {A B} (g : CGet A) (f : A → B) p a : cgets g p a → cgets (x ← g; mret (f x)) p (f a).
Proof. intros Hg bs Hbs Hl. destruct (Hg bs Hbs Hl) as (c & Hc & Hgx). exists c. split; [done|]. intros rest limit Hle. unfold mbind, cget_bind. by rewrite Hgx. Qed.

(** A number of at most eight bytes, written in one byte at least. *)
Lemma cgets_number {A} (g : Get A) size bytes a : 0 ≤ size ≤ 8 → bytes ≠ [] → (∀ rest, g (bytes ++ rest) = Some (a, rest)) → cgets (_ ← claim size; take_in g) [Piece bytes] a.
Proof.
  intros Hs Hne Hg bs [= <-] _. exists size. rewrite app_nil_r. split; [destruct bytes; [done|]; unfold len; cbn [length]; lia|]. intros rest limit Hle.
  unfold mbind, cget_bind, claim, take_in. rewrite (proj2 (Z.ltb_ge _ _)) by done. by rewrite Hg.
Qed.

Section readers.
Context `{Bincode}.

Lemma number_nonempty n : is_u64 n → put_number n ≠ [].
Proof. intros Hn E. pose proof (put_number_nonempty n Hn) as Hl. rewrite E in Hl. cbn in Hl. lia. Qed.

Lemma cgets_u64 n : is_u64 n → cgets cget_u64 (put_u64 n) n.
Proof. intros Hn. apply cgets_number; [lia|by apply number_nonempty|]. intros rest. by apply get_put_number. Qed.

Lemma cgets_u32 n : 0 ≤ n < 2 ^ 32 → cgets cget_u32 (put_variant n) n.
Proof. intros Hn. apply cgets_number; [lia|apply put_variant_nonempty|]. intros rest. by apply get_put_variant. Qed.

Lemma cgets_f64 n : is_u64 n → cgets cget_f64 (put_f64 n) n.
Proof. intros Hn. apply cgets_number; [lia|apply put_float_nonempty|]. intros rest. by apply get_put_float. Qed.

Lemma cgets_u8 n : cgets cget_u8 [Piece [n]] n.
Proof. by apply cgets_number. Qed.

Lemma cgets_bool b : cgets cget_bool (put_bool b) b.
Proof.
  intros bs Hbs Hl. destruct (cgets_u8 (Z.b2z b) bs Hbs Hl) as (c & Hc & Hg). exists c. split; [done|]. intros rest limit Hle. unfold cget_bool, mbind, cget_bind. rewrite Hg by done. by destruct b.
Qed.

(** A string's length, its claim and its bytes. *)
Lemma cgets_bytes s : cgets cget_bytes [Piece (put_number (len s)); Piece s] s.
Proof.
  intros bs [= <-] Hl. rewrite !len_app in *. pose proof (len_nonneg (put_number (len s))). pose proof (len_nonneg s). change (len (@nil Z)) with 0 in *.
  assert (Hn : is_u64 (len s)) by (unfold is_u64; lia). pose proof (put_number_nonempty (len s) Hn) as Hne.
  exists (8 + len s). split; [unfold len in *; lia|]. intros rest limit Hle. rewrite app_nil_r, <- app_assoc.
  unfold cget_bytes, cget_u64, mbind, cget_bind, claim, take_in. rewrite (proj2 (Z.ltb_ge _ _)), get_put_number by (first [done|lia]). rewrite (proj2 (Z.ltb_ge _ _)), len_app, (proj2 (Z.leb_le _ _)) by (pose proof (len_nonneg rest); lia).
  unfold len at 1 2. rewrite Nat2Z.id, take_app_length, drop_app_length. do 2 f_equal. lia.
Qed.

Lemma cgets_text s : utf8_valid s = true → cgets cget_text (put_text s) s.
Proof.
  intros Hs bs Hbs Hl. destruct (cgets_bytes s bs Hbs Hl) as (c & Hc & Hg). exists c. split; [done|]. intros rest limit Hle. unfold cget_text, mbind, cget_bind. rewrite Hg by done. by rewrite Hs.
Qed.

Lemma cgets_option {A} (g : CGet A) f o : (∀ a, o = Some a → cgets g (f a) a) → cgets (cget_option g) (put_option f o) o.
Proof.
  intros Hg. destruct o as [a|]; cbn [put_option].
  - change (Piece [1] :: f a) with ([Piece [1]] ++ f a). apply (cgets_bind _ _ _ _ 1); [apply cgets_u8|]. cbn [Z.eqb]. by apply (cgets_map g Some), Hg.
  - intros bs Hbs Hl. destruct (cgets_u8 0 bs Hbs Hl) as (c & Hc & Hu). exists c. split; [done|]. intros rest limit Hle. unfold cget_option, mbind, cget_bind. by rewrite Hu.
Qed.

Lemma cgets_graph o : graph_ok o → cgets cget_graph (put_graph o) o.
Proof. intros Ho. apply cgets_option. intros s Hs. by apply cgets_text, Ho. Qed.

Lemma cgets_default o : (∀ v, o = Some v → Value.ok v) → cgets cget_default (put_default o) o.
Proof.
  intros Ho. destruct o as [v|]; [|by apply (cgets_option _ put_value None)]. unfold put_default, encode_value. destruct (encode_nested v 0) as [b|e] eqn:E; [|done]. cbn [app].
  change [Piece [1]; ?x; ?y] with ([Piece [1]] ++ [x; y]). apply (cgets_bind _ _ _ _ 1); [apply cgets_u8|]. cbn [Z.eqb]. apply (cgets_map _ Some).
  assert (Hd : decode_value b 0 = Ok (v, length b)).
  { pose proof (ValueRoundTrip.reads_value v MAX_VALUE_DEPTH 0%nat b eq_refl (Ho v eq_refl) E b 0%nat []) as Hr. rewrite app_nil_r in Hr. apply Hr; [done|lia]. }
  intros bs Hbs Hl. destruct (cgets_bytes b bs Hbs Hl) as (c & Hc & Hg). exists c. split; [done|]. intros rest limit Hle. unfold mbind at 1, cget_bind at 1. by rewrite Hg, Hd, Nat.eqb_refl by done.
Qed.

(** ** Lists *)

(** The elements read back one after the other, each with the state the one
    before it leaves. *)
Fixpoint threaded {A S : Type} (g : S → CGet (A * S)) (f : A → list part) (l : list A) (s : S) : Prop :=
  match l with [] => True | a :: l => ∃ s', cgets (g s) (f a) (a, s') ∧ threaded g f l s' end.

Lemma cget_elements_ok {A S : Type} (g : S → CGet (A * S)) f l : ∀ s bs, threaded g f l s → parts_bytes (concat (map f l)) = Some bs → len bs < 2 ^ 64 →
  ∃ charge, 0 ≤ charge ≤ 8 * len bs ∧ ∀ rounds items rest limit, (length l ≤ rounds)%nat → charge ≤ limit →
    cget_elements g rounds (len l) s items (bs ++ rest) limit = Ok (items ++ l, rest, limit - charge).
Proof.
  induction l as [|a l IH]; intros s bs Ht Hbs Hl; cbn [map concat] in *.
  { injection Hbs as <-. exists 0. split; [unfold len; cbn; lia|]. intros rounds items rest limit _ _. rewrite app_nil_r, Z.sub_0_r. by destruct rounds. }
  destruct Ht as (s' & Ha & Ht). destruct (parts_bytes_split _ _ _ Hbs) as (x & y & Hx & Hy & ->). rewrite len_app in *. pose proof (len_nonneg x). pose proof (len_nonneg y).
  destruct (Ha x Hx ltac:(lia)) as (c & Hc & Hg). destruct (IH s' y Ht Hy ltac:(lia)) as (d & Hd & He). exists (c + d). split; [lia|]. intros rounds items rest limit Hr Hle. destruct rounds as [|rounds]; [cbn in Hr; lia|].
  cbn [cget_elements]. rewrite (proj2 (Z.leb_gt _ _)) by (unfold len; cbn [length]; lia). unfold mbind, cget_bind. rewrite <- app_assoc, Hg by lia. replace (len (a :: l) - 1) with (len l) by (unfold len; cbn [length]; lia).
  rewrite He by (cbn in Hr; lia). rewrite <- app_assoc. do 2 f_equal. lia.
Qed.

Lemma cgets_seq {A S : Type} (g : S → CGet (A * S)) f l s : threaded g f l s → (∀ a, a ∈ l → starts (f a)) → cgets (cget_seq g s) (put_list f l) l.
Proof.
  intros Ht Hst bs. cbn [put_list parts_bytes]. destruct (parts_bytes (concat (map f l))) as [b|] eqn:Hb; [|done]. cbn. intros [= <-] Hl. rewrite len_app in *.
  pose proof (len_nonneg (put_number (len l))). pose proof (len_nonneg b). assert (Hbl : len b < 2 ^ 64) by lia. pose proof (elements_bytes f l b (λ a c Ha, Hst a Ha c) Hb Hbl) as Hll.
  assert (Hn : is_u64 (len l)) by (unfold is_u64, len in *; lia). assert (Hu : parts_bytes (put_u64 (len l)) = Some (put_number (len l))) by (cbn; by rewrite app_nil_r).
  destruct (cgets_u64 (len l) Hn _ Hu ltac:(lia)) as (c & Hc & Hg). destruct (cget_elements_ok g f l s b Ht Hb Hbl) as (d & Hd & He). exists (c + d). split; [lia|]. intros rest limit Hle.
  unfold cget_seq, mbind, cget_bind. rewrite <- app_assoc, Hg, He by (try rewrite length_app; lia). do 2 f_equal. lia.
Qed.

Lemma cgets_list {A} (g : CGet A) f l : Forall (λ a, cgets g (f a) a) l → (∀ a, starts (f a)) → cgets (cget_list g) (put_list f l) l.
Proof.
  intros Hl Hst. apply cgets_seq; [|by intros]. induction Hl as [|a l Ha _ IH]; cbn [threaded]; [done|]. exists tt. split; [|exact IH]. by apply (cgets_map g (λ a, (a, tt))).
Qed.

Lemma starts_text s : starts (put_text s).
Proof. intros b. apply text_nonempty. Qed.

Definition texts_ok (l : list str) : Prop := Forall (λ s, utf8_valid s = true) l.

Lemma cgets_texts l : texts_ok l → cgets cget_texts (put_texts l) l.
Proof. intros Hl. apply cgets_list; [|apply starts_text]. eapply Forall_impl; [exact Hl|]. apply cgets_text. Qed.

(** ** Enums *)

Lemma cgets_case {A} (f : Z → CGet A) n q a : 0 ≤ n < 2 ^ 32 → cgets (f n) q a → cgets (v ← cget_u32; f v) (put_variant n ++ q) a.
Proof. intros Hn Hf. eapply cgets_bind; [by apply cgets_u32|exact Hf]. Qed.

Lemma cgets_unit {A} (f : Z → CGet A) n a : 0 ≤ n < 2 ^ 32 → f n = mret a → cgets (v ← cget_u32; f v) (put_variant n) a.
Proof. intros Hn Hf bs Hbs Hl. destruct (cgets_u32 n Hn bs Hbs Hl) as (c & Hc & Hg). exists c. split; [done|]. intros rest limit Hle. unfold mbind, cget_bind. rewrite Hg, Hf by done. done. Qed.

Lemma cgets_enum {A} (variants : list A) n a : 0 ≤ n < 2 ^ 32 → variants !! Z.to_nat n = Some a → cgets (cget_enum variants) (put_variant n) a.
Proof. intros Hn Ha. apply cgets_unit; [done|]. by rewrite Ha. Qed.

(** ** Property types *)

Fixpoint type_ok (r : PropertyTypeRecord.t) : Prop :=
  match r with
  | PropertyTypeRecord.ListOf inner => type_ok inner
  | PropertyTypeRecord.Decimal (Some d) => 1 ≤ DecimalType.precision d ≤ 38 ∧ 0 ≤ DecimalType.scale d ≤ DecimalType.precision d
  | _ => True
  end.

Definition decimal_code (precision scale : Z) : Z := Z.lor (Z.lor DECIMAL_TYPE_FLAG (Z.shiftl precision 8)) scale.

Definition decimal_code_reads (p s : Z) : bool :=
  let code := decimal_code p s in
  (Z.land code 4294901760 =? DECIMAL_TYPE_FLAG) && (Z.shiftr code 8 mod 256 =? p) && (code mod 256 =? s) && (16 <? code) && (code <? 2 ^ 32).

(** The codes of the decimal types there are. *)
Lemma decimal_codes p s : 0 ≤ p ≤ 38 → 0 ≤ s ≤ 38 → decimal_code_reads p s = true.
Proof.
  intros Hp Hs. assert (Hall : forallb (λ p, forallb (decimal_code_reads p) (seqZ 0 39)) (seqZ 0 39) = true) by (vm_compute; reflexivity).
  rewrite forallb_forall in Hall. specialize (Hall p). rewrite forallb_forall in Hall. apply Hall; apply list_elem_of_In, elem_of_seqZ; lia.
Qed.

Lemma of_code_decimal d : 1 ≤ DecimalType.precision d ≤ 38 → 0 ≤ DecimalType.scale d ≤ DecimalType.precision d →
  let code := decimal_code (DecimalType.precision d) (DecimalType.scale d) in 0 ≤ code < 2 ^ 32 ∧ PropertyTypeRecord.of_code code = Some (PropertyTypeRecord.Decimal (Some d)).
Proof.
  intros Hp Hs code. pose proof (decimal_codes (DecimalType.precision d) (DecimalType.scale d) ltac:(lia) ltac:(lia)) as Hr. unfold decimal_code_reads in Hr. fold code in Hr.
  rewrite !andb_true_iff, !Z.eqb_eq, !Z.ltb_lt in Hr. destruct Hr as ((((Hf & Hpr) & Hsc) & Hlo) & Hhi). split; [lia|].
  unfold PropertyTypeRecord.of_code. rewrite !(proj2 (Z.eqb_neq code _)) by lia. rewrite Hf, Hpr, Hsc. cbn [Z.eqb Pos.eqb DECIMAL_TYPE_FLAG]. unfold DecimalType.new, Decimal.MAX_DECIMAL_DIGITS.
  rewrite !(proj2 (Z.leb_le _ _)) by lia. by destruct d.
Qed.

(** A type is the levels around the type of its code. *)
Lemma levels_and_code_reads r : type_ok r → let (levels, code) := PropertyTypeRecord.levels_and_code r in
  0 ≤ code < 2 ^ 32 ∧ ∃ element, PropertyTypeRecord.of_code code = Some element ∧ Nat.iter levels PropertyTypeRecord.ListOf element = r.
Proof.
  induction r as [| | | | | | | | | | |r IH| | | | | |[d|]]; intros Hok; try (split; [lia|]; by eexists).
  - cbn [type_ok PropertyTypeRecord.levels_and_code] in *. specialize (IH Hok). destruct (PropertyTypeRecord.levels_and_code r) as [levels code]. destruct IH as (Hc & element & He & Hi).
    split; [done|]. exists element. split; [done|]. by rewrite Nat.iter_succ, Hi.
  - destruct Hok as [Hp Hs]. destruct (of_code_decimal d Hp Hs) as [Hc He]. split; [exact Hc|]. eexists. split; [exact He|done].
Qed.

Definition levels (r : PropertyTypeRecord.t) : nat := (PropertyTypeRecord.levels_and_code r).1.

Lemma cgets_type r left : type_ok r → (levels r ≤ left)%nat → cgets (cget_type left) (put_type r) (r, (left - levels r)%nat).
Proof.
  intros Hok Hle. pose proof (levels_and_code_reads r Hok) as Hr. unfold put_type, levels in *. destruct (PropertyTypeRecord.levels_and_code r) as [levels code]. cbn [fst] in *. destruct Hr as (Hc & element & He & Hi).
  destruct (Nat.ltb_spec MAX_LIST_TYPE_DEPTH levels) as [|Hmax]; [done|]. unfold cget_type, put_u32. assert (Hl : 0 ≤ Z.of_nat levels < 2 ^ 32) by (change MAX_LIST_TYPE_DEPTH with 128%nat in Hmax; lia).
  eapply cgets_case; [exact Hl|]. apply cgets_unit; [exact Hc|]. unfold PropertyTypeRecord.of_levels_and_code. rewrite (proj2 (Z.ltb_ge _ _)), Nat2Z.id, (proj2 (Nat.ltb_ge _ _)), He by lia. cbn [mbind option_bind]. by rewrite Hi.
Qed.

(** ** Properties *)

Definition property_record_ok (r : PropertyRecord) : Prop := utf8_valid (pr_name r) = true ∧ type_ok (data_type r) ∧ ∀ v, default_value r = Some v → Value.ok v.

Lemma cgets_property r left : property_record_ok r → (levels (data_type r) ≤ left)%nat → cgets (cget_property left) (put_property_record r) (r, (left - levels (data_type r))%nat).
Proof.
  intros (Hn & Ht & Hd) Hle. destruct r as [name ty nullable default]. unfold cget_property, put_property_record. cbn [pr_name data_type CatalogRecord.nullable default_value] in *.
  eapply cgets_bind; [by apply cgets_text|]. eapply cgets_bind; [by apply cgets_type|]. cbn beta iota. eapply cgets_bind; [apply cgets_bool|].
  by apply (cgets_map cget_default (λ d, (mkProperty name ty nullable d, (left - levels ty)%nat))), cgets_default.
Qed.

Fixpoint levels_of (l : list PropertyRecord) : nat := match l with [] => 0%nat | r :: l => (levels (data_type r) + levels_of l)%nat end.

Lemma cgets_properties l : Forall property_record_ok l → (levels_of l ≤ MAX_LIST_LEVELS_PER_RECORD)%nat → cgets deserialize_properties (put_list put_property_record l) l.
Proof.
  intros Hl. unfold deserialize_properties. generalize MAX_LIST_LEVELS_PER_RECORD. intros left Hle. apply cgets_seq; [|intros a _; apply starts_app, starts_text].
  revert left Hle. induction Hl as [|r l Hr _ IH]; intros left Hle; cbn [threaded levels_of] in *; [done|]. exists (left - levels (data_type r))%nat. split; [apply cgets_property; [done|lia]|]. apply IH. lia.
Qed.
End readers.

(** Reads field after field. *)
Ltac cfields :=
  repeat match goal with
  | |- cgets (mbind (λ x, mret _) _) _ _ => eapply (cgets_map _ _ _ _)
  | |- cgets (mbind _ _) (_ ++ _) _ => eapply cgets_bind
  | |- cgets cget_u64 _ _ => apply cgets_u64; assumption
  | |- cgets cget_u32 _ _ => apply cgets_u32; assumption
  | |- cgets cget_u8 _ _ => apply cgets_u8
  | |- cgets cget_f64 _ _ => apply cgets_f64; assumption
  | |- cgets cget_bool _ _ => apply cgets_bool
  | |- cgets cget_text _ _ => apply cgets_text; assumption
  | |- cgets cget_texts _ _ => apply cgets_texts; assumption
  | |- cgets cget_graph _ _ => apply cgets_graph; assumption
  | |- cgets deserialize_properties _ _ => apply cgets_properties; assumption
  end.

(** The variant of an enum, and then its fields. *)
Ltac cvariant :=
  lazymatch goal with
  | |- cgets _ (_ ++ _) _ => apply cgets_case; [lia|]; cbn [Z.eqb Pos.eqb]
  | |- cgets (cget_enum _) _ _ => apply cgets_enum; [lia|reflexivity]
  | |- cgets _ _ _ => apply cgets_unit; [lia|reflexivity]
  end.

(** ** Records *)

Section records.
Context `{Bincode}.

Definition u32_ok (n : Z) : Prop := 0 ≤ n < 2 ^ 32.

Definition type_constraint_ok (r : TypeConstraintRecord) : Prop :=
  match r with
  | PrimaryKey l | Unique l => texts_ok l
  | NotNull s => utf8_valid s = true
  | CheckRule name expression => graph_ok name ∧ utf8_valid expression = true
  end.
Definition endpoints_ok (r : EndpointPair) : Prop := graph_ok (source_type r) ∧ graph_ok (target_type r).
Definition history_ok (r : HistoryRetentionRecord) : Prop := match r with HistoryDuration millis => is_u64 millis | _ => True end.
Definition durability_ok (r : DurabilityRecord) : Prop :=
  match r with Batch delay records => is_u64 delay ∧ is_u64 records | Adaptive interval => is_u64 interval | _ => True end.
Definition limit_ok (o : option Z) : Prop := ∀ n, o = Some n → is_u64 n.
Definition section_memory_ok (r : SectionMemoryRecord) : Prop := is_byte (section_code r) ∧ limit_ok (max_ram r).
Definition quantization_ok (r : QuantizationRecord) : Prop := match r with Product n => u32_ok n | _ => True end.
Definition index_kind_ok (r : IndexKindRecord) : Prop :=
  match r with
  | PropertyIndex key => utf8_valid key = true
  | VectorIndex label property dimensions _ m ef quantization =>
      utf8_valid label = true ∧ utf8_valid property = true ∧ u32_ok dimensions ∧ u32_ok m ∧ u32_ok ef ∧ quantization_ok quantization
  | TextIndex label property k1 b _ stop_words =>
      utf8_valid label = true ∧ utf8_valid property = true ∧ is_u64 k1 ∧ is_u64 b ∧ ∀ l, stop_words = Some l → texts_ok l
  end.
Definition column_ok (c : str * str) : Prop := utf8_valid c.1 = true ∧ utf8_valid c.2 = true.

(** Strings are UTF-8, numbers are of their width, default values are values
    and the types of decimals are ones there are. *)
Definition catalog_record_ok (r : CatalogRecord) : Prop :=
  match r with
  | Schema_ r => utf8_valid (sc_name r) = true
  | NodeType r => utf8_valid (nt_name r) = true ∧ Forall property_record_ok (nt_properties r) ∧ Forall type_constraint_ok (nt_constraints r) ∧ texts_ok (parent_types r) ∧ texts_ok (nt_key_labels r)
  | EdgeType r => utf8_valid (et_name r) = true ∧ Forall property_record_ok (et_properties r) ∧ Forall type_constraint_ok (et_constraints r) ∧ Forall endpoints_ok (endpoints r) ∧ texts_ok (et_key_labels r)
  | GraphType r => utf8_valid (gt_name r) = true ∧ texts_ok (node_types r) ∧ texts_ok (edge_types r)
  | GraphBinding r => utf8_valid (gb_graph r) = true ∧ utf8_valid (gb_graph_type r) = true
  | Constraint_ r => utf8_valid (cn_name r) = true ∧ utf8_valid (cn_label r) = true ∧ texts_ok (cn_properties r)
  | Index_ r => graph_ok (ix_graph r) ∧ index_kind_ok (ix_index r)
  | IndexName r => utf8_valid (in_name r) = true ∧ utf8_valid (in_label r) = true ∧ utf8_valid (in_property r) = true
  | Procedure_ r => utf8_valid (pc_name r) = true ∧ Forall column_ok (params r) ∧ Forall column_ok (returns r) ∧ utf8_valid (body_ r) = true
  | StoredConfig r => durability_ok (wal_durability r) ∧ limit_ok (memory_limit r) ∧ graph_ok (spill_path r) ∧ Forall section_memory_ok (sections r) ∧ history_ok (history_retention r)
  | LabelIndex r => graph_ok (li_graph r) ∧ utf8_valid (li_label r) = true ∧ utf8_valid (li_key r) = true
  end.

Lemma cgets_type_constraint r : type_constraint_ok r → cgets cget_type_constraint (put_type_constraint r) r.
Proof. unfold cget_type_constraint. destruct r; cbn [type_constraint_ok put_type_constraint]; intros Hr; cvariant; [..|destruct Hr]; cfields. Qed.

Lemma cgets_constraints l : Forall type_constraint_ok l → cgets (cget_list cget_type_constraint) (put_list put_type_constraint l) l.
Proof.
  intros Hl. apply cgets_list; [eapply Forall_impl; [exact Hl|]; apply cgets_type_constraint|]. intros r. destruct r; apply starts_app, starts_piece, put_variant_nonempty.
Qed.

Lemma starts_option {A} (f : A → list part) o : starts (put_option f o).
Proof. destruct o; by apply starts_piece. Qed.

Lemma cgets_endpoints l : Forall endpoints_ok l → cgets (cget_list cget_endpoints) (put_list put_endpoints l) l.
Proof.
  intros Hl. apply cgets_list; [eapply Forall_impl; [exact Hl|]|intros r; apply starts_app, starts_option]. intros [s t] [Hs Ht]. unfold cget_endpoints, put_endpoints. cbn [source_type target_type] in *. cfields.
Qed.

Lemma cgets_history r : history_ok r → cgets cget_history (put_history r) r.
Proof. unfold cget_history. destruct r; cbn [history_ok put_history]; intros Hr; cvariant. cfields. Qed.

Lemma cgets_durability r : durability_ok r → cgets cget_durability (put_durability r) r.
Proof. unfold cget_durability. destruct r; cbn [durability_ok put_durability]; intros Hr; cvariant; [destruct Hr|]; cfields. Qed.

Lemma cgets_limit o : limit_ok o → cgets (cget_option cget_u64) (put_option put_u64 o) o.
Proof. intros Ho. apply cgets_option. intros n Hn. by apply cgets_u64, Ho. Qed.

Lemma cgets_section_memory r : section_memory_ok r → cgets cget_section_memory (put_section_memory r) r.
Proof.
  intros [_ Hr]. destruct r as [code ram tier]. unfold cget_section_memory, put_section_memory. cbn [section_code max_ram CatalogRecord.tier] in *. cfields; [by apply cgets_limit|].
  unfold cget_tier, put_tier. destruct tier; cvariant.
Qed.

Lemma cgets_memory l : Forall section_memory_ok l → cgets (cget_list cget_section_memory) (put_list put_section_memory l) l.
Proof. intros Hl. apply cgets_list; [eapply Forall_impl; [exact Hl|]; apply cgets_section_memory|]. intros r. by apply starts_app, starts_piece. Qed.

Lemma cgets_quantization r : quantization_ok r → cgets cget_quantization (put_quantization r) r.
Proof. unfold cget_quantization. destruct r; cbn [quantization_ok put_quantization]; intros Hr; cvariant. cfields. Qed.

Lemma cgets_metric r : cgets cget_metric (put_metric r) r.
Proof. unfold cget_metric, put_metric. destruct r; cvariant. Qed.

Lemma cgets_tokenizer r : cgets cget_tokenizer (put_tokenizer r) r.
Proof. unfold cget_tokenizer, put_tokenizer. destruct r; cvariant. Qed.

Lemma cgets_index_kind r : index_kind_ok r → cgets cget_index_kind (put_index_kind r) r.
Proof.
  unfold cget_index_kind. destruct r; cbn [index_kind_ok put_index_kind]; intros Hr; cvariant; [|destruct Hr as (? & ? & ? & ? & ? & ?)|destruct Hr as (? & ? & ? & ? & Hw)]; cfields.
  - apply cgets_metric.
  - by apply cgets_quantization.
  - apply cgets_tokenizer.
  - apply cgets_option. intros l Hl. by apply cgets_texts, Hw.
Qed.

Lemma cgets_columns l : Forall column_ok l → cgets (cget_list cget_column) (put_list put_column l) l.
Proof.
  intros Hl. apply cgets_list; [eapply Forall_impl; [exact Hl|]|intros r; apply starts_app, starts_text]. intros [name ty] [Hn Ht]. unfold cget_column, put_column. cbn [fst snd] in *.
  eapply cgets_bind; [by apply cgets_text|]. by apply (cgets_map cget_text (λ ty, (name, ty))), cgets_text.
Qed.

(** ** Payloads *)

Definition level_counts (l : list PropertyRecord) : list Z := map (λ p, Z.of_nat (PropertyTypeRecord.levels_and_code (data_type p)).1) l.

Lemma level_counts_sum l start : 0 ≤ start → saturating_total start (level_counts l) < usize_max → start + Z.of_nat (levels_of l) ≤ saturating_total start (level_counts l).
Proof.
  revert start. induction l as [|r l IH]; intros start Hs; [unfold saturating_total; cbn; lia|]. unfold level_counts. cbn [map levels_of]. fold (level_counts l). unfold levels. generalize (PropertyTypeRecord.levels_and_code (data_type r)).1. intros n.
  change (saturating_total start (Z.of_nat n :: level_counts l)) with (saturating_total (saturating_add start (Z.of_nat n)) (level_counts l)). intros Hlt.
  assert (H0 : 0 ≤ saturating_add start (Z.of_nat n)) by (unfold saturating_add, usize_max; lia). specialize (IH _ H0 Hlt). unfold saturating_add in IH at 1. lia.
Qed.

(** A record within the cap has few enough levels to be read. *)
Lemma capped_levels r parts : encode_payload r = Ok parts → parts = put_record r ∧ (levels_of (Catalog.properties r) ≤ MAX_LIST_LEVELS_PER_RECORD)%nat.
Proof.
  unfold encode_payload, total_levels. fold (level_counts (Catalog.properties r)). destruct (Z.ltb_spec (Z.of_nat MAX_LIST_LEVELS_PER_RECORD) (saturating_total 0 (level_counts (Catalog.properties r)))) as [|Hle]; [done|]. intros [= <-]. split; [done|].
  assert (Hmax : Z.of_nat MAX_LIST_LEVELS_PER_RECORD < usize_max) by (vm_compute; reflexivity). pose proof (level_counts_sum (Catalog.properties r) 0 ltac:(lia) ltac:(lia)). lia.
Qed.

Lemma decode_bincode_ok {A} (g : CGet A) parts a b : cgets g parts a → parts_bytes parts = Some b → len b ≤ MAX_CATALOG_RECORD_PAYLOAD → decode_bincode_payload g CATALOG_DECODE_LIMIT b = Ok a.
Proof.
  intros Hg Hb Hl. unfold MAX_CATALOG_RECORD_PAYLOAD in Hl. destruct (Hg b Hb ltac:(lia)) as (c & Hc & Hr). unfold decode_bincode_payload. specialize (Hr [] CATALOG_DECODE_LIMIT). rewrite app_nil_r in Hr. by rewrite Hr by (unfold CATALOG_DECODE_LIMIT; lia).
Qed.

(** The reader of each record takes what is written for it. *)
Definition reads {A} (g : CGet A) (f : A → CatalogRecord) (r : CatalogRecord) : Prop := ∃ a, r = f a ∧ cgets g (put_record r) a.

Lemma reads_schema r : catalog_record_ok (Schema_ r) → reads cget_schema Schema_ (Schema_ r).
Proof. intros Hok. exists r. split; [done|]. destruct r as [n]. unfold cget_schema. cbn [put_record]. unfold put_schema. cbn [catalog_record_ok sc_name] in *. cfields. Qed.

Lemma reads_node_type r : (levels_of (nt_properties r) ≤ MAX_LIST_LEVELS_PER_RECORD)%nat → catalog_record_ok (NodeType r) → reads cget_node_type NodeType (NodeType r).
Proof.
  intros Hlv Hok. exists r. split; [done|]. destruct r as [n ps cs ts ls]. unfold cget_node_type. cbn [put_record]. unfold put_node_type. cbn [catalog_record_ok nt_name nt_properties nt_constraints parent_types nt_key_labels] in *.
  destruct Hok as (? & ? & ? & ? & ?). cfields. by apply cgets_constraints.
Qed.

Lemma reads_edge_type r : (levels_of (et_properties r) ≤ MAX_LIST_LEVELS_PER_RECORD)%nat → catalog_record_ok (EdgeType r) → reads cget_edge_type EdgeType (EdgeType r).
Proof.
  intros Hlv Hok. exists r. split; [done|]. destruct r as [n ps cs es ls]. unfold cget_edge_type. cbn [put_record]. unfold put_edge_type. cbn [catalog_record_ok et_name et_properties et_constraints endpoints et_key_labels] in *.
  destruct Hok as (? & ? & ? & ? & ?). cfields; [by apply cgets_constraints|by apply cgets_endpoints].
Qed.

Lemma reads_graph_type r : catalog_record_ok (GraphType r) → reads cget_graph_type GraphType (GraphType r).
Proof.
  intros Hok. exists r. split; [done|]. destruct r as [n ns es o]. unfold cget_graph_type. cbn [put_record]. unfold put_graph_type. cbn [catalog_record_ok gt_name node_types edge_types open_] in *. destruct Hok as (? & ? & ?). cfields.
Qed.

Lemma reads_graph_binding r : catalog_record_ok (GraphBinding r) → reads cget_graph_binding GraphBinding (GraphBinding r).
Proof. intros Hok. exists r. split; [done|]. destruct r as [g t]. unfold cget_graph_binding. cbn [put_record]. unfold put_graph_binding. cbn [catalog_record_ok gb_graph gb_graph_type] in *. destruct Hok. cfields. Qed.

Lemma reads_constraint r : catalog_record_ok (Constraint_ r) → reads cget_constraint Constraint_ (Constraint_ r).
Proof.
  intros Hok. exists r. split; [done|]. destruct r as [n l ps k]. unfold cget_constraint. cbn [put_record]. unfold put_constraint. cbn [catalog_record_ok cn_name cn_label cn_properties cn_kind] in *. destruct Hok as (? & ? & ?). cfields.
  unfold cget_constraint_kind, put_constraint_kind. destruct k; cvariant.
Qed.

Lemma reads_index r : catalog_record_ok (Index_ r) → reads cget_index Index_ (Index_ r).
Proof.
  intros Hok. exists r. split; [done|]. destruct r as [g i]. unfold cget_index. cbn [put_record]. unfold put_index. cbn [catalog_record_ok ix_graph ix_index] in *. destruct Hok. cfields. by apply cgets_index_kind.
Qed.

Lemma reads_index_name r : catalog_record_ok (IndexName r) → reads cget_index_name IndexName (IndexName r).
Proof.
  intros Hok. exists r. split; [done|]. destruct r as [n l p k]. unfold cget_index_name. cbn [put_record]. unfold put_index_name. cbn [catalog_record_ok in_name in_label in_property in_kind] in *. destruct Hok as (? & ? & ?). cfields.
  unfold cget_index_name_kind, put_index_name_kind. destruct k; cvariant.
Qed.

Lemma reads_procedure r : catalog_record_ok (Procedure_ r) → reads cget_procedure Procedure_ (Procedure_ r).
Proof.
  intros Hok. exists r. split; [done|]. destruct r as [n ps rs b]. unfold cget_procedure. cbn [put_record]. unfold put_procedure. cbn [catalog_record_ok pc_name params returns body_] in *. destruct Hok as (? & ? & ? & ?). cfields; by apply cgets_columns.
Qed.

Lemma reads_stored_config r : catalog_record_ok (StoredConfig r) → reads cget_stored_config StoredConfig (StoredConfig r).
Proof.
  intros Hok. exists r. split; [done|]. destruct r as [g b c w d l s m h]. unfold cget_stored_config. cbn [put_record]. unfold put_stored_config.
  cbn [catalog_record_ok graph_model backward_edges schema_constraints wal_enabled wal_durability memory_limit spill_path sections history_retention] in *. destruct Hok as (? & ? & ? & ? & ?).
  cfields; [|by apply cgets_durability|by apply cgets_limit|by apply cgets_memory|by apply cgets_history]. unfold cget_model, put_model. destruct g; cvariant.
Qed.

Lemma reads_label_index r : catalog_record_ok (LabelIndex r) → reads cget_label_index LabelIndex (LabelIndex r).
Proof. intros Hok. exists r. split; [done|]. destruct r as [g l k]. unfold cget_label_index. cbn [put_record]. unfold put_label_index. cbn [catalog_record_ok li_graph li_label li_key] in *. destruct Hok as (? & ? & ?). cfields. Qed.

Lemma decode_reads {A} (g : CGet A) f r b : reads g f r → parts_bytes (put_record r) = Some b → len b ≤ MAX_CATALOG_RECORD_PAYLOAD →
  (a ← decode_bincode_payload g CATALOG_DECODE_LIMIT b; Ok (Some (f a))) = Ok (Some r).
Proof. intros (a & -> & Hg) Hb Hl. by rewrite (decode_bincode_ok g _ _ _ Hg Hb Hl). Qed.

Lemma decode_written r b : catalog_record_ok r → (levels_of (Catalog.properties r) ≤ MAX_LIST_LEVELS_PER_RECORD)%nat → parts_bytes (put_record r) = Some b → len b ≤ MAX_CATALOG_RECORD_PAYLOAD →
  decode_payload (Catalog.kind r) b = Ok (Some r).
Proof.
  intros Hok Hlv Hb Hl. unfold decode_payload. destruct r; cbn [Catalog.kind Catalog.properties Z.eqb Pos.eqb] in *; (refine (decode_reads _ _ _ b _ Hb Hl)); clear Hb Hl.
  - by apply reads_schema.
  - by apply reads_node_type.
  - by apply reads_edge_type.
  - by apply reads_graph_type.
  - by apply reads_graph_binding.
  - by apply reads_constraint.
  - by apply reads_index.
  - by apply reads_index_name.
  - by apply reads_procedure.
  - by apply reads_stored_config.
  - by apply reads_label_index.
Qed.

(** ** What is written is bytes *)

Lemma in_byte n : is_byte n → parts_in [Piece [n]].
Proof. intros Hn. apply in_piece; [by apply Forall_cons_2|apply in_none]. Qed.

Lemma in_bool b : parts_in (put_bool b).
Proof. apply in_byte. destruct b; cbn; unfold is_byte; lia. Qed.

Lemma in_float n : parts_in (put_f64 n).
Proof. apply in_piece; [apply put_float_bytes|apply in_none]. Qed.

Lemma in_texts l : texts_ok l → parts_in (put_texts l).
Proof. apply in_labels. Qed.

Lemma in_type r : parts_in (put_type r).
Proof. unfold put_type. destruct (PropertyTypeRecord.levels_and_code r) as [levels code]. destruct (_ <? _)%nat; [by constructor|]. apply in_app; apply in_variant. Qed.

Lemma in_default o : (∀ v, o = Some v → Value.ok v) → parts_in (put_default o).
Proof.
  intros Ho. destruct o as [v|]; [|apply in_byte; unfold is_byte; lia]. unfold put_default, encode_value. destruct (encode_nested v 0) as [b|e] eqn:E; [|by constructor].
  apply (in_app [Piece [1]]); [apply in_byte; unfold is_byte; lia|]. apply in_piece; [apply put_number_bytes|]. apply in_piece; [eapply encode_value_bytes; [exact (Ho v eq_refl)|exact E]|apply in_none].
Qed.

Lemma in_each {A} (P : A → Prop) (f : A → list part) l : (∀ a, P a → parts_in (f a)) → Forall P l → parts_in (put_list f l).
Proof. intros Hf Hl. apply in_list. eapply Forall_impl; [exact Hl|exact Hf]. Qed.

Ltac each_part :=
  repeat match goal with
  | |- parts_in (_ ++ _) => apply in_app
  | |- parts_in (put_variant _) => apply in_variant
  | |- parts_in (put_u32 _) => apply in_variant
  | |- parts_in (put_u64 _) => apply in_number
  | |- parts_in (put_f64 _) => apply in_float
  | |- parts_in (put_bool _) => apply in_bool
  | |- parts_in (put_text _) => apply in_text; assumption
  | |- parts_in (put_texts _) => apply in_texts; assumption
  | |- parts_in (put_graph _) => apply in_graph; assumption
  end.

Lemma in_property_record r : property_record_ok r → parts_in (put_property_record r).
Proof. intros (Hn & _ & Hd). unfold put_property_record. each_part; [apply in_type|by apply in_default]. Qed.

Lemma in_type_constraint r : type_constraint_ok r → parts_in (put_type_constraint r).
Proof. destruct r; cbn [type_constraint_ok put_type_constraint]; intros Hr; [..|destruct Hr]; each_part. Qed.

Lemma in_endpoints r : endpoints_ok r → parts_in (put_endpoints r).
Proof. intros [Hs Ht]. unfold put_endpoints. each_part. Qed.

Lemma in_column c : column_ok c → parts_in (put_column c).
Proof. intros [Hn Ht]. unfold put_column. each_part. Qed.

Lemma in_limit o : parts_in (put_option put_u64 o).
Proof. apply in_option. intros n _. apply in_number. Qed.

Lemma in_section_memory r : section_memory_ok r → parts_in (put_section_memory r).
Proof. intros [Hc _]. unfold put_section_memory. each_part; [by apply in_byte|apply in_limit|apply in_variant]. Qed.

Lemma in_index_kind r : index_kind_ok r → parts_in (put_index_kind r).
Proof.
  destruct r; cbn [index_kind_ok put_index_kind]; intros Hr; [|destruct Hr as (? & ? & ? & ? & ? & ?)|destruct Hr as (? & ? & ? & ? & Hw)]; each_part; try apply in_variant.
  - destruct quantization; cbn [put_quantization]; each_part.
  - apply in_option. intros l Hl. by apply in_texts, Hw.
Qed.

Lemma in_record r : catalog_record_ok r → parts_in (put_record r).
Proof.
  destruct r as [r|r|r|r|r|r|r|r|r|r|r]; cbn [catalog_record_ok put_record]; intros Hok; try by apply in_text.
  - destruct Hok as (? & Hp & Hc & ? & ?). unfold put_node_type. each_part; [by eapply in_each; [apply in_property_record|]|by eapply in_each; [apply in_type_constraint|]].
  - destruct Hok as (? & Hp & Hc & He & ?). unfold put_edge_type. each_part; [by eapply in_each; [apply in_property_record|]|by eapply in_each; [apply in_type_constraint|]|by eapply in_each; [apply in_endpoints|]].
  - destruct Hok as (? & ? & ?). unfold put_graph_type. each_part.
  - destruct Hok as (? & ?). unfold put_graph_binding. each_part.
  - destruct Hok as (? & ? & ?). unfold put_constraint. each_part. apply in_variant.
  - destruct Hok as (? & ?). unfold put_index. each_part. by apply in_index_kind.
  - destruct Hok as (? & ? & ?). unfold put_index_name. each_part. apply in_variant.
  - destruct Hok as (? & Hp & Hr & ?). unfold put_procedure. each_part; by eapply in_each; [apply in_column|].
  - destruct Hok as (Hd & Hl & ? & Hs & Hh). unfold put_stored_config. each_part; [apply in_variant| |apply in_limit|by eapply in_each; [apply in_section_memory|]|].
    + destruct (wal_durability r); cbn [put_durability]; each_part.
    + destruct (history_retention r); cbn [put_history]; each_part.
  - destruct Hok as (? & ? & ?). unfold put_label_index. each_part.
Qed.

(** ** What the log asks of the catalog *)

Lemma catalog_keeps r : catalog_record_ok r → catalog_reads_back r.
Proof.
  intros Hok. split_and!; [destruct r; cbn; unfold is_byte; lia|destruct r; cbn; unfold is_byte, RECORD_REQUIRED; lia| |].
  - intros parts Hp. destruct (capped_levels r parts Hp) as [-> _]. by apply in_record.
  - intros parts b Hp Hb Hl. destruct (capped_levels r parts Hp) as [-> Hlv]. by apply decode_written.
Qed.

(** So the log takes every record of a catalog. *)
Lemma catalog_record_logged r : catalog_record_ok r → record_ok (Standalone (PutCatalog (r : LogRecord.CatalogRecord))).
Proof. exact (catalog_keeps r). Qed.

(** ** Catalogs *)

(** Records written one behind the other. *)
Fixpoint encode_catalog (rs : list CatalogRecord) (out : list Z) : result (record_error catalog_error) unit * list Z :=
  match rs with
  | [] => (Ok tt, out)
  | r :: rs => match CatalogRecord.encode_framed r out with (Ok _, out) => encode_catalog rs out | (Err e, out) => (Err e, out) end
  end.

Lemma encode_framed_frame r out x out' : CatalogRecord.encode_framed r out = (x, out') →
  match x with
  | Err _ => out' = out
  | Ok _ => ∃ parts b, encode_payload r = Ok parts ∧ parts_bytes parts = Some b ∧ out' = out ++ frame (Catalog.kind r) (Catalog.flags r) b ∧
      len b ≤ MAX_CATALOG_RECORD_PAYLOAD ∧ Catalog.kind r ≠ 0 ∧ Z.land (Catalog.flags r) 254 = 0
  end.
Proof. exact (catalog_framed (H0 := catalog) r out x out'). Qed.

(** The decoder of the records, as the framing takes it. *)
Abbreviation decode_framed := (λ kind (_ : bool), decode_payload kind).

Lemma encode_catalog_frames rs out out' : Forall catalog_record_ok rs → encode_catalog rs out = (Ok tt, out') →
  ∃ bytes, out' = out ++ bytes ∧ frames_of CATALOG_FRAMING decode_framed bytes (map Some rs).
Proof.
  revert out. induction rs as [|r rs IH]; intros out Hok; cbn [encode_catalog].
  { intros [= <-]. exists []. rewrite app_nil_r. split; [done|]. exists []. by split; [constructor|]. }
  inversion_clear Hok as [|? ? Hr Hrs]. destruct (CatalogRecord.encode_framed r out) as [[u|e] out1] eqn:He; [|done]. intros Hall. apply encode_framed_frame in He as (parts & b & Hp & Hb & -> & Hl & Hk & Hf).
  destruct (IH _ Hrs Hall) as (bytes & -> & fs & Hfs & ->). eexists. rewrite <- app_assoc. split; [reflexivity|]. eexists (_ :: fs). split; [|reflexivity]. constructor; [|exact Hfs].
  exists (Catalog.kind r), (Catalog.flags r), b. destruct (catalog_keeps r Hr) as (_ & _ & _ & Hd). split_and!; [done|by apply flags_known|done|exact Hl|exact (Hd parts b Hp Hb Hl)|done].
Qed.

(** C21: Catalogs read back. The records of a catalog, of every kind, written
    one behind the other, are read back as they were written and applied in
    order up to the first whose application fails: no record the writer takes
    reaches the limit its reader decodes under. *)
Theorem catalog_records_read_back {A S : Type} (apply : CatalogRecord → S → result A unit * S) rs bytes s : Forall catalog_record_ok rs → encode_catalog rs [] = (Ok tt, bytes) →
  read_catalog_records bytes apply s = match apply_all apply rs s with (Ok _, s) => (Ok tt, s) | (Err e, s) => (Err (ApplyFailed e), s) end.
Proof.
  intros Hok He. destruct (encode_catalog_frames rs [] bytes Hok He) as (b & -> & Hb). cbn [app]. unfold read_catalog_records, read_framed_records.
  destruct (read_frames_app CATALOG_FRAMING (proj2 catalog_bounds) decode_framed apply _ b [] (length b) 0 0 s Hb) as (rounds & offset & _ & _ & Heq); [by rewrite app_nil_r|].
  rewrite app_nil_r, omap_Some in Heq. rewrite Heq. destruct (apply_all apply rs s) as [[u|e] s1]; [by destruct rounds|done].
Qed.

(** ** Levels of what is read *)

Lemma cbind_inv {A B} (g : CGet A) (f : A → CGet B) bytes limit x : (g ≫= f) bytes limit = Ok x → ∃ a bytes' limit', g bytes limit = Ok (a, bytes', limit') ∧ f a bytes' limit' = Ok x.
Proof. unfold mbind, cget_bind. destruct (g bytes limit) as [[[a bytes'] limit']|e]; [|done]. intros Hf. by exists a, bytes', limit'. Qed.

Lemma iter_levels n element : levels (Nat.iter n PropertyTypeRecord.ListOf element) = (n + levels element)%nat.
Proof.
  induction n as [|n IH]; [done|]. rewrite Nat.iter_succ. unfold levels in *. cbn [PropertyTypeRecord.levels_and_code]. destruct (PropertyTypeRecord.levels_and_code (Nat.iter n _ _)). cbn [fst] in *. lia.
Qed.

Lemma code_levels code r : PropertyTypeRecord.of_code code = Some r → levels r = 0%nat.
Proof. unfold PropertyTypeRecord.of_code. intros Hr. repeat case_match; by simplify_eq. Qed.

Lemma type_levels left bytes limit r left' bytes' limit' : cget_type left bytes limit = Ok (r, left', bytes', limit') → (levels r ≤ MAX_LIST_TYPE_DEPTH ∧ levels r + left' = left)%nat.
Proof.
  unfold cget_type. intros (lv & b1 & l1 & _ & (code & b2 & l2 & _ & Hr)%cbind_inv)%cbind_inv. unfold PropertyTypeRecord.of_levels_and_code in Hr.
  destruct (Z.ltb_spec (Z.of_nat MAX_LIST_TYPE_DEPTH) lv); [done|]. destruct (Nat.ltb_spec left (Z.to_nat lv)); [done|]. destruct (PropertyTypeRecord.of_code code) as [element|] eqn:Hc; [|done].
  cbn [mbind option_bind] in Hr. injection Hr as <- <- _ _. rewrite iter_levels, (code_levels _ _ Hc). generalize dependent MAX_LIST_TYPE_DEPTH. intros. lia.
Qed.

Definition depths_ok (l : list PropertyRecord) : Prop := Forall (λ p, (levels (data_type p) ≤ MAX_LIST_TYPE_DEPTH)%nat) l.

Lemma property_levels left bytes limit r left' bytes' limit' : cget_property left bytes limit = Ok (r, left', bytes', limit') →
  (levels (data_type r) ≤ MAX_LIST_TYPE_DEPTH ∧ levels (data_type r) + left' = left)%nat.
Proof.
  unfold cget_property. intros (n & b1 & l1 & _ & ([ty lf] & b2 & l2 & Ht & (nl & b3 & l3 & _ & (d & b4 & l4 & _ & Hr)%cbind_inv)%cbind_inv)%cbind_inv)%cbind_inv.
  injection Hr as <- <- _ _. cbn [data_type]. exact (type_levels _ _ _ _ _ _ _ Ht).
Qed.

Lemma levels_of_app l l' : levels_of (l ++ l') = (levels_of l + levels_of l')%nat.
Proof. induction l as [|r l IH]; cbn [app levels_of]; lia. Qed.

Lemma elements_levels rounds : ∀ count left items bytes limit l bytes' limit', depths_ok items → cget_elements cget_property rounds count left items bytes limit = Ok (l, bytes', limit') →
  depths_ok l ∧ (levels_of l ≤ levels_of items + left)%nat.
Proof.
  induction rounds as [|rounds IH]; intros count left items bytes limit l bytes' limit' Hi; cbn [cget_elements]; destruct (count <=? 0); try done; try (intros [= <- _ _]; split; [done|lia]).
  intros ([r left'] & b1 & l1 & Hr & He)%cbind_inv. apply property_levels in Hr as [Hd Hs]. apply IH in He as [Hl Hle]; [|apply Forall_app_2; [done|by apply Forall_cons_2]].
  split; [done|]. rewrite levels_of_app in Hle. cbn [levels_of] in Hle. lia.
Qed.

Definition levels_bounded (l : list PropertyRecord) : Prop := depths_ok l ∧ (levels_of l ≤ MAX_LIST_LEVELS_PER_RECORD)%nat.

Lemma properties_levels bytes limit l bytes' limit' : deserialize_properties bytes limit = Ok (l, bytes', limit') → levels_bounded l.
Proof. unfold deserialize_properties, cget_seq. intros (n & b1 & l1 & _ & He)%cbind_inv. apply elements_levels in He; [exact He|constructor]. Qed.

Lemma decode_bincode_inv {A} (g : CGet A) (f : A → CatalogRecord) payload r : (a ← decode_bincode_payload g CATALOG_DECODE_LIMIT payload; Ok (Some (f a))) = Ok (Some r) →
  ∃ a limit, g payload CATALOG_DECODE_LIMIT = Ok (a, [], limit) ∧ r = f a.
Proof. unfold decode_bincode_payload. destruct (g payload CATALOG_DECODE_LIMIT) as [[[a [|x rest]] limit]|[]]; [|done..]. intros [= <-]. by exists a, limit. Qed.

(** Levels of decoded types. Whatever bytes a record is decoded from, its
    property types nest no deeper than a type may and hold no more levels
    together than a record may. *)
Theorem decoded_levels_are_bounded kind payload r : decode_payload kind payload = Ok (Some r) → levels_bounded (Catalog.properties r).
Proof.
  assert (Hnone : levels_bounded []) by (split; [constructor|apply Nat.le_0_l]).
  unfold decode_payload. intros Hd. repeat (destruct (kind =? _); [apply decode_bincode_inv in Hd as (a & limit & Ha & ->); try exact Hnone|]); [| |done].
  - revert Ha. unfold cget_node_type. intros (n & b1 & l1 & _ & (ps & b2 & l2 & Hps & (cs & b3 & l3 & _ & (ts & b4 & l4 & _ & (ls & b5 & l5 & _ & Hr)%cbind_inv)%cbind_inv)%cbind_inv)%cbind_inv)%cbind_inv.
    injection Hr as <- _ _. exact (properties_levels _ _ _ _ _ Hps).
  - revert Ha. unfold cget_edge_type. intros (n & b1 & l1 & _ & (ps & b2 & l2 & Hps & (cs & b3 & l3 & _ & (es & b4 & l4 & _ & (ls & b5 & l5 & _ & Hr)%cbind_inv)%cbind_inv)%cbind_inv)%cbind_inv)%cbind_inv.
    injection Hr as <- _ _. exact (properties_levels _ _ _ _ _ Hps).
Qed.

(** A record whose types hold more levels together than a record may is
    refused, and nothing is written. *)
Theorem too_many_levels_are_refused r out : total_levels r > Z.of_nat MAX_LIST_LEVELS_PER_RECORD →
  ∃ e, CatalogRecord.encode_framed r out = (Err e, out).
Proof.
  intros Hl. destruct (CatalogRecord.encode_framed r out) as [[u|e] out'] eqn:He; apply encode_framed_frame in He.
  - destruct He as (parts & b & Hp & _). unfold encode_payload in Hp. rewrite (proj2 (Z.ltb_lt _ _)) in Hp by lia. done.
  - exists e. by rewrite He.
Qed.
End records.

(** ** Samples *)

Module CatalogSamples.
#[local] Existing Instance LogSamples.varint.

Definition collect_catalog (r : CatalogRecord) (l : list CatalogRecord) : result unit unit * list CatalogRecord := (Ok tt, l ++ [r]).

Lemma collect_catalog_all rs l : apply_all collect_catalog rs l = (Ok tt, l ++ rs).
Proof. revert l. induction rs as [|r rs IH]; intros l; cbn [apply_all collect_catalog]; [by rewrite app_nil_r|]. by rewrite IH, <- app_assoc. Qed.

(** A person with a name, a list of lists of prices and a default age. *)
Definition person : NodeTypeRecord :=
  mkNodeType [80]
    [ mkProperty [110] PropertyTypeRecord.String false None;
      mkProperty [112] (PropertyTypeRecord.ListOf (PropertyTypeRecord.ListOf (PropertyTypeRecord.Decimal (Some (DecimalType.mk 10 2))))) true None;
      mkProperty [97] PropertyTypeRecord.Int64 true (Some (Value.Int64 18)) ]
    [PrimaryKey [[110]]; CheckRule None [97; 62; 48]] [] [[80]].

Definition sample_catalog : list CatalogRecord :=
  [ Schema_ (mkSchema [115]); NodeType person; EdgeType (mkEdgeType [75] [] [NotNull [115]] [mkEndpoints (Some [80]) None] []); GraphType (mkGraphType [103] [[80]] [[75]] true);
    GraphBinding (mkGraphBinding [104] [103]); Constraint_ (mkConstraint [99] [80] [[110]] KindNodeKey);
    Index_ (mkIndex None (VectorIndex [80] [118] 384 Euclidean 16 200 (Product 8)));
    Index_ (mkIndex (Some [104]) (TextIndex [80] [116] 4608083138725491507 4604930618986332160 Standard (Some [[97]; [98]])));
    IndexName (mkIndexName [105] [80] [118] VectorKind); Procedure_ (mkProcedure [113] [([120], [73])] [] [82]);
    StoredConfig (mkStoredConfig ModelLpg true true true (Batch 100 1000) (Some 1073741824) None [mkSectionMemory 3 (Some 4096) ForceDisk] (HistoryDuration 60000));
    LabelIndex (mkLabelIndex None [80] [110]) ].

Lemma some_text s t : utf8_valid s = true → Some s = Some t → utf8_valid t = true.
Proof. by intros Hs [= <-]. Qed.

Ltac catalog_ok :=
  repeat first
    [ match goal with |- Forall _ [] => apply Forall_nil_2 | |- Forall _ (_ :: _) => apply Forall_cons_2 | |- texts_ok _ => unfold texts_ok | |- _ ∧ _ => split end
    | match goal with |- utf8_valid _ = true => reflexivity | |- is_u64 _ => unfold is_u64; lia | |- u32_ok _ => unfold u32_ok; lia | |- is_byte _ => unfold is_byte; lia | |- True => exact I end
    | match goal with |- graph_ok None => intros ? [=] | |- graph_ok (Some _) => intros ?; apply some_text; reflexivity | |- limit_ok (Some _) => intros ? [= <-]; unfold is_u64; lia | |- limit_ok None => intros ? [=] end ].

Lemma person_ok : catalog_record_ok (NodeType person).
Proof.
  cbn [catalog_record_ok person nt_name nt_properties nt_constraints parent_types nt_key_labels]. catalog_ok; unfold property_record_ok; cbn [pr_name data_type default_value type_constraint_ok type_ok]; catalog_ok; cbn; try lia;
    intros v [= <-]. cbn. unfold is_i64. lia.
Qed.

Lemma sample_catalog_ok : Forall catalog_record_ok sample_catalog.
Proof.
  unfold sample_catalog. repeat apply Forall_cons_2; try apply Forall_nil_2; try exact person_ok;
    cbn [catalog_record_ok sc_name et_name et_properties et_constraints endpoints et_key_labels gt_name node_types edge_types gb_graph gb_graph_type cn_name cn_label cn_properties ix_graph ix_index in_name in_label in_property
      pc_name params returns body_ wal_durability memory_limit spill_path sections history_retention li_graph li_label li_key index_kind_ok quantization_ok durability_ok history_ok]; catalog_ok;
    unfold endpoints_ok, section_memory_ok, column_ok; cbn [type_constraint_ok source_type target_type section_code max_ram fst snd]; catalog_ok.
  intros l [= <-]. catalog_ok.
Qed.

Definition catalog_bytes : list Z := (encode_catalog sample_catalog []).2.

Lemma sample_catalog_encoded : encode_catalog sample_catalog [] = (Ok tt, catalog_bytes).
Proof. vm_compute. reflexivity. Qed.

Lemma catalog_records_read_back_witness : length catalog_bytes = 252%nat ∧ read_catalog_records catalog_bytes collect_catalog [] = (Ok tt, sample_catalog).
Proof.
  split; [vm_compute; reflexivity|]. rewrite (catalog_records_read_back collect_catalog sample_catalog catalog_bytes [] sample_catalog_ok sample_catalog_encoded), collect_catalog_all. reflexivity.
Defined.

(** The payload of a node type with one property of [n] levels in twelve bytes,
    whatever [n] is. *)
Definition deep_payload (n : Z) : list Z := [1; 80; 1; 1; 110; n; 1; 0; 0; 0; 0; 0].

Lemma decoded_levels_are_bounded_witness :
  (∃ r, decode_payload 2 (deep_payload 128) = Ok (Some r) ∧ levels_of (Catalog.properties r) = 128%nat ∧ levels_bounded (Catalog.properties r)) ∧
  decode_payload 2 (deep_payload 129) = Err PayloadUndecodable.
Proof.
  split; [|vm_compute; reflexivity]. eexists. assert (Hd : decode_payload 2 (deep_payload 128) = Ok (Some _)) by (vm_compute; reflexivity).
  split; [exact Hd|]. split; [vm_compute; reflexivity|]. exact (decoded_levels_are_bounded 2 (deep_payload 128) _ Hd).
Defined.

Lemma too_many_levels_are_refused_witness : ∃ r e, length (Catalog.properties r) = 257%nat ∧ CatalogRecord.encode_framed r [9] = (Err e, [9]).
Proof.
  pose (deep := mkProperty [110] (Nat.iter 128 PropertyTypeRecord.ListOf PropertyTypeRecord.Any) true None). exists (NodeType (mkNodeType [80] (replicate 257 deep) [] [] [])).
  destruct (too_many_levels_are_refused (NodeType (mkNodeType [80] (replicate 257 deep) [] [] [])) [9] ltac:(vm_compute; reflexivity)) as [e He]. exists e. split; [vm_compute; reflexivity|exact He].
Defined.
End CatalogSamples.
