(* ===== verification/Replay.v ===== *)
(** * Commits in the log, and their replay

    Model of [src/crates/grafeo-engine/src/database/wal_log.rs] (the group a
    commit, a change outside commits or a graph copy writes) and
    [src/crates/grafeo-engine/src/database/replay.rs] (reading the groups back
    when a database opens), with [GroupFrames::next_payload] of
    [wal/reader.rs]. The stores and the catalog a record applies to are an
    interface without laws ([Targets]): what is shown holds for any.
    The commit lock and the transaction a failed commit goes back to are part
    of the transaction manager; here a failed write leaves the log as it
    leaves it and names its error. *)
From Stdlib Require Import Ascii String.
From S2P Require Import Prelude Bytes Ids WalFrame WalReader WalWriter Values ValueCodec Changes LogRecord.
Open Scope Z_scope.

(** ** Writing a commit's group *)

Section commits.
Context `{WalEnv} `{Bincode} `{CatalogCodec}.

(** [commit_error] over [GroupError]: a writer that takes no more writes, or a
    group that was not written. A record that does not encode is its own. *)
Inductive commit_failure : Type :=
  | RecordRefused (e : record_error catalog_error)
  | LogWriteFailed (cause : write_error)
  | LogUnavailable.

Definition commit_error (e : write_error) : commit_failure :=
  match e with Poisoned => LogUnavailable | e => LogWriteFailed e end.

(** [Encoder::push]: [scratch] is cleared first, so the record is encoded into nothing. *)
Definition encoder_push (record : LogRecord) (io : frame_io) (g : GroupWriter) : GroupWriter * option commit_failure :=
  match encode_framed record [] with
  | (Err e, _) => (g, Some (RecordRefused e))
  | (Ok _, scratch) =>
      match WalWriter.push scratch io g with
      | (g, None) => (g, None)
      | (g, Some e) => (g, Some (commit_error e))
      end
  end.

(** Records one after the other, up to the first that fails. *)
Fixpoint encoder_push_each (records : list (LogRecord * frame_io)) (g : GroupWriter) : GroupWriter * option commit_failure :=
  match records with
  | [] => (g, None)
  | (record, io) :: records =>
      match encoder_push record io g with
      | (g, Some e) => (g, Some e)
      | (g, None) => encoder_push_each records g
      end
  end.

(** The data records of a change set. A slot that names no graph would be a
    panic; the set's own operations leave none. *)
Definition set_records (s : ChangeSet.t) : list LogRecord :=
  omap (λ o, (λ p, DataRecord p.1 p.2) <$> o) (ChangeSet.log_records s).

Record QueuedSchemaOp : Type := mkQueued { op_ : StandaloneOp CatalogRecord; position_ : nat }.

(** The queued ops at the front that ran before record [position]. *)
Fixpoint due (position : nat) (queued : list QueuedSchemaOp) : list QueuedSchemaOp * list QueuedSchemaOp :=
  match queued with
  | [] => ([], [])
  | op :: rest =>
      if (position_ op <=? position)%nat then let (now, later) := due position rest in (op :: now, later) else ([], queued)
  end.

Fixpoint with_schema (position : nat) (records : list LogRecord) (queued : list QueuedSchemaOp) : list LogRecord :=
  match records with
  | [] => map (λ op, Standalone (op_ op)) queued
  | record :: records =>
      let (now, later) := due position queued in
      map (λ op, Standalone (op_ op)) now ++ record :: with_schema (S position) records later
  end.

(** The records [write_group_with_schema], [write_standalone] and [write_copy]
    push: the [GroupBegin] first. *)
Definition commit_records (begin : GroupBegin) (s : ChangeSet.t) (schema : list QueuedSchemaOp) : list LogRecord :=
  Group begin :: with_schema 0 (set_records s) schema.
Definition standalone_records (begin : GroupBegin) (change : list (StandaloneOp CatalogRecord)) : list LogRecord :=
  Group begin :: map Standalone change.
Definition copy_records (begin : GroupBegin) (change : list (StandaloneOp CatalogRecord)) (dest : str) (copied : list DataOp) : list LogRecord :=
  Group begin :: map Standalone change ++ map (DataRecord (Some dest)) copied.

(** The faults of a group: of its rotation, of the frame writes of each record
    and of the last frame, and of the cut when the group is dropped. *)
Record group_io : Type := mkGroupIo { gi_rotate : rotate_io; gi_push : nat → frame_io; gi_last : frame_io; gi_cut : cut_io }.

(** A group begun, its records pushed and its last frame written; a failed
    push drops the group. *)
Definition write_records (transaction : Z) (records : list LogRecord) (io : group_io) (w : Wal) : Wal * result commit_failure GroupEnd :=
  match begin_group (gi_rotate io) transaction w with
  | (w, Err e) => (w, Err (commit_error e))
  | (_, Ok g) =>
      match encoder_push_each (imap (λ i r, (r, gi_push io i)) records) g with
      | (g, Some e) => (gw_wal (drop_group (gi_cut io) g), Err e)
      | (g, None) =>
          match write_last (gi_last io) g with
          | (g, Ok e) => (gw_wal g, Ok e)
          | (g, Err e) => (gw_wal g, Err (commit_error e))
          end
      end
  end.

Definition write_commit (transaction : Z) (begin : GroupBegin) (s : ChangeSet.t) (schema : list QueuedSchemaOp) (io : group_io) (w : Wal)
  : Wal * result commit_failure (option GroupEnd) :=
  if ChangeSet.is_empty s && (length schema =? 0)%nat then (w, Ok None)
  else match write_records transaction (commit_records begin s schema) io w with
  | (w, Ok e) => (w, Ok (Some e))
  | (w, Err e) => (w, Err e)
  end.

(** ** Reading a group's payloads *)

(** A [GroupFrames] being read: how many payloads it returned, the buffered
    ones left, and where the next is read again. *)
Record Reading : Type := mkReading { returned : nat; buffered : list (list Z); reread_at : Z }.

Definition reading (g : GroupFrames) : Reading :=
  match source g with Buffered ps => mkReading 0 ps 0 | Reread _ at_lsn => mkReading 0 [] at_lsn end.

Definition next_payload (db : Z) (g : GroupFrames) (r : Reading) : result WalError (option (list Z) * Reading) :=
  if (returned r =? frame_count g)%nat then Ok (None, r)
  else
    let first := (returned r =? 0)%nat in
    let skip (payload : list Z) := if first then drop FRAME_PROLOGUE_BYTES payload else payload in
    match source g with
    | Buffered _ =>
        match buffered r with
        | [] => Ok (None, r)
        | payload :: rest => Ok (Some (skip payload), mkReading (S (returned r)) rest (reread_at r))
        end
    | Reread seg _ =>
        let at_lsn := reread_at r in
        let changed := Err (WalReader.Damaged (first_lsn seg) (offset_of seg at_lsn) at_lsn ChangedSinceScan) in
        match read_frame_from (bytes_from seg at_lsn) at_lsn (seg_cipher seg) db with
        | FrFrame h payload =>
            if negb (transaction_id h =? group_transaction g)
               || negb (Bool.eqb (FrameFlags.is_first (WalFrame.flags h)) first)
               || negb (Bool.eqb (FrameFlags.is_last (WalFrame.flags h)) (returned r + 1 =? frame_count g)%nat)
               || (first && (length payload <? FRAME_PROLOGUE_BYTES)%nat)
            then changed
            else at_lsn ← advance at_lsn h; Ok (Some (skip payload), mkReading (S (returned r)) (buffered r) at_lsn)
        | _ => changed
        end
    end.
End commits.

(** ** Replay *)

Inductive replay_error (C A : Type) : Type :=
  | ScanFailed (e : WalError)
  | NotRead (start : Z) (e : read_error (log_decode_error C) Empty_set)
  | NoGroupBegin (start : Z)
  | NotApplied (start : Z) (e : A).
Arguments ScanFailed {C A}.
Arguments NotRead {C A}.
Arguments NoGroupBegin {C A}.
Arguments NotApplied {C A}.

Section replay.
Context `{WalEnv} `{Bincode} `{CatalogCodec} {T A : Type}.
Abbreviation replay_error := (replay_error catalog_error A).

(** The records of a group, payload after payload; a payload is returned at
    most [frame_count] times, which bounds the rounds. *)
Fixpoint group_records (rounds : nat) (db : Z) (g : GroupFrames) (r : Reading) (records : list LogRecord) : result replay_error (list LogRecord) :=
  match rounds with
  | O => Ok records
  | S rounds =>
      match next_payload db g r with
      | Err e => Err (ScanFailed e)
      | Ok (None, _) => Ok records
      | Ok (Some payload, r) =>
          match read_log_records payload collect records with
          | (Err e, _) => Err (NotRead (group_start g) e)
          | (Ok _, records) => group_records rounds db g r records
          end
      end
  end.

(** What a replay does with the records behind a group's [GroupBegin], and
    with the group once they are applied. *)
Context (apply_record : GroupBegin → LogRecord → T → result A unit * T) (end_group : GroupBegin → T → T).

Fixpoint apply_records (begin : GroupBegin) (records : list LogRecord) (t : T) : result A unit * T :=
  match records with
  | [] => (Ok tt, t)
  | record :: records => match apply_record begin record t with (Err e, t) => (Err e, t) | (Ok _, t) => apply_records begin records t end
  end.

Definition replay_group (db : Z) (g : GroupFrames) (t : T) : result replay_error unit * T :=
  match group_records (frame_count g) db g (reading g) [] with
  | Err e => (Err e, t)
  | Ok (Group begin :: records) =>
      match apply_records begin records t with
      | (Err e, t) => (Err (NotApplied (group_start g) e), t)
      | (Ok _, t) => (Ok tt, end_group begin t)
      end
  | Ok _ => (Err (NoGroupBegin (group_start g)), t)
  end.

(** The loop over [next_group], ended by [finish]: how many groups were
    applied and where the log ends. *)
Fixpoint replay_groups (fuel : nat) (db : Z) (s : WalScan) (groups : nat) (t : T) : option (result replay_error (Ending * nat) * T) :=
  match fuel with
  | O => None
  | S fuel =>
      '(s, r) ← next_group (S (scan_fuel s)) s;
      match r with
      | Err e => Some (Err (ScanFailed e), t)
      | Ok None => Some (Ok (default (mkEnding (position s) None) (ending s), groups), t)
      | Ok (Some g) =>
          match replay_group db g t with
          | (Err e, t) => Some (Err e, t)
          | (Ok _, t) => replay_groups fuel db s (S groups) t
          end
      end
  end.

Definition replay_log (db from_lsn : Z) (salvage_ : bool) (buffer : Z) (listing : list ScanSegment) (t : T) : option (result replay_error (Ending * nat) * T) :=
  match open_scan db from_lsn salvage_ buffer listing with
  | Err e => Some (Err (ScanFailed e), t)
  | Ok s => replay_groups (S (scan_fuel s)) db s 0 t
  end.
End replay.

(** ** What a replay applies to *)

(** The stores, the catalog and the history of a database. *)
Class Targets `{CatalogCodec} := {
  targets : Type;
  store_error : Type;
  has_graph : str → targets → bool;
  store_apply : option str → DataOp → Z → targets → result store_error unit * targets;
  insert_into : option str → TripleRecord → targets → targets;
  remove_from : option str → TripleRecord → targets → targets;
  apply_rdf : RdfGraphOp → targets → result store_error unit * targets;
  apply_catalog : StandaloneOp CatalogRecord → targets → result store_error unit * targets;
  sync_epoch : Z → targets → targets;
  record_commit_time : Z → Z → targets → targets;
}.

Inductive apply_error (E : Type) : Type :=
  | SecondGroupBegin
  | NoSuchGraph (name : str)
  | NoRdfOp (op : DataOp)
  | StoreFailed (e : E)
  | NeverLogged (graph : option str) (op : DataOp).
Arguments SecondGroupBegin {E}.
Arguments NoSuchGraph {E}.
Arguments NoRdfOp {E}.
Arguments StoreFailed {E}.
Arguments NeverLogged {E}.

Section apply.
Context `{WalEnv} `{Bincode} `{Targets}.

Definition failed (r : result store_error unit * targets) : result (apply_error store_error) unit * targets :=
  match r with (Ok u, t) => (Ok u, t) | (Err e, t) => (Err (StoreFailed e), t) end.

Definition apply_triple (graph : option str) (op : DataOp) (t : targets) : result (apply_error store_error) unit * targets :=
  match op with
  | InsertTriple triple => (Ok tt, insert_into graph triple t)
  | DeleteTriple triple => (Ok tt, remove_from graph triple t)
  | other => (Err (NoRdfOp other), t)
  end.

Definition apply_standalone (op : StandaloneOp CatalogRecord) (t : targets) : result (apply_error store_error) unit * targets :=
  match op with
  | RdfGraph rdf => failed (apply_rdf rdf t)
  | op => failed (apply_catalog op t)
  end.

Definition apply_record (begin : GroupBegin) (record : LogRecord) (t : targets) : result (apply_error store_error) unit * targets :=
  match record with
  | Group _ => (Err SecondGroupBegin, t)
  | DataRecord graph op =>
      if decide (model_of op = Rdf) then apply_triple graph op t
      else match graph with
      | None => failed (store_apply None op (epoch begin) t)
      | Some name => if has_graph name t then failed (store_apply graph op (epoch begin) t) else (Err (NoSuchGraph name), t)
      end
  | Standalone op => apply_standalone op t
  end.

Definition end_group (begin : GroupBegin) (t : targets) : targets :=
  record_commit_time (epoch begin) (timestamp_ms begin) (sync_epoch (epoch begin) t).

Definition replay (db from_lsn : Z) (salvage_ : bool) (buffer : Z) (listing : list ScanSegment) (t : targets) :=
  replay_log apply_record end_group db from_lsn salvage_ buffer listing t.

(** [replay_into_backend]: data records go to a backend that holds the groups
    up to [durable] already; the catalog's go to the catalog. *)
Definition backend_record (durable : Z) (begin : GroupBegin) (record : LogRecord) (t : targets * Z) : result (apply_error store_error) unit * (targets * Z) :=
  match record with
  | DataRecord None op =>
      if decide (model_of op = Rdf) then (Err (NeverLogged None op), t)
      else if durable <? epoch begin then let '(r, t') := failed (store_apply None op (epoch begin) t.1) in (r, (t', t.2)) else (Ok tt, t)
  | Standalone op => let '(r, t') := failed (apply_catalog op t.1) in (r, (t', t.2))
  | DataRecord graph op => (Err (NeverLogged graph op), t)
  | Group _ => (Err SecondGroupBegin, t)
  end.

(** The last epoch is kept beside the backend. *)
Definition backend_end (begin : GroupBegin) (t : targets * Z) : targets * Z :=
  (record_commit_time (epoch begin) (timestamp_ms begin) t.1, Z.max t.2 (epoch begin)).

Definition replay_into_backend (db from_lsn : Z) (salvage_ : bool) (buffer : Z) (listing : list ScanSegment) (durable : Z) (t : targets) :=
  replay_log (backend_record durable) backend_end db from_lsn salvage_ buffer listing (t, EpochId.INITIAL).
End apply.
