(* ===== verification/ReplayProps.v ===== *)
(** * A crash and the replay after it

    What a database writes to its log, a crash, and the replay of the log put
    together: the replay applies the records of every group that was reported
    as written and lies within the bytes the crash kept, in order. *)
From Stdlib Require Import Ascii String.
From S2P Require Import Prelude Bytes Ids WalFrame WalReader WalScanFacts WalWriter WalLog WalWriterFacts WalProps.
From S2P Require Import Values ValueCodec Changes ChangeFacts LogRecord LogRecordProps Replay.
Open Scope Z_scope.

(** ** Payloads of a group *)

Section payloads.
Context `{WalEnv} `{Bincode} `{CatalogCodec} {A : Type}.

(** Payloads read one after the other. *)
Fixpoint read_payloads (start : Z) (ps : list (list Z)) (records : list LogRecord) : result (replay_error catalog_error A) (list LogRecord) :=
  match ps with
  | [] => Ok records
  | p :: ps =>
      match read_log_records p collect records with
      | (Err e, _) => Err (NotRead start e)
      | (Ok _, records) => read_payloads start ps records
      end
  end.

Definition skip_first (returned : nat) (ps : list (list Z)) : list (list Z) := if (returned =? 0)%nat then skip_prologue ps else ps.

Lemma buffered_records db g ps0 ps returned at_ records : source g = Buffered ps0 → (returned + length ps)%nat = frame_count g →
  group_records (A:=A) (length ps) db g (mkReading returned ps at_) records = read_payloads (group_start g) (skip_first returned ps) records.
Proof.
  intros Hs. revert returned records. induction ps as [|p ps IH]; intros returned records Hc; cbn [length] in *; [by destruct returned|].
  cbn [group_records]. unfold next_payload. cbn [Replay.returned buffered reread_at]. rewrite (proj2 (Nat.eqb_neq _ _)), Hs by lia.
  assert (Hps : skip_first returned (p :: ps) = (if (returned =? 0)%nat then drop FRAME_PROLOGUE_BYTES p else p) :: ps) by (unfold skip_first; by destruct (returned =? 0)%nat).
  rewrite Hps. cbn [read_payloads]. destruct (read_log_records _ collect records) as [[u|e] records1]; [|done]. rewrite (IH (S returned)) by lia. done.
Qed.

Lemma reread_records db g seg at0 ps count returned at_ records : source g = Reread seg at0 → (returned + count)%nat = frame_count g →
  reread_payloads db seg (group_transaction g) at_ returned count = Ok ps →
  group_records (A:=A) count db g (mkReading returned [] at_) records = read_payloads (group_start g) (skip_first returned ps) records.
Proof.
  intros Hs. revert returned at_ ps records. induction count as [|count IH]; intros returned at_ ps records Hc; cbn [reread_payloads].
  { intros [= <-]. by destruct returned. }
  cbn [group_records]. unfold next_payload. cbn [Replay.returned buffered reread_at]. rewrite Hs, (proj2 (Nat.eqb_neq returned (frame_count g))) by lia.
  destruct (read_frame_from _ at_ _ db) as [| h payload| | |]; try done. replace (returned + 1 =? frame_count g)%nat with (count =? 0)%nat by (destruct (Nat.eqb_spec count 0), (Nat.eqb_spec (returned + 1) (frame_count g)); lia).
  destruct (_ || _); [done|]. destruct (advance at_ h) as [at1|e]; [|done]. cbn [mbind result_bind].
  destruct (reread_payloads db seg _ at1 (S returned) count) as [rest|e] eqn:Er; [|done]. cbn [mbind result_bind]. intros [= <-].
  assert (Hps : skip_first returned (payload :: rest) = (if (returned =? 0)%nat then drop FRAME_PROLOGUE_BYTES payload else payload) :: rest) by (unfold skip_first; by destruct (returned =? 0)%nat).
  rewrite Hps. cbn [read_payloads]. destruct (read_log_records _ collect records) as [[u|e] records1]; [|done]. by rewrite (IH (S returned) at1 rest) by (done || lia).
Qed.

(** [next_payload] gives the payloads of the group. *)
Lemma group_records_payloads db g ps : payloads db g = Ok ps → frame_count g = length ps →
  group_records (A:=A) (frame_count g) db g (reading g) [] = read_payloads (group_start g) ps [].
Proof.
  unfold payloads, reading. destruct (source g) as [ps0|seg at_] eqn:Hs; cbn [mbind result_bind].
  - intros [= <-] Hc. assert (Hl : length ps0 = length (skip_prologue ps0)) by (by destruct ps0). rewrite Hc, <- Hl. apply (buffered_records db g ps0 ps0 0); [done|]. lia.
  - destruct (reread_payloads _ _ _ _ _ _) as [ps0|e] eqn:Er; [|done]. cbn [mbind result_bind]. intros [= <-] Hc. apply (reread_records db g seg at_ ps0 _ 0); [done|lia|done].
Qed.

(** ** Records in payloads *)

Definition encodes (r : LogRecord) (b : list Z) : Prop := encode_framed r [] = (Ok tt, b).

Lemma encodes_frames rs bs : Forall record_ok rs → Forall2 encodes rs bs → frames_of LOG_FRAMING decode_payload (concat bs) (map Some rs).
Proof.
  intros Hok Hrs. exists bs. split; [|done]. induction Hrs as [|r b rs bs Hr _ IH]; [constructor|]. inversion_clear Hok as [|? ? Hr0 Hrs]. cbn [map]. constructor; [|by apply IH].
  apply encode_framed_ok in Hr as (payload & -> & Hl & Hf & Hk & Hd). exists (kind r), (LogRecord.flags r), payload. split_and!; [done|by apply flags_known|done|exact Hl|by apply Hd|done].
Qed.

Lemma read_payload rs bs l : Forall record_ok rs → Forall2 encodes rs bs → read_log_records (concat bs) collect l = (Ok tt, l ++ rs).
Proof.
  intros Hok Hrs. destruct (read_all collect _ _ [] l (encodes_frames rs bs Hok Hrs)) as (rounds & offset & _ & _ & Heq). rewrite app_nil_r in Heq. rewrite Heq, omap_Some, collect_all. apply read_nothing.
Qed.

(** Whole records in every payload are read in order. *)
Lemma read_framed start (ps : list (list (list Z))) rs l : Forall record_ok rs → Forall2 encodes rs (concat ps) →
  read_payloads start (map (concat (A:=Z)) ps) l = Ok (l ++ rs).
Proof.
  revert rs l. induction ps as [|p ps IH]; intros rs l Hok Hrs; cbn [concat map read_payloads] in *.
  { inversion Hrs. by rewrite app_nil_r. }
  apply Forall2_app_inv_r in Hrs as (rs1 & rs2 & Hrs1 & Hrs2 & ->). apply Forall_app in Hok as [Hok1 Hok2]. rewrite (read_payload rs1 p l Hok1 Hrs1), (IH rs2 (l ++ rs1) Hok2 Hrs2). by rewrite app_assoc.
Qed.
End payloads.

(** ** What a database does to its log *)

Section log_ops.
Context `{WalEnv} `{Bincode} `{CatalogCodec}.

(** Commits, changes outside them and graph copies; sync markers, syncs and
    rotations between them. *)
Inductive log_op : Type :=
  | CommitOp (transaction : Z) (begin : GroupBegin) (s : ChangeSet.t) (schema : list QueuedSchemaOp) (io : group_io)
  | ChangeOp (transaction : Z) (begin : GroupBegin) (change : list (StandaloneOp CatalogRecord)) (io : group_io)
  | CopyOp (transaction : Z) (begin : GroupBegin) (change : list (StandaloneOp CatalogRecord)) (dest : str) (copied : list DataOp) (io : group_io)
  | MarkerOp (io : frame_io)
  | SyncOp (ok : bool)
  | RotateOp (io : rotate_io).

(** A group reported as written: its [GroupBegin], the records behind it and
    where it sits. *)
Record logged : Type := mkLogged { lg_begin : GroupBegin; lg_records : list LogRecord; lg_end : GroupEnd }.

Definition report (begin : GroupBegin) (records : list LogRecord) (e : GroupEnd) : logged := mkLogged begin (tail records) e.

Definition apply_log_op (o : log_op) (w : Wal) : Wal * option logged :=
  match o with
  | CommitOp tx begin s schema io =>
      match write_commit tx begin s schema io w with
      | (w, Ok (Some e)) => (w, Some (report begin (commit_records begin s schema) e))
      | (w, _) => (w, None)
      end
  | ChangeOp tx begin change io =>
      let records := standalone_records begin change in
      match write_records tx records io w with (w, Ok e) => (w, Some (report begin records e)) | (w, Err _) => (w, None) end
  | CopyOp tx begin change dest copied io =>
      let records := copy_records begin change dest copied in
      match write_records tx records io w with (w, Ok e) => (w, Some (report begin records e)) | (w, Err _) => (w, None) end
  | MarkerOp io => (write_marker io w, None)
  | SyncOp ok => (sync ok w, None)
  | RotateOp io => (rotate io w, None)
  end.

Fixpoint run_log (ops : list log_op) (w : Wal) : Wal * list logged :=
  match ops with
  | [] => (w, [])
  | o :: ops =>
      let (w, x) := apply_log_op o w in
      let (w, xs) := run_log ops w in
      (w, option_list x ++ xs)
  end.

(** The inputs of an operation: a transaction id, and records as their types
    hold them. *)
Definition log_op_ok (o : log_op) : Prop :=
  match o with
  | CommitOp tx begin s schema _ => is_u64 tx ∧ Forall record_ok (commit_records begin s schema)
  | ChangeOp tx begin change _ => is_u64 tx ∧ Forall record_ok (standalone_records begin change)
  | CopyOp tx begin change dest copied _ => is_u64 tx ∧ Forall record_ok (copy_records begin change dest copied)
  | _ => True
  end.

(** The group of the log behind a report. *)
Definition logged_as (x : logged) (y : written) : Prop :=
  w_end y = lg_end x ∧ Forall record_ok (Group (lg_begin x) :: lg_records x) ∧ Forall2 encodes (Group (lg_begin x) :: lg_records x) (w_records y).

(** ** A group is one operation of the writer *)

Lemma push_each_ok records g g' : encoder_push_each records g = (g', None) →
  ∃ bs, Forall2 encodes records.*1 bs ∧ push_all (zip bs records.*2) g = (g', None).
Proof.
  revert g. induction records as [|[r io] records IH]; intros g; cbn [encoder_push_each]; [intros [= <-]; exists []; by split|].
  unfold encoder_push. destruct (encode_framed r []) as [[[]|e] b] eqn:Er; [|done]. destruct (WalWriter.push b io g) as [g1 [e|]] eqn:Ep; [done|].
  intros Hrs. destruct (IH g1 Hrs) as (bs & Hbs & Hall). exists (b :: bs). split; [by constructor|]. cbn [fmap list_fmap snd zip zip_with push_all]. by rewrite Ep.
Qed.

Lemma push_each_failed records g g' e : Forall record_ok records.*1 → encoder_push_each records g = (g', Some e) →
  ∃ pushed, Forall (λ r, Forall is_byte r.1) pushed ∧ (push_all pushed g).1 = g'.
Proof.
  revert g. induction records as [|[r io] records IH]; intros g Hok; cbn [encoder_push_each fmap list_fmap fst]; [done|]. inversion_clear Hok as [|? ? Hr Hrs].
  unfold encoder_push. destruct (encode_framed r []) as [[[]|e'] b] eqn:Er; [|intros [= <- _]; by exists []].
  assert (Hb : Forall is_byte b) by (pose proof (encode_framed_bytes r [] Hr (Forall_nil_2 _)) as Hb; by rewrite Er in Hb).
  destruct (WalWriter.push b io g) as [g1 [e'|]] eqn:Ep.
  - intros [= <- _]. exists [(b, io)]. split; [by repeat constructor|]. cbn [push_all]. by rewrite Ep.
  - intros Hf. destruct (IH g1 Hrs Hf) as (pushed & Hp & Hall). exists ((b, io) :: pushed). split; [by constructor|]. cbn [push_all]. by rewrite Ep.
Qed.

Lemma imap_fst (f : nat → frame_io) (records : list LogRecord) : (imap (λ i r, (r, f i)) records).*1 = records.
Proof. rewrite fmap_imap. apply list_eq. intros i. rewrite list_lookup_imap. cbn. by destruct (records !! i). Qed.

Lemma encodes_bytes rs bs : Forall record_ok rs → Forall2 encodes rs bs → Forall (Forall is_byte) bs.
Proof.
  intros Hok Hrs. induction Hrs as [|r b rs bs Hr _ IH]; [constructor|]. inversion_clear Hok as [|? ? Hr0 Hrs]. constructor; [|by apply IH].
  pose proof (encode_framed_bytes r [] Hr0 (Forall_nil_2 _)) as Hb. unfold encodes in Hr. by rewrite Hr in Hb.
Qed.

Lemma zip_fst {A B} (l : list A) (k : list B) : length l = length k → (zip l k).*1 = l.
Proof. intros Hl. apply fst_zip. lia. Qed.

(** A group: written whole, or given up. *)
Lemma write_records_run tx begin records io w w' r : is_u64 tx → Forall record_ok (Group begin :: records) → write_records tx (Group begin :: records) io w = (w', r) →
  ∃ o, WalProps.op_ok o ∧ ∃ y, apply_op w o = (w', y) ∧ Forall2 logged_as (match r with Ok e => [mkLogged begin records e] | Err _ => [] end) (option_list y).
Proof.
  intros Htx Hok. unfold write_records. set (l := imap _ _). assert (Hl : l.*1 = Group begin :: records) by apply imap_fst.
  destruct (begin_group (gi_rotate io) tx w) as [w1 [g|e]] eqn:Eb.
  2:{ intros [= <- <-]. exists (AbandonGroup (gi_rotate io) tx [] (gi_cut io)). split; [by split|]. exists None. cbn [apply_op]. unfold abandon_group. rewrite Eb. split; [done|constructor]. }
  destruct (encoder_push_each l g) as [g1 [e|]] eqn:Ep.
  { intros [= <- <-]. destruct (push_each_failed l g g1 e ltac:(by rewrite Hl) Ep) as (pushed & Hpb & Hp). exists (AbandonGroup (gi_rotate io) tx pushed (gi_cut io)). split; [by split|].
    exists None. cbn [apply_op]. unfold abandon_group. rewrite Eb, Hp. split; [done|constructor]. }
  destruct (push_each_ok l g g1 Ep) as (bs & Hbs & Hp). rewrite Hl in Hbs. pose proof (Forall2_length _ _ _ Hbs) as Hlen.
  assert (Hz : (zip bs l.*2).*1 = bs) by (apply zip_fst; rewrite <- Hlen, <- Hl, !length_fmap; done). pose proof (encodes_bytes _ _ Hok Hbs) as Hby.
  intros Hw. exists (WriteGroup (gi_rotate io) tx (zip bs l.*2) (gi_last io)). split.
  { split; [done|]. rewrite Hz. split; [apply (proj1 (Forall_fmap fst (Forall is_byte) (zip bs l.*2))); by rewrite Hz|]. inversion Hbs as [|? b ? ? Hb]; subst. apply encode_framed_ok in Hb as (payload & -> & _). done. }
  cbn [apply_op]. unfold write_group. rewrite Eb, Hp. destruct (write_last (gi_last io) g1) as [g2 [e|e]]; injection Hw as <- <-; [|exists None; split; [done|constructor]].
  exists (Some (mkWritten tx bs e)). rewrite Hz. split; [done|]. constructor; [|constructor]. by split_and!.
Qed.

(** An operation on the log is operations of the writer. *)
Lemma one_op o w w' y xs : WalProps.op_ok o → apply_op w o = (w', y) → Forall2 logged_as xs (option_list y) →
  ∃ os, Forall WalProps.op_ok os ∧ ∃ ys, run os w = (w', ys) ∧ Forall2 logged_as xs ys.
Proof.
  intros Ho Ha Hx. exists [o]. split; [by repeat constructor|]. exists (option_list y). cbn [run]. rewrite Ha, app_nil_r. done.
Qed.

Lemma apply_log_op_run o w : log_op_ok o →
  ∃ os, Forall WalProps.op_ok os ∧ ∃ ys, run os w = ((apply_log_op o w).1, ys) ∧ Forall2 logged_as (option_list (apply_log_op o w).2) ys.
Proof.
  destruct o as [tx begin s schema io|tx begin change io|tx begin change dest copied io|io|ok|io]; cbn [log_op_ok apply_log_op].
  - intros [Htx Hok]. unfold write_commit. destruct (_ && _); [exists []; split; [constructor|]; exists []; by split|].
    destruct (write_records tx _ io w) as [w' r] eqn:Ew. destruct (write_records_run _ _ _ _ _ _ _ Htx Hok Ew) as (o & Ho & y & Ha & Hx). destruct r as [e|e]; by eapply one_op.
  - intros [Htx Hok]. destruct (write_records tx _ io w) as [w' r] eqn:Ew. destruct (write_records_run _ _ _ _ _ _ _ Htx Hok Ew) as (o & Ho & y & Ha & Hx). destruct r as [e|e]; by eapply one_op.
  - intros [Htx Hok]. destruct (write_records tx _ io w) as [w' r] eqn:Ew. destruct (write_records_run _ _ _ _ _ _ _ Htx Hok Ew) as (o & Ho & y & Ha & Hx). destruct r as [e|e]; by eapply one_op.
  - intros _. by apply (one_op (WriteMarker io) w _ None).
  - intros _. by apply (one_op (Sync ok) w _ None).
  - intros _. by apply (one_op (Rotate io) w _ None).
Qed.

Lemma run_app os os' w : run (os ++ os') w = let (w, ys) := run os w in let (w, ys') := run os' w in (w, ys ++ ys').
Proof.
  revert w. induction os as [|o os IH]; intros w; cbn [app run]; [by destruct (run os' w)|]. destruct (apply_op w o) as [w1 y]. rewrite IH. destruct (run os w1) as [w2 ys]. destruct (run os' w2) as [w3 ys']. by rewrite app_assoc.
Qed.

Lemma run_log_run ops w : Forall log_op_ok ops →
  ∃ os, Forall WalProps.op_ok os ∧ ∃ ys, run os w = ((run_log ops w).1, ys) ∧ Forall2 logged_as (run_log ops w).2 ys.
Proof.
  intros Hops. revert w. induction Hops as [|o ops Ho _ IH]; intros w; cbn [run_log]; [exists []; split; [constructor|]; by exists []|].
  destruct (apply_log_op_run o w Ho) as (os1 & Hos1 & ys1 & Hr1 & Hx1). destruct (apply_log_op o w) as [w1 x]. cbn [fst snd] in *.
  destruct (IH w1) as (os2 & Hos2 & ys2 & Hr2 & Hx2). destruct (run_log ops w1) as [w2 xs]. cbn [fst snd] in *.
  exists (os1 ++ os2). split; [by apply Forall_app|]. exists (ys1 ++ ys2). rewrite run_app, Hr1, Hr2. split; [done|]. by apply Forall2_app.
Qed.
End log_ops.

(** ** Replaying a scan *)

Section restore.
Context `{WalEnv} `{Bincode} `{CatalogCodec} {T A : Type}.
Context (apply_record : GroupBegin → LogRecord → T → result A unit * T) (end_group : GroupBegin → T → T).

(** The records of the groups applied in order, up to the first that fails. *)
Fixpoint restore (xs : list logged) (t : T) : result (replay_error catalog_error A) unit * T :=
  match xs with
  | [] => (Ok tt, t)
  | x :: xs =>
      match apply_records apply_record (lg_begin x) (lg_records x) t with
      | (Err e, t) => (Err (NotApplied (ge_start (lg_end x)) e), t)
      | (Ok _, t) => restore xs (end_group (lg_begin x) t)
      end
  end.

Lemma replay_recovered db g x y t : logged_as x y → recovered db g y →
  replay_group apply_record end_group db g t =
    match apply_records apply_record (lg_begin x) (lg_records x) t with
    | (Err e, t) => (Err (NotApplied (ge_start (lg_end x)) e), t)
    | (Ok _, t) => (Ok tt, end_group (lg_begin x) t)
    end.
Proof.
  intros (He & Hok & Hrs) [_ Hend (ps & Hps & Hc & Hps')]. unfold replay_group. rewrite (group_records_payloads db g _ Hps ltac:(by rewrite length_map)).
  rewrite <- Hps' in Hrs. rewrite (read_framed (group_start g) ps _ [] Hok Hrs). cbn [app]. rewrite He in Hend. by rewrite Hend.
Qed.

(** A replay of a scan whose groups are those of [xs]. *)
Lemma replay_scan db fuel s groups e xs ys k t : scan_groups fuel s = Some (Ok (groups, e)) → Forall2 (recovered db) groups ys → Forall2 logged_as xs ys →
  replay_groups apply_record end_group fuel db s k t =
    Some (match restore xs t with (Ok _, t) => (Ok (e, (k + length xs)%nat), t) | (Err er, t) => (Err er, t) end).
Proof.
  revert s groups xs ys k t. induction fuel as [|fuel IH]; intros s groups xs ys k t; cbn [scan_groups]; [done|]. cbn [replay_groups].
  destruct (next_group (S (scan_fuel s)) s) as [[s1 [[g|]|er]]|]; cbn [mbind option_bind]; [| |done|done].
  - destruct (scan_groups fuel s1) as [[[gs e1]|er]|] eqn:Es; cbn [mbind option_bind result_bind]; [|done|done]. intros [= <- <-] Hg Hx.
    inversion Hg as [|? y ? ys' Hr Hg']; subst. inversion Hx as [|x ? xs' ? Hxy Hx']; subst. rewrite (replay_recovered db g x y t Hxy Hr). cbn [restore length].
    destruct (apply_records _ _ _ t) as [[u|er] t1]; [|done]. rewrite (IH s1 gs xs' ys' (S k) _ Es Hg' Hx'). by rewrite Nat.add_succ_r.
  - intros [= <- <-] Hg Hx. inversion Hg; subst. inversion Hx; subst. cbn [restore length]. by rewrite Nat.add_0_r.
Qed.

(** A replay after a crash. *)
Lemma crashed_replay db sb ft fk start c ops n salvage_ buffer w xs t :
  is_u64 start → Forall log_op_ok ops → run_log ops (new_wal db sb ft fk start c) = (w, xs) →
  ¬ lookalike db (cut n (wal_active w)) (first_lsn (wal_active w)) →
  ∃ e, replay_log apply_record end_group db start salvage_ buffer (crashed n w) t =
    let kept := filter (λ x, ge_end (lg_end x) ≤ first_lsn (wal_active w) + Z.of_nat n) xs in
    Some (match restore kept t with (Ok _, t) => (Ok (e, length kept), t) | (Err er, t) => (Err er, t) end).
Proof.
  intros Hst Hops Hrun Hl. destruct (run_log_run ops (new_wal db sb ft fk start c) Hops) as (os & Hos & ys & Hr & Hxy). rewrite Hrun in Hr, Hxy. cbn [fst snd] in Hr, Hxy.
  destruct (crashed_log _ _ _ _ _ _ _ n _ _ Hst Hos Hr) as (gs & gs' & q & Hs & Hb & Hg & Ht & Hq & Hrec).
  destruct (scan_log db start salvage_ buffer (wal_sealed w) (cut n (wal_active w)) gs gs' q Hs Hb Hg Ht) as (s & groups & e & Ho & Hsc & Hm & _ & _).
  { intros Hx. apply Hl. eapply lookalike_le; [|exact Hx]. lia. }
  exists e. unfold replay_log, crashed. rewrite Ho. cbn zeta. eapply (replay_scan db _ s groups e _ _ 0 t Hsc); [by eapply Forall2_recovered|].
  apply Forall2_filter; [done|]. intros x y (He & _). by rewrite He.
Qed.
End restore.

(** ** The places of schema statements *)

Section schema.
Context `{Bincode} `{CatalogCodec}.

Definition is_data (r : LogRecord) : bool := match r with DataRecord _ _ => true | _ => false end.
Definition data_in (l : list LogRecord) : list LogRecord := List.filter is_data l.
Definition ops_in (l : list LogRecord) : list LogRecord := List.filter (λ r, negb (is_data r)) l.
Definition statement (q : QueuedSchemaOp) : LogRecord := Standalone (op_ q).

Lemma due_spec position queued now later : due position queued = (now, later) →
  queued = now ++ later ∧ Forall (λ q, (position_ q ≤ position)%nat) now ∧ (∀ q rest, later = q :: rest → (position < position_ q)%nat).
Proof.
  revert now later. induction queued as [|q queued IH]; intros now later; cbn [due]; [intros [= <- <-]; split_and!; [done|constructor|done]|].
  destruct (Nat.leb_spec (position_ q) position).
  - destruct (due position queued) as [now1 later1]. destruct (IH _ _ eq_refl) as (-> & Hn & Hl). intros [= <- <-]. split_and!; [done|by constructor|done].
  - intros [= <- <-]. split_and!; [done|constructor|]. intros q' rest [= <- <-]. done.
Qed.

Lemma statements_in now : data_in (map statement now) = [] ∧ ops_in (map statement now) = map statement now.
Proof. induction now as [|q now [IH1 IH2]]; [done|]. unfold data_in, ops_in in *. cbn. by rewrite IH1, IH2. Qed.

Lemma in_split_app l k : data_in (l ++ k) = data_in l ++ data_in k ∧ ops_in (l ++ k) = ops_in l ++ ops_in k.
Proof. unfold data_in, ops_in. by rewrite !List.filter_app. Qed.

Lemma with_schema_parts position records queued : Forall (λ r, is_data r = true) records →
  data_in (with_schema position records queued) = records ∧ ops_in (with_schema position records queued) = map statement queued.
Proof.
  intros Hr. revert position queued. induction Hr as [|r records Hd _ IH]; intros position queued; cbn [with_schema]; [apply statements_in|].
  destruct (due position queued) as [now later] eqn:Ed. destruct (due_spec _ _ _ _ Ed) as (-> & _ & _). fold statement.
  destruct (in_split_app (map statement now) (r :: with_schema (S position) records later)) as [-> ->]. destruct (statements_in now) as [-> ->]. destruct (IH (S position) later) as [H1 H2].
  unfold data_in, ops_in in *. cbn [List.filter]. rewrite Hd. cbn [negb]. rewrite H1, H2, map_app. done.
Qed.

(** A statement among statements. *)
Lemma statement_at now l1 op l2 : map statement now = l1 ++ Standalone op :: l2 →
  data_in l1 = [] ∧ ops_in l1 = l1 ∧ ∃ q, now !! length l1 = Some q ∧ op_ q = op.
Proof.
  intros Hm. assert (Hq : map statement now !! length l1 = Some (Standalone op)) by (by rewrite Hm, list_lookup_middle).
  assert (Hl : map statement (take (length l1) now) = l1) by (rewrite <- firstn_map, Hm; apply take_app_length).
  destruct (statements_in (take (length l1) now)) as [Hd Ho]. rewrite Hl in Hd, Ho. split_and!; [done|done|]. apply list_lookup_fmap_Some in Hq as (q & Heq & Hq). exists q. split; [done|]. by injection Heq.
Qed.

(** Each statement stands behind as many data records as came before it. *)
Lemma with_schema_places position records queued l1 op l2 : Forall (λ r, is_data r = true) records → StronglySorted le (map position_ queued) → Forall (λ q, (position ≤ position_ q)%nat) queued →
  with_schema position records queued = l1 ++ Standalone op :: l2 →
  ∃ q, queued !! length (ops_in l1) = Some q ∧ op_ q = op ∧ (position + length (data_in l1))%nat = Nat.min (position_ q) (position + length records).
Proof.
  intros Hr. revert position queued l1. induction Hr as [|r records Hd _ IH]; intros position queued l1 Hs Hp; cbn [with_schema length].
  { intros Hm. destruct (statement_at _ _ _ _ Hm) as (-> & -> & q & Hq & Ho). exists q. split_and!; [done|done|]. rewrite Forall_lookup in Hp. specialize (Hp _ _ Hq). cbn [length]. lia. }
  destruct (due position queued) as [now later] eqn:Ed. destruct (due_spec _ _ _ _ Ed) as (-> & Hn & Hh). fold statement. rewrite map_app in Hs. apply StronglySorted_app in Hs as (_ & _ & Hs). apply Forall_app in Hp as [Hp1 Hp2].
  assert (Hp : Forall (λ q, (S position ≤ position_ q)%nat) later).
  { destruct later as [|q rest]; [constructor|]. specialize (Hh q rest eq_refl). inversion Hs as [|? ? _ Hall]; subst. constructor; [lia|].
    change (map position_ rest) with (position_ <$> rest) in Hall. apply (proj1 (Forall_fmap position_ _ rest)) in Hall. eapply Forall_impl; [exact Hall|]. cbn. lia. }
  intros [l [[Hl Hr]|[-> Hr]]]%List.app_eq_app.
  - destruct l as [|x l]; injection Hr as <- Hr; [by cbn in Hd|]. destruct (statement_at _ _ _ _ Hl) as (-> & -> & q & Hq & Ho). exists q. split_and!; [by apply lookup_app_l_Some|done|].
    rewrite Forall_lookup in Hn, Hp1. specialize (Hn _ _ Hq). specialize (Hp1 _ _ Hq). cbn in *. lia.
  - destruct l as [|x l]; injection Hr as -> Hr; [by cbn in Hd|]. destruct (IH (S position) later l Hs Hp Hr) as (q & Hq & Ho & Hlen).
    destruct (in_split_app (map statement now) (x :: l)) as [-> ->]. destruct (statements_in now) as [-> ->]. assert (Hx : data_in (x :: l) = x :: data_in l ∧ ops_in (x :: l) = ops_in l) by (unfold data_in, ops_in; cbn; by rewrite Hd).
    destruct Hx as [-> ->]. exists q. split; [|split; [done|cbn [app length]; lia]]. rewrite length_app, length_map, lookup_app_r by lia. by rewrite Nat.add_sub_swap, Nat.sub_diag by lia.
Qed.
End schema.

(** ** Theorems *)

Section theorems.
Context `{WalEnv} `{Bincode} `{Targets}.

(** A data record of a database on a backend of its own. *)
Definition plain (r : LogRecord) : Prop := match r with DataRecord graph op => graph = None ∧ model_of op = Lpg | _ => True end.

(** A group without the data records the backend holds already. *)
Definition skip_durable (durable : Z) (x : logged) : logged :=
  if durable <? epoch (lg_begin x) then x else mkLogged (lg_begin x) (ops_in (lg_records x)) (lg_end x).

Lemma apply_durable durable begin records (t : targets * Z) : epoch begin ≤ durable → Forall plain records →
  apply_records (backend_record durable) begin records t = apply_records (backend_record durable) begin (ops_in records) t.
Proof.
  intros He Hr. revert t. induction Hr as [|r records Hp _ IH]; intros t; [done|]. destruct r as [g|graph op|op]; unfold ops_in in *; cbn [List.filter is_data negb apply_records].
  - done.
  - destruct Hp as [-> Hm]. cbn [backend_record]. rewrite decide_False by (by rewrite Hm). rewrite (proj2 (Z.ltb_ge _ _)) by done. apply IH.
  - destruct (backend_record durable begin (Standalone op) t) as [[u|e] t1]; [apply IH|done].
Qed.

Lemma restore_durable durable xs (t : targets * Z) : Forall (λ x, Forall plain (lg_records x)) xs →
  restore (backend_record durable) backend_end xs t = restore (backend_record durable) backend_end (map (skip_durable durable) xs) t.
Proof.
  intros Hx. revert t. induction Hx as [|x xs Hp _ IH]; intros t; cbn [restore map]; [done|].
  assert (Hsk : lg_begin (skip_durable durable x) = lg_begin x ∧ lg_end (skip_durable durable x) = lg_end x ∧
    apply_records (backend_record durable) (lg_begin x) (lg_records (skip_durable durable x)) t = apply_records (backend_record durable) (lg_begin x) (lg_records x) t).
  { unfold skip_durable. destruct (Z.ltb_spec durable (epoch (lg_begin x))) as [|Hge]; [done|]. split_and!; [done|done|]. symmetry. by apply apply_durable. }
  destruct Hsk as (-> & -> & ->). destruct (apply_records _ _ _ t) as [[u|e] t1]; [apply IH|done].
Qed.

(** C3: Committed changes survive a crash. After any commits of change sets
    with their schema statements, changes outside commits, graph copies,
    syncs, markers and rotations, whichever of their records are refused and
    whichever of their writes, cuts, syncs and rotations fail, and a crash
    that keeps any number of bytes of the active segment, a replay of the log
    ends and applies, group after group in the order of the log, exactly the
    records of the groups that were reported as written and end within those
    bytes, each group at the epoch of its begin record; it stops only at a
    record the stores refuse, with the groups before it applied. The exception
    is a crash in the middle of a payload whose remaining bytes look like a
    whole later frame: the scan then takes the tail for damage. *)
Theorem replay_restores_commits db sb ft fk start c ops n salvage_ buffer w xs t :
  is_u64 start → Forall log_op_ok ops → run_log ops (new_wal db sb ft fk start c) = (w, xs) →
  ¬ lookalike db (cut n (wal_active w)) (first_lsn (wal_active w)) →
  ∃ e, replay db start salvage_ buffer (crashed n w) t =
    let kept := filter (λ x, ge_end (lg_end x) ≤ first_lsn (wal_active w) + Z.of_nat n) xs in
    Some (match restore apply_record end_group kept t with (Ok _, t) => (Ok (e, length kept), t) | (Err er, t) => (Err er, t) end).
Proof. intros Hst Hops Hrun Hl. by eapply crashed_replay. Qed.

(** Replay into a backend. On a database whose records a backend of its own
    takes, the replay after a crash applies the kept groups as [replay] does,
    but leaves out the data records of the groups the backend holds already. *)
Theorem backend_replay_skips_durable db sb ft fk start c ops n salvage_ buffer durable w xs t :
  is_u64 start → Forall log_op_ok ops → run_log ops (new_wal db sb ft fk start c) = (w, xs) →
  ¬ lookalike db (cut n (wal_active w)) (first_lsn (wal_active w)) → Forall (λ x, Forall plain (lg_records x)) xs →
  ∃ e, replay_into_backend db start salvage_ buffer (crashed n w) durable t =
    let kept := filter (λ x, ge_end (lg_end x) ≤ first_lsn (wal_active w) + Z.of_nat n) xs in
    Some (match restore (backend_record durable) backend_end (map (skip_durable durable) kept) (t, EpochId.INITIAL) with
          | (Ok _, t) => (Ok (e, length kept), t)
          | (Err er, t) => (Err er, t)
          end).
Proof.
  intros Hst Hops Hrun Hl Hp. unfold replay_into_backend. destruct (crashed_replay (backend_record durable) backend_end db sb ft fk start c ops n salvage_ buffer w xs (t, EpochId.INITIAL) Hst Hops Hrun Hl) as (e & ->).
  exists e. cbn zeta. rewrite <- restore_durable; [done|]. apply Forall_forall. intros x Hx. apply list_elem_of_filter in Hx as [_ Hx]. exact (proj1 (Forall_forall _ _) Hp x Hx).
Qed.
End theorems.

Section layout.
Context `{Bincode} `{CatalogCodec}.

Definition data_record (p : option str * DataOp) : LogRecord := DataRecord p.1 p.2.

Lemma set_records_log s l : ChangeSet.log_records s = map Some l → set_records s = map data_record l.
Proof. intros Hl. unfold set_records. rewrite Hl. clear. induction l as [|p l IH]; [done|]. cbn. by rewrite IH. Qed.

(** C22: The records of a commit. The group of a commit holds the logged
    operations of its change set in the order they were made, and its schema
    statements in the order they ran; when these are queued by their places,
    each stands behind exactly as many operations as came before it, or behind
    all of them. *)
Theorem commit_group_in_order begin es schema :
  let s := apply_events es ChangeSet.new in
  let log := concat (log_groups (log_events es ChangeSet.new (mkLog [] []))) in
  let l := tail (commit_records begin s schema) in
  data_in l = map data_record log ∧ ops_in l = map statement schema ∧
  (StronglySorted le (map position_ schema) → ∀ l1 op l2, l = l1 ++ Standalone op :: l2 →
    ∃ q, schema !! length (ops_in l1) = Some q ∧ op_ q = op ∧ length (data_in l1) = Nat.min (position_ q) (length log)).
Proof.
  destruct (events_keep es ChangeSet.new new_set_ok) as [Hs Hm]. change (meaning ChangeSet.new) with (mkLog [] []) in Hm. cbn zeta. rewrite <- Hm. cbn [commit_records tail].
  rewrite (set_records_log _ _ (log_records_groups _ Hs)). set (log := concat _). assert (Hd : Forall (λ r, is_data r = true) (map data_record log)) by (apply Forall_map, Forall_true; done).
  destruct (with_schema_parts 0 _ schema Hd) as [H1 H2]. split_and!; [done|done|]. intros Hsort l1 op l2 Hl.
  destruct (with_schema_places 0 _ schema l1 op l2 Hd Hsort ltac:(apply Forall_true; lia) Hl) as (q & Hq & Ho & Hlen). rewrite length_map in Hlen. by exists q.
Qed.
End layout.

(** ** A run

    Commits of two change sets and a change outside them, one commit whose
    frame write fails, a sync, a crash, and the replay. *)
Module ReplaySamples.
#[local] Existing Instance sample_env.
#[local] Existing Instance LogSamples.varint.
#[local] Existing Instance LogSamples.blobs.

(** A database that keeps what is applied to it, and the times. *)
Record journal : Type := mkJournal { applied : list LogRecord; times : list (Z * Z) }.
Definition note (r : LogRecord) (t : journal) : journal := mkJournal (applied t ++ [r]) (times t).
Definition created (name : str) (r : LogRecord) : bool := match r with Standalone (CreateGraph n) => bool_decide (n = name) | _ => false end.

#[local] Instance journals : Targets := {|
  targets := journal; store_error := unit; has_graph := λ name t, existsb (created name) (applied t);
  store_apply := λ g op _ t, (Ok tt, note (DataRecord g op) t); insert_into := λ g tr t, note (DataRecord g (InsertTriple tr)) t; remove_from := λ g tr t, note (DataRecord g (DeleteTriple tr)) t;
  apply_rdf := λ op t, (Ok tt, note (Standalone (RdfGraph op)) t); apply_catalog := λ op t, (Ok tt, note (Standalone op) t);
  sync_epoch := λ _ t, t; record_commit_time := λ e ms t, mkJournal (applied t) (times t ++ [(e, ms)]) |}.

Definition nothing : targets := mkJournal [] [].

Definition good : group_io := mkGroupIo SyncFails (λ _, ok_io) ok_io CutOk.
Definition bad : group_io := mkGroupIo SyncFails (λ _, ok_io) (mkIo [] (WriteFails 40) CutOk) CutOk.
Definition queued : list QueuedSchemaOp := [mkQueued (CreateGraph [103]) 1; mkQueued (CreateGraph [104]) 9].
Definition named_events : list change_event := [TakeSlot (mkGraph Lpg (Some [103])); Push 0 (CreateNode 9 [[80]] []) Absent Created].
Definition begin (epoch : Z) : GroupBegin := mkGroupBegin epoch (1700 + epoch) LogRecord.Transaction.

Definition first_set : ChangeSet.t := apply_events sample_events ChangeSet.new.
Definition named_set : ChangeSet.t := apply_events named_events ChangeSet.new.

Definition sample_log : list log_op :=
  [ CommitOp 5 (begin 1) first_set queued good; SyncOp true; MarkerOp ok_io; ChangeOp 6 (begin 1) [CreateGraph [105]] good;
    CommitOp 7 (begin 2) named_set [] bad; CommitOp 8 (begin 2) named_set [] good ].

Definition sample_result : Wal * list logged := run_log sample_log (new_wal 77 4096 40 100 1000 None).

Lemma record_ok_begin e : 0 ≤ e < 100 → record_ok (Group (begin e)).
Proof. intros He. cbn. unfold is_u64. lia. Qed.

Lemma record_ok_graph s : utf8_valid s = true → record_ok (Standalone (CreateGraph s)).
Proof. done. Qed.

Lemma record_ok_node g id labels : graph_ok g → is_u64 id → Forall (λ s, utf8_valid s = true) labels → record_ok (DataRecord g (CreateNode id labels [])).
Proof. intros Hg Hid Hl. split; [done|]. by split_and!. Qed.

Ltac sample_ok := repeat apply Forall_cons_2; try apply Forall_nil_2;
  lazymatch goal with
  | |- record_ok (Group _) => apply record_ok_begin; lia
  | |- record_ok (Standalone _) => apply record_ok_graph; reflexivity
  | |- record_ok (DataRecord _ _) => apply record_ok_node; [by intros s [= <-]|unfold is_u64; lia|repeat constructor]
  end.

Lemma first_ok : Forall record_ok (commit_records (begin 1) first_set queued).
Proof.
  assert (Hr : set_records first_set = [DataRecord None (CreateNode 1 [[80]] []); DataRecord None (CreateNode 5 [] [])]) by (vm_compute; reflexivity).
  unfold commit_records. rewrite Hr. cbn [with_schema due queued position_ op_ map app Nat.leb]. sample_ok.
Qed.

Lemma named_ok : Forall record_ok (commit_records (begin 2) named_set []).
Proof.
  assert (Hr : set_records named_set = [DataRecord (Some [103]) (CreateNode 9 [[80]] [])]) by (vm_compute; reflexivity).
  unfold commit_records. rewrite Hr. cbn [with_schema due map app]. sample_ok.
Qed.

Lemma sample_log_ok : Forall log_op_ok sample_log.
Proof.
  unfold sample_log. repeat apply Forall_cons_2; try apply Forall_nil_2; cbn [log_op_ok]; try exact I; (split; [unfold is_u64; lia|]);
    first [exact first_ok | exact named_ok | unfold standalone_records; cbn [map]; sample_ok].
Qed.

Lemma quiet_cut db n seg : quiet db (cut n seg) = true → ¬ lookalike db (cut n seg) (first_lsn seg).
Proof. exact (quiet_no_lookalike db (cut n seg)). Qed.

Lemma sample_log_quiet : ¬ lookalike 77 (cut 2000 (wal_active sample_result.1)) (first_lsn (wal_active sample_result.1)).
Proof. apply quiet_cut. vm_compute. reflexivity. Qed.

Lemma sample_result_eq : run_log sample_log (new_wal 77 4096 40 100 1000 None) = (sample_result.1, sample_result.2).
Proof. exact (surjective_pairing (run_log sample_log (new_wal 77 4096 40 100 1000 None))). Qed.

Lemma replay_restores_commits_witness :
  length sample_result.2 = 3%nat ∧
  ∃ e, replay 77 1000 false 20 (crashed 2000 sample_result.1) nothing =
    Some (Ok (e, 3%nat), mkJournal
      [ DataRecord None (CreateNode 1 [[80]] []); Standalone (CreateGraph [103]); DataRecord None (CreateNode 5 [] []); Standalone (CreateGraph [104]);
        Standalone (CreateGraph [105]); DataRecord (Some [103]) (CreateNode 9 [[80]] []) ]
      [(1, 1701); (1, 1701); (2, 1702)]).
Proof.
  split; [vm_compute; reflexivity|].
  destruct (replay_restores_commits 77 4096 40 100 1000 None sample_log 2000 false 20 sample_result.1 sample_result.2 nothing
    (proj1 (is_u64b_spec 1000) eq_refl) sample_log_ok sample_result_eq sample_log_quiet) as (e & He).
  exists e. rewrite He. vm_compute. reflexivity.
Defined.

(** The same set at the epochs 1 and 2, over a backend that holds epoch 1. *)
Definition backend_log : list log_op := [CommitOp 5 (begin 1) first_set [mkQueued (CreateGraph [103]) 0] good; CommitOp 8 (begin 2) first_set [] good].
Definition backend_result : Wal * list logged := run_log backend_log (new_wal 77 4096 40 100 1000 None).

Lemma first_records : set_records first_set = [DataRecord None (CreateNode 1 [[80]] []); DataRecord None (CreateNode 5 [] [])].
Proof. vm_compute. reflexivity. Qed.

Lemma backend_log_ok : Forall log_op_ok backend_log.
Proof.
  unfold backend_log. repeat apply Forall_cons_2; try apply Forall_nil_2; cbn [log_op_ok]; (split; [unfold is_u64; lia|]); unfold commit_records; rewrite first_records;
    cbn [with_schema due position_ op_ map app Nat.leb]; sample_ok.
Qed.

Lemma backend_result_eq : run_log backend_log (new_wal 77 4096 40 100 1000 None) = (backend_result.1, backend_result.2).
Proof. exact (surjective_pairing (run_log backend_log (new_wal 77 4096 40 100 1000 None))). Qed.

Definition plainb (r : LogRecord) : bool := match r with DataRecord None op => bool_decide (model_of op = Lpg) | DataRecord _ _ => false | _ => true end.

Lemma plainb_plain xs : forallb (λ x, forallb plainb (lg_records x)) xs = true → Forall (λ x, Forall plain (lg_records x)) xs.
Proof.
  rewrite forallb_forall, Forall_forall. intros Hx x Hin. specialize (Hx x (proj1 (list_elem_of_In _ _) Hin)). rewrite forallb_forall in Hx. apply Forall_forall. intros r Hr.
  specialize (Hx r (proj1 (list_elem_of_In _ _) Hr)). destruct r as [g|[name|] op|op]; try done. cbn in *. by apply bool_decide_eq_true in Hx.
Qed.

Lemma backend_replay_skips_durable_witness :
  length backend_result.2 = 2%nat ∧
  ∃ e, replay_into_backend 77 1000 false 20 (crashed 2000 backend_result.1) 1 nothing =
    Some (Ok (e, 2%nat), (mkJournal [Standalone (CreateGraph [103]); DataRecord None (CreateNode 1 [[80]] []); DataRecord None (CreateNode 5 [] [])] [(1, 1701); (2, 1702)], 2)).
Proof.
  split; [vm_compute; reflexivity|].
  assert (Hq : ¬ lookalike 77 (cut 2000 (wal_active backend_result.1)) (first_lsn (wal_active backend_result.1))) by (apply quiet_cut; vm_compute; reflexivity).
  assert (Hp : Forall (λ x, Forall plain (lg_records x)) backend_result.2) by (apply plainb_plain; vm_compute; reflexivity).
  destruct (backend_replay_skips_durable 77 4096 40 100 1000 None backend_log 2000 false 20 1 backend_result.1 backend_result.2 nothing
    (proj1 (is_u64b_spec 1000) eq_refl) backend_log_ok backend_result_eq Hq Hp) as (e & He).
  exists e. rewrite He. vm_compute. reflexivity.
Defined.

(** The statement of position 1 stands between the two data records. *)
Lemma commit_group_in_order_witness :
  tail (commit_records (begin 1) first_set queued) = [DataRecord None (CreateNode 1 [[80]] []); Standalone (CreateGraph [103]); DataRecord None (CreateNode 5 [] []); Standalone (CreateGraph [104])] ∧
  ∃ q, queued !! 1%nat = Some q ∧ op_ q = CreateGraph [104] ∧ 2%nat = Nat.min (position_ q) 2.
Proof.
  assert (Hl : tail (commit_records (begin 1) first_set queued) = [DataRecord None (CreateNode 1 [[80]] []); Standalone (CreateGraph [103]); DataRecord None (CreateNode 5 [] []); Standalone (CreateGraph [104])])
    by (vm_compute; reflexivity).
  split; [exact Hl|]. destruct (commit_group_in_order (begin 1) sample_events queued) as (_ & _ & Hplace).
  apply (Hplace ltac:(repeat constructor; lia) [DataRecord None (CreateNode 1 [[80]] []); Standalone (CreateGraph [103]); DataRecord None (CreateNode 5 [] [])] (CreateGraph [104]) []).
  exact Hl.
Defined.
End ReplaySamples.
